(* ===== verification/_CoqProject ===== *)
-Q . S2P
Prelude.v
KVStore.v
MergeIter.v
MVItem.v
MVStore.v
MVReplay.v
MVKV.v
MVSpec.v
Scheduler.v
SchedulerRuns.v
SchedulerInv.v
SchedulerSeq.v
SchedulerExec.v
SchedulerVal.v
SchedulerLoop.v
Serializability.v
SchedulerLive.v
CacheKV.v
CacheView.v
CacheIterate.v
CacheSpec.v
CacheSearch.v
Coins.v
CoinsSpec.v
Decimal.v
DecimalSpec.v
Vesting.v
VestingSpec.v
Bank.v
BankSpec.v
BankInv.v
BankSupply.v
BankOps.v
BankErrors.v
StateDB.v
StateDBEquiv.v
StateDBRevert.v
StateDBSpec.v
PrefixStore.v
EVMKeeper.v
EVMKeeperSpec.v
Proto.v
ProtoSpec.v
EVMTypes.v
EVMBlock.v
EVMBlockSpec.v
EVMPrune.v
EVMSettle.v
EVMEndBlock.v
AVL.v
AVLPure.v
AVLHeap.v
AVLOps.v
AVLTree.v
AVLProof.v
AVLCopies.v
MultiTree.v
MultiTreeSpec.v
MultiTreeReplay.v
MultiTreeRecover.v
AVLExamples.v
Valset.v
ValsetPrio.v
ValsetFair.v
ValsetUpdate.v
Merkle.v
MerkleSpec.v
BitArray.v
BitArraySpec.v
SignBytes.v
SignBytesSpec.v
PartSet.v
PartSetSpec.v
Commit.v
CommitSpec.v
VoteSet.v
VoteSetSpec.v
VoteSetRuns.v
ConsensusExamples.v
Examples.v
