(* ===== verification/Prelude.v ===== *)
(** * A verification of the state machine of sei-chain

    sei-chain is a blockchain application in Go: a modified Cosmos SDK
    ([sei-cosmos]) with an EVM module ([x/evm]) on top of key-value stores.  This
    development translates the parts of it that decide what a block does to the
    state into Rocq functions and step relations, and proves them correct.

    ** The program and its parts

    A block is a list of transactions.  The scheduler ([sei-cosmos/tasks]) runs them
    optimistically in parallel, each against a version-indexed view of a multi-version
    store ([sei-cosmos/store/multiversion]); it validates their readsets and iterations,
    runs again what conflicted, and writes the last versions to the stores below.  A
    transaction of the EVM works on a state database ([x/evm/state]) whose snapshots are
    towers of cached stores ([sei-cosmos/store/cachekv]) and whose temporary state has a
    journal.  The state database calls the EVM keeper ([x/evm/keeper]), which keeps
    storage, code, nonces and address associations under prefixes of one store
    ([sei-cosmos/store/prefix]) and balances in the bank ([sei-cosmos/x/bank]), with
    amounts from [sei-cosmos/types] and locked coins from the vesting accounts
    ([sei-cosmos/x/auth/vesting]).  At the borders of a block the keeper settles tips and
    surplus, adjusts the base fee and cleans up its stores; what transactions leave for it
    is in messages of the protobuf wire format ([x/evm/types]).  What a block wrote is
    committed to memiavl ([sei-db/state_db/sc/memiavl]): one balanced tree per module
    with a Merkle root, nodes shared between copies and changed in place or cloned by their
    version, and a log of the change sets from which a node that restarts rebuilds them.

    Which block is next is decided by the consensus of [sei-tendermint].  Validators take
    turns to propose in proportion to their power ([types/validator_set.go]); a block is sent
    in parts with Merkle proofs ([types/part_set.go], [crypto/merkle]); the votes of validators
    for a block are signed over canonical bytes ([types/canonical.go]) and collected in vote
    sets ([types/vote_set.go]), and more than two thirds of the power make a commit
    ([types/block.go]) that full nodes and light clients verify ([types/validation.go]).

    ** Files

    - [Prelude]: bytes and their order, lemmas on lists and options, sums over lists, and
      the class of SHA-256.
    - [KVStore]: the interface of a store as a class with laws; [MergeIter]: the iterator
      that merges a parent with a cache; [PrefixStore]: prefix stores.
    - [MVItem], [MVStore], [MVKV]: the multi-version store and the view of one transaction;
      [MVSpec], [MVReplay]: their theorems.
    - [Scheduler]: tasks and the phases of [ProcessAll]; [SchedulerRuns], [SchedulerInv],
      [SchedulerSeq], [SchedulerExec], [SchedulerVal], [SchedulerLoop]: its invariants;
      [Serializability], [SchedulerLive]: what it computes and that it ends.
    - [CacheKV], [CacheSearch]: the cached store; [CacheView], [CacheIterate], [CacheSpec]:
      its refinement of a stack of maps.
    - [Coins], [Decimal], [Vesting] and their [Spec] files: amounts and vesting schedules.
    - [Bank]: the bank keeper; [BankSpec], [BankInv], [BankSupply], [BankOps]: the
      ledger behind it, the supply invariant and its check; [BankErrors]: operations that cannot
      fail.
    - [StateDB]: the state database; [StateDBEquiv], [StateDBRevert], [StateDBSpec]: its
      refinement of a machine that copies.
    - [EVMKeeper], [EVMKeeperSpec]: the keeper over prefix stores and bank.
    - [Proto], [ProtoSpec], [EVMTypes]: the wire format and the messages.
    - [EVMBlock]: the borders of a block; [EVMBlockSpec]: the base fee; [EVMPrune]: pruning;
      [EVMSettle], [EVMEndBlock]: the settlement and that it returns.
    - [AVL]: nodes, trees, iterators and proofs of memiavl on a heap of nodes; [AVLPure]:
      balanced search trees as values; [AVLHeap], [AVLOps], [AVLTree]: the code computes them
      in the heap and iterates over them, and what it leaves alone; [AVLCopies]: several trees
      that share nodes; [AVLProof]: proofs.
    - [MultiTree]: named trees, the pending log entry, commits and the replay of the log;
      [MultiTreeSpec], [MultiTreeReplay], [MultiTreeRecover]: a block on the trees and in the
      replay, and recovery after a restart.
    - [Valset]: validators and validator sets with their clipped
      arithmetic; [ValsetPrio], [ValsetFair]: priorities and the turns of proposers;
      [ValsetUpdate]: change sets and the map of powers behind a set.
    - [Merkle], [MerkleSpec]: roots of item lists, proofs and their verification.
    - [BitArray], [BitArraySpec]: bit arrays, bit by bit.
    - [SignBytes], [SignBytesSpec]: block identifiers, votes and the bytes that are signed.
    - [PartSet], [PartSetSpec]: blocks in parts, from the sender to the reader.
    - [Commit], [CommitSpec]: commits, their verification and accountability.
    - [VoteSet]: vote sets; [VoteSetSpec], [VoteSetRuns]: their invariant,
      the majorities they find, and commits made of them and read back.
    - [AVLExamples], [ConsensusExamples], [Examples]: concrete states on which the theorems are applied.

    ** How the code is modelled

    Names are those of the source where Rocq allows it; a comment names the Go function
    where it does not.  Bytes and strings are [list Z], a slice that may be nil is an
    option of it.  A struct is a record, a Go map a [gmap], and a method that mutates its
    receiver returns the new one.  A panic is [None] (or [Panic] while decoding); an error
    that is returned is a value of a sum, with the state as it was changed before.
    Integers of a fixed width wrap or are checked where the code does either; [sdk.Int] has
    256 bits and [sdk.Dec] 315.  The monads [BM] (bank), [DB] (state database), [KM]
    (block borders), [HM] (the heap of tree nodes) and [res] (decoding) thread the state as the code does.  Goroutines of
    the scheduler are the interleavings of a step relation whose steps are the operations
    on shared state.

    Code outside the repository is a parameter: the database below the stores and the
    transient store are any instance of [KVStore] with its laws, the B-tree of an item and
    the in-memory database are classes with laws, and [keccak], bloom filters, the root
    hash of an empty list, bech32 and the transaction hash are function arguments about
    which nothing is assumed.  SHA-256 is a function argument; only proofs assume that its
    results have 32 bytes and that the ICS23 package folds a proof as it documents, and
    nothing is assumed of collisions: where a statement fails with one, it says so.  The log
    of changes is a record of its first and last offset and its entries.  The encoding of
    time stamps ([StdTime]) and the signature scheme ([Crypto]) are classes: the laws are that
    times are read back from what was written, in at most 17 bytes, and that a batch that is
    not empty is valid exactly when each of its signatures is.  Nothing is assumed about who can make a signature.

    ** What is shown

    - Parallel execution: whatever the workers interleave, [ProcessAll] ends, and with the
      responses and the store contents of the sequential execution, as long as no
      empty values are involved; with them there is a counterexample.
    - Stores: the multi-version store is a map from transactions to writesets, validation of
      iterators accepts what would repeat and no estimate before the stop, cached stores are a
      stack of maps, prefix stores are submaps.
    - Money: coin sets add and subtract pointwise, decimals round as documented, vested
      coins are those of the schedule of each kind of account and stay vested, every bank operation changes the ledger by exactly
      what it says and the supply stays backed to the wei along all histories.
    - EVM: reverting the journal is restoring a copy, balance operations conserve value
      together with the surplus, and the end of a block pays tips and surplus into accounts
      so that the supply is backed again, without panics on the way when the block is in
      order; the base fee moves within its bounds when the block has a gas limit; pruning is invisible and sweeps the whole storage; messages
      survive the wire and arbitrary bytes never make decoding panic.
    - Commitment: a memiavl tree and its copies are independent sorted maps although they
      share nodes that are changed in place, as long as a copy is taken of a saved version;
      every change leaves a balanced search tree; proofs of entries that are not empty
      compute to the root hash; replaying the log gives back trees, versions and hashes if
      no call has two change sets for a store.  Three comments of the code that claim more
      have counterexamples ([AVLExamples]).
    - Consensus: along all change sets a validator set is a map of powers, changes are
      accepted exactly when they should be, no priority is clipped and every validator has
      its share of the turns up to six; Merkle roots determine the items and proofs their
      place, and parts of a block that verify put it together again, with a flaw: proofs of
      another number of parts are accepted; sign bytes determine the vote; a majority of a vote
      set is backed by valid votes of more than two thirds of the power, whatever the order,
      conflicts and claims of peers, while votes for ill-formed blocks panic; commits made of it verify and read back; accepted
      commits have the signatures they need, and two for different blocks convict validators
      with more than a third of the power.

    ** Bounds and fuel

    Loops that are not structural take fuel that is enough: a varint has at most 10 groups
    and the reader gives up after them; decoding advances at every field and skipping at
    every tag, so the length of the input and one more is enough; iterators are given the
    number of entries and one more.  That the fuel never runs out is part of the theorems
    (they conclude with a result, not with one if there is one).  [ProcessAll] has the
    bound on its turns that the code has.  Recursion on tree nodes takes 257 as fuel: heights
    are [uint8], and a balanced tree of fewer than [2 ^ 63] leaves has height 90 at most.
    Merkle trees halve their items and take their number and one more.
    That several increments of priorities in a row are not clipped is shown for at most 45
    validators, since the total power may be an eighth of the largest [int64]; one increment
    between two changes is not clipped for any number of validators.

    ** Granularity

    The readset check of a transaction ([findConflicts]) is one step of the scheduler, and
    transaction programs read, write and delete but do not iterate.  Iterators are drained
    when they are opened: code that writes to a store while it iterates over it, as pruning
    does, sees the entries at the opening.  Contexts are values: that branching a context
    by wrapping its store and writing it back behaves as copying it is what the refinement
    of cached stores shows.  A bank operation that fails leaves its writes, and histories
    drop them as the transaction that made it would.  During the replay of the log a
    goroutine per tree applies the change sets; trees of different names share no nodes, so
    they are applied in the order in which they are sent.

    ** Not modelled

    The go-ethereum interpreter and the wasm virtual machine are third-party packages, and
    with them the message server of the EVM, the ante handlers around it and the
    precompiles.  Replay, block-test and tracing modes, hooks, listeners, metrics, logs and
    mock balances are left out of the modelled files.  Networking, the RPC servers, command
    lines and the database engines are I/O, with them the snapshot files of memiavl, the
    persisted nodes read from them and their background rewriting.  The state machine of the
    consensus is a loop over timers, sockets and goroutines with a write-ahead log; the votes,
    validator sets, part sets and commits it works on are modelled, without their JSON, texts and
    conversions to protobuf structs.  The other modules of the SDK, the oracle and the giga
    executor, a second copy of the EVM and bank modules over in-memory stores, are not
    modelled. *)
From stdpp Require Import base gmap sets list strings sorting.
From Stdlib Require Import Lia ZArith.

(** ** Byte strings.

    Go's [string] and non-nil [[]byte] are [list Z] (each element a byte); a
    possibly nil [[]byte] is [option bytes], with [None] for [nil] so that the
    nil slice and the empty slice stay distinct, as [==nil] tells them apart. *)
Abbreviation bytes := (list Z).
Abbreviation Address := bytes.
Abbreviation AccAddress := bytes.
Abbreviation Hash := bytes.

(** SHA-256 gives 32 bytes. *)
Class Sha256 (sha256 : bytes -> bytes) : Prop := { sha256_length : forall b, length (sha256 b) = 32%nat }.
(** A function to 32 bytes in the place of SHA-256, for examples. *)
Definition toy_sha256 (b : bytes) : bytes := resize 32 0%Z b.
#[export] Instance toy_Sha256 : Sha256 toy_sha256.
Proof. split. intros b. apply length_resize. Qed.

Declare Scope sei_scope.
Delimit Scope sei_scope with sei.

Create HintDb sei.

(** [bytes.Compare]: lexicographic order on bytes. *)
Fixpoint bytes_compare (a b : bytes) : comparison :=
  match a, b with
  | [], [] => Eq
  | [], _ :: _ => Lt
  | _ :: _, [] => Gt
  | x :: a', y :: b' =>
      match Z.compare x y with
      | Eq => bytes_compare a' b'
      | c => c
      end
  end.

Definition bytes_lt (a b : bytes) : Prop := bytes_compare a b = Lt.
Definition bytes_le (a b : bytes) : Prop := bytes_compare a b <> Gt.

Infix "<b" := bytes_lt (at level 70) : sei_scope.
Infix "<=b" := bytes_le (at level 70) : sei_scope.
Open Scope sei_scope.

(** [bytes.Equal]: the nil slice and the empty slice are equal. *)
Definition bytes_equal (a b : option bytes) : bool :=
  bool_decide (default [] a = default [] b).

Lemma bytes_compare_refl a : bytes_compare a a = Eq.
Proof. induction a as [|x a IH]; simpl; [done|]. by rewrite Z.compare_refl. Qed.

Lemma bytes_compare_eq a b : bytes_compare a b = Eq <-> a = b.
Proof.
  split; [|intros ->; apply bytes_compare_refl].
  revert b; induction a as [|x a IH]; intros [|y b]; simpl; try done.
  destruct (Z.compare_spec x y); try done. subst. intros H. f_equal. auto.
Qed.

Lemma bytes_compare_antisym a b : bytes_compare b a = CompOpp (bytes_compare a b).
Proof.
  revert b; induction a as [|x a IH]; intros [|y b]; simpl; try done.
  rewrite (Z.compare_antisym x y). destruct (Z.compare x y); simpl; auto.
Qed.

Lemma bytes_lt_irrefl a : ~ a <b a.
Proof. unfold bytes_lt. by rewrite bytes_compare_refl. Qed.

Lemma bytes_lt_trans a b c : a <b b -> b <b c -> a <b c.
Proof.
  unfold bytes_lt. revert b c.
  induction a as [|x a IH]; intros [|y b] [|z c]; simpl; try done.
  destruct (Z.compare_spec x y); destruct (Z.compare_spec y z); try done; subst;
    intros H1 H2.
  - rewrite Z.compare_refl. eauto.
  - by rewrite (proj2 (Z.compare_lt_iff _ _)).
  - by rewrite (proj2 (Z.compare_lt_iff _ _)).
  - rewrite (proj2 (Z.compare_lt_iff x z)); [done|lia].
Qed.

Lemma bytes_le_lteq a b : a <=b b <-> a <b b \/ a = b.
Proof.
  unfold bytes_le, bytes_lt. rewrite <- bytes_compare_eq.
  destruct (bytes_compare a b); naive_solver.
Qed.

Lemma bytes_le_lt_trans a b c : a <=b b -> b <b c -> a <b c.
Proof. intros [Hab| ->]%bytes_le_lteq Hbc; [by eapply bytes_lt_trans|done]. Qed.

Lemma bytes_not_lt a b : ~ a <b b <-> b <=b a.
Proof.
  unfold bytes_le, bytes_lt. rewrite (bytes_compare_antisym a b).
  destruct (bytes_compare a b); naive_solver.
Qed.

Lemma bytes_trichotomy a b : a <b b \/ a = b \/ b <b a.
Proof.
  unfold bytes_lt. rewrite (bytes_compare_antisym a b), <- bytes_compare_eq.
  destruct (bytes_compare a b); naive_solver.
Qed.

#[export] Instance bytes_lt_dec : RelDecision bytes_lt.
Proof. intros a b. unfold bytes_lt. solve_decision. Defined.
#[export] Instance bytes_le_dec : RelDecision bytes_le.
Proof. intros a b. unfold bytes_le. solve_decision. Defined.

#[export] Instance bytes_lt_strict : StrictOrder bytes_lt.
Proof. split; [intros a; apply bytes_lt_irrefl | intros a b c; apply bytes_lt_trans]. Qed.

#[export] Instance bytes_le_trans : Transitive bytes_le.
Proof.
  intros a b c. rewrite !bytes_le_lteq. intros [?| ->] [?| ->]; eauto using bytes_lt_trans.
Qed.

#[export] Instance bytes_le_antisymm : AntiSymm (=) bytes_le.
Proof.
  intros a b. rewrite !bytes_le_lteq. intros [H1| ->] [H2|?]; try done.
  destruct (bytes_lt_irrefl a). by eapply bytes_lt_trans.
Qed.

#[export] Instance bytes_le_total : Total bytes_le.
Proof.
  intros a b. rewrite !bytes_le_lteq. destruct (bytes_trichotomy a b) as [?|[?|?]]; auto.
Qed.

#[export] Instance bytes_le_preorder : PreOrder bytes_le.
Proof. split; [|apply _]. intros a. apply bytes_le_lteq. by right. Qed.

(** [sort.Strings]. *)
Definition sort_strings (l : list bytes) : list bytes := merge_sort bytes_le l.

Lemma sort_strings_perm l : sort_strings l ≡ₚ l.
Proof. apply merge_sort_Permutation. Qed.

Lemma elem_of_sort_strings k l : k ∈ sort_strings l <-> k ∈ l.
Proof. by rewrite sort_strings_perm. Qed.

(** ** Lists. *)
Lemma StronglySorted_filter' {A} (R : A -> A -> Prop) (Q : A -> Prop) `{forall x, Decision (Q x)}
    (l : list A) : StronglySorted R l -> StronglySorted R (filter Q l).
Proof.
  induction 1 as [|x l Hl IH Hx]; [constructor|]. rewrite filter_cons.
  case_decide; [|done]. constructor; [done|]. rewrite Forall_forall in Hx |- *.
  intros y Hy%list_elem_of_filter. naive_solver.
Qed.

Lemma filter_all {A} (Q : A -> Prop) `{forall x, Decision (Q x)} (l : list A) :
  (forall x, x ∈ l -> Q x) -> filter Q l = l.
Proof.
  induction l as [|x l IH]; intros Hall; [done|]. rewrite filter_cons.
  rewrite decide_True by (apply Hall; apply elem_of_cons; by left).
  f_equal. apply IH. intros y Hy. apply Hall. apply elem_of_cons. by right.
Qed.

Lemma filter_ext_on {A} (Q R : A -> Prop) `{forall x, Decision (Q x), forall x, Decision (R x)} (l : list A) :
  (forall x, x ∈ l -> Q x <-> R x) -> filter Q l = filter R l.
Proof.
  induction l as [|x l IH]; intros Hl; [done|]. rewrite !filter_cons, IH by (intros y ?; apply Hl; by right).
  destruct (decide (Q x)), (decide (R x)); try done; by destruct (Hl x ltac:(left)); tauto.
Qed.
Lemma filter_none {A} (Q : A -> Prop) `{forall x, Decision (Q x)} (l : list A) : (forall x, x ∈ l -> ~ Q x) -> filter Q l = [].
Proof. induction l as [|x l IH]; intros Hl; [done|]. rewrite filter_cons_False by (apply Hl; left). apply IH. intros y Hy. apply Hl. by right. Qed.

Lemma StronglySorted_snoc {A} (R : A -> A -> Prop) l x :
  StronglySorted R l -> Forall (fun y => R y x) l -> StronglySorted R (l ++ [x]).
Proof.
  induction 1 as [|y l Hl IH Hy]; intros Hx; simpl; [by repeat constructor|].
  apply Forall_cons in Hx as [Hyx Hx]. constructor; [by apply IH|]. apply Forall_app. by repeat constructor.
Qed.

(** [binary.PutUvarint] of the standard library. *)
Fixpoint uvarint_groups (fuel : nat) (x : Z) : bytes :=
  match fuel with
  | O => []
  | S fuel => if bool_decide (128 <= x)%Z then Z.lor (Z.land x 255) 128 :: uvarint_groups fuel (Z.shiftr x 7) else [x]
  end.
Definition PutUvarint (x : Z) : bytes := uvarint_groups 10 x.

Local Open Scope Z_scope.
(** Sums of integers over lists, shared by the ledgers of the bank and by voting power. *)
Section ListSums.
Context {A : Type}.
Definition list_sum (f : A -> Z) (l : list A) : Z := foldr (fun x acc => f x + acc) 0 l.

#[export] Instance list_sum_perm f : Proper (Permutation ==> eq) (list_sum f).
Proof. intros l l' H. induction H; simpl; lia. Qed.

Lemma list_sum_app f l l' : list_sum f (l ++ l') = list_sum f l + list_sum f l'.
Proof. induction l as [|x l IH]; simpl; [done|lia]. Qed.

Lemma list_sum_ext f g l : (forall x, x ∈ l -> f x = g x) -> list_sum f l = list_sum g l.
Proof.
  induction l as [|x l IH]; intros H; simpl; [done|]. rewrite (H x) by left. rewrite IH; [done|]. intros y ?. apply H. by right.
Qed.

(** One value of the summand changes. *)
Lemma list_sum_update `{EqDecision A} f g x l :
  NoDup l -> (forall y, y <> x -> f y = g y) -> list_sum f l = list_sum g l + if bool_decide (x ∈ l) then f x - g x else 0.
Proof.
  intros Hnd Hne. induction Hnd as [|y l Hy Hnd IH]; [by rewrite bool_decide_eq_false_2 by (by intros ?%elem_of_nil)|]. simpl.
  rewrite IH. destruct (decide (y = x)) as [->|Hyx].
  - rewrite (bool_decide_eq_false_2 (x ∈ l)), (bool_decide_eq_true_2 (x ∈ x :: l)) by (done || left). lia.
  - rewrite Hne by done. rewrite (bool_decide_ext (x ∈ y :: l) (x ∈ l)); [lia|]. rewrite elem_of_cons. naive_solver.
Qed.
End ListSums.

Lemma list_sum_fmap {A B} (g : A -> B) f l : list_sum f (g <$> l) = list_sum (fun x => f (g x)) l.
Proof. induction l as [|x l IH]; csimpl; [done|]. by rewrite IH. Qed.

Lemma list_sum_nonneg {A} (f : A -> Z) l : (forall x, x ∈ l -> 0 <= f x) -> 0 <= list_sum f l.
Proof.
  induction l as [|x l IH]; intros H; simpl; [done|]. pose proof (H x ltac:(left)).
  assert (0 <= list_sum f l) by (apply IH; intros y ?; apply H; by right). lia.
Qed.

Lemma list_sum_le {A} (f g : A -> Z) l : (forall x, x ∈ l -> f x <= g x) -> list_sum f l <= list_sum g l.
Proof.
  induction l as [|x l IH]; intros H; simpl; [done|]. pose proof (H x ltac:(left)).
  assert (list_sum f l <= list_sum g l) by (apply IH; intros y ?; apply H; by right). lia.
Qed.
Lemma list_sum_add {A} (f g : A -> Z) l : list_sum (fun x => f x + g x) l = list_sum f l + list_sum g l.
Proof. induction l; simpl; lia. Qed.
Lemma list_sum_const {A} c (l : list A) : list_sum (fun _ => c) l = Z.of_nat (length l) * c.
Proof. induction l; simpl; lia. Qed.
Lemma list_sum_scale {A} c (f : A -> Z) l : list_sum (fun x => c * f x) l = c * list_sum f l.
Proof. induction l; simpl; lia. Qed.
Lemma list_sum_lower {A} (f : A -> Z) c l : (forall x, x ∈ l -> c <= f x) -> Z.of_nat (length l) * c <= list_sum f l.
Proof. intros H. rewrite <- (list_sum_const c l). by apply list_sum_le. Qed.
Lemma list_sum_upper {A} (f : A -> Z) c l : (forall x, x ∈ l -> f x <= c) -> list_sum f l <= Z.of_nat (length l) * c.
Proof. intros H. rewrite <- (list_sum_const c l). by apply list_sum_le. Qed.
Lemma list_sum_elem {A} (f : A -> Z) l x : (forall y, y ∈ l -> 0 <= f y) -> x ∈ l -> f x <= list_sum f l.
Proof.
  intros Hp Hx. apply list_elem_of_split in Hx as (l1 & l2 & ->). rewrite list_sum_app. simpl.
  assert (0 <= list_sum f l1) by (apply list_sum_nonneg; intros y ?; apply Hp; set_solver).
  assert (0 <= list_sum f l2) by (apply list_sum_nonneg; intros y ?; apply Hp; set_solver). lia.
Qed.
Lemma list_sum_insert {A} (f : A -> Z) l i x y : l !! i = Some x -> list_sum f (<[i := y]> l) = list_sum f l - f x + f y.
Proof. revert i. induction l as [|z l IH]; intros [|i]; simpl; try done; [intros [= ->]; lia|]. intros H. rewrite (IH _ H). lia. Qed.
Lemma list_sum_foldl {A} (f : A -> Z) l : forall acc, foldl Z.add acc (f <$> l) = acc + list_sum f l.
Proof. induction l as [|x l IH]; intros acc; csimpl; [lia|]. rewrite IH. lia. Qed.
