(* ===== verification/KVStore.v ===== *)
(** The key-value store interface ([sei-cosmos/store/types/store.go], [KVStore])
    as the other components use it, with the laws its implementations promise.

    A store is a state of type [P]; [Set] and [Delete] return the new state and
    the two iterators return the entries in the order the iterator visits them.
    The laws give every store a finite map of its contents ([kv_view]) and hold
    for the keys [AssertValidKey] accepts (the non-empty ones).  The concrete
    instance over [gmap] is the store the witnesses run on. *)
From stdpp Require Import base gmap sets list sorting.
From Stdlib Require Import ZArith Lia.
From S2P Require Import Prelude.

(** [AssertValidKey] of [store/types/validity.go]: panics unless it is true. *)
Definition AssertValidKey (key : bytes) : bool := bool_decide (key <> []).

(** [AssertValidValue]: panics on the nil slice. *)
Definition AssertValidValue (value : option bytes) : bool := bool_decide (value <> None).

(** [dbm.IsKeyInDomain]: [start <= key], and [key < end] unless [end] is nil. *)
Definition in_domain (start end_ : option bytes) (key : bytes) : bool :=
  bool_decide (default [] start <=b key) &&
  match end_ with None => true | Some e => bool_decide (key <b e) end.

(** Iterators refuse a bound that is empty and not nil. *)
Definition bound_ok (b : option bytes) : bool := bool_decide (b <> Some []).

Class KVStore (P : Type) := {
  kv_Get : P -> bytes -> option bytes;
  kv_Set : P -> bytes -> bytes -> P;
  kv_Delete : P -> bytes -> P;
  kv_Iterator : P -> option bytes -> option bytes -> list (bytes * bytes);
  kv_ReverseIterator : P -> option bytes -> option bytes -> list (bytes * bytes)
}.

Class KVStoreLaws (P : Type) `{KVStore P} := {
  kv_view : P -> gmap bytes bytes;
  kv_Get_view : forall p k, k <> [] -> kv_Get p k = kv_view p !! k;
  kv_Set_view : forall p k v, k <> [] -> kv_view (kv_Set p k v) = <[k := v]> (kv_view p);
  kv_Delete_view : forall p k, k <> [] -> kv_view (kv_Delete p k) = delete k (kv_view p);
  kv_Iterator_sorted : forall p s e, bound_ok s = true -> bound_ok e = true ->
    StronglySorted bytes_lt ((kv_Iterator p s e).*1);
  kv_Iterator_elem : forall p s e k v, bound_ok s = true -> bound_ok e = true ->
    (k, v) ∈ kv_Iterator p s e <-> kv_view p !! k = Some v /\ in_domain s e k = true;
  kv_ReverseIterator_rev : forall p s e, bound_ok s = true -> bound_ok e = true ->
    kv_ReverseIterator p s e = reverse (kv_Iterator p s e)
}.

(** The entries of a finite map in key order, restricted to a domain. *)
Definition pair_le {A} (x y : bytes * A) : Prop := x.1 <=b y.1.
#[export] Instance pair_le_dec {A} : RelDecision (pair_le (A := A)).
Proof. intros x y. unfold pair_le. apply _. Defined.

Definition map_entries (m : gmap bytes bytes) (s e : option bytes) : list (bytes * bytes) :=
  merge_sort pair_le (filter (fun kv => in_domain s e kv.1 = true) (map_to_list m)).

Definition map_kvstore : KVStore (gmap bytes bytes) := {|
  kv_Get := fun p k => p !! k;
  kv_Set := fun p k v => <[k := v]> p;
  kv_Delete := fun p k => delete k p;
  kv_Iterator := map_entries;
  kv_ReverseIterator := fun p s e => reverse (map_entries p s e)
|}.
#[export] Existing Instance map_kvstore.

Lemma map_entries_elem m s e k v :
  (k, v) ∈ map_entries m s e <-> m !! k = Some v /\ in_domain s e k = true.
Proof.
  unfold map_entries. rewrite merge_sort_Permutation, list_elem_of_filter, elem_of_map_to_list.
  simpl. tauto.
Qed.

Lemma fst_filter_NoDup {A B} (Q : A * B -> Prop) `{forall x, Decision (Q x)} (l : list (A * B)) :
  NoDup l.*1 -> NoDup (filter Q l).*1.
Proof.
  induction l as [|x l IH]; simpl; [done|]. rewrite NoDup_cons. intros [Hx Hl].
  rewrite filter_cons. case_decide; simpl; [|auto]. apply NoDup_cons. split; [|auto].
  intros Hin. apply Hx. apply list_elem_of_fmap in Hin as (y & -> & Hy).
  apply list_elem_of_filter in Hy as [_ Hy]. by apply list_elem_of_fmap_2.
Qed.

#[export] Instance pair_le_total {A} : Total (pair_le (A := A)).
Proof. intros x y. apply (total bytes_le). Qed.

#[export] Instance pair_le_trans {A} : Transitive (pair_le (A := A)).
Proof. intros x y z. unfold pair_le. apply (transitivity (R := bytes_le)). Qed.

Lemma sorted_le_nodup_lt (l : list bytes) :
  StronglySorted bytes_le l -> NoDup l -> StronglySorted bytes_lt l.
Proof.
  induction 1 as [|x l Hl IH Hx]; [constructor|]. rewrite NoDup_cons. intros [Hn Hd].
  constructor; [auto|]. rewrite Forall_forall in Hx |- *. intros y Hy.
  destruct (proj1 (bytes_le_lteq x y) (Hx y Hy)) as [?| ->]; [done|]. by destruct Hn.
Qed.

Lemma map_entries_sorted m s e : StronglySorted bytes_lt (map_entries m s e).*1.
Proof.
  apply sorted_le_nodup_lt.
  - assert (H : StronglySorted pair_le (map_entries m s e))
      by (apply StronglySorted_merge_sort; apply _).
    induction H as [|x l Hl IH Hx]; [constructor|]. simpl. constructor; [done|].
    rewrite Forall_fmap. exact Hx.
  - unfold map_entries. rewrite merge_sort_Permutation.
    apply fst_filter_NoDup, NoDup_fst_map_to_list.
Qed.

#[export] Instance map_kvstore_laws : KVStoreLaws (gmap bytes bytes).
Proof.
  refine {| kv_view := id |}; try done.
  - intros. apply map_entries_sorted.
  - intros. apply map_entries_elem.
Defined.

(** [tm-db]'s [MemDB]: a sorted in-memory store that starts empty.  Its
    iterators return an error ([None]) on an empty, non-nil bound. *)
Class MemDB (M : Type) := {
  memdb_New : M;
  memdb_Set : M -> bytes -> bytes -> M;
  memdb_Iterator : M -> option bytes -> option bytes -> option (list (bytes * bytes));
  memdb_ReverseIterator : M -> option bytes -> option bytes -> option (list (bytes * bytes))
}.

Class MemDBLaws (M : Type) `{MemDB M} := {
  memdb_view : M -> gmap bytes bytes;
  memdb_New_view : memdb_view memdb_New = ∅;
  memdb_Set_view : forall db k v, k <> [] -> memdb_view (memdb_Set db k v) = <[k := v]> (memdb_view db);
  memdb_Iterator_entries : forall db s e,
    memdb_Iterator db s e =
    if bound_ok s && bound_ok e then Some (map_entries (memdb_view db) s e) else None;
  memdb_ReverseIterator_entries : forall db s e,
    memdb_ReverseIterator db s e =
    if bound_ok s && bound_ok e then Some (reverse (map_entries (memdb_view db) s e)) else None
}.

#[export] Instance map_memdb : MemDB (gmap bytes bytes) := {|
  memdb_New := ∅;
  memdb_Set := fun db k v => if bool_decide (k = []) then db else <[k := v]> db;
  memdb_Iterator := fun db s e =>
    if bound_ok s && bound_ok e then Some (map_entries db s e) else None;
  memdb_ReverseIterator := fun db s e =>
    if bound_ok s && bound_ok e then Some (reverse (map_entries db s e)) else None
|}.
#[export] Instance map_memdb_laws : MemDBLaws (gmap bytes bytes).
Proof.
  refine {| memdb_view := id |}; try done.
  intros db k v Hk. simpl. by rewrite bool_decide_eq_false_2.
Defined.

