(* ===== verification/MergeIter.v ===== *)
(** The iterator that merges a parent's entries with a cache's: the code is the
    same in [store/cachekv/mergeiterator.go] and
    [store/multiversion/mergeiterator.go], over different cache iterators, and is
    written here once over the interface of a cache iterator. *)
From stdpp Require Import base gmap sets list sorting.
From Stdlib Require Import ZArith Lia.
From S2P Require Import Prelude KVStore.

(** ** The cache side.

    The four methods of [types.Iterator] the merge iterator calls; they may move
    the iterator, and panic ([None]) when it is exhausted.  A nil value marks a
    deleted key.  [ci_keys] is the list of keys still to visit. *)
Class CacheIter (C : Type) := {
  ci_valid : C -> C * bool;
  ci_key : C -> option (C * bytes);
  ci_value : C -> option (C * option bytes);
  ci_next : C -> option C;
  ci_keys : C -> list bytes
}.

(** ** The merge iterator. *)
Definition mg_compare (ascending : bool) (a b : bytes) : comparison :=
  if ascending then bytes_compare a b else CompOpp (bytes_compare a b).

(** The loop condition [until == nil || compare(cache.Key(), until) < 0]. *)
Definition before_until (ascending : bool) (until : option bytes) (key : bytes) : bool :=
  match until with None => true | Some u => bool_decide (mg_compare ascending key u = Lt) end.

Record mergeIterator (C : Type) := mkMerge {
  mg_parent : list (bytes * bytes);
  mg_cache : C
}.
Arguments mkMerge {C}.
Arguments mg_parent {C}.
Arguments mg_cache {C}.

Section Merge.
Context {C : Type} `{CacheIter C} (ascending : bool).
Implicit Types m : mergeIterator C.

(** [skipCacheDeletes]; every turn of the loop consumes a key, so the number of
    keys left is enough fuel. *)
Fixpoint skipCacheDeletes_loop (fuel : nat) (until : option bytes) (vi : C) : option C :=
  match fuel with
  | O => Some vi
  | S fuel =>
      let '(vi, valid) := ci_valid vi in
      if valid then
        '(vi, value) ← ci_value vi;
        match value with
        | Some _ => Some vi
        | None =>
            '(vi, key) ← ci_key vi;
            if before_until ascending until key
            then vi ← ci_next vi; skipCacheDeletes_loop fuel until vi
            else Some vi
        end
      else Some vi
  end.

Definition skipCacheDeletes (until : option bytes) (vi : C) : option C :=
  skipCacheDeletes_loop (S (length (ci_keys vi))) until vi.

Fixpoint skipUntil_loop (fuel : nat) m : option (mergeIterator C * bool) :=
  match fuel with
  | O => Some (m, false)
  | S fuel =>
      match mg_parent m with
      | [] =>
          c ← skipCacheDeletes None (mg_cache m);
          let '(c, valid) := ci_valid c in
          Some (mkMerge [] c, valid)
      | (keyP, _) :: parent' =>
          let '(c, valid) := ci_valid (mg_cache m) in
          if negb valid then Some (mkMerge (mg_parent m) c, true)
          else
            '(c, keyC) ← ci_key c;
            match mg_compare ascending keyP keyC with
            | Lt => Some (mkMerge (mg_parent m) c, true)
            | Eq =>
                '(c, valueC) ← ci_value c;
                match valueC with
                | None => c ← ci_next c; skipUntil_loop fuel (mkMerge parent' c)
                | Some _ => Some (mkMerge (mg_parent m) c, true)
                end
            | Gt =>
                '(c, valueC) ← ci_value c;
                match valueC with
                | None =>
                    c ← skipCacheDeletes (Some keyP) c;
                    skipUntil_loop fuel (mkMerge (mg_parent m) c)
                | Some _ => Some (mkMerge (mg_parent m) c, true)
                end
            end
      end
  end.

Definition mg_size m : nat :=
  (length (mg_parent m) + length (ci_keys (mg_cache m)))%nat.

(** Every [continue] consumes an entry of the parent or of the cache. *)
Definition skipUntilExistsOrInvalid m : option (mergeIterator C * bool) :=
  skipUntil_loop (S (mg_size m)) m.

Definition mg_Valid m : option (mergeIterator C * bool) :=
  skipUntilExistsOrInvalid m.

(** [assertValid]: panics when the iterator is not valid. *)
Definition mg_assertValid m : option (mergeIterator C) :=
  '(m, valid) ← mg_Valid m; if (valid : bool) then Some m else None.

Definition mg_Next m : option (mergeIterator C) :=
  '(m, _) ← skipUntilExistsOrInvalid m;
  m ← mg_assertValid m;
  match mg_parent m with
  | [] => c ← ci_next (mg_cache m); Some (mkMerge [] c)
  | (keyP, _) :: parent' =>
      let '(c, valid) := ci_valid (mg_cache m) in
      if negb valid then Some (mkMerge parent' c)
      else
        '(c, keyC) ← ci_key c;
        match mg_compare ascending keyP keyC with
        | Lt => Some (mkMerge parent' c)
        | Eq => c ← ci_next c; Some (mkMerge parent' c)
        | Gt => c ← ci_next c; Some (mkMerge (mg_parent m) c)
        end
  end.

Definition mg_Key m : option (mergeIterator C * bytes) :=
  '(m, _) ← skipUntilExistsOrInvalid m;
  m ← mg_assertValid m;
  match mg_parent m with
  | [] => '(c, key) ← ci_key (mg_cache m); Some (mkMerge [] c, key)
  | (keyP, _) :: _ =>
      let '(c, valid) := ci_valid (mg_cache m) in
      if negb valid then Some (mkMerge (mg_parent m) c, keyP)
      else
        '(c, keyC) ← ci_key c;
        match mg_compare ascending keyP keyC with
        | Lt | Eq => Some (mkMerge (mg_parent m) c, keyP)
        | Gt => Some (mkMerge (mg_parent m) c, keyC)
        end
  end.

Definition mg_Value m : option (mergeIterator C * option bytes) :=
  '(m, _) ← skipUntilExistsOrInvalid m;
  m ← mg_assertValid m;
  match mg_parent m with
  | [] => '(c, value) ← ci_value (mg_cache m); Some (mkMerge [] c, value)
  | (keyP, valueP) :: _ =>
      let '(c, valid) := ci_valid (mg_cache m) in
      if negb valid then Some (mkMerge (mg_parent m) c, Some valueP)
      else
        '(c, keyC) ← ci_key c;
        match mg_compare ascending keyP keyC with
        | Lt => Some (mkMerge (mg_parent m) c, Some valueP)
        | Eq | Gt => '(c, value) ← ci_value c; Some (mkMerge (mg_parent m) c, value)
        end
  end.

(** The loop of a caller that reads the iterator to its end. *)
Fixpoint mg_drain (fuel : nat) m : option (list (bytes * bytes)) :=
  match fuel with
  | O => None
  | S fuel =>
      '(m, valid) ← mg_Valid m;
      if (valid : bool) then
        '(m, key) ← mg_Key m;
        '(m, value) ← mg_Value m;
        m ← mg_Next m;
        l ← mg_drain fuel m;
        Some ((key, default [] value) :: l)
      else Some []
  end.
End Merge.

(** ** The order of an iteration. *)
Definition it_lt (ascending : bool) (a b : bytes) : Prop := mg_compare ascending a b = Lt.

Lemma it_lt_bytes asc a b : it_lt asc a b <-> if asc then a <b b else b <b a.
Proof.
  unfold it_lt, mg_compare, bytes_lt. destruct asc; [done|].
  rewrite (bytes_compare_antisym a b). by destruct (bytes_compare a b).
Qed.

#[export] Instance it_lt_strict asc : StrictOrder (it_lt asc).
Proof.
  split.
  - intros a. red. rewrite it_lt_bytes. destruct asc; apply irreflexivity, _.
  - intros a b c. rewrite !it_lt_bytes. destruct asc; intros; by etrans.
Qed.

Lemma mg_compare_cases asc a b :
  match mg_compare asc a b with
  | Lt => it_lt asc a b
  | Eq => a = b
  | Gt => it_lt asc b a
  end.
Proof.
  unfold it_lt, mg_compare. destruct asc; destruct (bytes_compare a b) eqn:Hc; simpl; try done.
  - by apply bytes_compare_eq.
  - by rewrite bytes_compare_antisym, Hc.
  - by apply bytes_compare_eq.
  - by rewrite bytes_compare_antisym, Hc.
Qed.

(** Two sorted lists with the same elements are equal. *)
Lemma it_sorted_ext asc l l' :
  StronglySorted (it_lt asc) l -> StronglySorted (it_lt asc) l' -> (forall k, k ∈ l <-> k ∈ l') -> l = l'.
Proof.
  intros Hl. revert l'. induction Hl as [|a l Hl IH Ha]; intros l' Hl' Hel.
  - destruct l' as [|b l']; [done|]. exfalso. specialize (Hel b). rewrite elem_of_nil in Hel. set_solver.
  - destruct Hl' as [|b l' Hl' Hb].
    { exfalso. specialize (Hel a). rewrite elem_of_nil in Hel. set_solver. }
    rewrite Forall_forall in Ha, Hb.
    assert (Hab : a = b).
    { destruct (proj1 (elem_of_cons l' a b) (proj1 (Hel a) ltac:(set_solver))) as [|Hin]; [done|].
      destruct (proj1 (elem_of_cons l b a) (proj2 (Hel b) ltac:(set_solver))) as [|Hin']; [done|].
      exfalso. apply (irreflexivity (it_lt asc) a). etrans; eauto. }
    subst b. f_equal. apply IH; [done|]. intros k. specialize (Hel k). rewrite !elem_of_cons in Hel.
    assert (Hna : a ∉ l) by (intros Hin; by apply (irreflexivity (it_lt asc) a), Ha).
    assert (Hna' : a ∉ l') by (intros Hin; by apply (irreflexivity (it_lt asc) a), Hb).
    split; intros Hk; destruct (decide (k = a)) as [->|]; tauto.
Qed.

Lemma it_sorted_reverse (l : list bytes) :
  StronglySorted bytes_lt l -> StronglySorted (it_lt false) (reverse l).
Proof.
  induction 1 as [|x l Hl IH Hx]; [constructor|]. rewrite reverse_cons. apply StronglySorted_snoc; [done|].
  apply Forall_reverse. eapply Forall_impl; [exact Hx|]. intros y Hy. by rewrite it_lt_bytes.
Qed.

Lemma it_sorted_ascending (l : list bytes) : StronglySorted bytes_lt l -> StronglySorted (it_lt true) l.
Proof.
  induction 1 as [|x l Hl IH Hx]; constructor; [done|].
  eapply Forall_impl; [exact Hx|]. intros y Hy. by rewrite it_lt_bytes.
Qed.

Lemma sorted_nodup asc l : StronglySorted (it_lt asc) l -> NoDup l.
Proof.
  induction 1 as [|x l Hl IH Hx]; constructor; [|done]. rewrite Forall_forall in Hx.
  intros Hin. by apply (irreflexivity (it_lt asc) x), Hx.
Qed.

(** ** The entries of a store in the order of an iteration. *)
Definition entries_of (asc : bool) (view : gmap bytes bytes) (s e : option bytes) : list (bytes * bytes) :=
  if asc then map_entries view s e else reverse (map_entries view s e).

Lemma entries_of_elem asc view s e k v :
  (k, v) ∈ entries_of asc view s e <-> view !! k = Some v /\ in_domain s e k = true.
Proof. unfold entries_of. destruct asc; rewrite ?elem_of_reverse; apply map_entries_elem. Qed.

Lemma entries_of_sorted asc view s e : StronglySorted (it_lt asc) (entries_of asc view s e).*1.
Proof.
  unfold entries_of. destruct asc; [apply it_sorted_ascending, map_entries_sorted|].
  rewrite fmap_reverse. apply it_sorted_reverse, map_entries_sorted.
Qed.

Lemma parent_functional asc (l : list (bytes * bytes)) k v v' :
  StronglySorted (it_lt asc) l.*1 -> (k, v) ∈ l -> (k, v') ∈ l -> v = v'.
Proof.
  induction l as [|[j w] l IH]; simpl; [by intros _ ?%elem_of_nil|]. intros [Hs Hj]%StronglySorted_inv.
  rewrite Forall_forall in Hj.
  assert (Hno : forall u, (j, u) ∉ l).
  { intros u Hu. apply (irreflexivity (it_lt asc) j), Hj, list_elem_of_fmap. by exists (j, u). }
  rewrite !elem_of_cons. intros [[= -> ->]|Hv] [[= ->]|Hv'];
    [done|by apply Hno in Hv'|by simplify_eq; apply Hno in Hv|by apply IH].
Qed.

(** Key-sorted lists with the same entries are equal. *)
Lemma entries_ext asc (l l' : list (bytes * bytes)) :
  StronglySorted (it_lt asc) l.*1 -> StronglySorted (it_lt asc) l'.*1 ->
  (forall k v, (k, v) ∈ l <-> (k, v) ∈ l') -> l = l'.
Proof.
  intros Hl Hl' Hel.
  assert (Hk : l.*1 = l'.*1).
  { apply (it_sorted_ext asc); [done|done|]. intros k. rewrite !list_elem_of_fmap.
    split; intros ([k' v] & -> & Hin); exists (k', v); (split; [done|by apply Hel]). }
  apply list_eq. intros i. pose proof (f_equal (fun x : list bytes => x !! i) Hk) as Hi. simpl in Hi.
  rewrite !list_lookup_fmap in Hi.
  destruct (l !! i) as [[k v]|] eqn:Hli, (l' !! i) as [[k' v']|] eqn:Hli'; simpl in Hi; simplify_eq; [|done].
  f_equal. f_equal. apply list_elem_of_lookup_2 in Hli, Hli'. apply Hel in Hli.
  by eapply parent_functional.
Qed.

Lemma kv_entries {P} `{KVStoreLaws P} asc (p : P) s e :
  bound_ok s = true -> bound_ok e = true ->
  (if (asc : bool) then kv_Iterator p s e else kv_ReverseIterator p s e) = entries_of asc (kv_view p) s e.
Proof.
  intros Hs He.
  assert (Heq : kv_Iterator p s e = map_entries (kv_view p) s e).
  { apply (entries_ext true); [by apply it_sorted_ascending, kv_Iterator_sorted| |].
    - apply it_sorted_ascending, map_entries_sorted.
    - intros k v. by rewrite kv_Iterator_elem, map_entries_elem. }
  unfold entries_of. destruct asc; [done|]. by rewrite kv_ReverseIterator_rev, Heq.
Qed.

(** ** What the cache side promises.

    [held k] is the value the cache gives [k], if it gives any; the keys are
    visited in order, and [ci_valid] moves to the next one that is given.
    [ci_seen] is what is known once the value of the current key was read; the
    merge iterator moves on only from keys that it read or that have a value. *)
Class CacheIterLaws (C : Type) `{CacheIter C} (asc : bool) (held : bytes -> option (option bytes)) := {
  ci_ok : C -> Prop;
  ci_seen : C -> Prop;
  ci_sorted : forall c, ci_ok c -> StronglySorted (it_lt asc) (ci_keys c);
  ci_valid_spec : forall c, ci_ok c ->
    exists c', ci_valid c = (c', bool_decide (ci_keys c' <> [])) /\ ci_ok c' /\
    (length (ci_keys c') <= length (ci_keys c))%nat /\
    (forall k, is_Some (held k) -> k ∈ ci_keys c' <-> k ∈ ci_keys c) /\
    (forall k, k ∈ ci_keys c' -> k ∈ ci_keys c) /\
    match ci_keys c' with [] => True | k :: _ => is_Some (held k) end;
  ci_valid_id : forall c k rest, ci_ok c -> ci_keys c = k :: rest -> is_Some (held k) ->
    ci_valid c = (c, true);
  ci_key_spec : forall c k rest, ci_ok c -> ci_keys c = k :: rest -> is_Some (held k) ->
    ci_key c = Some (c, k);
  ci_value_spec : forall c k rest v, ci_ok c -> ci_keys c = k :: rest -> held k = Some v ->
    exists c', ci_value c = Some (c', v) /\ ci_ok c' /\ ci_keys c' = k :: rest /\ ci_seen c';
  ci_next_spec : forall c k rest, ci_ok c -> ci_keys c = k :: rest -> ci_seen c \/ (exists v, held k = Some (Some v)) ->
    exists c', ci_next c = Some c' /\ ci_ok c' /\ (length (ci_keys c') < length (ci_keys c))%nat /\
    (forall j, is_Some (held j) -> j ∈ ci_keys c' <-> j ∈ rest) /\ (forall j, j ∈ ci_keys c' -> j ∈ rest)
}.

Section Merged.
Context {C : Type} (asc : bool) (held : bytes -> option (option bytes)) `{CacheIterLaws C asc held}.
Implicit Types m : mergeIterator C.

(** [skipCacheDeletes] drops deleted keys before the bound only. *)
Lemma skipCacheDeletes_spec until fuel vi :
  ci_ok vi -> (length (ci_keys vi) < fuel)%nat ->
  exists vi', skipCacheDeletes_loop asc fuel until vi = Some vi' /\ ci_ok vi' /\
  (length (ci_keys vi') <= length (ci_keys vi))%nat /\
  (forall k, k ∈ ci_keys vi' -> k ∈ ci_keys vi) /\
  (forall k, is_Some (held k) -> k ∈ ci_keys vi ->
     k ∈ ci_keys vi' \/ held k = Some None /\ before_until asc until k = true) /\
  match ci_keys vi' with
  | [] => True
  | k :: _ => exists v, held k = Some v /\ (v = None -> before_until asc until k = false)
  end.
Proof.
  revert vi. induction fuel as [|fuel IH]; intros vi Hok Hlen; [lia|]. cbn [skipCacheDeletes_loop].
  destruct (ci_valid_spec vi Hok) as (vi1 & -> & Hok1 & Hlen1 & Hheld1 & Hsub1 & Hhd1).
  case_bool_decide as Hne.
  2:{ exists vi1. split_and!; try done; [intros k Hk Hin; left; by apply Hheld1|].
      by rewrite Hne. }
  destruct (ci_keys vi1) as [|k rest] eqn:Hk; [done|]. destruct Hhd1 as [v Hv].
  destruct (ci_value_spec vi1 k rest v Hok1 Hk Hv) as (vi2 & -> & Hok2 & Hk2 & Hseen). cbn [mbind option_bind].
  assert (Hstop : v <> None \/ before_until asc until k = false -> exists vi', Some vi2 = Some vi' /\ ci_ok vi' /\
    (length (ci_keys vi') <= length (ci_keys vi))%nat /\ (forall k, k ∈ ci_keys vi' -> k ∈ ci_keys vi) /\
    (forall k, is_Some (held k) -> k ∈ ci_keys vi ->
       k ∈ ci_keys vi' \/ held k = Some None /\ before_until asc until k = true) /\
    match ci_keys vi' with [] => True
    | k :: _ => exists v, held k = Some v /\ (v = None -> before_until asc until k = false) end).
  { intros Hv'. exists vi2. rewrite Hk2. split_and!; try done.
    - intros j Hj Hin. left. by apply Hheld1.
    - exists v. split; [done|]. intros ->. by destruct Hv' as [[]|]. }
  destruct v as [v|]; [apply Hstop; by left|].
  rewrite (ci_key_spec vi2 k rest Hok2 Hk2) by eauto. cbn [mbind option_bind].
  destruct (before_until asc until k) eqn:Hb; [|apply Hstop; by right].
  destruct (ci_next_spec vi2 k rest Hok2 Hk2 (or_introl Hseen)) as (vi3 & -> & Hok3 & Hlen3 & Hheld3 & Hsub3).
  cbn [mbind option_bind]. rewrite Hk2 in Hlen3. simpl in Hlen1, Hlen3.
  destruct (IH vi3 Hok3 ltac:(lia)) as (vi' & -> & Hok' & Hlen' & Hsub' & Hdrop' & Hhd').
  exists vi'. split_and!; [done|done|lia| | |done].
  - intros j Hj. apply Hsub1. rewrite elem_of_cons. right. auto.
  - intros j Hj Hin. apply (Hheld1 j Hj), elem_of_cons in Hin as [->|Hin]; [by right|].
    by apply Hdrop', Hheld3.
Qed.

(** ** The merged iteration. *)
Record mg_ok m : Prop := {
  mo_cache : ci_ok (mg_cache m);
  mo_parent : StronglySorted (it_lt asc) (mg_parent m).*1
}.

(** The keys the merged iteration has yet to visit. *)
Definition live m (k : bytes) : Prop :=
  (k ∈ ci_keys (mg_cache m) /\ exists v, held k = Some (Some v)) \/
  (k ∈ (mg_parent m).*1 /\ ~ (k ∈ ci_keys (mg_cache m) /\ is_Some (held k))).

(** [m] stands at the key [k]. *)
Definition stands m (k : bytes) : Prop :=
  match (mg_parent m).*1, ci_keys (mg_cache m) with
  | [], [] => False
  | [], c :: _ => k = c /\ exists v, held c = Some (Some v)
  | p :: _, [] => k = p
  | p :: _, c :: _ => is_Some (held c) /\
      match mg_compare asc p c with
      | Lt => k = p
      | _ => k = c /\ exists v, held c = Some (Some v)
      end
  end.

(** The entries the merged iteration has yet to visit. *)
Definition live_entry m (k v : bytes) : Prop :=
  (k ∈ ci_keys (mg_cache m) /\ held k = Some (Some v)) \/
  ((k, v) ∈ mg_parent m /\ ~ (k ∈ ci_keys (mg_cache m) /\ is_Some (held k))).

Definition same_live m' m : Prop := forall k v, live_entry m' k v <-> live_entry m k v.

Lemma live_entry_live m k : live m k <-> exists v, live_entry m k v.
Proof.
  unfold live, live_entry. rewrite list_elem_of_fmap. split.
  - intros [[Hk [v Hv]]|[([k' v] & -> & Hin) Hn]]; [eauto|]. exists v. by right.
  - intros [v [[Hk Hv]|[Hin Hn]]]; [eauto|]. right. split; [|done]. by exists (k, v).
Qed.

Lemma same_live_live m' m k : same_live m' m -> live m' k <-> live m k.
Proof. intros Hs. rewrite !live_entry_live. by setoid_rewrite (Hs k). Qed.

Lemma same_live_trans m1 m2 m3 : same_live m1 m2 -> same_live m2 m3 -> same_live m1 m3.
Proof. intros H1 H2 k v. by rewrite (H1 k v). Qed.

Lemma live_keys_ext m m' :
  mg_parent m' = mg_parent m ->
  (forall k, is_Some (held k) -> k ∈ ci_keys (mg_cache m') <-> k ∈ ci_keys (mg_cache m)) ->
  same_live m' m.
Proof.
  intros Hp Hk k v. unfold live_entry. rewrite Hp. destruct (decide (is_Some (held k))) as [Hs|Hs].
  - by rewrite (Hk k Hs).
  - assert (Hn : held k <> Some (Some v)) by (intros Hv; apply Hs; eauto). tauto.
Qed.

(** The keys [skipCacheDeletes] drops are not live. *)
Lemma live_drop m m' :
  mg_parent m' = mg_parent m ->
  (forall k, k ∈ ci_keys (mg_cache m') -> k ∈ ci_keys (mg_cache m)) ->
  (forall k, is_Some (held k) -> k ∈ ci_keys (mg_cache m) ->
     k ∈ ci_keys (mg_cache m') \/ held k = Some None /\ k ∉ (mg_parent m).*1) ->
  same_live m' m.
Proof.
  intros Hp Hsub Hdrop k v. unfold live_entry. rewrite Hp. split.
  - intros [[Hin Hv]|[Hin Hn]]; [left; auto|]. right. split; [done|]. intros [Hk Hs].
    destruct (Hdrop k Hs Hk) as [?|[_ Hnp]]; [apply Hn; auto|].
    apply Hnp, list_elem_of_fmap. by exists (k, v).
  - intros [[Hin Hv]|[Hin Hn]]; [|right; naive_solver]. left. split; [|done].
    destruct (Hdrop k ltac:(eauto) Hin) as [?|[? _]]; [done|congruence].
Qed.

Lemma sorted_sub_shorter (l l' : list bytes) a rest :
  StronglySorted (it_lt asc) l -> StronglySorted (it_lt asc) l' -> l = a :: rest ->
  (forall k, k ∈ l' -> k ∈ l) -> head l' <> Some a -> (length l' < length l)%nat.
Proof.
  intros Hl Hl' -> Hsub Hhd. simpl.
  assert (Hnd : forall l, StronglySorted (it_lt asc) l -> NoDup l).
  { induction 1 as [|x xs Hxs IH Hx]; constructor; [|done]. rewrite Forall_forall in Hx.
    intros Hin. by apply (irreflexivity (it_lt asc) x), Hx. }
  apply StronglySorted_inv in Hl as [Hrest Ha]. rewrite Forall_forall in Ha.
  assert (Hna : a ∉ l').
  { destruct Hl' as [|b l' Hl' Hb]; [apply not_elem_of_nil|]. simpl in Hhd.
    intros [->|Hin]%elem_of_cons; [done|]. rewrite Forall_forall in Hb. specialize (Hb a Hin).
    destruct (proj1 (elem_of_cons rest b a) (Hsub b ltac:(set_solver))) as [->|Hin']; [done|].
    apply (irreflexivity (it_lt asc) a). etrans; [by apply Ha|done]. }
  apply Nat.lt_succ_r, submseteq_length, NoDup_submseteq; [by apply Hnd|].
  intros k Hk. destruct (proj1 (elem_of_cons rest k a) (Hsub k Hk)) as [->|]; done.
Qed.

Lemma not_before_head (P' : list (bytes * bytes)) p k :
  StronglySorted (it_lt asc) (p :: P'.*1) -> it_lt asc k p -> k ∉ p :: P'.*1.
Proof.
  intros [_ Hp]%StronglySorted_inv Hk [->|Hin]%elem_of_cons.
  - by apply (irreflexivity (it_lt asc) p).
  - rewrite Forall_forall in Hp. apply (irreflexivity (it_lt asc) k). etrans; [done|]. by apply Hp.
Qed.

(** The outcome of [skipUntilExistsOrInvalid] from [m]. *)
Definition settles m (r : option (mergeIterator C * bool)) : Prop :=
  exists m' b, r = Some (m', b) /\ mg_ok m' /\ (mg_size m' <= mg_size m)%nat /\
    same_live m' m /\
    if (b : bool) then exists k, stands m' k else mg_parent m' = [] /\ ci_keys (mg_cache m') = [].

Lemma settles_from m m1 r :
  settles m1 r -> (mg_size m1 <= mg_size m)%nat -> same_live m1 m -> settles m r.
Proof.
  intros (m' & b & Hr & Hok & Hsz & Hl & Hb) Hsz1 Hl1. exists m', b. split_and!; [done|done|lia| |done].
  by eapply same_live_trans.
Qed.

(** A key deleted over the parent's is dropped on both sides. *)
Lemma live_both p pv P' c c' rest :
  StronglySorted (it_lt asc) (p :: P'.*1) -> StronglySorted (it_lt asc) (p :: rest) ->
  ci_keys c = p :: rest -> held p = Some None ->
  (forall j, is_Some (held j) -> j ∈ ci_keys c' <-> j ∈ rest) -> (forall j, j ∈ ci_keys c' -> j ∈ rest) ->
  same_live (mkMerge P' c') (mkMerge ((p, pv) :: P') c).
Proof.
  intros [_ Hp]%StronglySorted_inv [_ Hr]%StronglySorted_inv Hk Hh Hkeys Hsub k v. unfold live_entry. simpl.
  rewrite Hk, !elem_of_cons. rewrite Forall_forall in Hp, Hr.
  assert (Hnp : forall u, (p, u) ∉ P').
  { intros u Hin. apply (irreflexivity (it_lt asc) p), Hp, list_elem_of_fmap. by exists (p, u). }
  assert (Hnr : p ∉ rest) by (intros Hin; by apply (irreflexivity (it_lt asc) p), Hr).
  destruct (decide (k = p)) as [->|Hne].
  - split; [intros [[Hin _]|[Hin _]]; [by apply Hsub in Hin|by apply Hnp in Hin]|].
    intros [[_ Hv]|[_ Hn]]; [congruence|]. destruct Hn. rewrite Hh. eauto.
  - assert (Hpk : (k, v) <> (p, pv)) by congruence.
    destruct (decide (is_Some (held k))) as [Hs|Hs]; [rewrite (Hkeys k Hs); tauto|].
    assert (Hn : held k <> Some (Some v)) by (intros Hv; apply Hs; eauto). tauto.
Qed.

Section Loop.
Variable fuel : nat.
Hypothesis IH : forall m, mg_ok m -> (mg_size m < fuel)%nat ->
  settles m (skipUntil_loop asc fuel m).

(** The parent is exhausted. *)
Lemma skipUntil_cache c :
  ci_ok c ->
  settles (mkMerge [] c)
    (c ← skipCacheDeletes asc None c;
     let '(c, valid) := ci_valid c in Some (mkMerge [] c, valid)).
Proof.
  intros Hc. destruct (skipCacheDeletes_spec None (S (length (ci_keys c))) c Hc ltac:(lia))
    as (c1 & Hs1 & Hok1 & Hlen1 & Hsub1 & Hdrop1 & Hhd1).
  unfold skipCacheDeletes. rewrite Hs1. cbn [mbind option_bind].
  assert (Hlive : same_live (mkMerge [] c1) (mkMerge [] c)).
  { apply live_drop; [done|done|]. simpl. intros k Hk Hin.
    destruct (Hdrop1 k Hk Hin) as [?|[? _]]; [by left|]. right. split; [done|]. apply not_elem_of_nil. }
  destruct (ci_keys c1) as [|k rest] eqn:Hk1.
  - destruct (ci_valid_spec c1 Hok1) as (c2 & -> & Hok2 & Hlen2 & Hh2 & Hsub2 & _).
    rewrite Hk1 in Hlen2, Hh2. destruct (ci_keys c2) eqn:Hk2; [|simpl in Hlen2; lia].
    exists (mkMerge [] c2), false.
    split_and!; [done|by split; [|constructor]|unfold mg_size; simpl; rewrite Hk2; simpl; lia| |done|done].
    eapply same_live_trans; [|exact Hlive]. apply live_keys_ext; [done|]. simpl. by rewrite Hk1, Hk2.
  - destruct Hhd1 as (v & Hv & Hn). rewrite (ci_valid_id c1 k rest Hok1 Hk1) by eauto.
    exists (mkMerge [] c1), true.
    split_and!; [done|by split; [|constructor]|unfold mg_size; simpl; rewrite Hk1; done|done|].
    exists k. unfold stands. simpl. rewrite Hk1. split; [done|]. destruct v as [v|]; [eauto|].
    by specialize (Hn eq_refl).
Qed.

Variables (p pv : bytes) (P' : list (bytes * bytes)).
Hypothesis parent_sorted : StronglySorted (it_lt asc) (p :: P'.*1).

(** Both sides stand at the same key. *)
Lemma skipUntil_eq c rest v :
  ci_ok c -> ci_keys c = p :: rest -> held p = Some v ->
  (mg_size (mkMerge ((p, pv) :: P') c) <= fuel)%nat ->
  settles (mkMerge ((p, pv) :: P') c)
    ('(c, valueC) ← ci_value c;
     match valueC with
     | None => c ← ci_next c; skipUntil_loop asc fuel (mkMerge P' c)
     | Some _ => Some (mkMerge ((p, pv) :: P') c, true)
     end).
Proof.
  intros Hok Hk Hv Hsz. unfold mg_size in Hsz. simpl in Hsz. rewrite Hk in Hsz. simpl in Hsz.
  destruct (ci_value_spec c p rest v Hok Hk Hv) as (c2 & -> & Hok2 & Hk2 & Hseen). cbn [mbind option_bind].
  destruct v as [v|].
  - exists (mkMerge ((p, pv) :: P') c2), true. split_and!; [done|by split| | |].
    + unfold mg_size. simpl. by rewrite Hk, Hk2.
    + apply live_keys_ext; [done|]. simpl. by rewrite Hk, Hk2.
    + exists p. unfold stands. simpl. rewrite Hk2. pose proof (mg_compare_cases asc p p) as Hc.
      destruct (mg_compare asc p p); (split; [by eauto|]); by eauto.
  - destruct (ci_next_spec c2 p rest Hok2 Hk2 (or_introl Hseen)) as (c3 & -> & Hok3 & Hlen3 & Hh3 & Hsub3).
    cbn [mbind option_bind]. rewrite Hk2 in Hlen3. simpl in Hlen3.
    apply (settles_from _ (mkMerge P' c3)).
    + apply IH; [|unfold mg_size; simpl; lia]. split; [done|]. by apply StronglySorted_inv in parent_sorted as [? _].
    + unfold mg_size. simpl. rewrite Hk. simpl. lia.
    + apply (live_both p pv P' c c3 rest); try done. rewrite <- Hk. by apply ci_sorted.
Qed.

(** The cache stands before the parent. *)
Lemma skipUntil_gt c k rest v :
  ci_ok c -> ci_keys c = k :: rest -> held k = Some v -> it_lt asc k p ->
  mg_compare asc p k = Gt -> (mg_size (mkMerge ((p, pv) :: P') c) <= fuel)%nat ->
  settles (mkMerge ((p, pv) :: P') c)
    ('(c, valueC) ← ci_value c;
     match valueC with
     | None =>
         c ← skipCacheDeletes asc (Some p) c;
         skipUntil_loop asc fuel (mkMerge ((p, pv) :: P') c)
     | Some _ => Some (mkMerge ((p, pv) :: P') c, true)
     end).
Proof.
  intros Hok Hk Hv Hlt Hcmp Hsz. unfold mg_size in Hsz. simpl in Hsz.
  destruct (ci_value_spec c k rest v Hok Hk Hv) as (c2 & -> & Hok2 & Hk2 & _). cbn [mbind option_bind].
  destruct v as [v|].
  - exists (mkMerge ((p, pv) :: P') c2), true. split_and!; [done|by split| | |].
    + unfold mg_size. simpl. by rewrite Hk, Hk2.
    + apply live_keys_ext; [done|]. simpl. by rewrite Hk, Hk2.
    + exists k. unfold stands. simpl. rewrite Hk2, Hcmp. eauto.
  - destruct (skipCacheDeletes_spec (Some p) (S (length (ci_keys c2))) c2 Hok2 ltac:(lia))
      as (c3 & Hs3 & Hok3 & Hlen3 & Hsub3 & Hdrop3 & Hhd3).
    unfold skipCacheDeletes. rewrite Hs3. cbn [mbind option_bind].
    assert (Hshort : (length (ci_keys c3) < length (ci_keys c2))%nat).
    { eapply sorted_sub_shorter; [by apply ci_sorted|by apply ci_sorted|done|done|].
      destruct (ci_keys c3) as [|j ks]; [done|]. simpl. intros [= ->].
      destruct Hhd3 as (u & Hu & Hn). rewrite Hv in Hu. simplify_eq.
      specialize (Hn eq_refl). simpl in Hn. apply bool_decide_eq_false in Hn. done. }
    rewrite Hk2, <- Hk in Hshort.
    apply (settles_from _ (mkMerge ((p, pv) :: P') c3)).
    + apply IH; [by split|]. unfold mg_size. simpl. lia.
    + unfold mg_size. simpl. lia.
    + apply live_drop; [done| |]; simpl; rewrite Hk, <- Hk2; [done|].
      intros j Hj Hin. destruct (Hdrop3 j Hj Hin) as [?|[? Hb]]; [by left|]. right. split; [done|].
      simpl in Hb. apply bool_decide_eq_true in Hb. by apply not_before_head.
Qed.
End Loop.

Lemma skipUntil_spec fuel m :
  mg_ok m -> (mg_size m < fuel)%nat -> settles m (skipUntil_loop asc fuel m).
Proof.
  revert m. induction fuel as [|fuel IH]; intros m [Hc Hp] Hsz; [lia|]. cbn [skipUntil_loop].
  destruct m as [[|[p pv] P'] c]; simpl in Hc, Hp; cbn [mg_parent mg_cache]; [by apply skipUntil_cache|].
  destruct (ci_valid_spec c Hc) as (c1 & -> & Hok1 & Hlen1 & Hh1 & Hsub1 & Hhd1).
  assert (Hsz1 : (mg_size (mkMerge ((p, pv) :: P') c1) <= mg_size (mkMerge ((p, pv) :: P') c))%nat)
    by (unfold mg_size; simpl; lia).
  apply (settles_from _ (mkMerge ((p, pv) :: P') c1)); [|done|by apply live_keys_ext].
  case_bool_decide as Hne; cbn [negb].
  2:{ exists (mkMerge ((p, pv) :: P') c1), true. split_and!; [done|by split|done|done|].
      exists p. unfold stands. simpl. by rewrite Hne. }
  destruct (ci_keys c1) as [|k rest] eqn:Hk1; [done|]. destruct Hhd1 as [v Hv].
  rewrite (ci_key_spec c1 k rest Hok1 Hk1) by eauto. cbn [mbind option_bind].
  pose proof (mg_compare_cases asc p k) as Hcmp. destruct (mg_compare asc p k) eqn:Hpk.
  - subst k. eapply skipUntil_eq; [done|done|done|done|done|lia].
  - exists (mkMerge ((p, pv) :: P') c1), true. split_and!; [done|by split|done|done|].
    exists p. unfold stands. simpl. rewrite Hk1, Hpk. eauto.
  - eapply skipUntil_gt; [done|done|done|done|done|done|done|lia].
Qed.

(** ** Where the iteration stands. *)
Lemma sorted_head_le a l k : StronglySorted (it_lt asc) (a :: l) -> k ∈ a :: l -> k = a \/ it_lt asc a k.
Proof.
  intros [_ Ha]%StronglySorted_inv [->|Hin]%elem_of_cons; [by left|]. rewrite Forall_forall in Ha. auto.
Qed.

Lemma sorted_head_lt a l k : StronglySorted (it_lt asc) (a :: l) -> it_lt asc k a -> k ∉ a :: l.
Proof.
  intros Hs Hk Hin. apply (irreflexivity (it_lt asc) k).
  destruct (sorted_head_le a l k Hs Hin) as [->|?]; [done|by etrans].
Qed.

(** The key [m] stands at is the first live one. *)
Lemma stands_first m k :
  mg_ok m -> stands m k -> live m k /\ forall j, live m j -> j = k \/ it_lt asc k j.
Proof.
  intros [Hc Hp] Hst. pose proof (ci_sorted _ Hc) as Hk. unfold stands in Hst. unfold live.
  destruct (mg_parent m).*1 as [|p P'] eqn:HP, (ci_keys (mg_cache m)) as [|c K'] eqn:HK; [done| | |].
  - destruct Hst as [-> Hv]. split; [left; set_solver|]. intros j [[Hj _]|[Hj _]]; [|by apply elem_of_nil in Hj].
    by eapply sorted_head_le.
  - subst p. split; [right; set_solver|]. intros j [[Hj _]|[Hj _]]; [by apply elem_of_nil in Hj|].
    by eapply sorted_head_le.
  - destruct Hst as [Hs Hst]. pose proof (mg_compare_cases asc p c) as Hcmp.
    assert (Hstc : (p = c \/ it_lt asc c p) -> (exists v, held c = Some (Some v)) -> k = c ->
      (k ∈ c :: K' /\ (exists v, held k = Some (Some v)) \/
       k ∈ p :: P' /\ ~ (k ∈ c :: K' /\ is_Some (held k))) /\
      forall j, j ∈ c :: K' /\ (exists v, held j = Some (Some v)) \/
       j ∈ p :: P' /\ ~ (j ∈ c :: K' /\ is_Some (held j)) -> j = k \/ it_lt asc k j).
    { intros Hle Hv ->. split; [left; set_solver|]. intros j [[Hj _]|[Hj _]]; [by eapply sorted_head_le|].
      destruct (sorted_head_le p P' j Hp Hj) as [->|Hlt]; destruct Hle as [->|Hlt']; auto.
      right. by etrans. }
    destruct (mg_compare asc p c); [destruct Hst as [-> Hv]; apply Hstc; auto| |destruct Hst as [-> Hv]; apply Hstc; auto].
    subst k. split.
    + right. split; [set_solver|]. intros [Hin _]. by eapply sorted_head_lt in Hin.
    + intros j [[Hj _]|[Hj _]]; [|by eapply sorted_head_le]. right.
      destruct (sorted_head_le c K' j Hk Hj) as [->|?]; [done|by etrans].
Qed.

(** No key before it is left on the cache side. *)
Lemma stands_keys m k : mg_ok m -> stands m k -> forall j, j ∈ ci_keys (mg_cache m) -> j = k \/ it_lt asc k j.
Proof.
  intros [Hc Hp] Hst j Hj. pose proof (ci_sorted _ Hc) as Hk. unfold stands in Hst.
  destruct (mg_parent m).*1 as [|p P'], (ci_keys (mg_cache m)) as [|c K']; [done| |by apply elem_of_nil in Hj|].
  - destruct Hst as [-> _]. by eapply sorted_head_le.
  - destruct Hst as [_ Hst]. pose proof (mg_compare_cases asc p c) as Hcmp. pose proof (sorted_head_le c K' j Hk Hj) as Hcj.
    destruct (mg_compare asc p c); [destruct Hst as [-> _]; done| |destruct Hst as [-> _]; done]. subst k. right.
    destruct Hcj as [->|?]; [done|by etrans].
Qed.

Definition first_live m (k : bytes) : Prop :=
  live m k /\ forall j, live m j -> j = k \/ it_lt asc k j.

Lemma first_live_unique m k k' : first_live m k -> first_live m k' -> k = k'.
Proof.
  intros [Hk Hmin] [Hk' Hmin']. destruct (Hmin k' Hk') as [->|H1]; [done|].
  destruct (Hmin' k Hk) as [->|H2]; [done|]. exfalso. apply (irreflexivity (it_lt asc) k). by etrans.
Qed.

Lemma first_live_ext m m' k : same_live m' m -> first_live m k -> first_live m' k.
Proof.
  intros Hl [Hk Hmin]. split; [by apply (same_live_live m' m)|].
  intros j Hj. by apply Hmin, (same_live_live m' m).
Qed.

(** [skipUntilExistsOrInvalid] moves to the first live key. *)
Lemma settle_first m k :
  mg_ok m -> first_live m k ->
  exists m', skipUntilExistsOrInvalid asc m = Some (m', true) /\ mg_ok m' /\
    (mg_size m' <= mg_size m)%nat /\ same_live m' m /\ stands m' k.
Proof.
  intros Hok Hk. unfold skipUntilExistsOrInvalid.
  destruct (skipUntil_spec (S (mg_size m)) m Hok ltac:(lia)) as (m' & b & -> & Hok' & Hsz & Hl & Hb).
  destruct b.
  - destruct Hb as [k' Hst]. assert (k' = k) as ->.
    { apply (first_live_unique m'); [by apply stands_first|]. by eapply first_live_ext. }
    by exists m'.
  - destruct Hb as [HP HK]. destruct Hk as [Hk _]. apply (same_live_live m' m) in Hk; [|done]. unfold live in Hk.
    rewrite HP, HK in Hk. simpl in Hk. rewrite !elem_of_nil in Hk. tauto.
Qed.

Lemma settle_none m :
  mg_ok m -> (forall k, ~ live m k) ->
  exists m', skipUntilExistsOrInvalid asc m = Some (m', false) /\ mg_ok m' /\ ci_keys (mg_cache m') = [].
Proof.
  intros Hok Hk. unfold skipUntilExistsOrInvalid.
  destruct (skipUntil_spec (S (mg_size m)) m Hok ltac:(lia)) as (m' & b & -> & Hok' & Hsz & Hl & Hb).
  destruct b; [|by exists m'; destruct Hb]. destruct Hb as [k Hst]. exfalso. apply (Hk k), (same_live_live m' m); [done|].
  by apply stands_first.
Qed.

Lemma settle_twice m k :
  mg_ok m -> first_live m k ->
  exists m1 m2, skipUntilExistsOrInvalid asc m = Some (m1, true) /\
    mg_assertValid asc m1 = Some m2 /\ mg_ok m2 /\
    (mg_size m2 <= mg_size m)%nat /\ same_live m2 m /\ stands m2 k.
Proof.
  intros Hok Hk. destruct (settle_first m k Hok Hk) as (m1 & Hm1 & Hok1 & Hsz1 & Hl1 & Hst1).
  destruct (settle_first m1 k Hok1) as (m2 & Hm2 & Hok2 & Hsz2 & Hl2 & Hst2); [by eapply first_live_ext|].
  exists m1, m2. split_and!; [done| |done|lia| |done].
  - unfold mg_assertValid, mg_Valid. by rewrite Hm2.
  - by eapply same_live_trans.
Qed.

Lemma ci_valid_nil vi :
  ci_ok vi -> ci_keys vi = [] -> exists vi', ci_valid vi = (vi', false) /\
    ci_ok vi' /\ ci_keys vi' = [].
Proof.
  intros Hok Hk. destruct (ci_valid_spec vi Hok) as (vi' & -> & Hok' & Hlen & _). rewrite Hk in Hlen.
  destruct (ci_keys vi') eqn:Hk'; [|simpl in Hlen; lia]. exists vi'. by rewrite Hk'.
Qed.

Lemma mg_Key_spec m k :
  mg_ok m -> first_live m k ->
  exists m', mg_Key asc m = Some (m', k) /\ mg_ok m' /\
    (mg_size m' <= mg_size m)%nat /\ same_live m' m /\ stands m' k.
Proof.
  intros Hok Hk. destruct (settle_twice m k Hok Hk) as (m1 & [P2 c2] & Hm1 & Hm2 & [Hc2 Hp2] & Hsz & Hl & Hst).
  unfold mg_Key. rewrite Hm1. cbn [mbind option_bind]. rewrite Hm2. cbn [mbind option_bind].
  unfold stands in Hst. simpl in Hst, Hc2, Hp2. cbn [mg_parent mg_cache].
  destruct P2 as [|[p pv] P'], (ci_keys c2) as [|c K'] eqn:HK; simpl in Hst; [done| | |].
  - destruct Hst as [-> [v Hv]]. rewrite (ci_key_spec c2 c K' Hc2 HK) by eauto. cbn [mbind option_bind].
    exists (mkMerge [] c2). split_and!; try done. unfold stands. simpl. rewrite HK. eauto.
  - subst p. destruct (ci_valid_nil c2 Hc2 HK) as (c3 & -> & Hc3 & HK3). cbn [negb].
    exists (mkMerge ((k, pv) :: P') c3). split_and!; [done|by split| | |].
    + unfold mg_size in *. simpl in *. rewrite HK3. rewrite HK in Hsz. done.
    + eapply same_live_trans; [|exact Hl]. apply live_keys_ext; [done|]. simpl. by rewrite HK, HK3.
    + unfold stands. simpl. by rewrite HK3.
  - destruct Hst as [Hs Hst]. rewrite (ci_valid_id c2 c K' Hc2 HK Hs). cbn [negb].
    rewrite (ci_key_spec c2 c K' Hc2 HK Hs). cbn [mbind option_bind].
    pose proof (mg_compare_cases asc p c) as Hcmp.
    exists (mkMerge ((p, pv) :: P') c2). unfold stands. simpl. rewrite HK.
    destruct (mg_compare asc p c); [destruct Hst as [-> ?]; subst p|subst k|destruct Hst as [-> ?]];
      (split; [done|]); (split; [by split|]); (split; [done|]); (split; [done|]); eauto.
Qed.

(** Removing the key the iteration stands at. *)
Definition without m' m (k : bytes) : Prop :=
  forall j v, live_entry m' j v <-> live_entry m j v /\ j <> k.

Lemma live_remove m m' k :
  (forall j v, j <> k -> (j, v) ∈ mg_parent m' <-> (j, v) ∈ mg_parent m) ->
  (forall j, j <> k -> is_Some (held j) -> j ∈ ci_keys (mg_cache m') <-> j ∈ ci_keys (mg_cache m)) ->
  (k ∉ (mg_parent m').*1) -> k ∉ ci_keys (mg_cache m') ->
  without m' m k.
Proof.
  intros HP HK Hnp Hnk j v. unfold live_entry. destruct (decide (j = k)) as [->|Hne].
  { assert (Hnp' : (k, v) ∉ mg_parent m') by (intros Hin; apply Hnp, list_elem_of_fmap; by exists (k, v)). tauto. }
  rewrite (HP j v Hne). destruct (decide (is_Some (held j))) as [Hs|Hs]; [rewrite (HK j Hne Hs); tauto|].
  assert (Hn : held j <> Some (Some v)) by (intros Hv; apply Hs; eauto). tauto.
Qed.

Lemma without_live m' m k j : without m' m k -> live m' j <-> live m j /\ j <> k.
Proof. intros Hw. rewrite !live_entry_live. setoid_rewrite (Hw j). naive_solver. Qed.

Lemma without_same m' m1 m k : same_live m1 m -> without m' m1 k -> without m' m k.
Proof. intros Hs Hw j v. by rewrite (Hw j v), (Hs j v). Qed.

Lemma sorted_not_in a l : StronglySorted (it_lt asc) (a :: l) -> (a ∉ l) /\ StronglySorted (it_lt asc) l.
Proof.
  intros [Hl Ha]%StronglySorted_inv. rewrite Forall_forall in Ha. split; [|done].
  intros Hin. by apply (irreflexivity (it_lt asc) a), Ha.
Qed.

Lemma mg_Next_spec m k :
  mg_ok m -> first_live m k ->
  exists m', mg_Next asc m = Some m' /\ mg_ok m' /\
    without m' m k.
Proof.
  intros Hok Hk. destruct (settle_twice m k Hok Hk) as (m1 & [P2 c2] & Hm1 & Hm2 & [Hc2 Hp2] & Hsz & Hl & Hst).
  unfold mg_Next. rewrite Hm1. cbn [mbind option_bind]. rewrite Hm2. cbn [mbind option_bind].
  unfold stands in Hst. simpl in Hst, Hc2, Hp2. cbn [mg_parent mg_cache]. pose proof (ci_sorted _ Hc2) as Hs2.
  assert (Hgoal : forall r, (exists m', r = Some m' /\ mg_ok m' /\ without m' (mkMerge P2 c2) k) ->
    exists m', r = Some m' /\ mg_ok m' /\ without m' m k).
  { intros r (m' & Hr & Hok' & Hw). exists m'. split_and!; [done|done|by eapply without_same]. }
  apply Hgoal. clear Hgoal Hl Hsz.
  destruct P2 as [|[p pv] P'], (ci_keys c2) as [|c K'] eqn:HK; simpl in Hst; [done| | |].
  - destruct Hst as [-> [v Hv]]. destruct (sorted_not_in c K' Hs2) as [Hnc HsK].
    destruct (ci_next_spec c2 c K' Hc2 HK ltac:(eauto)) as (c3 & -> & Hc3 & _ & Hh3 & Hsub3). cbn [mbind option_bind].
    exists (mkMerge [] c3). split_and!; [done|by split|]. apply live_remove; simpl; rewrite ?HK; [done| | |by intros ?%Hsub3].
    + intros j Hj Hh. rewrite Hh3, elem_of_cons by done. naive_solver.
    + apply not_elem_of_nil.
  - subst p. destruct (sorted_not_in k P'.*1 Hp2) as [Hnk HsP].
    destruct (ci_valid_nil c2 Hc2 HK) as (c3 & -> & Hc3 & HK3). cbn [negb].
    exists (mkMerge P' c3). split_and!; [done|by split|]. apply live_remove; simpl; rewrite ?HK3, ?HK; [|done|done|apply not_elem_of_nil].
    intros j u Hj. rewrite elem_of_cons. naive_solver.
  - destruct Hst as [Hs Hst]. rewrite (ci_valid_id c2 c K' Hc2 HK Hs). cbn [negb].
    rewrite (ci_key_spec c2 c K' Hc2 HK Hs). cbn [mbind option_bind].
    destruct (sorted_not_in c K' Hs2) as [Hnc HsK]. destruct (sorted_not_in p P'.*1 Hp2) as [Hnp HsP].
    pose proof (mg_compare_cases asc p c) as Hcmp. destruct (mg_compare asc p c).
    + destruct Hst as [-> Hv]. subst p. destruct (ci_next_spec c2 c K' Hc2 HK (or_intror Hv)) as (c3 & -> & Hc3 & _ & Hh3 & Hsub3). cbn [mbind option_bind].
      exists (mkMerge P' c3). split_and!; [done|by split|].
      apply live_remove; simpl; rewrite ?HK; [| |done|by intros ?%Hsub3].
      * intros j u Hj. rewrite elem_of_cons. naive_solver.
      * intros j Hj Hh. rewrite Hh3, elem_of_cons by done. naive_solver.
    + subst k. exists (mkMerge P' c2). split_and!; [done|by split|].
      apply live_remove; simpl; rewrite ?HK; [|done|done|by eapply sorted_head_lt].
      intros j u Hj. rewrite elem_of_cons. naive_solver.
    + destruct Hst as [-> Hv]. destruct (ci_next_spec c2 c K' Hc2 HK (or_intror Hv)) as (c3 & -> & Hc3 & _ & Hh3 & Hsub3). cbn [mbind option_bind].
      exists (mkMerge ((p, pv) :: P') c3). split_and!; [done|by split|].
      apply live_remove; simpl; rewrite ?HK; [done| |by eapply sorted_head_lt|by intros ?%Hsub3].
      intros j Hj Hh. rewrite Hh3, elem_of_cons by done. naive_solver.
Qed.

(** ** Reading the iterator to its end. *)

Lemma live_entry_functional m k v v' : mg_ok m -> live_entry m k v -> live_entry m k v' -> v = v'.
Proof.
  intros [_ Hp] [[Hk Hv]|[Hin Hn]] [[Hk' Hv']|[Hin' Hn']]; [congruence| | |by eapply parent_functional].
  - destruct Hn'. eauto.
  - destruct Hn. eauto.
Qed.

Lemma mg_Value_spec m k :
  mg_ok m -> first_live m k ->
  exists m' v, mg_Value asc m = Some (m', Some v) /\ mg_ok m' /\ same_live m' m /\ live_entry m k v.
Proof.
  intros Hok Hk. destruct (settle_twice m k Hok Hk) as (m1 & [P2 c2] & Hm1 & Hm2 & [Hc2 Hp2] & Hsz & Hl & Hst).
  unfold mg_Value. rewrite Hm1. cbn [mbind option_bind]. rewrite Hm2. cbn [mbind option_bind].
  unfold stands in Hst. simpl in Hst, Hc2, Hp2. cbn [mg_parent mg_cache].
  assert (Hgoal : forall r, (exists m' v, r = Some (m', Some v) /\ mg_ok m' /\
      same_live m' (mkMerge P2 c2) /\ live_entry (mkMerge P2 c2) k v) ->
    exists m' v, r = Some (m', Some v) /\ mg_ok m' /\ same_live m' m /\ live_entry m k v).
  { intros r (m' & v & Hr & Hok' & Hs & Hlv). exists m', v.
    split_and!; [done|done|by eapply same_live_trans|by apply Hl]. }
  assert (Hcache : forall c K' v, ci_keys c2 = c :: K' -> held c = Some (Some v) -> c = k ->
    exists m' v0, ('(c', value) ← ci_value c2; Some (mkMerge P2 c', value)) = Some (m', Some v0) /\
      mg_ok m' /\ same_live m' (mkMerge P2 c2) /\ live_entry (mkMerge P2 c2) k v0).
  { intros c K' v HK Hv <-. destruct (ci_value_spec c2 c K' (Some v) Hc2 HK Hv) as (c3 & -> & Hc3 & HK3 & _).
    exists (mkMerge P2 c3), v. split_and!; [done|by split| |].
    - apply live_keys_ext; [done|]. simpl. by rewrite HK, HK3.
    - left. simpl. rewrite HK, elem_of_cons. auto. }
  apply Hgoal. clear Hgoal Hl Hsz.
  destruct P2 as [|[p pv] P'], (ci_keys c2) as [|c K'] eqn:HK; simpl in Hst; [done| | |].
  - destruct Hst as [-> [v Hv]]. by eapply Hcache.
  - subst p. destruct (ci_valid_nil c2 Hc2 HK) as (c3 & -> & Hc3 & HK3). cbn [negb].
    exists (mkMerge ((k, pv) :: P') c3), pv. split_and!; [done|by split| |].
    + apply live_keys_ext; [done|]. simpl. by rewrite HK, HK3.
    + right. simpl. rewrite HK, elem_of_cons, elem_of_nil. tauto.
  - destruct Hst as [Hs Hst]. rewrite (ci_valid_id c2 c K' Hc2 HK Hs). cbn [negb].
    rewrite (ci_key_spec c2 c K' Hc2 HK Hs). cbn [mbind option_bind].
    pose proof (mg_compare_cases asc p c) as Hcmp. pose proof (ci_sorted _ Hc2) as Hs2. rewrite HK in Hs2.
    destruct (mg_compare asc p c); [destruct Hst as [-> [v Hv]]; by eapply Hcache| |destruct Hst as [-> [v Hv]]; by eapply Hcache].
    subst k. exists (mkMerge ((p, pv) :: P') c2), pv. split_and!; [done|by split|done|].
    right. simpl. rewrite HK, elem_of_cons. split; [by left|]. intros [Hin _]. by eapply sorted_head_lt.
Qed.

(** Read to its end, the iterator yields every live entry, in the order of the
    iteration, once. *)
Lemma mg_drain_spec fuel m visit :
  mg_ok m -> StronglySorted (it_lt asc) visit.*1 -> (forall k v, (k, v) ∈ visit <-> live_entry m k v) ->
  (length visit < fuel)%nat -> mg_drain asc fuel m = Some visit.
Proof.
  revert m visit. induction fuel as [|fuel IH]; intros m visit Hok Hs Hv Hlen; [lia|].
  cbn [mg_drain]. unfold mg_Valid. destruct visit as [|[k v] rest].
  - destruct (settle_none m Hok) as (m' & -> & _); [|done].
    intros k [v Hk]%live_entry_live. apply Hv in Hk. by apply elem_of_nil in Hk.
  - assert (Hfirst : first_live m k).
    { split; [apply live_entry_live; exists v; apply Hv; left|]. intros j [w Hj]%live_entry_live. apply Hv in Hj.
      eapply sorted_head_le; [done|]. by apply (list_elem_of_fmap_2 fst) in Hj. }
    destruct (settle_first m k Hok Hfirst) as (m1 & -> & Hok1 & _ & Hl1 & _). cbn [mbind option_bind].
    assert (Hf1 : first_live m1 k) by by eapply first_live_ext.
    destruct (mg_Key_spec m1 k Hok1 Hf1) as (m2 & -> & Hok2 & _ & Hl2 & _). cbn [mbind option_bind].
    assert (Hf2 : first_live m2 k) by by eapply first_live_ext.
    destruct (mg_Value_spec m2 k Hok2 Hf2) as (m3 & w & -> & Hok3 & Hl3 & Hw). cbn [mbind option_bind].
    assert (Hf3 : first_live m3 k) by by eapply first_live_ext.
    destruct (mg_Next_spec m3 k Hok3 Hf3) as (m4 & -> & Hok4 & Hl4). cbn [mbind option_bind].
    destruct (sorted_not_in k rest.*1 Hs) as [Hnk Hs'].
    assert (w = v) as ->.
    { apply (live_entry_functional m k); [done|by apply Hl1, Hl2|apply Hv; left]. }
    rewrite (IH m4 rest); [done|done|done| |simpl in Hlen; lia].
    intros j u. rewrite (Hl4 j u), (Hl3 j u), (Hl2 j u), (Hl1 j u), <- Hv, elem_of_cons. split.
    + intros Hj. split; [auto|]. intros ->. by apply Hnk, (list_elem_of_fmap_2 fst _ (k, u)).
    + intros [[[= -> ->]|?] ?]; done.
Qed.
End Merged.
