(* ===== verification/MVItem.v ===== *)
(** The versions of one key: [sei-cosmos/store/multiversion/data_structures.go].

    A [multiVersionItem] keeps the values written to one key in a B-tree ordered
    by transaction index.  The B-tree is the third-party package
    [github.com/google/btree]: it is the class [BTree] here, with its documented
    behaviour as the laws [BTreeLaws] ([bt_view] is the finite map from index to
    item the tree holds).  Go's [int] indices are [Z]. *)
From stdpp Require Import base gmap sets list sorting.
From Stdlib Require Import ZArith Lia.
From S2P Require Import Prelude KVStore.
Open Scope Z_scope.

Record valueItem := mkValueItem {
  vi_index : Z;
  vi_incarnation : Z;
  vi_value : option bytes;
  vi_estimate : bool
}.

#[export] Instance valueItem_eq_dec : EqDecision valueItem.
Proof. solve_decision. Defined.

Definition IsEstimate (v : valueItem) : bool := vi_estimate v.

Definition IsDeleted (v : valueItem) : bool :=
  bool_decide (vi_value v = None) && negb (vi_estimate v).

Definition vi_Less (i other : valueItem) : bool := bool_decide (vi_index i < vi_index other).

Definition NewValueItem (index incarnation : Z) (value : option bytes) : valueItem :=
  mkValueItem index incarnation value false.

Definition NewEstimateItem (index incarnation : Z) : valueItem :=
  mkValueItem index incarnation None true.

Definition NewDeletedItem (index incarnation : Z) : valueItem :=
  mkValueItem index incarnation None false.

(** The probe [&valueItem{index: i}] the code passes to the tree. *)
Definition probe (i : Z) : valueItem := mkValueItem i 0 None false.

(** The operations of [btree.BTree] the code calls.  [bt_Descend] and
    [bt_DescendLessOrEqual] list the items in the order in which the tree hands
    them to the callback. *)
Class BTree (T : Type) := {
  bt_New : T;
  bt_ReplaceOrInsert : T -> valueItem -> T;
  bt_Delete : T -> valueItem -> T;
  bt_Max : T -> option valueItem;
  bt_Descend : T -> list valueItem;
  bt_DescendLessOrEqual : T -> valueItem -> list valueItem
}.

Definition vi_Greater (x y : valueItem) : Prop := vi_Less y x = true.

Class BTreeLaws (T : Type) `{BTree T} := {
  bt_view : T -> gmap Z valueItem;
  bt_view_index : forall t i x, bt_view t !! i = Some x -> vi_index x = i;
  bt_view_New : bt_view bt_New = ∅;
  bt_view_ReplaceOrInsert : forall t x,
    bt_view (bt_ReplaceOrInsert t x) = <[vi_index x := x]> (bt_view t);
  bt_view_Delete : forall t x, bt_view (bt_Delete t x) = delete (vi_index x) (bt_view t);
  bt_Max_head : forall t, bt_Max t = head (bt_Descend t);
  bt_Descend_sorted : forall t, StronglySorted vi_Greater (bt_Descend t);
  bt_Descend_elem : forall t x, x ∈ bt_Descend t <-> bt_view t !! vi_index x = Some x;
  bt_DescendLessOrEqual_filter : forall t p,
    bt_DescendLessOrEqual t p = filter (fun x => vi_Less p x = false) (bt_Descend t)
}.

Section Item.
Context {T : Type} `{BTree T}.

Definition NewMultiVersionItem : T := bt_New.

Definition item_GetLatest (item : T) : option valueItem := bt_Max item.

(** The callback of [GetLatestNonEstimate]: skips estimates, stops at the first
    other item. *)
Fixpoint first_non_estimate (visited : list valueItem) : option valueItem :=
  match visited with
  | [] => None
  | item :: rest => if IsEstimate item then first_non_estimate rest else Some item
  end.

Definition item_GetLatestNonEstimate (item : T) : option valueItem :=
  first_non_estimate (bt_Descend item).

(** The callback stops at the first item at or below the pivot [index - 1]. *)
Definition item_GetLatestBeforeIndex (item : T) (index : Z) : option valueItem :=
  head (bt_DescendLessOrEqual item (probe (index - 1))).

(** [None] is the panic of [AssertValidValue]. *)
Definition item_Set (item : T) (index incarnation : Z) (value : option bytes) : option T :=
  if AssertValidValue value
  then Some (bt_ReplaceOrInsert item (NewValueItem index incarnation value))
  else None.

Definition item_Delete (item : T) (index incarnation : Z) : T :=
  bt_ReplaceOrInsert item (NewDeletedItem index incarnation).

Definition item_Remove (item : T) (index : Z) : T := bt_Delete item (probe index).

Definition item_SetEstimate (item : T) (index incarnation : Z) : T :=
  bt_ReplaceOrInsert item (NewEstimateItem index incarnation).

End Item.

(** ** What the reads return, in terms of the versions held. *)

(** [x] is the version with the highest index below [index]. *)
Definition latest_below (m : gmap Z valueItem) (index : Z) (x : valueItem) : Prop :=
  m !! vi_index x = Some x /\ vi_index x < index /\
  forall j y, m !! j = Some y -> j < index -> j <= vi_index x.

Section ItemFacts.
Context {T : Type} `{BTreeLaws T}.

Lemma descend_lookup t j y : bt_view t !! j = Some y -> y ∈ bt_Descend t /\ vi_index y = j.
Proof.
  intros Hj. pose proof (bt_view_index _ _ _ Hj) as <-. by rewrite bt_Descend_elem.
Qed.

Lemma sorted_head_max (l : list valueItem) x y :
  StronglySorted vi_Greater l -> head l = Some x -> y ∈ l -> vi_index y <= vi_index x.
Proof.
  destruct l as [|z l]; simpl; [done|]. intros Hs [= ->] Hy.
  apply StronglySorted_inv in Hs as [_ Hf]. apply elem_of_cons in Hy as [->|Hy]; [lia|].
  rewrite Forall_forall in Hf. specialize (Hf y Hy). unfold vi_Greater, vi_Less in Hf.
  rewrite bool_decide_eq_true in Hf. lia.
Qed.

Lemma GetLatestBeforeIndex_Some t index x :
  item_GetLatestBeforeIndex t index = Some x <-> latest_below (bt_view t) index x.
Proof.
  unfold item_GetLatestBeforeIndex. rewrite bt_DescendLessOrEqual_filter.
  set (l := filter _ _).
  assert (Hl : forall y, y ∈ l <-> bt_view t !! vi_index y = Some y /\ vi_index y < index).
  { intros y. unfold l. rewrite list_elem_of_filter, bt_Descend_elem.
    unfold vi_Less. rewrite bool_decide_eq_false. simpl. intuition lia. }
  assert (Hs : StronglySorted vi_Greater l) by apply StronglySorted_filter', bt_Descend_sorted.
  split.
  - intros Hh. assert (Hx : x ∈ l) by (destruct l; simplify_eq/=; apply elem_of_cons; by left).
    apply Hl in Hx as [Hv Hi]. split_and!; [done..|]. intros j y Hj Hlt.
    destruct (descend_lookup _ _ _ Hj) as [_ <-].
    apply (sorted_head_max l x y Hs Hh). apply Hl. done.
  - intros (Hv & Hi & Hmax). assert (Hx : x ∈ l) by (by apply Hl).
    destruct l as [|z l']; [by apply elem_of_nil in Hx|]. simpl. f_equal.
    assert (Hz : z ∈ z :: l') by (apply elem_of_cons; by left).
    pose proof Hz as Hz'. apply Hl in Hz' as [Hzv Hzi].
    specialize (Hmax _ _ Hzv Hzi).
    pose proof (sorted_head_max (z :: l') z x Hs eq_refl Hx) as Hle.
    assert (vi_index z = vi_index x) as He by lia. rewrite He in Hzv. congruence.
Qed.

Lemma GetLatestBeforeIndex_None t index :
  item_GetLatestBeforeIndex t index = None <->
  forall j y, bt_view t !! j = Some y -> index <= j.
Proof.
  split.
  - unfold item_GetLatestBeforeIndex. rewrite bt_DescendLessOrEqual_filter.
    intros Hh%head_None j y Hj. destruct (descend_lookup _ _ _ Hj) as [Hy <-].
    destruct (decide (index <= vi_index y)) as [?|Hlt]; [done|].
    assert (Hin : y ∈ filter (fun x => vi_Less (probe (index - 1)) x = false) (bt_Descend t)).
    { apply list_elem_of_filter. split; [|done]. unfold vi_Less.
      apply bool_decide_eq_false. simpl. lia. }
    rewrite Hh in Hin. by apply elem_of_nil in Hin.
  - intros Hall. destruct (item_GetLatestBeforeIndex t index) as [x|] eqn:E; [|done].
    apply GetLatestBeforeIndex_Some in E as (Hv & Hi & _). specialize (Hall _ _ Hv). lia.
Qed.

(** The read depends only on the versions below the index. *)
Lemma GetLatestBeforeIndex_ext t1 t2 index :
  (forall j, j < index -> bt_view t1 !! j = bt_view t2 !! j) ->
  item_GetLatestBeforeIndex t1 index = item_GetLatestBeforeIndex t2 index.
Proof.
  intros Hext. apply option_eq. intros x. rewrite !GetLatestBeforeIndex_Some.
  unfold latest_below. split; intros (Hv & Hi & Hmax).
  - rewrite Hext in Hv by done. split_and!; [done..|]. intros j y Hj Hlt.
    rewrite <- Hext in Hj by done. eauto.
  - rewrite <- Hext in Hv by done. split_and!; [done..|]. intros j y Hj Hlt.
    rewrite Hext in Hj by done. eauto.
Qed.

Lemma first_non_estimate_spec l x :
  first_non_estimate l = Some x <->
  exists pre post, l = pre ++ x :: post /\ IsEstimate x = false /\
    Forall (fun y => IsEstimate y = true) pre.
Proof.
  split.
  - induction l as [|y l IH]; simpl; [done|]. destruct (IsEstimate y) eqn:Ey.
    + intros (pre & post & -> & Hx & Hpre)%IH. exists (y :: pre), post. by repeat constructor.
    + intros [= ->]. by exists [], l.
  - intros (pre & post & -> & Hx & Hpre). induction Hpre as [|y pre Hy _ IH]; simpl.
    + by rewrite Hx.
    + by rewrite Hy.
Qed.

(** When no version is an estimate, the latest non-estimate is the highest version. *)
Lemma GetLatestNonEstimate_all t index :
  (forall j y, bt_view t !! j = Some y -> j < index /\ IsEstimate y = false) ->
  item_GetLatestNonEstimate t = item_GetLatestBeforeIndex t index.
Proof.
  intros Hall.
  assert (Hin : forall y, y ∈ bt_Descend t -> vi_index y < index /\ IsEstimate y = false).
  { intros y. rewrite bt_Descend_elem. eauto. }
  unfold item_GetLatestNonEstimate, item_GetLatestBeforeIndex.
  rewrite bt_DescendLessOrEqual_filter, filter_all.
  - destruct (bt_Descend t) as [|y l]; [done|]. simpl.
    by destruct (Hin y ltac:(apply elem_of_cons; by left)) as [_ ->].
  - intros y Hy%Hin. unfold vi_Less. apply bool_decide_eq_false. simpl. lia.
Qed.
End ItemFacts.

(** ** A concrete tree, for evaluating the model: the map from index to the
    remaining fields. *)
Definition vi_of (i : Z) (x : Z * option bytes * bool) : valueItem :=
  mkValueItem i x.1.1 x.1.2 x.2.

Definition vi_ge (x y : valueItem) : Prop := vi_index y <= vi_index x.
#[export] Instance vi_ge_dec : RelDecision vi_ge.
Proof. intros x y. unfold vi_ge. apply _. Defined.

Definition map_items (t : gmap Z (Z * option bytes * bool)) : list valueItem :=
  merge_sort vi_ge ((fun p => vi_of p.1 p.2) <$> map_to_list t).

Definition map_btree : BTree (gmap Z (Z * option bytes * bool)) := {|
  bt_New := ∅;
  bt_ReplaceOrInsert := fun t x =>
    <[vi_index x := (vi_incarnation x, vi_value x, vi_estimate x)]> t;
  bt_Delete := fun t x => delete (vi_index x) t;
  bt_Max := fun t => head (map_items t);
  bt_Descend := map_items;
  bt_DescendLessOrEqual := fun t p => filter (fun x => vi_Less p x = false) (map_items t)
|}.
#[export] Existing Instance map_btree.

Lemma map_items_elem t x :
  x ∈ map_items t <-> t !! vi_index x = Some (vi_incarnation x, vi_value x, vi_estimate x).
Proof.
  unfold map_items. rewrite merge_sort_Permutation, list_elem_of_fmap. split.
  - intros ([i [[a b] c]] & -> & Hin). by apply elem_of_map_to_list in Hin.
  - intros Hx. exists (vi_index x, (vi_incarnation x, vi_value x, vi_estimate x)).
    split; [by destruct x|]. by apply elem_of_map_to_list.
Qed.

#[export] Instance vi_ge_total : Total vi_ge.
Proof. intros x y. unfold vi_ge. lia. Qed.
#[export] Instance vi_ge_trans : Transitive vi_ge.
Proof. intros x y z. unfold vi_ge. lia. Qed.

Lemma map_items_sorted t : StronglySorted vi_Greater (map_items t).
Proof.
  assert (Hs : StronglySorted vi_ge (map_items t))
    by (apply StronglySorted_merge_sort; apply _).
  assert (Hd : NoDup (vi_index <$> map_items t)).
  { unfold map_items. rewrite merge_sort_Permutation, <- list_fmap_compose.
    apply (NoDup_fst_map_to_list t). }
  induction Hs as [|x l Hl IH Hx]; [constructor|]. simpl in Hd. apply NoDup_cons in Hd as [Hn Hd].
  constructor; [auto|]. rewrite Forall_forall in Hx |- *. intros y Hy.
  unfold vi_Greater, vi_Less. apply bool_decide_eq_true. specialize (Hx y Hy). unfold vi_ge in Hx.
  destruct (decide (vi_index y = vi_index x)) as [He|]; [|lia].
  destruct Hn. rewrite <- He. by apply list_elem_of_fmap_2.
Qed.

#[export] Instance map_btree_laws : BTreeLaws (gmap Z (Z * option bytes * bool)).
Proof.
  refine {| bt_view := map_imap (fun i x => Some (vi_of i x)) |}.
  - intros t i x. rewrite map_lookup_imap. destruct (t !! i); naive_solver.
  - done.
  - intros t x. apply map_eq. intros i. rewrite map_lookup_imap. simpl.
    destruct (decide (i = vi_index x)) as [->|Hne].
    + rewrite !lookup_insert_eq. simpl. by destruct x.
    + rewrite !lookup_insert_ne by done. by rewrite map_lookup_imap.
  - intros t x. apply map_eq. intros i. rewrite map_lookup_imap. simpl.
    destruct (decide (i = vi_index x)) as [->|Hne].
    + by rewrite !lookup_delete_eq.
    + rewrite !lookup_delete_ne by done. by rewrite map_lookup_imap.
  - done.
  - apply map_items_sorted.
  - intros t x. simpl. rewrite map_items_elem, map_lookup_imap.
    destruct (t !! vi_index x) as [[[a b] c]|]; simpl; [|naive_solver].
    destruct x; unfold vi_of; simpl. naive_solver.
  - done.
Defined.
