(* ===== verification/MVStore.v ===== *)
(** The multi-version store of one substore:
    [sei-cosmos/store/multiversion/store.go], with the iterators it validates
    with ([memiterator.go], [mergeiterator.go]).

    The four [sync.Map]s are finite maps and the parent store is any [KVStore].
    The in-memory database that collects iterator keys ([tm-db]'s [MemDB], a
    third-party package) is the class [MemDB].  A method is one step: the
    scheduler interleaves whole method calls. *)
From stdpp Require Import base gmap sets list sorting.
From Stdlib Require Import ZArith Lia.
From S2P Require Import Prelude KVStore MergeIter MVItem.
Open Scope Z_scope.

Abbreviation WriteSet := (gmap bytes (option bytes)).
Abbreviation ReadSet := (gmap bytes (list (option bytes))).

(** [iterationTracker] of [mvkv.go]: what one iterator of a transaction saw. *)
Record iterationTracker := mkTracker {
  it_startKey : option bytes;
  it_endKey : option bytes;
  it_earlyStopKey : option bytes;
  it_iteratedKeys : gset bytes;
  it_ascending : bool;
  it_writeset : WriteSet
}.

Record Store (T P : Type) := mkStore {
  multiVersionMap : gmap bytes T;
  txWritesetKeys : gmap Z (list bytes);
  txReadSets : gmap Z ReadSet;
  txIterateSets : gmap Z (list iterationTracker);
  parentStore : P
}.
Arguments mkStore {T P}.
Arguments multiVersionMap {T P}.
Arguments txWritesetKeys {T P}.
Arguments txReadSets {T P}.
Arguments txIterateSets {T P}.
Arguments parentStore {T P}.

Section Store.
Context {T P M : Type} `{!BTree T} `{!KVStore P} `{!MemDB M}.
Implicit Types s : Store T P.

Definition NewMultiVersionStore (parent : P) : Store T P := mkStore ∅ ∅ ∅ ∅ parent.

Definition GetLatest s (key : bytes) : option valueItem :=
  match multiVersionMap s !! key with
  | None => None
  | Some mvVal => item_GetLatest mvVal
  end.

Definition GetLatestBeforeIndex s (index : Z) (key : bytes) : option valueItem :=
  match multiVersionMap s !! key with
  | None => None
  | Some mvVal => item_GetLatestBeforeIndex mvVal index
  end.

Definition Has s (index : Z) (key : bytes) : bool :=
  match multiVersionMap s !! key with
  | None => false
  | Some mvVal => bool_decide (item_GetLatestBeforeIndex mvVal index <> None)
  end.

(** ** Writing. *)

Definition remove_old_key (index : Z) (writeset : WriteSet) (m : gmap bytes T) (key : bytes)
    : gmap bytes T :=
  match writeset !! key with
  | Some _ => m
  | None =>
      match m !! key with
      | None => m
      | Some mvVal => <[key := item_Remove mvVal index]> m
      end
  end.

Definition removeOldWriteset s (index : Z) (newWriteSet : option WriteSet) : Store T P :=
  let writeset := default ∅ newWriteSet in
  match txWritesetKeys s !! index with
  | None => s
  | Some keys =>
      mkStore (fold_left (remove_old_key index writeset) keys (multiVersionMap s))
        (delete index (txWritesetKeys s)) (txReadSets s) (txIterateSets s) (parentStore s)
  end.

Definition set_key (index incarnation : Z) (m : gmap bytes T) (kv : bytes * option bytes)
    : gmap bytes T :=
  let mvVal := default NewMultiVersionItem (m !! kv.1) in
  <[kv.1 := match kv.2 with
            | None => item_Delete mvVal index incarnation
            | Some _ => default mvVal (item_Set mvVal index incarnation kv.2)
            end]> m.

Definition SetWriteset s (index incarnation : Z) (writeset : WriteSet) : Store T P :=
  let s1 := removeOldWriteset s index (Some writeset) in
  mkStore (fold_left (set_key index incarnation) (map_to_list writeset) (multiVersionMap s1))
    (<[index := sort_strings ((map_to_list writeset).*1)]> (txWritesetKeys s1))
    (txReadSets s1) (txIterateSets s1) (parentStore s1).

Definition estimate_key (index incarnation : Z) (m : gmap bytes T) (key : bytes) : gmap bytes T :=
  <[key := item_SetEstimate (default NewMultiVersionItem (m !! key)) index incarnation]> m.

Definition InvalidateWriteset s (index incarnation : Z) : Store T P :=
  match txWritesetKeys s !! index with
  | None => s
  | Some keys =>
      mkStore (fold_left (estimate_key index incarnation) keys (multiVersionMap s))
        (txWritesetKeys s) (txReadSets s) (txIterateSets s) (parentStore s)
  end.

Definition SetEstimatedWriteset s (index incarnation : Z) (writeset : WriteSet) : Store T P :=
  let s1 := removeOldWriteset s index (Some writeset) in
  mkStore
    (fold_left (estimate_key index incarnation) ((map_to_list writeset).*1) (multiVersionMap s1))
    (<[index := sort_strings ((map_to_list writeset).*1)]> (txWritesetKeys s1))
    (txReadSets s1) (txIterateSets s1) (parentStore s1).

Definition GetAllWritesetKeys s : gmap Z (list bytes) := txWritesetKeys s.

Definition SetReadset s (index : Z) (readset : ReadSet) : Store T P :=
  mkStore (multiVersionMap s) (txWritesetKeys s) (<[index := readset]> (txReadSets s))
    (txIterateSets s) (parentStore s).

Definition GetReadset s (index : Z) : option ReadSet := txReadSets s !! index.

Definition SetIterateset s (index : Z) (iterateset : list iterationTracker) : Store T P :=
  mkStore (multiVersionMap s) (txWritesetKeys s) (txReadSets s)
    (<[index := iterateset]> (txIterateSets s)) (parentStore s).

Definition GetIterateset s (index : Z) : option (list iterationTracker) := txIterateSets s !! index.

Definition ClearReadset s (index : Z) : Store T P :=
  mkStore (multiVersionMap s) (txWritesetKeys s) (delete index (txReadSets s))
    (txIterateSets s) (parentStore s).

Definition ClearIterateset s (index : Z) : Store T P :=
  mkStore (multiVersionMap s) (txWritesetKeys s) (txReadSets s)
    (delete index (txIterateSets s)) (parentStore s).

(** The effect of [WriteLatestToStore] on one key; [None] is the panic on an
    estimate. *)
Definition write_latest_key s (acc : option P) (key : bytes) : option P :=
  p ← acc;
  match multiVersionMap s !! key with
  | None => Some p
  | Some val =>
      match item_GetLatestNonEstimate val with
      | None => Some p
      | Some mvValue =>
          if IsEstimate mvValue then None
          else if IsDeleted mvValue then Some (kv_Delete p key)
          else match vi_value mvValue with
               | Some v => Some (kv_Set p key v)
               | None => Some p
               end
      end
  end.

Definition WriteLatestToStore s : option (Store T P) :=
  let keys := sort_strings ((map_to_list (multiVersionMap s)).*1) in
  p ← fold_left (write_latest_key s) keys (Some (parentStore s));
  Some (mkStore (multiVersionMap s) (txWritesetKeys s) (txReadSets s) (txIterateSets s) p).

(** ** Iterator validation. *)

Definition collect_keys (db : M) (keys : list bytes) : M :=
  fold_left (fun db key => memdb_Set db key []) keys db.

Definition CollectIteratorItems s (index : Z) : M :=
  fold_left (fun db i =>
      match txWritesetKeys s !! i with
      | None => db
      | Some indexedWriteset => collect_keys db indexedWriteset
      end)
    (seqZ 0 index) memdb_New.

(** The keys a [MemDB] iterator visits; [None] is the panic on its error. *)
Definition db_keys (ascending : bool) (db : M) (start end_ : option bytes) : option (list bytes) :=
  (fun l : list (bytes * bytes) => l.*1) <$>
    (if ascending then memdb_Iterator db start end_ else memdb_ReverseIterator db start end_).

(** [validationIterator]: the keys left to visit, the values already served and
    the abort waiting in the channel (of capacity one). *)
Record validationIterator := mkVI {
  vit_keys : list bytes;
  vit_readCache : gmap bytes (option bytes);
  vit_abort : option Z
}.

Section Replay.
Variables (s : Store T P) (index : Z) (writeset : WriteSet) (ascending : bool).

Definition hasCurrentValue (vi : validationIterator) (key : bytes) : bool :=
  bool_decide (is_Some (writeset !! key)) ||
  bool_decide (is_Some (vit_readCache vi !! key)) ||
  bool_decide (GetLatestBeforeIndex s index key <> None).

Fixpoint skip_removed (vi : validationIterator) (keys : list bytes) : list bytes :=
  match keys with
  | [] => []
  | key :: rest => if hasCurrentValue vi key then keys else skip_removed vi rest
  end.

Definition skipRemovedKeys (vi : validationIterator) : validationIterator :=
  mkVI (skip_removed vi (vit_keys vi)) (vit_readCache vi) (vit_abort vi).

Definition vit_Valid (vi : validationIterator) : validationIterator * bool :=
  let vi := skipRemovedKeys vi in (vi, bool_decide (vit_keys vi <> [])).

(** [Next], [Key] and [Value] panic on an exhausted iterator ([None]). *)
Definition vit_Next (vi : validationIterator) : option validationIterator :=
  match vit_keys vi with
  | [] => None
  | _ :: rest => Some (skipRemovedKeys (mkVI rest (vit_readCache vi) (vit_abort vi)))
  end.

Definition vit_Key (vi : validationIterator) : option (validationIterator * bytes) :=
  let vi := skipRemovedKeys vi in
  match vit_keys vi with [] => None | key :: _ => Some (vi, key) end.

Definition vit_WriteAbort (vi : validationIterator) (dep : Z) : validationIterator :=
  match vit_abort vi with
  | None => mkVI (vit_keys vi) (vit_readCache vi) (Some dep)
  | Some _ => vi
  end.

Definition vit_Value (vi : validationIterator) : option (validationIterator * option bytes) :=
  match vit_keys vi with
  | [] => None
  | key :: _ =>
      match writeset !! key with
      | Some val => Some (vi, val)
      | None =>
          match vit_readCache vi !! key with
          | Some val => Some (vi, val)
          | None =>
              match GetLatestBeforeIndex s index key with
              | None => Some (vi, None)
              | Some val =>
                  let vi := if IsEstimate val then vit_WriteAbort vi (vi_index val) else vi in
                  if IsDeleted val
                  then Some (mkVI (vit_keys vi) (<[key := None]> (vit_readCache vi)) (vit_abort vi),
                             None)
                  else Some (mkVI (vit_keys vi) (<[key := vi_value val]> (vit_readCache vi))
                               (vit_abort vi), vi_value val)
              end
          end
      end
  end.

(** The validation iterator as the cache side of the merge iterator. *)
#[local] Instance vit_iter : CacheIter validationIterator := {|
  ci_valid := vit_Valid;
  ci_key := vit_Key;
  ci_value := vit_Value;
  ci_next := vit_Next;
  ci_keys := vit_keys
|}.

(** [mvsMergeIterator]: the merge iterator over the validation iterator. *)
Definition mvsMergeIterator : Type := mergeIterator validationIterator.
Definition mvs_Valid (ascending : bool) (m : mvsMergeIterator) : option (mvsMergeIterator * bool) :=
  mg_Valid ascending m.
Definition mvs_Key (ascending : bool) (m : mvsMergeIterator) : option (mvsMergeIterator * bytes) :=
  mg_Key ascending m.
Definition mvs_Next (ascending : bool) (m : mvsMergeIterator) : option mvsMergeIterator :=
  mg_Next ascending m.

Definition mg_aborted (m : mergeIterator validationIterator) : bool :=
  bool_decide (is_Some (vit_abort (mg_cache m))).

(** Every turn of the loop consumes an entry of one side. *)
Definition replay_size (m : mergeIterator validationIterator) : nat :=
  (length (mg_parent m) + length (vit_keys (mg_cache m)))%nat.

(** The loop of [validateIteratorReplay]: [Some b] is [return b], [None] a panic. *)
Fixpoint replay_loop (fuel : nat) (expectedKeys : gset bytes) (earlyStopKey : option bytes)
    (foundKeys : nat) (m : mergeIterator validationIterator) : option bool :=
  match fuel with
  | O => Some false
  | S fuel =>
      if mg_aborted m then Some false else
      '(m, valid) ← mvs_Valid ascending m;
      if negb valid then
        Some (negb (mg_aborted m) && bool_decide (size expectedKeys <= foundKeys)%nat)
      else if mg_aborted m then Some false
      else if bool_decide (Z.of_nat (size expectedKeys) - Z.of_nat foundKeys = 0) then Some false
      else
        '(m, key) ← mvs_Key ascending m;
        if mg_aborted m then Some false
        else if bool_decide (key ∉ expectedKeys) then Some false
        else
          let foundKeys := S foundKeys in
          if bytes_equal (Some key) earlyStopKey
          then Some (negb (mg_aborted m) && bool_decide (size expectedKeys <= foundKeys)%nat)
          else m ← mvs_Next ascending m; replay_loop fuel expectedKeys earlyStopKey foundKeys m
  end.
End Replay.

Definition validateIteratorReplay s (index : Z) (tracker : iterationTracker) (items : M)
    : option bool :=
  let '(start, end_, asc) := (it_startKey tracker, it_endKey tracker, it_ascending tracker) in
  let parentIter := if asc then kv_Iterator (parentStore s) start end_
                    else kv_ReverseIterator (parentStore s) start end_ in
  keys ← db_keys asc items start end_;
  let m := mkMerge parentIter (mkVI keys ∅ None) in
  replay_loop s index (it_writeset tracker) asc (S (replay_size m)) (it_iteratedKeys tracker)
    (it_earlyStopKey tracker) 0 m.

(** A panic during the replay is recovered and counts as not valid. *)
Definition validateIterator s (index : Z) (tracker : iterationTracker) : bool :=
  let sortedItems := collect_keys (CollectIteratorItems s index)
                       ((map_to_list (it_writeset tracker)).*1) in
  default false (validateIteratorReplay s index tracker sortedItems).

Definition checkIteratorAtIndex s (index : Z) : bool :=
  match txIterateSets s !! index with
  | None => true
  | Some iterateset =>
      fold_left (fun valid tracker => valid && validateIterator s index tracker) iterateset true
  end.

(** ** Readset validation. *)

Record readCheck := mkCheck {
  rc_valid : bool;
  rc_conflictSet : gset Z;
  rc_conflictKeys : list bytes
}.

(** One turn of the loop of [checkReadsetAtIndex]. *)
Definition check_read s (index : Z) (c : readCheck) (kv : bytes * list (option bytes)) : readCheck :=
  let '(key, valueArr) := kv in
  match valueArr with
  | [value] =>
      match GetLatestBeforeIndex s index key with
      | None =>
          let parentVal := kv_Get (parentStore s) key in
          if bytes_equal parentVal value then c
          else mkCheck false (rc_conflictSet c) (rc_conflictKeys c ++ [key])
      | Some latestValue =>
          if IsEstimate latestValue
          then mkCheck (rc_valid c) ({[vi_index latestValue]} ∪ rc_conflictSet c) (rc_conflictKeys c)
          else if IsDeleted latestValue then
            if bool_decide (value <> None)
            then mkCheck false ({[vi_index latestValue]} ∪ rc_conflictSet c) (rc_conflictKeys c ++ [key])
            else c
          else if negb (bytes_equal (vi_value latestValue) value)
          then mkCheck false ({[vi_index latestValue]} ∪ rc_conflictSet c) (rc_conflictKeys c ++ [key])
          else c
      end
  | _ => mkCheck false (rc_conflictSet c) (rc_conflictKeys c)
  end.

Definition checkReadsetAtIndex s (index : Z) : bool * list Z * list bytes :=
  match txReadSets s !! index with
  | None => (true, [], [])
  | Some readset =>
      let c := fold_left (check_read s index) (map_to_list readset) (mkCheck true ∅ []) in
      (rc_valid c, merge_sort Z.le (elements (rc_conflictSet c)), rc_conflictKeys c)
  end.

Definition ValidateTransactionState s (index : Z) : bool * list Z :=
  let iteratorValid := checkIteratorAtIndex s index in
  let '(readsetValid, conflictIndices, _) := checkReadsetAtIndex s index in
  (iteratorValid && readsetValid, conflictIndices).

Definition ValidateTransactionStateWithKeys s (index : Z) : bool * list Z * list bytes :=
  let iteratorValid := checkIteratorAtIndex s index in
  let '(readsetValid, conflictIndices, conflictKeys) := checkReadsetAtIndex s index in
  (iteratorValid && readsetValid, conflictIndices, conflictKeys).
End Store.

(** ** The versions a store holds. *)
Section StoreFacts.
Context {T P : Type} `{!BTree T, !BTreeLaws T} `{!KVStore P}.
Implicit Types (s : Store T P) (m : gmap bytes T).

(** The version of [key] written at transaction index [i]. *)
Definition map_version m (key : bytes) (i : Z) : option valueItem :=
  item ← m !! key; bt_view item !! i.

Definition version s (key : bytes) (i : Z) : option valueItem :=
  map_version (multiVersionMap s) key i.

Lemma map_version_insert m key item k i :
  map_version (<[key := item]> m) k i =
  if decide (k = key) then bt_view item !! i else map_version m k i.
Proof.
  unfold map_version. case_decide as Hk; [subst; by rewrite lookup_insert_eq|].
  by rewrite lookup_insert_ne.
Qed.

Lemma map_version_default m key i :
  bt_view (default NewMultiVersionItem (m !! key)) !! i = map_version m key i.
Proof.
  unfold map_version, NewMultiVersionItem. destruct (m !! key); simpl; [done|].
  by rewrite bt_view_New.
Qed.

Lemma remove_old_key_version index ws m key k i :
  map_version (remove_old_key index ws m key) k i =
  if decide (k = key /\ ws !! k = None /\ i = index) then None else map_version m k i.
Proof.
  unfold remove_old_key. destruct (ws !! key) eqn:Hw.
  { rewrite decide_False; [done|]. intros (-> & Hn & _). congruence. }
  destruct (m !! key) as [t|] eqn:Hm.
  - rewrite map_version_insert. unfold item_Remove. rewrite bt_view_Delete, lookup_delete. simpl.
    destruct (decide (k = key)) as [->|Hne]; [|by rewrite decide_False by naive_solver].
    case_decide as Hi; [by rewrite decide_True by done|].
    rewrite decide_False by naive_solver. unfold map_version. by rewrite Hm.
  - case_decide as Hd; [|done]. destruct Hd as (-> & _ & _). unfold map_version. by rewrite Hm.
Qed.

Lemma remove_old_keys_version index ws keys m k i :
  map_version (fold_left (remove_old_key index ws) keys m) k i =
  if decide (k ∈ keys /\ ws !! k = None /\ i = index) then None else map_version m k i.
Proof.
  revert m. induction keys as [|key keys IH]; intros m; cbn [fold_left].
  { rewrite decide_False; [done|]. intros (Hn & _). by apply elem_of_nil in Hn. }
  rewrite IH, remove_old_key_version.
  repeat case_decide; rewrite ?elem_of_cons in *; naive_solver.
Qed.

Lemma set_key_version index incarnation m key v k i :
  map_version (set_key index incarnation m (key, v)) k i =
  if decide (k = key /\ i = index) then Some (mkValueItem index incarnation v false)
  else map_version m k i.
Proof.
  unfold set_key. simpl. rewrite map_version_insert.
  destruct (decide (k = key)) as [->|Hne]; [|by rewrite decide_False by naive_solver].
  assert (Hv : forall t, bt_view (match v with
      | None => item_Delete t index incarnation
      | Some _ => default t (item_Set t index incarnation v)
      end) = <[index := mkValueItem index incarnation v false]> (bt_view t)).
  { intros t. destruct v as [v|]; unfold item_Delete, item_Set; simpl;
      by rewrite bt_view_ReplaceOrInsert. }
  rewrite Hv, lookup_insert, map_version_default. repeat case_decide; naive_solver.
Qed.

Lemma set_keys_version index incarnation (l : list (bytes * option bytes)) m k i :
  NoDup l.*1 ->
  map_version (fold_left (set_key index incarnation) l m) k i =
  match (list_to_map l : WriteSet) !! k with
  | Some v => if decide (i = index) then Some (mkValueItem index incarnation v false)
              else map_version m k i
  | None => map_version m k i
  end.
Proof.
  revert m. induction l as [|[key v] l IH]; intros m; simpl; [by rewrite lookup_empty|].
  rewrite NoDup_cons. intros [Hn Hd]. rewrite IH by done. rewrite set_key_version, lookup_insert.
  destruct (decide (key = k)) as [->|Hne].
  - rewrite (not_elem_of_list_to_map_1 (M := gmap bytes)) by done. repeat case_decide; naive_solver.
  - rewrite (decide_False (P := k = key /\ _)) by naive_solver. done.
Qed.

Lemma estimate_keys_version index incarnation keys m k i :
  map_version (fold_left (estimate_key index incarnation) keys m) k i =
  if decide (k ∈ keys /\ i = index) then Some (NewEstimateItem index incarnation)
  else map_version m k i.
Proof.
  revert m. induction keys as [|key keys IH]; intros m; cbn [fold_left].
  { rewrite decide_False; [done|]. intros (Hn & _). by apply elem_of_nil in Hn. }
  rewrite IH. unfold estimate_key at 1. rewrite map_version_insert.
  unfold item_SetEstimate. rewrite bt_view_ReplaceOrInsert, lookup_insert. simpl.
  rewrite map_version_default.
  repeat case_decide; rewrite ?elem_of_cons in *; naive_solver.
Qed.

(** Every version belongs to a recorded writeset, and recorded keys are valid. *)
Record mv_wf s : Prop := {
  wf_recorded : forall key i x, version s key i = Some x ->
    exists keys, txWritesetKeys s !! i = Some keys /\ key ∈ keys;
  wf_keys_valid : forall i keys, txWritesetKeys s !! i = Some keys -> [] ∉ keys
}.

Lemma version_index s key i x : version s key i = Some x -> vi_index x = i.
Proof.
  unfold version, map_version. destruct (_ !! key) as [t|]; simpl; [|done].
  apply bt_view_index.
Qed.

Lemma removeOldWriteset_version s index ws key i :
  mv_wf s ->
  version (removeOldWriteset s index (Some ws)) key i =
  if decide (ws !! key = None /\ i = index) then None else version s key i.
Proof.
  intros Hwf. unfold removeOldWriteset. simpl.
  destruct (txWritesetKeys s !! index) as [keys|] eqn:Hk.
  - unfold version at 1. simpl. rewrite remove_old_keys_version. fold (version s key i).
    repeat case_decide; try naive_solver.
    destruct (version s key i) as [x|] eqn:Hx; [|done].
    apply (wf_recorded s Hwf) in Hx. naive_solver.
  - case_decide as Hd; [|done]. destruct Hd as [_ ->].
    destruct (version s key index) as [x|] eqn:Hx; [|done].
    apply (wf_recorded s Hwf) in Hx. naive_solver.
Qed.

Lemma removeOldWriteset_keys s index ws i :
  i <> index ->
  txWritesetKeys (removeOldWriteset s index ws) !! i = txWritesetKeys s !! i.
Proof.
  intros Hi. unfold removeOldWriteset. destruct (txWritesetKeys s !! index) eqn:Hk; simpl; [|done].
  by rewrite lookup_delete_ne.
Qed.

Lemma removeOldWriteset_rest s index ws :
  parentStore (removeOldWriteset s index ws) = parentStore s /\
  txReadSets (removeOldWriteset s index ws) = txReadSets s /\
  txIterateSets (removeOldWriteset s index ws) = txIterateSets s.
Proof. unfold removeOldWriteset. by destruct (txWritesetKeys s !! index). Qed.

Lemma SetWriteset_version s index incarnation ws key i :
  mv_wf s ->
  version (SetWriteset s index incarnation ws) key i =
  if decide (i = index) then (fun v => mkValueItem index incarnation v false) <$> ws !! key
  else version s key i.
Proof.
  intros Hwf. unfold SetWriteset, version at 1. simpl.
  rewrite set_keys_version by apply NoDup_fst_map_to_list.
  rewrite list_to_map_to_list. fold (version (removeOldWriteset s index (Some ws)) key i).
  rewrite removeOldWriteset_version by done.
  destruct (ws !! key) as [v|]; simpl; repeat case_decide; naive_solver.
Qed.

Lemma SetEstimatedWriteset_version s index incarnation ws key i :
  mv_wf s ->
  version (SetEstimatedWriteset s index incarnation ws) key i =
  if decide (i = index) then (fun _ => NewEstimateItem index incarnation) <$> ws !! key
  else version s key i.
Proof.
  intros Hwf. unfold SetEstimatedWriteset, version at 1. simpl.
  rewrite estimate_keys_version. fold (version (removeOldWriteset s index (Some ws)) key i).
  rewrite removeOldWriteset_version by done.
  assert (Hk : key ∈ (map_to_list ws).*1 <-> is_Some (ws !! key)).
  { rewrite <- elem_of_dom. rewrite <- (list_to_map_to_list ws) at 2.
    rewrite dom_list_to_map. by rewrite elem_of_list_to_set. }
  destruct (ws !! key) as [v|] eqn:Hv; simpl; repeat case_decide; naive_solver.
Qed.

Lemma InvalidateWriteset_version_ne s index incarnation key i :
  i <> index -> version (InvalidateWriteset s index incarnation) key i = version s key i.
Proof.
  intros Hi. unfold InvalidateWriteset. destruct (txWritesetKeys s !! index) eqn:Hk; [|done].
  unfold version at 1. simpl. rewrite estimate_keys_version. by rewrite decide_False by naive_solver.
Qed.

Lemma InvalidateWriteset_version_eq s index incarnation key :
  mv_wf s ->
  version (InvalidateWriteset s index incarnation) key index = None \/
  version (InvalidateWriteset s index incarnation) key index =
    Some (NewEstimateItem index incarnation).
Proof.
  intros Hwf. unfold InvalidateWriteset. destruct (txWritesetKeys s !! index) as [keys|] eqn:Hk.
  - unfold version. simpl. rewrite estimate_keys_version. fold (version s key index).
    case_decide; [by right|left].
    destruct (version s key index) as [x|] eqn:Hx; [|done].
    apply (wf_recorded s Hwf) in Hx. naive_solver.
  - left. destruct (version s key index) as [x|] eqn:Hx; [|done].
    apply (wf_recorded s Hwf) in Hx. naive_solver.
Qed.

Lemma mv_wf_New p : mv_wf (NewMultiVersionStore p).
Proof. split; [intros key i x|intros i keys]; by rewrite ?lookup_empty. Qed.

Lemma writeset_keys_valid (ws : WriteSet) : ws !! [] = None -> [] ∉ sort_strings ((map_to_list ws).*1).
Proof.
  rewrite elem_of_sort_strings. intros Hn Hin.
  apply list_elem_of_fmap in Hin as ([k v] & Hk & Hin). simpl in Hk. subst.
  apply elem_of_map_to_list in Hin. congruence.
Qed.

Lemma writeset_keys_elem (ws : WriteSet) key :
  key ∈ sort_strings ((map_to_list ws).*1) <-> is_Some (ws !! key).
Proof.
  rewrite elem_of_sort_strings, list_elem_of_fmap. split.
  - intros ([k v] & -> & Hin). apply elem_of_map_to_list in Hin. eauto.
  - intros [v Hv]. exists (key, v). split; [done|]. by apply elem_of_map_to_list.
Qed.

Lemma mv_wf_SetWriteset s index incarnation ws :
  ws !! [] = None -> mv_wf s -> mv_wf (SetWriteset s index incarnation ws).
Proof.
  intros Hn Hwf. split.
  - intros key i x. rewrite SetWriteset_version by done. simpl.
    case_decide as Hi; [subst; rewrite lookup_insert_eq|rewrite lookup_insert_ne by done].
    + intros Hx. eexists; split; [done|]. apply writeset_keys_elem.
      destruct (ws !! key); naive_solver.
    + rewrite removeOldWriteset_keys by done. apply Hwf.
  - intros i keys. simpl. destruct (decide (i = index)) as [->|Hi].
    + rewrite lookup_insert_eq. intros [= <-]. by apply writeset_keys_valid.
    + rewrite lookup_insert_ne, removeOldWriteset_keys by done. apply Hwf.
Qed.

Lemma mv_wf_SetEstimatedWriteset s index incarnation ws :
  ws !! [] = None -> mv_wf s -> mv_wf (SetEstimatedWriteset s index incarnation ws).
Proof.
  intros Hn Hwf. split.
  - intros key i x. rewrite SetEstimatedWriteset_version by done. simpl.
    case_decide as Hi; [subst; rewrite lookup_insert_eq|rewrite lookup_insert_ne by done].
    + intros Hx. eexists; split; [done|]. apply writeset_keys_elem.
      destruct (ws !! key); naive_solver.
    + rewrite removeOldWriteset_keys by done. apply Hwf.
  - intros i keys. simpl. destruct (decide (i = index)) as [->|Hi].
    + rewrite lookup_insert_eq. intros [= <-]. by apply writeset_keys_valid.
    + rewrite lookup_insert_ne, removeOldWriteset_keys by done. apply Hwf.
Qed.

Lemma InvalidateWriteset_keys s index incarnation :
  txWritesetKeys (InvalidateWriteset s index incarnation) = txWritesetKeys s.
Proof. unfold InvalidateWriteset. by destruct (txWritesetKeys s !! index). Qed.

Lemma InvalidateWriteset_rest s index incarnation :
  parentStore (InvalidateWriteset s index incarnation) = parentStore s /\
  txReadSets (InvalidateWriteset s index incarnation) = txReadSets s /\
  txIterateSets (InvalidateWriteset s index incarnation) = txIterateSets s.
Proof. unfold InvalidateWriteset. by destruct (txWritesetKeys s !! index). Qed.

Lemma mv_wf_InvalidateWriteset s index incarnation :
  mv_wf s -> mv_wf (InvalidateWriteset s index incarnation).
Proof.
  intros Hwf. split; rewrite InvalidateWriteset_keys; [|apply Hwf].
  intros key i x. unfold InvalidateWriteset.
  destruct (txWritesetKeys s !! index) as [keys|] eqn:Hk; [|apply Hwf].
  unfold version. simpl. rewrite estimate_keys_version. case_decide as Hd; [naive_solver|].
  apply Hwf.
Qed.

(** ** Reads and their validation. *)

Lemma GetLatestBeforeIndex_version s index key x :
  GetLatestBeforeIndex s index key = Some x <->
  version s key (vi_index x) = Some x /\ vi_index x < index /\
  forall j y, version s key j = Some y -> j < index -> j <= vi_index x.
Proof.
  unfold GetLatestBeforeIndex, version, map_version.
  destruct (multiVersionMap s !! key) as [t|]; simpl; [|naive_solver].
  apply GetLatestBeforeIndex_Some.
Qed.

Lemma GetLatestBeforeIndex_version_None s index key :
  GetLatestBeforeIndex s index key = None <->
  forall j y, version s key j = Some y -> index <= j.
Proof.
  unfold GetLatestBeforeIndex, version, map_version.
  destruct (multiVersionMap s !! key) as [t|]; simpl; [|naive_solver].
  apply GetLatestBeforeIndex_None.
Qed.

(** A read at [index] depends on the versions below [index] only. *)
Lemma GetLatestBeforeIndex_local s1 s2 index key :
  (forall j, j < index -> version s1 key j = version s2 key j) ->
  GetLatestBeforeIndex s1 index key = GetLatestBeforeIndex s2 index key.
Proof.
  intros Hext. apply option_eq. intros x. rewrite !GetLatestBeforeIndex_version.
  split; intros (Hv & Hi & Hmax).
  - rewrite Hext in Hv by done. split_and!; [done..|]. intros j y Hj Hlt.
    rewrite <- Hext in Hj by done. eauto.
  - rewrite <- Hext in Hv by done. split_and!; [done..|]. intros j y Hj Hlt.
    rewrite Hext in Hj by done. eauto.
Qed.

(** The value a read at [index] resolves to, [None] on an estimate. *)
Definition resolve s (index : Z) (key : bytes) : option (option bytes) :=
  match GetLatestBeforeIndex s index key with
  | None => Some (kv_Get (parentStore s) key)
  | Some x => if IsEstimate x then None else Some (vi_value x)
  end.

(** What [checkReadsetAtIndex] accepts for one key. *)
Definition read_ok s (index : Z) (kv : bytes * list (option bytes)) : Prop :=
  match kv.2 with
  | [v] =>
      match GetLatestBeforeIndex s index kv.1 with
      | None => bytes_equal (kv_Get (parentStore s) kv.1) v = true
      | Some x => IsEstimate x = false /\
          if IsDeleted x then v = None else bytes_equal (vi_value x) v = true
      end
  | _ => False
  end.

Lemma check_read_ok s index c kv :
  let c' := check_read s index c kv in
  (rc_valid c' = true /\ rc_conflictSet c' = ∅) <->
  (rc_valid c = true /\ rc_conflictSet c = ∅ /\ read_ok s index kv).
Proof.
  destruct kv as [key vals]. unfold check_read, read_ok. simpl.
  destruct vals as [|v [|w vals]]; simpl; [intuition congruence| |intuition congruence].
  destruct (GetLatestBeforeIndex s index key) as [x|].
  - assert (Hne : {[vi_index x]} ∪ rc_conflictSet c <> ∅) by set_solver.
    destruct (IsEstimate x); simpl; [intuition congruence|]. destruct (IsDeleted x).
    + destruct v; simpl; intuition congruence.
    + destruct (bytes_equal (vi_value x) v); simpl; intuition congruence.
  - destruct (bytes_equal (kv_Get (parentStore s) key) v); simpl; intuition congruence.
Qed.

Lemma check_reads_ok s index l c :
  let c' := fold_left (check_read s index) l c in
  (rc_valid c' = true /\ rc_conflictSet c' = ∅) <->
  (rc_valid c = true /\ rc_conflictSet c = ∅ /\ Forall (read_ok s index) l).
Proof.
  simpl. revert c. induction l as [|kv l IH]; intros c; simpl.
  - rewrite Forall_nil. tauto.
  - rewrite IH, Forall_cons. pose proof (check_read_ok s index c kv) as Hk. simpl in Hk. tauto.
Qed.

Lemma sorted_elements_nil (X : gset Z) : merge_sort Z.le (elements X) = [] <-> X = ∅.
Proof.
  split; [|by intros ->]. intros Hm. apply leibniz_equiv, elements_empty_iff, Permutation_nil.
  rewrite <- Hm. apply merge_sort_Permutation.
Qed.

(** Validation succeeds without conflicts exactly when every recorded read
    agrees with the store below the index. *)
Lemma checkReadsetAtIndex_ok s index ks readset :
  txReadSets s !! index = Some readset ->
  checkReadsetAtIndex s index = (true, [], ks) ->
  forall key vals, readset !! key = Some vals -> read_ok s index (key, vals).
Proof.
  intros Hr. unfold checkReadsetAtIndex. rewrite Hr. intros [= Hv Hc _] key vals Hk.
  apply sorted_elements_nil in Hc.
  destruct (proj1 (check_reads_ok s index (map_to_list readset) (mkCheck true ∅ []))) as (_ & _ & Hf);
    [done|].
  rewrite Forall_forall in Hf. apply Hf. by apply elem_of_map_to_list.
Qed.

Lemma checkReadsetAtIndex_complete s index readset :
  txReadSets s !! index = Some readset ->
  (forall key vals, readset !! key = Some vals -> read_ok s index (key, vals)) ->
  exists ks, checkReadsetAtIndex s index = (true, [], ks).
Proof.
  intros Hr Hok. unfold checkReadsetAtIndex. rewrite Hr.
  destruct (proj2 (check_reads_ok s index (map_to_list readset) (mkCheck true ∅ []))) as [-> ->].
  - split_and!; [done..|]. apply Forall_forall. intros [key vals] Hin.
    apply Hok. by apply elem_of_map_to_list in Hin.
  - eexists. reflexivity.
Qed.

(** The validation depends on the versions below the index, the parent and the
    recorded reads only. *)
Lemma check_read_local s1 s2 index c kv :
  parentStore s1 = parentStore s2 ->
  (forall key j, j < index -> version s1 key j = version s2 key j) ->
  check_read s1 index c kv = check_read s2 index c kv.
Proof.
  intros Hp Hv. destruct kv as [key vals]. unfold check_read.
  rewrite (GetLatestBeforeIndex_local s1 s2) by eauto. by rewrite Hp.
Qed.

Lemma checkReadsetAtIndex_local s1 s2 index :
  parentStore s1 = parentStore s2 ->
  txReadSets s1 !! index = txReadSets s2 !! index ->
  (forall key j, j < index -> version s1 key j = version s2 key j) ->
  checkReadsetAtIndex s1 index = checkReadsetAtIndex s2 index.
Proof.
  intros Hp Hr Hv. unfold checkReadsetAtIndex. rewrite Hr.
  destruct (txReadSets s2 !! index) as [readset|]; [|done].
  assert (Hf : forall l c, fold_left (check_read s1 index) l c = fold_left (check_read s2 index) l c).
  { induction l as [|kv l IH]; intros c; simpl; [done|].
    by rewrite IH, (check_read_local s1 s2). }
  by rewrite Hf.
Qed.
End StoreFacts.

(** ** Writing the final versions to the parent. *)
Section WriteLatest.
Context {T P : Type} `{!BTree T, !BTreeLaws T} `{!KVStore P, !KVStoreLaws P}.
Implicit Types s : Store T P.

(** The contents the parent must end with for [key]. *)
Definition final_value s (n : Z) (key : bytes) : option bytes :=
  match GetLatestBeforeIndex s n key with
  | None => kv_view (parentStore s) !! key
  | Some x => vi_value x
  end.

Definition all_final s (n : Z) : Prop :=
  forall key i x, version s key i = Some x -> i < n /\ IsEstimate x = false.

Lemma write_latest_key_view s n p key :
  mv_wf s -> all_final s n ->
  exists p', write_latest_key s (Some p) key = Some p' /\
  forall k, kv_view p' !! k =
    if decide (k = key) then match GetLatestBeforeIndex s n key with
                             | None => kv_view p !! k | Some x => vi_value x end
    else kv_view p !! k.
Proof.
  intros Hwf Hfin. unfold write_latest_key, GetLatestBeforeIndex. simpl.
  destruct (multiVersionMap s !! key) as [t|] eqn:Hm; simpl.
  2:{ exists p. split; [done|]. intros k. by case_decide. }
  rewrite (GetLatestNonEstimate_all t n).
  2:{ intros j y Hj. apply (Hfin key). unfold version, map_version. by rewrite Hm. }
  destruct (item_GetLatestBeforeIndex t n) as [x|] eqn:Hx.
  2:{ exists p. split; [done|]. intros k. by case_decide. }
  apply GetLatestBeforeIndex_Some in Hx as (Hx & _ & _).
  assert (Hver : version s key (vi_index x) = Some x)
    by (unfold version, map_version; by rewrite Hm).
  destruct (Hfin _ _ _ Hver) as [_ ->].
  assert (Hk : key <> []).
  { destruct (wf_recorded s Hwf _ _ _ Hver) as (keys & Hks & Hin).
    intros ->. by apply (wf_keys_valid s Hwf _ _ Hks). }
  unfold IsDeleted. destruct (vi_value x) as [v|] eqn:Hv; simpl.
  - eexists. split; [done|]. intros k. rewrite kv_Set_view by done.
    case_decide as Hd; [subst; by rewrite lookup_insert_eq|by rewrite lookup_insert_ne].
  - destruct (Hfin _ _ _ Hver) as [_ He]. unfold IsEstimate in He. rewrite He. simpl.
    eexists. split; [done|]. intros k. rewrite kv_Delete_view by done.
    case_decide as Hd; [subst; by rewrite lookup_delete_eq|by rewrite lookup_delete_ne].
Qed.

Lemma write_latest_keys_view s n keys p :
  mv_wf s -> all_final s n ->
  exists p', fold_left (write_latest_key s) keys (Some p) = Some p' /\
  forall k, kv_view p' !! k =
    if decide (k ∈ keys) then match GetLatestBeforeIndex s n k with
                              | None => kv_view p !! k | Some x => vi_value x end
    else kv_view p !! k.
Proof.
  intros Hwf Hfin. revert p. induction keys as [|key keys IH]; intros p; cbn [fold_left].
  { exists p. split; [done|]. intros k. rewrite decide_False; [done|]. apply not_elem_of_nil. }
  destruct (write_latest_key_view s n p key Hwf Hfin) as (p1 & -> & Hp1).
  destruct (IH p1) as (p2 & -> & Hp2). exists p2. split; [done|]. intros k.
  rewrite Hp2, Hp1. repeat case_decide; rewrite ?elem_of_cons in *; subst;
    repeat case_match; naive_solver.
Qed.

Lemma WriteLatestToStore_view s n :
  mv_wf s -> all_final s n ->
  exists s', WriteLatestToStore s = Some s' /\
  forall k, kv_view (parentStore s') !! k = final_value s n k.
Proof.
  intros Hwf Hfin. unfold WriteLatestToStore.
  destruct (write_latest_keys_view s n (sort_strings ((map_to_list (multiVersionMap s)).*1))
    (parentStore s) Hwf Hfin) as (p & -> & Hp).
  simpl. eexists. split; [done|]. intros k. simpl. rewrite Hp. unfold final_value.
  case_decide as Hd; [done|]. unfold GetLatestBeforeIndex.
  destruct (multiVersionMap s !! k) as [t|] eqn:Hm; [|done]. destruct Hd.
  rewrite elem_of_sort_strings. apply list_elem_of_fmap. exists (k, t).
  split; [done|]. by apply elem_of_map_to_list.
Qed.
End WriteLatest.
