(* ===== verification/MVReplay.v ===== *)
(** Iterator validation ([validateIterator] of [store/multiversion/store.go] with
    its merge iterator): a replay accepts when the keys a fresh iteration
    visits, up to the recorded early stop, are the recorded ones and no estimate
    is among them. *)
From stdpp Require Import base gmap sets list sorting.
From Stdlib Require Import ZArith Lia.
From S2P Require Import Prelude KVStore MergeIter MVItem MVStore.
Open Scope Z_scope.

Section Replay.
Context {T P : Type} `{!BTree T} `{!KVStore P}.
Variables (s : Store T P) (index : Z) (writeset : WriteSet) (asc : bool).

(** A key that the latest lower transaction may still write again. *)
Definition estimate (k : bytes) : Prop :=
  writeset !! k = None /\ exists x, GetLatestBeforeIndex s index k = Some x /\ IsEstimate x = true.

(** Estimates have no value, as [SetEstimate] writes them. *)
Hypothesis estimate_value : forall k x, GetLatestBeforeIndex s index k = Some x -> IsEstimate x = true -> vi_value x = None.

(** The value the versions and the writeset give a key, if they give any. *)
Definition held (k : bytes) : option (option bytes) :=
  match writeset !! k with
  | Some v => Some v
  | None => vi_value <$> GetLatestBeforeIndex s index k
  end.

Lemma estimate_held k : estimate k -> held k = Some None.
Proof. intros [Hw (x & Hx & He)]. unfold held. rewrite Hw, Hx. simpl. by rewrite (estimate_value k x Hx He). Qed.

(** The keys the iteration began with.  The estimates among them are still to
    come or made it abort, and nothing else did. *)
Variable keys0 : list bytes.
Record vit_ok (vi : validationIterator) : Prop := {
  vo_cache : forall k v, vit_readCache vi !! k = Some v -> writeset !! k = None /\ held k = Some v;
  vo_sorted : StronglySorted (it_lt asc) (vit_keys vi);
  vo_keys : forall k, k ∈ vit_keys vi -> k ∈ keys0;
  vo_kept : forall k, estimate k -> k ∈ keys0 -> k ∈ vit_keys vi \/ is_Some (vit_abort vi);
  vo_read : forall k, estimate k -> is_Some (vit_readCache vi !! k) -> is_Some (vit_abort vi);
  vo_abort : is_Some (vit_abort vi) -> exists k, k ∈ keys0 /\ estimate k
}.
Definition vit_seen (vi : validationIterator) : Prop :=
  match vit_keys vi with [] => True | k :: _ => estimate k -> is_Some (vit_abort vi) end.

Lemma hasCurrentValue_held vi k :
  vit_ok vi -> hasCurrentValue s index writeset vi k = true <-> is_Some (held k).
Proof.
  intros Hok. unfold hasCurrentValue, held. rewrite !orb_true_iff, !bool_decide_eq_true.
  pose proof (vo_cache _ Hok k) as Hc. unfold held in Hc. destruct (writeset !! k) as [w|].
  { split; intros _; [by exists w|left; left; by exists w]. }
  destruct (GetLatestBeforeIndex s index k) as [x|] eqn:Hg; simpl in *.
  - split; [eauto|]. intros _. by right.
  - split; [|by intros [? ?]]. intros [[[? ?]|[v Hv]]|?]; [done| |done]. by destruct (Hc v Hv).
Qed.

Lemma skip_removed_spec vi keys :
  vit_ok vi -> StronglySorted (it_lt asc) keys ->
  let keys' := skip_removed s index writeset vi keys in
  StronglySorted (it_lt asc) keys' /\ (length keys' <= length keys)%nat /\
  (forall k, is_Some (held k) -> k ∈ keys' <-> k ∈ keys) /\ (forall k, k ∈ keys' -> k ∈ keys) /\
  match keys' with [] => True | k :: _ => is_Some (held k) end.
Proof.
  intros Hok. induction 1 as [|k keys Hs IH Hk]; simpl; [split_and!; try done; constructor|].
  destruct (hasCurrentValue s index writeset vi k) eqn:Hh.
  - rewrite (hasCurrentValue_held vi k Hok) in Hh. split_and!; try done; by constructor.
  - destruct IH as (H1 & H2 & H3 & H4 & H5). split_and!; [done|lia| |set_solver|done].
    intros j Hj. rewrite H3 by done. rewrite elem_of_cons. split; [auto|]. intros [->|]; [|done].
    rewrite <- (hasCurrentValue_held vi k Hok) in Hj. congruence.
Qed.

(** [vit_Valid] moves to the next key that holds a value. *)
Lemma vit_Valid_spec vi :
  vit_ok vi ->
  exists vi', vit_Valid s index writeset vi = (vi', bool_decide (vit_keys vi' <> [])) /\ vit_ok vi' /\
  (length (vit_keys vi') <= length (vit_keys vi))%nat /\
  (forall k, is_Some (held k) -> k ∈ vit_keys vi' <-> k ∈ vit_keys vi) /\
  (forall k, k ∈ vit_keys vi' -> k ∈ vit_keys vi) /\
  match vit_keys vi' with [] => True | k :: _ => is_Some (held k) end.
Proof.
  intros Hok. destruct (skip_removed_spec vi (vit_keys vi) Hok (vo_sorted _ Hok)) as (H1 & H2 & H3 & H4 & H5).
  exists (skipRemovedKeys s index writeset vi). split; [done|]. split_and!; try done.
  destruct Hok as [Hc _ Hk0 Hke Hre Hab]. split; simpl; try done; [auto|]. intros k He Hin.
  destruct (Hke k He Hin) as [Hk|?]; [|by right]. left. apply H3; [by rewrite (estimate_held k He)|done].
Qed.

Lemma vit_skip_id vi k rest :
  vit_ok vi -> vit_keys vi = k :: rest -> is_Some (held k) -> skipRemovedKeys s index writeset vi = vi.
Proof.
  intros Hok Hk Hh. unfold skipRemovedKeys. rewrite Hk. cbn [skip_removed].
  apply (hasCurrentValue_held vi k Hok) in Hh. rewrite Hh, <- Hk. by destruct vi.
Qed.

(** Reading the value of an estimate aborts. *)
Lemma vit_ok_read vi k rest x :
  vit_ok vi -> vit_keys vi = k :: rest -> writeset !! k = None -> GetLatestBeforeIndex s index k = Some x ->
  let vi1 := if IsEstimate x then vit_WriteAbort vi (vi_index x) else vi in
  let vi' := mkVI (vit_keys vi1) (<[k := vi_value x]> (vit_readCache vi1)) (vit_abort vi1) in
  vit_ok vi' /\ vit_keys vi' = k :: rest /\ vit_seen vi'.
Proof.
  intros [Hco Hs Hk0 Hke Hre Hab] Hk Hw Hg vi1 vi'.
  assert (Heq : vit_keys vi1 = vit_keys vi /\ vit_readCache vi1 = vit_readCache vi).
  { unfold vi1, vit_WriteAbort. destruct (IsEstimate x); [|done]. by destruct (vit_abort vi). }
  assert (Hab1 : is_Some (vit_abort vi1) <-> is_Some (vit_abort vi) \/ IsEstimate x = true).
  { unfold vi1, vit_WriteAbort. destruct (IsEstimate x); [|split; [by left|by intros [?|?]]]. split; [by right|]. intros _.
    destruct (vit_abort vi) as [z|] eqn:Hz; simpl; [rewrite Hz|]; by eexists. }
  destruct Heq as [Hk1 Hc1]. assert (Hh : held k = Some (vi_value x)) by (unfold held; by rewrite Hw, Hg).
  unfold vi'. rewrite Hk1, Hc1. split; [|split; [done|]].
  - split; simpl; try done.
    + intros j u. destruct (decide (j = k)) as [->|Hne]; [rewrite lookup_insert_eq; intros [= <-]; done|rewrite lookup_insert_ne by done; auto].
    + intros j He Hj. rewrite Hab1. destruct (Hke j He Hj) as [?|?]; auto.
    + intros j He. rewrite Hab1. destruct (decide (j = k)) as [->|Hne]; [|rewrite lookup_insert_ne by done; eauto].
      intros _. right. destruct He as [_ (y & Hy & He)]. congruence.
    + rewrite Hab1. intros [?|He]; [auto|]. exists k. split; [apply Hk0; rewrite Hk; left|]. split; [done|by exists x].
  - unfold vit_seen. simpl. rewrite Hk. intros [_ (y & Hy & He)]. rewrite Hab1. right. congruence.
Qed.

Lemma vit_Value_spec vi k rest v :
  vit_ok vi -> vit_keys vi = k :: rest -> held k = Some v ->
  exists vi', vit_Value s index writeset vi = Some (vi', v) /\ vit_ok vi' /\ vit_keys vi' = k :: rest /\ vit_seen vi'.
Proof.
  intros Hok Hk Hv. unfold vit_Value. rewrite Hk. pose proof Hv as Hh. unfold held in Hh.
  destruct (writeset !! k) as [w|] eqn:Hw.
  { simplify_eq. exists vi. split_and!; try done. unfold vit_seen. rewrite Hk. intros [Hn _]. congruence. }
  destruct (vit_readCache vi !! k) as [w|] eqn:Hc.
  { destruct (vo_cache _ Hok k w Hc) as [_ Hh']. rewrite Hv in Hh'. simplify_eq. exists vi. split_and!; try done.
    unfold vit_seen. rewrite Hk. intros He. apply (vo_read _ Hok k He). eauto. }
  destruct (GetLatestBeforeIndex s index k) as [x|] eqn:Hg; [|done]. simpl in Hh. injection Hh as <-.
  pose proof (vit_ok_read vi k rest x Hok Hk Hw Hg) as Hnew. cbv zeta in Hnew.
  destruct (IsDeleted x) eqn:Hd; [|by eexists].
  unfold IsDeleted in Hd. apply andb_true_iff in Hd as [Hn%bool_decide_eq_true _]. rewrite Hn in *. by eexists.
Qed.

Lemma vit_Next_spec vi k rest :
  vit_ok vi -> vit_keys vi = k :: rest -> vit_seen vi \/ (exists v, held k = Some (Some v)) ->
  exists vi', vit_Next s index writeset vi = Some vi' /\ vit_ok vi' /\
  (length (vit_keys vi') < length (vit_keys vi))%nat /\
  (forall j, is_Some (held j) -> j ∈ vit_keys vi' <-> j ∈ rest) /\ (forall j, j ∈ vit_keys vi' -> j ∈ rest).
Proof.
  intros Hok Hk Hseen. unfold vit_Next. rewrite Hk. pose proof Hok as [Hc Hs Hk0 Hke Hre Hab]. rewrite Hk in Hs.
  apply StronglySorted_inv in Hs as [Hs _].
  assert (Hok' : vit_ok (mkVI rest (vit_readCache vi) (vit_abort vi))).
  { split; simpl; try done.
    - intros j Hj. apply Hk0. rewrite Hk. by right.
    - intros j He Hj. destruct (Hke j He Hj) as [Hin|?]; [|by right]. rewrite Hk in Hin.
      apply elem_of_cons in Hin as [->|?]; [|by left]. right. destruct Hseen as [Hsn|[v Hv]].
      + unfold vit_seen in Hsn. rewrite Hk in Hsn. auto.
      + rewrite (estimate_held k He) in Hv. done. }
  destruct (vit_Valid_spec _ Hok') as (vi' & Hvalid & Hok1 & H2 & H3 & H4 & _). exists vi'.
  unfold vit_Valid in Hvalid. injection Hvalid as Hvi. split; [by rewrite Hvi|]. simpl in *. split_and!; [done|lia|done|done].
Qed.

Lemma vit_Key_spec vi k rest :
  vit_ok vi -> vit_keys vi = k :: rest -> is_Some (held k) ->
  vit_Key s index writeset vi = Some (vi, k).
Proof.
  intros Hok Hk Hh. unfold vit_Key. rewrite (vit_skip_id vi k rest Hok Hk Hh). by rewrite Hk.
Qed.

Lemma vit_Valid_id vi k rest :
  vit_ok vi -> vit_keys vi = k :: rest -> is_Some (held k) -> vit_Valid s index writeset vi = (vi, true).
Proof.
  intros Hok Hk Hh. unfold vit_Valid. rewrite (vit_skip_id vi k rest Hok Hk Hh), Hk. done.
Qed.

(** The validation iterator keeps the promise of a cache side. *)
#[local] Instance vit_here : CacheIter validationIterator := vit_iter s index writeset.
#[local] Instance vit_laws : CacheIterLaws validationIterator asc held := {|
  ci_ok := vit_ok;
  ci_seen := vit_seen;
  ci_sorted := vo_sorted;
  ci_valid_spec := vit_Valid_spec;
  ci_valid_id := vit_Valid_id;
  ci_key_spec := vit_Key_spec;
  ci_value_spec := vit_Value_spec;
  ci_next_spec := vit_Next_spec
|}.
Abbreviation mg_ok := (MergeIter.mg_ok asc held).
Abbreviation live := (MergeIter.live held).
Implicit Types m : mergeIterator validationIterator.

(** ** The replay loop. *)

(** What the loop answers on the keys it is going to visit. *)
Fixpoint replay_answer (expectedKeys : gset bytes) (stop : option bytes) (found : nat) (visit : list bytes)
    : bool :=
  match visit with
  | [] => bool_decide (size expectedKeys <= found)%nat
  | k :: rest =>
      bool_decide (size expectedKeys <> found) && bool_decide (k ∈ expectedKeys) &&
      if bytes_equal (Some k) stop then bool_decide (size expectedKeys <= S found)%nat
      else replay_answer expectedKeys stop (S found) rest
  end.

Lemma mg_not_aborted m : mg_ok m -> (forall k, k ∈ keys0 -> ~ estimate k) -> mg_aborted m = false.
Proof.
  intros [Hc _] Hn. unfold mg_aborted. apply bool_decide_eq_false. intros Ha.
  destruct (vo_abort _ Hc Ha) as (k & Hk & He). by apply (Hn k).
Qed.
Lemma mg_estimate_kept m k : mg_ok m -> mg_aborted m = false -> estimate k -> k ∈ keys0 -> k ∈ vit_keys (mg_cache m).
Proof.
  intros [Hc _] Ha%bool_decide_eq_false He Hk. by destruct (vo_kept _ Hc k He Hk).
Qed.

(** What an answer of the replay says of the keys it is going to visit. *)
Definition replayed (expectedKeys : gset bytes) (stop : option bytes) (found : nat) (visit : list bytes) (b : bool) : Prop :=
  (b = true -> replay_answer expectedKeys stop found visit = true /\
     forall e, estimate e -> e ∈ keys0 -> exists k, k ∈ visit /\ bytes_equal (Some k) stop = true /\ it_lt asc k e) /\
  ((forall e, e ∈ keys0 -> ~ estimate e) -> b = replay_answer expectedKeys stop found visit).

(** The answer when the iterator aborted, and when it did not. *)
Lemma replayed_abort E stop found visit m (b : option bool) :
  mg_ok m -> (mg_aborted m = false -> exists b', b = Some b' /\ replayed E stop found visit b') ->
  exists b', (if mg_aborted m then Some false else b) = Some b' /\ replayed E stop found visit b'.
Proof.
  intros Hok Hb. destruct (mg_aborted m) eqn:Ha; [|by apply Hb]. exists false. split; [done|]. split; [done|].
  intros Hn. by rewrite (mg_not_aborted m Hok Hn) in Ha.
Qed.

(** A live key is no estimate, so an estimate left behind it comes after it. *)
Lemma stands_estimate m k e : mg_ok m -> live m k -> stands asc held m k -> mg_aborted m = false -> estimate e -> e ∈ keys0 -> it_lt asc k e.
Proof.
  intros Hok Hl Hst Ha He Hk. pose proof (mg_estimate_kept m e Hok Ha He Hk) as Hin. pose proof (estimate_held e He) as Hh.
  destruct (stands_keys asc held m k Hok Hst e Hin) as [->|?]; [|done]. exfalso.
  destruct Hl as [[_ [v Hv]]|[_ Hn]]; [congruence|]. apply Hn. split; [exact Hin|eauto].
Qed.

Lemma replay_loop_spec expectedKeys stop fuel : forall found m visit,
  mg_ok m -> StronglySorted (it_lt asc) visit -> (forall k, k ∈ visit <-> live m k) ->
  (length visit < fuel)%nat ->
  exists b, replay_loop s index writeset asc fuel expectedKeys stop found m = Some b /\ replayed expectedKeys stop found visit b.
Proof.
  induction fuel as [|fuel IH]; intros found m visit Hok Hs Hv Hlen; [lia|].
  cbn [replay_loop]. unfold mvs_Valid, mvs_Key, mvs_Next. change (vit_iter s index writeset) with vit_here.
  apply (replayed_abort _ _ _ _ m); [done|]. intros _. unfold mg_Valid. destruct visit as [|k rest].
  - destruct (settle_none asc held m Hok) as (m' & -> & Hok' & Hnil). { intros k Hk. apply Hv in Hk. by apply elem_of_nil in Hk. }
    cbn [mbind option_bind negb]. eexists. split; [done|]. unfold replayed. cbn [replay_answer]. split.
    + intros [Ha%negb_true_iff Hb]%andb_true_iff. split; [done|]. intros e He Hk. pose proof (mg_estimate_kept m' e Hok' Ha He Hk) as Hin.
      simpl in Hnil. rewrite Hnil in Hin. by apply elem_of_nil in Hin.
    + intros Hn. by rewrite (mg_not_aborted m' Hok' Hn).
  - assert (Hfirst : first_live asc held m k).
    { split; [apply Hv; set_solver|]. intros j Hj. apply Hv in Hj. by eapply sorted_head_le. }
    destruct (settle_first asc held m k Hok Hfirst) as (m1 & -> & Hok1 & _ & Hl1 & _). cbn [mbind option_bind negb].
    apply (replayed_abort _ _ _ _ m1); [done|]. intros _. unfold replayed. cbn [replay_answer].
    destruct (decide (size expectedKeys = found)) as [He|Hne].
    { rewrite bool_decide_eq_true_2 by lia. exists false. rewrite (bool_decide_eq_false_2 (_ <> _)) by (intros Hn; by apply Hn). done. }
    rewrite bool_decide_eq_false_2 by lia. rewrite (bool_decide_eq_true_2 (size _ <> _)) by done.
    destruct (mg_Key_spec asc held m1 k Hok1) as (m2 & -> & Hok2 & _ & Hl2 & Hst2); [by eapply first_live_ext|].
    cbn [mbind option_bind andb]. assert (Hf2 : first_live asc held m2 k) by (eapply first_live_ext; [done|]; by eapply first_live_ext).
    pose proof (replayed_abort expectedKeys stop found (k :: rest) m2) as Habort. unfold replayed in Habort. cbn [replay_answer] in Habort.
    rewrite (bool_decide_eq_true_2 (size _ <> _)) in Habort by done. cbn [andb] in Habort. apply Habort; [done|]. clear Habort. intros Ha2.
    destruct (decide (k ∈ expectedKeys)) as [Hin|Hin].
    2:{ rewrite (bool_decide_eq_true_2 (k ∉ expectedKeys)) by done. exists false. by rewrite (bool_decide_eq_false_2 (k ∈ expectedKeys)). }
    rewrite (bool_decide_eq_false_2 (k ∉ expectedKeys)) by (intros Hn; by apply Hn).
    rewrite (bool_decide_eq_true_2 (k ∈ expectedKeys)) by done. cbn [andb].
    destruct (bytes_equal (Some k) stop) eqn:Hstop.
    { rewrite Ha2. eexists. split; [done|]. split; [|done]. intros Hb. split; [done|]. intros e He Hk. exists k. split_and!; [left|done|].
      by apply (stands_estimate m2 k e Hok2 (proj1 Hf2) Hst2 Ha2). }
    destruct (mg_Next_spec asc held m2 k Hok2 Hf2) as (m3 & -> & Hok3 & Hl3).
    cbn [mbind option_bind]. destruct (sorted_not_in asc k rest Hs) as [Hnk Hs'].
    destruct (IH (S found) m3 rest Hok3 Hs') as (b & -> & Htrue & Hno); [|simpl in Hlen; lia|].
    { intros j. rewrite (without_live held _ _ _ j Hl3), (same_live_live held _ _ j Hl2), (same_live_live held _ _ j Hl1).
      rewrite <- Hv, elem_of_cons. split; [|tauto]. intros Hj. split; [auto|]. intros ->. done. }
    exists b. split; [done|]. split; [|done]. intros Hb. destruct (Htrue Hb) as [Hans Hest]. split; [done|].
    intros e He Hk. destruct (Hest e He Hk) as (j & Hj & ?). exists j. split; [by right|done].
Qed.
End Replay.

(** ** What the replay compares. *)

(** The visited keys up to and including the early stop. *)
Fixpoint upto (stop : option bytes) (visit : list bytes) : list bytes :=
  match visit with
  | [] => []
  | k :: rest => if bytes_equal (Some k) stop then [k] else k :: upto stop rest
  end.

Lemma size_subseteq_eq (F E : gset bytes) : F ⊆ E -> (size E <= size F)%nat <-> F = E.
Proof.
  intros Hsub. split; [|by intros ->]. intros Hsz.
  destruct (decide (F = E)) as [|Hne]; [done|]. assert (Hlt : F ⊂ E) by set_solver.
  apply subset_size in Hlt. lia.
Qed.

Lemma replay_answer_set (E F : gset bytes) stop visit :
  NoDup visit -> F ⊆ E -> (forall k, k ∈ visit -> k ∉ F) ->
  replay_answer E stop (size F) visit = true <-> F ∪ list_to_set (upto stop visit) = E.
Proof.
  revert F. induction visit as [|k rest IH]; intros F Hnd Hsub Hdis; cbn [replay_answer upto list_to_set].
  { rewrite bool_decide_eq_true, size_subseteq_eq by done. by rewrite union_empty_r_L. }
  apply NoDup_cons in Hnd as [Hk Hnd]. rewrite !andb_true_iff, !bool_decide_eq_true.
  assert (HkF : k ∉ F) by (apply Hdis; set_solver).
  assert (Hsz : size (F ∪ {[k]}) = S (size F)) by (rewrite size_union, size_singleton by set_solver; lia).
  destruct (decide (k ∈ E)) as [HkE|HkE].
  2:{ split; [tauto|]. intros HE. destruct HkE. rewrite <- HE. case_match; set_solver. }
  assert (Hlt : (size F < size E)%nat) by (apply subset_size; set_solver).
  assert (Hsub' : F ∪ {[k]} ⊆ E) by set_solver.
  destruct (bytes_equal (Some k) stop); cbn [list_to_set].
  - rewrite bool_decide_eq_true, <- Hsz, size_subseteq_eq by done.
    replace ({[k]} ∪ ∅) with ({[k]} : gset bytes) by set_solver. intuition lia.
  - rewrite <- Hsz, IH by (done || set_solver). rewrite assoc_L by apply _. intuition lia.
Qed.

Section Items.
Context {T P M : Type} `{!BTree T, !BTreeLaws T} `{!KVStore P, !KVStoreLaws P} `{!MemDB M, !MemDBLaws M}.
Implicit Types s : Store T P.

Lemma collect_keys_view (db : M) keys k :
  [] ∉ keys ->
  is_Some (memdb_view (collect_keys db keys) !! k) <-> is_Some (memdb_view db !! k) \/ k ∈ keys.
Proof.
  unfold collect_keys. revert db. induction keys as [|key keys IH]; intros db Hk; cbn [fold_left].
  { rewrite elem_of_nil. tauto. }
  apply not_elem_of_cons in Hk as [Hne Hk]. rewrite IH by done. rewrite memdb_Set_view by done.
  rewrite lookup_insert_is_Some, elem_of_cons. destruct (decide (key = k)); naive_solver.
Qed.

Lemma CollectIteratorItems_view s index k :
  (forall i keys, txWritesetKeys s !! i = Some keys -> [] ∉ keys) ->
  is_Some (memdb_view (CollectIteratorItems (M := M) s index) !! k) <->
  exists i keys, 0 <= i < index /\ txWritesetKeys s !! i = Some keys /\ k ∈ keys.
Proof.
  intros Hval. unfold CollectIteratorItems.
  assert (Hfold : forall l (db : M), is_Some (memdb_view (fold_left (fun db i =>
      match txWritesetKeys s !! i with None => db | Some ws => collect_keys db ws end) l db) !! k) <->
    is_Some (memdb_view db !! k) \/
    exists i keys, i ∈ l /\ txWritesetKeys s !! i = Some keys /\ k ∈ keys).
  { induction l as [|i l IH]; intros db; cbn [fold_left].
    { split; [by left|]. intros [?|(i & ? & Hi & _)]; [done|]. by apply elem_of_nil in Hi. }
    rewrite IH. destruct (txWritesetKeys s !! i) as [keys|] eqn:Hi.
    - rewrite collect_keys_view by (by eapply Hval). setoid_rewrite elem_of_cons. naive_solver.
    - setoid_rewrite elem_of_cons. naive_solver. }
  rewrite Hfold, memdb_New_view, lookup_empty. setoid_rewrite elem_of_seqZ.
  split; [intros [[? ?]|(i & keys & Hi & ?)]; [done|]|intros (i & keys & Hi & ?); right]; exists i, keys;
    (split; [lia|done]).
Qed.

(** The value a key has for the iterating transaction. *)
Definition current_value s (index : Z) (writeset : WriteSet) (k : bytes) : option bytes :=
  match writeset !! k with
  | Some v => v
  | None => match GetLatestBeforeIndex s index k with
            | Some x => vi_value x
            | None => kv_view (parentStore s) !! k
            end
  end.

(** The keys of the in-memory items in the domain, in iteration order. *)
Lemma db_keys_spec asc (db : M) start end_ :
  bound_ok start = true -> bound_ok end_ = true ->
  exists keys, db_keys asc db start end_ = Some keys /\ StronglySorted (it_lt asc) keys /\
    forall k, k ∈ keys <-> is_Some (memdb_view db !! k) /\ in_domain start end_ k = true.
Proof.
  intros Hs He. unfold db_keys. rewrite memdb_Iterator_entries, memdb_ReverseIterator_entries, Hs, He. simpl.
  set (l := map_entries (memdb_view db) start end_).
  assert (Hel : forall k, k ∈ l.*1 <-> is_Some (memdb_view db !! k) /\ in_domain start end_ k = true).
  { intros k. rewrite list_elem_of_fmap. split.
    - intros ([k' v] & -> & Hin). apply map_entries_elem in Hin as [Hv Hd]. simpl. eauto.
    - intros [[v Hv] Hd]. exists (k, v). split; [done|]. by apply map_entries_elem. }
  pose proof (map_entries_sorted (memdb_view db) start end_) as Hsort. fold l in Hsort.
  destruct asc; simpl; (eexists; split; [done|]).
  - split; [by apply it_sorted_ascending|done].
  - rewrite fmap_reverse. split; [by apply it_sorted_reverse|]. intros k. by rewrite elem_of_reverse.
Qed.

Lemma parent_keys_spec asc (p : P) start end_ :
  bound_ok start = true -> bound_ok end_ = true ->
  let l := if (asc : bool) then kv_Iterator p start end_ else kv_ReverseIterator p start end_ in
  StronglySorted (it_lt asc) l.*1 /\
  forall k, k ∈ l.*1 <-> is_Some (kv_view p !! k) /\ in_domain start end_ k = true.
Proof.
  intros Hs He. simpl. rewrite (kv_entries asc p start end_ Hs He).
  split; [apply entries_of_sorted|]. intros k. rewrite list_elem_of_fmap. split.
  - intros ([k' v] & -> & [Hv Hd]%entries_of_elem). simpl. eauto.
  - intros [[v Hv] Hd]. exists (k, v). split; [done|]. by apply entries_of_elem.
Qed.

(** The live keys of the initial merge iterator. *)
Lemma initial_live_keys s index writeset parentIter keys (dom : bytes -> Prop) k :
  mv_wf s -> (forall key i x, version s key i = Some x -> 0 <= i) ->
  (forall k, k ∈ parentIter.*1 <-> is_Some (kv_view (parentStore s) !! k) /\ dom k) ->
  (forall k, k ∈ keys <->
     (is_Some (writeset !! k) \/
      exists i ks, 0 <= i < index /\ txWritesetKeys s !! i = Some ks /\ k ∈ ks) /\ dom k) ->
  MergeIter.live (H := vit_iter s index writeset) (held s index writeset) (mkMerge parentIter (mkVI keys ∅ None)) k <->
  dom k /\ is_Some (current_value s index writeset k).
Proof.
  intros Hwf Hpos HP HK. unfold MergeIter.live. simpl. rewrite HP, HK. unfold current_value, held.
  assert (Hrec : forall x, GetLatestBeforeIndex s index k = Some x ->
    exists i ks, 0 <= i < index /\ txWritesetKeys s !! i = Some ks /\ k ∈ ks).
  { intros x (Hx & Hlt & _)%GetLatestBeforeIndex_version.
    destruct (wf_recorded _ Hwf _ _ _ Hx) as (ks & Hks & Hin). specialize (Hpos _ _ _ Hx). eauto 10. }
  destruct (writeset !! k) as [v|] eqn:Hw.
  - split.
    + intros [[[_ Hd] [x Hx]]|[[_ Hd] Hn]]; [simplify_eq; eauto|]. destruct Hn. split_and!; eauto.
    + intros [Hd [x Hx]]. left. subst v. split_and!; eauto.
  - destruct (GetLatestBeforeIndex s index k) as [x|] eqn:Hg; simpl.
    + specialize (Hrec x eq_refl). split.
      * intros [[[_ Hd] [y Hy]]|[[_ Hd] Hn]]; [simplify_eq; rewrite Hy; eauto|]. destruct Hn. split_and!; eauto.
      * intros [Hd [y Hy]]. left. rewrite Hy. split_and!; eauto.
    + split; [intros [[_ [y Hy]]|[[Hv Hd] _]]; [done|eauto]|]. intros [Hd Hv]. right.
      split; [done|]. by intros [_ [? ?]].
Qed.

Lemma it_sort_exists asc (l : list bytes) (Q : bytes -> Prop) `{forall k, Decision (Q k)} :
  exists l', StronglySorted (it_lt asc) l' /\ (forall k, k ∈ l' <-> k ∈ l /\ Q k) /\
    (length l' <= length l)%nat.
Proof.
  assert (Hl : exists l', StronglySorted (it_lt asc) l' /\ forall k, k ∈ l' <-> k ∈ l).
  { set (l1 := sort_strings (remove_dups l)).
    assert (Hs : StronglySorted bytes_lt l1).
    { apply sorted_le_nodup_lt; [apply (StronglySorted_merge_sort bytes_le)|].
      unfold l1. rewrite sort_strings_perm. apply NoDup_remove_dups. }
    assert (Hel : forall k, k ∈ l1 <-> k ∈ l).
    { intros k. unfold l1. by rewrite elem_of_sort_strings, elem_of_remove_dups. }
    destruct asc; [exists l1|exists (reverse l1)].
    - split; [by apply it_sorted_ascending|done].
    - split; [by apply it_sorted_reverse|]. intros k. by rewrite elem_of_reverse. }
  destruct Hl as (l' & Hs & Hel). exists (filter Q l').
  assert (Hin : forall k, k ∈ filter Q l' <-> k ∈ l /\ Q k).
  { intros k. rewrite list_elem_of_filter, Hel. tauto. }
  split_and!; [by apply StronglySorted_filter'|done|].
  apply submseteq_length, NoDup_submseteq; [eapply sorted_nodup, StronglySorted_filter', Hs|].
  intros k Hk. by apply Hin in Hk as [? _].
Qed.

(** C29. Iterator validation accepts the iterations that would repeat.  The keys that
    a fresh iteration of the recorded range and direction visits are those with a
    value in the transaction's own writes, the lower transactions' versions or the
    parent, where an estimate counts as no value.  If [validateIterator] is true,
    these keys, cut after the recorded early stop, are exactly the recorded ones,
    and every estimate in the range lies behind the early stop; if they are the
    recorded ones and there is no estimate in the range, it is true. *)
Theorem validateIterator_exact s index tracker :
  mv_wf s -> (forall key i x, version s key i = Some x -> 0 <= i /\ (IsEstimate x = true -> vi_value x = None)) ->
  bound_ok (it_startKey tracker) = true -> bound_ok (it_endKey tracker) = true ->
  it_writeset tracker !! [] = None ->
  let in_range k := in_domain (it_startKey tracker) (it_endKey tracker) k = true in
  exists visit, StronglySorted (it_lt (it_ascending tracker)) visit /\
    (forall k, k ∈ visit <-> in_range k /\ is_Some (current_value s index (it_writeset tracker) k)) /\
    (validateIterator (M := M) s index tracker = true ->
       list_to_set (upto (it_earlyStopKey tracker) visit) = it_iteratedKeys tracker /\
       forall k, in_range k -> estimate s index (it_writeset tracker) k ->
         exists stop, stop ∈ visit /\ bytes_equal (Some stop) (it_earlyStopKey tracker) = true /\ it_lt (it_ascending tracker) stop k) /\
    (list_to_set (upto (it_earlyStopKey tracker) visit) = it_iteratedKeys tracker ->
       (forall k, in_range k -> ~ estimate s index (it_writeset tracker) k) ->
       validateIterator (M := M) s index tracker = true).
Proof.
  intros Hwf Hver Hb1 Hb2 Hw in_range. unfold validateIterator, validateIteratorReplay.
  assert (Hpos : forall key i x, version s key i = Some x -> 0 <= i) by (intros; by eapply Hver).
  set (ws := it_writeset tracker) in *. set (items := collect_keys _ _). set (asc := it_ascending tracker).
  set (start := it_startKey tracker). set (end_ := it_endKey tracker).
  destruct (db_keys_spec asc items start end_ Hb1 Hb2) as (keys & -> & HKs & HK). cbn [mbind option_bind].
  destruct (parent_keys_spec asc (parentStore s) start end_ Hb1 Hb2) as [HPs HP].
  set (parentIter := if asc then _ else _) in *.
  assert (HwsK : forall k, k ∈ (map_to_list ws).*1 <-> is_Some (ws !! k)).
  { intros k. rewrite list_elem_of_fmap. split.
    - intros ([k' v] & -> & Hin). apply elem_of_map_to_list in Hin. simpl. eauto.
    - intros [v Hv]. exists (k, v). split; [done|]. by apply elem_of_map_to_list. }
  assert (HK' : forall k, k ∈ keys <-> (is_Some (ws !! k) \/
    exists i ks, 0 <= i < index /\ txWritesetKeys s !! i = Some ks /\ k ∈ ks) /\ in_domain start end_ k = true).
  { intros k. rewrite HK. unfold items. rewrite collect_keys_view, CollectIteratorItems_view, HwsK; [tauto|apply Hwf|].
    rewrite HwsK, Hw. by intros [? ?]. }
  pose proof (fun k => initial_live_keys s index ws parentIter keys _ k Hwf Hpos HP HK') as Hlive.
  destruct (it_sort_exists asc (parentIter.*1 ++ keys) (fun k => in_domain start end_ k = true /\
    is_Some (current_value s index ws k))) as (visit & Hvs & Hvin & Hvlen).
  assert (Hin : forall k, k ∈ visit <-> in_domain start end_ k = true /\ is_Some (current_value s index ws k)).
  { intros k. rewrite Hvin. split; [tauto|]. intros Hk. split; [|done]. apply Hlive in Hk.
    rewrite elem_of_app. destruct Hk as [[? _]|[? _]]; auto. }
  assert (Hest : forall k, estimate s index ws k -> k ∈ keys <-> in_range k).
  { intros k [_ (x & (Hx & Hlt & _)%GetLatestBeforeIndex_version & _)]. rewrite HK'. split; [by intros [_ ?]|]. intros Hd. split; [|done]. right.
    destruct (wf_recorded _ Hwf _ _ _ Hx) as (ks & Hks & Hin'). specialize (Hpos _ _ _ Hx). eauto 10. }
  exists visit. split; [done|]. split; [done|].
  assert (Hval : forall k x, GetLatestBeforeIndex s index k = Some x -> IsEstimate x = true -> vi_value x = None).
  { intros k x (Hx & _)%GetLatestBeforeIndex_version. by eapply Hver. }
  set (m := mkMerge parentIter (mkVI keys ∅ None)).
  destruct (replay_loop_spec s index ws asc Hval keys (it_iteratedKeys tracker) (it_earlyStopKey tracker) (S (replay_size m)) 0 m visit) as (b & -> & Htrue & Hno).
  - split; [|done]. split; simpl; try done; [by left|]. intros k _ [v Hv]. by rewrite lookup_empty in Hv.
  - done.
  - intros k. rewrite Hin. symmetry. apply Hlive.
  - unfold replay_size, m. simpl. rewrite length_app, length_fmap in Hvlen. lia.
  - cbn [default from_option]. change (id b) with b. pose proof (replay_answer_set (it_iteratedKeys tracker) ∅ (it_earlyStopKey tracker) visit) as Hset.
    rewrite size_empty, union_empty_l_L in Hset. specialize (Hset ltac:(by eapply sorted_nodup) ltac:(set_solver) ltac:(set_solver)). split.
    + intros Hb. destruct (Htrue Hb) as [Hans He]. split; [by apply Hset|]. intros k Hk Hek. apply (He k Hek). by apply Hest.
    + intros Heq Hn. rewrite Hno; [by apply Hset|]. intros k Hk Hek. by apply (Hn k); [apply Hest|].
Qed.
End Items.

(** ** A concrete replay. *)
Section Example.
Abbreviation map_store := (gmap bytes bytes).

(** Transaction 0 deleted key 1 and wrote key 2 over a parent with keys 1 and 3. *)
Definition ex_writes : WriteSet := {[ [1] := None; [2] := Some [20] ]}.
Definition ex_store : Store (gmap Z (Z * option bytes * bool)) map_store :=
  SetWriteset (NewMultiVersionStore {[ [1] := [10]; [3] := [30] ]}) 0 0 ex_writes.
Definition ex_tracker (early : option bytes) (seen : gset bytes) : iterationTracker :=
  mkTracker None (Some [9]) early seen true ∅.

Lemma ex_store_version key i x : version ex_store key i = Some x -> i = 0 /\ IsEstimate x = false.
Proof.
  unfold ex_store. rewrite SetWriteset_version by apply mv_wf_New. case_decide; [|done].
  destruct (ex_writes !! key); simpl; [|done]. by intros [= <-].
Qed.

Lemma validateIterator_exact_witness :
  validateIterator (M := map_store) ex_store 1 (ex_tracker None {[ [2]; [3] ]}) = true /\
  validateIterator (M := map_store) ex_store 1 (ex_tracker (Some [2]) {[ [2] ]}) = true /\
  validateIterator (M := map_store) ex_store 1 (ex_tracker None {[ [1]; [2]; [3] ]}) = false /\
  validateIterator (M := map_store) (InvalidateWriteset ex_store 0 0) 1 (ex_tracker None {[ [3] ]}) = false /\
  exists visit, list_to_set (upto None visit) = ({[ [2]; [3] ]} : gset bytes).
Proof.
  split_and!; [vm_compute; reflexivity..|].
  destruct (validateIterator_exact (M := map_store) ex_store 1 (ex_tracker None {[ [2]; [3] ]}))
    as (visit & _ & _ & Htrue & _).
  - apply mv_wf_SetWriteset; [done|apply mv_wf_New].
  - intros key i x [-> He]%ex_store_version. split; [lia|]. by rewrite He.
  - reflexivity.
  - reflexivity.
  - reflexivity.
  - exists visit. apply Htrue. vm_compute. reflexivity.
Defined.
End Example.
