(* ===== verification/MVKV.v ===== *)
(** The store one transaction runs against:
    [sei-cosmos/store/multiversion/mvkv.go], [VersionIndexedStore].

    The shared multi-version store is an argument of the operations that read
    it.  The abort channel is shared by the version stores of one task: it is the
    list of the dependent transaction indices sent so far, with its capacity.  An
    operation returns the new state, the channel and an [outcome], since reading an
    estimate and an invalid key panic. *)
From stdpp Require Import base gmap sets list sorting.
From Stdlib Require Import ZArith Lia.
From S2P Require Import Prelude KVStore MVItem MVStore.
Open Scope Z_scope.

(** The value an operation returns or the panic it raises. *)
Inductive outcome (A : Type) :=
| Ok (a : A)
| PanicAbort (dependentTxIdx : Z)
| PanicKey
| PanicReadset
| PanicStore.
Arguments Ok {A} a.
Arguments PanicAbort {A} dependentTxIdx.
Arguments PanicKey {A}.
Arguments PanicReadset {A}.
Arguments PanicStore {A}.

Record VersionIndexedStore := mkVIS {
  vs_readset : ReadSet;
  vs_writeset : WriteSet;
  vs_iterateset : list iterationTracker;
  vs_transactionIndex : Z;
  vs_incarnation : Z
}.

(** A buffered channel of aborts that is only ever sent to without blocking. *)
Record abortChannel := mkCh { ch_cap : nat; ch_buf : list Z }.

Definition NewIterationTracker (startKey endKey : option bytes) (ascending : bool)
    (writeset : WriteSet) : iterationTracker :=
  mkTracker startKey endKey None ∅ ascending writeset.

Definition SetEarlyStopKey (item : iterationTracker) (key : option bytes) : iterationTracker :=
  mkTracker (it_startKey item) (it_endKey item) key (it_iteratedKeys item) (it_ascending item)
    (it_writeset item).

Definition AddKey (item : iterationTracker) (key : bytes) : iterationTracker :=
  SetEarlyStopKey
    (mkTracker (it_startKey item) (it_endKey item) (it_earlyStopKey item)
       ({[key]} ∪ it_iteratedKeys item) (it_ascending item) (it_writeset item))
    (Some key).

Definition NewVersionIndexedStore (transactionIndex incarnation : Z) : VersionIndexedStore :=
  mkVIS ∅ ∅ [] transactionIndex incarnation.

(** The send of [WriteAbort]: dropped when the channel is full. *)
Definition WriteAbort (ch : abortChannel) (dep : Z) : abortChannel :=
  if bool_decide (length (ch_buf ch) < ch_cap ch)%nat
  then mkCh (ch_cap ch) (ch_buf ch ++ [dep]) else ch.

Definition UpdateReadSet (store : VersionIndexedStore) (key : bytes) (value : option bytes)
    : VersionIndexedStore :=
  let put vals := mkVIS (<[key := vals]> (vs_readset store)) (vs_writeset store)
                    (vs_iterateset store) (vs_transactionIndex store) (vs_incarnation store) in
  match vs_readset store !! key with
  | None => put [value]
  | Some existing =>
      if existsb (bytes_equal value) existing then store else put (existing ++ [value])
  end.

Definition parseValueAndUpdateReadset (store : VersionIndexedStore) (strKey : bytes)
    (mvsValue : valueItem) : VersionIndexedStore * option bytes :=
  let value := if IsDeleted mvsValue then None else vi_value mvsValue in
  (UpdateReadSet store strKey value, value).

Definition setValue (store : VersionIndexedStore) (key : bytes) (value : option bytes)
    : VersionIndexedStore * outcome unit :=
  if AssertValidKey key
  then (mkVIS (vs_readset store) (<[key := value]> (vs_writeset store)) (vs_iterateset store)
          (vs_transactionIndex store) (vs_incarnation store), Ok tt)
  else (store, PanicKey).

Definition vis_Set (store : VersionIndexedStore) (key : bytes) (value : option bytes)
    : VersionIndexedStore * outcome unit :=
  if AssertValidKey key then setValue store key value else (store, PanicKey).

Definition vis_Delete (store : VersionIndexedStore) (key : bytes)
    : VersionIndexedStore * outcome unit :=
  if AssertValidKey key then setValue store key None else (store, PanicKey).

Definition UpdateIterateSet (store : VersionIndexedStore) (tracker : iterationTracker)
    : VersionIndexedStore :=
  mkVIS (vs_readset store) (vs_writeset store) (vs_iterateset store ++ [tracker])
    (vs_transactionIndex store) (vs_incarnation store).

Section MVKV.
Context {T P : Type} `{!BTree T} `{!KVStore P}.
Implicit Types mvs : Store T P.

Definition vis_Get mvs (ch : abortChannel) (store : VersionIndexedStore) (key : bytes)
    : VersionIndexedStore * abortChannel * outcome (option bytes) :=
  if negb (AssertValidKey key) then (store, ch, PanicKey) else
  match vs_writeset store !! key with
  | Some cacheValue => (store, ch, Ok cacheValue)
  | None =>
      match vs_readset store !! key with
      | Some (readsetVal :: _) => (store, ch, Ok readsetVal)
      | Some [] => (store, ch, PanicReadset)
      | None =>
          match GetLatestBeforeIndex mvs (vs_transactionIndex store) key with
          | Some mvsValue =>
              if IsEstimate mvsValue
              then (store, WriteAbort ch (vi_index mvsValue), PanicAbort (vi_index mvsValue))
              else let '(store, value) := parseValueAndUpdateReadset store key mvsValue in
                   (store, ch, Ok value)
          | None =>
              let parentValue := kv_Get (parentStore mvs) key in
              (UpdateReadSet store key parentValue, ch, Ok parentValue)
          end
      end
  end.

Definition vis_Has mvs (ch : abortChannel) (store : VersionIndexedStore) (key : bytes)
    : VersionIndexedStore * abortChannel * outcome bool :=
  let '(store, ch, r) := vis_Get mvs ch store key in
  (store, ch, match r with
              | Ok v => Ok (bool_decide (v <> None))
              | PanicAbort d => PanicAbort d
              | PanicKey => PanicKey
              | PanicReadset => PanicReadset
              | PanicStore => PanicStore
              end).

(** [ValidateReadset]; [None] is the panic on a conflict with the parent. *)
Fixpoint validate_readset_keys mvs (ch : abortChannel) (store : VersionIndexedStore)
    (keys : list bytes) : abortChannel * option bool :=
  match keys with
  | [] => (ch, Some true)
  | key :: rest =>
      match vs_readset store !! key with
      | Some [value] =>
          match GetLatestBeforeIndex mvs (vs_transactionIndex store) key with
          | Some mvsValue =>
              if IsEstimate mvsValue then (WriteAbort ch (vi_index mvsValue), Some false)
              else if IsDeleted mvsValue then
                if bool_decide (value <> None) then (ch, Some false)
                else validate_readset_keys mvs ch store rest
              else if negb (bytes_equal value (vi_value mvsValue)) then (ch, Some false)
              else validate_readset_keys mvs ch store rest
          | None =>
              if negb (bytes_equal (kv_Get (parentStore mvs) key) value) then (ch, None)
              else validate_readset_keys mvs ch store rest
          end
      | _ => (ch, Some false)
      end
  end.

Definition ValidateReadset mvs (ch : abortChannel) (store : VersionIndexedStore)
    : abortChannel * option bool :=
  validate_readset_keys mvs ch store (sort_strings ((map_to_list (vs_readset store)).*1)).

Definition WriteToMultiVersionStore mvs (store : VersionIndexedStore) : Store T P :=
  let i := vs_transactionIndex store in
  SetIterateset (SetReadset (SetWriteset mvs i (vs_incarnation store) (vs_writeset store))
                   i (vs_readset store)) i (vs_iterateset store).

Definition WriteEstimatesToMultiVersionStore mvs (store : VersionIndexedStore) : Store T P :=
  SetEstimatedWriteset mvs (vs_transactionIndex store) (vs_incarnation store) (vs_writeset store).
End MVKV.
