(* ===== verification/MVSpec.v ===== *)
(** What the multi-version store and the version-indexed store promise: the
    store keeps one writeset per transaction, reads see the latest one below,
    and a transaction reads its own writes and repeats its reads. *)
From stdpp Require Import base gmap sets list sorting.
From Stdlib Require Import ZArith Lia.
From S2P Require Import Prelude KVStore MVItem MVStore MVKV.
Open Scope Z_scope.

(** ** The abstract store: one entry per transaction. *)
Record entry := mkEntry { en_incarnation : Z; en_estimate : bool; en_writes : WriteSet }.

Inductive store_op :=
| OpSet (index incarnation : Z) (writes : WriteSet)
| OpEstimate (index incarnation : Z) (writes : WriteSet)
| OpInvalidate (index incarnation : Z).

Definition spec_op (a : gmap Z entry) (op : store_op) : gmap Z entry :=
  match op with
  | OpSet i inc ws => <[i := mkEntry inc false ws]> a
  | OpEstimate i inc ws => <[i := mkEntry inc true ws]> a
  | OpInvalidate i inc => match a !! i with
                          | Some e => <[i := mkEntry inc true (en_writes e)]> a
                          | None => a
                          end
  end.

(** The version of [key] that transaction [i] holds. *)
Definition spec_version (a : gmap Z entry) (key : bytes) (i : Z) : option valueItem :=
  e ← a !! i; w ← en_writes e !! key;
  Some (if en_estimate e then NewEstimateItem i (en_incarnation e)
        else mkValueItem i (en_incarnation e) w false).

Definition op_ok (op : store_op) : Prop :=
  match op with
  | OpSet _ _ ws | OpEstimate _ _ ws => ws !! [] = None
  | OpInvalidate _ _ => True
  end.

Section Refinement.
Context {T P : Type} `{!BTree T, !BTreeLaws T} `{!KVStore P}.
Implicit Types s : Store T P.

Definition store_op_run s (op : store_op) : Store T P :=
  match op with
  | OpSet i inc ws => SetWriteset s i inc ws
  | OpEstimate i inc ws => SetEstimatedWriteset s i inc ws
  | OpInvalidate i inc => InvalidateWriteset s i inc
  end.

Record refines s (a : gmap Z entry) : Prop := {
  rf_wf : mv_wf s;
  rf_version : forall key i, version s key i = spec_version a key i;
  rf_keys : forall i, txWritesetKeys s !! i =
    (fun e => sort_strings ((map_to_list (en_writes e)).*1)) <$> a !! i
}.

Lemma refines_step s a op : refines s a -> op_ok op -> refines (store_op_run s op) (spec_op a op).
Proof.
  intros [Hwf Hv Hk] Hop. destruct op as [i inc ws|i inc ws|i inc]; simpl in *.
  - split; [by apply mv_wf_SetWriteset| |].
    + intros key j. rewrite SetWriteset_version by done. unfold spec_version. rewrite lookup_insert.
      by repeat case_decide; subst.
    + intros j. simpl. rewrite !lookup_insert. case_decide; [done|].
      rewrite removeOldWriteset_keys by done. apply Hk.
  - split; [by apply mv_wf_SetEstimatedWriteset| |].
    + intros key j. rewrite SetEstimatedWriteset_version by done. unfold spec_version. rewrite lookup_insert.
      by repeat case_decide; subst.
    + intros j. simpl. rewrite !lookup_insert. case_decide; [done|].
      rewrite removeOldWriteset_keys by done. apply Hk.
  - split; [by apply mv_wf_InvalidateWriteset| |].
    + intros key j. unfold InvalidateWriteset. rewrite Hk. destruct (a !! i) as [e|] eqn:He; simpl; [|done].
      unfold version. simpl. rewrite estimate_keys_version. fold (version s key j). rewrite Hv.
      unfold spec_version. rewrite lookup_insert. pose proof (writeset_keys_elem (en_writes e) key) as Hel.
      destruct (decide (i = j)) as [->|Hne]; [|by rewrite decide_False by naive_solver].
      rewrite He. simpl. destruct (en_writes e !! key) as [w|] eqn:Hw; simpl.
      * rewrite decide_True; [done|]. split; [|done]. apply Hel. eauto.
      * rewrite decide_False; [done|]. by intros [[? ?]%Hel _].
    + intros j. rewrite InvalidateWriteset_keys, Hk. destruct (a !! i) as [e|] eqn:He; [|done].
      rewrite lookup_insert. case_decide; [|done]. subst. by rewrite He.
Qed.

Lemma refines_run s a ops :
  refines s a -> Forall op_ok ops -> refines (fold_left store_op_run ops s) (fold_left spec_op ops a).
Proof.
  revert s a. induction ops as [|op ops IH]; intros s a Hr Hops; [done|].
  apply Forall_cons in Hops as [Hop Hops]. simpl. apply IH; [by apply refines_step|done].
Qed.

Lemma refines_New (p : P) : refines (NewMultiVersionStore p) ∅.
Proof. split; [apply mv_wf_New|done|done]. Qed.

(** C30. The multi-version store implements one writeset per transaction: after
    any sequence of writesets, estimated writesets and invalidations, a read at
    an index finds exactly the version of the highest lower transaction whose
    last writeset has the key, as an estimate when that writeset was estimated
    or invalidated, and nothing of replaced writesets is left. *)
Theorem store_implements_writesets (p : P) ops index key x :
  Forall op_ok ops ->
  GetLatestBeforeIndex (fold_left store_op_run ops (NewMultiVersionStore p)) index key = Some x <->
  let a := fold_left spec_op ops ∅ in
  spec_version a key (vi_index x) = Some x /\ vi_index x < index /\
  forall j, vi_index x < j < index -> spec_version a key j = None.
Proof.
  intros Hops. pose proof (refines_run _ _ ops (refines_New p) Hops) as [_ Hv _].
  rewrite GetLatestBeforeIndex_version, Hv. cbv zeta. split; intros (Hx & Hlt & Hmax); (split_and!; [done..|]).
  - intros j Hj. destruct (spec_version _ key j) as [y|] eqn:Hy; [|done].
    rewrite <- Hv in Hy. specialize (Hmax j y Hy). lia.
  - intros j y Hy Hj. rewrite Hv in Hy. destruct (decide (vi_index x < j)) as [Hl|]; [|lia].
    rewrite Hmax in Hy by lia. done.
Qed.

End Refinement.

(** ** The view of one transaction. *)
Section View.
Context {T P : Type} `{!BTree T} `{!KVStore P}.
Implicit Types (mvs : Store T P) (v : VersionIndexedStore) (ch : abortChannel).

(** Within one incarnation reads repeat: once a read of a key answered, every
    later read of it answers the same, whatever the other transactions have done
    to the multi-version store in between, and it records nothing new. *)
Theorem Get_repeatable mvs ch v key v' ch' x mvs2 ch2 :
  vis_Get mvs ch v key = (v', ch', Ok x) -> vis_Get mvs2 ch2 v' key = (v', ch2, Ok x).
Proof.
  unfold vis_Get. destruct (AssertValidKey key); simpl; [|done].
  destruct (vs_writeset v !! key) as [w|] eqn:Hw; [intros [= <- <- <-]; by rewrite Hw|].
  destruct (vs_readset v !! key) as [[|r rs]|] eqn:Hr; [done|intros [= <- <- <-]; by rewrite Hw, Hr|].
  assert (Hrec : forall y, let u := UpdateReadSet v key y in
    vs_writeset u !! key = None /\ vs_readset u !! key = Some [y]).
  { intros y. unfold UpdateReadSet. rewrite Hr. simpl. by rewrite lookup_insert_eq. }
  destruct (GetLatestBeforeIndex mvs (vs_transactionIndex v) key) as [y|].
  - destruct (IsEstimate y); [done|]. unfold parseValueAndUpdateReadset.
    intros [= <- <- <-]. destruct (Hrec (if IsDeleted y then None else vi_value y)) as [-> ->]. done.
  - intros [= <- <- <-]. destruct (Hrec (kv_Get (parentStore mvs) key)) as [-> ->]. done.
Qed.

(** A transaction reads its own writes: after [Set] or [Delete] of a valid
    key, [Get] answers the written value and [Has] whether it was a [Set],
    without looking at the multi-version store or the parent. *)
Theorem Get_own_write mvs ch v key (value : option bytes) :
  key <> [] ->
  exists v', (match value with Some x => vis_Set v key (Some x) | None => vis_Delete v key end) = (v', Ok tt) /\
    vis_Get mvs ch v' key = (v', ch, Ok value) /\
    vis_Has mvs ch v' key = (v', ch, Ok (bool_decide (value <> None))) /\
    forall key', key' <> key -> vs_writeset v' !! key' = vs_writeset v !! key'.
Proof.
  intros Hk.
  assert (Ha : AssertValidKey key = true) by (by apply bool_decide_eq_true).
  unfold vis_Set, vis_Delete, setValue. rewrite Ha. simpl.
  destruct value as [x|]; simpl; (eexists; split; [done|]);
    unfold vis_Has, vis_Get; rewrite Ha; simpl; rewrite lookup_insert_eq;
    (split_and!; [done|done|]; intros key' Hne; by rewrite lookup_insert_ne).
Qed.
End View.

(** ** The two readset checks. *)
Section Checks.
Context {T P : Type} `{!BTree T, !BTreeLaws T} `{!KVStore P}.
Implicit Types (mvs : Store T P) (v : VersionIndexedStore) (ch : abortChannel).

Lemma bytes_equal_sym a b : bytes_equal a b = bytes_equal b a.
Proof. unfold bytes_equal. by apply bool_decide_ext. Qed.

Lemma validate_readset_keys_ok mvs ch v keys :
  (forall key, key ∈ keys -> is_Some (vs_readset v !! key)) ->
  (validate_readset_keys mvs ch v keys).2 = Some true <->
  forall key vals, key ∈ keys -> vs_readset v !! key = Some vals ->
    read_ok mvs (vs_transactionIndex v) (key, vals).
Proof.
  induction keys as [|key keys IH]; intros Hin; cbn [validate_readset_keys].
  { split; [|done]. intros _ key vals Hk. by apply elem_of_nil in Hk. }
  destruct (Hin key ltac:(set_solver)) as [vals Hr]. rewrite Hr.
  assert (Hcons : read_ok mvs (vs_transactionIndex v) (key, vals) ->
    (validate_readset_keys mvs ch v keys).2 = Some true <->
    forall k vs, k ∈ key :: keys -> vs_readset v !! k = Some vs -> read_ok mvs (vs_transactionIndex v) (k, vs)).
  { intros Hok. rewrite IH by set_solver. setoid_rewrite elem_of_cons. split; [|eauto].
    intros Hall k vs [->|Hk] Hvs; [congruence|eauto]. }
  assert (Hbad : ~ read_ok mvs (vs_transactionIndex v) (key, vals) -> forall r, r <> Some true ->
    r = Some true <->
    forall k vs, k ∈ key :: keys -> vs_readset v !! k = Some vs -> read_ok mvs (vs_transactionIndex v) (k, vs)).
  { intros Hno r Hr'. split; [done|]. intros Hall. destruct Hno. apply Hall; [set_solver|done]. }
  destruct vals as [|value [|w vals]];
    [apply Hbad; [by intros []|done]| |apply Hbad; [by intros []|done]].
  unfold read_ok in Hcons, Hbad. simpl in Hcons, Hbad.
  destruct (GetLatestBeforeIndex mvs (vs_transactionIndex v) key) as [y|].
  - destruct (IsEstimate y); [apply Hbad; [by intros [? _]|done]|].
    destruct (IsDeleted y).
    + case_bool_decide as Hv; [apply Hbad; [by intros [_ ?]|done]|].
      by apply Hcons.
    + rewrite bytes_equal_sym. destruct (bytes_equal (vi_value y) value); simpl; [by apply Hcons|].
      apply Hbad; [by intros [_ ?]|done].
  - destruct (bytes_equal _ value); simpl; [by apply Hcons|]. by apply Hbad.
Qed.

Lemma readset_keys_elem v key :
  key ∈ sort_strings ((map_to_list (vs_readset v)).*1) <-> is_Some (vs_readset v !! key).
Proof.
  rewrite elem_of_sort_strings, list_elem_of_fmap. split.
  - intros ([k x] & -> & Hin%elem_of_map_to_list). simpl. eauto.
  - intros [x Hx]. exists (key, x). split; [done|]. by apply elem_of_map_to_list.
Qed.

(** Writing a transaction's own versions does not change what it reads. *)
Lemma read_ok_own_write mvs v kv :
  mv_wf mvs -> read_ok (WriteToMultiVersionStore mvs v) (vs_transactionIndex v) kv <->
  read_ok mvs (vs_transactionIndex v) kv.
Proof.
  intros Hwf. unfold read_ok.
  replace (GetLatestBeforeIndex (WriteToMultiVersionStore mvs v) (vs_transactionIndex v) kv.1)
    with (GetLatestBeforeIndex mvs (vs_transactionIndex v) kv.1).
  - unfold WriteToMultiVersionStore. simpl.
    by destruct (removeOldWriteset_rest mvs (vs_transactionIndex v) (Some (vs_writeset v))) as (-> & _).
  - apply GetLatestBeforeIndex_local. intros j Hj.
    change (version (WriteToMultiVersionStore mvs v) kv.1 j)
      with (version (SetWriteset mvs (vs_transactionIndex v) (vs_incarnation v) (vs_writeset v)) kv.1 j).
    rewrite SetWriteset_version by done. by rewrite decide_False by lia.
Qed.

(** The two readset checks agree: [ValidateReadset] of a transaction's store
    returns true exactly when, once the transaction has written its versions and
    its readset to the multi-version store, [checkReadsetAtIndex] finds the
    readset valid without conflicts. *)
Theorem ValidateReadset_agrees mvs ch v :
  mv_wf mvs ->
  (ValidateReadset mvs ch v).2 = Some true <->
  exists keys, checkReadsetAtIndex (WriteToMultiVersionStore mvs v) (vs_transactionIndex v) = (true, [], keys).
Proof.
  intros Hwf. set (s := WriteToMultiVersionStore mvs v).
  assert (Hr : txReadSets s !! vs_transactionIndex v = Some (vs_readset v)) by apply lookup_insert_eq.
  unfold ValidateReadset. rewrite validate_readset_keys_ok by (intros key; apply readset_keys_elem). split.
  - intros Hall. apply (checkReadsetAtIndex_complete s _ _ Hr). intros key vals Hk.
    apply read_ok_own_write; [done|]. apply (Hall key vals); [|done]. apply readset_keys_elem. eauto.
  - intros [keys Hk] key vals _ Hv. rewrite <- read_ok_own_write by done.
    exact (checkReadsetAtIndex_ok s _ _ _ Hr Hk key vals Hv).
Qed.
End Checks.

(** ** On the concrete stores. *)
Section Witness.
Abbreviation map_store := (gmap bytes bytes).
Abbreviation map_tree := (gmap Z (Z * option bytes * bool)).

Definition sample_ops : list store_op :=
  [OpSet 0 0 {[ [1] := Some [5]; [2] := Some [6] ]}; OpSet 2 0 {[ [1] := None ]}; OpInvalidate 2 0;
   OpSet 0 1 {[ [1] := Some [7] ]}; OpEstimate 1 0 {[ [2] := Some [8] ]}].
Definition sample_store : Store map_tree map_store :=
  fold_left store_op_run sample_ops (NewMultiVersionStore {[ [3] := [9] ]}).
Definition sample_view : VersionIndexedStore := NewVersionIndexedStore 2 0.

Lemma sample_ops_ok : Forall op_ok sample_ops.
Proof. by repeat constructor. Qed.

Lemma store_implements_writesets_witness :
  GetLatestBeforeIndex sample_store 2 [1] = Some (mkValueItem 0 1 (Some [7]) false) /\
  spec_version (fold_left spec_op sample_ops ∅) [1] 0 = Some (mkValueItem 0 1 (Some [7]) false) /\
  GetLatestBeforeIndex sample_store 2 [2] = Some (NewEstimateItem 1 0).
Proof.
  assert (Hget : GetLatestBeforeIndex sample_store 2 [1] = Some (mkValueItem 0 1 (Some [7]) false))
    by (vm_compute; reflexivity).
  split; [exact Hget|]. split; [|vm_compute; reflexivity].
  exact (proj1 (proj1 (store_implements_writesets (T := map_tree) {[ [3] := [9] ]} sample_ops 2 [1]
    (mkValueItem 0 1 (Some [7]) false) sample_ops_ok) Hget)).
Defined.

Lemma Get_repeatable_witness :
  exists v', vis_Get sample_store (mkCh 1 []) sample_view [1] = (v', mkCh 1 [], Ok (Some [7])) /\
    vis_Get (SetWriteset sample_store 1 0 {[ [1] := Some [70] ]}) (mkCh 1 []) v' [1] =
      (v', mkCh 1 [], Ok (Some [7])).
Proof.
  eexists. split; [vm_compute; reflexivity|].
  eapply (Get_repeatable sample_store (mkCh 1 []) sample_view [1]). vm_compute. reflexivity.
Defined.

Lemma Get_own_write_witness :
  exists v', vis_Set sample_view [4] (Some [44]) = (v', Ok tt) /\
    vis_Get sample_store (mkCh 1 []) v' [4] = (v', mkCh 1 [], Ok (Some [44])).
Proof.
  destruct (Get_own_write sample_store (mkCh 1 []) sample_view [4] (Some [44])) as (v' & H1 & H2 & _); [done|].
  by exists v'.
Defined.

Lemma ValidateReadset_agrees_witness :
  let v := (vis_Get sample_store (mkCh 1 []) sample_view [1]).1.1 in
  exists keys, checkReadsetAtIndex (WriteToMultiVersionStore sample_store v) 2 = (true, [], keys).
Proof.
  intros v. apply (ValidateReadset_agrees sample_store (mkCh 1 []) v).
  - exact (rf_wf _ _ (refines_run _ _ sample_ops (refines_New _) sample_ops_ok)).
  - vm_compute. reflexivity.
Defined.
End Witness.
