(* ===== verification/Scheduler.v ===== *)
(** The optimistic concurrency scheduler: [sei-cosmos/tasks/scheduler.go].

    A transaction is the program [deliverTx] runs for a task's request: a tree of
    store operations ([prog]) that ends in a response.  The continuation of an
    operation also receives its panics, so a transaction may recover from one, as
    [baseapp]'s [runTx] does.  Tasks, version stores and multi-version stores carry
    the fields of the Go structs; the contexts, tracing spans, metrics and logs are
    left out.

    [executeAll] and [validateAll] run their tasks on worker goroutines: they are
    step relations ([exec_step], [val_step]) that interleave the tasks at store
    method calls.  In synchronous mode the same code runs in order, as functions.
    [process] is the loop of [ProcessAll]. *)
From stdpp Require Import base gmap sets list sorting relations.
From Stdlib Require Import ZArith Lia.
From S2P Require Import Prelude KVStore MVItem MVStore MVKV.
Open Scope Z_scope.

(** ** Transactions. *)
Inductive prog (SK R : Type) :=
| PRet (response : R)
| PGet (sk : SK) (key : bytes) (k : outcome (option bytes) -> prog SK R)
| PSet (sk : SK) (key value : bytes) (k : outcome unit -> prog SK R)
| PDelete (sk : SK) (key : bytes) (k : outcome unit -> prog SK R).
Arguments PRet {SK R} response.
Arguments PGet {SK R} sk key k.
Arguments PSet {SK R} sk key value k.
Arguments PDelete {SK R} sk key k.

(** ** Tasks. *)
Inductive status :=
| statusPending
| statusExecuted
| statusAborted
| statusValidated
| statusWaiting.

#[export] Instance status_eq_dec : EqDecision status.
Proof. solve_decision. Defined.

Definition maximumIterations : nat := 10.

Record deliverTxTask (SK R : Type) `{Countable SK} := mkTask {
  AbortCh : abortChannel;
  Status : status;
  Dependencies : gset Z;
  Abort : option Z;
  Incarnation : Z;
  Tx : prog SK R;
  AbsoluteIndex : Z;
  Response : option R;
  VersionStores : gmap SK VersionIndexedStore
}.
Arguments mkTask {SK R _ _}.
Arguments AbortCh {SK R _ _}.
Arguments Status {SK R _ _}.
Arguments Dependencies {SK R _ _}.
Arguments Abort {SK R _ _}.
Arguments Incarnation {SK R _ _}.
Arguments Tx {SK R _ _}.
Arguments AbsoluteIndex {SK R _ _}.
Arguments Response {SK R _ _}.
Arguments VersionStores {SK R _ _}.

(** The closed channel [nil]. *)
Definition nilCh : abortChannel := mkCh 0 [].

Section Task.
Context {SK R : Type} `{Countable SK}.
Implicit Types dt : deliverTxTask SK R.

Definition AppendDependencies dt (deps : list Z) : deliverTxTask SK R :=
  mkTask (AbortCh dt) (Status dt) (list_to_set deps ∪ Dependencies dt) (Abort dt) (Incarnation dt)
    (Tx dt) (AbsoluteIndex dt) (Response dt) (VersionStores dt).

Definition IsStatus dt (s : status) : bool := bool_decide (Status dt = s).

Definition SetStatus dt (s : status) : deliverTxTask SK R :=
  mkTask (AbortCh dt) s (Dependencies dt) (Abort dt) (Incarnation dt) (Tx dt) (AbsoluteIndex dt)
    (Response dt) (VersionStores dt).

Definition Reset dt : deliverTxTask SK R :=
  mkTask nilCh statusPending (Dependencies dt) None (Incarnation dt) (Tx dt) (AbsoluteIndex dt)
    None ∅.

Definition Increment dt : deliverTxTask SK R :=
  mkTask (AbortCh dt) (Status dt) (Dependencies dt) (Abort dt) (Incarnation dt + 1) (Tx dt)
    (AbsoluteIndex dt) (Response dt) (VersionStores dt).
End Task.

(** ** The scheduler. *)
Section Scheduler.
Context {SK R T P M : Type} `{Countable SK} `{!BTree T} `{!KVStore P} `{!MemDB M}.
Abbreviation task := (deliverTxTask SK R).
Abbreviation stores_t := (gmap SK (Store T P)).
Implicit Types (stores : stores_t) (t : task) (tasks : list task).

Definition invalidate_store (index incarnation : Z) (mv : Store T P) : Store T P :=
  ClearIterateset (ClearReadset (InvalidateWriteset mv index incarnation) index) index.

Definition invalidateTask stores t : stores_t :=
  invalidate_store (AbsoluteIndex t) (Incarnation t) <$> stores.

(** The loop of [findConflicts] over the stores: valid flag, conflicts, keys. *)
Definition find_conflicts_store t (acc : bool * list Z * list (SK * bytes))
    (entry : SK * Store T P) : bool * list Z * list (SK * bytes) :=
  let '(valid, conflicts, conflictKeys) := acc in
  let '(storeKey, mv) := entry in
  let '(ok, mvConflicts, mvKeys) := ValidateTransactionStateWithKeys (M := M) mv (AbsoluteIndex t) in
  (valid && ok,
   fold_left (fun cs c => if bool_decide (c ∈ cs) then cs else cs ++ [c]) mvConflicts conflicts,
   conflictKeys ++ ((fun k => (storeKey, k)) <$> mvKeys)).

Definition findConflicts stores t : bool * list Z * list (SK * bytes) :=
  let '(valid, conflicts, conflictKeys) :=
    fold_left (find_conflicts_store t) (map_to_list stores) (true, [], []) in
  (valid, merge_sort Z.le conflicts, conflictKeys).

Definition toTasks (reqs : list (Z * prog SK R)) : list task :=
  (fun r => mkTask nilCh statusPending ∅ None 0 r.2 r.1 None ∅) <$> reqs.

(** [*t.Response] panics on a task without response ([None]). *)
Definition collectResponses tasks : option (list R) := mapM Response tasks.

Definition tryInitMultiVersionStore (stores : option stores_t) (parents : gmap SK P) : stores_t :=
  match stores with
  | Some stores => stores
  | None => NewMultiVersionStore <$> parents
  end.

(** [tasksMap[i]]: the last task with that absolute index. *)
Definition task_at tasks (i : Z) : option task :=
  last (filter (fun t => AbsoluteIndex t = i) tasks).

(** A dependency without a task is a nil pointer: [None]. *)
Definition dependenciesValidated tasks (deps : gset Z) : option bool :=
  foldr (fun i acc => match task_at tasks i with
                      | None => None
                      | Some t => if IsStatus t statusValidated then acc else Some false
                      end)
    (Some true) (elements deps).

Definition allValidated tasks : bool := forallb (fun t => IsStatus t statusValidated) tasks.

Fixpoint findFirstNonValidated tasks : option nat :=
  match tasks with
  | [] => None
  | t :: rest => if IsStatus t statusValidated then S <$> findFirstNonValidated rest else Some 0%nat
  end.

(** ** Running a transaction on its version stores. *)

(** One operation of the transaction. *)
Definition prog_step stores (vs : gmap SK VersionIndexedStore) (ch : abortChannel) (p : prog SK R)
    : option (gmap SK VersionIndexedStore * abortChannel * prog SK R) :=
  match p with
  | PRet _ => None
  | PGet sk key k =>
      match stores !! sk, vs !! sk with
      | Some mvs, Some v =>
          let '(v, ch, r) := vis_Get mvs ch v key in Some (<[sk := v]> vs, ch, k r)
      | _, _ => Some (vs, ch, k PanicStore)
      end
  | PSet sk key value k =>
      match vs !! sk with
      | Some v => let '(v, r) := vis_Set v key (Some value) in Some (<[sk := v]> vs, ch, k r)
      | None => Some (vs, ch, k PanicStore)
      end
  | PDelete sk key k =>
      match vs !! sk with
      | Some v => let '(v, r) := vis_Delete v key in Some (<[sk := v]> vs, ch, k r)
      | None => Some (vs, ch, k PanicStore)
      end
  end.

(** The whole transaction, when nothing else runs. *)
Fixpoint run_prog stores (vs : gmap SK VersionIndexedStore) (ch : abortChannel) (p : prog SK R)
    : gmap SK VersionIndexedStore * abortChannel * R :=
  match p with
  | PRet r => (vs, ch, r)
  | PGet sk key k =>
      match stores !! sk, vs !! sk with
      | Some mvs, Some v =>
          let '(v, ch, r) := vis_Get mvs ch v key in run_prog stores (<[sk := v]> vs) ch (k r)
      | _, _ => run_prog stores vs ch (k PanicStore)
      end
  | PSet sk key value k =>
      match vs !! sk with
      | Some v => let '(v, r) := vis_Set v key (Some value) in
                  run_prog stores (<[sk := v]> vs) ch (k r)
      | None => run_prog stores vs ch (k PanicStore)
      end
  | PDelete sk key k =>
      match vs !! sk with
      | Some v => let '(v, r) := vis_Delete v key in run_prog stores (<[sk := v]> vs) ch (k r)
      | None => run_prog stores vs ch (k PanicStore)
      end
  end.

Definition prepareTask stores t : task :=
  mkTask (mkCh (size stores) []) (Status t) (Dependencies t) (Abort t) (Incarnation t) (Tx t)
    (AbsoluteIndex t) (Response t)
    ((fun _ => NewVersionIndexedStore (AbsoluteIndex t) (Incarnation t)) <$> stores).

Definition with_stores t (vs : gmap SK VersionIndexedStore) (ch : abortChannel) : task :=
  mkTask ch (Status t) (Dependencies t) (Abort t) (Incarnation t) (Tx t) (AbsoluteIndex t)
    (Response t) vs.

(** The end of [executeTask] after [deliverTx] returned [resp]: the task, and
    whether its writes go out as estimates. *)
Definition finish_task t (resp : R) : task * bool :=
  match ch_buf (AbortCh t) with
  | dep :: _ =>
      let t := SetStatus t statusAborted in
      (AppendDependencies
         (mkTask (AbortCh t) (Status t) (Dependencies t) (Some dep) (Incarnation t) (Tx t)
            (AbsoluteIndex t) (Response t) (VersionStores t)) [dep], true)
  | [] =>
      let t := SetStatus t statusExecuted in
      (mkTask (AbortCh t) (Status t) (Dependencies t) (Abort t) (Incarnation t) (Tx t)
         (AbsoluteIndex t) (Some resp) (VersionStores t), false)
  end.

(** One turn of the loops that write a task's version stores. *)
Definition write_store (estimates : bool) (v : VersionIndexedStore) (mv : Store T P) : Store T P :=
  if estimates then WriteEstimatesToMultiVersionStore mv v else WriteToMultiVersionStore mv v.

Definition write_stores (estimates : bool) (vs : gmap SK VersionIndexedStore) stores : stores_t :=
  map_imap (fun sk mv => Some (match vs !! sk with
                               | Some v => write_store estimates v mv
                               | None => mv
                               end)) stores.

Record sched := mkSched {
  sc_stores : stores_t;
  sc_tasks : list task;
  sc_synchronous : bool;
  sc_maxIncarnation : Z
}.

Definition put_task (s : sched) (pos : nat) (t : task) : sched :=
  mkSched (sc_stores s) (<[pos := t]> (sc_tasks s)) (sc_synchronous s) (sc_maxIncarnation s).

Definition put_stores (s : sched) stores : sched :=
  mkSched stores (sc_tasks s) (sc_synchronous s) (sc_maxIncarnation s).

(** [executeTask], run without interleaving. *)
Definition executeTask (s : sched) (pos : nat) : sched :=
  match sc_tasks s !! pos with
  | None => s
  | Some t =>
      let s := if sc_synchronous s && IsStatus t statusValidated
               then put_stores s (invalidateTask (sc_stores s) t) else s in
      let t := if sc_synchronous s && negb (IsStatus t statusPending)
               then Increment (Reset t) else t in
      let t := prepareTask (sc_stores s) t in
      let '(vs, ch, resp) := run_prog (sc_stores s) (VersionStores t) (AbortCh t) (Tx t) in
      let '(t, estimates) := finish_task (with_stores t vs ch) resp in
      put_task (put_stores s (write_stores estimates vs (sc_stores s))) pos t
  end.

(** ** Validation. *)

(** [t.Reset(); t.Increment()] of [validateAll] with the update of the highest
    incarnation. *)
Definition rerun_task (s : sched) (pos : nat) (t : task) : sched :=
  let t := Increment (Reset t) in
  let s := put_task s pos t in
  mkSched (sc_stores s) (sc_tasks s) (sc_synchronous s)
    (if bool_decide (sc_maxIncarnation s < Incarnation t) then Incarnation t
     else sc_maxIncarnation s).

(** [shouldRerun], run without interleaving; [None] is a nil pointer. *)
Definition shouldRerun (s : sched) (pos : nat) (t : task) : option (sched * bool) :=
  match Status t with
  | statusAborted | statusPending => Some (s, true)
  | statusExecuted | statusValidated =>
      let '(valid, conflicts, _) := findConflicts (sc_stores s) t in
      if negb valid then
        let s := put_stores s (invalidateTask (sc_stores s) t) in
        let t := AppendDependencies t conflicts in
        let s := put_task s pos t in
        b ← dependenciesValidated (sc_tasks s) (Dependencies t);
        if (b : bool) then Some (s, true)
        else Some (put_task s pos (SetStatus t statusWaiting), false)
      else match conflicts with
           | [] => Some (put_task s pos (SetStatus t statusValidated), false)
           | _ :: _ => Some (s, false)
           end
  | statusWaiting => b ← dependenciesValidated (sc_tasks s) (Dependencies t); Some (s, b)
  end.

(** The closure [validateAll] runs for one task: [None] is a panic. *)
Definition validate_one (s : sched) (pos : nat) : option (sched * list nat) :=
  match sc_tasks s !! pos with
  | None => Some (s, [])
  | Some t =>
      '(s, rerun) ← shouldRerun s pos t;
      if (rerun : bool) then
        t ← sc_tasks s !! pos; Some (rerun_task s pos t, [pos])
      else Some (s, [])
  end.

Fixpoint validate_positions (s : sched) (res : list nat) (positions : list nat)
    : option (sched * list nat) :=
  match positions with
  | [] => Some (s, res)
  | pos :: rest =>
      '(s, r) ← validate_one s pos; validate_positions s (res ++ r) rest
  end.

(** [validateAll] and [executeAll] in synchronous mode. *)
Definition validateAll_sync (s : sched) : option (sched * list nat) :=
  match findFirstNonValidated (sc_tasks s) with
  | None => Some (s, [])
  | Some startIdx => validate_positions s [] (seq startIdx (length (sc_tasks s) - startIdx))
  end.

Definition executeAll_sync (s : sched) (toExecute : list nat) : sched :=
  fold_left executeTask toExecute s.

(** ** The concurrent phases. *)

(** Where the goroutine of a task is inside [executeTask]. *)
Inductive exec_thread :=
| ERunning (p : prog SK R)
| EWriting (estimates : bool) (todo : gset SK).

Record exec_cfg := mkExec {
  ex_sched : sched;
  ex_todo : list nat;
  ex_threads : gmap nat exec_thread
}.

Inductive exec_step : exec_cfg -> exec_cfg -> Prop :=
| exec_start s pre pos post threads t :
    threads !! pos = None ->
    sc_tasks s !! pos = Some t ->
    exec_step (mkExec s (pre ++ pos :: post) threads)
      (mkExec (put_task s pos (prepareTask (sc_stores s) t)) (pre ++ post)
         (<[pos := ERunning (Tx t)]> threads))
| exec_op s todo pos threads t p vs ch p' :
    threads !! pos = Some (ERunning p) ->
    sc_tasks s !! pos = Some t ->
    prog_step (sc_stores s) (VersionStores t) (AbortCh t) p = Some (vs, ch, p') ->
    exec_step (mkExec s todo threads)
      (mkExec (put_task s pos (with_stores t vs ch)) todo (<[pos := ERunning p']> threads))
| exec_finish s todo pos threads t resp t' estimates :
    threads !! pos = Some (ERunning (PRet resp)) ->
    sc_tasks s !! pos = Some t ->
    finish_task t resp = (t', estimates) ->
    exec_step (mkExec s todo threads)
      (mkExec (put_task s pos t') todo
         (<[pos := EWriting estimates (dom (VersionStores t))]> threads))
| exec_write s todo pos threads t estimates todo_sk sk v mv :
    threads !! pos = Some (EWriting estimates todo_sk) ->
    sk ∈ todo_sk ->
    sc_tasks s !! pos = Some t ->
    VersionStores t !! sk = Some v ->
    sc_stores s !! sk = Some mv ->
    exec_step (mkExec s todo threads)
      (mkExec (put_stores s (<[sk := write_store estimates v mv]> (sc_stores s))) todo
         (<[pos := EWriting estimates (todo_sk ∖ {[sk]})]> threads))
| exec_done s todo pos threads estimates :
    threads !! pos = Some (EWriting estimates ∅) ->
    exec_step (mkExec s todo threads) (mkExec s todo (delete pos threads)).

(** [executeAll] in concurrent mode: from the tasks to execute to all done. *)
Definition executeAll_conc (s : sched) (toExecute : list nat) (s' : sched) : Prop :=
  rtc exec_step (mkExec s toExecute ∅) (mkExec s' [] ∅).

(** Where the goroutine of a task is inside [shouldRerun]. *)
Inductive val_thread :=
| VChecked (valid : bool) (conflicts : list Z)
| VInvalidated.

Record val_cfg := mkVal {
  va_sched : sched;
  va_todo : list nat;
  va_threads : gmap nat val_thread;
  va_res : list nat
}.

Inductive val_step : val_cfg -> val_cfg -> Prop :=
| val_unfinished s pre pos post threads res t :
    sc_tasks s !! pos = Some t ->
    Status t = statusAborted \/ Status t = statusPending ->
    val_step (mkVal s (pre ++ pos :: post) threads res)
      (mkVal (rerun_task s pos t) (pre ++ post) threads (res ++ [pos]))
| val_check s pre pos post threads res t valid conflicts keys :
    threads !! pos = None ->
    sc_tasks s !! pos = Some t ->
    Status t = statusExecuted \/ Status t = statusValidated ->
    findConflicts (sc_stores s) t = (valid, conflicts, keys) ->
    val_step (mkVal s (pre ++ pos :: post) threads res)
      (mkVal s (pre ++ post) (<[pos := VChecked valid conflicts]> threads) res)
| val_waiting s pre pos post threads res t b :
    sc_tasks s !! pos = Some t ->
    Status t = statusWaiting ->
    dependenciesValidated (sc_tasks s) (Dependencies t) = Some b ->
    val_step (mkVal s (pre ++ pos :: post) threads res)
      (mkVal (if b then rerun_task s pos t else s) (pre ++ post) threads
         (if b then res ++ [pos] else res))
| val_invalid s todo pos threads res t conflicts :
    threads !! pos = Some (VChecked false conflicts) ->
    sc_tasks s !! pos = Some t ->
    val_step (mkVal s todo threads res)
      (mkVal (put_task (put_stores s (invalidateTask (sc_stores s) t)) pos
                (AppendDependencies t conflicts))
         todo (<[pos := VInvalidated]> threads) res)
| val_valid s todo pos threads res t :
    threads !! pos = Some (VChecked true []) ->
    sc_tasks s !! pos = Some t ->
    val_step (mkVal s todo threads res)
      (mkVal (put_task s pos (SetStatus t statusValidated)) todo (delete pos threads) res)
| val_conflicts s todo pos threads res c conflicts :
    threads !! pos = Some (VChecked true (c :: conflicts)) ->
    val_step (mkVal s todo threads res) (mkVal s todo (delete pos threads) res)
| val_rerun s todo pos threads res t :
    threads !! pos = Some VInvalidated ->
    sc_tasks s !! pos = Some t ->
    dependenciesValidated (sc_tasks s) (Dependencies t) = Some true ->
    val_step (mkVal s todo threads res)
      (mkVal (rerun_task s pos t) todo (delete pos threads) (res ++ [pos]))
| val_wait s todo pos threads res t :
    threads !! pos = Some VInvalidated ->
    sc_tasks s !! pos = Some t ->
    dependenciesValidated (sc_tasks s) (Dependencies t) = Some false ->
    val_step (mkVal s todo threads res)
      (mkVal (put_task s pos (SetStatus t statusWaiting)) todo (delete pos threads) res).

(** [validateAll] in concurrent mode. *)
Inductive validateAll_conc (s : sched) : sched -> list nat -> Prop :=
| validate_none :
    findFirstNonValidated (sc_tasks s) = None ->
    validateAll_conc s s []
| validate_some startIdx s' res :
    findFirstNonValidated (sc_tasks s) = Some startIdx ->
    rtc val_step (mkVal s (seq startIdx (length (sc_tasks s) - startIdx)) ∅ [])
      (mkVal s' [] ∅ res) ->
    validateAll_conc s s' res.

(** ** The loop of [ProcessAll]. *)
Definition set_synchronous (s : sched) : sched :=
  mkSched (sc_stores s) (sc_tasks s) true (sc_maxIncarnation s).

(** The synchronous turn of the loop: everything from the first task that is not
    validated is executed again. *)
Definition sync_round (s : sched) (startIdx : nat) : option (sched * list nat) :=
  let s := set_synchronous s in
  validateAll_sync (executeAll_sync s (seq startIdx (length (sc_tasks s) - startIdx))).

(** [process n s toExecute s']: started in [s] after [n] iterations, the loop
    ends in [s']. *)
Inductive process : nat -> sched -> list nat -> sched -> Prop :=
| process_done iterations s toExecute :
    allValidated (sc_tasks s) = true ->
    process iterations s toExecute s
| process_conc iterations s toExecute s1 s2 toExecute' s' :
    allValidated (sc_tasks s) = false ->
    (iterations < maximumIterations)%nat ->
    executeAll_conc s toExecute s1 ->
    validateAll_conc s1 s2 toExecute' ->
    process (S iterations) s2 toExecute' s' ->
    process iterations s toExecute s'
| process_sync iterations s toExecute startIdx s2 toExecute' s' :
    allValidated (sc_tasks s) = false ->
    (maximumIterations <= iterations)%nat ->
    findFirstNonValidated (sc_tasks s) = Some startIdx ->
    sync_round s startIdx = Some (s2, toExecute') ->
    process (S iterations) s2 toExecute' s' ->
    process iterations s toExecute s'.

(** The state in which [ProcessAll] enters the loop. *)
Definition init_sched (parents : gmap SK P) (reqs : list (Z * prog SK R)) : sched :=
  mkSched (tryInitMultiVersionStore None parents) (toTasks reqs) false 0.

(** [ProcessAll]: the responses and the parent stores it leaves.  The final
    [WriteLatestToStore] of every store may panic, hence the options. *)
Inductive ProcessAll (parents : gmap SK P) (reqs : list (Z * prog SK R))
    : list R -> gmap SK P -> Prop :=
| ProcessAll_intro s responses stores' :
    process 0 (init_sched parents reqs) (seq 0 (length reqs)) s ->
    map_Forall2 (fun _ mv mv' => WriteLatestToStore mv = Some mv') (sc_stores s) stores' ->
    collectResponses (sc_tasks s) = Some responses ->
    ProcessAll parents reqs responses (parentStore <$> stores').

(** ** The reference: one transaction after the other on the parent stores. *)
Fixpoint seq_run (st : gmap SK P) (p : prog SK R) : gmap SK P * R :=
  match p with
  | PRet r => (st, r)
  | PGet sk key k =>
      match st !! sk with
      | None => seq_run st (k PanicStore)
      | Some p => if AssertValidKey key then seq_run st (k (Ok (kv_Get p key)))
                  else seq_run st (k PanicKey)
      end
  | PSet sk key value k =>
      match st !! sk with
      | None => seq_run st (k PanicStore)
      | Some p => if AssertValidKey key then seq_run (<[sk := kv_Set p key value]> st) (k (Ok tt))
                  else seq_run st (k PanicKey)
      end
  | PDelete sk key k =>
      match st !! sk with
      | None => seq_run st (k PanicStore)
      | Some p => if AssertValidKey key then seq_run (<[sk := kv_Delete p key]> st) (k (Ok tt))
                  else seq_run st (k PanicKey)
      end
  end.

Fixpoint seq_all (st : gmap SK P) (txs : list (prog SK R)) : gmap SK P * list R :=
  match txs with
  | [] => (st, [])
  | p :: rest =>
      let '(st, r) := seq_run st p in
      let '(st, rs) := seq_all st rest in (st, r :: rs)
  end.
End Scheduler.

#[export] Instance val_thread_eq_dec : EqDecision val_thread.
Proof. solve_decision. Defined.
