(* ===== verification/SchedulerRuns.v ===== *)
(** Runs of one transaction: on its version stores, against an oracle that
    answers its reads, and directly on the parent stores; and how the three
    relate.  These are the lemmas the scheduler's theorems rest on. *)
From stdpp Require Import base gmap sets list sorting relations.
From Stdlib Require Import ZArith Lia.
From S2P Require Import Prelude KVStore MVItem MVStore MVKV Scheduler.
Open Scope Z_scope.

Section Runs.
Context {SK R T P : Type} `{Countable SK} `{!BTree T, !BTreeLaws T} `{!KVStore P, !KVStoreLaws P}.
Implicit Types (p : prog SK R) (vs : gmap SK VersionIndexedStore) (ws : gmap SK WriteSet).

(** The transaction with its reads answered by [o] and its own writes [ws]. *)
Fixpoint oracle_run (o : SK -> bytes -> option bytes) ws p : gmap SK WriteSet * R :=
  match p with
  | PRet r => (ws, r)
  | PGet sk key k =>
      match ws !! sk with
      | None => oracle_run o ws (k PanicStore)
      | Some w =>
          if AssertValidKey key then
            oracle_run o ws (k (Ok (default (o sk key) (w !! key))))
          else oracle_run o ws (k PanicKey)
      end
  | PSet sk key value k =>
      match ws !! sk with
      | None => oracle_run o ws (k PanicStore)
      | Some w =>
          if AssertValidKey key then oracle_run o (<[sk := <[key := Some value]> w]> ws) (k (Ok tt))
          else oracle_run o ws (k PanicKey)
      end
  | PDelete sk key k =>
      match ws !! sk with
      | None => oracle_run o ws (k PanicStore)
      | Some w =>
          if AssertValidKey key then oracle_run o (<[sk := <[key := None]> w]> ws) (k (Ok tt))
          else oracle_run o ws (k PanicKey)
      end
  end.

(** ** Against the sequential reference. *)

(** [st] is [st0] with the writes [ws] applied. *)
Definition overlay_at (st0 : gmap SK P) ws (st : gmap SK P) (sk : SK) : Prop :=
  match st0 !! sk, ws !! sk, st !! sk with
  | Some q0, Some w, Some q =>
      forall key, kv_view q !! key = default (kv_view q0 !! key) (w !! key)
  | None, None, None => True
  | _, _, _ => False
  end.

Definition state_oracle (st : gmap SK P) (sk : SK) (key : bytes) : option bytes :=
  q ← st !! sk; kv_Get q key.

Lemma valid_key_true key : AssertValidKey key = true <-> key <> [].
Proof. unfold AssertValidKey. apply bool_decide_eq_true. Qed.

Lemma overlay_update st0 ws st sk q0 w q key (v : option bytes) q' :
  (forall sk, overlay_at st0 ws st sk) ->
  st0 !! sk = Some q0 -> ws !! sk = Some w -> st !! sk = Some q ->
  (forall k, kv_view q' !! k = if decide (k = key) then v else kv_view q !! k) ->
  forall sk', overlay_at st0 (<[sk := <[key := v]> w]> ws) (<[sk := q']> st) sk'.
Proof.
  intros Hov H0 Hw Hq Hq' sk'. pose proof (Hov sk') as Hsk'. unfold overlay_at in *.
  destruct (decide (sk' = sk)) as [->|Hne].
  - rewrite H0, !lookup_insert_eq. rewrite H0, Hw, Hq in Hsk'. intros k. rewrite Hq'.
    case_decide as Hk; [subst; by rewrite lookup_insert_eq|]. by rewrite lookup_insert_ne.
  - by rewrite !lookup_insert_ne by done.
Qed.

Lemma seq_run_oracle st0 p ws st :
  (forall sk, overlay_at st0 ws st sk) ->
  (seq_run st p).2 = (oracle_run (state_oracle st0) ws p).2 /\
  forall sk, overlay_at st0 (oracle_run (state_oracle st0) ws p).1 (seq_run st p).1 sk.
Proof.
  revert ws st. induction p as [r|sk key k IH|sk key v k IH|sk key k IH]; intros ws st Hov;
    cbn [seq_run oracle_run]; [done| | |];
    pose proof (Hov sk) as Hsk; unfold overlay_at in Hsk;
    destruct (st0 !! sk) as [q0|] eqn:H0, (ws !! sk) as [w|] eqn:Hw, (st !! sk) as [q|] eqn:Hq;
    try done; try (by apply IH);
    destruct (AssertValidKey key) eqn:Hk; try (by apply IH); apply valid_key_true in Hk.
  - rewrite kv_Get_view, Hsk by done. replace (state_oracle st0 sk key) with (kv_view q0 !! key).
    + by apply IH.
    + unfold state_oracle. rewrite H0. simpl. by rewrite kv_Get_view.
  - apply IH. eapply overlay_update; [done..|]. intros k'. rewrite kv_Set_view, lookup_insert by done.
    repeat case_decide; congruence.
  - apply IH. eapply overlay_update; [done..|]. intros k'.
    rewrite kv_Delete_view, lookup_delete by done. repeat case_decide; congruence.
Qed.

(** ** On the version stores. *)

(** The values the run may meet; the theorems choose the class. *)
Variable okv : option bytes -> Prop.

Record vis_ok (index incarnation : Z) (v : VersionIndexedStore) : Prop := {
  vo_index : vs_transactionIndex v = index;
  vo_incarnation : vs_incarnation v = incarnation;
  vo_iterateset : vs_iterateset v = [];
  vo_keys : vs_writeset v !! [] = None;
  vo_writes : forall key w, vs_writeset v !! key = Some w -> okv w;
  vo_reads : forall key vals, vs_readset v !! key = Some vals -> exists x, vals = [x] /\ okv x
}.

Definition values_ok (mv : Store T P) : Prop :=
  (forall key i x, version mv key i = Some x -> okv (vi_value x)) /\
  forall key, okv (kv_Get (parentStore mv) key).

Lemma vis_ok_New index incarnation : vis_ok index incarnation (NewVersionIndexedStore index incarnation).
Proof. by split. Qed.

Lemma vis_ok_read index incarnation v key x :
  vis_ok index incarnation v -> vs_readset v !! key = None -> okv x ->
  UpdateReadSet v key x =
    mkVIS (<[key := [x]]> (vs_readset v)) (vs_writeset v) (vs_iterateset v)
      (vs_transactionIndex v) (vs_incarnation v) /\
  vis_ok index incarnation (UpdateReadSet v key x).
Proof.
  intros Hv Hk Hx. unfold UpdateReadSet. rewrite Hk. split; [done|].
  destruct Hv. split; simpl; try done. intros k vals.
  destruct (decide (k = key)) as [->|Hne]; [rewrite lookup_insert_eq|rewrite lookup_insert_ne by done];
    [intros [= <-]; by exists x|eauto].
Qed.

(** What one read does: it serves a value from the writes or records it, or it
    panics on an invalid key, or it meets an estimate and sends an abort. *)
Lemma vis_Get_cases index incarnation mv ch v key v' ch' r :
  vis_ok index incarnation v -> values_ok mv ->
  vis_Get mv ch v key = (v', ch', r) ->
  vis_ok index incarnation v' /\ vs_writeset v' = vs_writeset v /\
  (forall k vals, vs_readset v !! k = Some vals -> vs_readset v' !! k = Some vals) /\
  (forall k x, vs_readset v' !! k = Some [x] ->
     vs_readset v !! k = Some [x] \/ resolve mv index k = Some x) /\
  ((key = [] /\ ch' = ch /\ r = PanicKey) \/
   (key <> [] /\ ch' = ch /\ exists x, r = Ok x /\
      (vs_writeset v !! key = Some x \/
       vs_writeset v !! key = None /\ vs_readset v' !! key = Some [x])) \/
   (exists d x, ch' = WriteAbort ch d /\ GetLatestBeforeIndex mv index key = Some x /\
      IsEstimate x = true)).
Proof.
  intros Hv Hmv. unfold vis_Get. destruct (AssertValidKey key) eqn:Hk; simpl.
  2:{ intros [= <- <- <-]. unfold AssertValidKey in Hk. apply bool_decide_eq_false in Hk.
      split_and!; auto. left. split; [|done]. destruct key; [done|]. by destruct Hk. }
  apply valid_key_true in Hk.
  destruct (vs_writeset v !! key) as [w|] eqn:Hw.
  { intros [= <- <- <-]. split_and!; auto. right; left. split_and!; eauto. }
  destruct (vs_readset v !! key) as [vals|] eqn:Hr.
  { destruct (vo_reads _ _ _ Hv _ _ Hr) as (x & -> & Hx). intros [= <- <- <-].
    split_and!; auto. right; left. split_and!; eauto. }
  assert (Hrec : forall x, okv x -> resolve mv index key = Some x ->
    let v' := UpdateReadSet v key x in
    vis_ok index incarnation v' /\ vs_writeset v' = vs_writeset v /\
    (forall k vals, vs_readset v !! k = Some vals -> vs_readset v' !! k = Some vals) /\
    (forall k x, vs_readset v' !! k = Some [x] ->
       vs_readset v !! k = Some [x] \/ resolve mv index k = Some x) /\
    vs_readset v' !! key = Some [x]).
  { intros x Hx Hres. destruct (vis_ok_read _ _ _ key x Hv Hr Hx) as [-> Hok]. simpl.
    split_and!; [done|done| | |by rewrite lookup_insert_eq].
    - intros k vals Hvals. rewrite lookup_insert_ne; [done|]. intros ->. congruence.
    - intros k y. destruct (decide (k = key)) as [->|Hne].
      + rewrite lookup_insert_eq. intros [= <-]. by right.
      + rewrite lookup_insert_ne by done. by left. }
  rewrite (vo_index _ _ _ Hv).
  destruct (GetLatestBeforeIndex mv index key) as [x|] eqn:Hg.
  - destruct (IsEstimate x) eqn:He.
    + intros [= <- <- <-]. split_and!; auto. right; right. eauto.
    + unfold parseValueAndUpdateReadset.
      replace (if IsDeleted x then None else vi_value x) with (vi_value x).
      2:{ unfold IsDeleted. destruct (vi_value x); simpl; [done|]. by case_match. }
      intros [= <- <- <-]. destruct (Hrec (vi_value x)) as (?&?&?&?&?).
      * apply GetLatestBeforeIndex_version in Hg as [Hg _]. by eapply Hmv.
      * unfold resolve. by rewrite Hg, He.
      * split_and!; auto. right; left. split_and!; eauto.
  - intros [= <- <- <-]. destruct (Hrec (kv_Get (parentStore mv) key)) as (?&?&?&?&?).
    + apply Hmv.
    + unfold resolve. by rewrite Hg.
    + split_and!; auto. right; left. split_and!; eauto.
Qed.

Lemma vis_Set_ok index incarnation v key (x : option bytes) v' r :
  vis_ok index incarnation v -> okv x -> vis_Set v key x = (v', r) ->
  vis_ok index incarnation v' /\ vs_readset v' = vs_readset v /\
  (AssertValidKey key = true /\ r = Ok tt /\ vs_writeset v' = <[key := x]> (vs_writeset v) \/
   AssertValidKey key = false /\ r = PanicKey /\ v' = v).
Proof.
  intros Hv Hx. unfold vis_Set, setValue. destruct (AssertValidKey key) eqn:Hk.
  - intros [= <- <-]. split_and!; [|done|by left]. apply valid_key_true in Hk.
    destruct Hv as [? ? ? Hkeys Hw Hr]. split; simpl; try done.
    + by rewrite lookup_insert_ne.
    + intros k w. destruct (decide (k = key)) as [->|Hne];
        [rewrite lookup_insert_eq; by intros [= <-]|rewrite lookup_insert_ne by done; apply Hw].
  - intros [= <- <-]. split_and!; auto.
Qed.

Lemma vis_Delete_Set v key : vis_Delete v key = vis_Set v key None.
Proof. done. Qed.

(** ** Steps of a transaction. *)
Hypothesis okv_None : okv None.

(** The program writes values of the class only. *)
Fixpoint prog_okv p : Prop :=
  match p with
  | PRet _ => True
  | PGet _ _ k => forall r, prog_okv (k r)
  | PSet _ _ value k => okv (Some value) /\ forall r, prog_okv (k r)
  | PDelete _ _ k => forall r, prog_okv (k r)
  end.

Record vs_ok (stores : gmap SK (Store T P)) (index incarnation : Z) vs (ch : abortChannel) : Prop := {
  vso_dom : forall sk, is_Some (stores !! sk) <-> is_Some (vs !! sk);
  vso_vis : forall sk v, vs !! sk = Some v -> vis_ok index incarnation v;
  vso_cap : ch_cap ch = size stores
}.

Definition agrees (o : SK -> bytes -> option bytes) vs : Prop :=
  forall sk v key x, key <> [] -> vs !! sk = Some v -> vs_readset v !! key = Some [x] -> o sk key = x.

Definition all_values_ok (stores : gmap SK (Store T P)) : Prop :=
  forall sk mv, stores !! sk = Some mv -> values_ok mv.

Lemma WriteAbort_nonempty ch d : (0 < ch_cap ch)%nat -> ch_buf (WriteAbort ch d) <> [].
Proof.
  intros Hc. unfold WriteAbort. case_bool_decide as Hb; simpl.
  - by destruct (ch_buf ch).
  - destruct (ch_buf ch); simpl in Hb; [lia|done].
Qed.

Lemma WriteAbort_cap ch d : ch_cap (WriteAbort ch d) = ch_cap ch.
Proof. unfold WriteAbort. by case_bool_decide. Qed.

Lemma size_pos (stores : gmap SK (Store T P)) sk mv : stores !! sk = Some mv -> (0 < size stores)%nat.
Proof. intros Hs. destruct (size stores) eqn:Hz; [|lia]. apply map_size_empty_inv in Hz. subst.
  by rewrite lookup_empty in Hs. Qed.

Lemma vs_ok_insert stores index incarnation vs ch sk v v' ch' :
  vs_ok stores index incarnation vs ch -> vs !! sk = Some v ->
  vis_ok index incarnation v' -> ch_cap ch' = ch_cap ch ->
  vs_ok stores index incarnation (<[sk := v']> vs) ch'.
Proof.
  intros [Hd Hv Hc] Hsk Hok Hcap. split.
  - intros sk'. rewrite Hd. destruct (decide (sk' = sk)) as [->|Hne];
      [rewrite lookup_insert_eq, Hsk|rewrite lookup_insert_ne by done; done]. by split; eauto.
  - intros sk' w. destruct (decide (sk' = sk)) as [->|Hne];
      [rewrite lookup_insert_eq; by intros [= <-]|rewrite lookup_insert_ne by done; eauto].
  - congruence.
Qed.

Lemma agrees_insert o vs sk v v' :
  vs !! sk = Some v ->
  (forall k vals, vs_readset v !! k = Some vals -> vs_readset v' !! k = Some vals) ->
  agrees o (<[sk := v']> vs) -> agrees o vs.
Proof.
  intros Hsk Hmono Ho sk' w key x Hk Hw Hx. destruct (decide (sk' = sk)) as [->|Hne].
  - simplify_eq. eapply (Ho sk v'); [done|by rewrite lookup_insert_eq|eauto].
  - eapply (Ho sk' w); [done|by rewrite lookup_insert_ne|done].
Qed.

(** A read or a write of the run answers as the oracle run does. *)
Lemma read_step_ok stores index incarnation vs ch sk mv v key v' ch' r
    (k : outcome (option bytes) -> prog SK R) :
  vs_ok stores index incarnation vs ch -> all_values_ok stores ->
  stores !! sk = Some mv -> vs !! sk = Some v -> vis_Get mv ch v key = (v', ch', r) ->
  vs_ok stores index incarnation (<[sk := v']> vs) ch' /\
  (ch_buf ch' = [] -> ch_buf ch = [] /\ forall o, agrees o (<[sk := v']> vs) ->
     agrees o vs /\
     oracle_run o (vs_writeset <$> vs) (PGet sk key k) =
     oracle_run o (vs_writeset <$> <[sk := v']> vs) (k r)).
Proof.
  intros Hvs Hval Hs Hv Hg. pose proof (vso_vis _ _ _ _ _ Hvs _ _ Hv) as Hok.
  assert (Hws : (vs_writeset <$> vs) !! sk = Some (vs_writeset v)) by (by rewrite lookup_fmap, Hv).
  destruct (vis_Get_cases _ _ _ _ _ _ _ _ _ Hok (Hval _ _ Hs) Hg) as (Hok' & Hw & Hmono & _ & Hcase).
  assert (Habort : forall d, ch_buf (WriteAbort ch d) <> []).
  { intros d. apply WriteAbort_nonempty. rewrite (vso_cap _ _ _ _ _ Hvs). by eapply size_pos. }
  split.
  - eapply vs_ok_insert; [done..|].
    destruct Hcase as [(_ & -> & _)|[(_ & -> & _)|(d & x & -> & _)]]; [done..|apply WriteAbort_cap].
  - intros Hb.
    destruct Hcase as [(-> & -> & ->)|[(Hk & -> & x & -> & Hx)|(d & x & -> & _)]];
      [| |by destruct (Habort d)]; (split; [done|]; intros o Ho; split; [by eapply agrees_insert|]);
      rewrite fmap_insert, Hw, insert_id by done; cbn [oracle_run]; rewrite Hws; [done|].
    rewrite (proj2 (valid_key_true key) Hk). do 3 f_equal.
    destruct Hx as [->|[-> Hx]]; simpl; [done|].
    eapply (Ho sk v'); [done|by rewrite lookup_insert_eq|done].
Qed.

Lemma write_step_ok stores index incarnation vs ch sk v key (x : option bytes) v' r
    (k : outcome unit -> prog SK R) :
  vs_ok stores index incarnation vs ch -> vs !! sk = Some v -> okv x ->
  vis_Set v key x = (v', r) ->
  vs_ok stores index incarnation (<[sk := v']> vs) ch /\
  forall o, agrees o (<[sk := v']> vs) ->
    agrees o vs /\
    (if AssertValidKey key
     then oracle_run o (<[sk := <[key := x]> (vs_writeset v)]> (vs_writeset <$> vs)) (k (Ok tt))
     else oracle_run o (vs_writeset <$> vs) (k PanicKey)) =
    oracle_run o (vs_writeset <$> <[sk := v']> vs) (k r).
Proof.
  intros Hvs Hv Hx Hset. pose proof (vso_vis _ _ _ _ _ Hvs _ _ Hv) as Hok.
  destruct (vis_Set_ok _ _ _ _ _ _ _ Hok Hx Hset) as (Hok' & Hr & Hcase).
  split; [by eapply vs_ok_insert|]. intros o Ho.
  split; [eapply agrees_insert; [done| |done]; by rewrite Hr|]. rewrite fmap_insert.
  destruct Hcase as [(-> & -> & ->)|(-> & -> & ->)]; [done|].
  by rewrite insert_id by (by rewrite lookup_fmap, Hv).
Qed.

(** One step keeps the run consistent with every oracle that agrees with the
    recorded reads, as long as no abort was sent. *)
Lemma prog_step_ok stores index incarnation vs ch p vs' ch' p' :
  vs_ok stores index incarnation vs ch -> all_values_ok stores -> prog_okv p ->
  prog_step stores vs ch p = Some (vs', ch', p') ->
  vs_ok stores index incarnation vs' ch' /\ prog_okv p' /\
  (ch_buf ch' = [] -> ch_buf ch = [] /\ forall o, agrees o vs' ->
     agrees o vs /\ oracle_run o (vs_writeset <$> vs) p = oracle_run o (vs_writeset <$> vs') p').
Proof.
  intros Hvs Hval Hp. pose proof (vso_dom _ _ _ _ _ Hvs) as Hdom.
  destruct p as [r|sk key k|sk key value k|sk key k]; cbn [prog_step]; [done| | |];
    specialize (Hdom sk); destruct (vs !! sk) as [v|] eqn:Hv.
  - destruct (stores !! sk) as [mv|] eqn:Hs; [|by destruct (proj2 Hdom ltac:(eauto))].
    destruct (vis_Get mv ch v key) as [[v' ch0] r] eqn:Hg. intros [= <- <- <-].
    destruct (read_step_ok _ _ _ _ _ _ _ _ _ _ _ _ k Hvs Hval Hs Hv Hg) as [Hok Hrest].
    split_and!; [done|apply Hp|done].
  - destruct (stores !! sk) as [mv|] eqn:Hs; [by destruct (proj1 Hdom ltac:(eauto))|].
    intros [= <- <- <-]. split_and!; [done|apply Hp|]. intros Hb. split; [done|].
    intros o Ho. split; [done|]. cbn [oracle_run]. by rewrite lookup_fmap, Hv.
  - destruct Hp as [Hx Hp]. destruct (vis_Set v key (Some value)) as [v' r] eqn:Hset.
    intros [= <- <- <-].
    destruct (write_step_ok _ _ _ _ _ _ _ _ _ _ _ k Hvs Hv Hx Hset) as [Hok Hrest].
    split_and!; [done|apply Hp|]. intros Hb. split; [done|]. cbn [oracle_run].
    by rewrite lookup_fmap, Hv.
  - intros [= <- <- <-]. split_and!; [done|apply Hp|]. intros Hb. split; [done|].
    intros o Ho. split; [done|]. cbn [oracle_run]. by rewrite lookup_fmap, Hv.
  - rewrite vis_Delete_Set. destruct (vis_Set v key None) as [v' r] eqn:Hset.
    intros [= <- <- <-].
    destruct (write_step_ok _ _ _ _ _ _ _ _ _ _ _ k Hvs Hv okv_None Hset) as [Hok Hrest].
    split_and!; [done|apply Hp|]. intros Hb. split; [done|]. cbn [oracle_run].
    by rewrite lookup_fmap, Hv.
  - intros [= <- <- <-]. split_and!; [done|apply Hp|]. intros Hb. split; [done|].
    intros o Ho. split; [done|]. cbn [oracle_run]. by rewrite lookup_fmap, Hv.
Qed.

(** ** Whole runs. *)

(** An invariant of the steps holds when the run returns. *)
Lemma run_prog_inv stores (Inv : gmap SK VersionIndexedStore -> abortChannel -> prog SK R -> Prop) :
  (forall vs ch p vs' ch' p',
     Inv vs ch p -> prog_step stores vs ch p = Some (vs', ch', p') -> Inv vs' ch' p') ->
  forall p vs ch, Inv vs ch p ->
  let '(vs', ch', r) := run_prog stores vs ch p in Inv vs' ch' (PRet r).
Proof.
  intros Hstep. induction p as [r|sk key k IH|sk key v k IH|sk key k IH]; intros vs ch Hinv;
    cbn [run_prog]; [done| | |];
    pose proof (fun vs' ch' p' => Hstep vs ch _ vs' ch' p' Hinv) as Hs; cbn [prog_step] in Hs.
  - destruct (stores !! sk) as [mv|], (vs !! sk) as [w|]; try (apply IH; by apply Hs).
    destruct (vis_Get mv ch w key) as [[w' ch0] r]. apply IH. by apply Hs.
  - destruct (vs !! sk) as [w|]; [|apply IH; by apply Hs].
    destruct (vis_Set w key (Some v)) as [w' r]. apply IH. by apply Hs.
  - destruct (vs !! sk) as [w|]; [|apply IH; by apply Hs].
    destruct (vis_Delete w key) as [w' r]. apply IH. by apply Hs.
Qed.

(** The recorded reads are the values the stores resolve to. *)
Definition reads_resolved (stores : gmap SK (Store T P)) (index : Z) vs : Prop :=
  forall sk mv v key x, stores !! sk = Some mv -> vs !! sk = Some v ->
    vs_readset v !! key = Some [x] -> resolve mv index key = Some x.

Definition no_estimates (stores : gmap SK (Store T P)) (index : Z) : Prop :=
  forall sk mv key i x, stores !! sk = Some mv -> version mv key i = Some x -> i < index ->
    IsEstimate x = false.

Lemma reads_resolved_insert stores index vs sk v v' :
  reads_resolved stores index vs -> vs !! sk = Some v ->
  (forall mv k x, stores !! sk = Some mv -> vs_readset v' !! k = Some [x] ->
     vs_readset v !! k = Some [x] \/ resolve mv index k = Some x) ->
  reads_resolved stores index (<[sk := v']> vs).
Proof.
  intros Hres Hv Hnew sk' mv w key x Hs Hw Hx. destruct (decide (sk' = sk)) as [->|Hne].
  - rewrite lookup_insert_eq in Hw. simplify_eq. destruct (Hnew _ _ _ Hs Hx); eauto.
  - rewrite lookup_insert_ne in Hw by done. eauto.
Qed.

(** Without estimates below the index no abort is sent and every recorded read
    is the value the stores resolve to. *)
Lemma prog_step_resolved stores index incarnation vs ch p vs' ch' p' :
  vs_ok stores index incarnation vs ch -> all_values_ok stores -> no_estimates stores index ->
  reads_resolved stores index vs ->
  prog_step stores vs ch p = Some (vs', ch', p') ->
  ch' = ch /\ reads_resolved stores index vs'.
Proof.
  intros Hvs Hval Hest Hres.
  destruct p as [r|sk key k|sk key value k|sk key k]; cbn [prog_step]; [done| | |];
    destruct (vs !! sk) as [v|] eqn:Hv.
  - destruct (stores !! sk) as [mv|] eqn:Hs; [|by intros [= <- <- <-]].
    destruct (vis_Get mv ch v key) as [[v' ch0] r] eqn:Hg. intros [= <- <- <-].
    destruct (vis_Get_cases _ _ _ _ _ _ _ _ _ (vso_vis _ _ _ _ _ Hvs _ _ Hv) (Hval _ _ Hs) Hg)
      as (_ & _ & _ & Hnew & Hcase). split.
    + destruct Hcase as [(_ & -> & _)|[(_ & -> & _)|(d & x & _ & Hx & He)]]; [done..|].
      apply GetLatestBeforeIndex_version in Hx as (Hx & Hi & _).
      rewrite (Hest _ _ _ _ _ Hs Hx Hi) in He. done.
    + eapply reads_resolved_insert; [done..|]. intros mv' k' x Hmv'. simplify_eq. apply Hnew.
  - destruct (stores !! sk) as [mv|]; by intros [= <- <- <-].
  - unfold vis_Set, setValue. destruct (AssertValidKey key); intros [= <- <- <-]; (split; [done|]);
      (eapply reads_resolved_insert; [done..|]); by left.
  - by intros [= <- <- <-].
  - unfold vis_Delete, setValue. destruct (AssertValidKey key); intros [= <- <- <-]; (split; [done|]);
      (eapply reads_resolved_insert; [done..|]); by left.
  - by intros [= <- <- <-].
Qed.
End Runs.
