(* ===== verification/SchedulerInv.v ===== *)
(** The invariants of the scheduler's state and the frame lemmas of the
    operations that change the multi-version stores: a task only ever changes the
    entries of its own index. *)
From stdpp Require Import base gmap sets list sorting relations.
From Stdlib Require Import ZArith Lia.
From S2P Require Import Prelude KVStore MVItem MVStore MVKV Scheduler SchedulerRuns.
Open Scope Z_scope.

Section Inv.
Context {SK R T P M : Type} `{Countable SK} `{!BTree T, !BTreeLaws T}
  `{!KVStore P, !KVStoreLaws P} `{!MemDB M}.
Abbreviation task := (deliverTxTask SK R).
Abbreviation stores_t := (gmap SK (Store T P)).
Implicit Types (stores st : stores_t) (t : task) (tasks : list task).

(** The block: the parent stores and the requests, with their indices increasing. *)
Variables (parents : gmap SK P) (reqs : list (Z * prog SK R)).
Variable okv : option bytes -> Prop.
Hypothesis okv_None : okv None.
Hypothesis parents_ok : forall sk q key, parents !! sk = Some q -> okv (kv_Get q key).
Hypothesis reqs_ok : forall i p, (i, p) ∈ reqs -> prog_okv okv p.
Hypothesis reqs_sorted : StronglySorted Z.lt reqs.*1.

(** ** Frames. *)

(** The two stores hold the same at index [i]. *)
Definition same_at (i : Z) (mv mv' : Store T P) : Prop :=
  (forall key, version mv key i = version mv' key i) /\
  txReadSets mv !! i = txReadSets mv' !! i /\
  parentStore mv = parentStore mv'.

Definition stores_same_at (i : Z) stores st : Prop :=
  forall sk, option_Forall2 (same_at i) (stores !! sk) (st !! sk).

Lemma same_at_refl i mv : same_at i mv mv.
Proof. by split_and!. Qed.

Lemma stores_same_at_refl i stores : stores_same_at i stores stores.
Proof. intros sk. destruct (stores !! sk); constructor. apply same_at_refl. Qed.

Lemma same_at_trans i mv1 mv2 mv3 : same_at i mv1 mv2 -> same_at i mv2 mv3 -> same_at i mv1 mv3.
Proof. intros (? & ? & ?) (? & ? & ?). split_and!; intros; etrans; eauto. Qed.

Lemma stores_same_at_trans i st1 st2 st3 :
  stores_same_at i st1 st2 -> stores_same_at i st2 st3 -> stores_same_at i st1 st3.
Proof.
  intros H1 H2 sk. specialize (H1 sk). specialize (H2 sk). destruct H1; inversion H2; subst;
    constructor. by eapply same_at_trans.
Qed.

Lemma stores_same_at_lookup i stores st sk mv' :
  stores_same_at i stores st -> st !! sk = Some mv' ->
  exists mv, stores !! sk = Some mv /\ same_at i mv mv'.
Proof. intros Hs Hsk. specialize (Hs sk). rewrite Hsk in Hs. inversion Hs; subst; eauto. Qed.

(** ** Well-formed stores. *)
Record store_ok (sk : SK) (mv : Store T P) : Prop := {
  so_wf : mv_wf mv;
  so_parent : parents !! sk = Some (parentStore mv);
  so_indices : forall key i x, version mv key i = Some x -> i ∈ reqs.*1;
  so_values : forall key i x, version mv key i = Some x -> okv (vi_value x);
  so_iterators : forall i l, txIterateSets mv !! i = Some l -> l = []
}.

Record stores_ok stores : Prop := {
  sso_dom : forall sk, is_Some (stores !! sk) <-> is_Some (parents !! sk);
  sso_store : forall sk mv, stores !! sk = Some mv -> store_ok sk mv
}.

Lemma stores_ok_values stores : stores_ok stores -> all_values_ok okv stores.
Proof.
  intros Hok sk mv Hsk. pose proof (sso_store _ Hok _ _ Hsk) as Hmv. split; [apply Hmv|].
  intros key. eapply parents_ok, Hmv.
Qed.

Lemma stores_ok_insert stores sk mv mv' :
  stores_ok stores -> stores !! sk = Some mv -> store_ok sk mv' ->
  stores_ok (<[sk := mv']> stores).
Proof.
  intros [Hd Hs] Hsk Hmv'. split.
  - intros sk'. rewrite <- Hd. destruct (decide (sk' = sk)) as [->|Hne];
      [rewrite lookup_insert_eq, Hsk|by rewrite lookup_insert_ne by done]. by split; eauto.
  - intros sk' mv0. destruct (decide (sk' = sk)) as [->|Hne];
      [rewrite lookup_insert_eq; by intros [= <-]|rewrite lookup_insert_ne by done; eauto].
Qed.

(** ** The operations on one store. *)
Lemma write_store_same index incarnation estimates v mv i :
  mv_wf mv -> vis_ok okv index incarnation v -> i <> index ->
  same_at i mv (write_store estimates v mv).
Proof.
  intros Hwf Hv Hi. unfold write_store, WriteEstimatesToMultiVersionStore, WriteToMultiVersionStore.
  rewrite (vo_index _ _ _ _ Hv). destruct estimates; split_and!; simpl.
  - intros key. rewrite SetEstimatedWriteset_version by done. by rewrite decide_False.
  - by destruct (removeOldWriteset_rest mv index (Some (vs_writeset v))) as (_ & -> & _).
  - by destruct (removeOldWriteset_rest mv index (Some (vs_writeset v))) as (-> & _).
  - intros key. change (version (SetIterateset _ _ _) key i)
      with (version (SetWriteset mv index (vs_incarnation v) (vs_writeset v)) key i).
    rewrite SetWriteset_version by done. by rewrite decide_False.
  - rewrite lookup_insert_ne by done.
    by destruct (removeOldWriteset_rest mv index (Some (vs_writeset v))) as (_ & -> & _).
  - by destruct (removeOldWriteset_rest mv index (Some (vs_writeset v))) as (-> & _).
Qed.

Lemma write_store_ok sk index incarnation estimates v mv :
  store_ok sk mv -> vis_ok okv index incarnation v -> index ∈ reqs.*1 ->
  store_ok sk (write_store estimates v mv).
Proof.
  intros Hmv Hv Hin. pose proof (so_wf _ _ Hmv) as Hwf. pose proof (vo_index _ _ _ _ Hv) as Hi.
  unfold write_store, WriteEstimatesToMultiVersionStore, WriteToMultiVersionStore.
  destruct (removeOldWriteset_rest mv index (Some (vs_writeset v))) as (Hp & Hr & Hit).
  rewrite Hi. destruct estimates; split.
  - apply mv_wf_SetEstimatedWriteset; [apply Hv|done].
  - simpl. rewrite Hp. apply Hmv.
  - intros key i x. rewrite SetEstimatedWriteset_version by done.
    case_decide; [by subst|apply Hmv].
  - intros key i x. rewrite SetEstimatedWriteset_version by done.
    case_decide; [|apply Hmv]. destruct (_ !! key); simpl; [by intros [= <-]|done].
  - simpl. rewrite Hit. apply Hmv.
  - destruct (mv_wf_SetWriteset mv index (vs_incarnation v) (vs_writeset v)
      (vo_keys _ _ _ _ Hv) Hwf) as [Hw1 Hw2]. by split.
  - simpl. rewrite Hp. apply Hmv.
  - intros key i x Hx. change (version (SetWriteset mv index (vs_incarnation v) (vs_writeset v)) key i
      = Some x) in Hx. rewrite SetWriteset_version in Hx by done.
    case_decide; [by subst|by eapply Hmv].
  - intros key i x Hx. change (version (SetWriteset mv index (vs_incarnation v) (vs_writeset v)) key i
      = Some x) in Hx. rewrite SetWriteset_version in Hx by done.
    case_decide; [|by eapply Hmv]. destruct (_ !! key) eqn:Hk; simplify_eq/=.
    by eapply (vo_writes _ _ _ _ Hv).
  - simpl. intros i l. destruct (decide (i = index)) as [->|Hne].
    + rewrite lookup_insert_eq. intros [= <-]. apply Hv.
    + rewrite lookup_insert_ne, Hit by done. apply Hmv.
Qed.

Lemma invalidate_store_same index incarnation mv i :
  i <> index -> same_at i mv (invalidate_store index incarnation mv).
Proof.
  intros Hi. destruct (InvalidateWriteset_rest mv index incarnation) as (Hp & Hr & _).
  split_and!; [|simpl; by rewrite lookup_delete_ne, Hr|simpl; done].
  intros key. change (version (invalidate_store _ _ _) key i)
    with (version (InvalidateWriteset mv index incarnation) key i).
  by rewrite InvalidateWriteset_version_ne.
Qed.

Lemma invalidate_store_ok sk index incarnation mv :
  store_ok sk mv -> index ∈ reqs.*1 -> store_ok sk (invalidate_store index incarnation mv).
Proof.
  intros Hmv Hin. pose proof (so_wf _ _ Hmv) as Hwf.
  destruct (InvalidateWriteset_rest mv index incarnation) as (Hp & Hr & Hit).
  assert (Hver : forall key i x, version (invalidate_store index incarnation mv) key i = Some x ->
    (i = index /\ x = NewEstimateItem index incarnation) \/ version mv key i = Some x).
  { intros key i x. change (version (invalidate_store index incarnation mv) key i)
      with (version (InvalidateWriteset mv index incarnation) key i).
    destruct (decide (i = index)) as [->|Hne].
    - destruct (InvalidateWriteset_version_eq mv index incarnation key Hwf) as [->| ->]; naive_solver.
    - rewrite InvalidateWriteset_version_ne by done. auto. }
  split.
  - destruct (mv_wf_InvalidateWriteset mv index incarnation Hwf) as [Hw1 Hw2]. by split.
  - simpl. rewrite Hp. apply Hmv.
  - intros key i x [[-> _]|Hx]%Hver; [done|by eapply Hmv].
  - intros key i x [[_ ->]|Hx]%Hver; [done|by eapply Hmv].
  - simpl. intros i l. rewrite lookup_delete. case_decide; [done|]. rewrite Hit. apply Hmv.
Qed.

(** The loops over all the stores. *)
Lemma invalidateTask_ok stores t :
  stores_ok stores -> AbsoluteIndex t ∈ reqs.*1 -> stores_ok (invalidateTask stores t).
Proof.
  intros [Hd Hs] Hin. split; intros sk; unfold invalidateTask; rewrite lookup_fmap.
  - rewrite fmap_is_Some. apply Hd.
  - intros mv. destruct (stores !! sk) eqn:Hsk; [|done]. intros [= <-]. apply invalidate_store_ok; eauto.
Qed.

Lemma invalidateTask_same stores t i :
  i <> AbsoluteIndex t -> stores_same_at i stores (invalidateTask stores t).
Proof.
  intros Hi sk. unfold invalidateTask. rewrite lookup_fmap.
  destruct (stores !! sk); constructor. by apply invalidate_store_same.
Qed.

Lemma write_stores_lookup estimates vs stores sk :
  write_stores estimates vs stores !! sk =
  (fun mv => match vs !! sk with Some v => write_store estimates v mv | None => mv end) <$> stores !! sk.
Proof. unfold write_stores. rewrite map_lookup_imap. by destruct (stores !! sk). Qed.

Lemma write_stores_ok estimates vs ch stores index incarnation :
  stores_ok stores -> vs_ok okv stores index incarnation vs ch -> index ∈ reqs.*1 ->
  stores_ok (write_stores estimates vs stores).
Proof.
  intros [Hd Hs] Hvs Hin. split; intros sk; rewrite write_stores_lookup.
  - rewrite fmap_is_Some. apply Hd.
  - intros mv. destruct (stores !! sk) eqn:Hsk; [|done]. intros [= <-].
    destruct (vs !! sk) eqn:Hv; [|eauto]. eapply write_store_ok; eauto. by eapply vso_vis.
Qed.

Lemma write_stores_same estimates vs ch stores index incarnation i :
  stores_ok stores -> vs_ok okv stores index incarnation vs ch -> i <> index ->
  stores_same_at i stores (write_stores estimates vs stores).
Proof.
  intros Hok Hvs Hi sk. rewrite write_stores_lookup.
  destruct (stores !! sk) as [mv|] eqn:Hsk; constructor.
  destruct (vs !! sk) eqn:Hv; [|apply same_at_refl]. eapply write_store_same; [|by eapply vso_vis|done].
  eapply so_wf. by apply (sso_store _ Hok).
Qed.

(** ** Validation of a task against the stores. *)

(** Every store validates the reads recorded at [index], without conflicts. *)
Definition validated_at stores (index : Z) : Prop :=
  forall sk mv, stores !! sk = Some mv ->
    exists ks, ValidateTransactionStateWithKeys (M := M) mv index = (true, [], ks).

Lemma add_conflicts_nil (mvConflicts conflicts : list Z) :
  fold_left (fun cs c => if bool_decide (c ∈ cs) then cs else cs ++ [c]) mvConflicts conflicts = [] <->
  mvConflicts = [] /\ conflicts = [].
Proof.
  revert conflicts. induction mvConflicts as [|c cs IH]; intros conflicts; simpl; [naive_solver|].
  rewrite IH. split; [|naive_solver]. intros [_ Hc]. exfalso. case_bool_decide as Hb.
  - subst. by apply elem_of_nil in Hb.
  - by destruct conflicts.
Qed.

Lemma find_conflicts_fold t (l : list (SK * Store T P)) acc :
  let res := fold_left (find_conflicts_store (M := M) t) l acc in
  (res.1.1 = true /\ res.1.2 = []) <->
  (acc.1.1 = true /\ acc.1.2 = [] /\
   Forall (fun e => exists ks,
     ValidateTransactionStateWithKeys (M := M) e.2 (AbsoluteIndex t) = (true, [], ks)) l).
Proof.
  simpl. revert acc. induction l as [|[sk mv] l IH]; intros [[valid conflicts] keys]; simpl.
  - rewrite Forall_nil. tauto.
  - rewrite IH, Forall_cons. simpl.
    destruct (ValidateTransactionStateWithKeys mv (AbsoluteIndex t)) as [[ok cs] ks]. simpl.
    rewrite add_conflicts_nil, andb_true_iff. split.
    + intros ([-> ->] & [-> ->] & Hf). split_and!; eauto.
    + intros (-> & -> & [ks' [= -> -> ->]] & Hf). by split_and!.
Qed.

Lemma merge_sort_nil (l : list Z) : merge_sort Z.le l = [] <-> l = [].
Proof.
  split; [|by intros ->]. intros Hm. apply Permutation_nil. rewrite <- Hm.
  apply merge_sort_Permutation.
Qed.

Lemma findConflicts_validated stores t :
  (exists keys, findConflicts (M := M) stores t = (true, [], keys)) <->
  validated_at stores (AbsoluteIndex t).
Proof.
  unfold findConflicts, validated_at.
  destruct (find_conflicts_fold t (map_to_list stores) (true, [], [])) as [H1 H2].
  simpl in H1, H2.
  destruct (fold_left _ (map_to_list stores) (true, [], [])) as [[valid conflicts] keys]. simpl in *.
  setoid_rewrite <- elem_of_map_to_list. rewrite Forall_forall in H1, H2. split.
  - intros [keys' [= -> Hm ->]] sk mv Hin. rewrite merge_sort_nil in Hm.
    destruct H1 as (_ & _ & Hf); [done|]. by apply (Hf (sk, mv)).
  - intros Hall. destruct H2 as [-> ->]; [split_and!; [done..|]; intros [sk mv] Hin; eauto|].
    by exists keys.
Qed.

Lemma checkIterator_ok sk mv index :
  store_ok sk mv -> checkIteratorAtIndex (M := M) mv index = true.
Proof.
  intros Hmv. unfold checkIteratorAtIndex. destruct (txIterateSets mv !! index) as [l|] eqn:Hl; [|done].
  by rewrite (so_iterators _ _ Hmv _ _ Hl).
Qed.

Lemma Validate_readset sk mv index :
  store_ok sk mv -> ValidateTransactionStateWithKeys (M := M) mv index = checkReadsetAtIndex mv index.
Proof.
  intros Hmv. unfold ValidateTransactionStateWithKeys. rewrite (checkIterator_ok sk) by done.
  by destruct (checkReadsetAtIndex mv index) as [[? ?] ?].
Qed.

(** Changes at higher indices do not disturb a validation. *)
Lemma validated_at_stable stores st index :
  stores_ok stores -> stores_ok st ->
  (forall i, i <= index -> stores_same_at i stores st) ->
  validated_at stores index -> validated_at st index.
Proof.
  intros Hs Hs' Hsame Hval sk mv' Hsk'.
  destruct (stores_same_at_lookup index stores st sk mv' (Hsame index ltac:(lia)) Hsk')
    as (mv & Hsk & _ & Hr & Hp).
  destruct (Hval _ _ Hsk) as [ks Hks]. exists ks.
  rewrite (Validate_readset sk) in Hks |- * by eauto using sso_store.
  rewrite <- Hks. symmetry. apply checkReadsetAtIndex_local; [done..|].
  intros key j Hj. destruct (stores_same_at_lookup j stores st sk mv' (Hsame j ltac:(lia)) Hsk')
    as (mv2 & Hsk2 & Hv & _). simplify_eq. apply Hv.
Qed.

(** ** Tasks whose execution is recorded in the stores. *)
Definition empty_writes (vs : gmap SK VersionIndexedStore) : gmap SK WriteSet := (fun _ => ∅) <$> vs.

(** The response and the writes are those of a run whose reads are the recorded ones. *)
Definition consistent (p : prog SK R) (vs : gmap SK VersionIndexedStore) (r : R) : Prop :=
  forall o, agrees o vs -> oracle_run o (empty_writes vs) p = (vs_writeset <$> vs, r).

Definition written_at (index incarnation : Z) (v : VersionIndexedStore) (mv : Store T P) : Prop :=
  (forall key, version mv key index =
     (fun w => mkValueItem index incarnation w false) <$> vs_writeset v !! key) /\
  txReadSets mv !! index = Some (vs_readset v).

Record task_done stores t (todo : gset SK) : Prop := {
  td_vs : vs_ok okv stores (AbsoluteIndex t) (Incarnation t) (VersionStores t) (AbortCh t);
  td_run : exists r, Response t = Some r /\ consistent (Tx t) (VersionStores t) r;
  td_written : forall sk v mv, sk ∉ todo -> VersionStores t !! sk = Some v -> stores !! sk = Some mv ->
    written_at (AbsoluteIndex t) (Incarnation t) v mv
}.

Lemma vs_ok_stores stores st index incarnation vs ch i :
  stores_same_at i stores st ->
  vs_ok okv stores index incarnation vs ch -> vs_ok okv st index incarnation vs ch.
Proof.
  intros Hsame [Hd Hv Hc].
  assert (Hdom : forall sk, is_Some (stores !! sk) <-> is_Some (st !! sk)).
  { intros sk. specialize (Hsame sk). destruct Hsame; split; eauto using is_Some_None. }
  split; [intros sk; by rewrite <- Hdom|done|]. rewrite Hc.
  rewrite <- !size_dom. f_equal. apply set_eq. intros sk. by rewrite !elem_of_dom.
Qed.

Lemma task_done_stable stores st t todo :
  stores_same_at (AbsoluteIndex t) stores st -> task_done stores t todo -> task_done st t todo.
Proof.
  intros Hsame [Hvs Hrun Hw]. split; [by eapply vs_ok_stores|done|].
  intros sk v mv' Hsk Hv Hsk'.
  destruct (stores_same_at_lookup _ _ _ _ _ Hsame Hsk') as (mv & Hmv & Hver & Hr & _).
  destruct (Hw sk v mv Hsk Hv Hmv) as [H1 H2]. split; [|congruence].
  intros key. by rewrite <- Hver.
Qed.

(** A written store holds exactly the writes and reads of the version store. *)
Lemma write_store_written index incarnation v mv :
  mv_wf mv -> vis_ok okv index incarnation v ->
  written_at index incarnation v (write_store false v mv).
Proof.
  intros Hwf Hv. unfold write_store, WriteToMultiVersionStore.
  rewrite (vo_index _ _ _ _ Hv), (vo_incarnation _ _ _ _ Hv). split; [|simpl; by rewrite lookup_insert_eq].
  intros key. change (version (SetIterateset _ _ _) key index)
    with (version (SetWriteset mv index incarnation (vs_writeset v)) key index).
  rewrite SetWriteset_version by done. by rewrite decide_True.
Qed.

(** ** The tasks of the block. *)
Definition tasks_ok tasks : Prop := (fun t => (AbsoluteIndex t, Tx t)) <$> tasks = reqs.

Lemma tasks_ok_insert tasks pos t t' :
  tasks_ok tasks -> tasks !! pos = Some t ->
  AbsoluteIndex t' = AbsoluteIndex t -> Tx t' = Tx t -> tasks_ok (<[pos := t']> tasks).
Proof.
  unfold tasks_ok. intros Ht Hpos Hi Hx. rewrite list_fmap_insert, Hi, Hx, <- Ht.
  apply list_insert_id. by rewrite list_lookup_fmap, Hpos.
Qed.

Lemma tasks_ok_lookup tasks pos t :
  tasks_ok tasks -> tasks !! pos = Some t -> reqs !! pos = Some (AbsoluteIndex t, Tx t).
Proof. intros Ht Hpos. rewrite <- Ht. by rewrite list_lookup_fmap, Hpos. Qed.

Lemma tasks_ok_index tasks pos t :
  tasks_ok tasks -> tasks !! pos = Some t -> AbsoluteIndex t ∈ reqs.*1.
Proof.
  intros Ht Hpos. eapply list_elem_of_lookup_2 with (i := pos).
  by rewrite list_lookup_fmap, (tasks_ok_lookup _ _ _ Ht Hpos).
Qed.

Lemma tasks_ok_prog tasks pos t :
  tasks_ok tasks -> tasks !! pos = Some t -> prog_okv okv (Tx t).
Proof.
  intros Ht Hpos. eapply reqs_ok, list_elem_of_lookup_2. by eapply tasks_ok_lookup.
Qed.

Lemma sorted_lookup_lt (l : list Z) i j x y :
  StronglySorted Z.lt l -> l !! i = Some x -> l !! j = Some y -> (i < j)%nat -> x < y.
Proof.
  intros Hs. revert i j. induction Hs as [|z l Hl IH Hz]; intros i j Hi Hj Hij; [done|].
  destruct j as [|j]; [lia|]. simpl in Hj. destruct i as [|i]; simpl in Hi.
  - simplify_eq. rewrite Forall_forall in Hz. apply Hz. by eapply list_elem_of_lookup_2.
  - eapply IH; [done..|lia].
Qed.

Lemma index_lt tasks i j ti tj :
  tasks_ok tasks -> tasks !! i = Some ti -> tasks !! j = Some tj -> (i < j)%nat ->
  AbsoluteIndex ti < AbsoluteIndex tj.
Proof.
  intros Ht Hi Hj Hij. eapply (sorted_lookup_lt reqs.*1 i j); [done| | |done];
    rewrite list_lookup_fmap; by erewrite tasks_ok_lookup.
Qed.

Lemma index_ne tasks i j ti tj :
  tasks_ok tasks -> tasks !! i = Some ti -> tasks !! j = Some tj -> i <> j ->
  AbsoluteIndex ti <> AbsoluteIndex tj.
Proof.
  intros Ht Hi Hj Hij. destruct (decide (i < j)%nat).
  - pose proof (index_lt tasks i j ti tj Ht Hi Hj ltac:(lia)). lia.
  - pose proof (index_lt tasks j i tj ti Ht Hj Hi ltac:(lia)). lia.
Qed.

Lemma index_position tasks i :
  tasks_ok tasks -> i ∈ reqs.*1 -> exists pos t, tasks !! pos = Some t /\ AbsoluteIndex t = i.
Proof.
  intros Ht Hin. apply list_elem_of_lookup in Hin as [pos Hpos]. rewrite list_lookup_fmap in Hpos.
  rewrite <- Ht in Hpos. rewrite list_lookup_fmap in Hpos.
  destruct (tasks !! pos) as [t|] eqn:Htp; simplify_eq/=. by exists pos, t.
Qed.
End Inv.
