(* ===== verification/SchedulerSeq.v ===== *)
(** One schedule of the goroutines: one task after the other.  It shows that the
    step relations of the phases admit the functions [executeTask] and
    [validate_one], and gives runs of [ProcessAll] that evaluate. *)
From stdpp Require Import base gmap sets list sorting relations.
From Stdlib Require Import ZArith Lia.
From S2P Require Import Prelude KVStore MVItem MVStore MVKV Scheduler SchedulerRuns SchedulerInv.
Open Scope Z_scope.

Section Seq.
Context {SK R T P M : Type} `{Countable SK} `{!BTree T, !KVStore P, !MemDB M}.
Abbreviation task := (deliverTxTask SK R).
Abbreviation stores_t := (gmap SK (Store T P)).
Abbreviation sched_t := (@sched SK R T P _ _).
Implicit Types (stores st : stores_t) (t : task) (tasks : list task) (s : sched_t).

(** ** Execution. *)
Lemma put_task_twice s pos t t' : put_task (put_task s pos t) pos t' = put_task s pos t'.
Proof. unfold put_task. simpl. by rewrite list_insert_insert_eq. Qed.

Lemma put_task_id s pos t : sc_tasks s !! pos = Some t -> put_task s pos t = s.
Proof. intros Ht. destruct s. unfold put_task. simpl in *. by rewrite list_insert_id. Qed.

Lemma put_task_lookup s pos t t' :
  sc_tasks s !! pos = Some t -> sc_tasks (put_task s pos t') !! pos = Some t'.
Proof. intros Ht. simpl. apply list_lookup_insert_eq. by eapply lookup_lt_Some. Qed.

(** The operations of a running task, up to its response. *)
Lemma run_prog_steps todo threads s pos t0 t p vs ch :
  sc_tasks s !! pos = Some t0 -> dom vs = dom (sc_stores s) ->
  let '(vs', ch', r) := run_prog (sc_stores s) vs ch p in
  dom vs' = dom (sc_stores s) /\
  rtc exec_step
    (mkExec (put_task s pos (with_stores t vs ch)) todo (<[pos := ERunning p]> threads))
    (mkExec (put_task s pos (with_stores t vs' ch')) todo (<[pos := ERunning (PRet r)]> threads)).
Proof.
  intros Ht Hdom. set (c0 := mkExec _ _ _).
  apply (run_prog_inv (sc_stores s) (fun vs' ch' p' => dom vs' = dom (sc_stores s) /\
    rtc exec_step c0
      (mkExec (put_task s pos (with_stores t vs' ch')) todo (<[pos := ERunning p']> threads))));
    [|by split; [|constructor]].
  intros vs0 ch0 p0 vs1 ch1 p1 [Hd Hc] Hp. split.
  - rewrite <- Hd. destruct p0 as [|sk key k|sk key v k|sk key k]; cbn [prog_step] in Hp; [done|..];
      repeat case_match; simplify_eq; rewrite ?dom_insert_lookup_L; eauto.
  - eapply rtc_r; [exact Hc|].
    rewrite <- (put_task_twice s pos (with_stores t vs0 ch0) (with_stores t vs1 ch1)).
    rewrite <- (insert_insert_eq threads pos (ERunning p1) (ERunning p0)).
    change (with_stores t vs1 ch1) with (with_stores (with_stores t vs0 ch0) vs1 ch1).
    eapply exec_op; [apply lookup_insert_eq|by eapply put_task_lookup|done].
Qed.

(** The writes of a finished task, store by store. *)
Lemma write_steps estimates todo_sk todo threads s pos t st :
  sc_tasks s !! pos = Some t -> todo_sk ⊆ dom (VersionStores t) ->
  dom (VersionStores t) = dom (sc_stores s) ->
  (forall sk, st !! sk = if decide (sk ∈ todo_sk)
     then (fun mv => match VersionStores t !! sk with
                     | Some v => write_store estimates v mv | None => mv end) <$> sc_stores s !! sk
     else sc_stores s !! sk) ->
  rtc exec_step (mkExec s todo (<[pos := EWriting estimates todo_sk]> threads))
    (mkExec (put_stores s st) todo (<[pos := EWriting estimates ∅]> threads)).
Proof.
  revert s. induction todo_sk as [|sk todo_sk Hsk IH] using set_ind_L; intros s Ht Hsub Hdom Hst.
  - replace st with (sc_stores s); [by destruct s; constructor|]. apply map_eq. intros sk.
    rewrite Hst, decide_False by set_solver. done.
  - assert (Hin : sk ∈ dom (VersionStores t)) by set_solver.
    apply elem_of_dom in Hin as [v Hv].
    assert (Hin : sk ∈ dom (sc_stores s)) by (rewrite <- Hdom; by apply elem_of_dom).
    apply elem_of_dom in Hin as [mv Hmv].
    eapply rtc_l; [by eapply (exec_write _ _ pos _ t estimates _ sk v mv); [apply lookup_insert_eq|set_solver|..]|].
    rewrite insert_insert_eq. replace (({[sk]} ∪ todo_sk) ∖ {[sk]}) with todo_sk by set_solver.
    change (put_stores s st) with (put_stores (put_stores s (<[sk := write_store estimates v mv]> (sc_stores s))) st).
    apply IH; simpl; [done|set_solver| |].
    + rewrite dom_insert_lookup_L; eauto.
    + intros sk'. rewrite Hst. destruct (decide (sk' = sk)) as [->|Hne].
      * rewrite decide_True, decide_False, lookup_insert_eq, Hmv by set_solver. simpl. by rewrite Hv.
      * rewrite lookup_insert_ne by done. repeat case_decide; set_solver.
Qed.

Lemma executeTask_steps s pre pos post :
  sc_synchronous s = false -> (pos < length (sc_tasks s))%nat ->
  rtc exec_step (mkExec s (pre ++ pos :: post) ∅) (mkExec (executeTask s pos) (pre ++ post) ∅).
Proof.
  intros Hsy [t Ht]%lookup_lt_is_Some_2. unfold executeTask. rewrite Ht, Hsy. cbn [andb].
  rewrite Hsy. cbn [andb].
  eapply rtc_l; [eapply (exec_start s pre pos post ∅ t); [apply lookup_empty|done]|].
  set (t1 := prepareTask (sc_stores s) t).
  pose proof (run_prog_steps (pre ++ post) ∅ s pos t t1 (Tx t) (VersionStores t1) (AbortCh t1) Ht) as Hrun.
  change (Tx t1) with (Tx t). destruct (run_prog _ _ _ _) as [[vs ch] resp].
  destruct Hrun as [Hdom Hrun]; [apply dom_fmap_L|]. etrans; [exact Hrun|].
  destruct (finish_task (with_stores t1 vs ch) resp) as [t2 estimates] eqn:Hfin.
  eapply rtc_l; [eapply (exec_finish _ _ pos); [apply lookup_insert_eq|by eapply put_task_lookup|done]|].
  rewrite insert_insert_eq, put_task_twice.
  assert (Hvs : VersionStores t2 = vs).
  { unfold finish_task in Hfin. by destruct (ch_buf _); simplify_eq. }
  etrans; [eapply (write_steps estimates (dom vs) (pre ++ post) ∅ (put_task s pos t2) pos t2
    (write_stores estimates vs (sc_stores s)))|].
  - by eapply put_task_lookup.
  - by rewrite Hvs.
  - by rewrite Hvs.
  - intros sk. rewrite write_stores_lookup, Hvs. simpl. case_decide as Hin; [done|].
    rewrite not_elem_of_dom in Hin. rewrite Hin. by destruct (sc_stores s !! sk).
  - eapply rtc_l; [eapply (exec_done _ _ pos); apply lookup_insert_eq|].
    rewrite delete_insert_eq, delete_empty. done.
Qed.

Lemma executeTask_keeps s pos :
  sc_synchronous (executeTask s pos) = sc_synchronous s /\
  length (sc_tasks (executeTask s pos)) = length (sc_tasks s).
Proof.
  unfold executeTask. destruct (sc_tasks s !! pos) as [t|]; [|done]. cbv zeta.
  set (s1 := if sc_synchronous s && _ then _ else _).
  assert (Hs1 : sc_synchronous s1 = sc_synchronous s /\ sc_tasks s1 = sc_tasks s).
  { unfold s1. by destruct (_ && _). }
  destruct (run_prog _ _ _ _) as [[vs ch] resp]. destruct (finish_task _ _) as [t2 estimates]. simpl.
  destruct Hs1 as [Hsy Htk]. by rewrite length_insert, Htk.
Qed.

(** Executing the tasks one by one, in any order, is a schedule of [executeAll]. *)
Lemma executeAll_order s toExecute order :
  sc_synchronous s = false -> Forall (fun pos => (pos < length (sc_tasks s))%nat) toExecute ->
  order ≡ₚ toExecute ->
  executeAll_conc s toExecute (fold_left executeTask order s).
Proof.
  unfold executeAll_conc. revert s toExecute.
  induction order as [|pos rest IH]; intros s toExecute Hsy Hall Hperm; simpl.
  { apply Permutation_nil_l in Hperm. subst. constructor. }
  destruct (list_elem_of_split toExecute pos) as (pre & post & ->); [rewrite <- Hperm; set_solver|].
  rewrite <- Permutation_middle in Hperm, Hall. apply Permutation_cons_inv in Hperm.
  apply Forall_cons in Hall as [Hpos Hall]. destruct (executeTask_keeps s pos) as [Hsy' Hlen'].
  etrans; [by apply executeTask_steps|]. apply IH; [congruence|by rewrite Hlen'|done].
Qed.

Lemma executeAll_sequential s toExecute :
  sc_synchronous s = false -> Forall (fun pos => (pos < length (sc_tasks s))%nat) toExecute ->
  executeAll_conc s toExecute (fold_left executeTask toExecute s).
Proof. intros. by apply executeAll_order. Qed.

(** ** Validation. *)
Lemma validate_finished_steps s pos rest res t s' r :
  sc_tasks s !! pos = Some t -> Status t = statusExecuted \/ Status t = statusValidated ->
  validate_one (M := M) s pos = Some (s', r) ->
  rtc (val_step (M := M)) (mkVal s (pos :: rest) ∅ res) (mkVal s' rest ∅ (res ++ r)).
Proof.
  intros Ht Hs Hone. destruct (findConflicts (M := M) (sc_stores s) t) as [[valid conflicts] keys] eqn:Hf.
  eapply rtc_l; [by eapply (val_check s [] pos rest); [apply lookup_empty|..]|]. cbn [app].
  set (t1 := AppendDependencies t conflicts).
  set (s1 := put_task (put_stores s (invalidateTask (sc_stores s) t)) pos t1).
  assert (Ht1 : sc_tasks s1 !! pos = Some t1) by (by apply (put_task_lookup (put_stores s _) pos t)).
  assert (Hres : (if valid then match conflicts with
      | [] => Some (put_task s pos (SetStatus t statusValidated), [])
      | _ :: _ => Some (s, []) end
    else b ← dependenciesValidated (sc_tasks s1) (Dependencies t1);
      if (b : bool) then Some (rerun_task s1 pos t1, [pos])
      else Some (put_task s1 pos (SetStatus t1 statusWaiting), [])) = Some (s', r)).
  { rewrite <- Hone. unfold validate_one, shouldRerun. rewrite Ht. cbn [mbind option_bind].
    destruct Hs as [-> | ->]; rewrite Hf; destruct valid; cbn [negb]; [by destruct conflicts| |by destruct conflicts|];
      fold t1 s1; destruct (dependenciesValidated _ _) as [[]|]; cbn [mbind option_bind]; rewrite ?Ht1; done. }
  clear Hone. destruct valid; [destruct conflicts as [|c cs]; simplify_eq|].
  - eapply rtc_l; [by eapply (val_valid _ _ pos); [apply lookup_insert_eq|]|].
    by rewrite delete_insert_eq, delete_empty, app_nil_r.
  - eapply rtc_l; [by eapply (val_conflicts _ _ pos); apply lookup_insert_eq|].
    by rewrite delete_insert_eq, delete_empty, app_nil_r.
  - eapply rtc_l; [by eapply (val_invalid _ _ pos); [apply lookup_insert_eq|]|]. fold t1 s1.
    rewrite insert_insert_eq.
    destruct (dependenciesValidated (sc_tasks s1) (Dependencies t1)) as [[]|] eqn:Hd; simplify_eq/=.
    + eapply rtc_l; [by eapply (val_rerun _ _ pos); [apply lookup_insert_eq|..]|].
      by rewrite delete_insert_eq, delete_empty.
    + eapply rtc_l; [by eapply (val_wait _ _ pos); [apply lookup_insert_eq|..]|].
      by rewrite delete_insert_eq, delete_empty, app_nil_r.
Qed.

Lemma validate_one_steps s pos rest res s' r :
  (pos < length (sc_tasks s))%nat -> validate_one (M := M) s pos = Some (s', r) ->
  rtc (val_step (M := M)) (mkVal s (pos :: rest) ∅ res) (mkVal s' rest ∅ (res ++ r)).
Proof.
  intros [t Ht]%lookup_lt_is_Some_2 Hone.
  destruct (Status t) eqn:Hs; try (eapply validate_finished_steps; by eauto);
    unfold validate_one, shouldRerun in Hone; rewrite Ht, Hs in Hone; cbn [mbind option_bind] in Hone.
  - rewrite Ht in Hone. simplify_eq/=. eapply rtc_l; [by eapply (val_unfinished s [] pos rest); eauto|done].
  - rewrite Ht in Hone. simplify_eq/=. eapply rtc_l; [by eapply (val_unfinished s [] pos rest); eauto|done].
  - destruct (dependenciesValidated _ _) as [b|] eqn:Hd; cbn [mbind option_bind] in Hone; [|done].
    eapply rtc_l; [by eapply (val_waiting s [] pos rest)|]. cbn [app].
    destruct b; rewrite ?Ht in Hone; simplify_eq/=; by rewrite ?app_nil_r.
Qed.

Lemma shouldRerun_keeps s pos t s' b :
  shouldRerun (M := M) s pos t = Some (s', b) ->
  length (sc_tasks s') = length (sc_tasks s) /\ sc_synchronous s' = sc_synchronous s.
Proof.
  unfold shouldRerun. intros Hs. repeat case_match; simplify_eq/=; rewrite ?length_insert; try done;
    destruct (dependenciesValidated _ _) as [[]|]; simplify_eq/=; by rewrite ?length_insert.
Qed.

Lemma validate_one_keeps s pos s' r :
  validate_one (M := M) s pos = Some (s', r) ->
  length (sc_tasks s') = length (sc_tasks s) /\ sc_synchronous s' = sc_synchronous s /\
  forall q, q ∈ r -> q = pos.
Proof.
  unfold validate_one. intros Hs. destruct (sc_tasks s !! pos) as [t|].
  2:{ simplify_eq. split_and!; [done..|]. intros q Hq. by apply elem_of_nil in Hq. }
  destruct (shouldRerun s pos t) as [[s1 []]|] eqn:Hr; simplify_eq/=;
    apply shouldRerun_keeps in Hr as [Hl Hy].
  - destruct (sc_tasks s1 !! pos); simplify_eq/=. split_and!; [by rewrite length_insert|done|].
    intros q Hq. by apply list_elem_of_singleton in Hq.
  - split_and!; [done..|]. intros q Hq. by apply elem_of_nil in Hq.
Qed.

Lemma validate_positions_keeps s res positions s' res' :
  validate_positions (M := M) s res positions = Some (s', res') ->
  length (sc_tasks s') = length (sc_tasks s) /\ sc_synchronous s' = sc_synchronous s /\
  forall q, q ∈ res' -> q ∈ res \/ q ∈ positions.
Proof.
  revert s res. induction positions as [|pos rest IH]; intros s res; cbn [validate_positions].
  { intros [= <- <-]. split_and!; auto. }
  destruct (validate_one s pos) as [[s1 r]|] eqn:Hone; [|done]. cbn [mbind option_bind]. intros Hrest.
  destruct (validate_one_keeps _ _ _ _ Hone) as (Hl & Hy & Hr).
  destruct (IH _ _ Hrest) as (Hl' & Hy' & Hres). split_and!; [congruence..|].
  intros q Hq. rewrite elem_of_cons. destruct (Hres q Hq) as [[?|?]%elem_of_app|?]; eauto.
Qed.

Lemma validate_positions_steps s res positions s' res' :
  Forall (fun pos => (pos < length (sc_tasks s))%nat) positions ->
  validate_positions (M := M) s res positions = Some (s', res') ->
  rtc (val_step (M := M)) (mkVal s positions ∅ res) (mkVal s' [] ∅ res').
Proof.
  revert s res. induction positions as [|pos rest IH]; intros s res Hall; cbn [validate_positions].
  { intros [= -> ->]. constructor. }
  apply Forall_cons in Hall as [Hpos Hall].
  destruct (validate_one s pos) as [[s1 r]|] eqn:Hone; [|done]. cbn [mbind option_bind]. intros Hrest.
  etrans; [by eapply validate_one_steps|]. apply IH; [|done].
  by rewrite (proj1 (validate_one_keeps _ _ _ _ Hone)).
Qed.

(** Validating the tasks in order is a schedule of [validateAll]. *)
Lemma validateAll_sequential s s' res :
  validateAll_sync (M := M) s = Some (s', res) -> validateAll_conc (M := M) s s' res.
Proof.
  unfold validateAll_sync. destruct (findFirstNonValidated (sc_tasks s)) as [st|] eqn:Hf.
  - intros Hv. eapply validate_some; [done|]. apply validate_positions_steps; [|done].
    apply Forall_forall. intros pos Hpos. rewrite elem_of_seq in Hpos. lia.
  - intros [= <- <-]. by constructor.
Qed.

(** ** The loop under this schedule. *)
Fixpoint process_sequential (fuel iterations : nat) s (toExecute : list nat) : option sched_t :=
  if allValidated (sc_tasks s) then Some s
  else match fuel with
       | O => None
       | S fuel =>
           '(s, toExecute) ←
             (if bool_decide (iterations < maximumIterations)%nat then
                validateAll_sync (M := M) (fold_left executeTask toExecute s)
              else startIdx ← findFirstNonValidated (sc_tasks s); sync_round (M := M) s startIdx);
           process_sequential fuel (S iterations) s toExecute
       end.

Lemma validateAll_sync_keeps s s' res :
  validateAll_sync (M := M) s = Some (s', res) ->
  sc_synchronous s' = sc_synchronous s /\
  Forall (fun pos => (pos < length (sc_tasks s'))%nat) res.
Proof.
  unfold validateAll_sync. destruct (findFirstNonValidated (sc_tasks s)) as [st|] eqn:Hf.
  - intros (Hl & Hy & Hres)%validate_positions_keeps. split; [done|]. apply Forall_forall.
    intros q [Hq|Hq]%Hres; [by apply elem_of_nil in Hq|]. rewrite elem_of_seq in Hq. lia.
  - intros [= <- <-]. by split.
Qed.

Lemma executeAll_keeps s toExecute :
  sc_synchronous (fold_left executeTask toExecute s) = sc_synchronous s.
Proof.
  revert s. induction toExecute as [|pos rest IH]; intros s; simpl; [done|].
  rewrite IH. apply executeTask_keeps.
Qed.

(** The loop under this schedule is a run of the loop. *)
Lemma process_sequential_sound fuel iterations s toExecute s' :
  sc_synchronous s = false \/ (maximumIterations <= iterations)%nat ->
  Forall (fun pos => (pos < length (sc_tasks s))%nat) toExecute ->
  process_sequential fuel iterations s toExecute = Some s' ->
  process (M := M) iterations s toExecute s'.
Proof.
  revert iterations s toExecute. induction fuel as [|fuel IH]; intros iterations s toExecute Hsy Hall;
    cbn [process_sequential]; destruct (allValidated (sc_tasks s)) eqn:Hv;
    try (intros [= <-]; by apply process_done).
  case_bool_decide as Hit.
  - destruct (validateAll_sync _) as [[s2 todo2]|] eqn:Hval; [|done]. cbn [mbind option_bind]. intros Hrest.
    destruct (validateAll_sync_keeps _ _ _ Hval) as [Hy2 Hall2]. rewrite executeAll_keeps in Hy2.
    destruct Hsy as [Hsy|Hsy]; [|lia].
    eapply process_conc; [done|done|by apply executeAll_sequential|by apply validateAll_sequential|].
    apply IH; [left; congruence|done|done].
  - destruct (findFirstNonValidated (sc_tasks s)) as [st|] eqn:Hf; [|done]. cbn [mbind option_bind].
    destruct (sync_round s st) as [[s2 todo2]|] eqn:Hr; [|done]. cbn [mbind option_bind]. intros Hrest.
    destruct (validateAll_sync_keeps _ _ _ Hr) as [_ Hall2].
    eapply process_sync; [done|lia|done|done|]. apply IH; [right; lia|done|done].
Qed.

(** [ProcessAll] under this schedule. *)
Definition ProcessAll_sequential (fuel : nat) (parents : gmap SK P) (reqs : list (Z * prog SK R))
    : option (list R * gmap SK P) :=
  s ← process_sequential fuel 0 (init_sched parents reqs) (seq 0 (length reqs));
  responses ← collectResponses (sc_tasks s);
  let stores := WriteLatestToStore <$> sc_stores s in
  if decide (map_Forall (fun _ mv => is_Some mv) stores)
  then Some (responses, parentStore <$> omap id stores) else None.

Lemma ProcessAll_sequential_sound fuel parents reqs responses parents' :
  ProcessAll_sequential fuel parents reqs = Some (responses, parents') ->
  ProcessAll (T := T) (M := M) parents reqs responses parents'.
Proof.
  unfold ProcessAll_sequential.
  destruct (process_sequential _ _ _ _) as [s|] eqn:Hp; [|done]. cbn [mbind option_bind].
  destruct (collectResponses (sc_tasks s)) as [rs|] eqn:Hr; [|done]. cbn [mbind option_bind].
  case_decide as Hw; [|done]. intros [= <- <-]. econstructor; [| |exact Hr].
  - eapply process_sequential_sound; [by left| |exact Hp].
    simpl. apply Forall_forall. intros pos Hpos. rewrite elem_of_seq in Hpos.
    unfold toTasks. rewrite length_fmap. lia.
  - intros sk. rewrite lookup_omap, lookup_fmap. specialize (Hw sk). rewrite lookup_fmap in Hw.
    destruct (sc_stores s !! sk) as [mv|]; simpl in *; [|constructor].
    destruct (Hw _ eq_refl) as [mv' Hmv']. rewrite Hmv'. by constructor.
Qed.
End Seq.
