(* ===== verification/SchedulerExec.v ===== *)
(** The execution phase: the invariant of the interleaved [executeTask]s. *)
From stdpp Require Import base gmap sets list sorting relations.
From Stdlib Require Import ZArith Lia.
From S2P Require Import Prelude KVStore MVItem MVStore MVKV Scheduler SchedulerRuns SchedulerInv.
Open Scope Z_scope.

(** The statuses of a task whose last execution ran to its end. *)
Definition finished (s : status) : Prop := s = statusExecuted \/ s = statusValidated.

#[export] Instance finished_dec s : Decision (finished s).
Proof. unfold finished. solve_decision. Defined.

Section Exec.
Context {SK R T P M : Type} `{Countable SK} `{!BTree T, !BTreeLaws T}
  `{!KVStore P, !KVStoreLaws P} `{!MemDB M}.
Abbreviation task := (deliverTxTask SK R).
Abbreviation stores_t := (gmap SK (Store T P)).
Abbreviation sched_t := (@sched SK R T P _ _).
Abbreviation exec_cfg_t := (@exec_cfg SK R T P _ _).
Implicit Types (stores st : stores_t) (t : task) (tasks : list task) (s : sched_t).

Variables (parents : gmap SK P) (reqs : list (Z * prog SK R)).
Variable okv : option bytes -> Prop.
Hypothesis okv_None : okv None.
Hypothesis parents_ok : forall sk q key, parents !! sk = Some q -> okv (kv_Get q key).
Hypothesis reqs_ok : forall i p, (i, p) ∈ reqs -> prog_okv okv p.
Hypothesis reqs_sorted : StronglySorted Z.lt reqs.*1.

(** What holds of a task, given where its goroutine is. *)
Definition task_exec stores t (th : option (@exec_thread SK R _ _)) : Prop :=
  match th with
  | None => finished (Status t) -> task_done okv stores t ∅
  | Some (ERunning p) =>
      ~ finished (Status t) /\
      vs_ok okv stores (AbsoluteIndex t) (Incarnation t) (VersionStores t) (AbortCh t) /\
      prog_okv okv p /\
      (ch_buf (AbortCh t) = [] -> forall o, agrees o (VersionStores t) ->
         oracle_run o (empty_writes (VersionStores t)) (Tx t) =
         oracle_run o (vs_writeset <$> VersionStores t) p)
  | Some (EWriting false todo) => Status t = statusExecuted /\ task_done okv stores t todo
  | Some (EWriting true todo) =>
      Status t = statusAborted /\
      vs_ok okv stores (AbsoluteIndex t) (Incarnation t) (VersionStores t) (AbortCh t)
  end.

Record exec_inv (f : nat) (e : exec_cfg_t) : Prop := {
  ei_stores : stores_ok parents reqs okv (sc_stores (ex_sched e));
  ei_tasks : tasks_ok reqs (sc_tasks (ex_sched e));
  ei_exec : forall pos t, sc_tasks (ex_sched e) !! pos = Some t ->
    task_exec (sc_stores (ex_sched e)) t (ex_threads e !! pos);
  ei_prefix : forall pos t, sc_tasks (ex_sched e) !! pos = Some t -> (pos < f)%nat ->
    Status t = statusValidated /\ validated_at (M := M) (sc_stores (ex_sched e)) (AbsoluteIndex t);
  ei_first : forall t, sc_tasks (ex_sched e) !! f = Some t -> Status t <> statusValidated;
  ei_todo : forall pos, pos ∈ ex_todo e -> (f <= pos)%nat /\ ex_threads e !! pos = None /\
    forall t, sc_tasks (ex_sched e) !! pos = Some t -> ~ finished (Status t);
  ei_threads : forall pos th, ex_threads e !! pos = Some th -> (f <= pos)%nat;
  ei_nodup : NoDup (ex_todo e)
}.

Lemma task_exec_stable stores st t th :
  stores_same_at (AbsoluteIndex t) stores st -> task_exec stores t th -> task_exec st t th.
Proof.
  intros Hsame. destruct th as [[p|[] todo]|]; simpl.
  - intros (? & ? & ? & ?). split_and!; [done|by eapply vs_ok_stores|done..].
  - intros (? & ?). split; [done|by eapply vs_ok_stores].
  - intros (? & ?). split; [done|by eapply task_done_stable].
  - intros Hd Hf. by eapply task_done_stable; [|apply Hd].
Qed.

(** A step of the goroutine at [pos] that changes its task and, in the stores,
    only the entries of its index. *)
Lemma exec_frame f s todo threads pos t t' st' todo' threads' :
  exec_inv f (mkExec s todo threads) ->
  sc_tasks s !! pos = Some t -> (f <= pos)%nat ->
  AbsoluteIndex t' = AbsoluteIndex t -> Tx t' = Tx t -> Status t' <> statusValidated ->
  stores_ok parents reqs okv st' ->
  (forall i, i <> AbsoluteIndex t -> stores_same_at i (sc_stores s) st') ->
  task_exec st' t' (threads' !! pos) ->
  (forall q, q <> pos -> threads' !! q = threads !! q) ->
  NoDup todo' -> (forall q, q ∈ todo' -> q ∈ todo /\ q <> pos) ->
  exec_inv f (mkExec (put_stores (put_task s pos t') st') todo' threads').
Proof.
  intros [Hst Htk Hex Hpre Hfst Htodo Hthr Hnd] Hpos Hf Hi Hx Hs Hst' Hsame Hex' Hth Hnd' Hsub.
  simpl in *. assert (Hlen : (pos < length (sc_tasks s))%nat) by by eapply lookup_lt_Some.
  assert (Hget : forall q u, <[pos := t']> (sc_tasks s) !! q = Some u ->
    q = pos /\ u = t' \/ q <> pos /\ sc_tasks s !! q = Some u).
  { intros q u. destruct (decide (q = pos)) as [->|Hne].
    - rewrite list_lookup_insert_eq by done. naive_solver.
    - rewrite list_lookup_insert_ne by done. naive_solver. }
  split; simpl; [done|by eapply tasks_ok_insert| | | | | |done].
  - intros q u [[-> ->]|[Hne Hq]]%Hget; [done|]. rewrite Hth by done.
    eapply task_exec_stable; [|by apply Hex]. apply Hsame. by eapply index_ne.
  - intros q u [[-> ->]|[Hne Hq]]%Hget Hlt; [lia|]. destruct (Hpre q u Hq Hlt) as [? Hval].
    split; [done|]. eapply (validated_at_stable parents reqs okv (sc_stores s)); [done|done| |done]. intros i Hle. apply Hsame.
    pose proof (index_lt reqs reqs_sorted _ q pos u t Htk Hq Hpos ltac:(lia)). lia.
  - intros u [[-> ->]|[Hne Hq]]%Hget; eauto.
  - intros q Hq. destruct (Hsub q Hq) as [Hq' Hne]. destruct (Htodo q Hq') as (? & ? & ?).
    split_and!; [done|by rewrite Hth|]. intros u [[-> ->]|[_ Hq2]]%Hget; eauto.
  - intros q th Hq. destruct (decide (q = pos)) as [->|Hne]; [done|]. rewrite Hth in Hq by done. eauto.
Qed.

Lemma empty_writes_dom stores i inc vs ch i' inc' vs' ch' :
  vs_ok okv stores i inc vs ch -> vs_ok okv stores i' inc' vs' ch' ->
  empty_writes vs = empty_writes vs'.
Proof.
  intros [Hd _ _] [Hd' _ _]. apply map_eq. intros sk. unfold empty_writes. rewrite !lookup_fmap.
  specialize (Hd sk). specialize (Hd' sk). rewrite Hd in Hd'.
  destruct (vs !! sk), (vs' !! sk); simpl; try done; destruct Hd' as [H1 H2];
    naive_solver eauto using is_Some_None.
Qed.

Lemma prepareTask_ok stores t :
  vs_ok okv stores (AbsoluteIndex t) (Incarnation t)
    (VersionStores (prepareTask stores t)) (AbortCh (prepareTask stores t)).
Proof.
  split; simpl; [|intros sk v|done].
  - intros sk. by rewrite lookup_fmap, fmap_is_Some.
  - rewrite lookup_fmap. destruct (stores !! sk); simpl; [|done]. intros [= <-]. apply vis_ok_New.
Qed.

Lemma prepareTask_writes stores t :
  vs_writeset <$> VersionStores (prepareTask stores t) = empty_writes (VersionStores (prepareTask stores t)).
Proof.
  apply map_eq. intros sk. unfold empty_writes. rewrite !lookup_fmap. simpl. rewrite lookup_fmap.
  by destruct (stores !! sk).
Qed.

Lemma put_stores_id s pos t : put_stores (put_task s pos t) (sc_stores s) = put_task s pos t.
Proof. done. Qed.

Lemma same_at_refl_all stores t : forall i, i <> AbsoluteIndex t -> stores_same_at i stores stores.
Proof. intros. apply stores_same_at_refl. Qed.

Lemma exec_todo_running f s todo threads pos th :
  exec_inv f (mkExec s todo threads) -> threads !! pos = Some th ->
  NoDup todo /\ forall q, q ∈ todo -> q ∈ todo /\ q <> pos.
Proof.
  intros Hinv Hth. split; [apply Hinv|]. intros q Hq. split; [done|]. intros ->.
  destruct (ei_todo _ _ Hinv pos Hq) as (_ & Hn & _). simpl in Hn. congruence.
Qed.

(** ** Every step keeps the invariant. *)
Lemma exec_start_inv f s pre pos post threads t :
  exec_inv f (mkExec s (pre ++ pos :: post) threads) ->
  threads !! pos = None -> sc_tasks s !! pos = Some t ->
  exec_inv f (mkExec (put_task s pos (prepareTask (sc_stores s) t)) (pre ++ post)
                (<[pos := ERunning (Tx t)]> threads)).
Proof.
  intros Hinv Hth Ht. destruct (ei_todo _ _ Hinv pos) as (Hf & _ & Hst).
  { simpl. set_solver. }
  pose proof (ei_nodup _ _ Hinv) as Hnd. simpl in Hnd.
  assert (Hnd' : NoDup (pos :: pre ++ post)) by (by rewrite Permutation_middle).
  apply NoDup_cons in Hnd' as [Hnp Hnd'].
  rewrite <- put_stores_id. eapply exec_frame; [done|done|done|done|done| | | | | |done|].
  - intros Hv. apply (Hst t Ht). by right.
  - apply (ei_stores _ _ Hinv).
  - apply same_at_refl_all.
  - rewrite lookup_insert_eq. unfold task_exec.
    split_and!; [exact (Hst t Ht)|exact (prepareTask_ok (sc_stores s) t)| |].
    + by eapply tasks_ok_prog; [|apply (ei_tasks _ _ Hinv)|].
    + intros _ o Ho. by rewrite prepareTask_writes.
  - intros q Hq. by rewrite lookup_insert_ne.
  - intros q Hq. split; [set_solver|]. intros ->. done.
Qed.

Lemma exec_op_inv f s todo pos threads t p vs ch p' :
  exec_inv f (mkExec s todo threads) ->
  threads !! pos = Some (ERunning p) -> sc_tasks s !! pos = Some t ->
  prog_step (sc_stores s) (VersionStores t) (AbortCh t) p = Some (vs, ch, p') ->
  exec_inv f (mkExec (put_task s pos (with_stores t vs ch)) todo (<[pos := ERunning p']> threads)).
Proof.
  intros Hinv Hth Ht Hstep. pose proof (ei_exec _ _ Hinv pos t Ht) as Hex. simpl in Hex.
  rewrite Hth in Hex. destruct Hex as (Hst & Hvs & Hp & Hrun).
  destruct (exec_todo_running _ _ _ _ _ _ Hinv Hth) as [Hnd Hsub].
  pose proof (stores_ok_values _ _ _ parents_ok _ (ei_stores _ _ Hinv)) as Hval.
  destruct (prog_step_ok okv okv_None _ _ _ _ _ _ _ _ _ Hvs Hval Hp Hstep) as (Hvs' & Hp' & Hrun').
  rewrite <- put_stores_id.
  eapply exec_frame; [done|done|apply (ei_threads _ _ Hinv _ _ Hth)|done|done| | | | | |done|done].
  - simpl. intros Hv. apply Hst. by right.
  - apply (ei_stores _ _ Hinv).
  - apply same_at_refl_all.
  - rewrite lookup_insert_eq. simpl. split_and!; [done..|]. intros Hb o Ho.
    destruct (Hrun' Hb) as [Hb0 Ho']. destruct (Ho' o Ho) as [Ho0 <-].
    rewrite <- (Hrun Hb0 o Ho0). f_equal. by eapply empty_writes_dom.
  - intros q Hq. by rewrite lookup_insert_ne.
Qed.

Lemma finish_task_same t resp t' estimates :
  finish_task t resp = (t', estimates) ->
  AbsoluteIndex t' = AbsoluteIndex t /\ Tx t' = Tx t /\ Incarnation t' = Incarnation t /\
  VersionStores t' = VersionStores t /\ AbortCh t' = AbortCh t /\
  (estimates = true /\ Status t' = statusAborted \/
   estimates = false /\ Status t' = statusExecuted /\ Response t' = Some resp /\
   ch_buf (AbortCh t) = []).
Proof.
  unfold finish_task. destruct (ch_buf (AbortCh t)) eqn:Hb; intros [= <- <-]; simpl.
  - split_and!; auto 10.
  - split_and!; auto.
Qed.

Lemma exec_finish_inv f s todo pos threads t resp t' estimates :
  exec_inv f (mkExec s todo threads) ->
  threads !! pos = Some (ERunning (PRet resp)) -> sc_tasks s !! pos = Some t ->
  finish_task t resp = (t', estimates) ->
  exec_inv f (mkExec (put_task s pos t') todo
                (<[pos := EWriting estimates (dom (VersionStores t))]> threads)).
Proof.
  intros Hinv Hth Ht Hfin. pose proof (ei_exec _ _ Hinv pos t Ht) as Hex. simpl in Hex.
  rewrite Hth in Hex. destruct Hex as (Hst & Hvs & _ & Hrun).
  destruct (exec_todo_running _ _ _ _ _ _ Hinv Hth) as [Hnd Hsub].
  destruct (finish_task_same _ _ _ _ Hfin) as (Hi & Hx & Hinc & Hv & Hch & Hcase).
  rewrite <- put_stores_id.
  eapply exec_frame; [done|done|apply (ei_threads _ _ Hinv _ _ Hth)|done|done| | | | | |done|done].
  - destruct Hcase as [(_ & ->)|(_ & -> & _)]; done.
  - apply (ei_stores _ _ Hinv).
  - apply same_at_refl_all.
  - rewrite lookup_insert_eq. simpl.
    destruct Hcase as [(-> & Hs)|(-> & Hs & Hr & Hb)]; (split; [done|]).
    + by rewrite Hi, Hinc, Hv, Hch.
    + split; [by rewrite Hi, Hinc, Hv, Hch| |].
      * exists resp. split; [done|]. rewrite Hx, Hv. intros o Ho. by rewrite (Hrun Hb o Ho).
      * intros sk v mv Hsk Hvs'. rewrite Hv in Hvs'. destruct Hsk. apply elem_of_dom. eauto.
  - intros q Hq. by rewrite lookup_insert_ne.
Qed.

Lemma exec_write_inv f s todo pos threads t estimates todo_sk sk v mv :
  exec_inv f (mkExec s todo threads) ->
  threads !! pos = Some (EWriting estimates todo_sk) -> sc_tasks s !! pos = Some t ->
  VersionStores t !! sk = Some v -> sc_stores s !! sk = Some mv ->
  exec_inv f (mkExec (put_stores s (<[sk := write_store estimates v mv]> (sc_stores s))) todo
                (<[pos := EWriting estimates (todo_sk ∖ {[sk]})]> threads)).
Proof.
  intros Hinv Hth Ht Hv Hmv. pose proof (ei_exec _ _ Hinv pos t Ht) as Hex. simpl in Hex.
  rewrite Hth in Hex. destruct (exec_todo_running _ _ _ _ _ _ Hinv Hth) as [Hnd Hsub].
  pose proof (ei_stores _ _ Hinv) as Hst. simpl in Hst.
  assert (Hvs : vs_ok okv (sc_stores s) (AbsoluteIndex t) (Incarnation t) (VersionStores t) (AbortCh t)).
  { destruct estimates; [apply Hex|apply Hex]. }
  pose proof (vso_vis _ _ _ _ _ _ Hvs _ _ Hv) as Hvok.
  pose proof (sso_store _ _ _ _ Hst _ _ Hmv) as Hmvok.
  pose proof (so_wf _ _ _ _ _ Hmvok) as Hwf.
  set (st' := <[sk := write_store estimates v mv]> (sc_stores s)).
  assert (Hsame : forall i, i <> AbsoluteIndex t -> stores_same_at i (sc_stores s) st').
  { intros i Hi sk'. unfold st'. destruct (decide (sk' = sk)) as [->|Hne].
    - rewrite lookup_insert_eq, Hmv. constructor. by eapply write_store_same.
    - rewrite lookup_insert_ne by done. apply stores_same_at_refl. }
  replace (put_stores s st') with (put_stores (put_task s pos t) st')
    by (unfold put_stores, put_task; simpl; by rewrite list_insert_id).
  eapply exec_frame; [done|done|apply (ei_threads _ _ Hinv _ _ Hth)|done|done| | |done| | |done|done].
  - destruct estimates; destruct Hex as [-> _]; done.
  - eapply stores_ok_insert; [done..|]. eapply write_store_ok; [done..|].
    by eapply tasks_ok_index; [apply (ei_tasks _ _ Hinv)|].
  - rewrite lookup_insert_eq. simpl.
    assert (Hvs' : vs_ok okv st' (AbsoluteIndex t) (Incarnation t) (VersionStores t) (AbortCh t)).
    { eapply (vs_ok_stores okv (sc_stores s) st' _ _ _ _ (AbsoluteIndex t + 1)); [|done].
      apply Hsame. lia. }
    destruct estimates; destruct Hex as [Hs Hd]; (split; [done|]); [done|].
    destruct Hd as [_ Hrun Hw]. split; [done..|].
    intros sk' v' mv' Hsk' Hv' Hmv'. unfold st' in Hmv'. destruct (decide (sk' = sk)) as [->|Hne].
    + rewrite lookup_insert_eq in Hmv'. simplify_eq. by eapply write_store_written.
    + rewrite lookup_insert_ne in Hmv' by done. apply (Hw sk'); [set_solver|done..].
  - intros q Hq. by rewrite lookup_insert_ne.
Qed.

Lemma exec_step_inv f e e' : exec_step e e' -> exec_inv f e -> exec_inv f e'.
Proof.
  intros Hstep Hinv. destruct Hstep.
  - by apply exec_start_inv.
  - by eapply exec_op_inv.
  - by eapply exec_finish_inv.
  - by eapply exec_write_inv.
  - destruct (exec_todo_running _ _ _ _ _ _ Hinv H0) as [Hnd Hsub].
    destruct Hinv as [Hst Htk Hex Hpre Hfst Htodo Hthr Hnd']. simpl in *.
    split; simpl; try done.
    + intros q u Hq. specialize (Hex q u Hq). destruct (decide (q = pos)) as [->|Hne].
      * rewrite H0 in Hex. rewrite lookup_delete_eq. simpl. intros Hfin.
        destruct estimates; [|apply Hex]. destruct Hex as [Hs _]. rewrite Hs in Hfin.
        by destruct Hfin.
      * by rewrite lookup_delete_ne.
    + intros q Hq. destruct (Htodo q Hq) as (? & ? & ?). split_and!; [done| |done].
      rewrite lookup_delete. by case_decide.
    + intros q th. rewrite lookup_delete. case_decide; [done|eauto].
Qed.

Lemma exec_steps_inv f e e' : rtc exec_step e e' -> exec_inv f e -> exec_inv f e'.
Proof. induction 1; eauto using exec_step_inv. Qed.
End Exec.
