(* ===== verification/SchedulerVal.v ===== *)
(** The validation phase: the invariant of the interleaved [shouldRerun]s. *)
From stdpp Require Import base gmap sets list sorting relations.
From Stdlib Require Import ZArith Lia.
From S2P Require Import Prelude KVStore MVItem MVStore MVKV Scheduler SchedulerRuns SchedulerInv.
From S2P Require Import SchedulerExec.
Open Scope Z_scope.

Section Val.
Context {SK R T P M : Type} `{Countable SK} `{!BTree T, !BTreeLaws T}
  `{!KVStore P, !KVStoreLaws P} `{!MemDB M}.
Abbreviation task := (deliverTxTask SK R).
Abbreviation stores_t := (gmap SK (Store T P)).
Abbreviation sched_t := (@sched SK R T P _ _).
Abbreviation val_cfg_t := (@val_cfg SK R T P _ _).
Implicit Types (stores st : stores_t) (t : task) (tasks : list task) (s : sched_t).

Variables (parents : gmap SK P) (reqs : list (Z * prog SK R)).
Variable okv : option bytes -> Prop.
Hypothesis okv_None : okv None.
Hypothesis reqs_sorted : StronglySorted Z.lt reqs.*1.

(** ** A valid task with conflicts has read below an estimate. *)
Definition sees_estimate (mv : Store T P) (index : Z) : Prop :=
  exists key x, GetLatestBeforeIndex mv index key = Some x /\ IsEstimate x = true.

Lemma check_reads_valid (mv : Store T P) index l c :
  rc_valid (fold_left (check_read mv index) l c) = true -> rc_valid c = true.
Proof.
  revert c. induction l as [|[key vals] l IH]; intros c; simpl; [done|]. intros Hv%IH.
  revert Hv. unfold check_read. repeat case_match; simpl; done.
Qed.

Lemma check_reads_estimate (mv : Store T P) index l c :
  let c' := fold_left (check_read mv index) l c in
  rc_valid c' = true -> rc_conflictSet c' <> ∅ -> rc_conflictSet c <> ∅ \/ sees_estimate mv index.
Proof.
  simpl. revert c. induction l as [|[key vals] l IH]; intros c Hv Hc; simpl in *; [by left|].
  destruct (IH _ Hv Hc) as [Hc'|]; [|by right].
  apply check_reads_valid in Hv.
  revert Hv Hc'. unfold check_read. destruct vals as [|v [|w vals]]; simpl; try done.
  destruct (GetLatestBeforeIndex mv index key) as [x|] eqn:Hg.
  - destruct (IsEstimate x) eqn:He; simpl; [intros; right; by exists key, x|].
    destruct (IsDeleted x); [case_bool_decide; simpl; auto; done|].
    destruct (bytes_equal (vi_value x) v); simpl; auto; done.
  - destruct (bytes_equal _ v); simpl; auto.
Qed.

Lemma Validate_estimate sk (mv : Store T P) index c cs ks :
  store_ok parents reqs okv sk mv ->
  ValidateTransactionStateWithKeys (M := M) mv index = (true, c :: cs, ks) -> sees_estimate mv index.
Proof.
  intros Hmv. rewrite (Validate_readset _ _ _ sk) by done. unfold checkReadsetAtIndex.
  destruct (txReadSets mv !! index) as [readset|]; [|done]. intros [= Hv Hc _].
  destruct (check_reads_estimate mv index (map_to_list readset) (mkCheck true ∅ []) Hv) as [He|He];
    [|done|done].
  intros He. rewrite He in Hc. done.
Qed.

Lemma find_conflicts_estimate t (l : list (SK * Store T P)) acc :
  let res := fold_left (find_conflicts_store (M := M) t) l acc in
  res.1.1 = true -> res.1.2 <> [] ->
  acc.1.1 = true /\ (acc.1.2 <> [] \/
  exists sk mv c cs ks, (sk, mv) ∈ l /\
    ValidateTransactionStateWithKeys (M := M) mv (AbsoluteIndex t) = (true, c :: cs, ks)).
Proof.
  simpl. revert acc. induction l as [|[sk mv] l IH]; intros [[valid conflicts] keys]; simpl; [auto|].
  intros Hv Hc. specialize (IH _ Hv Hc). simpl in IH.
  destruct (ValidateTransactionStateWithKeys mv (AbsoluteIndex t)) as [[ok cs] ks] eqn:E. simpl in IH.
  destruct IH as [Hok IH]. apply andb_true_iff in Hok as [-> ->]. split; [done|].
  destruct IH as [IH|(sk' & mv' & c & cs' & ks' & Hin & E')].
  - destruct cs as [|c cs]; [by left|]. right. exists sk, mv, c, cs, ks. set_solver.
  - right. exists sk', mv', c, cs', ks'. set_solver.
Qed.

Lemma findConflicts_estimate stores t c cs keys :
  stores_ok parents reqs okv stores ->
  findConflicts (M := M) stores t = (true, c :: cs, keys) ->
  exists sk mv, stores !! sk = Some mv /\ sees_estimate mv (AbsoluteIndex t).
Proof.
  intros Hst. unfold findConflicts.
  pose proof (find_conflicts_estimate t (map_to_list stores) (true, [], [])) as Hf. simpl in Hf.
  destruct (fold_left _ (map_to_list stores) (true, [], [])) as [[valid conflicts] keys'].
  simpl in Hf. intros [= -> Hc _]. destruct Hf as [_ Hf]; [done| |].
  { intros ->. done. }
  destruct Hf as [|(sk & mv & c' & cs' & ks & Hin & Hval)]; [done|].
  apply elem_of_map_to_list in Hin. exists sk, mv. split; [done|].
  eapply Validate_estimate; [|done]. by apply (sso_store _ _ _ _ Hst).
Qed.

(** ** The invariant. *)

(** The task at [q] cannot be validated when the phase ends. *)
Definition spoiled s (threads : gmap nat val_thread) (q : nat) : Prop :=
  exists tq, sc_tasks s !! q = Some tq /\
    (threads !! q = Some VInvalidated \/ ~ finished (Status tq)).

Definition spoiled_below s threads (pos : nat) : Prop := exists q, (q < pos)%nat /\ spoiled s threads q.

Record val_inv (c : val_cfg_t) : Prop := {
  vi_stores : stores_ok parents reqs okv (sc_stores (va_sched c));
  vi_tasks : tasks_ok reqs (sc_tasks (va_sched c));
  vi_done : forall pos t, sc_tasks (va_sched c) !! pos = Some t -> finished (Status t) ->
    va_threads c !! pos <> Some VInvalidated -> task_done okv (sc_stores (va_sched c)) t ∅;
  vi_valid : forall pos t, sc_tasks (va_sched c) !! pos = Some t ->
    (Status t = statusValidated /\ (pos ∉ va_todo c) /\ va_threads c !! pos = None) \/
    va_threads c !! pos = Some (VChecked true []) ->
    validated_at (M := M) (sc_stores (va_sched c)) (AbsoluteIndex t) \/
    spoiled_below (va_sched c) (va_threads c) pos;
  vi_conflicts : forall pos conflict conflicts,
    va_threads c !! pos = Some (VChecked true (conflict :: conflicts)) ->
    spoiled_below (va_sched c) (va_threads c) pos;
  vi_threads : forall pos th, va_threads c !! pos = Some th ->
    exists t, sc_tasks (va_sched c) !! pos = Some t /\ finished (Status t);
  vi_todo : forall pos, pos ∈ va_todo c -> va_threads c !! pos = None;
  vi_nodup : NoDup (va_todo c);
  vi_res : forall pos, pos ∈ va_res c -> (pos ∉ va_todo c) /\ va_threads c !! pos = None /\
    exists t, sc_tasks (va_sched c) !! pos = Some t /\ Status t = statusPending;
  vi_res_nodup : NoDup (va_res c)
}.

(** A finished task that was not invalidated holds no estimates. *)
Lemma done_no_estimate stores t sk mv key x :
  task_done okv stores t ∅ -> stores !! sk = Some mv ->
  version mv key (AbsoluteIndex t) = Some x -> IsEstimate x = false.
Proof.
  intros [Hvs _ Hw] Hsk Hx.
  destruct (proj1 (vso_dom _ _ _ _ _ _ Hvs sk) ltac:(eauto)) as [v Hv].
  destruct (Hw sk v mv ltac:(set_solver) Hv Hsk) as [Hver _]. rewrite Hver in Hx.
  destruct (vs_writeset v !! key); simplify_eq/=. done.
Qed.

Lemma estimate_spoiled c pos t sk mv :
  val_inv c -> sc_tasks (va_sched c) !! pos = Some t ->
  sc_stores (va_sched c) !! sk = Some mv -> sees_estimate mv (AbsoluteIndex t) ->
  spoiled_below (va_sched c) (va_threads c) pos.
Proof.
  intros Hinv Ht Hsk (key & x & Hx & He).
  apply GetLatestBeforeIndex_version in Hx as (Hx & Hlt & _).
  pose proof (sso_store _ _ _ _ (vi_stores _ Hinv) _ _ Hsk) as Hmv.
  pose proof (so_indices _ _ _ _ _ Hmv _ _ _ Hx) as Hin.
  destruct (index_position reqs _ _ (vi_tasks _ Hinv) Hin) as (q & tq & Hq & Hqi).
  exists q. split.
  - destruct (decide (q < pos)%nat) as [|Hge]; [done|].
    destruct (decide (q = pos)) as [->|Hne]; [simplify_eq; lia|].
    pose proof (index_lt reqs reqs_sorted _ pos q t tq (vi_tasks _ Hinv) Ht Hq ltac:(lia)). lia.
  - exists tq. split; [done|]. destruct (decide (va_threads c !! q = Some VInvalidated)) as [|Hth];
      [by left|right]. intros Hfin.
    pose proof (vi_done _ Hinv q tq Hq Hfin Hth) as Hd. rewrite <- Hqi in Hx.
    rewrite (done_no_estimate _ _ _ _ _ _ Hd Hsk Hx) in He. done.
Qed.

Lemma task_done_ext stores t t' todo :
  AbsoluteIndex t' = AbsoluteIndex t -> Incarnation t' = Incarnation t -> Tx t' = Tx t ->
  Response t' = Response t -> VersionStores t' = VersionStores t -> AbortCh t' = AbortCh t ->
  task_done okv stores t todo -> task_done okv stores t' todo.
Proof. intros Hi Hinc Hx Hr Hv Hc [Hvs Hrun Hw]. split; rewrite ?Hi, ?Hinc, ?Hx, ?Hr, ?Hv, ?Hc; done. Qed.

(** A step of the goroutine at [pos]: its task changes, and in the stores the
    entries of its index, in which case the task is spoiled. *)
Lemma val_frame s todo threads res pos t t' st' mx todo' threads' res' :
  val_inv (mkVal s todo threads res) ->
  sc_tasks s !! pos = Some t ->
  AbsoluteIndex t' = AbsoluteIndex t -> Tx t' = Tx t ->
  stores_ok parents reqs okv st' ->
  (forall i, i <> AbsoluteIndex t -> stores_same_at i (sc_stores s) st') ->
  let s' := mkSched st' (<[pos := t']> (sc_tasks s)) (sc_synchronous s) mx in
  st' = sc_stores s \/ spoiled s' threads' pos ->
  (spoiled s threads pos -> spoiled s' threads' pos) ->
  (finished (Status t') -> threads' !! pos <> Some VInvalidated -> task_done okv st' t' ∅) ->
  ((Status t' = statusValidated /\ (pos ∉ todo') /\ threads' !! pos = None) \/
     threads' !! pos = Some (VChecked true []) ->
     st' = sc_stores s /\ validated_at (M := M) st' (AbsoluteIndex t) \/ spoiled_below s threads pos) ->
  (forall c cs, threads' !! pos = Some (VChecked true (c :: cs)) -> spoiled_below s threads pos) ->
  (forall th, threads' !! pos = Some th -> finished (Status t')) ->
  (forall q, q <> pos -> threads' !! q = threads !! q) ->
  NoDup todo' -> (forall q, q ∈ todo' <-> q ∈ todo /\ q <> pos) ->
  (res' = res /\ pos ∉ res \/
   res' = res ++ [pos] /\ (pos ∉ res) /\ threads' !! pos = None /\ Status t' = statusPending) ->
  val_inv (mkVal s' todo' threads' res').
Proof.
  intros [Hst Htk Hdone Hval Hcon Hthr Htd Hnd Hres Hrnd] Hpos Hi Hx Hst' Hsame s' Hspoil Hmono
    Hdone' Hval' Hcon' Hthr' Hth Hnd' Hsub Hres'.
  simpl in *. assert (Hlen : (pos < length (sc_tasks s))%nat) by by eapply lookup_lt_Some.
  assert (Hget : forall q u, <[pos := t']> (sc_tasks s) !! q = Some u ->
    q = pos /\ u = t' \/ q <> pos /\ sc_tasks s !! q = Some u).
  { intros q u. destruct (decide (q = pos)) as [->|Hne].
    - rewrite list_lookup_insert_eq by done. naive_solver.
    - rewrite list_lookup_insert_ne by done. naive_solver. }
  assert (Hput : <[pos := t']> (sc_tasks s) !! pos = Some t') by by apply list_lookup_insert_eq.
  assert (Hkeep : forall q u, q <> pos -> sc_tasks s !! q = Some u ->
    <[pos := t']> (sc_tasks s) !! q = Some u) by (intros; by rewrite list_lookup_insert_ne).
  assert (Hsp : forall q, spoiled s threads q -> spoiled s' threads' q).
  { intros q Hq. destruct (decide (q = pos)) as [->|Hne]; [auto|].
    destruct Hq as (tq & Hq & Hcase). exists tq. simpl. rewrite Hth by done. split; [auto|done]. }
  assert (Hspb : forall q, spoiled_below s threads q -> spoiled_below s' threads' q).
  { intros q (r & ? & ?). exists r. auto. }
  assert (Hvstable : forall q u, q <> pos -> sc_tasks s !! q = Some u ->
    validated_at (M := M) (sc_stores s) (AbsoluteIndex u) ->
    validated_at (M := M) st' (AbsoluteIndex u) \/ spoiled_below s' threads' q).
  { intros q u Hne Hq Hv. destruct Hspoil as [->|Hspoil]; [by left|].
    destruct (decide (pos < q)%nat); [right; by exists pos|left].
    eapply (validated_at_stable parents reqs okv (sc_stores s)); [done|done| |done].
    intros i Hle. apply Hsame.
    pose proof (index_lt reqs reqs_sorted _ q pos u t Htk Hq Hpos ltac:(lia)). lia. }
  split; simpl; [done|by eapply tasks_ok_insert| | | | | |done| |].
  - intros q u [[-> ->]|[Hne Hq]]%Hget Hf Hn; [auto|]. rewrite Hth in Hn by done.
    eapply task_done_stable; [|by eapply Hdone]. apply Hsame. by eapply index_ne.
  - intros q u [[-> ->]|[Hne Hq]]%Hget Hclaim.
    + rewrite Hi. destruct (Hval' Hclaim) as [[_ Hv]|Hs]; auto.
    + rewrite Hth in Hclaim by done.
      destruct (Hval q u Hq) as [Hv|Hs]; [|by eapply Hvstable|auto].
      destruct Hclaim as [(? & Hn & ?)|?]; [left|by right]. split_and!; [done| |done].
      intros Hin. apply Hn. by apply Hsub.
  - intros q c cs Hq. apply Hspb. destruct (decide (q = pos)) as [->|Hne]; [eauto|].
    rewrite Hth in Hq by done. eauto.
  - intros q th Hq. destruct (decide (q = pos)) as [->|Hne]; [eauto|]. rewrite Hth in Hq by done.
    destruct (Hthr _ _ Hq) as (u & Hu & Hfu). eauto.
  - intros q Hq. apply Hsub in Hq as [Hq Hne]. rewrite Hth by done. auto.
  - assert (Hold : forall q, q ∈ res -> pos ∉ res -> (q ∉ todo') /\ threads' !! q = None /\
      exists u, <[pos := t']> (sc_tasks s) !! q = Some u /\ Status u = statusPending).
    { intros q Hq Hn. assert (q <> pos) by set_solver. destruct (Hres q Hq) as (? & ? & u & ? & ?).
      split_and!; [|by rewrite Hth|eauto]. intros Hin. apply Hsub in Hin. tauto. }
    intros q Hq. destruct Hres' as [[-> Hn]|(-> & Hn & Hnone & Hpend)]; [auto|].
    apply elem_of_app in Hq as [Hq|Hq]; [auto|]. apply list_elem_of_singleton in Hq as ->.
    split_and!; [|done|eauto]. intros Hin. apply Hsub in Hin. tauto.
  - destruct Hres' as [[-> Hn]|(-> & Hn & _)]; [done|]. apply NoDup_app. split_and!; [done| |apply NoDup_singleton].
    intros q Hq Hq'. apply list_elem_of_singleton in Hq' as ->. done.
Qed.

(** ** Every step keeps the invariant. *)
Lemma todo_removed (pre post : list nat) pos :
  NoDup (pre ++ pos :: post) ->
  NoDup (pre ++ post) /\ (forall q, q ∈ pre ++ post <-> q ∈ pre ++ pos :: post /\ q <> pos).
Proof.
  intros Hnd. assert (Hnd' : NoDup (pos :: pre ++ post)) by (by rewrite Permutation_middle).
  apply NoDup_cons in Hnd' as [Hn Hnd']. split; [done|]. intros q.
  rewrite !elem_of_app, elem_of_cons. rewrite elem_of_app in Hn. naive_solver.
Qed.

Lemma todo_untouched s todo threads res pos th :
  val_inv (mkVal s todo threads res) -> threads !! pos = Some th ->
  (pos ∉ res) /\ NoDup todo /\ (forall q, q ∈ todo <-> q ∈ todo /\ q <> pos).
Proof.
  intros Hinv Hth. split_and!; [|apply Hinv|].
  - intros Hin. destruct (vi_res _ Hinv _ Hin) as (_ & Hn & _). simpl in Hn. congruence.
  - intros q. split; [|tauto]. intros Hq. split; [done|]. intros ->.
    pose proof (vi_todo _ Hinv _ Hq) as Hn. simpl in Hn. congruence.
Qed.

Lemma todo_first s pre pos post threads res :
  val_inv (mkVal s (pre ++ pos :: post) threads res) -> threads !! pos = None /\ (pos ∉ res).
Proof.
  intros Hinv. assert (Hin : pos ∈ pre ++ pos :: post) by set_solver.
  split; [by apply (vi_todo _ Hinv)|]. intros Hres. by destruct (vi_res _ Hinv _ Hres).
Qed.

Lemma val_rerun_inv s pre pos post threads res t :
  val_inv (mkVal s (pre ++ pos :: post) threads res) ->
  sc_tasks s !! pos = Some t ->
  val_inv (mkVal (rerun_task s pos t) (pre ++ post) threads (res ++ [pos])).
Proof.
  intros Hinv Ht. destruct (todo_removed _ _ _ (vi_nodup _ Hinv)) as [Hnd Hsub].
  destruct (todo_first _ _ _ _ _ _ Hinv) as [Hth Hres].
  apply (val_frame s (pre ++ pos :: post) threads res pos t (Increment (Reset t)) (sc_stores s));
    simpl; try done; try congruence.
  - apply (vi_stores _ Hinv).
  - intros. apply stores_same_at_refl.
  - by left.
  - intros (tq & Htq & _). eexists. simpl.
    rewrite list_lookup_insert_eq by (by eapply lookup_lt_Some). split; [done|]. right. by intros [?|?].
  - by intros [?|?].
  - intros [(? & _)|?]; congruence.
  - by right.
Qed.

Lemma val_check_inv s pre pos post threads res t valid conflicts keys :
  val_inv (mkVal s (pre ++ pos :: post) threads res) ->
  sc_tasks s !! pos = Some t -> finished (Status t) ->
  findConflicts (M := M) (sc_stores s) t = (valid, conflicts, keys) ->
  val_inv (mkVal s (pre ++ post) (<[pos := VChecked valid conflicts]> threads) res).
Proof.
  intros Hinv Ht Hfin Hfc. destruct (todo_removed _ _ _ (vi_nodup _ Hinv)) as [Hnd Hsub].
  destruct (todo_first _ _ _ _ _ _ Hinv) as [Hth Hres].
  replace s with (mkSched (sc_stores s) (<[pos := t]> (sc_tasks s)) (sc_synchronous s) (sc_maxIncarnation s))
    at 1 by (destruct s; simpl in *; by rewrite list_insert_id).
  eapply (val_frame s (pre ++ pos :: post) threads res pos t t (sc_stores s)); simpl; try done.
  - apply (vi_stores _ Hinv).
  - intros. apply stores_same_at_refl.
  - by left.
  - intros (tq & Htq & [?|Hn]); [congruence|]. simplify_eq. by destruct Hn.
  - intros _ _. apply (vi_done _ Hinv pos t Ht Hfin). simpl. by rewrite Hth.
  - rewrite lookup_insert_eq. intros [(_ & _ & ?)|[= -> ->]]; [done|left].
    split; [done|]. apply findConflicts_validated. eauto.
  - rewrite lookup_insert_eq. intros c cs [= -> ->].
    destruct (findConflicts_estimate _ _ _ _ _ (vi_stores _ Hinv) Hfc) as (sk & mv & Hsk & Hest).
    by eapply (estimate_spoiled _ pos t sk mv Hinv).
  - intros q Hq. by rewrite lookup_insert_ne.
  - by left.
Qed.

Lemma val_skip_inv s pre pos post threads res t :
  val_inv (mkVal s (pre ++ pos :: post) threads res) ->
  sc_tasks s !! pos = Some t -> Status t = statusWaiting ->
  val_inv (mkVal s (pre ++ post) threads res).
Proof.
  intros Hinv Ht Hw. destruct (todo_removed _ _ _ (vi_nodup _ Hinv)) as [Hnd Hsub].
  destruct (todo_first _ _ _ _ _ _ Hinv) as [Hth Hres].
  replace s with (mkSched (sc_stores s) (<[pos := t]> (sc_tasks s)) (sc_synchronous s) (sc_maxIncarnation s))
    at 1 by (destruct s; simpl in *; by rewrite list_insert_id).
  eapply (val_frame s (pre ++ pos :: post) threads res pos t t (sc_stores s)); simpl; try done;
    try congruence.
  - apply (vi_stores _ Hinv).
  - intros. apply stores_same_at_refl.
  - by left.
  - intros (tq & Htq & Hcase). exists tq. simpl. by rewrite list_insert_id.
  - rewrite Hw. by intros [?|?].
  - rewrite Hw. intros [(? & _)|?]; congruence.
  - by left.
Qed.

Lemma val_invalid_inv s todo pos threads res t conflicts :
  val_inv (mkVal s todo threads res) ->
  threads !! pos = Some (VChecked false conflicts) -> sc_tasks s !! pos = Some t ->
  val_inv (mkVal (put_task (put_stores s (invalidateTask (sc_stores s) t)) pos
                    (AppendDependencies t conflicts))
             todo (<[pos := VInvalidated]> threads) res).
Proof.
  intros Hinv Hth Ht. destruct (todo_untouched _ _ _ _ _ _ Hinv Hth) as (Hres & Hnd & Hsub).
  destruct (vi_threads _ Hinv _ _ Hth) as (t0 & Ht0 & Hfin). simpl in Ht0. simplify_eq.
  pose proof (vi_stores _ Hinv) as Hst. simpl in Hst.
  assert (Hsp : spoiled (put_task (put_stores s (invalidateTask (sc_stores s) t)) pos
      (AppendDependencies t conflicts)) (<[pos := VInvalidated]> threads) pos).
  { eexists. simpl. rewrite list_lookup_insert_eq by (by eapply lookup_lt_Some).
    rewrite lookup_insert_eq. split; [done|by left]. }
  eapply (val_frame s todo threads res pos t (AppendDependencies t conflicts)
    (invalidateTask (sc_stores s) t)); simpl; try done.
  - apply invalidateTask_ok; [done..|]. by eapply tasks_ok_index; [apply (vi_tasks _ Hinv)|].
  - intros i Hi. by apply invalidateTask_same.
  - by right.
  - intros _ Hn. by rewrite lookup_insert_eq in Hn.
  - rewrite lookup_insert_eq. intros [(_ & _ & ?)|?]; done.
  - rewrite lookup_insert_eq. done.
  - intros q Hq. by rewrite lookup_insert_ne.
  - by left.
Qed.

(** The goroutine at [pos] ends: its task gets a new status. *)
Lemma val_end_inv s todo pos threads res th t t' mx res' :
  val_inv (mkVal s todo threads res) ->
  threads !! pos = Some th -> sc_tasks s !! pos = Some t ->
  AbsoluteIndex t' = AbsoluteIndex t -> Tx t' = Tx t ->
  ~ finished (Status t') \/
    th <> VInvalidated /\ (finished (Status t') -> task_done okv (sc_stores s) t' ∅) /\
    (Status t' = statusValidated -> validated_at (M := M) (sc_stores s) (AbsoluteIndex t) \/
       spoiled_below s threads pos) ->
  res' = res \/ res' = res ++ [pos] /\ Status t' = statusPending ->
  val_inv (mkVal (mkSched (sc_stores s) (<[pos := t']> (sc_tasks s)) (sc_synchronous s) mx)
             todo (delete pos threads) res').
Proof.
  intros Hinv Hth Ht Hi Hx Hcase Hr. destruct (todo_untouched _ _ _ _ _ _ Hinv Hth) as (Hres & Hnd & Hsub).
  destruct (vi_threads _ Hinv _ _ Hth) as (t0 & Ht0 & Hfin). simpl in Ht0. simplify_eq.
  eapply (val_frame s todo threads res pos t t' (sc_stores s)); simpl; try done.
  - apply (vi_stores _ Hinv).
  - intros. apply stores_same_at_refl.
  - by left.
  - intros (tq & Htq & Hsp). simplify_eq. eexists. simpl.
    rewrite list_lookup_insert_eq by (by eapply lookup_lt_Some). split; [done|]. right.
    destruct Hcase as [Hn|(Hne & _)]; [done|]. destruct Hsp; congruence.
  - intros Hf _. destruct Hcase as [Hn|(_ & Hd & _)]; [done|auto].
  - rewrite lookup_delete_eq. intros [(Hs & _)|?]; [|done].
    destruct Hcase as [Hn|(_ & _ & Hv)]; [destruct Hn; by right|]. destruct (Hv Hs); auto.
  - by rewrite lookup_delete_eq.
  - by rewrite lookup_delete_eq.
  - intros q Hq. by rewrite lookup_delete_ne.
  - destruct Hr as [->|[-> Hp]]; [by left|right]. by rewrite lookup_delete_eq.
Qed.

Lemma val_step_inv c c' : val_step (M := M) c c' -> val_inv c -> val_inv c'.
Proof.
  intros Hstep Hinv. destruct Hstep as
    [s pre pos post threads res t Ht Hs | s pre pos post threads res t valid conflicts keys Hth Ht Hs Hfc
    | s pre pos post threads res t b Ht Hs Hd | s todo pos threads res t conflicts Hth Ht
    | s todo pos threads res t Hth Ht | s todo pos threads res c conflicts Hth
    | s todo pos threads res t Hth Ht Hd | s todo pos threads res t Hth Ht Hd].
  - by apply val_rerun_inv.
  - by eapply val_check_inv.
  - destruct b; [by apply val_rerun_inv|by eapply val_skip_inv].
  - by apply val_invalid_inv.
  - destruct (vi_threads _ Hinv _ _ Hth) as (t0 & Ht0 & Hfin). simpl in Ht0. simplify_eq.
    eapply val_end_inv; [done..| |by left]. right. split_and!; [done| |].
    + intros _. eapply task_done_ext; [..|eapply (vi_done _ Hinv pos t Ht Hfin)]; try done.
      simpl. by rewrite Hth.
    + intros _. apply (vi_valid _ Hinv pos t Ht). by right.
  - destruct (vi_threads _ Hinv _ _ Hth) as (t0 & Ht0 & Hfin). simpl in Ht0.
    replace s with (mkSched (sc_stores s) (<[pos := t0]> (sc_tasks s)) (sc_synchronous s)
      (sc_maxIncarnation s)) at 1 by (destruct s; simpl in *; by rewrite list_insert_id).
    eapply val_end_inv; [done..| |by left]. right. split_and!; [done| |].
    + intros _. eapply (vi_done _ Hinv pos t0 Ht0 Hfin). simpl. by rewrite Hth.
    + intros _. right. by eapply (vi_conflicts _ Hinv).
  - eapply (val_end_inv s todo pos threads res VInvalidated t (Increment (Reset t)));
      [done..| |by right]. left. by intros [?|?].
  - eapply (val_end_inv s todo pos threads res VInvalidated t (SetStatus t statusWaiting));
      [done..| |by left]. left. by intros [?|?].
Qed.

Lemma val_steps_inv c c' : rtc (val_step (M := M)) c c' -> val_inv c -> val_inv c'.
Proof. induction 1; eauto using val_step_inv. Qed.
End Val.
