(* ===== verification/SchedulerLoop.v ===== *)
(** The loop of [ProcessAll]: its invariant, and the synchronous turn, which
    validates every task. *)
From stdpp Require Import base gmap sets list sorting relations.
From Stdlib Require Import ZArith Lia.
From S2P Require Import Prelude KVStore MVItem MVStore MVKV Scheduler SchedulerRuns SchedulerInv.
From S2P Require Import SchedulerExec SchedulerVal.
Open Scope Z_scope.

Section Loop.
Context {SK R T P M : Type} `{Countable SK} `{!BTree T, !BTreeLaws T}
  `{!KVStore P, !KVStoreLaws P} `{!MemDB M}.
Abbreviation task := (deliverTxTask SK R).
Abbreviation stores_t := (gmap SK (Store T P)).
Abbreviation sched_t := (@sched SK R T P _ _).
Implicit Types (stores st : stores_t) (t : task) (tasks : list task) (s : sched_t).

Variables (parents : gmap SK P) (reqs : list (Z * prog SK R)).
Variable okv : option bytes -> Prop.
Hypothesis okv_None : okv None.
Hypothesis parents_ok : forall sk q key, parents !! sk = Some q -> okv (kv_Get q key).
Hypothesis reqs_ok : forall i p, (i, p) ∈ reqs -> prog_okv okv p.
Hypothesis reqs_sorted : StronglySorted Z.lt reqs.*1.

(** ** The first task that is not validated. *)
Lemma IsStatus_true t (x : status) : IsStatus t x = true <-> Status t = x.
Proof. unfold IsStatus. apply bool_decide_eq_true. Qed.

Lemma findFirst_Some tasks f :
  findFirstNonValidated tasks = Some f ->
  (exists t, tasks !! f = Some t /\ Status t <> statusValidated) /\
  forall q u, (q < f)%nat -> tasks !! q = Some u -> Status u = statusValidated.
Proof.
  revert f. induction tasks as [|t tasks IH]; intros f; simpl; [done|].
  destruct (IsStatus t statusValidated) eqn:Hs.
  - destruct (findFirstNonValidated tasks) as [g|]; simpl; [|done]. intros [= <-].
    destruct (IH g eq_refl) as [Hg Hq]. split; [done|]. intros [|q] u Hlt Hu; simpl in Hu.
    + simplify_eq. by apply IsStatus_true.
    + eapply Hq; [|done]. lia.
  - intros [= <-]. split; [|lia]. exists t. split; [done|]. rewrite <- IsStatus_true. congruence.
Qed.

Lemma findFirst_None tasks :
  findFirstNonValidated tasks = None <-> allValidated tasks = true.
Proof.
  induction tasks as [|t tasks IH]; simpl; [done|]. destruct (IsStatus t statusValidated); simpl; [|done].
  rewrite <- IH. by destruct (findFirstNonValidated tasks).
Qed.

Lemma allValidated_spec tasks :
  allValidated tasks = true <-> forall q u, tasks !! q = Some u -> Status u = statusValidated.
Proof.
  induction tasks as [|t tasks IH]; simpl.
  { split; [|done]. intros _ q u Hu. by rewrite lookup_nil in Hu. }
  rewrite andb_true_iff, IH, IsStatus_true. split.
  - intros [Ht Hts] [|q] u Hu; simpl in Hu; [by simplify_eq|eauto].
  - intros Hall. split; [by apply (Hall 0%nat)|]. intros q u Hu. by apply (Hall (S q)).
Qed.

(** ** The invariant of the loop. *)
Record loop_inv s (toExecute : list nat) : Prop := {
  li_stores : stores_ok parents reqs okv (sc_stores s);
  li_tasks : tasks_ok reqs (sc_tasks s);
  li_done : forall pos t, sc_tasks s !! pos = Some t -> finished (Status t) ->
    task_done okv (sc_stores s) t ∅;
  li_prefix : forall pos t, sc_tasks s !! pos = Some t ->
    (forall q u, (q <= pos)%nat -> sc_tasks s !! q = Some u -> Status u = statusValidated) ->
    validated_at (M := M) (sc_stores s) (AbsoluteIndex t);
  li_todo : forall pos t, pos ∈ toExecute -> sc_tasks s !! pos = Some t -> ~ finished (Status t);
  li_nodup : NoDup toExecute
}.

(** Into the execution phase and out of it. *)
Lemma loop_exec_inv s toExecute f :
  loop_inv s toExecute -> findFirstNonValidated (sc_tasks s) = Some f ->
  exec_inv (M := M) parents reqs okv f (mkExec s toExecute ∅).
Proof.
  intros Hinv Hf. destruct (findFirst_Some _ _ Hf) as [(tf & Htf & Hsf) Hpre]. split; simpl.
  - apply Hinv.
  - apply Hinv.
  - intros pos t Ht. rewrite lookup_empty. exact (li_done _ _ Hinv pos t Ht).
  - intros pos t Ht Hlt. split; [eauto|]. apply (li_prefix _ _ Hinv _ _ Ht).
    intros q u Hq. apply Hpre. lia.
  - intros t Ht. congruence.
  - intros pos Hpos. split_and!; [|done|intros t Ht; by eapply (li_todo _ _ Hinv)].
    destruct (decide (pos < f)%nat) as [Hlt|]; [|lia].
    destruct (lookup_lt_is_Some_2 (sc_tasks s) pos) as [t Ht].
    { apply lookup_lt_Some in Htf. lia. }
    destruct (li_todo _ _ Hinv _ _ Hpos Ht). right. eauto.
  - intros pos th. by rewrite lookup_empty.
  - apply Hinv.
Qed.

Lemma exec_loop_inv f s :
  exec_inv (M := M) parents reqs okv f (mkExec s [] ∅) -> loop_inv s [].
Proof.
  intros He. split; simpl.
  - apply (ei_stores _ _ _ _ _ He).
  - apply (ei_tasks _ _ _ _ _ He).
  - intros pos t Ht. pose proof (ei_exec _ _ _ _ _ He pos t Ht) as Hd. simpl in Hd.
    by rewrite lookup_empty in Hd.
  - intros pos t Ht Hval. destruct (decide (pos < f)%nat) as [Hlt|Hge].
    + by apply (ei_prefix _ _ _ _ _ He pos t Ht).
    + assert (Hlen : is_Some (sc_tasks s !! f)).
      { apply lookup_lt_is_Some_2. apply lookup_lt_Some in Ht. lia. }
      destruct Hlen as [u Hu]. destruct (ei_first _ _ _ _ _ He u Hu). apply (Hval f); [lia|done].
  - intros pos t Hin. by apply elem_of_nil in Hin.
  - constructor.
Qed.

Lemma exec_phase_inv s toExecute s1 :
  loop_inv s toExecute -> allValidated (sc_tasks s) = false ->
  executeAll_conc s toExecute s1 -> loop_inv s1 [].
Proof.
  intros Hinv Hall Hex. destruct (findFirstNonValidated (sc_tasks s)) as [f|] eqn:Hf.
  2:{ apply findFirst_None in Hf. congruence. }
  eapply exec_loop_inv, (exec_steps_inv parents reqs okv okv_None parents_ok reqs_ok reqs_sorted f _ _ Hex).
  by apply loop_exec_inv.
Qed.

(** Into the validation phase and out of it. *)
Lemma loop_val_inv s toExecute start :
  loop_inv s toExecute -> findFirstNonValidated (sc_tasks s) = Some start ->
  val_inv (M := M) parents reqs okv (mkVal s (seq start (length (sc_tasks s) - start)) ∅ []).
Proof.
  intros Hinv Hst. destruct (findFirst_Some _ _ Hst) as [_ Hpre]. split; simpl.
  - apply Hinv.
  - apply Hinv.
  - intros pos t Ht Hf _. by eapply (li_done _ _ Hinv).
  - intros pos t Ht [(Hs & Hn & _)|Hth]; [|by rewrite lookup_empty in Hth]. left.
    rewrite elem_of_seq in Hn. pose proof (lookup_lt_Some _ _ _ Ht).
    apply (li_prefix _ _ Hinv _ _ Ht). intros q u Hq. apply Hpre. lia.
  - intros pos c cs. by rewrite lookup_empty.
  - intros pos th. by rewrite lookup_empty.
  - done.
  - apply NoDup_ListNoDup, seq_NoDup.
  - intros pos Hin. by apply elem_of_nil in Hin.
  - constructor.
Qed.

Lemma val_loop_inv s res :
  val_inv (M := M) parents reqs okv (mkVal s [] ∅ res) -> loop_inv s res.
Proof.
  intros Hv. split.
  - apply (vi_stores _ _ _ _ Hv).
  - apply (vi_tasks _ _ _ _ Hv).
  - intros pos t Ht Hf. by eapply (vi_done _ _ _ _ Hv).
  - intros pos t Ht Hall. destruct (vi_valid _ _ _ _ Hv pos t Ht) as [|(q & Hq & tq & Htq & Hsp)]; [|done|].
    + left. split_and!; [by apply (Hall pos)|apply not_elem_of_nil|done].
    + simpl in *. destruct Hsp as [Hsp|Hsp]; [done|]. destruct Hsp. right. apply (Hall q); [lia|done].
  - intros pos t Hin Ht. destruct (vi_res _ _ _ _ Hv pos Hin) as (_ & _ & u & Hu & Hp).
    simpl in *. simplify_eq. rewrite Hp. by intros [?|?].
  - apply (vi_res_nodup _ _ _ _ Hv).
Qed.

Lemma val_phase_inv s1 s2 res :
  loop_inv s1 [] -> validateAll_conc (M := M) s1 s2 res -> loop_inv s2 res.
Proof.
  intros Hinv Hval. destruct Hval as [|start s2 res Hst Hsteps]; [done|].
  eapply val_loop_inv, (val_steps_inv parents reqs okv okv_None reqs_sorted _ _ Hsteps).
  by eapply loop_val_inv.
Qed.

(** ** The synchronous turn. *)

(** The tasks before [i] are executed and validate against the stores. *)
Record sync_inv (i : nat) s : Prop := {
  sy_stores : stores_ok parents reqs okv (sc_stores s);
  sy_tasks : tasks_ok reqs (sc_tasks s);
  sy_done : forall pos t, sc_tasks s !! pos = Some t -> (pos < i)%nat ->
    finished (Status t) /\ task_done okv (sc_stores s) t ∅ /\
    validated_at (M := M) (sc_stores s) (AbsoluteIndex t)
}.

Lemma sync_no_estimates i s t stores :
  sync_inv i s -> sc_tasks s !! i = Some t ->
  stores_ok parents reqs okv stores ->
  (forall j, j <> AbsoluteIndex t -> stores_same_at j (sc_stores s) stores) ->
  no_estimates stores (AbsoluteIndex t).
Proof.
  intros Hinv Ht Hst Hsame sk mv key j x Hsk Hx Hlt.
  pose proof (so_indices _ _ _ _ _ (sso_store _ _ _ _ Hst _ _ Hsk) _ _ _ Hx) as Hin.
  destruct (index_position reqs _ _ (sy_tasks _ _ Hinv) Hin) as (q & tq & Hq & Hqi). subst j.
  assert (Hqi : (q < i)%nat).
  { destruct (decide (q < i)%nat) as [|Hge]; [done|].
    destruct (decide (q = i)) as [->|Hne]; [simplify_eq; lia|].
    pose proof (index_lt reqs reqs_sorted _ i q t tq (sy_tasks _ _ Hinv) Ht Hq ltac:(lia)). lia. }
  destruct (sy_done _ _ Hinv q tq Hq Hqi) as (_ & Hd & _).
  eapply (done_no_estimate reqs okv okv_None reqs_sorted stores tq); [|done|done].
  eapply task_done_stable; [|done]. apply Hsame. lia.
Qed.

(** A run without estimates ends without abort, consistent and resolved. *)
Lemma run_prog_sync stores t :
  stores_ok parents reqs okv stores -> no_estimates stores (AbsoluteIndex t) ->
  prog_okv okv (Tx t) ->
  let t := prepareTask stores t in
  let '(vs, ch, r) := run_prog stores (VersionStores t) (AbortCh t) (Tx t) in
  vs_ok okv stores (AbsoluteIndex t) (Incarnation t) vs ch /\ ch_buf ch = [] /\
  consistent (Tx t) vs r /\ reads_resolved stores (AbsoluteIndex t) vs.
Proof.
  intros Hst Hest Hp t'. pose proof (stores_ok_values _ _ _ parents_ok _ Hst) as Hval.
  pose proof (run_prog_inv stores (fun vs ch p =>
    vs_ok okv stores (AbsoluteIndex t) (Incarnation t) vs ch /\ ch_buf ch = [] /\ prog_okv okv p /\
    reads_resolved stores (AbsoluteIndex t) vs /\
    forall o, agrees o vs -> oracle_run o (empty_writes vs) (Tx t) =
      oracle_run o (vs_writeset <$> vs) p)) as Hrun.
  specialize (fun Hs => Hrun Hs (Tx t') (VersionStores t') (AbortCh t')).
  destruct (run_prog stores (VersionStores t') (AbortCh t') (Tx t')) as [[vs ch] r].
  destruct Hrun as (Hvs & Hb & _ & Hres & Hcons).
  - intros vs0 ch0 p0 vs1 ch1 p1 (Hvs & Hb & Hp0 & Hres & Hcons) Hstep.
    destruct (prog_step_resolved okv stores _ _ _ _ _ _ _ _ Hvs Hval Hest Hres Hstep) as [-> Hres'].
    destruct (prog_step_ok okv okv_None _ _ _ _ _ _ _ _ _ Hvs Hval Hp0 Hstep) as (Hvs' & Hp' & Hc).
    split_and!; [done..|]. intros o Ho. destruct (Hc Hb) as [_ Ho']. destruct (Ho' o Ho) as [Ho0 <-].
    rewrite <- (Hcons o Ho0). f_equal. by eapply empty_writes_dom.
  - split_and!; [exact (prepareTask_ok okv stores t)|done|done| |].
    + intros sk mv v key x Hsk. simpl. rewrite lookup_fmap, Hsk. intros [= <-]. done.
    + intros o _. unfold t'. by rewrite prepareTask_writes.
  - split_and!; [done|done| |done]. intros o Ho. by rewrite Hcons.
Qed.

Lemma bytes_equal_refl v : bytes_equal v v = true.
Proof. by apply bool_decide_eq_true. Qed.

Lemma resolve_read_ok (mv : Store T P) index key x :
  resolve mv index key = Some x -> read_ok mv index (key, [x]).
Proof.
  unfold resolve, read_ok. simpl. destruct (GetLatestBeforeIndex mv index key) as [y|].
  - destruct (IsEstimate y) eqn:He; [done|]. intros [= <-]. split; [done|].
    unfold IsDeleted. destruct (vi_value y); simpl; [apply bytes_equal_refl|].
    by destruct (vi_estimate y).
  - intros [= <-]. apply bytes_equal_refl.
Qed.

Lemma resolve_local (mv1 mv2 : Store T P) index key :
  (forall j, j < index -> version mv1 key j = version mv2 key j) ->
  parentStore mv1 = parentStore mv2 ->
  resolve mv1 index key = resolve mv2 index key.
Proof.
  intros Hv Hp. unfold resolve. rewrite (GetLatestBeforeIndex_local mv1 mv2) by done. by rewrite Hp.
Qed.

(** A task whose run resolved every read, after its writes went out. *)
Lemma sync_task_written stores t r :
  let st := write_stores false (VersionStores t) stores in
  stores_ok parents reqs okv stores ->
  vs_ok okv stores (AbsoluteIndex t) (Incarnation t) (VersionStores t) (AbortCh t) ->
  AbsoluteIndex t ∈ reqs.*1 -> Response t = Some r -> consistent (Tx t) (VersionStores t) r ->
  task_done okv st t ∅.
Proof.
  intros st Hst Hvs Hin Hr Hcons. split; [|by exists r|].
  - eapply (vs_ok_stores okv stores _ _ _ _ _ (AbsoluteIndex t + 1)); [|done].
    eapply write_stores_same; [done|done|lia].
  - intros sk v mv _ Hsk. unfold st. rewrite write_stores_lookup, Hsk.
    destruct (stores !! sk) as [mv0|] eqn:Hmv0; [|done]. intros [= <-].
    eapply write_store_written; [|by eapply vso_vis].
    eapply so_wf, (sso_store _ _ _ _ Hst _ _ Hmv0).
Qed.

Lemma sync_task_validated stores t :
  let st := write_stores false (VersionStores t) stores in
  stores_ok parents reqs okv stores -> stores_ok parents reqs okv st ->
  vs_ok okv stores (AbsoluteIndex t) (Incarnation t) (VersionStores t) (AbortCh t) ->
  task_done okv st t ∅ -> reads_resolved stores (AbsoluteIndex t) (VersionStores t) ->
  validated_at (M := M) st (AbsoluteIndex t).
Proof.
  intros st Hst Hst' Hvs Hd Hres sk mv' Hsk'.
  rewrite (Validate_readset parents reqs okv sk) by (by apply Hst').
  destruct (proj1 (vso_dom _ _ _ _ _ _ (td_vs _ _ _ _ Hd) sk) ltac:(eauto)) as [v Hv].
  destruct (td_written _ _ _ _ Hd sk v mv' ltac:(set_solver) Hv Hsk') as [_ Hread].
  eapply checkReadsetAtIndex_complete; [done|]. intros key vals Hk.
  destruct (vo_reads _ _ _ _ (vso_vis _ _ _ _ _ _ Hvs sk v Hv) key vals Hk) as (x & -> & _).
  assert (Hsame : forall j, j <> AbsoluteIndex t -> stores_same_at j stores st).
  { intros j Hj. by eapply write_stores_same. }
  destruct (stores_same_at_lookup (AbsoluteIndex t - 1) stores st sk mv' (Hsame (AbsoluteIndex t - 1) ltac:(lia)) Hsk')
    as (mv & Hmv & _ & _ & Hp).
  apply resolve_read_ok. rewrite <- (resolve_local mv mv').
  - by eapply Hres.
  - intros j Hj. specialize (Hsame j ltac:(lia) sk). rewrite Hsk', Hmv in Hsame.
    inversion_clear Hsame as [? ? Hs|]. apply Hs.
  - done.
Qed.

Lemma sync_frame i s t t' st s' :
  sync_inv i s -> sc_tasks s !! i = Some t ->
  sc_tasks s' = <[i := t']> (sc_tasks s) -> sc_stores s' = st ->
  AbsoluteIndex t' = AbsoluteIndex t -> Tx t' = Tx t ->
  stores_ok parents reqs okv st ->
  (forall j, j <> AbsoluteIndex t -> stores_same_at j (sc_stores s) st) ->
  finished (Status t') -> task_done okv st t' ∅ -> validated_at (M := M) st (AbsoluteIndex t') ->
  sync_inv (S i) s'.
Proof.
  intros Hinv Ht Htk Hst Hi Hx Hok Hsame Hf Hd Hv. split; rewrite ?Htk, ?Hst.
  - done.
  - by eapply tasks_ok_insert; [apply Hinv| | |].
  - intros pos u Hu Hlt. destruct (decide (pos = i)) as [->|Hne].
    + rewrite list_lookup_insert_eq in Hu by (by eapply lookup_lt_Some). by simplify_eq.
    + rewrite list_lookup_insert_ne in Hu by done.
      destruct (sy_done _ _ Hinv pos u Hu ltac:(lia)) as (Hfu & Hdu & Hvu).
      pose proof (index_lt reqs reqs_sorted _ pos i u t (sy_tasks _ _ Hinv) Hu Ht ltac:(lia)) as Hlt'.
      split_and!; [done| |].
      * eapply task_done_stable; [|done]. apply Hsame. lia.
      * eapply (validated_at_stable parents reqs okv (sc_stores s)); [apply Hinv|done| |done].
        intros j Hj. apply Hsame. lia.
Qed.

Lemma sync_step i s t t1 stores s1 :
  sync_inv i s -> sc_tasks s !! i = Some t -> sc_tasks s1 = sc_tasks s -> sc_stores s1 = stores ->
  stores_ok parents reqs okv stores ->
  (forall j, j <> AbsoluteIndex t -> stores_same_at j (sc_stores s) stores) ->
  AbsoluteIndex t1 = AbsoluteIndex t -> Tx t1 = Tx t ->
  let t2 := prepareTask stores t1 in
  let '(vs, ch, resp) := run_prog stores (VersionStores t2) (AbortCh t2) (Tx t2) in
  let '(t3, estimates) := finish_task (with_stores t2 vs ch) resp in
  sync_inv (S i) (put_task (put_stores s1 (write_stores estimates vs stores)) i t3).
Proof.
  intros Hinv Ht Htk Hs1 Hst Hsame Hi Hx t2.
  assert (Hin : AbsoluteIndex t ∈ reqs.*1) by (eapply tasks_ok_index; [apply Hinv|done]).
  pose proof (run_prog_sync stores t1 Hst) as Hrun. rewrite Hi, Hx in Hrun.
  specialize (Hrun (sync_no_estimates _ _ _ _ Hinv Ht Hst Hsame)
    (tasks_ok_prog reqs okv reqs_ok _ _ _ (sy_tasks _ _ Hinv) Ht)). cbv zeta in Hrun. fold t2 in Hrun.
  destruct (run_prog stores (VersionStores t2) (AbortCh t2) (Tx t2)) as [[vs ch] resp].
  destruct Hrun as (Hvs & Hb & Hcons & Hres).
  unfold finish_task. simpl AbortCh. rewrite Hb.
  set (t3 := mkTask _ _ _ _ _ _ _ _ _).
  assert (Hi3 : AbsoluteIndex t3 = AbsoluteIndex t) by done.
  assert (Hst' : stores_ok parents reqs okv (write_stores false vs stores)).
  { eapply write_stores_ok; [done..|]. change (AbsoluteIndex t2) with (AbsoluteIndex t1). by rewrite Hi. }
  assert (Hd : task_done okv (write_stores false vs stores) t3 ∅).
  { eapply (sync_task_written stores t3 resp); [done|exact Hvs| |done|exact Hcons]. by rewrite Hi3. }
  eapply (sync_frame i s t t3 (write_stores false vs stores)); [done|done| |done|done| |done| | |done|].
  - simpl. by rewrite Htk.
  - by rewrite <- Hx.
  - intros j Hj. eapply stores_same_at_trans; [by apply Hsame|].
    eapply write_stores_same; [done|done|]. change (AbsoluteIndex t2) with (AbsoluteIndex t1). by rewrite Hi.
  - by left.
  - by apply (sync_task_validated stores t3).
Qed.

Lemma executeTask_sync i s :
  sync_inv i s -> sc_synchronous s = true -> (i < length (sc_tasks s))%nat ->
  sync_inv (S i) (executeTask s i) /\ sc_synchronous (executeTask s i) = true /\
  length (sc_tasks (executeTask s i)) = length (sc_tasks s).
Proof.
  intros Hinv Hsy [t Ht]%lookup_lt_is_Some_2. unfold executeTask. rewrite Ht, Hsy. simpl.
  set (s1 := if IsStatus t statusValidated then _ else _).
  assert (Hin : AbsoluteIndex t ∈ reqs.*1) by (eapply tasks_ok_index; [apply Hinv|done]).
  assert (Hs1 : sc_tasks s1 = sc_tasks s /\ sc_synchronous s1 = true /\
    stores_ok parents reqs okv (sc_stores s1) /\
    forall j, j <> AbsoluteIndex t -> stores_same_at j (sc_stores s) (sc_stores s1)).
  { unfold s1. destruct (IsStatus t statusValidated); simpl; (split_and!; [done|done| |]).
    - apply invalidateTask_ok; [done|apply Hinv|done].
    - intros j Hj. by apply invalidateTask_same.
    - apply Hinv.
    - intros j _. apply stores_same_at_refl. }
  destruct Hs1 as (Htk & Hsy1 & Hst1 & Hsame1). rewrite Hsy1. simpl.
  set (t1 := if negb (IsStatus t statusPending) then Increment (Reset t) else t).
  pose proof (sync_step i s t t1 (sc_stores s1) s1 Hinv Ht Htk eq_refl Hst1 Hsame1) as Hstep.
  specialize (Hstep ltac:(unfold t1; by destruct (negb _)) ltac:(unfold t1; by destruct (negb _))).
  cbv zeta in Hstep. destruct (run_prog _ _ _ _) as [[vs ch] resp].
  destruct (finish_task _ _) as [t3 estimates]. split_and!; [done|done|].
  simpl. by rewrite length_insert, Htk.
Qed.

Lemma executeAll_sync_inv n i s :
  sync_inv i s -> sc_synchronous s = true -> (i + n = length (sc_tasks s))%nat ->
  let s' := executeAll_sync s (seq i n) in
  sync_inv (length (sc_tasks s')) s' /\ length (sc_tasks s') = length (sc_tasks s).
Proof.
  revert i s. induction n as [|n IH]; intros i s Hinv Hsy Hlen; simpl.
  - by replace (length (sc_tasks s)) with i by lia.
  - destruct (executeTask_sync i s Hinv Hsy ltac:(lia)) as (Hinv' & Hsy' & Hlen').
    rewrite <- Hlen'. apply IH; [done|done|lia].
Qed.

Lemma task_done_status stores t x :
  task_done okv stores t ∅ -> task_done okv stores (SetStatus t x) ∅.
Proof. intros [Hvs Hr Hw]. by split. Qed.

Lemma validate_one_sync n s pos t :
  sync_inv n s -> sc_tasks s !! pos = Some t -> (pos < n)%nat ->
  validate_one (M := M) s pos = Some (put_task s pos (SetStatus t statusValidated), []) /\
  sync_inv n (put_task s pos (SetStatus t statusValidated)).
Proof.
  intros Hinv Ht Hn. destruct (sy_done _ _ Hinv pos t Ht Hn) as (Hf & Hd & Hv). split.
  - unfold validate_one. rewrite Ht. simpl. unfold shouldRerun.
    destruct (proj2 (findConflicts_validated (M := M) (sc_stores s) t) Hv) as [keys Hk].
    by destruct Hf as [Hf|Hf]; rewrite Hf, Hk.
  - split; simpl; [apply Hinv|by eapply tasks_ok_insert; [apply Hinv| | |]|].
    intros q u Hu Hlt. destruct (decide (q = pos)) as [->|Hne].
    + rewrite list_lookup_insert_eq in Hu by (by eapply lookup_lt_Some). simplify_eq. simpl.
      split_and!; [by right|by apply task_done_status|done].
    + rewrite list_lookup_insert_ne in Hu by done. exact (sy_done _ _ Hinv q u Hu Hlt).
Qed.

Lemma validate_positions_sync n start s :
  (start + n = length (sc_tasks s))%nat -> sync_inv (length (sc_tasks s)) s ->
  (forall q u, (q < start)%nat -> sc_tasks s !! q = Some u -> Status u = statusValidated) ->
  exists s', validate_positions (M := M) s [] (seq start n) = Some (s', []) /\
    sync_inv (length (sc_tasks s')) s' /\ allValidated (sc_tasks s') = true.
Proof.
  revert start s. induction n as [|n IH]; intros start s Hn Hinv Hpre; simpl.
  - exists s. split_and!; [done..|]. apply allValidated_spec. intros q u Hu.
    apply (Hpre q); [|done]. apply lookup_lt_Some in Hu. lia.
  - destruct (lookup_lt_is_Some_2 (sc_tasks s) start ltac:(lia)) as [t Ht].
    destruct (validate_one_sync _ s start t Hinv Ht ltac:(lia)) as [-> Hinv']. simpl.
    apply IH; simpl; rewrite ?length_insert; [lia|done|].
    intros q u Hq Hu. destruct (decide (q = start)) as [->|Hne].
    + rewrite list_lookup_insert_eq in Hu by (by eapply lookup_lt_Some). by simplify_eq.
    + rewrite list_lookup_insert_ne in Hu by done. apply (Hpre q); [lia|done].
Qed.

(** The synchronous turn ends with every task validated and none to run again. *)
Lemma sync_round_inv s toExecute startIdx :
  loop_inv s toExecute -> findFirstNonValidated (sc_tasks s) = Some startIdx ->
  exists s', sync_round (M := M) s startIdx = Some (s', []) /\
    loop_inv s' [] /\ allValidated (sc_tasks s') = true.
Proof.
  intros Hinv Hf. destruct (findFirst_Some _ _ Hf) as [(tf & Htf & _) Hpre].
  assert (Hi : sync_inv startIdx (set_synchronous s)).
  { split; [apply Hinv|apply Hinv|]. simpl. intros pos t Ht Hlt. split_and!.
    - right. eauto.
    - apply (li_done _ _ Hinv pos t Ht). right. eauto.
    - apply (li_prefix _ _ Hinv pos t Ht). intros q u Hq. apply Hpre. lia. }
  pose proof (lookup_lt_Some _ _ _ Htf) as Hlt.
  destruct (executeAll_sync_inv (length (sc_tasks s) - startIdx) startIdx _ Hi eq_refl) as [He Hlen];
    [simpl; lia|]. unfold sync_round. simpl. simpl in Hlen.
  set (s1 := executeAll_sync _ _) in *. unfold validateAll_sync.
  assert (Hend : exists s', match findFirstNonValidated (sc_tasks s1) with
    | None => Some (s1, [])
    | Some st => validate_positions (M := M) s1 [] (seq st (length (sc_tasks s1) - st))
    end = Some (s', []) /\ sync_inv (length (sc_tasks s')) s' /\ allValidated (sc_tasks s') = true).
  { destruct (findFirstNonValidated (sc_tasks s1)) as [st|] eqn:Hst.
    - destruct (findFirst_Some _ _ Hst) as [(u & Hu & _) Hpre1]. apply lookup_lt_Some in Hu.
      apply validate_positions_sync; [lia|done|done].
    - exists s1. split_and!; [done..|]. by apply findFirst_None. }
  destruct Hend as (s' & Heq & Hs' & Hall). exists s'. split_and!; [done| |done]. split.
  - apply Hs'.
  - apply Hs'.
  - intros pos t Ht _. by apply (sy_done _ _ Hs' pos t Ht (lookup_lt_Some _ _ _ Ht)).
  - intros pos t Ht _. by apply (sy_done _ _ Hs' pos t Ht (lookup_lt_Some _ _ _ Ht)).
  - intros pos t Hin. by apply elem_of_nil in Hin.
  - constructor.
Qed.

(** ** The whole loop. *)
Lemma process_inv n s toExecute s' :
  process (M := M) n s toExecute s' -> loop_inv s toExecute ->
  exists toExecute', loop_inv s' toExecute' /\ allValidated (sc_tasks s') = true.
Proof.
  induction 1 as [|n s todo s1 s2 todo2 s' Hall _ Hex Hval _ IH|n s todo f s2 todo2 s' _ _ Hf Hr _ IH];
    intros Hinv; [by eauto| |]; apply IH.
  - eapply val_phase_inv; [|done]. by eapply exec_phase_inv.
  - destruct (sync_round_inv s todo f Hinv Hf) as (s3 & Hs3 & Hinv3 & _). by simplify_eq.
Qed.

Lemma init_inv : loop_inv (init_sched parents reqs) (seq 0 (length reqs)).
Proof.
  assert (Hp : forall pos t, toTasks reqs !! pos = Some t -> Status t = statusPending).
  { intros pos t. unfold toTasks. rewrite list_lookup_fmap. destruct (reqs !! pos); [|done].
    by intros [= <-]. }
  split; simpl.
  - split; intros sk; rewrite lookup_fmap; [by rewrite fmap_is_Some|].
    intros mv. destruct (parents !! sk) as [q|] eqn:Hq; [|done]. by intros [= <-].
  - unfold tasks_ok, toTasks. rewrite <- list_fmap_compose. rewrite <- (list_fmap_id reqs) at 2.
    apply list_fmap_ext. by intros i [].
  - intros pos t Ht. rewrite (Hp _ _ Ht). by intros [?|?].
  - intros pos t Ht Hall. specialize (Hall pos t (le_n _) Ht). by rewrite (Hp _ _ Ht) in Hall.
  - intros pos t _ Ht. rewrite (Hp _ _ Ht). by intros [?|?].
  - apply NoDup_ListNoDup, seq_NoDup.
Qed.
End Loop.
