(* ===== verification/Serializability.v ===== *)
(** What [ProcessAll] computes: the responses and the stores of running the
    transactions one after the other, whatever the goroutines interleave. *)
From stdpp Require Import base gmap sets list sorting relations.
From Stdlib Require Import ZArith Lia.
From S2P Require Import Prelude KVStore MVItem MVStore MVKV Scheduler SchedulerRuns SchedulerInv.
From S2P Require Import SchedulerSeq SchedulerExec SchedulerVal SchedulerLoop.
Open Scope Z_scope.

(** Values that [bytes.Equal] tells from a missing key. *)
Definition distinct_values (v : option bytes) : Prop := v <> Some [].

Lemma bytes_equal_distinct v w :
  distinct_values v -> distinct_values w -> bytes_equal v w = true -> v = w.
Proof.
  unfold distinct_values, bytes_equal. intros Hv Hw Hb%bool_decide_eq_true.
  destruct v as [[|]|], w as [[|]|]; simpl in Hb; congruence.
Qed.

Section Bounds.
Context {SK R T P M : Type} `{Countable SK} `{!BTree T, !BTreeLaws T}
  `{!KVStore P, !KVStoreLaws P} `{!MemDB M}.
Abbreviation task := (deliverTxTask SK R).
Abbreviation stores_t := (gmap SK (Store T P)).
Implicit Types (stores : stores_t) (t : task) (tasks : list task).

Variables (parents : gmap SK P) (reqs : list (Z * prog SK R)).
Hypothesis reqs_sorted : StronglySorted Z.lt reqs.*1.

(** ** The sequential reference. *)
Lemma seq_all_snoc (st : gmap SK P) txs (p : prog SK R) :
  seq_all st (txs ++ [p]) =
  ((seq_run (seq_all st txs).1 p).1, (seq_all st txs).2 ++ [(seq_run (seq_all st txs).1 p).2]).
Proof.
  revert st. induction txs as [|q txs IH]; intros st; simpl.
  - by destruct (seq_run st p).
  - destruct (seq_run st q) as [st1 r]. rewrite IH. by destruct (seq_all st1 txs).
Qed.

(** [b] separates the first [n] indices from the others. *)
Definition before (n : nat) (b : Z) : Prop :=
  forall pos i, reqs.*1 !! pos = Some i -> (pos < n)%nat <-> i < b.

Lemma before_index n i : reqs.*1 !! n = Some i -> before n i.
Proof.
  intros Hn pos j Hpos. split; [intros; by eapply sorted_lookup_lt|]. intros Hlt.
  destruct (decide (pos < n)%nat) as [|Hge]; [done|]. destruct (decide (pos = n)) as [->|].
  - simplify_eq. lia.
  - assert (i < j) by (eapply (sorted_lookup_lt reqs.*1 n pos); [done..|lia]). lia.
Qed.

Lemma before_exists : exists b, before (length reqs) b.
Proof.
  assert (Hb : forall l : list Z, exists b, forall i, i ∈ l -> i < b).
  { induction l as [|i l [b Hb]]; [exists 0; intros i Hi; by apply elem_of_nil in Hi|].
    exists (Z.max b (i + 1)). intros j [->|Hj]%elem_of_cons; [lia|]. specialize (Hb j Hj). lia. }
  destruct (Hb reqs.*1) as [b Hb']. exists b. intros pos i Hi. split.
  - intros _. by eapply Hb', list_elem_of_lookup_2.
  - intros _. apply lookup_lt_Some in Hi. by rewrite length_fmap in Hi.
Qed.

(** ** The stores seen from a bound. *)
Variable okv : option bytes -> Prop.

Lemma final_value_first sk (mv : Store T P) b key :
  store_ok parents reqs okv sk mv -> before 0 b ->
  final_value mv b key = kv_view (parentStore mv) !! key.
Proof.
  intros Hmv Hb. unfold final_value. rewrite (proj2 (GetLatestBeforeIndex_version_None mv b key)); [done|].
  intros j y Hj. pose proof (so_indices _ _ _ _ _ Hmv _ _ _ Hj) as [pos Hpos]%list_elem_of_lookup.
  specialize (Hb pos j Hpos). lia.
Qed.

Lemma final_value_next sk (mv : Store T P) n i b key :
  store_ok parents reqs okv sk mv -> reqs.*1 !! n = Some i -> before (S n) b ->
  final_value mv b key =
  match version mv key i with Some x => vi_value x | None => final_value mv i key end.
Proof.
  intros Hmv Hn Hb. pose proof (before_index n i Hn) as Hi. pose proof (proj1 (Hb n i Hn) ltac:(lia)) as Hib.
  assert (Hlt : forall j y, version mv key j = Some y -> j < b -> j <= i).
  { intros j y Hj Hjb. pose proof (so_indices _ _ _ _ _ Hmv _ _ _ Hj) as [pos Hpos]%list_elem_of_lookup.
    apply (Hb pos j Hpos) in Hjb. destruct (decide (pos = n)) as [->|]; [simplify_eq; lia|].
    apply Z.lt_le_incl, (Hi pos j Hpos). lia. }
  unfold final_value. destruct (version mv key i) as [x|] eqn:Hx.
  - assert (Hvi : vi_index x = i) by (by eapply version_index). subst i.
    by rewrite (proj2 (GetLatestBeforeIndex_version mv b key x)).
  - replace (GetLatestBeforeIndex mv b key) with (GetLatestBeforeIndex mv i key); [done|].
    apply option_eq. intros y. rewrite !GetLatestBeforeIndex_version.
    split; intros (Hv & Hl & Hm); (split_and!; [done| |]).
    + lia.
    + intros j z Hj Hjb. apply (Hm j z Hj). specialize (Hlt j z Hj Hjb).
      destruct (decide (j = i)) as [->|]; [congruence|lia].
    + specialize (Hlt _ _ Hv Hl). destruct (decide (vi_index y = i)) as [He|]; [congruence|lia].
    + intros j z Hj Hji. apply (Hm j z Hj). lia.
Qed.

Lemma all_done_final stores tasks b :
  okv None -> stores_ok parents reqs okv stores -> tasks_ok reqs tasks ->
  (forall pos t, tasks !! pos = Some t -> task_done okv stores t ∅) ->
  before (length reqs) b ->
  forall sk mv, stores !! sk = Some mv -> all_final mv b.
Proof.
  intros Hnone Hst Htk Hd Hb sk mv Hmv key i x Hx.
  pose proof (so_indices _ _ _ _ _ (sso_store _ _ _ _ Hst _ _ Hmv) _ _ _ Hx) as Hin.
  split.
  - apply list_elem_of_lookup in Hin as [pos Hpos]. apply (Hb pos i Hpos).
    apply lookup_lt_Some in Hpos. by rewrite length_fmap in Hpos.
  - destruct (index_position reqs _ _ Htk Hin) as (q & t & Ht & <-).
    by eapply (done_no_estimate reqs okv Hnone reqs_sorted); [apply (Hd q t Ht)|done|done].
Qed.
End Bounds.

Section Final.
Context {SK R T P M : Type} `{Countable SK} `{!BTree T, !BTreeLaws T}
  `{!KVStore P, !KVStoreLaws P} `{!MemDB M}.
Abbreviation task := (deliverTxTask SK R).
Abbreviation stores_t := (gmap SK (Store T P)).
Implicit Types (stores : stores_t) (t : task) (tasks : list task).

Variables (parents : gmap SK P) (reqs : list (Z * prog SK R)).
Hypothesis reqs_sorted : StronglySorted Z.lt reqs.*1.

(** [st] holds what the stores show below [b]. *)
Definition shows stores (b : Z) (st : gmap SK P) : Prop :=
  forall sk, match stores !! sk, st !! sk with
             | Some mv, Some q => forall key, kv_view q !! key = final_value mv b key
             | None, None => True
             | _, _ => False
             end.

(** Validated reads are those of the state below the task. *)
Lemma validated_agrees stores t st :
  stores_ok parents reqs distinct_values stores ->
  (forall sk q key, parents !! sk = Some q -> distinct_values (kv_Get q key)) ->
  task_done distinct_values stores t ∅ ->
  validated_at (M := M) stores (AbsoluteIndex t) ->
  shows stores (AbsoluteIndex t) st ->
  agrees (state_oracle st) (VersionStores t).
Proof.
  intros Hst Hpar Hd Hval Hshow sk v key x Hk Hv Hx.
  destruct (proj2 (vso_dom _ _ _ _ _ _ (td_vs _ _ _ _ Hd) sk) ltac:(eauto)) as [mv Hmv].
  pose proof (sso_store _ _ _ _ Hst _ _ Hmv) as Hok.
  destruct (td_written _ _ _ _ Hd sk v mv ltac:(set_solver) Hv Hmv) as [_ Hread].
  destruct (Hval sk mv Hmv) as [ks Hks]. rewrite (Validate_readset parents reqs distinct_values sk) in Hks by done.
  pose proof (checkReadsetAtIndex_ok _ _ _ _ Hread Hks _ _ Hx) as Hr.
  destruct (vo_reads _ _ _ _ (vso_vis _ _ _ _ _ _ (td_vs _ _ _ _ Hd) sk v Hv) key [x] Hx)
    as (? & [= <-] & Hxok).
  specialize (Hshow sk). rewrite Hmv in Hshow. unfold state_oracle.
  destruct (st !! sk) as [q|]; [|done]. simpl. rewrite kv_Get_view, Hshow by done.
  unfold final_value. unfold read_ok in Hr. simpl in Hr.
  destruct (GetLatestBeforeIndex mv (AbsoluteIndex t) key) as [y|] eqn:Hy.
  - apply GetLatestBeforeIndex_version in Hy as [Hy _]. apply (so_values _ _ _ _ _ Hok) in Hy.
    destruct Hr as [He Hr]. unfold IsDeleted in Hr.
    destruct (vi_value y) as [w|] eqn:Hw; simpl in Hr.
    + by apply bytes_equal_distinct.
    + destruct (vi_estimate y); simpl in Hr; [by apply bytes_equal_distinct|done].
  - rewrite <- kv_Get_view by done. apply bytes_equal_distinct; [|done|done].
    eapply Hpar, Hok.
Qed.

Lemma empty_overlay stores t (st : gmap SK P) b :
  task_done distinct_values stores t ∅ -> shows stores b st ->
  forall sk, overlay_at st (empty_writes (VersionStores t)) st sk.
Proof.
  intros Hd Hshow sk. pose proof (vso_dom _ _ _ _ _ _ (td_vs _ _ _ _ Hd) sk) as Hdom.
  specialize (Hshow sk). unfold overlay_at, empty_writes. rewrite lookup_fmap.
  destruct (stores !! sk), (st !! sk), (VersionStores t !! sk); simpl; try done.
  - by destruct (proj1 Hdom ltac:(eauto)).
  - by destruct (proj2 Hdom ltac:(eauto)).
Qed.

(** One more transaction. *)
Lemma shows_next stores n t st :
  stores_ok parents reqs distinct_values stores ->
  (forall sk q key, parents !! sk = Some q -> distinct_values (kv_Get q key)) ->
  task_done distinct_values stores t ∅ ->
  validated_at (M := M) stores (AbsoluteIndex t) ->
  reqs.*1 !! n = Some (AbsoluteIndex t) -> shows stores (AbsoluteIndex t) st ->
  (forall b, before reqs (S n) b -> shows stores b (seq_run st (Tx t)).1) /\ Response t = Some (seq_run st (Tx t)).2.
Proof.
  intros Hst Hpar Hd Hval Hn Hshow.
  pose proof (validated_agrees stores t st Hst Hpar Hd Hval Hshow) as Hag.
  destruct (td_run _ _ _ _ Hd) as (r & Hr & Hcons). specialize (Hcons _ Hag).
  destruct (seq_run_oracle st (Tx t) (empty_writes (VersionStores t)) st) as [Hresp Hov];
    [by eapply empty_overlay|]. rewrite Hcons in Hresp, Hov. simpl in Hresp, Hov.
  split; [|by rewrite Hresp]. intros b Hb sk. specialize (Hov sk). specialize (Hshow sk).
  unfold overlay_at in Hov. rewrite lookup_fmap in Hov.
  destruct (stores !! sk) as [mv|] eqn:Hmv, (st !! sk) as [q|], (VersionStores t !! sk) as [v|] eqn:Hv,
    ((seq_run st (Tx t)).1 !! sk) as [q'|]; try done; simpl in Hov.
  intros key. rewrite Hov, Hshow.
  rewrite (final_value_next parents reqs reqs_sorted distinct_values sk mv n (AbsoluteIndex t) b key) by (try done; by apply Hst).
  destruct (td_written _ _ _ _ Hd sk v mv ltac:(set_solver) Hv Hmv) as [-> _].
  by destruct (vs_writeset v !! key).
Qed.

Lemma all_done_shows stores tasks n :
  stores_ok parents reqs distinct_values stores ->
  (forall sk q key, parents !! sk = Some q -> distinct_values (kv_Get q key)) ->
  tasks_ok reqs tasks ->
  (forall pos t, tasks !! pos = Some t ->
     task_done distinct_values stores t ∅ /\ validated_at (M := M) stores (AbsoluteIndex t)) ->
  (n <= length tasks)%nat ->
  (forall b, before reqs n b -> shows stores b (seq_all parents (take n reqs.*2)).1) /\
  collectResponses (take n tasks) = Some (seq_all parents (take n reqs.*2)).2.
Proof.
  intros Hst Hpar Htk Hdone. induction n as [|n IH]; intros Hn.
  - split; [|done]. intros b Hb sk. simpl. pose proof (sso_dom _ _ _ _ Hst sk) as Hdom.
    destruct (stores !! sk) as [mv|] eqn:Hmv.
    + pose proof (sso_store _ _ _ _ Hst sk mv Hmv) as Hok. rewrite (so_parent _ _ _ _ _ Hok).
      intros key. by rewrite (final_value_first parents reqs distinct_values sk).
    + destruct (parents !! sk); [|done]. by destruct (proj2 Hdom ltac:(eauto)).
  - destruct (lookup_lt_is_Some_2 tasks n ltac:(lia)) as [t Ht].
    destruct (IH ltac:(lia)) as [Hshow Hresp]. destruct (Hdone n t Ht) as [Hd Hv].
    pose proof (tasks_ok_lookup reqs tasks n t Htk Ht) as Hreq.
    assert (Hn1 : reqs.*1 !! n = Some (AbsoluteIndex t)) by (by rewrite list_lookup_fmap, Hreq).
    assert (Hn2 : reqs.*2 !! n = Some (Tx t)) by (by rewrite list_lookup_fmap, Hreq).
    specialize (Hshow _ (before_index reqs reqs_sorted _ _ Hn1)).
    rewrite (take_S_r _ _ _ Hn2), (take_S_r _ _ _ Ht), seq_all_snoc. cbn [fst snd].
    destruct (shows_next stores n t _ Hst Hpar Hd Hv Hn1 Hshow) as [Hshow' Hr].
    split; [done|]. unfold collectResponses in *. apply mapM_Some in Hresp.
    apply mapM_Some, Forall2_app; [done|]. by constructor.
Qed.

(** The final write-out. *)
Lemma WriteLatest_shows stores stores' b st :
  stores_ok parents reqs distinct_values stores ->
  (forall sk mv, stores !! sk = Some mv -> all_final mv b) ->
  shows stores b st ->
  map_Forall2 (fun _ mv mv' => WriteLatestToStore mv = Some mv') stores stores' ->
  forall sk, option_Forall2 (fun q q' => kv_view q = kv_view q') (st !! sk) ((parentStore <$> stores') !! sk).
Proof.
  intros Hst Hfin Hshow Hw sk. specialize (Hshow sk). specialize (Hw sk). rewrite lookup_fmap.
  destruct (stores !! sk) as [mv|] eqn:Hmv, (st !! sk) as [q|]; try done; inversion Hw as [? mv' Hmv'|]; subst;
    simpl; constructor.
  destruct (WriteLatestToStore_view mv b) as (mv1 & Hmv1 & Hview).
  - eapply so_wf, (sso_store _ _ _ _ Hst _ _ Hmv).
  - by eapply Hfin.
  - simplify_eq. apply map_eq. intros key. by rewrite Hshow, Hview.
Qed.

(** C1. [ProcessAll] is serializable.  For transactions with increasing indices
    that neither find nor write an empty value, whatever the goroutines of the
    execution and validation phases interleave and however many turns the loop
    takes, the responses are those of running the transactions one after the
    other on the parent stores, and every parent store ends with the contents
    of that sequential run. *)
Theorem ProcessAll_serializable responses parents' :
  (forall sk q key, parents !! sk = Some q -> distinct_values (kv_Get q key)) ->
  (forall i p, (i, p) ∈ reqs -> prog_okv distinct_values p) ->
  ProcessAll (T := T) (M := M) parents reqs responses parents' ->
  responses = (seq_all parents reqs.*2).2 /\
  forall sk, option_Forall2 (fun q q' => kv_view q = kv_view q')
    ((seq_all parents reqs.*2).1 !! sk) (parents' !! sk).
Proof.
  intros Hpar Hreqs Hrun. destruct Hrun as [s responses stores' Hproc Hwrite Hresp].
  assert (Hnone : distinct_values None) by done.
  destruct (process_inv parents reqs distinct_values Hnone Hpar Hreqs reqs_sorted _ _ _ _ Hproc)
    as (todo & Hinv & Hall); [by apply init_inv|].
  rewrite allValidated_spec in Hall. pose proof (li_tasks _ _ _ _ _ Hinv) as Htk.
  assert (Hlen : length (sc_tasks s) = length reqs).
  { rewrite <- Htk. by rewrite length_fmap. }
  assert (Hdone : forall pos t, sc_tasks s !! pos = Some t ->
    task_done distinct_values (sc_stores s) t ∅ /\ validated_at (M := M) (sc_stores s) (AbsoluteIndex t)).
  { intros pos t Ht. split.
    - apply (li_done _ _ _ _ _ Hinv pos t Ht). right. eauto.
    - apply (li_prefix _ _ _ _ _ Hinv pos t Ht). eauto. }
  destruct (all_done_shows _ _ (length reqs) (li_stores _ _ _ _ _ Hinv) Hpar Htk Hdone) as [Hshow Hcol];
    [by rewrite Hlen|].
  rewrite <- Hlen in Hcol at 1. rewrite firstn_all in Hcol.
  rewrite take_ge in Hcol, Hshow by (by rewrite length_fmap).
  split; [congruence|]. destruct (before_exists reqs) as [b Hb].
  eapply WriteLatest_shows; [apply Hinv| |by apply Hshow|done].
  eapply (all_done_final parents reqs reqs_sorted distinct_values); [done|apply Hinv|done| |done]. intros pos t Ht. by eapply Hdone.
Qed.
End Final.

(** ** A block on the concrete stores. *)
Section Example.
Abbreviation map_store := (gmap bytes bytes).

(** Transaction 0 copies key 1 to key 2, transaction 1 reads key 2 and deletes
    key 1, transaction 2 reads the deleted key and an invalid one. *)
Definition ex_parents : gmap Z map_store := {[ 0 := {[ [1] := [7; 8] ]} ]}.
Definition ex_reqs : list (Z * prog Z (list (outcome (option bytes)))) :=
  [(0, PGet 0 [1] (fun r => PSet 0 [2] (match r with Ok (Some v) => 3 :: v | _ => [9] end)
                      (fun _ => PRet [r])));
   (1, PGet 0 [2] (fun r => PDelete 0 [1] (fun _ => PRet [r])));
   (4, PGet 0 [1] (fun r => PGet 0 [] (fun r' => PGet 5 [1] (fun r'' => PRet [r; r'; r'']))))].

(** Transaction 0 writes the empty value, transaction 1 reads the key. *)
Definition empty_parents : gmap Z map_store := {[ 0 := ∅ ]}.
Definition empty_reqs : list (Z * prog Z (outcome (option bytes))) :=
  [(0, PSet 0 [1] [] (fun _ => PRet (Ok None))); (1, PGet 0 [1] (fun r => PRet r))].

(** C39. An empty value breaks serializability: when transaction 1 runs before
    transaction 0 writes the empty value, it reads nil, and validation accepts
    the stale read because [checkReadsetAtIndex] compares with [bytes.Equal], to
    which nil and the empty slice are equal.  [ProcessAll] then returns nil for a
    read that answers the empty (present) value in the sequential run. *)
Theorem empty_value_not_serializable :
  exists responses parents',
    ProcessAll (T := gmap Z (Z * option bytes * bool)) (M := map_store) empty_parents empty_reqs
      responses parents' /\
    responses !! 1%nat = Some (Ok None) /\
    (seq_all empty_parents empty_reqs.*2).2 !! 1%nat = Some (Ok (Some [])).
Proof.
  set (s0 := init_sched (T := gmap Z (Z * option bytes * bool)) empty_parents empty_reqs).
  set (s1 := fold_left executeTask [1%nat; 0%nat] s0).
  assert (Hv : exists s2, validateAll_sync (M := map_store) s1 = Some (s2, []) /\
    allValidated (sc_tasks s2) = true /\ collectResponses (sc_tasks s2) = Some [Ok None; Ok None] /\
    exists mv mv', sc_stores s2 = {[ 0 := mv ]} /\ WriteLatestToStore mv = Some mv').
  { eexists. split; [vm_compute; reflexivity|]. split; [vm_compute; reflexivity|].
    split; [vm_compute; reflexivity|]. eexists _, _. split; vm_compute; reflexivity. }
  destruct Hv as (s2 & Hval & Hall & Hresp & mv & mv' & Hst & Hw).
  exists [Ok None; Ok None], (parentStore <$> {[ 0 := mv' ]}). split; [|split; vm_compute; reflexivity].
  apply (ProcessAll_intro _ _ s2); [|rewrite Hst; apply map_Forall2_singleton; eauto|done].
  eapply (process_conc _ _ _ s1 s2 []).
  - vm_compute. reflexivity.
  - unfold maximumIterations. lia.
  - apply executeAll_order; [done|repeat constructor; simpl; lia|apply perm_swap].
  - by apply validateAll_sequential.
  - by apply process_done.
Qed.

Lemma map_distinct (m : map_store) :
  bool_decide (map_Forall (fun _ v => v <> []) m) = true -> forall key, distinct_values (m !! key).
Proof.
  intros Hm%bool_decide_eq_true key Hk. by apply (Hm key []).
Qed.

Lemma ProcessAll_serializable_witness :
  ProcessAll (T := gmap Z (Z * option bytes * bool)) (M := map_store) ex_parents ex_reqs
    [[Ok (Some [7; 8])]; [Ok (Some [3; 7; 8])]; [Ok None; PanicKey; PanicStore]]
    {[ 0 := {[ [2] := [3; 7; 8] ]} ]} /\
  [[Ok (Some [7; 8])]; [Ok (Some [3; 7; 8])]; [Ok None; PanicKey; PanicStore]] =
    (seq_all ex_parents ex_reqs.*2).2.
Proof.
  assert (Hrun : ProcessAll (T := gmap Z (Z * option bytes * bool)) (M := map_store) ex_parents ex_reqs
    [[Ok (Some [7; 8])]; [Ok (Some [3; 7; 8])]; [Ok None; PanicKey; PanicStore]]
    {[ 0 := {[ [2] := [3; 7; 8] ]} ]}).
  { apply (ProcessAll_sequential_sound 3). vm_compute. reflexivity. }
  split; [exact Hrun|].
  refine (proj1 (ProcessAll_serializable ex_parents ex_reqs _ _ _ _ _ Hrun)).
  - repeat constructor.
  - intros sk q key Hq. assert (q = {[ [1] := [7; 8] ]}) as ->.
    { unfold ex_parents in Hq. apply lookup_singleton_Some in Hq as [_ <-]. done. }
    apply map_distinct. vm_compute. reflexivity.
  - intros i p Hin. unfold ex_reqs in Hin.
    repeat (apply elem_of_cons in Hin as [Hin|Hin]; [injection Hin as -> ->; simpl|]);
      [repeat (split || intros ?); try done; by repeat case_match|naive_solver|naive_solver|].
    by apply elem_of_nil in Hin.
Defined.
End Example.
