(* ===== verification/SchedulerLive.v ===== *)
(** Termination of [ProcessAll]: under every interleaving of the goroutines the
    loop ends, no nil task is dereferenced and the final write-out succeeds. *)
From stdpp Require Import base gmap sets list sorting relations.
From Stdlib Require Import ZArith Lia.
From S2P Require Import Prelude KVStore MVItem MVStore MVKV Scheduler SchedulerRuns SchedulerInv.
From S2P Require Import SchedulerSeq SchedulerExec SchedulerVal SchedulerLoop Serializability.
Open Scope Z_scope.

(** ** Inevitability. *)

(** Every maximal sequence of steps from [x] meets [Q]. *)
Inductive inevitable {A} (R : relation A) (Q : A -> Prop) (x : A) : Prop :=
| inevitable_now : Q x -> inevitable R Q x
| inevitable_next : (exists y, R x y) -> (forall y, R x y -> inevitable R Q y) -> inevitable R Q x.

(** A phase whose steps decrease a measure leaves to where [Q] is inevitable. *)
Lemma inevitable_phase {A B C} (R : relation A) (Q : A -> Prop) (emb : B -> A) (mu : B -> C)
    (Rc : relation C) (Inv : B -> Prop) :
  (forall b, Inv b -> exists y, R (emb b) y) ->
  (forall b y, Inv b -> R (emb b) y ->
     (exists b', y = emb b' /\ Rc (mu b) (mu b') /\ Inv b') \/ inevitable R Q y) ->
  forall b, sn Rc (mu b) -> Inv b -> inevitable R Q (emb b).
Proof.
  intros Hprog Hstep b Hsn. remember (mu b) as c eqn:Hc. revert b Hc.
  induction Hsn as [c _ IH]; intros b -> Hb. apply inevitable_next; [by apply Hprog|].
  intros y Hy. destruct (Hstep b y Hb Hy) as [(b' & -> & Hlt & Hb')|]; [|done].
  by eapply (IH (mu b')).
Qed.

(** Interleaved components that terminate one by one terminate together. *)
Definition one_step {A} (R : relation A) (l l' : list A) : Prop :=
  exists i x y, l !! i = Some x /\ R x y /\ l' = <[i := y]> l.

Lemma sn_one_step {A} (R : relation A) (l : list A) : Forall (sn R) l -> sn (one_step R) l.
Proof.
  induction l as [|x l IH]; intros Hall.
  { constructor. intros l' (i & x & y & Hi & _). by rewrite lookup_nil in Hi. }
  apply Forall_cons in Hall as [Hx Hl]. apply IH in Hl. clear IH.
  revert l Hl. induction Hx as [x _ IHx]. intros l Hl. induction Hl as [l Hl IHl].
  constructor. intros l' ([|i] & y & z & Hi & Hyz & ->); simpl in *.
  - simplify_eq. apply IHx; [done|]. by constructor.
  - apply IHl. by exists i, y, z.
Qed.

Definition indexed {A} (f : nat -> A) (n : nat) : list A := f <$> seq 0 n.

Lemma indexed_lookup {A} (f : nat -> A) n i : (i < n)%nat -> indexed f n !! i = Some (f i).
Proof. intros Hi. unfold indexed. by rewrite list_lookup_fmap, lookup_seq_lt. Qed.

Lemma indexed_step {A} (R : relation A) (f g : nat -> A) n i :
  (i < n)%nat -> R (f i) (g i) -> (forall j, j <> i -> g j = f j) ->
  one_step R (indexed f n) (indexed g n).
Proof.
  intros Hi HR Hne. exists i, (f i), (g i). split_and!; [by apply indexed_lookup|done|].
  apply list_eq. intros j. destruct (decide (j < n)%nat) as [Hj|Hj].
  - rewrite indexed_lookup by done. destruct (decide (j = i)) as [->|Hji].
    + rewrite list_lookup_insert_eq; [done|]. unfold indexed. by rewrite length_fmap, length_seq.
    + rewrite list_lookup_insert_ne by done. rewrite indexed_lookup by done. by rewrite Hne.
  - rewrite !lookup_ge_None_2; [done|rewrite length_insert|]; unfold indexed; rewrite length_fmap, length_seq; lia.
Qed.

(** ** The loop as a transition system. *)
Section Live.
Context {SK R T P M : Type} `{Countable SK} `{!BTree T, !BTreeLaws T}
  `{!KVStore P, !KVStoreLaws P} `{!MemDB M}.
Abbreviation task := (deliverTxTask SK R).
Abbreviation stores_t := (gmap SK (Store T P)).
Abbreviation sched_t := (@sched SK R T P _ _).
Abbreviation exec_cfg_t := (@exec_cfg SK R T P _ _).
Abbreviation val_cfg_t := (@val_cfg SK R T P _ _).
Implicit Types (stores : stores_t) (t : task) (tasks : list task) (s : sched_t).

Inductive loop_state :=
| AtHead (iterations : nat) (s : sched_t) (toExecute : list nat)
| Executing (iterations : nat) (e : exec_cfg_t)
| Validating (iterations : nat) (v : val_cfg_t)
| Ended (s : sched_t).

Inductive loop_step : loop_state -> loop_state -> Prop :=
| head_done n s todo :
    allValidated (sc_tasks s) = true -> loop_step (AtHead n s todo) (Ended s)
| head_conc n s todo :
    allValidated (sc_tasks s) = false -> (n < maximumIterations)%nat ->
    loop_step (AtHead n s todo) (Executing n (mkExec s todo ∅))
| head_sync n s todo f s' todo' :
    allValidated (sc_tasks s) = false -> (maximumIterations <= n)%nat ->
    findFirstNonValidated (sc_tasks s) = Some f -> sync_round (M := M) s f = Some (s', todo') ->
    loop_step (AtHead n s todo) (AtHead (S n) s' todo')
| in_exec n e e' : exec_step e e' -> loop_step (Executing n e) (Executing n e')
| exec_all_validated n s :
    findFirstNonValidated (sc_tasks s) = None ->
    loop_step (Executing n (mkExec s [] ∅)) (AtHead (S n) s [])
| exec_to_val n s f :
    findFirstNonValidated (sc_tasks s) = Some f ->
    loop_step (Executing n (mkExec s [] ∅))
      (Validating n (mkVal s (seq f (length (sc_tasks s) - f)) ∅ []))
| in_val n v v' : val_step (M := M) v v' -> loop_step (Validating n v) (Validating n v')
| val_to_head n s res : loop_step (Validating n (mkVal s [] ∅ res)) (AtHead (S n) s res).

(** What the loop does from a state, in terms of [process]. *)
Definition loop_runs (x : loop_state) (s' : sched_t) : Prop :=
  match x with
  | AtHead n s todo => process (M := M) n s todo s'
  | Executing n e => forall s todo, allValidated (sc_tasks s) = false -> (n < maximumIterations)%nat ->
      rtc exec_step (mkExec s todo ∅) e -> process (M := M) n s todo s'
  | Validating n v => forall s1 f, findFirstNonValidated (sc_tasks s1) = Some f ->
      rtc (val_step (M := M)) (mkVal s1 (seq f (length (sc_tasks s1) - f)) ∅ []) v ->
      exists s2 todo2, validateAll_conc (M := M) s1 s2 todo2 /\ process (M := M) (S n) s2 todo2 s'
  | Ended s => s = s'
  end.

(** Every way through the loop is a run of [process]. *)
Lemma loop_steps_process x s' : rtc loop_step x (Ended s') -> loop_runs x s'.
Proof.
  intros Hr. remember (Ended s') as y eqn:Hy. induction Hr as [|x y z Hxy Hyz IH]; subst; [done|].
  specialize (IH eq_refl). destruct Hxy; simpl in *.
  - subst. by apply process_done.
  - apply IH; [done|done|constructor].
  - by eapply process_sync.
  - intros s todo Hall Hn Hs. eapply IH; [done|done|]. by eapply rtc_r.
  - intros s0 todo Hall Hn Hs. eapply process_conc; [done|done|exact Hs|by apply validate_none|done].
  - intros s0 todo Hall Hn Hs. destruct (IH s f) as (s2 & todo2 & Hv & Hp); [done|constructor|].
    by eapply process_conc.
  - intros s1 f Hf Hs. eapply IH; [done|]. by eapply rtc_r.
  - intros s1 f Hf Hs. exists s, res. split; [|done]. by eapply validate_some.
Qed.

(** And every run of [process] is a way through the loop. *)
Lemma turn_steps n s todo s1 s2 todo2 :
  allValidated (sc_tasks s) = false -> (n < maximumIterations)%nat ->
  executeAll_conc s todo s1 -> validateAll_conc (M := M) s1 s2 todo2 ->
  rtc loop_step (AtHead n s todo) (AtHead (S n) s2 todo2).
Proof.
  intros Hall Hn Hex Hval. eapply rtc_l; [by apply head_conc|].
  etrans; [apply (rtc_congruence (R := exec_step) (Executing n)); [intros; by constructor|exact Hex]|].
  destruct Hval as [Hf|f s2 res Hf Hv].
  - eapply rtc_l; [by apply exec_all_validated|done].
  - eapply rtc_l; [by apply exec_to_val|].
    etrans; [apply (rtc_congruence (R := val_step (M := M)) (Validating n)); [intros; by constructor|exact Hv]|].
    eapply rtc_l; [apply val_to_head|done].
Qed.

Lemma process_loop_steps n s todo s' :
  process (M := M) n s todo s' -> rtc loop_step (AtHead n s todo) (Ended s').
Proof.
  induction 1 as [n s todo Hall|n s todo s1 s2 todo2 s' Hall Hn Hex Hv _ IH|n s todo f s2 todo2 s' Hall Hn Hf Hr _ IH].
  - by eapply rtc_l; [apply head_done|].
  - etrans; [by eapply turn_steps|done].
  - eapply rtc_l; [by eapply head_sync|done].
Qed.

(** ** Dependencies name tasks of the block. *)
Variables (parents : gmap SK P) (reqs : list (Z * prog SK R)).
Variable okv : option bytes -> Prop.
Hypothesis okv_None : okv None.
Hypothesis parents_ok : forall sk q key, parents !! sk = Some q -> okv (kv_Get q key).
Hypothesis reqs_ok : forall i p, (i, p) ∈ reqs -> prog_okv okv p.
Hypothesis reqs_sorted : StronglySorted Z.lt reqs.*1.

Definition deps_ok tasks : Prop :=
  forall pos t, tasks !! pos = Some t ->
    (forall d, d ∈ Dependencies t -> d ∈ reqs.*1) /\ (forall d, d ∈ ch_buf (AbortCh t) -> d ∈ reqs.*1).

Lemma deps_ok_insert tasks pos t' :
  deps_ok tasks ->
  (forall d, d ∈ Dependencies t' -> d ∈ reqs.*1) -> (forall d, d ∈ ch_buf (AbortCh t') -> d ∈ reqs.*1) ->
  deps_ok (<[pos := t']> tasks).
Proof.
  intros Hd H1 H2 q u Hu. destruct (decide (q = pos)) as [->|Hne].
  - destruct (decide (pos < length tasks)%nat) as [Hlt|Hge].
    + rewrite list_lookup_insert_eq in Hu by done. by simplify_eq.
    + rewrite list_insert_ge in Hu by lia. by eapply Hd.
  - rewrite list_lookup_insert_ne in Hu by done. by eapply Hd.
Qed.

Lemma dependenciesValidated_total tasks (deps : gset Z) :
  tasks_ok reqs tasks -> (forall d, d ∈ deps -> d ∈ reqs.*1) ->
  is_Some (dependenciesValidated tasks deps).
Proof.
  intros Htk Hd. unfold dependenciesValidated.
  assert (Hel : forall d, d ∈ elements deps -> is_Some (task_at tasks d)).
  { intros d Hin. apply elem_of_elements, Hd in Hin.
    destruct (index_position reqs tasks d Htk Hin) as (pos & t & Ht & Hi).
    unfold task_at. apply last_is_Some. intros Hnil.
    assert (Hf : t ∈ filter (fun t => AbsoluteIndex t = d) tasks).
    { apply list_elem_of_filter. split; [done|]. by eapply list_elem_of_lookup_2. }
    rewrite Hnil in Hf. by apply elem_of_nil in Hf. }
  clear Hd. induction (elements deps) as [|d l IH]; simpl; [eauto|].
  destruct (Hel d ltac:(set_solver)) as [t ->]. destruct (IsStatus t statusValidated); [|eauto].
  apply IH. set_solver.
Qed.

(** The aborts a transaction sends name writers of the stores. *)
Lemma prog_step_aborts stores vs ch (p : prog SK R) vs' ch' p' :
  stores_ok parents reqs okv stores ->
  prog_step stores vs ch p = Some (vs', ch', p') ->
  forall d, d ∈ ch_buf ch' -> d ∈ ch_buf ch \/ d ∈ reqs.*1.
Proof.
  intros Hst Hp d Hd. destruct p as [r|sk key k|sk key v k|sk key k]; cbn [prog_step] in Hp; [done|..].
  - destruct (stores !! sk) as [mv|] eqn:Hsk; [|by simplify_eq; left].
    destruct (vs !! sk) as [v|]; [|by simplify_eq; left].
    destruct (vis_Get mv ch v key) as [[v1 ch1] r] eqn:Hg. simplify_eq. unfold vis_Get in Hg.
    repeat case_match; simplify_eq; try by left.
    unfold WriteAbort in Hd. case_bool_decide; [|by left]. simpl in Hd.
    apply elem_of_app in Hd as [Hd|Hd]; [by left|]. right. apply list_elem_of_singleton in Hd. subst d.
    match goal with Hx : GetLatestBeforeIndex mv _ _ = Some _ |- _ =>
      apply GetLatestBeforeIndex_version in Hx as [Hx _]; by eapply (so_indices _ _ _ _ _ (sso_store _ _ _ _ Hst _ _ Hsk)) end.
  - repeat case_match; simplify_eq; by left.
  - repeat case_match; simplify_eq; by left.
Qed.

(** The conflicts validation finds name writers of the stores. *)
Lemma check_reads_conflicts sk (mv : Store T P) index l c :
  store_ok parents reqs okv sk mv ->
  (forall d, d ∈ rc_conflictSet c -> d ∈ reqs.*1) ->
  forall d, d ∈ rc_conflictSet (fold_left (check_read mv index) l c) -> d ∈ reqs.*1.
Proof.
  intros Hmv. revert c. induction l as [|[key vals] l IH]; intros c Hc; simpl; [done|]. apply IH.
  assert (Hidx : forall x, GetLatestBeforeIndex mv index key = Some x -> vi_index x ∈ reqs.*1).
  { intros x [Hx _]%GetLatestBeforeIndex_version. by eapply (so_indices _ _ _ _ _ Hmv). }
  unfold check_read. destruct vals as [|v [|w vals]]; simpl; try done.
  destruct (GetLatestBeforeIndex mv index key) as [x|]; [|by destruct (bytes_equal _ v)].
  specialize (Hidx x eq_refl).
  repeat case_match; simpl; try done; intros d [->%elem_of_singleton|]%elem_of_union; auto.
Qed.

Lemma Validate_conflicts sk (mv : Store T P) index b cs ks :
  store_ok parents reqs okv sk mv ->
  ValidateTransactionStateWithKeys (M := M) mv index = (b, cs, ks) ->
  forall d, d ∈ cs -> d ∈ reqs.*1.
Proof.
  intros Hmv. rewrite (Validate_readset parents reqs okv sk) by done. unfold checkReadsetAtIndex.
  destruct (txReadSets mv !! index) as [readset|]; intros [= _ <- _] d Hd; [|by apply elem_of_nil in Hd].
  rewrite merge_sort_Permutation, elem_of_elements in Hd. revert Hd.
  eapply check_reads_conflicts; [done|]. simpl. set_solver.
Qed.

Lemma findConflicts_indices stores t b cs ks :
  stores_ok parents reqs okv stores -> findConflicts (M := M) stores t = (b, cs, ks) ->
  forall d, d ∈ cs -> d ∈ reqs.*1.
Proof.
  intros Hst. unfold findConflicts.
  assert (Hadd : forall l cs, (forall d, d ∈ l -> d ∈ reqs.*1) -> (forall d : Z, d ∈ cs -> d ∈ reqs.*1) ->
    forall d, d ∈ fold_left (fun cs c => if bool_decide (c ∈ cs) then cs else cs ++ [c]) l cs -> d ∈ reqs.*1).
  { clear. induction l as [|c l IH]; intros cs Hl Hcs; simpl; [done|]. apply IH; [set_solver|].
    case_bool_decide; set_solver. }
  assert (Hfold : forall l acc, (forall sk mv, (sk, mv) ∈ l -> store_ok parents reqs okv sk mv) ->
    (forall d, d ∈ acc.1.2 -> d ∈ reqs.*1) ->
    forall d, d ∈ (fold_left (find_conflicts_store (M := M) t) l acc).1.2 -> d ∈ reqs.*1).
  { induction l as [|[sk mv] l IH]; intros [[b0 cs0] ks0] Hl Hacc; simpl; [done|].
    apply IH; [set_solver|].
    destruct (ValidateTransactionStateWithKeys mv (AbsoluteIndex t)) as [[b1 cs1] ks1] eqn:Hv. simpl.
    apply Hadd; [|done]. eapply (Validate_conflicts sk); [|done]. apply Hl. set_solver. }
  specialize (Hfold (map_to_list stores) (true, [], [])).
  destruct (fold_left _ _ _) as [[b0 cs0] ks0]. intros [= _ <- _] d Hd.
  rewrite merge_sort_Permutation in Hd. apply Hfold; [|by intros ? ?%elem_of_nil|done].
  intros sk mv Hin%elem_of_map_to_list. by apply Hst.
Qed.

(** ** The execution phase ends. *)
Inductive prog_sub : prog SK R -> prog SK R -> Prop :=
| sub_get sk key k r : prog_sub (PGet sk key k) (k r)
| sub_set sk key v k r : prog_sub (PSet sk key v k) (k r)
| sub_delete sk key k r : prog_sub (PDelete sk key k) (k r).

Lemma prog_step_sub stores vs ch (p : prog SK R) vs' ch' p' :
  prog_step stores vs ch p = Some (vs', ch', p') -> prog_sub p p'.
Proof.
  destruct p; cbn [prog_step]; intros Hp; repeat case_match; simplify_eq; constructor.
Qed.

(** How far a task is in the phase. *)
Inductive exec_stage :=
| SWaiting
| SRunning (p : prog SK R)
| SWriting (n : nat)
| SDone.

Inductive stage_step : exec_stage -> exec_stage -> Prop :=
| stage_start p : stage_step SWaiting (SRunning p)
| stage_op p p' : prog_sub p p' -> stage_step (SRunning p) (SRunning p')
| stage_finish p n : stage_step (SRunning p) (SWriting n)
| stage_write n n' : (n' < n)%nat -> stage_step (SWriting n) (SWriting n')
| stage_done n : stage_step (SWriting n) SDone.

Lemma stage_sn x : sn stage_step x.
Proof.
  assert (Hd : sn stage_step SDone) by (constructor; intros y Hy; inversion Hy).
  assert (Hw : forall n, sn stage_step (SWriting n)).
  { intros n. induction (lt_wf n) as [n _ IH]. constructor. intros y Hy. inversion Hy; subst; auto. }
  assert (Hr : forall p, sn stage_step (SRunning p)).
  { induction p; constructor; intros y Hy; inversion Hy as [|? ? Hs| | |]; subst; auto;
      inversion Hs; subst; auto. }
  destruct x; auto. constructor. intros y Hy. inversion Hy; subst; auto.
Qed.

Definition stage_of (todo : list nat) (threads : gmap nat (@exec_thread SK R _ _)) (pos : nat) : exec_stage :=
  match threads !! pos with
  | Some (ERunning p) => SRunning p
  | Some (EWriting _ todo_sk) => SWriting (size todo_sk)
  | None => if decide (pos ∈ todo) then SWaiting else SDone
  end.

Definition stages (e : exec_cfg_t) : list exec_stage :=
  indexed (stage_of (ex_todo e) (ex_threads e)) (length reqs).

Record exec_live (f : nat) (e : exec_cfg_t) : Prop := {
  el_inv : exec_inv (M := M) parents reqs okv f e;
  el_deps : deps_ok (sc_tasks (ex_sched e));
  el_todo : forall pos, pos ∈ ex_todo e -> (pos < length reqs)%nat;
  el_threads : forall pos th, ex_threads e !! pos = Some th ->
    exists t, sc_tasks (ex_sched e) !! pos = Some t /\
      forall estimates todo_sk, th = EWriting estimates todo_sk -> todo_sk ⊆ dom (VersionStores t)
}.

Lemma tasks_length tasks : tasks_ok reqs tasks -> length tasks = length reqs.
Proof. intros Htk. rewrite <- Htk. by rewrite length_fmap. Qed.

Lemma el_lookup f e pos :
  exec_live f e -> (pos < length reqs)%nat -> exists t, sc_tasks (ex_sched e) !! pos = Some t.
Proof.
  intros He Hlt. apply lookup_lt_is_Some_2.
  by rewrite (tasks_length _ (ei_tasks _ _ _ _ _ (el_inv _ _ He))).
Qed.

Lemma exec_progress f e :
  exec_live f e -> (exists s, e = mkExec s [] ∅) \/ exists e', exec_step e e'.
Proof.
  intros He. destruct e as [s todo threads]. destruct todo as [|pos todo].
  - destruct (decide (threads = ∅)) as [->|Hne]; [by left; exists s|right].
    apply map_choose in Hne as (pos & th & Hth).
    destruct (el_threads _ _ He pos th Hth) as (t & Ht & Hsub). simpl in *.
    destruct th as [p|estimates todo_sk].
    + destruct (prog_step (sc_stores s) (VersionStores t) (AbortCh t) p) as [[[vs ch] p']|] eqn:Hp.
      * eexists. by eapply exec_op.
      * destruct p as [r| | |]; cbn [prog_step] in Hp; try (repeat case_match; done).
        destruct (finish_task t r) as [t' estimates] eqn:Hfin. eexists. by eapply exec_finish.
    + destruct (decide (todo_sk = ∅)) as [->|Hnt]; [eexists; by eapply exec_done|].
      apply set_choose_L in Hnt as [sk Hsk]. specialize (Hsub _ _ eq_refl).
      assert (Hin : sk ∈ dom (VersionStores t)) by set_solver. apply elem_of_dom in Hin as [v Hv].
      pose proof (ei_exec _ _ _ _ _ (el_inv _ _ He) pos t Ht) as Hex. simpl in Hex. rewrite Hth in Hex.
      assert (Hvs : vs_ok okv (sc_stores s) (AbsoluteIndex t) (Incarnation t) (VersionStores t) (AbortCh t)).
      { destruct estimates; destruct Hex as [_ Hex]; [done|apply (td_vs _ _ _ _ Hex)]. }
      destruct (proj2 (vso_dom _ _ _ _ _ _ Hvs sk) ltac:(eauto)) as [mv Hmv].
      eexists. by eapply exec_write.
  - right. destruct (ei_todo _ _ _ _ _ (el_inv _ _ He) pos ltac:(simpl; set_solver)) as (_ & Hth & _).
    destruct (el_lookup _ _ pos He) as [t Ht]; [apply (el_todo _ _ He); simpl; set_solver|].
    eexists. by apply (exec_start s [] pos todo threads t).
Qed.

Lemma stages_step e e' pos :
  (pos < length reqs)%nat ->
  stage_step (stage_of (ex_todo e) (ex_threads e) pos) (stage_of (ex_todo e') (ex_threads e') pos) ->
  (forall q, q <> pos -> ex_threads e' !! q = ex_threads e !! q /\ (q ∈ ex_todo e' <-> q ∈ ex_todo e)) ->
  one_step stage_step (stages e) (stages e').
Proof.
  intros Hpos Hst Hq. apply (indexed_step _ _ _ _ pos); [done|done|].
  intros q Hne. destruct (Hq q Hne) as [Hth Htd]. unfold stage_of. rewrite Hth.
  destruct (ex_threads e !! q); [done|]. by repeat case_decide; tauto.
Qed.

Lemma exec_decreases f e e' :
  exec_live f e -> exec_step e e' -> one_step stage_step (stages e) (stages e').
Proof.
  intros He Hstep.
  assert (Hth : forall pos th, ex_threads e !! pos = Some th -> (pos < length reqs)%nat /\ (pos ∉ ex_todo e)).
  { intros pos th Hth. destruct (el_threads _ _ He pos th Hth) as (t & Ht & _). split.
    - rewrite <- (tasks_length _ (ei_tasks _ _ _ _ _ (el_inv _ _ He))). by eapply lookup_lt_Some.
    - intros Hin. destruct (ei_todo _ _ _ _ _ (el_inv _ _ He) pos Hin) as (_ & Hn & _). congruence. }
  destruct Hstep as [s pre pos post threads t Hn Ht|s todo pos threads t p vs ch p' Hp Ht Hst
    |s todo pos threads t resp t' est Hp Ht Hf|s todo pos threads t est tsk sk v mv Hp Hsk Ht Hv Hmv
    |s todo pos threads est Hp].
  - pose proof (ei_nodup _ _ _ _ _ (el_inv _ _ He)) as Hnd. simpl in Hnd.
    assert (Hnd' : NoDup (pos :: pre ++ post)) by (by rewrite Permutation_middle).
    apply NoDup_cons in Hnd' as [Hnp _].
    apply (stages_step _ _ pos); simpl; [apply (el_todo _ _ He); simpl; set_solver| |].
    + unfold stage_of. rewrite Hn, lookup_insert_eq, decide_True by set_solver. constructor.
    + intros q Hq. rewrite lookup_insert_ne by done. set_solver.
  - apply (stages_step _ _ pos); simpl; [by eapply Hth| |intros q Hq; by rewrite lookup_insert_ne].
    unfold stage_of. rewrite Hp, lookup_insert_eq. constructor. by eapply prog_step_sub.
  - apply (stages_step _ _ pos); simpl; [by eapply Hth| |intros q Hq; by rewrite lookup_insert_ne].
    unfold stage_of. rewrite Hp, lookup_insert_eq. constructor.
  - apply (stages_step _ _ pos); simpl; [by eapply Hth| |intros q Hq; by rewrite lookup_insert_ne].
    unfold stage_of. rewrite Hp, lookup_insert_eq. constructor.
    apply subset_size. split; [set_solver|]. intros Hs. specialize (Hs sk Hsk). set_solver.
  - destruct (Hth pos _ Hp) as [Hlt Hnt]. simpl in Hnt.
    apply (stages_step _ _ pos); simpl; [done| |intros q Hq; by rewrite lookup_delete_ne].
    unfold stage_of. rewrite Hp, lookup_delete_eq, decide_False by done. constructor.
Qed.

(** The extra facts survive each step. *)
Lemma exec_live_frame f s todo threads s' todo' threads' pos t' :
  exec_live f (mkExec s todo threads) ->
  exec_inv (M := M) parents reqs okv f (mkExec s' todo' threads') ->
  sc_tasks s' = <[pos := t']> (sc_tasks s) -> (pos < length reqs)%nat ->
  (forall d, d ∈ Dependencies t' -> d ∈ reqs.*1) -> (forall d, d ∈ ch_buf (AbortCh t') -> d ∈ reqs.*1) ->
  (forall q, q ∈ todo' -> q ∈ todo) ->
  (forall q, q <> pos -> threads' !! q = threads !! q) ->
  (forall estimates todo_sk, threads' !! pos = Some (EWriting estimates todo_sk) ->
     todo_sk ⊆ dom (VersionStores t')) ->
  exec_live f (mkExec s' todo' threads').
Proof.
  intros He Hinv Htk Hpos H1 H2 Htd Hth Hw. pose proof (ei_tasks _ _ _ _ _ (el_inv _ _ He)) as Hok.
  simpl in Hok. split; [done| | |]; simpl.
  - rewrite Htk. apply deps_ok_insert; [apply (el_deps _ _ He)|done|done].
  - intros q Hq. apply (el_todo _ _ He), Htd, Hq.
  - intros q th Hq. rewrite Htk. destruct (decide (q = pos)) as [->|Hne].
    + exists t'. rewrite list_lookup_insert_eq by (by rewrite (tasks_length _ Hok)).
      split; [done|]. intros est tsk ->. by eapply Hw.
    + rewrite Hth in Hq by done. rewrite list_lookup_insert_ne by done. by apply (el_threads _ _ He).
Qed.

Lemma exec_live_step f e e' : exec_live f e -> exec_step e e' -> exec_live f e'.
Proof.
  intros He Hstep.
  pose proof (exec_step_inv parents reqs okv okv_None parents_ok reqs_ok reqs_sorted f e e' Hstep (el_inv _ _ He)) as Hinv.
  assert (Hlt : forall pos t, sc_tasks (ex_sched e) !! pos = Some t -> (pos < length reqs)%nat).
  { intros pos t Ht. rewrite <- (tasks_length _ (ei_tasks _ _ _ _ _ (el_inv _ _ He))).
    by eapply lookup_lt_Some. }
  destruct Hstep as [s pre pos post threads t Hn Ht|s todo pos threads t p vs ch p' Hp Ht Hst
    |s todo pos threads t resp t' est Hp Ht Hf|s todo pos threads t est tsk sk v mv Hp Hsk Ht Hv Hmv
    |s todo pos threads est Hp].
  - destruct (el_deps _ _ He pos t Ht) as [H1 H2].
    eapply (exec_live_frame f s _ threads); [done|done|done|by eapply Hlt|done| | | |].
    + simpl. set_solver.
    + set_solver.
    + intros q Hq. by rewrite lookup_insert_ne.
    + rewrite lookup_insert_eq. done.
  - destruct (el_deps _ _ He pos t Ht) as [H1 H2].
    eapply (exec_live_frame f s todo threads); [done|done|done|by eapply Hlt|done| |done| |].
    + intros d Hd. destruct (prog_step_aborts _ _ _ _ _ _ _ (ei_stores _ _ _ _ _ (el_inv _ _ He)) Hst d Hd); auto.
    + intros q Hq. by rewrite lookup_insert_ne.
    + rewrite lookup_insert_eq. done.
  - destruct (el_deps _ _ He pos t Ht) as [H1 H2].
    eapply (exec_live_frame f s todo threads); [done|done|done|by eapply Hlt| | |done| |].
    + unfold finish_task in Hf. destruct (ch_buf (AbortCh t)) as [|dep rest] eqn:Hb; simplify_eq/=; [done|].
      set_solver.
    + by destruct (finish_task_same _ _ _ _ Hf) as (_ & _ & _ & _ & -> & _).
    + intros q Hq. by rewrite lookup_insert_ne.
    + rewrite lookup_insert_eq. intros est' tsk [= <- <-].
      by destruct (finish_task_same _ _ _ _ Hf) as (_ & _ & _ & -> & _).
  - destruct (el_deps _ _ He pos t Ht) as [H1 H2].
    eapply (exec_live_frame f s todo threads _ _ _ pos t); [done|done| |by eapply Hlt|done|done|done| |].
    + simpl. by rewrite list_insert_id.
    + intros q Hq. by rewrite lookup_insert_ne.
    + rewrite lookup_insert_eq. intros est' tsk' [= <- <-].
      destruct (el_threads _ _ He pos _ Hp) as (u & Hu & Hsub). simpl in Hu. simplify_eq.
      specialize (Hsub _ _ eq_refl). set_solver.
  - destruct (el_threads _ _ He pos _ Hp) as (t & Ht & _). simpl in Ht.
    destruct (el_deps _ _ He pos t Ht) as [H1 H2].
    eapply (exec_live_frame f s todo threads _ _ _ pos t); [done|done| |by eapply Hlt|done|done|done| |].
    + by rewrite list_insert_id.
    + intros q Hq. by rewrite lookup_delete_ne.
    + rewrite lookup_delete_eq. done.
Qed.

(** ** The validation phase ends. *)
Definition val_stage (todo : list nat) (threads : gmap nat val_thread) (pos : nat) : nat :=
  match threads !! pos with
  | Some (VChecked _ _) => 2
  | Some VInvalidated => 1
  | None => if decide (pos ∈ todo) then 3 else 0
  end.

Definition val_stages (c : val_cfg_t) : list nat :=
  indexed (val_stage (va_todo c) (va_threads c)) (length reqs).

Lemma gt_sn (n : nat) : sn gt n.
Proof. induction (lt_wf n) as [n _ IH]. constructor. intros m Hm. apply IH. unfold flip in Hm. lia. Qed.

Record val_live (c : val_cfg_t) : Prop := {
  vl_inv : val_inv (M := M) parents reqs okv c;
  vl_deps : deps_ok (sc_tasks (va_sched c));
  vl_todo : forall pos, pos ∈ va_todo c -> (pos < length reqs)%nat;
  vl_conflicts : forall pos valid conflicts, va_threads c !! pos = Some (VChecked valid conflicts) ->
    forall d, d ∈ conflicts -> d ∈ reqs.*1
}.

Lemma vl_total c pos t :
  val_live c -> sc_tasks (va_sched c) !! pos = Some t ->
  exists b, dependenciesValidated (sc_tasks (va_sched c)) (Dependencies t) = Some b.
Proof.
  intros Hc Ht. apply dependenciesValidated_total; [apply (vi_tasks _ _ _ _ (vl_inv _ Hc))|].
  by apply (vl_deps _ Hc pos t Ht).
Qed.

Lemma val_progress c :
  val_live c -> (exists s res, c = mkVal s [] ∅ res) \/ exists c', val_step (M := M) c c'.
Proof.
  intros Hc. destruct c as [s todo threads res]. destruct todo as [|pos todo].
  - destruct (decide (threads = ∅)) as [->|Hne]; [by left; exists s, res|right].
    apply map_choose in Hne as (pos & th & Hth).
    destruct (vi_threads _ _ _ _ (vl_inv _ Hc) pos th Hth) as (t & Ht & _). simpl in Ht.
    destruct (vl_total _ pos t Hc Ht) as [b Hb]. simpl in Hb.
    destruct th as [[] [|c conflicts]|].
    + eexists. by eapply val_valid.
    + eexists. by eapply val_conflicts.
    + eexists. by eapply val_invalid.
    + eexists. by eapply val_invalid.
    + destruct b; eexists; [by eapply val_rerun|by eapply val_wait].
  - right. pose proof (vi_todo _ _ _ _ (vl_inv _ Hc) pos ltac:(simpl; set_solver)) as Hth. simpl in Hth.
    destruct (lookup_lt_is_Some_2 (sc_tasks s) pos) as [t Ht].
    { rewrite (tasks_length (sc_tasks s) (vi_tasks _ _ _ _ (vl_inv _ Hc))). apply (vl_todo _ Hc). simpl. set_solver. }
    destruct (vl_total _ pos t Hc Ht) as [b Hb]. simpl in Hb.
    destruct (findConflicts (M := M) (sc_stores s) t) as [[valid conflicts] keys] eqn:Hf.
    destruct (Status t) eqn:Hs; eexists;
      solve [eapply (val_unfinished s [] pos todo); eauto | eapply (val_check s [] pos todo); eauto
            | eapply (val_waiting s [] pos todo); eauto].
Qed.

Lemma val_stages_step c c' pos :
  (pos < length reqs)%nat ->
  (val_stage (va_todo c') (va_threads c') pos < val_stage (va_todo c) (va_threads c) pos)%nat ->
  (forall q, q <> pos -> va_threads c' !! q = va_threads c !! q /\ (q ∈ va_todo c' <-> q ∈ va_todo c)) ->
  one_step gt (val_stages c) (val_stages c').
Proof.
  intros Hpos Hst Hq. apply (indexed_step _ _ _ _ pos); [done|exact Hst|].
  intros q Hne. destruct (Hq q Hne) as [Hth Htd]. unfold val_stage. rewrite Hth.
  destruct (va_threads c !! q); [done|]. by repeat case_decide; tauto.
Qed.

Lemma val_decreases c c' :
  val_live c -> val_step (M := M) c c' -> one_step gt (val_stages c) (val_stages c').
Proof.
  intros Hc Hstep. pose proof (vi_nodup _ _ _ _ (vl_inv _ Hc)) as Hnd.
  assert (Hth : forall pos th, va_threads c !! pos = Some th -> (pos < length reqs)%nat /\ (pos ∉ va_todo c)).
  { intros pos th Hth. destruct (vi_threads _ _ _ _ (vl_inv _ Hc) pos th Hth) as (t & Ht & _). split.
    - rewrite <- (tasks_length _ (vi_tasks _ _ _ _ (vl_inv _ Hc))). by eapply lookup_lt_Some.
    - intros Hin. pose proof (vi_todo _ _ _ _ (vl_inv _ Hc) pos Hin). congruence. }
  assert (Htodo : forall pre pos post, va_todo c = pre ++ pos :: post ->
    (pos < length reqs)%nat /\ (pos ∉ pre ++ post) /\ pos ∈ va_todo c /\ va_threads c !! pos = None).
  { intros pre pos post Htd. assert (Hin : pos ∈ va_todo c) by (rewrite Htd; set_solver).
    split_and!; [by apply (vl_todo _ Hc)| |done|by apply (vi_todo _ _ _ _ (vl_inv _ Hc))].
    rewrite Htd, <- Permutation_middle in Hnd. by apply NoDup_cons in Hnd as [? _]. }
  destruct Hstep as
    [s pre pos post threads res t Ht Hs | s pre pos post threads res t valid conflicts keys Hn Ht Hs Hfc
    | s pre pos post threads res t b Ht Hs Hd | s todo pos threads res t conflicts Hp Ht
    | s todo pos threads res t Hp Ht | s todo pos threads res cf conflicts Hp
    | s todo pos threads res t Hp Ht Hd | s todo pos threads res t Hp Ht Hd].
  1-3: destruct (Htodo pre pos post eq_refl) as (Hlt & Hni & Hin & Hno); simpl in Hin, Hno;
    apply (val_stages_step _ _ pos); simpl;
    [done | unfold val_stage; rewrite ?lookup_insert_eq, Hno, (decide_True _ _ Hin), ?(decide_False _ _ Hni); lia
    | intros q Hq; rewrite ?lookup_insert_ne by done; set_solver].
  all: destruct (Hth pos _ Hp) as [Hlt Hni]; simpl in Hni; apply (val_stages_step _ _ pos); simpl;
    [done | unfold val_stage; rewrite Hp, ?lookup_insert_eq, ?lookup_delete_eq, ?(decide_False _ _ Hni); lia
    | intros q Hq; by rewrite ?lookup_insert_ne, ?lookup_delete_ne].
Qed.

Lemma val_live_frame c c' pos t' :
  val_live c -> val_inv (M := M) parents reqs okv c' ->
  sc_tasks (va_sched c') = <[pos := t']> (sc_tasks (va_sched c)) ->
  (forall d, d ∈ Dependencies t' -> d ∈ reqs.*1) -> (forall d, d ∈ ch_buf (AbortCh t') -> d ∈ reqs.*1) ->
  (forall q, q ∈ va_todo c' -> q ∈ va_todo c) ->
  (forall q, q <> pos -> va_threads c' !! q = va_threads c !! q) ->
  (forall valid conflicts, va_threads c' !! pos = Some (VChecked valid conflicts) ->
     forall d, d ∈ conflicts -> d ∈ reqs.*1) ->
  val_live c'.
Proof.
  intros Hc Hinv Htk H1 H2 Htd Hth Hcf. split; [done| | |].
  - rewrite Htk. apply deps_ok_insert; [apply (vl_deps _ Hc)|done|done].
  - intros q Hq. apply (vl_todo _ Hc), Htd, Hq.
  - intros q valid conflicts Hq. destruct (decide (q = pos)) as [->|Hne]; [by eapply Hcf|].
    rewrite Hth in Hq by done. by eapply (vl_conflicts _ Hc).
Qed.

Lemma val_live_step c c' : val_live c -> val_step (M := M) c c' -> val_live c'.
Proof.
  intros Hc Hstep.
  pose proof (val_step_inv parents reqs okv okv_None reqs_sorted c c' Hstep (vl_inv _ Hc)) as Hinv.
  pose proof (fun pos t => vl_deps _ Hc pos t) as Hdeps.
  pose proof (fun pos => vi_todo _ _ _ _ (vl_inv _ Hc) pos) as Hno.
  destruct Hstep as
    [s pre pos post threads res t Ht Hs | s pre pos post threads res t valid conflicts keys Hn Ht Hs Hfc
    | s pre pos post threads res t b Ht Hs Hd | s todo pos threads res t conflicts Hp Ht
    | s todo pos threads res t Hp Ht | s todo pos threads res cf conflicts Hp
    | s todo pos threads res t Hp Ht Hd | s todo pos threads res t Hp Ht Hd]; simpl in Hdeps, Hno.
  - destruct (Hdeps pos t Ht) as [H1 H2].
    apply (val_live_frame (mkVal s (pre ++ pos :: post) threads res) _ pos (Increment (Reset t))); simpl;
      try done; [set_solver..|]. by rewrite Hno by set_solver.
  - destruct (Hdeps pos t Ht) as [H1 H2].
    apply (val_live_frame (mkVal s (pre ++ pos :: post) threads res) _ pos t); simpl; try done.
    + by rewrite list_insert_id.
    + set_solver.
    + intros q Hq. by rewrite lookup_insert_ne.
    + rewrite lookup_insert_eq. intros v cs [= <- <-].
      eapply findConflicts_indices; [|done]. apply (vi_stores _ _ _ _ (vl_inv _ Hc)).
  - destruct (Hdeps pos t Ht) as [H1 H2].
    apply (val_live_frame (mkVal s (pre ++ pos :: post) threads res) _ pos
      (if b then Increment (Reset t) else t)); simpl; try done.
    + destruct b; [done|]. by rewrite list_insert_id.
    + by destruct b.
    + destruct b; [simpl; set_solver|done].
    + set_solver.
    + by rewrite Hno by set_solver.
  - destruct (Hdeps pos t Ht) as [H1 H2].
    apply (val_live_frame (mkVal s todo threads res) _ pos (AppendDependencies t conflicts)); simpl; try done.
    + pose proof (vl_conflicts _ Hc pos _ _ Hp) as Hcf. set_solver.
    + intros q Hq. by rewrite lookup_insert_ne.
    + by rewrite lookup_insert_eq.
  - destruct (Hdeps pos t Ht) as [H1 H2].
    apply (val_live_frame (mkVal s todo threads res) _ pos (SetStatus t statusValidated)); simpl; try done.
    + intros q Hq. by rewrite lookup_delete_ne.
    + by rewrite lookup_delete_eq.
  - destruct (vi_threads _ _ _ _ (vl_inv _ Hc) pos _ Hp) as (t & Ht & _). simpl in Ht.
    destruct (Hdeps pos t Ht) as [H1 H2].
    apply (val_live_frame (mkVal s todo threads res) _ pos t); simpl; try done.
    + by rewrite list_insert_id.
    + intros q Hq. by rewrite lookup_delete_ne.
    + by rewrite lookup_delete_eq.
  - destruct (Hdeps pos t Ht) as [H1 H2].
    apply (val_live_frame (mkVal s todo threads res) _ pos (Increment (Reset t))); simpl; try done.
    + set_solver.
    + intros q Hq. by rewrite lookup_delete_ne.
    + by rewrite lookup_delete_eq.
  - destruct (Hdeps pos t Ht) as [H1 H2].
    apply (val_live_frame (mkVal s todo threads res) _ pos (SetStatus t statusWaiting)); simpl; try done.
    + intros q Hq. by rewrite lookup_delete_ne.
    + by rewrite lookup_delete_eq.
Qed.

(** ** The loop ends. *)

(** What the reachable states of the loop satisfy. *)
Definition live_state (x : loop_state) : Prop :=
  match x with
  | AtHead n s todo =>
      loop_inv (M := M) parents reqs okv s todo /\ (n <= S maximumIterations)%nat /\
      (allValidated (sc_tasks s) = true \/
       (n <= maximumIterations)%nat /\ deps_ok (sc_tasks s) /\
       forall pos, pos ∈ todo -> (pos < length reqs)%nat)
  | Executing n e => (n < maximumIterations)%nat /\ exists f, exec_live f e
  | Validating n c => (n < maximumIterations)%nat /\ val_live c
  | Ended s => allValidated (sc_tasks s) = true /\ exists todo, loop_inv (M := M) parents reqs okv s todo
  end.

Lemma not_all_first s :
  allValidated (sc_tasks s) = false -> exists f, findFirstNonValidated (sc_tasks s) = Some f.
Proof.
  intros Hall. destruct (findFirstNonValidated (sc_tasks s)) eqn:Hf; [eauto|].
  apply findFirst_None in Hf. congruence.
Qed.

Lemma live_step x y : live_state x -> loop_step x y -> live_state y.
Proof.
  intros Hx Hstep. destruct Hstep as [n s todo Hall|n s todo Hall Hn|n s todo f s' todo' Hall Hn Hf Hr
    |n e e' He|n s Hf|n s f Hf|n c c' Hc|n s res]; simpl in Hx |- *.
  - destruct Hx as (Hinv & _). eauto.
  - destruct Hx as (Hinv & _ & [?|(_ & Hd & Htd)]); [congruence|]. split; [done|].
    destruct (not_all_first s Hall) as [f Hf]. exists f. split; [by apply loop_exec_inv|done|done|].
    intros pos th. simpl. by rewrite lookup_empty.
  - destruct Hx as (Hinv & _ & [?|(Hle & _)]); [congruence|].
    destruct (sync_round_inv parents reqs okv okv_None parents_ok reqs_ok reqs_sorted s todo f Hinv Hf)
      as (s2 & Hs2 & Hinv2 & Hall2). simplify_eq. split_and!; [done|lia|by left].
  - destruct Hx as (Hn & f & Hl). split; [done|]. exists f. by eapply exec_live_step.
  - destruct Hx as (Hn & f & Hl). split_and!; [eapply exec_loop_inv, Hl|lia|left; by apply findFirst_None].
  - destruct Hx as (Hn & f' & Hl). split; [done|].
    pose proof (exec_loop_inv _ _ _ _ _ (el_inv _ _ Hl)) as Hinv. split.
    + by eapply loop_val_inv.
    + apply (el_deps _ _ Hl).
    + simpl. intros pos Hpos. rewrite elem_of_seq in Hpos.
      pose proof (tasks_length _ (li_tasks _ _ _ _ _ Hinv)). lia.
    + intros pos valid cs. simpl. by rewrite lookup_empty.
  - destruct Hx as (Hn & Hl). split; [done|]. by eapply val_live_step.
  - destruct Hx as (Hn & Hl). split_and!; [eapply val_loop_inv, Hl|lia|right].
    split_and!; [lia|apply (vl_deps _ Hl)|]. intros pos Hpos.
    destruct (vi_res _ _ _ _ (vl_inv _ Hl) pos Hpos) as (_ & _ & t & Ht & _). simpl in Ht.
    rewrite <- (tasks_length _ (vi_tasks _ _ _ _ (vl_inv _ Hl))). by eapply lookup_lt_Some.
Qed.

Lemma live_progress x : live_state x -> (exists s, x = Ended s) \/ exists y, loop_step x y.
Proof.
  destruct x as [n s todo|n e|n c|s]; simpl; intros Hx; [right..|by left; exists s].
  - destruct (allValidated (sc_tasks s)) eqn:Hall; [eexists; by apply head_done|].
    destruct Hx as (Hinv & _ & [?|(Hle & _)]); [done|].
    destruct (decide (n < maximumIterations)%nat) as [Hlt|Hge]; [eexists; by apply head_conc|].
    destruct (not_all_first s Hall) as [f Hf].
    destruct (sync_round_inv parents reqs okv okv_None parents_ok reqs_ok reqs_sorted s todo f Hinv Hf)
      as (s2 & Hs2 & _). eexists. eapply head_sync; [done|lia|done|done].
  - destruct Hx as (_ & f & Hl). destruct (exec_progress _ _ Hl) as [[s ->]|[e' He]].
    + destruct (findFirstNonValidated (sc_tasks s)) eqn:Hf; eexists; [by apply exec_to_val|by apply exec_all_validated].
    + eexists. by apply in_exec.
  - destruct Hx as (_ & Hl). destruct (val_progress _ Hl) as [(s & res & ->)|[c' Hc]]; eexists.
    + apply val_to_head.
    + by apply in_val.
Qed.

Section Inevitable.
Variable Q : loop_state -> Prop.
Hypothesis Q_ended : forall s, live_state (Ended s) -> Q (Ended s).

Lemma step_exists x : live_state x -> (forall s, x <> Ended s) -> exists y, loop_step x y.
Proof. intros Hx Hne. destruct (live_progress x Hx) as [[s ->]|]; [by destruct (Hne s)|done]. Qed.

Lemma validated_inevitable n s todo :
  live_state (AtHead n s todo) -> allValidated (sc_tasks s) = true -> inevitable loop_step Q (AtHead n s todo).
Proof.
  intros Hx Hall. apply inevitable_next; [by apply step_exists|]. intros y Hy.
  pose proof (live_step _ _ Hx Hy). inversion Hy; subst; [|congruence..].
  apply inevitable_now. by apply Q_ended.
Qed.

Variable n : nat.
Hypothesis next_turn : forall s todo,
  live_state (AtHead (S n) s todo) -> inevitable loop_step Q (AtHead (S n) s todo).

Lemma val_inevitable c : live_state (Validating n c) -> inevitable loop_step Q (Validating n c).
Proof.
  apply (inevitable_phase _ _ (Validating n) val_stages (one_step gt) (fun c => live_state (Validating n c))).
  - intros b Hb. by apply step_exists.
  - intros b y Hb Hy. pose proof (live_step _ _ Hb Hy) as Hlive. inversion Hy; subst.
    + left. eexists. split_and!; [done| |done]. eapply val_decreases; [apply Hb|done].
    + right. by apply next_turn.
  - apply sn_one_step, Forall_forall. intros m _. apply gt_sn.
Qed.

Lemma exec_inevitable e : live_state (Executing n e) -> inevitable loop_step Q (Executing n e).
Proof.
  apply (inevitable_phase _ _ (Executing n) stages (one_step stage_step) (fun e => live_state (Executing n e))).
  - intros b Hb. by apply step_exists.
  - intros b y Hb Hy. pose proof (live_step _ _ Hb Hy) as Hlive. inversion Hy; subst.
    + left. eexists. split_and!; [done| |done]. destruct Hb as (_ & f & Hl). by eapply exec_decreases.
    + right. by apply next_turn.
    + right. by apply val_inevitable.
  - apply sn_one_step, Forall_forall. intros x _. apply stage_sn.
Qed.
End Inevitable.

Lemma head_inevitable Q n s todo :
  (forall s, live_state (Ended s) -> Q (Ended s)) ->
  live_state (AtHead n s todo) -> inevitable loop_step Q (AtHead n s todo).
Proof.
  intros HQ. remember (S maximumIterations - n)%nat as m eqn:Hm. revert n s todo Hm.
  induction m as [|m IH]; intros n s todo Hm Hx; pose proof Hx as (_ & Hle & Hor).
  - destruct Hor as [Hall|(? & _)]; [|lia]. by apply validated_inevitable.
  - destruct (allValidated (sc_tasks s)) eqn:Hall; [by apply validated_inevitable|].
    apply inevitable_next; [by apply step_exists|]. intros y Hy.
    pose proof (live_step _ _ Hx Hy) as Hlive. inversion Hy; subst.
    + congruence.
    + apply exec_inevitable; [|done]. intros s0 todo0. apply IH. lia.
    + apply IH; [lia|done].
Qed.
End Live.

(** ** Total correctness. *)
Section Total.
Context {SK R T P M : Type} `{Countable SK} `{!BTree T, !BTreeLaws T}
  `{!KVStore P, !KVStoreLaws P} `{!MemDB M}.
Abbreviation sched_t := (@sched SK R T P _ _).
Implicit Types s : sched_t.

Variables (parents : gmap SK P) (reqs : list (Z * prog SK R)).
Hypothesis reqs_sorted : StronglySorted Z.lt reqs.*1.

Definition any_value (v : option bytes) : Prop := True.

Lemma prog_any_value (p : prog SK R) : prog_okv any_value p.
Proof. by induction p. Qed.

(** The loop ended in [s] and the write-out and the responses succeed. *)
Definition completes (x : loop_state) : Prop :=
  exists s responses stores', x = Ended s /\ collectResponses (sc_tasks s) = Some responses /\
    map_Forall2 (fun _ mv mv' => WriteLatestToStore mv = Some mv') (sc_stores s) stores'.

Lemma ended_completes s :
  live_state (M := M) parents reqs any_value (Ended s) -> completes (Ended s).
Proof.
  intros (Hall & todo & Hinv). rewrite allValidated_spec in Hall.
  assert (Hd : forall pos t, sc_tasks s !! pos = Some t -> task_done any_value (sc_stores s) t ∅).
  { intros pos t Ht. apply (li_done _ _ _ _ _ Hinv pos t Ht). right. eauto. }
  assert (Hresp : is_Some (collectResponses (sc_tasks s))).
  { apply mapM_is_Some, Forall_lookup. intros pos t Ht.
    destruct (td_run _ _ _ _ (Hd pos t Ht)) as (r & Hr & _). eauto. }
  destruct Hresp as [responses Hresp]. destruct (before_exists reqs) as [b Hb].
  assert (Hw : forall sk mv, sc_stores s !! sk = Some mv -> is_Some (WriteLatestToStore mv)).
  { intros sk mv Hmv. destruct (WriteLatestToStore_view mv b) as (mv' & Hmv' & _); [| |eauto].
    - eapply so_wf, (sso_store _ _ _ _ (li_stores _ _ _ _ _ Hinv) _ _ Hmv).
    - by eapply (all_done_final parents reqs reqs_sorted any_value);
        [|apply Hinv|apply Hinv|apply Hd| |]. }
  exists s, responses, (omap WriteLatestToStore (sc_stores s)). split_and!; [done|done|].
  intros sk. rewrite lookup_omap. destruct (sc_stores s !! sk) as [mv|] eqn:Hmv; simpl; [|constructor].
  destruct (Hw sk mv Hmv) as [mv' Hmv']. rewrite Hmv'. by constructor.
Qed.

Lemma initial_live :
  live_state (M := M) parents reqs any_value (AtHead 0 (init_sched parents reqs) (seq 0 (length reqs))).
Proof.
  split_and!; [by apply init_inv|lia|right]. split_and!; [lia| |].
  - intros pos t. simpl. unfold toTasks. rewrite list_lookup_fmap.
    destruct (reqs !! pos); simpl; [|done]. intros [= <-]. simpl. set_solver.
  - intros pos Hpos. rewrite elem_of_seq in Hpos. lia.
Qed.

(** C19. [ProcessAll] terminates under every schedule: for transactions with
    increasing indices, every maximal interleaving of the goroutines reaches the
    end of the loop with every response present and every store written out;
    no nil task is dereferenced, no phase gets stuck and the loop does not run
    forever, whatever values the transactions read and write. *)
Theorem ProcessAll_terminates :
  inevitable (loop_step (M := M)) completes
    (AtHead 0 (init_sched parents reqs) (seq 0 (length reqs))).
Proof.
  apply (head_inevitable parents reqs any_value); try done.
  - intros i p _. apply prog_any_value.
  - apply ended_completes.
  - apply initial_live.
Qed.

(** The loop of [ProcessAll] takes at most [maximumIterations + 1] turns:
    under every schedule, the turn that starts after [maximumIterations] turns is
    synchronous and validates every task. *)
Theorem ProcessAll_turns n s todo :
  rtc (loop_step (M := M)) (AtHead 0 (init_sched parents reqs) (seq 0 (length reqs))) (AtHead n s todo) ->
  (n <= S maximumIterations)%nat /\
  (n = S maximumIterations -> allValidated (sc_tasks s) = true).
Proof.
  intros Hr. pose proof initial_live as Hlive. revert Hlive Hr.
  generalize (@AtHead SK R T P _ _ 0 (init_sched parents reqs) (seq 0 (length reqs))). intros x Hx Hr.
  assert (Hend : live_state (M := M) parents reqs any_value (AtHead n s todo)).
  { remember (AtHead n s todo) as y eqn:Hy. clear Hy. induction Hr as [|x z y Hxz _ IH]; [done|].
    apply IH. eapply live_step; try done. intros i p _. apply prog_any_value. }
  destruct Hend as (_ & Hle & Hor). split; [done|]. intros ->.
  destruct Hor as [|(? & _)]; [done|lia].
Qed.

(** The runs of the transition system are the runs of [ProcessAll]. *)
Lemma loop_ProcessAll s responses stores' :
  rtc (loop_step (M := M)) (AtHead 0 (init_sched parents reqs) (seq 0 (length reqs))) (Ended s) ->
  collectResponses (sc_tasks s) = Some responses ->
  map_Forall2 (fun _ mv mv' => WriteLatestToStore mv = Some mv') (sc_stores s) stores' ->
  ProcessAll (T := T) (M := M) parents reqs responses (parentStore <$> stores').
Proof. intros Hr Hresp Hw. econstructor; [|done|done]. by apply (loop_steps_process _ _ Hr). Qed.
End Total.

(** ** On the concrete stores. *)
Section Witness.
Abbreviation map_store := (gmap bytes bytes).
Abbreviation map_tree := (gmap Z (Z * option bytes * bool)).

Lemma ProcessAll_terminates_witness :
  inevitable (loop_step (M := map_store)) completes
    (AtHead 0 (init_sched (T := map_tree) ex_parents ex_reqs) (seq 0 (length ex_reqs))).
Proof. apply (ProcessAll_terminates ex_parents ex_reqs). repeat constructor. Defined.

Lemma ProcessAll_turns_witness :
  exists (s : @sched Z _ map_tree map_store _ _) todo,
    rtc (loop_step (M := map_store)) (AtHead 0 (init_sched ex_parents ex_reqs) (seq 0 (length ex_reqs)))
      (AtHead 1 s todo) /\ (1 <= S maximumIterations)%nat.
Proof.
  set (s0 := init_sched (T := map_tree) ex_parents ex_reqs).
  set (s1 := fold_left executeTask (seq 0 3) s0).
  destruct (validateAll_sync (M := map_store) s1) as [[s2 todo]|] eqn:Hv; [|vm_compute in Hv; discriminate].
  assert (Hr : rtc (loop_step (M := map_store)) (AtHead 0 s0 (seq 0 3)) (AtHead 1 s2 todo)).
  { eapply turn_steps; [vm_compute; reflexivity|unfold maximumIterations; lia| |by apply validateAll_sequential].
    apply executeAll_sequential; [reflexivity|]. apply Forall_forall. intros pos Hpos.
    rewrite elem_of_seq in Hpos. simpl. lia. }
  exists s2, todo. split; [exact Hr|].
  refine (proj1 (ProcessAll_turns ex_parents ex_reqs _ 1 s2 todo Hr)). repeat constructor.
Defined.
End Witness.
