(* ===== verification/CacheKV.v ===== *)
(** The cache-wrapped key-value store of [sei-cosmos/store/cachekv]
    ([store.go], [memiterator.go]).

    A store is a tower of cache layers over a base store: [Cache l parent] is the
    Go [Store] with the fields of [l] and the parent pointer [parent].  The memo
    [readParent] points to an ancestor; it is the number of layers it skips.
    Reads take and return the whole tower, because they fill the memo and the
    sorted cache of the layers they pass.  [None] is a panic.

    An iterator is the list of the entries it visits when it is read to its end
    with no write in between.  The mutexes and the metrics are left out, and so are
    [storeKey] and [cacheSize], which no operation reads. *)
From stdpp Require Import base gmap sets list sorting.
From Stdlib Require Import ZArith Lia.
From S2P Require Import Prelude KVStore MergeIter.

(** [types.CValue] of [store/types/cache.go]. *)
Record CValue := mkCValue { cv_Value : option bytes; cv_Dirty : bool }.

Record layer (M : Type) := mkLayer {
  ly_cache : gmap bytes CValue;
  ly_deleted : gset bytes;
  ly_unsortedCache : gset bytes;
  ly_sortedCache : option M;
  ly_frozen : bool;
  ly_dirty : bool;
  ly_readParent : option nat
}.
Arguments mkLayer {M}.
Arguments ly_cache {M}.
Arguments ly_deleted {M}.
Arguments ly_unsortedCache {M}.
Arguments ly_sortedCache {M}.
Arguments ly_frozen {M}.
Arguments ly_dirty {M}.
Arguments ly_readParent {M}.

Inductive store (P M : Type) :=
| Base (p : P)
| Cache (l : layer M) (parent : store P M).
Arguments Base {P M}.
Arguments Cache {P M}.

(** ** [memIterator] *)
Record memIterator := mkMem {
  mi_entries : list (bytes * bytes);
  mi_lastKey : option bytes;
  mi_deleted : gset bytes
}.

Definition mi_Value (mi : memIterator) : option (memIterator * option bytes) :=
  match mi_entries mi with
  | [] => None
  | (key, value) :: _ =>
      let reCallingOnOldLastKey := bool_decide (mi_lastKey mi = Some key) in
      if bool_decide (key ∈ mi_deleted mi) && negb reCallingOnOldLastKey then Some (mi, None)
      else Some (mkMem (mi_entries mi) (Some key) (mi_deleted mi), Some value)
  end.

(** The methods of the embedded database iterator. *)
Definition mi_Next (mi : memIterator) : option memIterator :=
  match mi_entries mi with
  | [] => None
  | _ :: rest => Some (mkMem rest (mi_lastKey mi) (mi_deleted mi))
  end.

#[export] Instance mi_iter : CacheIter memIterator := {|
  ci_valid := fun mi => (mi, bool_decide (mi_entries mi <> []));
  ci_key := fun mi => match mi_entries mi with [] => None | (key, _) :: _ => Some (mi, key) end;
  ci_value := mi_Value;
  ci_next := mi_Next;
  ci_keys := fun mi => (mi_entries mi).*1
|}.

(** ** [cacheMergeIterator]: the merge iterator over [memIterator]. *)
Definition cacheMergeIterator : Type := mergeIterator memIterator.
Definition NewCacheMergeIterator (parent : list (bytes * bytes)) (cache : memIterator) : cacheMergeIterator :=
  mkMerge parent cache.

Section Store.
Context {P M : Type} `{!KVStore P} `{!MemDB M}.
Implicit Types (l : layer M) (st parent : store P M).

Definition newMemIterator (start end_ : option bytes) (items : M) (deleted : gset bytes) (ascending : bool)
    : option memIterator :=
  entries ← (if ascending then memdb_Iterator items start end_ else memdb_ReverseIterator items start end_);
  Some (mkMem entries None deleted).

Definition empty_layer (frozen : bool) : layer M := mkLayer ∅ ∅ ∅ None frozen false None.

Definition NewStore parent : store P M := Cache (empty_layer false) parent.

(** ** Reads *)

(** The loop of [readThroughParent]: how many layers the walk from [parent] skips. *)
Fixpoint frozen_run parent : nat :=
  match parent with
  | Cache l next => if ly_frozen l && negb (ly_dirty l) then S (frozen_run next) else 0
  | Base _ => 0
  end.

Definition set_readParent l (p : option nat) : layer M :=
  mkLayer (ly_cache l) (ly_deleted l) (ly_unsortedCache l) (ly_sortedCache l) (ly_frozen l) (ly_dirty l) p.

Definition readThroughParent l parent : layer M * nat :=
  match parent with
  | Cache cp _ =>
      if negb (ly_frozen cp) || ly_dirty cp then (l, 0%nat)
      else
        match ly_readParent l with
        | Some p => (l, p)
        | None => let p := frozen_run parent in (set_readParent l (Some p), p)
        end
  | Base _ => (l, 0%nat)
  end.

(** [getFromCache] of the ancestor [skip] layers up. *)
Fixpoint getFromCache st (skip : nat) (key : bytes) : store P M * option bytes :=
  match st, skip with
  | Base p, _ => (st, kv_Get p key)
  | Cache l parent, S skip =>
      let '(parent, value) := getFromCache parent skip key in (Cache l parent, value)
  | Cache l parent, O =>
      match ly_cache l !! key with
      | Some cv => (st, cv_Value cv)
      | None =>
          let '(l, skip) := readThroughParent l parent in
          let '(parent, value) := getFromCache parent skip key in
          (Cache l parent, value)
      end
  end.

Definition Get st (key : bytes) : option (store P M * option bytes) :=
  if AssertValidKey key then Some (getFromCache st 0 key) else None.

Definition Has st (key : bytes) : option (store P M * bool) :=
  '(st, value) ← Get st key; Some (st, bool_decide (value <> None)).

(** ** Writes *)
Definition setCacheValue l (key : bytes) (value : option bytes) (deleted dirty : bool) : option (layer M) :=
  if AssertValidKey key then
    Some (mkLayer
      (<[key := mkCValue value dirty]> (ly_cache l))
      (if deleted then {[key]} ∪ ly_deleted l else ly_deleted l ∖ {[key]})
      (if dirty then {[key]} ∪ ly_unsortedCache l else ly_unsortedCache l)
      (ly_sortedCache l) (ly_frozen l) true (ly_readParent l))
  else None.

Definition Set_ st (key : bytes) (value : option bytes) : option (store P M) :=
  if AssertValidKey key && AssertValidValue value then
    match st with
    | Base p => v ← value; Some (Base (kv_Set p key v))
    | Cache l parent => l ← setCacheValue l key value false true; Some (Cache l parent)
    end
  else None.

Definition Delete st (key : bytes) : option (store P M) :=
  if AssertValidKey key then
    match st with
    | Base p => Some (Base (kv_Delete p key))
    | Cache l parent => l ← setCacheValue l key None true true; Some (Cache l parent)
    end
  else None.

Definition isDeleted l (key : bytes) : bool := bool_decide (key ∈ ly_deleted l).

(** The sorted list of the dirty keys. *)
Definition dirty_keys l : list bytes :=
  sort_strings (filter (fun kv => cv_Dirty kv.2 = true) (map_to_list (ly_cache l))).*1.

(** The body of the loop of [Write]. *)
Definition write_key l (parent : option (store P M)) (key : bytes) : option (store P M) :=
  parent ← parent;
  if isDeleted l key then Delete parent key
  else
    match ly_cache l !! key with
    | Some (mkCValue (Some value) _) => Set_ parent key (Some value)
    | _ => Some parent
    end.

Definition Write l parent : option (store P M) :=
  parent ← fold_left (write_key l) (dirty_keys l) (Some parent);
  Some (Cache (empty_layer (ly_frozen l)) parent).

Definition CacheWrap st : store P M := NewStore st.

Definition set_frozen l (b : bool) : layer M :=
  mkLayer (ly_cache l) (ly_deleted l) (ly_unsortedCache l) (ly_sortedCache l) b (ly_dirty l) (ly_readParent l).

Definition Freeze l : layer M := set_frozen l true.
Definition Unfreeze l : layer M := set_frozen l false.

(** ** Iteration *)
Definition getOrInitSortedCache l : M := default memdb_New (ly_sortedCache l).

Definition deleteKeysFromUnsortedCache l (unsorted : list (bytes * option bytes)) : layer M :=
  mkLayer (ly_cache l) (ly_deleted l) (ly_unsortedCache l ∖ list_to_set unsorted.*1) (ly_sortedCache l)
    (ly_frozen l) (ly_dirty l) (ly_readParent l).

Definition set_sorted l (db : option M) : layer M :=
  mkLayer (ly_cache l) (ly_deleted l) (ly_unsortedCache l) db (ly_frozen l) (ly_dirty l) (ly_readParent l).

(** A deleted element is stored with an arbitrary value. *)
Definition sort_item l (item : bytes * option bytes) : layer M :=
  set_sorted l (Some (memdb_Set (getOrInitSortedCache l) item.1 (default [] item.2))).

Definition clearUnsortedCacheSubset l (unsorted : list (bytes * option bytes)) : layer M :=
  let l := deleteKeysFromUnsortedCache l unsorted in
  fold_left sort_item (merge_sort pair_le unsorted) l.

(** The entries of the unsorted cache in the domain. *)
Definition unsorted_items l (start end_ : option bytes) : list (bytes * option bytes) :=
  omap (fun key =>
    if in_domain start end_ key then (fun cv => (key, cv_Value cv)) <$> ly_cache l !! key else None)
    (elements (ly_unsortedCache l)).

Definition dirtyItems l (start end_ : option bytes) : layer M :=
  if match end_ with Some e => bool_decide (e <b default [] start) | None => false end then l
  else clearUnsortedCacheSubset l (unsorted_items l start end_).

(** [iterator] of the ancestor [skip] layers up, read to its end. *)
Fixpoint iterator st (skip : nat) (start end_ : option bytes) (ascending : bool)
    : option (store P M * list (bytes * bytes)) :=
  match st, skip with
  | Base p, _ => Some (st, if ascending then kv_Iterator p start end_ else kv_ReverseIterator p start end_)
  | Cache l parent, S skip =>
      '(parent, entries) ← iterator parent skip start end_ ascending;
      Some (Cache l parent, entries)
  | Cache l parent, O =>
      let '(l, skip) := readThroughParent l parent in
      '(parent, entries) ← iterator parent skip start end_ ascending;
      let l := dirtyItems l start end_ in
      let items := getOrInitSortedCache l in
      let l := set_sorted l (Some items) in
      cache ← newMemIterator start end_ items (ly_deleted l) ascending;
      if negb (snd (ci_valid cache)) then Some (Cache l parent, entries)
      else
        let m := NewCacheMergeIterator entries cache in
        entries ← mg_drain ascending (S (mg_size m)) m;
        Some (Cache l parent, entries)
  end.

Definition Iterator st (start end_ : option bytes) := iterator st 0 start end_ true.
Definition ReverseIterator st (start end_ : option bytes) := iterator st 0 start end_ false.

(** ** Ranges *)

(** The body of the loop over the cache. *)
Definition range_key (start end_ : option bytes) (key : bytes) (cv : CValue) (keyStrs : gset bytes) : gset bytes :=
  if bool_decide (key <b default [] start) || bool_decide (default [] end_ <=b key) then keyStrs
  else match cv_Value cv with
       | None => keyStrs ∖ {[key]}
       | Some _ => {[key]} ∪ keyStrs
       end.

(** The base stores list the keys their iterator visits. *)
Fixpoint GetAllKeyStrsInRange st (start end_ : option bytes) : list bytes :=
  match st with
  | Base p => (kv_Iterator p start end_).*1
  | Cache l parent =>
      elements (map_fold (range_key start end_)
        (list_to_set (GetAllKeyStrsInRange parent start end_) : gset bytes) (ly_cache l))
  end.

Definition DeleteAll st (start end_ : option bytes) : option (store P M) :=
  fold_left (fun (acc : option (store P M)) key => st ← acc; Delete st key) (GetAllKeyStrsInRange st start end_) (Some st).
End Store.
