(* ===== verification/CacheView.v ===== *)
(** What the tower of cache layers of [CacheKV] stands for, and that its reads and
    writes respect it: every layer shows the contents of its parent with its own
    writes and deletes laid over them ([view]). *)
From stdpp Require Import base gmap sets list sorting.
From Stdlib Require Import ZArith Lia.
From S2P Require Import Prelude KVStore MergeIter CacheKV.

(** The writes ([Some (Some v)]) and deletes ([Some None]) of a layer over a map. *)
Definition overlay (d : gmap bytes (option bytes)) (m : gmap bytes bytes) : gmap bytes bytes :=
  merge (fun w v => match w with Some x => x | None => v end) d m.

Lemma lookup_overlay d m k : overlay d m !! k = match d !! k with Some x => x | None => m !! k end.
Proof. unfold overlay. rewrite lookup_merge. by destruct (d !! k), (m !! k). Qed.

Lemma overlay_empty m : overlay ∅ m = m.
Proof. apply map_eq. intros k. by rewrite lookup_overlay, lookup_empty. Qed.

Section View.
Context {P M : Type} `{!KVStore P, !KVStoreLaws P} `{!MemDB M, !MemDBLaws M}.
Implicit Types (l : layer M) (st parent : store P M).

Definition delta l : gmap bytes (option bytes) := cv_Value <$> ly_cache l.

Fixpoint view st : gmap bytes bytes :=
  match st with
  | Base p => kv_view p
  | Cache l parent => overlay (delta l) (view parent)
  end.

(** The contents each level of the tower shows, the newest first. *)
Fixpoint views st : list (gmap bytes bytes) :=
  view st :: match st with Base _ => [] | Cache _ parent => views parent end.

(** ** The invariant of a layer. *)
Definition sorted_view l : gmap bytes bytes := memdb_view (getOrInitSortedCache l).

Record layer_ok l : Prop := {
  lo_key : ly_cache l !! [] = None;
  lo_deleted : forall k, k ∈ ly_deleted l <-> delta l !! k = Some None;
  lo_all_dirty : forall k cv, ly_cache l !! k = Some cv -> cv_Dirty cv = true;
  lo_unsorted : forall k, k ∈ ly_unsortedCache l -> is_Some (ly_cache l !! k);
  lo_sorted : forall k cv, ly_cache l !! k = Some cv -> k ∉ ly_unsortedCache l ->
    sorted_view l !! k = Some (default [] (cv_Value cv));
  lo_sorted_sub : forall k, is_Some (sorted_view l !! k) -> is_Some (ly_cache l !! k);
  lo_clean : ly_dirty l = false -> ly_cache l = ∅
}.

(** The first [n] layers are empty. *)
Fixpoint skips_empty (n : nat) st : Prop :=
  match n, st with
  | O, _ => True
  | S n, Cache l parent => ly_cache l = ∅ /\ skips_empty n parent
  | S _, Base _ => False
  end.

Fixpoint ok st : Prop :=
  match st with
  | Base _ => True
  | Cache l parent =>
      layer_ok l /\ (forall n, ly_readParent l = Some n -> skips_empty n parent) /\ ok parent
  end.

(** What reads leave alone: everything but the memo and the sorted cache. *)
Definition same_layer l l' : Prop :=
  ly_cache l' = ly_cache l /\ ly_deleted l' = ly_deleted l /\ ly_frozen l' = ly_frozen l /\
  ly_dirty l' = ly_dirty l.

Fixpoint same_data st st' : Prop :=
  match st, st' with
  | Base p, Base p' => p' = p
  | Cache l parent, Cache l' parent' => same_layer l l' /\ same_data parent parent'
  | _, _ => False
  end.

Lemma same_data_refl st : same_data st st.
Proof. induction st as [p|l parent IH]; simpl; [done|]. by repeat split. Qed.

Lemma same_data_view st st' : same_data st st' -> view st' = view st.
Proof.
  revert st'. induction st as [p|l parent IH]; intros [p'|l' parent']; simpl; [by intros ->|done|done|].
  intros [(Hc & _) Hd]. unfold delta. by rewrite Hc, (IH parent' Hd).
Qed.

Lemma same_data_views st st' : same_data st st' -> views st' = views st.
Proof.
  revert st'. induction st as [p|l parent IH]; intros [p'|l' parent'] Hs;
    pose proof (same_data_view _ _ Hs) as Hv; simpl in Hs, Hv |- *; [by rewrite Hv|done|done|].
  rewrite Hv. f_equal. by apply IH, Hs.
Qed.

Lemma same_data_skips n st st' : same_data st st' -> skips_empty n st -> skips_empty n st'.
Proof.
  revert st st'. induction n as [|n IH]; intros [p|l parent] [p'|l' parent']; simpl; try done.
  intros [(Hc & _) Hd] [He Hsk]. rewrite Hc. eauto.
Qed.

Lemma frozen_run_skips st : ok st -> skips_empty (frozen_run st) st.
Proof.
  induction st as [p|l parent IH]; simpl; [done|]. intros (Hl & _ & Hok).
  destruct (ly_frozen l); simpl; [|done]. destruct (ly_dirty l) eqn:Hd; simpl; [done|].
  split; [by apply (lo_clean l)|auto].
Qed.

(** [readThroughParent] skips empty layers only. *)
Lemma readThroughParent_spec l parent l' skip :
  ok (Cache l parent) -> readThroughParent l parent = (l', skip) ->
  skips_empty skip parent /\ ok (Cache l' parent) /\ same_layer l l' /\
  ly_unsortedCache l' = ly_unsortedCache l /\ ly_sortedCache l' = ly_sortedCache l.
Proof.
  intros Hok. pose proof Hok as (Hl & Hm & Hp). unfold readThroughParent.
  destruct parent as [p|cp next]; [by intros [= <- <-]|].
  destruct (negb (ly_frozen cp) || ly_dirty cp); [by intros [= <- <-]|].
  destruct (ly_readParent l) as [n|] eqn:Hn; [by intros [= <- <-]; split; [apply Hm|]|].
  intros [= <- <-]. pose proof (frozen_run_skips _ Hp) as Hsk.
  split_and!; [done| |done..]. split_and!; [|by intros n [= <-]|done..].
  destruct Hl. by constructor.
Qed.

Lemma getFromCache_spec st skip key st' v :
  ok st -> skips_empty skip st -> key <> [] -> getFromCache st skip key = (st', v) ->
  v = view st !! key /\ same_data st st' /\ ok st'.
Proof.
  revert skip st' v. induction st as [p|l parent IH]; intros skip st' v Hok Hsk Hk.
  { simpl. intros [= <- <-]. by rewrite kv_Get_view. }
  simpl. destruct skip as [|skip].
  - rewrite lookup_overlay. unfold delta. rewrite lookup_fmap.
    destruct (ly_cache l !! key) as [cv|] eqn:Hc; simpl.
    { intros [= <- <-]. split; [done|]. split; [apply (same_data_refl (Cache l parent))|done]. }
    destruct (readThroughParent l parent) as [l' n] eqn:Hr.
    destruct (readThroughParent_spec l parent l' n Hok Hr) as (Hn & (Hl' & Hm' & Hp') & Hs & _).
    destruct (getFromCache parent n key) as [parent' v'] eqn:Hg. intros [= <- <-].
    destruct (IH n parent' v' Hp' Hn Hk Hg) as (-> & Hd & Hok').
    split; [done|]. split; [done|]. simpl. split_and!; [done| |done].
    intros n' Hn'. eapply same_data_skips; eauto.
  - destruct Hsk as [He Hsk]. destruct Hok as (Hl & Hm & Hp).
    destruct (getFromCache parent skip key) as [parent' v'] eqn:Hg. intros [= <- <-].
    destruct (IH skip parent' v' Hp Hsk Hk Hg) as (-> & Hd & Hok').
    split; [|split; [by repeat split|]].
    + rewrite lookup_overlay. unfold delta. by rewrite He, fmap_empty, lookup_empty.
    + simpl. split_and!; [done| |done]. intros n' Hn'. eapply same_data_skips; eauto.
Qed.

(** ** Writes *)
Lemma setCacheValue_spec l key value :
  layer_ok l -> key <> [] ->
  exists l', setCacheValue l key value (bool_decide (value = None)) true = Some l' /\ layer_ok l' /\
    delta l' = <[key := value]> (delta l) /\ ly_readParent l' = ly_readParent l.
Proof.
  intros [Hkey Hdel Hdirty Huns Hsort Hsub Hclean] Hk. unfold setCacheValue, AssertValidKey.
  rewrite (bool_decide_eq_true_2 (key <> [])) by done. eexists. split; [done|].
  assert (Hd : delta (mkLayer (<[key:=mkCValue value true]> (ly_cache l))
    (if bool_decide (value = None) then {[key]} ∪ ly_deleted l else ly_deleted l ∖ {[key]})
    ({[key]} ∪ ly_unsortedCache l) (ly_sortedCache l) (ly_frozen l) true (ly_readParent l))
    = <[key := value]> (delta l)) by (unfold delta; simpl; by rewrite fmap_insert).
  split_and!; [|done|done]. constructor; simpl; [| | | | | |done].
  - by rewrite lookup_insert_ne.
  - intros k. rewrite Hd. destruct (decide (k = key)) as [->|Hne].
    + rewrite lookup_insert_eq. case_bool_decide as Hv; [subst; set_solver|]. split; [set_solver|congruence].
    + rewrite lookup_insert_ne, <- Hdel by done. case_bool_decide; set_solver.
  - intros k cv. rewrite lookup_insert_Some. intros [[_ <-]|[_ Hc]]; [done|eauto].
  - intros k. rewrite elem_of_union, elem_of_singleton, lookup_insert_is_Some. intros [->|Hin]; [auto|].
    destruct (decide (key = k)); auto.
  - intros k cv. rewrite not_elem_of_union, not_elem_of_singleton. intros Hc [Hne Hn].
    rewrite lookup_insert_ne in Hc by done. by apply Hsort.
  - intros k Hin. rewrite lookup_insert_is_Some. destruct (decide (key = k)); [auto|]. right. auto.
Qed.

(** A write to the top of a tower: [w] is the value, or nil for a delete. *)
Definition put st (key : bytes) (w : option bytes) : option (store P M) :=
  match w with Some v => Set_ st key (Some v) | None => Delete st key end.

Lemma put_spec st key w :
  ok st -> key <> [] ->
  exists st', put st key w = Some st' /\ ok st' /\ view st' = overlay {[key := w]} (view st) /\
    tail (views st') = tail (views st).
Proof.
  intros Hok Hk.
  assert (Ha : AssertValidKey key = true) by by apply bool_decide_eq_true.
  assert (Hov : forall (m m' : gmap bytes bytes), (forall k, m' !! k = if decide (k = key) then w else m !! k) ->
    m' = overlay {[key := w]} m).
  { intros m m' Hm. apply map_eq. intros k. rewrite lookup_overlay, Hm. case_decide as Hd; [subst k|].
    - by rewrite lookup_singleton_eq.
    - by rewrite lookup_singleton_ne. }
  destruct st as [p|l parent].
  - exists (Base (match w with Some v => kv_Set p key v | None => kv_Delete p key end)).
    split; [destruct w; unfold put, Set_, Delete; by rewrite Ha|]. split_and!; [done| |done]. apply Hov. intros k. simpl.
    destruct w; rewrite ?kv_Set_view, ?kv_Delete_view by done; case_decide; simplify_map_eq; done.
  - destruct Hok as (Hl & Hm & Hp). destruct (setCacheValue_spec l key w Hl Hk) as (l' & Hs & Hl' & Hd & Hr).
    exists (Cache l' parent). split.
    { destruct w; unfold put, Set_, Delete; rewrite Ha; simpl in *; by rewrite Hs. }
    split; [by simpl; rewrite Hr|]. split; [|done]. apply Hov. intros k. simpl. rewrite !lookup_overlay, Hd.
    case_decide as Hdk; [subst k; by rewrite lookup_insert_eq|by rewrite lookup_insert_ne].
Qed.

Lemma dirty_keys_spec l k : layer_ok l -> k ∈ dirty_keys l <-> is_Some (delta l !! k).
Proof.
  intros Hl. unfold dirty_keys, delta. rewrite elem_of_sort_strings, list_elem_of_fmap, lookup_fmap, fmap_is_Some.
  split.
  - intros ([k' cv] & -> & Hin). apply list_elem_of_filter in Hin as [_ Hin%elem_of_map_to_list]. simpl. eauto.
  - intros [cv Hc]. exists (k, cv). split; [done|]. apply list_elem_of_filter. split; [by eapply lo_all_dirty|].
    by apply elem_of_map_to_list.
Qed.

Lemma write_key_spec l parent key :
  layer_ok l -> ok parent -> is_Some (delta l !! key) ->
  exists w parent', delta l !! key = Some w /\ write_key l (Some parent) key = Some parent' /\
    ok parent' /\ view parent' = overlay {[key := w]} (view parent) /\ tail (views parent') = tail (views parent).
Proof.
  intros Hl Hp [w Hw]. exists w.
  assert (Hk : key <> []).
  { intros ->. unfold delta in Hw. by rewrite lookup_fmap, (lo_key l Hl) in Hw. }
  destruct (put_spec parent key w Hp Hk) as (parent' & Hput & Hok & Hv & Ht).
  exists parent'. split_and!; try done. cbn [write_key mbind option_bind]. unfold isDeleted.
  pose proof (lo_deleted l Hl key) as Hdel. rewrite Hw in Hdel. destruct w as [v|].
  - rewrite bool_decide_eq_false_2 by (rewrite Hdel; congruence).
    unfold delta in Hw. rewrite lookup_fmap in Hw. destruct (ly_cache l !! key) as [[x d]|]; [|done].
    simpl in Hw. injection Hw as ->. exact Hput.
  - by rewrite bool_decide_eq_true_2 by by apply Hdel.
Qed.

(** The loop of [Write] over some of the dirty keys. *)
Lemma write_keys_spec l keys parent :
  layer_ok l -> ok parent -> (forall k, k ∈ keys -> is_Some (delta l !! k)) ->
  exists parent', fold_left (write_key l) keys (Some parent) = Some parent' /\ ok parent' /\
    (forall k, view parent' !! k = if decide (k ∈ keys) then default None (delta l !! k) else view parent !! k) /\
    tail (views parent') = tail (views parent).
Proof.
  intros Hl. revert parent. induction keys as [|key keys IH]; intros parent Hp Hk.
  { by exists parent. }
  destruct (write_key_spec l parent key Hl Hp) as (w & p1 & Hw & Hwr & Hok1 & Hv1 & Ht1); [apply Hk; left|].
  destruct (IH p1 Hok1) as (p2 & Hf & Hok2 & Hv2 & Ht2); [intros k Hin; apply Hk; by right|].
  exists p2. cbn [fold_left]. rewrite Hwr. split_and!; [done|done| |by rewrite Ht2].
  intros k. rewrite Hv2, Hv1, lookup_overlay. destruct (decide (k = key)) as [->|Hne].
  - rewrite (decide_True (P := key ∈ key :: keys)) by left. rewrite lookup_singleton_eq.
    case_decide; [done|]. by rewrite Hw.
  - rewrite lookup_singleton_ne by done. pose proof (elem_of_cons keys k key) as He.
    case_decide as Hd; [rewrite decide_True by tauto|rewrite decide_False by tauto]; done.
Qed.

Lemma empty_layer_ok b : layer_ok (empty_layer b : layer M).
Proof.
  constructor; [done| |done|by intros k ?%elem_of_empty|done| |done].
  - intros k. assert (Hd : delta (empty_layer b : layer M) = ∅) by apply fmap_empty.
    split; [by intros ?%elem_of_empty|]. rewrite Hd. by rewrite lookup_empty.
  - intros k. unfold sorted_view, getOrInitSortedCache. simpl. rewrite memdb_New_view. by rewrite lookup_empty.
Qed.

(** [Write] moves the layer's changes to its parent. *)
Lemma Write_spec l parent :
  ok (Cache l parent) ->
  exists parent', Write l parent = Some (Cache (empty_layer (ly_frozen l)) parent') /\ ok parent' /\
    view parent' = view (Cache l parent) /\ tail (views parent') = tail (views parent) /\
    (ly_cache l = ∅ -> parent' = parent).
Proof.
  intros (Hl & _ & Hp).
  destruct (write_keys_spec l (dirty_keys l) parent Hl Hp) as (p' & Hf & Hok & Hv & Ht).
  { intros k. by rewrite dirty_keys_spec. }
  exists p'. unfold Write. rewrite Hf. split_and!; [done|done| |done|].
  - apply map_eq. intros k. rewrite Hv. simpl. rewrite lookup_overlay.
    pose proof (dirty_keys_spec l k Hl) as Hd. destruct (delta l !! k) as [w|].
    + by rewrite decide_True by (apply Hd; eauto).
    + rewrite decide_False; [done|]. intros Hin%Hd. by destruct Hin.
  - intros He. unfold dirty_keys in Hf. rewrite He, map_to_list_empty in Hf. simpl in Hf. by simplify_eq.
Qed.
End View.
