(* ===== verification/CacheIterate.v ===== *)
(** Iteration over a tower of cache layers visits exactly the entries of its view
    in the domain, in the order of the iteration. *)
From stdpp Require Import base gmap sets list sorting.
From Stdlib Require Import ZArith Lia.
From S2P Require Import Prelude KVStore MergeIter CacheKV CacheView.

(** ** [memIterator] as the cache side of a merge. *)
Section Mem.
Context (asc : bool) (held : bytes -> option (option bytes)).

Record mi_ok (mi : memIterator) : Prop := {
  mo_sorted : StronglySorted (it_lt asc) (mi_entries mi).*1;
  mo_held : forall k v, (k, v) ∈ mi_entries mi ->
    held k = Some (if decide (k ∈ mi_deleted mi) then None else Some v);
  mo_last : forall k, mi_lastKey mi = Some k -> k ∉ mi_deleted mi
}.

Lemma mi_Value_spec mi k rest v :
  mi_ok mi -> (mi_entries mi).*1 = k :: rest -> held k = Some v ->
  exists mi', mi_Value mi = Some (mi', v) /\ mi_ok mi' /\ (mi_entries mi').*1 = k :: rest.
Proof.
  intros [Hs Hh Hl] Hk Hv. destruct mi as [es last del]. simpl in *.
  destruct es as [|[k' x] es]; simplify_eq/=. unfold mi_Value. simpl.
  pose proof (Hh k x ltac:(left)) as Hx. rewrite Hv in Hx. simplify_eq/=.
  destruct (decide (k ∈ del)) as [Hd|Hd].
  - rewrite (bool_decide_eq_true_2 (k ∈ del)) by done.
    rewrite bool_decide_eq_false_2 by (intros ->; by apply (Hl k)). simpl. eexists. by split_and!.
  - rewrite (bool_decide_eq_false_2 (k ∈ del)) by done. simpl. eexists. split_and!; [done| |done].
    constructor; simpl; [done|done|]. by intros j [= <-].
Qed.

#[export] Instance mi_laws : CacheIterLaws memIterator asc held.
Proof.
  refine {| ci_ok := mi_ok; ci_seen := fun _ => True |}.
  - by intros c [].
  - intros c Hc. exists c. split_and!; simpl; try done.
    + destruct (mi_entries c); by rewrite !bool_decide_decide.
    + destruct (mi_entries c) as [|[k v] es] eqn:He; [done|]. simpl.
      rewrite (mo_held c Hc k v) by (rewrite He; left). eauto.
  - intros c k rest Hc Hk _. simpl in *. by destruct (mi_entries c).
  - intros c k rest Hc Hk _. simpl in *. destruct (mi_entries c) as [|[]]; by simplify_eq/=.
  - intros c k rest v Hc Hk Hv. destruct (mi_Value_spec c k rest v Hc Hk Hv) as (c' & ? & ? & ?). by exists c'.
  - intros c k rest [Hs Hh Hl] Hk _. simpl in *. unfold mi_Next.
    destruct (mi_entries c) as [|[k' x] es] eqn:He; simplify_eq/=. eexists. split_and!; [done| |simpl; lia|done..].
    apply StronglySorted_inv in Hs as [Hs _]. constructor; simpl; [done| |done]. intros j v Hin. apply Hh. by right.
Defined.
End Mem.

Section Iterate.
Context {P M : Type} `{!KVStore P, !KVStoreLaws P} `{!MemDB M, !MemDBLaws M}.
Implicit Types (l : layer M) (st parent : store P M).

(** ** Sorting the dirty items. *)
Lemma sort_items_spec items l :
  (forall k x, (k, x) ∈ items -> k <> [] /\ delta l !! k = Some x) ->
  let l' := fold_left sort_item items l in
  ly_cache l' = ly_cache l /\ ly_deleted l' = ly_deleted l /\ ly_unsortedCache l' = ly_unsortedCache l /\
  ly_frozen l' = ly_frozen l /\ ly_dirty l' = ly_dirty l /\ ly_readParent l' = ly_readParent l /\
  forall k, sorted_view l' !! k =
    if decide (k ∈ items.*1) then (fun x => default [] x) <$> delta l !! k else sorted_view l !! k.
Proof.
  revert l. induction items as [|[key x] items IH]; intros l Hi; simpl.
  { split_and!; try done. }
  destruct (Hi key x ltac:(left)) as [Hk Hx].
  destruct (IH (sort_item l (key, x))) as (H1 & H2 & H3 & H4 & H5 & H6 & Hv).
  { intros k y Hin. apply (Hi k y). by right. }
  split_and!; [done..|]. intros k. rewrite Hv.
  assert (Hone : sorted_view (sort_item l (key, x)) = <[key := default [] x]> (sorted_view l)).
  { unfold sorted_view at 1. unfold getOrInitSortedCache at 1. simpl. by rewrite memdb_Set_view. }
  change (delta (sort_item l (key, x))) with (delta l). rewrite Hone.
  pose proof (elem_of_cons items.*1 k key) as He. destruct (decide (k = key)) as [->|Hne].
  - rewrite (decide_True (P := key ∈ key :: _)) by tauto. rewrite lookup_insert_eq, Hx. by case_decide.
  - rewrite lookup_insert_ne by done. case_decide; [rewrite decide_True by tauto|rewrite decide_False by tauto]; done.
Qed.

Lemma unsorted_items_elem l start end_ k x :
  (k, x) ∈ unsorted_items l start end_ <->
  k ∈ ly_unsortedCache l /\ in_domain start end_ k = true /\ delta l !! k = Some x.
Proof.
  unfold unsorted_items, delta. rewrite list_elem_of_omap, lookup_fmap. setoid_rewrite elem_of_elements. split.
  - intros (k' & Hk & Hx). destruct (in_domain start end_ k') eqn:Hd; [|done].
    destruct (ly_cache l !! k') as [cv|] eqn:Hc; [|done]. simplify_eq/=. by rewrite Hc.
  - intros (Hk & Hd & Hx). exists k. split; [done|]. rewrite Hd. destruct (ly_cache l !! k); [|done]. by simplify_eq/=.
Qed.

Lemma clear_spec l start end_ :
  layer_ok l ->
  let l' := clearUnsortedCacheSubset l (unsorted_items l start end_) in
  layer_ok l' /\ same_layer l l' /\ ly_readParent l' = ly_readParent l /\
  forall k, in_domain start end_ k = true -> k ∉ ly_unsortedCache l'.
Proof.
  intros Hl. unfold clearUnsortedCacheSubset. set (items := unsorted_items l start end_).
  set (l1 := deleteKeysFromUnsortedCache l items).
  assert (Hit : forall k x, (k, x) ∈ merge_sort pair_le items -> k <> [] /\ delta l1 !! k = Some x).
  { intros k x. rewrite merge_sort_Permutation. intros (_ & _ & Hx)%unsorted_items_elem. split; [|done].
    intros ->. unfold delta in Hx. by rewrite lookup_fmap, (lo_key l Hl) in Hx. }
  pose proof (sort_items_spec _ l1 Hit) as Hs. cbv zeta in Hs.
  set (l' := fold_left sort_item _ l1) in *. destruct Hs as (H1 & H2 & H3 & H4 & H5 & H6 & Hv).
  change (ly_cache l1) with (ly_cache l) in H1. change (ly_deleted l1) with (ly_deleted l) in H2.
  change (ly_dirty l1) with (ly_dirty l) in H5.
  assert (Hkeys : forall k, k ∈ (merge_sort pair_le items).*1 <->
    k ∈ ly_unsortedCache l /\ in_domain start end_ k = true /\ is_Some (delta l !! k)).
  { intros k. rewrite merge_sort_Permutation, list_elem_of_fmap. split.
    - intros ([k' x] & -> & (? & ? & Hx)%unsorted_items_elem). simpl. rewrite Hx. eauto.
    - intros (? & ? & [x Hx]). exists (k, x). split; [done|]. by apply unsorted_items_elem. }
  assert (Huns : forall k, k ∈ ly_unsortedCache l' <-> k ∈ ly_unsortedCache l /\ in_domain start end_ k <> true).
  { intros k. rewrite H3. simpl. rewrite elem_of_difference, elem_of_list_to_set.
    rewrite <- (merge_sort_Permutation pair_le items), Hkeys.
    assert (Hd : k ∈ ly_unsortedCache l -> is_Some (delta l !! k)).
    { intros Hin%(lo_unsorted l Hl). unfold delta. by rewrite lookup_fmap, fmap_is_Some. }
    naive_solver. }
  assert (Hdelta : delta l' = delta l) by (unfold delta; by rewrite H1).
  split_and!; [|done|done|]; [|by intros k Hd [_ Hn]%Huns].
  change (delta l1) with (delta l) in Hv. change (sorted_view l1) with (sorted_view l) in Hv.
  destruct Hl as [Hkey Hdel Hdirty Hu Hsort Hsub Hclean].
  constructor; [by rewrite H1|by intros k; rewrite H2, Hdelta|by rewrite H1| | | |by rewrite H5, H1].
  - intros k [Hin _]%Huns. rewrite H1. by apply Hu.
  - intros k cv Hc Hn. rewrite H1 in Hc. rewrite Hv. case_decide as Hk.
    + unfold delta. by rewrite lookup_fmap, Hc.
    + apply Hsort; [done|]. intros Hin. apply Hn, Huns. split; [done|]. intros Hd. apply Hk, Hkeys.
      unfold delta. rewrite lookup_fmap, Hc. eauto.
  - intros k. rewrite Hv, H1. case_decide; [|apply Hsub]. unfold delta. rewrite lookup_fmap.
    by rewrite !fmap_is_Some.
Qed.

Lemma dirtyItems_spec l start end_ :
  layer_ok l ->
  let l' := dirtyItems l start end_ in
  layer_ok l' /\ same_layer l l' /\ ly_readParent l' = ly_readParent l /\
  forall k, in_domain start end_ k = true -> k ∉ ly_unsortedCache l'.
Proof.
  intros Hl. unfold dirtyItems. destruct end_ as [e|]; [|by apply clear_spec].
  case_bool_decide as He; [|by apply clear_spec]. split_and!; try done.
  intros k. unfold in_domain. rewrite andb_true_iff, !bool_decide_eq_true. intros [Hs Hlt] _.
  apply (irreflexivity bytes_lt e). etrans; [exact He|]. by apply (bytes_le_lt_trans _ k).
Qed.

(** ** The merge of a layer with its parent. *)
Lemma mem_entries l start end_ asc :
  bound_ok start = true -> bound_ok end_ = true ->
  newMemIterator start end_ (getOrInitSortedCache l) (ly_deleted l) asc =
    Some (mkMem (entries_of asc (sorted_view l) start end_) None (ly_deleted l)).
Proof.
  intros Hs He. unfold newMemIterator.
  rewrite memdb_Iterator_entries, memdb_ReverseIterator_entries, Hs, He. by destruct asc.
Qed.

(** A layer whose unsorted cache is empty in the domain: the sorted cache holds
    the writes and the deletes in the domain. *)
Lemma sorted_entries l start end_ asc k v :
  layer_ok l -> (forall k, in_domain start end_ k = true -> k ∉ ly_unsortedCache l) ->
  (k, v) ∈ entries_of asc (sorted_view l) start end_ <->
  in_domain start end_ k = true /\ exists w, delta l !! k = Some w /\ v = default [] w.
Proof.
  intros Hl Hu. rewrite entries_of_elem. unfold delta. rewrite lookup_fmap. split.
  - intros [Hv Hd]. split; [done|]. destruct (lo_sorted_sub l Hl k ltac:(eauto)) as [cv Hc].
    rewrite (lo_sorted l Hl k cv Hc (Hu k Hd)) in Hv. rewrite Hc. simpl. naive_solver.
  - intros (Hd & w & Hw & ->). destruct (ly_cache l !! k) as [cv|] eqn:Hc; [|done]. simplify_eq/=.
    by rewrite (lo_sorted l Hl k cv Hc (Hu k Hd)).
Qed.

Lemma mem_ok l start end_ asc :
  layer_ok l -> (forall k, in_domain start end_ k = true -> k ∉ ly_unsortedCache l) ->
  mi_ok asc (fun k => delta l !! k) (mkMem (entries_of asc (sorted_view l) start end_) None (ly_deleted l)).
Proof.
  intros Hl Hu. constructor; simpl; [apply entries_of_sorted| |done].
  intros k v (_ & w & Hw & ->)%sorted_entries; [|done|done]. pose proof (lo_deleted l Hl k) as Hd.
  rewrite Hw in Hd |- *. case_decide as Hk; [by apply Hd in Hk|]. by destruct w as [w|]; [|destruct Hk; apply Hd].
Qed.

Lemma merged_live l start end_ asc parentView k v :
  layer_ok l -> (forall k, in_domain start end_ k = true -> k ∉ ly_unsortedCache l) ->
  (k, v) ∈ entries_of asc (overlay (delta l) parentView) start end_ <->
  live_entry (fun k => delta l !! k)
    (NewCacheMergeIterator (entries_of asc parentView start end_)
      (mkMem (entries_of asc (sorted_view l) start end_) None (ly_deleted l))) k v.
Proof.
  intros Hl Hu.
  assert (Hkeys : k ∈ (entries_of asc (sorted_view l) start end_).*1 <->
    in_domain start end_ k = true /\ is_Some (delta l !! k)).
  { rewrite list_elem_of_fmap. split.
    - intros ([k' x] & -> & (Hd & w & Hw & _)%sorted_entries); [|done|done]. simpl. rewrite Hw. eauto.
    - intros [Hd [w Hw]]. exists (k, default [] w). split; [done|]. apply sorted_entries; eauto. }
  unfold live_entry. simpl. rewrite Hkeys, !entries_of_elem, lookup_overlay.
  destruct (delta l !! k) as [w|] eqn:Hw.
  - assert (Hsome : is_Some (Some w)) by eauto. naive_solver.
  - assert (Hn : ~ is_Some (@None (option bytes))) by (by intros [? ?]). naive_solver.
Qed.

Lemma drain_merged l start end_ asc parentView :
  layer_ok l -> (forall k, in_domain start end_ k = true -> k ∉ ly_unsortedCache l) ->
  let m := NewCacheMergeIterator (entries_of asc parentView start end_)
    (mkMem (entries_of asc (sorted_view l) start end_) None (ly_deleted l)) in
  mg_drain asc (S (mg_size m)) m = Some (entries_of asc (overlay (delta l) parentView) start end_).
Proof.
  intros Hl Hu m. apply (mg_drain_spec asc (fun k => delta l !! k)).
  - split; [by apply mem_ok|apply entries_of_sorted].
  - apply entries_of_sorted.
  - intros k v. by apply merged_live.
  - apply Nat.lt_succ_r. unfold mg_size. simpl.
    rewrite <- (length_fmap fst (entries_of asc (overlay _ _) _ _)), <- (length_fmap fst (entries_of asc parentView _ _)),
      <- length_app.
    apply submseteq_length, NoDup_submseteq; [eapply sorted_nodup, entries_of_sorted|].
    intros k. rewrite list_elem_of_fmap. intros ([k' v] & -> & Hin). simpl.
    apply (merged_live l start end_ asc parentView k' v Hl Hu) in Hin. rewrite elem_of_app. unfold live_entry in Hin. simpl in Hin.
    destruct Hin as [[Hin _]|[Hin _]]; [by right|left]. by apply (list_elem_of_fmap_2 fst _ (k', v)).
Qed.

(** No entry of the sorted cache in the domain: the layer says nothing about it. *)
Lemma pass_through l start end_ asc parentView :
  layer_ok l -> (forall k, in_domain start end_ k = true -> k ∉ ly_unsortedCache l) ->
  entries_of asc (sorted_view l) start end_ = [] ->
  entries_of asc (overlay (delta l) parentView) start end_ = entries_of asc parentView start end_.
Proof.
  intros Hl Hu He. apply (entries_ext asc); [apply entries_of_sorted..|]. intros k v.
  rewrite !entries_of_elem, lookup_overlay. destruct (delta l !! k) as [w|] eqn:Hw; [|done].
  assert (Hd : in_domain start end_ k <> true); [|tauto]. intros Hd.
  assert (Hin : (k, default [] w) ∈ entries_of asc (sorted_view l) start end_) by (apply sorted_entries; eauto).
  rewrite He in Hin. by apply elem_of_nil in Hin.
Qed.

Lemma layer_ok_init l : layer_ok l -> layer_ok (set_sorted l (Some (getOrInitSortedCache l))).
Proof. by intros []. Qed.

Lemma iterator_spec st skip start end_ asc :
  ok st -> skips_empty skip st -> bound_ok start = true -> bound_ok end_ = true ->
  exists st', iterator st skip start end_ asc = Some (st', entries_of asc (view st) start end_) /\
    same_data st st' /\ ok st'.
Proof.
  intros Hok Hsk Hs He. revert skip Hok Hsk. induction st as [p|l parent IH]; intros skip Hok Hsk.
  { exists (Base p). split; [simpl; by rewrite kv_entries|done]. }
  cbn [iterator view]. destruct skip as [|skip].
  - destruct (readThroughParent l parent) as [l1 n] eqn:Hr.
    destruct (readThroughParent_spec l parent l1 n Hok Hr) as (Hn & (Hl1 & Hm1 & Hp1) & Hs1 & _).
    destruct (IH n Hp1 Hn) as (parent' & -> & Hd & Hok'). cbn [mbind option_bind].
    destruct (dirtyItems_spec l1 start end_ Hl1) as (Hl2 & Hs2 & Hr2 & Hu). set (l2 := dirtyItems l1 start end_) in *.
    assert (Hdelta : delta l2 = delta l) by (unfold delta; destruct Hs1 as [H1 _], Hs2 as [H2 _]; by rewrite H2, H1).
    assert (Hsame : same_layer l (set_sorted l2 (Some (getOrInitSortedCache l2)))).
    { destruct Hs1 as (? & ? & ? & ?), Hs2 as (? & ? & ? & ?). split_and!; simpl; congruence. }
    change (ly_deleted (set_sorted l2 _)) with (ly_deleted l2).
    rewrite (mem_entries l2 start end_ asc Hs He). cbn [mbind option_bind].
    exists (Cache (set_sorted l2 (Some (getOrInitSortedCache l2))) parent').
    split; [|split; [by split|]].
    + rewrite <- Hdelta. destruct (entries_of asc (sorted_view l2) start end_) eqn:Hent; cbn [ci_valid mi_iter snd mi_entries].
      * rewrite bool_decide_eq_false_2 by (intros Hx; by apply Hx). simpl.
        by rewrite (pass_through l2 start end_ asc (view parent) Hl2 Hu Hent).
      * rewrite bool_decide_eq_true_2 by done. cbn [negb]. rewrite <- Hent.
        by rewrite (drain_merged l2 start end_ asc (view parent) Hl2 Hu).
    + simpl. split_and!; [by apply layer_ok_init| |done]. rewrite Hr2. intros n' Hn'. eapply same_data_skips; eauto.
  - destruct Hsk as [Hem Hsk]. destruct Hok as (Hl & Hm & Hp). destruct (IH skip Hp Hsk) as (parent' & -> & Hd & Hok').
    exists (Cache l parent'). split; [|split; [by repeat split|]].
    + cbn [mbind option_bind]. unfold delta. by rewrite Hem, fmap_empty, overlay_empty.
    + simpl. split_and!; [done| |done]. intros n' Hn'. eapply same_data_skips; eauto.
Qed.
End Iterate.
