(* ===== verification/CacheSpec.v ===== *)
(** The cache-wrapped store against its specification.

    The specification of a tower of cache layers is a stack of maps, the newest
    first: a read looks at the top, a write changes the top, a wrap duplicates the
    top, a revert drops it and [Write] of a layer copies its map over the one
    below.  Every sequence of operations on the code answers as the stack does
    ([cachekv_refines]); the skipping of frozen empty layers, the memo of
    [readThroughParent] and the two caches of a layer are invisible.  The range
    operations and the two binary searches of [store.go] follow. *)
From stdpp Require Import base gmap sets list sorting.
From Stdlib Require Import ZArith Lia.
From S2P Require Import Prelude KVStore MergeIter CacheKV CacheView CacheIterate.

(** ** Operations on a tower. *)
Inductive op :=
| OGet (key : bytes)
| OHas (key : bytes)
| OSet (key value : bytes)
| ODelete (key : bytes)
| OIterate (start end_ : option bytes) (ascending : bool)
| OWrap
| OSnapshot
| ORevert
| OWrite (i : nat).

Inductive answer :=
| AValue (v : option bytes)
| ABool (b : bool)
| AEntries (l : list (bytes * bytes))
| ADone.

Section Ops.
Context {P M : Type} `{!KVStore P} `{!MemDB M}.
Implicit Types (l : layer M) (st parent : store P M).

(** [Write] of the [i]-th layer from the top. *)
Fixpoint write_at (i : nat) st : option (store P M) :=
  match st, i with
  | Base _, _ => None
  | Cache l parent, O => Write l parent
  | Cache l parent, S i => parent ← write_at i parent; Some (Cache l parent)
  end.

(** A snapshot freezes the top and wraps it; a revert drops the top and unfreezes
    the layer below, as [x/evm/state/state.go] does. *)
Definition run_op st (o : op) : option (store P M * answer) :=
  match o with
  | OGet key => '(st, v) ← Get st key; Some (st, AValue v)
  | OHas key => '(st, b) ← Has st key; Some (st, ABool b)
  | OSet key value => st ← Set_ st key (Some value); Some (st, ADone)
  | ODelete key => st ← Delete st key; Some (st, ADone)
  | OIterate start end_ asc =>
      '(st, entries) ← (if asc then Iterator st start end_ else ReverseIterator st start end_);
      Some (st, AEntries entries)
  | OWrap => Some (CacheWrap st, ADone)
  | OSnapshot =>
      match st with
      | Cache l parent => Some (CacheWrap (Cache (Freeze l) parent), ADone)
      | Base _ => None
      end
  | ORevert =>
      match st with
      | Cache _ (Cache l parent) => Some (Cache (Unfreeze l) parent, ADone)
      | _ => None
      end
  | OWrite i => st ← write_at i st; Some (st, ADone)
  end.

Fixpoint run st (os : list op) : option (store P M * list answer) :=
  match os with
  | [] => Some (st, [])
  | o :: os =>
      '(st, a) ← run_op st o;
      '(st, answers) ← run st os;
      Some (st, a :: answers)
  end.
End Ops.

(** ** The specification: a stack of maps. *)
Definition spec_op (stack : list (gmap bytes bytes)) (o : op) : list (gmap bytes bytes) * answer :=
  let top := default ∅ (head stack) in
  match o with
  | OGet key => (stack, AValue (top !! key))
  | OHas key => (stack, ABool (bool_decide (is_Some (top !! key))))
  | OSet key value => (<[key := value]> top :: tail stack, ADone)
  | ODelete key => (delete key top :: tail stack, ADone)
  | OIterate start end_ asc => (stack, AEntries (entries_of asc top start end_))
  | OWrap | OSnapshot => (top :: stack, ADone)
  | ORevert => (tail stack, ADone)
  | OWrite i => (match stack !! i with Some m => <[S i := m]> stack | None => stack end, ADone)
  end.

Fixpoint spec_run (stack : list (gmap bytes bytes)) (os : list op) : list (gmap bytes bytes) * list answer :=
  match os with
  | [] => (stack, [])
  | o :: os =>
      let '(stack, a) := spec_op stack o in
      let '(stack, answers) := spec_run stack os in
      (stack, a :: answers)
  end.

(** What the callers guarantee, for a tower of [n] levels, the base included. *)
Definition op_ok (n : nat) (o : op) : bool :=
  match o with
  | OGet key | OHas key | OSet key _ | ODelete key => AssertValidKey key
  | OIterate start end_ _ => bound_ok start && bound_ok end_
  | OWrap => true
  | OSnapshot => bool_decide (2 <= n)%nat
  | ORevert => bool_decide (3 <= n)%nat
  | OWrite i => bool_decide (S i < n)%nat
  end.

Definition levels (n : nat) (o : op) : nat :=
  match o with OWrap | OSnapshot => S n | ORevert => pred n | _ => n end.

Fixpoint ops_ok (n : nat) (os : list op) : bool :=
  match os with
  | [] => true
  | o :: os => op_ok n o && ops_ok (levels n o) os
  end.

Section Refine.
Context {P M : Type} `{!KVStore P, !KVStoreLaws P} `{!MemDB M, !MemDBLaws M}.
Implicit Types (l : layer M) (st parent : store P M).

Lemma views_cons st : views st = view st :: tail (views st).
Proof. by destruct st. Qed.

Lemma layer_ok_frozen l b : layer_ok l -> layer_ok (set_frozen l b).
Proof. by intros []. Qed.

Lemma fresh_ok b st :
  ok st -> ok (Cache (empty_layer b) st) /\ views (Cache (empty_layer b) st) = view st :: views st.
Proof.
  intros Hok. split; [simpl; split_and!; [apply empty_layer_ok|done|done]|]. simpl.
  unfold delta. simpl. by rewrite fmap_empty, overlay_empty.
Qed.

(** [Write] of a layer leaves alone the layers above it and what they skip. *)
Lemma write_at_spec i st :
  ok st -> (S i < length (views st))%nat ->
  exists st' m, write_at i st = Some st' /\ ok st' /\ views st !! i = Some m /\ views st' = <[S i := m]> (views st) /\
    forall n, skips_empty n st -> skips_empty n st'.
Proof.
  revert st. induction i as [|i IH]; intros [p|l parent] Hok Hi; simpl in Hi; [lia| |lia|].
  - destruct (Write_spec l parent Hok) as (parent' & Hw & Hok' & Hv & Ht & He).
    destruct (fresh_ok (ly_frozen l) parent' Hok') as [Hf Hvf].
    exists (Cache (empty_layer (ly_frozen l)) parent'), (view (Cache l parent)).
    split; [done|]. split; [done|]. split; [done|]. split.
    + rewrite Hvf, (views_cons parent'), Ht, Hv. cbn [views]. by rewrite (views_cons parent).
    + intros [|n]; [done|]. intros [Hc Hsk]. split; [done|]. by rewrite (He Hc).
  - destruct Hok as (Hl & Hm & Hp). destruct (IH parent Hp) as (parent' & m & Hw & Hok' & Hlk & Hv & Hsk); [lia|].
    assert (Hvp : view parent' = view parent).
    { rewrite (views_cons parent'), (views_cons parent) in Hv. by injection Hv. }
    exists (Cache l parent'), m. split; [simpl; by rewrite Hw|]. split; [|split; [done|split]].
    + simpl. split_and!; [done|eauto|done].
    + cbn [views]. simpl. by rewrite Hvp, Hv.
    + intros [|n]; [done|]. intros [Hc Hn]. split; [done|]. by apply Hsk.
Qed.

Lemma run_op_spec st o :
  ok st -> op_ok (length (views st)) o = true ->
  exists st' a, run_op st o = Some (st', a) /\ ok st' /\ spec_op (views st) o = (views st', a) /\
    length (views st') = levels (length (views st)) o.
Proof.
  intros Hok. assert (Htop : default ∅ (head (views st)) = view st) by by destruct st.
  unfold spec_op. rewrite Htop.
  assert (Hput : forall key w, AssertValidKey key = true -> exists st', put st key w = Some st' /\ ok st' /\
    match w with Some v => <[key := v]> (view st) | None => delete key (view st) end :: tail (views st) = views st' /\
    length (views st') = length (views st)).
  { intros key w Hk%bool_decide_eq_true. destruct (put_spec st key w Hok Hk) as (st' & Hp & Hok' & Hv & Ht).
    exists st'. split_and!; [done|done| |by rewrite (views_cons st), (views_cons st'), Ht].
    rewrite (views_cons st'), Ht, Hv. f_equal. apply map_eq. intros k. rewrite lookup_overlay.
    destruct w; (destruct (decide (k = key)) as [->|]; simplify_map_eq; done). }
  assert (Hget : forall key, AssertValidKey key = true -> exists st', Get st key = Some (st', view st !! key) /\
    ok st' /\ views st' = views st).
  { intros key Hk. unfold Get. rewrite Hk. apply bool_decide_eq_true in Hk.
    destruct (getFromCache st 0 key) as [st' v] eqn:Hg.
    destruct (getFromCache_spec st 0 key st' v Hok I Hk Hg) as (-> & Hd & Hok').
    exists st'. split_and!; [done|done|]. by apply same_data_views. }
  destruct o as [key|key|key value|key|start end_ asc| | | |i]; simpl; intros Ho.
  - destruct (Hget key Ho) as (st' & -> & Hok' & Hv). exists st', (AValue (view st !! key)). by rewrite Hv.
  - destruct (Hget key Ho) as (st' & Hg & Hok' & Hv). unfold Has. rewrite Hg. cbn [mbind option_bind].
    exists st', (ABool (bool_decide (view st !! key <> None))). rewrite Hv. split_and!; [done|done| |done].
    do 2 f_equal. apply bool_decide_ext. by rewrite <- not_eq_None_Some.
  - destruct (Hput key (Some value) Ho) as (st' & Hp & Hok' & -> & Hlen). simpl in Hp. rewrite Hp. by exists st', ADone.
  - destruct (Hput key None Ho) as (st' & Hp & Hok' & -> & Hlen). simpl in Hp. rewrite Hp. by exists st', ADone.
  - apply andb_true_iff in Ho as [Hs He]. destruct (iterator_spec st 0 start end_ asc Hok I Hs He) as (st' & Hi & Hd & Hok').
    exists st', (AEntries (entries_of asc (view st) start end_)). rewrite (same_data_views _ _ Hd).
    split_and!; [|done..]. unfold Iterator, ReverseIterator. destruct asc; by rewrite Hi.
  - destruct (fresh_ok false st Hok) as [Hf Hv]. exists (CacheWrap st), ADone. unfold CacheWrap, NewStore.
    by rewrite Hv.
  - destruct st as [p|l parent]; [by apply bool_decide_eq_true in Ho; simpl in Ho; lia|].
    assert (Hok' : ok (Cache (Freeze l) parent)) by (destruct Hok as (Hl & Hr); split; [by apply layer_ok_frozen|done]).
    destruct (fresh_ok false _ Hok') as [Hf Hv]. exists (CacheWrap (Cache (Freeze l) parent)), ADone.
    unfold CacheWrap, NewStore. by rewrite Hv.
  - apply bool_decide_eq_true in Ho. destruct st as [p|l [p|l' parent]]; [simpl in Ho; lia..|].
    exists (Cache (Unfreeze l') parent), ADone. split_and!; [done| |done|done].
    destruct Hok as (_ & _ & Hl' & Hr). split; [by apply layer_ok_frozen|done].
  - apply bool_decide_eq_true in Ho. destruct (write_at_spec i st Hok Ho) as (st' & m & -> & Hok' & -> & Hv & _).
    exists st', ADone. rewrite Hv, length_insert. done.
Qed.

(** C9. A tower of cache layers behaves as a stack of maps: every sequence of
    operations its callers may make runs without panic, each read, membership
    test and iteration answers what the stack answers, and the contents of every
    level at the end are the maps of the stack. *)
Theorem cachekv_refines st os :
  ok st -> ops_ok (length (views st)) os = true ->
  exists st' answers, run st os = Some (st', answers) /\ ok st' /\ spec_run (views st) os = (views st', answers).
Proof.
  revert st. induction os as [|o os IH]; intros st Hok Ho; simpl in *; [by exists st, []|].
  apply andb_true_iff in Ho as [Ho Hos].
  destruct (run_op_spec st o Hok Ho) as (st1 & a & -> & Hok1 & -> & Hlen). rewrite <- Hlen in Hos.
  destruct (IH st1 Hok1 Hos) as (st2 & answers & Hr & Hok2 & Hs). cbn [mbind option_bind]. rewrite Hr, Hs.
  by exists st2, (a :: answers).
Qed.

(** ** Ranges *)
Lemma range_keys_spec (start end_ : option bytes) (base : gset bytes) (c : gmap bytes CValue) (k : bytes) (Q : Prop) :
  (k ∈ base <-> Q) ->
  k ∈ map_fold (range_key start end_) base c <->
  if bool_decide (k <b default [] start) || bool_decide (default [] end_ <=b k) then Q
  else match c !! k with Some cv => is_Some (cv_Value cv) | None => Q end.
Proof.
  intros HQ. apply (map_fold_weak_ind (fun acc c => k ∈ acc <->
    if bool_decide (k <b default [] start) || bool_decide (default [] end_ <=b k) then Q
    else match c !! k with Some cv => is_Some (cv_Value cv) | None => Q end)).
  { by destruct (_ || _). }
  intros key cv m acc Hm IH. unfold range_key. destruct (decide (k = key)) as [->|Hne].
  - rewrite lookup_insert_eq. rewrite Hm in IH. destruct (bool_decide (key <b _) || _); [done|].
    destruct (cv_Value cv); [set_solver|]. split; [set_solver|by intros [? ?]].
  - rewrite lookup_insert_ne by done. rewrite <- IH. destruct (bool_decide (key <b _) || _); [done|].
    destruct (cv_Value cv); set_solver.
Qed.

Lemma range_spec st start e :
  bound_ok start = true -> e <> [] ->
  NoDup (GetAllKeyStrsInRange st start (Some e)) /\
  forall k, k ∈ GetAllKeyStrsInRange st start (Some e) <->
    is_Some (view st !! k) /\ in_domain start (Some e) k = true.
Proof.
  intros Hs He. assert (Hb : bound_ok (Some e) = true) by (apply bool_decide_eq_true; congruence).
  induction st as [p|l parent [_ IH]]; simpl.
  - pose proof (kv_entries true p start (Some e) Hs Hb) as Hk. simpl in Hk. rewrite Hk.
    split; [eapply sorted_nodup, (entries_of_sorted true)|].
    intros k. rewrite list_elem_of_fmap. split.
    + intros ([k' v] & -> & [Hv Hd]%(entries_of_elem true)). simpl. eauto.
    + intros [[v Hv] Hd]. exists (k, v). split; [done|]. by apply (entries_of_elem true).
  - split; [apply NoDup_elements|]. intros k. rewrite elem_of_elements.
    rewrite (range_keys_spec start (Some e) _ _ k _ (iff_trans (elem_of_list_to_set k _) (IH k))).
    rewrite lookup_overlay. unfold delta. rewrite lookup_fmap. unfold in_domain. simpl.
    assert (Hn : bool_decide (e <=b k) = negb (bool_decide (k <b e)))
      by (rewrite <- bool_decide_not; apply bool_decide_ext; by rewrite bytes_not_lt).
    assert (Hn' : bool_decide (default [] start <=b k) = negb (bool_decide (k <b default [] start)))
      by (rewrite <- bool_decide_not; apply bool_decide_ext; by rewrite bytes_not_lt).
    rewrite Hn, Hn'.
    destruct (bool_decide (k <b default [] start)), (bool_decide (k <b e)); simpl;
      destruct (ly_cache l !! k); simpl; try tauto; naive_solver.
Qed.

(** With an end bound the range deletion of a cached store removes exactly
    the keys of the range from its view, whether they come from the layer or from
    an ancestor, and leaves the levels below as they are. *)
Theorem DeleteAll_exact st start e :
  ok st -> bound_ok start = true -> e <> [] -> view st !! [] = None ->
  exists st', DeleteAll st start (Some e) = Some st' /\ ok st' /\ tail (views st') = tail (views st) /\
    forall k, view st' !! k = if in_domain start (Some e) k then None else view st !! k.
Proof.
  intros Hok Hs He Hnil. unfold DeleteAll. destruct (range_spec st start e Hs He) as [_ Hr].
  assert (Hgen : forall keys st, ok st -> (forall k, k ∈ keys -> k <> []) ->
    exists st', fold_left (fun (acc : option (store P M)) key => st ← acc; Delete st key) keys (Some st) = Some st' /\
      ok st' /\ tail (views st') = tail (views st) /\
      forall k, view st' !! k = if decide (k ∈ keys) then None else view st !! k).
  { clear. induction keys as [|key keys IH]; intros st Hok Hk; [by exists st|].
    destruct (put_spec st key None Hok) as (st1 & Hp & Hok1 & Hv1 & Ht1); [apply Hk; left|].
    destruct (IH st1 Hok1) as (st2 & Hf & Hok2 & Ht2 & Hv2); [intros k Hin; apply Hk; by right|].
    exists st2. cbn [fold_left mbind option_bind]. simpl in Hp. rewrite Hp. split_and!; [done|done|congruence|].
    intros k. rewrite Hv2, Hv1, lookup_overlay. pose proof (elem_of_cons keys k key) as Hc.
    destruct (decide (k = key)) as [->|Hne].
    - rewrite lookup_singleton_eq, (decide_True (P := key ∈ key :: keys)) by tauto. by case_decide.
    - rewrite lookup_singleton_ne by done.
      case_decide; [rewrite decide_True by tauto|rewrite decide_False by tauto]; done. }
  destruct (Hgen (GetAllKeyStrsInRange st start (Some e)) st Hok) as (st' & -> & Hok' & Ht & Hv).
  { intros k [Hin _]%Hr ->. rewrite Hnil in Hin. by destruct Hin. }
  exists st'. split_and!; [done..|]. intros k. rewrite Hv. pose proof (Hr k) as Hk.
  destruct (in_domain start (Some e) k); case_decide as Hd; try done.
  - destruct (view st !! k); [|done]. exfalso. apply Hd, Hk. eauto.
  - by apply Hk in Hd as [_ ?].
Qed.

(** With a nil end bound, which an iterator takes as no bound, the range
    listing ignores the layer: it lists the keys of the parent, the ones the layer
    has deleted included and the ones it has written not. *)
Theorem range_nil_end_ignores_layer l parent start k :
  k ∈ GetAllKeyStrsInRange (Cache l parent) start None <-> k ∈ GetAllKeyStrsInRange parent start None.
Proof.
  simpl. rewrite elem_of_elements, (range_keys_spec start None _ _ k _ (elem_of_list_to_set k _)). simpl.
  rewrite (bool_decide_eq_true_2 ([] <=b k)); [by rewrite orb_true_r|].
  apply bytes_le_lteq. destruct k; [by right|left]. done.
Qed.
End Refine.

(** ** Witnesses. *)
Definition ex_base : store (gmap bytes bytes) (gmap bytes bytes) := Base {[ [1%Z] := [10%Z]; [3%Z] := [30%Z] ]}.

Definition ex_ops : list op :=
  [OWrap; OSet [2%Z] [20%Z]; OSnapshot; OGet [2%Z]; OSnapshot; ODelete [1%Z]; OHas [1%Z];
   OIterate None None true; OWrite 0; OWrite 1; ORevert; OIterate None None false; OWrite 1; OGet [1%Z]].

Lemma cachekv_refines_witness :
  exists st' answers, run ex_base ex_ops = Some (st', answers) /\ ok st' /\
    spec_run (views ex_base) ex_ops = (views st', answers).
Proof. apply (cachekv_refines ex_base ex_ops); [exact I|vm_compute; reflexivity]. Defined.

Lemma DeleteAll_exact_witness :
  exists st', DeleteAll (CacheWrap ex_base) (Some [1%Z]) (Some [2%Z]) = Some st' /\ ok st' /\
    tail (views st') = tail (views (CacheWrap ex_base)) /\
    forall k, view st' !! k = if in_domain (Some [1%Z]) (Some [2%Z]) k then None else view (CacheWrap ex_base) !! k.
Proof.
  apply (DeleteAll_exact (CacheWrap ex_base) (Some [1%Z]) [2%Z]);
    [exact (proj1 (fresh_ok false ex_base I))|reflexivity|discriminate|reflexivity].
Defined.
