(* ===== verification/CacheSearch.v ===== *)
(** The two binary searches of [sei-cosmos/store/cachekv/store.go] over a sorted
    list of strings.  An index is a [Z], [-1] for none; a lookup out of range is a
    panic ([None]), and so is running out of fuel, which the length of the list
    bounds. *)
From stdpp Require Import base list sorting.
From Stdlib Require Import ZArith Lia.
From S2P Require Import Prelude.
Local Open Scope Z_scope.

Section Search.
Variable strL : list bytes.
Implicit Types q midStr : bytes.

Definition at_ (i : Z) : option bytes := if bool_decide (0 <= i) then strL !! Z.to_nat i else None.

(** [for i := n-1; i >= 0; i-- { if stop(strL[i]) { return i+1 } }; return 0] *)
Fixpoint back (stop : bytes -> bool) (n : nat) : option Z :=
  match n with
  | O => Some 0
  | S i => s ← strL !! i; if (stop s : bool) then Some (Z.of_nat i + 1) else back stop i
  end.

(** The loop shared by the two searches; [inl] is the index the equal case
    returns, [inr] the two bounds at the end of the loop. *)
Fixpoint bsearch (stop : bytes -> bool) (q : bytes) (fuel : nat) (lo hi : Z) : option (Z + Z * Z) :=
  match fuel with
  | O => None
  | S fuel =>
      if bool_decide (lo <= hi) then
        let mid := Z.shiftr (lo + hi) 1 in
        midStr ← at_ mid;
        if bool_decide (midStr = q) then inl <$> back stop (Z.to_nat mid)
        else if bool_decide (midStr <b q) then bsearch stop q fuel (mid + 1) hi
        else bsearch stop q fuel lo (mid - 1)
      else Some (inr (lo, hi))
  end.

Definition findStartIndex (startQ : bytes) : option Z :=
  if bool_decide (strL = []) then Some (-1)
  else
    r ← bsearch (fun s => bool_decide (s <> startQ)) startQ (S (length strL)) 0 (Z.of_nat (length strL) - 1);
    match r with
    | inl i => Some i
    | inr (lo, _) =>
        if bool_decide (0 <= lo < Z.of_nat (length strL)) then
          s ← at_ lo; Some (if bool_decide (startQ <=b s) then lo else -1)
        else Some (-1)
    end.

(** [for i := hi; i >= 0; i-- { if strL[i] < endQ { return i } }; return -1] *)
Fixpoint last_below (endQ : bytes) (n : nat) : option Z :=
  match n with
  | O => Some (-1)
  | S i => s ← strL !! i; if bool_decide (s <b endQ) then Some (Z.of_nat i) else last_below endQ i
  end.

Definition findEndIndex (endQ : bytes) : option Z :=
  if bool_decide (strL = []) then Some (-1)
  else
    r ← bsearch (fun s => bool_decide (s <b endQ)) endQ (S (length strL)) 0 (Z.of_nat (length strL) - 1);
    match r with
    | inl i => Some i
    | inr (_, hi) => last_below endQ (Z.to_nat (hi + 1))
    end.

(** ** Correctness on sorted lists. *)
Context (Hsorted : StronglySorted bytes_le strL).

Lemma sorted_lookup i j a b : (i <= j)%nat -> strL !! i = Some a -> strL !! j = Some b -> a <=b b.
Proof.
  revert i j. induction Hsorted as [|x l Hl IH Hx]; intros i j Hij Hi Hj; [done|].
  destruct i as [|i], j as [|j]; simpl in *; [|by simplify_eq; eapply Forall_lookup_1|lia|apply (IH Hl i j); [lia|done|done]].
  simplify_eq. reflexivity.
Qed.

(** The elements below [q] are the first [n]. *)
Definition below (q : bytes) (n : nat) : Prop :=
  (n <= length strL)%nat /\ forall i s, strL !! i = Some s -> s <b q <-> (i < n)%nat.

Lemma back_spec stop q n :
  (forall s, s <=b q -> stop s = true <-> s <b q) ->
  (n < length strL)%nat -> strL !! n = Some q ->
  exists k, back stop n = Some (Z.of_nat k) /\ below q k /\ strL !! k = Some q.
Proof.
  intros Hstop. induction n as [|n IH]; intros Hn Hq.
  - exists 0%nat. split_and!; [done| |done]. split; [lia|]. intros i s Hi. split; [|lia]. intros Hs.
    pose proof (sorted_lookup 0 i _ _ ltac:(lia) Hq Hi). exfalso. by eapply bytes_not_lt.
  - cbn [back]. destruct (lookup_lt_is_Some_2 strL n) as [s Hs]; [lia|]. rewrite Hs. cbn [mbind option_bind].
    pose proof (sorted_lookup n (S n) _ _ ltac:(lia) Hs Hq) as Hle. destruct (stop s) eqn:Hst.
    + apply Hstop in Hst; [|done]. exists (S n). split_and!; [f_equal; lia| |done]. split; [lia|].
      intros i x Hi. split; intros Hlt.
      * destruct (decide (i < S n)%nat) as [|Hge]; [done|]. exfalso.
        pose proof (sorted_lookup (S n) i _ _ ltac:(lia) Hq Hi). by eapply bytes_not_lt.
      * pose proof (sorted_lookup i n _ _ ltac:(lia) Hi Hs). by eapply bytes_le_lt_trans.
    + apply IH; [lia|]. apply bytes_le_lteq in Hle as [Hlt| ->]; [|done].
      apply (Hstop s) in Hlt; [congruence|]. apply bytes_le_lteq. by left.
Qed.

Lemma bsearch_spec stop q fuel lo hi :
  (forall s, s <=b q -> stop s = true <-> s <b q) ->
  0 <= lo <= hi + 1 -> hi < Z.of_nat (length strL) -> (Z.to_nat (hi + 1 - lo) < fuel)%nat ->
  (forall i s, strL !! i = Some s -> Z.of_nat i < lo -> s <b q) ->
  (forall i s, strL !! i = Some s -> hi < Z.of_nat i -> q <b s) ->
  (exists k, bsearch stop q fuel lo hi = Some (inl (Z.of_nat k)) /\ below q k /\ strL !! k = Some q) \/
  (exists k, bsearch stop q fuel lo hi = Some (inr (Z.of_nat k, Z.of_nat k - 1)) /\ below q k /\ q ∉ strL).
Proof.
  intros Hstop. revert lo hi. induction fuel as [|fuel IH]; intros lo hi Hl Hr Hf Hlo Hhi; [lia|].
  cbn [bsearch]. case_bool_decide as Hle.
  - set (mid := Z.shiftr (lo + hi) 1).
    assert (Hmid : lo <= mid <= hi).
    { unfold mid. rewrite Z.shiftr_div_pow2 by lia. change (2 ^ 1) with 2. split; [apply Z.div_le_lower_bound|apply Z.div_le_upper_bound]; lia. }
    unfold at_. rewrite bool_decide_eq_true_2 by lia.
    destruct (lookup_lt_is_Some_2 strL (Z.to_nat mid)) as [s Hs]; [lia|]. rewrite Hs. cbn [mbind option_bind].
    case_bool_decide as Heq; [subst s|case_bool_decide as Hlt].
    + left. destruct (back_spec stop q (Z.to_nat mid) Hstop) as (k & -> & Hk & Hkq); [lia|done|]. by exists k.
    + apply IH; [lia|lia|lia| |done]. intros i x Hi Hil.
      pose proof (sorted_lookup i (Z.to_nat mid) _ _ ltac:(lia) Hi Hs). by eapply bytes_le_lt_trans.
    + apply IH; [lia|lia|lia|done|]. intros i x Hi Hil.
      assert (Hqs : q <b s) by (destruct (bytes_trichotomy s q) as [|[|]]; done).
      pose proof (sorted_lookup (Z.to_nat mid) i _ _ ltac:(lia) Hs Hi) as [| ->]%bytes_le_lteq; [by etrans|done].
  - right. exists (Z.to_nat lo). split_and!; [do 3 f_equal; lia| |].
    + split; [lia|]. intros i s Hi. split; intros Hx; [|apply (Hlo i); [done|lia]].
      destruct (decide (Z.of_nat i < lo)) as [|Hge]; [lia|]. exfalso.
      apply (irreflexivity bytes_lt q). etrans; [apply (Hhi i s Hi); lia|done].
    + intros [i Hi]%list_elem_of_lookup_1. apply (irreflexivity bytes_lt q).
      destruct (decide (Z.of_nat i < lo)); [by apply (Hlo i)|apply (Hhi i); [done|lia]].
Qed.
End Search.

(** On a sorted list [findStartIndex] returns the position of the first element
    that is not below [startQ], and -1 when every element is. *)
Theorem findStartIndex_correct (strL : list bytes) (startQ : bytes) :
  StronglySorted bytes_le strL ->
  exists n, below strL startQ n /\
    findStartIndex strL startQ = Some (if bool_decide (n < length strL)%nat then Z.of_nat n else -1).
Proof.
  intros Hs. unfold findStartIndex. case_bool_decide as Hnil.
  { subst. exists 0%nat. split; [split; [done|]; by intros i s ?|done]. }
  assert (Hlen0 : (0 < length strL)%nat) by (destruct strL; [done|simpl; lia]).
  destruct (bsearch_spec strL Hs (fun s => bool_decide (s <> startQ)) startQ (S (length strL)) 0 (Z.of_nat (length strL) - 1))
    as [(k & -> & Hk & Hq)|(k & -> & Hk & Hq)]; try lia.
  - intros s Hle. rewrite bool_decide_eq_true. apply bytes_le_lteq in Hle as [Hlt| ->].
    + split; [done|]. intros _ ->. by apply (irreflexivity bytes_lt startQ).
    + split; [done|]. intros Hx. by apply (irreflexivity bytes_lt startQ) in Hx.
  - intros i s Hi%lookup_lt_Some Hgt. lia.
  - exists k. split; [done|]. cbn [mbind option_bind]. rewrite bool_decide_eq_true_2; [done|]. by apply lookup_lt_Some in Hq.
  - exists k. split; [done|]. cbn [mbind option_bind]. destruct Hk as [Hk Hb].
    case_bool_decide as Hlen; [|by rewrite bool_decide_eq_false_2 by lia].
    rewrite (bool_decide_eq_true_2 (k < _)%nat) by lia. unfold at_. rewrite bool_decide_eq_true_2 by lia.
    rewrite Nat2Z.id. destruct (lookup_lt_is_Some_2 strL k) as [s Hsk]; [lia|]. rewrite Hsk. cbn [mbind option_bind].
    rewrite bool_decide_eq_true_2; [done|]. apply bytes_not_lt. intros Hlt. apply (Hb k s Hsk) in Hlt. lia.
Qed.

(** On a sorted list [findEndIndex] returns the position of the first element
    equal to [endQ] when there is one, and otherwise the position of the last
    element below [endQ], -1 when there is none. *)
Theorem findEndIndex_correct (strL : list bytes) (endQ : bytes) :
  StronglySorted bytes_le strL ->
  exists n, below strL endQ n /\
    findEndIndex strL endQ = Some (if bool_decide (endQ ∈ strL) then Z.of_nat n else Z.of_nat n - 1).
Proof.
  intros Hs. unfold findEndIndex. case_bool_decide as Hnil.
  { subst. exists 0%nat. split; [split; [done|]; by intros i s ?|done]. }
  assert (Hlen0 : (0 < length strL)%nat) by (destruct strL; [done|simpl; lia]).
  destruct (bsearch_spec strL Hs (fun s => bool_decide (s <b endQ)) endQ (S (length strL)) 0 (Z.of_nat (length strL) - 1))
    as [(k & -> & Hk & Hq)|(k & -> & Hk & Hq)]; try lia.
  - intros s _. by rewrite bool_decide_eq_true.
  - intros i s Hi%lookup_lt_Some Hgt. lia.
  - exists k. split; [done|]. cbn [mbind option_bind]. rewrite bool_decide_eq_true_2; [done|]. by apply list_elem_of_lookup_2 in Hq.
  - exists k. split; [done|]. cbn [mbind option_bind]. rewrite bool_decide_eq_false_2 by done.
    replace (Z.to_nat (Z.of_nat k - 1 + 1)) with k by lia. destruct Hk as [Hk Hb]. destruct k as [|k]; [done|].
    cbn [last_below]. destruct (lookup_lt_is_Some_2 strL k) as [s Hsk]; [lia|]. rewrite Hsk. cbn [mbind option_bind].
    rewrite bool_decide_eq_true_2; [f_equal; lia|]. apply (Hb k s Hsk). lia.
Qed.

Definition ex_sorted : list bytes := [[1]; [2]; [2]; [4]].
Lemma ex_sorted_ok : StronglySorted bytes_le ex_sorted.
Proof. repeat constructor; vm_compute; discriminate. Qed.

Lemma findStartIndex_correct_witness :
  exists n, below ex_sorted [2] n /\
    findStartIndex ex_sorted [2] = Some (if bool_decide (n < length ex_sorted)%nat then Z.of_nat n else -1).
Proof. exact (findStartIndex_correct ex_sorted [2] ex_sorted_ok). Defined.

Lemma findEndIndex_correct_witness :
  exists n, below ex_sorted [3] n /\
    findEndIndex ex_sorted [3] = Some (if bool_decide ([3] ∈ ex_sorted) then Z.of_nat n else Z.of_nat n - 1).
Proof. exact (findEndIndex_correct ex_sorted [3] ex_sorted_ok). Defined.
