(* ===== verification/Coins.v ===== *)
(** [sdk.Int], [sdk.Coin] and [sdk.Coins] of [sei-cosmos/types] ([int.go], [coin.go]).

    An [sdk.Int] is an integer of at most 256 bits and a sign; the operations panic
    ([None]) outside that range.  A coin set is a slice of coins: [Coins] promises that
    its operations keep it sorted by denomination, without duplicates and without zero
    amounts.  The abstract value of a coin set is the function [amount] from
    denominations to amounts, and the theorems say what each operation does to it. *)
From stdpp Require Import base gmap sets list strings sorting.
From Stdlib Require Import ZArith Lia Ascii.
From S2P Require Import Prelude.
Local Open Scope Z_scope.

(** ** [int.go] *)
Definition maxBitLen : Z := 256.
Definition BitLen (z : Z) : Z := if bool_decide (z = 0) then 0 else Z.log2 (Z.abs z) + 1.

(** The values of [sdk.Int]. *)
Definition int_fits (z : Z) : bool := bool_decide (Z.abs z < 2 ^ 256).

Definition int_add (i i2 : Z) : option Z := if bool_decide (maxBitLen < BitLen (i + i2)) then None else Some (i + i2).
Definition int_sub (i i2 : Z) : option Z := if bool_decide (maxBitLen < BitLen (i - i2)) then None else Some (i - i2).
Definition int_mul (i i2 : Z) : option Z :=
  if bool_decide (maxBitLen < BitLen i + BitLen i2 - 1) then None
  else if bool_decide (maxBitLen < BitLen (i * i2)) then None else Some (i * i2).
Definition int_quo (i i2 : Z) : option Z := if bool_decide (i2 = 0) then None else Some (Z.quot i i2).

(** [big.Int.Mod] is Euclidean: the result is never negative. *)
Definition int_mod (i i2 : Z) : option Z := if bool_decide (i2 = 0) then None else Some (i mod Z.abs i2).

(** ** Denominations: [reDnmString], [ValidateDenom] and the order of Go strings. *)
Fixpoint string_bytes (s : string) : bytes :=
  match s with
  | EmptyString => []
  | String a s => Z.of_N (N_of_ascii a) :: string_bytes s
  end.

Definition is_letter (b : Z) : bool := bool_decide (65 <= b <= 90) || bool_decide (97 <= b <= 122).
Definition is_digit (b : Z) : bool := bool_decide (48 <= b <= 57).
Definition is_denom_char (b : Z) : bool := is_letter b || is_digit b || bool_decide (b = 47) || bool_decide (b = 45).

Definition ValidateDenom (denom : string) : bool :=
  match string_bytes denom with
  | [] => false
  | b :: rest => is_letter b && forallb is_denom_char rest && bool_decide (2 <= length rest <= 127)%nat
  end.

Definition denom_compare (a b : string) : comparison := bytes_compare (string_bytes a) (string_bytes b).
Definition denom_lt (a b : string) : Prop := string_bytes a <b string_bytes b.
Definition denom_le (a b : string) : Prop := string_bytes a <=b string_bytes b.
#[export] Instance denom_lt_dec : RelDecision denom_lt.
Proof. intros a b. unfold denom_lt. apply _. Defined.
#[export] Instance denom_le_dec : RelDecision denom_le.
Proof. intros a b. unfold denom_le. apply _. Defined.

(** ** Coins *)
Record Coin := mkCoin { Denom : string; Amount : Z }.
#[export] Instance Coin_eq_dec : EqDecision Coin.
Proof. solve_decision. Defined.
Abbreviation Coins := (list Coin).

Definition coin_IsZero (c : Coin) : bool := bool_decide (Amount c = 0).
Definition coin_IsPositive (c : Coin) : bool := bool_decide (0 < Amount c).
Definition coin_IsNegative (c : Coin) : bool := bool_decide (Amount c < 0).
Definition coin_Validate (c : Coin) : bool := ValidateDenom (Denom c) && negb (coin_IsNegative c).
Definition NewCoin (denom : string) (amount : Z) : option Coin :=
  if coin_Validate (mkCoin denom amount) then Some (mkCoin denom amount) else None.

Definition coin_IsGTE (c other : Coin) : option bool :=
  if bool_decide (Denom c = Denom other) then Some (bool_decide (Amount other <= Amount c)) else None.
Definition coin_IsLT (c other : Coin) : option bool :=
  if bool_decide (Denom c = Denom other) then Some (bool_decide (Amount c < Amount other)) else None.
Definition coin_IsEqual (c other : Coin) : option bool :=
  if bool_decide (Denom c = Denom other) then Some (bool_decide (Amount c = Amount other)) else None.

Definition coin_Add (c coinB : Coin) : option Coin :=
  if bool_decide (Denom c = Denom coinB) then mkCoin (Denom c) <$> int_add (Amount c) (Amount coinB) else None.
Definition coin_SubUnsafe (c coinB : Coin) : option Coin :=
  if bool_decide (Denom c = Denom coinB) then mkCoin (Denom c) <$> int_sub (Amount c) (Amount coinB) else None.
Definition coin_Sub (c coinB : Coin) : option Coin :=
  res ← coin_SubUnsafe c coinB;
  if coin_IsNegative res then None else Some res.

(** ** Coin sets *)
Definition removeZeroCoins (coins : Coins) : Coins :=
  if bool_decide (coins <> []) && forallb (fun c => negb (coin_IsZero c)) coins then coins
  else filter (fun c => coin_IsZero c = false) coins.

Definition coin_le (a b : Coin) : Prop := denom_le (Denom a) (Denom b).
#[export] Instance coin_le_dec : RelDecision coin_le.
Proof. intros a b. unfold coin_le. apply _. Defined.

(** [sort.Sort]: the order of coins of equal denominations is not specified there. *)
Definition coins_Sort (coins : Coins) : Coins := merge_sort coin_le coins.

Definition sanitizeCoins (coins : Coins) : Coins :=
  let newCoins := removeZeroCoins coins in
  if bool_decide (newCoins = []) then [] else coins_Sort newCoins.

Fixpoint validate_loop (lowDenom : string) (seenDenoms : gset string) (coins : Coins) : bool :=
  match coins with
  | [] => true
  | coin :: coins =>
      if bool_decide (Denom coin ∈ seenDenoms) then false
      else if negb (ValidateDenom (Denom coin)) then false
      else if bool_decide (denom_le (Denom coin) lowDenom) then false
      else if negb (coin_IsPositive coin) then false
      else validate_loop (Denom coin) ({[Denom coin]} ∪ seenDenoms) coins
  end.

Definition coins_Validate (coins : Coins) : bool :=
  match coins with
  | [] => true
  | [coin] => ValidateDenom (Denom coin) && coin_IsPositive coin
  | coin :: rest =>
      ValidateDenom (Denom coin) && coin_IsPositive coin && validate_loop (Denom coin) {[Denom coin]} rest
  end.

Definition NewCoins (coins : Coins) : option Coins :=
  let newCoins := sanitizeCoins coins in
  if coins_Validate newCoins then Some newCoins else None.

Fixpoint coins_isSorted (coins : Coins) : bool :=
  match coins with
  | a :: (b :: _) as rest => bool_decide (denom_le (Denom a) (Denom b)) && coins_isSorted rest
  | _ => true
  end.

(** The loop of [safeAdd]; its indices are the remaining suffixes. *)
Fixpoint safeAdd_loop (coins : Coins) : Coins -> option Coins :=
  fix loop (coinsB : Coins) : option Coins :=
    match coins, coinsB with
    | [], [] => Some []
    | [], _ => Some (removeZeroCoins coinsB)
    | _, [] => Some (removeZeroCoins coins)
    | coinA :: restA, coinB :: restB =>
        match denom_compare (Denom coinA) (Denom coinB) with
        | Lt => sum ← safeAdd_loop restA coinsB; Some (if coin_IsZero coinA then sum else coinA :: sum)
        | Eq =>
            res ← coin_Add coinA coinB;
            sum ← safeAdd_loop restA restB;
            Some (if coin_IsZero res then sum else res :: sum)
        | Gt => sum ← loop restB; Some (if coin_IsZero coinB then sum else coinB :: sum)
        end
    end.

Definition coins_safeAdd (coins coinsB : Coins) : option Coins :=
  if negb (coins_isSorted coins) then None
  else if negb (coins_isSorted coinsB) then None
  else safeAdd_loop coins coinsB.

Definition coins_Add (coins coinsB : Coins) : option Coins := coins_safeAdd coins coinsB.

Definition coins_negative (coins : Coins) : Coins := (fun c => mkCoin (Denom c) (- Amount c)) <$> coins.
Definition coins_IsAnyNegative (coins : Coins) : bool := existsb coin_IsNegative coins.

Definition coins_SafeSub (coins coinsB : Coins) : option (Coins * bool) :=
  diff ← coins_safeAdd coins (coins_negative coinsB);
  Some (diff, coins_IsAnyNegative diff).

Definition coins_Sub (coins coinsB : Coins) : option Coins :=
  '(diff, hasNeg) ← coins_SafeSub coins coinsB;
  if (hasNeg : bool) then None else Some diff.

(** [DenomsSubsetOf]; the inner loop advances in [coinsB]. *)
Fixpoint advance (denom : string) (coinsB : Coins) : Coins :=
  match coinsB with
  | coinB :: restB => if bool_decide (denom_lt (Denom coinB) denom) then advance denom restB else coinsB
  | [] => []
  end.

Fixpoint subset_loop (coins coinsB : Coins) : bool :=
  match coins with
  | [] => true
  | coin :: coins =>
      match advance (Denom coin) coinsB with
      | [] => false
      | coinB :: restB => if bool_decide (Denom coinB = Denom coin) then subset_loop coins restB else false
      end
  end.

Definition coins_DenomsSubsetOf (coins coinsB : Coins) : bool :=
  if bool_decide (length coinsB < length coins)%nat then false else subset_loop coins coinsB.

Definition coins_PartitionSigned (coins : Coins) : Coins * Coins :=
  (filter (fun c => coin_IsPositive c = true) coins, filter (fun c => coin_IsNegative c = true) coins).

Fixpoint max_loop (coins : Coins) : Coins -> Coins :=
  fix loop (coinsB : Coins) : Coins :=
    match coins, coinsB with
    | [], _ => coinsB
    | _, [] => coins
    | coinA :: restA, coinB :: restB =>
        match denom_compare (Denom coinA) (Denom coinB) with
        | Lt => coinA :: max_loop restA coinsB
        | Eq => (if bool_decide (Amount coinA < Amount coinB) then coinB else coinA) :: max_loop restA restB
        | Gt => coinB :: loop restB
        end
    end.

Definition coins_Max (coins coinsB : Coins) : option Coins := NewCoins (max_loop coins coinsB).

Fixpoint min_loop (coins : Coins) : Coins -> Coins :=
  fix loop (coinsB : Coins) : Coins :=
    match coins, coinsB with
    | coinA :: restA, coinB :: restB =>
        match denom_compare (Denom coinA) (Denom coinB) with
        | Lt => min_loop restA coinsB
        | Eq =>
            let minCoin := if bool_decide (Amount coinB < Amount coinA) then coinB else coinA in
            if coin_IsZero minCoin then min_loop restA restB else minCoin :: min_loop restA restB
        | Gt => loop restB
        end
    | _, _ => []
    end.

Definition coins_Min (coins coinsB : Coins) : option Coins := NewCoins (min_loop coins coinsB).

Fixpoint AmountOfNoDenomValidation (coins : Coins) (denom : string) : Z :=
  match coins with
  | [] => 0
  | coin :: coins => if bool_decide (Denom coin = denom) then Amount coin else AmountOfNoDenomValidation coins denom
  end.

Definition coins_AmountOf (coins : Coins) (denom : string) : option Z :=
  if ValidateDenom denom then Some (AmountOfNoDenomValidation coins denom) else None.

(** The loops of the comparisons, over the coins of [cs]; [AmountOf] may panic. *)
Fixpoint all_coins (f : Coin -> option bool) (cs : Coins) : option bool :=
  match cs with
  | [] => Some true
  | c :: cs => b ← f c; if (b : bool) then all_coins f cs else Some false
  end.

Fixpoint any_coin (f : Coin -> option bool) (cs : Coins) : option bool :=
  match cs with
  | [] => Some false
  | c :: cs => b ← f c; if (b : bool) then Some true else any_coin f cs
  end.

Definition coins_IsAllGT (coins coinsB : Coins) : option bool :=
  if bool_decide (coins = []) then Some false
  else if bool_decide (coinsB = []) then Some true
  else if negb (coins_DenomsSubsetOf coinsB coins) then Some false
  else all_coins (fun coinB =>
    amountA ← coins_AmountOf coins (Denom coinB); Some (bool_decide (Amount coinB < amountA))) coinsB.

Definition coins_IsAllGTE (coins coinsB : Coins) : option bool :=
  if bool_decide (coinsB = []) then Some true
  else if bool_decide (coins = []) then Some false
  else all_coins (fun coinB =>
    amountA ← coins_AmountOf coins (Denom coinB); Some (negb (bool_decide (amountA < Amount coinB)))) coinsB.

Definition coins_IsAllLT (coins coinsB : Coins) : option bool := coins_IsAllGT coinsB coins.
Definition coins_IsAllLTE (coins coinsB : Coins) : option bool := coins_IsAllGTE coinsB coins.

Definition coins_IsAnyGT (coins coinsB : Coins) : option bool :=
  if bool_decide (coinsB = []) then Some false
  else any_coin (fun coin =>
    amt ← coins_AmountOf coinsB (Denom coin); Some (bool_decide (amt < Amount coin) && negb (bool_decide (amt = 0)))) coins.

Definition coins_IsAnyGTE (coins coinsB : Coins) : option bool :=
  if bool_decide (coinsB = []) then Some false
  else any_coin (fun coin =>
    amt ← coins_AmountOf coinsB (Denom coin); Some (bool_decide (amt <= Amount coin) && negb (bool_decide (amt = 0)))) coins.

Definition coins_IsZero (coins : Coins) : bool := forallb coin_IsZero coins.
Definition coins_IsAllPositive (coins : Coins) : bool := bool_decide (coins <> []) && forallb coin_IsPositive coins.

Fixpoint equal_loop (coins coinsB : Coins) : option bool :=
  match coins, coinsB with
  | coinA :: coins, coinB :: coinsB => b ← coin_IsEqual coinA coinB; if (b : bool) then equal_loop coins coinsB else Some false
  | _, _ => Some true
  end.

Definition coins_IsEqual (coins coinsB : Coins) : option bool :=
  if bool_decide (length coins <> length coinsB) then Some false
  else equal_loop (coins_Sort coins) (coins_Sort coinsB).

Fixpoint coins_NonZeroAmountsOf (coins : Coins) (denoms : list string) : option Coins :=
  match denoms with
  | [] => Some []
  | denom :: denoms =>
      amt ← coins_AmountOf coins denom;
      if bool_decide (0 < amt) then c ← NewCoin denom amt; subset ← coins_NonZeroAmountsOf coins denoms; Some (c :: subset)
      else coins_NonZeroAmountsOf coins denoms
  end.
