(* ===== verification/CoinsSpec.v ===== *)
(** The theorems on coin sets: [Validate] decides the representation invariant,
    and the operations compute pointwise on amounts. *)
From stdpp Require Import base gmap sets list strings sorting.
From Stdlib Require Import ZArith Lia Ascii.
From S2P Require Import Prelude Coins.
Local Open Scope Z_scope.

(** ** Integers *)
Lemma BitLen_fits z : bool_decide (maxBitLen < BitLen z) = negb (int_fits z).
Proof.
  unfold BitLen, int_fits, maxBitLen. rewrite <- bool_decide_not. apply bool_decide_ext.
  case_bool_decide as Hz; [subst; simpl; lia|].
  rewrite (Z.log2_lt_pow2 (Z.abs z) 256) by lia. lia.
Qed.

Lemma int_add_spec i i2 : int_add i i2 = if int_fits (i + i2) then Some (i + i2) else None.
Proof. unfold int_add. rewrite BitLen_fits. by destruct (int_fits _). Qed.

Lemma int_sub_spec i i2 : int_sub i i2 = if int_fits (i - i2) then Some (i - i2) else None.
Proof. unfold int_sub. rewrite BitLen_fits. by destruct (int_fits _). Qed.

(** The first overflow check of [Mul] only rejects products that do not fit. *)
Lemma int_mul_spec i i2 :
  int_fits i = true -> int_fits i2 = true -> int_mul i i2 = if int_fits (i * i2) then Some (i * i2) else None.
Proof.
  intros Hi Hi2. unfold int_mul. rewrite BitLen_fits. case_bool_decide as Hb; [|by destruct (int_fits (i * i2))].
  assert (Hno : int_fits (i * i2) = false); [|by rewrite Hno].
  unfold int_fits in *. apply bool_decide_eq_true in Hi, Hi2. apply bool_decide_eq_false. rewrite Z.nlt_ge, Z.abs_mul.
  unfold BitLen, maxBitLen in Hb.
  case_bool_decide as H0; [|case_bool_decide as H1].
  - subst. case_bool_decide; [lia|]. assert (Z.log2 (Z.abs i2) < 256) by (apply Z.log2_lt_pow2; lia). lia.
  - subst. assert (Z.log2 (Z.abs i) < 256) by (apply Z.log2_lt_pow2; lia). lia.
  - pose proof (Z.log2_spec (Z.abs i)). pose proof (Z.log2_spec (Z.abs i2)).
    assert (Hp : 2 ^ 256 <= 2 ^ (Z.log2 (Z.abs i) + Z.log2 (Z.abs i2))) by (apply Z.pow_le_mono_r; lia).
    rewrite Z.pow_add_r in Hp by apply Z.log2_nonneg. etrans; [exact Hp|]. apply Z.mul_le_mono_nonneg; lia.
Qed.

(** ** The order of denominations *)
Lemma string_bytes_inj a b : string_bytes a = string_bytes b -> a = b.
Proof.
  revert b. induction a as [|x a IH]; intros [|y b]; simpl; try done. intros [= Hxy Hab].
  apply N2Z.inj in Hxy. f_equal; [|auto]. rewrite <- (ascii_N_embedding x), <- (ascii_N_embedding y). by f_equal.
Qed.

Lemma denom_compare_spec a b : CompareSpec (a = b) (denom_lt a b) (denom_lt b a) (denom_compare a b).
Proof.
  unfold denom_compare, denom_lt, bytes_lt. rewrite (bytes_compare_antisym (string_bytes a)).
  destruct (bytes_compare (string_bytes a) (string_bytes b)) eqn:Hc; constructor; try done.
  by apply string_bytes_inj, bytes_compare_eq.
Qed.

#[export] Instance denom_lt_trans : Transitive denom_lt.
Proof. intros a b c. apply bytes_lt_trans. Qed.

Lemma denom_lt_irrefl a : ~ denom_lt a a.
Proof. apply bytes_lt_irrefl. Qed.

Lemma denom_le_lteq a b : denom_le a b <-> denom_lt a b \/ a = b.
Proof.
  unfold denom_le, denom_lt. rewrite bytes_le_lteq. split; intros [H|H]; auto; right; [by apply string_bytes_inj|by subst].
Qed.

Lemma denom_lt_le a b : denom_lt a b -> denom_le a b.
Proof. intros H. apply denom_le_lteq. by left. Qed.

Lemma denom_nle a b : ~ denom_le a b <-> denom_lt b a.
Proof.
  rewrite denom_le_lteq. destruct (denom_compare_spec a b) as [->|H|H]; split; intros; try tauto.
  - by destruct (denom_lt_irrefl b).
  - destruct (denom_lt_irrefl a). by etrans.
  - intros [?| ->]; [|by eapply denom_lt_irrefl]. destruct (denom_lt_irrefl a). by etrans.
Qed.

Lemma denom_lt_ne a b : denom_lt a b -> a <> b.
Proof. intros H ->. by eapply denom_lt_irrefl. Qed.

#[export] Instance coin_le_trans : Transitive coin_le.
Proof. intros a b c. unfold coin_le, denom_le. apply bytes_le_trans. Qed.
#[export] Instance coin_le_total : Total coin_le.
Proof. intros a b. unfold coin_le, denom_le. apply bytes_le_total. Qed.

(** ** The representation invariant *)
Abbreviation amount := AmountOfNoDenomValidation.
Definition coin_lt (a b : Coin) : Prop := denom_lt (Denom a) (Denom b).

(** Sorted without duplicate denominations; no zero amounts. *)
Definition sorted_coins (cs : Coins) : Prop := StronglySorted coin_lt cs.
Definition nonzero (cs : Coins) : Prop := Forall (fun c => Amount c <> 0) cs.
Definition valid_denoms (cs : Coins) : Prop := Forall (fun c => ValidateDenom (Denom c) = true) cs.
Definition positive (cs : Coins) : Prop := Forall (fun c => 0 < Amount c) cs.
Definition fits (cs : Coins) : Prop := Forall (fun c => int_fits (Amount c) = true) cs.
Definition coins_ok (cs : Coins) : Prop := sorted_coins cs /\ positive cs /\ valid_denoms cs.

Lemma sorted_isSorted cs : sorted_coins cs -> coins_isSorted cs = true.
Proof.
  induction 1 as [|c cs Hs IH Hc]; [done|]. destruct cs as [|c' cs]; [done|]. simpl. simpl in IH. rewrite IH.
  apply Forall_cons in Hc as [Hc _]. rewrite bool_decide_eq_true_2; [done|]. by apply denom_lt_le.
Qed.

Lemma amount_below cs d : Forall (fun c => denom_lt d (Denom c)) cs -> amount cs d = 0.
Proof.
  induction 1 as [|c cs Hc _ IH]; [done|]. simpl. rewrite bool_decide_eq_false_2; [done|].
  intros Heq. rewrite Heq in Hc. by eapply denom_lt_irrefl.
Qed.

Lemma below_tail d c cs : denom_lt d (Denom c) -> Forall (coin_lt c) cs -> Forall (fun c' => denom_lt d (Denom c')) (c :: cs).
Proof. intros Hd Hc. constructor; [done|]. eapply Forall_impl; [exact Hc|]. intros c' Hc'. by etrans. Qed.

Lemma amount_cons c cs d : amount (c :: cs) d = if bool_decide (Denom c = d) then Amount c else amount cs d.
Proof. done. Qed.

Lemma amount_In cs c : sorted_coins cs -> c ∈ cs -> amount cs (Denom c) = Amount c.
Proof.
  induction 1 as [|x cs Hs IH Hx]; [by intros ?%elem_of_nil|]. rewrite elem_of_cons. intros [->|Hin]; simpl.
  - by rewrite bool_decide_eq_true_2.
  - rewrite Forall_forall in Hx. rewrite bool_decide_eq_false_2; [auto|]. by apply denom_lt_ne, Hx.
Qed.

Lemma amount_nonzero_In cs d : amount cs d <> 0 -> exists c, c ∈ cs /\ Denom c = d /\ Amount c = amount cs d.
Proof.
  induction cs as [|x cs IH]; [done|]. simpl. case_bool_decide as Hd; [intros _; exists x; split_and!; [left|done|done]|].
  intros Hn. destruct (IH Hn) as (c & Hin & ? & ?). exists c. split_and!; [by right|done|done].
Qed.

Lemma amount_nonneg cs d : positive cs -> 0 <= amount cs d.
Proof.
  intros Hp. destruct (decide (amount cs d = 0)) as [->|Hn]; [done|].
  destruct (amount_nonzero_In cs d Hn) as (c & Hin & _ & <-). pose proof (proj1 (Forall_forall _ _) Hp c Hin) as Hc. simpl in Hc. lia.
Qed.

Lemma amount_fits cs d : fits cs -> int_fits (amount cs d) = true.
Proof.
  intros Hp. destruct (decide (amount cs d = 0)) as [->|Hn]; [done|].
  destruct (amount_nonzero_In cs d Hn) as (c & Hin & _ & <-). by apply (proj1 (Forall_forall _ _) Hp c Hin).
Qed.

Lemma positive_nonzero cs : positive cs -> nonzero cs.
Proof. intros H. eapply Forall_impl; [exact H|]. simpl. intros c Hc. lia. Qed.

(** A coin set without zeros is determined by its amounts. *)
Lemma coins_ext a b :
  sorted_coins a -> sorted_coins b -> nonzero a -> nonzero b -> (forall d, amount a d = amount b d) -> a = b.
Proof.
  intros Ha. revert b. induction Ha as [|x a Hs IH Hx]; intros b Hb Hza Hzb Heq.
  - destruct b as [|y b]; [done|]. specialize (Heq (Denom y)). simpl in Heq. rewrite bool_decide_eq_true_2 in Heq by done.
    apply Forall_cons in Hzb as [Hy _]. lia.
  - apply Forall_cons in Hza as [Hzx Hza]. destruct Hb as [|y b Hb Hy].
    { specialize (Heq (Denom x)). simpl in Heq. rewrite bool_decide_eq_true_2 in Heq by done. lia. }
    apply Forall_cons in Hzb as [Hzy Hzb].
    assert (Hd : Denom x = Denom y).
    { destruct (denom_compare_spec (Denom x) (Denom y)) as [?|Hlt|Hlt]; [done|exfalso|exfalso].
      - pose proof (Heq (Denom x)) as He. rewrite (amount_below (y :: b)) in He by by apply below_tail.
        simpl in He. rewrite bool_decide_eq_true_2 in He by done. lia.
      - pose proof (Heq (Denom y)) as He. rewrite (amount_below (x :: a)) in He by by apply below_tail.
        simpl in He. rewrite bool_decide_eq_true_2 in He by done. lia. }
    assert (Hxy : x = y).
    { pose proof (Heq (Denom x)) as He. simpl in He. rewrite !bool_decide_eq_true_2 in He by done. destruct x, y. simpl in *. by subst. }
    subst y. f_equal. apply IH; [done|done|done|]. intros d. specialize (Heq d). simpl in Heq. case_bool_decide as Hc; [|done].
    subst d. rewrite !amount_below; [done|..]; done.
Qed.

(** ** [Validate] *)
Lemma validate_loop_spec low seen cs :
  (forall d, d ∈ seen -> denom_le d low) ->
  validate_loop low seen cs = true <->
  StronglySorted coin_lt cs /\ Forall (fun c => denom_lt low (Denom c)) cs /\ positive cs /\ valid_denoms cs.
Proof.
  revert low seen. induction cs as [|c cs IH]; intros low seen Hseen; simpl; [split; [by repeat constructor|done]|].
  case_bool_decide as H1.
  { split; [done|]. intros (_ & [Hl _]%Forall_cons & _). apply Hseen in H1. by apply denom_nle in Hl. }
  destruct (ValidateDenom (Denom c)) eqn:H2; simpl; [|split; [done|intros (_ & _ & _ & [? _]%Forall_cons); congruence]].
  case_bool_decide as H3.
  { split; [done|]. intros (_ & [Hl _]%Forall_cons & _). by apply denom_nle in Hl. }
  unfold coin_IsPositive. case_bool_decide as H4; simpl.
  2: { split; [done|]. intros (_ & _ & [? _]%Forall_cons & _). done. }
  apply denom_nle in H3. rewrite IH.
  - split.
    + intros (Hs & Hl & Hp & Hv). split_and!; [by constructor|by apply below_tail|by constructor|by constructor].
    + intros (Hs & Hl & [_ Hp]%Forall_cons & [_ Hv]%Forall_cons). apply StronglySorted_inv in Hs as [Hs Hc].
      done.
  - intros d [->%elem_of_singleton|Hd]%elem_of_union; [apply denom_le_lteq; by right|].
    apply denom_lt_le. specialize (Hseen d Hd). apply denom_le_lteq in Hseen as [?| ->]; [by etrans|done].
Qed.

Lemma coins_Validate_spec cs : coins_Validate cs = true <-> coins_ok cs.
Proof.
  unfold coins_ok, sorted_coins. destruct cs as [|c cs]; [simpl; by split; repeat constructor|].
  assert (Hstep : ValidateDenom (Denom c) && coin_IsPositive c && validate_loop (Denom c) {[Denom c]} cs = true <->
    StronglySorted coin_lt (c :: cs) /\ positive (c :: cs) /\ valid_denoms (c :: cs)).
  { rewrite !andb_true_iff. unfold coin_IsPositive. rewrite bool_decide_eq_true, validate_loop_spec.
    - split.
      + intros [[Hv Hp] (Hs & Hl & Hps & Hvs)]. split_and!; by constructor.
      + intros (Hs & [Hp Hps]%Forall_cons & [Hv Hvs]%Forall_cons). apply StronglySorted_inv in Hs as [Hs Hc]. done.
    - intros d ->%elem_of_singleton. apply denom_le_lteq. by right. }
  rewrite <- Hstep. destruct cs; simpl; [by rewrite andb_true_r|done].
Qed.

(** ** Addition *)
Lemma removeZeroCoins_filter cs : removeZeroCoins cs = filter (fun c => coin_IsZero c = false) cs.
Proof.
  unfold removeZeroCoins. destruct (_ && _) eqn:Hc; [|done]. apply andb_true_iff in Hc as [_ Hc].
  induction cs as [|c cs IH]; [done|]. simpl in Hc. apply andb_true_iff in Hc as [Hc Hcs].
  rewrite filter_cons_True by (by destruct (coin_IsZero c)). f_equal. auto.
Qed.

Lemma removeZeroCoins_nonzero cs : nonzero cs -> removeZeroCoins cs = cs.
Proof.
  intros Hn. rewrite removeZeroCoins_filter. induction Hn as [|c cs Hc _ IH]; [done|].
  rewrite filter_cons_True; [by f_equal|]. by apply bool_decide_eq_false.
Qed.

Lemma removeZeroCoins_spec cs :
  sorted_coins cs ->
  sorted_coins (removeZeroCoins cs) /\ nonzero (removeZeroCoins cs) /\ (forall d, amount (removeZeroCoins cs) d = amount cs d) /\
  forall Q : Coin -> Prop, Forall Q cs -> Forall Q (removeZeroCoins cs).
Proof.
  rewrite removeZeroCoins_filter. induction 1 as [|c cs Hs IH Hc]; [by repeat constructor|].
  destruct IH as (IHs & IHn & IHa & IHQ). destruct (coin_IsZero c) eqn:Hz.
  - rewrite filter_cons_False by congruence. apply bool_decide_eq_true in Hz. split_and!; [done|done| |].
    + intros d. rewrite amount_cons, IHa. case_bool_decide; [|done]. subst d. by rewrite amount_below.
    + intros Q [Hq HQ]%Forall_cons. auto.
  - rewrite filter_cons_True by done. apply bool_decide_eq_false in Hz. split_and!.
    + constructor; [done|]. by apply IHQ.
    + by constructor.
    + intros d. rewrite !amount_cons. by rewrite IHa.
    + intros Q [Hq HQ]%Forall_cons. constructor; auto.
Qed.

(** Prepending a coin below a coin set, unless it is zero. *)
Definition push (c : Coin) (cs : Coins) : Coins := if coin_IsZero c then cs else c :: cs.

Lemma push_spec c cs :
  sorted_coins cs -> nonzero cs -> Forall (coin_lt c) cs ->
  sorted_coins (push c cs) /\ nonzero (push c cs) /\
  (forall d, amount (push c cs) d = if bool_decide (Denom c = d) then Amount c else amount cs d) /\
  forall Q : Coin -> Prop, (Amount c <> 0 -> Q c) -> Forall Q cs -> Forall Q (push c cs).
Proof.
  intros Hs Hn Hc. unfold push, coin_IsZero. case_bool_decide as Hz.
  - split_and!; [done|done| |done]. intros d. case_bool_decide; [|done]. subst d. by rewrite amount_below.
  - split_and!; [by constructor|by constructor|done|]. intros Q Hq HQ. constructor; auto.
Qed.

Lemma safeAdd_loop_cons coinA restA coinB restB :
  safeAdd_loop (coinA :: restA) (coinB :: restB) =
  match denom_compare (Denom coinA) (Denom coinB) with
  | Lt => sum ← safeAdd_loop restA (coinB :: restB); Some (push coinA sum)
  | Eq => res ← coin_Add coinA coinB; sum ← safeAdd_loop restA restB; Some (push res sum)
  | Gt => sum ← safeAdd_loop (coinA :: restA) restB; Some (push coinB sum)
  end.
Proof. done. Qed.

(** What the loop computes; [Q] carries any condition on single coins over to the sum. *)
Definition sums (a b : Coins) (r : option Coins) : Prop :=
  match r with
  | None => exists d, int_fits (amount a d + amount b d) = false
  | Some s => sorted_coins s /\ nonzero s /\ (forall d, amount s d = amount a d + amount b d) /\
      (forall Q : string -> Prop, Forall (fun c => Q (Denom c)) a -> Forall (fun c => Q (Denom c)) b ->
         Forall (fun c => Q (Denom c)) s) /\
      (fits a -> fits b -> fits s)
  end.

Lemma sums_push c a b r :
  sums a b r -> Forall (coin_lt c) a -> Forall (coin_lt c) b ->
  forall a' b',
    (forall d, amount a' d + amount b' d = if bool_decide (Denom c = d) then Amount c else amount a d + amount b d) ->
    (forall Q : string -> Prop, Forall (fun c => Q (Denom c)) a' -> Forall (fun c => Q (Denom c)) b' ->
       Q (Denom c) /\ Forall (fun c => Q (Denom c)) a /\ Forall (fun c => Q (Denom c)) b) ->
    (fits a' -> fits b' -> int_fits (Amount c) = true /\ fits a /\ fits b) ->
    sums a' b' (sum ← r; Some (push c sum)).
Proof.
  intros Hr Ha Hb a' b' Hamt HQ Hfit. destruct r as [s|]; simpl in *.
  - destruct Hr as (Hs & Hn & Hd & HQs & Hfs).
    destruct (push_spec c s Hs Hn) as (Ps & Pn & Pd & PQ).
    { by apply (HQs (denom_lt (Denom c))). }
    split_and!; [done|done| | |].
    + intros d. rewrite Pd, Hamt, Hd. done.
    + intros Q H1 H2. destruct (HQ Q H1 H2) as (H3 & H4 & H5). apply PQ; auto.
    + intros H1 H2. destruct (Hfit H1 H2) as (H3 & H4 & H5). apply PQ; auto. by apply Hfs.
  - destruct Hr as [d Hd]. exists d. rewrite Hamt. case_bool_decide as Hc; [|done].
    subst d. rewrite (amount_below a), (amount_below b) in Hd by done. done.
Qed.

Lemma safeAdd_loop_spec a b : sorted_coins a -> sorted_coins b -> sums a b (safeAdd_loop a b).
Proof.
  intros Ha. revert b. induction Ha as [|x a Ha IHa Hx]; intros b.
  { intros Hb. destruct b as [|y b]; [by repeat constructor|]. destruct (removeZeroCoins_spec _ Hb) as (Hs & Hn & Hd & HQ).
    simpl. split_and!; [done|done|intros d; by rewrite Hd| |]; [by intros Q _; apply HQ|by intros _; apply HQ]. }
  induction 1 as [|y b Hb IHb Hy].
  { destruct (removeZeroCoins_spec (x :: a)) as (Hs & Hn & Hd & HQ); [by constructor|].
    simpl. split_and!; [done|done|intros d; rewrite Hd; simpl; lia| |]; [by intros Q ? _; apply HQ|by intros ? _; apply HQ]. }
  rewrite safeAdd_loop_cons. destruct (denom_compare_spec (Denom x) (Denom y)) as [Heq|Hlt|Hlt].
  - unfold coin_Add. rewrite bool_decide_eq_true_2, int_add_spec by done. destruct (int_fits (Amount x + Amount y)) eqn:Hf.
    + simpl. eapply (sums_push (mkCoin (Denom x) (Amount x + Amount y)) a b); [apply IHa, Hb|done| | | |].
      * unfold coin_lt in *. simpl. by rewrite Heq.
      * intros d. simpl. rewrite <- Heq. by case_bool_decide.
      * intros Q [H1 H2]%Forall_cons [H3 H4]%Forall_cons. done.
      * intros [H1 H2]%Forall_cons [H3 H4]%Forall_cons. done.
    + simpl. exists (Denom x). rewrite <- Heq. by rewrite bool_decide_eq_true_2.
  - eapply (sums_push x a (y :: b)); [apply IHa; by constructor|done| | | |].
    + by apply below_tail.
    + intros d. rewrite (amount_cons x). case_bool_decide as Hc; [|done]. subst d.
      rewrite (amount_below (y :: b)); [lia|by apply below_tail].
    + intros Q [H1 H2]%Forall_cons H3. done.
    + intros [H1 H2]%Forall_cons H3. done.
  - eapply (sums_push y (x :: a) b); [apply IHb| |done| | |].
    + by apply below_tail.
    + intros d. rewrite (amount_cons y). case_bool_decide as Hc; [|done]. subst d.
      rewrite (amount_below (x :: a)); [lia|by apply below_tail].
    + intros Q H3 [H1 H2]%Forall_cons. done.
    + intros H3 [H1 H2]%Forall_cons. done.
Qed.

Lemma coins_safeAdd_spec a b : sorted_coins a -> sorted_coins b -> sums a b (coins_safeAdd a b).
Proof. intros Ha Hb. unfold coins_safeAdd. rewrite !sorted_isSorted by done. by apply safeAdd_loop_spec. Qed.

Lemma positive_of_amounts cs : sorted_coins cs -> nonzero cs -> (forall d, 0 <= amount cs d) -> positive cs.
Proof.
  intros Hs Hn Hd. apply Forall_forall. intros c Hc. pose proof (amount_In cs c Hs Hc) as Ha.
  pose proof (proj1 (Forall_forall _ _) Hn c Hc) as Hz. simpl in Hz. specialize (Hd (Denom c)). lia.
Qed.

Lemma sum_positive a b s :
  positive a -> positive b -> sorted_coins s -> nonzero s -> (forall d, amount s d = amount a d + amount b d) -> positive s.
Proof.
  intros Ha Hb Hs Hn Hd. apply positive_of_amounts; [done|done|]. intros d. rewrite Hd.
  pose proof (amount_nonneg a d Ha). pose proof (amount_nonneg b d Hb). lia.
Qed.

Lemma coins_Add_inv a b s :
  coins_ok a -> coins_ok b -> coins_Add a b = Some s -> coins_ok s /\ forall d, amount s d = amount a d + amount b d.
Proof.
  intros (Ha & Hpa & Hva) (Hb & Hpb & Hvb) Hab. pose proof (coins_safeAdd_spec a b Ha Hb) as Hs. unfold coins_Add in Hab.
  rewrite Hab in Hs. destruct Hs as (Hs & Hn & Hd & HQ & _). split; [|done].
  split_and!; [done| |by apply (HQ (fun d => ValidateDenom d = true))]. by apply (sum_positive a b).
Qed.

Lemma coins_Add_none a b : coins_ok a -> coins_ok b -> coins_Add a b = None -> exists d, 2 ^ 256 <= amount a d + amount b d.
Proof.
  intros (Ha & Hpa & _) (Hb & Hpb & _) Hab. pose proof (coins_safeAdd_spec a b Ha Hb) as Hs. unfold coins_Add in Hab.
  rewrite Hab in Hs. destruct Hs as [d Hd]. exists d. unfold int_fits in Hd. apply bool_decide_eq_false in Hd.
  pose proof (amount_nonneg a d Hpa). pose proof (amount_nonneg b d Hpb). lia.
Qed.

(** C36. Adding valid coin sets: the result is a valid coin set with the pointwise sum
    of the amounts, and the only panic is a sum of more than 256 bits. *)
Theorem coins_Add_pointwise a b :
  coins_ok a -> coins_ok b ->
  match coins_Add a b with
  | Some s => coins_ok s /\ forall d, amount s d = amount a d + amount b d
  | None => exists d, 2 ^ 256 <= amount a d + amount b d
  end.
Proof.
  intros Ha Hb. destruct (coins_Add a b) as [s|] eqn:Hab; [by apply coins_Add_inv|by apply coins_Add_none].
Qed.

(** ** Subtraction *)
Lemma amount_negative cs d : amount (coins_negative cs) d = - amount cs d.
Proof. induction cs as [|c cs IH]; simpl; [done|]. by case_bool_decide. Qed.

Lemma negative_sorted cs : sorted_coins cs -> sorted_coins (coins_negative cs).
Proof.
  induction 1 as [|c cs Hs IH Hc]; [constructor|]. unfold coins_negative. rewrite fmap_cons. constructor; [exact IH|].
  apply Forall_fmap. exact Hc.
Qed.

Lemma negative_fits cs : fits cs -> fits (coins_negative cs).
Proof.
  intros Hf. apply Forall_fmap. eapply Forall_impl; [exact Hf|]. intros c. simpl. unfold int_fits.
  rewrite !bool_decide_eq_true. lia.
Qed.

Lemma IsAnyNegative_spec cs : sorted_coins cs -> coins_IsAnyNegative cs = true <-> exists d, amount cs d < 0.
Proof.
  intros Hs. unfold coins_IsAnyNegative. rewrite existsb_exists. split.
  - intros (c & Hc%list_elem_of_In & Hn%bool_decide_eq_true). exists (Denom c). by rewrite amount_In.
  - intros [d Hd]. destruct (amount_nonzero_In cs d) as (c & Hin & _ & Hc); [lia|]. exists c.
    split; [by apply list_elem_of_In|]. apply bool_decide_eq_true. lia.
Qed.

(** Subtracting valid coin sets never panics in [SafeSub]: the difference is
    pointwise, the flag says whether some amount is negative, and without the flag the
    difference is a valid coin set, which [Sub] returns. *)
Theorem coins_SafeSub_pointwise a b :
  coins_ok a -> coins_ok b -> fits a -> fits b ->
  exists diff neg, coins_SafeSub a b = Some (diff, neg) /\
    (forall d, amount diff d = amount a d - amount b d) /\
    (neg = true <-> exists d, amount a d < amount b d) /\
    (neg = false -> coins_ok diff) /\ coins_Sub a b = (if neg then None else Some diff).
Proof.
  intros (Ha & Hpa & Hva) (Hb & Hpb & Hvb) Hfa Hfb.
  pose proof (coins_safeAdd_spec a (coins_negative b) Ha (negative_sorted b Hb)) as Hs.
  unfold coins_Sub, coins_SafeSub. destruct (coins_safeAdd _ _) as [diff|]; simpl in Hs.
  - destruct Hs as (Hs & Hn & Hd & HQ & _). exists diff, (coins_IsAnyNegative diff). split; [done|].
    assert (Hd' : forall d, amount diff d = amount a d - amount b d) by (intros d; rewrite Hd, amount_negative; lia).
    assert (Hneg : coins_IsAnyNegative diff = true <-> exists d, amount a d < amount b d).
    { rewrite IsAnyNegative_spec by done. split; intros [d Hx]; exists d; specialize (Hd' d); lia. }
    split; [done|]. split; [exact Hneg|]. split; [|done].
    intros Hf. assert (Hno : forall d, 0 <= amount diff d).
    { intros d. destruct (decide (0 <= amount diff d)) as [?|Hlt]; [done|]. exfalso.
      assert (Ht : coins_IsAnyNegative diff = true); [|congruence]. apply Hneg. exists d. specialize (Hd' d). lia. }
    split_and!; [done|by apply positive_of_amounts|]. apply (HQ (fun d => ValidateDenom d = true)); [done|]. by apply Forall_fmap.
  - exfalso. destruct Hs as [d Hd]. rewrite amount_negative in Hd. unfold int_fits in Hd. apply bool_decide_eq_false in Hd.
    pose proof (amount_nonneg a d Hpa). pose proof (amount_nonneg b d Hpb).
    pose proof (amount_fits a d Hfa) as H1. pose proof (amount_fits b d Hfb) as H2.
    unfold int_fits in H1, H2. apply bool_decide_eq_true in H1, H2. lia.
Qed.

(** Sums and differences that do not panic. *)
Lemma fits_of_amounts cs : sorted_coins cs -> (forall d, int_fits (amount cs d) = true) -> fits cs.
Proof. intros Hs Hf. apply Forall_forall. intros c Hc. rewrite <- (amount_In cs c Hs Hc). apply Hf. Qed.

Lemma int_fits_nonneg z : 0 <= z < 2 ^ 256 -> int_fits z = true.
Proof. intros Hz. apply bool_decide_eq_true. lia. Qed.

Lemma coins_Add_some a b :
  coins_ok a -> coins_ok b -> (forall d, amount a d + amount b d < 2 ^ 256) ->
  exists s, coins_Add a b = Some s /\ coins_ok s /\ forall d, amount s d = amount a d + amount b d.
Proof.
  intros (Ha & Hpa & Hva) (Hb & Hpb & Hvb) Hlt. pose proof (coins_safeAdd_spec a b Ha Hb) as Hs. unfold coins_Add.
  destruct (coins_safeAdd a b) as [s|]; simpl in Hs.
  - destruct Hs as (Hs & Hn & Hd & HQ & _). exists s. split; [done|]. split; [|done].
    split_and!; [done|by apply (sum_positive a b)|by apply (HQ (fun d => ValidateDenom d = true))].
  - exfalso. destruct Hs as [d Hd]. pose proof (amount_nonneg a d Hpa). pose proof (amount_nonneg b d Hpb). specialize (Hlt d).
    rewrite int_fits_nonneg in Hd by lia. done.
Qed.

Lemma coins_Sub_some a b :
  coins_ok a -> (forall d, amount a d < 2 ^ 256) -> sorted_coins b -> valid_denoms b -> (forall d, 0 <= amount b d <= amount a d) ->
  exists s, coins_Sub a b = Some s /\ coins_ok s /\ forall d, amount s d = amount a d - amount b d.
Proof.
  intros (Ha & Hpa & Hva) Hfa Hb Hvb Hle. pose proof (coins_safeAdd_spec a (coins_negative b) Ha (negative_sorted b Hb)) as Hs.
  unfold coins_Sub, coins_SafeSub. destruct (coins_safeAdd _ _) as [s|]; simpl in *.
  - destruct Hs as (Hs & Hn & Hd & HQ & _).
    assert (Hd' : forall d, amount s d = amount a d - amount b d) by (intros d; rewrite Hd, amount_negative; lia).
    destruct (coins_IsAnyNegative s) eqn:Hneg.
    { apply IsAnyNegative_spec in Hneg as [d Hlt]; [|done]. specialize (Hd' d). specialize (Hle d). lia. }
    exists s. split; [done|]. split; [|done]. split_and!; [done| |].
    + apply positive_of_amounts; [done|done|]. intros d. specialize (Hd' d). specialize (Hle d). lia.
    + apply (HQ (fun d => ValidateDenom d = true)); [done|]. by apply Forall_fmap.
  - exfalso. destruct Hs as [d Hd]. rewrite amount_negative in Hd. specialize (Hle d). specialize (Hfa d).
    rewrite int_fits_nonneg in Hd by lia. done.
Qed.

Lemma coin_ok d z : ValidateDenom d = true -> 0 < z -> coins_ok [mkCoin d z].
Proof. intros Hd Hz. split_and!; by repeat constructor. Qed.

Lemma NewCoin_some d z : ValidateDenom d = true -> 0 <= z -> NewCoin d z = Some (mkCoin d z).
Proof.
  intros Hd Hz. unfold NewCoin, coin_Validate, coin_IsNegative. simpl. rewrite Hd, bool_decide_eq_false_2 by lia. done.
Qed.

Lemma amount_singleton d z d' : amount [mkCoin d z] d' = if bool_decide (d = d') then z else 0.
Proof. done. Qed.

(** ** [NewCoins], [Max] and [Min] *)
Lemma sorted_Sort cs : sorted_coins cs -> coins_Sort cs = cs.
Proof.
  intros Hs. apply (StronglySorted_unique_strong coin_le).
  - intros x y Hx Hy Hxy Hyx. unfold coins_Sort in Hx. rewrite merge_sort_Permutation in Hx.
    assert (Hd : Denom x = Denom y).
    { unfold coin_le in *. apply denom_le_lteq in Hxy as [Hlt|?]; [|done]. by apply denom_nle in Hlt. }
    assert (Ha : Amount x = Amount y) by (rewrite <- (amount_In cs x), <- (amount_In cs y), Hd by done; done).
    destruct x, y. simpl in *. by subst.
  - apply StronglySorted_merge_sort; apply _.
  - clear -Hs. induction Hs as [|c cs Hs IH Hc]; constructor; [done|]. eapply Forall_impl; [exact Hc|].
    intros c' Hc'. by apply denom_lt_le.
  - apply merge_sort_Permutation.
Qed.

Lemma NewCoins_ok cs : coins_ok cs -> NewCoins cs = Some cs.
Proof.
  intros Hok. pose proof Hok as (Hs & Hp & Hv). unfold NewCoins, sanitizeCoins.
  rewrite removeZeroCoins_nonzero by by apply positive_nonzero. case_bool_decide as Hn; [by subst|].
  rewrite sorted_Sort by done. by rewrite (proj2 (coins_Validate_spec cs)).
Qed.

Lemma max_loop_cons coinA restA coinB restB :
  max_loop (coinA :: restA) (coinB :: restB) =
  match denom_compare (Denom coinA) (Denom coinB) with
  | Lt => coinA :: max_loop restA (coinB :: restB)
  | Eq => (if bool_decide (Amount coinA < Amount coinB) then coinB else coinA) :: max_loop restA restB
  | Gt => coinB :: max_loop (coinA :: restA) restB
  end.
Proof. done. Qed.

Lemma max_loop_spec a b :
  sorted_coins a -> sorted_coins b -> positive a -> positive b ->
  sorted_coins (max_loop a b) /\ (forall d, amount (max_loop a b) d = amount a d `max` amount b d) /\
  forall Q : Coin -> Prop, Forall Q a -> Forall Q b -> Forall Q (max_loop a b).
Proof.
  intros Ha. revert b. induction Ha as [|x a Ha IHa Hx]; intros b Hb Hpa Hpb.
  { assert (Hm : max_loop [] b = b) by by destruct b. rewrite Hm. split_and!; [done| |done].
    intros d. pose proof (amount_nonneg b d Hpb). simpl. lia. }
  induction Hb as [|y b Hb IHb Hy].
  { split_and!; [by constructor| |done]. intros d. pose proof (amount_nonneg _ d Hpa). change (max_loop (x :: a) []) with (x :: a). change (amount [] d) with 0. lia. }
  rewrite max_loop_cons. pose proof Hpa as [Hpx Hpa']%Forall_cons. pose proof Hpb as [Hpy Hpb']%Forall_cons.
  destruct (denom_compare_spec (Denom x) (Denom y)) as [Heq|Hlt|Hlt].
  - destruct (IHa b) as (Hs & Hd & HQ); [done|done|done|].
    set (m := if bool_decide _ then y else x). assert (Hm : Denom m = Denom x) by (unfold m; by case_bool_decide).
    split_and!.
    + constructor; [done|]. unfold coin_lt in *. rewrite Hm. apply HQ; [done|]. by rewrite Heq.
    + intros d. simpl. rewrite Hm, <- Heq, Hd. unfold m. repeat case_bool_decide; lia.
    + intros Q [H1 H2]%Forall_cons [H3 H4]%Forall_cons. constructor; [unfold m; by case_bool_decide|auto].
  - destruct (IHa (y :: b)) as (Hs & Hd & HQ); [by constructor|done|done|]. split_and!.
    + constructor; [done|]. apply HQ; [done|]. by apply below_tail.
    + intros d. rewrite (amount_cons x _ d), (amount_cons x a d), Hd. case_bool_decide as Hc; [|done]. subst d.
      rewrite (amount_below (y :: b)); [lia|by apply below_tail].
    + intros Q [H1 H2]%Forall_cons H3. constructor; auto.
  - destruct IHb as (Hs & Hd & HQ); [done|]. split_and!.
    + constructor; [done|]. apply HQ; [|done]. by apply below_tail.
    + intros d. rewrite (amount_cons y _ d), (amount_cons y b d), Hd. case_bool_decide as Hc; [|done]. subst d.
      rewrite (amount_below (x :: a)); [lia|by apply below_tail].
    + intros Q H3 [H1 H2]%Forall_cons. constructor; auto.
Qed.

Lemma min_loop_cons coinA restA coinB restB :
  min_loop (coinA :: restA) (coinB :: restB) =
  match denom_compare (Denom coinA) (Denom coinB) with
  | Lt => min_loop restA (coinB :: restB)
  | Eq => push (if bool_decide (Amount coinB < Amount coinA) then coinB else coinA) (min_loop restA restB)
  | Gt => min_loop (coinA :: restA) restB
  end.
Proof. done. Qed.

Lemma min_loop_spec a b :
  sorted_coins a -> sorted_coins b -> positive a -> positive b ->
  sorted_coins (min_loop a b) /\ (forall d, amount (min_loop a b) d = amount a d `min` amount b d) /\
  forall Q : Coin -> Prop, Forall Q a -> Forall Q b -> Forall Q (min_loop a b).
Proof.
  intros Ha. revert b. induction Ha as [|x a Ha IHa Hx]; intros b Hb Hpa Hpb.
  { assert (Hm : min_loop [] b = []) by by destruct b. rewrite Hm. split_and!; [constructor| |done].
    intros d. pose proof (amount_nonneg b d Hpb). simpl. lia. }
  induction Hb as [|y b Hb IHb Hy].
  { split_and!; [by constructor| |done]. intros d. pose proof (amount_nonneg _ d Hpa). change (min_loop (x :: a) []) with ([] : Coins). change (amount [] d) with 0. lia. }
  rewrite min_loop_cons. pose proof Hpa as [Hpx Hpa']%Forall_cons. pose proof Hpb as [Hpy Hpb']%Forall_cons.
  destruct (denom_compare_spec (Denom x) (Denom y)) as [Heq|Hlt|Hlt].
  - destruct (IHa b) as (Hs & Hd & HQ); [done|done|done|].
    set (m := if bool_decide _ then y else x). assert (Hm : Denom m = Denom x) by (unfold m; by case_bool_decide).
    assert (Hpm : 0 < Amount m) by (unfold m; by case_bool_decide).
    unfold push, coin_IsZero. rewrite bool_decide_eq_false_2 by lia. split_and!.
    + constructor; [done|]. unfold coin_lt in *. rewrite Hm. apply HQ; [done|]. by rewrite Heq.
    + intros d. simpl. rewrite Hm, <- Heq, Hd. unfold m. repeat case_bool_decide; lia.
    + intros Q [H1 H2]%Forall_cons [H3 H4]%Forall_cons. constructor; [unfold m; by case_bool_decide|auto].
  - destruct (IHa (y :: b)) as (Hs & Hd & HQ); [by constructor|done|done|]. split_and!; [done| |].
    + intros d. rewrite (amount_cons x a d), Hd. case_bool_decide as Hc; [|done]. subst d.
      rewrite (amount_below (y :: b)), (amount_below a); [lia|done|by apply below_tail].
    + intros Q [H1 H2]%Forall_cons H3. auto.
  - destruct IHb as (Hs & Hd & HQ); [done|]. split_and!; [done| |].
    + intros d. rewrite (amount_cons y b d), Hd. case_bool_decide as Hc; [|done]. subst d.
      rewrite (amount_below (x :: a)), (amount_below b); [lia|done|by apply below_tail].
    + intros Q H3 [H1 H2]%Forall_cons. auto.
Qed.

Lemma coins_safeAdd_congr a b a' b' :
  sorted_coins a -> sorted_coins b -> sorted_coins a' -> sorted_coins b' -> fits a -> fits b -> fits a' -> fits b' ->
  (forall d, amount a d + amount b d = amount a' d + amount b' d) -> coins_safeAdd a b = coins_safeAdd a' b'.
Proof.
  intros Ha Hb Ha' Hb' Fa Fb Fa' Fb' Heq.
  pose proof (coins_safeAdd_spec a b Ha Hb) as H1. pose proof (coins_safeAdd_spec a' b' Ha' Hb') as H2.
  destruct (coins_safeAdd a b) as [s|], (coins_safeAdd a' b') as [s'|]; [f_equal|exfalso|exfalso|done]; simpl in *.
  - destruct H1 as (Hs & Hn & Hd & _), H2 as (Hs' & Hn' & Hd' & _). apply coins_ext; try done. intros d. by rewrite Hd, Hd', Heq.
  - destruct H1 as (_ & _ & Hd & _ & Hf), H2 as [d Hno]. rewrite <- Heq, <- Hd in Hno.
    pose proof (amount_fits s d (Hf Fa Fb)). congruence.
  - destruct H2 as (_ & _ & Hd & _ & Hf), H1 as [d Hno]. rewrite Heq, <- Hd in Hno.
    pose proof (amount_fits s' d (Hf Fa' Fb')). congruence.
Qed.

Lemma coins_Min_some a b :
  coins_ok a -> coins_ok b ->
  exists m, coins_Min a b = Some m /\ coins_ok m /\ forall d, amount m d = amount a d `min` amount b d.
Proof.
  intros (Ha & Hpa & Hva) (Hb & Hpb & Hvb). destruct (min_loop_spec a b) as (Sn & Dn & Qn); [done..|].
  assert (Hn : coins_ok (min_loop a b)) by (split_and!; [done|by apply Qn|by apply Qn]).
  exists (min_loop a b). split; [by apply NewCoins_ok|done].
Qed.

(** [Max] and [Min] of valid coin sets never panic, are valid and pointwise, and
    satisfy the law their documentation states: adding them is adding the arguments. *)
Theorem coins_Max_Min_pointwise a b :
  coins_ok a -> coins_ok b -> fits a -> fits b ->
  exists mx mn, coins_Max a b = Some mx /\ coins_Min a b = Some mn /\ coins_ok mx /\ coins_ok mn /\
    (forall d, amount mx d = amount a d `max` amount b d) /\
    (forall d, amount mn d = amount a d `min` amount b d) /\
    coins_Add mn mx = coins_Add a b.
Proof.
  intros (Ha & Hpa & Hva) (Hb & Hpb & Hvb) Hfa Hfb.
  destruct (max_loop_spec a b) as (Sx & Dx & Qx); [done..|]. destruct (min_loop_spec a b) as (Sn & Dn & Qn); [done..|].
  exists (max_loop a b), (min_loop a b).
  assert (Hx : coins_ok (max_loop a b)) by (split_and!; [done|by apply Qx|by apply Qx]).
  assert (Hn : coins_ok (min_loop a b)) by (split_and!; [done|by apply Qn|by apply Qn]).
  split; [by apply NewCoins_ok|]. split; [by apply NewCoins_ok|]. split; [done|]. split; [done|]. split; [done|]. split; [done|].
  unfold coins_Add. apply coins_safeAdd_congr; try done; [by apply Qn|by apply Qx|]. intros d. rewrite Dn, Dx. lia.
Qed.

(** ** Comparisons *)
Lemma amount_pos_In cs d : positive cs -> sorted_coins cs -> 0 < amount cs d <-> exists c, c ∈ cs /\ Denom c = d.
Proof.
  intros Hp Hs. split.
  - intros Hd. destruct (amount_nonzero_In cs d) as (c & Hc & Hcd & _); [lia|]. eauto.
  - intros (c & Hc & <-). rewrite amount_In by done. by apply (proj1 (Forall_forall _ _) Hp c Hc).
Qed.

Lemma advance_spec d cs :
  sorted_coins cs ->
  sorted_coins (advance d cs) /\ Forall (fun c => ~ denom_lt (Denom c) d) (advance d cs) /\
  forall c, c ∈ advance d cs <-> c ∈ cs /\ ~ denom_lt (Denom c) d.
Proof.
  induction 1 as [|x cs Hs IH Hx]; simpl.
  { split; [constructor|]. split; [constructor|]. intros c. rewrite elem_of_nil. tauto. }
  case_bool_decide as Hd.
  - destruct IH as (H1 & H2 & H3). split; [done|]. split; [done|]. intros c. rewrite H3, elem_of_cons. naive_solver.
  - assert (Hall : Forall (fun c => ~ denom_lt (Denom c) d) (x :: cs)).
    { constructor; [done|]. eapply Forall_impl; [exact Hx|]. intros c Hc Hlt. apply Hd. by etrans. }
    split; [by constructor|]. split; [done|]. intros c. split; [|tauto]. intros Hc. split; [done|].
    by apply (proj1 (Forall_forall _ _) Hall c).
Qed.

Lemma subset_loop_spec a b :
  sorted_coins a -> sorted_coins b ->
  subset_loop a b = true <-> forall c, c ∈ a -> exists c', c' ∈ b /\ Denom c' = Denom c.
Proof.
  intros Ha. revert b. induction Ha as [|x a Ha IH Hx]; intros b Hb; simpl.
  { split; [|done]. intros _ c ?%elem_of_nil. done. }
  destruct (advance_spec (Denom x) b Hb) as (Hsa & Hge & Hin).
  destruct (advance (Denom x) b) as [|y rest] eqn:Hadv.
  { split; [done|]. intros Hall. destruct (Hall x) as (c' & Hc' & Hd); [left|]. exfalso. apply (elem_of_nil c'), Hin.
    split; [done|]. rewrite Hd. apply denom_lt_irrefl. }
  apply StronglySorted_inv in Hsa as [Hsr Hyr]. case_bool_decide as Hd.
  - rewrite IH by done. split.
    + intros Hall c [->|Hc]%elem_of_cons.
      * exists y. split; [|done]. apply (Hin y). left.
      * destruct (Hall c Hc) as (c' & Hc' & Hd'). exists c'. split; [|done]. apply (Hin c'). by right.
    + intros Hall c Hc. destruct (Hall c) as (c' & Hc' & Hd'); [by right|]. exists c'. split; [|done].
      assert (Hlt : denom_lt (Denom x) (Denom c)) by by apply (proj1 (Forall_forall _ _) Hx).
      assert (Hc2 : c' ∈ y :: rest).
      { apply Hin. split; [done|]. rewrite Hd'. intros Hlt'. apply (denom_lt_irrefl (Denom x)). by etrans. }
      apply elem_of_cons in Hc2 as [->|?]; [|done]. exfalso. rewrite <- Hd', Hd in Hlt. by eapply denom_lt_irrefl.
  - split; [done|]. intros Hall. exfalso. destruct (Hall x) as (c' & Hc' & Hd'); [left|].
    assert (Hc2 : c' ∈ y :: rest) by (apply Hin; split; [done|]; rewrite Hd'; apply denom_lt_irrefl).
    apply elem_of_cons in Hc2 as [->|Hc2]; [done|].
    assert (Hlt : denom_lt (Denom y) (Denom c')) by by apply (proj1 (Forall_forall _ _) Hyr).
    rewrite Hd' in Hlt. by apply Forall_cons in Hge as [? _].
Qed.

Lemma sorted_NoDup_denoms cs : sorted_coins cs -> NoDup (Denom <$> cs).
Proof.
  induction 1 as [|x cs Hs IH Hx]; [constructor|]. rewrite fmap_cons. constructor; [|done].
  intros (c & Heq & Hc)%list_elem_of_fmap. pose proof (proj1 (Forall_forall _ _) Hx c Hc) as Hlt.
  unfold coin_lt in Hlt. rewrite <- Heq in Hlt. by eapply denom_lt_irrefl.
Qed.

Lemma DenomsSubsetOf_spec a b :
  sorted_coins a -> sorted_coins b ->
  coins_DenomsSubsetOf a b = true <-> forall c, c ∈ a -> exists c', c' ∈ b /\ Denom c' = Denom c.
Proof.
  intros Ha Hb. unfold coins_DenomsSubsetOf. case_bool_decide as Hl; [|by apply subset_loop_spec].
  split; [done|]. intros Hall. exfalso.
  assert (Hsub : Denom <$> a ⊆+ Denom <$> b).
  { apply NoDup_submseteq; [by apply sorted_NoDup_denoms|]. intros d (c & -> & Hc)%list_elem_of_fmap.
    destruct (Hall c Hc) as (c' & Hc' & <-). by apply list_elem_of_fmap_2. }
  apply submseteq_length in Hsub. rewrite !length_fmap in Hsub. lia.
Qed.

(** A test that never panics and decides [P]. *)
Definition decides (o : option bool) (P : Prop) : Prop := exists r, o = Some r /\ (r = true <-> P).

Lemma all_coins_decides f (P : Coin -> Prop) cs :
  (forall c, c ∈ cs -> decides (f c) (P c)) -> decides (all_coins f cs) (forall c, c ∈ cs -> P c).
Proof.
  induction cs as [|c cs IH]; intros Hf; simpl; [exists true; split; [done|]; split; [intros _ c ?%elem_of_nil|]; done|].
  destruct (Hf c) as (r & Hr & HP); [left|]. destruct IH as (r' & Hr' & HP'); [intros c' ?; apply Hf; by right|].
  rewrite Hr. simpl. destruct r; [|exists false; split; [done|]; split; [done|]; intros Hall; apply HP, Hall; left].
  exists r'. split; [done|]. rewrite HP'. setoid_rewrite elem_of_cons. naive_solver.
Qed.

Lemma any_coin_decides f (P : Coin -> Prop) cs :
  (forall c, c ∈ cs -> decides (f c) (P c)) -> decides (any_coin f cs) (exists c, c ∈ cs /\ P c).
Proof.
  induction cs as [|c cs IH]; intros Hf; simpl; [exists false; split; [done|]; split; [done|]; by intros (c & ?%elem_of_nil & _)|].
  destruct (Hf c) as (r & Hr & HP); [left|]. destruct IH as (r' & Hr' & HP'); [intros c' ?; apply Hf; by right|].
  rewrite Hr. simpl. destruct r; [exists true; split; [done|]; split; [|done]; intros _; exists c; split; [left|by apply HP]|].
  exists r'. split; [done|]. rewrite HP'. setoid_rewrite elem_of_cons. naive_solver.
Qed.

Lemma decides_iff o P Q : (P <-> Q) -> decides o P -> decides o Q.
Proof. intros HPQ (r & Hr & HP). exists r. by rewrite <- HPQ. Qed.

(** One round of a loop that compares with the amount of [cs]. *)
Lemma AmountOf_decides cs c (t : Z -> bool) (P : Prop) :
  ValidateDenom (Denom c) = true -> (t (amount cs (Denom c)) = true <-> P) ->
  decides (amt ← coins_AmountOf cs (Denom c); Some (t amt)) P.
Proof. intros Hv HP. unfold coins_AmountOf. rewrite Hv. simpl. by eexists. Qed.

(** A claim over the coins of a set is a claim over its denominations. *)
Lemma forall_coins cs (P : string -> Z -> Prop) :
  positive cs -> sorted_coins cs ->
  (forall c, c ∈ cs -> P (Denom c) (Amount c)) <-> forall d, 0 < amount cs d -> P d (amount cs d).
Proof.
  intros Hp Hs. split.
  - intros Hall d Hd. destruct (amount_nonzero_In cs d) as (c & Hc & <- & <-); [lia|auto].
  - intros Hall c Hc. rewrite <- (amount_In cs c Hs Hc). apply Hall. rewrite amount_In by done.
    by apply (proj1 (Forall_forall _ _) Hp c).
Qed.

Lemma exists_coins cs (P : string -> Z -> Prop) :
  positive cs -> sorted_coins cs ->
  (exists c, c ∈ cs /\ P (Denom c) (Amount c)) <-> exists d, 0 < amount cs d /\ P d (amount cs d).
Proof.
  intros Hp Hs. split.
  - intros (c & Hc & HP). exists (Denom c). rewrite amount_In by done. split; [|done].
    by apply (proj1 (Forall_forall _ _) Hp c).
  - intros (d & Hd & HP). destruct (amount_nonzero_In cs d) as (c & Hc & <- & Ha); [lia|]. exists c. by rewrite Ha.
Qed.

Lemma IsAllGTE_decides a b : coins_ok a -> coins_ok b -> decides (coins_IsAllGTE a b) (forall d, amount b d <= amount a d).
Proof.
  intros (Ha & Hpa & Hva) (Hb & Hpb & Hvb). unfold coins_IsAllGTE.
  case_bool_decide as Hnb; [subst; exists true; split; [done|]; split; [|done]; intros _ d; by apply amount_nonneg|].
  case_bool_decide as Hna.
  { subst. destruct b as [|y b]; [done|]. exists false. split; [done|]. split; [done|]. intros Hall. specialize (Hall (Denom y)).
    simpl in Hall. rewrite bool_decide_eq_true_2 in Hall by done. apply Forall_cons in Hpb as [? _]. lia. }
  eapply decides_iff; [|apply (all_coins_decides _ (fun c => Amount c <= amount a (Denom c)))].
  - rewrite (forall_coins b (fun d z => z <= amount a d)) by done. split; [|auto]. intros Hall d.
    pose proof (amount_nonneg a d Hpa). destruct (decide (0 < amount b d)); [auto|lia].
  - intros c Hc. apply (AmountOf_decides a c (fun amountA => negb (bool_decide (amountA < Amount c)))).
    + by apply (proj1 (Forall_forall _ _) Hvb c).
    + rewrite negb_true_iff, bool_decide_eq_false. lia.
Qed.

Lemma IsAllGT_decides a b :
  coins_ok a -> coins_ok b ->
  decides (coins_IsAllGT a b) (a <> [] /\ forall d, 0 < amount b d -> amount b d < amount a d).
Proof.
  intros (Ha & Hpa & Hva) (Hb & Hpb & Hvb). unfold coins_IsAllGT.
  case_bool_decide as Hna; [exists false; split; [done|]; split; [done|]; by intros [? _]|].
  case_bool_decide as Hnb; [subst; exists true; split; [done|]; split; [|done]; intros _; split; [done|]; simpl; lia|].
  assert (HP : (forall c, c ∈ b -> Amount c < amount a (Denom c)) <-> a <> [] /\ forall d, 0 < amount b d -> amount b d < amount a d).
  { rewrite (forall_coins b (fun d z => z < amount a d)) by done. tauto. }
  destruct (coins_DenomsSubsetOf b a) eqn:Hsub; simpl.
  - eapply decides_iff; [exact HP|]. apply all_coins_decides. intros c Hc.
    apply (AmountOf_decides a c (fun amountA => bool_decide (Amount c < amountA))).
    + by apply (proj1 (Forall_forall _ _) Hvb c).
    + apply bool_decide_eq_true.
  - exists false. split; [done|]. split; [done|]. rewrite <- HP. intros Hall. rewrite <- Hsub.
    apply DenomsSubsetOf_spec; [done|done|]. intros c Hc. apply (amount_pos_In a); [done|done|].
    specialize (Hall c Hc). pose proof (proj1 (Forall_forall _ _) Hpb c Hc) as Hp. simpl in Hp. lia.
Qed.

Lemma IsAny_decides a b (t : Z -> Z -> bool) (R : Z -> Z -> Prop) :
  (forall x y, t x y = true <-> R x y) -> coins_ok a -> coins_ok b ->
  decides (if bool_decide (b = []) then Some false
           else any_coin (fun c => amt ← coins_AmountOf b (Denom c); Some (t (Amount c) amt && negb (bool_decide (amt = 0)))) a)
    (exists d, 0 < amount a d /\ 0 < amount b d /\ R (amount a d) (amount b d)).
Proof.
  intros Ht (Ha & Hpa & Hva) (Hb & Hpb & Hvb). case_bool_decide as Hnb.
  { subst. exists false. split; [done|]. split; [done|]. intros (d & _ & Hd & _). simpl in Hd. lia. }
  eapply decides_iff; [|apply (any_coin_decides _ (fun c => 0 < amount b (Denom c) /\ R (Amount c) (amount b (Denom c))))].
  - by rewrite (exists_coins a (fun d z => 0 < amount b d /\ R z (amount b d))).
  - intros c Hc. apply (AmountOf_decides b c (fun amt => t (Amount c) amt && negb (bool_decide (amt = 0)))).
    + by apply (proj1 (Forall_forall _ _) Hva c).
    + rewrite andb_true_iff, Ht, negb_true_iff, bool_decide_eq_false. pose proof (amount_nonneg b (Denom c) Hpb). intuition lia.
Qed.

(** On valid coin sets the comparisons never panic and compare amounts: [IsAllGTE]
    in every denomination, [IsAllGT] in the denominations of its argument (an empty
    receiver is never greater), [IsAnyGT] and [IsAnyGTE] in some common denomination,
    and [DenomsSubsetOf] is inclusion of the denominations. *)
Theorem coins_comparisons a b :
  coins_ok a -> coins_ok b ->
  decides (coins_IsAllGTE a b) (forall d, amount b d <= amount a d) /\
  decides (coins_IsAllGT a b) (a <> [] /\ forall d, 0 < amount b d -> amount b d < amount a d) /\
  decides (coins_IsAnyGT a b) (exists d, 0 < amount a d /\ 0 < amount b d /\ amount b d < amount a d) /\
  decides (coins_IsAnyGTE a b) (exists d, 0 < amount a d /\ 0 < amount b d /\ amount b d <= amount a d) /\
  decides (Some (coins_DenomsSubsetOf a b)) (forall d, 0 < amount a d -> 0 < amount b d).
Proof.
  intros Ha Hb. split; [by apply IsAllGTE_decides|]. split; [by apply IsAllGT_decides|].
  split; [exact (IsAny_decides a b (fun x y => bool_decide (y < x)) (fun x y => y < x) (fun x y => bool_decide_eq_true _) Ha Hb)|].
  split; [exact (IsAny_decides a b (fun x y => bool_decide (y <= x)) (fun x y => y <= x) (fun x y => bool_decide_eq_true _) Ha Hb)|].
  destruct Ha as (Ha & Hpa & _), Hb as (Hb & Hpb & _). eexists. split; [done|]. rewrite DenomsSubsetOf_spec by done.
  rewrite <- (forall_coins a (fun d _ => 0 < amount b d)) by done. by setoid_rewrite (amount_pos_In b).
Qed.

(** [IsEqual] walks the two sets in step. *)
Lemma equal_loop_spec a b :
  length a = length b ->
  (equal_loop a b = Some true <-> a = b) /\
  (equal_loop a b = None <-> exists p ca cb ra rb, a = p ++ ca :: ra /\ b = p ++ cb :: rb /\ Denom ca <> Denom cb).
Proof.
  revert b. induction a as [|x a IH]; intros [|y b] Hl; simpl in Hl; try done.
  { simpl. split; [done|]. split; [done|]. by intros ([|??] & ? & ? & ? & ? & ? & _). }
  destruct (IH b) as [IH1 IH2]; [lia|]. simpl. unfold coin_IsEqual. case_bool_decide as Hd; simpl.
  2: { split; [split; [done|congruence]|]. split; [|done]. intros _. by exists [], x, y, a, b. }
  case_bool_decide as Ha.
  - assert (x = y) as <- by (destruct x, y; simpl in *; by subst). rewrite IH1, IH2. split; [split; congruence|]. split.
    + intros (p & ca & cb & ra & rb & -> & -> & ?). by exists (x :: p), ca, cb, ra, rb.
    + intros ([|z p] & ca & cb & ra & rb & H1 & H2 & ?); simplify_eq/=. by exists p, ca, cb, ra, rb.
  - split; [split; [done|congruence]|]. split; [done|]. intros ([|z p] & ca & cb & ra & rb & H1 & H2 & ?); by simplify_eq/=.
Qed.

Lemma coins_IsEqual_true a b : sorted_coins a -> sorted_coins b -> coins_IsEqual a b = Some true <-> a = b.
Proof.
  intros Ha Hb. unfold coins_IsEqual. case_bool_decide as Hl; [split; [done|by intros ->]|].
  rewrite !sorted_Sort by done. apply (equal_loop_spec a b Hl).
Qed.

(** [IsEqual] on valid coin sets is equality when it answers true; it panics, and
    gives no answer, exactly when the sets have the same length and the first coins in
    which they differ have different denominations. *)
Theorem coins_IsEqual_exact a b :
  coins_ok a -> coins_ok b ->
  (coins_IsEqual a b = Some true <-> a = b) /\
  (coins_IsEqual a b = None <-> length a = length b /\
     exists p ca cb ra rb, a = p ++ ca :: ra /\ b = p ++ cb :: rb /\ Denom ca <> Denom cb).
Proof.
  intros (Ha & _) (Hb & _). split; [by apply coins_IsEqual_true|]. unfold coins_IsEqual. case_bool_decide as Hl.
  - split; [done|]. by intros [? _].
  - rewrite !sorted_Sort by done. destruct (equal_loop_spec a b Hl) as [_ H2]. rewrite H2. tauto.
Qed.

(** ** Concrete coin sets *)
Definition ex_coins_a : Coins := [mkCoin "uatom" 3; mkCoin "usei" 5].
Definition ex_coins_b : Coins := [mkCoin "usei" 2; mkCoin "wbtc" 7].

Lemma ex_coins_ok : coins_ok ex_coins_a /\ coins_ok ex_coins_b /\ fits ex_coins_a /\ fits ex_coins_b.
Proof.
  split; [by apply coins_Validate_spec|]. split; [by apply coins_Validate_spec|]. by repeat constructor.
Defined.

Lemma coins_Add_pointwise_witness :
  match coins_Add ex_coins_a ex_coins_b with
  | Some s => coins_ok s /\ forall d, amount s d = amount ex_coins_a d + amount ex_coins_b d
  | None => exists d, 2 ^ 256 <= amount ex_coins_a d + amount ex_coins_b d
  end.
Proof. apply (coins_Add_pointwise ex_coins_a ex_coins_b); by apply coins_Validate_spec. Defined.

Lemma coins_SafeSub_pointwise_witness :
  exists diff neg, coins_SafeSub ex_coins_a ex_coins_b = Some (diff, neg) /\ neg = true.
Proof.
  destruct (coins_SafeSub_pointwise ex_coins_a ex_coins_b) as (diff & neg & H & _ & Hneg & _); [apply ex_coins_ok..|].
  exists diff, neg. split; [done|]. apply Hneg. by exists "wbtc"%string.
Defined.

Lemma coins_Max_Min_pointwise_witness : exists mx, coins_Max ex_coins_a ex_coins_b = Some mx /\ amount mx "usei" = 5.
Proof.
  destruct (coins_Max_Min_pointwise ex_coins_a ex_coins_b) as (mx & mn & H & _ & _ & _ & Hd & _); [apply ex_coins_ok..|].
  exists mx. split; [done|]. by rewrite Hd.
Defined.

Lemma coins_comparisons_witness : decides (coins_IsAllGTE ex_coins_a ex_coins_b) (forall d, amount ex_coins_b d <= amount ex_coins_a d).
Proof. apply (coins_comparisons ex_coins_a ex_coins_b); apply ex_coins_ok. Defined.

Lemma coins_IsEqual_exact_witness : coins_IsEqual ex_coins_a ex_coins_b = None.
Proof.
  apply (coins_IsEqual_exact ex_coins_a ex_coins_b); [apply ex_coins_ok..|]. split; [done|].
  by exists [], (mkCoin "uatom" 3), (mkCoin "usei" 2), [mkCoin "usei" 5], [mkCoin "wbtc" 7].
Defined.
