(* ===== verification/Decimal.v ===== *)
(** [sdk.Dec] of [sei-cosmos/types/decimal.go]: decimals with 18 places, as scaled
    integers of at most 315 bits.

    A [Dec] is its integer [d.i]; a panic is [None].  Texts are byte lists. *)
From stdpp Require Import base list strings.
From Stdlib Require Import ZArith Lia.
From S2P Require Import Prelude Coins.
Local Open Scope Z_scope.

Definition Precision : nat := 18.
Definition DecimalPrecisionBits : Z := 60.
Definition intBitLen : Z := 256.
Definition maxDecBitLen : Z := intBitLen + DecimalPrecisionBits - 1.
Definition maxApproxRootIterations : nat := 100.
Definition precisionReuse : Z := 10 ^ Z.of_nat Precision.
Definition fivePrecision : Z := Z.quot precisionReuse 2.

Definition ZeroDec : Z := 0.
Definition OneDec : Z := precisionReuse.
Definition SmallestDec : Z := 1.

Definition IsInValidRange (d : Z) : bool := bool_decide (BitLen d <= maxDecBitLen).
Definition assertInValidRange (d : Z) : option Z := if IsInValidRange d then Some d else None.

Definition precisionMultiplier (prec : Z) : option Z :=
  if bool_decide (Z.of_nat Precision < prec) then None else Some (10 ^ (Z.of_nat Precision - prec)).

(** [int64] arguments always fit, so there is no range check. *)
Definition NewDecWithPrec (i prec : Z) : option Z := m ← precisionMultiplier prec; Some (i * m).
Definition NewDec (i : Z) : option Z := NewDecWithPrec i 0.
Definition NewDecFromBigIntWithPrec (i prec : Z) : option Z := m ← precisionMultiplier prec; assertInValidRange (i * m).
Definition NewDecFromBigInt (i : Z) : option Z := NewDecFromBigIntWithPrec i 0.
Definition NewDecFromIntWithPrec (i prec : Z) : option Z := m ← precisionMultiplier prec; assertInValidRange (i * m).
Definition NewDecFromInt (i : Z) : option Z := NewDecFromIntWithPrec i 0.

(** ** Rounding *)

(** [chopPrecisionAndRound] on a positive number. *)
Definition chop_round_pos (d : Z) : Z :=
  let quo := Z.quot d precisionReuse in
  let rem := Z.rem d precisionReuse in
  if bool_decide (rem = 0) then quo
  else
    match Z.compare rem fivePrecision with
    | Lt => quo
    | Gt => quo + 1
    | Eq => if Z.testbit quo 0 then quo + 1 else quo
    end.
Definition chopPrecisionAndRound (d : Z) : Z := if bool_decide (d < 0) then - chop_round_pos (- d) else chop_round_pos d.

Definition chopPrecisionAndTruncate (d : Z) : Z := Z.quot d precisionReuse.

Definition chopPrecisionAndRoundUp (d : Z) : Z :=
  if bool_decide (d < 0) then - chopPrecisionAndTruncate (- d)
  else
    let quo := Z.quot d precisionReuse in
    if bool_decide (Z.rem d precisionReuse = 0) then quo else quo + 1.

(** ** Arithmetic *)
Definition dec_Add (d d2 : Z) : option Z := assertInValidRange (d + d2).
Definition dec_Sub (d d2 : Z) : option Z := assertInValidRange (d - d2).
Definition dec_Mul (d d2 : Z) : option Z := assertInValidRange (chopPrecisionAndRound (d * d2)).
Definition dec_MulTruncate (d d2 : Z) : option Z := assertInValidRange (chopPrecisionAndTruncate (d * d2)).
Definition dec_MulInt (d i : Z) : option Z := assertInValidRange (d * i).

(** [big.Int.Quo] truncates and panics on a zero divisor. *)
Definition big_Quo (a b : Z) : option Z := if bool_decide (b = 0) then None else Some (Z.quot a b).

Definition dec_Quo (d d2 : Z) : option Z :=
  quo ← big_Quo (d * precisionReuse * precisionReuse) d2; assertInValidRange (chopPrecisionAndRound quo).
Definition dec_QuoTruncate (d d2 : Z) : option Z :=
  quo ← big_Quo (d * precisionReuse * precisionReuse) d2; assertInValidRange (chopPrecisionAndTruncate quo).
Definition dec_QuoRoundUp (d d2 : Z) : option Z :=
  quo ← big_Quo (d * precisionReuse * precisionReuse) d2; assertInValidRange (chopPrecisionAndRoundUp quo).
Definition dec_QuoInt (d i : Z) : option Z := big_Quo d i.

Definition dec_IsInteger (d : Z) : bool := bool_decide (Z.rem d precisionReuse = 0).
Definition dec_RoundInt (d : Z) : option Z :=
  let i := chopPrecisionAndRound d in if bool_decide (maxBitLen < BitLen i) then None else Some i.
Definition dec_TruncateInt (d : Z) : option Z :=
  let i := chopPrecisionAndTruncate d in if bool_decide (maxBitLen < BitLen i) then None else Some i.
Definition IsInt64 (i : Z) : bool := bool_decide (- 2 ^ 63 <= i < 2 ^ 63).
Definition dec_RoundInt64 (d : Z) : option Z :=
  let i := chopPrecisionAndRound d in if IsInt64 i then Some i else None.
Definition dec_TruncateInt64 (d : Z) : option Z :=
  let i := chopPrecisionAndTruncate d in if IsInt64 i then Some i else None.
Definition dec_TruncateDec (d : Z) : option Z := NewDecFromBigInt (chopPrecisionAndTruncate d).

Definition dec_Ceil (d : Z) : option Z :=
  let quo := Z.quot d precisionReuse in
  let rem := Z.rem d precisionReuse in
  r ← (if bool_decide (0 < rem) then NewDecFromBigInt (quo + 1) else NewDecFromBigInt quo);
  assertInValidRange r.

(** [Power]: square and multiply; the exponent is a [uint64], so 64 rounds are enough. *)
Fixpoint power_loop (fuel : nat) (d tmp i : Z) : option (Z * Z) :=
  match fuel with
  | O => None
  | S fuel =>
      if bool_decide (1 < i) then
        tmp ← (if bool_decide (i mod 2 <> 0) then dec_Mul tmp d else Some tmp);
        d ← dec_Mul d d;
        power_loop fuel d tmp (i / 2)
      else Some (d, tmp)
  end.

Definition dec_Power (d power : Z) : option Z :=
  if bool_decide (power = 0) then Some OneDec
  else '(d, tmp) ← power_loop 64 d OneDec power; dec_Mul d tmp.

(** [ApproxRoot]: Newton's method, at most [maxApproxRootIterations] rounds; a panic
    in a round is recovered into an error ([inr]). *)
Fixpoint approx_loop (fuel : nat) (d root guess delta : Z) : option Z :=
  match fuel with
  | O => Some guess
  | S fuel =>
      if bool_decide (SmallestDec < Z.abs delta) then
        prev ← dec_Power guess (root - 1);
        let prev := if bool_decide (prev = 0) then SmallestDec else prev in
        delta ← dec_Quo d prev;
        delta ← dec_Sub delta guess;
        delta ← dec_QuoInt delta root;
        guess ← dec_Add guess delta;
        approx_loop fuel d root guess delta
      else Some guess
  end.

Definition approx_root_pos (d root : Z) : option Z :=
  if bool_decide (root = 1) || bool_decide (d = 0) || bool_decide (d = OneDec) then Some d
  else if bool_decide (root = 0) then Some OneDec
  else approx_loop maxApproxRootIterations d root OneDec OneDec.

Definition dec_ApproxRoot (d root : Z) : option Z :=
  if bool_decide (d < 0) then
    d ← dec_MulInt d (-1);
    absRoot ← approx_root_pos d root;
    dec_MulInt absRoot (-1)
  else approx_root_pos d root.

Definition dec_ApproxSqrt (d : Z) : option Z := dec_ApproxRoot d 2.

(** ** Texts *)

(** [big.Int.MarshalText] of a natural number: its decimal digits. *)
Fixpoint digits_loop (fuel : nat) (n : Z) : bytes :=
  match fuel with
  | O => []
  | S fuel => if bool_decide (n < 10) then [48 + n] else digits_loop fuel (n / 10) ++ [48 + n mod 10]
  end.
Definition digits (n : Z) : bytes := digits_loop (S (Z.to_nat (Z.log2 n))) n.

Definition dec_String (d : Z) : bytes :=
  let bzInt := digits (Z.abs d) in
  let inputSize := length bzInt in
  let bzStr :=
    if bool_decide (inputSize <= Precision)%nat then [48; 46] ++ replicate (Precision - inputSize) 48 ++ bzInt
    else
      let decPointPlace := (inputSize - Precision)%nat in
      take decPointPlace bzInt ++ [46] ++ drop decPointPlace bzInt in
  if bool_decide (d < 0) then 45 :: bzStr else bzStr.

(** [strings.Split] by a byte. *)
Fixpoint split_byte (sep : Z) (s : bytes) : list bytes :=
  match s with
  | [] => [[]]
  | b :: s =>
      if bool_decide (b = sep) then [] :: split_byte sep s
      else match split_byte sep s with seg :: segs => (b :: seg) :: segs | [] => [[b]] end
  end.

(** [big.Int.SetString] in base 10: an optional sign and at least one digit. *)
Definition digits_value (s : bytes) : Z := fold_left (fun acc b => acc * 10 + (b - 48)) s 0.
Definition parse_digits (s : bytes) : option Z :=
  if bool_decide (s <> []) && forallb is_digit s then Some (digits_value s) else None.
Definition SetString (s : bytes) : option Z :=
  match s with
  | 43 :: s => parse_digits s
  | 45 :: s => Z.opp <$> parse_digits s
  | _ => parse_digits s
  end.

(** [NewDecFromStr] after the sign; an error is [None]. *)
Definition parse_unsigned (neg : bool) (str : bytes) : option Z :=
  let strs := split_byte 46 str in
  '(combinedStr, lenDecs) ← match strs with
    | [whole] => Some (whole, 0%nat)
    | [whole; decs] =>
        if bool_decide (length decs = 0)%nat || bool_decide (length whole = 0)%nat then None
        else Some (whole ++ decs, length decs)
    | _ => None
    end;
  if bool_decide (Precision < lenDecs)%nat then None
  else
    let combinedStr := combinedStr ++ replicate (Precision - lenDecs) 48 in
    combined ← SetString combinedStr;
    let d := if neg then - combined else combined in
    if IsInValidRange d then Some d else None.

Definition NewDecFromStr (str : bytes) : option Z :=
  if bool_decide (100 < length str)%nat then None
  else if bool_decide (length str = 0)%nat then None
  else
    let neg := bool_decide (head str = Some 45) in
    let str := if neg then tail str else str in
    if bool_decide (length str = 0)%nat then None else parse_unsigned neg str.

(** ** Sortable bytes *)
Definition MaxSortableDec : Z := precisionReuse * precisionReuse.
Definition ValidSortableDec (dec : Z) : bool := bool_decide (Z.abs dec <= MaxSortableDec).

(** The format [%037s]: zeros on the left up to 37 bytes. *)
Definition pad_zeros (width : nat) (s : bytes) : bytes := replicate (width - length s) 48 ++ s.

Definition SortableDecBytes (dec : Z) : option bytes :=
  if negb (ValidSortableDec dec) then None
  else if bool_decide (dec = MaxSortableDec) then Some [109; 97; 120]
  else if bool_decide (dec = - MaxSortableDec) then Some [45; 45]
  else if bool_decide (dec < 0) then Some (45 :: pad_zeros (Precision * 2 + 1) (dec_String (Z.abs dec)))
  else Some (pad_zeros (Precision * 2 + 1) (dec_String dec)).
