(* ===== verification/DecimalSpec.v ===== *)
(** The theorems on decimals: the rounding of each operation, the round trip through
    texts and the order of the sortable bytes. *)
From stdpp Require Import base list strings.
From Stdlib Require Import ZArith Lia.
From S2P Require Import Prelude Coins CoinsSpec Decimal.
Local Open Scope Z_scope.

(** [precisionReuse] is kept folded; only its sign and parity matter. *)
Abbreviation P := precisionReuse.
Lemma P_pos : 0 < P.
Proof. done. Qed.
Lemma P_half : P = 2 * fivePrecision.
Proof. done. Qed.
#[local] Opaque precisionReuse fivePrecision.

Lemma IsInValidRange_spec d : IsInValidRange d = bool_decide (Z.abs d < 2 ^ 315).
Proof.
  unfold IsInValidRange, BitLen, maxDecBitLen, intBitLen, DecimalPrecisionBits. apply bool_decide_ext.
  case_bool_decide as Hd; [subst; simpl; lia|]. rewrite (Z.log2_lt_pow2 (Z.abs d) 315) by lia. lia.
Qed.

Lemma assert_Some d r : assertInValidRange d = Some r <-> r = d /\ Z.abs d < 2 ^ 315.
Proof. unfold assertInValidRange. rewrite IsInValidRange_spec. case_bool_decide; naive_solver. Qed.

Lemma assert_None d : assertInValidRange d = None <-> 2 ^ 315 <= Z.abs d.
Proof. unfold assertInValidRange. rewrite IsInValidRange_spec. case_bool_decide; naive_solver lia. Qed.

Lemma BitLen_le z : bool_decide (maxBitLen < BitLen z) = bool_decide (2 ^ 256 <= Z.abs z).
Proof. rewrite BitLen_fits. unfold int_fits. rewrite <- bool_decide_not. apply bool_decide_ext. lia. Qed.

(** ** Rounding *)

(** [r] is a nearest integer to [d / P], the even one on a tie. *)
Definition nearest_even (r d : Z) : Prop := 2 * Z.abs (r * P - d) <= P /\ (2 * Z.abs (r * P - d) = P -> Z.even r = true).

Lemma quot_rem_pos d : 0 <= d -> d = P * Z.quot d P + Z.rem d P /\ 0 <= Z.rem d P < P.
Proof.
  intros Hd. pose proof P_pos. split; [apply Z.quot_rem'|]. by apply Z.rem_bound_pos.
Qed.

Lemma chop_round_pos_spec d : 0 <= d -> nearest_even (chop_round_pos d) d.
Proof.
  intros Hd. destruct (quot_rem_pos d Hd) as [Heq Hrem]. pose proof P_half as Hh. unfold chop_round_pos, nearest_even.
  set (q := Z.quot d P) in *. set (r := Z.rem d P) in *. case_bool_decide as Hz; [lia|].
  destruct (Z.compare_spec r fivePrecision) as [He|Hl|Hg].
  - destruct (Z.testbit q 0) eqn:Hb.
    + split; [lia|]. intros _. rewrite Z.bit0_odd in Hb. by rewrite Z.add_1_r, Z.even_succ.
    + split; [lia|]. intros _. rewrite Z.bit0_odd in Hb. by rewrite <- Z.negb_odd, Hb.
  - split; [lia|]. lia.
  - split; [lia|]. lia.
Qed.

Lemma chop_round_spec d : nearest_even (chopPrecisionAndRound d) d.
Proof.
  unfold chopPrecisionAndRound. case_bool_decide; [|apply chop_round_pos_spec; lia].
  destruct (chop_round_pos_spec (- d)) as [H1 H2]; [lia|]. unfold nearest_even.
  assert (Ha : Z.abs (- chop_round_pos (- d) * P - d) = Z.abs (chop_round_pos (- d) * P - - d)) by lia.
  rewrite Ha, Z.even_opp. done.
Qed.

Lemma nearest_unique r r' d : nearest_even r d -> nearest_even r' d -> r = r'.
Proof.
  pose proof P_pos. intros [H1 E1] [H2 E2].
  destruct (decide (r = r')) as [?|Hne]; [done|]. exfalso.
  assert (Hdist : P <= Z.abs (r * P - r' * P)).
  { rewrite <- Z.mul_sub_distr_r, Z.abs_mul, (Z.abs_eq P) by lia. nia. }
  assert (Hr : 2 * Z.abs (r * P - d) = P) by lia. assert (Hr' : 2 * Z.abs (r' * P - d) = P) by lia.
  apply E1 in Hr as Ev. apply E2 in Hr' as Ev'. apply Z.even_spec in Ev as [k ->]. apply Z.even_spec in Ev' as [k' ->].
  assert (P < Z.abs (2 * k * P - 2 * k' * P)); [|lia].
  replace (2 * k * P - 2 * k' * P) with ((2 * (k - k')) * P) by lia. rewrite Z.abs_mul, (Z.abs_eq P) by lia. nia.
Qed.

Lemma chop_round_mono d d' : d <= d' -> chopPrecisionAndRound d <= chopPrecisionAndRound d'.
Proof.
  intros Hd. pose proof P_pos. destruct (chop_round_spec d) as [H1 E1], (chop_round_spec d') as [H2 E2].
  set (r := chopPrecisionAndRound d) in *. set (r' := chopPrecisionAndRound d') in *.
  destruct (Z.le_gt_cases r r') as [?|Hgt]; [done|]. exfalso.
  assert (Hdist : (r - r') * P >= P) by nia.
  assert (d = d') as <- by lia. assert (r = r'); [|lia]. by apply (nearest_unique r r' d).
Qed.

Lemma chop_round_whole z : chopPrecisionAndRound (z * P) = z.
Proof.
  pose proof P_pos. apply (nearest_unique _ _ (z * P)); [apply chop_round_spec|]. unfold nearest_even.
  rewrite Z.sub_diag. lia.
Qed.

Lemma chop_round_le d z : d <= z * P -> chopPrecisionAndRound d <= z.
Proof. intros Hd%chop_round_mono. by rewrite chop_round_whole in Hd. Qed.
Lemma chop_round_ge d z : z * P <= d -> z <= chopPrecisionAndRound d.
Proof. intros Hd%chop_round_mono. by rewrite chop_round_whole in Hd. Qed.

Lemma NewDec_whole i : NewDec i = Some (i * P).
Proof. done. Qed.
Lemma NewDecFromInt_whole i : Z.abs (i * P) < 2 ^ 315 -> NewDecFromInt i = Some (i * P).
Proof.
  intros Hi. unfold NewDecFromInt, NewDecFromIntWithPrec. change (precisionMultiplier 0) with (Some P). simpl. by apply assert_Some.
Qed.

(** [Mul] returns the nearest decimal to the exact product, the even one on a
    tie; it panics only when that one needs more than 315 bits. *)
Theorem dec_Mul_nearest a b :
  exists r, nearest_even r (a * b) /\ dec_Mul a b = if bool_decide (Z.abs r < 2 ^ 315) then Some r else None.
Proof.
  exists (chopPrecisionAndRound (a * b)). split; [apply chop_round_spec|].
  unfold dec_Mul, assertInValidRange. by rewrite IsInValidRange_spec.
Qed.

Lemma quot_close a b : b <> 0 -> Z.abs (Z.quot a b * b - a) < Z.abs b.
Proof.
  intros Hb. pose proof (Z.quot_rem' a b). pose proof (Z.rem_bound_abs a b Hb). replace (Z.quot a b * b - a) with (- Z.rem a b) by lia. lia.
Qed.

(** [Quo] is within half a unit of the exact quotient, up to a 10^-18 part of a
    unit that the intermediate truncation costs; [QuoTruncate] of non-negative
    decimals is exactly the floor of the quotient. *)
Theorem dec_Quo_close a b :
  b <> 0 ->
  (forall r, dec_Quo a b = Some r -> 2 * Z.abs (r * b - a * P) * P < (P + 2) * Z.abs b) /\
  (forall r, 0 <= a -> 0 < b -> dec_QuoTruncate a b = Some r -> r * b <= a * P < (r + 1) * b).
Proof.
  intros Hb. pose proof P_pos as HP. split; intros r.
  - unfold dec_Quo, big_Quo. rewrite bool_decide_eq_false_2 by done. simpl. intros [-> _]%assert_Some.
    pose proof (quot_close (a * P * P) b Hb) as Hq. set (q := Z.quot (a * P * P) b) in *.
    destruct (chop_round_spec q) as [Hr _]. set (r := chopPrecisionAndRound q) in *.
    assert (Htri : Z.abs (r * b - a * P) * P <= Z.abs (r * P - q) * Z.abs b + Z.abs (q * b - a * P * P)).
    { rewrite <- Z.abs_mul. rewrite <- (Z.abs_eq P) at 2 by lia. rewrite <- Z.abs_mul.
      replace ((r * b - a * P) * P) with ((r * P - q) * b + (q * b - a * P * P)) by lia. apply Z.abs_triangle. }
    assert (2 * (Z.abs (r * P - q) * Z.abs b) <= P * Z.abs b) by (rewrite Z.mul_assoc; apply Z.mul_le_mono_nonneg_r; lia). lia.
  - intros Ha Hb'. unfold dec_QuoTruncate, big_Quo. rewrite bool_decide_eq_false_2 by done. simpl. intros [-> _]%assert_Some.
    unfold chopPrecisionAndTruncate. rewrite (Z.quot_div_nonneg (a * P * P) b) by nia.
    rewrite Z.quot_div_nonneg, Z.div_div by (lia || apply Z.div_pos; nia).
    rewrite Z.div_mul_cancel_r by lia.
    pose proof (Z.mul_div_le (a * P) b Hb'). pose proof (Z.mul_succ_div_gt (a * P) b Hb'). lia.
Qed.

Lemma ceil_div x : 0 <= x -> (chopPrecisionAndRoundUp x - 1) * P < x <= chopPrecisionAndRoundUp x * P.
Proof.
  intros Hx. unfold chopPrecisionAndRoundUp. rewrite bool_decide_eq_false_2 by lia.
  destruct (quot_rem_pos x Hx) as [Heq Hrem]. case_bool_decide; lia.
Qed.

(** [QuoRoundUp] of non-negative decimals rounds up the quotient truncated to 36
    places: it is less than one unit above the quotient, at most a 10^-18 part of a
    unit below it, and it can be below it: 10^-18 divided by [10^18 + 10^-18] gives zero. *)
Theorem dec_QuoRoundUp_truncates :
  (forall a b r, 0 <= a -> 0 < b -> dec_QuoRoundUp a b = Some r -> (r - 1) * b < a * P /\ a * P * P < (r * P + 1) * b) /\
  dec_QuoRoundUp 1 (P * P + 1) = Some 0.
Proof.
  split; [|by vm_compute]. intros a b r Ha Hb. pose proof P_pos as HP. unfold dec_QuoRoundUp, big_Quo.
  rewrite bool_decide_eq_false_2 by lia. simpl. intros [-> _]%assert_Some. rewrite Z.quot_div_nonneg by nia.
  set (q := a * P * P / b). assert (Hq0 : 0 <= q) by (apply Z.div_pos; nia). destruct (ceil_div q Hq0) as [H1 H2].
  set (r := chopPrecisionAndRoundUp q) in *.
  pose proof (Z.mul_div_le (a * P * P) b Hb) as H3. pose proof (Z.mul_succ_div_gt (a * P * P) b Hb) as H4. fold q in H3, H4. split.
  - assert ((r - 1) * P * b < a * P * P) by nia. nia.
  - nia.
Qed.

Lemma NewDecFromBigInt_Some i r : NewDecFromBigInt i = Some r -> r = i * P.
Proof. unfold NewDecFromBigInt, NewDecFromBigIntWithPrec. simpl. by intros [-> _]%assert_Some. Qed.

(** [Ceil] and [TruncateInt]: the least whole decimal not below the argument, and
    the integer part towards zero. *)
Theorem dec_Ceil_Truncate d :
  (forall r, dec_Ceil d = Some r -> dec_IsInteger r = true /\ d <= r < d + P) /\
  (forall i, dec_TruncateInt d = Some i -> Z.abs (i * P) <= Z.abs d < Z.abs (i * P) + P /\ 0 <= i * d).
Proof.
  pose proof P_pos as HP. split.
  - intros r. unfold dec_Ceil. pose proof (Z.quot_rem' d P) as Hd. pose proof (Z.rem_bound_abs d P) as Hr.
    assert (Hint : forall i, dec_IsInteger (i * P) = true) by (intros i; apply bool_decide_eq_true, Z.rem_mul; lia).
    case_bool_decide; (destruct (NewDecFromBigInt _) as [x|] eqn:Hx; [|done]); simpl; intros [-> _]%assert_Some;
      apply NewDecFromBigInt_Some in Hx as ->; (split; [apply Hint|]); lia.
  - intros i. unfold dec_TruncateInt, chopPrecisionAndTruncate. case_bool_decide; [done|]. intros [= <-].
    pose proof (Z.quot_rem' d P) as Hd. pose proof (Z.rem_bound_abs d P) as Hr.
    destruct (Z.le_ge_cases 0 d) as [Hs|Hs].
    + destruct (quot_rem_pos d Hs) as [_ ?]. assert (0 <= Z.quot d P) by (apply Z.quot_pos; lia). nia.
    + assert (Hq : Z.quot d P = - Z.quot (- d) P) by (rewrite Z.quot_opp_l by lia; lia).
      destruct (quot_rem_pos (- d)) as [Hd' ?]; [lia|]. assert (0 <= Z.quot (- d) P) by (apply Z.quot_pos; lia). nia.
Qed.

(** ** Powers of whole decimals *)
Lemma dec_Mul_whole a b : Z.abs (a * b * P) < 2 ^ 315 -> dec_Mul (a * P) (b * P) = Some (a * b * P).
Proof.
  intros Hr. unfold dec_Mul. assert (Hc : chopPrecisionAndRound (a * P * (b * P)) = a * b * P).
  { apply (nearest_unique _ _ (a * P * (b * P))); [apply chop_round_spec|]. pose proof P_pos.
    unfold nearest_even. replace (a * b * P * P - a * P * (b * P)) with 0 by lia. lia. }
  rewrite Hc. by apply assert_Some.
Qed.

Lemma abs_pow_le d i j : d <> 0 -> 0 <= i <= j -> Z.abs (d ^ i) <= Z.abs (d ^ j).
Proof.
  intros Hd Hij. rewrite !Z.abs_pow. apply Z.pow_le_mono_r; lia.
Qed.

Lemma power_loop_whole fuel d t i :
  1 <= i < 2 ^ Z.of_nat fuel -> d = 0 \/ t <> 0 -> Z.abs (d ^ i * t * P) < 2 ^ 315 ->
  exists d' t', power_loop fuel (d * P) (t * P) i = Some (d' * P, t' * P) /\ d' * t' = d ^ i * t.
Proof.
  pose proof P_pos as HP. revert d t i. induction fuel as [|fuel IH]; intros d t i Hi Hdt Hr; [simpl in Hi; lia|].
  cbn [power_loop]. case_bool_decide as Hi1; [|assert (i = 1) as -> by lia; exists d, t; split; [done|]; lia].
  rewrite Nat2Z.inj_succ, Z.pow_succ_r in Hi by lia.
  assert (Hhalf : 1 <= i / 2 < 2 ^ Z.of_nat fuel).
  { split; [apply Z.div_le_lower_bound; lia|apply Z.div_lt_upper_bound; lia]. }
  assert (Hsmall : forall j, 0 <= j <= i -> d <> 0 -> Z.abs (d ^ j * t * P) < 2 ^ 315).
  { intros j Hj Hd. eapply Z.le_lt_trans; [|exact Hr]. rewrite !Z.abs_mul. pose proof (abs_pow_le d j i Hd Hj).
    repeat apply Z.mul_le_mono_nonneg_r; lia. }
  assert (Htd : Z.abs (t * d * P) < 2 ^ 315).
  { destruct (decide (d = 0)) as [->|Hd]; [rewrite Z.mul_0_r; done|]. pose proof (Hsmall 1 ltac:(lia) Hd) as H1.
    replace (t * d * P) with (d ^ 1 * t * P) by lia. done. }
  assert (Hdd : Z.abs (d * d * P) < 2 ^ 315).
  { destruct (decide (d = 0)) as [->|Hd]; [done|]. destruct Hdt as [|Ht]; [done|]. eapply Z.le_lt_trans; [|apply (Hsmall 2); [lia|done]].
    replace (d ^ 2) with (d * d) by lia. rewrite !Z.abs_mul. apply Z.mul_le_mono_nonneg_r; [lia|]. nia. }
  pose proof (Z.div_mod i 2 ltac:(lia)) as Hdm. pose proof (Z.mod_pos_bound i 2 ltac:(lia)) as Hm.
  assert (Hsq : d ^ i = (d * d) ^ (i / 2) * d ^ (i mod 2)).
  { rewrite Hdm at 1. rewrite Z.pow_add_r, Z.pow_mul_r by lia. by replace (d ^ 2) with (d * d) by lia. }
  case_bool_decide as Hodd.
  - assert (Hone : i mod 2 = 1) by lia. rewrite dec_Mul_whole by done. simpl. rewrite dec_Mul_whole by done. simpl.
    destruct (IH (d * d) (t * d) (i / 2)) as (d' & t' & HL & Heq); [done|nia| |].
    + replace ((d * d) ^ (i / 2) * (t * d)) with (d ^ i * t); [done|]. rewrite Hsq, Hone. lia.
    + exists d', t'. split; [done|]. rewrite Heq, Hsq, Hone. lia.
  - assert (Hzero : i mod 2 = 0) by lia. simpl. rewrite dec_Mul_whole by done. simpl.
    destruct (IH (d * d) t (i / 2)) as (d' & t' & HL & Heq); [done|nia| |].
    + replace ((d * d) ^ (i / 2)) with (d ^ i); [done|]. rewrite Hsq, Hzero. lia.
    + exists d', t'. split; [done|]. rewrite Heq, Hsq, Hzero. lia.
Qed.

(** [Power] of a whole decimal is the exact power whenever that is in range: no
    intermediate product overflows, and 64 rounds are enough for any [uint64]. *)
Theorem dec_Power_whole n power :
  0 <= power < 2 ^ 64 -> Z.abs (n ^ power * P) < 2 ^ 315 -> dec_Power (n * P) power = Some (n ^ power * P).
Proof.
  intros Hp Hr. unfold dec_Power. case_bool_decide as H0; [subst; simpl; by f_equal|].
  destruct (power_loop_whole 64 n 1 power) as (d' & t' & HL & Heq); [lia|by right|by rewrite Z.mul_1_r|].
  change OneDec with P. rewrite Z.mul_1_l in HL. rewrite HL. cbn [mbind option_bind].
  rewrite Z.mul_1_r in Heq. rewrite dec_Mul_whole; by rewrite Heq.
Qed.

(** ** Texts *)
Lemma digits_value_app a b : digits_value (a ++ b) = digits_value a * 10 ^ Z.of_nat (length b) + digits_value b.
Proof.
  unfold digits_value. rewrite fold_left_app. generalize (fold_left (fun acc b => acc * 10 + (b - 48)) a 0) as x.
  induction b as [|y b IH] using rev_ind; intros x; simpl; [lia|].
  rewrite !fold_left_app, length_app, Nat2Z.inj_add, Z.pow_add_r, (IH x) by lia. simpl. lia.
Qed.

Lemma digits_value_zeros n : digits_value (replicate n 48) = 0.
Proof. unfold digits_value. induction n as [|n IH]; simpl; [done|]. exact IH. Qed.

Definition all_digits (s : bytes) : Prop := forallb is_digit s = true.

Lemma all_digits_app a b : all_digits (a ++ b) <-> all_digits a /\ all_digits b.
Proof. unfold all_digits. by rewrite forallb_app, andb_true_iff. Qed.

Lemma all_digits_zeros n : all_digits (replicate n 48).
Proof. unfold all_digits. induction n; [done|]. simpl. done. Qed.

Lemma is_digit_48 z : 0 <= z < 10 -> is_digit (48 + z) = true.
Proof. intros Hz. apply bool_decide_eq_true. lia. Qed.

Lemma digits_loop_spec fuel n :
  0 <= n < 2 ^ Z.of_nat fuel -> (0 < fuel)%nat ->
  all_digits (digits_loop fuel n) /\ digits_value (digits_loop fuel n) = n /\ digits_loop fuel n <> [] /\
  forall k, n < 10 ^ Z.of_nat k -> (length (digits_loop fuel n) <= k `max` 1)%nat.
Proof.
  revert n. induction fuel as [|fuel IH]; intros n Hn Hf; [lia|]. cbn [digits_loop]. case_bool_decide as Hs.
  - split_and!; [unfold all_digits; simpl; rewrite is_digit_48 by lia; done|unfold digits_value; simpl; lia|done|]. intros k _. simpl. lia.
  - assert (Hd : 0 <= n / 10 < 2 ^ Z.of_nat fuel).
    { rewrite Nat2Z.inj_succ, Z.pow_succ_r in Hn by lia. split; [apply Z.div_pos; lia|]. apply Z.div_lt_upper_bound; lia. }
    destruct fuel as [|fuel]; [simpl in Hn; lia|].
    destruct (IH (n / 10)) as (H1 & H2 & H3 & H4); [done|lia|]. split_and!.
    + apply all_digits_app. split; [done|]. unfold all_digits. simpl. rewrite is_digit_48; [done|]. apply Z.mod_pos_bound. lia.
    + rewrite digits_value_app, H2. unfold digits_value. simpl. pose proof (Z.div_mod n 10). lia.
    + by destruct (digits_loop (S fuel) (n / 10)).
    + intros [|k] Hk; [simpl in Hk; lia|]. rewrite length_app. rewrite Nat2Z.inj_succ, Z.pow_succ_r in Hk by lia.
      assert (Hk' : n / 10 < 10 ^ Z.of_nat k) by (apply Z.div_lt_upper_bound; lia). specialize (H4 k Hk').
      destruct k; [simpl in Hk'; assert (n / 10 >= 1) by (apply Z.le_ge, Z.div_le_lower_bound; lia); lia|]. simpl in *. lia.
Qed.

Lemma digits_spec n :
  0 <= n ->
  all_digits (digits n) /\ digits_value (digits n) = n /\ digits n <> [] /\
  forall k, n < 10 ^ Z.of_nat k -> (length (digits n) <= k `max` 1)%nat.
Proof.
  intros Hn. apply digits_loop_spec; [|lia]. split; [done|]. rewrite Nat2Z.inj_succ, Z2Nat.id by apply Z.log2_nonneg.
  destruct (decide (n = 0)) as [->|]; [done|]. apply Z.log2_spec. lia.
Qed.

Lemma is_digit_not z b : is_digit b = true -> (z < 48 \/ 57 < z) -> b <> z.
Proof. intros Hb%bool_decide_eq_true. lia. Qed.

Lemma split_digits s : all_digits s -> split_byte 46 s = [s].
Proof.
  unfold all_digits. induction s as [|b s IH]; [done|]. simpl. intros [Hb Hs]%andb_true_iff.
  rewrite bool_decide_eq_false_2 by (apply (is_digit_not 46 b Hb); lia). by rewrite IH.
Qed.

Lemma split_decimal p q : all_digits p -> all_digits q -> split_byte 46 (p ++ 46 :: q) = [p; q].
Proof.
  intros Hp Hq. induction p as [|b p IH]; simpl; [by rewrite split_digits|].
  unfold all_digits in Hp. simpl in Hp. apply andb_true_iff in Hp as [Hb Hp].
  rewrite bool_decide_eq_false_2 by (apply (is_digit_not 46 b Hb); lia). by rewrite IH.
Qed.

Lemma SetString_digits s : all_digits s -> s <> [] -> SetString s = Some (digits_value s).
Proof.
  intros Hs Hn. assert (Hp : parse_digits s = Some (digits_value s)).
  { unfold parse_digits. rewrite bool_decide_eq_true_2 by done. by rewrite Hs. }
  destruct s as [|b s]; [done|]. unfold all_digits in Hs. simpl in Hs. apply andb_true_iff in Hs as [Hb _].
  unfold SetString. apply bool_decide_eq_true in Hb. repeat (case_match; try done; try lia).
Qed.

(** A whole part and 18 places: the text of a decimal without its sign. *)
Lemma dec_String_parts d :
  exists p q, dec_String d = (if bool_decide (d < 0) then 45 :: p ++ 46 :: q else p ++ 46 :: q) /\
    all_digits p /\ all_digits q /\ p <> [] /\ length q = Precision /\ digits_value (p ++ q) = Z.abs d /\
    forall k, Z.abs d < 10 ^ Z.of_nat (k + Precision) -> (length p <= k `max` 1)%nat.
Proof.
  destruct (digits_spec (Z.abs d)) as (H1 & H2 & H3 & H4); [lia|]. unfold dec_String.
  set (s := digits (Z.abs d)) in *. destruct (bool_decide (length s <= Precision)%nat) eqn:Hl;
    [apply bool_decide_eq_true in Hl|apply bool_decide_eq_false in Hl].
  - exists [48], (replicate (Precision - length s) 48 ++ s). split; [done|]. split; [done|].
    split; [apply all_digits_app; split; [apply all_digits_zeros|done]|]. split; [done|].
    split; [rewrite length_app, length_replicate; lia|]. split; [|simpl; lia].
    rewrite !digits_value_app, H2, digits_value_zeros. unfold digits_value. simpl. lia.
  - set (n := (length s - Precision)%nat). assert (Hs : take n s ++ drop n s = s) by apply take_drop.
    exists (take n s), (drop n s). split; [done|]. rewrite <- Hs in H1. apply all_digits_app in H1 as [Ha Hb].
    assert (Hlen : length (take n s) = n) by (rewrite length_take; lia).
    split; [done|]. split; [done|]. split; [intros Hn; rewrite Hn in Hlen; simpl in Hlen; lia|].
    split; [rewrite length_drop; lia|]. split; [by rewrite Hs|]. intros k Hk. specialize (H4 _ Hk). rewrite Hlen. lia.
Qed.

Lemma head_digits p q : all_digits p -> p <> [] -> bool_decide (head (p ++ q) = Some 45) = false.
Proof.
  destruct p as [|b p]; [done|]. unfold all_digits. simpl. intros [Hb _]%andb_true_iff _.
  apply bool_decide_eq_false. intros [= ->]. done.
Qed.

Lemma parse_unsigned_decimal neg p q :
  all_digits p -> all_digits q -> p <> [] -> length q = Precision -> digits_value (p ++ q) < 2 ^ 315 -> 0 <= digits_value (p ++ q) ->
  parse_unsigned neg (p ++ 46 :: q) = Some (if neg then - digits_value (p ++ q) else digits_value (p ++ q)).
Proof.
  intros Hp Hq Hpn Hlq Hv Hv0. unfold parse_unsigned. rewrite split_decimal by done. rewrite Hlq.
  rewrite (bool_decide_eq_false_2 (Precision = 0)%nat), (bool_decide_eq_false_2 (length p = 0)%nat) by (by destruct p). simpl.
  rewrite app_nil_r, SetString_digits; [|by apply all_digits_app|by destruct p]. simpl. rewrite IsInValidRange_spec.
  rewrite bool_decide_eq_true_2; [done|]. destruct neg; lia.
Qed.

Lemma parse_dec_String d : Z.abs d < 2 ^ 315 -> NewDecFromStr (dec_String d) = Some d.
Proof.
  intros Hd. destruct (dec_String_parts d) as (p & q & -> & Hp & Hq & Hpn & Hlq & Hv & Hlen).
  assert (Hl : (length p <= 77)%nat) by (apply (Hlen 77%nat); etrans; [exact Hd|done]).
  assert (Hlpq : (19 <= length (p ++ 46%Z :: q) <= 96)%nat).
  { rewrite length_app. simpl. rewrite Hlq. unfold Precision. lia. }
  assert (Hbody : forall neg, parse_unsigned neg (p ++ 46 :: q) = Some (if neg then - Z.abs d else Z.abs d)).
  { intros neg. rewrite parse_unsigned_decimal; rewrite ?Hv; [done..|lia]. }
  unfold NewDecFromStr. destruct (bool_decide (d < 0)) eqn:Hneg; [apply bool_decide_eq_true in Hneg|apply bool_decide_eq_false in Hneg].
  - rewrite bool_decide_eq_false_2 by (simpl; lia). rewrite bool_decide_eq_false_2 by done. cbn [head tail].
    change (bool_decide (Some 45 = Some 45)) with true. cbv iota zeta.
    rewrite bool_decide_eq_false_2 by lia. rewrite Hbody. f_equal. lia.
  - rewrite bool_decide_eq_false_2 by lia. rewrite bool_decide_eq_false_2 by lia. rewrite head_digits by done. cbv iota zeta.
    rewrite bool_decide_eq_false_2 by lia. rewrite Hbody. f_equal. lia.
Qed.

(** [NewDecFromStr] reads back what [String] writes, for every decimal in range. *)
Theorem NewDecFromStr_String d : Z.abs d < 2 ^ 315 -> NewDecFromStr (dec_String d) = Some d.
Proof. apply parse_dec_String. Qed.

(** ** Bounds of the range and lenient parsing *)

(** Not every [sdk.Int] converts: the largest one, scaled by 10^18, needs 316 bits,
    and the conversion panics from 2^315 / 10^18 on. *)
Theorem NewDecFromInt_range i : NewDecFromInt i = if bool_decide (Z.abs (i * P) < 2 ^ 315) then Some (i * P) else None.
Proof.
  unfold NewDecFromInt, NewDecFromIntWithPrec. simpl. unfold assertInValidRange. rewrite IsInValidRange_spec.
  change (10 ^ 18) with P. done.
Qed.

(** A second sign is accepted after the first: two minus signs cancel, and a plus
    sign is accepted, which the documented form does not have. *)
Theorem NewDecFromStr_double_sign :
  NewDecFromStr (string_bytes "--5") = Some (5 * P) /\ NewDecFromStr (string_bytes "-+5") = Some (- (5 * P)) /\
  NewDecFromStr (string_bytes "+5") = Some (5 * P).
Proof. by vm_compute. Qed.

(** ** Sortable bytes *)
Lemma digits_value_cons b s : digits_value (b :: s) = (b - 48) * 10 ^ Z.of_nat (length s) + digits_value s.
Proof. change (b :: s) with ([b] ++ s). rewrite digits_value_app. unfold digits_value at 1. simpl. lia. Qed.

Lemma digits_value_bound s : all_digits s -> 0 <= digits_value s < 10 ^ Z.of_nat (length s).
Proof.
  induction s as [|b s IH]; [done|]. intros Hbs. unfold all_digits in Hbs. cbn [forallb] in Hbs. apply andb_true_iff in Hbs as [Hb Hs].
  apply bool_decide_eq_true in Hb. specialize (IH Hs). rewrite digits_value_cons. cbn [length].
  rewrite Nat2Z.inj_succ, Z.pow_succ_r by lia. nia.
Qed.

(** The byte order of digit strings of one length is the order of their values. *)
Lemma compare_digits a b :
  all_digits a -> all_digits b -> length a = length b -> bytes_compare a b = (digits_value a ?= digits_value b).
Proof.
  revert b. induction a as [|x a IH]; intros [|y b] Ha Hb Hl; try done.
  pose proof Ha as Ha'. pose proof Hb as Hb'. unfold all_digits in Ha', Hb'. simpl in Ha', Hb'.
  apply andb_true_iff in Ha' as [Hx Ha']. apply andb_true_iff in Hb' as [Hy Hb']. injection Hl as Hl.
  pose proof (digits_value_bound a Ha'). pose proof (digits_value_bound b Hb').
  rewrite !digits_value_cons, <- Hl in *. simpl. set (m := 10 ^ Z.of_nat (length a)) in *. symmetry.
  destruct (Z.compare_spec x y) as [->|Hlt|Hgt].
  - rewrite IH by done. by rewrite Z.add_compare_mono_l.
  - apply Z.compare_lt_iff. nia.
  - apply Z.compare_gt_iff. nia.
Qed.

Lemma bytes_compare_app_dot p q p' q' :
  length p = length p' -> bytes_compare (p ++ 46 :: q) (p' ++ 46 :: q') = bytes_compare (p ++ q) (p' ++ q').
Proof.
  revert p'. induction p as [|x p IH]; intros [|y p'] Hl; try done. simpl. injection Hl as Hl. by rewrite (IH p').
Qed.

(** The padded text of a decimal below 10^18 in size: 18 digits on each side. *)
Lemma padded_parts d :
  Z.abs d < MaxSortableDec ->
  exists p q, pad_zeros (Precision * 2 + 1) (dec_String (Z.abs d)) = p ++ 46 :: q /\ length p = Precision /\ length q = Precision /\
    all_digits (p ++ q) /\ digits_value (p ++ q) = Z.abs d.
Proof.
  intros Hd. destruct (dec_String_parts (Z.abs d)) as (p & q & Hs & Hp & Hq & Hpn & Hlq & Hv & Hlen).
  rewrite bool_decide_eq_false_2 in Hs by lia. rewrite Z.abs_idemp in Hv, Hlen.
  assert (Hl : (length p <= 18)%nat) by (apply (Hlen 18%nat); exact Hd).
  exists (replicate (18 - length p) 48 ++ p), q. rewrite Hs. unfold pad_zeros. rewrite length_app. simpl. rewrite Hlq.
  unfold Precision at 1 2 3. split; [|split; [|split; [done|split]]].
  - rewrite <- app_assoc. do 2 f_equal. lia.
  - rewrite length_app, length_replicate. lia.
  - rewrite !all_digits_app. split; [split; [apply all_digits_zeros|done]|done].
  - rewrite <- app_assoc, digits_value_app, digits_value_zeros, Hv. lia.
Qed.

Lemma padded_compare a b :
  Z.abs a < MaxSortableDec -> Z.abs b < MaxSortableDec ->
  bytes_compare (pad_zeros (Precision * 2 + 1) (dec_String (Z.abs a))) (pad_zeros (Precision * 2 + 1) (dec_String (Z.abs b))) =
    (Z.abs a ?= Z.abs b).
Proof.
  intros Ha Hb. destruct (padded_parts a Ha) as (p & q & -> & Hlp & Hlq & Hd & Hv).
  destruct (padded_parts b Hb) as (p' & q' & -> & Hlp' & Hlq' & Hd' & Hv'). rewrite bytes_compare_app_dot by congruence.
  rewrite compare_digits, Hv, Hv'; [done..|]. rewrite !length_app. congruence.
Qed.

(** [SortableDecBytes] sorts the non-negative decimals by value, and puts the
    negative ones before them; but among the negative ones, the smallest sortable one
    apart, the byte order is the reverse of the order of the values. *)
Theorem SortableDecBytes_order a b sa sb :
  SortableDecBytes a = Some sa -> SortableDecBytes b = Some sb ->
  (0 <= a < MaxSortableDec -> 0 <= b < MaxSortableDec -> bytes_compare sa sb = (a ?= b)) /\
  (0 <= a < MaxSortableDec -> b = MaxSortableDec -> sa <b sb) /\
  (a < 0 -> 0 <= b < MaxSortableDec -> sa <b sb) /\
  (- MaxSortableDec < a < 0 -> - MaxSortableDec < b < 0 -> bytes_compare sa sb = (b ?= a)).
Proof.
  assert (Hpos : forall d s, 0 <= d < MaxSortableDec -> SortableDecBytes d = Some s ->
    s = pad_zeros (Precision * 2 + 1) (dec_String (Z.abs d))).
  { intros d s Hd. unfold SortableDecBytes, ValidSortableDec. rewrite (bool_decide_eq_true_2 (Z.abs d <= _)) by lia. cbn [negb].
    rewrite !bool_decide_eq_false_2 by lia. rewrite Z.abs_eq by lia. congruence. }
  assert (Hneg : forall d s, - MaxSortableDec < d < 0 -> SortableDecBytes d = Some s ->
    s = 45 :: pad_zeros (Precision * 2 + 1) (dec_String (Z.abs d))).
  { intros d s Hd. unfold SortableDecBytes, ValidSortableDec. rewrite (bool_decide_eq_true_2 (Z.abs d <= _)) by lia. cbn [negb].
    rewrite !(bool_decide_eq_false_2 (d = _)) by lia. rewrite bool_decide_eq_true_2 by lia. congruence. }
  assert (Hfirst : forall d, 0 <= d < MaxSortableDec -> exists x s, pad_zeros (Precision * 2 + 1) (dec_String (Z.abs d)) = x :: s /\ 48 <= x <= 57).
  { intros d Hd. destruct (padded_parts d) as ([|x p] & q & -> & Hl & _ & Hdig & _); [lia|done|]. exists x, (p ++ 46 :: q). split; [done|].
    unfold all_digits in Hdig. simpl in Hdig. apply andb_true_iff in Hdig as [Hx _]. by apply bool_decide_eq_true in Hx. }
  intros Hsa Hsb. split_and!.
  - intros Ha Hb. rewrite (Hpos a sa), (Hpos b sb), padded_compare by (done || lia). by rewrite !Z.abs_eq by lia.
  - intros Ha ->. rewrite (Hpos a sa) by done. destruct (Hfirst a Ha) as (x & s & -> & Hx).
    assert (sb = [109; 97; 120]) as -> by (vm_compute in Hsb; congruence). unfold bytes_lt. simpl.
    by rewrite (proj2 (Z.compare_lt_iff x 109)) by lia.
  - intros Ha Hb. rewrite (Hpos b sb) by done. destruct (Hfirst b Hb) as (x & s & -> & Hx).
    assert (exists s', sa = 45 :: s') as [s' ->].
    { unfold SortableDecBytes in Hsa. destruct (ValidSortableDec a); [|done]. cbn [negb] in Hsa.
      rewrite bool_decide_eq_false_2 in Hsa by (vm_compute; lia). case_bool_decide; [by eexists; simplify_eq|].
      rewrite bool_decide_eq_true_2 in Hsa by done. by eexists; simplify_eq. }
    unfold bytes_lt. cbn [bytes_compare]. by rewrite (proj2 (Z.compare_lt_iff 45 x)) by lia.
  - intros Ha Hb. rewrite (Hneg a sa), (Hneg b sb) by done. simpl. rewrite padded_compare by lia.
    rewrite !Z.abs_neq by lia. apply Z.compare_opp.
Qed.

(** ** Witnesses *)
Lemma dec_Quo_close_witness :
  dec_Quo (2 * precisionReuse) (3 * precisionReuse) = Some 666666666666666667 /\
  2 * Z.abs (666666666666666667 * (3 * precisionReuse) - 2 * precisionReuse * precisionReuse) * precisionReuse <
    (precisionReuse + 2) * Z.abs (3 * precisionReuse).
Proof.
  assert (Hq : dec_Quo (2 * precisionReuse) (3 * precisionReuse) = Some 666666666666666667) by by vm_compute.
  split; [exact Hq|]. assert (Hne : 3 * precisionReuse <> 0) by by vm_compute.
  destruct (dec_Quo_close (2 * precisionReuse) (3 * precisionReuse) Hne) as [H _]. exact (H _ Hq).
Defined.

Lemma NewDecFromStr_String_witness : NewDecFromStr (dec_String (-1500000000000000000)) = Some (-1500000000000000000).
Proof. apply (NewDecFromStr_String (-1500000000000000000)). by vm_compute. Defined.

Lemma SortableDecBytes_order_witness :
  exists sa sb, SortableDecBytes (-2 * precisionReuse) = Some sa /\ SortableDecBytes (-1 * precisionReuse) = Some sb /\
    bytes_compare sa sb = Gt.
Proof.
  destruct (SortableDecBytes (-2 * precisionReuse)) as [sa|] eqn:Ha; [|by vm_compute in Ha].
  destruct (SortableDecBytes (-1 * precisionReuse)) as [sb|] eqn:Hb; [|by vm_compute in Hb].
  exists sa, sb. split; [reflexivity|]. split; [reflexivity|].
  destruct (SortableDecBytes_order _ _ sa sb Ha Hb) as (_ & _ & _ & H).
  assert (H2 : - MaxSortableDec < -2 * precisionReuse < 0) by (split; vm_compute; reflexivity).
  assert (H1 : - MaxSortableDec < -1 * precisionReuse < 0) by (split; vm_compute; reflexivity).
  etransitivity; [exact (H H2 H1)|]. vm_compute. reflexivity.
Defined.

Lemma dec_Power_whole_witness : dec_Power (3 * precisionReuse) 5 = Some (3 ^ 5 * precisionReuse).
Proof. apply (dec_Power_whole 3 5); by vm_compute. Defined.
