(* ===== verification/Vesting.v ===== *)
(** The vesting accounts of [sei-cosmos/x/auth/vesting/types/vesting_account.go]:
    continuous, periodic, delayed and permanently locked ones.

    Times are [int64] seconds; the differences wrap around as in Go.  A panic of the
    coin or decimal operations is [None]. *)
From stdpp Require Import base gmap sets list strings.
From Stdlib Require Import ZArith Lia.
From S2P Require Import Prelude Coins Decimal.
Local Open Scope Z_scope.

Definition wrap64 (z : Z) : Z := (z + 2 ^ 63) mod 2 ^ 64 - 2 ^ 63.

Record BaseVestingAccount := mkBVA {
  OriginalVesting : Coins;
  DelegatedFree : Coins;
  DelegatedVesting : Coins;
  EndTime : Z
}.

Record Period := mkPeriod { Length : Z; PeriodAmount : Coins }.

Inductive VestingAccount :=
| ContinuousVestingAccount (bva : BaseVestingAccount) (StartTime : Z)
| PeriodicVestingAccount (bva : BaseVestingAccount) (StartTime : Z) (VestingPeriods : list Period)
| DelayedVestingAccount (bva : BaseVestingAccount)
| PermanentLockedAccount (bva : BaseVestingAccount).

Definition va_base (va : VestingAccount) : BaseVestingAccount :=
  match va with
  | ContinuousVestingAccount bva _ | PeriodicVestingAccount bva _ _ | DelayedVestingAccount bva | PermanentLockedAccount bva => bva
  end.
Definition va_set_base (va : VestingAccount) (bva : BaseVestingAccount) : VestingAccount :=
  match va with
  | ContinuousVestingAccount _ s => ContinuousVestingAccount bva s
  | PeriodicVestingAccount _ s p => PeriodicVestingAccount bva s p
  | DelayedVestingAccount _ => DelayedVestingAccount bva
  | PermanentLockedAccount _ => PermanentLockedAccount bva
  end.

(** ** Schedules *)

(** The loop of the continuous [GetVestedCoins], with the vesting scalar [s]. *)
Fixpoint continuous_loop (s : Z) (original : Coins) : option Coins :=
  match original with
  | [] => Some []
  | ovc :: original =>
      amt ← NewDecFromInt (Amount ovc);
      amt ← dec_Mul amt s;
      vestedAmt ← dec_RoundInt amt;
      c ← NewCoin (Denom ovc) vestedAmt;
      rest ← continuous_loop s original;
      Some (c :: rest)
  end.

Definition continuous_GetVestedCoins (bva : BaseVestingAccount) (StartTime blockTime : Z) : option Coins :=
  if bool_decide (blockTime <= StartTime) then Some []
  else if bool_decide (EndTime bva <= blockTime) then Some (OriginalVesting bva)
  else
    x ← NewDec (wrap64 (blockTime - StartTime));
    y ← NewDec (wrap64 (EndTime bva - StartTime));
    s ← dec_Quo x y;
    continuous_loop s (OriginalVesting bva).

Fixpoint periodic_loop (blockTime currentPeriodStartTime : Z) (vestedCoins : Coins) (periods : list Period) : option Coins :=
  match periods with
  | [] => Some vestedCoins
  | period :: periods =>
      let x := wrap64 (blockTime - currentPeriodStartTime) in
      if bool_decide (x < Length period) then Some vestedCoins
      else
        vestedCoins ← coins_Add vestedCoins (PeriodAmount period);
        periodic_loop blockTime (wrap64 (currentPeriodStartTime + Length period)) vestedCoins periods
  end.

Definition periodic_GetVestedCoins (bva : BaseVestingAccount) (StartTime : Z) (periods : list Period) (blockTime : Z) : option Coins :=
  if bool_decide (blockTime <= StartTime) then Some []
  else if bool_decide (EndTime bva <= blockTime) then Some (OriginalVesting bva)
  else periodic_loop blockTime StartTime [] periods.

Definition GetVestedCoins (va : VestingAccount) (blockTime : Z) : option Coins :=
  match va with
  | ContinuousVestingAccount bva StartTime => continuous_GetVestedCoins bva StartTime blockTime
  | PeriodicVestingAccount bva StartTime periods => periodic_GetVestedCoins bva StartTime periods blockTime
  | DelayedVestingAccount bva => Some (if bool_decide (EndTime bva <= blockTime) then OriginalVesting bva else [])
  | PermanentLockedAccount _ => Some []
  end.

Definition GetVestingCoins (va : VestingAccount) (blockTime : Z) : option Coins :=
  match va with
  | PermanentLockedAccount bva => Some (OriginalVesting bva)
  | _ => vested ← GetVestedCoins va blockTime; coins_Sub (OriginalVesting (va_base va)) vested
  end.

Definition LockedCoinsFromVesting (bva : BaseVestingAccount) (vestingCoins : Coins) : option Coins :=
  m ← coins_Min vestingCoins (DelegatedVesting bva);
  coins_Sub vestingCoins m.

Definition va_LockedCoins (va : VestingAccount) (blockTime : Z) : option Coins :=
  vesting ← GetVestingCoins va blockTime; LockedCoinsFromVesting (va_base va) vesting.

(** ** Delegations *)
Definition MinInt (a b : Z) : Z := if bool_decide (b < a) then b else a.
Definition MaxInt (a b : Z) : Z := if bool_decide (a < b) then b else a.

Definition set_DelegatedVesting (bva : BaseVestingAccount) (c : Coins) : BaseVestingAccount :=
  mkBVA (OriginalVesting bva) (DelegatedFree bva) c (EndTime bva).
Definition set_DelegatedFree (bva : BaseVestingAccount) (c : Coins) : BaseVestingAccount :=
  mkBVA (OriginalVesting bva) c (DelegatedVesting bva) (EndTime bva).

Definition track_delegation_coin (balance vestingCoins : Coins) (bva : BaseVestingAccount) (coin : Coin) : option BaseVestingAccount :=
  baseAmt ← coins_AmountOf balance (Denom coin);
  vestingAmt ← coins_AmountOf vestingCoins (Denom coin);
  delVestingAmt ← coins_AmountOf (DelegatedVesting bva) (Denom coin);
  if coin_IsZero coin || bool_decide (baseAmt < Amount coin) then None
  else
    free ← int_sub vestingAmt delVestingAmt;
    let x := MinInt (MaxInt free 0) (Amount coin) in
    y ← int_sub (Amount coin) x;
    bva ← (if bool_decide (x = 0) then Some bva
           else xCoin ← NewCoin (Denom coin) x; set_DelegatedVesting bva <$> coins_Add (DelegatedVesting bva) [xCoin]);
    if bool_decide (y = 0) then Some bva
    else yCoin ← NewCoin (Denom coin) y; set_DelegatedFree bva <$> coins_Add (DelegatedFree bva) [yCoin].

Definition base_TrackDelegation (bva : BaseVestingAccount) (balance vestingCoins amount : Coins) : option BaseVestingAccount :=
  fold_left (fun acc coin => bva ← acc; track_delegation_coin balance vestingCoins bva coin) amount (Some bva).

Definition va_TrackDelegation (va : VestingAccount) (blockTime : Z) (balance amount : Coins) : option VestingAccount :=
  vesting ← GetVestingCoins va blockTime;
  va_set_base va <$> base_TrackDelegation (va_base va) balance vesting amount.

Definition track_undelegation_coin (bva : BaseVestingAccount) (coin : Coin) : option BaseVestingAccount :=
  if coin_IsZero coin then None
  else
    delegatedFree ← coins_AmountOf (DelegatedFree bva) (Denom coin);
    delegatedVesting ← coins_AmountOf (DelegatedVesting bva) (Denom coin);
    let x := MinInt delegatedFree (Amount coin) in
    rest ← int_sub (Amount coin) x;
    let y := MinInt delegatedVesting rest in
    bva ← (if bool_decide (x = 0) then Some bva
           else xCoin ← NewCoin (Denom coin) x; set_DelegatedFree bva <$> coins_Sub (DelegatedFree bva) [xCoin]);
    if bool_decide (y = 0) then Some bva
    else yCoin ← NewCoin (Denom coin) y; set_DelegatedVesting bva <$> coins_Sub (DelegatedVesting bva) [yCoin].

Definition base_TrackUndelegation (bva : BaseVestingAccount) (amount : Coins) : option BaseVestingAccount :=
  fold_left (fun acc coin => bva ← acc; track_undelegation_coin bva coin) amount (Some bva).

Definition va_TrackUndelegation (va : VestingAccount) (amount : Coins) : option VestingAccount :=
  va_set_base va <$> base_TrackUndelegation (va_base va) amount.

(** ** [Validate] *)
Definition base_Validate (bva : BaseVestingAccount) : option bool := coins_IsAllLTE (DelegatedVesting bva) (OriginalVesting bva).

(** The end time and the sum of the periods. *)
Fixpoint periods_total (endTime : Z) (originalVesting : Coins) (periods : list Period) : option (Z * Coins) :=
  match periods with
  | [] => Some (endTime, originalVesting)
  | p :: periods =>
      originalVesting ← coins_Add originalVesting (PeriodAmount p);
      periods_total (wrap64 (endTime + Length p)) originalVesting periods
  end.

Definition period_Validate (p : Period) : bool :=
  coins_Validate (PeriodAmount p) && coins_IsAllPositive (PeriodAmount p) && negb (bool_decide (Length p < 1)).

Definition periodic_Validate (bva : BaseVestingAccount) (StartTime : Z) (periods : list Period) : option bool :=
  if bool_decide (EndTime bva <= StartTime) then Some false
  else
    '(endTime, originalVesting) ← periods_total StartTime [] periods;
    if bool_decide (endTime <> EndTime bva) then Some false
    else
      eq ← coins_IsEqual originalVesting (OriginalVesting bva);
      if negb eq then Some false
      else if negb (forallb period_Validate periods) then Some false
      else base_Validate bva.

(** The base account is validated by its own method, of [auth/types/account.go]. *)
Definition va_Validate (va : VestingAccount) : option bool :=
  match va with
  | ContinuousVestingAccount bva StartTime =>
      if bool_decide (EndTime bva <= StartTime) then Some false else base_Validate bva
  | PeriodicVestingAccount bva StartTime periods => periodic_Validate bva StartTime periods
  | DelayedVestingAccount bva => base_Validate bva
  | PermanentLockedAccount bva => if bool_decide (0 < EndTime bva) then Some false else base_Validate bva
  end.
