(* ===== verification/VestingSpec.v ===== *)
(** The theorems on vesting accounts: schedules split the original coins into vested and
    vesting ones and never go back, and delegations are tracked exactly. *)
From stdpp Require Import base gmap sets list strings sorting.
From Stdlib Require Import ZArith Lia.
From S2P Require Import Prelude Coins CoinsSpec Decimal DecimalSpec Vesting.
Local Open Scope Z_scope.
#[local] Opaque precisionReuse fivePrecision.

Lemma wrap64_id z : - 2 ^ 63 <= z < 2 ^ 63 -> wrap64 z = z.
Proof. intros Hz. unfold wrap64. rewrite Z.mod_small; lia. Qed.

(** ** Well-formed accounts *)
Definition bva_ok (bva : BaseVestingAccount) : Prop :=
  coins_ok (OriginalVesting bva) /\ (forall d, amount (OriginalVesting bva) d < 2 ^ 255) /\
  coins_ok (DelegatedFree bva) /\ coins_ok (DelegatedVesting bva) /\ EndTime bva < 2 ^ 63.

Fixpoint lengths (periods : list Period) : Z :=
  match periods with [] => 0 | p :: periods => Length p + lengths periods end.
Fixpoint total (periods : list Period) (d : string) : Z :=
  match periods with [] => 0 | p :: periods => amount (PeriodAmount p) d + total periods d end.
Definition period_ok (p : Period) : Prop := coins_ok (PeriodAmount p) /\ 1 <= Length p.

(** What [Validate] checks, without wrap-around of the times; the amounts of a
    continuous account convert to decimals. *)
Definition va_ok (va : VestingAccount) : Prop :=
  bva_ok (va_base va) /\
  match va with
  | ContinuousVestingAccount bva start => 0 <= start < EndTime bva /\ forall d, amount (OriginalVesting bva) d * P < 2 ^ 315
  | PeriodicVestingAccount bva start periods =>
      0 <= start /\ Forall period_ok periods /\ start + lengths periods = EndTime bva /\
      forall d, total periods d = amount (OriginalVesting bva) d
  | _ => True
  end.

(** ** Continuous schedules *)
Lemma continuous_scalar x y :
  0 < x <= y -> y < 2 ^ 63 ->
  dec_Quo (x * P) (y * P) = Some (chopPrecisionAndRound (x * P * P / y)) /\ 0 <= chopPrecisionAndRound (x * P * P / y) <= P.
Proof.
  intros Hxy Hy. pose proof P_pos as HP.
  assert (Hq : Z.quot (x * P * P * P) (y * P) = x * P * P / y).
  { rewrite Z.quot_div_nonneg by nia. by rewrite Z.div_mul_cancel_r by lia. }
  assert (Hr : 0 <= chopPrecisionAndRound (x * P * P / y) <= P).
  { split.
    - apply chop_round_ge. rewrite Z.mul_0_l. apply Z.div_pos; nia.
    - apply chop_round_le, Z.div_le_upper_bound; nia. }
  split; [|done]. unfold dec_Quo, big_Quo. rewrite bool_decide_eq_false_2 by nia. cbn [mbind option_bind]. rewrite Hq.
  apply assert_Some. split; [done|]. assert (P < 2 ^ 315) by (vm_compute; done). lia.
Qed.

Lemma continuous_loop_spec s cs :
  0 <= s <= P -> sorted_coins cs -> positive cs -> valid_denoms cs -> fits cs -> Forall (fun c => Amount c * P < 2 ^ 315) cs ->
  exists v, continuous_loop s cs = Some v /\ Denom <$> v = Denom <$> cs /\
    forall d, amount v d = chopPrecisionAndRound (amount cs d * s).
Proof.
  intros Hs Hsort. pose proof P_pos as HP. induction Hsort as [|c cs Hsort IH Hc]; intros Hp Hv Hf Hb.
  { exists []. split; [done|]. split; [done|]. intros d. simpl. symmetry. apply (chop_round_whole 0). }
  apply Forall_cons in Hp as [Hpc Hp]. apply Forall_cons in Hv as [Hvc Hv]. apply Forall_cons in Hf as [Hfc Hf].
  apply Forall_cons in Hb as [Hbc Hb]. destruct (IH Hp Hv Hf Hb) as (v & Hcl & Hd & Ha). cbn [continuous_loop].
  rewrite NewDecFromInt_whole by lia. cbn [mbind option_bind].
  unfold dec_Mul. replace (Amount c * P * s) with (Amount c * s * P) by lia. rewrite chop_round_whole.
  rewrite (proj2 (assert_Some (Amount c * s) (Amount c * s))) by (split; [done|nia]). simpl.
  assert (Hr : 0 <= chopPrecisionAndRound (Amount c * s) <= Amount c).
  { split; [apply chop_round_ge|apply chop_round_le]; nia. }
  unfold dec_RoundInt. rewrite BitLen_le. apply bool_decide_eq_true in Hfc. rewrite bool_decide_eq_false_2 by lia. simpl.
  rewrite NewCoin_some by (done || lia). simpl. rewrite Hcl. simpl. eexists. split; [done|].
  rewrite !fmap_cons, Hd. split; [done|]. intros d. rewrite !amount_cons. simpl. rewrite Ha. by case_bool_decide.
Qed.

Lemma same_denoms_sorted v cs : Denom <$> v = Denom <$> cs -> sorted_coins cs -> sorted_coins v.
Proof.
  revert v. induction cs as [|c cs IH]; intros [|x v] Hd Hs; try done. rewrite !fmap_cons in Hd. injection Hd as Hx Hd.
  apply StronglySorted_inv in Hs as [Hs Hc]. constructor; [by apply IH|].
  assert (Hc' : Forall (denom_lt (Denom c)) (Denom <$> cs)) by by apply Forall_fmap.
  rewrite <- Hd, <- Hx in Hc'. rewrite Forall_fmap in Hc'. exact Hc'.
Qed.

Lemma same_denoms_valid v cs : Denom <$> v = Denom <$> cs -> valid_denoms cs -> valid_denoms v.
Proof.
  intros Hd Hv. assert (Hc : Forall (fun d => ValidateDenom d = true) (Denom <$> cs)) by by apply Forall_fmap.
  rewrite <- Hd in Hc. rewrite Forall_fmap in Hc. exact Hc.
Qed.

(** ** Periodic schedules *)
Fixpoint vested_sum (t cur : Z) (periods : list Period) (d : string) : Z :=
  match periods with
  | [] => 0
  | p :: periods => if bool_decide (t - cur < Length p) then 0 else amount (PeriodAmount p) d + vested_sum t (cur + Length p) periods d
  end.

Lemma total_nonneg periods d : Forall period_ok periods -> 0 <= total periods d.
Proof.
  induction 1 as [|p periods [(_ & Hp & _) _] _ IH]; simpl; [done|]. pose proof (amount_nonneg _ d Hp). lia.
Qed.

Lemma lengths_nonneg periods : Forall period_ok periods -> 0 <= lengths periods.
Proof. induction 1 as [|p periods [_ Hl] _ IH]; simpl; lia. Qed.

Lemma vested_sum_bounds t cur periods d : Forall period_ok periods -> 0 <= vested_sum t cur periods d <= total periods d.
Proof.
  intros Hp. revert cur. induction Hp as [|p periods [(_ & Hpos & _) _] Hps IH]; intros cur; simpl; [lia|].
  pose proof (amount_nonneg _ d Hpos). pose proof (total_nonneg periods d Hps). specialize (IH (cur + Length p)).
  case_bool_decide; lia.
Qed.

Lemma vested_sum_mono t t' cur periods d :
  Forall period_ok periods -> t <= t' -> vested_sum t cur periods d <= vested_sum t' cur periods d.
Proof.
  intros Hp Ht. revert cur. induction Hp as [|p periods [(_ & Hpos & _) _] Hps IH]; intros cur; simpl; [lia|].
  pose proof (amount_nonneg _ d Hpos). specialize (IH (cur + Length p)).
  pose proof (vested_sum_bounds t' (cur + Length p) periods d Hps). repeat case_bool_decide; lia.
Qed.

Lemma periodic_loop_spec t cur acc periods :
  0 <= t < 2 ^ 63 -> 0 <= cur -> cur + lengths periods < 2 ^ 63 -> Forall period_ok periods -> coins_ok acc ->
  (forall d, amount acc d + total periods d < 2 ^ 255) ->
  exists v, periodic_loop t cur acc periods = Some v /\ coins_ok v /\ forall d, amount v d = amount acc d + vested_sum t cur periods d.
Proof.
  intros Ht Hcur Hl Hp. revert cur acc Hcur Hl.
  induction Hp as [|p periods [Hpc Hpl] Hps IH]; intros cur acc Hcur Hl Hacc Hb; simpl in *.
  { exists acc. split; [done|]. split; [done|]. intros d. lia. }
  pose proof (lengths_nonneg periods Hps) as Hln. rewrite wrap64_id by lia. case_bool_decide as Hx.
  { exists acc. split; [done|]. split; [done|]. intros d. lia. }
  destruct (coins_Add_some acc (PeriodAmount p)) as (s & Hs & Hsok & Hsd); [done|done| |].
  { intros d. specialize (Hb d). pose proof (total_nonneg periods d Hps). lia. }
  rewrite Hs. simpl. rewrite wrap64_id by lia.
  destruct (IH (cur + Length p) s) as (v & Hv & Hvok & Hvd); [lia|lia|done| |].
  { intros d. rewrite Hsd. specialize (Hb d). lia. }
  exists v. split; [done|]. split; [done|]. intros d. rewrite Hvd, Hsd. lia.
Qed.

(** ** All schedules *)

(** The amount of [d] vested at time [t]. *)
Definition vested (va : VestingAccount) (t : Z) (d : string) : Z :=
  let o := amount (OriginalVesting (va_base va)) d in
  match va with
  | ContinuousVestingAccount bva start =>
      if bool_decide (t <= start) then 0
      else if bool_decide (EndTime bva <= t) then o
      else chopPrecisionAndRound (o * chopPrecisionAndRound ((t - start) * P * P / (EndTime bva - start)))
  | PeriodicVestingAccount bva start periods =>
      if bool_decide (t <= start) then 0 else if bool_decide (EndTime bva <= t) then o else vested_sum t start periods d
  | DelayedVestingAccount bva => if bool_decide (EndTime bva <= t) then o else 0
  | PermanentLockedAccount _ => 0
  end.

Lemma bva_fits bva : bva_ok bva -> fits (OriginalVesting bva).
Proof.
  intros ((Hs & Hp & _) & Hb & _). apply fits_of_amounts; [done|]. intros d. apply int_fits_nonneg.
  pose proof (amount_nonneg _ d Hp). specialize (Hb d). lia.
Qed.

Lemma GetVestedCoins_spec va t :
  va_ok va -> 0 <= t < 2 ^ 63 ->
  exists v, GetVestedCoins va t = Some v /\ sorted_coins v /\ valid_denoms v /\ forall d, amount v d = vested va t d.
Proof.
  intros [Hbva Hva] Ht. pose proof P_pos as HP. pose proof Hbva as ((Hs & Hp & Hv) & Hsmall & _ & _ & Hend).
  assert (Hnil : sorted_coins [] /\ valid_denoms []) by (split; constructor).
  destruct va as [bva start|bva start periods|bva|bva]; simpl in *.
  - unfold continuous_GetVestedCoins. destruct Hva as [Hst Hdec].
    case_bool_decide; [exists []; split; [done|]; by destruct Hnil|].
    case_bool_decide; [exists (OriginalVesting bva); done|]. rewrite !NewDec_whole. cbn [mbind option_bind].
    rewrite !wrap64_id by lia. destruct (continuous_scalar (t - start) (EndTime bva - start)) as [-> Hsc]; [lia|lia|]. simpl.
    destruct (continuous_loop_spec _ (OriginalVesting bva) Hsc) as (v & Hcl & Hd & Ha); [done|done|done|by apply bva_fits| |].
    { apply Forall_forall. intros c Hc. rewrite <- (amount_In _ c Hs Hc). apply Hdec. }
    exists v. split; [done|]. split; [by eapply same_denoms_sorted|]. split; [by eapply same_denoms_valid|]. done.
  - unfold periodic_GetVestedCoins. destruct Hva as (Hst & Hper & Hlen & Htot).
    case_bool_decide; [exists []; split; [done|]; by destruct Hnil|].
    case_bool_decide; [exists (OriginalVesting bva); done|].
    destruct (periodic_loop_spec t start [] periods) as (v & Hl & (Hvs & _ & Hvv) & Hd); [done|lia|lia|done| | |].
    { split_and!; constructor. }
    { intros d. simpl. rewrite Htot. apply Hsmall. }
    exists v. split; [done|]. split; [done|]. split; [done|]. exact Hd.
  - eexists. split; [done|]. case_bool_decide; [done|]. by destruct Hnil.
  - exists []. split; [done|]. by destruct Hnil.
Qed.

Lemma vested_bounds va t d : va_ok va -> 0 <= t < 2 ^ 63 -> 0 <= vested va t d <= amount (OriginalVesting (va_base va)) d.
Proof.
  intros [Hbva Hva] Ht. pose proof P_pos as HP. pose proof Hbva as ((Hs & Hp & Hv) & Hsmall & _ & _ & Hend).
  pose proof (amount_nonneg _ d Hp) as Hn.
  destruct va as [bva start|bva start periods|bva|bva]; simpl in *; repeat case_bool_decide; try lia.
  - destruct (continuous_scalar (t - start) (EndTime bva - start)) as [_ Hsc]; [lia|lia|].
    set (s := chopPrecisionAndRound _) in *. split.
    + apply chop_round_ge. nia.
    + apply chop_round_le. nia.
  - destruct Hva as (_ & Hper & _ & Htot). rewrite <- Htot. by apply vested_sum_bounds.
Qed.

Lemma GetVestingCoins_spec va t :
  va_ok va -> 0 <= t < 2 ^ 63 ->
  exists w, GetVestingCoins va t = Some w /\ coins_ok w /\
    forall d, amount w d = amount (OriginalVesting (va_base va)) d - vested va t d.
Proof.
  intros Hok Ht. destruct (GetVestedCoins_spec va t Hok Ht) as (v & Hv & Hvs & Hvv & Hd).
  pose proof Hok as [(Ho & Hsmall & _) _].
  assert (Hsub : exists w, coins_Sub (OriginalVesting (va_base va)) v = Some w /\ coins_ok w /\
      forall d, amount w d = amount (OriginalVesting (va_base va)) d - vested va t d).
  { destruct (coins_Sub_some (OriginalVesting (va_base va)) v) as (w & Hw & Hwok & Hwd); [done| |done|done| |].
    - intros d. specialize (Hsmall d). lia.
    - intros d. rewrite Hd. by apply vested_bounds.
    - exists w. split; [done|]. split; [done|]. intros d. by rewrite Hwd, Hd. }
  destruct va; [cbv beta iota delta [GetVestingCoins]; rewrite Hv; exact Hsub..|].
  exists (OriginalVesting bva). split; [done|]. split; [done|]. intros d. simpl. lia.
Qed.

(** What a schedule promises of the amount [x] of [d] vested at time [t]. *)
Definition schedule_at (va : VestingAccount) (t : Z) (d : string) (x : Z) : Prop :=
  let o := amount (OriginalVesting (va_base va)) d in
  let stop := EndTime (va_base va) in
  match va with
  | ContinuousVestingAccount _ start =>
      (t <= start -> x = 0) /\ (stop <= t -> x = o) /\
      (start < t < stop -> 2 * P * Z.abs (x * (stop - start) - o * (t - start)) <= (P + 2 * o) * (stop - start))
  | PeriodicVestingAccount _ start periods =>
      (t < start -> x = 0) /\
      (start <= t -> exists n, (n <= length periods)%nat /\ start + lengths (take n periods) <= t /\
         ((n < length periods)%nat -> t < start + lengths (take (S n) periods)) /\ x = total (take n periods) d)
  | DelayedVestingAccount _ => (t < stop -> x = 0) /\ (stop <= t -> x = o)
  | PermanentLockedAccount _ => x = 0
  end.

(** A proportion [n / m] of [o], computed with two roundings to the nearest and
    a division rounded down. *)
Lemma proportion_error o n m :
  0 <= o -> 0 < n <= m ->
  let x := chopPrecisionAndRound (o * chopPrecisionAndRound (n * P * P / m)) in
  2 * P * Z.abs (x * m - o * n) <= (P + 2 * o) * m.
Proof.
  intros Ho Hn x. subst x. pose proof P_pos as HP. assert (HP2 : 2 <= P) by (vm_compute; discriminate).
  pose proof (Z.div_mod (n * P * P) m ltac:(lia)) as Hdm. pose proof (Z.mod_pos_bound (n * P * P) m ltac:(lia)) as Hmod.
  set (q := n * P * P / m) in *. set (rm := (n * P * P) mod m) in *. clearbody rm.
  destruct (chop_round_spec q) as [Hs _]. set (s := chopPrecisionAndRound q) in *.
  destruct (chop_round_spec (o * s)) as [Hx _]. set (x := chopPrecisionAndRound (o * s)) in *. clearbody x s q.
  assert (Hsm : 2 * Z.abs (s * m - n * P) <= 2 * m).
  { assert (H : P * (2 * Z.abs (s * m - n * P)) <= P * (2 * m)); [|nia].
    replace (P * (2 * Z.abs (s * m - n * P))) with (2 * Z.abs ((s * P - q) * m - rm)); [nia|].
    replace ((s * P - q) * m - rm) with (P * (s * m - n * P)) by nia. rewrite Z.abs_mul, (Z.abs_eq P) by lia. nia. }
  replace (2 * P * Z.abs (x * m - o * n)) with (2 * Z.abs ((x * P - o * s) * m + o * (s * m - n * P))); [nia|].
  replace ((x * P - o * s) * m + o * (s * m - n * P)) with (P * (x * m - o * n)) by ring.
  rewrite Z.abs_mul, (Z.abs_eq P) by lia. ring.
Qed.

Lemma vested_sum_elapsed t cur periods d :
  Forall period_ok periods -> cur <= t ->
  exists n, (n <= length periods)%nat /\ cur + lengths (take n periods) <= t /\
    ((n < length periods)%nat -> t < cur + lengths (take (S n) periods)) /\ vested_sum t cur periods d = total (take n periods) d.
Proof.
  intros Hp. revert cur. induction Hp as [|p periods [_ Hl] Hps IH]; intros cur Hc.
  { exists 0%nat. simpl. split_and!; lia. }
  cbn [vested_sum]. case_bool_decide as Ht.
  { exists 0%nat. cbn. rewrite take_0. cbn. split_and!; lia. }
  destruct (IH (cur + Length p)) as (n & Hn & Hle & Hlt & ->); [lia|]. exists (S n). cbn [length take lengths total].
  split_and!; [lia|lia| |done]. intros Hn'. specialize (Hlt ltac:(lia)). destruct periods; cbn in *; lia.
Qed.

Lemma lengths_take n periods : Forall period_ok periods -> lengths (take n periods) <= lengths periods.
Proof.
  intros Hp. revert n. induction Hp as [|p periods [_ Hl] Hps IH]; intros [|n]; cbn; [lia|lia| |specialize (IH n); lia].
  pose proof (lengths_nonneg _ Hps). lia.
Qed.

Lemma vested_schedule va t d : va_ok va -> schedule_at va t d (vested va t d).
Proof.
  intros [Hbva Hva]. pose proof Hbva as ((Hs & Hp & Hv) & _). pose proof (amount_nonneg _ d Hp) as Hn.
  destruct va as [bva start|bva start periods|bva|bva]; simpl in *.
  - destruct Hva as [Hst _]. repeat case_bool_decide; split_and!; try lia. intros _. apply proportion_error; lia.
  - destruct Hva as (Hst & Hper & Hlen & Htot). case_bool_decide as Hts.
    { split; [done|]. intros Hge. exists 0%nat. rewrite take_0. cbn. split_and!; [lia|lia| |done].
      destruct Hper as [|p periods [_ Hl] _]; cbn; [lia|]. rewrite take_0. cbn. lia. }
    split; [lia|]. intros _. destruct (vested_sum_elapsed t start periods d Hper) as (n & Hnl & Hle & Hlt & Hsum); [lia|].
    case_bool_decide as Hend; [|by exists n]. exists (length periods). rewrite firstn_all. split_and!; [lia|lia|lia|done].
  - case_bool_decide; lia.
  - done.
Qed.

(** Vesting never goes back, for the rounding of continuous schedules too. *)
Lemma vested_mono va t t' d : va_ok va -> 0 <= t <= t' -> t' < 2 ^ 63 -> vested va t d <= vested va t' d.
Proof.
  intros Hok Ht Ht'. pose proof P_pos as HP. pose proof (vested_bounds va t d Hok) as Hb. pose proof (vested_bounds va t' d Hok) as Hb'.
  destruct Hok as [((Ho & Hp & Hdn) & _) Hva]. pose proof (amount_nonneg _ d Hp) as Hn.
  destruct va as [bva start|bva start periods|bva|bva]; simpl in *.
  - repeat case_bool_decide; try lia. apply chop_round_mono, Z.mul_le_mono_nonneg_l; [done|].
    apply chop_round_mono, Z.div_le_mono; nia.
  - repeat case_bool_decide; try lia. apply vested_sum_mono; [tauto|lia].
  - repeat case_bool_decide; lia.
  - lia.
Qed.

(** C37. On well-formed vesting accounts of every kind no schedule operation
    panics, and the vested coins are those of the schedule ([schedule_at]):
    nothing before the end and everything from it on for delayed accounts,
    nothing ever for permanently locked ones, the amounts of the periods elapsed
    for periodic ones, and for continuous ones the elapsed share of the time, to
    the nearest unit and one part in 10^18, with nothing at the start and
    everything at the end. Vested coins stay vested at later times; the vesting
    coins are the rest of the original ones, and the locked coins are the vesting
    ones beyond those delegated while vesting. *)
Theorem vesting_schedule va t :
  va_ok va -> 0 <= t < 2 ^ 63 ->
  exists v w l, GetVestedCoins va t = Some v /\ GetVestingCoins va t = Some w /\ va_LockedCoins va t = Some l /\
    coins_ok w /\ coins_ok l /\
    (forall d, schedule_at va t d (amount v d) /\
       amount v d + amount w d = amount (OriginalVesting (va_base va)) d /\
       amount l d = (amount w d - amount (DelegatedVesting (va_base va)) d) `max` 0) /\
    forall t', t <= t' < 2 ^ 63 -> exists v', GetVestedCoins va t' = Some v' /\ forall d, amount v d <= amount v' d.
Proof.
  intros Hok Ht. destruct (GetVestedCoins_spec va t Hok Ht) as (v & Hv & _ & _ & Hvd).
  destruct (GetVestingCoins_spec va t Hok Ht) as (w & Hw & Hwok & Hwd). pose proof Hok as [(Ho & Hsmall & _ & HDV & _) _].
  destruct (coins_Min_some w (DelegatedVesting (va_base va)) Hwok HDV) as (m & Hm & Hmok & Hmd).
  pose proof (proj1 (proj2 Hwok)) as Hwp. pose proof (proj1 (proj2 HDV)) as HDVp.
  assert (Hwle : forall d, 0 <= amount w d < 2 ^ 255).
  { intros d. pose proof (amount_nonneg w d Hwp). pose proof (vested_bounds va t d Hok Ht). specialize (Hsmall d). rewrite Hwd. lia. }
  destruct (coins_Sub_some w m) as (l & Hl & Hlok & Hld); [done| |apply Hmok|apply Hmok| |].
  { intros d. specialize (Hwle d). lia. }
  { intros d. rewrite Hmd. pose proof (amount_nonneg _ d HDVp). specialize (Hwle d). lia. }
  exists v, w, l. split; [done|]. split; [done|]. unfold va_LockedCoins, LockedCoinsFromVesting.
  rewrite Hw. simpl. rewrite Hm. simpl. split; [done|]. split; [done|]. split; [done|]. split.
  - intros d. rewrite Hvd. split; [by apply vested_schedule|]. rewrite Hld, Hmd. pose proof (Hwd d) as Hwd'. lia.
  - intros t' Ht'. destruct (GetVestedCoins_spec va t' Hok) as (v' & Hv' & _ & _ & Hvd'); [lia|].
    exists v'. split; [done|]. intros d. rewrite Hvd, Hvd'. apply vested_mono; [done|lia|lia].
Qed.

(** ** Delegations *)
Lemma AmountOf_some cs d : ValidateDenom d = true -> coins_AmountOf cs d = Some (amount cs d).
Proof. intros Hd. unfold coins_AmountOf. by rewrite Hd. Qed.

(** The sets after adding a single coin, or nothing when it is zero. *)
Lemma add_coin cs dn z :
  coins_ok cs -> ValidateDenom dn = true -> 0 <= z -> (forall d, amount cs d + (if bool_decide (dn = d) then z else 0) < 2 ^ 256) ->
  exists s, (if bool_decide (z = 0) then Some cs else c ← NewCoin dn z; coins_Add cs [c]) = Some s /\ coins_ok s /\
    forall d, amount s d = amount cs d + if bool_decide (dn = d) then z else 0.
Proof.
  intros Hok Hv Hz Hb. case_bool_decide as H0.
  { exists cs. split; [done|]. split; [done|]. intros d. case_bool_decide; lia. }
  rewrite NewCoin_some by done. simpl. destruct (coins_Add_some cs [mkCoin dn z]) as (s & Hs & Hsok & Hsd); [done|apply coin_ok; [done|lia]| |].
  { intros d. rewrite amount_singleton. apply Hb. }
  exists s. split; [done|]. split; [done|]. intros d. by rewrite Hsd, amount_singleton.
Qed.

Lemma sub_coin cs dn z :
  coins_ok cs -> (forall d, amount cs d < 2 ^ 256) -> ValidateDenom dn = true -> 0 <= z <= amount cs dn ->
  exists s, (if bool_decide (z = 0) then Some cs else c ← NewCoin dn z; coins_Sub cs [c]) = Some s /\ coins_ok s /\
    forall d, amount s d = amount cs d - if bool_decide (dn = d) then z else 0.
Proof.
  intros Hok Hb Hv Hz. case_bool_decide as H0.
  { exists cs. split; [done|]. split; [done|]. intros d. case_bool_decide; lia. }
  rewrite NewCoin_some by (done || lia). simpl.
  destruct (coins_Sub_some cs [mkCoin dn z]) as (s & Hs & Hsok & Hsd); [done|done|by repeat constructor|by repeat constructor| |].
  { intros d. rewrite amount_singleton. pose proof (amount_nonneg cs d (proj1 (proj2 Hok))). case_bool_decide; [subst d|]; lia. }
  exists s. split; [done|]. split; [done|]. intros d. by rewrite Hsd, amount_singleton.
Qed.

(** Delegated coins that cannot overflow. *)
Definition delegated_ok (bva : BaseVestingAccount) : Prop := coins_ok (DelegatedFree bva) /\ coins_ok (DelegatedVesting bva).
Definition delegated (bva : BaseVestingAccount) (d : string) : Z := amount (DelegatedFree bva) d + amount (DelegatedVesting bva) d.

Lemma upd_vesting bva (b : bool) (o : option Coin) (op : Coins -> Coin -> option Coins) :
  (if b then Some bva else c ← o; set_DelegatedVesting bva <$> op (DelegatedVesting bva) c) =
  set_DelegatedVesting bva <$> (if b then Some (DelegatedVesting bva) else c ← o; op (DelegatedVesting bva) c).
Proof. destruct b; [by destruct bva|by destruct o]. Qed.
Lemma upd_free bva (b : bool) (o : option Coin) (op : Coins -> Coin -> option Coins) :
  (if b then Some bva else c ← o; set_DelegatedFree bva <$> op (DelegatedFree bva) c) =
  set_DelegatedFree bva <$> (if b then Some (DelegatedFree bva) else c ← o; op (DelegatedFree bva) c).
Proof. destruct b; [by destruct bva|by destruct o]. Qed.

Lemma MinInt_min a b : MinInt a b = a `min` b.
Proof. unfold MinInt. case_bool_decide; lia. Qed.
Lemma MaxInt_max a b : MaxInt a b = a `max` b.
Proof. unfold MaxInt. case_bool_decide; lia. Qed.

Lemma int_sub_some a b : int_fits (a - b) = true -> int_sub a b = Some (a - b).
Proof. intros Hf. by rewrite int_sub_spec, Hf. Qed.

(** One coin of [TrackDelegation]. *)
Lemma track_delegation_coin_spec balance vesting bva c :
  ValidateDenom (Denom c) = true -> 0 < Amount c -> 0 <= amount vesting (Denom c) < 2 ^ 256 -> delegated_ok bva ->
  (forall d, delegated bva d + (if bool_decide (Denom c = d) then Amount c else 0) < 2 ^ 256) ->
  if bool_decide (amount balance (Denom c) < Amount c) then track_delegation_coin balance vesting bva c = None
  else exists bva', track_delegation_coin balance vesting bva c = Some bva' /\ delegated_ok bva' /\
    OriginalVesting bva' = OriginalVesting bva /\
    let x := ((amount vesting (Denom c) - amount (DelegatedVesting bva) (Denom c)) `max` 0) `min` Amount c in
    forall d, amount (DelegatedVesting bva') d = amount (DelegatedVesting bva) d + (if bool_decide (Denom c = d) then x else 0) /\
      amount (DelegatedFree bva') d = amount (DelegatedFree bva) d + (if bool_decide (Denom c = d) then Amount c - x else 0).
Proof.
  intros Hv Hc Hvest [HF HV] Hb. unfold track_delegation_coin. rewrite !AmountOf_some by done. simpl.
  unfold coin_IsZero. rewrite (bool_decide_eq_false_2 (Amount c = 0)) by lia. simpl.
  assert (Hnn : forall d, 0 <= amount (DelegatedVesting bva) d /\ 0 <= amount (DelegatedFree bva) d).
  { intros d. split; apply amount_nonneg; [apply HV|apply HF]. }
  case_bool_decide; [done|]. pose proof (Hnn (Denom c)) as [H1 H2]. pose proof (Hb (Denom c)) as Hbc. unfold delegated in Hb, Hbc.
  rewrite bool_decide_eq_true_2 in Hbc by done.
  rewrite int_sub_some by (apply bool_decide_eq_true; lia). simpl. rewrite MaxInt_max, MinInt_min.
  set (x := (_ `max` 0) `min` Amount c). assert (Hx : 0 <= x <= Amount c) by lia.
  rewrite int_sub_some by (apply bool_decide_eq_true; lia). simpl.
  rewrite (upd_vesting bva _ _ (fun cs c => coins_Add cs [c])).
  destruct (add_coin (DelegatedVesting bva) (Denom c) x) as (s & -> & Hs & Hsd); [done|done|lia| |].
  { intros d. specialize (Hb d). specialize (Hnn d). case_bool_decide; lia. }
  simpl. rewrite (upd_free (set_DelegatedVesting bva s) _ _ (fun cs c => coins_Add cs [c])). simpl.
  destruct (add_coin (DelegatedFree bva) (Denom c) (Amount c - x)) as (s' & -> & Hs' & Hsd'); [done|done|lia| |].
  { intros d. specialize (Hb d). specialize (Hnn d). case_bool_decide; lia. }
  simpl. eexists. split; [done|]. split; [done|]. split; [done|]. intros d. by rewrite Hsd, Hsd'.
Qed.

Lemma fold_None {A B} (f : A -> B -> option A) (l : list B) : fold_left (fun acc b => a ← acc; f a b) l None = None.
Proof. by induction l. Qed.

Lemma base_TrackDelegation_spec balance vesting amt bva :
  coins_ok amt -> coins_ok vesting -> (forall d, amount vesting d < 2 ^ 256) -> delegated_ok bva ->
  (forall d, delegated bva d + amount amt d < 2 ^ 256) ->
  match base_TrackDelegation bva balance vesting amt with
  | None => exists d, amount balance d < amount amt d
  | Some bva' => delegated_ok bva' /\ OriginalVesting bva' = OriginalVesting bva /\
      forall d, (0 < amount amt d -> amount amt d <= amount balance d) /\
        let x := ((amount vesting d - amount (DelegatedVesting bva) d) `max` 0) `min` amount amt d in
        amount (DelegatedVesting bva') d = amount (DelegatedVesting bva) d + x /\
        amount (DelegatedFree bva') d = amount (DelegatedFree bva) d + (amount amt d - x)
  end.
Proof.
  intros (Hs & Hp & Hv) Hvest Hvb. unfold base_TrackDelegation. revert bva.
  induction Hs as [|c amt Hs IH Hc]; intros bva Hok Hb.
  { simpl. split; [done|]. split; [done|]. intros d. lia. }
  apply Forall_cons in Hp as [Hpc Hp]. apply Forall_cons in Hv as [Hvc Hv]. simpl in Hpc.
  assert (Htail0 : amount amt (Denom c) = 0) by by apply amount_below.
  assert (Hsplit : forall d, amount (c :: amt) d = amount amt d + if bool_decide (Denom c = d) then Amount c else 0).
  { intros d. simpl. case_bool_decide; [subst d|]; lia. }
  assert (Hnn : forall d, 0 <= amount amt d) by (intros d; by apply amount_nonneg).
  pose proof (track_delegation_coin_spec balance vesting bva c Hvc Hpc) as Hstep. cbn [fold_left mbind option_bind].
  case_bool_decide as Hbal.
  - rewrite Hstep; [|split; [apply amount_nonneg, Hvest|apply Hvb]|done|].
    + rewrite fold_None. exists (Denom c). rewrite Hsplit, bool_decide_eq_true_2 by done. lia.
    + intros d. specialize (Hb d). rewrite Hsplit in Hb. specialize (Hnn d). lia.
  - destruct Hstep as (bva1 & Heq & Hok1 & Ho1 & Hd1); [split; [apply amount_nonneg, Hvest|apply Hvb]|done| |].
    { intros d. specialize (Hb d). rewrite Hsplit in Hb. specialize (Hnn d). lia. }
    rewrite Heq. cbv zeta in Hd1. specialize (IH Hp Hv bva1 Hok1).
    assert (Hb1 : forall d, delegated bva1 d + amount amt d < 2 ^ 256).
    { intros d. specialize (Hb d). rewrite Hsplit in Hb. unfold delegated in *. specialize (Hd1 d) as [-> ->]. case_bool_decide; lia. }
    specialize (IH Hb1). destruct (fold_left _ amt (Some bva1)) as [bva'|].
    + destruct IH as (Hok' & Ho' & Hd'). split; [done|]. split; [congruence|]. intros d. specialize (Hd' d). cbv zeta in *.
      specialize (Hd1 d) as [E1 E2]. destruct Hd' as (Hle & E3 & E4). rewrite Hsplit, E3, E4, E1, E2.
      case_bool_decide; [subst d; rewrite Htail0|]; split; lia.
    + destruct IH as [d Hd]. exists d. rewrite Hsplit. case_bool_decide; lia.
Qed.

(** [TrackDelegation] of a valid amount panics only when the balance is short in
    some denomination; otherwise, per denomination, as much of the delegation as
    possible counts as vesting coins not yet delegated and the rest as free ones. *)
Theorem TrackDelegation_splits va t balance amt :
  va_ok va -> 0 <= t < 2 ^ 63 -> coins_ok amt -> (forall d, delegated (va_base va) d + amount amt d < 2 ^ 256) ->
  match va_TrackDelegation va t balance amt with
  | None => exists d, amount balance d < amount amt d
  | Some va' => forall d,
      let vesting := amount (OriginalVesting (va_base va)) d - vested va t d in
      let x := ((vesting - amount (DelegatedVesting (va_base va)) d) `max` 0) `min` amount amt d in
      amount (DelegatedVesting (va_base va')) d = amount (DelegatedVesting (va_base va)) d + x /\
      amount (DelegatedFree (va_base va')) d = amount (DelegatedFree (va_base va)) d + (amount amt d - x)
  end.
Proof.
  intros Hok Ht Hamt Hb. destruct (GetVestingCoins_spec va t Hok Ht) as (w & Hw & Hwok & Hwd).
  pose proof Hok as [(_ & Hsmall & HF & HV & _) _]. unfold va_TrackDelegation. rewrite Hw. cbn [mbind option_bind].
  pose proof (base_TrackDelegation_spec balance w amt (va_base va) Hamt Hwok) as Hspec.
  destruct (base_TrackDelegation _ _ _ _) as [bva'|]; simpl; [|apply Hspec; [|done|done]].
  - destruct Hspec as (_ & _ & Hd); [|done|done|].
    { intros d. rewrite Hwd. pose proof (vested_bounds va t d Hok Ht). specialize (Hsmall d). lia. }
    intros d. specialize (Hd d). rewrite Hwd in Hd. assert (Hbase : va_base (va_set_base va bva') = bva') by by destruct va.
    rewrite Hbase. exact (proj2 Hd).
  - intros d. rewrite Hwd. pose proof (vested_bounds va t d Hok Ht). specialize (Hsmall d). lia.
Qed.

(** One coin of [TrackUndelegation]. *)
Lemma track_undelegation_coin_spec bva c :
  ValidateDenom (Denom c) = true -> 0 < Amount c < 2 ^ 256 -> delegated_ok bva -> (forall d, delegated bva d < 2 ^ 256) ->
  exists bva', track_undelegation_coin bva c = Some bva' /\ delegated_ok bva' /\
    let x := amount (DelegatedFree bva) (Denom c) `min` Amount c in
    let y := amount (DelegatedVesting bva) (Denom c) `min` (Amount c - x) in
    forall d, amount (DelegatedFree bva') d = amount (DelegatedFree bva) d - (if bool_decide (Denom c = d) then x else 0) /\
      amount (DelegatedVesting bva') d = amount (DelegatedVesting bva) d - (if bool_decide (Denom c = d) then y else 0).
Proof.
  intros Hv Hc [HF HV] Hb. unfold track_undelegation_coin, coin_IsZero. rewrite (bool_decide_eq_false_2 (Amount c = 0)) by lia.
  rewrite !AmountOf_some by done. cbn [mbind option_bind].
  assert (Hnn : forall d, 0 <= amount (DelegatedVesting bva) d /\ 0 <= amount (DelegatedFree bva) d).
  { intros d. split; apply amount_nonneg; [apply HV|apply HF]. }
  pose proof (Hnn (Denom c)) as [H1 H2]. unfold delegated in Hb. pose proof (Hb (Denom c)) as Hbc. rewrite !MinInt_min.
  set (x := amount (DelegatedFree bva) (Denom c) `min` Amount c). assert (Hx : 0 <= x <= Amount c) by lia.
  rewrite int_sub_some by (apply bool_decide_eq_true; lia). cbn [mbind option_bind]. rewrite MinInt_min.
  set (y := amount (DelegatedVesting bva) (Denom c) `min` (Amount c - x)).
  rewrite (upd_free bva _ _ (fun cs c => coins_Sub cs [c])).
  destruct (sub_coin (DelegatedFree bva) (Denom c) x) as (s & -> & Hs & Hsd); [done| |done|lia|].
  { intros d. specialize (Hb d). specialize (Hnn d). lia. }
  simpl. rewrite (upd_vesting (set_DelegatedFree bva s) _ _ (fun cs c => coins_Sub cs [c])). simpl.
  destruct (sub_coin (DelegatedVesting bva) (Denom c) y) as (s' & -> & Hs' & Hsd'); [done| |done|lia|].
  { intros d. specialize (Hb d). specialize (Hnn d). lia. }
  simpl. eexists. split; [done|]. split; [done|]. intros d. by rewrite Hsd, Hsd'.
Qed.

(** [TrackUndelegation] of a valid amount never panics: per denomination it takes
    from the free delegations first and then from the vesting ones, and never more
    than was delegated. *)
Theorem TrackUndelegation_free_first va amt :
  delegated_ok (va_base va) -> (forall d, delegated (va_base va) d < 2 ^ 256) -> coins_ok amt -> fits amt ->
  exists va', va_TrackUndelegation va amt = Some va' /\ delegated_ok (va_base va') /\
    forall d, let x := amount (DelegatedFree (va_base va)) d `min` amount amt d in
      amount (DelegatedFree (va_base va')) d = amount (DelegatedFree (va_base va)) d - x /\
      amount (DelegatedVesting (va_base va')) d =
        amount (DelegatedVesting (va_base va)) d - amount (DelegatedVesting (va_base va)) d `min` (amount amt d - x).
Proof.
  intros Hok Hb (Hs & Hp & Hv) Hf. unfold va_TrackUndelegation.
  assert (Hloop : exists bva', base_TrackUndelegation (va_base va) amt = Some bva' /\ delegated_ok bva' /\
    forall d, let x := amount (DelegatedFree (va_base va)) d `min` amount amt d in
      amount (DelegatedFree bva') d = amount (DelegatedFree (va_base va)) d - x /\
      amount (DelegatedVesting bva') d =
        amount (DelegatedVesting (va_base va)) d - amount (DelegatedVesting (va_base va)) d `min` (amount amt d - x)).
  2: { destruct Hloop as (bva' & -> & H1 & H2). exists (va_set_base va bva'). split; [done|].
       assert (Hbase : va_base (va_set_base va bva') = bva') by by destruct va. by rewrite Hbase. }
  unfold base_TrackUndelegation. generalize dependent (va_base va). clear va.
  induction Hs as [|c amt Hs IH Hc]; intros bva Hok Hb.
  { exists bva. split; [done|]. split; [done|]. intros d. pose proof (amount_nonneg _ d (proj1 (proj2 (proj1 Hok)))).
    pose proof (amount_nonneg _ d (proj1 (proj2 (proj2 Hok)))). simpl. lia. }
  apply Forall_cons in Hp as [Hpc Hp]. apply Forall_cons in Hv as [Hvc Hv]. apply Forall_cons in Hf as [Hfc Hf].
  apply bool_decide_eq_true in Hfc. simpl in Hpc.
  destruct (track_undelegation_coin_spec bva c) as (bva1 & Heq & Hok1 & Hd1); [done|lia|done|done|].
  assert (Hnn : forall d, 0 <= amount (DelegatedFree bva) d /\ 0 <= amount (DelegatedVesting bva) d).
  { intros d. split; apply amount_nonneg; apply Hok. }
  cbv zeta in Hd1. cbn [fold_left mbind option_bind]. rewrite Heq. destruct (IH Hp Hv Hf bva1 Hok1) as (bva' & Hf' & Hok' & Hd').
  { intros d. unfold delegated in *. specialize (Hd1 d) as [-> ->]. specialize (Hb d). pose proof (Hnn d). pose proof (Hnn (Denom c)).
    case_bool_decide; lia. }
  exists bva'. split; [done|]. split; [done|]. intros d. specialize (Hd' d). cbv zeta in *. specialize (Hd1 d) as [E1 E2].
  destruct Hd' as [E3 E4]. rewrite E3, E4, E1, E2. simpl. pose proof (Hnn d).
  case_bool_decide; [subst d; rewrite (amount_below amt) by done|]; lia.
Qed.


(** ** Witnesses *)

(** 100 usei that vest continuously over 10 seconds, with 5 delegated while vesting. *)
Definition ex_vesting : VestingAccount :=
  ContinuousVestingAccount (mkBVA [mkCoin "usei" 100] [] [mkCoin "usei" 5] 20) 10.

Lemma ex_vesting_ok : va_ok ex_vesting.
Proof.
  assert (Hd : forall d, amount [mkCoin "usei" 100] d <= 100) by (intros d; rewrite amount_singleton; case_bool_decide; lia).
  split; [|split; [simpl; lia|intros d; specialize (Hd d); simpl in *; eapply Z.le_lt_trans; [apply Z.mul_le_mono_nonneg_r; [by vm_compute|exact Hd]|vm_compute; reflexivity]]].
  split; [by apply coins_Validate_spec|]. split; [intros d; specialize (Hd d); simpl in *; lia|].
  split; [by apply coins_Validate_spec|]. split; [by apply coins_Validate_spec|]. done.
Qed.

Lemma vesting_schedule_witness : exists l, va_LockedCoins ex_vesting 13 = Some l /\ amount l "usei" = 65.
Proof.
  destruct (vesting_schedule ex_vesting 13) as (v & w & l & Hv & Hw & Hl & _ & _ & Hd & _); [exact ex_vesting_ok|done|].
  exists l. split; [done|]. destruct (Hd "usei"%string) as (_ & _ & ->). vm_compute in Hw. by injection Hw as <-.
Defined.

Lemma TrackDelegation_splits_witness : exists va', va_TrackDelegation ex_vesting 13 [mkCoin "usei" 100] [mkCoin "usei" 90] = Some va' /\
  amount (DelegatedVesting (va_base va')) "usei" = 70 /\ amount (DelegatedFree (va_base va')) "usei" = 25.
Proof.
  assert (Hsmall : forall d, delegated (va_base ex_vesting) d + amount [mkCoin "usei" 90] d < 2 ^ 256).
  { intros d. unfold delegated. cbn [va_base ex_vesting DelegatedFree DelegatedVesting]. rewrite !amount_singleton.
    change (amount [] d) with 0. case_bool_decide; lia. }
  pose proof (TrackDelegation_splits ex_vesting 13 [mkCoin "usei" 100] [mkCoin "usei" 90] ex_vesting_ok ltac:(lia)
    ltac:(by apply coins_Validate_spec) Hsmall) as H.
  destruct (va_TrackDelegation ex_vesting 13 [mkCoin "usei" 100] [mkCoin "usei" 90]) as [va'|] eqn:Hrun; [|by vm_compute in Hrun].
  exists va'. split; [reflexivity|]. destruct (H "usei"%string) as [H1 H2].
  split; [etransitivity; [exact H1|]|etransitivity; [exact H2|]]; vm_compute; reflexivity.
Defined.

Lemma TrackUndelegation_free_first_witness : exists va', va_TrackUndelegation ex_vesting [mkCoin "usei" 3] = Some va' /\
  amount (DelegatedVesting (va_base va')) "usei" = 2.
Proof.
  destruct (TrackUndelegation_free_first ex_vesting [mkCoin "usei" 3]) as (va' & Hrun & _ & Hd).
  - split; by apply coins_Validate_spec.
  - intros d. unfold delegated. cbn [va_base ex_vesting DelegatedFree DelegatedVesting]. rewrite amount_singleton.
    change (amount [] d) with 0. case_bool_decide; lia.
  - by apply coins_Validate_spec.
  - by repeat constructor.
  - exists va'. split; [exact Hrun|]. destruct (Hd "usei"%string) as [_ H2]. etransitivity; [exact H2|]. vm_compute. reflexivity.
Defined.
