(* ===== verification/Bank.v ===== *)
(** The bank module: [sei-cosmos/x/bank/keeper] ([view.go], [send.go], [keeper.go],
    [deferred_cache.go], [invariants.go], [genesis.go]) and the part of the account
    keeper it calls ([x/auth/keeper/keeper.go], [account.go]).

    The stores are maps: balances by account and denomination, wei balances by account,
    supply by denomination and deferred balances by module account, transaction index
    and denomination, as the store keys spell them out.  An operation is a transformer
    of that state that may panic ([None]) or return an error ([inr]) with the state it
    has changed so far; the caller of a failed transaction drops that state. *)
From stdpp Require Import base gmap sets list strings sorting.
From Stdlib Require Import ZArith Lia.
From S2P Require Import Prelude Coins Vesting.
Local Open Scope Z_scope.

(** ** State *)
Inductive account :=
| BaseAccount (AccountNumber : Z)
| VestingAcc (va : VestingAccount)
| ModuleAccount (AccountNumber : Z) (Name : string) (Permissions : list string).

Inductive bank_event :=
| CoinSpent (spender : AccAddress) (amt : Coins)
| CoinReceived (receiver : AccAddress) (amt : Coins)
| WeiSpent (spender : AccAddress) (amt : Z)
| WeiReceived (receiver : AccAddress) (amt : Z)
| Transfer (recipient : AccAddress) (sender : option AccAddress) (amt : Coins)
| WeiTransfer (recipient sender : AccAddress) (amt : Z)
| Message (sender : AccAddress)
| CoinMint (minter : AccAddress) (amt : Coins)
| CoinBurn (burner : AccAddress) (amt : Coins).

Record bank := mkBank {
  b_balances : gmap (AccAddress * string) Z;
  b_wei : gmap AccAddress Z;
  b_supply : gmap string Z;
  b_deferred : gmap (AccAddress * Z * string) Z;
  b_accounts : gmap AccAddress account;
  b_accountNumber : Z;
  b_events : list bank_event
}.

Inductive bank_error :=
| ErrInvalidCoins | ErrInsufficientFunds | ErrInvalidRecipient | ErrUnknownAddress | ErrUnauthorized
| ErrInputOutputMismatch | ErrInvalidAddress | ErrNegativeTxIndex | ErrMintRestricted.

(** What the keeper is built with, and the block the context is of.  [be_bech32] is
    [AccAddress.String]. *)
Record bank_env := mkEnv {
  be_blockTime : Z;
  be_txIndex : Z;
  be_baseDenom : string;
  be_permAddrs : string -> option (AccAddress * list string);
  be_blockedAddrs : gset AccAddress;
  be_recipientCheckers : list (bank -> AccAddress -> bool);
  be_mintCoinsRestriction : Coins -> option bank_error;
  be_bech32 : AccAddress -> bytes
}.

(** ** Operations *)
Definition BM (A : Type) : Type := bank -> option (bank * (A + bank_error)).
#[export] Instance BM_ret : MRet BM := fun A a b => Some (b, inl a).
#[export] Instance BM_bind : MBind BM := fun A B f m b =>
  match m b with
  | None => None
  | Some (b, inr e) => Some (b, inr e)
  | Some (b, inl a) => f a b
  end.

Definition fail_with {A} (e : bank_error) : BM A := fun b => Some (b, inr e).
Definition panics {A} : BM A := fun _ => None.
Definition or_panic {A} (o : option A) : BM A := fun b => match o with None => None | Some a => Some (b, inl a) end.
Definition reads {A} (f : bank -> A) : BM A := fun b => Some (b, inl (f b)).
Definition updates (f : bank -> bank) : BM () := fun b => Some (f b, inl tt).
Definition require (c : bool) (e : bank_error) : BM () := if c then mret tt else fail_with e.

Fixpoint for_each {A} (f : A -> BM ()) (l : list A) : BM () :=
  match l with [] => mret tt | x :: l => _ ← f x; for_each f l end.

Definition set_balances b m := mkBank m (b_wei b) (b_supply b) (b_deferred b) (b_accounts b) (b_accountNumber b) (b_events b).
Definition set_wei b m := mkBank (b_balances b) m (b_supply b) (b_deferred b) (b_accounts b) (b_accountNumber b) (b_events b).
Definition set_supply b m := mkBank (b_balances b) (b_wei b) m (b_deferred b) (b_accounts b) (b_accountNumber b) (b_events b).
Definition set_deferred b m := mkBank (b_balances b) (b_wei b) (b_supply b) m (b_accounts b) (b_accountNumber b) (b_events b).
Definition set_accounts b m n := mkBank (b_balances b) (b_wei b) (b_supply b) (b_deferred b) m n (b_events b).
Definition set_events b l := mkBank (b_balances b) (b_wei b) (b_supply b) (b_deferred b) (b_accounts b) (b_accountNumber b) l.
Definition EmitEvents (evs : list bank_event) : BM () := updates (fun b => set_events b (b_events b ++ evs)).

(** Entries of a store in the order of its keys. *)
Definition key_le {K A} (key : K -> bytes) (x y : K * A) : Prop := key x.1 <=b key y.1.
#[export] Instance key_le_dec {K A} (key : K -> bytes) : RelDecision (key_le (A := A) key).
Proof. intros x y. unfold key_le. apply _. Defined.
Definition iterate {K A} (key : K -> bytes) (l : list (K * A)) : list (K * A) := merge_sort (key_le key) l.

Definition length_prefix (addr : AccAddress) : bytes := Z.of_nat (length addr) :: addr.
Definition balance_key (k : AccAddress * string) : bytes := length_prefix k.1 ++ string_bytes k.2.
Definition big_endian64 (v : Z) : bytes := (fun i => Z.shiftr v (8 * i) mod 256) <$> [7; 6; 5; 4; 3; 2; 1; 0].
Definition deferred_key (k : AccAddress * Z * string) : bytes :=
  length_prefix k.1.1 ++ big_endian64 k.1.2 ++ string_bytes k.2.

Section Bank.
Context (env : bank_env).

(** ** Accounts: [x/auth/keeper] *)
Definition GetAccount (addr : AccAddress) : BM (option account) := reads (fun b => b_accounts b !! addr).
Definition HasAccount (addr : AccAddress) : BM bool := reads (fun b => bool_decide (is_Some (b_accounts b !! addr))).
Definition SetAccount (addr : AccAddress) (acc : account) : BM () :=
  updates (fun b => set_accounts b (<[addr := acc]> (b_accounts b)) (b_accountNumber b)).
Definition GetNextAccountNumber : BM Z := fun b =>
  Some (set_accounts b (b_accounts b) ((b_accountNumber b + 1) mod 2 ^ 64), inl (b_accountNumber b)).
Definition NewAccountWithAddress (addr : AccAddress) : BM account :=
  n ← GetNextAccountNumber; mret (BaseAccount n).

(** The address and the permissions of a module account, created when missing. *)
Definition GetModuleAccount (moduleName : string) : BM (option (AccAddress * list string)) :=
  match be_permAddrs env moduleName with
  | None => mret None
  | Some (addr, perms) =>
      acc ← GetAccount addr;
      match acc with
      | Some (ModuleAccount _ _ granted) => mret (Some (addr, granted))
      | Some _ => panics
      | None =>
          n ← GetNextAccountNumber;
          _ ← SetAccount addr (ModuleAccount n moduleName perms);
          mret (Some (addr, perms))
      end
  end.
Definition HasPermission (acc : AccAddress * list string) (perm : string) : bool := bool_decide (perm ∈ acc.2).

Definition create_if_missing (addr : AccAddress) : BM () :=
  accExists ← HasAccount addr;
  if (accExists : bool) then mret tt else acc ← NewAccountWithAddress addr; SetAccount addr acc.

(** ** [view.go] *)
Definition GetBalance (addr : AccAddress) (denom : string) : BM Coin :=
  stored ← reads (fun b => b_balances b !! (addr, denom));
  match stored with None => or_panic (NewCoin denom 0) | Some amt => mret (mkCoin denom amt) end.

Definition GetWeiBalance (addr : AccAddress) : BM Z := reads (fun b => default 0 (b_wei b !! addr)).

Definition HasBalance (addr : AccAddress) (amt : Coin) : BM bool :=
  balance ← GetBalance addr (Denom amt); or_panic (coin_IsGTE balance amt).

(** [IterateAccountBalances] and [IterateAllBalances]. *)
Definition account_balances (b : bank) (addr : AccAddress) : Coins :=
  (fun kv => mkCoin kv.1.2 kv.2) <$> iterate balance_key (filter (fun kv => kv.1.1 = addr) (map_to_list (b_balances b))).
Definition all_balances (b : bank) : list (AccAddress * Coin) :=
  (fun kv => (kv.1.1, mkCoin kv.1.2 kv.2)) <$> iterate balance_key (map_to_list (b_balances b)).

Definition GetAllBalances (addr : AccAddress) : BM Coins := reads (fun b => coins_Sort (account_balances b addr)).

Definition LockedCoins (addr : AccAddress) : BM Coins :=
  acc ← GetAccount addr;
  match acc with
  | Some (VestingAcc va) => or_panic (va_LockedCoins va (be_blockTime env))
  | _ => mret []
  end.

Definition SpendableCoins (addr : AccAddress) : BM Coins :=
  total ← GetAllBalances addr;
  locked ← LockedCoins addr;
  '(spendable, hasNeg) ← or_panic (coins_SafeSub total locked);
  mret (if (hasNeg : bool) then [] else spendable).

Definition ValidateBalance (addr : AccAddress) : BM () :=
  acc ← GetAccount addr;
  match acc with
  | None => fail_with ErrUnknownAddress
  | Some acc =>
      balances ← GetAllBalances addr;
      _ ← require (coins_Validate balances) ErrInvalidCoins;
      match acc with
      | VestingAcc va =>
          gt ← or_panic (coins_IsAnyGT (OriginalVesting (va_base va)) balances);
          require (negb gt) ErrInvalidCoins
      | _ => mret tt
      end
  end.

(** ** [send.go] *)
Definition OneUseiInWei : Z := 1000000000000.
Definition SplitUseiWeiAmount (amt : Z) : Z * Z := (Z.quot amt OneUseiInWei, amt mod OneUseiInWei).

Definition CanSendTo (recipient : AccAddress) : BM bool :=
  reads (fun b => forallb (fun rc => rc b recipient) (be_recipientCheckers env)).

Definition CoinbaseAddressPrefix : bytes := string_bytes "evm_coinbase".
Definition BlockedAddr (addr : AccAddress) : bool :=
  (bool_decide (length addr = length CoinbaseAddressPrefix + 8)%nat &&
   bool_decide (take (length CoinbaseAddressPrefix) addr = CoinbaseAddressPrefix))
  || bool_decide (addr ∈ be_blockedAddrs env).

Definition setBalance (addr : AccAddress) (balance : Coin) (checkNeg : bool) : BM () :=
  if checkNeg && negb (coin_Validate balance) then fail_with ErrInvalidCoins
  else if coin_IsZero balance then updates (fun b => set_balances b (delete (addr, Denom balance) (b_balances b)))
  else updates (fun b => set_balances b (<[(addr, Denom balance) := Amount balance]> (b_balances b))).

Definition setWeiBalance (addr : AccAddress) (amt : Z) : BM () :=
  if bool_decide (amt = 0) then updates (fun b => set_wei b (delete addr (b_wei b)))
  else updates (fun b => set_wei b (<[addr := amt]> (b_wei b))).

(** One coin of [SubUnlockedCoins]. *)
Definition sub_unlocked_coin (addr : AccAddress) (lockedCoins : Coins) (checkNeg : bool) (coin : Coin) : BM () :=
  balance ← GetBalance addr (Denom coin);
  _ ← (if checkNeg then
         amt ← or_panic (coins_AmountOf lockedCoins (Denom coin));
         locked ← or_panic (NewCoin (Denom coin) amt);
         spendable ← or_panic (coin_Sub balance locked);
         '(_, hasNeg) ← or_panic (coins_SafeSub [spendable] [coin]);
         require (negb hasNeg) ErrInsufficientFunds
       else mret tt);
  newBalance ← or_panic (if checkNeg then coin_Sub balance coin else coin_SubUnsafe balance coin);
  setBalance addr newBalance checkNeg.

Definition SubUnlockedCoins (addr : AccAddress) (amt : Coins) (checkNeg : bool) : BM () :=
  _ ← require (coins_Validate amt) ErrInvalidCoins;
  lockedCoins ← LockedCoins addr;
  _ ← for_each (sub_unlocked_coin addr lockedCoins checkNeg) amt;
  EmitEvents [CoinSpent addr amt].

Definition add_coin_to (addr : AccAddress) (checkNeg : bool) (coin : Coin) : BM () :=
  balance ← GetBalance addr (Denom coin);
  newBalance ← or_panic (coin_Add balance coin);
  setBalance addr newBalance checkNeg.

Definition AddCoins (addr : AccAddress) (amt : Coins) (checkNeg : bool) : BM () :=
  ok ← CanSendTo addr;
  _ ← require ok ErrInvalidRecipient;
  _ ← require (coins_Validate amt) ErrInvalidCoins;
  _ ← for_each (add_coin_to addr checkNeg) amt;
  EmitEvents [CoinReceived addr amt].

Definition sendCoinsWithoutAccCreation (fromAddr toAddr : AccAddress) (amt : Coins) (checkNeg : bool) : BM () :=
  _ ← SubUnlockedCoins fromAddr amt checkNeg;
  _ ← AddCoins toAddr amt checkNeg;
  EmitEvents [Transfer toAddr (Some fromAddr) amt; Message fromAddr].

Definition SendCoinsWithoutAccCreation (fromAddr toAddr : AccAddress) (amt : Coins) : BM () :=
  sendCoinsWithoutAccCreation fromAddr toAddr amt true.

Definition SendCoins (fromAddr toAddr : AccAddress) (amt : Coins) : BM () :=
  _ ← SendCoinsWithoutAccCreation fromAddr toAddr amt;
  create_if_missing toAddr.

Definition SubWei (addr : AccAddress) (amt : Z) : BM () :=
  if bool_decide (amt = 0) then mret tt
  else
    currentWeiBalance ← GetWeiBalance addr;
    _ ← (if bool_decide (amt <= currentWeiBalance) then
           post ← or_panic (int_sub currentWeiBalance amt); setWeiBalance addr post
         else
           currentUsei ← GetBalance addr (be_baseDenom env);
           scaled ← or_panic (int_mul (Amount currentUsei) OneUseiInWei);
           currentAggregatedBalance ← or_panic (int_add scaled currentWeiBalance);
           postAggregatedBalance ← or_panic (int_sub currentAggregatedBalance amt);
           _ ← require (negb (bool_decide (postAggregatedBalance < 0))) ErrInsufficientFunds;
           let '(useiBalance, weiBalance) := SplitUseiWeiAmount postAggregatedBalance in
           c ← or_panic (NewCoin (be_baseDenom env) useiBalance);
           _ ← setBalance addr c true;
           setWeiBalance addr weiBalance);
    EmitEvents [WeiSpent addr amt].

Definition AddWei (addr : AccAddress) (amt : Z) : BM () :=
  ok ← CanSendTo addr;
  _ ← require ok ErrInvalidRecipient;
  if bool_decide (amt = 0) then mret tt
  else
    currentWeiBalance ← GetWeiBalance addr;
    postWeiBalance ← or_panic (int_add currentWeiBalance amt);
    _ ← (if bool_decide (postWeiBalance < OneUseiInWei) then setWeiBalance addr postWeiBalance
         else
           currentUsei ← GetBalance addr (be_baseDenom env);
           let '(useiCredit, weiBalance) := SplitUseiWeiAmount postWeiBalance in
           useiBalance ← or_panic (int_add (Amount currentUsei) useiCredit);
           c ← or_panic (NewCoin (be_baseDenom env) useiBalance);
           _ ← setBalance addr c true;
           setWeiBalance addr weiBalance);
    EmitEvents [WeiReceived addr amt].

Definition SendCoinsAndWei (from to : AccAddress) (amt wei : Z) : BM () :=
  _ ← SubWei from wei;
  _ ← AddWei to wei;
  _ ← EmitEvents [WeiTransfer to from wei];
  if bool_decide (0 < amt) then
    c ← or_panic (NewCoin (be_baseDenom env) amt);
    coins ← or_panic (NewCoins [c]);
    SendCoinsWithoutAccCreation from to coins
  else mret tt.

(** Inputs and outputs of a multi-send; the address is [None] when it does not decode. *)
Definition io : Type := option AccAddress * Coins.
Definition io_ValidateBasic (x : io) : option bank_error :=
  if bool_decide (x.1 = None) then Some ErrInvalidAddress
  else if negb (coins_Validate x.2) then Some ErrInvalidCoins
  else if negb (coins_IsAllPositive x.2) then Some ErrInvalidCoins
  else None.

(** The loops of [ValidateInputsOutputs]; a panic of [Add] is [None]. *)
Fixpoint io_total (acc : Coins) (l : list io) : option (Coins + bank_error) :=
  match l with
  | [] => Some (inl acc)
  | x :: l =>
      match io_ValidateBasic x with
      | Some e => Some (inr e)
      | None => acc ← coins_Add acc x.2; io_total acc l
      end
  end.

Definition of_sum {A} (o : option (A + bank_error)) : BM A := fun b =>
  match o with None => None | Some (inl a) => Some (b, inl a) | Some (inr e) => Some (b, inr e) end.

Definition ValidateInputsOutputs (inputs outputs : list io) : BM () :=
  totalIn ← of_sum (io_total [] inputs);
  totalOut ← of_sum (io_total [] outputs);
  eq ← or_panic (coins_IsEqual totalIn totalOut);
  require eq ErrInputOutputMismatch.

Definition InputOutputCoins (inputs outputs : list io) : BM () :=
  _ ← ValidateInputsOutputs inputs outputs;
  _ ← for_each (fun x : io =>
        match x.1 with
        | None => fail_with ErrInvalidAddress
        | Some addr => _ ← SubUnlockedCoins addr x.2 true; EmitEvents [Message addr]
        end) inputs;
  for_each (fun x : io =>
    match x.1 with
    | None => fail_with ErrInvalidAddress
    | Some addr => _ ← AddCoins addr x.2 true; _ ← EmitEvents [Transfer addr None x.2]; create_if_missing addr
    end) outputs.

(** ** [keeper.go] *)
Definition GetSupply (denom : string) : BM Coin := reads (fun b => mkCoin denom (default 0 (b_supply b !! denom))).
Definition SetSupply (coin : Coin) : BM () :=
  updates (fun b => set_supply b
    (if coin_IsZero coin then delete (Denom coin) (b_supply b) else <[Denom coin := Amount coin]> (b_supply b))).

Definition trackDelegation (addr : AccAddress) (balance amt : Coins) : BM () :=
  acc ← GetAccount addr;
  match acc with
  | None => fail_with ErrUnknownAddress
  | Some (VestingAcc va) => va ← or_panic (va_TrackDelegation va (be_blockTime env) balance amt); SetAccount addr (VestingAcc va)
  | Some _ => mret tt
  end.

Definition trackUndelegation (addr : AccAddress) (amt : Coins) : BM () :=
  acc ← GetAccount addr;
  match acc with
  | None => fail_with ErrUnknownAddress
  | Some (VestingAcc va) => va ← or_panic (va_TrackUndelegation va amt); SetAccount addr (VestingAcc va)
  | Some _ => mret tt
  end.

(** The loop of [DelegateCoins], collecting the balances before the delegation. *)
Fixpoint delegate_loop (delegatorAddr : AccAddress) (balances amt : Coins) : BM Coins :=
  match amt with
  | [] => mret balances
  | coin :: amt =>
      balance ← GetBalance delegatorAddr (Denom coin);
      lt ← or_panic (coin_IsLT balance coin);
      if (lt : bool) then fail_with ErrInsufficientFunds
      else
        balances ← or_panic (coins_Add balances [balance]);
        newBalance ← or_panic (coin_Sub balance coin);
        _ ← setBalance delegatorAddr newBalance true;
        delegate_loop delegatorAddr balances amt
  end.

Definition DelegateCoins (delegatorAddr moduleAccAddr : AccAddress) (amt : Coins) : BM () :=
  moduleAcc ← GetAccount moduleAccAddr;
  _ ← require (bool_decide (is_Some moduleAcc)) ErrUnknownAddress;
  _ ← require (coins_Validate amt) ErrInvalidCoins;
  balances ← delegate_loop delegatorAddr [] amt;
  _ ← trackDelegation delegatorAddr balances amt;
  _ ← EmitEvents [CoinSpent delegatorAddr amt];
  AddCoins moduleAccAddr amt true.

Definition UndelegateCoins (moduleAccAddr delegatorAddr : AccAddress) (amt : Coins) : BM () :=
  moduleAcc ← GetAccount moduleAccAddr;
  _ ← require (bool_decide (is_Some moduleAcc)) ErrUnknownAddress;
  _ ← require (coins_Validate amt) ErrInvalidCoins;
  _ ← SubUnlockedCoins moduleAccAddr amt true;
  _ ← trackUndelegation delegatorAddr amt;
  AddCoins delegatorAddr amt true.

(** A module account must exist: [panic(... "module account %s does not exist")]. *)
Definition must_module (moduleName : string) : BM (AccAddress * list string) :=
  acc ← GetModuleAccount moduleName;
  match acc with None => panics | Some acc => mret acc end.

Definition module_address (moduleName : string) : BM AccAddress := or_panic (fst <$> be_permAddrs env moduleName).

Definition SendCoinsFromModuleToAccount (senderModule : string) (recipientAddr : AccAddress) (amt : Coins) : BM () :=
  senderAddr ← module_address senderModule;
  if BlockedAddr recipientAddr then fail_with ErrUnauthorized else SendCoins senderAddr recipientAddr amt.

Definition SendCoinsFromModuleToModule (senderModule recipientModule : string) (amt : Coins) : BM () :=
  senderAddr ← module_address senderModule;
  recipientAcc ← must_module recipientModule;
  if coins_IsZero amt then mret tt else SendCoins senderAddr recipientAcc.1 amt.

Definition SendCoinsFromAccountToModule (senderAddr : AccAddress) (recipientModule : string) (amt : Coins) : BM () :=
  recipientAcc ← must_module recipientModule;
  SendCoins senderAddr recipientAcc.1 amt.

Definition Staking : string := "staking".
Definition Minter : string := "minter".
Definition Burner : string := "burner".

Definition DelegateCoinsFromAccountToModule (senderAddr : AccAddress) (recipientModule : string) (amt : Coins) : BM () :=
  recipientAcc ← must_module recipientModule;
  if negb (HasPermission recipientAcc Staking) then panics else DelegateCoins senderAddr recipientAcc.1 amt.

Definition UndelegateCoinsFromModuleToAccount (senderModule : string) (recipientAddr : AccAddress) (amt : Coins) : BM () :=
  acc ← must_module senderModule;
  if negb (HasPermission acc Staking) then panics else UndelegateCoins acc.1 recipientAddr amt.

Definition createCoins (moduleName : string) (amounts : Coins) (addFn : BM ()) : BM () :=
  _ ← match be_mintCoinsRestriction env amounts with Some e => fail_with e | None => mret tt end;
  acc ← must_module moduleName;
  if negb (HasPermission acc Minter) then panics
  else
    _ ← addFn;
    _ ← for_each (fun amt => supply ← GetSupply (Denom amt); supply ← or_panic (coin_Add supply amt); SetSupply supply) amounts;
    EmitEvents [CoinMint acc.1 amounts].

Definition MintCoins (moduleName : string) (amounts : Coins) : BM () :=
  createCoins moduleName amounts (
    acc ← GetModuleAccount moduleName;
    match acc with None => fail_with ErrUnknownAddress | Some acc => AddCoins acc.1 amounts true end).

Definition destroyCoins (moduleName : string) (amounts : Coins) (subFn : BM ()) : BM () :=
  acc ← must_module moduleName;
  if negb (HasPermission acc Burner) then panics
  else
    _ ← subFn;
    _ ← for_each (fun amt => supply ← GetSupply (Denom amt); supply ← or_panic (coin_Sub supply amt); SetSupply supply) amounts;
    EmitEvents [CoinBurn acc.1 amounts].

Definition BurnCoins (moduleName : string) (amounts : Coins) : BM () :=
  destroyCoins moduleName amounts (
    acc ← GetModuleAccount moduleName;
    match acc with None => panics | Some acc => SubUnlockedCoins acc.1 amounts true end).

(** ** [deferred_cache.go] *)
Definition deferred_GetBalance (moduleAddr : AccAddress) (txIndex : Z) (denom : string) : BM Coin :=
  stored ← reads (fun b => b_deferred b !! (moduleAddr, txIndex, denom));
  match stored with None => or_panic (NewCoin denom 0) | Some amt => mret (mkCoin denom amt) end.

Definition deferred_setBalance (moduleAddr : AccAddress) (txIndex : Z) (balance : Coin) : BM () :=
  if negb (coin_Validate balance) then fail_with ErrInvalidCoins
  else if coin_IsZero balance then updates (fun b => set_deferred b (delete (moduleAddr, txIndex, Denom balance) (b_deferred b)))
  else updates (fun b => set_deferred b (<[(moduleAddr, txIndex, Denom balance) := Amount balance]> (b_deferred b))).

Definition upsertBalance (moduleAddr : AccAddress) (txIndex : Z) (balance : Coin) : BM () :=
  _ ← require (coin_Validate balance) ErrInvalidCoins;
  currBalance ← deferred_GetBalance moduleAddr txIndex (Denom balance);
  newBalance ← or_panic (coin_Add currBalance balance);
  deferred_setBalance moduleAddr txIndex newBalance.

Definition UpsertBalances (moduleAddr : AccAddress) (txIndex : Z) (balances : Coins) : BM () :=
  _ ← require (coins_Validate balances) ErrInvalidCoins;
  for_each (upsertBalance moduleAddr txIndex) balances.

(** [IterateDeferredBalances]. *)
Definition deferred_balances (b : bank) : list (AccAddress * Coin) :=
  (fun kv => (kv.1.1.1, mkCoin kv.1.2 kv.2)) <$> iterate deferred_key (map_to_list (b_deferred b)).

Definition DeferredSendCoinsFromAccountToModule (senderAddr : AccAddress) (recipientModule : string) (amt : Coins) : BM () :=
  _ ← SubUnlockedCoins senderAddr amt true;
  moduleAcc ← must_module recipientModule;
  _ ← require (negb (bool_decide (be_txIndex env < 0))) ErrNegativeTxIndex;
  UpsertBalances moduleAcc.1 (be_txIndex env) amt.

(** The totals per module account; the map and the list of modules of the source. *)
Fixpoint deferred_totals (totals : gmap AccAddress Coins) (moduleList : list AccAddress) (l : list (AccAddress * Coin)) :
    option (gmap AccAddress Coins * list AccAddress) :=
  match l with
  | [] => Some (totals, moduleList)
  | (moduleAddr, amt) :: l =>
      match totals !! moduleAddr with
      | None => c ← NewCoins [amt]; deferred_totals (<[moduleAddr := c]> totals) (moduleList ++ [moduleAddr]) l
      | Some currCoins => newCoins ← coins_Add currCoins [amt]; deferred_totals (<[moduleAddr := newCoins]> totals) moduleList l
      end
  end.

Definition bech32_le (x y : AccAddress) : Prop := be_bech32 env x <=b be_bech32 env y.
#[export] Instance bech32_le_dec : RelDecision bech32_le.
Proof. intros x y. unfold bech32_le. apply _. Defined.

(** An error of [AddCoins] becomes a panic. *)
Definition must {A} (m : BM A) : BM A := fun b => match m b with Some (b, inl a) => Some (b, inl a) | _ => None end.

(** The events go to an event manager of their own and are the result. *)
Definition WriteDeferredBalances : BM (list bank_event) := fun b =>
  match deferred_totals ∅ [] (deferred_balances b) with
  | None => None
  | Some (totals, moduleList) =>
      match for_each (fun addr => match totals !! addr with
                                  | None => panics
                                  | Some amt => must (AddCoins addr amt true)
                                  end) (merge_sort bech32_le moduleList) (set_events b []) with
      | Some (b', inl _) => Some (set_events (set_deferred b' ∅) (b_events b), inl (b_events b'))
      | _ => None
      end
  end.

(** ** [invariants.go] *)
Fixpoint add_all (acc : Coins) (l : Coins) : option Coins :=
  match l with [] => Some acc | c :: l => acc ← coins_Add acc [c]; add_all acc l end.
Fixpoint add_weis (acc : Z) (l : list Z) : option Z :=
  match l with [] => Some acc | w :: l => acc ← int_add acc w; add_weis acc l end.

Definition supply_entries (b : bank) : list (string * Z) := iterate string_bytes (map_to_list (b_supply b)).

(** [GetPaginatedTotalSupply]: the sum of the entries of a page. *)
Fixpoint page_supply (supply : Coins) (page : list (string * Z)) : option Coins :=
  match page with
  | [] => Some supply
  | (key, amt) :: page => c ← NewCoin key amt; supply ← coins_Add supply [c]; page_supply supply page
  end.

Definition supplyPageSize : nat := 1000.

(** [CollectAllTotalSupply]: page after page, until there is no next key. *)
Fixpoint collect_pages (fuel : nat) (totalSupply : Coins) (entries : list (string * Z)) : option Coins :=
  match fuel with
  | O => None
  | S fuel =>
      page ← page_supply [] (take supplyPageSize entries);
      totalSupply ← coins_Add totalSupply page;
      let rest := drop supplyPageSize entries in
      if bool_decide (rest = []) then Some totalSupply else collect_pages fuel totalSupply rest
  end.
Definition CollectAllTotalSupply (b : bank) : option Coins :=
  collect_pages (S (length (supply_entries b))) [] (supply_entries b).

(** Whether the invariant is broken. *)
Definition TotalSupply (b : bank) : option bool :=
  supply ← CollectAllTotalSupply b;
  expectedTotal ← add_all [] ((all_balances b).*2);
  expectedTotal ← add_all expectedTotal ((deferred_balances b).*2);
  weiTotal ← add_weis 0 ((iterate (fun a => a) (map_to_list (b_wei b))).*2);
  let '(weiInUsei, weiRemainder) := SplitUseiWeiAmount weiTotal in
  if bool_decide (weiRemainder <> 0) then Some true
  else
    c ← NewCoin (be_baseDenom env) weiInUsei;
    expectedTotal ← coins_Add expectedTotal [c];
    eq ← coins_IsEqual expectedTotal supply;
    Some (negb eq).
End Bank.
