(* ===== verification/BankSpec.v ===== *)
(** What the bank operations do to the value of accounts, to the total and to the
    supply: the abstract ledger behind the stores. *)
From stdpp Require Import base gmap sets list strings sorting fin_maps.
From Stdlib Require Import ZArith Lia.
From S2P Require Import Prelude Coins CoinsSpec Vesting Bank.
Local Open Scope Z_scope.

(** ** Sums over stores *)
Section Sums.
Context {K : Type} `{Countable K}.
Implicit Types (m : gmap K Z) (f : K -> bool).

(** The sum of the values whose key satisfies [f]. *)
Definition sum_by f m : Z := map_fold (fun k z acc => (if f k then z else 0) + acc) 0 m.

(** Writing a value, with zero values removed as the stores do. *)
Definition put (k : K) (z : Z) m : gmap K Z := if bool_decide (z = 0) then delete k m else <[k := z]> m.
Definition val m (k : K) : Z := default 0 (m !! k).

Lemma sum_insert_None f m k z : m !! k = None -> sum_by f (<[k := z]> m) = (if f k then z else 0) + sum_by f m.
Proof. intros Hk. unfold sum_by. rewrite map_fold_insert_L; [done|intros; lia|done]. Qed.

Lemma sum_delete f m k : sum_by f (delete k m) = sum_by f m - if f k then val m k else 0.
Proof.
  unfold val. destruct (m !! k) as [v|] eqn:Hk; simpl; [|rewrite delete_id by done; destruct (f k); lia].
  assert (Hm : m = <[k := v]> (delete k m)) by by rewrite insert_delete_id.
  rewrite Hm at 2. rewrite sum_insert_None by apply lookup_delete_eq. lia.
Qed.

Lemma sum_insert f m k z : sum_by f (<[k := z]> m) = sum_by f m + if f k then z - val m k else 0.
Proof.
  rewrite <- insert_delete_eq, sum_insert_None, sum_delete by apply lookup_delete_eq. destruct (f k); lia.
Qed.

Lemma sum_put f m k z : sum_by f (put k z m) = sum_by f m + if f k then z - val m k else 0.
Proof. unfold put. case_bool_decide as Hz; [rewrite sum_delete; destruct (f k); lia|apply sum_insert]. Qed.

Lemma val_put m k z k' : val (put k z m) k' = if bool_decide (k = k') then z else val m k'.
Proof.
  unfold val, put. case_bool_decide as Hz; case_bool_decide as Hk; subst.
  - by rewrite lookup_delete_eq.
  - by rewrite lookup_delete_ne.
  - by rewrite lookup_insert_eq.
  - by rewrite lookup_insert_ne.
Qed.

Lemma put_forall (Q : K -> Z -> Prop) m k z :
  (forall k' v, m !! k' = Some v -> Q k' v) -> (z <> 0 -> Q k z) -> forall k' v, put k z m !! k' = Some v -> Q k' v.
Proof.
  intros Hm Hz k' v. unfold put. case_bool_decide as H0.
  - intros [_ Hv]%lookup_delete_Some. by apply Hm.
  - intros [[<- <-]|[_ Hv]]%lookup_insert_Some; auto.
Qed.

Lemma sum_empty f : sum_by f ∅ = 0.
Proof. done. Qed.

Lemma sum_nonneg f m : (forall k v, m !! k = Some v -> 0 < v) -> 0 <= sum_by f m.
Proof.
  induction m as [|k v m Hk IH] using map_ind; intros Hm; [done|]. rewrite sum_insert_None by done.
  pose proof (Hm k v (lookup_insert_eq _ _ _)). assert (0 <= sum_by f m); [|destruct (f k); lia].
  apply IH. intros k' v' Hv. apply (Hm k'). rewrite lookup_insert_ne; [done|]. intros ->. congruence.
Qed.

Lemma val_le_sum f m k : (forall k v, m !! k = Some v -> 0 < v) -> f k = true -> val m k <= sum_by f m.
Proof.
  intros Hm Hf. pose proof (sum_delete f m k) as Hd. rewrite Hf in Hd.
  assert (0 <= sum_by f (delete k m)) by (apply sum_nonneg; intros k' v [_ Hv]%lookup_delete_Some; by eapply Hm). lia.
Qed.
End Sums.

Section Ledger.
Context (env : bank_env).
Implicit Types b : bank.
Abbreviation U := OneUseiInWei.
Abbreviation base := (be_baseDenom env).

(** Positive amounts of valid denominations, and less than one usei of wei. *)
Definition amount_ok (d : string) (z : Z) : Prop := 0 < z < 2 ^ 256 /\ ValidateDenom d = true.
Record bank_wf b : Prop := {
  wf_balances : forall k z, b_balances b !! k = Some z -> amount_ok k.2 z;
  wf_wei : forall k z, b_wei b !! k = Some z -> 0 < z < U;
  wf_supply : forall d z, b_supply b !! d = Some z -> amount_ok d z;
  wf_deferred : forall k z, b_deferred b !! k = Some z -> amount_ok k.2 z
}.

(** The value of an account in a denomination, in wei units; the deferred amount; the
    total over all accounts; the supply. *)
Definition value b (x : AccAddress) (d : string) : Z :=
  val (b_balances b) (x, d) * U + if bool_decide (base = d) then val (b_wei b) x else 0.
Definition deferred_total b (d : string) : Z := sum_by (fun k : AccAddress * Z * string => bool_decide (k.2 = d)) (b_deferred b) * U.
Definition total b (d : string) : Z :=
  sum_by (fun k : AccAddress * string => bool_decide (k.2 = d)) (b_balances b) * U +
  (if bool_decide (base = d) then sum_by (fun _ => true) (b_wei b) else 0).
Definition supply b (d : string) : Z := val (b_supply b) d.

(** A change of the ledger: of accounts, of their total, of the deferred amounts and of
    the supply. *)
Record change := mkChange {
  ch_value : AccAddress -> string -> Z;
  ch_total : string -> Z;
  ch_deferred : string -> Z;
  ch_supply : string -> Z
}.
Definition no_change : change := mkChange (fun _ _ => 0) (fun _ => 0) (fun _ => 0) (fun _ => 0).
Definition both (c c' : change) : change :=
  mkChange (fun x d => ch_value c x d + ch_value c' x d) (fun d => ch_total c d + ch_total c' d)
    (fun d => ch_deferred c d + ch_deferred c' d) (fun d => ch_supply c d + ch_supply c' d).
Definition same_change (c c' : change) : Prop :=
  (forall x d, ch_value c x d = ch_value c' x d) /\ (forall d, ch_total c d = ch_total c' d) /\
  (forall d, ch_deferred c d = ch_deferred c' d) /\ (forall d, ch_supply c d = ch_supply c' d).

Definition changes (c : change) b b' : Prop :=
  bank_wf b' /\ (forall x d, value b' x d = value b x d + ch_value c x d) /\
  (forall d, total b' d = total b d + ch_total c d) /\
  (forall d, deferred_total b' d = deferred_total b d + ch_deferred c d) /\
  forall d, supply b' d = supply b d + ch_supply c d.

Lemma changes_same c c' b b' : same_change c c' -> changes c b b' -> changes c' b b'.
Proof.
  intros (H1 & H2 & H3 & H4) (Hwf' & V & T & D & S). split; [done|]. split; [intros x d; by rewrite V, H1|].
  split; [intros d; by rewrite T, H2|]. split; [intros d; by rewrite D, H3|]. intros d. by rewrite S, H4.
Qed.

Lemma changes_trans c c' b b1 b' : changes c b b1 -> changes c' b1 b' -> changes (both c c') b b'.
Proof.
  intros (_ & V1 & T1 & D1 & S1) (Hwf & V2 & T2 & D2 & S2). split; [done|]. simpl. split; [intros y d; rewrite V2, V1; lia|].
  split; [intros d; rewrite T2, T1; lia|]. split; intros d; [rewrite D2, D1|rewrite S2, S1]; lia.
Qed.

(** When the operation returns without an error, it has made the change [c]. *)
Definition effect {A} (m : BM A) (c : change) : Prop :=
  forall b b' a, bank_wf b -> m b = Some (b', inl a) -> changes c b b'.

Lemma effect_bind {A B} (m : BM A) (f : A -> BM B) c c' :
  effect m c -> (forall a, effect (f a) c') -> effect (m ≫= f) (both c c').
Proof.
  intros Hm Hf b b' x Hwf. unfold mbind, BM_bind. destruct (m b) as [[b1 [a|e]]|] eqn:H1; [|done|done]. intros H2.
  pose proof (Hm b b1 a Hwf H1) as C1. eapply changes_trans; [exact C1|]. by apply (Hf a b1 b' x); [apply C1|].
Qed.

Lemma effect_same {A} (m : BM A) c c' : same_change c c' -> effect m c -> effect m c'.
Proof. intros Hs Hm b b' a Hwf Hb. eapply changes_same; [exact Hs|]. by eapply Hm. Qed.

Lemma both_no_l c : same_change (both no_change c) c.
Proof. by repeat split. Qed.

(** Steps that leave the ledger alone come first or last in a method. *)
Lemma effect_skip {A B} (m : BM A) (f : A -> BM B) c :
  effect m no_change -> (forall a, effect (f a) c) -> effect (m ≫= f) c.
Proof. intros Hm Hf. eapply effect_same; [apply both_no_l|]. by apply effect_bind. Qed.

Lemma changes_refl b : bank_wf b -> changes no_change b b.
Proof. intros Hwf. split; [done|]. simpl. repeat split; intros; lia. Qed.

Lemma effect_ret {A} (a : A) : effect (mret a) no_change.
Proof. intros b b' x Hwf [= <- _]. by apply changes_refl. Qed.
Lemma effect_fail {A} e c : effect (fail_with e : BM A) c.
Proof. by intros b b' a _ [=]. Qed.
Lemma effect_panics {A} c : effect (panics : BM A) c.
Proof. by intros b b' a _ [=]. Qed.
Lemma effect_or_panic {A} (o : option A) : effect (or_panic o) no_change.
Proof. intros b b' a Hwf. unfold or_panic. destruct o; [|done]. intros [= <- _]. by apply changes_refl. Qed.
Lemma effect_reads {A} (f : bank -> A) : effect (reads f) no_change.
Proof. intros b b' x Hwf [= <- _]. by apply changes_refl. Qed.
Lemma effect_require c e : effect (require c e) no_change.
Proof. unfold require. destruct c; [apply effect_ret|apply effect_fail]. Qed.

Lemma changes_other b b' :
  b_balances b' = b_balances b -> b_wei b' = b_wei b -> b_supply b' = b_supply b -> b_deferred b' = b_deferred b ->
  bank_wf b -> changes no_change b b'.
Proof.
  intros H1 H2 H3 H4 Hwf. split; [destruct Hwf; split; rewrite ?H1, ?H2, ?H3, ?H4; done|].
  unfold value, total, deferred_total, supply. rewrite H1, H2, H3, H4. simpl. repeat split; intros; lia.
Qed.

Lemma effect_events evs : effect (EmitEvents evs) no_change.
Proof. intros b b' a Hwf [= <- _]. by apply changes_other. Qed.
Lemma effect_SetAccount x acc : effect (SetAccount x acc) no_change.
Proof. intros b b' a Hwf [= <- _]. by apply changes_other. Qed.
Lemma effect_next_number : effect GetNextAccountNumber no_change.
Proof. intros b b' a Hwf [= <- _]. by apply changes_other. Qed.

Create HintDb bankdb.
#[local] Hint Resolve effect_ret effect_fail effect_panics effect_or_panic effect_reads effect_require effect_events
  effect_SetAccount effect_next_number : bankdb.

(** Walk through a method whose steps leave the ledger alone. *)
Ltac quiet := repeat first [solve [eauto with bankdb] | apply effect_skip; [solve [quiet]|intros ?] | case_match].

Lemma effect_GetAccount x : effect (GetAccount x) no_change.
Proof. apply effect_reads. Qed.
Lemma effect_create x : effect (create_if_missing x) no_change.
Proof. unfold create_if_missing, HasAccount, NewAccountWithAddress. quiet. Qed.
#[local] Hint Resolve effect_GetAccount effect_create : bankdb.
Lemma effect_module name : effect (GetModuleAccount env name) no_change.
Proof. unfold GetModuleAccount. quiet. Qed.
#[local] Hint Resolve effect_module : bankdb.
Lemma effect_must_module name : effect (must_module env name) no_change.
Proof. unfold must_module. quiet. Qed.
Lemma effect_module_address name : effect (module_address env name) no_change.
Proof. unfold module_address. quiet. Qed.
Lemma effect_LockedCoins x : effect (LockedCoins env x) no_change.
Proof. unfold LockedCoins. quiet. Qed.
Lemma effect_CanSendTo x : effect (CanSendTo env x) no_change.
Proof. apply effect_reads. Qed.
Lemma effect_trackDelegation x bal amt : effect (trackDelegation env x bal amt) no_change.
Proof. unfold trackDelegation. quiet. Qed.
Lemma effect_trackUndelegation x amt : effect (trackUndelegation x amt) no_change.
Proof. unfold trackUndelegation. quiet. Qed.
#[local] Hint Resolve effect_must_module effect_module_address effect_LockedCoins effect_CanSendTo effect_trackDelegation
  effect_trackUndelegation : bankdb.

(** ** Single coins *)

(** The change that adds [z] wei units of denomination [d] to account [x]. *)
Definition credit_value (x : AccAddress) (d : string) (z : Z) : AccAddress -> string -> Z :=
  fun y d' => if bool_decide (x = y) && bool_decide (d = d') then z else 0.
Definition credit (x : AccAddress) (d : string) (z : Z) : change :=
  mkChange (credit_value x d z) (fun d' => if bool_decide (d = d') then z else 0) (fun _ => 0) (fun _ => 0).

Lemma setBalance_run x c neg b b' u :
  setBalance x c neg b = Some (b', inl u) -> b' = set_balances b (put (x, Denom c) (Amount c) (b_balances b)) /\
  (neg = true -> coin_Validate c = true).
Proof.
  unfold setBalance, put, coin_IsZero. destruct neg, (coin_Validate c); simpl; try done; case_bool_decide; by intros [= <-].
Qed.

Lemma GetBalance_run x d b r :
  GetBalance x d b = Some r -> r = (b, inl (mkCoin d (val (b_balances b) (x, d)))).
Proof.
  unfold GetBalance, val, mbind, BM_bind, reads, or_panic, NewCoin. simpl.
  destruct (b_balances b !! (x, d)) as [z|]; simpl; [by intros [= <-]|]. destruct (coin_Validate _); [|done]. by intros [= <-].
Qed.

(** Writing the balance of an account: its value changes by the difference. *)
Lemma changes_balance b x d z :
  bank_wf b -> 0 <= z < 2 ^ 256 -> ValidateDenom d = true ->
  changes (credit x d ((z - val (b_balances b) (x, d)) * U)) b (set_balances b (put (x, d) z (b_balances b))).
Proof.
  intros Hwf Hz Hd. split.
  { destruct Hwf. split; simpl; try done. apply put_forall; [done|]. intros Hn. split; [lia|done]. }
  unfold value, total, deferred_total, supply. simpl. split; [|split; [|split; intros; lia]].
  - intros y d'. rewrite val_put. unfold credit_value. destruct (decide (x = y)) as [<-|Hxy]; [destruct (decide (d = d')) as [<-|Hdd]|].
    + rewrite !(bool_decide_eq_true_2 _ eq_refl). simpl. lia.
    + rewrite (bool_decide_eq_false_2 ((x, d) = (x, d'))), (bool_decide_eq_false_2 (d = d')) by congruence. rewrite andb_false_r. lia.
    + rewrite (bool_decide_eq_false_2 ((x, d) = (y, d'))), (bool_decide_eq_false_2 (x = y)) by congruence. simpl. lia.
  - intros d'. rewrite sum_put. simpl. case_bool_decide; lia.
Qed.

Lemma wf_val b x d : bank_wf b -> 0 <= val (b_balances b) (x, d) < 2 ^ 256.
Proof.
  intros Hwf. unfold val. destruct (b_balances b !! (x, d)) as [z|] eqn:Hz; simpl; [|lia].
  destruct (wf_balances b Hwf _ _ Hz). lia.
Qed.

(** Evaluate the first step of a method in a run that returned. *)
Lemma bind_run {A B} (m : BM A) (f : A -> BM B) b b' x :
  (m ≫= f) b = Some (b', inl x) -> exists b1 a, m b = Some (b1, inl a) /\ f a b1 = Some (b', inl x).
Proof. unfold mbind, BM_bind. destruct (m b) as [[b1 [a|e]]|]; [|done|done]. eauto. Qed.

Lemma or_panic_run {A} (o : option A) b b' x : or_panic o b = Some (b', inl x) -> b' = b /\ o = Some x.
Proof. unfold or_panic. destruct o; [|done]. by intros [= -> ->]. Qed.

Lemma require_run c e b b' x : require c e b = Some (b', inl x) -> b' = b /\ c = true.
Proof. unfold require. destruct c; [|done]. by intros [= ->]. Qed.

Lemma effect_add_coin x c : 0 <= Amount c -> effect (add_coin_to x true c) (credit x (Denom c) (Amount c * U)).
Proof.
  intros Hc b b' u Hwf. unfold add_coin_to. intros (b1 & bal & H1 & H2)%bind_run. apply GetBalance_run in H1 as [= -> ->].
  apply bind_run in H2 as (b1 & nb & H3 & H4). apply or_panic_run in H3 as [-> H3].
  unfold coin_Add in H3. simpl in H3. rewrite bool_decide_eq_true_2, int_add_spec in H3 by done.
  destruct (int_fits _) eqn:Hf; [|done]. simpl in H3. injection H3 as <-.
  apply setBalance_run in H4 as [-> Hv]. simpl in *. specialize (Hv eq_refl). unfold coin_Validate in Hv. simpl in Hv.
  apply andb_true_iff in Hv as [Hv _]. apply bool_decide_eq_true in Hf. pose proof (wf_val b x (Denom c) Hwf).
  eapply changes_same; [|apply changes_balance; [done| |done]]; [|lia].
  unfold credit. replace (val (b_balances b) (x, Denom c) + Amount c - val (b_balances b) (x, Denom c)) with (Amount c) by lia. by repeat split.
Qed.

Lemma effect_sub_coin x locked c :
  0 <= Amount c -> effect (sub_unlocked_coin x locked true c) (credit x (Denom c) (- (Amount c * U))).
Proof.
  intros Hc b b' u Hwf. unfold sub_unlocked_coin. intros (b1 & bal & H1 & H2)%bind_run. apply GetBalance_run in H1 as [= -> ->].
  apply bind_run in H2 as (b1 & [] & H3 & H4). assert (b1 = b) as ->.
  { repeat match goal with
    | H : (_ ≫= _) _ = Some (_, inl _) |- _ => apply bind_run in H as (? & ? & ? & ?)
    | H : or_panic _ _ = Some (_, inl _) |- _ => apply or_panic_run in H as [-> ?]
    | H : require _ _ _ = Some (_, inl _) |- _ => apply require_run in H as [-> ?]
    | H : (let '(_, _) := ?p in _) _ = _ |- _ => destruct p
    end. done. }
  apply bind_run in H4 as (b1 & nb & H5 & H6). apply or_panic_run in H5 as [-> H5].
  unfold coin_Sub, coin_SubUnsafe in H5. simpl in H5. rewrite bool_decide_eq_true_2, int_sub_spec in H5 by done.
  destruct (int_fits _) eqn:Hf; [|done]. simpl in H5. unfold coin_IsNegative in H5. simpl in H5. case_bool_decide; [done|]. injection H5 as <-.
  apply setBalance_run in H6 as [-> Hv]. simpl in *. specialize (Hv eq_refl). unfold coin_Validate in Hv. simpl in Hv.
  apply andb_true_iff in Hv as [Hv _]. pose proof (wf_val b x (Denom c) Hwf).
  eapply changes_same; [|apply changes_balance; [done| |done]]; [|lia].
  unfold credit. replace ((val (b_balances b) (x, Denom c) - Amount c - val (b_balances b) (x, Denom c)) * U) with (- (Amount c * U)) by lia.
  by repeat split.
Qed.

(** ** Coin sets *)
Lemma effect_require_then {B} c e (f : () -> BM B) ch : (c = true -> effect (f tt) ch) -> effect (require c e ≫= f) ch.
Proof. intros Hf b b' x Hwf (b1 & [] & H1 & H2)%bind_run. apply require_run in H1 as [-> Hc]. by apply (Hf Hc b b' x). Qed.

Definition changes_sum {A} (g : A -> change) (l : list A) : change := foldr (fun x acc => both (g x) acc) no_change l.

Lemma effect_for_each {A} (f : A -> BM ()) (g : A -> change) (l : list A) :
  (forall x, x ∈ l -> effect (f x) (g x)) -> effect (for_each f l) (changes_sum g l).
Proof.
  induction l as [|x l IH]; intros Hf; [apply effect_ret|]. apply effect_bind; [apply Hf; left|]. intros _. apply IH.
  intros y Hy. apply Hf. by right.
Qed.

(** The change that adds the coins, [s] times, to account [x]. *)
Definition credit_coins (x : AccAddress) (amt : Coins) (s : Z) : change :=
  mkChange (fun y d => if bool_decide (x = y) then s * amount amt d * U else 0) (fun d => s * amount amt d * U) (fun _ => 0) (fun _ => 0).
Definition credit_supply (amt : Coins) (s : Z) : change := mkChange (fun _ _ => 0) (fun _ => 0) (fun _ => 0) (fun d => s * amount amt d).

Lemma amount_cons_sum c cs d :
  sorted_coins (c :: cs) -> amount (c :: cs) d = (if bool_decide (Denom c = d) then Amount c else 0) + amount cs d.
Proof.
  intros [Hs Hc]%StronglySorted_inv. simpl. case_bool_decide as Hd; [|lia]. subst d. rewrite (amount_below cs); [lia|done].
Qed.

Lemma sum_credit x s amt :
  sorted_coins amt -> same_change (changes_sum (fun c => credit x (Denom c) (s * (Amount c * U))) amt) (credit_coins x amt s).
Proof.
  induction amt as [|c amt IH]; intros Hs; [split; [|split; [|split]]; intros; simpl; repeat case_bool_decide; lia|].
  destruct (IH (proj1 (StronglySorted_inv Hs))) as (H1 & H2 & H3 & H4). split; [|split; [|split]]; intros; simpl.
  - rewrite H1. simpl. rewrite <- (amount_cons c amt), amount_cons_sum by done. unfold credit_value. repeat case_bool_decide; simpl; lia.
  - rewrite H2. simpl. rewrite <- (amount_cons c amt), amount_cons_sum by done. repeat case_bool_decide; lia.
  - rewrite H3. done.
  - rewrite H4. done.
Qed.

Lemma both_no_r c : same_change (both c no_change) c.
Proof. repeat split; intros; simpl; lia. Qed.

Lemma effect_last {A B} (m : BM A) (f : A -> BM B) c :
  effect m c -> (forall a, effect (f a) no_change) -> effect (m ≫= f) c.
Proof. intros Hm Hf. eapply effect_same; [apply both_no_r|]. by apply effect_bind. Qed.

Lemma ok_amounts amt c : coins_ok amt -> c ∈ amt -> 0 <= Amount c.
Proof. intros (_ & Hp & _) Hc. pose proof (proj1 (Forall_forall _ _) Hp c Hc) as H. simpl in H. lia. Qed.

Lemma effect_SubUnlockedCoins x amt : effect (SubUnlockedCoins env x amt true) (credit_coins x amt (-1)).
Proof.
  apply effect_require_then. intros Hok%coins_Validate_spec. apply effect_skip; [eauto with bankdb|]. intros locked.
  apply effect_last; [|intros _; apply effect_events]. eapply effect_same; [apply sum_credit, Hok|].
  apply effect_for_each. intros c Hc. replace (-1 * (Amount c * U)) with (- (Amount c * U)) by lia.
  by apply effect_sub_coin, (ok_amounts amt).
Qed.

Lemma effect_AddCoins x amt : effect (AddCoins env x amt true) (credit_coins x amt 1).
Proof.
  apply effect_skip; [eauto with bankdb|]. intros ok. apply effect_require_then. intros _.
  apply effect_require_then. intros Hok%coins_Validate_spec.
  apply effect_last; [|intros _; apply effect_events]. eapply effect_same; [apply sum_credit, Hok|].
  apply effect_for_each. intros c Hc. rewrite Z.mul_1_l. by apply effect_add_coin, (ok_amounts amt).
Qed.

(** Moving coins from one account to another. *)
Definition move (x y : AccAddress) (amt : Coins) : change := both (credit_coins x amt (-1)) (credit_coins y amt 1).

Lemma effect_send x y amt : effect (SendCoinsWithoutAccCreation env x y amt) (move x y amt).
Proof.
  apply effect_bind; [apply effect_SubUnlockedCoins|]. intros _. apply effect_last; [apply effect_AddCoins|]. intros _. apply effect_events.
Qed.

Lemma effect_SendCoins x y amt : effect (SendCoins env x y amt) (move x y amt).
Proof. apply effect_last; [apply effect_send|]. intros _. apply effect_create. Qed.

(** ** Wei *)
Lemma setWei_run x z b b' u : setWeiBalance x z b = Some (b', inl u) -> b' = set_wei b (put x z (b_wei b)).
Proof. unfold setWeiBalance, put. case_bool_decide; by intros [= <-]. Qed.

Lemma changes_wei b x z :
  bank_wf b -> 0 <= z < U -> changes (credit x base (z - val (b_wei b) x)) b (set_wei b (put x z (b_wei b))).
Proof.
  intros Hwf Hz. split.
  { destruct Hwf. split; simpl; try done. apply put_forall; [done|]. lia. }
  unfold value, total, deferred_total, supply. simpl. split; [|split; [|split; intros; lia]].
  - intros y d. rewrite val_put. unfold credit_value. repeat case_bool_decide; subst; simpl; lia.
  - intros d. rewrite sum_put. case_bool_decide; lia.
Qed.

Lemma wf_wei_val b x : bank_wf b -> 0 <= val (b_wei b) x < U.
Proof.
  intros Hwf. unfold val. destruct (b_wei b !! x) as [z|] eqn:Hz; simpl; [|done]. pose proof (wf_wei b Hwf _ _ Hz). lia.
Qed.

(** Writing both balances of an account. *)
Lemma changes_usei_wei b x u w :
  bank_wf b -> 0 <= u < 2 ^ 256 -> 0 <= w < U -> ValidateDenom base = true ->
  changes (credit x base (u * U + w - value b x base)) b
    (set_wei (set_balances b (put (x, base) u (b_balances b))) (put x w (b_wei b))).
Proof.
  intros Hwf Hu Hw Hd. pose proof (changes_balance b x base u Hwf Hu Hd) as H1.
  pose proof (changes_wei _ x w (proj1 H1) Hw) as H2. eapply changes_same; [|exact (changes_trans _ _ _ _ _ H1 H2)].
  assert (Hval : value b x base = val (b_balances b) (x, base) * U + val (b_wei b) x).
  { unfold value. by rewrite bool_decide_eq_true_2. }
  rewrite Hval. split; [|split; [|done]].
  - intros y d. simpl. unfold credit_value. destruct (_ && _); lia.
  - intros d. simpl. case_bool_decide; lia.
Qed.

Lemma NewCoin_run d z c : NewCoin d z = Some c -> c = mkCoin d z /\ ValidateDenom d = true /\ 0 <= z.
Proof.
  unfold NewCoin, coin_Validate, coin_IsNegative. simpl. destruct (ValidateDenom d); [|done]. simpl. case_bool_decide; [done|].
  simpl. intros [= <-]. split; [done|]. split; [done|lia].
Qed.

Lemma int_fits_quot z u : int_fits z = true -> 0 <= z -> 0 < u -> 0 <= Z.quot z u < 2 ^ 256.
Proof.
  intros Hf%bool_decide_eq_true Hz Hu. rewrite Z.quot_div_nonneg by lia. split; [apply Z.div_pos; lia|].
  apply Z.div_lt_upper_bound; [done|]. nia.
Qed.

Lemma split_value z : 0 <= z -> Z.quot z U * U + z mod U = z /\ 0 <= z mod U < U.
Proof.
  intros Hz. rewrite Z.quot_div_nonneg by (done || lia). pose proof (Z.div_mod z U ltac:(done)). pose proof (Z.mod_pos_bound z U ltac:(done)). lia.
Qed.

Lemma effect_SubWei x amt : 0 <= amt -> effect (SubWei env x amt) (credit x base (- amt)).
Proof.
  intros Hamt. unfold SubWei. case_bool_decide as H0.
  { subst. eapply effect_same, effect_ret. unfold credit, credit_value. split; [|split; [|split]]; intros; simpl; repeat case_bool_decide; done. }
  intros b b' u Hwf (b1 & cur & H1 & H2)%bind_run. injection H1 as <- <-. fold (val (b_wei b) x) in H2.
  pose proof (wf_wei_val b x Hwf) as Hcur. pose proof (wf_val b x base Hwf) as Hbal.
  apply bind_run in H2 as (b2 & [] & H2 & H3).
  assert (Hgoal : changes (credit x base (- amt)) b b2).
  2: { injection H3 as <-. destruct Hgoal as (Hwf2 & V). split; [destruct Hwf2; by split|]. done. }
  clear H3. case_bool_decide as Hle.
  - apply bind_run in H2 as (b3 & post & H4 & H5). apply or_panic_run in H4 as [-> H4]. rewrite int_sub_spec in H4.
    destruct (int_fits _); [|done]. injection H4 as <-. apply setWei_run in H5 as ->.
    eapply changes_same; [|apply changes_wei; [done|lia]].
    replace (val (b_wei b) x - amt - val (b_wei b) x) with (- amt) by lia. by repeat split.
  - apply bind_run in H2 as (b3 & c & H4 & H5). apply GetBalance_run in H4 as [= -> ->]. simpl in H5.
    apply bind_run in H5 as (b3 & scaled & H6 & H7). apply or_panic_run in H6 as [-> H6].
    rewrite int_mul_spec in H6; [|apply int_fits_nonneg; lia|done]. destruct (int_fits _) eqn:F1; [|done]. injection H6 as <-.
    apply bind_run in H7 as (b3 & agg & H8 & H9). apply or_panic_run in H8 as [-> H8]. rewrite int_add_spec in H8.
    destruct (int_fits (_ + _)) eqn:F2; [|done]. injection H8 as <-.
    apply bind_run in H9 as (b3 & post & H10 & H11). apply or_panic_run in H10 as [-> H10]. rewrite int_sub_spec in H10.
    destruct (int_fits (_ - _)) eqn:F3; [|done]. injection H10 as <-.
    apply bind_run in H11 as (b3 & [] & H12 & H13). apply require_run in H12 as [-> Hpos].
    apply negb_true_iff, bool_decide_eq_false in Hpos. unfold SplitUseiWeiAmount in H13.
    set (post := val (b_balances b) (x, base) * U + val (b_wei b) x - amt) in *.
    apply bind_run in H13 as (b3 & c & H14 & H15). apply or_panic_run in H14 as [-> H14].
    apply NewCoin_run in H14 as (-> & Hd & Hq). apply bind_run in H15 as (b3 & [] & H16 & H17).
    apply setBalance_run in H16 as [-> _]. apply setWei_run in H17 as ->. simpl.
    destruct (split_value post) as [Hs1 Hs2]; [lia|]. pose proof (int_fits_quot post U F3 ltac:(lia) ltac:(done)).
    eapply changes_same; [|apply changes_usei_wei; [done|done|done|done]].
    rewrite Hs1. unfold value. rewrite bool_decide_eq_true_2 by done.
    replace (post - (val (b_balances b) (x, base) * U + val (b_wei b) x)) with (- amt) by (unfold post; lia). by repeat split.
Qed.

Lemma effect_AddWei x amt : 0 <= amt -> effect (AddWei env x amt) (credit x base amt).
Proof.
  intros Hamt. apply effect_skip; [eauto with bankdb|]. intros ok. apply effect_require_then. intros _. case_bool_decide as H0.
  { subst. eapply effect_same, effect_ret. unfold credit, credit_value. split; [|split; [|split]]; intros; simpl; repeat case_bool_decide; done. }
  intros b b' u Hwf (b1 & cur & H1 & H2)%bind_run. injection H1 as <- <-. fold (val (b_wei b) x) in H2.
  pose proof (wf_wei_val b x Hwf) as Hcur. pose proof (wf_val b x base Hwf) as Hbal.
  apply bind_run in H2 as (b2 & post & H2 & H3). apply or_panic_run in H2 as [-> H2]. rewrite int_add_spec in H2.
  destruct (int_fits _) eqn:F1; [|done]. injection H2 as <-. apply bind_run in H3 as (b2 & [] & H3 & H4).
  assert (Hgoal : changes (credit x base amt) b b2).
  2: { injection H4 as <-. destruct Hgoal as (Hwf2 & V). split; [destruct Hwf2; by split|]. done. }
  clear H4. set (post := val (b_wei b) x + amt) in *. case_bool_decide as Hle.
  - apply setWei_run in H3 as ->. eapply changes_same; [|apply changes_wei; [done|lia]].
    replace (post - val (b_wei b) x) with amt by (unfold post; lia). by repeat split.
  - apply bind_run in H3 as (b3 & c & H4 & H5). apply GetBalance_run in H4 as [= -> ->]. unfold SplitUseiWeiAmount in H5. simpl in H5.
    apply bind_run in H5 as (b3 & nu & H6 & H7). apply or_panic_run in H6 as [-> H6]. rewrite int_add_spec in H6.
    destruct (int_fits (_ + _)) eqn:F2; [|done]. injection H6 as <-. apply bool_decide_eq_true in F2.
    apply bind_run in H7 as (b3 & c & H14 & H15). apply or_panic_run in H14 as [-> H14].
    apply NewCoin_run in H14 as (-> & Hd & Hq). apply bind_run in H15 as (b3 & [] & H16 & H17).
    apply setBalance_run in H16 as [-> _]. apply setWei_run in H17 as ->. simpl.
    destruct (split_value post) as [Hs1 Hs2]; [lia|].
    eapply changes_same; [|apply changes_usei_wei; [done|lia|done|done]].
    unfold value. rewrite bool_decide_eq_true_2 by done.
    replace ((val (b_balances b) (x, base) + Z.quot post U) * U + post mod U - (val (b_balances b) (x, base) * U + val (b_wei b) x))
      with amt by (unfold post in *; lia). by repeat split.
Qed.
End Ledger.
