(* ===== verification/BankInv.v ===== *)
(** Every bank operation against the abstract ledger, and the supply invariant. *)
From stdpp Require Import base gmap sets list strings sorting fin_maps.
From Stdlib Require Import ZArith Lia.
From S2P Require Import Prelude Coins CoinsSpec Vesting Bank BankSpec.
Local Open Scope Z_scope.

Section Inv.
Context (env : bank_env).
Implicit Types b : bank.
Abbreviation U := OneUseiInWei.
Abbreviation base := (be_baseDenom env).
Abbreviation effect := (effect env).
Abbreviation changes := (changes env).

Create HintDb bankdb2.
#[local] Hint Resolve effect_ret effect_fail effect_panics effect_or_panic effect_reads effect_require effect_events
  effect_SetAccount effect_next_number effect_GetAccount effect_create effect_module effect_must_module effect_module_address
  effect_LockedCoins effect_CanSendTo effect_trackDelegation effect_trackUndelegation effect_SendCoins effect_send
  effect_AddCoins effect_SubUnlockedCoins effect_SubWei effect_AddWei : bankdb2.

(** ** Supply *)
Lemma changes_supply b d z :
  bank_wf b -> 0 <= z < 2 ^ 256 -> ValidateDenom d = true ->
  changes (mkChange (fun _ _ => 0) (fun _ => 0) (fun _ => 0) (fun d' => if bool_decide (d = d') then z - supply b d else 0)) b
    (set_supply b (put d z (b_supply b))).
Proof.
  intros Hwf Hz Hd. split.
  { destruct Hwf. split; simpl; try done. apply put_forall; [done|]. intros Hn. split; [lia|done]. }
  unfold value, total, deferred_total, supply. simpl. split; [intros; lia|]. split; [intros; lia|]. split; [intros; lia|].
  intros d'. rewrite val_put. repeat case_bool_decide; subst; lia.
Qed.

Lemma SetSupply_put c b : SetSupply c b = Some (set_supply b (put (Denom c) (Amount c) (b_supply b)), inl tt).
Proof. unfold SetSupply, updates, put, coin_IsZero. by case_bool_decide. Qed.

Lemma wf_supply_val b d : bank_wf b -> 0 <= supply b d < 2 ^ 256.
Proof.
  intros Hwf. unfold supply, val. destruct (b_supply b !! d) as [z|] eqn:Hz; simpl; [|lia]. destruct (wf_supply b Hwf _ _ Hz). lia.
Qed.

Lemma sum_credit_supply s amt :
  sorted_coins amt -> same_change (changes_sum (fun c => credit_supply [c] s) amt) (credit_supply amt s).
Proof.
  induction amt as [|c amt IH]; intros Hs; [split; [|split; [|split]]; intros; simpl; lia|].
  destruct (IH (proj1 (StronglySorted_inv Hs))) as (H1 & H2 & H3 & H4). split; [|split; [|split]]; intros; simpl.
  - rewrite H1. done.
  - rewrite H2. done.
  - rewrite H3. done.
  - rewrite H4. simpl. rewrite <- (amount_cons c amt), amount_cons_sum by done. case_bool_decide; lia.
Qed.

(** One coin of the loops of [createCoins] and [destroyCoins]. *)
Lemma effect_supply_coin c (op : Coin -> Coin -> option Coin) s :
  ValidateDenom (Denom c) = true ->
  (forall x y z, op x y = Some z -> z = mkCoin (Denom x) (Amount x + s * Amount y) /\ -2 ^ 256 < Amount z < 2 ^ 256) ->
  (forall x z, 0 <= Amount x -> op x c = Some z -> 0 <= Amount z) ->
  effect (sup ← GetSupply (Denom c); sup ← or_panic (op sup c); SetSupply sup) (credit_supply [c] s).
Proof.
  intros Hd Hop Hpos b b' u Hwf (b1 & sup & H1 & H2)%bind_run. injection H1 as <- <-.
  apply bind_run in H2 as (b1 & nsup & H3 & H4). apply or_panic_run in H3 as [-> H3].
  rewrite SetSupply_put in H4. injection H4 as <-. pose proof (wf_supply_val b (Denom c) Hwf) as Hs. unfold supply, val in Hs.
  assert (Hp : 0 <= Amount nsup) by (eapply Hpos; [|exact H3]; simpl; lia). apply Hop in H3 as [-> Hf]. simpl in *.
  eapply changes_same; [|apply changes_supply; [done|lia|done]].
  split; [done|]. split; [done|]. split; [done|]. intros d. simpl. unfold supply, val. case_bool_decide; lia.
Qed.

Lemma coin_Add_run x y z : coin_Add x y = Some z -> z = mkCoin (Denom x) (Amount x + 1 * Amount y) /\ -2 ^ 256 < Amount z < 2 ^ 256.
Proof.
  unfold coin_Add. case_bool_decide; [|done]. rewrite int_add_spec. destruct (int_fits _) eqn:Hf; [|done]. intros [= <-].
  apply bool_decide_eq_true in Hf. simpl. split; [f_equal; lia|lia].
Qed.

Lemma coin_Sub_run x y z :
  coin_Sub x y = Some z -> z = mkCoin (Denom x) (Amount x + -1 * Amount y) /\ -2 ^ 256 < Amount z < 2 ^ 256 /\ 0 <= Amount z.
Proof.
  unfold coin_Sub, coin_SubUnsafe. case_bool_decide; [|done]. rewrite int_sub_spec. destruct (int_fits _) eqn:Hf; [|done]. simpl.
  unfold coin_IsNegative. simpl. case_bool_decide; [done|]. intros [= <-]. apply bool_decide_eq_true in Hf. simpl. split; [f_equal; lia|lia].
Qed.

(** The change of minting into, or burning from, an account. *)
Definition mint (x : AccAddress) (amt : Coins) (s : Z) : change := both (credit_coins x amt s) (credit_supply amt s).

Lemma must_module_run name b b' acc :
  must_module env name b = Some (b', inl acc) -> exists perms, be_permAddrs env name = Some (acc.1, perms).
Proof.
  unfold must_module. intros (b1 & o & H1 & H2)%bind_run. destruct o as [acc'|]; [|done]. injection H2 as _ ->.
  unfold GetModuleAccount in H1. destruct (be_permAddrs env name) as [[addr perms]|]; [|by injection H1].
  exists perms. f_equal. f_equal. apply bind_run in H1 as (b2 & a & _ & H2). destruct a as [[n|va|n nm granted]|]; [done|done|by injection H2 as _ <-|].
  apply bind_run in H2 as (b3 & n & _ & H3). apply bind_run in H3 as (b4 & [] & _ & H4). by injection H4 as _ <-.
Qed.

Definition module_addr (name : string) : AccAddress := default [] (fst <$> be_permAddrs env name).

Lemma effect_must_module_then {B} name (f : AccAddress * list string -> BM B) c :
  (forall perms, effect (f (module_addr name, perms)) c) -> effect (must_module env name ≫= f) c.
Proof.
  intros Hf b b' x Hwf (b1 & [a perms] & H1 & H2)%bind_run. pose proof (must_module_run _ _ _ _ H1) as [perms' Hp]. simpl in Hp.
  pose proof (effect_must_module env name b b1 (a, perms) Hwf H1) as C1.
  assert (Ha : a = module_addr name) by (unfold module_addr; by rewrite Hp). subst a.
  eapply changes_same; [apply both_no_l|]. eapply changes_trans; [exact C1|]. by apply (Hf perms b1 b' x); [apply C1|].
Qed.

Lemma effect_module_address_then {B} name (f : AccAddress -> BM B) c :
  effect (f (module_addr name)) c -> effect (module_address env name ≫= f) c.
Proof.
  intros Hf b b' x Hwf (b1 & a & H1 & H2)%bind_run. apply or_panic_run in H1 as [-> Ha].
  assert (a = module_addr name) as -> by (unfold module_addr; by rewrite Ha). by apply (Hf b b' x).
Qed.

Lemma effect_bind_if {A B} (m : BM A) (f : A -> BM B) c c' (Q : Prop) :
  (forall b b' a, m b = Some (b', inl a) -> Q) -> effect m c -> (Q -> forall a, effect (f a) c') -> effect (m ≫= f) (both c c').
Proof.
  intros HQ Hm Hf b b' x Hwf (b1 & a & H1 & H2)%bind_run. pose proof (Hm b b1 a Hwf H1) as C1.
  eapply changes_trans; [exact C1|]. by apply (Hf (HQ _ _ _ H1) a b1 b' x); [apply C1|].
Qed.

Lemma AddCoins_valid x amt n b b' u : AddCoins env x amt n b = Some (b', inl u) -> coins_ok amt.
Proof.
  intros (? & ok & _ & (? & [] & _ & (? & [] & H & _)%bind_run)%bind_run)%bind_run.
  apply require_run in H as [_ H]. by apply coins_Validate_spec.
Qed.
Lemma SubUnlockedCoins_valid x amt n b b' u : SubUnlockedCoins env x amt n b = Some (b', inl u) -> coins_ok amt.
Proof. intros (? & [] & H & _)%bind_run. apply require_run in H as [_ H]. by apply coins_Validate_spec. Qed.

(** The module account is looked up a second time in [MintCoins] and [BurnCoins]. *)
Lemma effect_module_then {B} name (k : BM B) (f : AccAddress * list string -> BM B) c :
  effect k c -> (forall perms, effect (f (module_addr name, perms)) c) ->
  effect (o ← GetModuleAccount env name; match o with None => k | Some acc => f acc end) c.
Proof.
  intros Hk Hf b b' x Hwf (b1 & o & H1 & H2)%bind_run. pose proof (effect_module env name b b1 o Hwf H1) as C1.
  eapply changes_same; [apply both_no_l|]. eapply changes_trans; [exact C1|].
  destruct o as [acc|]; [|by apply (Hk b1 b' x); [apply C1|]].
  assert (H3 : must_module env name b = Some (b1, inl acc)) by (unfold must_module, mbind, BM_bind; by rewrite H1).
  apply must_module_run in H3 as [p Hp]. destruct acc as [a perms]. simpl in Hp.
  assert (Ha : a = module_addr name) by (unfold module_addr; by rewrite Hp). subst a. by apply (Hf perms b1 b' x); [apply C1|].
Qed.

(** The loop over the supply, then the event. *)
Lemma effect_supply_loop amt (op : Coin -> Coin -> option Coin) s evs :
  coins_ok amt ->
  (forall x y z, op x y = Some z -> z = mkCoin (Denom x) (Amount x + s * Amount y) /\ -2 ^ 256 < Amount z < 2 ^ 256) ->
  (forall x y z, 0 <= Amount x -> 0 <= Amount y -> op x y = Some z -> 0 <= Amount z) ->
  effect (_ ← for_each (fun c => sup ← GetSupply (Denom c); sup ← or_panic (op sup c); SetSupply sup) amt; EmitEvents evs)
    (credit_supply amt s).
Proof.
  intros Hok Hop Hpos. apply effect_last; [|intros _; apply effect_events]. eapply effect_same; [apply sum_credit_supply, Hok|].
  apply effect_for_each. intros c Hc. apply effect_supply_coin; [|done|].
  - by apply (proj1 (Forall_forall _ _) (proj2 (proj2 Hok)) c).
  - intros x z Hx. apply Hpos; [done|]. by apply (ok_amounts amt).
Qed.

Lemma effect_MintCoins name amt : effect (MintCoins env name amt) (mint (module_addr name) amt 1).
Proof.
  unfold MintCoins, createCoins. apply effect_skip; [case_match; auto with bankdb2|]. intros _.
  apply effect_must_module_then. intros perms. case_match; [apply effect_panics|].
  apply (effect_bind_if _ _ _ _ (coins_ok amt)).
  - intros b b' [] (b1 & [acc|] & _ & H2)%bind_run; [by eapply AddCoins_valid|done].
  - apply effect_module_then; [apply effect_fail|]. intros p. apply effect_AddCoins.
  - intros Hok _. apply effect_supply_loop; [done|apply coin_Add_run|].
    intros x y z Hx Hy Hz. apply coin_Add_run in Hz as [-> _]. simpl. lia.
Qed.

Lemma effect_BurnCoins name amt : effect (BurnCoins env name amt) (mint (module_addr name) amt (-1)).
Proof.
  unfold BurnCoins, destroyCoins. apply effect_must_module_then. intros perms. case_match; [apply effect_panics|].
  apply (effect_bind_if _ _ _ _ (coins_ok amt)).
  - intros b b' [] (b1 & [acc|] & _ & H2)%bind_run; [by eapply SubUnlockedCoins_valid|done].
  - apply effect_module_then; [apply effect_panics|]. intros p. apply effect_SubUnlockedCoins.
  - intros Hok _. apply effect_supply_loop; [done| |].
    + intros x y z Hz. apply coin_Sub_run in Hz. tauto.
    + intros x y z _ _ Hz. by apply coin_Sub_run in Hz as (_ & _ & ?).
Qed.

(** ** Deferred sends *)
Lemma changes_deferred b k z :
  bank_wf b -> 0 <= z < 2 ^ 256 -> ValidateDenom k.2 = true ->
  changes (mkChange (fun _ _ => 0) (fun _ => 0) (fun d => if bool_decide (k.2 = d) then (z - val (b_deferred b) k) * U else 0) (fun _ => 0)) b
    (set_deferred b (put k z (b_deferred b))).
Proof.
  intros Hwf Hz Hd. split.
  { destruct Hwf. split; simpl; try done. apply put_forall; [done|]. intros Hn. split; [lia|done]. }
  unfold value, total, deferred_total, supply. simpl. split; [intros; lia|]. split; [intros; lia|]. split; [|intros; lia].
  intros d. rewrite sum_put. case_bool_decide; lia.
Qed.

Definition credit_deferred (amt : Coins) : change := mkChange (fun _ _ => 0) (fun _ => 0) (fun d => amount amt d * U) (fun _ => 0).

Lemma sum_credit_deferred amt :
  sorted_coins amt -> same_change (changes_sum (fun c => credit_deferred [c]) amt) (credit_deferred amt).
Proof.
  induction amt as [|c amt IH]; intros Hs; [split; [|split; [|split]]; intros; simpl; lia|].
  destruct (IH (proj1 (StronglySorted_inv Hs))) as (H1 & H2 & H3 & H4). split; [|split; [|split]]; intros; simpl.
  - rewrite H1. done.
  - rewrite H2. done.
  - rewrite H3. simpl. rewrite <- (amount_cons c amt), amount_cons_sum by done. case_bool_decide; lia.
  - rewrite H4. done.
Qed.

Lemma deferred_GetBalance_run x i d b r :
  deferred_GetBalance x i d b = Some r -> r = (b, inl (mkCoin d (val (b_deferred b) (x, i, d)))).
Proof.
  unfold deferred_GetBalance, val, mbind, BM_bind, reads, or_panic, NewCoin. simpl.
  destruct (b_deferred b !! (x, i, d)) as [z|]; simpl; [by intros [= <-]|]. destruct (coin_Validate _); [|done]. by intros [= <-].
Qed.

Lemma effect_upsert x i c : effect (upsertBalance x i c) (credit_deferred [c]).
Proof.
  apply effect_require_then. intros Hv b b' u Hwf (b1 & cur & H1 & H2)%bind_run.
  apply deferred_GetBalance_run in H1 as [= -> ->].
  apply bind_run in H2 as (b1 & nb & H3 & H4). apply or_panic_run in H3 as [-> H3]. apply coin_Add_run in H3 as [-> Hf]. simpl in *.
  unfold coin_Validate in Hv. apply andb_true_iff in Hv as [Hd Hn]. apply negb_true_iff, bool_decide_eq_false in Hn.
  assert (0 <= val (b_deferred b) (x, i, Denom c)).
  { unfold val. destruct (b_deferred b !! _) as [z|] eqn:Hz; simpl; [|done]. destruct (wf_deferred b Hwf _ _ Hz). lia. }
  set (z := val (b_deferred b) (x, i, Denom c) + 1 * Amount c) in *.
  assert (b' = set_deferred b (put (x, i, Denom c) z (b_deferred b))) as ->.
  { unfold deferred_setBalance, put, coin_IsZero in *. simpl in *. destruct (coin_Validate _); simpl in H4; [|done].
    case_bool_decide; by injection H4 as <-. }
  eapply changes_same; [|apply (changes_deferred b (x, i, Denom c) z); [done|unfold z in *; lia|done]].
  split; [done|]. split; [done|]. split; [|done]. intros d. simpl. case_bool_decide; unfold z; lia.
Qed.

(** Coins on their way to a module account. *)
Definition defer (x : AccAddress) (amt : Coins) : change := both (credit_coins x amt (-1)) (credit_deferred amt).

Lemma effect_DeferredSend x name amt : effect (DeferredSendCoinsFromAccountToModule env x name amt) (defer x amt).
Proof.
  apply effect_bind; [apply effect_SubUnlockedCoins|]. intros _. apply effect_skip; [auto with bankdb2|]. intros acc.
  apply effect_skip; [auto with bankdb2|]. intros _. apply effect_require_then. intros Hok%coins_Validate_spec.
  eapply effect_same; [apply sum_credit_deferred, Hok|]. apply effect_for_each. intros c _. apply effect_upsert.
Qed.

(** ** Delegations *)
Lemma effect_delegate_loop x balances amt :
  sorted_coins amt -> Forall (fun c => 0 <= Amount c) amt ->
  effect (delegate_loop x balances amt) (changes_sum (fun c => credit x (Denom c) (-1 * (Amount c * U))) amt).
Proof.
  intros Hs Hp. revert balances. induction Hp as [|c amt Hc Hp IH]; intros balances; [apply effect_ret|].
  intros b b' r Hwf (b1 & bal & H1 & H2)%bind_run. apply GetBalance_run in H1 as [= -> ->].
  apply bind_run in H2 as (b1 & lt & H3 & H4). apply or_panic_run in H3 as [-> H3]. destruct lt; [done|].
  apply bind_run in H4 as (b1 & bals & H5 & H6). apply or_panic_run in H5 as [-> H5].
  apply bind_run in H6 as (b1 & nb & H7 & H8). apply or_panic_run in H7 as [-> H7]. apply coin_Sub_run in H7 as (-> & Hf & Hn).
  apply bind_run in H8 as (b1 & [] & H9 & H10). apply setBalance_run in H9 as [-> Hv]. simpl in *. specialize (Hv eq_refl).
  unfold coin_Validate in Hv. apply andb_true_iff in Hv as [Hd _]. simpl in Hd.
  assert (C1 : changes (credit x (Denom c) (-1 * (Amount c * U))) b
      (set_balances b (put (x, Denom c) (val (b_balances b) (x, Denom c) + -1 * Amount c) (b_balances b)))).
  { eapply changes_same; [|apply changes_balance; [done|lia|done]].
    replace ((val (b_balances b) (x, Denom c) + -1 * Amount c - val (b_balances b) (x, Denom c)) * U) with (-1 * (Amount c * U)) by lia.
    by repeat split. }
  eapply changes_trans; [exact C1|]. eapply IH; [by apply StronglySorted_inv in Hs as [? _]|apply C1|exact H10].
Qed.

Lemma effect_DelegateCoins x y amt : effect (DelegateCoins env x y amt) (move x y amt).
Proof.
  apply effect_skip; [auto with bankdb2|]. intros acc. apply effect_skip; [auto with bankdb2|]. intros _.
  apply effect_require_then. intros Hok%coins_Validate_spec. apply effect_bind.
  - eapply effect_same; [apply (sum_credit x (-1)), Hok|]. apply effect_delegate_loop; [apply Hok|].
    apply Forall_forall. intros c Hc. by apply (ok_amounts amt).
  - intros bals. apply effect_skip; [auto with bankdb2|]. intros _. apply effect_skip; [auto with bankdb2|]. intros _. apply effect_AddCoins.
Qed.

Lemma effect_UndelegateCoins x y amt : effect (UndelegateCoins env x y amt) (move x y amt).
Proof.
  apply effect_skip; [auto with bankdb2|]. intros acc. apply effect_skip; [auto with bankdb2|]. intros _.
  apply effect_require_then. intros _. apply effect_bind; [apply effect_SubUnlockedCoins|]. intros _.
  apply effect_skip; [auto with bankdb2|]. intros _. apply effect_AddCoins.
Qed.
End Inv.
