(* ===== verification/BankSupply.v ===== *)
(** Deferred balances, multi-sends and the supply invariant of the bank. *)
From stdpp Require Import base gmap sets list strings sorting fin_maps.
From Stdlib Require Import ZArith Lia.
From S2P Require Import Prelude Coins CoinsSpec Vesting Bank BankSpec BankInv.
Local Open Scope Z_scope.

Lemma sum_by_list `{Countable K} (f : K -> bool) (m : gmap K Z) :
  sum_by f m = list_sum (fun kv => if f kv.1 then kv.2 else 0) (map_to_list m).
Proof. unfold sum_by. rewrite map_fold_foldr. unfold list_sum. induction (map_to_list m) as [|[k z] l IH]; simpl; congruence. Qed.

(** The order of a walk over a store does not matter to a sum. *)
Lemma list_sum_iterate {K A} (key : K -> bytes) f (l : list (K * A)) : list_sum f (iterate key l) = list_sum f l.
Proof. unfold iterate. by rewrite merge_sort_Permutation. Qed.

Section Supply.
Context (env : bank_env).
Implicit Types b : bank.
Abbreviation U := OneUseiInWei.
Abbreviation base := (be_baseDenom env).
Abbreviation effect := (effect env).
Abbreviation changes := (changes env).

(** ** The totals of the deferred balances *)
Definition module_total (totals : gmap AccAddress Coins) (x : AccAddress) (d : string) : Z := amount (default [] (totals !! x)) d.
Definition entry_sum (P : AccAddress -> bool) (d : string) (l : list (AccAddress * Coin)) : Z :=
  list_sum (fun e => if P e.1 && bool_decide (Denom e.2 = d) then Amount e.2 else 0) l.

Record totals_wf (totals : gmap AccAddress Coins) (ml : list AccAddress) : Prop := {
  tw_nodup : NoDup ml;
  tw_dom : forall x, x ∈ ml <-> is_Some (totals !! x);
  tw_ok : forall x cs, totals !! x = Some cs -> coins_ok cs
}.

Lemma module_total_insert totals x cs y d :
  module_total (<[x := cs]> totals) y d = if bool_decide (x = y) then amount cs d else module_total totals y d.
Proof.
  unfold module_total. case_bool_decide; [subst; by rewrite lookup_insert_eq|by rewrite lookup_insert_ne].
Qed.

(** Adding an entry to the total of its module. *)
Lemma totals_step totals ml x cs amt :
  totals_wf totals ml -> coins_ok cs ->
  (forall d, amount cs d = module_total totals x d + if bool_decide (Denom amt = d) then Amount amt else 0) ->
  let ml' := if bool_decide (x ∈ ml) then ml else ml ++ [x] in
  totals_wf (<[x := cs]> totals) ml' /\
  (forall y d, module_total (<[x := cs]> totals) y d =
     module_total totals y d + if bool_decide (x = y) && bool_decide (Denom amt = d) then Amount amt else 0) /\
  forall d, list_sum (fun y => module_total (<[x := cs]> totals) y d) ml' =
     list_sum (fun y => module_total totals y d) ml + if bool_decide (Denom amt = d) then Amount amt else 0.
Proof.
  intros [Hnd Hdom Hok] Hcs Hd. cbv zeta. split; [|split].
  - split.
    + case_bool_decide; [done|]. apply NoDup_app. split; [done|]. split; [by intros y Hy ->%list_elem_of_singleton|apply NoDup_singleton].
    + intros y. rewrite lookup_insert_is_Some. rewrite <- Hdom. destruct (decide (x = y)) as [<-|].
      * split; [by left|]. intros _. case_bool_decide; [done|]. apply elem_of_app. right. left.
      * case_bool_decide; rewrite ?elem_of_app, ?list_elem_of_singleton; naive_solver.
    + intros y cs' [[<- <-]|[_ Hy]]%lookup_insert_Some; [done|]. by eapply Hok.
  - intros y d. rewrite module_total_insert. case_bool_decide; [subst; rewrite Hd; simpl; lia|simpl; lia].
  - intros d. assert (Hupd : list_sum (fun y => module_total (<[x := cs]> totals) y d) ml =
      list_sum (fun y => module_total totals y d) ml + if bool_decide (x ∈ ml) then amount cs d - module_total totals x d else 0).
    { rewrite (list_sum_update _ (fun y => module_total totals y d) x) by
        (done || intros y Hy; rewrite module_total_insert, bool_decide_eq_false_2 by done; done).
      by rewrite module_total_insert, (bool_decide_eq_true_2 (x = x)) by done. }
    case_bool_decide as Hx; [rewrite Hupd, Hd; lia|]. rewrite list_sum_app, Hupd. simpl.
    rewrite module_total_insert, bool_decide_eq_true_2, Hd by done.
    assert (module_total totals x d = 0) as ->; [|lia]. unfold module_total. rewrite Hdom in Hx. apply eq_None_not_Some in Hx. by rewrite Hx.
Qed.

Lemma deferred_totals_spec l totals ml totals' ml' :
  Forall (fun e => amount_ok (Denom e.2) (Amount e.2)) l -> totals_wf totals ml ->
  deferred_totals totals ml l = Some (totals', ml') ->
  totals_wf totals' ml' /\
  (forall y d, module_total totals' y d = module_total totals y d + entry_sum (fun x => bool_decide (x = y)) d l) /\
  forall d, list_sum (fun y => module_total totals' y d) ml' = list_sum (fun y => module_total totals y d) ml + entry_sum (fun _ => true) d l.
Proof.
  revert totals ml. induction l as [|[x amt] l IH]; intros totals ml Hl Hwf Ht.
  { simpl in Ht. injection Ht as <- <-. split; [done|]. split; intros; simpl; lia. }
  apply Forall_cons in Hl as [[Ha Hv] Hl]. simpl in Ht, Ha, Hv.
  assert (exists cs, coins_ok cs /\
    (forall d, amount cs d = module_total totals x d + if bool_decide (Denom amt = d) then Amount amt else 0) /\
    deferred_totals (<[x := cs]> totals) (if bool_decide (x ∈ ml) then ml else ml ++ [x]) l = Some (totals', ml')) as (cs & Hcs & Hd & Hrest).
  { assert (Hone : coins_ok [amt]) by (destruct amt; apply coin_ok; [done|apply Ha]).
    unfold module_total. destruct (totals !! x) as [cur|] eqn:Hx.
    - rewrite bool_decide_eq_true_2 by (apply (tw_dom _ _ Hwf); eauto).
      destruct (coins_Add cur [amt]) as [cs|] eqn:Hadd; [|done]. exists cs.
      destruct (coins_Add_inv cur [amt] cs (tw_ok _ _ Hwf _ _ Hx) Hone Hadd) as [? Hd]. done.
    - rewrite bool_decide_eq_false_2 by (rewrite (tw_dom _ _ Hwf), Hx; by intros [? ?]).
      rewrite NewCoins_ok in Ht by done. by exists [amt]. }
  destruct (totals_step totals ml x cs amt Hwf Hcs Hd) as (Hwf' & Hy & Hs).
  destruct (IH _ _ Hl Hwf' Hrest) as (Hwf'' & Hy' & Hs'). split; [done|]. split; intros; simpl.
  - rewrite Hy', Hy. unfold entry_sum. simpl. lia.
  - rewrite Hs', Hs. unfold entry_sum. simpl. lia.
Qed.

(** What a module account is owed. *)
Definition deferred_of b (x : AccAddress) (d : string) : Z :=
  sum_by (fun k : AccAddress * Z * string => bool_decide (k.1.1 = x) && bool_decide (k.2 = d)) (b_deferred b).

Lemma entry_sum_deferred P d b :
  entry_sum P d (deferred_balances b) = sum_by (fun k : AccAddress * Z * string => P k.1.1 && bool_decide (k.2 = d)) (b_deferred b).
Proof. unfold entry_sum, deferred_balances. by rewrite list_sum_fmap, list_sum_iterate, sum_by_list. Qed.

(** Paying the deferred balances out. *)
Definition flush b : change :=
  mkChange (fun x d => deferred_of b x d * U) (deferred_total b) (fun d => - deferred_total b d) (fun _ => 0).

Lemma sum_credit_totals totals ml :
  totals_wf totals ml ->
  same_change (changes_sum (fun x => credit_coins x (default [] (totals !! x)) 1) ml)
    (mkChange (fun x d => module_total totals x d * U) (fun d => list_sum (fun y => module_total totals y d) ml * U) (fun _ => 0) (fun _ => 0)).
Proof.
  intros [Hnd Hdom _].
  assert (Hgen : forall l, NoDup l ->
    same_change (changes_sum (fun x => credit_coins x (default [] (totals !! x)) 1) l)
      (mkChange (fun x d => (if bool_decide (x ∈ l) then module_total totals x d else 0) * U)
         (fun d => list_sum (fun y => module_total totals y d) l * U) (fun _ => 0) (fun _ => 0))).
  { clear. intros l Hnd. induction Hnd as [|x l Hx Hnd (H1 & H2 & H3 & H4)]; [split; [|done]|].
    { intros x d. cbn [ch_value changes_sum foldr no_change]. by rewrite bool_decide_eq_false_2 by (by intros ?%elem_of_nil). }
    split; [|split; [|split]]; intros; simpl; rewrite ?H1, ?H2, ?H3, ?H4; simpl; try done.
    - fold (module_total totals x d). rewrite (bool_decide_ext (x0 ∈ x :: l) (x = x0 \/ x0 ∈ l)) by (rewrite elem_of_cons; naive_solver).
      repeat case_bool_decide; subst; naive_solver lia.
    - unfold module_total at 2. lia. }
  destruct (Hgen ml Hnd) as (H1 & H2 & H3 & H4). split; [|done]. intros x d. rewrite H1. simpl. case_bool_decide as Hx; [done|].
  rewrite Hdom in Hx. apply eq_None_not_Some in Hx. unfold module_total. by rewrite Hx.
Qed.

Lemma effect_must {A} (m : BM A) c : effect m c -> effect (must m) c.
Proof.
  intros Hm b b' a Hwf. unfold must. destruct (m b) as [[b1 [a1|]]|] eqn:H; [|done|done]. intros [= <- <-]. by eapply Hm.
Qed.

Lemma totals_wf_perm totals ml ml' : ml ≡ₚ ml' -> totals_wf totals ml -> totals_wf totals ml'.
Proof. intros Hp [Hnd Hdom Hok]. split; [by rewrite <- Hp|intros x; by rewrite <- Hp|done]. Qed.

Lemma WriteDeferred_changes b b' evs :
  bank_wf b -> WriteDeferredBalances env b = Some (b', inl evs) -> changes (flush b) b b' /\ b_deferred b' = ∅.
Proof.
  intros Hwf. unfold WriteDeferredBalances. destruct (deferred_totals ∅ [] _) as [[totals ml]|] eqn:Ht; [|done].
  destruct (for_each _ _ _) as [[b1 [[]|]]|] eqn:Hrun; [|done|done]. intros [= <- _]. split; [|done].
  assert (Hl : Forall (fun e => amount_ok (Denom e.2) (Amount e.2)) (deferred_balances b)).
  { apply Forall_forall. intros e (kv & -> & Hkv)%list_elem_of_fmap. unfold iterate in Hkv. rewrite merge_sort_Permutation in Hkv.
    destruct kv as [k z]. apply elem_of_map_to_list in Hkv. by apply (wf_deferred b Hwf k z). }
  assert (H0 : totals_wf ∅ []).
  { split; [constructor|intros x; rewrite lookup_empty; split; [by intros ?%elem_of_nil|by intros [? ?]]|done]. }
  destruct (deferred_totals_spec _ _ _ _ _ Hl H0 Ht) as (Hwt & Hy & Hs).
  apply (totals_wf_perm totals ml (merge_sort (bech32_le env) ml)) in Hwt; [|by rewrite merge_sort_Permutation].
  assert (Hev : bank_wf (set_events b [])) by (destruct Hwf; by split).
  eapply effect_for_each in Hrun as C; [|intros x _|exact Hev].
  2: { instantiate (1 := fun x => credit_coins x (default [] (totals !! x)) 1). simpl. destruct (totals !! x) as [amt|]; [|apply effect_panics].
       apply effect_must, effect_AddCoins. }
  eapply changes_same in C; [|apply sum_credit_totals, Hwt]. destruct C as (Hwf1 & V & T & D & S).
  split; [destruct Hwf1; split; simpl; try done; intros k z; by rewrite lookup_empty|].
  split; [|split; [|split]]; intros.
  - etrans; [exact (V x d)|]. simpl. rewrite Hy. unfold deferred_of. rewrite entry_sum_deferred. done.
  - etrans; [exact (T d)|]. simpl. rewrite merge_sort_Permutation, Hs. unfold deferred_total. rewrite entry_sum_deferred. done.
  - simpl. unfold deferred_total. simpl. rewrite sum_empty. lia.
  - etrans; [exact (S d)|]. done.
Qed.

(** ** Multi-sends *)
Definition io_addr (x : io) : AccAddress := default [] x.1.
Definition io_sum (l : list io) (d : string) : Z := list_sum (fun x => amount x.2 d) l.
Definition multi_move (inputs outputs : list io) : change :=
  both (changes_sum (fun x => credit_coins (io_addr x) x.2 (-1)) inputs) (changes_sum (fun x => credit_coins (io_addr x) x.2 1) outputs).

Lemma io_total_spec l acc t :
  coins_ok acc -> io_total acc l = Some (inl t) -> coins_ok t /\ forall d, amount t d = amount acc d + io_sum l d.
Proof.
  revert acc. induction l as [|x l IH]; intros acc Hacc; simpl.
  { intros [= <-]. split; [done|]. intros d. simpl. lia. }
  unfold io_ValidateBasic. case_bool_decide; [done|]. destruct (coins_Validate x.2) eqn:Hv; [|done]. simpl.
  destruct (coins_IsAllPositive x.2); [|done]. simpl. destruct (coins_Add acc x.2) as [acc'|] eqn:Hadd; [|done]. simpl. intros Ht.
  apply coins_Validate_spec in Hv. destruct (coins_Add_inv acc x.2 acc' Hacc Hv Hadd) as [Hok Hd].
  destruct (IH acc' Hok Ht) as [Hokt Hdt]. split; [done|]. intros d. rewrite Hdt, Hd. unfold io_sum. simpl. lia.
Qed.

Lemma ValidateInputsOutputs_sums inputs outputs b b' u :
  ValidateInputsOutputs inputs outputs b = Some (b', inl u) -> forall d, io_sum inputs d = io_sum outputs d.
Proof.
  intros (b1 & ti & H1 & H2)%bind_run d. apply bind_run in H2 as (b2 & to & H3 & H4). apply bind_run in H4 as (b3 & eq & H5 & H6).
  apply or_panic_run in H5 as [-> H5]. apply require_run in H6 as [_ ->]. unfold of_sum in H1, H3.
  destruct (io_total [] inputs) as [[ti'|]|] eqn:Hi; [|done|done]. injection H1 as _ ->.
  destruct (io_total [] outputs) as [[to'|]|] eqn:Ho; [|done|done]. injection H3 as _ ->.
  assert (Hnil : coins_ok []) by by apply coins_Validate_spec.
  destruct (io_total_spec _ _ _ Hnil Hi) as [(Hsi & _) Hdi]. destruct (io_total_spec _ _ _ Hnil Ho) as [(Hso & _) Hdo].
  apply coins_IsEqual_true in H5; [|done..]. specialize (Hdi d). specialize (Hdo d). simpl in *. rewrite H5 in Hdi. lia.
Qed.

Lemma effect_ValidateInputsOutputs inputs outputs : effect (ValidateInputsOutputs inputs outputs) no_change.
Proof.
  unfold ValidateInputsOutputs. assert (Hsum : forall o : option (Coins + bank_error), effect (of_sum o) no_change).
  { intros o b b' a Hwf. unfold of_sum. destruct o as [[?|?]|]; [|done|done]. intros [= <- _]. by apply changes_refl. }
  apply effect_skip; [done|]. intros ti. apply effect_skip; [done|]. intros to. apply effect_skip; [apply effect_or_panic|].
  intros eq. apply effect_require.
Qed.

Lemma effect_InputOutputCoins inputs outputs : effect (InputOutputCoins env inputs outputs) (multi_move inputs outputs).
Proof.
  apply effect_skip; [apply effect_ValidateInputsOutputs|]. intros _. apply effect_bind; [|intros _]; apply effect_for_each; intros [[x|] amt] _;
    cbn [fst snd io_addr]; try apply effect_fail.
  - apply effect_last; [apply effect_SubUnlockedCoins|]. intros _. apply effect_events.
  - apply effect_last; [apply effect_AddCoins|]. intros _. apply effect_skip; [apply effect_events|]. intros _. apply effect_create.
Qed.

Lemma multi_move_total inputs outputs d :
  ch_total (multi_move inputs outputs) d = (io_sum outputs d - io_sum inputs d) * U /\
  ch_deferred (multi_move inputs outputs) d = 0 /\ ch_supply (multi_move inputs outputs) d = 0.
Proof.
  assert (Hgen : forall s l, let c := changes_sum (fun x => credit_coins (io_addr x) x.2 s) l in
    ch_total c d = s * io_sum l d * U /\ ch_deferred c d = 0 /\ ch_supply c d = 0).
  { intros s l. cbv zeta. unfold io_sum. induction l as [|x l (H1 & H2 & H3)]; simpl; [lia|]. rewrite H1, H2, H3. lia. }
  destruct (Hgen (-1) inputs) as (H1 & H2 & H3). destruct (Hgen 1 outputs) as (H4 & H5 & H6).
  unfold multi_move. simpl. rewrite H1, H2, H3, H4, H5, H6. lia.
Qed.

(** ** Sending both usei and wei *)
Definition transfer (x y : AccAddress) (d : string) (z : Z) : change := both (credit x d (- z)) (credit y d z).

Lemma effect_SendCoinsAndWei x y amt wei :
  0 <= wei -> effect (SendCoinsAndWei env x y amt wei) (transfer x y base (Z.max 0 amt * U + wei)).
Proof.
  intros Hw. apply (effect_same env _ (both (transfer x y base wei) (transfer x y base (Z.max 0 amt * U)))).
  { unfold transfer, both, credit, credit_value. split; [|split; [|done]]; intros; simpl; repeat case_bool_decide; simpl; lia. }
  unfold SendCoinsAndWei, transfer at 1.
  apply (effect_same env _ (both (credit x base (- wei)) (both (credit y base wei) (transfer x y base (Z.max 0 amt * U))))).
  { split; [|split; [|split]]; intros; simpl; lia. }
  apply effect_bind; [by apply effect_SubWei|]. intros _. apply effect_bind; [by apply effect_AddWei|]. intros _.
  apply effect_skip; [apply effect_events|]. intros _. case_bool_decide as Ha.
  - intros b b' u Hwf (b1 & c & H1 & H2)%bind_run. apply or_panic_run in H1 as [-> H1].
    apply NewCoin_run in H1 as (-> & Hd & _). rewrite NewCoins_ok in H2 by by apply coin_ok.
    apply bind_run in H2 as (b1 & cs & H3 & H4). injection H3 as <- <-.
    eapply changes_same; [|by eapply effect_send]. unfold move, transfer, both, credit, credit_value, credit_coins.
    split; [|split; [|done]]; intros; cbn [ch_value ch_total]; rewrite !amount_singleton; repeat case_bool_decide; simpl; lia.
  - eapply effect_same, effect_ret. unfold transfer, both, credit, credit_value.
    split; [|split; [|done]]; intros; simpl; repeat case_bool_decide; simpl; lia.
Qed.

(** ** The operations of the bank *)
Inductive bank_op :=
| OpSendCoins (x y : AccAddress) (amt : Coins)
| OpSendCoinsAndWei (x y : AccAddress) (amt wei : Z)
| OpInputOutputCoins (inputs outputs : list io)
| OpSendModuleToAccount (m : string) (y : AccAddress) (amt : Coins)
| OpSendModuleToModule (m m' : string) (amt : Coins)
| OpSendAccountToModule (x : AccAddress) (m : string) (amt : Coins)
| OpDelegate (x y : AccAddress) (amt : Coins)
| OpUndelegate (y x : AccAddress) (amt : Coins)
| OpDelegateToModule (x : AccAddress) (m : string) (amt : Coins)
| OpUndelegateFromModule (m : string) (x : AccAddress) (amt : Coins)
| OpMint (m : string) (amt : Coins)
| OpBurn (m : string) (amt : Coins)
| OpDeferredSend (x : AccAddress) (m : string) (amt : Coins)
| OpWriteDeferred.

Definition run_op (o : bank_op) : BM () :=
  match o with
  | OpSendCoins x y amt => SendCoins env x y amt
  | OpSendCoinsAndWei x y amt wei => SendCoinsAndWei env x y amt wei
  | OpInputOutputCoins inputs outputs => InputOutputCoins env inputs outputs
  | OpSendModuleToAccount m y amt => SendCoinsFromModuleToAccount env m y amt
  | OpSendModuleToModule m m' amt => SendCoinsFromModuleToModule env m m' amt
  | OpSendAccountToModule x m amt => SendCoinsFromAccountToModule env x m amt
  | OpDelegate x y amt => DelegateCoins env x y amt
  | OpUndelegate y x amt => UndelegateCoins env y x amt
  | OpDelegateToModule x m amt => DelegateCoinsFromAccountToModule env x m amt
  | OpUndelegateFromModule m x amt => UndelegateCoinsFromModuleToAccount env m x amt
  | OpMint m amt => MintCoins env m amt
  | OpBurn m amt => BurnCoins env m amt
  | OpDeferredSend x m amt => DeferredSendCoinsFromAccountToModule env x m amt
  | OpWriteDeferred => _ ← WriteDeferredBalances env; mret tt
  end.

(** The ledger change of an operation in state [b]. *)
Definition op_change (o : bank_op) b : change :=
  match o with
  | OpSendCoins x y amt => move x y amt
  | OpSendCoinsAndWei x y amt wei => transfer x y base (Z.max 0 amt * U + wei)
  | OpInputOutputCoins inputs outputs => multi_move inputs outputs
  | OpSendModuleToAccount m y amt => move (module_addr env m) y amt
  | OpSendModuleToModule m m' amt => if coins_IsZero amt then no_change else move (module_addr env m) (module_addr env m') amt
  | OpSendAccountToModule x m amt => move x (module_addr env m) amt
  | OpDelegate x y amt => move x y amt
  | OpUndelegate y x amt => move y x amt
  | OpDelegateToModule x m amt => move x (module_addr env m) amt
  | OpUndelegateFromModule m x amt => move (module_addr env m) x amt
  | OpMint m amt => mint (module_addr env m) amt 1
  | OpBurn m amt => mint (module_addr env m) amt (-1)
  | OpDeferredSend x m amt => defer x amt
  | OpWriteDeferred => flush b
  end.

(** The EVM never sends a negative number of wei. *)
Definition op_ok (o : bank_op) : Prop := match o with OpSendCoinsAndWei _ _ _ wei => 0 <= wei | _ => True end.

Lemma run_op_changes o b b' u : bank_wf b -> op_ok o -> run_op o b = Some (b', inl u) -> changes (op_change o b) b b'.
Proof.
  intros Hwf Hok Hrun. assert (Heff : o = OpWriteDeferred \/ effect (run_op o) (op_change o b)).
  2: { destruct Heff as [->|Heff]; [|by eapply Heff].
       apply bind_run in Hrun as (b1 & evs & H1 & H2). injection H2 as <-. by eapply WriteDeferred_changes. }
  clear Hrun. destruct o; simpl in *; [right..|by left].
  - apply effect_SendCoins.
  - by apply effect_SendCoinsAndWei.
  - apply effect_InputOutputCoins.
  - apply effect_module_address_then. case_match; [apply effect_fail|apply effect_SendCoins].
  - apply effect_module_address_then, effect_must_module_then. intros perms. case_match; [apply effect_ret|apply effect_SendCoins].
  - apply effect_must_module_then. intros perms. apply effect_SendCoins.
  - apply effect_DelegateCoins.
  - apply effect_UndelegateCoins.
  - apply effect_must_module_then. intros perms. case_match; [apply effect_panics|apply effect_DelegateCoins].
  - apply effect_must_module_then. intros perms. case_match; [apply effect_panics|apply effect_UndelegateCoins].
  - apply effect_MintCoins.
  - apply effect_BurnCoins.
  - apply effect_DeferredSend.
Qed.
End Supply.
