(* ===== verification/BankOps.v ===== *)
(** The supply invariant over histories of bank operations, and when debits succeed. *)
From stdpp Require Import base gmap sets list strings sorting fin_maps relations.
From Stdlib Require Import Lia ZArith.
From S2P Require Import Prelude Coins CoinsSpec Vesting Bank BankSpec BankInv BankSupply.
Local Open Scope Z_scope.

(** Everything held by accounts or deferred is covered by the supply, and the reverse. *)
Definition backed (env : bank_env) (b : bank) : Prop :=
  forall d, total env b d + deferred_total b d = supply b d * OneUseiInWei.

(** A step of the chain: an operation that succeeds, in an environment with the same base
    denomination (block time, transaction index and the rest may differ), or one that
    fails or panics and whose writes are dropped. *)
Inductive bank_step (base : string) : bank -> bank -> Prop :=
| step_op env o b b' u : be_baseDenom env = base -> op_ok o -> run_op env o b = Some (b', inl u) -> bank_step base b b'
| step_reverted env o b : be_baseDenom env = base -> (forall b' u, run_op env o b <> Some (b', inl u)) -> bank_step base b b.

Section Debits.
Context (env : bank_env).
Implicit Types b : bank.
Abbreviation U := OneUseiInWei.
Abbreviation base := (be_baseDenom env).

(** ** The supply invariant *)
Lemma move_balanced x y amt d : ch_total (move x y amt) d + ch_deferred (move x y amt) d = ch_supply (move x y amt) d * U.
Proof. simpl. lia. Qed.

(** Every operation that succeeds changes what is held by as much as the supply. *)
Lemma op_balanced o b b' u d :
  run_op env o b = Some (b', inl u) ->
  ch_total (op_change env o b) d + ch_deferred (op_change env o b) d = ch_supply (op_change env o b) d * U.
Proof.
  intros Hrun. destruct o; cbn [op_change]; try apply move_balanced.
  - simpl. case_bool_decide; lia.
  - destruct (multi_move_total inputs outputs d) as (-> & -> & ->). cbn [run_op] in Hrun.
    apply bind_run in Hrun as (b1 & [] & H1 & _). rewrite (ValidateInputsOutputs_sums _ _ _ _ _ H1 d). lia.
  - destruct (coins_IsZero amt); [done|apply move_balanced].
  - simpl. lia.
  - simpl. lia.
  - simpl. lia.
  - simpl. lia.
Qed.

Lemma total_base env' b d : be_baseDenom env' = base -> total env' b d = total env b d.
Proof. intros He. unfold total. by rewrite He. Qed.

End Debits.

Lemma step_invariant env b b' :
  bank_step (be_baseDenom env) b b' -> bank_wf b -> backed env b -> bank_wf b' /\ backed env b'.
Proof.
  intros [env' o b1 b2 u He Hok Hrun|env' o b1 _ _] Hwf Hb; [|done].
  destruct (run_op_changes env' o b1 b2 u Hwf Hok Hrun) as (Hwf' & _ & T & D & S). split; [done|]. intros d.
  pose proof (op_balanced env' o b1 b2 u d Hrun). specialize (Hb d).
  rewrite <- (total_base env env' _ d He), T, D, S, (total_base env env' _ d He). lia.
Qed.

Lemma value_bounds env b x d : bank_wf b -> backed env b -> 0 <= value env b x d <= supply b d * OneUseiInWei.
Proof.
  intros Hwf Hb. rewrite <- Hb. unfold value, total, deferred_total. pose proof (wf_wei_val b x Hwf). pose proof (wf_val b x d Hwf).
  assert (Hd : 0 <= sum_by (fun k : AccAddress * Z * string => bool_decide (k.2 = d)) (b_deferred b)).
  { apply sum_nonneg. intros k z Hz. apply (wf_deferred b Hwf k z Hz). }
  assert (H1 : val (b_balances b) (x, d) <= sum_by (fun k : AccAddress * string => bool_decide (k.2 = d)) (b_balances b)).
  { apply (val_le_sum (fun k : AccAddress * string => bool_decide (k.2 = d)) (b_balances b) (x, d)); [|by apply bool_decide_eq_true].
    intros k z Hz. apply (wf_balances b Hwf k z Hz). }
  assert (H2 : val (b_wei b) x <= sum_by (fun _ => true) (b_wei b)).
  { apply (val_le_sum (fun _ => true)); [|done]. intros k z Hz. apply (wf_wei b Hwf k z Hz). }
  case_bool_decide; unfold OneUseiInWei in *; nia.
Qed.

(** C20. Each bank operation that returns without an error has made exactly its ledger
    change: the value of every account in every denomination, at the precision of a wei,
    the totals, the deferred amounts and the supply changed by what the operation says
    and by nothing else, and the stores stay well formed. *)
Theorem bank_ops_ledger env o b b' u :
  bank_wf b -> op_ok o -> run_op env o b = Some (b', inl u) ->
  bank_wf b' /\ (forall x d, value env b' x d = value env b x d + ch_value (op_change env o b) x d) /\
  (forall d, total env b' d = total env b d + ch_total (op_change env o b) d) /\
  (forall d, deferred_total b' d = deferred_total b d + ch_deferred (op_change env o b) d) /\
  forall d, supply b' d = supply b d + ch_supply (op_change env o b) d.
Proof. apply run_op_changes. Qed.

(** C2. The supply invariant: along any history of bank operations (sends, module and
    multi-sends, wei sends, delegations, mints, burns, deferred sends and their payout),
    with failing operations reverted, the stores stay well formed, in every denomination
    the accounts' holdings and the deferred amounts add up to the supply exactly, and no
    account holds a negative amount or more than the supply. *)
Theorem supply_invariant env b b' :
  bank_wf b -> backed env b -> rtc (bank_step (be_baseDenom env)) b b' ->
  bank_wf b' /\ backed env b' /\ forall x d, 0 <= value env b' x d <= supply b' d * OneUseiInWei.
Proof.
  intros Hwf Hb Hsteps. enough (bank_wf b' /\ backed env b') as [? ?] by (split; [done|]; split; [done|]; intros; by apply value_bounds).
  induction Hsteps as [b|b b1 b' Hstep _ IH]; [done|]. destruct (step_invariant env b b1 Hstep Hwf Hb) as [??]. auto.
Qed.

(** ** Debits *)
Section Spend.
Context (env : bank_env).
Implicit Types b : bank.
Abbreviation U := OneUseiInWei.
Abbreviation base := (be_baseDenom env).

Definition spendable b (x : AccAddress) (locked : Coins) (c : Coin) : bool :=
  bool_decide (amount locked (Denom c) + Amount c <= val (b_balances b) (x, Denom c)).

Lemma GetBalance_eq b x d : ValidateDenom d = true -> GetBalance x d b = Some (b, inl (mkCoin d (val (b_balances b) (x, d)))).
Proof.
  intros Hd. unfold GetBalance, val, mbind, BM_bind, reads. simpl. destruct (b_balances b !! (x, d)) as [z|]; [done|]. simpl.
  by rewrite NewCoin_some.
Qed.

(** The comparison of the loop is [SafeSub] on one-coin sets. *)
Lemma SafeSub_one d s z :
  0 <= s < 2 ^ 256 -> 0 <= z < 2 ^ 256 ->
  exists diff, coins_SafeSub [mkCoin d s] [mkCoin d z] = Some (diff, bool_decide (s < z)).
Proof.
  intros Hs Hz. unfold coins_SafeSub.
  assert (S1 : forall w, sorted_coins [mkCoin d w]) by (intros w; repeat constructor).
  pose proof (coins_safeAdd_spec [mkCoin d s] (coins_negative [mkCoin d z]) (S1 _) (S1 _)) as H.
  destruct (coins_safeAdd _ _) as [diff|]; simpl in H.
  - exists diff. simpl. f_equal. f_equal. destruct H as (Hsd & _ & Hd & _).
    apply Bool.eq_true_iff_eq. rewrite IsAnyNegative_spec, bool_decide_eq_true by done. split.
    + intros [d' Hd']. rewrite Hd in Hd'. simpl in Hd'. case_bool_decide; lia.
    + intros Hlt. exists d. rewrite Hd. simpl. rewrite bool_decide_eq_true_2 by done. lia.
  - destruct H as [d' H]. unfold int_fits in H. apply bool_decide_eq_false in H. exfalso. apply H. simpl. case_bool_decide; lia.
Qed.

Lemma coin_Sub_eq d y z : 0 <= z <= y -> y < 2 ^ 256 -> coin_Sub (mkCoin d y) (mkCoin d z) = Some (mkCoin d (y - z)).
Proof.
  intros Hz Hy. unfold coin_Sub, coin_SubUnsafe, coin_IsNegative. simpl. rewrite bool_decide_eq_true_2 by done.
  rewrite int_sub_spec, int_fits_nonneg by lia. simpl. by rewrite bool_decide_eq_false_2 by lia.
Qed.

Lemma setBalance_eq x c b :
  coin_Validate c = true -> setBalance x c true b = Some (set_balances b (put (x, Denom c) (Amount c) (b_balances b)), inl tt).
Proof. intros Hc. unfold setBalance, put, coin_IsZero. rewrite Hc. simpl. by case_bool_decide. Qed.

(** One round of the loop of [SubUnlockedCoins]. *)
Lemma sub_coin_exact b x locked c :
  bank_wf b -> coins_ok locked -> ValidateDenom (Denom c) = true -> 0 <= Amount c < 2 ^ 256 ->
  amount locked (Denom c) <= val (b_balances b) (x, Denom c) ->
  sub_unlocked_coin x locked true c b =
  if spendable b x locked c
  then Some (set_balances b (put (x, Denom c) (val (b_balances b) (x, Denom c) - Amount c) (b_balances b)), inl tt)
  else Some (b, inr ErrInsufficientFunds).
Proof.
  intros Hwf (_ & Hlp & _) Hd Hc Hle. destruct c as [d z]. simpl in *. pose proof (wf_val b x d Hwf) as Hbal.
  pose proof (amount_nonneg locked d Hlp) as Hl0.
  unfold sub_unlocked_coin, mbind, BM_bind at 1. simpl. rewrite GetBalance_eq by done. unfold BM_bind at 1 2 3 4 5.
  unfold coins_AmountOf. rewrite Hd. simpl. rewrite NewCoin_some by done. simpl. rewrite coin_Sub_eq by lia. simpl.
  destruct (SafeSub_one d (val (b_balances b) (x, d) - amount locked d) z) as [diff Hdiff]; [lia|done|]. rewrite Hdiff. simpl.
  unfold spendable. simpl. destruct (decide (amount locked d + z <= val (b_balances b) (x, d))) as [Hs|Hs].
  - rewrite (bool_decide_eq_true_2 (_ + _ <= _)), (bool_decide_eq_false_2 (_ < _)) by lia. simpl.
    unfold BM_bind. rewrite coin_Sub_eq by lia. simpl. apply setBalance_eq. unfold coin_Validate, coin_IsNegative. simpl.
    by rewrite Hd, bool_decide_eq_false_2 by lia.
  - by rewrite (bool_decide_eq_false_2 (_ + _ <= _)), (bool_decide_eq_true_2 (_ < _)) by lia.
Qed.

(** The loop: the coins are of distinct denominations, so each is judged by the balance
    before the loop. *)
Lemma sub_coins_exact b x locked amt :
  bank_wf b -> coins_ok locked -> coins_ok amt -> fits amt ->
  (forall c, c ∈ amt -> amount locked (Denom c) <= val (b_balances b) (x, Denom c)) ->
  exists b', for_each (sub_unlocked_coin x locked true) amt b =
    Some (b', if forallb (spendable b x locked) amt then inl tt else inr ErrInsufficientFunds).
Proof.
  intros Hwf Hl (Hs & Hp & Hv). revert b Hwf. induction amt as [|c amt IH]; intros b Hwf Hf Hle; [by exists b|].
  apply Forall_cons in Hp as [Hc Hp]. apply Forall_cons in Hv as [Hd Hv]. apply Forall_cons in Hf as [Hfc Hf].
  apply StronglySorted_inv in Hs as [Hs Hlt]. apply bool_decide_eq_true in Hfc. cbn [for_each]. unfold mbind, BM_bind.
  rewrite sub_coin_exact; [|done|done|done|lia|apply Hle; left]. cbn [forallb].
  destruct (spendable b x locked c) eqn:Hsp; [|by exists b]. apply bool_decide_eq_true in Hsp.
  set (b1 := set_balances b _). pose proof (wf_val b x (Denom c) Hwf).
  assert (Hwf1 : bank_wf b1).
  { apply (changes_balance env b x (Denom c)); [done| |done]. destruct Hl as (_ & Hl & _). pose proof (amount_nonneg locked (Denom c) Hl). lia. }
  assert (Hsame : forall c', c' ∈ amt -> val (b_balances b1) (x, Denom c') = val (b_balances b) (x, Denom c')).
  { intros c' Hc'. unfold b1. simpl. rewrite val_put, bool_decide_eq_false_2; [done|]. intros [= Heq].
    pose proof (proj1 (Forall_forall _ _) Hlt c' Hc') as Hlc. unfold coin_lt in Hlc. rewrite Heq in Hlc. by apply denom_lt_irrefl in Hlc. }
  destruct (IH Hs Hp Hv b1 Hwf1 Hf) as [b' Hb']; [intros c' Hc'; rewrite Hsame by done; apply Hle; by right|].
  exists b'. rewrite Hb'. f_equal. f_equal. simpl. enough (forallb (spendable b1 x locked) amt = forallb (spendable b x locked) amt) as -> by done.
  apply Bool.eq_true_iff_eq. rewrite !forallb_forall. unfold spendable. split; intros Hall c' Hc'; specialize (Hall c' Hc').
  - by rewrite Hsame in Hall by by apply list_elem_of_In.
  - by rewrite Hsame by by apply list_elem_of_In.
Qed.

(** C35. [SubUnlockedCoins] for an account whose locked coins are covered by its balance
    never panics: it succeeds exactly when in each denomination the amount and the locked
    amount together are within the balance, and then the account has been debited by
    exactly the amount; otherwise it returns [ErrInsufficientFunds]. *)
Theorem SubUnlockedCoins_exact b x locked amt :
  bank_wf b -> LockedCoins env x b = Some (b, inl locked) -> coins_ok locked -> coins_ok amt -> fits amt ->
  (forall c, c ∈ amt -> amount locked (Denom c) <= val (b_balances b) (x, Denom c)) ->
  exists b', SubUnlockedCoins env x amt true b =
      Some (b', if forallb (spendable b x locked) amt then inl tt else inr ErrInsufficientFunds) /\
    (forallb (spendable b x locked) amt = true -> changes env (credit_coins x amt (-1)) b b').
Proof.
  intros Hwf Hlock Hl Hok Hf Hle. destruct (sub_coins_exact b x locked amt Hwf Hl Hok Hf Hle) as [b1 Hb1].
  assert (Hrun : exists b', SubUnlockedCoins env x amt true b =
      Some (b', if forallb (spendable b x locked) amt then inl tt else inr ErrInsufficientFunds)).
  { unfold SubUnlockedCoins, require, mbind, BM_bind. rewrite (proj2 (coins_Validate_spec amt) Hok). simpl. rewrite Hlock, Hb1.
    destruct (forallb _ _); by eexists. }
  destruct Hrun as [b' Hrun]. exists b'. split; [done|]. intros Hall. rewrite Hall in Hrun.
  by apply (effect_SubUnlockedCoins env x amt b b' tt Hwf).
Qed.

(** ** Wei *)
Lemma setWei_eq x z b : setWeiBalance x z b = Some (set_wei b (put x z (b_wei b)), inl tt).
Proof. unfold setWeiBalance, put. by case_bool_decide. Qed.

Lemma value_base b x : value env b x base = val (b_balances b) (x, base) * U + val (b_wei b) x.
Proof. unfold value. by rewrite bool_decide_eq_true_2. Qed.

(** What [SubWei] writes: the wei balance alone when it is enough, else both balances. *)
Definition debit_wei b (x : AccAddress) (amt : Z) : bank :=
  let post := value env b x base - amt in
  if bool_decide (amt <= val (b_wei b) x) then set_wei b (put x (val (b_wei b) x - amt) (b_wei b))
  else set_wei (set_balances b (put (x, base) (Z.quot post U) (b_balances b))) (put x (post mod U) (b_wei b)).

Lemma SubWei_eq b x amt :
  bank_wf b -> ValidateDenom base = true -> 0 < amt < 2 ^ 256 -> value env b x base < 2 ^ 256 ->
  SubWei env x amt b =
  if bool_decide (amt <= value env b x base)
  then Some (set_events (debit_wei b x amt) (b_events b ++ [WeiSpent x amt]), inl tt) else Some (b, inr ErrInsufficientFunds).
Proof.
  intros Hwf Hd Hamt Hv. pose proof (wf_wei_val b x Hwf) as Hw. pose proof (wf_val b x base Hwf) as Hb. unfold debit_wei.
  rewrite value_base in *. set (bal := val (b_balances b) (x, base)) in *. set (w := val (b_wei b) x) in *.
  unfold SubWei. rewrite (bool_decide_eq_false_2 (amt = 0)) by lia. unfold mbind, BM_bind at 1 2. simpl.
  fold (val (b_wei b) x) w. destruct (decide (amt <= w)) as [Hle|Hle].
  { rewrite (bool_decide_eq_true_2 (amt <= w)), (bool_decide_eq_true_2 (amt <= bal * U + w)) by (done || unfold OneUseiInWei in *; lia).
    unfold BM_bind. rewrite int_sub_spec, int_fits_nonneg by (unfold OneUseiInWei in *; lia). simpl. by rewrite setWei_eq. }
  rewrite (bool_decide_eq_false_2 (amt <= w)) by done. unfold BM_bind at 1. rewrite GetBalance_eq by done. simpl. fold bal.
  assert (Hbu : 0 <= bal * U < 2 ^ 256) by (unfold OneUseiInWei in *; lia).
  unfold BM_bind at 1. rewrite int_mul_spec, int_fits_nonneg by (done || by apply int_fits_nonneg; lia). simpl.
  unfold BM_bind at 1. rewrite int_add_spec, int_fits_nonneg by lia. simpl.
  unfold BM_bind at 1. rewrite int_sub_spec. unfold int_fits. rewrite (bool_decide_eq_true_2 (Z.abs _ < _)) by lia. simpl.
  set (post := bal * U + w - amt) in *. destruct (decide (amt <= bal * U + w)) as [Hok|Hok].
  2: { by rewrite (bool_decide_eq_false_2 (amt <= bal * U + w)), (bool_decide_eq_true_2 (post < 0)) by (done || unfold post; lia). }
  rewrite (bool_decide_eq_true_2 (amt <= bal * U + w)), (bool_decide_eq_false_2 (post < 0)) by (done || unfold post; lia). simpl.
  assert (Hq : 0 <= Z.quot post U) by (apply Z.quot_pos; [unfold post; lia|done]).
  unfold BM_bind. rewrite NewCoin_some by done. simpl. rewrite setBalance_eq; [by rewrite setWei_eq|].
  unfold coin_Validate, coin_IsNegative. simpl. by rewrite Hd, bool_decide_eq_false_2 by lia.
Qed.

(** [SubWei] succeeds exactly when the account's usei and wei together cover the
    amount, and then debits exactly that; otherwise it returns [ErrInsufficientFunds]
    and writes nothing. *)
Theorem SubWei_exact b x amt :
  bank_wf b -> ValidateDenom base = true -> 0 < amt < 2 ^ 256 -> value env b x base < 2 ^ 256 ->
  if bool_decide (amt <= value env b x base)
  then exists b', SubWei env x amt b = Some (b', inl tt) /\ changes env (credit x base (- amt)) b b'
  else SubWei env x amt b = Some (b, inr ErrInsufficientFunds).
Proof.
  intros Hwf Hd Hamt Hv. pose proof (SubWei_eq b x amt Hwf Hd Hamt Hv) as Heq. case_bool_decide; [|done].
  eexists. split; [exact Heq|]. eapply effect_SubWei; [|done|exact Heq]. lia.
Qed.

Lemma sub_coin_panics b x locked c :
  ValidateDenom (Denom c) = true -> coins_ok locked -> val (b_balances b) (x, Denom c) < amount locked (Denom c) ->
  sub_unlocked_coin x locked true c b = None.
Proof.
  intros Hd (_ & Hlp & _) Hlt. destruct c as [d z]. simpl in *. pose proof (amount_nonneg locked d Hlp).
  unfold sub_unlocked_coin, mbind, BM_bind at 1. simpl. rewrite GetBalance_eq by done. unfold BM_bind.
  unfold coins_AmountOf. rewrite Hd. simpl. rewrite NewCoin_some by done. simpl.
  unfold coin_Sub, coin_SubUnsafe, coin_IsNegative. simpl. rewrite bool_decide_eq_true_2 by done. rewrite int_sub_spec.
  destruct (int_fits _); [|done]. simpl. by rewrite bool_decide_eq_true_2 by lia.
Qed.

(** C40. [SubWei] does not look at locked coins: an account all of whose usei are locked
    can spend them as wei, and after that a debit of usei with [SubUnlockedCoins] panics
    instead of returning [ErrInsufficientFunds]. *)
Theorem SubWei_spends_locked b x locked amt z :
  bank_wf b -> ValidateDenom base = true -> LockedCoins env x b = Some (b, inl locked) -> coins_ok locked ->
  val (b_balances b) (x, base) = amount locked base -> val (b_wei b) x = 0 ->
  0 < amt <= value env b x base -> value env b x base < 2 ^ 256 -> 0 < z ->
  exists b', SubWei env x amt b = Some (b', inl tt) /\ SubUnlockedCoins env x [mkCoin base z] true b' = None.
Proof.
  intros Hwf Hd Hlock Hl Hbal Hw Hamt Hv Hz. pose proof (SubWei_eq b x amt Hwf Hd ltac:(lia) Hv) as Heq.
  rewrite bool_decide_eq_true_2 in Heq by lia. eexists. split; [exact Heq|].
  assert (Hdeb : val (b_balances (debit_wei b x amt)) (x, base) < amount locked base).
  { unfold debit_wei. rewrite bool_decide_eq_false_2 by lia. simpl. rewrite val_put, bool_decide_eq_true_2 by done.
    rewrite Z.quot_div_nonneg by (done || lia). apply Z.div_lt_upper_bound; [done|]. rewrite value_base in *. unfold OneUseiInWei in *. lia. }
  unfold SubUnlockedCoins, require, mbind, BM_bind at 1. rewrite (proj2 (coins_Validate_spec _) (coin_ok _ _ Hd Hz)).
  unfold mret, BM_ret, BM_bind. cbn [for_each]. set (b1 := set_events _ _).
  assert (Hacc : b_accounts b1 = b_accounts b) by (unfold b1, debit_wei; simpl; by case_bool_decide).
  assert (Hlock1 : LockedCoins env x b1 = Some (b1, inl locked)).
  { unfold LockedCoins, mbind, BM_bind, GetAccount, reads in *. rewrite Hacc.
    destruct (b_accounts b !! x) as [[n|va|n nm p]|]; simpl in *; try by injection Hlock as <-.
    unfold or_panic in *. destruct (va_LockedCoins _ _); [|done]. by injection Hlock as <-. }
  rewrite Hlock1. unfold mbind, BM_bind. by rewrite (sub_coin_panics b1 x locked (mkCoin base z)).
Qed.
End Spend.

(** The total supply check of [invariants.go] against the supply invariant. *)
(** The amount of a denomination in a list of coins, repetitions included. *)
Definition coin_sum (l : Coins) (d : string) : Z := list_sum (fun c => if bool_decide (Denom c = d) then Amount c else 0) l.
Definition coins_pos (l : Coins) : Prop := Forall (fun c => amount_ok (Denom c) (Amount c)) l.

(** A sum of coins onto [acc] that adds the amounts [f], or panics for an amount of more
    than 256 bits. *)
Definition adds (o : option Coins) (acc : Coins) (f : string -> Z) : Prop :=
  match o with
  | Some r => coins_ok r /\ forall d, amount r d = amount acc d + f d
  | None => exists d, 2 ^ 256 <= amount acc d + f d
  end.

Lemma coin_sum_nonneg l d : coins_pos l -> 0 <= coin_sum l d.
Proof.
  intros Hl. apply list_sum_nonneg. intros c Hc. destruct (proj1 (Forall_forall _ _) Hl c Hc). case_bool_decide; lia.
Qed.

Lemma Add_adds a b : coins_ok a -> coins_ok b -> adds (coins_Add a b) a (amount b).
Proof.
  intros Ha Hb. destruct (coins_Add a b) as [s|] eqn:Hab; [by apply coins_Add_inv|by apply coins_Add_none].
Qed.

Lemma adds_ext o acc f g : (forall d, f d = g d) -> adds o acc f -> adds o acc g.
Proof. intros H. destruct o; simpl; [intros [? Hd]; split; [done|]; intros d; by rewrite <- H|intros [d Hd]; exists d; by rewrite <- H]. Qed.

Lemma add_all_adds acc l : coins_ok acc -> coins_pos l -> adds (add_all acc l) acc (coin_sum l).
Proof.
  intros Hacc Hl. revert acc Hacc. induction Hl as [|c l [Hc Hv] Hl IH]; intros acc Hacc.
  { simpl. split; [done|]. intros d. unfold coin_sum. simpl. lia. }
  assert (Hone : coins_ok [c]) by (destruct c; apply coin_ok; [done|apply Hc]). pose proof (Add_adds acc [c] Hacc Hone) as Ha. simpl.
  destruct (coins_Add acc [c]) as [acc'|]; simpl in *.
  - destruct Ha as [Hok Hd]. specialize (IH acc' Hok). destruct (add_all acc' l) as [r|]; simpl in *.
    + destruct IH as [Hr Hrd]. split; [done|]. intros d. rewrite Hrd, Hd. unfold coin_sum. simpl. lia.
    + destruct IH as [d Hr]. exists d. rewrite Hd in Hr. unfold coin_sum in *. simpl. lia.
  - destruct Ha as [d Hd]. exists d. pose proof (coin_sum_nonneg l d Hl). unfold coin_sum in *. simpl. lia.
Qed.

(** ** The supply, page by page *)
Definition entry_coins (l : list (string * Z)) : Coins := (fun kv => mkCoin kv.1 kv.2) <$> l.

Lemma page_supply_add_all acc l : coins_pos (entry_coins l) -> page_supply acc l = add_all acc (entry_coins l).
Proof.
  revert acc. induction l as [|[k z] l IH]; intros acc Hl; [done|]. apply Forall_cons in Hl as [[Hz Hv] Hl]. simpl in *.
  rewrite NewCoin_some by (done || lia). simpl. destruct (coins_Add acc _); [|done]. simpl. by apply IH.
Qed.

Lemma coin_sum_app l l' d : coin_sum (l ++ l') d = coin_sum l d + coin_sum l' d.
Proof. apply list_sum_app. Qed.

Lemma collect_adds fuel acc l :
  (length l < fuel)%nat -> coins_ok acc -> coins_pos (entry_coins l) -> adds (collect_pages fuel acc l) acc (coin_sum (entry_coins l)).
Proof.
  revert acc l. induction fuel as [|fuel IH]; intros acc l Hlen Hacc Hl; [lia|].
  assert (Hsplit : entry_coins l = entry_coins (take supplyPageSize l) ++ entry_coins (drop supplyPageSize l)).
  { unfold entry_coins. by rewrite <- fmap_app, take_drop. }
  assert (Hl' := Hl). rewrite Hsplit in Hl'. apply Forall_app in Hl' as [Hpage Hrest].
  apply (adds_ext _ _ (fun d => coin_sum (entry_coins (take supplyPageSize l)) d + coin_sum (entry_coins (drop supplyPageSize l)) d)).
  { intros d. by rewrite <- coin_sum_app, <- Hsplit. }
  simpl. rewrite page_supply_add_all by done. assert (Hnil : coins_ok []) by by apply coins_Validate_spec.
  pose proof (add_all_adds [] _ Hnil Hpage) as Hp. pose proof (fun d => coin_sum_nonneg _ d Hrest) as Hr0.
  pose proof (fun d => amount_nonneg acc d (proj1 (proj2 Hacc))) as Hacc0.
  destruct (add_all [] _) as [page|]; simpl in *; [|destruct Hp as [d Hd]; exists d; specialize (Hr0 d); specialize (Hacc0 d); lia].
  destruct Hp as [Hpok Hpd]. pose proof (Add_adds acc page Hacc Hpok) as Ha.
  destruct (coins_Add acc page) as [acc'|]; simpl in *; [|destruct Ha as [d Hd]; exists d; rewrite Hpd in Hd; specialize (Hr0 d); lia].
  destruct Ha as [Hok' Hd']. case_bool_decide as Hend.
  - split; [done|]. intros d. rewrite Hend. rewrite Hd', Hpd. unfold coin_sum. simpl. lia.
  - specialize (IH acc' (drop supplyPageSize l)). destruct (collect_pages fuel acc' _) as [r|]; simpl in *.
    + destruct IH as [Hr Hrd]; [rewrite length_drop; destruct l; simpl in *; [done|unfold supplyPageSize; lia]|done|done|].
      split; [done|]. intros d. rewrite Hrd, Hd', Hpd. lia.
    + destruct IH as [d Hd]; [rewrite length_drop; destruct l; simpl in *; [done|unfold supplyPageSize; lia]|done|done|].
      exists d. rewrite Hd', Hpd in Hd. lia.
Qed.

(** ** The sums over the stores *)
Lemma sum_by_key `{Countable K} (m : gmap K Z) (k : K) : sum_by (fun k' => bool_decide (k' = k)) m = val m k.
Proof.
  induction m as [|k' z m Hk IH] using map_ind; [done|]. rewrite sum_insert_None, IH by done. unfold val.
  destruct (decide (k' = k)) as [->|Hne].
  - rewrite bool_decide_eq_true_2, lookup_insert_eq, Hk by done. simpl. lia.
  - rewrite bool_decide_eq_false_2, lookup_insert_ne by done. lia.
Qed.

Lemma coin_sum_store `{Countable K} (key : K -> bytes) (denom : K -> string) (m : gmap K Z) d :
  coin_sum ((fun kv => mkCoin (denom kv.1) kv.2) <$> iterate key (map_to_list m)) d = sum_by (fun k => bool_decide (denom k = d)) m.
Proof. unfold coin_sum. by rewrite list_sum_fmap, list_sum_iterate, sum_by_list. Qed.

Lemma coins_pos_store `{Countable K} (key : K -> bytes) (denom : K -> string) (m : gmap K Z) :
  (forall k z, m !! k = Some z -> amount_ok (denom k) z) ->
  coins_pos ((fun kv => mkCoin (denom kv.1) kv.2) <$> iterate key (map_to_list m)).
Proof.
  intros Hm. apply Forall_forall. intros c ([k z] & -> & Hkv)%list_elem_of_fmap. unfold iterate in Hkv.
  rewrite merge_sort_Permutation in Hkv. apply elem_of_map_to_list in Hkv. by apply Hm.
Qed.

Lemma add_weis_sum acc l :
  0 <= acc -> Forall (fun w => 0 <= w) l -> acc + list_sum (fun w => w) l < 2 ^ 256 -> add_weis acc l = Some (acc + list_sum (fun w => w) l).
Proof.
  intros Hacc Hl. revert acc Hacc. induction Hl as [|w l Hw Hl IH]; intros acc Hacc Hlt; simpl in *; [f_equal; lia|].
  assert (0 <= list_sum (fun w => w) l) by (apply list_sum_nonneg; intros; by apply (proj1 (Forall_forall _ _) Hl)).
  rewrite int_add_spec, int_fits_nonneg by lia. simpl. rewrite IH by lia. f_equal. lia.
Qed.

Section Check.
Context (env : bank_env) (b : bank).
Abbreviation U := OneUseiInWei.
Abbreviation base := (be_baseDenom env).
Hypothesis Hwf : bank_wf b.
Hypothesis Hbase : ValidateDenom base = true.
Hypothesis Hwei : sum_by (fun _ => true) (b_wei b) < 2 ^ 256.

Definition balance_sum (d : string) : Z := sum_by (fun k : AccAddress * string => bool_decide (k.2 = d)) (b_balances b).
Definition deferred_sum (d : string) : Z := sum_by (fun k : AccAddress * Z * string => bool_decide (k.2 = d)) (b_deferred b).
Definition wei_sum : Z := sum_by (fun _ => true) (b_wei b).

Lemma collect_supply : exists sup, CollectAllTotalSupply b = Some sup /\ coins_ok sup /\ forall d, amount sup d = supply b d.
Proof.
  assert (Hpos : coins_pos (entry_coins (supply_entries b))) by (apply (coins_pos_store string_bytes (fun k => k)), (wf_supply b Hwf)).
  assert (Hnil : coins_ok []) by by apply coins_Validate_spec.
  assert (Hsum : forall d, coin_sum (entry_coins (supply_entries b)) d = supply b d).
  { intros d. etrans; [apply (coin_sum_store string_bytes (fun k => k))|]. apply sum_by_key. }
  pose proof (collect_adds (S (length (supply_entries b))) [] (supply_entries b) ltac:(lia) Hnil Hpos) as H.
  unfold CollectAllTotalSupply. destruct (collect_pages _ _ _) as [sup|]; simpl in H.
  - destruct H as [Hok Hd]. exists sup. split; [done|]. split; [done|]. intros d. by rewrite Hd, Hsum.
  - destruct H as [d Hd]. rewrite Hsum in Hd. pose proof (wf_supply_val b d Hwf). lia.
Qed.

(** The two loops over balances and deferred balances. *)
Lemma held_adds :
  adds (expectedTotal ← add_all [] ((all_balances b).*2); add_all expectedTotal ((deferred_balances b).*2)) []
    (fun d => balance_sum d + deferred_sum d).
Proof.
  assert (Hnil : coins_ok []) by by apply coins_Validate_spec.
  assert (E1 : (all_balances b).*2 = (fun kv : (AccAddress * string) * Z => mkCoin kv.1.2 kv.2) <$> iterate balance_key (map_to_list (b_balances b))).
  { unfold all_balances. by rewrite <- list_fmap_compose. }
  assert (E2 : (deferred_balances b).*2 =
    (fun kv : (AccAddress * Z * string) * Z => mkCoin kv.1.2 kv.2) <$> iterate deferred_key (map_to_list (b_deferred b))).
  { unfold deferred_balances. by rewrite <- list_fmap_compose. }
  rewrite E1, E2.
  pose proof (coins_pos_store balance_key (fun k : AccAddress * string => k.2) _ (wf_balances b Hwf)) as P1.
  pose proof (coins_pos_store deferred_key (fun k : AccAddress * Z * string => k.2) _ (wf_deferred b Hwf)) as P2.
  pose proof (add_all_adds [] _ Hnil P1) as H1. apply (adds_ext _ _ _ balance_sum) in H1; [|intros d; apply (coin_sum_store balance_key)].
  assert (D0 : forall d, 0 <= deferred_sum d) by (intros d; apply sum_nonneg; intros k z Hz; apply (wf_deferred b Hwf k z Hz)).
  destruct (add_all [] _) as [e|]; simpl in *; [|destruct H1 as [d Hd]; exists d; specialize (D0 d); lia].
  destruct H1 as [Hok He]. pose proof (add_all_adds e _ Hok P2) as H2.
  apply (adds_ext _ _ _ deferred_sum) in H2; [|intros d; apply (coin_sum_store deferred_key)].
  destruct (add_all e _) as [r|]; simpl in *.
  - destruct H2 as [Hr Hd]. split; [done|]. intros d. rewrite Hd, He. lia.
  - destruct H2 as [d Hd]. exists d. rewrite He in Hd. lia.
Qed.

Lemma weis_added : add_weis 0 ((iterate (fun a => a) (map_to_list (b_wei b))).*2) = Some wei_sum.
Proof.
  assert (Hs : list_sum (fun w => w) ((iterate (fun a => a) (map_to_list (b_wei b))).*2) = wei_sum).
  { unfold wei_sum. by rewrite list_sum_fmap, list_sum_iterate, sum_by_list. }
  rewrite add_weis_sum, Hs; [done|done| |rewrite Hs; unfold wei_sum; lia].
  apply Forall_forall. intros w ([k z] & -> & Hkv)%list_elem_of_fmap. unfold iterate in Hkv.
  rewrite merge_sort_Permutation in Hkv. apply elem_of_map_to_list in Hkv. pose proof (wf_wei b Hwf k z Hkv). simpl. lia.
Qed.

Lemma wei_sum_nonneg : 0 <= wei_sum.
Proof. apply sum_nonneg. intros k z Hz. apply (wf_wei b Hwf k z Hz). Qed.

(** The invariant, as the check computes it: no odd wei, and usei by usei. *)
Lemma backed_spelled :
  backed env b <-> wei_sum mod U = 0 /\
    forall d, balance_sum d + deferred_sum d + (if bool_decide (base = d) then Z.quot wei_sum U else 0) = supply b d.
Proof.
  pose proof wei_sum_nonneg as H0. rewrite Z.quot_div_nonneg by done. unfold backed, total, deferred_total.
  fold wei_sum. pose proof (Z.div_mod wei_sum U ltac:(done)) as Hdm.
  assert (Hfold : forall d, sum_by (fun k : AccAddress * string => bool_decide (k.2 = d)) (b_balances b) = balance_sum d) by done.
  assert (Hfold' : forall d, sum_by (fun k : AccAddress * Z * string => bool_decide (k.2 = d)) (b_deferred b) = deferred_sum d) by done.
  split.
  - intros Hb. assert (Hm : wei_sum mod U = 0).
    { specialize (Hb base). rewrite bool_decide_eq_true_2, Hfold, Hfold' in Hb by done.
      replace wei_sum with ((supply b base - balance_sum base - deferred_sum base) * U) by lia. by apply Z.mod_mul. }
    split; [done|]. intros d. specialize (Hb d). rewrite Hfold, Hfold' in Hb. unfold OneUseiInWei in *. case_bool_decide; lia.
  - intros [Hm Hd] d. specialize (Hd d). rewrite Hfold, Hfold'. unfold OneUseiInWei in *. case_bool_decide; lia.
Qed.

(** The last steps: the usei worth of the wei is added, and the sum compared. *)
Lemma compare_supply held sup :
  coins_ok held -> coins_ok sup -> (forall d, amount sup d = supply b d) ->
  (c ← NewCoin base (Z.quot wei_sum U); e ← coins_Add held [c]; eq ← coins_IsEqual e sup; Some (negb eq)) = Some false <->
  forall d, amount held d + (if bool_decide (base = d) then Z.quot wei_sum U else 0) = supply b d.
Proof.
  intros (Hh & Hhp & _) (Hs & Hsp & _) Hsd. assert (Hq0 : 0 <= Z.quot wei_sum U) by (apply Z.quot_pos; [apply wei_sum_nonneg|done]).
  rewrite NewCoin_some by done. cbn [mbind option_bind]. unfold coins_Add.
  pose proof (coins_safeAdd_spec held [mkCoin base (Z.quot wei_sum U)] Hh ltac:(repeat constructor)) as Ha.
  destruct (coins_safeAdd _ _) as [e|]; cbn [sums mbind option_bind] in *.
  - destruct Ha as (He & Hen & Hed & _). setoid_rewrite amount_singleton in Hed. setoid_rewrite <- Hed. setoid_rewrite <- Hsd.
    transitivity (coins_IsEqual e sup = Some true).
    { destruct (coins_IsEqual e sup) as [[]|]; simpl; split; congruence. }
    rewrite coins_IsEqual_true by done. split; [by intros ->|]. intros Heq. apply coins_ext; auto using positive_nonzero.
  - split; [done|]. intros Hd. destruct Ha as [d Ha]. rewrite amount_singleton, Hd, int_fits_nonneg in Ha; [done|].
    by apply wf_supply_val.
Qed.

Lemma TotalSupply_backed : TotalSupply env b = Some false <-> backed env b.
Proof.
  rewrite backed_spelled. destruct collect_supply as (sup & Hsup & Hsok & Hsd). pose proof held_adds as Hheld.
  unfold TotalSupply. rewrite Hsup, weis_added. cbn [mbind option_bind SplitUseiWeiAmount].
  assert (Hnone : (exists d, 2 ^ 256 <= amount [] d + (balance_sum d + deferred_sum d)) ->
    None = Some false <-> wei_sum mod U = 0 /\
      forall d, balance_sum d + deferred_sum d + (if bool_decide (base = d) then Z.quot wei_sum U else 0) = supply b d).
  { intros [d Hge]. split; [done|]. intros [_ Hd]. specialize (Hd d). simpl in Hge. pose proof (wf_supply_val b d Hwf).
    assert (0 <= Z.quot wei_sum U) by (apply Z.quot_pos; [apply wei_sum_nonneg|done]). case_bool_decide; lia. }
  destruct (add_all [] _) as [e|]; cbn [mbind option_bind] in *; [|by apply Hnone].
  destruct (add_all e _) as [held|]; cbn [mbind option_bind] in *; [|by apply Hnone].
  destruct Hheld as [Hok Hd]. case_bool_decide as Hm; [split; [done|by intros [??]]|].
  rewrite (compare_supply held sup Hok Hsok Hsd). setoid_rewrite Hd. simpl. tauto.
Qed.
End Check.

(** C25. The total supply check is exact: for a well-formed bank whose wei balances sum
    to less than 256 bits, it answers that the invariant is not broken exactly when, in
    every denomination, holdings and deferred amounts add up to the supply. *)
Theorem TotalSupply_exact env b :
  bank_wf b -> ValidateDenom (be_baseDenom env) = true -> sum_by (fun _ => true) (b_wei b) < 2 ^ 256 ->
  TotalSupply env b = Some false <-> backed env b.
Proof. intros. by apply TotalSupply_backed. Qed.
