(* ===== verification/BankErrors.v ===== *)
(** Bank operations that cannot return an error: an error in the middle of an operation
    leaves what was written before it, so that callers that only log an error, as the
    end of an EVM block does, rely on the error not to happen. *)
From stdpp Require Import base gmap sets list strings.
From Stdlib Require Import ZArith Lia.
From S2P Require Import Prelude Coins CoinsSpec Vesting Bank BankSpec BankInv BankOps.
Local Open Scope Z_scope.

(** The operation returns a result or panics. *)
Definition no_error {A} (m : BM A) (b : bank) : Prop := match m b with Some (_, inr _) => False | _ => True end.

Lemma no_error_bind {A B} (m : BM A) (f : A -> BM B) b :
  no_error m b -> (forall b1 a, m b = Some (b1, inl a) -> no_error (f a) b1) -> no_error (m ≫= f) b.
Proof. unfold no_error, mbind, BM_bind. destruct (m b) as [[b1 [a|e]]|]; [|done|done]. intros _ Hf. by apply Hf. Qed.

Lemma no_error_or_panic {A} (o : option A) b : no_error (or_panic o) b.
Proof. by destruct o. Qed.
Lemma no_error_GetBalance x d b : no_error (GetBalance x d) b.
Proof. unfold no_error. destruct (GetBalance x d b) as [r|] eqn:Hr; [|done]. apply GetBalance_run in Hr. by subst. Qed.
Lemma no_error_require c e b : c = true -> no_error (require c e) b.
Proof. by intros ->. Qed.
Lemma no_error_setBalance x c b : coin_Validate c = true -> no_error (setBalance x c true) b.
Proof. intros Hc. unfold no_error. by rewrite setBalance_eq. Qed.
Lemma no_error_setWei x z b : no_error (setWeiBalance x z) b.
Proof. unfold no_error. by rewrite setWei_eq. Qed.
Create HintDb bankerr.
#[local] Hint Resolve no_error_or_panic no_error_GetBalance no_error_setWei : bankerr.

(** One step of an operation. *)
Ltac step := apply no_error_bind; [eauto with bankerr|].

Lemma coin_Validate_ok c : ValidateDenom (Denom c) = true -> 0 <= Amount c -> coin_Validate c = true.
Proof. intros Hd Ha. unfold coin_Validate, coin_IsNegative. by rewrite Hd, bool_decide_eq_false_2 by lia. Qed.

Section Errors.
Context (env : bank_env).
Abbreviation base := (be_baseDenom env).
Implicit Types b : bank.

Definition can_receive b (y : AccAddress) : Prop := forallb (fun rc => rc b y) (be_recipientCheckers env) = true.

Lemma no_error_CanSendTo y b : no_error (CanSendTo env y) b.
Proof. done. Qed.

Lemma no_error_add_coin y c b : bank_wf b -> ValidateDenom (Denom c) = true -> 0 <= Amount c -> no_error (add_coin_to y true c) b.
Proof.
  intros Hwf Hd Hc. unfold add_coin_to. step. intros b1 bal [= -> ->]%GetBalance_run. step.
  intros b1 nb [-> Hnb]%or_panic_run. apply coin_Add_run in Hnb as [-> _]. apply no_error_setBalance, coin_Validate_ok; [done|].
  simpl. pose proof (wf_val b y (Denom c) Hwf). lia.
Qed.

Lemma no_error_add_coins y cs b : bank_wf b -> coins_ok cs -> no_error (for_each (add_coin_to y true) cs) b.
Proof.
  intros Hwf (_ & Hp & Hv). revert b Hwf. induction cs as [|c cs IH]; intros b Hwf; [done|].
  apply Forall_cons in Hp as [Hc Hp]. apply Forall_cons in Hv as [Hd Hv]. cbn [for_each].
  apply no_error_bind; [apply no_error_add_coin; [done|done|lia]|]. intros b1 [] H1. apply IH; [done|done|].
  exact (proj1 (effect_add_coin env y c ltac:(lia) _ _ _ Hwf H1)).
Qed.

Lemma no_error_AddCoins y cs b : bank_wf b -> can_receive b y -> coins_ok cs -> no_error (AddCoins env y cs true) b.
Proof.
  intros Hwf Hy Hok. unfold AddCoins. step; [apply no_error_CanSendTo|]. intros b1 ok [= <- <-].
  step; [by apply no_error_require|]. intros b1 [] [-> _]%require_run.
  step; [by apply no_error_require, coins_Validate_spec|]. intros b1 [] [-> _]%require_run.
  step; [by apply no_error_add_coins|]. done.
Qed.

Lemma no_error_AddWei y amt b : can_receive b y -> no_error (AddWei env y amt) b.
Proof.
  intros Hy. unfold AddWei. step; [apply no_error_CanSendTo|]. intros b1 ok [= <- <-].
  step; [by apply no_error_require|]. intros b1 [] [-> _]%require_run. case_bool_decide; [done|].
  step; [done|]. intros b1 w _. step. intros b2 post _. step; [|done]. case_bool_decide; [auto with bankerr|].
  step. intros b3 usei _. destruct (SplitUseiWeiAmount post) as [credit wei]. step. intros b4 bal _. step.
  intros b5 c [-> Hc]%or_panic_run. apply NewCoin_run in Hc as (-> & Hd & Hz).
  step; [by apply no_error_setBalance, coin_Validate_ok|]. auto with bankerr.
Qed.

Lemma no_error_SubWei x amt b : amt <= val (b_wei b) x -> no_error (SubWei env x amt) b.
Proof.
  intros Hle. unfold SubWei. case_bool_decide; [done|]. step; [done|]. intros b1 w [= <- <-].
  fold (val (b_wei b) x). rewrite bool_decide_eq_true_2 by done. step; [|done]. step. auto with bankerr.
Qed.

(** A debit of at most what is not locked. *)
Lemma no_error_SubUnlocked x d z locked b :
  bank_wf b -> ValidateDenom d = true -> 0 < z -> LockedCoins env x b = Some (b, inl locked) ->
  amount locked d + z <= val (b_balances b) (x, d) -> no_error (SubUnlockedCoins env x [mkCoin d z] true) b.
Proof.
  intros Hwf Hd Hz Hlock Hle. unfold SubUnlockedCoins. step; [by apply no_error_require, coins_Validate_spec, coin_ok|].
  intros b1 [] [-> _]%require_run. step; [by unfold no_error; rewrite Hlock|]. intros b1 l Hl. rewrite Hlock in Hl. injection Hl as <- <-.
  step; [|done]. cbn [for_each]. step; [|done]. pose proof (wf_val b x d Hwf) as Hbal. unfold sub_unlocked_coin. cbn [Denom].
  step. intros b1 bal [= -> ->]%GetBalance_run. step.
  - step. intros b1 a [-> Ha]%or_panic_run. unfold coins_AmountOf in Ha. rewrite Hd in Ha. injection Ha as <-.
    step. intros b1 lc [-> Hlc]%or_panic_run. apply NewCoin_run in Hlc as (-> & _ & Hl0). step.
    intros b1 sp [-> Hsp]%or_panic_run. rewrite coin_Sub_eq in Hsp by lia. injection Hsp as <-. step.
    intros b1 [diff neg] [-> Hneg]%or_panic_run. apply no_error_require.
    destruct (SafeSub_one d (val (b_balances b) (x, d) - amount locked d) z) as [diff' Hd']; [lia|lia|].
    rewrite Hd' in Hneg. injection Hneg as <- <-. by rewrite bool_decide_eq_false_2 by lia.
  - intros b1 [] _. step. intros b2 nb [-> Hnb]%or_panic_run. apply coin_Sub_run in Hnb as (-> & _ & Hnb). by apply no_error_setBalance, coin_Validate_ok.
Qed.

(** A credit of wei lowers no balance and leaves the accounts. *)
Lemma AddWei_run y amt b b' u :
  bank_wf b -> 0 <= amt -> AddWei env y amt b = Some (b', inl u) ->
  b_accounts b' = b_accounts b /\ forall k, val (b_balances b) k <= val (b_balances b') k.
Proof.
  intros Hwf Hamt. unfold AddWei. intros (b1 & ok & [= <- <-] & H2)%bind_run. apply bind_run in H2 as (b1 & [] & [-> _]%require_run & H3).
  case_bool_decide; [by injection H3 as <-|]. apply bind_run in H3 as (b1 & w & [= <- <-] & H4).
  apply bind_run in H4 as (b1 & post & [-> Hp]%or_panic_run & H5). apply bind_run in H5 as (b1 & [] & H5 & [= <-]). simpl.
  case_bool_decide; [rewrite setWei_eq in H5; by injection H5 as <-|]. apply bind_run in H5 as (b2 & usei & [= -> ->]%GetBalance_run & H6).
  unfold SplitUseiWeiAmount in H6. apply bind_run in H6 as (b2 & bal & [-> Hb]%or_panic_run & H7).
  apply bind_run in H7 as (b2 & c & [-> Hc]%or_panic_run & H8). apply NewCoin_run in Hc as (-> & _ & _).
  apply bind_run in H8 as (b2 & [] & [-> _]%setBalance_run & H9). rewrite setWei_eq in H9. injection H9 as <-. simpl.
  split; [done|]. intros k. rewrite val_put. case_bool_decide as Hk; [|done]. subst k. rewrite int_add_spec in Hb, Hp.
  destruct (int_fits _); [|done]. destruct (int_fits _); [|done]. injection Hp as <-. injection Hb as <-. simpl.
  pose proof (wf_wei_val b y Hwf) as Hw. unfold val in Hw. enough (0 <= Z.quot (default 0 (b_wei b !! y) + amt) OneUseiInWei) by lia.
  apply Z.quot_pos; [lia|done].
Qed.

Lemma SubWei_run x amt b b' u :
  amt <= val (b_wei b) x -> SubWei env x amt b = Some (b', inl u) -> b_accounts b' = b_accounts b /\ b_balances b' = b_balances b.
Proof.
  intros Hle. unfold SubWei. case_bool_decide; [by intros [= <-]|]. intros (b1 & w & [= <- <-] & H2)%bind_run. fold (val (b_wei b) x) in H2.
  rewrite bool_decide_eq_true_2 in H2 by done. apply bind_run in H2 as (b1 & [] & H2 & [= <-]). apply bind_run in H2 as (b2 & post & [-> _]%or_panic_run & H3).
  rewrite setWei_eq in H3. by injection H3 as <-.
Qed.

Lemma LockedCoins_accounts x b b' locked :
  b_accounts b' = b_accounts b -> LockedCoins env x b = Some (b, inl locked) -> LockedCoins env x b' = Some (b', inl locked).
Proof.
  intros Hacc. unfold LockedCoins, mbind, BM_bind, GetAccount, reads. rewrite Hacc.
  destruct (b_accounts b !! x) as [[n|va|n nm p]|]; simpl; try by intros [= <-].
  unfold or_panic. destruct (va_LockedCoins _ _); [|done]. by intros [= <-].
Qed.

(** Sending all that is not locked, and all wei: the debits are covered. *)
Lemma no_error_send_all x y locked amt b :
  bank_wf b -> (forall b', can_receive b' y) -> LockedCoins env x b = Some (b, inl locked) ->
  amt = val (b_balances b) (x, base) - amount locked base ->
  no_error (SendCoinsAndWei env x y amt (val (b_wei b) x)) b.
Proof.
  intros Hwf Hy Hlock ->. pose proof (wf_wei_val b x Hwf) as Hw. unfold SendCoinsAndWei. set (w := val (b_wei b) x) in *.
  step; [by apply no_error_SubWei|]. intros b1 [] H1. destruct (SubWei_run x w b b1 tt ltac:(done) H1) as [A1 B1].
  assert (C1 := effect_SubWei env x w ltac:(lia) _ _ _ Hwf H1). step; [by apply no_error_AddWei|]. intros b2 [] H2.
  destruct (AddWei_run y w b1 b2 tt (proj1 C1) ltac:(lia) H2) as [A2 B2]. assert (C2 := effect_AddWei env y w ltac:(lia) _ _ _ (proj1 C1) H2).
  step; [done|]. intros b3 [] [= <-]. case_bool_decide as Hpos; [|done]. step. intros b3 c [-> Hc]%or_panic_run.
  apply NewCoin_run in Hc as (-> & Hd & _). rewrite NewCoins_ok by by apply coin_ok. step. intros b3 cs [= <- <-].
  assert (Hwf3 : bank_wf (set_events b2 (b_events b2 ++ [WeiTransfer y x w]))) by by apply (effect_events env [WeiTransfer y x w] b2 _ tt (proj1 C2)).
  set (b3 := set_events b2 _) in *. unfold SendCoinsWithoutAccCreation, sendCoinsWithoutAccCreation.
  step. { apply (no_error_SubUnlocked _ _ _ locked); [done|done|done| |].
    - eapply LockedCoins_accounts; [|exact Hlock]. unfold b3. simpl. by rewrite A2.
    - specialize (B2 (x, base)). rewrite B1 in B2. unfold b3. simpl. lia. }
  intros b4 [] H4. step; [|done]. apply no_error_AddCoins; [|done|by apply coin_ok]. exact (proj1 (effect_SubUnlockedCoins _ _ _ _ _ _ Hwf3 H4)).
Qed.
(** ** Operations that leave the accounts *)
Definition keeps_accounts {A} (m : BM A) : Prop := forall b b' r, m b = Some (b', r) -> b_accounts b' = b_accounts b.

Lemma accts_bind {A B} (m : BM A) (f : A -> BM B) : keeps_accounts m -> (forall a, keeps_accounts (f a)) -> keeps_accounts (m ≫= f).
Proof.
  intros Hm Hf b b' r. unfold mbind, BM_bind. destruct (m b) as [[b1 [a|e]]|] eqn:H1; [| |done].
  - intros H2. rewrite (Hf a b1 b' r H2). by eapply Hm.
  - intros [= <- <-]. by eapply Hm.
Qed.
Lemma accts_ret {A} (a : A) : keeps_accounts (mret a).
Proof. by intros b b' r [= <- _]. Qed.
Lemma accts_or_panic {A} (o : option A) : keeps_accounts (or_panic o).
Proof. intros b b' r. unfold or_panic. destruct o; [|done]. by intros [= <- _]. Qed.
Lemma accts_reads {A} (f : bank -> A) : keeps_accounts (reads f).
Proof. by intros b b' r [= <- _]. Qed.
Lemma accts_require c e : keeps_accounts (require c e).
Proof. intros b b' r. unfold require. destruct c; by intros [= <- _]. Qed.
Lemma accts_events evs : keeps_accounts (EmitEvents evs).
Proof. by intros b b' r [= <- _]. Qed.
Lemma accts_setBalance x c neg : keeps_accounts (setBalance x c neg).
Proof. intros b b' r. unfold setBalance. destruct (neg && _); [by intros [= <- _]|]. destruct (coin_IsZero c); by intros [= <- _]. Qed.
Lemma accts_setWei x z : keeps_accounts (setWeiBalance x z).
Proof. intros b b' r. rewrite setWei_eq. by intros [= <- _]. Qed.
Lemma accts_for_each {A} (f : A -> BM ()) l : (forall x, keeps_accounts (f x)) -> keeps_accounts (for_each f l).
Proof. intros Hf. induction l; [apply accts_ret|]. apply accts_bind; auto. Qed.
#[local] Hint Resolve accts_ret accts_or_panic accts_reads accts_require accts_events accts_setBalance accts_setWei accts_for_each : bankerr.

(** Operations made of such steps. *)
Ltac keeps := repeat (first [progress (auto with bankerr) | apply accts_bind; [|intros] | case_match]).

Lemma accts_GetBalance x d : keeps_accounts (GetBalance x d).
Proof. unfold GetBalance. keeps. Qed.
#[local] Hint Resolve accts_GetBalance : bankerr.
Lemma accts_SubWei x amt : keeps_accounts (SubWei env x amt).
Proof. unfold SubWei, GetWeiBalance, SplitUseiWeiAmount. keeps. Qed.
Lemma accts_AddWei x amt : keeps_accounts (AddWei env x amt).
Proof. unfold AddWei, GetWeiBalance, CanSendTo, SplitUseiWeiAmount. keeps. Qed.
Lemma accts_AddCoins x cs : keeps_accounts (AddCoins env x cs true).
Proof. unfold AddCoins, CanSendTo, add_coin_to. keeps. apply accts_for_each. intros c. keeps. Qed.
Lemma accts_SubUnlockedCoins x cs : keeps_accounts (SubUnlockedCoins env x cs true).
Proof. unfold SubUnlockedCoins, LockedCoins, GetAccount. keeps. apply accts_for_each. intros c. unfold sub_unlocked_coin. keeps. Qed.
#[local] Hint Resolve accts_SubWei accts_AddWei accts_AddCoins accts_SubUnlockedCoins : bankerr.
Lemma accts_SendCoinsAndWei x y amt wei : keeps_accounts (SendCoinsAndWei env x y amt wei).
Proof. unfold SendCoinsAndWei, SendCoinsWithoutAccCreation, sendCoinsWithoutAccCreation. keeps. Qed.

(** ** Operations that do not panic *)
Definition no_crash {A} (m : BM A) (b : bank) : Prop := m b <> None.

Lemma crash_bind {A B} (m : BM A) (f : A -> BM B) b :
  no_crash m b -> (forall b1 a, m b = Some (b1, inl a) -> no_crash (f a) b1) -> no_crash (m ≫= f) b.
Proof. unfold no_crash, mbind, BM_bind. destruct (m b) as [[b1 [a|e]]|]; [|done|done]. intros _ Hf. by apply Hf. Qed.
Lemma crash_GetBalance x d b : ValidateDenom d = true -> no_crash (GetBalance x d) b.
Proof. intros Hd. unfold no_crash. by rewrite GetBalance_eq. Qed.
Lemma crash_require c e b : no_crash (require c e) b.
Proof. by destruct c. Qed.
Lemma crash_setBalance x c b : no_crash (setBalance x c true) b.
Proof. unfold no_crash, setBalance. destruct (_ && _); [done|]. by destruct (coin_IsZero c). Qed.
Lemma crash_setWei x z b : no_crash (setWeiBalance x z) b.
Proof. unfold no_crash. by rewrite setWei_eq. Qed.
Lemma crash_or_panic {A} (o : option A) b : is_Some o -> no_crash (or_panic o) b.
Proof. by intros [a ->]. Qed.
#[local] Hint Resolve crash_GetBalance crash_require crash_setBalance crash_setWei : bankerr.
Ltac walk := apply crash_bind; [auto with bankerr|].

Hypothesis Hden : ValidateDenom base = true.

Lemma balance_le_total b x : bank_wf b -> val (b_balances b) (x, base) * OneUseiInWei <= total env b base.
Proof.
  intros Hwf. unfold total. rewrite bool_decide_eq_true_2 by done.
  assert (0 <= sum_by (fun _ => true) (b_wei b)) by (apply sum_nonneg; intros k v Hk; by apply (wf_wei b Hwf k v)).
  assert (val (b_balances b) (x, base) <= sum_by (fun k : AccAddress * string => bool_decide (k.2 = base)) (b_balances b)).
  { apply val_le_sum; [intros k v Hk; by apply (wf_balances b Hwf k v)|]. by apply bool_decide_eq_true. }
  unfold OneUseiInWei. lia.
Qed.

Lemma int_fits_add a c : 0 <= a -> 0 <= c -> a + c < 2 ^ 256 -> is_Some (int_add a c).
Proof. intros. rewrite int_add_spec, int_fits_nonneg by lia. eauto. Qed.

Lemma crash_AddWei y amt b :
  bank_wf b -> 0 <= amt < OneUseiInWei -> total env b base < 2 ^ 250 -> no_crash (AddWei env y amt) b.
Proof.
  intros Hwf Ha Ht. pose proof (wf_wei_val b y Hwf) as Hw. pose proof (wf_val b y base Hwf) as Hv. pose proof (balance_le_total b y Hwf) as Hb.
  unfold AddWei. walk; [done|]. intros b1 ok [= <- <-]. walk. intros b1 [] [-> _]%require_run. case_bool_decide; [done|].
  walk; [done|]. intros b1 w [= <- <-]. fold (val (b_wei b) y). rewrite int_add_spec, int_fits_nonneg by (unfold OneUseiInWei in *; lia).
  walk; [done|]. intros b1 post [= <- <-]. walk; [|done]. case_bool_decide; [auto with bankerr|].
  walk. intros b1 usei [= -> ->]%GetBalance_run. unfold SplitUseiWeiAmount. cbn [Amount].
  assert (Hq : 0 <= Z.quot (val (b_wei b) y + amt) OneUseiInWei <= 1).
  { split; [apply Z.quot_pos; [lia|done]|]. rewrite Z.quot_div_nonneg by (done || lia). apply Z.lt_succ_r, Z.div_lt_upper_bound; [done|lia]. }
  set (q := Z.quot _ _) in *. destruct (int_fits_add (val (b_balances b) (y, base)) q) as [z Hz]; [lia|lia|unfold OneUseiInWei in Hb; lia|].
  rewrite Hz. walk; [done|]. intros b1 bal [= <- <-]. rewrite int_add_spec in Hz. destruct (int_fits _); [|done]. injection Hz as <-.
  rewrite NewCoin_some by (done || lia). walk; [done|]. intros b1 c _. walk. intros b2 [] _. auto with bankerr.
Qed.

Lemma crash_SubWei x amt b : bank_wf b -> 0 <= amt <= val (b_wei b) x -> no_crash (SubWei env x amt) b.
Proof.
  intros Hwf Ha. pose proof (wf_wei_val b x Hwf) as Hw. unfold SubWei. case_bool_decide; [done|]. walk; [done|]. intros b1 w [= <- <-].
  fold (val (b_wei b) x). rewrite bool_decide_eq_true_2 by lia. walk; [|done].
  rewrite int_sub_spec, int_fits_nonneg by (unfold OneUseiInWei in *; lia). walk; [done|]. intros b1 z _. auto with bankerr.
Qed.

Lemma crash_AddCoins y z b : 0 <= z -> bank_wf b -> val (b_balances b) (y, base) + z < 2 ^ 256 -> no_crash (AddCoins env y [mkCoin base z] true) b.
Proof.
  intros Hz Hwf Hb. pose proof (wf_val b y base Hwf) as Hv. unfold AddCoins. walk; [done|]. intros b1 ok [= <- <-]. walk. intros b1 [] [-> _]%require_run.
  walk. intros b1 [] [-> _]%require_run. walk; [|done]. cbn [for_each]. walk; [|done]. unfold add_coin_to. cbn [Denom].
  walk. intros b1 bal [= -> ->]%GetBalance_run. unfold coin_Add. cbn [Denom Amount]. rewrite bool_decide_eq_true_2 by done.
  destruct (int_fits_add (val (b_balances b) (y, base)) z) as [a Ha]; [lia|lia|done|]. rewrite Ha. walk; [done|]. intros b1 nb _. auto with bankerr.
Qed.

Lemma crash_SubUnlocked x z b :
  bank_wf b -> LockedCoins env x b = Some (b, inl []) -> 0 < z <= val (b_balances b) (x, base) -> no_crash (SubUnlockedCoins env x [mkCoin base z] true) b.
Proof.
  intros Hwf Hlock Hz. pose proof (wf_val b x base Hwf) as Hv. unfold SubUnlockedCoins. walk. intros b1 [] [-> _]%require_run.
  unfold no_crash, mbind, BM_bind. rewrite Hlock. destruct (sub_coins_exact env b x [] [mkCoin base z]) as [b' ->]; [done| | | | |].
  - by apply coins_Validate_spec.
  - apply coin_ok; [done|lia].
  - constructor; [|done]. apply bool_decide_eq_true. simpl. lia.
  - intros c ->%list_elem_of_singleton. simpl. lia.
  - by destruct (forallb _ _).
Qed.

(** Sending all of an account without locked coins. *)
Lemma crash_send_all x y b :
  bank_wf b -> LockedCoins env x b = Some (b, inl []) -> total env b base < 2 ^ 250 ->
  no_crash (SendCoinsAndWei env x y (val (b_balances b) (x, base)) (val (b_wei b) x)) b.
Proof.
  intros Hwf Hlock Ht. pose proof (wf_wei_val b x Hwf) as Hw. unfold SendCoinsAndWei. set (w := val (b_wei b) x) in *.
  set (amt := val (b_balances b) (x, base)). walk; [apply crash_SubWei; [done|unfold w; lia]|]. intros b1 [] H1. destruct (SubWei_run x w b b1 tt ltac:(done) H1) as [A1 B1].
  assert (C1 := effect_SubWei env x w ltac:(lia) _ _ _ Hwf H1). pose proof C1 as (W1 & _ & T1 & _).
  assert (Ht1 : total env b1 base = total env b base - w) by (rewrite T1; simpl; rewrite bool_decide_eq_true_2 by done; lia).
  walk; [apply crash_AddWei; [done|lia|lia]|]. intros b2 [] H2. destruct (AddWei_run y w b1 b2 tt W1 ltac:(lia) H2) as [A2 B2].
  pose proof (effect_AddWei env y w ltac:(lia) _ _ _ W1 H2) as (W2 & _ & T2 & _).
  assert (Ht2 : total env b2 base = total env b base) by (rewrite T2, Ht1; simpl; rewrite bool_decide_eq_true_2 by done; lia).
  walk; [done|]. intros b3 [] [= <-]. case_bool_decide as Hpos; [|done]. rewrite NewCoin_some by (done || lia). walk; [done|]. intros b3 c [= <- <-].
  rewrite NewCoins_ok by by apply coin_ok. walk; [done|]. intros b3 cs [= <- <-].
  set (b3 := set_events b2 _). assert (W3 : bank_wf b3) by by apply (effect_events env [WeiTransfer y x w] b2 _ tt W2).
  unfold SendCoinsWithoutAccCreation, sendCoinsWithoutAccCreation.
  walk. { apply crash_SubUnlocked; [done| |].
    - eapply LockedCoins_accounts; [|exact Hlock]. unfold b3. simpl. by rewrite A2.
    - specialize (B2 (x, base)). rewrite B1 in B2. unfold b3, amt. simpl. split; [done|exact B2]. }
  intros b4 [] H4. pose proof (effect_SubUnlockedCoins env _ _ _ _ _ W3 H4) as (W4 & _ & T4 & _). walk; [|done].
  pose proof (balance_le_total b4 y W4) as Hy. pose proof (wf_val b x base Hwf) as Hx. pose proof (balance_le_total b x Hwf) as Hbx.
  apply crash_AddCoins; [lia|done|]. fold amt in Hx, Hbx.
  assert (Ht4 : total env b4 base = total env b base - amt * OneUseiInWei).
  { rewrite T4. change (total env b3 base) with (total env b2 base). rewrite Ht2. unfold credit_coins. cbn [ch_total]. rewrite amount_singleton, bool_decide_eq_true_2 by done. lia. }
  unfold OneUseiInWei in *. lia.
Qed.
End Errors.
