(* ===== verification/StateDB.v ===== *)
(** The EVM state database of [x/evm/state]: [DBImpl] with its temporary state, its
    journal and its snapshots ([statedb.go], [state.go], [journal.go],
    [accesslist.go], [balance.go], [code.go], [nonce.go], [refund.go], [log.go],
    [check.go], [transfer.go], [utils.go]).

    The keeper is the Go interface [EVMKeeper] of [expected_keepers.go], as a class.
    A context carries the contents of its multi-store and the events emitted on it:
    branching a multi-store copies its contents, and writes to a branch leave the
    store it was branched from alone, which is what [CacheSpec.cachekv_refines]
    shows of the cache layers ([Freeze] and [Unfreeze] have no effect on contents).

    An operation is a state transformer that may panic ([None]).  The tracing hooks
    ([s.logger]), the mock-balance build and the Ethereum replay mode are left out; [addr.Hex()] and
    [hash.Hex()], which are injective, are left out of the keys of the maps.  The
    journal is a list with the newest entry first. *)
From stdpp Require Import base gmap sets list strings.
From Stdlib Require Import ZArith Lia.
From S2P Require Import Prelude Coins.
Local Open Scope Z_scope.

(** [common.Hash{}]. *)
Definition zero_hash : Hash := replicate 32 0.

Record sdkContext (St Ev : Type) := mkCtx {
  cx_store : St;
  cx_events : list Ev;
  cx_IsTracing : bool;
  cx_ChainID : string;
  cx_BlockHeight : Z;
  cx_TxIndex : Z
}.
Arguments mkCtx {St Ev}.
Arguments cx_store {St Ev}.
Arguments cx_events {St Ev}.
Arguments cx_IsTracing {St Ev}.
Arguments cx_ChainID {St Ev}.
Arguments cx_BlockHeight {St Ev}.
Arguments cx_TxIndex {St Ev}.

(** ** [EVMKeeper] of [expected_keepers.go].

    [k_Has] and [k_Delete] are [Has] and [Delete] of [PrefixStore(ctx, pref)].  The bank
    operations may panic; an error leaves the context they have changed so far. *)
Class EVMKeeper (St Ev Err : Type) := {
  k_Has : sdkContext St Ev -> bytes -> bytes -> bool;
  k_Delete : sdkContext St Ev -> bytes -> bytes -> sdkContext St Ev;
  k_PurgePrefix : sdkContext St Ev -> bytes -> sdkContext St Ev;
  k_GetSeiAddress : sdkContext St Ev -> Address -> option AccAddress;
  k_GetSeiAddressOrDefault : sdkContext St Ev -> Address -> AccAddress;
  k_GetBaseDenom : sdkContext St Ev -> string;
  k_DeleteAddressMapping : sdkContext St Ev -> AccAddress -> Address -> sdkContext St Ev;
  k_GetCode : sdkContext St Ev -> Address -> option bytes;
  k_SetCode : sdkContext St Ev -> Address -> option bytes -> sdkContext St Ev;
  k_GetCodeHash : sdkContext St Ev -> Address -> option Hash;
  k_GetCodeSize : sdkContext St Ev -> Address -> Z;
  k_GetState : sdkContext St Ev -> Address -> Hash -> Hash;
  k_SetState : sdkContext St Ev -> Address -> Hash -> Hash -> sdkContext St Ev;
  k_GetFeeCollectorAddress : sdkContext St Ev -> Address;
  k_GetModuleAddress : sdkContext St Ev -> string -> AccAddress;
  k_GetNonce : sdkContext St Ev -> Address -> Z;
  k_SetNonce : sdkContext St Ev -> Address -> Z -> sdkContext St Ev;
  k_GetBalance : sdkContext St Ev -> AccAddress -> option Z;
  k_SubUnlockedCoins : sdkContext St Ev -> AccAddress -> Coins -> bool -> option (sdkContext St Ev * option Err);
  k_AddCoins : sdkContext St Ev -> AccAddress -> Coins -> bool -> option (sdkContext St Ev * option Err);
  k_SubWei : sdkContext St Ev -> AccAddress -> Z -> option (sdkContext St Ev * option Err);
  k_AddWei : sdkContext St Ev -> AccAddress -> Z -> option (sdkContext St Ev * option Err);
  k_SendCoinsAndWei : sdkContext St Ev -> AccAddress -> AccAddress -> Z -> Z -> option (sdkContext St Ev * option Err);
  k_MintCoins : sdkContext St Ev -> string -> Coins -> option (sdkContext St Ev * option Err)
}.

(** Key prefixes of [x/evm/types/keys.go]. *)
Definition StateKeyPrefix : bytes := [3].
Definition CodeKeyPrefix : bytes := [7].
Definition CodeHashKeyPrefix : bytes := [8].
Definition CodeSizeKeyPrefix : bytes := [9].
Definition NonceKeyPrefix : bytes := [10].
Definition StateKey (evmAddress : Address) : bytes := StateKeyPrefix ++ evmAddress.
Definition ModuleName : string := "evm".

(** [keys.go]. *)
Definition GasRefundKey : bytes := [1].
Definition AccountCreated : bytes := [1].
Definition AccountDeleted : bytes := [2].

(** ** Integers *)
Definition uint64_add (a b : Z) : Z := (a + b) mod 2 ^ 64.

(** [uint256.FromBig], whose overflow the callers turn into a panic. *)
Definition uint256_FromBig (z : Z) : option Z := if int_fits z then Some (z mod 2 ^ 256) else None.

Definition UseiToSweiMultiplier : Z := 1000000000000.
Definition SplitUseiWeiAmount (amt : Z) : Z * Z :=
  (Z.quot amt UseiToSweiMultiplier, amt mod UseiToSweiMultiplier).

(** [sdk.NewCoins(sdk.NewCoin(denom, amt))]: a zero coin is dropped. *)
Definition new_coins (denom : string) (amt : Z) : option Coins := c ← NewCoin denom amt; NewCoins [c].

(** [binary.BigEndian.PutUint64] and [Uint64], which panics on fewer than 8 bytes. *)
Definition PutUint64 (v : Z) : bytes :=
  (fun i => Z.land (Z.shiftr v (8 * i)) 255) <$> [7; 6; 5; 4; 3; 2; 1; 0].
Definition Uint64 (b : bytes) : option Z :=
  match b with
  | b0 :: b1 :: b2 :: b3 :: b4 :: b5 :: b6 :: b7 :: _ =>
      Some (fold_left (fun acc x => Z.lor (Z.shiftl acc 8) x) [b0; b1; b2; b3; b4; b5; b6; b7] 0)
  | _ => None
  end.

(** [GetCoinbaseAddress] of [utils.go]; the prefix is the bytes of "evm_coinbase". *)
Definition CoinbaseAddressPrefix : bytes := [101; 118; 109; 95; 99; 111; 105; 110; 98; 97; 115; 101].
Definition GetCoinbaseAddress (txIdx : Z) : AccAddress := CoinbaseAddressPrefix ++ PutUint64 (txIdx mod 2 ^ 64).

(** ** The temporary state *)
Record Log := mkLog { log_Index : Z; log_Address : Address; log_Topics : list Hash; log_Data : bytes }.

Record accessList := mkAccessList {
  al_Addresses : gmap Address Z;
  al_Slots : list (gset Hash)
}.

Record storageOverride := mkOverride {
  so_committed : gmap Hash Hash;
  so_current : gmap Hash Hash
}.

Record TemporaryState := mkTemp {
  ts_logs : list Log;
  ts_transientStates : gmap Address (gmap Hash Hash);
  ts_transientAccounts : gmap Address bytes;
  ts_transientModuleStates : gmap bytes bytes;
  ts_transientAccessLists : accessList;
  ts_storageOverrides : gmap Address storageOverride;
  ts_surplus : Z
}.

Definition NewTemporaryState : TemporaryState := mkTemp [] ∅ ∅ ∅ (mkAccessList ∅ []) ∅ 0.

Definition set_logs (t : TemporaryState) x := mkTemp x (ts_transientStates t) (ts_transientAccounts t)
  (ts_transientModuleStates t) (ts_transientAccessLists t) (ts_storageOverrides t) (ts_surplus t).
Definition set_transientStates (t : TemporaryState) x := mkTemp (ts_logs t) x (ts_transientAccounts t)
  (ts_transientModuleStates t) (ts_transientAccessLists t) (ts_storageOverrides t) (ts_surplus t).
Definition set_transientAccounts (t : TemporaryState) x := mkTemp (ts_logs t) (ts_transientStates t) x
  (ts_transientModuleStates t) (ts_transientAccessLists t) (ts_storageOverrides t) (ts_surplus t).
Definition set_transientModuleStates (t : TemporaryState) x := mkTemp (ts_logs t) (ts_transientStates t)
  (ts_transientAccounts t) x (ts_transientAccessLists t) (ts_storageOverrides t) (ts_surplus t).
Definition set_accessLists (t : TemporaryState) x := mkTemp (ts_logs t) (ts_transientStates t)
  (ts_transientAccounts t) (ts_transientModuleStates t) x (ts_storageOverrides t) (ts_surplus t).
Definition set_storageOverrides (t : TemporaryState) x := mkTemp (ts_logs t) (ts_transientStates t)
  (ts_transientAccounts t) (ts_transientModuleStates t) (ts_transientAccessLists t) x (ts_surplus t).
Definition set_surplus (t : TemporaryState) x := mkTemp (ts_logs t) (ts_transientStates t)
  (ts_transientAccounts t) (ts_transientModuleStates t) (ts_transientAccessLists t) (ts_storageOverrides t) x.

(** ** The journal *)
Inductive journalEntry :=
| accountStatusChange (account : Address) (prev : option bytes)
| addLogChange
| refundChange (prev : Z)
| accessListAddAccountChange (address : Address)
| accessListAddSlotChange (address : Address) (slot : Hash)
| transientStorageChange (account : Address) (key prevalue : Hash)
| storageOverrideChange (account : Address) (key prev : Hash)
| storageOverrideRemove (account : Address) (prev : storageOverride)
| storageOverrideInstall (account : Address) (prev : option storageOverride)
| surplusChange (delta : Z)
| codeCacheChange (account : Address) (prev : option bytes) (had : bool)
| watermark (version : Z).

(** [revert] of the entries that change the temporary state; [None] is a panic. *)
Definition revert_slot (al : accessList) (address : Address) (slot : Hash) : option accessList :=
  match al_Addresses al !! address with
  | None => Some al
  | Some idx =>
      if bool_decide (idx = -1) then Some al
      else
        let slotsList := al_Slots al in
        if bool_decide (Z.of_nat (length slotsList) <= idx) then Some al
        else if bool_decide (idx < 0) then None
        else
          let i := Z.to_nat idx in
          let slots := default ∅ (slotsList !! i) ∖ {[slot]} in
          if bool_decide (size slots = 0%nat) then
            Some (mkAccessList (<[address := -1]> (al_Addresses al)) (take i slotsList ++ drop (S i) slotsList))
          else Some (mkAccessList (al_Addresses al) (<[i := slots]> slotsList))
  end.

Definition revert_transient (ts : gmap Address (gmap Hash Hash)) (account : Address) (key prevalue : Hash)
    : gmap Address (gmap Hash Hash) :=
  let states := ts !! account in
  if bool_decide (prevalue = zero_hash) then
    match states with
    | None => ts
    | Some states =>
        let states := delete key states in
        if bool_decide (size states = 0%nat) then delete account ts else <[account := states]> ts
    end
  else <[account := <[key := prevalue]> (default ∅ states)]> ts.

Definition revert_temp (e : journalEntry) (t : TemporaryState) : option TemporaryState :=
  match e with
  | accessListAddAccountChange address =>
      let al := ts_transientAccessLists t in
      Some (set_accessLists t (mkAccessList (delete address (al_Addresses al)) (al_Slots al)))
  | accessListAddSlotChange address slot =>
      al ← revert_slot (ts_transientAccessLists t) address slot; Some (set_accessLists t al)
  | surplusChange delta => s ← int_sub (ts_surplus t) delta; Some (set_surplus t s)
  | addLogChange =>
      match ts_logs t with [] => None | _ => Some (set_logs t (removelast (ts_logs t))) end
  | refundChange prev =>
      Some (set_transientModuleStates t (<[GasRefundKey := PutUint64 prev]> (ts_transientModuleStates t)))
  | transientStorageChange account key prevalue =>
      Some (set_transientStates t (revert_transient (ts_transientStates t) account key prevalue))
  | storageOverrideChange account key prev =>
      match ts_storageOverrides t !! account with
      | Some ov => Some (set_storageOverrides t
          (<[account := mkOverride (so_committed ov) (<[key := prev]> (so_current ov))]> (ts_storageOverrides t)))
      | None => Some t
      end
  | storageOverrideRemove account prev =>
      Some (set_storageOverrides t (<[account := prev]> (ts_storageOverrides t)))
  | storageOverrideInstall account None =>
      Some (set_storageOverrides t (delete account (ts_storageOverrides t)))
  | storageOverrideInstall account (Some prev) =>
      Some (set_storageOverrides t (<[account := prev]> (ts_storageOverrides t)))
  | accountStatusChange account None =>
      Some (set_transientAccounts t (delete account (ts_transientAccounts t)))
  | accountStatusChange account (Some prev) =>
      Some (set_transientAccounts t (<[account := prev]> (ts_transientAccounts t)))
  | watermark _ | codeCacheChange _ _ _ => Some t
  end.

(** [revert] on the code memo; a nil memo ([None]) stays nil. *)
Definition codeMemo : Type := option (gmap Address (option bytes)).

Definition revert_code (e : journalEntry) (cache : codeMemo) : codeMemo :=
  match e, cache with
  | codeCacheChange account prev had, Some m => Some (if had then <[account := prev]> m else delete account m)
  | _, _ => cache
  end.

(** ** [DBImpl] *)
Record DBImpl (St Ev Err : Type) := mkDB {
  db_ctx : sdkContext St Ev;
  db_snapshottedCtxs : list (sdkContext St Ev);
  db_tempState : TemporaryState;
  db_journal : list journalEntry;
  db_codeCache : codeMemo;
  db_err : option Err;
  db_coinbaseAddress : AccAddress;
  db_coinbaseEvmAddress : Address;
  db_simulation : bool;
  db_eventsSuppressed : bool
}.
Arguments mkDB {St Ev Err}.
Arguments db_ctx {St Ev Err}.
Arguments db_snapshottedCtxs {St Ev Err}.
Arguments db_tempState {St Ev Err}.
Arguments db_journal {St Ev Err}.
Arguments db_codeCache {St Ev Err}.
Arguments db_err {St Ev Err}.
Arguments db_coinbaseAddress {St Ev Err}.
Arguments db_coinbaseEvmAddress {St Ev Err}.
Arguments db_simulation {St Ev Err}.
Arguments db_eventsSuppressed {St Ev Err}.

Section Ops.
Context {St Ev Err : Type} `{!EVMKeeper St Ev Err}.
Abbreviation Ctx := (sdkContext St Ev).
Abbreviation DBI := (DBImpl St Ev Err).

(** The monad of the methods. *)
Definition DB (A : Type) : Type := DBI -> option (DBI * A).
#[export] Instance DB_ret : MRet DB := fun A a s => Some (s, a).
#[export] Instance DB_bind : MBind DB := fun A B f m s => '(s, a) ← m s; f a s.

Definition asks {A} (f : DBI -> A) : DB A := fun s => Some (s, f s).
Definition panic {A} : DB A := fun _ => None.
Definition with_ctx (f : Ctx -> Ctx) : DB () := fun s =>
  Some (mkDB (f (db_ctx s)) (db_snapshottedCtxs s) (db_tempState s) (db_journal s) (db_codeCache s) (db_err s)
    (db_coinbaseAddress s) (db_coinbaseEvmAddress s) (db_simulation s) (db_eventsSuppressed s), tt).
Definition set_err (e : Err) : DB () := fun s =>
  Some (mkDB (db_ctx s) (db_snapshottedCtxs s) (db_tempState s) (db_journal s) (db_codeCache s) (Some e)
    (db_coinbaseAddress s) (db_coinbaseEvmAddress s) (db_simulation s) (db_eventsSuppressed s), tt).
Definition set_codeCache (c : codeMemo) : DB () := fun s =>
  Some (mkDB (db_ctx s) (db_snapshottedCtxs s) (db_tempState s) (db_journal s) c (db_err s)
    (db_coinbaseAddress s) (db_coinbaseEvmAddress s) (db_simulation s) (db_eventsSuppressed s), tt).
Definition set_eventsSuppressed (b : bool) : DB () := fun s =>
  Some (mkDB (db_ctx s) (db_snapshottedCtxs s) (db_tempState s) (db_journal s) (db_codeCache s) (db_err s)
    (db_coinbaseAddress s) (db_coinbaseEvmAddress s) (db_simulation s) b, tt).
(** A change of the temporary state and the journal entry that undoes it. *)
Definition journaled (f : TemporaryState -> TemporaryState) (e : journalEntry) : DB () := fun s =>
  Some (mkDB (db_ctx s) (db_snapshottedCtxs s) (f (db_tempState s)) (e :: db_journal s) (db_codeCache s) (db_err s)
    (db_coinbaseAddress s) (db_coinbaseEvmAddress s) (db_simulation s) (db_eventsSuppressed s), tt).

Definition temp : DB TemporaryState := asks db_tempState.
Definition getCtx : DB Ctx := asks db_ctx.
(** The Ethereum replay configuration is off: [PrepareReplayedAddr] returns at once. *)
Definition PrepareReplayedAddr (addr : Address) : DB () := mret tt.

(** ** Storage: [state.go] *)
Definition override_at (addr : Address) : DB (option storageOverride) :=
  t ← temp; mret (ts_storageOverrides t !! addr).

Definition hash_or_zero (o : option Hash) : Hash := default zero_hash o.

Definition getState (c : Ctx) (addr : Address) (hash : Hash) : DB Hash :=
  _ ← PrepareReplayedAddr addr;
  mret (k_GetState c addr hash).

Definition GetState (addr : Address) (hash : Hash) : DB Hash :=
  ov ← override_at addr;
  match ov with
  | Some ov => mret (hash_or_zero (so_current ov !! hash))
  | None => c ← getCtx; getState c addr hash
  end.

Definition GetCommittedState (addr : Address) (hash : Hash) : DB Hash :=
  ov ← override_at addr;
  match ov with
  | Some ov => mret (hash_or_zero (so_committed ov !! hash))
  | None =>
      ctxs ← asks db_snapshottedCtxs;
      match ctxs with [] => panic | c0 :: _ => getState c0 addr hash end
  end.

Definition setOverrideState (ov : storageOverride) (addr : Address) (key val : Hash) : DB Hash :=
  let old := hash_or_zero (so_current ov !! key) in
  _ ← journaled (fun t => set_storageOverrides t
        (<[addr := mkOverride (so_committed ov) (<[key := val]> (so_current ov))]> (ts_storageOverrides t)))
      (storageOverrideChange addr key old);
  mret old.

Definition SetState (addr : Address) (key val : Hash) : DB Hash :=
  ov ← override_at addr;
  match ov with
  | Some ov => setOverrideState ov addr key val
  | None =>
      _ ← PrepareReplayedAddr addr;
      old ← GetState addr key;
      _ ← with_ctx (fun c => k_SetState c addr key val);
      mret old
  end.

Definition getTransientState (t : TemporaryState) (acc : Address) (key : Hash) : option Hash :=
  m ← ts_transientStates t !! acc; m !! key.

Definition GetTransientState (addr : Address) (key : Hash) : DB Hash :=
  t ← temp; mret (hash_or_zero (getTransientState t addr key)).

Definition SetTransientState (addr : Address) (key val : Hash) : DB () :=
  t ← temp;
  let st := default ∅ (ts_transientStates t !! addr) in
  let prev := hash_or_zero (st !! key) in
  journaled (fun t => set_transientStates t (<[addr := <[key := val]> st]> (ts_transientStates t)))
    (transientStorageChange addr key prev).

(** ** Accounts: [state.go], [code.go], [nonce.go] *)
Definition getTransientAccount (t : TemporaryState) (acc : Address) : option bytes := ts_transientAccounts t !! acc.

Definition MarkAccount (acc : Address) (status : bytes) : DB () :=
  t ← temp;
  journaled (fun t => set_transientAccounts t (<[acc := status]> (ts_transientAccounts t)))
    (accountStatusChange acc (ts_transientAccounts t !! acc)).

Definition Created (acc : Address) : DB bool :=
  t ← temp; mret (bool_decide (getTransientAccount t acc = Some AccountCreated)).

Definition HasSelfDestructed (acc : Address) : DB bool :=
  t ← temp; mret (bool_decide (getTransientAccount t acc = Some AccountDeleted)).

Definition journalCodeCacheMutation (addr : Address) : DB () :=
  cache ← asks db_codeCache;
  match cache with
  | None => mret tt
  | Some m => journaled id (codeCacheChange addr (default None (m !! addr)) (bool_decide (is_Some (m !! addr))))
  end.

(** A memo keeps empty code as nil. *)
Definition norm_code (code : option bytes) : option bytes :=
  if bool_decide (default [] code = []) then None else code.

Definition putCodeCache (addr : Address) (code : option bytes) : DB () :=
  cache ← asks db_codeCache;
  match cache with
  | None => mret tt
  | Some m => set_codeCache (Some (<[addr := norm_code code]> m))
  end.

Definition GetCode (addr : Address) : DB (option bytes) :=
  _ ← PrepareReplayedAddr addr;
  cache ← asks db_codeCache;
  c ← getCtx;
  match cache with
  | None => mret (k_GetCode c addr)
  | Some m =>
      match m !! addr with
      | Some code => mret code
      | None =>
          let code := k_GetCode c addr in
          if bool_decide (default [] code = []) then
            _ ← set_codeCache (Some (<[addr := None]> m)); mret None
          else
            _ ← putCodeCache addr code;
            cache ← asks db_codeCache;
            mret (m ← cache; default None (m !! addr))
      end
  end.

Definition GetCodeHash (addr : Address) : DB Hash :=
  _ ← PrepareReplayedAddr addr; c ← getCtx; match k_GetCodeHash c addr with Some h => mret h | None => panic end.

Definition GetCodeSize (addr : Address) : DB Z :=
  _ ← PrepareReplayedAddr addr; c ← getCtx; mret (k_GetCodeSize c addr).

Definition SetCode (addr : Address) (code : option bytes) : DB (option bytes) :=
  _ ← PrepareReplayedAddr addr;
  oldCode ← GetCode addr;
  _ ← with_ctx (fun c => k_SetCode c addr code);
  _ ← journalCodeCacheMutation addr;
  _ ← putCodeCache addr code;
  mret oldCode.

(** Called after a write of the keeper's store that bypassed [SetCode]. *)
Definition RefreshCodeCache (addr : Address) (code : option bytes) : DB () :=
  _ ← journalCodeCacheMutation addr; putCodeCache addr code.

Definition GetNonce (addr : Address) : DB Z :=
  _ ← PrepareReplayedAddr addr; c ← getCtx; mret (k_GetNonce c addr).

Definition SetNonce (addr : Address) (nonce : Z) : DB () :=
  _ ← PrepareReplayedAddr addr; with_ctx (fun c => k_SetNonce c addr nonce).

Definition deleteIfExists (pref key : bytes) : DB bool :=
  c ← getCtx;
  if k_Has c pref key then _ ← with_ctx (fun c => k_Delete c pref key); mret true else mret false.

Definition clearAccountCodeAndNonce (acc : Address) : DB () :=
  _ ← deleteIfExists CodeKeyPrefix acc;
  _ ← deleteIfExists CodeSizeKeyPrefix acc;
  _ ← deleteIfExists NonceKeyPrefix acc;
  _ ← journalCodeCacheMutation acc;
  cache ← asks db_codeCache;
  match cache with None => mret tt | Some m => set_codeCache (Some (delete acc m)) end.

Definition clearAccountState (acc : Address) : DB () :=
  _ ← PrepareReplayedAddr acc;
  ov ← override_at acc;
  _ ← match ov with
      | Some ov => journaled (fun t => set_storageOverrides t (delete acc (ts_storageOverrides t)))
                     (storageOverrideRemove acc ov)
      | None => mret tt
      end;
  b ← deleteIfExists CodeHashKeyPrefix acc;
  if (b : bool) then
    _ ← with_ctx (fun c => k_PurgePrefix c (StateKey acc));
    clearAccountCodeAndNonce acc
  else mret tt.

Definition CreateAccount (acc : Address) : DB () :=
  _ ← PrepareReplayedAddr acc;
  c ← getCtx;
  _ ← (if cx_IsTracing c then mret tt else clearAccountState acc);
  MarkAccount acc AccountCreated.

Definition CreateContract (acc : Address) : DB () := MarkAccount acc AccountCreated.

Definition SetStorage (addr : Address) (states : gmap Hash Hash) : DB () :=
  _ ← PrepareReplayedAddr addr;
  prev ← override_at addr;
  journaled (fun t => set_storageOverrides t (<[addr := mkOverride states states]> (ts_storageOverrides t)))
    (storageOverrideInstall addr prev).

(** ** Balances: [balance.go] *)
Definition getSeiAddress (evmAddr : Address) : DB AccAddress :=
  coinbaseEvm ← asks db_coinbaseEvmAddress;
  coinbase ← asks db_coinbaseAddress;
  c ← getCtx;
  mret (if bool_decide (coinbaseEvm = evmAddr) then coinbase else k_GetSeiAddressOrDefault c evmAddr).

Definition GetBalance (evmAddr : Address) : DB Z :=
  _ ← PrepareReplayedAddr evmAddr;
  seiAddr ← getSeiAddress evmAddr;
  c ← getCtx;
  match b ← k_GetBalance c seiAddr; uint256_FromBig b with Some b => mret b | None => panic end.

(** A bank operation on the context, or on a copy of it with an event manager of its
    own when the events are suppressed. *)
Definition bank (op : Ctx -> option (Ctx * option Err)) : DB (option Err) :=
  suppressed ← asks db_eventsSuppressed;
  c ← getCtx;
  match op (if (suppressed : bool) then
      mkCtx (cx_store c) [] (cx_IsTracing c) (cx_ChainID c) (cx_BlockHeight c) (cx_TxIndex c) else c) with
  | None => panic
  | Some (c', err) =>
      _ ← with_ctx (fun c => if suppressed then
        mkCtx (cx_store c') (cx_events c) (cx_IsTracing c) (cx_ChainID c) (cx_BlockHeight c) (cx_TxIndex c) else c');
      mret err
  end.

Definition add_surplus (delta : Z) : DB () :=
  t ← temp;
  match int_add (ts_surplus t) delta with
  | None => panic
  | Some s => journaled (fun t => set_surplus t s) (surplusChange delta)
  end.

(** An amount is a [uint256], so its sign is never negative. *)
Definition SubBalance (evmAddr : Address) (amt : Z) : DB () :=
  _ ← PrepareReplayedAddr evmAddr;
  if bool_decide (amt = 0) then mret tt
  else
    let '(usei, wei) := SplitUseiWeiAmount amt in
    addr ← getSeiAddress evmAddr;
    c ← getCtx;
    err ← bank (fun ctx => coins ← new_coins (k_GetBaseDenom c) usei; k_SubUnlockedCoins ctx addr coins true);
    match err with
    | Some e => set_err e
    | None =>
        err ← bank (fun ctx => k_SubWei ctx addr wei);
        match err with Some e => set_err e | None => add_surplus amt end
    end.

Definition AddBalance (evmAddr : Address) (amt : Z) : DB () :=
  _ ← PrepareReplayedAddr evmAddr;
  if bool_decide (amt = 0) then mret tt
  else
    let '(usei, wei) := SplitUseiWeiAmount amt in
    addr ← getSeiAddress evmAddr;
    c ← getCtx;
    err ← bank (fun ctx => coins ← new_coins (k_GetBaseDenom c) usei; k_AddCoins ctx addr coins true);
    match err with
    | Some e => set_err e
    | None =>
        err ← bank (fun ctx => k_AddWei ctx addr wei);
        match err with Some e => set_err e | None => add_surplus (- amt) end
    end.

(** [send]: the error is kept in [s.err]. *)
Definition send (from to : AccAddress) (amt : Z) : DB () :=
  let '(usei, wei) := SplitUseiWeiAmount amt in
  c ← getCtx;
  match k_SendCoinsAndWei c from to usei wei with
  | None => panic
  | Some (c', err) =>
      _ ← with_ctx (fun _ => c');
      match err with Some e => set_err e | None => mret tt end
  end.

Definition panic_on_err : DB () :=
  err ← asks db_err; match err with Some _ => panic | None => mret tt end.

Definition SetBalance (evmAddr : Address) (amt : Z) : DB () :=
  simulation ← asks db_simulation;
  if negb simulation then panic
  else
    seiAddr ← getSeiAddress evmAddr;
    c ← getCtx;
    let moduleAddr := k_GetModuleAddress c ModuleName in
    old ← GetBalance evmAddr;
    _ ← send seiAddr moduleAddr old;
    _ ← panic_on_err;
    let '(usei, _) := SplitUseiWeiAmount amt in
    c ← getCtx;
    match coins ← new_coins (k_GetBaseDenom c) (usei + 1); k_MintCoins c ModuleName coins with
    | None => panic
    | Some (c', err) =>
        _ ← with_ctx (fun _ => c');
        match err with
        | Some _ => panic
        | None => _ ← send moduleAddr seiAddr amt; panic_on_err
        end
    end.

Definition SelfDestruct (acc : Address) : DB Z :=
  _ ← PrepareReplayedAddr acc;
  c ← getCtx;
  _ ← match k_GetSeiAddress c acc with
      | Some seiAddr => with_ctx (fun c => k_DeleteAddressMapping c seiAddr acc)
      | None => mret tt
      end;
  b ← GetBalance acc;
  _ ← SubBalance acc b;
  _ ← MarkAccount acc AccountDeleted;
  mret b.

Definition SelfDestruct6780 (acc : Address) : DB (Z * bool) :=
  created ← Created acc;
  if (created : bool) then b ← SelfDestruct acc; mret (b, true) else mret (0, false).

(** [check.go] *)
Definition Exist (addr : Address) : DB bool :=
  _ ← PrepareReplayedAddr addr;
  codeHash ← GetCodeHash addr;
  if bool_decide (codeHash <> zero_hash) then mret true
  else
    nonce ← GetNonce addr;
    if bool_decide (0 < nonce) then mret true
    else
      balance ← GetBalance addr;
      if bool_decide (0 < balance) then mret true else HasSelfDestructed addr.

Definition Empty_ (addr : Address) : DB bool :=
  _ ← PrepareReplayedAddr addr;
  balance ← GetBalance addr;
  if bool_decide (balance = 0) then
    nonce ← GetNonce addr;
    if bool_decide (nonce = 0) then codeHash ← GetCodeHash addr; mret (bool_decide (codeHash = zero_hash))
    else mret false
  else mret false.

(** [transfer.go]: the events are enabled again when the function returns. *)
Definition TransferWithoutEvents (sender recipient : Address) (amount : Z) : DB () :=
  _ ← set_eventsSuppressed true;
  _ ← SubBalance sender amount;
  _ ← AddBalance recipient amount;
  set_eventsSuppressed false.

(** ** Refunds and logs: [refund.go], [log.go] *)
Definition GetRefund : DB Z :=
  t ← temp;
  match ts_transientModuleStates t !! GasRefundKey with
  | None => mret 0
  | Some bz => match Uint64 bz with Some v => mret v | None => panic end
  end.

Definition set_refund (v prev : Z) : DB () :=
  journaled (fun t => set_transientModuleStates t (<[GasRefundKey := PutUint64 v]> (ts_transientModuleStates t)))
    (refundChange prev).

Definition AddRefund (gas : Z) : DB () := prev ← GetRefund; set_refund (uint64_add prev gas) prev.

Definition SubRefund (gas : Z) : DB () :=
  refund ← GetRefund;
  if bool_decide (refund < gas) then panic else set_refund (refund - gas) refund.

Definition GetAllLogs : DB (list Log) := t ← temp; mret (ts_logs t).

Definition AddLog (l : Log) : DB () :=
  logs ← GetAllLogs;
  let l := mkLog (Z.of_nat (length logs)) (log_Address l) (log_Topics l) (log_Data l) in
  journaled (fun t => set_logs t (ts_logs t ++ [l])) addLogChange.

(** ** The access list: [accesslist.go] *)
Definition AddressInAccessList (addr : Address) : DB bool :=
  _ ← PrepareReplayedAddr addr;
  t ← temp; mret (bool_decide (is_Some (al_Addresses (ts_transientAccessLists t) !! addr))).

Definition SlotInAccessList (addr : Address) (slot : Hash) : DB (bool * bool) :=
  _ ← PrepareReplayedAddr addr;
  t ← temp;
  let al := ts_transientAccessLists t in
  match al_Addresses al !! addr with
  | None => mret (false, false)
  | Some idx =>
      if bool_decide (idx <> -1) then
        if bool_decide (0 <= idx) then
          match al_Slots al !! Z.to_nat idx with
          | Some slots => mret (true, bool_decide (slot ∈ slots))
          | None => panic
          end
        else panic
      else mret (true, false)
  end.

Definition AddAddressToAccessList (addr : Address) : DB () :=
  _ ← PrepareReplayedAddr addr;
  t ← temp;
  if bool_decide (is_Some (al_Addresses (ts_transientAccessLists t) !! addr)) then mret tt
  else journaled (fun t => let al := ts_transientAccessLists t in
         set_accessLists t (mkAccessList (<[addr := -1]> (al_Addresses al)) (al_Slots al)))
       (accessListAddAccountChange addr).

Definition AddSlotToAccessList (addr : Address) (slot : Hash) : DB () :=
  _ ← PrepareReplayedAddr addr;
  t ← temp;
  let idx := al_Addresses (ts_transientAccessLists t) !! addr in
  _ ← match idx with None => AddAddressToAccessList addr | Some _ => mret tt end;
  match idx with
  | None | Some (-1) =>
      journaled (fun t => let al := ts_transientAccessLists t in
        set_accessLists t (mkAccessList (<[addr := Z.of_nat (length (al_Slots al))]> (al_Addresses al))
          (al_Slots al ++ [{[slot]}])))
        (accessListAddSlotChange addr slot)
  | Some idx =>
      if bool_decide (0 <= idx) then
        match al_Slots (ts_transientAccessLists t) !! Z.to_nat idx with
        | None => panic
        | Some slotmap =>
            if bool_decide (slot ∈ slotmap) then mret tt
            else journaled (fun t => let al := ts_transientAccessLists t in
                   set_accessLists t (mkAccessList (al_Addresses al)
                     (<[Z.to_nat idx := {[slot]} ∪ slotmap]> (al_Slots al))))
                 (accessListAddSlotChange addr slot)
        end
      else panic
  end.

(** ** Snapshots: [state.go] *)

(** [CacheMultiStore] with a new event manager. *)
Definition branch (c : Ctx) : Ctx :=
  mkCtx (cx_store c) [] (cx_IsTracing c) (cx_ChainID c) (cx_BlockHeight c) (cx_TxIndex c).

Definition Snapshot : DB Z := fun s =>
  let snaps := db_snapshottedCtxs s ++ [db_ctx s] in
  let version := Z.of_nat (length snaps) - 1 in
  Some (mkDB (branch (db_ctx s)) snaps (db_tempState s) (watermark version :: db_journal s) (db_codeCache s)
    (db_err s) (db_coinbaseAddress s) (db_coinbaseEvmAddress s) (db_simulation s) (db_eventsSuppressed s), version).

(** The loop of [RevertToSnapshot]: the entries below the watermark, if it is found. *)
Fixpoint revert_loop (rev : Z) (journal : list journalEntry) (t : TemporaryState) (cache : codeMemo)
    : option (option (list journalEntry) * TemporaryState * codeMemo) :=
  match journal with
  | [] => Some (None, t, cache)
  | e :: journal =>
      t ← revert_temp e t;
      let cache := revert_code e cache in
      match e with
      | watermark version =>
          if bool_decide (version = rev) then Some (Some journal, t, cache) else revert_loop rev journal t cache
      | _ => revert_loop rev journal t cache
      end
  end.

Definition RevertToSnapshot (rev : Z) : DB () := fun s =>
  if bool_decide (rev < 0 \/ Z.of_nat (length (db_snapshottedCtxs s)) <= rev) then None
  else
    c ← db_snapshottedCtxs s !! Z.to_nat rev;
    let snaps := take (Z.to_nat rev) (db_snapshottedCtxs s) in
    '(j, t, cache) ← revert_loop rev (db_journal s) (db_tempState s) (db_codeCache s);
    Some (mkDB c snaps t (default (db_journal s) j) cache (db_err s) (db_coinbaseAddress s)
      (db_coinbaseEvmAddress s) (db_simulation s) (db_eventsSuppressed s), tt).

(** [Prepare] of [accesslist.go]. *)
Definition CustomPrecompileStartingAddr : Address := replicate 18 0 ++ [16; 1].

Fixpoint for_each {A} (f : A -> DB ()) (l : list A) : DB () :=
  match l with [] => mret tt | x :: l => _ ← f x; for_each f l end.

Definition skips_precompile (c : Ctx) (addr : Address) : bool :=
  bool_decide (CustomPrecompileStartingAddr <=b addr) &&
  (negb (cx_IsTracing c) || bool_decide (cx_ChainID c <> "pacific-1"%string) || bool_decide (94496767 <= cx_BlockHeight c)).

Definition Prepare (sender coinbase : Address) (dest : option Address) (precompiles : list Address)
    (txAccesses : list (Address * list Hash)) : DB () :=
  _ ← PrepareReplayedAddr sender;
  _ ← PrepareReplayedAddr coinbase;
  _ ← Snapshot;
  _ ← AddAddressToAccessList sender;
  _ ← match dest with Some d => AddAddressToAccessList d | None => mret tt end;
  _ ← for_each (fun addr =>
        c ← getCtx; if skips_precompile c addr then mret tt else AddAddressToAccessList addr) precompiles;
  _ ← for_each (fun el : Address * list Hash =>
        _ ← AddAddressToAccessList (fst el); for_each (fun key => AddSlotToAccessList (fst el) key) (snd el)) txAccesses;
  AddAddressToAccessList coinbase.

(** ** The end of a transaction: [statedb.go] *)

(** The loops over [transientAccounts] visit its keys in the order [order]. *)
Definition handleResidualFundsInDestructedAccounts (order : list Address) : DB () :=
  t ← temp;
  coinbaseEvm ← asks db_coinbaseEvmAddress;
  for_each (fun acc =>
    if bool_decide (ts_transientAccounts t !! acc <> Some AccountDeleted) then mret tt
    else
      residual ← GetBalance acc;
      if bool_decide (residual = 0) then mret tt
      else _ ← SubBalance acc residual; AddBalance coinbaseEvm residual) order.

Definition clearAccountStateIfDestructed (order : list Address) : DB () :=
  t ← temp;
  for_each (fun acc =>
    if bool_decide (ts_transientAccounts t !! acc <> Some AccountDeleted) then mret tt
    else clearAccountState acc) order.

(** [Write] of a branch: the store below it gets its contents. *)
Definition write_into (child parent : Ctx) : Ctx :=
  mkCtx (cx_store child) (cx_events parent) (cx_IsTracing parent) (cx_ChainID parent) (cx_BlockHeight parent)
    (cx_TxIndex parent).

(** Flush [c] into the newest of the contexts below it, that one into the next, down
    to the base. *)
Fixpoint flush_levels (c : Ctx) (below : list Ctx) : list Ctx :=
  match below with
  | [] => []
  | p :: rest => let p := write_into c p in p :: flush_levels p rest
  end.

Definition set_snapshottedCtxs (snaps : list Ctx) : DB () := fun s =>
  Some (mkDB (db_ctx s) snaps (db_tempState s) (db_journal s) (db_codeCache s) (db_err s)
    (db_coinbaseAddress s) (db_coinbaseEvmAddress s) (db_simulation s) (db_eventsSuppressed s), tt).

Definition flushCtxs : DB () :=
  snaps ← asks db_snapshottedCtxs;
  c ← getCtx;
  set_snapshottedCtxs (reverse (flush_levels c (reverse snaps))).

(** The events of the contexts above the base, in order, are emitted on the base. *)
Definition flushEvents : DB () :=
  snaps ← asks db_snapshottedCtxs;
  c ← getCtx;
  match snaps with
  | [] => panic
  | base :: rest =>
      let base' := mkCtx (cx_store base) (cx_events base ++ concat (cx_events <$> rest) ++ cx_events c)
        (cx_IsTracing base) (cx_ChainID base) (cx_BlockHeight base) (cx_TxIndex base) in
      set_snapshottedCtxs (base' :: rest)
  end.

Definition Finalize (order order' : list Address) : DB (Z + Err) :=
  simulation ← asks db_simulation;
  if (simulation : bool) then panic
  else
    err ← asks db_err;
    match err with
    | Some e => mret (inr e)
    | None =>
        _ ← handleResidualFundsInDestructedAccounts order;
        _ ← clearAccountStateIfDestructed order';
        _ ← flushCtxs;
        _ ← flushEvents;
        t ← temp;
        mret (inl (ts_surplus t))
    end.

(** [NewDBImpl]; [viaWasmd] is [ctx.EVMEntryViaWasmdPrecompile()]. *)
Definition init_db (ctx : Ctx) (simulation viaWasmd : bool) : DBI :=
  mkDB ctx [] NewTemporaryState [] (if negb simulation && negb viaWasmd then Some ∅ else None) None
    (GetCoinbaseAddress (cx_TxIndex ctx)) (k_GetFeeCollectorAddress ctx) simulation false.

Definition NewDBImpl (ctx : Ctx) (simulation viaWasmd : bool) : option DBI :=
  '(s, _) ← Snapshot (init_db ctx simulation viaWasmd); Some s.

(** [CleanupForTracer] and [ResetForTracer]. *)
Definition reset_memory (s : DBI) (c : Ctx) (snaps : list Ctx) : DBI :=
  mkDB c snaps NewTemporaryState [] ((fun _ => ∅) <$> db_codeCache s) (db_err s) (db_coinbaseAddress s)
    (k_GetFeeCollectorAddress c) (db_simulation s) (db_eventsSuppressed s).

Definition CleanupForTracer : DB () :=
  _ ← flushCtxs;
  snaps ← asks db_snapshottedCtxs;
  c ← getCtx;
  _ ← (fun s => Some (reset_memory s (default c (head snaps)) [], tt)) : DB ();
  _ ← Snapshot; mret tt.

Definition ResetForTracer : DB () :=
  _ ← (fun s => Some (reset_memory s (db_ctx s) (db_snapshottedCtxs s), tt)) : DB ();
  _ ← Snapshot; mret tt.
End Ops.
