(* ===== verification/StateDBEquiv.v ===== *)
(** Temporary states that no operation of [StateDB] tells apart, and that each
    journal entry undoes the change it was written for up to that equivalence.

    Equality is too fine: undoing the first write of a slot may leave a zero where
    there was nothing, which every reader takes for the same. *)
From stdpp Require Import base gmap sets list strings.
From Stdlib Require Import ZArith Lia.
From S2P Require Import Prelude Coins CoinsSpec StateDB.
Local Open Scope Z_scope.

(** ** [PutUint64] and [Uint64] *)
Lemma lor_shift8 acc x : 0 <= x < 256 -> Z.lor (Z.shiftl acc 8) x = acc * 256 + x.
Proof.
  intros Hx. rewrite Z.shiftl_mul_pow2 by lia. change (2 ^ 8) with 256.
  apply Z.bits_inj'. intros n Hn. rewrite Z.lor_spec.
  replace (acc * 256 + x) with (x + acc * 2 ^ 8) by (change (2 ^ 8) with 256; lia).
  replace (acc * 256) with (acc * 2 ^ 8) by (change (2 ^ 8) with 256; lia).
  destruct (Z.ltb_spec n 8).
  - rewrite Z.mul_pow2_bits_low by lia. simpl.
    rewrite <- (Z.mod_pow2_bits_low (x + acc * 2 ^ 8) 8) by lia.
    rewrite Z.mod_add by lia. rewrite Z.mod_small; [done|]. change (2 ^ 8) with 256. lia.
  - rewrite Z.mul_pow2_bits by lia.
    assert (Hx0 : Z.testbit x n = false).
    { destruct (decide (x = 0)) as [->|]; [apply Z.testbit_0_l|]. apply Z.bits_above_log2; [lia|].
      apply Z.log2_lt_pow2; [lia|]. apply Z.lt_le_trans with (2 ^ 8); [change (2 ^ 8) with 256; lia|]. apply Z.pow_le_mono_r; lia. }
    rewrite Hx0, orb_false_r. pose proof (Z.div_pow2_bits (x + acc * 2 ^ 8) 8 (n - 8)) as Hdiv.
    replace (n - 8 + 8) with n in Hdiv by lia. rewrite <- Hdiv by lia.
    rewrite Z.div_add by lia. rewrite Z.div_small by (change (2 ^ 8) with 256; lia). done.
Qed.

Lemma byte_at v i : 0 <= i -> Z.land (Z.shiftr v (8 * i)) 255 = (v / 2 ^ (8 * i)) mod 256.
Proof. intros Hi. rewrite Z.shiftr_div_pow2 by lia. change 255 with (Z.ones 8). by rewrite Z.land_ones. Qed.

Lemma mod_step v k : 0 <= k -> v mod 2 ^ (k + 8) = (v / 2 ^ k) mod 256 * 2 ^ k + v mod 2 ^ k.
Proof.
  intros Hk. rewrite Z.pow_add_r by lia. change (2 ^ 8) with 256.
  rewrite Z.rem_mul_r; lia.
Qed.

Lemma Uint64_PutUint64 v : Uint64 (PutUint64 v) = Some (v mod 2 ^ 64).
Proof.
  unfold PutUint64, Uint64. cbn [fmap list_fmap fold_left]. f_equal. rewrite !byte_at by lia.
  assert (Hb : forall z, 0 <= z mod 256 < 256) by (intros; apply Z.mod_pos_bound; lia).
  rewrite !lor_shift8 by apply Hb.
  pose proof (mod_step v 56) as H7. pose proof (mod_step v 48) as H6. pose proof (mod_step v 40) as H5.
  pose proof (mod_step v 32) as H4. pose proof (mod_step v 24) as H3. pose proof (mod_step v 16) as H2.
  pose proof (mod_step v 8) as H1. pose proof (mod_step v 0) as H0.
  rewrite Z.mod_1_r in H0.
  change (56 + 8) with 64 in H7. change (48 + 8) with 56 in H6. change (40 + 8) with 48 in H5.
  change (32 + 8) with 40 in H4. change (24 + 8) with 32 in H3. change (16 + 8) with 24 in H2.
  change (8 + 8) with 16 in H1. change (0 + 8) with 8 in H0.
  change (8 * 7) with 56. change (8 * 6) with 48. change (8 * 5) with 40. change (8 * 4) with 32.
  change (8 * 3) with 24. change (8 * 2) with 16. change (8 * 1) with 8. change (8 * 0) with 0.
  rewrite H7, H6, H5, H4, H3, H2, H1, H0 by lia. ring.
Qed.

(** ** The equivalence *)
Definition refund_of (t : TemporaryState) : option Z :=
  match ts_transientModuleStates t !! GasRefundKey with None => Some 0 | Some bz => Uint64 bz end.

Definition transient_at (ts : gmap Address (gmap Hash Hash)) (a : Address) (k : Hash) : Hash :=
  hash_or_zero (m ← ts !! a; m !! k).

Definition override_equiv (x y : storageOverride) : Prop :=
  so_committed x = so_committed y /\
  forall k, hash_or_zero (so_current x !! k) = hash_or_zero (so_current y !! k).

Record temp_equiv (t u : TemporaryState) : Prop := {
  te_logs : ts_logs t = ts_logs u;
  te_transient : forall a k, transient_at (ts_transientStates t) a k = transient_at (ts_transientStates u) a k;
  te_accounts : ts_transientAccounts t = ts_transientAccounts u;
  te_refund : refund_of t = refund_of u;
  te_modules : forall k, k <> GasRefundKey -> ts_transientModuleStates t !! k = ts_transientModuleStates u !! k;
  te_accessLists : ts_transientAccessLists t = ts_transientAccessLists u;
  te_overrides : forall a, option_Forall2 override_equiv (ts_storageOverrides t !! a) (ts_storageOverrides u !! a);
  te_surplus : ts_surplus t = ts_surplus u
}.

#[export] Instance override_equiv_equivalence : Equivalence override_equiv.
Proof.
  split.
  - by split.
  - intros x y [H1 H2]. by split.
  - intros x y z [H1 H2] [H3 H4]. split; [congruence|]. intros k. by rewrite H2.
Qed.

#[export] Instance temp_equiv_equivalence : Equivalence temp_equiv.
Proof.
  split.
  - intros t. split; try done.
  - intros t u []. split; try done. intros k Hk. symmetry. auto.
  - intros t u v H1 H2. split.
    + etrans; [apply H1|apply H2].
    + intros a k. etrans; [apply H1|apply H2].
    + etrans; [apply H1|apply H2].
    + etrans; [apply H1|apply H2].
    + intros k Hk. etrans; [by apply H1|by apply H2].
    + etrans; [apply H1|apply H2].
    + intros a. etrans; [apply H1|apply H2].
    + etrans; [apply H1|apply H2].
Qed.

(** ** The invariant of a temporary state *)
Record al_ok (al : accessList) : Prop := {
  al_index : forall a i, al_Addresses al !! a = Some i -> i = -1 \/ 0 <= i < Z.of_nat (length (al_Slots al));
  al_nonempty : forall i s, al_Slots al !! i = Some s -> s <> ∅
}.

Lemma al_ok_address al a : al_ok al -> al_ok (mkAccessList (<[a := -1]> (al_Addresses al)) (al_Slots al)).
Proof.
  intros [Hi Hn]. split; simpl; [|done]. intros b i. rewrite lookup_insert_Some. intros [[_ <-]|[_ Hb]]; [by left|eauto].
Qed.

Lemma al_ok_new_slots al a slot :
  al_ok al -> al_ok (mkAccessList (<[a := Z.of_nat (length (al_Slots al))]> (al_Addresses al)) (al_Slots al ++ [{[slot]}])).
Proof.
  intros [Hi Hn]. split; simpl.
  - intros b i. rewrite length_app, lookup_insert_Some. simpl. intros [[_ <-]|[_ Hb]]; [lia|].
    destruct (Hi b i Hb); lia.
  - intros i x. rewrite lookup_app_Some, list_lookup_singleton_Some. intros [Hx|[_ [_ <-]]]; [eauto|set_solver].
Qed.

Record temp_ok (t : TemporaryState) : Prop := {
  to_al : al_ok (ts_transientAccessLists t);
  to_refund : exists r, refund_of t = Some r /\ 0 <= r < 2 ^ 64;
  to_surplus : int_fits (ts_surplus t) = true
}.

Lemma temp_ok_equiv t u : temp_equiv t u -> temp_ok t -> temp_ok u.
Proof.
  intros He [Ha Hr Hs]. split.
  - by rewrite <- (te_accessLists t u He).
  - by rewrite <- (te_refund t u He).
  - by rewrite <- (te_surplus t u He).
Qed.

Lemma NewTemporaryState_ok : temp_ok NewTemporaryState.
Proof.
  split; [split; simpl|by exists 0|done].
  - intros a i. by rewrite lookup_empty.
  - intros i s. by rewrite lookup_nil.
Qed.

(** ** [revert] respects the equivalence. *)
Lemma transient_at_insert ts a k v m b j :
  transient_at (<[a := <[k := v]> m]> ts) b j =
  if decide (b = a) then (if decide (j = k) then v else hash_or_zero (m !! j)) else transient_at ts b j.
Proof.
  unfold transient_at. case_decide as Hb; [subst b|by rewrite lookup_insert_ne].
  rewrite lookup_insert_eq. simpl. case_decide as Hj; [subst j; by rewrite lookup_insert_eq|by rewrite lookup_insert_ne].
Qed.

Lemma transient_at_default ts a k : hash_or_zero (default ∅ (ts !! a) !! k) = transient_at ts a k.
Proof. unfold transient_at. destruct (ts !! a); [done|]. simpl. by rewrite lookup_empty. Qed.

Lemma revert_transient_at ts a k v b j :
  transient_at (revert_transient ts a k v) b j =
  if decide (b = a /\ j = k) then v else transient_at ts b j.
Proof.
  unfold revert_transient. case_bool_decide as Hv.
  - subst v. destruct (ts !! a) as [m|] eqn:Ha.
    + case_bool_decide as Hs.
      * apply map_size_empty_inv in Hs.
        unfold transient_at. destruct (decide (b = a)) as [->|Hb].
        -- rewrite lookup_delete_eq, Ha. simpl. destruct (decide (j = k)) as [->|Hj].
           ++ by rewrite decide_True.
           ++ rewrite decide_False by tauto. by rewrite <- (lookup_delete_ne m k j), Hs.
        -- rewrite lookup_delete_ne by done. by rewrite decide_False by tauto.
      * unfold transient_at. destruct (decide (b = a)) as [->|Hb].
        -- rewrite lookup_insert_eq, Ha. simpl. destruct (decide (j = k)) as [->|Hj].
           ++ rewrite lookup_delete_eq. by rewrite decide_True.
           ++ rewrite lookup_delete_ne by done. by rewrite decide_False by tauto.
        -- rewrite lookup_insert_ne by done. by rewrite decide_False by tauto.
    + case_decide as Hd; [|done]. destruct Hd as [-> ->]. unfold transient_at. by rewrite Ha.
  - rewrite transient_at_insert. destruct (decide (b = a)) as [->|Hb]; [|by rewrite decide_False by tauto].
    rewrite transient_at_default. destruct (decide (j = k)) as [->|Hj]; [by rewrite decide_True|by rewrite decide_False by tauto].
Qed.

Lemma override_insert (m m' : gmap Address storageOverride) a x y :
  (forall b, option_Forall2 override_equiv (m !! b) (m' !! b)) -> override_equiv x y ->
  forall b, option_Forall2 override_equiv (<[a := x]> m !! b) (<[a := y]> m' !! b).
Proof.
  intros Hm Hxy b. destruct (decide (b = a)) as [->|]; [|by rewrite !lookup_insert_ne].
  rewrite !lookup_insert_eq. by constructor.
Qed.

Lemma override_delete (m m' : gmap Address storageOverride) a :
  (forall b, option_Forall2 override_equiv (m !! b) (m' !! b)) ->
  forall b, option_Forall2 override_equiv (delete a m !! b) (delete a m' !! b).
Proof.
  intros Hm b. destruct (decide (b = a)) as [->|]; [|by rewrite !lookup_delete_ne].
  rewrite !lookup_delete_eq. constructor.
Qed.

Lemma override_current x y k v :
  override_equiv x y ->
  override_equiv (mkOverride (so_committed x) (<[k := v]> (so_current x)))
    (mkOverride (so_committed y) (<[k := v]> (so_current y))).
Proof.
  intros [Hc Hk]. split; [done|]. intros j. simpl.
  destruct (decide (j = k)) as [->|]; [by rewrite !lookup_insert_eq|by rewrite !lookup_insert_ne].
Qed.

Lemma refund_of_set t bz :
  refund_of (set_transientModuleStates t (<[GasRefundKey := bz]> (ts_transientModuleStates t))) = Uint64 bz.
Proof. unfold refund_of. simpl. by rewrite lookup_insert_eq. Qed.

Lemma revert_temp_equiv e t u t' :
  temp_equiv t u -> revert_temp e t = Some t' ->
  exists u', revert_temp e u = Some u' /\ temp_equiv t' u'.
Proof.
  intros He. pose proof He as [Hlog Htr Hacc Href Hmod Hal Hov Hsur].
  destruct e as [acc [prev|]| |prev|a|a slot|a k v|a k v|a ov|a [ov|]|d|a p h|v]; simpl;
    try (intros [= <-]; eexists; split; [reflexivity|]; destruct He; split; simpl; try done; try congruence; fail).
  - rewrite Hlog. destruct (ts_logs u) eqn:Hu; [done|]. intros [= <-]. eexists. split; [done|].
    by destruct He; split.
  - intros [= <-]. eexists. split; [done|]. split; simpl; try done.
    + by rewrite !refund_of_set.
    + intros k Hk. rewrite !lookup_insert_ne by done. auto.
  - rewrite Hal. destruct (revert_slot _ a slot) as [al|]; [|done]. intros [= <-]. eexists. split; [done|].
    by destruct He; split.
  - intros [= <-]. eexists. split; [done|]. destruct He. split; simpl; try done.
    intros b j. rewrite !revert_transient_at. case_decide; [done|]. apply Htr.
  - pose proof (Hov a) as Ha. destruct Ha as [x y Hxy|]; intros [= <-]; (eexists; split; [done|]); [|done].
    destruct He. split; simpl; try done. apply override_insert; [done|]. by apply override_current.
  - intros [= <-]. eexists. split; [done|]. destruct He. split; simpl; try done. by apply override_insert.
  - intros [= <-]. eexists. split; [done|]. destruct He. split; simpl; try done. by apply override_insert.
  - intros [= <-]. eexists. split; [done|]. destruct He. split; simpl; try done. by apply override_delete.
  - rewrite Hsur. destruct (int_sub _ d) as [z|]; [|done]. intros [= <-]. eexists. split; [done|].
    by destruct He; split.
Qed.

(** ** Each entry undoes its change. *)
Definition undone (e : journalEntry) (t' t : TemporaryState) : Prop :=
  exists t0, revert_temp e t' = Some t0 /\ temp_equiv t0 t.

Lemma undo_transient t a k v :
  let st := default ∅ (ts_transientStates t !! a) in
  undone (transientStorageChange a k (hash_or_zero (st !! k)))
    (set_transientStates t (<[a := <[k := v]> st]> (ts_transientStates t))) t.
Proof.
  intros st. eexists. split; [done|]. split; simpl; try done. intros b j.
  rewrite revert_transient_at, transient_at_insert. unfold st. rewrite !transient_at_default.
  case_decide as Hd; [destruct Hd as [-> ->]; done|].
  destruct (decide (b = a)) as [->|]; [|done]. destruct (decide (j = k)) as [->|]; [tauto|done].
Qed.

Lemma undo_account t a status :
  undone (accountStatusChange a (ts_transientAccounts t !! a))
    (set_transientAccounts t (<[a := status]> (ts_transientAccounts t))) t.
Proof.
  unfold undone. simpl. destruct (ts_transientAccounts t !! a) as [prev|] eqn:Ha;
    (eexists; split; [done|]); split; simpl; try done.
  - by rewrite insert_insert_eq, insert_id.
  - by rewrite delete_insert_id.
Qed.

Lemma undo_log t l : undone addLogChange (set_logs t (ts_logs t ++ [l])) t.
Proof.
  exists (set_logs t (ts_logs t)). split; [|by split].
  simpl. rewrite removelast_last. by destruct (ts_logs t).
Qed.

Lemma undo_refund t v prev :
  refund_of t = Some prev -> 0 <= prev < 2 ^ 64 ->
  undone (refundChange prev) (set_transientModuleStates t (<[GasRefundKey := v]> (ts_transientModuleStates t))) t.
Proof.
  intros Hr Hp. eexists. split; [done|]. split; simpl; try done.
  - rewrite Hr. unfold refund_of. simpl. rewrite lookup_insert_eq, Uint64_PutUint64. by rewrite Z.mod_small.
  - intros k Hk. by rewrite !lookup_insert_ne.
Qed.

Lemma undo_surplus t d s :
  int_fits (ts_surplus t) = true -> int_add (ts_surplus t) d = Some s ->
  undone (surplusChange d) (set_surplus t s) t.
Proof.
  rewrite int_add_spec. intros Hf Hs. case_match; [|done]. simplify_eq.
  exists (set_surplus t (ts_surplus t)). split; [|by split]. simpl. rewrite int_sub_spec.
  replace (ts_surplus t + d - d) with (ts_surplus t) by lia. by rewrite Hf.
Qed.

Lemma undo_override_change t a ov k v :
  ts_storageOverrides t !! a = Some ov ->
  undone (storageOverrideChange a k (hash_or_zero (so_current ov !! k)))
    (set_storageOverrides t (<[a := mkOverride (so_committed ov) (<[k := v]> (so_current ov))]> (ts_storageOverrides t))) t.
Proof.
  intros Ha. eexists. split; [simpl; by rewrite lookup_insert_eq|]. split; simpl; try done. intros b.
  destruct (decide (b = a)) as [->|]; [|by rewrite !lookup_insert_ne].
  rewrite lookup_insert_eq, Ha. constructor. split; [done|]. intros j. simpl.
  destruct (decide (j = k)) as [->|]; [by rewrite lookup_insert_eq|by rewrite !lookup_insert_ne].
Qed.

Lemma undo_override_remove t a ov :
  ts_storageOverrides t !! a = Some ov ->
  undone (storageOverrideRemove a ov) (set_storageOverrides t (delete a (ts_storageOverrides t))) t.
Proof.
  intros Ha. eexists. split; [done|]. split; simpl; try done. intros b. by rewrite insert_delete_eq, insert_id.
Qed.

Lemma undo_override_install t a ov :
  undone (storageOverrideInstall a (ts_storageOverrides t !! a))
    (set_storageOverrides t (<[a := ov]> (ts_storageOverrides t))) t.
Proof.
  unfold undone. simpl. destruct (ts_storageOverrides t !! a) as [prev|] eqn:Ha; (eexists; split; [done|]); split; simpl; try done; intros b.
  - by rewrite insert_insert_eq, insert_id.
  - by rewrite delete_insert_id.
Qed.

Lemma undo_address t a :
  let al := ts_transientAccessLists t in
  al_Addresses al !! a = None ->
  undone (accessListAddAccountChange a)
    (set_accessLists t (mkAccessList (<[a := -1]> (al_Addresses al)) (al_Slots al))) t.
Proof.
  intros al Ha. exists (set_accessLists t al). split; [|by split]. simpl. rewrite delete_insert_id by done. by destruct al.
Qed.

Lemma undo_new_slots t a slot :
  let al := ts_transientAccessLists t in
  al_Addresses al !! a = Some (-1) ->
  undone (accessListAddSlotChange a slot)
    (set_accessLists t (mkAccessList (<[a := Z.of_nat (length (al_Slots al))]> (al_Addresses al))
      (al_Slots al ++ [{[slot]}]))) t.
Proof.
  intros al Ha. exists (set_accessLists t al). split; [|by split]. simpl. unfold revert_slot. simpl.
  rewrite lookup_insert_eq, length_app. simpl.
  rewrite !bool_decide_eq_false_2 by lia. rewrite Nat2Z.id, lookup_app_r, Nat.sub_diag by lia.
  cbn [lookup list_lookup]. unfold default, from_option, id. rewrite difference_diag_L, size_empty.
  rewrite bool_decide_eq_true_2 by done.
  rewrite take_app_length, drop_ge by (rewrite length_app; simpl; lia).
  rewrite app_nil_r, insert_insert_eq, (insert_id _ _ _ Ha). by destruct al.
Qed.

Lemma undo_slot t a i slots slot :
  let al := ts_transientAccessLists t in
  al_Addresses al !! a = Some i -> 0 <= i -> al_Slots al !! Z.to_nat i = Some slots -> slots <> ∅ -> slot ∉ slots ->
  undone (accessListAddSlotChange a slot)
    (set_accessLists t (mkAccessList (al_Addresses al) (<[Z.to_nat i := {[slot]} ∪ slots]> (al_Slots al)))) t.
Proof.
  intros al Ha Hi Hs Hne Hn. exists (set_accessLists t al). split; [|by split]. simpl. unfold revert_slot. simpl.
  pose proof (lookup_lt_Some _ _ _ Hs) as Hlt. rewrite Ha, length_insert.
  rewrite !bool_decide_eq_false_2 by lia.
  rewrite list_lookup_insert_eq by done. simpl.
  replace (({[slot]} ∪ slots) ∖ {[slot]}) with slots by set_solver.
  rewrite bool_decide_eq_false_2 by (intros Hz%size_empty_inv; by apply Hne, leibniz_equiv).
  rewrite list_insert_insert_eq, (list_insert_id _ _ _ Hs). by destruct al.
Qed.
