(* ===== verification/StateDBRevert.v ===== *)
(** Reverting through the journal is restoring a copy.

    The reference machine keeps, for every live snapshot, a copy of the whole
    database, restores it on a revert and has no code memo.  The database of
    [StateDB], which undoes its journal and memoizes code, gives the same answers
    under every sequence of operations, nested snapshots and reverts included. *)
From stdpp Require Import base gmap sets list strings.
From Stdlib Require Import ZArith Lia.
From S2P Require Import Prelude Coins CoinsSpec StateDB StateDBEquiv.
Local Open Scope Z_scope.

(** ** What the keeper promises about code. *)
(** An operation that leaves the code of every account alone when it does not panic. *)
Definition keeps_code {St Ev Err} `{!EVMKeeper St Ev Err} (c : sdkContext St Ev)
    (r : option (sdkContext St Ev * option Err)) : Prop :=
  match r with None => True | Some (c', _) => forall b, k_GetCode c' b = k_GetCode c b end.

Class EVMKeeperLaws (St Ev Err : Type) `{EVMKeeper St Ev Err} := {
  kl_store : forall (c c' : sdkContext St Ev) a, cx_store c = cx_store c' -> k_GetCode c a = k_GetCode c' a;
  kl_norm : forall c a, norm_code (k_GetCode c a) = k_GetCode c a;
  kl_SetCode : forall c a code b,
    k_GetCode (k_SetCode c a code) b = if decide (b = a) then norm_code code else k_GetCode c b;
  kl_Delete : forall c pref a b, pref ∈ [CodeKeyPrefix; CodeHashKeyPrefix; CodeSizeKeyPrefix; NonceKeyPrefix] ->
    b <> a -> k_GetCode (k_Delete c pref a) b = k_GetCode c b;
  kl_Delete_other : forall c pref a b, pref ∈ [CodeHashKeyPrefix; CodeSizeKeyPrefix; NonceKeyPrefix] ->
    k_GetCode (k_Delete c pref a) b = k_GetCode c b;
  kl_Purge : forall c a b, k_GetCode (k_PurgePrefix c (StateKey a)) b = k_GetCode c b;
  kl_Mapping : forall c x a b, k_GetCode (k_DeleteAddressMapping c x a) b = k_GetCode c b;
  kl_SetState : forall c a k v b, k_GetCode (k_SetState c a k v) b = k_GetCode c b;
  kl_SetNonce : forall c a n b, k_GetCode (k_SetNonce c a n) b = k_GetCode c b;
  kl_SubUnlockedCoins : forall c x l n, keeps_code c (k_SubUnlockedCoins c x l n);
  kl_AddCoins : forall c x l n, keeps_code c (k_AddCoins c x l n);
  kl_SubWei : forall c x n, keeps_code c (k_SubWei c x n);
  kl_AddWei : forall c x n, keeps_code c (k_AddWei c x n);
  kl_Send : forall c x y u w, keeps_code c (k_SendCoinsAndWei c x y u w);
  kl_Mint : forall c m l, keeps_code c (k_MintCoins c m l)
}.

Section Revert.
Context {St Ev Err : Type} `{EVMKeeperLaws St Ev Err}.
Abbreviation Ctx := (sdkContext St Ev).
Abbreviation DBI := (DBImpl St Ev Err).
Implicit Types (s r σ : DBI) (Hi : list DBI) (t u : TemporaryState) (cache : codeMemo).
Implicit Types (code : Address -> option bytes) (X Y : option Address) (e : journalEntry).

(** ** The memo *)
Definition coherent cache code : Prop :=
  match cache with None => True | Some m => forall a x, m !! a = Some x -> x = code a end.

(** The memo and the code agree with the context of a saved copy. *)
Definition agrees_with cache code σ : Prop :=
  match cache with
  | None => True
  | Some _ => (forall a, code a = k_GetCode (db_ctx σ) a) /\ coherent cache code
  end.

(** ** What the journal remembers.

    Undone from the temporary state [t], the memo [cache] and the code [code], the
    journal passes, at its watermarks, through the copies [Hi] (newest first). *)
Fixpoint journal_inv (j : list journalEntry) t cache code Hi : Prop :=
  match j with
  | [] => Hi = []
  | watermark v :: j =>
      match Hi with
      | [] => False
      | σ :: Hi => v = Z.of_nat (length Hi) /\ temp_equiv t (db_tempState σ) /\ agrees_with cache code σ /\
                   journal_inv j t cache code Hi
      end
  | codeCacheChange a p h :: j =>
      exists code', (forall b, b <> a -> code' b = code b) /\
        journal_inv j t (revert_code (codeCacheChange a p h) cache) code' Hi
  | e :: j => exists t', revert_temp e t = Some t' /\ journal_inv j t' cache code Hi
  end.

Lemma journal_inv_equiv j t u cache code Hi :
  temp_equiv t u -> journal_inv j t cache code Hi -> journal_inv j u cache code Hi.
Proof.
  revert t u cache code Hi. induction j as [|e j IH]; intros t u cache code Hi He; [done|].
  assert (Hgen : (exists t', revert_temp e t = Some t' /\ journal_inv j t' cache code Hi) ->
    exists u', revert_temp e u = Some u' /\ journal_inv j u' cache code Hi).
  { intros (t' & Hr & Hj). destruct (revert_temp_equiv e t u t' He Hr) as (u' & Hu & He'). eauto. }
  destruct e; try exact Hgen; simpl.
  - intros (code' & Hc & Hj). exists code'. split; [done|]. by eapply IH.
  - destruct Hi as [|σ Hi]; [done|]. intros (Hv & Ht & Ha & Hj). split_and!; [done|by rewrite <- He|done|by eapply IH].
Qed.

Lemma journal_inv_code j t cache code code2 Hi :
  (forall a, code2 a = code a) -> journal_inv j t cache code Hi -> journal_inv j t cache code2 Hi.
Proof.
  revert t cache code code2 Hi. induction j as [|e j IH]; intros t cache code code2 Hi Hc; [done|].
  destruct e; try (intros (t' & Hr & Hj); exists t'; split; [done|by eapply IH]); simpl.
  - intros (code' & Hb & Hj). exists code'. split; [|done]. intros b Hne. by rewrite Hc, Hb.
  - destruct Hi as [|σ Hi]; [done|]. intros (Hv & Ht & Ha & Hj). split_and!; [done|done| |by eapply IH].
    destruct cache as [m|]; [|done]. destruct Ha as [Ha1 Ha2].
    split; [by intros a; rewrite Hc|]. intros a x Hx. rewrite Hc. by apply Ha2.
Qed.

(** Without a memo the code does not matter. *)
Lemma journal_inv_nil j t code code2 Hi :
  journal_inv j t None code Hi -> journal_inv j t None code2 Hi.
Proof.
  revert t code code2 Hi. induction j as [|e j IH]; intros t code code2 Hi; [done|].
  destruct e; try (intros (t' & Hr & Hj); exists t'; split; [done|by eapply IH]); simpl.
  - intros (code' & Hb & Hj). exists code2. split; [done|by eapply IH].
  - destruct Hi as [|σ Hi]; [done|]. intros (Hv & Ht & Ha & Hj). split_and!; [done|done|done|by eapply IH].
Qed.

(** A read may fill the memo without a journal entry. *)
Lemma journal_inv_fill j t m code a Hi :
  journal_inv j t (Some m) code Hi -> journal_inv j t (Some (<[a := code a]> m)) code Hi.
Proof.
  revert t m code Hi. induction j as [|e j IH]; intros t m code Hi; [done|].
  destruct e as [| | | | | | | | | |b p h|v]; try (intros (t' & Hr & Hj); exists t'; split; [done|by eapply IH]); simpl.
  - intros (code' & Hb & Hj). exists code'. split; [done|]. destruct (decide (b = a)) as [->|Hne].
    + destruct h; [by rewrite insert_insert_eq|by rewrite delete_insert_eq].
    + rewrite <- (Hb a) by done.
      destruct h; [rewrite insert_insert_ne by done|rewrite delete_insert_ne by done]; by apply IH.
  - destruct Hi as [|σ Hi]; [done|]. intros (Hv & Ht & [Ha1 Ha2] & Hj).
    split; [done|]. split; [done|]. split; [|by apply IH]. split; [done|]. intros b x.
    rewrite lookup_insert_Some. intros [[<- <-]|[_ Hx]]; [done|by apply Ha2].
Qed.

(** ** The reference machine *)

(** The copies, newest first: the contexts the database keeps are theirs. *)
Fixpoint hist_ok Hi : Prop :=
  match Hi with
  | [] => True
  | σ :: Hi => db_snapshottedCtxs σ = db_ctx <$> reverse Hi /\ temp_ok (db_tempState σ) /\
               db_codeCache σ = None /\ hist_ok Hi
  end.

(** What a revert leaves alone: the error and the fields set for the transaction. *)
Definition restore σ r : DBI :=
  mkDB (db_ctx σ) (db_snapshottedCtxs σ) (db_tempState σ) (db_journal σ) (db_codeCache σ) (db_err r)
    (db_coinbaseAddress r) (db_coinbaseEvmAddress r) (db_simulation r) (db_eventsSuppressed r).

(** ** The relation

    [X] is an address whose code is being changed: the memo and the journal have not
    caught up with it. *)
Record Rel (X : option Address) Hi s r : Prop := {
  rel_ctx : db_ctx r = db_ctx s;
  rel_snaps : db_snapshottedCtxs s = db_ctx <$> reverse Hi;
  rel_snaps_r : db_snapshottedCtxs r = db_ctx <$> reverse Hi;
  rel_temp : temp_equiv (db_tempState s) (db_tempState r);
  rel_ok : temp_ok (db_tempState s);
  rel_nil : db_codeCache r = None;
  rel_code : exists code, (forall b, X <> Some b -> code b = k_GetCode (db_ctx s) b) /\
    coherent (db_codeCache s) code /\ journal_inv (db_journal s) (db_tempState s) (db_codeCache s) code Hi;
  rel_err : db_err r = db_err s;
  rel_coinbase : db_coinbaseAddress r = db_coinbaseAddress s;
  rel_coinbaseEvm : db_coinbaseEvmAddress r = db_coinbaseEvmAddress s;
  rel_simulation : db_simulation r = db_simulation s;
  rel_suppressed : db_eventsSuppressed r = db_eventsSuppressed s;
  rel_hist : hist_ok Hi
}.

(** Two computations that keep related states related and answer the same. *)
Definition sim {A} (X Y : option Address) (m m' : DB (St := St) (Ev := Ev) (Err := Err) A) : Prop :=
  forall Hi s r, Rel X Hi s r ->
  match m s, m' r with
  | Some (s', a), Some (r', b) => a = b /\ Rel Y Hi s' r'
  | None, None => True
  | _, _ => False
  end.

Lemma DB_bind_run {A B} (m : DB A) (f : A -> DB B) s s' a :
  m s = Some (s', a) -> (m ≫= f) s = f a s'.
Proof. intros Hm. unfold mbind, DB_bind. by rewrite Hm. Qed.

Lemma sim_bind {A B} X Y Z' (m m' : DB A) (f f' : A -> DB B) :
  sim X Y m m' -> (forall a, sim Y Z' (f a) (f' a)) -> sim X Z' (m ≫= f) (m' ≫= f').
Proof.
  intros Hm Hf Hi s r HR. specialize (Hm Hi s r HR). unfold mbind, DB_bind.
  destruct (m s) as [[s' a]|], (m' r) as [[r' b]|]; simpl; try done.
  destruct Hm as [-> HR']. by apply Hf.
Qed.

Lemma sim_ret {A} X (a : A) : sim X X (mret a) (mret a).
Proof. by intros Hi s r HR. Qed.

Lemma sim_panic {A} X Y : sim X Y (panic : DB A) panic.
Proof. by intros Hi s r HR. Qed.

Lemma sim_asks {A} X (f : DBI -> A) :
  (forall Hi s r, Rel X Hi s r -> f s = f r) -> sim X X (asks f) (asks f).
Proof. intros Hf Hi s r HR. simpl. split; [by eapply Hf|done]. Qed.

(** A question about the temporary state that equivalent states answer alike. *)
Lemma sim_temp {A B} X Y (f : TemporaryState -> A) (k k' : A -> DB B) :
  (forall t u, temp_equiv t u -> f t = f u) -> (forall a, sim X Y (k a) (k' a)) ->
  sim X Y (t ← temp; k (f t)) (t ← temp; k' (f t)).
Proof.
  intros Hf Hk Hi s r HR. unfold mbind, DB_bind, temp, asks. cbn [option_bind mbind].
  rewrite <- (Hf _ _ (rel_temp _ _ _ _ HR)). by apply Hk.
Qed.

Lemma sim_ctx X Y (f : Ctx -> Ctx) :
  (forall c b, Y <> Some b -> k_GetCode (f c) b = k_GetCode c b) -> (X = Y \/ X = None) ->
  sim X Y (with_ctx f) (with_ctx f).
Proof.
  intros Hf HX Hi s r HR. simpl. split; [done|]. destruct HR. split; simpl; try done; [congruence|].
  destruct rel_code0 as (code & Hc & Hcoh & Hj). exists code. split; [|done].
  intros b Hb. rewrite Hf by done. apply Hc. destruct HX as [->| ->]; done.
Qed.

(** A journaled change. *)
Lemma Rel_journaled X Hi s r f f' e e' :
  Rel X Hi s r -> temp_equiv (f (db_tempState s)) (f' (db_tempState r)) -> temp_ok (f (db_tempState s)) ->
  undone e (f (db_tempState s)) (db_tempState s) ->
  match e with watermark _ | codeCacheChange _ _ _ => False | _ => True end ->
  match journaled f e s, journaled f' e' r with
  | Some (s', a), Some (r', b) => a = b /\ Rel X Hi s' r'
  | _, _ => False
  end.
Proof.
  intros HR Hf Hok (t' & Hr & Ht) He. simpl. split; [done|]. destruct HR. split; simpl; try done.
  destruct rel_code0 as (code & Hc & Hcoh & Hj). exists code. split_and!; [done|done|].
  assert (Hj' : journal_inv (db_journal s) t' (db_codeCache s) code Hi) by (eapply journal_inv_equiv; [symmetry|]; done).
  destruct e; try done; exists t'; done.
Qed.

(** Computations that read the temporary state first. *)
Lemma sim_at_temp {A} X Y (k k' : TemporaryState -> DB A) :
  (forall Hi s r, Rel X Hi s r ->
     match k (db_tempState s) s, k' (db_tempState r) r with
     | Some (s', a), Some (r', b) => a = b /\ Rel Y Hi s' r'
     | None, None => True
     | _, _ => False
     end) -> sim X Y (temp ≫= k) (temp ≫= k').
Proof. intros Hk Hi s r HR. by apply Hk. Qed.

Lemma sim_weaken {A} Y (a : Address) (m m' : DB A) : sim (Some a) Y m m' -> sim None Y m m'.
Proof.
  intros Hm Hi s r HR. apply Hm. destruct HR. split; try done.
  destruct rel_code0 as (code & Hc & Hr). exists code. split; [|done]. intros b _. by apply Hc.
Qed.

(** ** The operations on the temporary state *)
Lemma sim_GetTransientState X a k : sim X X (GetTransientState a k) (GetTransientState a k).
Proof.
  apply sim_at_temp. intros Hi s r HR. simpl. split; [|done]. apply (te_transient _ _ (rel_temp _ _ _ _ HR)).
Qed.

Lemma sim_SetTransientState X a k v : sim X X (SetTransientState a k v) (SetTransientState a k v).
Proof.
  apply sim_at_temp. intros Hi s r HR. pose proof (rel_temp _ _ _ _ HR) as He. pose proof (rel_ok _ _ _ _ HR) as Hok.
  apply Rel_journaled; [done| |by destruct Hok|apply undo_transient|done].
  assert (Htr : forall b j, transient_at (ts_transientStates (db_tempState s)) b j = transient_at (ts_transientStates (db_tempState r)) b j) by apply He.
  destruct He. split; simpl; try done. intros b j. rewrite !transient_at_insert.
  case_decide as Hb; [|apply Htr]. case_decide; [done|]. rewrite !transient_at_default. apply Htr.
Qed.

Lemma sim_MarkAccount X a status : sim X X (MarkAccount a status) (MarkAccount a status).
Proof.
  apply sim_at_temp. intros Hi s r HR. pose proof (rel_temp _ _ _ _ HR) as He. pose proof (rel_ok _ _ _ _ HR) as Hok.
  apply Rel_journaled; [done| |by destruct Hok|apply undo_account|done].
  pose proof (te_accounts _ _ He) as Ha. destruct He. split; simpl; try done. by rewrite Ha.
Qed.

Lemma sim_account_is X a status :
  sim X X (t ← temp; mret (bool_decide (getTransientAccount t a = Some status)))
          (t ← temp; mret (bool_decide (getTransientAccount t a = Some status))).
Proof.
  apply sim_at_temp. intros Hi s r HR. simpl. split; [|done]. unfold getTransientAccount.
  by rewrite (te_accounts _ _ (rel_temp _ _ _ _ HR)).
Qed.

Lemma sim_GetAllLogs X : sim X X GetAllLogs GetAllLogs.
Proof. apply sim_at_temp. intros Hi s r HR. simpl. split; [|done]. apply (te_logs _ _ (rel_temp _ _ _ _ HR)). Qed.

Lemma sim_AddLog X l : sim X X (AddLog l) (AddLog l).
Proof.
  eapply sim_bind; [apply sim_GetAllLogs|]. intros logs Hi s r HR.
  pose proof (rel_temp _ _ _ _ HR) as He. pose proof (rel_ok _ _ _ _ HR) as Hok.
  apply Rel_journaled; [done| |by destruct Hok|apply undo_log|done].
  pose proof (te_logs _ _ He) as Ha. destruct He. split; simpl; try done. by rewrite Ha.
Qed.

(** The refund counter is the one [refund_of] gives, in range. *)
Lemma GetRefund_run s :
  temp_ok (db_tempState s) ->
  exists v, GetRefund s = Some (s, v) /\ refund_of (db_tempState s) = Some v /\ 0 <= v < 2 ^ 64.
Proof.
  intros Hok. destruct (to_refund _ Hok) as (v & Hv & Hr). exists v. split; [|done].
  unfold GetRefund, mbind, DB_bind, temp, asks. simpl. unfold refund_of in Hv.
  destruct (ts_transientModuleStates (db_tempState s) !! GasRefundKey); [rewrite Hv|injection Hv as <-]; done.
Qed.

Lemma GetRefund_both X Hi s r :
  Rel X Hi s r -> exists v, GetRefund s = Some (s, v) /\ GetRefund r = Some (r, v) /\
    refund_of (db_tempState s) = Some v /\ 0 <= v < 2 ^ 64.
Proof.
  intros HR. destruct (GetRefund_run s (rel_ok _ _ _ _ HR)) as (v & Hs & Hv & Hr).
  destruct (GetRefund_run r (temp_ok_equiv _ _ (rel_temp _ _ _ _ HR) (rel_ok _ _ _ _ HR))) as (v' & Hs' & Hv' & _).
  exists v. rewrite <- (te_refund _ _ (rel_temp _ _ _ _ HR)), Hv in Hv'. injection Hv' as <-. done.
Qed.

Lemma sim_GetRefund X : sim X X GetRefund GetRefund.
Proof. intros Hi s r HR. by destruct (GetRefund_both X Hi s r HR) as (v & -> & -> & _). Qed.

Lemma sim_set_refund X Hi s r v prev :
  Rel X Hi s r -> refund_of (db_tempState s) = Some prev -> 0 <= prev < 2 ^ 64 ->
  match set_refund v prev s, set_refund v prev r with
  | Some (s', a), Some (r', b) => a = b /\ Rel X Hi s' r'
  | _, _ => False
  end.
Proof.
  intros HR Hp Hr. pose proof (rel_temp _ _ _ _ HR) as He. pose proof (rel_ok _ _ _ _ HR) as Hok.
  apply Rel_journaled; [done| | |by apply undo_refund|done].
  - pose proof (te_modules _ _ He) as Hm. destruct He. split; simpl; try done.
    + by rewrite !refund_of_set.
    + intros k Hk. rewrite !lookup_insert_ne by done. auto.
  - destruct Hok. split; [done| |done]. exists (v mod 2 ^ 64). rewrite refund_of_set, Uint64_PutUint64.
    split; [done|]. apply Z.mod_pos_bound. lia.
Qed.

Lemma sim_AddRefund X gas : sim X X (AddRefund gas) (AddRefund gas).
Proof.
  intros Hi s r HR. destruct (GetRefund_both X Hi s r HR) as (v & Hs & Hr & Hv & Hb).
  unfold AddRefund, mbind, DB_bind. rewrite Hs, Hr. cbn [mbind option_bind].
  by apply (sim_set_refund X Hi s r _ v).
Qed.

Lemma sim_SubRefund X gas : sim X X (SubRefund gas) (SubRefund gas).
Proof.
  intros Hi s r HR. destruct (GetRefund_both X Hi s r HR) as (v & Hs & Hr & Hv & Hb).
  unfold SubRefund, mbind, DB_bind. rewrite Hs, Hr. cbn [mbind option_bind].
  case_bool_decide; [done|]. by apply (sim_set_refund X Hi s r _ v).
Qed.

Lemma sim_add_surplus X d : sim X X (add_surplus d) (add_surplus d).
Proof.
  apply sim_at_temp. intros Hi s r HR. pose proof (rel_temp _ _ _ _ HR) as He. pose proof (rel_ok _ _ _ _ HR) as Hok.
  rewrite <- (te_surplus _ _ He). destruct (int_add _ d) as [z|] eqn:Hz; [|done].
  apply Rel_journaled; [done|by destruct He; split| |apply undo_surplus; [by destruct Hok|done]|done].
  destruct Hok. split; [done|done|]. simpl. rewrite int_add_spec in Hz. by case_match; simplify_eq.
Qed.

(** ** The access list *)
Lemma sim_AddressInAccessList X a : sim X X (AddressInAccessList a) (AddressInAccessList a).
Proof.
  eapply sim_bind; [apply sim_ret|]. intros []. apply sim_at_temp. intros Hi s r HR. simpl. split; [|done].
  by rewrite (te_accessLists _ _ (rel_temp _ _ _ _ HR)).
Qed.

Lemma sim_SlotInAccessList X a slot : sim X X (SlotInAccessList a slot) (SlotInAccessList a slot).
Proof.
  eapply sim_bind; [apply sim_ret|]. intros []. apply sim_at_temp. intros Hi s r HR.
  rewrite (te_accessLists _ _ (rel_temp _ _ _ _ HR)). cbv zeta.
  destruct (al_Addresses (ts_transientAccessLists (db_tempState r)) !! a) as [i|]; [|done].
  case_bool_decide; [|done]. case_bool_decide; [|done].
  by destruct (al_Slots (ts_transientAccessLists (db_tempState r)) !! Z.to_nat i).
Qed.

Lemma Rel_access X Hi s r al e :
  Rel X Hi s r -> al_ok al ->
  undone e (set_accessLists (db_tempState s) al) (db_tempState s) ->
  match e with watermark _ | codeCacheChange _ _ _ => False | _ => True end ->
  match journaled (fun t => set_accessLists t al) e s, journaled (fun t => set_accessLists t al) e r with
  | Some (s', a), Some (r', b) => a = b /\ Rel X Hi s' r'
  | _, _ => False
  end.
Proof.
  intros HR Hal Hu He. pose proof (rel_temp _ _ _ _ HR) as Ht. pose proof (rel_ok _ _ _ _ HR) as Hok.
  apply Rel_journaled; [done|by destruct Ht; split|by destruct Hok; split|done|done].
Qed.

Lemma sim_AddAddress X a : sim X X (AddAddressToAccessList a) (AddAddressToAccessList a).
Proof.
  eapply sim_bind; [apply sim_ret|]. intros []. apply sim_at_temp. intros Hi s r HR.
  pose proof (te_accessLists _ _ (rel_temp _ _ _ _ HR)) as Hal. rewrite <- Hal. case_bool_decide as Hin; [done|].
  pose proof (Rel_access X Hi s r (mkAccessList (<[a := -1]> (al_Addresses (ts_transientAccessLists (db_tempState s))))
    (al_Slots (ts_transientAccessLists (db_tempState s)))) (accessListAddAccountChange a) HR) as Hp.
  simpl in Hp |- *. rewrite <- Hal. apply Hp; [|apply undo_address|done].
  - apply al_ok_address, to_al, (rel_ok _ _ _ _ HR).
  - by apply eq_None_not_Some.
Qed.

(** What [AddAddressToAccessList] leaves. *)
Lemma AddAddress_run s a :
  exists s', AddAddressToAccessList a s = Some (s', tt) /\ db_ctx s' = db_ctx s /\
    ts_transientAccessLists (db_tempState s') =
      (if decide (is_Some (al_Addresses (ts_transientAccessLists (db_tempState s)) !! a))
       then ts_transientAccessLists (db_tempState s)
       else mkAccessList (<[a := -1]> (al_Addresses (ts_transientAccessLists (db_tempState s))))
              (al_Slots (ts_transientAccessLists (db_tempState s)))).
Proof.
  unfold AddAddressToAccessList, mbind, DB_bind, PrepareReplayedAddr, temp, asks. simpl.
  case_bool_decide; case_decide; try done; by eexists.
Qed.

Lemma sim_new_slots X a slot :
  forall Hi s r, Rel X Hi s r -> al_Addresses (ts_transientAccessLists (db_tempState s)) !! a = Some (-1) ->
  let f := fun t => let al := ts_transientAccessLists t in
    set_accessLists t (mkAccessList (<[a := Z.of_nat (length (al_Slots al))]> (al_Addresses al)) (al_Slots al ++ [{[slot]}])) in
  match journaled f (accessListAddSlotChange a slot) s, journaled f (accessListAddSlotChange a slot) r with
  | Some (s', a), Some (r', b) => a = b /\ Rel X Hi s' r'
  | _, _ => False
  end.
Proof.
  intros Hi s r HR Ha f. pose proof (te_accessLists _ _ (rel_temp _ _ _ _ HR)) as Hal.
  set (al := ts_transientAccessLists (db_tempState s)) in *.
  pose proof (Rel_access X Hi s r (mkAccessList (<[a := Z.of_nat (length (al_Slots al))]> (al_Addresses al)) (al_Slots al ++ [{[slot]}]))
    (accessListAddSlotChange a slot) HR) as Hp.
  simpl in Hp |- *. unfold f. cbv zeta. rewrite <- Hal. apply Hp; [|by apply undo_new_slots|done].
  apply al_ok_new_slots, to_al, (rel_ok _ _ _ _ HR).
Qed.

Lemma sim_AddSlot X a slot : sim X X (AddSlotToAccessList a slot) (AddSlotToAccessList a slot).
Proof.
  eapply sim_bind; [apply sim_ret|]. intros []. apply sim_at_temp. intros Hi s r HR.
  pose proof (te_accessLists _ _ (rel_temp _ _ _ _ HR)) as Hal. rewrite <- Hal. cbv zeta.
  pose proof (to_al _ (rel_ok _ _ _ _ HR)) as Hok. set (al := ts_transientAccessLists (db_tempState s)) in *.
  destruct (al_Addresses al !! a) as [i|] eqn:Ha.
  - destruct (decide (i = -1)) as [->|Hne]; [by apply sim_new_slots|].
    destruct (al_index _ Hok a i Ha) as [|Hr]; [done|].
    assert (Hcase : forall (A : Type) (x y : A), match i with Z.neg 1 => x | _ => y end = y).
    { intros A x y. destruct i as [|?|[]]; done. }
    rewrite !(DB_bind_run (mret tt) _ _ _ _ eq_refl), !Hcase.
    rewrite bool_decide_eq_true_2 by lia.
    destruct (lookup_lt_is_Some_2 (al_Slots al) (Z.to_nat i)) as [slots Hs]; [lia|]. rewrite Hs.
    case_bool_decide as Hin; [done|].
    pose proof (Rel_access X Hi s r (mkAccessList (al_Addresses al) (<[Z.to_nat i := {[slot]} ∪ slots]> (al_Slots al)))
      (accessListAddSlotChange a slot) HR) as Hp.
    simpl in Hp |- *. rewrite <- Hal. apply Hp; [|by eapply undo_slot; [..|lia|done|by eapply al_nonempty|done]|done].
    destruct Hok as [Hi' Hn]. split; simpl.
    + intros b j Hb. rewrite length_insert. eauto.
    + intros j x. rewrite list_lookup_insert_Some. intros [(_ & <- & _)|[_ Hx]]; [set_solver|eauto].
  - destruct (AddAddress_run s a) as (s1 & Hs1 & _ & Hal1). destruct (AddAddress_run r a) as (r1 & Hr1 & _).
    pose proof (sim_AddAddress X a Hi s r HR) as Hsim. rewrite Hs1, Hr1 in Hsim. destruct Hsim as [_ HR1].
    rewrite (DB_bind_run _ _ _ _ _ Hs1), !(DB_bind_run _ _ _ _ _ Hr1).
    apply sim_new_slots; [done|]. rewrite Hal1. fold al. rewrite decide_False by (rewrite Ha; by intros [? ?]).
    simpl. by rewrite lookup_insert_eq.
Qed.

(** ** Storage *)
Lemma sim_override {A} X Y a (k k' : option storageOverride -> DB A) :
  sim X Y (k None) (k' None) ->
  (forall Hi s r x y, Rel X Hi s r ->
     ts_storageOverrides (db_tempState s) !! a = Some x -> ts_storageOverrides (db_tempState r) !! a = Some y ->
     override_equiv x y ->
     match k (Some x) s, k' (Some y) r with
     | Some (s', a), Some (r', b) => a = b /\ Rel Y Hi s' r'
     | None, None => True
     | _, _ => False
     end) -> sim X Y (override_at a ≫= k) (override_at a ≫= k').
Proof.
  intros Hn Hk Hi s r HR. rewrite !(DB_bind_run (override_at a) _ _ _ _ eq_refl).
  pose proof (te_overrides _ _ (rel_temp _ _ _ _ HR) a) as Ha.
  destruct (ts_storageOverrides (db_tempState s) !! a) as [x|] eqn:Hx,
    (ts_storageOverrides (db_tempState r) !! a) as [y|] eqn:Hy; try by inversion Ha.
  - apply Hk; [done..|]. by inversion Ha.
  - by apply Hn.
Qed.

Lemma sim_getCtx X : sim X X getCtx getCtx.
Proof. apply sim_asks. intros Hi s r HR. by rewrite (rel_ctx _ _ _ _ HR). Qed.

Lemma sim_getState X c a k : sim X X (getState c a k) (getState c a k).
Proof. eapply sim_bind; [apply sim_ret|]. intros []. apply sim_ret. Qed.

Lemma sim_GetState X a k : sim X X (GetState a k) (GetState a k).
Proof.
  apply sim_override.
  - eapply sim_bind; [apply sim_getCtx|]. intros c. apply sim_getState.
  - intros Hi s r x y HR _ _ [_ Hxy]. split; [apply Hxy|done].
Qed.

Lemma sim_GetCommittedState X a k : sim X X (GetCommittedState a k) (GetCommittedState a k).
Proof.
  apply sim_override.
  - eapply sim_bind; [apply sim_asks|].
    + intros Hi s r HR. by rewrite (rel_snaps _ _ _ _ HR), (rel_snaps_r _ _ _ _ HR).
    + intros [|c0 rest]; [apply sim_panic|apply sim_getState].
  - intros Hi s r x y HR _ _ [Hxy _]. by rewrite Hxy.
Qed.

Lemma Rel_overrides X Hi s r (f f' : gmap Address storageOverride -> gmap Address storageOverride) e e' :
  Rel X Hi s r ->
  (forall b, option_Forall2 override_equiv (f (ts_storageOverrides (db_tempState s)) !! b)
     (f' (ts_storageOverrides (db_tempState r)) !! b)) ->
  undone e (set_storageOverrides (db_tempState s) (f (ts_storageOverrides (db_tempState s)))) (db_tempState s) ->
  match e with watermark _ | codeCacheChange _ _ _ => False | _ => True end ->
  match journaled (fun t => set_storageOverrides t (f (ts_storageOverrides t))) e s,
        journaled (fun t => set_storageOverrides t (f' (ts_storageOverrides t))) e' r with
  | Some (s', a), Some (r', b) => a = b /\ Rel X Hi s' r'
  | _, _ => False
  end.
Proof.
  intros HR Hf Hu He. pose proof (rel_temp _ _ _ _ HR) as Ht. pose proof (rel_ok _ _ _ _ HR) as Hok.
  apply Rel_journaled; [done|by destruct Ht; split|by destruct Hok; split|done|done].
Qed.

Lemma sim_SetState a k v : sim None None (SetState a k v) (SetState a k v).
Proof.
  apply sim_override.
  - eapply sim_bind; [apply sim_ret|]. intros []. eapply sim_bind; [apply sim_GetState|]. intros old.
    eapply sim_bind; [apply sim_ctx; [|by left]|intros []; apply sim_ret]. intros c b _. apply kl_SetState.
  - intros Hi s r x y HR Hx Hy Hxy. unfold setOverrideState. rewrite !(DB_bind_run (journaled _ _) _ _ _ _ eq_refl).
    pose proof (Rel_overrides None Hi s r
      (fun m => <[a := mkOverride (so_committed x) (<[k := v]> (so_current x))]> m)
      (fun m => <[a := mkOverride (so_committed y) (<[k := v]> (so_current y))]> m)
      (storageOverrideChange a k (hash_or_zero (so_current x !! k)))
      (storageOverrideChange a k (hash_or_zero (so_current y !! k))) HR) as Hp.
    simpl in Hp |- *. split; [apply Hxy|]. apply Hp; [|by apply undo_override_change|done].
    apply override_insert; [apply (te_overrides _ _ (rel_temp _ _ _ _ HR))|by apply override_current].
Qed.

Lemma sim_SetStorage X a states : sim X X (SetStorage a states) (SetStorage a states).
Proof.
  eapply sim_bind; [apply sim_ret|]. intros []. intros Hi s r HR.
  rewrite !(DB_bind_run (override_at a) _ _ _ _ eq_refl).
  apply (Rel_overrides X Hi s r (fun m => <[a := mkOverride states states]> m) (fun m => <[a := mkOverride states states]> m));
    [done| |apply undo_override_install|done].
  apply override_insert; [apply (te_overrides _ _ (rel_temp _ _ _ _ HR))|done].
Qed.

(** ** Balances *)
Lemma sim_getSeiAddress X a : sim X X (getSeiAddress a) (getSeiAddress a).
Proof.
  eapply sim_bind; [apply sim_asks; intros Hi s r HR; by rewrite (rel_coinbaseEvm _ _ _ _ HR)|]. intros x.
  eapply sim_bind; [apply sim_asks; intros Hi s r HR; by rewrite (rel_coinbase _ _ _ _ HR)|]. intros y.
  eapply sim_bind; [apply sim_getCtx|]. intros c. apply sim_ret.
Qed.

Lemma sim_GetBalance X a : sim X X (GetBalance a) (GetBalance a).
Proof.
  eapply sim_bind; [apply sim_ret|]. intros []. eapply sim_bind; [apply sim_getSeiAddress|]. intros x.
  eapply sim_bind; [apply sim_getCtx|]. intros c. case_match; [apply sim_ret|apply sim_panic].
Qed.

Lemma sim_set_err X (err : Err) : sim X X (set_err err) (set_err err).
Proof. intros Hi s r HR. simpl. split; [done|]. by destruct HR; split. Qed.

Lemma sim_set_eventsSuppressed X b : sim X X (set_eventsSuppressed b) (set_eventsSuppressed b).
Proof. intros Hi s r HR. simpl. split; [done|]. by destruct HR; split. Qed.

Lemma sim_bank (op : Ctx -> option (Ctx * option Err)) :
  (forall c, keeps_code c (op c)) -> sim None None (bank op) (bank op).
Proof.
  intros Hop. eapply sim_bind; [apply sim_asks; intros Hi s r HR; by rewrite (rel_suppressed _ _ _ _ HR)|]. intros sup.
  intros Hi s r HR. rewrite !(DB_bind_run getCtx _ _ _ _ eq_refl), (rel_ctx _ _ _ _ HR).
  set (c0 := if sup then _ else _). pose proof (Hop c0) as Hc. destruct (op c0) as [[c' err]|]; [|done]. simpl in Hc.
  rewrite !(DB_bind_run (with_ctx _) _ _ _ _ eq_refl). simpl. split; [done|].
  assert (Hcode : forall b, k_GetCode (if sup then mkCtx (cx_store c') (cx_events (db_ctx s)) (cx_IsTracing (db_ctx s))
      (cx_ChainID (db_ctx s)) (cx_BlockHeight (db_ctx s)) (cx_TxIndex (db_ctx s)) else c') b = k_GetCode (db_ctx s) b).
  { intros b. destruct sup; [|by rewrite Hc]. rewrite (kl_store _ c') by done. rewrite Hc. by apply kl_store. }
  pose proof (rel_ctx _ _ _ _ HR) as Hx.
  destruct HR. split; simpl; try done; [by rewrite Hx|].
  destruct rel_code0 as (code & Hcd & Hr). exists code. split; [|done]. intros b Hb. by rewrite Hcode, Hcd.
Qed.

Lemma keeps_code_bind {A} (o : option A) (f : A -> option (Ctx * option Err)) c :
  (forall a, keeps_code c (f a)) -> keeps_code c (o ≫= f).
Proof. intros Hf. destruct o as [a|]; [apply Hf|exact I]. Qed.

Create HintDb stdb.
#[local] Hint Resolve sim_ret sim_panic sim_getCtx sim_GetBalance sim_getSeiAddress sim_set_err
  sim_set_eventsSuppressed sim_add_surplus sim_MarkAccount sim_account_is : stdb.

(** Walk through a method whose parts are known to keep the relation. *)
Ltac sims := repeat first [solve [eauto with stdb] | eapply sim_bind; [solve [eauto with stdb]|intros ?] | case_match].

Lemma sim_ctx_keep (f : Ctx -> Ctx) :
  (forall c b, k_GetCode (f c) b = k_GetCode c b) -> sim None None (with_ctx f) (with_ctx f).
Proof. intros Hf. apply sim_ctx; [|by left]. intros c b _. apply Hf. Qed.

Lemma sim_Prepare X a : sim X X (PrepareReplayedAddr a) (PrepareReplayedAddr a).
Proof. apply sim_ret. Qed.
#[local] Hint Resolve sim_Prepare : stdb.

Lemma sim_SubBalance a amt : sim None None (SubBalance a amt) (SubBalance a amt).
Proof.
  unfold SubBalance, SplitUseiWeiAmount. eapply sim_bind; [apply sim_Prepare|]. intros _. case_bool_decide; [apply sim_ret|].
  eapply sim_bind; [apply sim_getSeiAddress|]. intros x. eapply sim_bind; [apply sim_getCtx|]. intros c.
  eapply sim_bind; [apply sim_bank; intros; apply keeps_code_bind; intros; apply kl_SubUnlockedCoins|]. intros [err|]; [apply sim_set_err|].
  eapply sim_bind; [apply sim_bank; intros; apply kl_SubWei|]. intros [err|]; [apply sim_set_err|apply sim_add_surplus].
Qed.

Lemma sim_AddBalance a amt : sim None None (AddBalance a amt) (AddBalance a amt).
Proof.
  unfold AddBalance, SplitUseiWeiAmount. eapply sim_bind; [apply sim_Prepare|]. intros _. case_bool_decide; [apply sim_ret|].
  eapply sim_bind; [apply sim_getSeiAddress|]. intros x. eapply sim_bind; [apply sim_getCtx|]. intros c.
  eapply sim_bind; [apply sim_bank; intros; apply keeps_code_bind; intros; apply kl_AddCoins|]. intros [err|]; [apply sim_set_err|].
  eapply sim_bind; [apply sim_bank; intros; apply kl_AddWei|]. intros [err|]; [apply sim_set_err|apply sim_add_surplus].
Qed.
#[local] Hint Resolve sim_SubBalance sim_AddBalance : stdb.

(** A bank operation on the context itself. *)
Definition on_ctx {B} (op : Ctx -> option (Ctx * option Err)) (k : option Err -> DB B) : DB (St := St) (Ev := Ev) (Err := Err) B :=
  c ← getCtx; match op c with None => panic | Some (c', err) => _ ← with_ctx (fun _ => c'); k err end.

Lemma sim_on_ctx {B} (op : Ctx -> option (Ctx * option Err)) (k : option Err -> DB B) :
  (forall c, keeps_code c (op c)) -> (forall err, sim None None (k err) (k err)) ->
  sim None None (on_ctx op k) (on_ctx op k).
Proof.
  intros Hop Hk Hi s r HR. unfold on_ctx. rewrite !(DB_bind_run getCtx _ _ _ _ eq_refl), (rel_ctx _ _ _ _ HR).
  pose proof (Hop (db_ctx s)) as Hc. destruct (op (db_ctx s)) as [[c' err]|]; [|done]. simpl in Hc.
  rewrite !(DB_bind_run (with_ctx _) _ _ _ _ eq_refl). apply Hk.
  destruct HR. split; simpl; try done.
  destruct rel_code0 as (code & Hcd & Hr). exists code. split; [|done]. intros b Hb. by rewrite Hc, Hcd.
Qed.

Lemma sim_send x y amt : sim None None (send x y amt) (send x y amt).
Proof.
  unfold send, SplitUseiWeiAmount.
  apply (sim_on_ctx (fun c => k_SendCoinsAndWei c x y _ _) (fun err => match err with Some e => set_err e | None => mret tt end)).
  - intros. apply kl_Send.
  - intros [err|]; eauto with stdb.
Qed.

Lemma sim_panic_on_err X : sim X X panic_on_err panic_on_err.
Proof.
  eapply sim_bind; [apply sim_asks; intros Hi s r HR; by rewrite (rel_err _ _ _ _ HR)|]. intros [err|]; eauto with stdb.
Qed.
#[local] Hint Resolve sim_send sim_panic_on_err : stdb.

Lemma sim_SetBalance a amt : sim None None (SetBalance a amt) (SetBalance a amt).
Proof.
  unfold SetBalance, SplitUseiWeiAmount.
  eapply sim_bind; [apply sim_asks; intros Hi s r HR; by rewrite (rel_simulation _ _ _ _ HR)|]. intros [|]; [|apply sim_panic].
  cbn [negb]. do 5 (eapply sim_bind; [solve [eauto with stdb]|intros ?]).
  apply (sim_on_ctx (fun c => coins ← new_coins (k_GetBaseDenom c) _; k_MintCoins c ModuleName coins)
    (fun err => match err with Some _ => panic | None => _ ← send _ _ amt; panic_on_err end)).
  - intros. apply keeps_code_bind. intros. apply kl_Mint.
  - intros [err|]; sims.
Qed.

Lemma sim_SelfDestruct a : sim None None (SelfDestruct a) (SelfDestruct a).
Proof.
  eapply sim_bind; [apply sim_Prepare|]. intros _. eapply sim_bind; [apply sim_getCtx|]. intros c.
  eapply (sim_bind _ None).
  - case_match; [apply sim_ctx_keep; intros; apply kl_Mapping|apply sim_ret].
  - intros _. sims.
Qed.
#[local] Hint Resolve sim_SelfDestruct : stdb.

Lemma sim_SelfDestruct6780 a : sim None None (SelfDestruct6780 a) (SelfDestruct6780 a).
Proof. eapply sim_bind; [apply sim_account_is|]. intros [|]; sims. Qed.

Lemma sim_GetNonce X a : sim X X (GetNonce a) (GetNonce a).
Proof. unfold GetNonce. sims. Qed.
Lemma sim_GetCodeHash X a : sim X X (GetCodeHash a) (GetCodeHash a).
Proof. unfold GetCodeHash. sims. Qed.
Lemma sim_GetCodeSize X a : sim X X (GetCodeSize a) (GetCodeSize a).
Proof. unfold GetCodeSize. sims. Qed.
Lemma sim_SetNonce a n : sim None None (SetNonce a n) (SetNonce a n).
Proof. eapply sim_bind; [apply sim_Prepare|]. intros _. apply sim_ctx_keep. intros. apply kl_SetNonce. Qed.
#[local] Hint Resolve sim_GetNonce sim_GetCodeHash sim_GetCodeSize : stdb.

Lemma sim_Exist a : sim None None (Exist a) (Exist a).
Proof. unfold Exist. sims. Qed.
Lemma sim_Empty a : sim None None (Empty_ a) (Empty_ a).
Proof. unfold Empty_. sims. Qed.
Lemma sim_Transfer x y amt : sim None None (TransferWithoutEvents x y amt) (TransferWithoutEvents x y amt).
Proof. unfold TransferWithoutEvents. sims. Qed.

(** ** Code *)
Lemma Rel_fill Hi s r m a :
  Rel None Hi s r -> db_codeCache s = Some m ->
  match set_codeCache (Some (<[a := k_GetCode (db_ctx s) a]> m)) s with
  | Some (s', _) => Rel None Hi s' r /\ db_codeCache s' = Some (<[a := k_GetCode (db_ctx s) a]> m)
  | None => False
  end.
Proof.
  intros HR Hm. simpl. split; [|done]. destruct HR. split; simpl; try done.
  destruct rel_code0 as (code & Hc & Hcoh & Hj). exists code. rewrite Hm in Hcoh, Hj. rewrite <- (Hc a) by done.
  split_and!; [done| |by apply journal_inv_fill].
  intros b x. rewrite lookup_insert_Some. intros [[<- <-]|[_ Hx]]; [done|by apply Hcoh].
Qed.

Lemma sim_GetCode a : sim None None (GetCode a) (GetCode a).
Proof.
  eapply sim_bind; [apply sim_Prepare|]. intros _ Hi s r HR.
  rewrite !(DB_bind_run (asks db_codeCache) _ _ _ _ eq_refl), !(DB_bind_run getCtx _ _ _ _ eq_refl).
  rewrite (rel_nil _ _ _ _ HR), (rel_ctx _ _ _ _ HR).
  destruct (db_codeCache s) as [m|] eqn:Hm; [|done]. destruct (m !! a) as [x|] eqn:Hx.
  - simpl. split; [|done]. destruct (rel_code _ _ _ _ HR) as (code & Hc & Hcoh & _). rewrite Hm in Hcoh.
    by rewrite (Hcoh a x Hx), Hc.
  - pose proof (Rel_fill Hi s r m a HR Hm) as Hf. pose proof (kl_norm (db_ctx s) a) as Hn. cbv zeta.
    case_bool_decide as Hnil.
    + unfold norm_code in Hn. rewrite bool_decide_eq_true_2 in Hn by done. rewrite <- Hn in Hf |- *.
      rewrite !(DB_bind_run (set_codeCache _) _ _ _ _ eq_refl). simpl in Hf |- *. by destruct Hf.
    + unfold putCodeCache. rewrite Hn.
      assert (Hput : (asks db_codeCache ≫= fun cache => match cache with None => mret tt
        | Some m => set_codeCache (Some (<[a := k_GetCode (db_ctx s) a]> m)) end) s =
        set_codeCache (Some (<[a := k_GetCode (db_ctx s) a]> m)) s).
      { rewrite (DB_bind_run (asks db_codeCache) _ _ _ _ eq_refl). by rewrite Hm. }
      rewrite (DB_bind_run _ _ _ _ _ Hput). rewrite (DB_bind_run (asks db_codeCache) _ _ _ _ eq_refl).
      simpl in Hf |- *. rewrite lookup_insert_eq. by destruct Hf.
Qed.
#[local] Hint Resolve sim_GetCode : stdb.

(** The memo and the journal catch up with a change of the code of [a]. *)
Lemma Rel_mutate Hi s r m m' a :
  Rel (Some a) Hi s r -> db_codeCache s = Some m ->
  (m' = delete a m \/ m' = <[a := k_GetCode (db_ctx s) a]> m) ->
  Rel None Hi (mkDB (db_ctx s) (db_snapshottedCtxs s) (db_tempState s)
    (codeCacheChange a (default None (m !! a)) (bool_decide (is_Some (m !! a))) :: db_journal s) (Some m') (db_err s)
    (db_coinbaseAddress s) (db_coinbaseEvmAddress s) (db_simulation s) (db_eventsSuppressed s)) r.
Proof.
  intros HR Hm Hm'. destruct HR. split; simpl; try done.
  destruct rel_code0 as (code & Hc & Hcoh & Hj). rewrite Hm in Hcoh, Hj.
  exists (fun b => if decide (b = a) then k_GetCode (db_ctx s) a else code b). split_and!.
  - intros b _. case_decide as Hb; [by subst|]. apply Hc. congruence.
  - intros b x Hx. case_decide as Hb; [subst b|].
    + destruct Hm' as [->| ->]; [by rewrite lookup_delete_eq in Hx|rewrite lookup_insert_eq in Hx; congruence].
    + apply Hcoh. destruct Hm' as [->| ->]; [by rewrite lookup_delete_ne in Hx|by rewrite lookup_insert_ne in Hx].
  - exists code. split; [intros b Hb; by rewrite decide_False|].
    assert (Hrev : revert_code (codeCacheChange a (default None (m !! a)) (bool_decide (is_Some (m !! a)))) (Some m') = Some m).
    { simpl. f_equal. destruct (m !! a) as [x|] eqn:Hx.
      - rewrite bool_decide_eq_true_2 by eauto. simpl.
        destruct Hm' as [->| ->]; [by rewrite insert_delete_eq, insert_id|by rewrite insert_insert_eq, insert_id].
      - rewrite bool_decide_eq_false_2 by (by intros [? ?]).
        destruct Hm' as [->| ->]; [rewrite delete_delete_eq; by apply delete_id|by rewrite delete_insert_id]. }
    by rewrite <- Hrev in Hj.
Qed.

Lemma Rel_mutate_nil Hi s r a : Rel (Some a) Hi s r -> db_codeCache s = None -> Rel None Hi s r.
Proof.
  intros HR Hm. destruct HR. split; try done. destruct rel_code0 as (code & Hc & _ & Hj). rewrite Hm in *.
  exists (k_GetCode (db_ctx s)). split_and!; [done|done|]. by eapply journal_inv_nil.
Qed.

Lemma sim_SetCode a (code : option bytes) : sim None None (SetCode a code) (SetCode a code).
Proof.
  eapply sim_bind; [apply sim_Prepare|]. intros _. eapply sim_bind; [apply sim_GetCode|]. intros old Hi s r HR.
  assert (HR1 : Rel (Some a) Hi s r).
  { destruct HR. split; try done. destruct rel_code0 as (cd & Hc & Hr). exists cd. split; [|done]. intros b _. by apply Hc. }
  pose proof (sim_ctx (Some a) (Some a) (fun c => k_SetCode c a code)) as Hctx.
  specialize (Hctx ltac:(intros c b Hb; cbv beta; rewrite kl_SetCode; by rewrite decide_False by congruence) ltac:(by left) Hi s r HR1).
  destruct (with_ctx (fun c => k_SetCode c a code) s) as [[s1 u]|] eqn:Hs1; [|done].
  destruct (with_ctx (fun c => k_SetCode c a code) r) as [[r1 u']|] eqn:Hr1; [|done]. destruct Hctx as [_ HR2].
  assert (Hcode : k_GetCode (db_ctx s1) a = norm_code code).
  { simpl in Hs1. injection Hs1 as <- <-. simpl. rewrite kl_SetCode. by rewrite decide_True. }
  rewrite (DB_bind_run _ _ _ _ _ Hs1), !(DB_bind_run _ _ _ _ _ Hr1).
  unfold journalCodeCacheMutation, putCodeCache, mbind, DB_bind, asks. cbn [mbind option_bind].
  rewrite (rel_nil _ _ _ _ HR2). cbn. rewrite (rel_nil _ _ _ _ HR2).
  destruct (db_codeCache s1) as [m|] eqn:Hm; cbn; rewrite ?Hm; cbn.
  - split; [done|]. rewrite <- Hcode. unfold id. apply (Rel_mutate Hi s1 r1 m _ a HR2 Hm). by right.
  - split; [done|]. by eapply Rel_mutate_nil.
Qed.

Lemma sim_deleteIfExists X Y pref a :
  (forall c b, Y <> Some b -> k_GetCode (k_Delete c pref a) b = k_GetCode c b) -> (X = Y \/ X = None) ->
  sim X Y (deleteIfExists pref a) (deleteIfExists pref a).
Proof.
  intros Hf HX. eapply sim_bind; [apply sim_getCtx|]. intros c. destruct (k_Has c pref a).
  - eapply sim_bind; [by apply sim_ctx|]. intros _. apply sim_ret.
  - intros Hi s r HR. simpl. split; [done|]. destruct HX as [->| ->]; [done|].
    destruct HR. split; try done. destruct rel_code0 as (cd & Hc & Hr). exists cd. split; [|done]. intros b _. by apply Hc.
Qed.

Lemma sim_clearAccountCodeAndNonce a :
  sim None None (clearAccountCodeAndNonce a) (clearAccountCodeAndNonce a).
Proof.
  assert (Hne : forall b : Address, Some a <> Some b -> b <> a) by congruence.
  eapply (sim_bind _ (Some a)); [apply sim_deleteIfExists; [|by right]|intros _].
  { intros c b Hb%Hne. apply kl_Delete; [|done]. left. }
  eapply (sim_bind _ (Some a)); [apply sim_deleteIfExists; [|by left]|intros _].
  { intros c b Hb%Hne. apply kl_Delete; [|done]. do 2 right. left. }
  eapply (sim_bind _ (Some a)); [apply sim_deleteIfExists; [|by left]|intros _].
  { intros c b Hb%Hne. apply kl_Delete; [|done]. do 3 right. left. }
  intros Hi s r HR. unfold journalCodeCacheMutation, mbind, DB_bind, asks. cbn [mbind option_bind].
  rewrite (rel_nil _ _ _ _ HR). cbn. rewrite (rel_nil _ _ _ _ HR).
  destruct (db_codeCache s) as [m|] eqn:Hm; cbn; rewrite ?Hm; cbn.
  - split; [done|]. unfold id. apply (Rel_mutate Hi s r m _ a HR Hm). by left.
  - split; [done|]. by eapply Rel_mutate_nil.
Qed.

Lemma sim_remove_override a :
  sim None None
    (ov ← override_at a; match ov with
      | Some ov => journaled (fun t => set_storageOverrides t (delete a (ts_storageOverrides t))) (storageOverrideRemove a ov)
      | None => mret tt end)
    (ov ← override_at a; match ov with
      | Some ov => journaled (fun t => set_storageOverrides t (delete a (ts_storageOverrides t))) (storageOverrideRemove a ov)
      | None => mret tt end).
Proof.
  apply sim_override; [apply sim_ret|]. intros Hi s r x y HR Hx Hy Hxy.
  apply (Rel_overrides None Hi s r (delete a) (delete a)); [done| |by apply undo_override_remove|done].
  apply override_delete, (te_overrides _ _ (rel_temp _ _ _ _ HR)).
Qed.

Lemma DB_bind_assoc {A B C} (m : DB A) (f : A -> DB B) (g : B -> DB C) s :
  ((m ≫= f) ≫= g) s = (m ≫= (fun a => f a ≫= g)) s.
Proof. unfold mbind, DB_bind. destruct (m s) as [[s' a]|]; [|done]. simpl. done. Qed.

Lemma sim_clearAccountState a : sim None None (clearAccountState a) (clearAccountState a).
Proof.
  eapply sim_bind; [apply sim_Prepare|]. intros _ Hi s r HR.
  set (rest := fun _ : () => b ← deleteIfExists CodeHashKeyPrefix a;
    if (b : bool) then _ ← with_ctx (fun c => k_PurgePrefix c (StateKey a)); clearAccountCodeAndNonce a else mret tt).
  assert (Hrest : sim None None ((ov ← override_at a; match ov with
      | Some ov => journaled (fun t => set_storageOverrides t (delete a (ts_storageOverrides t))) (storageOverrideRemove a ov)
      | None => mret tt end) ≫= rest) ((ov ← override_at a; match ov with
      | Some ov => journaled (fun t => set_storageOverrides t (delete a (ts_storageOverrides t))) (storageOverrideRemove a ov)
      | None => mret tt end) ≫= rest)).
  { eapply sim_bind; [apply sim_remove_override|]. intros []. unfold rest.
    eapply (sim_bind _ None); [apply sim_deleteIfExists; [|by left]|].
    - intros c b _. apply kl_Delete_other. left.
    - intros [|]; [|apply sim_ret].
      eapply sim_bind; [apply sim_ctx_keep; intros; apply kl_Purge|]. intros _. apply sim_clearAccountCodeAndNonce. }
  specialize (Hrest Hi s r HR). rewrite !DB_bind_assoc in Hrest. exact Hrest.
Qed.
#[local] Hint Resolve sim_clearAccountState : stdb.

Lemma sim_CreateAccount a : sim None None (CreateAccount a) (CreateAccount a).
Proof.
  eapply sim_bind; [apply sim_Prepare|]. intros _. eapply sim_bind; [apply sim_getCtx|]. intros c.
  eapply (sim_bind _ None); [destruct (cx_IsTracing c); eauto with stdb|]. intros _. apply sim_MarkAccount.
Qed.

(** ** Snapshots *)
Lemma Rel_Snapshot Hi s r :
  Rel None Hi s r ->
  match Snapshot s, Snapshot r with
  | Some (s', v), Some (r', v') => v = v' /\ Rel None (r :: Hi) s' r'
  | _, _ => False
  end.
Proof.
  intros HR. pose proof (rel_snaps _ _ _ _ HR) as Hs. pose proof (rel_snaps_r _ _ _ _ HR) as Hr.
  pose proof (rel_ctx _ _ _ _ HR) as Hc. simpl. rewrite Hs, Hr. split; [by rewrite !length_app|].
  destruct HR. split; cbn [db_ctx db_snapshottedCtxs db_tempState db_journal db_codeCache db_err db_coinbaseAddress
    db_coinbaseEvmAddress db_simulation db_eventsSuppressed]; try done.
  - by rewrite Hc.
  - rewrite reverse_cons, fmap_app. simpl. by rewrite Hc.
  - by rewrite reverse_cons, fmap_app.
  - destruct rel_code0 as (code & Hcd & Hcoh & Hj). exists code.
    assert (Hbr : forall b, k_GetCode (branch (db_ctx s)) b = k_GetCode (db_ctx s) b) by (intros b; by apply kl_store).
    split; [intros b Hb; by rewrite Hbr, Hcd|]. split; [exact Hcoh|].
    split; [rewrite length_app, length_fmap, length_reverse; simpl; lia|]. split; [done|]. split; [|exact Hj].
    destruct (db_codeCache s); [|done]. split; [|done]. intros a. rewrite Hc. by apply Hcd.
  - split_and!; [done|by eapply temp_ok_equiv|done|done].
Qed.

(** The entries above a watermark, undone. *)
Lemma revert_loop_spec rev j t cache code Hi :
  journal_inv j t cache code Hi -> 0 <= rev < Z.of_nat (length Hi) ->
  exists j' t' cache' code' σ Hi', revert_loop rev j t cache = Some (Some j', t', cache') /\
    drop (length Hi - Z.to_nat rev - 1) Hi = σ :: Hi' /\ length Hi' = Z.to_nat rev /\
    temp_equiv t' (db_tempState σ) /\ agrees_with cache' code' σ /\ journal_inv j' t' cache' code' Hi'.
Proof.
  revert t cache code Hi. induction j as [|e j IH]; intros t cache code Hi Hj Hr; [simpl in Hj; subst; simpl in Hr; lia|].
  assert (Hgen : match e with watermark _ => False | _ => True end ->
    (exists t' code', revert_temp e t = Some t' /\ journal_inv j t' (revert_code e cache) code' Hi) ->
    exists j' t' cache' code' σ Hi', revert_loop rev (e :: j) t cache = Some (Some j', t', cache') /\
      drop (length Hi - Z.to_nat rev - 1) Hi = σ :: Hi' /\ length Hi' = Z.to_nat rev /\
      temp_equiv t' (db_tempState σ) /\ agrees_with cache' code' σ /\ journal_inv j' t' cache' code' Hi').
  { intros He (t' & code' & Ht & Hj'). destruct (IH _ _ _ _ Hj' Hr) as (j2 & t2 & c2 & code2 & σ & Hi2 & Hl & Hrest).
    exists j2, t2, c2, code2, σ, Hi2. split; [|done]. cbn [revert_loop]. rewrite Ht. cbn [mbind option_bind].
    destruct e; done. }
  destruct e; try (destruct Hj as (t' & Ht & Hj); apply Hgen; [done|]; by exists t', code); simpl in Hj.
  - destruct Hj as (code' & Hb & Hj). apply Hgen; [done|]. by exists t, code'.
  - destruct Hi as [|σ Hi]; [done|]. destruct Hj as (-> & Ht & Ha & Hj). cbn [revert_loop revert_temp mbind option_bind].
    simpl in Hr. case_bool_decide as Hv.
    + exists j, t, cache, code, σ, Hi. split_and!; try done; [|lia].
      replace (length (σ :: Hi) - Z.to_nat rev - 1)%nat with 0%nat by (simpl; lia). done.
    + destruct (IH _ _ _ _ Hj) as (j2 & t2 & c2 & code2 & σ2 & Hi2 & Hl & Hd & Hrest); [lia|].
      exists j2, t2, c2, code2, σ2, Hi2. split; [done|]. split; [|done].
      replace (length (σ :: Hi) - Z.to_nat rev - 1)%nat with (S (length Hi - Z.to_nat rev - 1)) by (simpl; lia). done.
Qed.
End Revert.
