(* ===== verification/StateDBSpec.v ===== *)
(** The theorems on the EVM state database: reverts restore copies, the code memo
    is invisible, [Prepare] warms the access list and [Finalize] flushes the
    branches into the base context. *)
From stdpp Require Import base gmap sets list strings.
From Stdlib Require Import ZArith Lia.
From S2P Require Import Prelude Coins StateDB StateDBEquiv StateDBRevert.
Local Open Scope Z_scope.

(** ** The operations of a transaction *)
Inductive db_op :=
| DCreateAccount (a : Address) | DCreateContract (a : Address)
| DGetState (a : Address) (k : Hash) | DGetCommittedState (a : Address) (k : Hash)
| DSetState (a : Address) (k v : Hash) | DSetStorage (a : Address) (states : gmap Hash Hash)
| DGetTransientState (a : Address) (k : Hash) | DSetTransientState (a : Address) (k v : Hash)
| DGetCode (a : Address) | DSetCode (a : Address) (code : option bytes)
| DGetCodeHash (a : Address) | DGetCodeSize (a : Address)
| DGetNonce (a : Address) | DSetNonce (a : Address) (n : Z)
| DGetBalance (a : Address) | DAddBalance (a : Address) (amt : Z) | DSubBalance (a : Address) (amt : Z)
| DSetBalance (a : Address) (amt : Z) | DTransfer (a b : Address) (amt : Z)
| DSelfDestruct (a : Address) | DSelfDestruct6780 (a : Address) | DHasSelfDestructed (a : Address)
| DExist (a : Address) | DEmpty (a : Address)
| DAddRefund (gas : Z) | DSubRefund (gas : Z) | DGetRefund
| DAddLog (l : Log) | DGetAllLogs
| DAddAddress (a : Address) | DAddSlot (a : Address) (slot : Hash)
| DAddressIn (a : Address) | DSlotIn (a : Address) (slot : Hash)
| DSnapshot | DRevert (rev : Z).

Inductive db_answer :=
| AUnit | AInt (z : Z) | ABytes (b : bytes) | ACode (c : option bytes) | AFlag (b : bool)
| AFlags (p : bool * bool) | AIntFlag (p : Z * bool) | ALogs (l : list Log).

Section Spec.
Context {St Ev Err : Type} `{!EVMKeeper St Ev Err}.
Abbreviation DBI := (DBImpl St Ev Err).

Definition answering {A} (f : A -> db_answer) (m : DB (St := St) (Ev := Ev) (Err := Err) A) : DB db_answer :=
  a ← m; mret (f a).

Definition unit_ (_ : ()) : db_answer := AUnit.

Definition exec (o : db_op) : DB (St := St) (Ev := Ev) (Err := Err) db_answer :=
  match o with
  | DCreateAccount a => answering unit_ (CreateAccount a)
  | DCreateContract a => answering unit_ (CreateContract a)
  | DGetState a k => answering ABytes (GetState a k)
  | DGetCommittedState a k => answering ABytes (GetCommittedState a k)
  | DSetState a k v => answering ABytes (SetState a k v)
  | DSetStorage a states => answering unit_ (SetStorage a states)
  | DGetTransientState a k => answering ABytes (GetTransientState a k)
  | DSetTransientState a k v => answering unit_ (SetTransientState a k v)
  | DGetCode a => answering ACode (GetCode a)
  | DSetCode a code => answering ACode (SetCode a code)
  | DGetCodeHash a => answering ABytes (GetCodeHash a)
  | DGetCodeSize a => answering AInt (GetCodeSize a)
  | DGetNonce a => answering AInt (GetNonce a)
  | DSetNonce a n => answering unit_ (SetNonce a n)
  | DGetBalance a => answering AInt (GetBalance a)
  | DAddBalance a amt => answering unit_ (AddBalance a amt)
  | DSubBalance a amt => answering unit_ (SubBalance a amt)
  | DSetBalance a amt => answering unit_ (SetBalance a amt)
  | DTransfer a b amt => answering unit_ (TransferWithoutEvents a b amt)
  | DSelfDestruct a => answering AInt (SelfDestruct a)
  | DSelfDestruct6780 a => answering AIntFlag (SelfDestruct6780 a)
  | DHasSelfDestructed a => answering AFlag (HasSelfDestructed a)
  | DExist a => answering AFlag (Exist a)
  | DEmpty a => answering AFlag (Empty_ a)
  | DAddRefund gas => answering unit_ (AddRefund gas)
  | DSubRefund gas => answering unit_ (SubRefund gas)
  | DGetRefund => answering AInt GetRefund
  | DAddLog l => answering unit_ (AddLog l)
  | DGetAllLogs => answering ALogs GetAllLogs
  | DAddAddress a => answering unit_ (AddAddressToAccessList a)
  | DAddSlot a slot => answering unit_ (AddSlotToAccessList a slot)
  | DAddressIn a => answering AFlag (AddressInAccessList a)
  | DSlotIn a slot => answering AFlags (SlotInAccessList a slot)
  | DSnapshot => answering AInt Snapshot
  | DRevert rev => answering unit_ (RevertToSnapshot rev)
  end.

Fixpoint run_db (s : DBI) (os : list db_op) : option (DBI * list db_answer) :=
  match os with
  | [] => Some (s, [])
  | o :: os => '(s, a) ← exec o s; '(s, l) ← run_db s os; Some (s, a :: l)
  end.

(** The reference machine: the database and the copies made by the snapshots. *)
Definition ref_exec (rs : DBI * list DBI) (o : db_op) : option (DBI * list DBI * db_answer) :=
  let '(r, saved) := rs in
  match o with
  | DSnapshot => '(r', a) ← exec DSnapshot r; Some (r', r :: saved, a)
  | DRevert rev =>
      if bool_decide (0 <= rev < Z.of_nat (length saved)) then
        match drop (length saved - Z.to_nat rev - 1) saved with
        | copy :: saved => Some (restore copy r, saved, AUnit)
        | [] => None
        end
      else None
  | _ => '(r', a) ← exec o r; Some (r', saved, a)
  end.

Fixpoint ref_run (rs : DBI * list DBI) (os : list db_op) : option (DBI * list DBI * list db_answer) :=
  match os with
  | [] => Some (rs, [])
  | o :: os => '(rs, a) ← ref_exec rs o; '(rs, l) ← ref_run rs os; Some (rs, a :: l)
  end.

(** The reference starts without a code memo. *)
Definition no_memo (s : DBI) : DBI :=
  mkDB (db_ctx s) (db_snapshottedCtxs s) (db_tempState s) (db_journal s) None (db_err s)
    (db_coinbaseAddress s) (db_coinbaseEvmAddress s) (db_simulation s) (db_eventsSuppressed s).

Context `{!EVMKeeperLaws St Ev Err}.
Implicit Types (s r : DBI) (saved : list DBI).

Lemma sim_answering {A} (f : A -> db_answer) (m m' : DB A) :
  sim None None m m' -> sim None None (answering f m) (answering f m').
Proof. intros Hm. eapply sim_bind; [done|]. intros a. apply sim_ret. Qed.

Lemma Rel_Revert saved s r rev :
  Rel None saved s r ->
  match RevertToSnapshot rev s, ref_exec (r, saved) (DRevert rev) with
  | Some (s', _), Some (r', saved', a) => a = AUnit /\ Rel None saved' s' r'
  | None, None => True
  | _, _ => False
  end.
Proof.
  intros HR. unfold RevertToSnapshot, ref_exec. pose proof (rel_snaps _ _ _ _ HR) as Hs.
  assert (Hlen : length (db_snapshottedCtxs s) = length saved) by (by rewrite Hs, length_fmap, length_reverse).
  rewrite Hlen. destruct (decide (0 <= rev < Z.of_nat (length saved))) as [Hr|Hr].
  2:{ rewrite bool_decide_eq_true_2 by lia. by rewrite bool_decide_eq_false_2. }
  rewrite (bool_decide_eq_false_2 (rev < 0 \/ _)) by lia. rewrite bool_decide_eq_true_2 by done.
  destruct (rel_code _ _ _ _ HR) as (code & Hc & Hcoh & Hj).
  destruct (revert_loop_spec rev _ _ _ _ _ Hj Hr) as (j' & t' & cache' & code' & σ & Hi' & Hl & Hd & Hlen' & Ht & Ha & Hj').
  rewrite Hd. assert (Hsaved : saved = take (length saved - Z.to_nat rev - 1) saved ++ σ :: Hi') by (by rewrite <- Hd, take_drop).
  set (newer := take _ saved) in Hsaved.
  assert (Hctxs : db_snapshottedCtxs s = (db_ctx <$> reverse Hi') ++ db_ctx σ :: (db_ctx <$> reverse newer)).
  { rewrite Hs, Hsaved, reverse_app, reverse_cons, <- app_assoc, !fmap_app. done. }
  assert (Hn : length (db_ctx <$> reverse Hi') = Z.to_nat rev) by (by rewrite length_fmap, length_reverse).
  rewrite Hctxs, lookup_app_r by lia. rewrite Hn, Nat.sub_diag. cbn [lookup list_lookup mbind option_bind]. rewrite Hl.
  cbn [mbind option_bind]. rewrite <- Hn, take_app_length. split; [done|].
  assert (Hist : hist_ok (σ :: Hi')).
  { pose proof (rel_hist _ _ _ _ HR) as Hh. rewrite Hsaved in Hh. clear -Hh. induction newer; [done|]. by apply IHnewer, Hh. }
  destruct Hist as (Hσ & Hok & Hnil & Hist).
  destruct HR. split; simpl; try done.
  - by eapply temp_ok_equiv; [symmetry|].
  - destruct cache' as [m|].
    + exists code'. destruct Ha as [Ha1 Ha2]. split; [by intros b _; rewrite Ha1|]. by split.
    + exists (k_GetCode (db_ctx σ)). split; [done|]. split; [done|]. by eapply journal_inv_nil.
Qed.

Lemma exec_sim o : (match o with DSnapshot | DRevert _ => False | _ => True end) -> sim None None (exec o) (exec o).
Proof.
  intros Ho. destruct o; try done; apply sim_answering.
  - apply sim_CreateAccount.
  - apply sim_MarkAccount.
  - apply sim_GetState.
  - apply sim_GetCommittedState.
  - apply sim_SetState.
  - apply sim_SetStorage.
  - apply sim_GetTransientState.
  - apply sim_SetTransientState.
  - apply sim_GetCode.
  - apply sim_SetCode.
  - apply sim_GetCodeHash.
  - apply sim_GetCodeSize.
  - apply sim_GetNonce.
  - apply sim_SetNonce.
  - apply sim_GetBalance.
  - apply sim_AddBalance.
  - apply sim_SubBalance.
  - apply sim_SetBalance.
  - apply sim_Transfer.
  - apply sim_SelfDestruct.
  - apply sim_SelfDestruct6780.
  - apply sim_account_is.
  - apply sim_Exist.
  - apply sim_Empty.
  - apply sim_AddRefund.
  - apply sim_SubRefund.
  - apply sim_GetRefund.
  - apply sim_AddLog.
  - apply sim_GetAllLogs.
  - apply sim_AddAddress.
  - apply sim_AddSlot.
  - apply sim_AddressInAccessList.
  - apply sim_SlotInAccessList.
Qed.

Lemma exec_ref saved s r o :
  Rel None saved s r ->
  match exec o s, ref_exec (r, saved) o with
  | Some (s', a), Some (r', saved', b) => a = b /\ Rel None saved' s' r'
  | None, None => True
  | _, _ => False
  end.
Proof.
  intros HR.
  assert (Hplain : (match o with DSnapshot | DRevert _ => False | _ => True end) ->
    match exec o s, ('(r', a) ← exec o r; Some (r', saved, a)) with
    | Some (s', a), Some (r', saved', b) => a = b /\ Rel None saved' s' r'
    | None, None => True
    | _, _ => False
    end).
  { intros Ho. pose proof (exec_sim o Ho saved s r HR) as Hx.
    destruct (exec o s) as [[s' a']|], (exec o r) as [[r' b']|]; done. }
  destruct o; try exact (Hplain I); clear Hplain.
  - pose proof (Rel_Snapshot saved s r HR) as Hsnap. simpl in Hsnap |- *. destruct Hsnap as [Hv HR'].
    split; [by f_equal|exact HR'].
  - pose proof (Rel_Revert saved s r rev HR) as Hr. cbn [exec]. unfold answering, mbind, DB_bind.
    destruct (RevertToSnapshot rev s) as [[s' u]|], (ref_exec (r, saved) (DRevert rev)) as [[[r' saved'] a]|]; try done.
    by destruct Hr as [-> ?].
Qed.

Lemma run_ref os saved s r :
  Rel None saved s r ->
  match run_db s os, ref_run (r, saved) os with
  | Some (s', l), Some (r', saved', l') => l = l' /\ Rel None saved' s' r'
  | None, None => True
  | _, _ => False
  end.
Proof.
  revert saved s r. induction os as [|o os IH]; intros saved s r HR; [done|]. cbn [run_db ref_run].
  pose proof (exec_ref saved s r o HR) as Ho.
  destruct (exec o s) as [[s1 a]|], (ref_exec (r, saved) o) as [[[r1 saved1] b]|]; try done.
  destruct Ho as [-> HR1]. cbn [mbind option_bind]. specialize (IH saved1 s1 r1 HR1).
  destruct (run_db s1 os) as [[s2 l]|], (ref_run (r1, saved1) os) as [[[r2 saved2] l']|]; try done.
  destruct IH as [-> HR2]. done.
Qed.

Lemma init_Rel ctx simulation viaWasmd :
  Rel None [] (init_db ctx simulation viaWasmd) (no_memo (init_db ctx simulation viaWasmd)).
Proof.
  split; try done; [apply NewTemporaryState_ok|]. exists (k_GetCode ctx). split_and!; [done| |done].
  simpl. by destruct (_ && _).
Qed.

(** C3. Undoing the journal restores copies, and the code memo is invisible: a new
    database and the reference machine, which saves a copy of the whole database at
    each snapshot, restores it on a revert and memoizes nothing, give the same answers
    to every sequence of operations, panics included, and end with the same context. *)
Theorem revert_restores_copy ctx simulation viaWasmd os :
  exists s0, NewDBImpl ctx simulation viaWasmd = Some s0 /\
  let out := run_db s0 os in
  let ref := ref_run (no_memo s0, [no_memo (init_db ctx simulation viaWasmd)]) os in
  snd <$> out = snd <$> ref /\ (fun x => db_ctx x.1) <$> out = (fun x => db_ctx x.1.1) <$> ref.
Proof.
  pose proof (Rel_Snapshot [] _ _ (init_Rel ctx simulation viaWasmd)) as HR.
  eexists. split; [reflexivity|]. simpl in HR. destruct HR as [_ HR]. cbv zeta.
  pose proof (run_ref os _ _ _ HR) as Hrun. unfold no_memo in Hrun |- *. cbn in Hrun |- *.
  destruct (run_db _ os) as [[s' l]|], (ref_run _ os) as [[[r' saved'] l']|]; try done.
  destruct Hrun as [-> HR']. simpl. split; [done|]. by rewrite (rel_ctx _ _ _ _ HR').
Qed.
End Spec.

(** ** [Prepare] *)
Section Prepare.
Context {St Ev Err : Type} `{!EVMKeeper St Ev Err}.
Abbreviation DBI := (DBImpl St Ev Err).
Implicit Types s : DBI.

Definition al_of s : accessList := ts_transientAccessLists (db_tempState s).
Definition in_al (al : accessList) (a : Address) : Prop := is_Some (al_Addresses al !! a).
Definition in_slot (al : accessList) (a : Address) (k : Hash) : Prop :=
  exists i slots, al_Addresses al !! a = Some i /\ 0 <= i /\ al_Slots al !! Z.to_nat i = Some slots /\ k ∈ slots.
Definition grows (al al' : accessList) : Prop :=
  (forall a, in_al al a -> in_al al' a) /\ (forall a k, in_slot al a k -> in_slot al' a k).

#[local] Instance grows_preorder : PreOrder grows.
Proof. split; [by intros al; split|]. intros x y z [H1 H2] [H3 H4]. split; auto. Qed.

(** In the context [c], a computation that only adds to the access list, and then
    satisfies [Q]. *)
Definition warms (c : sdkContext St Ev) (m : DB (St := St) (Ev := Ev) (Err := Err) ()) (Q : accessList -> Prop) : Prop :=
  forall s, db_ctx s = c -> al_ok (al_of s) -> exists s', m s = Some (s', tt) /\ db_ctx s' = c /\ al_ok (al_of s') /\
    grows (al_of s) (al_of s') /\ Q (al_of s').

Lemma warms_bind c m m' Q Q' :
  (forall al al', grows al al' -> Q al -> Q al') ->
  warms c m Q -> warms c m' Q' -> warms c (_ ← m; m') (fun al => Q al /\ Q' al).
Proof.
  intros Hmono Hm Hm' s Hc Hok. destruct (Hm s Hc Hok) as (s1 & H1 & Hc1 & Hok1 & Hg1 & HQ1).
  destruct (Hm' s1 Hc1 Hok1) as (s2 & H2 & Hc2 & Hok2 & Hg2 & HQ2). exists s2.
  rewrite (DB_bind_run _ _ _ _ _ H1). split; [done|]. split; [done|]. split; [done|]. split; [by etrans|]. eauto.
Qed.

Lemma warms_impl c m (Q Q' : accessList -> Prop) : (forall al, Q al -> Q' al) -> warms c m Q -> warms c m Q'.
Proof. intros HQ Hm s Hc Hok. destruct (Hm s Hc Hok) as (s' & ? & ? & ? & ? & ?). exists s'. repeat (split; [done|]). auto. Qed.

Lemma warms_ret c : warms c (mret tt) (fun _ => True).
Proof. intros s Hc Hok. by exists s. Qed.

Lemma warms_AddAddress c a : warms c (AddAddressToAccessList a) (fun al => in_al al a).
Proof.
  intros s Hc Hok. destruct (AddAddress_run s a) as (s' & Hs & Hctx & Hal). exists s'. split; [done|]. split; [congruence|].
  assert (Hal' : al_of s' = if decide (is_Some (al_Addresses (al_of s) !! a)) then al_of s
    else mkAccessList (<[a := -1]> (al_Addresses (al_of s))) (al_Slots (al_of s))) by exact Hal.
  clear Hal. rewrite Hal'. clear Hal'. case_decide as Hin; [split; [exact Hok|split; [reflexivity|exact Hin]]|].
  split; [by apply al_ok_address|]. split; [|by unfold in_al; simpl; rewrite lookup_insert_eq].
  apply eq_None_not_Some in Hin. split.
  - intros b Hb. unfold in_al in *. simpl. rewrite lookup_insert_is_Some. destruct (decide (a = b)); auto.
  - intros b k (i & slots & Hb & Hr). exists i, slots. simpl. rewrite lookup_insert_ne by (intros ->; congruence). done.
Qed.

Lemma warms_new_slots a slot s :
  al_ok (al_of s) -> al_Addresses (al_of s) !! a = Some (-1) ->
  exists s', journaled (fun t => let al := ts_transientAccessLists t in
      set_accessLists t (mkAccessList (<[a := Z.of_nat (length (al_Slots al))]> (al_Addresses al)) (al_Slots al ++ [{[slot]}])))
      (accessListAddSlotChange a slot) s = Some (s', tt) /\
    db_ctx s' = db_ctx s /\ al_ok (al_of s') /\ grows (al_of s) (al_of s') /\ in_slot (al_of s') a slot.
Proof.
  intros Hok Ha. eexists. split; [done|]. split; [done|]. unfold al_of. simpl. fold (al_of s).
  split; [by apply al_ok_new_slots|]. split; [split|].
  - intros b Hb. unfold in_al in *. simpl. rewrite lookup_insert_is_Some. destruct (decide (a = b)); auto.
  - intros b k (i & slots & Hb & Hi & Hs & Hk). exists i, slots. simpl.
    rewrite lookup_insert_ne by (intros ->; rewrite Ha in Hb; simplify_eq; lia).
    split_and!; [done|done| |done]. by apply lookup_app_l_Some.
  - exists (Z.of_nat (length (al_Slots (al_of s)))), {[slot]}. simpl. rewrite lookup_insert_eq, Nat2Z.id.
    split_and!; [done|lia| |set_solver]. by rewrite lookup_app_r, Nat.sub_diag.
Qed.

Lemma warms_AddSlot c a slot : warms c (AddSlotToAccessList a slot) (fun al => in_slot al a slot).
Proof.
  intros s <- Hok. unfold AddSlotToAccessList. rewrite !(DB_bind_run (PrepareReplayedAddr a) _ _ _ _ eq_refl).
  rewrite !(DB_bind_run temp _ _ _ _ eq_refl). fold (al_of s).
  destruct (al_Addresses (al_of s) !! a) as [i|] eqn:Ha.
  - rewrite !(DB_bind_run (mret tt) _ _ _ _ eq_refl).
    destruct (decide (i = -1)) as [->|Hne]; [by apply warms_new_slots|].
    destruct (al_index _ Hok a i Ha) as [|Hr]; [done|].
    assert (Hcase : forall (A : Type) (x y : A), match i with Z.neg 1 => x | _ => y end = y) by (intros; by destruct i as [|?|[]]).
    rewrite !Hcase, bool_decide_eq_true_2 by lia.
    destruct (lookup_lt_is_Some_2 (al_Slots (al_of s)) (Z.to_nat i)) as [slots Hs]; [lia|]. rewrite Hs.
    case_bool_decide as Hin; [exists s; split; [done|]; split; [done|]; split; [done|]; split; [reflexivity|]; exists i, slots; split_and!; [done|lia|done|done]|].
    eexists. split; [done|]. split; [done|]. unfold al_of. simpl. fold (al_of s).
    assert (Hlt : (Z.to_nat i < length (al_Slots (al_of s)))%nat) by lia.
    split; [|split].
    + destruct Hok as [Hi Hn]. split; simpl.
      * intros b j Hb. rewrite length_insert. eauto.
      * intros j x. rewrite list_lookup_insert_Some. intros [(_ & <- & _)|[_ Hx]]; [set_solver|eauto].
    + split; [done|]. intros b k (j & x & Hb & Hj & Hx & Hk). simpl.
      destruct (decide (Z.to_nat j = Z.to_nat i)) as [Heq|Hneq].
      * exists j, ({[slot]} ∪ slots). simpl. rewrite Heq, list_lookup_insert_eq by done.
        split_and!; [done|done|done|]. rewrite Heq, Hs in Hx. simplify_eq. set_solver.
      * exists j, x. simpl. by rewrite list_lookup_insert_ne.
    + exists i, ({[slot]} ∪ slots). simpl. rewrite list_lookup_insert_eq by done. split_and!; [done|lia|done|set_solver].
  - destruct (AddAddress_run s a) as (s1 & Hs1 & _ & Hal).
    destruct (warms_AddAddress _ a s eq_refl Hok) as (s1' & Hs1' & Hc1 & Hok1 & Hg1 & _).
    rewrite Hs1 in Hs1'. injection Hs1' as <-. rewrite (DB_bind_run _ _ _ _ _ Hs1).
    destruct (warms_new_slots a slot s1) as (s2 & Hs2 & Hc2 & Hok2 & Hg2 & HQ); [done| |].
    { unfold al_of. rewrite Hal. fold (al_of s). rewrite decide_False by (rewrite Ha; by intros [? ?]). simpl. by rewrite lookup_insert_eq. }
    exists s2. split; [done|]. split; [congruence|]. split; [done|]. split; [by etrans|done].
Qed.

Lemma warms_for_each {A} c (f : A -> DB ()) (Q : A -> accessList -> Prop) l :
  (forall x al al', grows al al' -> Q x al -> Q x al') -> (forall x, warms c (f x) (Q x)) ->
  warms c (for_each f l) (fun al => forall x, x ∈ l -> Q x al).
Proof.
  intros Hmono Hf. induction l as [|x l IH].
  { eapply warms_impl; [|apply warms_ret]. intros al _ x. by rewrite elem_of_nil. }
  cbn [for_each]. eapply warms_impl; [|apply warms_bind; [|apply Hf|exact IH]; apply Hmono].
  intros al [Hx Hl] y. rewrite elem_of_cons. intros [->|Hy]; auto.
Qed.

Lemma in_al_mono a al al' : grows al al' -> in_al al a -> in_al al' a.
Proof. intros [Hg _]. apply Hg. Qed.

Lemma warms_precompiles c precompiles :
  warms c (for_each (fun addr =>
      c ← getCtx; if skips_precompile c addr then mret tt else AddAddressToAccessList addr) precompiles)
    (fun al => forall a, a ∈ precompiles -> skips_precompile c a = false -> in_al al a).
Proof.
  apply warms_for_each; [intros x al al' Hg HQ Hx; by eapply in_al_mono; eauto|].
  intros a s Hc Hok. rewrite (DB_bind_run getCtx _ _ _ _ eq_refl), Hc.
  destruct (skips_precompile c a).
  - exists s. split; [done|]. split; [done|]. split; [done|]. split; [reflexivity|done].
  - destruct (warms_AddAddress c a s Hc Hok) as (s' & Hs & Hc' & Hok' & Hg & Ha). exists s'.
    split; [done|]. split; [done|]. split; [done|]. by split.
Qed.

Lemma warms_accesses c txAccesses :
  warms c (for_each (fun el : Address * list Hash =>
      _ ← AddAddressToAccessList (fst el); for_each (fun key => AddSlotToAccessList (fst el) key) (snd el)) txAccesses)
    (fun al => forall el, el ∈ txAccesses -> in_al al el.1 /\ forall k, k ∈ el.2 -> in_slot al el.1 k).
Proof.
  apply (warms_for_each c _ (fun el al => in_al al el.1 /\ forall k, k ∈ el.2 -> in_slot al el.1 k)).
  - intros x al al' Hg [H1 H2]. split; [by eapply in_al_mono|]. intros k Hk. apply Hg. auto.
  - intros [a ks]. simpl. apply warms_bind; [intros; by eapply in_al_mono|apply warms_AddAddress|].
    apply (warms_for_each c _ (fun k al => in_slot al a k)); [intros x al al' Hg; apply Hg|]. intros k. apply warms_AddSlot.
Qed.

Lemma warms_dest c dest :
  warms c (match dest with Some d => AddAddressToAccessList d | None => mret tt end)
    (fun al => forall d, dest = Some d -> in_al al d).
Proof.
  destruct dest as [d|]; [eapply warms_impl, warms_AddAddress; by intros al Hd d' [= <-]|].
  eapply warms_impl, warms_ret. done.
Qed.

(** [Prepare] never panics on a well-formed access list, keeps what was in it,
    and leaves the sender, the destination, the coinbase, every precompile it does
    not skip and every address and slot of the transaction's access list in it. *)
Theorem Prepare_warms sender coinbase dest precompiles txAccesses s :
  al_ok (al_of s) ->
  exists s', Prepare sender coinbase dest precompiles txAccesses s = Some (s', tt) /\
    grows (al_of s) (al_of s') /\
    in_al (al_of s') sender /\ in_al (al_of s') coinbase /\ (forall d, dest = Some d -> in_al (al_of s') d) /\
    (forall a, a ∈ precompiles -> skips_precompile (branch (db_ctx s)) a = false -> in_al (al_of s') a) /\
    forall el, el ∈ txAccesses -> in_al (al_of s') el.1 /\ forall k, k ∈ el.2 -> in_slot (al_of s') el.1 k.
Proof.
  intros Hok. unfold Prepare. rewrite !(DB_bind_run (PrepareReplayedAddr _) _ _ _ _ eq_refl).
  rewrite (DB_bind_run Snapshot _ _ _ _ eq_refl). set (s1 := mkDB _ _ _ _ _ _ _ _ _ _).
  pose proof (warms_bind (branch (db_ctx s)) _ _ _ _ (fun al al' Hg => in_al_mono sender al al' Hg) (warms_AddAddress _ sender)
    (warms_bind _ _ _ _ _ (fun al al' Hg HQ d Hd => in_al_mono d al al' Hg (HQ d Hd)) (warms_dest _ dest)
    (warms_bind _ _ _ _ _ (fun al al' Hg HQ a Ha Hs => in_al_mono a al al' Hg (HQ a Ha Hs)) (warms_precompiles _ precompiles)
    (warms_bind _ _ _ _ _ (fun al al' Hg HQ el Hel => conj (in_al_mono _ al al' Hg (proj1 (HQ el Hel)))
        (fun k Hk => proj2 Hg _ _ (proj2 (HQ el Hel) k Hk))) (warms_accesses _ txAccesses) (warms_AddAddress _ coinbase))))) as Hw.
  destruct (Hw s1 eq_refl Hok) as (s' & Hs & _ & _ & Hg & HQ). exists s'. split; [exact Hs|]. split; [exact Hg|]. tauto.
Qed.
End Prepare.

(** ** [Finalize] *)
Section Finalize.
Context {St Ev Err : Type} `{!EVMKeeper St Ev Err}.
Abbreviation DBI := (DBImpl St Ev Err).
Implicit Types s : DBI.

(** Computations that leave the snapshotted contexts alone. *)
Definition keeps {A} (m : DB (St := St) (Ev := Ev) (Err := Err) A) : Prop :=
  forall s s' a, m s = Some (s', a) -> db_snapshottedCtxs s' = db_snapshottedCtxs s.

Lemma keeps_bind {A B} (m : DB A) (f : A -> DB B) : keeps m -> (forall a, keeps (f a)) -> keeps (m ≫= f).
Proof.
  intros Hm Hf s s' b. unfold mbind, DB_bind. destruct (m s) as [[s1 a]|] eqn:H1; [|done]. simpl. intros H2.
  rewrite (Hf a s1 s' b H2). by eapply Hm.
Qed.

Lemma keeps_ret {A} (a : A) : keeps (mret a).
Proof. by intros s s' b [= <- <-]. Qed.
Lemma keeps_panic {A} : keeps (panic : DB A).
Proof. done. Qed.
Lemma keeps_asks {A} (f : DBI -> A) : keeps (asks f).
Proof. by intros s s' b [= <- <-]. Qed.
Lemma keeps_with_ctx f : keeps (with_ctx f).
Proof. by intros s s' b [= <- <-]. Qed.
Lemma keeps_set_err (e : Err) : keeps (set_err e).
Proof. by intros s s' b [= <- <-]. Qed.
Lemma keeps_set_codeCache c : keeps (set_codeCache c).
Proof. by intros s s' b [= <- <-]. Qed.
Lemma keeps_journaled f e : keeps (journaled f e).
Proof. by intros s s' b [= <- <-]. Qed.

Create HintDb keepsdb.
#[local] Hint Resolve keeps_ret keeps_panic keeps_asks keeps_with_ctx keeps_set_err keeps_set_codeCache keeps_journaled : keepsdb.
Ltac keep := repeat first [solve [eauto with keepsdb] | apply keeps_bind; [|intros ?] | case_match].

Lemma keeps_getSeiAddress a : keeps (getSeiAddress a).
Proof. unfold getSeiAddress, getCtx. keep. Qed.
#[local] Hint Resolve keeps_getSeiAddress : keepsdb.
Lemma keeps_GetBalance a : keeps (GetBalance a).
Proof. unfold GetBalance, getCtx, PrepareReplayedAddr. keep. Qed.
Lemma keeps_bank op : keeps (bank op).
Proof. unfold bank, getCtx. keep. Qed.
Lemma keeps_add_surplus d : keeps (add_surplus d).
Proof. unfold add_surplus, temp. keep. Qed.
#[local] Hint Resolve keeps_GetBalance keeps_bank keeps_add_surplus : keepsdb.
Lemma keeps_SubBalance a amt : keeps (SubBalance a amt).
Proof. unfold SubBalance, getCtx, PrepareReplayedAddr, SplitUseiWeiAmount. keep. Qed.
Lemma keeps_AddBalance a amt : keeps (AddBalance a amt).
Proof. unfold AddBalance, getCtx, PrepareReplayedAddr, SplitUseiWeiAmount. keep. Qed.
Lemma keeps_deleteIfExists pref key : keeps (deleteIfExists pref key).
Proof. unfold deleteIfExists, getCtx. keep. Qed.
#[local] Hint Resolve keeps_SubBalance keeps_AddBalance keeps_deleteIfExists : keepsdb.
Lemma keeps_clearAccountState a : keeps (clearAccountState a).
Proof.
  unfold clearAccountState, clearAccountCodeAndNonce, journalCodeCacheMutation, override_at, temp, PrepareReplayedAddr. keep.
Qed.
#[local] Hint Resolve keeps_clearAccountState : keepsdb.

Lemma keeps_for_each {A} (f : A -> DB ()) l : (forall x, keeps (f x)) -> keeps (for_each f l).
Proof. intros Hf. induction l as [|x l IH]; simpl; keep. Qed.

Lemma flush_levels_spec (c : sdkContext St Ev) (below : list (sdkContext St Ev)) :
  cx_events <$> flush_levels c below = cx_events <$> below /\
  Forall (fun c' => cx_store c' = cx_store c) (flush_levels c below) /\ length (flush_levels c below) = length below.
Proof.
  revert c. induction below as [|p rest IH]; intros c; [by repeat constructor|].
  destruct (IH (write_into c p)) as (He & Hf & Hl). cbn [flush_levels length]. rewrite !fmap_cons, He, Hl.
  split_and!; [done| |done]. constructor; [done|]. exact Hf.
Qed.

(** [Finalize] without an error flushes: every context below gets the contents of
    the final context, the events of the surviving frames are emitted on the base in
    order, and the surplus is the one of the temporary state; a recorded error is
    returned and nothing is flushed. *)
Theorem Finalize_flushes order order' s s' res :
  Finalize order order' s = Some (s', res) ->
  match res with
  | inr e => s' = s /\ db_err s = Some e
  | inl surplus => db_err s = None /\ surplus = ts_surplus (db_tempState s') /\
      Forall (fun c => cx_store c = cx_store (db_ctx s')) (db_snapshottedCtxs s') /\
      match db_snapshottedCtxs s, db_snapshottedCtxs s' with
      | base :: above, base' :: above' =>
          cx_events base' = cx_events base ++ concat (cx_events <$> above) ++ cx_events (db_ctx s') /\
          cx_events <$> above' = cx_events <$> above
      | _, _ => False
      end
  end.
Proof.
  unfold Finalize, mbind at 1, DB_bind at 1. simpl. destruct (db_simulation s); [done|].
  unfold mbind at 1, DB_bind at 1. simpl. destruct (db_err s) as [e|] eqn:Herr; [by intros [= <- <-]|].
  unfold mbind at 1, DB_bind at 1. destruct (handleResidualFundsInDestructedAccounts order s) as [[s1 []]|] eqn:H1; [|done].
  simpl. unfold mbind at 1, DB_bind at 1. destruct (clearAccountStateIfDestructed order' s1) as [[s2 []]|] eqn:H2; [|done].
  assert (Hsn : db_snapshottedCtxs s2 = db_snapshottedCtxs s).
  { assert (K1 : keeps (handleResidualFundsInDestructedAccounts order)).
    { unfold handleResidualFundsInDestructedAccounts, temp. apply keeps_bind; [keep|]. intros t. apply keeps_bind; [keep|].
      intros x. apply keeps_for_each. intros a. keep. }
    assert (K2 : keeps (clearAccountStateIfDestructed order')).
    { unfold clearAccountStateIfDestructed, temp. apply keeps_bind; [keep|]. intros t. apply keeps_for_each. intros a. keep. }
    rewrite (K2 _ _ _ H2). by apply (K1 _ _ _ H1). }
  rewrite <- Hsn. unfold flushCtxs, flushEvents, set_snapshottedCtxs, getCtx, temp, asks, mbind, DB_bind. simpl.
  destruct (flush_levels_spec (db_ctx s2) (reverse (db_snapshottedCtxs s2))) as (He & Hf & Hl).
  set (fl := flush_levels _ _) in *.
  assert (He' : cx_events <$> reverse fl = cx_events <$> db_snapshottedCtxs s2).
  { by rewrite fmap_reverse, He, fmap_reverse, reverse_involutive. }
  assert (Hf' : Forall (fun c' => cx_store c' = cx_store (db_ctx s2)) (reverse fl)) by by apply Forall_reverse.
  destruct (reverse fl) as [|base' above'] eqn:Hr; [done|]. simpl. intros [= <- <-]. simpl.
  destruct (db_snapshottedCtxs s2) as [|base above]; [done|]. rewrite !fmap_cons in He'. injection He' as Hb Ha.
  apply Forall_cons in Hf' as [Hst Hf']. split_and!; [done|done| |by rewrite Hb, Ha|done]. by constructor.
Qed.
End Finalize.
