(* ===== verification/PrefixStore.v ===== *)
(** The prefix store of [sei-cosmos/store/prefix/store.go]: the part of a parent store
    whose keys start with a prefix, under the keys without it, and
    [PrefixEndBytes] of [store/types/utils.go], the end of that range.

    Bytes are integers from 0 to 255 ([bytes_ok]); a nil key panics in Go and is not
    a value of type [bytes] here. *)
From stdpp Require Import base gmap sets list sorting.
From Stdlib Require Import ZArith Lia.
From S2P Require Import Prelude KVStore MergeIter.
Local Open Scope Z_scope.

Definition bytes_ok (k : bytes) : Prop := Forall (fun b => 0 <= b < 256) k.

(** The loop of [PrefixEndBytes] on the reversed prefix. *)
Fixpoint incr_rev (l : bytes) : option bytes :=
  match l with
  | [] => None
  | b :: l => if bool_decide (b <> 255) then Some (b + 1 :: l) else incr_rev l
  end.

Definition PrefixEndBytes (prefix : bytes) : option bytes := reverse <$> incr_rev (reverse prefix).

Definition has_prefix (key prefix : bytes) : bool := bool_decide (take (length prefix) key = prefix).

(** [stripPrefix] panics when the key does not have the prefix. *)
Definition stripPrefix (key prefix : bytes) : option bytes :=
  if has_prefix key prefix then Some (drop (length prefix) key) else None.

(** ** [prefixIterator] over the entries of the parent iterator. *)
Record prefixIterator := mkPI { pi_iter : list (bytes * bytes); pi_valid : bool }.

Definition head_has_prefix (prefix : bytes) (l : list (bytes * bytes)) : bool :=
  match l with [] => false | (k, _) :: _ => has_prefix k prefix end.

Definition newPrefixIterator (prefix : bytes) (parent : list (bytes * bytes)) : prefixIterator :=
  mkPI parent (head_has_prefix prefix parent).

Definition pi_Valid (pi : prefixIterator) : bool := pi_valid pi && bool_decide (pi_iter pi <> []).

Definition pi_Next (prefix : bytes) (pi : prefixIterator) : option prefixIterator :=
  if pi_valid pi then
    match pi_iter pi with
    | [] => None
    | _ :: rest => Some (mkPI rest (head_has_prefix prefix rest))
    end
  else None.

Definition pi_Key (prefix : bytes) (pi : prefixIterator) : option bytes :=
  if pi_valid pi then match pi_iter pi with [] => None | (k, _) :: _ => stripPrefix k prefix end else None.

Definition pi_Value (pi : prefixIterator) : option bytes :=
  if pi_valid pi then match pi_iter pi with [] => None | (_, v) :: _ => Some v end else None.

(** The loop of a caller that reads the iterator to its end. *)
Fixpoint pi_drain (prefix : bytes) (fuel : nat) (pi : prefixIterator) : option (list (bytes * bytes)) :=
  match fuel with
  | O => None
  | S fuel =>
      if pi_Valid pi then
        k ← pi_Key prefix pi;
        v ← pi_Value pi;
        pi ← pi_Next prefix pi;
        l ← pi_drain prefix fuel pi;
        Some ((k, v) :: l)
      else Some []
  end.

Section Prefix.
Context {P : Type} `{!KVStore P} (prefix : bytes).

Definition pf_key (key : bytes) : bytes := prefix ++ key.

Definition pf_Get (p : P) (key : bytes) : option bytes := kv_Get p (pf_key key).
Definition pf_Has (p : P) (key : bytes) : bool := bool_decide (kv_Get p (pf_key key) <> None).

Definition pf_Set (p : P) (key : bytes) (value : option bytes) : option P :=
  if AssertValidKey key && AssertValidValue value then v ← value; Some (kv_Set p (pf_key key) v) else None.

Definition pf_Delete (p : P) (key : bytes) : P := kv_Delete p (pf_key key).

(** The bounds of the parent's range. *)
Definition pf_start (start : option bytes) : option bytes := Some (prefix ++ default [] start).
Definition pf_end (end_ : option bytes) : option bytes :=
  match end_ with None => PrefixEndBytes prefix | Some e => Some (prefix ++ e) end.

(** [DeleteAll] of the stores below deletes the keys of the range. *)
Definition kv_DeleteAll (p : P) (start end_ : option bytes) : P :=
  fold_left kv_Delete (kv_Iterator p start end_).*1 p.

Definition pf_DeleteAll (p : P) (start end_ : option bytes) : P := kv_DeleteAll p (pf_start start) (pf_end end_).

Definition pf_GetAllKeyStrsInRange (p : P) (start end_ : option bytes) : list bytes :=
  (kv_Iterator p (pf_start start) (pf_end end_)).*1.

Definition pf_drain (l : list (bytes * bytes)) : option (list (bytes * bytes)) :=
  pi_drain prefix (S (length l)) (newPrefixIterator prefix l).

Definition pf_Iterator (p : P) (start end_ : option bytes) : option (list (bytes * bytes)) :=
  pf_drain (kv_Iterator p (pf_start start) (pf_end end_)).

Definition pf_ReverseIterator (p : P) (start end_ : option bytes) : option (list (bytes * bytes)) :=
  pf_drain (kv_ReverseIterator p (pf_start start) (pf_end end_)).
End Prefix.

(** ** The order of prefixed keys. *)
Lemma bytes_compare_app p a b : bytes_compare (p ++ a) (p ++ b) = bytes_compare a b.
Proof. induction p as [|x p IH]; simpl; [done|]. by rewrite Z.compare_refl. Qed.

Lemma bytes_lt_app p a b : p ++ a <b p ++ b <-> a <b b.
Proof. unfold bytes_lt. by rewrite bytes_compare_app. Qed.

Lemma bytes_le_app p a b : p ++ a <=b p ++ b <-> a <=b b.
Proof. unfold bytes_le. by rewrite bytes_compare_app. Qed.

Lemma bytes_le_nil a : [] <=b a.
Proof. by destruct a. Qed.

Lemma has_prefix_spec key prefix : has_prefix key prefix = true <-> exists k, key = prefix ++ k.
Proof.
  unfold has_prefix. rewrite bool_decide_eq_true. split.
  - intros Ht. exists (drop (length prefix) key). by rewrite <- Ht at 1; rewrite take_drop.
  - intros [k ->]. by rewrite take_app_length.
Qed.

(** Between two strings with a prefix there are only strings with it. *)
Lemma between_prefix p a b k : p ++ a <=b k -> k <b p ++ b -> exists k', k = p ++ k'.
Proof.
  revert k. induction p as [|x p IH]; intros k Ha Hb; [by exists k|].
  destruct k as [|y k]; [by destruct a|]. unfold bytes_le, bytes_lt in Ha, Hb. simpl in Ha, Hb.
  rewrite Z.compare_antisym in Hb. destruct (Z.compare_spec x y) as [->|Hlt|Hgt]; simpl in Ha, Hb; [|done|done].
  destruct (IH k Ha Hb) as [k' ->]. by exists k'.
Qed.

Lemma incr_rev_spec l e :
  Forall (fun b => 0 <= b < 256) l -> incr_rev l = Some e ->
  exists n b l', l = replicate n 255 ++ b :: l' /\ b <> 255 /\ e = b + 1 :: l'.
Proof.
  induction l as [|x l IH]; simpl; [done|]. intros [Hx Hl]%Forall_cons. case_bool_decide as Hb.
  - intros [= <-]. by exists 0%nat, x, l.
  - intros He. destruct (IH Hl He) as (n & b & l' & -> & Hne & ->). exists (S n), b, l'.
    split; [|done]. simpl. f_equal. destruct (decide (x = 255)); [done|tauto].
Qed.

Lemma incr_rev_None l : incr_rev l = None -> exists n, l = replicate n 255.
Proof.
  induction l as [|x l IH]; simpl; [by exists 0%nat|]. case_bool_decide as Hb; [done|].
  intros [n ->]%IH. exists (S n). simpl. f_equal. destruct (decide (x = 255)); [done|tauto].
Qed.

(** A string that starts with [255]s and is not below them is a continuation. *)
Lemma above_255 n k : bytes_ok k -> replicate n 255 <=b k -> exists k', k = replicate n 255 ++ k'.
Proof.
  revert k. induction n as [|n IH]; intros k Hk Hle; [by exists k|].
  destruct k as [|y k]; [done|]. apply Forall_cons in Hk as [Hy Hk]. unfold bytes_le in Hle. cbn [replicate bytes_compare] in Hle.
  destruct (Z.compare_spec 255 y) as [<-|?|?]; [|lia|done]. destruct (IH k Hk Hle) as [k' ->]. by exists k'.
Qed.

Lemma prefix_end_domain prefix k :
  bytes_ok prefix -> bytes_ok k ->
  in_domain (Some prefix) (PrefixEndBytes prefix) k = true <-> exists k', k = prefix ++ k'.
Proof.
  intros Hp Hk. unfold in_domain. rewrite andb_true_iff, bool_decide_eq_true. simpl.
  assert (Hself : forall k', k = prefix ++ k' -> prefix <=b k).
  { intros k' ->. rewrite <- (app_nil_r prefix) at 1. apply bytes_le_app, bytes_le_nil. }
  unfold PrefixEndBytes. destruct (incr_rev (reverse prefix)) as [e|] eqn:He; simpl.
  - destruct (incr_rev_spec (reverse prefix) e) as (n & b & l' & Hrev & Hb & ->); [by apply Forall_reverse|done|].
    assert (Hpre : prefix = reverse l' ++ b :: replicate n 255).
    { rewrite <- (reverse_involutive prefix), Hrev, reverse_app, reverse_cons, reverse_replicate, <- app_assoc. done. }
    rewrite bool_decide_eq_true, reverse_cons. set (q := reverse l') in *. split.
    + intros [Hle Hlt]. rewrite Hpre in Hle. destruct (between_prefix q _ _ k Hle Hlt) as [k1 ->].
      rewrite bytes_le_app in Hle. rewrite bytes_lt_app in Hlt. apply Forall_app in Hk as [_ Hk].
      destruct k1 as [|y k2]; [done|]. apply Forall_cons in Hk as [Hy Hk]. unfold bytes_le, bytes_lt in Hle, Hlt.
      cbn [bytes_compare] in Hle, Hlt. destruct (Z.compare_spec b y) as [<-|Hby|?]; [|exfalso|done].
      * destruct (above_255 n k2 Hk Hle) as [k' ->]. exists k'. rewrite Hpre, <- app_assoc. done.
      * destruct (Z.compare_spec y (b + 1)); [by destruct k2|lia|done].
    + intros [k' ->]. split; [by eapply Hself|]. rewrite Hpre, <- app_assoc, bytes_lt_app. unfold bytes_lt. simpl.
      destruct (Z.compare_spec b (b + 1)); [lia|done|lia].
  - destruct (incr_rev_None _ He) as [n Hn].
    assert (Hpre : prefix = replicate n 255) by (by rewrite <- (reverse_involutive prefix), Hn, reverse_replicate).
    split; [|by intros [k' ->]; split; [eapply Hself|]]. intros [Hle _]. rewrite Hpre in Hle |- *. by apply above_255.
Qed.


(** The range from a prefix to [PrefixEndBytes] of it holds exactly the keys that
    start with the prefix, also when its last bytes are 255 or all of them are. *)
Theorem PrefixEndBytes_exact prefix k :
  bytes_ok prefix -> bytes_ok k ->
  in_domain (Some prefix) (PrefixEndBytes prefix) k = has_prefix k prefix.
Proof.
  intros Hp Hk. pose proof (prefix_end_domain prefix k Hp Hk) as Hd. rewrite <- has_prefix_spec in Hd.
  destruct (in_domain _ _ k), (has_prefix k prefix); naive_solver.
Qed.

Section Laws.
Context {P : Type} `{!KVStore P, !KVStoreLaws P} (prefix : bytes).
Implicit Types p : P.

(** The entries of the parent with the prefix, under the keys without it. *)
Definition prefix_view p : gmap bytes bytes :=
  list_to_map (omap (fun kv => (fun k => (k, kv.2)) <$> stripPrefix kv.1 prefix) (map_to_list (kv_view p))).

Lemma stripPrefix_Some key k : stripPrefix key prefix = Some k <-> key = prefix ++ k.
Proof.
  unfold stripPrefix. destruct (has_prefix key prefix) eqn:Hp.
  - apply has_prefix_spec in Hp as [k' ->]. rewrite drop_app_length. split; [by intros [= ->]|]. intros Heq%app_inv_head. by rewrite Heq.
  - split; [done|]. intros ->. exfalso. assert (Ht : has_prefix (prefix ++ k) prefix = true) by (apply has_prefix_spec; eauto). congruence.
Qed.

Lemma lookup_prefix_view p k : prefix_view p !! k = kv_view p !! (prefix ++ k).
Proof.
  unfold prefix_view. apply option_eq. intros v. rewrite <- elem_of_list_to_map.
  - rewrite list_elem_of_omap. split.
    + intros ([key w] & Hin & Hs). simpl in Hs. destruct (stripPrefix key prefix) as [k'|] eqn:Hk; [|done].
      simplify_eq/=. apply stripPrefix_Some in Hk. subst key. by apply elem_of_map_to_list in Hin.
    + intros Hv. exists (prefix ++ k, v). split; [by apply elem_of_map_to_list|]. simpl.
      by rewrite (proj2 (stripPrefix_Some (prefix ++ k) k)).
  - assert (Hnd : NoDup (map_to_list (kv_view p)).*1) by apply NoDup_fst_map_to_list.
    induction (map_to_list (kv_view p)) as [|[key w] l IH]; simpl; [constructor|]. simpl in Hnd.
    apply NoDup_cons in Hnd as [Hn Hnd]. destruct (stripPrefix key prefix) as [k'|] eqn:Hk; simpl; [|auto].
    apply NoDup_cons. split; [|auto]. intros Hin. apply Hn. apply list_elem_of_fmap in Hin as ([k2 w2] & -> & Hin).
    apply list_elem_of_omap in Hin as ([key2 w3] & Hin & Hs). simpl in Hs.
    destruct (stripPrefix key2 prefix) as [k3|] eqn:Hk3; [|done]. simplify_eq/=.
    apply stripPrefix_Some in Hk, Hk3. subst. by apply (list_elem_of_fmap_2 fst _ (prefix ++ k2, w2)) in Hin.
Qed.

(** ** Iteration *)

(** The iterator yields the entries up to the first key without the prefix. *)
Lemma pi_drain_spec fuel l :
  (length l < fuel)%nat -> (forall k v, (k, v) ∈ l -> exists k', k = prefix ++ k') ->
  pi_drain prefix fuel (newPrefixIterator prefix l) = Some ((fun kv => (drop (length prefix) kv.1, kv.2)) <$> l).
Proof.
  revert l. induction fuel as [|fuel IH]; intros l Hlen Hp; [lia|]. cbn [pi_drain].
  destruct l as [|[k v] l]; [done|].
  assert (Hk : has_prefix k prefix = true) by (apply has_prefix_spec, (Hp k v); left).
  unfold newPrefixIterator, pi_Valid, pi_Key, pi_Value, pi_Next. simpl. rewrite Hk. simpl.
  unfold stripPrefix. rewrite Hk. cbn [mbind option_bind].
  change (mkPI l (head_has_prefix prefix l)) with (newPrefixIterator prefix l).
  rewrite (IH l); [done|simpl in Hlen; lia|]. intros k' v' Hin. apply (Hp k' v'). by right.
Qed.

(** The prefixed domain: keys with the prefix whose rest is in the domain. *)
Lemma prefix_domain start end_ k :
  bytes_ok prefix -> bytes_ok k -> prefix <> [] ->
  in_domain (pf_start prefix start) (pf_end prefix end_) k = true <->
  exists k', k = prefix ++ k' /\ in_domain start end_ k' = true.
Proof.
  intros Hp Hk Hne. assert (Hs : forall k', in_domain (pf_start prefix start) None (prefix ++ k') = in_domain start None k').
  { intros k'. unfold in_domain. simpl. rewrite !andb_true_r. apply bool_decide_ext. apply bytes_le_app. }
  destruct end_ as [e|]; simpl.
  - unfold in_domain. simpl. rewrite andb_true_iff, !bool_decide_eq_true. split.
    + intros [Hle Hlt]. destruct (between_prefix _ _ _ _ Hle Hlt) as [k' ->]. exists k'. split; [done|].
      rewrite bytes_le_app in Hle. rewrite bytes_lt_app in Hlt. by rewrite !bool_decide_eq_true_2.
    + intros (k' & -> & [Hle Hlt]%andb_true_iff). apply bool_decide_eq_true in Hle, Hlt.
      by rewrite bytes_le_app, bytes_lt_app.
  - assert (Hsplit : in_domain (pf_start prefix start) (PrefixEndBytes prefix) k = true <->
      in_domain (pf_start prefix start) None k = true /\ in_domain (Some prefix) (PrefixEndBytes prefix) k = true).
    { unfold in_domain. simpl. rewrite !andb_true_iff, !bool_decide_eq_true. split; [|tauto]. intros [Hle He].
      split_and!; [done|done| |done]. etrans; [|exact Hle]. rewrite <- (app_nil_r prefix) at 1. apply bytes_le_app, bytes_le_nil. }
    rewrite Hsplit, prefix_end_domain by done. split.
    + intros [Hd [k' ->]]. exists k'. split; [done|]. by rewrite <- Hs.
    + intros (k' & -> & Hd). rewrite Hs. eauto.
Qed.

Lemma prefixed_sorted asc ks :
  StronglySorted (it_lt asc) ks -> StronglySorted (it_lt asc) ((prefix ++.) <$> ks).
Proof.
  induction 1 as [|k ks Hs IH Hk]; [constructor|]. rewrite fmap_cons. constructor; [done|].
  rewrite Forall_fmap. eapply Forall_impl; [exact Hk|]. intros j. simpl. rewrite !it_lt_bytes. destruct asc; by rewrite bytes_lt_app.
Qed.

Lemma pf_bounds start end_ :
  prefix <> [] -> bound_ok (pf_start prefix start) = true /\ bound_ok (pf_end prefix end_) = true.
Proof.
  intros Hne. unfold bound_ok. rewrite !bool_decide_eq_true. split.
  - unfold pf_start. intros [= Hn]. by apply app_eq_nil in Hn as [-> _].
  - destruct end_ as [e|]; simpl; [intros [= Hn]; by apply app_eq_nil in Hn as [-> _]|].
    unfold PrefixEndBytes. destruct (incr_rev (reverse prefix)) as [e|] eqn:He; [|done]. simpl. intros [= Hn].
    assert (Hne' : e <> []); [|by apply Hne'; rewrite <- (reverse_involutive e), Hn].
    clear -He. induction (reverse prefix) as [|b l IH]; simpl in He; [done|]. case_bool_decide; [by simplify_eq|auto].
Qed.

(** The parent's entries in the prefixed range are those of the view, prefixed. *)
Lemma prefixed_entries p asc s e :
  bytes_ok prefix -> prefix <> [] -> (forall k, is_Some (kv_view p !! k) -> bytes_ok k) ->
  entries_of asc (kv_view p) (pf_start prefix s) (pf_end prefix e) =
    (fun kv => (prefix ++ kv.1, kv.2)) <$> entries_of asc (prefix_view p) s e.
Proof.
  intros Hp Hne Hbytes. apply (entries_ext asc); [apply entries_of_sorted| |].
  - rewrite <- list_fmap_compose. unfold compose. simpl.
    assert (Hf : (fun x : bytes * bytes => prefix ++ x.1) <$> entries_of asc (prefix_view p) s e
      = (prefix ++.) <$> (entries_of asc (prefix_view p) s e).*1) by (by rewrite <- list_fmap_compose).
    rewrite Hf. apply prefixed_sorted, entries_of_sorted.
  - intros k v. rewrite entries_of_elem, list_elem_of_fmap. split.
    + intros [Hv Hd]. apply prefix_domain in Hd as (k' & -> & Hd); [|done|by apply Hbytes; eauto|done].
      exists (k', v). split; [done|]. apply entries_of_elem. by rewrite lookup_prefix_view.
    + intros ([k' v'] & [= -> ->] & [Hv Hd]%entries_of_elem). rewrite lookup_prefix_view in Hv. split; [done|].
      apply prefix_domain; [done|apply Hbytes; eauto|done|]. eauto.
Qed.

Lemma pf_drain_prefixed (l : list (bytes * bytes)) :
  pf_drain prefix ((fun kv => (prefix ++ kv.1, kv.2)) <$> l) = Some l.
Proof.
  unfold pf_drain. rewrite pi_drain_spec; [|lia|].
  - f_equal. rewrite <- list_fmap_compose. rewrite <- (list_fmap_id l) at 2. apply list_fmap_ext.
    intros i [k v] _. simpl. by rewrite drop_app_length.
  - intros k v Hin. apply list_elem_of_fmap in Hin as ([k' v'] & [= -> ->] & _). by exists k'.
Qed.

Lemma pf_iterate_view p s e (asc : bool) :
  bytes_ok prefix -> prefix <> [] -> (forall k, is_Some (kv_view p !! k) -> bytes_ok k) ->
  (if asc then pf_Iterator prefix p s e else pf_ReverseIterator prefix p s e) = Some (entries_of asc (prefix_view p) s e).
Proof.
  intros Hp Hne Hbytes. destruct (pf_bounds s e Hne) as [Hb1 Hb2].
  pose proof (kv_entries asc p (pf_start prefix s) (pf_end prefix e) Hb1 Hb2) as Hent.
  rewrite prefixed_entries in Hent by done. unfold pf_Iterator, pf_ReverseIterator.
  destruct asc; rewrite Hent; apply pf_drain_prefixed.
Qed.

(** C38. The prefix store is the submap of the parent: its reads, membership tests,
    writes and deletes act on the view without the prefix and leave the keys without
    the prefix alone, and its iterators visit the entries of the view in the range,
    in order. *)
Theorem prefix_store_view p :
  bytes_ok prefix -> prefix <> [] -> (forall k, is_Some (kv_view p !! k) -> bytes_ok k) ->
  (forall k, pf_Get prefix p k = prefix_view p !! k) /\
  (forall k, pf_Has prefix p k = bool_decide (is_Some (prefix_view p !! k))) /\
  (forall k v, k <> [] -> exists p', pf_Set prefix p k (Some v) = Some p' /\
     prefix_view p' = <[k := v]> (prefix_view p) /\
     forall j, has_prefix j prefix = false -> kv_view p' !! j = kv_view p !! j) /\
  (forall k, prefix_view (pf_Delete prefix p k) = delete k (prefix_view p) /\
     forall j, has_prefix j prefix = false -> kv_view (pf_Delete prefix p k) !! j = kv_view p !! j) /\
  (forall s e asc, (if (asc : bool) then pf_Iterator prefix p s e else pf_ReverseIterator prefix p s e) =
     Some (entries_of asc (prefix_view p) s e)).
Proof.
  intros Hp Hne Hbytes.
  assert (Hk : forall k, pf_key prefix k <> []) by (intros k; unfold pf_key; by destruct prefix).
  assert (Hother : forall j k, has_prefix j prefix = false -> j <> pf_key prefix k).
  { intros j k Hj ->. assert (Ht : has_prefix (pf_key prefix k) prefix = true) by (apply has_prefix_spec; by exists k). congruence. }
  split_and!.
  - intros k. unfold pf_Get. by rewrite kv_Get_view, lookup_prefix_view.
  - intros k. unfold pf_Has. rewrite kv_Get_view, lookup_prefix_view by done. apply bool_decide_ext. apply not_eq_None_Some.
  - intros k v Hkn. exists (kv_Set p (pf_key prefix k) v). split_and!.
    + unfold pf_Set, AssertValidKey, AssertValidValue. by rewrite !bool_decide_eq_true_2.
    + apply map_eq. intros j. rewrite lookup_prefix_view, kv_Set_view by done. unfold pf_key.
      destruct (decide (j = k)) as [->|Hj]; [by rewrite !lookup_insert_eq|].
      rewrite !lookup_insert_ne by (done || by intros ?%app_inv_head). by rewrite lookup_prefix_view.
    + intros j Hj. rewrite kv_Set_view, lookup_insert_ne by (done || intros ?; by eapply Hother). done.
  - intros k. split.
    + apply map_eq. intros j. unfold pf_Delete. rewrite lookup_prefix_view, kv_Delete_view by done. unfold pf_key.
      destruct (decide (j = k)) as [->|Hj]; [by rewrite !lookup_delete_eq|].
      rewrite !lookup_delete_ne by (done || by intros ?%app_inv_head). by rewrite lookup_prefix_view.
    + intros j Hj. unfold pf_Delete. rewrite kv_Delete_view, lookup_delete_ne by (done || intros ?; by eapply Hother). done.
  - intros s e asc. by apply pf_iterate_view.
Qed.
End Laws.
