(* ===== verification/EVMKeeper.v ===== *)
(** The part of [x/evm/keeper] behind the interface the state database uses
    ([state.go], [code.go], [nonce.go], [address.go], [balance.go], [coinbase.go] and
    the prefix stores of [keeper.go]), over a key-value store for the EVM module and
    the bank of [Bank]; it discharges the promises [StateDBRevert] asks of a keeper.

    The application registers [CanAddressReceive] with the bank as its recipient check
    ([app.go]).  [crypto.Keccak256], a third-party function, is a parameter.  The
    replay mode is off, and the memo of the fee collector's address, which is written
    once with what the store holds, is left out. *)
From stdpp Require Import base gmap sets list strings.
From Stdlib Require Import ZArith Lia.
From S2P Require Import Prelude Coins CoinsSpec Vesting Bank KVStore PrefixStore StateDB StateDBRevert.
Local Open Scope Z_scope.

(** The events of the two modules. *)
Inductive evm_event :=
| BankEvent (e : bank_event)
| AddressAssociated (seiAddress : AccAddress) (evmAddress : Address).

(** [common.BytesToHash], [common.BytesToAddress] and [copy(addr[:], bz)]: the last, and
    the first, bytes. *)
Definition last_bytes (n : nat) (b : bytes) : bytes :=
  if bool_decide (n < length b)%nat then drop (length b - n) b else replicate (n - length b) 0 ++ b.
Definition BytesToHash (b : bytes) : Hash := last_bytes 32 b.
Definition BytesToAddress (b : bytes) : Address := last_bytes 20 b.
Definition CopyAddress (b : bytes) : Address := take 20 b ++ replicate (20 - length b) 0.

Definition BaseDenom : string := "usei".
Definition FeeCollectorName : string := "fee_collector".
Definition EVMAddressToSeiAddressKeyPrefix : bytes := [1].
Definition SeiAddressToEVMAddressKeyPrefix : bytes := [2].
Definition EVMAddressToSeiAddressKey (evmAddress : Address) : bytes := EVMAddressToSeiAddressKeyPrefix ++ evmAddress.
Definition SeiAddressToEVMAddressKey (seiAddress : AccAddress) : bytes := SeiAddressToEVMAddressKeyPrefix ++ seiAddress.

Section Keeper.
Context {P : Type} `{!KVStore P} (keccak : bytes -> bytes) (env : bank_env).
Abbreviation Ctx := (sdkContext (P * Bank.bank) evm_event).
Implicit Types c : Ctx.

Definition evm_store c : P := (cx_store c).1.
Definition bank_store c : Bank.bank := (cx_store c).2.
Definition set_evm c (p : P) : Ctx :=
  mkCtx (p, (cx_store c).2) (cx_events c) (cx_IsTracing c) (cx_ChainID c) (cx_BlockHeight c) (cx_TxIndex c).
Definition set_bank c (b : Bank.bank) (evs : list evm_event) : Ctx :=
  mkCtx ((cx_store c).1, b) (cx_events c ++ evs) (cx_IsTracing c) (cx_ChainID c) (cx_BlockHeight c) (cx_TxIndex c).

(** ** [state.go] *)
Definition GetState c (addr : Address) (hash : Hash) : Hash :=
  match pf_Get (StateKey addr) (evm_store c) hash with
  | None => zero_hash
  | Some val => BytesToHash val
  end.

(** [Set] of [PrefixStore(ctx, pref)]; keys are addresses or hashes, so the assertions
    of the prefix store hold. *)
Definition prefix_Set c (pref key value : bytes) : Ctx := set_evm c (kv_Set (evm_store c) (pf_key pref key) value).

Definition prefix_Delete c (pref key : bytes) : Ctx := set_evm c (pf_Delete pref (evm_store c) key).

Definition SetState c (addr : Address) (key val : Hash) : Ctx :=
  if bool_decide (val = zero_hash) then prefix_Delete c (StateKey addr) key
  else prefix_Set c (StateKey addr) key val.

Definition PurgePrefix c (pref : bytes) : Ctx := set_evm c (pf_DeleteAll pref (evm_store c) None None).

(** What a callback that never asks to stop is given, in order. *)
Definition IterateState c : option (list (Address * Hash * Hash)) :=
  option_map (map (fun kv : bytes * bytes => (BytesToAddress (take 20 kv.1), BytesToHash (drop 20 kv.1), BytesToHash kv.2))) (pf_Iterator StateKeyPrefix (evm_store c) None None).

(** ** [address.go] *)
Definition GetSeiAddress c (evmAddress : Address) : option AccAddress :=
  kv_Get (evm_store c) (EVMAddressToSeiAddressKey evmAddress).

Definition GetSeiAddressOrDefault c (evmAddress : Address) : AccAddress :=
  default evmAddress (GetSeiAddress c evmAddress).

Definition GetEVMAddress c (seiAddress : AccAddress) : option Address :=
  CopyAddress <$> kv_Get (evm_store c) (SeiAddressToEVMAddressKey seiAddress).

Definition GetEVMAddressOrDefault c (seiAddress : AccAddress) : Address :=
  default (BytesToAddress seiAddress) (GetEVMAddress c seiAddress).

(** The account of the Sei address is created when there is none. *)
Definition EnsureAccount (b : Bank.bank) (seiAddress : AccAddress) : Bank.bank :=
  match create_if_missing seiAddress b with Some (b', _) => b' | None => b end.

Definition SetAddressMapping c (seiAddress : AccAddress) (evmAddress : Address) : Ctx :=
  let c := set_evm c (kv_Set (evm_store c) (EVMAddressToSeiAddressKey evmAddress) seiAddress) in
  let c := set_evm c (kv_Set (evm_store c) (SeiAddressToEVMAddressKey seiAddress) evmAddress) in
  set_bank c (EnsureAccount (bank_store c) seiAddress) [AddressAssociated seiAddress evmAddress].

Definition DeleteAddressMapping c (seiAddress : AccAddress) (evmAddress : Address) : Ctx :=
  let c := set_evm c (kv_Delete (evm_store c) (EVMAddressToSeiAddressKey evmAddress)) in
  set_evm c (kv_Delete (evm_store c) (SeiAddressToEVMAddressKey seiAddress)).

Definition IterateSeiAddressMapping c : option (list (Address * AccAddress)) :=
  option_map (map (fun kv : bytes * bytes => (BytesToAddress kv.1, kv.2))) (pf_Iterator EVMAddressToSeiAddressKeyPrefix (evm_store c) None None).

Definition CanAddressReceive c (addr : AccAddress) : bool :=
  let directCast := BytesToAddress addr in
  match GetSeiAddress c directCast with
  | Some associatedAddr => bool_decide (associatedAddr = addr)
  | None => true
  end.

(** ** The bank as this keeper calls it *)
Definition bank_env_at c : bank_env :=
  mkEnv (be_blockTime env) (cx_TxIndex c) (be_baseDenom env) (be_permAddrs env) (be_blockedAddrs env)
    [fun _ addr => CanAddressReceive c addr] (be_mintCoinsRestriction env) (be_bech32 env).

(** An operation on the bank's stores; its events go to the event manager of the context. *)
Definition on_bank c (m : bank_env -> BM ()) : option (Ctx * option bank_error) :=
  match m (bank_env_at c) (set_events (bank_store c) []) with
  | None => None
  | Some (b, r) => Some (set_bank c (set_events b []) (BankEvent <$> b_events b), match r with inl _ => None | inr e => Some e end)
  end.

Definition bank_read {A} c (m : BM A) : option A := match m (bank_store c) with Some (_, inl a) => Some a | _ => None end.

(** ** [nonce.go], [balance.go] *)
Definition GetNonce c (addr : Address) : Z :=
  match pf_Get NonceKeyPrefix (evm_store c) addr with
  | None => 0
  | Some bz => default 0 (Uint64 bz)
  end.

Definition SetNonce c (addr : Address) (nonce : Z) : Ctx := prefix_Set c NonceKeyPrefix addr (PutUint64 nonce).

Definition IterateAllNonces c : option (list (Address * Z)) :=
  option_map (map (fun kv : bytes * bytes => (BytesToAddress kv.1, default 0 (Uint64 kv.2)))) (pf_Iterator NonceKeyPrefix (evm_store c) None None).

Definition GetBalance c (addr : AccAddress) : option Z :=
  allUsei ← bank_read c (Bank.GetBalance addr BaseDenom);
  lockedCoins ← bank_read c (LockedCoins (bank_env_at c) addr);
  lockedUsei ← coins_AmountOf lockedCoins BaseDenom;
  usei ← int_sub (Amount allUsei) lockedUsei;
  wei ← bank_read c (GetWeiBalance addr);
  scaled ← int_mul usei UseiToSweiMultiplier;
  int_add scaled wei.

(** ** [code.go] *)
Definition GetCode c (addr : Address) : option bytes :=
  norm_code (pf_Get CodeKeyPrefix (evm_store c) addr).

Definition SetCode c (addr : Address) (code : option bytes) : Ctx :=
  let code := default [] code in
  let c := prefix_Set c CodeKeyPrefix addr code in
  let c := prefix_Set c CodeSizeKeyPrefix addr (PutUint64 (Z.of_nat (length code))) in
  let c := prefix_Set c CodeHashKeyPrefix addr (keccak code) in
  match GetSeiAddress c addr with
  | Some _ => c
  | None => SetAddressMapping c (GetSeiAddressOrDefault c addr) addr
  end.

Definition GetCodeHash c (addr : Address) : option Hash :=
  match pf_Get CodeHashKeyPrefix (evm_store c) addr with
  | None =>
      balance ← GetBalance c (GetSeiAddressOrDefault c addr);
      Some (if bool_decide (balance = 0) && bool_decide (GetNonce c addr = 0) then zero_hash else keccak [])
  | Some bz => Some (BytesToHash bz)
  end.

Definition GetCodeSize c (addr : Address) : Z :=
  match pf_Get CodeSizeKeyPrefix (evm_store c) addr with
  | None => 0
  | Some bz => default 0 (Uint64 bz)
  end.

Definition IterateAllCode c : option (list (Address * bytes)) :=
  option_map (map (fun kv : bytes * bytes => (BytesToAddress kv.1, kv.2))) (pf_Iterator CodeKeyPrefix (evm_store c) None None).

(** [GetModuleAddress] of the account keeper: no address is the empty one. *)
Definition GetModuleAddress (moduleName : string) : AccAddress := default [] (fst <$> be_permAddrs env moduleName).

(** [coinbase.go]; without an association the zero address comes with an error. *)
Definition GetFeeCollectorAddress c : Address :=
  default (replicate 20 0) (GetEVMAddress c (GetModuleAddress FeeCollectorName)).

#[export] Instance evm_keeper : EVMKeeper (P * Bank.bank) evm_event bank_error := {|
  k_Has := fun c pref key => pf_Has pref (evm_store c) key;
  k_Delete := prefix_Delete;
  k_PurgePrefix := PurgePrefix;
  k_GetSeiAddress := GetSeiAddress;
  k_GetSeiAddressOrDefault := GetSeiAddressOrDefault;
  k_GetBaseDenom := fun _ => BaseDenom;
  k_DeleteAddressMapping := DeleteAddressMapping;
  k_GetCode := GetCode;
  k_SetCode := SetCode;
  k_GetCodeHash := GetCodeHash;
  k_GetCodeSize := GetCodeSize;
  k_GetState := GetState;
  k_SetState := SetState;
  k_GetFeeCollectorAddress := GetFeeCollectorAddress;
  k_GetModuleAddress := fun _ => GetModuleAddress;
  k_GetNonce := GetNonce;
  k_SetNonce := SetNonce;
  k_GetBalance := GetBalance;
  k_SubUnlockedCoins := fun c x l n => on_bank c (fun env => SubUnlockedCoins env x l n);
  k_AddCoins := fun c x l n => on_bank c (fun env => AddCoins env x l n);
  k_SubWei := fun c x n => on_bank c (fun env => SubWei env x n);
  k_AddWei := fun c x n => on_bank c (fun env => AddWei env x n);
  k_SendCoinsAndWei := fun c x y u w => on_bank c (fun env => SendCoinsAndWei env x y u w);
  k_MintCoins := fun c m l => on_bank c (fun env => MintCoins env m l)
|}.

(** ** What the state database relies on. *)
Context `{!KVStoreLaws P}.

Lemma evm_store_set c p : evm_store (set_evm c p) = p.
Proof. done. Qed.

Lemma get_set pref key pref' key' c v :
  pref ++ key <> [] -> pref' ++ key' <> [] ->
  pf_Get pref (evm_store (prefix_Set c pref' key' v)) key =
  if decide (pref ++ key = pref' ++ key') then Some v else pf_Get pref (evm_store c) key.
Proof.
  intros H1 H2. unfold pf_Get, prefix_Set, pf_key. rewrite evm_store_set, !kv_Get_view, kv_Set_view by done.
  case_decide as Hd; [rewrite Hd; by rewrite lookup_insert_eq|by rewrite lookup_insert_ne].
Qed.

Lemma get_delete pref key c k' :
  pref ++ key <> [] -> k' <> [] ->
  pf_Get pref (kv_Delete (evm_store c) k') key = if decide (pref ++ key = k') then None else pf_Get pref (evm_store c) key.
Proof.
  intros H1 H2. unfold pf_Get, pf_key. rewrite !kv_Get_view, kv_Delete_view by done.
  case_decide as Hd; [rewrite Hd; by rewrite lookup_delete_eq|by rewrite lookup_delete_ne].
Qed.

(** Only the entry of [b] under the code prefix matters for its code. *)
Lemma GetCode_ext c c' b :
  pf_Get CodeKeyPrefix (evm_store c) b = pf_Get CodeKeyPrefix (evm_store c') b -> GetCode c b = GetCode c' b.
Proof. unfold GetCode. by intros ->. Qed.

Lemma delete_keys_view (keys : list bytes) (p : P) k :
  (forall j, j ∈ keys -> j <> []) -> k ∉ keys -> kv_view (fold_left kv_Delete keys p) !! k = kv_view p !! k.
Proof.
  revert p. induction keys as [|j keys IH]; intros p Hj Hk; [done|]. cbn [fold_left]. rewrite elem_of_cons in Hk.
  rewrite IH; [|intros x Hx; apply Hj; by right|tauto]. rewrite kv_Delete_view by (apply Hj; left).
  apply lookup_delete_ne. naive_solver.
Qed.

Lemma incr_rev_last x l : x <> 255 ->
  incr_rev (l ++ [x]) = Some [x + 1] \/ exists e, incr_rev (l ++ [x]) = Some (e ++ [x]).
Proof.
  intros Hx. induction l as [|y l IH]; simpl.
  - rewrite bool_decide_eq_true_2 by done. by left.
  - case_bool_decide; [right; by exists (y + 1 :: l)|done].
Qed.

(** The keys in the range of a prefix that starts with [x] start with [x]. *)
Lemma range_first x a k :
  x <> 255 -> in_domain (Some (x :: a)) (PrefixEndBytes (x :: a)) k = true -> exists k', k = x :: k'.
Proof.
  intros Hx. unfold in_domain. rewrite andb_true_iff, bool_decide_eq_true. simpl. intros [Hle He].
  destruct k as [|y k]; [done|]. exists k. f_equal. unfold bytes_le in Hle. cbn [bytes_compare] in Hle.
  unfold PrefixEndBytes in He. rewrite reverse_cons in He.
  destruct (incr_rev_last x (reverse a) Hx) as [Hi|[e Hi]]; rewrite Hi in He; simpl in He.
  - apply bool_decide_eq_true in He. unfold bytes_lt in He. simpl in He.
    destruct (Z.compare_spec x y); [done| |done]. destruct (Z.compare_spec y (x + 1)); [by destruct k|lia|done].
  - rewrite reverse_snoc in He. apply bool_decide_eq_true in He. unfold bytes_lt in He. cbn [bytes_compare] in He.
    destruct (Z.compare_spec x y); [done| |done]. destruct (Z.compare_spec y x); [done|lia|done].
Qed.

Lemma purge_code c a b : GetCode (PurgePrefix c (StateKey a)) b = GetCode c b.
Proof.
  apply GetCode_ext. unfold PurgePrefix, pf_DeleteAll, kv_DeleteAll. rewrite evm_store_set. unfold pf_Get, pf_key.
  rewrite !kv_Get_view by done.
  assert (Hb1 : bound_ok (pf_start (StateKey a) None) = true) by done.
  assert (Hb2 : bound_ok (pf_end (StateKey a) None) = true) by (apply (pf_bounds _ None None); done).
  assert (Hin : forall j, j ∈ (kv_Iterator (evm_store c) (pf_start (StateKey a) None) (pf_end (StateKey a) None)).*1 ->
    exists j', j = 3 :: j').
  { intros j ([j0 v] & -> & Hin)%list_elem_of_fmap. apply kv_Iterator_elem in Hin as [_ Hd]; [|done|done].
    unfold pf_start in Hd. rewrite app_nil_r in Hd. by apply (range_first 3 a). }
  apply delete_keys_view.
  - intros j Hj. by destruct (Hin j Hj) as [j' ->].
  - intros Hj. by destruct (Hin _ Hj) as [j' ?].
Qed.

Lemma mapping_code c x a b : GetCode (SetAddressMapping c x a) b = GetCode c b.
Proof.
  apply GetCode_ext. unfold SetAddressMapping, pf_Get, pf_key, evm_store. simpl.
  rewrite !kv_Get_view, !kv_Set_view, !lookup_insert_ne by done. done.
Qed.

#[export] Instance evm_keeper_laws : EVMKeeperLaws (P * Bank.bank) evm_event bank_error.
Proof.
  assert (Hon : forall c m, keeps_code c (on_bank c m)) by (intros c m; unfold on_bank; by destruct (m _ _) as [[? ?]|]).
  assert (Hset : forall c pref a v b, pref ++ a <> [] -> CodeKeyPrefix ++ b <> pref ++ a ->
    GetCode (prefix_Set c pref a v) b = GetCode c b).
  { intros c pref a v b H1 H2. apply GetCode_ext. rewrite get_set by done. by rewrite decide_False. }
  assert (Hdel : forall c k b, k <> [] -> CodeKeyPrefix ++ b <> k -> GetCode (set_evm c (kv_Delete (evm_store c) k)) b = GetCode c b).
  { intros c k b H1 H2. apply GetCode_ext. rewrite evm_store_set, get_delete by done. by rewrite decide_False. }
  split.
  - intros c c' a Hs. apply GetCode_ext. unfold evm_store. by rewrite Hs.
  - intros c a. simpl. unfold GetCode, norm_code. by repeat case_bool_decide.
  - intros c a code b. simpl. unfold SetCode.
    assert (Hgoal : GetCode (prefix_Set (prefix_Set (prefix_Set c CodeKeyPrefix a (default [] code)) CodeSizeKeyPrefix a
      (PutUint64 (Z.of_nat (length (default [] code))))) CodeHashKeyPrefix a (keccak (default [] code))) b =
      if decide (b = a) then norm_code code else GetCode c b).
    { rewrite !Hset by done. case_decide as Hb; [subst b|by apply Hset; [|intros [=]]].
      unfold GetCode. rewrite get_set by done. rewrite decide_True by done.
      unfold norm_code. simpl. by destruct code as [[|? ?]|]. }
    destruct (GetSeiAddress _ a); [done|]. by rewrite mapping_code.
  - intros c pref a b Hpref Hne. simpl. apply Hdel; [|intros Heq].
    + rewrite !elem_of_cons, elem_of_nil in Hpref. naive_solver.
    + rewrite !elem_of_cons, elem_of_nil in Hpref. unfold pf_key in Heq. naive_solver.
  - intros c pref a b Hpref. simpl. apply Hdel; [|intros Heq].
    + rewrite !elem_of_cons, elem_of_nil in Hpref. naive_solver.
    + rewrite !elem_of_cons, elem_of_nil in Hpref. unfold pf_key in Heq. naive_solver.
  - intros. apply purge_code.
  - intros c x a b. simpl. unfold DeleteAddressMapping. by rewrite !Hdel.
  - intros c a k v b. simpl. unfold SetState. case_bool_decide; [by apply Hdel|by apply Hset].
  - intros c a n b. simpl. by apply Hset.
  - intros. apply Hon.
  - intros. apply Hon.
  - intros. apply Hon.
  - intros. apply Hon.
  - intros. apply Hon.
  - intros. apply Hon.
Qed.
End Keeper.
