(* ===== verification/EVMKeeperSpec.v ===== *)
(** What the EVM keeper's stores promise: reads after writes of storage, nonces, code and
    the address association. *)
From stdpp Require Import base gmap sets list strings sorting fin_maps.
From Stdlib Require Import Lia ZArith.
From S2P Require Import Prelude KVStore Coins CoinsSpec Vesting Bank BankSpec BankInv StateDB StateDBEquiv StateDBRevert PrefixStore EVMKeeper.
Local Open Scope Z_scope.

(** ** Fixed-width addresses and words *)
Lemma last_bytes_id n b : length b = n -> last_bytes n b = b.
Proof. intros <-. unfold last_bytes. rewrite bool_decide_eq_false_2 by lia. by rewrite Nat.sub_diag. Qed.
Lemma CopyAddress_id b : length b = 20%nat -> CopyAddress b = b.
Proof. intros Hb. unfold CopyAddress. rewrite Hb, take_ge by lia. apply app_nil_r. Qed.

Section Spec.
Context {P : Type} `{!KVStore P, !KVStoreLaws P} (keccak : bytes -> bytes) (env : bank_env).
Abbreviation Ctx := (sdkContext (P * Bank.bank) evm_event).
Implicit Types c : Ctx.

(** What a key of the EVM store holds. *)
Definition entry c (k : bytes) : option bytes := kv_view (evm_store c) !! k.

Lemma pf_Get_entry c pref key : pref <> [] -> pf_Get pref (evm_store c) key = entry c (pref ++ key).
Proof. intros Hp. unfold pf_Get, pf_key, entry. rewrite kv_Get_view; [done|]. by destruct pref. Qed.

Lemma entry_Set c pref key v k :
  pref <> [] -> entry (prefix_Set c pref key v) k = if bool_decide (k = pref ++ key) then Some v else entry c k.
Proof.
  intros Hp. unfold entry, prefix_Set, evm_store, pf_key. simpl. rewrite kv_Set_view by by destruct pref.
  case_bool_decide; [subst; by rewrite lookup_insert_eq|by rewrite lookup_insert_ne].
Qed.

Lemma entry_Delete c pref key k :
  pref <> [] -> entry (prefix_Delete c pref key) k = if bool_decide (k = pref ++ key) then None else entry c k.
Proof.
  intros Hp. unfold entry, prefix_Delete, pf_Delete, evm_store, pf_key. simpl. rewrite kv_Delete_view by by destruct pref.
  case_bool_decide; [subst; by rewrite lookup_delete_eq|by rewrite lookup_delete_ne].
Qed.

Lemma entry_mapping c x a k :
  entry (SetAddressMapping c x a) k =
  if bool_decide (k = SeiAddressToEVMAddressKey x) then Some a
  else if bool_decide (k = EVMAddressToSeiAddressKey a) then Some x else entry c k.
Proof.
  unfold SetAddressMapping, entry, evm_store. simpl. rewrite !kv_Set_view by done.
  case_bool_decide; [subst; by rewrite lookup_insert_eq|]. rewrite lookup_insert_ne by done.
  case_bool_decide; [subst; by rewrite lookup_insert_eq|by rewrite lookup_insert_ne].
Qed.

Lemma state_key_inj (a a' : Address) (k k' : Hash) :
  length a = 20%nat -> length a' = 20%nat -> StateKey a ++ k = StateKey a' ++ k' -> a = a' /\ k = k'.
Proof. intros Ha Ha' [= Heq]. apply app_inj_1 in Heq; [done|lia]. Qed.

Lemma GetState_entry c a k : GetState c a k = match entry c (StateKey a ++ k) with None => zero_hash | Some v => BytesToHash v end.
Proof. unfold GetState. by rewrite pf_Get_entry. Qed.
Lemma GetNonce_entry c a : GetNonce c a = match entry c (NonceKeyPrefix ++ a) with None => 0 | Some v => default 0 (Uint64 v) end.
Proof. unfold GetNonce. by rewrite pf_Get_entry. Qed.
Lemma GetCode_entry c a : GetCode c a = norm_code (entry c (CodeKeyPrefix ++ a)).
Proof. unfold GetCode. by rewrite pf_Get_entry. Qed.
Lemma GetCodeSize_entry c a : GetCodeSize c a = match entry c (CodeSizeKeyPrefix ++ a) with None => 0 | Some v => default 0 (Uint64 v) end.
Proof. unfold GetCodeSize. by rewrite pf_Get_entry. Qed.
Lemma GetSeiAddress_entry c a : GetSeiAddress c a = entry c (EVMAddressToSeiAddressKey a).
Proof. unfold GetSeiAddress. by rewrite kv_Get_view. Qed.
Lemma GetEVMAddress_entry c x : GetEVMAddress c x = CopyAddress <$> entry c (SeiAddressToEVMAddressKey x).
Proof. unfold GetEVMAddress. by rewrite kv_Get_view. Qed.

Lemma GetState_SetState c a k v a' k' :
  length a = 20%nat -> length a' = 20%nat -> length v = 32%nat ->
  GetState (SetState c a k v) a' k' = if bool_decide (a' = a /\ k' = k) then v else GetState c a' k'.
Proof.
  intros Ha Ha' Hv. rewrite !GetState_entry. unfold SetState.
  assert (Hkey : bool_decide (StateKey a' ++ k' = StateKey a ++ k) = bool_decide (a' = a /\ k' = k)).
  { apply bool_decide_ext. split; [by apply state_key_inj|by intros [-> ->]]. }
  destruct (bool_decide (v = zero_hash)) eqn:Hz.
  - apply bool_decide_eq_true in Hz as ->. rewrite entry_Delete, Hkey by done. by destruct (bool_decide (a' = a /\ k' = k)).
  - rewrite entry_Set, Hkey by done. destruct (bool_decide (a' = a /\ k' = k)); [by apply last_bytes_id|done].
Qed.

(** Balances do not depend on the EVM store, nor on an account made for an address without
    one. *)
Lemma LockedCoins_ensure env' x y b :
  (match LockedCoins env' y (EnsureAccount b x) with Some (_, inl l) => Some l | _ => None end) =
  (match LockedCoins env' y b with Some (_, inl l) => Some l | _ => None end).
Proof.
  unfold EnsureAccount, create_if_missing, HasAccount, NewAccountWithAddress, GetNextAccountNumber, SetAccount, LockedCoins, GetAccount, reads, updates, mbind, BM_bind, mret, BM_ret.
  destruct (b_accounts b !! x) as [acc|] eqn:Hx; [by rewrite bool_decide_eq_true_2 by done|]. rewrite bool_decide_eq_false_2 by (by intros [? ?]). cbn [b_accounts set_accounts].
  destruct (decide (x = y)) as [->|Hne]; [rewrite lookup_insert_eq, Hx; done|rewrite lookup_insert_ne by done]. destruct (b_accounts b !! y) as [[n|va|n nm p]|]; try done.
  unfold or_panic. by destruct (va_LockedCoins va (be_blockTime env')).
Qed.
Lemma ensure_same x b : b_balances (EnsureAccount b x) = b_balances b /\ b_wei (EnsureAccount b x) = b_wei b.
Proof. unfold EnsureAccount, create_if_missing, HasAccount, mbind, BM_bind, reads. by destruct (bool_decide (is_Some (b_accounts b !! x))). Qed.
Lemma GetBalance_mapping c x a y : EVMKeeper.GetBalance env (SetAddressMapping c x a) y = EVMKeeper.GetBalance env c y.
Proof.
  destruct (ensure_same x (bank_store c)) as [Hb Hw]. unfold EVMKeeper.GetBalance.
  assert (H1 : bank_read (SetAddressMapping c x a) (Bank.GetBalance y BaseDenom) = bank_read c (Bank.GetBalance y BaseDenom)).
  { unfold bank_read, Bank.GetBalance, reads, mbind, BM_bind, or_panic, mret, BM_ret. cbn [SetAddressMapping set_bank set_evm bank_store cx_store snd fst]. fold (bank_store c). rewrite Hb.
    destruct (b_balances (bank_store c) !! (y, BaseDenom)); [done|]. by destruct (NewCoin BaseDenom 0). }
  assert (H2 : bank_read (SetAddressMapping c x a) (GetWeiBalance y) = bank_read c (GetWeiBalance y)).
  { unfold bank_read, GetWeiBalance, reads. cbn [SetAddressMapping set_bank set_evm bank_store cx_store snd fst]. fold (bank_store c). by rewrite Hw. }
  assert (H3 : bank_read (SetAddressMapping c x a) (LockedCoins (bank_env_at env (SetAddressMapping c x a)) y) = bank_read c (LockedCoins (bank_env_at env c) y)).
  { apply LockedCoins_ensure. }
  by rewrite H1, H2, H3.
Qed.
Lemma GetBalance_SetCode c a code y : EVMKeeper.GetBalance env (SetCode keccak c a code) y = EVMKeeper.GetBalance env c y.
Proof. unfold SetCode. case_match; [done|]. by rewrite GetBalance_mapping. Qed.

(** What is read of an account's code, and of the associations, in two contexts. *)
Definition same_code c c' (a : Address) : Prop :=
  GetCode c' a = GetCode c a /\ GetCodeSize c' a = GetCodeSize c a /\ GetCodeHash keccak env c' a = GetCodeHash keccak env c a.
Definition same_assoc c c' : Prop := forall (a : Address) (x : AccAddress), GetSeiAddress c' a = GetSeiAddress c a /\ GetEVMAddress c' x = GetEVMAddress c x.

Lemma same_code_intro c c' a :
  (forall pref, pref ∈ [CodeKeyPrefix; CodeSizeKeyPrefix; CodeHashKeyPrefix; NonceKeyPrefix; EVMAddressToSeiAddressKeyPrefix] -> entry c' (pref ++ a) = entry c (pref ++ a)) ->
  (forall y, EVMKeeper.GetBalance env c' y = EVMKeeper.GetBalance env c y) -> same_code c c' a.
Proof.
  intros He Hb. unfold same_code. rewrite !GetCode_entry, !GetCodeSize_entry. unfold GetCodeHash, GetSeiAddressOrDefault. rewrite !pf_Get_entry, !GetSeiAddress_entry, !GetNonce_entry, Hb by done.
  unfold EVMAddressToSeiAddressKey. by rewrite !He by set_solver.
Qed.

(** Keys of the parts of the store are told apart by their first byte. *)
Definition prefixes : list bytes := [CodeKeyPrefix; CodeSizeKeyPrefix; CodeHashKeyPrefix; NonceKeyPrefix; StateKeyPrefix; EVMAddressToSeiAddressKeyPrefix; SeiAddressToEVMAddressKeyPrefix].
Ltac in_prefixes := unfold prefixes; rewrite !elem_of_cons; tauto.
Lemma prefixes_apart pref pref' (k k' : bytes) : pref ∈ prefixes -> pref' ∈ prefixes -> pref ++ k = pref' ++ k' <-> pref = pref' /\ k = k'.
Proof.
  intros Hp Hp'. assert (Hl : forall p, p ∈ prefixes -> length p = 1%nat) by (intros p; unfold prefixes; rewrite !elem_of_cons, elem_of_nil; naive_solver).
  split; [|by intros [-> ->]]. intros H. apply app_inj_1 in H; [done|]. by rewrite !Hl.
Qed.
Lemma prefixes_decide pref pref' (k k' : bytes) : pref ∈ prefixes -> pref' ∈ prefixes -> bool_decide (pref ++ k = pref' ++ k') = bool_decide (pref = pref' /\ k = k').
Proof. intros Hp Hp'. by apply bool_decide_ext, prefixes_apart. Qed.
Lemma entry_prefix_Set c pref key v pref' k : pref ∈ prefixes -> pref' ∈ prefixes ->
  entry (prefix_Set c pref key v) (pref' ++ k) = if bool_decide (pref' = pref /\ k = key) then Some v else entry c (pref' ++ k).
Proof.
  intros Hp Hp'. rewrite entry_Set by (intros ->; unfold prefixes in Hp; rewrite !elem_of_cons, elem_of_nil in Hp; naive_solver).
  by rewrite prefixes_decide.
Qed.
Lemma entry_map c x a pref k : pref ∈ prefixes ->
  entry (SetAddressMapping c x a) (pref ++ k) =
  if bool_decide (pref = SeiAddressToEVMAddressKeyPrefix /\ k = x) then Some a
  else if bool_decide (pref = EVMAddressToSeiAddressKeyPrefix /\ k = a) then Some x else entry c (pref ++ k).
Proof.
  intros Hp. rewrite entry_mapping. unfold SeiAddressToEVMAddressKey, EVMAddressToSeiAddressKey.
  by rewrite !prefixes_decide by (done || in_prefixes).
Qed.

Lemma reads_SetState c a k v : length a = 20%nat -> length v = 32%nat ->
  let c' := SetState c a k v in
  (forall a' k', length a' = 20%nat -> GetState c' a' k' = if bool_decide (a' = a /\ k' = k) then v else GetState c a' k') /\
  (v = zero_hash -> entry c' (StateKey a ++ k) = None) /\ (forall a', GetNonce c' a' = GetNonce c a' /\ same_code c c' a') /\ same_assoc c c'.
Proof.
  intros Ha Hv c'. assert (Hk : forall pref key, pref ∈ prefixes -> pref <> StateKeyPrefix -> entry c' (pref ++ key) = entry c (pref ++ key)).
  { intros pref key Hp Hne. unfold c', SetState, StateKey. case_bool_decide; [rewrite entry_Delete by done|rewrite entry_Set by done]; (rewrite bool_decide_eq_false_2; [done|]);
      rewrite <- app_assoc; intros [? _]%prefixes_apart; done || in_prefixes. }
  split_and!.
  - intros a' k' Ha'. by apply GetState_SetState.
  - intros ->. unfold c', SetState. rewrite bool_decide_eq_true_2 by done. rewrite entry_Delete by done. by rewrite bool_decide_eq_true_2.
  - intros a'. split; [rewrite !GetNonce_entry; by rewrite Hk by (in_prefixes || done)|]. apply same_code_intro; [|intros y; unfold c', SetState; by case_bool_decide].
    intros pref Hp. rewrite !elem_of_cons, elem_of_nil in Hp. apply Hk; [unfold prefixes; rewrite !elem_of_cons; tauto|naive_solver].
  - intros a' x'. rewrite !GetSeiAddress_entry, !GetEVMAddress_entry. unfold EVMAddressToSeiAddressKey, SeiAddressToEVMAddressKey. by rewrite !Hk by (in_prefixes || done).
Qed.
Lemma reads_SetNonce c a n : 0 <= n < 2 ^ 64 ->
  let c' := SetNonce c a n in
  (forall a', GetNonce c' a' = if bool_decide (a' = a) then n else GetNonce c a') /\
  (forall a' k', GetState c' a' k' = GetState c a' k') /\ (forall a', a' <> a -> same_code c c' a') /\
  GetCode c' a = GetCode c a /\ GetCodeSize c' a = GetCodeSize c a /\ same_assoc c c'.
Proof.
  intros Hn c'. assert (Hk : forall pref key, pref ∈ prefixes -> pref <> NonceKeyPrefix \/ key <> a -> entry c' (pref ++ key) = entry c (pref ++ key)).
  { intros pref key Hp Hne. unfold c', SetNonce. rewrite entry_prefix_Set by (done || in_prefixes). rewrite bool_decide_eq_false_2; [done|]. naive_solver. }
  split_and!.
  - intros a'. rewrite !GetNonce_entry. unfold c', SetNonce. rewrite entry_prefix_Set by in_prefixes.
    rewrite (bool_decide_ext (NonceKeyPrefix = NonceKeyPrefix /\ a' = a) (a' = a)) by tauto. case_bool_decide; [by rewrite Uint64_PutUint64, Z.mod_small|done].
  - intros a' k'. rewrite !GetState_entry. unfold StateKey. rewrite <- !app_assoc. by rewrite Hk by (in_prefixes || by left).
  - intros a' Hne. apply same_code_intro; [|done]. intros pref Hp. apply Hk; [revert Hp; unfold prefixes; set_solver|by right].
  - rewrite !GetCode_entry. by rewrite Hk by (in_prefixes || by left).
  - rewrite !GetCodeSize_entry. by rewrite Hk by (in_prefixes || by left).
  - intros a' x'. rewrite !GetSeiAddress_entry, !GetEVMAddress_entry. unfold EVMAddressToSeiAddressKey, SeiAddressToEVMAddressKey. by rewrite !Hk by (in_prefixes || by left).
Qed.

Lemma reads_SetAddressMapping c x a : length a = 20%nat ->
  let c' := SetAddressMapping c x a in
  (forall a', GetSeiAddress c' a' = if bool_decide (a' = a) then Some x else GetSeiAddress c a') /\
  (forall x', GetEVMAddress c' x' = if bool_decide (x' = x) then Some a else GetEVMAddress c x') /\
  (forall a' k', GetState c' a' k' = GetState c a' k') /\ (forall a', GetNonce c' a' = GetNonce c a' /\ GetCode c' a' = GetCode c a' /\ GetCodeSize c' a' = GetCodeSize c a') /\
  (forall a', a' <> a -> same_code c c' a').
Proof.
  intros Ha c'. assert (Hk : forall pref key, pref ∈ prefixes -> pref <> SeiAddressToEVMAddressKeyPrefix -> pref <> EVMAddressToSeiAddressKeyPrefix \/ key <> a -> entry c' (pref ++ key) = entry c (pref ++ key)).
  { intros pref key Hp H1 H2. unfold c'. rewrite entry_map by done. rewrite !bool_decide_eq_false_2; [done|naive_solver..]. }
  split_and!.
  - intros a'. rewrite !GetSeiAddress_entry. unfold EVMAddressToSeiAddressKey, c'. rewrite entry_map by in_prefixes. rewrite bool_decide_eq_false_2 by (by intros [? _]).
    by rewrite (bool_decide_ext (EVMAddressToSeiAddressKeyPrefix = _ /\ a' = a) (a' = a)) by tauto.
  - intros x'. rewrite !GetEVMAddress_entry. unfold SeiAddressToEVMAddressKey, c'. rewrite entry_map by in_prefixes.
    rewrite (bool_decide_ext (SeiAddressToEVMAddressKeyPrefix = _ /\ x' = x) (x' = x)) by tauto. case_bool_decide; [simpl; by rewrite CopyAddress_id|]. by rewrite bool_decide_eq_false_2 by (by intros [? _]).
  - intros a' k'. rewrite !GetState_entry. unfold StateKey. rewrite <- !app_assoc. by rewrite Hk by (in_prefixes || done || by left).
  - intros a'. rewrite !GetNonce_entry, !GetCode_entry, !GetCodeSize_entry. by rewrite !Hk by (in_prefixes || done || by left).
  - intros a' Hne. apply same_code_intro; [|intros y; apply GetBalance_mapping]. intros pref Hp. apply Hk; [revert Hp; unfold prefixes; set_solver| |by right].
    intros ->. rewrite !elem_of_cons, elem_of_nil in Hp. naive_solver.
Qed.

Lemma entry_SetCode c a code pref k : pref ∈ prefixes ->
  entry (SetCode keccak c a (Some code)) (pref ++ k) =
  if bool_decide (pref = CodeKeyPrefix /\ k = a) then Some code
  else if bool_decide (pref = CodeSizeKeyPrefix /\ k = a) then Some (PutUint64 (Z.of_nat (length code)))
  else if bool_decide (pref = CodeHashKeyPrefix /\ k = a) then Some (keccak code)
  else if bool_decide (GetSeiAddress c a = None /\ (pref = SeiAddressToEVMAddressKeyPrefix \/ pref = EVMAddressToSeiAddressKeyPrefix) /\ k = a) then Some a else entry c (pref ++ k).
Proof.
  intros Hp. unfold SetCode. cbn [default]. set (c1 := prefix_Set (prefix_Set (prefix_Set c _ _ _) _ _ _) _ _ _).
  assert (H1 : forall pref k, pref ∈ prefixes -> entry c1 (pref ++ k) =
    if bool_decide (pref = CodeKeyPrefix /\ k = a) then Some code else if bool_decide (pref = CodeSizeKeyPrefix /\ k = a) then Some (PutUint64 (Z.of_nat (length code)))
    else if bool_decide (pref = CodeHashKeyPrefix /\ k = a) then Some (keccak code) else entry c (pref ++ k)).
  { intros pref' k' Hp'. unfold c1. rewrite !entry_prefix_Set by (done || in_prefixes). repeat case_bool_decide; try done; naive_solver. }
  assert (Hs : GetSeiAddress c1 a = GetSeiAddress c a).
  { rewrite !GetSeiAddress_entry. unfold EVMAddressToSeiAddressKey. rewrite H1 by in_prefixes. by rewrite !bool_decide_eq_false_2 by (by intros [? _]). }
  unfold GetSeiAddressOrDefault. rewrite Hs. destruct (GetSeiAddress c a) as [y|].
  - rewrite H1 by done. repeat case_bool_decide; try done; naive_solver.
  - cbn [default]. rewrite entry_map, H1 by done. repeat case_bool_decide; try done; naive_solver.
Qed.
Lemma reads_SetCode c a code : length a = 20%nat -> length (keccak code) = 32%nat -> Z.of_nat (length code) < 2 ^ 64 ->
  let c' := SetCode keccak c a (Some code) in
  GetCode c' a = norm_code (Some code) /\ GetCodeSize c' a = Z.of_nat (length code) /\ GetCodeHash keccak env c' a = Some (keccak code) /\
  (forall a', a' <> a -> same_code c c' a') /\ (forall a' k', GetState c' a' k' = GetState c a' k') /\ (forall a', GetNonce c' a' = GetNonce c a') /\
  (forall a', GetSeiAddress c' a' = if bool_decide (a' = a) then Some (GetSeiAddressOrDefault c a) else GetSeiAddress c a') /\
  (forall x', GetEVMAddress c' x' = if bool_decide (GetSeiAddress c a = None /\ x' = a) then Some a else GetEVMAddress c x').
Proof.
  intros Ha Hkec Hlen c'. assert (Hk : forall pref k, pref ∈ prefixes -> k <> a \/ pref ∈ [NonceKeyPrefix; StateKeyPrefix] -> entry c' (pref ++ k) = entry c (pref ++ k)).
  { intros pref k Hp Hne. unfold c'. rewrite entry_SetCode by done. rewrite !elem_of_cons, elem_of_nil in Hne. repeat case_bool_decide; try done; naive_solver. }
  split_and!.
  - rewrite GetCode_entry. unfold c'. rewrite entry_SetCode by in_prefixes. by rewrite bool_decide_eq_true_2.
  - rewrite GetCodeSize_entry. unfold c'. rewrite entry_SetCode by in_prefixes. rewrite bool_decide_eq_false_2 by (by intros [? _]). rewrite bool_decide_eq_true_2 by done.
    by rewrite Uint64_PutUint64, Z.mod_small by lia.
  - unfold GetCodeHash. rewrite pf_Get_entry by done. unfold c'. rewrite entry_SetCode by in_prefixes. do 2 (rewrite bool_decide_eq_false_2 by (by intros [? _])). rewrite bool_decide_eq_true_2 by done.
    unfold BytesToHash. by rewrite last_bytes_id.
  - intros a' Hne. apply same_code_intro; [|intros y; apply GetBalance_SetCode]. intros pref Hp. apply Hk; [revert Hp; unfold prefixes; set_solver|by left].
  - intros a' k'. rewrite !GetState_entry. unfold StateKey. rewrite <- !app_assoc. by rewrite Hk by (in_prefixes || right; set_solver).
  - intros a'. rewrite !GetNonce_entry. by rewrite Hk by (in_prefixes || right; set_solver).
  - intros a'. rewrite GetSeiAddress_entry. unfold EVMAddressToSeiAddressKey, c', GetSeiAddressOrDefault. rewrite entry_SetCode by in_prefixes. do 3 (rewrite bool_decide_eq_false_2 by (by intros [? _])).
    fold (EVMAddressToSeiAddressKey a'). rewrite <- GetSeiAddress_entry. destruct (GetSeiAddress c a) as [y|] eqn:Hs.
    + rewrite bool_decide_eq_false_2 by (by intros [? _]). case_bool_decide as He; [by rewrite He|done].
    + cbn [default]. rewrite (bool_decide_ext (None = None /\ _ /\ a' = a) (a' = a)) by naive_solver. done.
  - intros x'. rewrite !GetEVMAddress_entry. unfold SeiAddressToEVMAddressKey, c'. rewrite entry_SetCode by in_prefixes. do 3 (rewrite bool_decide_eq_false_2 by (by intros [? _])).
    rewrite (bool_decide_ext (GetSeiAddress c a = None /\ _ /\ x' = a) (GetSeiAddress c a = None /\ x' = a)) by naive_solver. case_bool_decide; [|done]. simpl. by rewrite CopyAddress_id.
Qed.

(** C31. Reads after writes: what [SetState], [SetNonce], [SetCode] and [SetAddressMapping]
    store is what the getters return, and every other slot, nonce, code, code size, code hash
    and association reads as before; the code hash of an account without code, which depends on
    its nonce and its associated balance, is left out where these change.  Storing the zero hash
    removes the slot, and storing code for an address without association associates it with its
    own bytes. *)
Theorem keeper_reads_writes c (a : Address) (k v : Hash) (n : Z) (code : bytes) (x : AccAddress) :
  length a = 20%nat -> length v = 32%nat -> 0 <= n < 2 ^ 64 -> length (keccak code) = 32%nat -> Z.of_nat (length code) < 2 ^ 64 ->
  (let c' := SetState c a k v in
    (forall a' k', length a' = 20%nat -> GetState c' a' k' = if bool_decide (a' = a /\ k' = k) then v else GetState c a' k') /\
    (v = zero_hash -> entry c' (StateKey a ++ k) = None) /\ (forall a', GetNonce c' a' = GetNonce c a' /\ same_code c c' a') /\ same_assoc c c') /\
  (let c' := SetNonce c a n in
    (forall a', GetNonce c' a' = if bool_decide (a' = a) then n else GetNonce c a') /\
    (forall a' k', GetState c' a' k' = GetState c a' k') /\ (forall a', a' <> a -> same_code c c' a') /\
    GetCode c' a = GetCode c a /\ GetCodeSize c' a = GetCodeSize c a /\ same_assoc c c') /\
  (let c' := SetCode keccak c a (Some code) in
    GetCode c' a = norm_code (Some code) /\ GetCodeSize c' a = Z.of_nat (length code) /\ GetCodeHash keccak env c' a = Some (keccak code) /\
    (forall a', a' <> a -> same_code c c' a') /\ (forall a' k', GetState c' a' k' = GetState c a' k') /\ (forall a', GetNonce c' a' = GetNonce c a') /\
    (forall a', GetSeiAddress c' a' = if bool_decide (a' = a) then Some (GetSeiAddressOrDefault c a) else GetSeiAddress c a') /\
    (forall x', GetEVMAddress c' x' = if bool_decide (GetSeiAddress c a = None /\ x' = a) then Some a else GetEVMAddress c x')) /\
  (let c' := SetAddressMapping c x a in
    (forall a', GetSeiAddress c' a' = if bool_decide (a' = a) then Some x else GetSeiAddress c a') /\
    (forall x', GetEVMAddress c' x' = if bool_decide (x' = x) then Some a else GetEVMAddress c x') /\
    (forall a' k', GetState c' a' k' = GetState c a' k') /\ (forall a', GetNonce c' a' = GetNonce c a' /\ GetCode c' a' = GetCode c a' /\ GetCodeSize c' a' = GetCodeSize c a') /\
    (forall a', a' <> a -> same_code c c' a')).
Proof.
  intros Ha Hv Hn Hkec Hlen. split; [|split; [|split]]; [by apply reads_SetState|by apply reads_SetNonce|by apply reads_SetCode|by apply reads_SetAddressMapping].
Qed.

End Spec.

(** Balances of the EVM over the bank: the state database's balance operations move
    value between accounts and the surplus, at the precision of a wei. *)
Section Surplus.
Context {P : Type} `{!KVStore P} (keccak : bytes -> bytes) (env : bank_env).
Hypothesis Hbase : be_baseDenom env = BaseDenom.
#[local] Existing Instance evm_keeper.
#[local] Instance keeper : EVMKeeper (P * Bank.bank) evm_event bank_error := evm_keeper keccak env.
Abbreviation Ctx := (sdkContext (P * Bank.bank) evm_event).
Abbreviation DBI := (DBImpl (P * Bank.bank) evm_event bank_error).
Implicit Types (c : Ctx) (s : DBI).
Abbreviation U := OneUseiInWei.

Definition db_bank s : Bank.bank := bank_store (db_ctx s).
Definition surplus s : Z := ts_surplus (db_tempState s).
(** The account of an EVM address. *)
Definition sei_of s (a : Address) : AccAddress :=
  if bool_decide (db_coinbaseEvmAddress s = a) then db_coinbaseAddress s else GetSeiAddressOrDefault (db_ctx s) a.

(** ** Bank operations through the keeper *)
Lemma on_bank_changes c c' m ch :
  bank_wf (bank_store c) -> (forall env', be_baseDenom env' = be_baseDenom env -> effect env' (m env') ch) ->
  on_bank env c m = Some (c', None) -> changes env ch (bank_store c) (bank_store c') /\ evm_store c' = evm_store c.
Proof.
  intros Hwf Hm. unfold on_bank. destruct (m _ _) as [[b [[]|e]]|] eqn:Hrun; [|done|done]. intros [= <-]. split; [|done].
  assert (C1 : changes env no_change (bank_store c) (set_events (bank_store c) [])) by by apply changes_other.
  assert (C2 : changes env ch (set_events (bank_store c) []) b).
  { assert (Heff := Hm (bank_env_at env c) eq_refl _ _ _ (proj1 C1) Hrun). exact Heff. }
  assert (C3 : changes env no_change b (set_events b [])) by (apply changes_other; try done; apply C2).
  eapply changes_same; [|exact (changes_trans _ _ _ _ _ _ C1 (changes_trans _ _ _ _ _ _ C2 C3))].
  split; [|split; [|split]]; intros; simpl; lia.
Qed.

(** A bank operation of the state database touches the stores of the context only. *)
Lemma bank_run op s s' ch :
  bank_wf (db_bank s) ->
  (forall c c', bank_wf (bank_store c) -> op c = Some (c', None) -> changes env ch (bank_store c) (bank_store c') /\ evm_store c' = evm_store c) ->
  StateDB.bank op s = Some (s', None) ->
  changes env ch (db_bank s) (db_bank s') /\ evm_store (db_ctx s') = evm_store (db_ctx s) /\
  db_tempState s' = db_tempState s /\ db_err s' = db_err s /\
  db_coinbaseEvmAddress s' = db_coinbaseEvmAddress s /\ db_coinbaseAddress s' = db_coinbaseAddress s.
Proof.
  intros Hwf Hop. unfold StateDB.bank, mbind, DB_bind, asks, getCtx, mbind. simpl. set (c0 := if db_eventsSuppressed s then _ else _).
  assert (Hc0 : cx_store c0 = cx_store (db_ctx s)) by (unfold c0; by destruct (db_eventsSuppressed s)).
  destruct (op c0) as [[c' err]|] eqn:Hrun; [|done]. simpl. intros [= <- ->].
  unfold db_bank, bank_store, evm_store in *. rewrite <- Hc0 in *. destruct (Hop c0 c' Hwf Hrun) as [Hch Hev].
  simpl. destruct (db_eventsSuppressed s); simpl; done.
Qed.

Lemma new_coins_spec u : 0 <= u -> exists cs, new_coins BaseDenom u = Some cs /\ coins_ok cs /\
  forall d, amount cs d = if bool_decide (BaseDenom = d) then u else 0.
Proof.
  intros Hu. unfold new_coins. rewrite NewCoin_some by done. cbn [mbind option_bind]. destruct (decide (u = 0)) as [->|Hn].
  - exists []. split; [done|]. split; [by apply coins_Validate_spec|]. intros d. simpl. by case_bool_decide.
  - exists [mkCoin BaseDenom u]. assert (Hok : coins_ok [mkCoin BaseDenom u]) by (apply coin_ok; [done|lia]).
    split; [by apply NewCoins_ok|]. split; [done|]. intros d. apply amount_singleton.
Qed.

Lemma split_amount amt : 0 <= amt -> Z.quot amt UseiToSweiMultiplier * U + amt mod UseiToSweiMultiplier = amt /\
  0 <= Z.quot amt UseiToSweiMultiplier /\ 0 <= amt mod UseiToSweiMultiplier.
Proof.
  intros Ha. change UseiToSweiMultiplier with U. destruct (split_value amt Ha). split; [done|]. split; [by apply Z.quot_pos|lia].
Qed.

(** The usei part and the wei part of an amount together. *)
Lemma usei_wei_change x cs u w amt (sg : Z) :
  (forall d, amount cs d = if bool_decide (BaseDenom = d) then u else 0) -> u * U + w = amt ->
  same_change (both (credit_coins x cs sg) (credit x BaseDenom (sg * w))) (credit x BaseDenom (sg * amt)).
Proof.
  intros Hcs <-. unfold both, credit_coins, credit, credit_value. split; [|split; [|done]]; intros; simpl; rewrite ?Hcs;
    repeat case_bool_decide; simpl; try done; lia.
Qed.

Lemma sei_of_same s s' a :
  evm_store (db_ctx s') = evm_store (db_ctx s) -> db_coinbaseEvmAddress s' = db_coinbaseEvmAddress s ->
  db_coinbaseAddress s' = db_coinbaseAddress s -> sei_of s' a = sei_of s a.
Proof. intros H1 H2 H3. unfold sei_of, GetSeiAddressOrDefault, GetSeiAddress. by rewrite H1, H2, H3. Qed.

Lemma DB_bind_inv {A B} (m : DB (St := P * Bank.bank) (Ev := evm_event) (Err := bank_error) A) (f : A -> DB B) s r :
  (m ≫= f) s = Some r -> exists s1 a, m s = Some (s1, a) /\ f a s1 = Some r.
Proof. unfold mbind, DB_bind. destruct (m s) as [[s1 a]|]; [|done]. intros Hr. by exists s1, a. Qed.

(** Both balance operations: a debit ([sg = -1]) or credit ([sg = 1]) of usei, then of wei,
    then the surplus; the error of either step is kept. *)
Definition balance_op (coins_op : Ctx -> AccAddress -> Coins -> option (Ctx * option bank_error))
    (wei_op : Ctx -> AccAddress -> Z -> option (Ctx * option bank_error)) (sg : Z) (a : Address) (amt : Z) :
    DB (St := P * Bank.bank) (Ev := evm_event) (Err := bank_error) () :=
  if bool_decide (amt = 0) then mret tt
  else
    let '(usei, wei) := StateDB.SplitUseiWeiAmount amt in
    addr ← getSeiAddress a;
    c ← getCtx;
    err ← StateDB.bank (fun ctx => coins ← new_coins (k_GetBaseDenom c) usei; coins_op ctx addr coins);
    match err with
    | Some e => set_err e
    | None =>
        err ← StateDB.bank (fun ctx => wei_op ctx addr wei);
        match err with Some e => set_err e | None => add_surplus (- sg * amt) end
    end.

Lemma getSeiAddress_run a s : getSeiAddress a s = Some (s, sei_of s a).
Proof. reflexivity. Qed.

(** The outcome of a balance operation that left no error: the account changed by the
    amount, and the surplus by the opposite. *)
Definition balance_effect (sg : Z) (a : Address) (amt : Z) s s' : Prop :=
  db_err s = None /\ changes env (credit (sei_of s a) BaseDenom (sg * amt)) (db_bank s) (db_bank s') /\
  surplus s' = surplus s - sg * amt.

Lemma balance_op_effect coins_op wei_op sg a amt s s' :
  (forall c c' x cs, bank_wf (bank_store c) -> coins_op c x cs = Some (c', None) ->
     changes env (credit_coins x cs sg) (bank_store c) (bank_store c') /\ evm_store c' = evm_store c) ->
  (forall c c' x w, 0 <= w -> bank_wf (bank_store c) -> wei_op c x w = Some (c', None) ->
     changes env (credit x BaseDenom (sg * w)) (bank_store c) (bank_store c') /\ evm_store c' = evm_store c) ->
  bank_wf (db_bank s) -> 0 <= amt -> balance_op coins_op wei_op sg a amt s = Some (s', tt) -> db_err s' = None ->
  balance_effect sg a amt s s'.
Proof.
  intros Hcoins Hwei Hwf Hamt Hrun Herr. unfold balance_op in Hrun. destruct (split_amount amt Hamt) as (Hsplit & Hu & Hw).
  destruct (decide (amt = 0)) as [->|Hne].
  { injection Hrun as <-. split; [done|]. split; [|lia]. eapply changes_same; [|by apply changes_refl].
    rewrite Z.mul_0_r. unfold credit, credit_value. split; [|split; [|done]]; intros; simpl; repeat case_bool_decide; done. }
  rewrite bool_decide_eq_false_2 in Hrun by done. unfold StateDB.SplitUseiWeiAmount in Hrun.
  set (u := Z.quot amt UseiToSweiMultiplier) in *. set (w := amt mod UseiToSweiMultiplier) in *.
  destruct (new_coins_spec u Hu) as (cs & Hcs & Hok & Hd). cbn [k_GetBaseDenom keeper evm_keeper] in Hrun.
  rewrite (DB_bind_run _ _ _ _ _ (getSeiAddress_run a s)), (DB_bind_run getCtx _ _ _ _ eq_refl) in Hrun.
  set (x := sei_of s a) in *.
  apply DB_bind_inv in Hrun as (s1 & [e1|] & H1 & Hrun); [by injection Hrun as <-|].
  apply (bank_run _ s s1 (credit_coins x cs sg) Hwf) in H1 as (C1 & E1 & T1 & R1 & _).
  2: { intros c c' Hc. rewrite Hcs. simpl. by apply Hcoins. }
  apply DB_bind_inv in Hrun as (s2 & [e2|] & H2 & Hrun); [by injection Hrun as <-|].
  apply (bank_run _ s1 s2 (credit x BaseDenom (sg * w)) (proj1 C1)) in H2 as (C2 & E2 & T2 & R2 & _).
  2: { intros c c' Hc. by apply Hwei. }
  unfold add_surplus in Hrun. rewrite (DB_bind_run temp _ _ _ _ eq_refl), int_add_spec in Hrun.
  destruct (int_fits _); [|done]. injection Hrun as <-. simpl in Herr. split; [congruence|]. split.
  - eapply changes_same; [exact (usei_wei_change x cs u w amt sg Hd Hsplit)|]. exact (changes_trans _ _ _ _ _ _ C1 C2).
  - unfold surplus. simpl. rewrite T2, T1. lia.
Qed.

Lemma SubBalance_effect a amt s s' :
  bank_wf (db_bank s) -> 0 <= amt -> SubBalance a amt s = Some (s', tt) -> db_err s' = None -> balance_effect (-1) a amt s s'.
Proof.
  intros Hwf Hamt Hrun. apply (balance_op_effect (fun c x cs => on_bank env c (fun env => SubUnlockedCoins env x cs true))
    (fun c x w => on_bank env c (fun env => SubWei env x w))); [| |done|done|].
  - intros c c' x cs Hc. apply on_bank_changes; [done|]. intros. apply effect_SubUnlockedCoins.
  - intros c c' x w Hw Hc. apply on_bank_changes; [done|]. intros env' He. rewrite <- Hbase, <- He.
    replace (-1 * w) with (- w) by lia. by apply effect_SubWei.
  - rewrite <- Hrun. unfold SubBalance, balance_op. rewrite (DB_bind_run (PrepareReplayedAddr a) _ _ _ _ eq_refl).
    by replace (- -1 * amt) with amt by lia.
Qed.

Lemma AddBalance_effect a amt s s' :
  bank_wf (db_bank s) -> 0 <= amt -> AddBalance a amt s = Some (s', tt) -> db_err s' = None -> balance_effect 1 a amt s s'.
Proof.
  intros Hwf Hamt Hrun. apply (balance_op_effect (fun c x cs => on_bank env c (fun env => AddCoins env x cs true))
    (fun c x w => on_bank env c (fun env => AddWei env x w))); [| |done|done|].
  - intros c c' x cs Hc. apply on_bank_changes; [done|]. intros. apply effect_AddCoins.
  - intros c c' x w Hw Hc. apply on_bank_changes; [done|]. intros env' He. rewrite <- Hbase, <- He, Z.mul_1_l. by apply effect_AddWei.
  - rewrite <- Hrun. unfold AddBalance, balance_op. rewrite (DB_bind_run (PrepareReplayedAddr a) _ _ _ _ eq_refl).
    by replace (- (1) * amt) with (- amt) by lia.
Qed.

(** ** Sequences of balance operations *)
Inductive balance_step := BSub (a : Address) (amt : Z) | BAdd (a : Address) (amt : Z).
Definition run_balance (o : balance_step) : DB (St := P * Bank.bank) (Ev := evm_event) (Err := bank_error) () :=
  match o with BSub a amt => SubBalance a amt | BAdd a amt => AddBalance a amt end.
Fixpoint run_balances (os : list balance_step) : DB (St := P * Bank.bank) (Ev := evm_event) (Err := bank_error) () :=
  match os with [] => mret tt | o :: os => _ ← run_balance o; run_balances os end.
Definition step_ok (o : balance_step) : Prop := match o with BSub _ amt | BAdd _ amt => 0 <= amt end.

(** What accounts hold together with the surplus, in wei. *)
Definition held_with_surplus s (d : string) : Z := total env (db_bank s) d + if bool_decide (BaseDenom = d) then surplus s else 0.

Lemma effect_held sg a amt s s' :
  balance_effect sg a amt s s' -> bank_wf (db_bank s') /\ (forall d, held_with_surplus s' d = held_with_surplus s d) /\
  forall d, deferred_total (db_bank s') d = deferred_total (db_bank s) d /\ supply (db_bank s') d = supply (db_bank s) d.
Proof.
  intros (_ & (Hwf & _ & T & D & S) & Hs). split; [done|]. unfold held_with_surplus. split; intros d.
  - rewrite T, Hs. simpl. case_bool_decide; lia.
  - rewrite D, S. simpl. lia.
Qed.

Lemma run_balance_effect o s s' :
  bank_wf (db_bank s) -> step_ok o -> run_balance o s = Some (s', tt) -> db_err s' = None ->
  exists sg a amt, balance_effect sg a amt s s'.
Proof.
  destruct o as [a amt|a amt]; intros Hwf Hok Hrun Herr.
  - exists (-1), a, amt. by apply SubBalance_effect.
  - exists 1, a, amt. by apply AddBalance_effect.
Qed.

(** An error stays until the end of the transaction. *)
Lemma bank_err op s s' e : StateDB.bank op s = Some (s', e) -> db_err s' = db_err s.
Proof.
  unfold StateDB.bank, mbind, DB_bind, asks, getCtx, mbind. simpl. destruct (op _) as [[c' err]|]; [|done]. simpl. by intros [= <- _].
Qed.

Lemma run_balance_err o s s' : run_balance o s = Some (s', tt) -> db_err s' = None -> db_err s = None.
Proof.
  assert (Hgen : forall op1 op2 z, (err ← StateDB.bank op1;
      match err with
      | Some e => set_err e
      | None => err ← StateDB.bank op2; match err with Some e => set_err e | None => add_surplus z end
      end) s = Some (s', tt) -> db_err s' = None -> db_err s = None).
  { intros op1 op2 z (s1 & [e1|] & H1 & H2)%DB_bind_inv; [by injection H2 as <-|]. rewrite <- (bank_err _ _ _ _ H1).
    apply DB_bind_inv in H2 as (s2 & [e2|] & H2 & H3); [by injection H3 as <-|]. rewrite <- (bank_err _ _ _ _ H2).
    unfold add_surplus in H3. rewrite (DB_bind_run temp _ _ _ _ eq_refl) in H3. destruct (int_add _ _); [|done]. by injection H3 as <-. }
  destruct o as [a amt|a amt]; simpl; unfold SubBalance, AddBalance; rewrite (DB_bind_run (PrepareReplayedAddr a) _ _ _ _ eq_refl);
    (case_bool_decide; [by intros [= <-]|]); unfold StateDB.SplitUseiWeiAmount;
    rewrite (DB_bind_run _ _ _ _ _ (getSeiAddress_run a s)), (DB_bind_run getCtx _ _ _ _ eq_refl); apply Hgen.
Qed.

Lemma run_balances_err os s s' : run_balances os s = Some (s', tt) -> db_err s' = None -> db_err s = None.
Proof.
  revert s. induction os as [|o os IH]; intros s Hrun Herr; [by injection Hrun as <-|].
  apply DB_bind_inv in Hrun as (s1 & [] & H1 & H2). eapply run_balance_err; [exact H1|]. by apply IH.
Qed.

Lemma balances_held os s s' :
  bank_wf (db_bank s) -> Forall step_ok os -> run_balances os s = Some (s', tt) -> db_err s' = None ->
  bank_wf (db_bank s') /\ (forall d, held_with_surplus s' d = held_with_surplus s d) /\
  forall d, deferred_total (db_bank s') d = deferred_total (db_bank s) d /\ supply (db_bank s') d = supply (db_bank s) d.
Proof.
  intros Hwf Hok. revert s Hwf. induction Hok as [|o os Ho Hok IH]; intros s Hwf Hrun Herr; [by injection Hrun as <-|].
  apply DB_bind_inv in Hrun as (s1 & [] & H1 & H2). pose proof (run_balances_err os s1 s' H2 Herr) as Herr1.
  destruct (run_balance_effect o s s1 Hwf Ho H1 Herr1) as (sg & a & amt & Heff).
  destruct (effect_held _ _ _ _ _ Heff) as (Hwf1 & Hh1 & Hs1). destruct (IH s1 Hwf1 H2 Herr) as (Hwf' & Hh & Hs).
  split; [done|]. split; intros d; [by rewrite Hh|]. destruct (Hs d) as [-> ->]. apply Hs1.
Qed.

(** C10. Balance operations neither create nor destroy value: after any sequence of
    [SubBalance] and [AddBalance] through the state database, over the keeper and the
    bank, that ends without an error, the bank is well formed, what its accounts hold
    together with the surplus is what it was, to the wei and in every denomination, and
    the deferred balances and the supply records are untouched. *)
Theorem balances_conserve os s s' :
  bank_wf (db_bank s) -> Forall step_ok os -> run_balances os s = Some (s', tt) -> db_err s' = None ->
  bank_wf (db_bank s') /\ (forall d, held_with_surplus s' d = held_with_surplus s d) /\
  forall d, deferred_total (db_bank s') d = deferred_total (db_bank s) d /\ supply (db_bank s') d = supply (db_bank s) d.
Proof. apply balances_held. Qed.
End Surplus.
