(* ===== verification/Proto.v ===== *)
(** The protobuf wire format as the generated code of the modules reads and writes it
    ([x/evm/types/types.pb.go], [x/evm/types/receipt.pb.go]): varints, the buffers that
    [MarshalToSizedBuffer] fills from the end, the loop of [Unmarshal] and the skipping
    of unknown fields, with the texts of [sdk.Int] that are embedded in messages.

    The generated code repeats the same blocks for every message; each block is one
    definition here.  [int] and [uint64] have 64 bits, and an index that is out of the
    range of a slice is a [Panic]. *)
From stdpp Require Import base gmap sets list.
From Stdlib Require Import ZArith Lia.
From S2P Require Import Prelude Coins CoinsSpec Decimal DecimalSpec.
Local Open Scope Z_scope.

Inductive proto_error :=
| ErrInvalidLength | ErrIntOverflow | ErrUnexpectedEndOfGroup | ErrUnexpectedEOF
| ErrEndGroup | ErrIllegalTag | ErrWireType | ErrIllegalWireType | ErrIntText | ErrTimestamp.

(** Results of decoding. *)
Inductive res (A : Type) := Ok (a : A) | Err (e : proto_error) | Panic.
Arguments Ok {A}.
Arguments Err {A}.
Arguments Panic {A}.

#[export] Instance res_ret : MRet res := fun _ a => Ok a.
#[export] Instance res_bind : MBind res := fun A B f m => match m with Ok a => f a | Err e => Err e | Panic => Panic end.

Definition uint64 (z : Z) : Z := z mod 2 ^ 64.
Definition uint32 (z : Z) : Z := z mod 2 ^ 32.
Definition int64 (z : Z) : Z := (z + 2 ^ 63) mod 2 ^ 64 - 2 ^ 63.
Definition int32 (z : Z) : Z := (z + 2 ^ 31) mod 2 ^ 32 - 2 ^ 31.

Definition len (b : bytes) : Z := Z.of_nat (length b).
Definition byte_at (dAtA : bytes) (i : Z) : res Z :=
  if bool_decide (i < 0) then Panic else match dAtA !! Z.to_nat i with Some b => Ok b | None => Panic end.
(** [dAtA[i:j]] *)
Definition slice (dAtA : bytes) (i j : Z) : res bytes :=
  if bool_decide (0 <= i /\ i <= j /\ j <= len dAtA) then Ok (take (Z.to_nat (j - i)) (drop (Z.to_nat i) dAtA)) else Panic.

(** ** Writing, from the end of the buffer: the buffer and the position reached *)
Definition buf : Type := bytes * Z.

(** [i--; dAtA[i] = b] *)
Definition put_byte (b : Z) (w : buf) : option buf :=
  let '(dAtA, i) := w in
  let i := i - 1 in
  if bool_decide (0 <= i < len dAtA) then Some (<[Z.to_nat i := b]> dAtA, i) else None.

(** [i -= len(src); copy(dAtA[i:], src)] *)
Definition put_raw (src : bytes) (w : buf) : option buf :=
  let '(dAtA, i) := w in
  let i := i - len src in
  if bool_decide (0 <= i <= len dAtA) then
    let n := Z.to_nat i in
    Some (take n dAtA ++ take (length dAtA - n) src ++ drop (n + length src) dAtA, i)
  else None.

Definition sov (x : Z) : Z := (BitLen (Z.lor x 1) + 6) / 7.

Fixpoint varint_stores (fuel : nat) (dAtA : bytes) (offset v : Z) : option bytes :=
  match fuel with
  | O => None
  | S fuel =>
      if bool_decide (0 <= offset < len dAtA) then
        if bool_decide (128 <= v) then
          varint_stores fuel (<[Z.to_nat offset := Z.lor (Z.land v 127) 128]> dAtA) (offset + 1) (Z.shiftr v 7)
        else Some (<[Z.to_nat offset := v]> dAtA)
      else None
  end.

Definition encodeVarint (v : Z) (w : buf) : option buf :=
  let '(dAtA, offset) := w in
  let base := offset - sov v in
  dAtA ← varint_stores 10 dAtA base v;
  Some (dAtA, base).

Definition field_varint (tag v : Z) (w : buf) : option buf :=
  if bool_decide (v <> 0) then w ← encodeVarint v w; put_byte tag w else Some w.
Definition field_always (tag : Z) (s : bytes) (w : buf) : option buf :=
  w ← put_raw s w; w ← encodeVarint (len s) w; put_byte tag w.
Definition field_bytes (tag : Z) (s : bytes) (w : buf) : option buf :=
  if bool_decide (s <> []) then field_always tag s w else Some w.
(** [LittleEndian.PutUint64] and [LittleEndian.Uint64] *)
Fixpoint le_bytes (n : nat) (x : Z) : bytes := match n with O => [] | S n => Z.land x 255 :: le_bytes n (Z.shiftr x 8) end.
Definition from_le (b : bytes) : Z := foldr (fun x acc => Z.lor x (Z.shiftl acc 8)) 0 b.
Definition field_fixed64 (tag v : Z) (w : buf) : option buf :=
  if bool_decide (v <> 0) then w ← put_raw (le_bytes 8 (uint64 v)) w; put_byte tag w else Some w.
Definition field_bool (tag : Z) (b : bool) (w : buf) : option buf :=
  if b then w ← put_byte (if b then 1 else 0) w; put_byte tag w else Some w.
(** [for iNdEx := len(l) - 1; iNdEx >= 0; iNdEx--] *)
Fixpoint field_repeated {A} (put : A -> buf -> option buf) (l : list A) (w : buf) : option buf :=
  match l with [] => Some w | x :: l => w ← field_repeated put l w; put x w end.

(** A nested message is written into [dAtA[:i]]. *)
Definition put_message (MarshalToSizedBuffer : bytes -> option (bytes * Z)) (tag : Z) (w : buf) : option buf :=
  let '(dAtA, i) := w in
  if bool_decide (0 <= i <= len dAtA) then
    '(sub, size) ← MarshalToSizedBuffer (take (Z.to_nat i) dAtA);
    w ← encodeVarint size (sub ++ drop (Z.to_nat i) dAtA, i - size);
    put_byte tag w
  else None.

(** [MarshalToSizedBuffer] and [Marshal], from the fields of a message. *)
Definition to_sized_buffer (fields : buf -> option buf) (dAtA : bytes) : option (bytes * Z) :=
  '(dAtA', i) ← fields (dAtA, len dAtA);
  Some (dAtA', len dAtA - i).
Definition marshal (Size : Z) (fields : buf -> option buf) : option bytes :=
  '(dAtA, n) ← to_sized_buffer fields (replicate (Z.to_nat Size) 0);
  if bool_decide (0 <= n <= len dAtA) then Some (take (Z.to_nat n) dAtA) else None.

Definition size_bytes (s : bytes) : Z := if bool_decide (0 < len s) then 1 + len s + sov (len s) else 0.
Definition size_fixed64 (v : Z) : Z := if bool_decide (v <> 0) then 9 else 0.
Definition size_varint (v : Z) : Z := if bool_decide (v <> 0) then 1 + sov v else 0.

(** ** Reading *)
Fixpoint varint_loop (fuel : nat) (wrap : Z -> Z) (dAtA : bytes) (iNdEx shift acc : Z) : res (Z * Z) :=
  match fuel with
  | O => Panic
  | S fuel =>
      if bool_decide (64 <= shift) then Err ErrIntOverflow
      else if bool_decide (len dAtA <= iNdEx) then Err ErrUnexpectedEOF
      else
        b ← byte_at dAtA iNdEx;
        let acc := wrap (Z.lor acc (Z.shiftl (Z.land b 127) shift)) in
        if bool_decide (b < 128) then Ok (acc, iNdEx + 1) else varint_loop fuel wrap dAtA (iNdEx + 1) (shift + 7) acc
  end.
Definition read_varint (wrap : Z -> Z) (dAtA : bytes) (iNdEx : Z) : res (Z * Z) := varint_loop 11 wrap dAtA iNdEx 0 0.

(** The checks on a length, after it was read at [iNdEx]. *)
Definition read_slice (dAtA : bytes) (iNdEx byteLen : Z) : res (bytes * Z) :=
  if bool_decide (byteLen < 0) then Err ErrInvalidLength
  else
    let postIndex := int64 (iNdEx + byteLen) in
    if bool_decide (postIndex < 0) then Err ErrInvalidLength
    else if bool_decide (len dAtA < postIndex) then Err ErrUnexpectedEOF
    else s ← slice dAtA iNdEx postIndex; Ok (s, postIndex).
(** Lengths of [bytes] fields and of messages are read as [int], those of strings as
    [uint64] and then converted. *)
Definition read_bytes (dAtA : bytes) (iNdEx : Z) : res (bytes * Z) :=
  '(byteLen, iNdEx) ← read_varint int64 dAtA iNdEx; read_slice dAtA iNdEx byteLen.
Definition read_string (dAtA : bytes) (iNdEx : Z) : res (bytes * Z) :=
  '(stringLen, iNdEx) ← read_varint uint64 dAtA iNdEx; read_slice dAtA iNdEx (int64 stringLen).

Definition read_fixed64 (dAtA : bytes) (iNdEx : Z) : res (Z * Z) :=
  if bool_decide (len dAtA < int64 (iNdEx + 8)) then Err ErrUnexpectedEOF
  else s ← slice dAtA iNdEx (len dAtA); if bool_decide (len s < 8) then Panic else Ok (int64 (from_le (take 8 s)), int64 (iNdEx + 8)).

Fixpoint skip_loop (fuel : nat) (dAtA : bytes) (iNdEx depth : Z) : res Z :=
  match fuel with
  | O => Panic
  | S fuel =>
      if bool_decide (iNdEx < len dAtA) then
        '(wire, iNdEx) ← read_varint uint64 dAtA iNdEx;
        '(iNdEx, depth) ← match Z.land wire 7 with
          | 0 => '(_, iNdEx) ← read_varint uint64 dAtA iNdEx; Ok (iNdEx, depth)
          | 1 => Ok (int64 (iNdEx + 8), depth)
          | 2 => '(length, iNdEx) ← read_varint int64 dAtA iNdEx;
                 if bool_decide (length < 0) then Err ErrInvalidLength else Ok (int64 (iNdEx + length), depth)
          | 3 => Ok (iNdEx, depth + 1)
          | 4 => if bool_decide (depth = 0) then Err ErrUnexpectedEndOfGroup else Ok (iNdEx, depth - 1)
          | 5 => Ok (int64 (iNdEx + 4), depth)
          | _ => Err ErrIllegalWireType
          end;
        if bool_decide (iNdEx < 0) then Err ErrInvalidLength
        else if bool_decide (depth = 0) then Ok iNdEx
        else skip_loop fuel dAtA iNdEx depth
      else Err ErrUnexpectedEOF
  end.
Definition skip (dAtA : bytes) : res Z := skip_loop (S (length dAtA)) dAtA 0 0.

Section Unmarshal.
Context {M : Type}.
(** The case of a known field, given the wire type; [None] is the default case. *)
Definition cases : Type := Z -> option (Z -> M -> bytes -> Z -> res (M * Z)).

Definition field_case {A} (wire : Z) (read : bytes -> Z -> res (A * Z)) (set : A -> M -> res M) :
    Z -> M -> bytes -> Z -> res (M * Z) := fun wireType m dAtA iNdEx =>
  if bool_decide (wireType <> wire) then Err ErrWireType
  else '(v, iNdEx) ← read dAtA iNdEx; m ← set v m; Ok (m, iNdEx).

Fixpoint unmarshal_loop (fuel : nat) (fields : cases) (dAtA : bytes) (iNdEx : Z) (m : M) : res M :=
  match fuel with
  | O => Panic
  | S fuel =>
      if bool_decide (iNdEx < len dAtA) then
        let preIndex := iNdEx in
        '(wire, iNdEx) ← read_varint uint64 dAtA iNdEx;
        let fieldNum := int32 (Z.shiftr wire 3) in
        let wireType := Z.land wire 7 in
        if bool_decide (wireType = 4) then Err ErrEndGroup
        else if bool_decide (fieldNum <= 0) then Err ErrIllegalTag
        else
          '(m, iNdEx) ← match fields fieldNum with
            | Some f => f wireType m dAtA iNdEx
            | None =>
                rest ← slice dAtA preIndex (len dAtA);
                skippy ← skip rest;
                if bool_decide (skippy < 0 \/ int64 (preIndex + skippy) < 0) then Err ErrInvalidLength
                else if bool_decide (len dAtA < int64 (preIndex + skippy)) then Err ErrUnexpectedEOF
                else Ok (m, int64 (preIndex + skippy))
            end;
          unmarshal_loop fuel fields dAtA iNdEx m
      else if bool_decide (len dAtA < iNdEx) then Err ErrUnexpectedEOF else Ok m
  end.
Definition unmarshal (fields : cases) (dAtA : bytes) (m : M) : res M :=
  unmarshal_loop (S (length dAtA)) fields dAtA 0 m.
End Unmarshal.

(** ** Texts of [sdk.Int] *)
Definition MarshalText (z : Z) : bytes := if bool_decide (z < 0) then 45 :: digits (- z) else digits z.
(** A nil [Int] is marshalled as zero. *)
Definition int_Marshal (i : option Z) : bytes := MarshalText (default 0 i).

(** [big.Int.UnmarshalText] takes the base from a prefix and allows underscores between
    digits; [prev] is what was read last. *)
Inductive scanned := ScDigit | ScSeparator | ScStart.
Definition digit_of (ch : Z) : Z :=
  if is_digit ch then ch - 48
  else if bool_decide (97 <= ch <= 122) then ch - 97 + 10
  else if bool_decide (65 <= ch <= 90) then ch - 65 + 10
  else 63.
Fixpoint scan_digits (b : Z) (s : bytes) (prev : scanned) (count : nat) (acc : Z) : option (nat * Z) :=
  match s with
  | [] => match prev with ScSeparator => None | _ => Some (count, acc) end
  | ch :: s =>
      if bool_decide (ch = 95) then match prev with ScDigit => scan_digits b s ScSeparator count acc | _ => None end
      else if bool_decide (digit_of ch < b) then scan_digits b s ScDigit (S count) (acc * b + digit_of ch)
      else None
  end.
Definition some_digits (r : option (nat * Z)) : option Z := match r with Some (S _, z) => Some z | _ => None end.
Definition scan_nat (s : bytes) : option Z :=
  match s with
  | [48] => Some 0
  | 48 :: ch :: s' =>
      if bool_decide (ch = 98 \/ ch = 66) then some_digits (scan_digits 2 s' ScDigit 0 0)
      else if bool_decide (ch = 111 \/ ch = 79) then some_digits (scan_digits 8 s' ScDigit 0 0)
      else if bool_decide (ch = 120 \/ ch = 88) then some_digits (scan_digits 16 s' ScDigit 0 0)
      else snd <$> scan_digits 8 (ch :: s') ScDigit 0 0
  | _ => some_digits (scan_digits 10 s ScStart 0 0)
  end.
Definition UnmarshalText (s : bytes) : option Z :=
  match s with
  | 43 :: s => scan_nat s
  | 45 :: s => Z.opp <$> scan_nat s
  | _ => scan_nat s
  end.

(** What [Unmarshal] leaves in the [Int]: nil for a text that is too long, and a value
    that is not specified, here [None] too, for a text that is not a number. *)
Definition int_set (data : bytes) : option Z :=
  if bool_decide (100 < len data) then None else if bool_decide (data = []) then Some 0 else UnmarshalText data.

Definition int_Unmarshal (data : bytes) : option Z :=
  z ← int_set data;
  if bool_decide (maxBitLen < BitLen z) then None else Some z.
