(* ===== verification/ProtoSpec.v ===== *)
(** The wire format: what the writers put into a buffer, what the readers make of it,
    and that reading never leaves the bounds of its input. *)
From stdpp Require Import base gmap sets list.
From Stdlib Require Import ZArith Lia.
From S2P Require Import Prelude Coins CoinsSpec Decimal DecimalSpec Proto.
Local Open Scope Z_scope.

(** ** Varints *)
Lemma lor_disjoint a b : Z.land a b = 0 -> Z.lor a b = a + b.
Proof. intros H. by rewrite <- Z.lxor_lor, <- Z.add_nocarry_lxor by done. Qed.

Lemma lor_high a x n : 0 <= n -> 0 <= a < 2 ^ n -> Z.lor a (Z.shiftl x n) = a + x * 2 ^ n.
Proof.
  intros Hn Ha. rewrite lor_disjoint; [by rewrite Z.shiftl_mul_pow2 by done|].
  apply Z.bits_inj'. intros k Hk. rewrite Z.land_spec, Z.bits_0. destruct (decide (k < n)).
  - by rewrite Z.shiftl_spec_low, andb_false_r.
  - replace a with (a mod 2 ^ n) by (apply Z.mod_small; lia). by rewrite Z.mod_pow2_bits_high by lia.
Qed.

Lemma land_127 v : Z.land v 127 = v mod 128.
Proof. change 127 with (Z.ones 7). by rewrite Z.land_ones. Qed.

Lemma low_byte v : Z.lor (Z.land v 127) 128 = v mod 128 + 128.
Proof.
  rewrite land_127. change 128 with (Z.shiftl 1 7) at 2. rewrite lor_high; [done|done|]. change (2 ^ 7) with 128.
  by apply Z.mod_pos_bound.
Qed.

(** The encoding of a number, by groups of seven bits. *)
Fixpoint groups (fuel : nat) (v : Z) : bytes :=
  match fuel with
  | O => []
  | S fuel => if bool_decide (128 <= v) then v mod 128 + 128 :: groups fuel (v / 128) else [v]
  end.
Definition varint (v : Z) : bytes := groups 10 v.
#[global] Arguments varint : simpl never.

Lemma groups_fuel f g v : 0 <= v < 2 ^ (7 * Z.of_nat f) -> (1 <= f <= g)%nat -> groups f v = groups g v.
Proof.
  revert g v. induction f as [|f IH]; intros g v Hv Hf; [lia|]. destruct g as [|g]; [lia|]. cbn [groups].
  case_bool_decide as Hb; [|done]. f_equal. destruct f as [|f].
  { change (2 ^ (7 * Z.of_nat 1)) with 128 in Hv. lia. }
  apply IH; [|lia]. split; [apply Z.div_pos; lia|]. apply Z.div_lt_upper_bound; [lia|].
  change 128 with (2 ^ 7). rewrite <- Z.pow_add_r by lia. replace (7 + 7 * Z.of_nat (S f)) with (7 * Z.of_nat (S (S f))) by lia. lia.
Qed.

Lemma sov_small v : 0 <= v < 128 -> sov v = 1.
Proof.
  intros Hv. unfold sov, BitLen. rewrite bool_decide_eq_false_2 by (rewrite Z.lor_eq_0_iff; lia).
  rewrite Z.abs_eq by (apply Z.lor_nonneg; lia). rewrite Z.log2_lor by lia. change (Z.log2 1) with 0.
  assert (0 <= Z.log2 v < 7).
  { split; [apply Z.log2_nonneg|]. destruct (decide (v = 0)) as [->|]; [done|]. apply Z.log2_lt_pow2; [lia|]. change (2 ^ 7) with 128. lia. }
  rewrite Z.max_l by lia. symmetry. apply (Z.div_unique _ _ _ (Z.log2 v)); lia.
Qed.

Lemma sov_step v : 128 <= v -> sov v = 1 + sov (v / 128).
Proof.
  intros Hv. assert (Hq : 0 < v / 128) by (apply Z.div_str_pos; lia).
  assert (Hl : forall x, 0 < x -> sov x = (Z.log2 x + 7) / 7).
  { intros x Hx. unfold sov, BitLen. rewrite bool_decide_eq_false_2 by (rewrite Z.lor_eq_0_iff; lia).
    rewrite Z.abs_eq by (apply Z.lor_nonneg; lia). rewrite Z.log2_lor by lia. change (Z.log2 1) with 0.
    pose proof (Z.log2_nonneg x). f_equal. lia. }
  rewrite !Hl by lia. change (v / 128) with (v / 2 ^ 7). rewrite <- Z.shiftr_div_pow2 by lia.
  rewrite Z.log2_shiftr by lia. assert (7 <= Z.log2 v) by (apply Z.log2_le_pow2; [lia|]; change (2 ^ 7) with 128; lia).
  rewrite Z.max_r by lia. replace (Z.log2 v + 7) with (Z.log2 v - 7 + 7 + 1 * 7) by lia. rewrite Z.div_add by lia. lia.
Qed.

Lemma groups_length f v : 0 <= v < 2 ^ (7 * Z.of_nat f) -> (1 <= f)%nat -> len (groups f v) = sov v.
Proof.
  revert v. induction f as [|f IH]; intros v Hv Hf; [lia|]. cbn [groups]. case_bool_decide as Hb; [|by rewrite sov_small by lia].
  destruct f as [|f]; [change (2 ^ (7 * Z.of_nat 1)) with 128 in Hv; lia|].
  rewrite sov_step by done. unfold len in *. cbn [length]. rewrite Nat2Z.inj_succ, IH; [lia| |lia].
  split; [apply Z.div_pos; lia|]. apply Z.div_lt_upper_bound; [lia|].
  change 128 with (2 ^ 7). rewrite <- Z.pow_add_r by lia. replace (7 + 7 * Z.of_nat (S f)) with (7 * Z.of_nat (S (S f))) by lia. lia.
Qed.

Lemma varint_length v : 0 <= v < 2 ^ 64 -> len (varint v) = sov v.
Proof. intros Hv. apply groups_length; [|lia]. change (7 * Z.of_nat 10) with 70. lia. Qed.

(** ** What a writer puts in front of what is there *)
Definition filled (w : buf) (s : bytes) : Prop :=
  0 <= w.2 /\ len w.1 = w.2 + len s /\ drop (Z.to_nat w.2) w.1 = s.
Definition writes (f : buf -> option buf) (e : bytes) : Prop :=
  forall w s, filled w s -> len e <= w.2 -> exists w', f w = Some w' /\ filled w' (e ++ s) /\ w'.2 = w.2 - len e.

Lemma len_app a b : len (a ++ b) = len a + len b.
Proof. unfold len. rewrite length_app. lia. Qed.
Lemma len_cons x b : len (x :: b) = 1 + len b.
Proof. unfold len. simpl. lia. Qed.
Lemma len_nonneg b : 0 <= len b.
Proof. unfold len. lia. Qed.

Lemma writes_nil : writes Some [].
Proof. intros w s Hw _. exists w. split; [done|]. split; [done|]. unfold len. simpl. lia. Qed.

Lemma writes_bind f g e e' : writes f e -> writes g e' -> writes (fun w => w ← f w; g w) (e' ++ e).
Proof.
  intros Hf Hg w s Hw Hl. rewrite len_app in Hl. pose proof (len_nonneg e'). pose proof (len_nonneg e).
  destruct (Hf w s Hw) as (w1 & -> & Hw1 & Hi1); [lia|]. simpl.
  destruct (Hg w1 (e ++ s) Hw1) as (w2 & -> & Hw2 & Hi2); [lia|]. exists w2. rewrite <- app_assoc, len_app. split; [done|]. split; [done|lia].
Qed.

(** A buffer after a store of [e] at [i], in front of [s]. *)
Lemma filled_at d i e s d' :
  0 <= i -> length d' = length d -> len d = i + len e + len s -> drop (Z.to_nat i) d' = e ++ s -> filled (d', i) (e ++ s).
Proof. intros Hi Hl Hd Hs. split; [done|]. split; [|done]. simpl. rewrite len_app. unfold len in *. lia. Qed.

Lemma writes_raw src : writes (put_raw src) src.
Proof.
  intros [d i] s (H1 & H2 & H3) Hl. simpl in *. unfold put_raw. pose proof (len_nonneg s). pose proof (len_nonneg src).
  rewrite bool_decide_eq_true_2 by lia. eexists. split; [done|]. split; [|done].
  set (n := Z.to_nat (i - len src)). assert (Hn : (n + length src)%nat = Z.to_nat i) by (unfold n, len; unfold len in Hl; lia).
  assert (Hd : (Z.to_nat i <= length d)%nat) by (unfold len in *; lia).
  apply (filled_at d); [lia| |lia|].
  - rewrite !length_app, !length_take, length_drop. lia.
  - fold n. rewrite drop_app_ge by (rewrite length_take; lia). rewrite length_take. replace (n - n `min` length d)%nat with 0%nat by lia.
    rewrite drop_0, take_ge by lia. by rewrite Hn, H3.
Qed.

Lemma insert_split (d : bytes) n b : (n < length d)%nat -> <[n := b]> d = take n d ++ [b] ++ drop (S n) d.
Proof. intros Hn. by rewrite insert_take_drop by done. Qed.

Lemma writes_byte b : writes (put_byte b) [b].
Proof.
  intros [d i] s (H1 & H2 & H3) Hl. simpl in *. unfold put_byte. pose proof (len_nonneg s). change (len [b]) with 1 in *.
  rewrite bool_decide_eq_true_2 by lia. eexists. split; [done|]. split; [|done].
  apply (filled_at d (i - 1) [b] s); [lia|by rewrite length_insert| |].
  - change (len [b]) with 1. lia.
  - assert (Hlt : (Z.to_nat (i - 1) < length d)%nat) by (unfold len in *; lia).
    rewrite insert_split, drop_app_ge by (done || rewrite length_take; lia). rewrite length_take.
    replace (_ - _)%nat with 0%nat by lia. simpl. f_equal. rewrite <- H3. f_equal. lia.
Qed.

Lemma groups_bound f v : 0 <= v < 2 ^ (7 * Z.of_nat (S (S f))) -> 0 <= v / 128 < 2 ^ (7 * Z.of_nat (S f)).
Proof.
  intros Hv. split; [apply Z.div_pos; lia|]. apply Z.div_lt_upper_bound; [lia|].
  change 128 with (2 ^ 7). rewrite <- Z.pow_add_r by lia. replace (7 + 7 * Z.of_nat (S f)) with (7 * Z.of_nat (S (S f))) by lia. lia.
Qed.

Lemma stores_spec f d n v :
  0 <= v < 2 ^ (7 * Z.of_nat f) -> (1 <= f)%nat -> (n + length (groups f v) <= length d)%nat ->
  varint_stores f d (Z.of_nat n) v = Some (take n d ++ groups f v ++ drop (n + length (groups f v)) d).
Proof.
  revert d n v. induction f as [|f IH]; intros d n v Hv Hf Hl; [lia|]. cbn [groups varint_stores] in *.
  assert (Hn : (n < length d)%nat) by (case_bool_decide; simpl in Hl; lia).
  rewrite bool_decide_eq_true_2 by (unfold len; lia). rewrite Nat2Z.id. destruct (decide (128 <= v)) as [Hb|Hb].
  2: { rewrite !bool_decide_eq_false_2 by done. simpl. rewrite insert_split by done. do 3 f_equal. f_equal. lia. }
  rewrite !bool_decide_eq_true_2 in * by done. destruct f as [|f]; [change (2 ^ (7 * Z.of_nat 1)) with 128 in Hv; lia|].
  rewrite Z.shiftr_div_pow2, low_byte by lia. change (2 ^ 7) with 128. replace (Z.of_nat n + 1) with (Z.of_nat (S n)) by lia.
  cbn [length] in *. rewrite IH; [|by apply groups_bound|lia|rewrite length_insert; lia].
  rewrite insert_split by done. f_equal.
  assert (Ht : length (take n d ++ [v mod 128 + 128]) = S n) by (rewrite length_app, length_take; simpl; lia).
  rewrite (app_assoc (take n d)), take_app_length' by done. rewrite <- app_assoc. f_equal. cbn [app]. do 2 f_equal.
  rewrite drop_app_ge by (rewrite Ht; lia). rewrite Ht, drop_drop. f_equal. lia.
Qed.

Lemma writes_varint v : 0 <= v < 2 ^ 64 -> writes (encodeVarint v) (varint v).
Proof.
  intros Hv [d i] s (H1 & H2 & H3) Hl. cbn [fst snd] in *. unfold encodeVarint. pose proof (len_nonneg s).
  rewrite <- varint_length by done. assert (Hv' : 0 <= v < 2 ^ (7 * Z.of_nat 10)) by (change (7 * Z.of_nat 10) with 70; lia).
  pose proof (stores_spec 10 d (Z.to_nat (i - len (varint v))) v Hv') as Hst. fold (varint v) in Hst.
  assert (Hn : (Z.to_nat (i - len (varint v)) + length (varint v))%nat = Z.to_nat i) by (unfold len in *; lia).
  rewrite Z2Nat.id in Hst by lia. rewrite Hst by (unfold len in *; lia). cbn [mbind option_bind].
  eexists. split; [done|]. split; [|done]. apply (filled_at d); [lia| |lia|].
  - rewrite Hn, !length_app, length_take, length_drop. unfold len in *. lia.
  - rewrite drop_app_ge by (rewrite length_take; lia). rewrite length_take, Hn, H3.
    replace (_ - _)%nat with 0%nat by (unfold len in *; lia). done.
Qed.

(** The fields of a message. *)
Definition enc_varint (tag v : Z) : bytes := if bool_decide (v <> 0) then tag :: varint v else [].
Definition enc_always (tag : Z) (s : bytes) : bytes := tag :: varint (len s) ++ s.
Definition enc_bytes (tag : Z) (s : bytes) : bytes := if bool_decide (s <> []) then enc_always tag s else [].
Definition enc_bool (tag : Z) (b : bool) : bytes := if b then [tag; 1] else [].

Lemma writes_field_varint tag v : 0 <= v < 2 ^ 64 -> writes (field_varint tag v) (enc_varint tag v).
Proof.
  intros Hv. unfold field_varint, enc_varint. case_bool_decide; [|apply writes_nil].
  exact (writes_bind _ _ _ _ (writes_varint v Hv) (writes_byte tag)).
Qed.
Lemma writes_field_always tag s : len s < 2 ^ 64 -> writes (field_always tag s) (enc_always tag s).
Proof.
  intros Hs. pose proof (len_nonneg s).
  exact (writes_bind _ _ _ _ (writes_raw s) (writes_bind _ _ _ _ (writes_varint (len s) (conj H Hs)) (writes_byte tag))).
Qed.
Lemma writes_field_bytes tag s : len s < 2 ^ 64 -> writes (field_bytes tag s) (enc_bytes tag s).
Proof.
  intros Hs. unfold field_bytes, enc_bytes. case_bool_decide; [by apply writes_field_always|apply writes_nil].
Qed.
Definition enc_fixed64 (tag v : Z) : bytes := if bool_decide (v <> 0) then tag :: le_bytes 8 (uint64 v) else [].
Lemma writes_field_fixed64 tag v : writes (field_fixed64 tag v) (enc_fixed64 tag v).
Proof.
  unfold field_fixed64, enc_fixed64. case_bool_decide; [|apply writes_nil].
  exact (writes_bind _ _ _ _ (writes_raw (le_bytes 8 (uint64 v))) (writes_byte tag)).
Qed.
Lemma length_le_bytes n x : length (le_bytes n x) = n.
Proof. revert x. induction n as [|n IH]; intros x; [done|]. simpl. by rewrite IH. Qed.
Lemma from_le_bytes n x : 0 <= x < 2 ^ (8 * Z.of_nat n) -> from_le (le_bytes n x) = x.
Proof.
  revert x. induction n as [|n IH]; intros x Hx; [simpl in *; lia|]. cbn [le_bytes]. unfold from_le. cbn [foldr]. fold (from_le (le_bytes n (Z.shiftr x 8))).
  assert (Hs : Z.shiftr x 8 = x / 256) by (by rewrite Z.shiftr_div_pow2 by done). rewrite IH.
  - change 255 with (Z.ones 8). rewrite Z.land_ones by done. change (2 ^ 8) with 256. rewrite lor_high; [|done|apply Z.mod_pos_bound; done].
    rewrite Hs. pose proof (Z.div_mod x 256). change (2 ^ 8) with 256. lia.
  - rewrite Hs. split; [apply Z.div_pos; lia|]. apply Z.div_lt_upper_bound; [lia|]. replace (8 * Z.of_nat (S n)) with (8 + 8 * Z.of_nat n) in Hx by lia.
    rewrite Z.pow_add_r in Hx by lia. change (2 ^ 8) with 256 in Hx. lia.
Qed.
Lemma writes_field_bool tag b : writes (field_bool tag b) (enc_bool tag b).
Proof.
  destruct b; [|apply writes_nil]. exact (writes_bind _ _ _ _ (writes_byte 1) (writes_byte tag)).
Qed.
Lemma writes_repeated {A} (put : A -> buf -> option buf) (enc : A -> bytes) l :
  (forall x, x ∈ l -> writes (put x) (enc x)) -> writes (field_repeated put l) (mjoin (enc <$> l)).
Proof.
  intros Hx. induction l as [|x l IH]; [apply writes_nil|]. simpl.
  refine (writes_bind _ _ _ _ (IH _) (Hx x _)); [intros y Hy; apply Hx; by right|left].
Qed.

(** A message is its fields, in a buffer of its size. *)
Lemma to_sized_buffer_spec fields e d :
  writes fields e -> len e <= len d -> exists d', to_sized_buffer fields d = Some (d', len e) /\ length d' = length d /\  drop (Z.to_nat (len d - len e)) d' = e.
Proof.
  intros Hf Hl. destruct (Hf (d, len d) []) as ([d' i] & Hrun & (H1 & H2 & H3) & Hi); [|done|].
  { split; [apply len_nonneg|]. split; [unfold len; simpl; lia|]. simpl. apply drop_ge. unfold len. lia. }
  simpl in *. exists d'. unfold to_sized_buffer. rewrite Hrun. simpl. subst i. rewrite app_nil_r in *.
  split; [do 2 f_equal; lia|]. split; [unfold len in *; lia|done].
Qed.

Lemma marshal_spec Size fields e : writes fields e -> Size = len e -> marshal Size fields = Some e.
Proof.
  intros Hf ->. unfold marshal. set (d := replicate _ 0). assert (Hd : len d = len e) by (unfold d, len; rewrite length_replicate; lia).
  destruct (to_sized_buffer_spec fields e d Hf) as (d' & -> & Hl & Hs); [lia|]. simpl.
  assert (Hd' : len d' = len e) by (unfold len in *; lia). pose proof (len_nonneg e).
  rewrite bool_decide_eq_true_2 by lia. rewrite take_ge by (unfold len in *; lia). f_equal.
  rewrite <- Hs, Hd. by rewrite Z.sub_diag.
Qed.

Lemma writes_message fields tag e : len e < 2 ^ 64 -> writes fields e -> writes (put_message (to_sized_buffer fields) tag) (enc_always tag e).
Proof.
  intros He Hf [d i] s (H1 & H2 & H3) Hl. cbn [fst snd] in *. unfold put_message. pose proof (len_nonneg s). pose proof (len_nonneg e).
  rewrite bool_decide_eq_true_2 by lia. set (p := take (Z.to_nat i) d).
  assert (Hp : len p = i) by (unfold p, len in *; rewrite length_take; lia).
  assert (Hle : len e <= i).
  { unfold enc_always in Hl. rewrite len_cons, len_app in Hl. pose proof (len_nonneg (varint (len e))). lia. }
  destruct (to_sized_buffer_spec fields e p Hf) as (p' & Hrun & Hlen & Hs); [lia|]. rewrite Hrun. cbn [mbind option_bind]. rewrite H3.
  assert (Hfill : filled (p' ++ s, i - len e) (e ++ s)).
  { split; [simpl; lia|]. split; simpl; [rewrite !len_app; unfold len in *; lia|].
    rewrite drop_app_le by (unfold len in *; lia). rewrite Hp in Hs. by rewrite Hs. }
  destruct (writes_bind _ _ _ _ (writes_varint (len e) (conj H0 He)) (writes_byte tag) _ _ Hfill) as (w & Hw & Hfw & Hi).
  { simpl. unfold enc_always in Hl. rewrite len_cons, len_app in Hl. rewrite len_cons. unfold len in *. simpl. lia. }
  exists w. split; [exact Hw|]. unfold enc_always. simpl in Hfw, Hi.
  simpl. rewrite <- app_assoc. split; [done|]. rewrite Hi, !len_cons, len_app. lia.
Qed.

(** ** Reading what was written *)
Definition at_ (d : bytes) (i : Z) (s : bytes) : Prop := 0 <= i <= len d /\ drop (Z.to_nat i) d = s.

Lemma at_start d : at_ d 0 d.
Proof. split; [|done]. pose proof (len_nonneg d). lia. Qed.

Lemma at_app d i s s' : at_ d i (s ++ s') -> at_ d (i + len s) s'.
Proof.
  intros [Hi Hd]. assert (Hl : len d = i + len s + len s').
  { apply (f_equal length) in Hd. rewrite length_drop, length_app in Hd. unfold len in *. lia. }
  pose proof (len_nonneg s). pose proof (len_nonneg s'). split; [lia|].
  replace (Z.to_nat (i + len s)) with (Z.to_nat i + length s)%nat by (unfold len; lia). rewrite <- drop_drop, Hd. by rewrite drop_app_length.
Qed.

Lemma at_cons d i b s : at_ d i (b :: s) -> at_ d (i + 1) s.
Proof. apply (at_app d i [b] s). Qed.

Lemma at_byte d i b s : at_ d i (b :: s) -> byte_at d i = Ok b /\ i < len d.
Proof.
  intros [Hi Hd]. unfold byte_at. rewrite bool_decide_eq_false_2 by lia.
  assert (Hl : d !! Z.to_nat i = Some b).
  { rewrite <- (Nat.add_0_r (Z.to_nat i)), <- lookup_drop, Hd. done. }
  rewrite Hl. split; [done|]. apply lookup_lt_Some in Hl. unfold len. lia.
Qed.

Lemma at_end d i : at_ d i [] -> i = len d.
Proof. intros [Hi Hd]. apply (f_equal length) in Hd. rewrite length_drop in Hd. unfold len in *. simpl in Hd. lia. Qed.

Lemma varint_loop_spec f g wrap d i shift acc v rest :
  at_ d i (groups g v ++ rest) -> (1 <= g)%nat -> 0 <= v < 2 ^ (7 * Z.of_nat g) -> 0 <= shift -> v < 2 ^ (64 - shift) -> shift < 64 ->
  0 <= acc < 2 ^ shift -> (forall x, 0 <= x <= acc + v * 2 ^ shift -> wrap x = x) -> (g <= f)%nat ->
  varint_loop f wrap d i shift acc = Ok (acc + v * 2 ^ shift, i + len (groups g v)).
Proof.
  revert g i shift acc v. induction f as [|f IH]; intros g i shift acc v Hat Hg Hv Hs Hv' Hs' Hacc Hwrap Hf; [lia|].
  destruct g as [|g]; [lia|]. cbn [varint_loop groups] in *. rewrite bool_decide_eq_false_2 by lia.
  assert (Hp : 0 < 2 ^ shift) by lia. destruct (decide (128 <= v)) as [Hb|Hb].
  - rewrite (bool_decide_eq_true_2 (128 <= v)) in * by done. cbn [app] in Hat. destruct (at_byte _ _ _ _ Hat) as [Hbyte Hi].
    rewrite bool_decide_eq_false_2, Hbyte by lia. unfold mbind, res_bind.
    assert (Hm : 0 <= v mod 128 < 128) by (by apply Z.mod_pos_bound).
    assert (Hland : Z.land (v mod 128 + 128) 127 = v mod 128).
    { rewrite land_127. replace (v mod 128 + 128) with (v mod 128 + 1 * 128) by lia. rewrite Z.mod_add by lia. by rewrite Z.mod_mod. }
    rewrite Hland, lor_high by done. pose proof (Z.div_mod v 128 ltac:(lia)) as Hdm. pose proof (Z.div_pos v 128 ltac:(lia) ltac:(lia)).
    rewrite Hwrap by nia. rewrite bool_decide_eq_false_2 by lia.
    destruct g as [|g]; [change (2 ^ (7 * Z.of_nat 1)) with 128 in Hv; lia|].
    assert (Hsh : shift + 7 < 64).
    { destruct (decide (shift + 7 < 64)); [done|]. assert (2 ^ (64 - shift) <= 2 ^ 7) by (apply Z.pow_le_mono_r; lia). lia. }
    assert (Hpow : 2 ^ (shift + 7) = 2 ^ shift * 128) by (rewrite Z.pow_add_r by lia; done).
    rewrite (IH (S g) _ _ _ (v / 128)); [|by apply at_cons in Hat|lia|by apply groups_bound|lia| |lia| |intros x Hx; apply Hwrap|lia].
    + f_equal. f_equal; [|rewrite len_cons; lia]. rewrite Hpow. nia.
    + apply Z.div_lt_upper_bound; [lia|]. change 128 with (2 ^ 7). rewrite <- Z.pow_add_r by lia. by replace (7 + (64 - (shift + 7))) with (64 - shift) by lia.
    + rewrite Hpow. nia.
    + rewrite Hpow in Hx. nia.
  - rewrite (bool_decide_eq_false_2 (128 <= v)) in * by done. cbn [app] in Hat. destruct (at_byte _ _ _ _ Hat) as [Hbyte Hi].
    rewrite bool_decide_eq_false_2, Hbyte by lia. unfold mbind, res_bind. rewrite land_127, Z.mod_small by lia.
    rewrite lor_high by done. rewrite Hwrap by nia. by rewrite bool_decide_eq_true_2 by lia.
Qed.

Lemma read_varint_spec wrap d i v rest :
  at_ d i (varint v ++ rest) -> 0 <= v < 2 ^ 64 -> (forall x, 0 <= x <= v -> wrap x = x) ->
  read_varint wrap d i = Ok (v, i + len (varint v)).
Proof.
  intros Hat Hv Hw. unfold read_varint. rewrite (varint_loop_spec 11 10 wrap d i 0 0 v rest); [|done|lia| |lia|lia|lia|lia| |lia].
  - by rewrite Z.mul_1_r.
  - change (7 * Z.of_nat 10) with 70. lia.
  - intros x Hx. apply Hw. lia.
Qed.

Lemma uint64_small v : 0 <= v < 2 ^ 64 -> uint64 v = v.
Proof. apply Z.mod_small. Qed.
Lemma uint32_small v : 0 <= v < 2 ^ 32 -> uint32 v = v.
Proof. apply Z.mod_small. Qed.
Lemma int64_small v : - 2 ^ 63 <= v < 2 ^ 63 -> int64 v = v.
Proof. intros Hv. unfold int64. rewrite Z.mod_small by lia. lia. Qed.

Lemma read_slice_spec d i s rest : at_ d i (s ++ rest) -> len d < 2 ^ 63 -> read_slice d i (len s) = Ok (s, i + len s).
Proof.
  intros Hat Hd. pose proof (len_nonneg s). destruct (at_app _ _ _ _ Hat) as [Hj _]. destruct Hat as [Hi Hs]. unfold read_slice.
  rewrite bool_decide_eq_false_2, int64_small by lia. rewrite !bool_decide_eq_false_2 by lia. unfold slice.
  rewrite bool_decide_eq_true_2 by lia. unfold mbind, res_bind. rewrite Hs. do 2 f_equal.
  replace (Z.to_nat (i + len s - i)) with (length s) by (unfold len; lia). by rewrite take_app_length.
Qed.

Lemma read_bytes_spec d i s rest : at_ d i (varint (len s) ++ s ++ rest) -> len d < 2 ^ 63 ->
  read_bytes d i = Ok (s, i + len (varint (len s) ++ s)) /\ read_string d i = Ok (s, i + len (varint (len s) ++ s)).
Proof.
  intros Hat Hd. pose proof (at_app _ _ _ _ Hat) as Hat'. pose proof (len_nonneg s). pose proof (len_nonneg (varint (len s))).
  pose proof (at_app _ _ _ _ Hat') as [Hb _]. pose proof (proj1 Hat) as Hi. rewrite len_app, Z.add_assoc.
  unfold read_bytes, read_string. split.
  - rewrite (read_varint_spec int64 _ _ _ _ Hat); [|lia|intros; apply int64_small; lia]. unfold mbind, res_bind. by eapply read_slice_spec.
  - rewrite (read_varint_spec uint64 _ _ _ _ Hat); [|lia|intros; apply uint64_small; lia]. unfold mbind, res_bind.
    rewrite int64_small by lia. by eapply read_slice_spec.
Qed.

(** ** The loop over the fields *)
Section Decode.
Context {M : Type} (fields : cases (M := M)).

Definition decodes (d : bytes) (i : Z) (m : M) (r : res M) : Prop :=
  forall fuel, len d - i < Z.of_nat fuel -> unmarshal_loop fuel fields d i m = r.

Lemma decodes_end d i m : at_ d i [] -> decodes d i m (Ok m).
Proof.
  intros ->%at_end [|fuel] Hf; [lia|]. cbn [unmarshal_loop]. by rewrite !bool_decide_eq_false_2 by lia.
Qed.

Lemma decodes_step d i tag s j m m' r f :
  at_ d i (tag :: s) -> 8 <= tag < 128 -> Z.land tag 7 <> 4 -> fields (Z.shiftr tag 3) = Some f ->
  f (Z.land tag 7) m d (i + 1) = Ok (m', j) -> i < j -> decodes d j m' r -> decodes d i m r.
Proof.
  intros Hat Htag Hw Hf Hrun Hj Hd [|fuel] Hfuel; [destruct Hat; lia|]. cbn [unmarshal_loop].
  destruct (at_byte _ _ _ _ Hat) as [_ Hi]. rewrite bool_decide_eq_true_2 by done.
  assert (Hv : varint tag = [tag]) by (unfold varint; cbn [groups]; by rewrite bool_decide_eq_false_2 by lia).
  rewrite (read_varint_spec uint64 d i tag s); [|by rewrite Hv|lia|intros; apply uint64_small; lia].
  unfold mbind, res_bind. rewrite Hv. change (len [tag]) with 1.
  assert (Hsh : int32 (Z.shiftr tag 3) = Z.shiftr tag 3 /\ 0 < Z.shiftr tag 3).
  { rewrite Z.shiftr_div_pow2 by done. change (2 ^ 3) with 8. assert (1 <= tag / 8 < 16).
    { split; [apply Z.div_le_lower_bound; lia|apply Z.div_lt_upper_bound; lia]. }
    unfold int32. rewrite Z.mod_small by lia. lia. }
  destruct Hsh as [-> Hpos]. rewrite !bool_decide_eq_false_2 by (done || lia). rewrite Hf, Hrun. apply Hd. lia.
Qed.

(** Fields that are present or, when they hold the default, left out. *)
Lemma decodes_varint d i tag n wrap set v rest m m' r :
  at_ d i (enc_varint tag v ++ rest) -> 8 <= tag < 128 -> Z.shiftr tag 3 = n -> Z.land tag 7 = 0 ->
  fields n = Some (field_case 0 (read_varint wrap) set) -> 0 <= v < 2 ^ 64 -> (forall x, 0 <= x <= v -> wrap x = x) ->
  set v m = Ok m' -> (v = 0 -> m = m') ->
  (at_ d (i + len (enc_varint tag v)) rest -> decodes d (i + len (enc_varint tag v)) m' r) -> decodes d i m r.
Proof.
  intros Hat Htag <- Hw Hf Hv Hwrap Hset H0 Hd. pose proof (at_app _ _ _ _ Hat) as Hat'. specialize (Hd Hat'). unfold enc_varint in *.
  case_bool_decide as Hz; [|rewrite H0 by lia; unfold len in Hd; by rewrite Z.add_0_r in Hd].
  rewrite len_cons, Z.add_assoc in *. pose proof (len_nonneg (varint v)).
  refine (decodes_step _ _ _ _ _ _ _ _ _ Hat Htag _ Hf _ _ Hd); [by rewrite Hw| |lia].
  rewrite Hw. unfold field_case. rewrite bool_decide_eq_false_2 by (by intros ?).
  cbn [app] in Hat. apply at_cons in Hat. rewrite (read_varint_spec wrap _ _ v rest) by done. unfold mbind, res_bind. by rewrite Hset.
Qed.

Lemma decodes_always d i tag n (read : bytes -> Z -> res (bytes * Z)) set s rest m m' r :
  at_ d i (enc_always tag s ++ rest) -> 8 <= tag < 128 -> Z.shiftr tag 3 = n -> Z.land tag 7 = 2 -> len d < 2 ^ 63 ->
  fields n = Some (field_case 2 read set) -> read = read_bytes \/ read = read_string -> set s m = Ok m' ->
  (at_ d (i + len (enc_always tag s)) rest -> decodes d (i + len (enc_always tag s)) m' r) -> decodes d i m r.
Proof.
  intros Hat Htag <- Hw Hd Hf Hread Hset Hk. pose proof (at_app _ _ _ _ Hat) as Hat'. specialize (Hk Hat').
  unfold enc_always in *. rewrite len_cons, Z.add_assoc in *.
  pose proof (len_nonneg (varint (len s) ++ s)). cbn [app] in Hat.
  refine (decodes_step _ _ _ _ _ _ _ _ _ Hat Htag _ Hf _ _ Hk); [by rewrite Hw| |lia].
  rewrite Hw. unfold field_case. rewrite bool_decide_eq_false_2 by (by intros ?). apply at_cons in Hat. rewrite <- app_assoc in Hat.
  destruct (read_bytes_spec _ _ _ _ Hat Hd) as [H1 H2]. unfold mbind, res_bind.
  destruct Hread as [->| ->]; [rewrite H1|rewrite H2]; by rewrite Hset.
Qed.

Lemma decodes_bytes d i tag n (read : bytes -> Z -> res (bytes * Z)) set s rest m m' r :
  at_ d i (enc_bytes tag s ++ rest) -> 8 <= tag < 128 -> Z.shiftr tag 3 = n -> Z.land tag 7 = 2 -> len d < 2 ^ 63 ->
  fields n = Some (field_case 2 read set) -> read = read_bytes \/ read = read_string -> set s m = Ok m' -> (s = [] -> m = m') ->
  (at_ d (i + len (enc_bytes tag s)) rest -> decodes d (i + len (enc_bytes tag s)) m' r) -> decodes d i m r.
Proof.
  intros Hat Htag Hn Hw Hd Hf Hread Hset H0. unfold enc_bytes in *. case_bool_decide as Hz.
  - by eapply decodes_always.
  - intros Hk. rewrite H0 by (destruct s; [done|by destruct Hz]). unfold len in Hk. simpl in Hk. rewrite Z.add_0_r in Hk. by apply Hk.
Qed.

Lemma decodes_fixed64 d i tag n set v rest m m' r :
  at_ d i (enc_fixed64 tag v ++ rest) -> 8 <= tag < 128 -> Z.shiftr tag 3 = n -> Z.land tag 7 = 1 -> len d < 2 ^ 63 - 8 ->
  fields n = Some (field_case 1 read_fixed64 set) -> - 2 ^ 63 <= v < 2 ^ 63 -> set v m = Ok m' -> (v = 0 -> m = m') ->
  (at_ d (i + len (enc_fixed64 tag v)) rest -> decodes d (i + len (enc_fixed64 tag v)) m' r) -> decodes d i m r.
Proof.
  intros Hat Htag <- Hw Hl Hf Hv Hset H0 Hd. pose proof (at_app _ _ _ _ Hat) as Hat'. specialize (Hd Hat'). unfold enc_fixed64 in *.
  case_bool_decide as Hz; [|rewrite H0 by lia; unfold len in Hd; by rewrite Z.add_0_r in Hd].
  rewrite len_cons, Z.add_assoc in *. assert (H8 : len (le_bytes 8 (uint64 v)) = 8) by (unfold len; by rewrite length_le_bytes). rewrite H8 in *.
  refine (decodes_step _ _ _ _ _ _ _ _ _ Hat Htag _ Hf _ _ Hd); [by rewrite Hw| |lia].
  rewrite Hw. unfold field_case. rewrite bool_decide_eq_false_2 by (by intros ?). cbn [app] in Hat. apply at_cons in Hat. destruct Hat' as [Hr _], Hat as [Hi Hs].
  unfold read_fixed64, slice. rewrite int64_small by lia. rewrite bool_decide_eq_false_2 by lia. rewrite bool_decide_eq_true_2 by lia. unfold mbind, res_bind.
  rewrite take_ge by (rewrite length_drop; unfold len in *; lia). rewrite Hs. rewrite len_app, H8. rewrite bool_decide_eq_false_2 by (pose proof (len_nonneg rest); lia).
  rewrite take_app_length' by (by rewrite length_le_bytes). rewrite from_le_bytes by (unfold uint64; apply (Z.mod_pos_bound v (2 ^ 64)); done).
  assert (Hv64 : int64 (uint64 v) = v).
  { unfold int64, uint64. rewrite Z.add_mod_idemp_l by done. fold (int64 v). by apply int64_small. }
  by rewrite Hv64, Hset.
Qed.

Lemma decodes_bool d i tag n set b rest m m' r :
  at_ d i (enc_bool tag b ++ rest) -> 8 <= tag < 128 -> Z.shiftr tag 3 = n -> Z.land tag 7 = 0 ->
  fields n = Some (field_case 0 (read_varint int64) set) -> set (if b then 1 else 0) m = Ok m' -> (b = false -> m = m') ->
  (at_ d (i + len (enc_bool tag b)) rest -> decodes d (i + len (enc_bool tag b)) m' r) -> decodes d i m r.
Proof.
  intros Hat Htag Hn Hw Hf Hset H0. assert (He : enc_bool tag b = enc_varint tag (if b then 1 else 0)) by by destruct b.
  rewrite He in *. eapply decodes_varint; [exact Hat|done|done|done|exact Hf|by destruct b| |exact Hset|].
  - intros x Hx. apply int64_small. destruct b; lia.
  - destruct b; [done|auto].
Qed.

(** Repeated fields extend the message one by one. *)
Lemma decodes_repeated {A} d i tag n (read : bytes -> Z -> res (bytes * Z)) set (enc : A -> bytes) (push : A -> M -> M) l rest m r :
  at_ d i (mjoin ((fun x => enc_always tag (enc x)) <$> l) ++ rest) ->
  8 <= tag < 128 -> Z.shiftr tag 3 = n -> Z.land tag 7 = 2 -> len d < 2 ^ 63 ->
  fields n = Some (field_case 2 read set) -> read = read_bytes \/ read = read_string ->
  (forall x m, x ∈ l -> set (enc x) m = Ok (push x m)) ->
  (forall j, j = i + len (mjoin ((fun x => enc_always tag (enc x)) <$> l)) -> at_ d j rest -> decodes d j (fold_left (fun m x => push x m) l m) r) ->
  decodes d i m r.
Proof.
  intros Hat Htag Hn Hw Hd Hf Hread. revert i m Hat. induction l as [|x l IH]; intros i m Hat Hset Hk.
  - apply Hk; [unfold len; simpl; lia|done].
  - cbn [fmap list_fmap mjoin list_join] in Hat. rewrite <- app_assoc in Hat.
    eapply decodes_always; [exact Hat|done|done|done|done|exact Hf|done|apply Hset; left|]. intros Hat'. eapply IH; [exact Hat'| |].
    + intros y m' Hy. apply Hset. by right.
    + intros j -> Hj. apply Hk; [|done]. cbn [fmap list_fmap mjoin list_join]. rewrite (len_app (enc_always _ _)). by rewrite Z.add_assoc.
Qed.

Lemma unmarshal_decodes d m r : decodes d 0 m r -> unmarshal fields d m = r.
Proof. intros Hd. apply Hd. unfold len. lia. Qed.
End Decode.

(** ** Reading arbitrary bytes *)

(** A reader started inside its input ends inside it, or with an error. *)
Definition stays {A} (d : bytes) (i : Z) (r : res (A * Z)) : Prop :=
  match r with Ok (_, j) => i <= j <= len d | Err _ => True | Panic => False end.
Definition no_panic {A} (r : res A) : Prop := match r with Panic => False | _ => True end.

Lemma byte_at_in d i : 0 <= i < len d -> exists b, byte_at d i = Ok b.
Proof.
  intros Hi. unfold byte_at. rewrite bool_decide_eq_false_2 by lia.
  destruct (lookup_lt_is_Some_2 d (Z.to_nat i)) as [b ->]; [unfold len in *; lia|]. by exists b.
Qed.

Lemma varint_loop_stays f wrap d i shift acc :
  0 <= i -> 0 <= shift -> 77 <= shift + 7 * Z.of_nat f -> (1 <= f)%nat ->
  match varint_loop f wrap d i shift acc with Ok (_, j) => i < j <= len d | Err _ => True | Panic => False end.
Proof.
  revert i shift acc. induction f as [|f IH]; intros i shift acc Hi Hs Hf H1; [lia|]. cbn [varint_loop].
  case_bool_decide; [done|]. case_bool_decide; [done|]. destruct (byte_at_in d i) as [b ->]; [lia|]. unfold mbind, res_bind.
  case_bool_decide; [lia|]. assert (1 <= f)%nat by lia.
  specialize (IH (i + 1) (shift + 7) (wrap (Z.lor acc (Z.shiftl (Z.land b 127) shift)))).
  destruct (varint_loop f _ _ _ _ _) as [[v j]|e|]; [|done|]; (assert (Hx := IH ltac:(lia) ltac:(lia) ltac:(lia) ltac:(lia))); lia || done.
Qed.

Lemma read_varint_stays wrap d i : 0 <= i ->
  match read_varint wrap d i with Ok (_, j) => i < j <= len d | Err _ => True | Panic => False end.
Proof. intros Hi. apply varint_loop_stays; lia. Qed.

Lemma int64_range z : - 2 ^ 63 <= int64 z < 2 ^ 63.
Proof. unfold int64. pose proof (Z.mod_pos_bound (z + 2 ^ 63) (2 ^ 64)). lia. Qed.

(** A sum that did not become negative did not wrap. *)
Lemma int64_add i n : 0 <= i < 2 ^ 63 -> 0 <= n < 2 ^ 63 -> 0 <= int64 (i + n) -> int64 (i + n) = i + n.
Proof.
  intros Hi Hn Hp. destruct (decide (i + n < 2 ^ 63)); [apply int64_small; lia|]. unfold int64 in *.
  assert ((i + n + 2 ^ 63) mod 2 ^ 64 = i + n + 2 ^ 63 - 2 ^ 64); [|lia].
  symmetry. apply (Z.mod_unique _ _ 1); lia.
Qed.

Lemma read_slice_stays d i n : 0 <= i <= len d -> len d < 2 ^ 63 -> n < 2 ^ 63 -> stays d i (read_slice d i n).
Proof.
  intros Hi Hd Hn. unfold read_slice. case_bool_decide; [done|]. case_bool_decide; [done|].
  rewrite int64_add in * by lia. case_bool_decide; [done|]. unfold slice. rewrite bool_decide_eq_true_2 by lia. simpl. lia.
Qed.

Lemma varint_loop_wrap f (P : Z -> Prop) wrap d i shift acc v j :
  (forall x, P (wrap x)) -> varint_loop f wrap d i shift acc = Ok (v, j) -> P v.
Proof.
  intros HP. revert i shift acc. induction f as [|f IH]; intros i shift acc; [done|]. cbn [varint_loop].
  case_bool_decide; [done|]. case_bool_decide; [done|]. unfold mbind, res_bind. destruct (byte_at d i); [|done|done].
  case_bool_decide; [by intros [= <- _]|]. apply IH.
Qed.

Lemma read_bytes_stays d i : 0 <= i <= len d -> len d < 2 ^ 63 -> stays d i (read_bytes d i) /\ stays d i (read_string d i).
Proof.
  intros Hi Hd. unfold read_bytes, read_string, mbind, res_bind.
  assert (Hgo : forall wrap (conv : Z -> Z), (forall x, conv (wrap x) < 2 ^ 63) ->
    stays d i (match read_varint wrap d i with Ok a => let '(n, j) := a in read_slice d j (conv n) | Err e => Err e | Panic => Panic end)).
  { intros wrap conv Hc. pose proof (read_varint_stays wrap d i ltac:(lia)) as Hv. destruct (read_varint wrap d i) as [[n j]|e|] eqn:Hr; [|done|done].
    pose proof (varint_loop_wrap 11 (fun x => conv x < 2 ^ 63) wrap d i 0 0 n j Hc Hr). simpl in H.
    pose proof (read_slice_stays d j (conv n) ltac:(lia) Hd H) as Hs. unfold stays in *. destruct (read_slice d j (conv n)) as [[s k]|e|]; [lia|done|done]. }
  split; [apply (Hgo int64 id)|apply (Hgo uint64 int64)]; intros; apply int64_range.
Qed.

Lemma skip_loop_stays f d i depth :
  0 <= i -> len d < 2 ^ 63 -> len d - i < Z.of_nat f -> (1 <= f)%nat ->
  match skip_loop f d i depth with Ok j => i < j < 2 ^ 63 | Err _ => True | Panic => False end.
Proof.
  revert i depth. induction f as [|f IH]; intros i depth Hi Hd Hf H1; [lia|]. cbn [skip_loop]. case_bool_decide as Hl; [|done].
  pose proof (read_varint_stays uint64 d i Hi) as Hv. unfold mbind, res_bind.
  destruct (read_varint uint64 d i) as [[wire j]|e|]; [|done|done]. set (k := Z.land wire 7).
  assert (Hgo : forall n dep, j <= n < 2 ^ 63 \/ n < 0 ->
    match (if bool_decide (n < 0) then Err ErrInvalidLength else if bool_decide (dep = 0) then Ok n else skip_loop f d n dep) with
    | Ok j => i < j < 2 ^ 63 | Err _ => True | Panic => False end).
  { intros n dep Hn. case_bool_decide; [done|]. case_bool_decide; [lia|]. assert (1 <= f)%nat by lia.
    pose proof (IH n dep ltac:(lia) Hd ltac:(lia) ltac:(lia)) as Hx. destruct (skip_loop f d n dep); [lia|done|done]. }
  assert (Hadd : forall n, 0 <= n < 2 ^ 63 -> j <= int64 (j + n) < 2 ^ 63 \/ int64 (j + n) < 0).
  { intros n Hn. destruct (decide (int64 (j + n) < 0)); [by right|]. left. pose proof (int64_range (j + n)). rewrite int64_add in *; lia. }
  destruct k as [|p|p]; [| |done].
  - pose proof (read_varint_stays uint64 d j ltac:(lia)) as Hv2. destruct (read_varint uint64 d j) as [[w j2]|e|]; [|done|done]. apply Hgo. lia.
  - destruct p as [[[]|[]|]|[[]|[]|]|]; try done; try (apply Hgo; apply Hadd; lia).
    + apply Hgo. lia.
    + case_bool_decide; [done|]. apply Hgo. lia.
    + pose proof (read_varint_stays int64 d j ltac:(lia)) as Hv2. destruct (read_varint int64 d j) as [[w j2]|e|] eqn:Hr; [|done|done].
      pose proof (varint_loop_wrap 11 (fun x => x < 2 ^ 63) int64 d j 0 0 w j2 (fun x => proj2 (int64_range x)) Hr) as Hw. simpl in Hw.
      case_bool_decide; [done|]. apply Hgo. destruct (decide (int64 (j2 + w) < 0)); [by right|]. left.
      pose proof (int64_range (j2 + w)). rewrite int64_add in *; lia.
Qed.

Section NoPanic.
Context {M : Type} (fields : cases (M := M)).

(** The cases of a message stay inside the input. *)
Definition cases_stay : Prop := forall n f, fields n = Some f ->
  forall wireType m d i, 0 <= i <= len d -> len d < 2 ^ 63 -> stays d i (f wireType m d i).

Lemma field_case_stays {A} wire (read : bytes -> Z -> res (A * Z)) (set : A -> M -> res M) wireType m d i :
  stays d i (read d i) -> (forall v m, no_panic (set v m)) -> stays d i (field_case wire read set wireType m d i).
Proof.
  intros Hr Hs. unfold field_case. case_bool_decide; [done|]. unfold mbind, res_bind, stays in *. destruct (read d i) as [[v j]|e|]; [|done|done].
  pose proof (Hs v m). by destruct (set v m).
Qed.

Lemma unmarshal_no_panic d m : cases_stay -> len d < 2 ^ 63 -> no_panic (unmarshal fields d m).
Proof.
  intros Hcs Hd. unfold unmarshal.
  assert (Hgo : forall f i m, 0 <= i -> len d - i < Z.of_nat f -> (1 <= f)%nat -> no_panic (unmarshal_loop f fields d i m)).
  { intros f. induction f as [|f IH]; intros i m' Hi Hf H1; [lia|]. cbn [unmarshal_loop]. case_bool_decide as Hl; [|by case_bool_decide].
    pose proof (read_varint_stays uint64 d i Hi) as Hv. unfold mbind, res_bind.
    destruct (read_varint uint64 d i) as [[wire j]|e|]; [|done|done]. case_bool_decide; [done|]. case_bool_decide; [done|].
    assert (1 <= f)%nat by lia. destruct (fields _) as [g|] eqn:Hg.
    - pose proof (Hcs _ _ Hg (Z.land wire 7) m' d j ltac:(lia) Hd) as Hst. unfold stays in Hst. destruct (g _ _ _ _) as [[m2 j2]|e|]; [|done|done].
      apply IH; lia.
    - unfold slice. rewrite bool_decide_eq_true_2 by lia. set (rest := take _ _).
      assert (Hrest : len rest = len d - i) by (unfold rest, len in *; rewrite length_take, length_drop; lia).
      pose proof (skip_loop_stays (S (length rest)) rest 0 0 ltac:(lia) ltac:(lia) ltac:(unfold len; lia) ltac:(lia)) as Hsk.
      unfold skip. destruct (skip_loop _ _ _ _) as [n|e|]; [|done|done]. case_bool_decide as Hneg; [done|]. case_bool_decide; [done|].
      apply IH; [lia| |lia]. rewrite int64_add by lia. lia. }
  apply Hgo; [lia|unfold len; lia|lia].
Qed.
End NoPanic.

(** ** Texts of integers *)
Lemma scan_decimal s prev count acc :
  all_digits s -> (s = [] -> prev <> ScSeparator) ->
  scan_digits 10 s prev count acc = Some ((count + length s)%nat, fold_left (fun acc b => acc * 10 + (b - 48)) s acc).
Proof.
  unfold all_digits. revert prev count acc. induction s as [|ch s IH]; intros prev count acc Hs Hp.
  - simpl. rewrite Nat.add_0_r. destruct prev; [done| |done]. by destruct Hp.
  - simpl in Hs. apply andb_true_iff in Hs as [Hch Hs]. cbn [scan_digits].
    assert (Hr : 48 <= ch <= 57) by (unfold is_digit in Hch; by apply bool_decide_eq_true in Hch).
    assert (Hdig : digit_of ch = ch - 48) by (unfold digit_of; by rewrite Hch).
    rewrite bool_decide_eq_false_2, bool_decide_eq_true_2, Hdig, IH by (done || lia). cbn [fold_left length]. do 2 f_equal. lia.
Qed.

Lemma digits_loop_head f n : 0 < n < 2 ^ Z.of_nat f -> exists b s, digits_loop f n = b :: s /\ b <> 48.
Proof.
  revert n. induction f as [|f IH]; intros n Hn; [change (2 ^ Z.of_nat 0) with 1 in Hn; lia|]. cbn [digits_loop]. case_bool_decide as Hb.
  - exists (48 + n), []. split; [done|lia].
  - destruct (IH (n / 10)) as (b & s & -> & Hb').
    { split; [apply Z.div_str_pos; lia|]. apply Z.div_lt_upper_bound; [lia|]. rewrite Nat2Z.inj_succ, Z.pow_succ_r in Hn by lia. lia. }
    by exists b, (s ++ [48 + n mod 10]).
Qed.

Lemma scan_nat_digits n : 0 <= n -> scan_nat (digits n) = Some n.
Proof.
  intros Hn. destruct (digits_spec n Hn) as (Hd & Hv & Hne & _). destruct (decide (n = 0)) as [->|Hn0]; [done|].
  destruct (digits_loop_head (S (Z.to_nat (Z.log2 n))) n) as (b & s & Hs & Hb).
  { split; [lia|]. rewrite Nat2Z.inj_succ, Z2Nat.id by apply Z.log2_nonneg. apply Z.log2_spec. lia. }
  fold (digits n) in Hs. assert (Hgo : scan_nat (digits n) = some_digits (scan_digits 10 (digits n) ScStart 0 0)).
  { rewrite Hs. unfold scan_nat. destruct b as [|b|b]; [done| |done]. repeat (destruct b as [b|b|]; try done). }
  rewrite Hgo, scan_decimal by (done || by intros ->). rewrite Hs. simpl length. cbn [some_digits Nat.add]. rewrite <- Hs. by rewrite <- Hv at 2.
Qed.

Lemma UnmarshalText_MarshalText z : UnmarshalText (MarshalText z) = Some z.
Proof.
  unfold MarshalText. case_bool_decide as Hz.
  - unfold UnmarshalText. rewrite scan_nat_digits by lia. simpl. f_equal. lia.
  - rewrite <- (scan_nat_digits z) by lia. destruct (digits_spec z) as (Hd & _ & Hne & _); [lia|].
    destruct (digits z) as [|b s]; [done|]. unfold all_digits in Hd. simpl in Hd. apply andb_true_iff in Hd as [Hb _].
    unfold is_digit in Hb. apply bool_decide_eq_true in Hb. unfold UnmarshalText.
    destruct b as [|b|b]; [done| |lia]. repeat (destruct b as [b|b|]; try done; try lia).
Qed.

Lemma int_Unmarshal_Marshal z : int_fits z = true -> int_Unmarshal (int_Marshal (Some z)) = Some z /\ len (int_Marshal (Some z)) <= 100.
Proof.
  intros Hz. unfold int_fits in Hz. apply bool_decide_eq_true in Hz.
  assert (Hlen : forall n, 0 <= n < 2 ^ 256 -> (length (digits n) <= 78)%nat).
  { intros n Hn. destruct (digits_spec n) as (_ & _ & _ & Hk); [lia|]. apply (Hk 78%nat). assert (2 ^ 256 < 10 ^ Z.of_nat 78) by done. lia. }
  assert (Hl : len (MarshalText z) <= 79).
  { unfold MarshalText, len. case_bool_decide; [pose proof (Hlen (- z) ltac:(lia))|pose proof (Hlen z ltac:(lia))]; simpl; lia. }
  split; [|unfold int_Marshal; simpl; lia]. unfold int_Unmarshal, int_set, int_Marshal. simpl. rewrite bool_decide_eq_false_2 by lia.
  rewrite (bool_decide_eq_false_2 (MarshalText z = [])).
  2: { unfold MarshalText. case_bool_decide; [done|]. by destruct (digits_spec z) as (_ & _ & Hne & _); [lia|]. }
  rewrite UnmarshalText_MarshalText. cbn [mbind option_bind]. rewrite BitLen_fits. unfold int_fits. by rewrite bool_decide_eq_true_2.
Qed.

Lemma PutUvarint_varint v : PutUvarint v = varint v.
Proof.
  unfold PutUvarint, varint. generalize 10%nat. intros n. revert v. induction n as [|n IH]; intros v; [done|]. cbn [uvarint_groups groups].
  case_bool_decide as Hb; [|done]. rewrite Z.shiftr_div_pow2 by done. change (2 ^ 7) with 128. rewrite IH. f_equal.
  rewrite <- low_byte. apply Z.bits_inj'. intros k Hk. rewrite !Z.lor_spec, !Z.land_spec. destruct (decide (k = 7)) as [->|Hk7]; [by rewrite !orb_true_r|].
  f_equal. f_equal. destruct (decide (k < 7)).
  - change 255 with (Z.ones 8). change 127 with (Z.ones 7). by rewrite !Z.ones_spec_low by lia.
  - change 255 with (Z.ones 8). change 127 with (Z.ones 7). by rewrite !Z.ones_spec_high by lia.
Qed.

(** ** Sizes *)
Lemma sov_pos v : 1 <= sov v.
Proof.
  unfold sov. apply Z.div_le_lower_bound; [lia|]. unfold BitLen. case_bool_decide as H; [by apply Z.lor_eq_0_iff in H as [_ ?]|].
  pose proof (Z.log2_nonneg (Z.abs (Z.lor v 1))). lia.
Qed.
Lemma sov_le v : 0 <= v < 2 ^ 64 -> sov v <= 10.
Proof.
  intros Hv. rewrite <- varint_length by done. assert (Hg : forall f v, (length (groups f v) <= f)%nat); [|pose proof (Hg 10%nat v); unfold len, varint; lia].
  induction f as [|f IH]; intros x; [done|]. cbn [groups]. case_bool_decide; simpl; [specialize (IH (x / 128))|]; lia.
Qed.
Lemma size_bytes_bound s : 0 <= len s <= size_bytes s.
Proof. unfold size_bytes. pose proof (len_nonneg s). pose proof (sov_pos (len s)). case_bool_decide; lia. Qed.
Lemma size_varint_nonneg v : 0 <= size_varint v.
Proof. unfold size_varint. pose proof (sov_pos v). case_bool_decide; lia. Qed.
Lemma len_enc_varint tag v : 0 <= v < 2 ^ 64 -> len (enc_varint tag v) = size_varint v.
Proof. intros Hv. unfold enc_varint, size_varint. case_bool_decide; [|done]. by rewrite len_cons, varint_length. Qed.
Lemma len_enc_always tag s : len s < 2 ^ 64 -> len (enc_always tag s) = 1 + len s + sov (len s).
Proof. intros Hs. pose proof (len_nonneg s). unfold enc_always. rewrite len_cons, len_app, varint_length by lia. lia. Qed.
Lemma len_enc_bytes tag s : len s < 2 ^ 64 -> len (enc_bytes tag s) = size_bytes s.
Proof.
  intros Hs. unfold enc_bytes, size_bytes. destruct s as [|b s]; [done|].
  rewrite bool_decide_eq_true_2, bool_decide_eq_true_2 by (done || unfold len; simpl; lia). by apply len_enc_always.
Qed.
Lemma len_enc_bool tag b : len (enc_bool tag b) = if b then 2 else 0.
Proof. by destruct b. Qed.

Lemma unmarshal_enc {M} (fields : cases (M := M)) e m r :
  (forall d, len d = len e -> at_ d 0 e -> decodes fields d 0 m r) -> unmarshal fields e m = r.
Proof. intros H. apply unmarshal_decodes. apply H; [done|]. apply at_start. Qed.

Lemma len_enc_fixed64 tag v : len (enc_fixed64 tag v) = size_fixed64 v.
Proof. unfold enc_fixed64, size_fixed64. case_bool_decide; [|done]. rewrite len_cons. unfold len. by rewrite length_le_bytes. Qed.
