(* ===== verification/EVMTypes.v ===== *)
(** The messages of [x/evm/types] that the keeper stores: [DeferredInfo]
    ([types.pb.go]), [Log] and [Receipt] ([receipt.pb.go]), with their generated
    [Size], [Marshal] and [Unmarshal]: reading returns what was written, the computed
    size is the one needed, and reading arbitrary bytes never panics.

    Go strings are bytes, and a nil slice is an empty one. *)
From stdpp Require Import base gmap sets list.
From Stdlib Require Import ZArith Lia.
From S2P Require Import Prelude Coins CoinsSpec Decimal DecimalSpec Proto ProtoSpec.
Local Open Scope Z_scope.

Module pb.
Record DeferredInfo := mkDeferredInfo {
  di_TxIndex : Z;
  di_TxHash : bytes;
  di_TxBloom : bytes;
  di_Surplus : option Z;
  di_Error : bytes
}.

Record Log := mkLog {
  lg_Address : bytes;
  lg_Topics : list bytes;
  lg_Data : bytes;
  lg_Index : Z;
  lg_Synthetic : bool
}.

Record Receipt := mkReceipt {
  rc_TxType : Z;
  rc_CumulativeGasUsed : Z;
  rc_ContractAddress : bytes;
  rc_TxHashHex : bytes;
  rc_GasUsed : Z;
  rc_EffectiveGasPrice : Z;
  rc_BlockNumber : Z;
  rc_TransactionIndex : Z;
  rc_Status : Z;
  rc_From : bytes;
  rc_To : bytes;
  rc_VmError : bytes;
  rc_Logs : list Log;
  rc_LogsBloom : bytes;
  rc_PreExecutionFailure : bool
}.

Definition empty_DeferredInfo : DeferredInfo := mkDeferredInfo 0 [] [] None [].
Definition empty_Log : Log := mkLog [] [] [] 0 false.
Definition empty_Receipt : Receipt := mkReceipt 0 0 [] [] 0 0 0 0 0 [] [] [] [] [] false.

(** ** Marshal *)
Definition DeferredInfo_fields (m : DeferredInfo) (w : buf) : option buf :=
  w ← field_bytes 42 (di_Error m) w;
  w ← field_always 34 (int_Marshal (di_Surplus m)) w;
  w ← field_bytes 26 (di_TxBloom m) w;
  w ← field_bytes 18 (di_TxHash m) w;
  field_varint 8 (di_TxIndex m) w.

Definition DeferredInfo_Size (m : DeferredInfo) : Z :=
  let l := len (int_Marshal (di_Surplus m)) in
  size_varint (di_TxIndex m) + size_bytes (di_TxHash m) + size_bytes (di_TxBloom m) + (1 + l + sov l) + size_bytes (di_Error m).

Definition DeferredInfo_Marshal (m : DeferredInfo) : option bytes := marshal (DeferredInfo_Size m) (DeferredInfo_fields m).

Definition Log_fields (m : Log) (w : buf) : option buf :=
  w ← field_bool 40 (lg_Synthetic m) w;
  w ← field_varint 32 (lg_Index m) w;
  w ← field_bytes 26 (lg_Data m) w;
  w ← field_repeated (field_always 18) (lg_Topics m) w;
  field_bytes 10 (lg_Address m) w.

Definition sum_sizes {A} (size : A -> Z) (l : list A) : Z := foldr (fun x n => (let l := size x in 1 + l + sov l) + n) 0 l.

Definition Log_Size (m : Log) : Z :=
  size_bytes (lg_Address m) + sum_sizes len (lg_Topics m) + size_bytes (lg_Data m) + size_varint (lg_Index m)
  + (if lg_Synthetic m then 2 else 0).

Definition Log_Marshal (m : Log) : option bytes := marshal (Log_Size m) (Log_fields m).

Definition Receipt_fields (m : Receipt) (w : buf) : option buf :=
  w ← field_bool 120 (rc_PreExecutionFailure m) w;
  w ← field_bytes 114 (rc_LogsBloom m) w;
  w ← field_repeated (fun l => put_message (to_sized_buffer (Log_fields l)) 106) (rc_Logs m) w;
  w ← field_bytes 98 (rc_VmError m) w;
  w ← field_bytes 90 (rc_To m) w;
  w ← field_bytes 82 (rc_From m) w;
  w ← field_varint 72 (rc_Status m) w;
  w ← field_varint 64 (rc_TransactionIndex m) w;
  w ← field_varint 56 (rc_BlockNumber m) w;
  w ← field_varint 48 (rc_EffectiveGasPrice m) w;
  w ← field_varint 40 (rc_GasUsed m) w;
  w ← field_bytes 34 (rc_TxHashHex m) w;
  w ← field_bytes 26 (rc_ContractAddress m) w;
  w ← field_varint 16 (rc_CumulativeGasUsed m) w;
  field_varint 8 (rc_TxType m) w.

Definition Receipt_Size (m : Receipt) : Z :=
  size_varint (rc_TxType m) + size_varint (rc_CumulativeGasUsed m) + size_bytes (rc_ContractAddress m)
  + size_bytes (rc_TxHashHex m) + size_varint (rc_GasUsed m) + size_varint (rc_EffectiveGasPrice m)
  + size_varint (rc_BlockNumber m) + size_varint (rc_TransactionIndex m) + size_varint (rc_Status m)
  + size_bytes (rc_From m) + size_bytes (rc_To m) + size_bytes (rc_VmError m)
  + sum_sizes Log_Size (rc_Logs m) + size_bytes (rc_LogsBloom m) + (if rc_PreExecutionFailure m then 2 else 0).

Definition Receipt_Marshal (m : Receipt) : option bytes := marshal (Receipt_Size m) (Receipt_fields m).

(** ** Unmarshal *)
Definition DeferredInfo_cases : cases (M := DeferredInfo) := fun n =>
  match n with
  | 1 => Some (field_case 0 (read_varint uint32) (fun v m => Ok (mkDeferredInfo v (di_TxHash m) (di_TxBloom m) (di_Surplus m) (di_Error m))))
  | 2 => Some (field_case 2 read_bytes (fun s m => Ok (mkDeferredInfo (di_TxIndex m) s (di_TxBloom m) (di_Surplus m) (di_Error m))))
  | 3 => Some (field_case 2 read_bytes (fun s m => Ok (mkDeferredInfo (di_TxIndex m) (di_TxHash m) s (di_Surplus m) (di_Error m))))
  | 4 => Some (field_case 2 read_string (fun s m =>
      match int_Unmarshal s with
      | Some z => Ok (mkDeferredInfo (di_TxIndex m) (di_TxHash m) (di_TxBloom m) (Some z) (di_Error m))
      | None => Err ErrIntText
      end))
  | 5 => Some (field_case 2 read_string (fun s m => Ok (mkDeferredInfo (di_TxIndex m) (di_TxHash m) (di_TxBloom m) (di_Surplus m) s)))
  | _ => None
  end.
Definition DeferredInfo_Unmarshal (dAtA : bytes) : res DeferredInfo := unmarshal DeferredInfo_cases dAtA empty_DeferredInfo.

Definition Log_cases : cases (M := Log) := fun n =>
  match n with
  | 1 => Some (field_case 2 read_string (fun s m => Ok (mkLog s (lg_Topics m) (lg_Data m) (lg_Index m) (lg_Synthetic m))))
  | 2 => Some (field_case 2 read_string (fun s m => Ok (mkLog (lg_Address m) (lg_Topics m ++ [s]) (lg_Data m) (lg_Index m) (lg_Synthetic m))))
  | 3 => Some (field_case 2 read_bytes (fun s m => Ok (mkLog (lg_Address m) (lg_Topics m) s (lg_Index m) (lg_Synthetic m))))
  | 4 => Some (field_case 0 (read_varint uint32) (fun v m => Ok (mkLog (lg_Address m) (lg_Topics m) (lg_Data m) v (lg_Synthetic m))))
  | 5 => Some (field_case 0 (read_varint int64) (fun v m => Ok (mkLog (lg_Address m) (lg_Topics m) (lg_Data m) (lg_Index m) (bool_decide (v <> 0)))))
  | _ => None
  end.
Definition Log_Unmarshal (dAtA : bytes) : res Log := unmarshal Log_cases dAtA empty_Log.

Section Setters.
Variable m : Receipt.
Definition set_TxType v := mkReceipt v (rc_CumulativeGasUsed m) (rc_ContractAddress m) (rc_TxHashHex m) (rc_GasUsed m) (rc_EffectiveGasPrice m) (rc_BlockNumber m) (rc_TransactionIndex m) (rc_Status m) (rc_From m) (rc_To m) (rc_VmError m) (rc_Logs m) (rc_LogsBloom m) (rc_PreExecutionFailure m).
Definition set_CumulativeGasUsed v := mkReceipt (rc_TxType m) v (rc_ContractAddress m) (rc_TxHashHex m) (rc_GasUsed m) (rc_EffectiveGasPrice m) (rc_BlockNumber m) (rc_TransactionIndex m) (rc_Status m) (rc_From m) (rc_To m) (rc_VmError m) (rc_Logs m) (rc_LogsBloom m) (rc_PreExecutionFailure m).
Definition set_ContractAddress v := mkReceipt (rc_TxType m) (rc_CumulativeGasUsed m) v (rc_TxHashHex m) (rc_GasUsed m) (rc_EffectiveGasPrice m) (rc_BlockNumber m) (rc_TransactionIndex m) (rc_Status m) (rc_From m) (rc_To m) (rc_VmError m) (rc_Logs m) (rc_LogsBloom m) (rc_PreExecutionFailure m).
Definition set_TxHashHex v := mkReceipt (rc_TxType m) (rc_CumulativeGasUsed m) (rc_ContractAddress m) v (rc_GasUsed m) (rc_EffectiveGasPrice m) (rc_BlockNumber m) (rc_TransactionIndex m) (rc_Status m) (rc_From m) (rc_To m) (rc_VmError m) (rc_Logs m) (rc_LogsBloom m) (rc_PreExecutionFailure m).
Definition set_GasUsed v := mkReceipt (rc_TxType m) (rc_CumulativeGasUsed m) (rc_ContractAddress m) (rc_TxHashHex m) v (rc_EffectiveGasPrice m) (rc_BlockNumber m) (rc_TransactionIndex m) (rc_Status m) (rc_From m) (rc_To m) (rc_VmError m) (rc_Logs m) (rc_LogsBloom m) (rc_PreExecutionFailure m).
Definition set_EffectiveGasPrice v := mkReceipt (rc_TxType m) (rc_CumulativeGasUsed m) (rc_ContractAddress m) (rc_TxHashHex m) (rc_GasUsed m) v (rc_BlockNumber m) (rc_TransactionIndex m) (rc_Status m) (rc_From m) (rc_To m) (rc_VmError m) (rc_Logs m) (rc_LogsBloom m) (rc_PreExecutionFailure m).
Definition set_BlockNumber v := mkReceipt (rc_TxType m) (rc_CumulativeGasUsed m) (rc_ContractAddress m) (rc_TxHashHex m) (rc_GasUsed m) (rc_EffectiveGasPrice m) v (rc_TransactionIndex m) (rc_Status m) (rc_From m) (rc_To m) (rc_VmError m) (rc_Logs m) (rc_LogsBloom m) (rc_PreExecutionFailure m).
Definition set_TransactionIndex v := mkReceipt (rc_TxType m) (rc_CumulativeGasUsed m) (rc_ContractAddress m) (rc_TxHashHex m) (rc_GasUsed m) (rc_EffectiveGasPrice m) (rc_BlockNumber m) v (rc_Status m) (rc_From m) (rc_To m) (rc_VmError m) (rc_Logs m) (rc_LogsBloom m) (rc_PreExecutionFailure m).
Definition set_Status v := mkReceipt (rc_TxType m) (rc_CumulativeGasUsed m) (rc_ContractAddress m) (rc_TxHashHex m) (rc_GasUsed m) (rc_EffectiveGasPrice m) (rc_BlockNumber m) (rc_TransactionIndex m) v (rc_From m) (rc_To m) (rc_VmError m) (rc_Logs m) (rc_LogsBloom m) (rc_PreExecutionFailure m).
Definition set_From v := mkReceipt (rc_TxType m) (rc_CumulativeGasUsed m) (rc_ContractAddress m) (rc_TxHashHex m) (rc_GasUsed m) (rc_EffectiveGasPrice m) (rc_BlockNumber m) (rc_TransactionIndex m) (rc_Status m) v (rc_To m) (rc_VmError m) (rc_Logs m) (rc_LogsBloom m) (rc_PreExecutionFailure m).
Definition set_To v := mkReceipt (rc_TxType m) (rc_CumulativeGasUsed m) (rc_ContractAddress m) (rc_TxHashHex m) (rc_GasUsed m) (rc_EffectiveGasPrice m) (rc_BlockNumber m) (rc_TransactionIndex m) (rc_Status m) (rc_From m) v (rc_VmError m) (rc_Logs m) (rc_LogsBloom m) (rc_PreExecutionFailure m).
Definition set_VmError v := mkReceipt (rc_TxType m) (rc_CumulativeGasUsed m) (rc_ContractAddress m) (rc_TxHashHex m) (rc_GasUsed m) (rc_EffectiveGasPrice m) (rc_BlockNumber m) (rc_TransactionIndex m) (rc_Status m) (rc_From m) (rc_To m) v (rc_Logs m) (rc_LogsBloom m) (rc_PreExecutionFailure m).
Definition set_Logs v := mkReceipt (rc_TxType m) (rc_CumulativeGasUsed m) (rc_ContractAddress m) (rc_TxHashHex m) (rc_GasUsed m) (rc_EffectiveGasPrice m) (rc_BlockNumber m) (rc_TransactionIndex m) (rc_Status m) (rc_From m) (rc_To m) (rc_VmError m) v (rc_LogsBloom m) (rc_PreExecutionFailure m).
Definition set_LogsBloom v := mkReceipt (rc_TxType m) (rc_CumulativeGasUsed m) (rc_ContractAddress m) (rc_TxHashHex m) (rc_GasUsed m) (rc_EffectiveGasPrice m) (rc_BlockNumber m) (rc_TransactionIndex m) (rc_Status m) (rc_From m) (rc_To m) (rc_VmError m) (rc_Logs m) v (rc_PreExecutionFailure m).
Definition set_PreExecutionFailure v := mkReceipt (rc_TxType m) (rc_CumulativeGasUsed m) (rc_ContractAddress m) (rc_TxHashHex m) (rc_GasUsed m) (rc_EffectiveGasPrice m) (rc_BlockNumber m) (rc_TransactionIndex m) (rc_Status m) (rc_From m) (rc_To m) (rc_VmError m) (rc_Logs m) (rc_LogsBloom m) v.
End Setters.

Definition Receipt_cases : cases (M := Receipt) := fun n =>
  match n with
  | 1 => Some (field_case 0 (read_varint uint32) (fun v m => Ok (set_TxType m v)))
  | 2 => Some (field_case 0 (read_varint uint64) (fun v m => Ok (set_CumulativeGasUsed m v)))
  | 3 => Some (field_case 2 read_string (fun s m => Ok (set_ContractAddress m s)))
  | 4 => Some (field_case 2 read_string (fun s m => Ok (set_TxHashHex m s)))
  | 5 => Some (field_case 0 (read_varint uint64) (fun v m => Ok (set_GasUsed m v)))
  | 6 => Some (field_case 0 (read_varint uint64) (fun v m => Ok (set_EffectiveGasPrice m v)))
  | 7 => Some (field_case 0 (read_varint uint64) (fun v m => Ok (set_BlockNumber m v)))
  | 8 => Some (field_case 0 (read_varint uint32) (fun v m => Ok (set_TransactionIndex m v)))
  | 9 => Some (field_case 0 (read_varint uint32) (fun v m => Ok (set_Status m v)))
  | 10 => Some (field_case 2 read_string (fun s m => Ok (set_From m s)))
  | 11 => Some (field_case 2 read_string (fun s m => Ok (set_To m s)))
  | 12 => Some (field_case 2 read_string (fun s m => Ok (set_VmError m s)))
  | 13 => Some (field_case 2 read_bytes (fun s m => l ← Log_Unmarshal s; Ok (set_Logs m (rc_Logs m ++ [l]))))
  | 14 => Some (field_case 2 read_bytes (fun s m => Ok (set_LogsBloom m s)))
  | 15 => Some (field_case 0 (read_varint int64) (fun v m => Ok (set_PreExecutionFailure m (bool_decide (v <> 0)))))
  | _ => None
  end.
Definition Receipt_Unmarshal (dAtA : bytes) : res Receipt := unmarshal Receipt_cases dAtA empty_Receipt.

(** ** What is written *)
Definition enc_DeferredInfo (m : DeferredInfo) : bytes :=
  enc_varint 8 (di_TxIndex m) ++ enc_bytes 18 (di_TxHash m) ++ enc_bytes 26 (di_TxBloom m)
  ++ enc_always 34 (int_Marshal (di_Surplus m)) ++ enc_bytes 42 (di_Error m).
Definition enc_Log (m : Log) : bytes :=
  enc_bytes 10 (lg_Address m) ++ mjoin ((fun s => enc_always 18 s) <$> lg_Topics m) ++ enc_bytes 26 (lg_Data m)
  ++ enc_varint 32 (lg_Index m) ++ enc_bool 40 (lg_Synthetic m).
Definition enc_Receipt (m : Receipt) : bytes :=
  enc_varint 8 (rc_TxType m) ++ enc_varint 16 (rc_CumulativeGasUsed m) ++ enc_bytes 26 (rc_ContractAddress m)
  ++ enc_bytes 34 (rc_TxHashHex m) ++ enc_varint 40 (rc_GasUsed m) ++ enc_varint 48 (rc_EffectiveGasPrice m)
  ++ enc_varint 56 (rc_BlockNumber m) ++ enc_varint 64 (rc_TransactionIndex m) ++ enc_varint 72 (rc_Status m)
  ++ enc_bytes 82 (rc_From m) ++ enc_bytes 90 (rc_To m) ++ enc_bytes 98 (rc_VmError m)
  ++ mjoin ((fun l => enc_always 106 (enc_Log l)) <$> rc_Logs m) ++ enc_bytes 114 (rc_LogsBloom m)
  ++ enc_bool 120 (rc_PreExecutionFailure m).

(** Messages of the Go types, whose encodings fit in a slice. *)
Definition DeferredInfo_ok (m : DeferredInfo) : Prop :=
  0 <= di_TxIndex m < 2 ^ 32 /\ int_fits (default 0 (di_Surplus m)) = true /\ DeferredInfo_Size m < 2 ^ 63.
Definition Log_ok (m : Log) : Prop := 0 <= lg_Index m < 2 ^ 32.
Definition Receipt_ok (m : Receipt) : Prop :=
  0 <= rc_TxType m < 2 ^ 32 /\ 0 <= rc_CumulativeGasUsed m < 2 ^ 64 /\ 0 <= rc_GasUsed m < 2 ^ 64 /\
  0 <= rc_EffectiveGasPrice m < 2 ^ 64 /\ 0 <= rc_BlockNumber m < 2 ^ 64 /\ 0 <= rc_TransactionIndex m < 2 ^ 32 /\
  0 <= rc_Status m < 2 ^ 32 /\ Forall Log_ok (rc_Logs m) /\ Receipt_Size m < 2 ^ 63.

Lemma sum_sizes_bound {A} (size : A -> Z) l : (forall x, x ∈ l -> 0 <= size x) ->
  0 <= sum_sizes size l /\ forall x, x ∈ l -> size x <= sum_sizes size l.
Proof.
  induction l as [|y l IH]; intros Hs; [split; [done|]; by intros x ?%elem_of_nil|]. simpl.
  destruct IH as [H1 H2]; [intros; apply Hs; by right|]. pose proof (sov_pos (size y)). pose proof (Hs y ltac:(left)). split; [lia|].
  intros x [->|Hx]%elem_of_cons; [lia|]. specialize (H2 x Hx). lia.
Qed.

Lemma len_repeated {A} (enc : A -> bytes) (size : A -> Z) tag l :
  (forall x, x ∈ l -> len (enc x) = size x /\ size x < 2 ^ 64) -> len (mjoin ((fun x => enc_always tag (enc x)) <$> l)) = sum_sizes size l.
Proof.
  induction l as [|x l IH]; intros Hx; [done|]. 
  change (len (enc_always tag (enc x) ++ mjoin ((fun x => enc_always tag (enc x)) <$> l)) = 1 + size x + sov (size x) + sum_sizes size l).
  rewrite len_app.
  destruct (Hx x ltac:(left)) as [H1 H2]. rewrite len_enc_always by lia. rewrite IH; [by rewrite H1|]. intros y Hy. apply Hx. by right.
Qed.

(** Every part of a message is smaller than the message. *)
Ltac sizes := repeat match goal with
  | |- context [size_bytes ?s] => lazymatch goal with H : 0 <= len s <= size_bytes s |- _ => fail | _ => pose proof (size_bytes_bound s) end
  | H : context [size_bytes ?s] |- _ => lazymatch goal with H : 0 <= len s <= size_bytes s |- _ => fail | _ => pose proof (size_bytes_bound s) end
  | H : context [size_varint ?v] |- _ => lazymatch goal with H : 0 <= size_varint v |- _ => fail | _ => pose proof (size_varint_nonneg v) end
  end.

Lemma DeferredInfo_writes m : DeferredInfo_ok m -> writes (DeferredInfo_fields m) (enc_DeferredInfo m) /\ len (enc_DeferredInfo m) = DeferredInfo_Size m.
Proof.
  intros (Hi & Hs & Hsz). unfold DeferredInfo_Size in *. cbv zeta in *. sizes. pose proof (len_nonneg (int_Marshal (di_Surplus m))).
  pose proof (sov_pos (len (int_Marshal (di_Surplus m)))). split.
  - unfold enc_DeferredInfo. rewrite !app_assoc. unfold DeferredInfo_fields.
    repeat apply writes_bind; (apply writes_field_bytes || apply writes_field_always || apply writes_field_varint); lia.
  - unfold enc_DeferredInfo. rewrite !len_app, len_enc_varint, !len_enc_bytes, len_enc_always by lia. lia.
Qed.

Lemma Log_Size_nonneg m : 0 <= Log_Size m.
Proof.
  unfold Log_Size. destruct (sum_sizes_bound len (lg_Topics m)) as [H _]; [intros; apply len_nonneg|].
  pose proof (size_bytes_bound (lg_Address m)). pose proof (size_bytes_bound (lg_Data m)). pose proof (size_varint_nonneg (lg_Index m)).
  destruct (lg_Synthetic m); lia.
Qed.

Lemma Log_writes m : Log_ok m -> Log_Size m < 2 ^ 63 -> writes (Log_fields m) (enc_Log m) /\ len (enc_Log m) = Log_Size m.
Proof.
  intros Hi Hsz. unfold Log_Size, Log_ok in *. sizes. destruct (sum_sizes_bound len (lg_Topics m)) as [H5 H6]; [intros; apply len_nonneg|].
  assert (Hb : 0 <= (if lg_Synthetic m then 2 else 0)) by (destruct (lg_Synthetic m); lia). split.
  - unfold enc_Log. rewrite !app_assoc. unfold Log_fields.
    repeat apply writes_bind; try (apply writes_field_bytes || apply writes_field_bool || apply writes_field_varint); try lia.
    apply (writes_repeated (field_always 18) (enc_always 18)). intros x Hx. apply writes_field_always. specialize (H6 x Hx). lia.
  - unfold enc_Log. rewrite !len_app, len_enc_varint, !len_enc_bytes, len_enc_bool by lia.
    rewrite (len_repeated (fun s => s) len) by (intros x Hx; specialize (H6 x Hx); split; [done|lia]). lia.
Qed.

(** Every part of a receipt is smaller than the receipt. *)
Lemma Receipt_parts m :
  Forall (fun s => len s <= Receipt_Size m) [rc_ContractAddress m; rc_TxHashHex m; rc_From m; rc_To m; rc_VmError m; rc_LogsBloom m] /\
  sum_sizes Log_Size (rc_Logs m) <= Receipt_Size m.
Proof.
  rewrite !Forall_cons, Forall_nil. unfold Receipt_Size.
  assert (Hb : 0 <= (if rc_PreExecutionFailure m then 2 else 0)) by (destruct (rc_PreExecutionFailure m); lia).
  destruct (sum_sizes_bound Log_Size (rc_Logs m)) as [Hsum _]; [intros; apply Log_Size_nonneg|]. revert Hsum.
  generalize dependent (if rc_PreExecutionFailure m then 2 else 0). generalize (sum_sizes Log_Size (rc_Logs m)). intros z z0 Hz0 Hz.
  repeat match goal with |- context [size_varint ?v] => generalize (size_varint_nonneg v); generalize (size_varint v); intros ? ? end.
  repeat match goal with |- context [size_bytes ?v] => generalize (size_bytes_bound v); generalize (size_bytes v); generalize (len v); intros ? ? ? end.
  lia.
Qed.

Lemma Receipt_logs m : Receipt_ok m -> forall l, l ∈ rc_Logs m -> Log_ok l /\ Log_Size l <= sum_sizes Log_Size (rc_Logs m) /\ Log_Size l < 2 ^ 63.
Proof.
  intros (_ & _ & _ & _ & _ & _ & _ & Hl & Hsz) l Hx. rewrite Forall_forall in Hl. split; [by apply Hl|].
  destruct (sum_sizes_bound Log_Size (rc_Logs m)) as [_ H]; [intros; apply Log_Size_nonneg|]. specialize (H l Hx). split; [exact H|].
  eapply Z.le_lt_trans; [exact H|]. eapply Z.le_lt_trans; [apply Receipt_parts|exact Hsz].
Qed.

Lemma Receipt_writes m : Receipt_ok m -> writes (Receipt_fields m) (enc_Receipt m) /\ len (enc_Receipt m) = Receipt_Size m.
Proof.
  intros Hok. pose proof (Receipt_logs m Hok) as Hlogs. destruct Hok as (H1 & H2 & H3 & H4 & H5 & H6 & H7 & _ & Hsz).
  destruct (Receipt_parts m) as [Hp _]. assert (Hp' : forall s, len s <= Receipt_Size m -> len s < 2 ^ 64).
  { intros s Hs. eapply Z.le_lt_trans; [exact Hs|]. eapply Z.lt_trans; [exact Hsz|done]. }
  assert (H32 : forall v, 0 <= v < 2 ^ 32 -> 0 <= v < 2 ^ 64) by (intros; lia).
  repeat (apply Forall_cons in Hp; destruct Hp as [?%Hp' Hp]). split.
  - unfold enc_Receipt. rewrite !app_assoc. unfold Receipt_fields.
    repeat apply writes_bind; try (apply writes_field_bytes || apply writes_field_bool || apply writes_field_varint); auto.
    apply (writes_repeated (fun l => put_message (to_sized_buffer (Log_fields l)) 106) (fun l => enc_always 106 (enc_Log l))).
    intros l Hx. destruct (Hlogs l Hx) as (Hl & _ & Hls). destruct (Log_writes l Hl Hls) as [Hw Hlen]. apply writes_message; [lia|done].
  - unfold enc_Receipt, Receipt_Size. rewrite !len_app, !len_enc_varint, !len_enc_bytes, len_enc_bool by auto.
    rewrite (len_repeated enc_Log Log_Size); [by rewrite !Z.add_assoc|].
    intros l Hx. destruct (Hlogs l Hx) as (Hl & _ & Hls). split; [by apply Log_writes|lia].
Qed.

(** ** What is read *)
Lemma fold_push {M A} (get : M -> list A) (set : M -> list A -> M) l m :
  (forall m x y, set (set m x) y = set m y) -> (forall m x, get (set m x) = x) -> (forall m, set m (get m) = m) ->
  fold_left (fun m x => set m (get m ++ [x])) l m = set m (get m ++ l).
Proof.
  intros H1 H2 H3. revert m. induction l as [|x l IH]; intros m; simpl; [by rewrite app_nil_r, H3|].
  rewrite IH, H1, H2. by rewrite <- app_assoc.
Qed.

(** The case of a field. *)
Ltac the_case := cbv beta iota delta [DeferredInfo_cases Log_cases Receipt_cases]; apply f_equal; reflexivity.
Ltac step_varint Hat n := eapply (decodes_varint _ _ _ _ n); [exact Hat|lia|done|done|the_case|lia|intros; (apply uint32_small || apply uint64_small); lia|reflexivity|by intros ->|clear Hat; intros Hat].
Ltac step_bytes Hat n := eapply (decodes_bytes _ _ _ _ n); [exact Hat|lia|done|done|lia|the_case|by (left + right)|reflexivity|by intros ->|clear Hat; intros Hat].
Ltac step_bool Hat n := eapply (decodes_bool _ _ _ _ n); [exact Hat|lia|done|done|the_case|reflexivity|by intros ->|clear Hat; intros Hat].

Lemma DeferredInfo_reads m : DeferredInfo_ok m ->
  DeferredInfo_Unmarshal (enc_DeferredInfo m) =
  Ok (mkDeferredInfo (di_TxIndex m) (di_TxHash m) (di_TxBloom m) (Some (default 0 (di_Surplus m))) (di_Error m)).
Proof.
  intros Hok. destruct (DeferredInfo_writes m Hok) as [_ Hlen]. destruct Hok as (Hi & Hs & Hsz). apply unmarshal_enc.
  intros d Hd Hat. assert (Hd63 : len d < 2 ^ 63) by lia. unfold enc_DeferredInfo in Hat. clear Hd Hlen Hsz.
  destruct m as [a b c o e]. cbn [di_TxIndex di_TxHash di_TxBloom di_Surplus di_Error] in *.
  step_varint Hat 1. step_bytes Hat 2. step_bytes Hat 3.
  eapply (decodes_always _ _ _ _ 4); [exact Hat|lia|done|done|lia|the_case|by right| |clear Hat; intros Hat].
  { unfold int_Marshal. destruct (int_Unmarshal_Marshal _ Hs) as [Hz _]. unfold int_Marshal in Hz. simpl in Hz. rewrite Hz. reflexivity. }
  rewrite <- (app_nil_r (enc_bytes 42 e)) in Hat. step_bytes Hat 5. by apply decodes_end.
Qed.

Lemma Log_reads m : Log_ok m -> Log_Size m < 2 ^ 63 -> Log_Unmarshal (enc_Log m) = Ok m.
Proof.
  intros Hok Hsz. destruct (Log_writes m Hok Hsz) as [_ Hlen]. unfold Log_ok in Hok. apply unmarshal_enc.
  intros d Hd Hat. assert (Hd63 : len d < 2 ^ 63) by lia. unfold enc_Log in Hat. clear Hd Hlen Hsz.
  destruct m as [a t c x y]. cbn [lg_Address lg_Topics lg_Data lg_Index lg_Synthetic] in *.
  step_bytes Hat 1.
  eapply (decodes_repeated _ _ _ _ 2 _ _ (fun s => s) (fun s m => mkLog (lg_Address m) (lg_Topics m ++ [s]) (lg_Data m) (lg_Index m) (lg_Synthetic m)));
    [exact Hat|lia|done|done|lia|the_case|by right|reflexivity|clear Hat; intros j _ Hat].
  rewrite (fold_push lg_Topics (fun m t => mkLog (lg_Address m) t (lg_Data m) (lg_Index m) (lg_Synthetic m))) by (try intros []; done).
  cbn [lg_Address lg_Topics lg_Data lg_Index lg_Synthetic empty_Log app].
  step_bytes Hat 3. step_varint Hat 4. rewrite <- (app_nil_r (enc_bool 40 y)) in Hat. step_bool Hat 5.
  cbn [lg_Address lg_Topics lg_Data lg_Index lg_Synthetic]. replace (bool_decide _) with y by (by destruct y). by apply decodes_end.
Qed.

Lemma Receipt_reads m : Receipt_ok m -> Receipt_Unmarshal (enc_Receipt m) = Ok m.
Proof.
  intros Hok. destruct (Receipt_writes m Hok) as [_ Hlen]. pose proof (Receipt_logs m Hok) as Hlogs.
  destruct Hok as (H1 & H2 & H3 & H4 & H5 & H6 & H7 & _ & Hsz). apply unmarshal_enc.
  intros d Hd Hat. assert (Hd63 : len d < 2 ^ 63) by lia. unfold enc_Receipt in Hat. clear Hd Hlen Hsz.
  destruct m as [a1 a2 a3 a4 a5 a6 a7 a8 a9 a10 a11 a12 a13 a14 a15].
  cbn [rc_TxType rc_CumulativeGasUsed rc_ContractAddress rc_TxHashHex rc_GasUsed rc_EffectiveGasPrice rc_BlockNumber
    rc_TransactionIndex rc_Status rc_From rc_To rc_VmError rc_Logs rc_LogsBloom rc_PreExecutionFailure] in *.
  step_varint Hat 1. step_varint Hat 2. step_bytes Hat 3. step_bytes Hat 4. step_varint Hat 5. step_varint Hat 6. step_varint Hat 7.
  step_varint Hat 8. step_varint Hat 9. step_bytes Hat 10. step_bytes Hat 11. step_bytes Hat 12.
  eapply (decodes_repeated _ _ _ _ 13 _ _ enc_Log (fun l m => set_Logs m (rc_Logs m ++ [l])));
    [exact Hat|lia|done|done|lia|the_case|by left| |clear Hat; intros j _ Hat].
  { intros l m Hl. destruct (Hlogs l Hl) as (Hok & _ & Hs). cbv beta. rewrite (Log_reads l Hok Hs). reflexivity. }
  rewrite (fold_push rc_Logs set_Logs) by (try intros []; done).
  step_bytes Hat 14. rewrite <- (app_nil_r (enc_bool 120 a15)) in Hat. step_bool Hat 15.
  replace (bool_decide _) with a15 by (by destruct a15). by apply decodes_end.
Qed.

(** C27. What the keeper stores is what it reads back: [Marshal] of a [DeferredInfo] and
    of a [Receipt] fills a buffer of exactly the computed [Size], without an index out of
    range, and [Unmarshal] of the result returns the message, logs and topics included; a
    nil surplus is read back as zero. *)
Theorem messages_roundtrip :
  (forall m, DeferredInfo_ok m -> exists dAtA, DeferredInfo_Marshal m = Some dAtA /\ len dAtA = DeferredInfo_Size m /\
     DeferredInfo_Unmarshal dAtA =
     Ok (mkDeferredInfo (di_TxIndex m) (di_TxHash m) (di_TxBloom m) (Some (default 0 (di_Surplus m))) (di_Error m))) /\
  (forall m, Receipt_ok m -> exists dAtA, Receipt_Marshal m = Some dAtA /\ len dAtA = Receipt_Size m /\ Receipt_Unmarshal dAtA = Ok m).
Proof.
  split; intros m Hok.
  - destruct (DeferredInfo_writes m Hok) as [Hw Hl]. exists (enc_DeferredInfo m).
    split; [by apply marshal_spec|]. split; [done|by apply DeferredInfo_reads].
  - destruct (Receipt_writes m Hok) as [Hw Hl]. exists (enc_Receipt m).
    split; [by apply marshal_spec|]. split; [done|by apply Receipt_reads].
Qed.

(** ** Reading arbitrary bytes *)
Lemma field_stays {M} wire wrap (set : Z -> M -> res M) wireType m d i :
  0 <= i -> (forall v m, no_panic (set v m)) -> stays d i (field_case wire (read_varint wrap) set wireType m d i).
Proof.
  intros Hi Hs. apply field_case_stays; [|done]. pose proof (read_varint_stays wrap d i Hi) as Hv. unfold stays.
  destruct (read_varint wrap d i) as [[v j]|e|]; [lia|done|done].
Qed.
Lemma read_slice_len d i n s j : read_slice d i n = Ok (s, j) -> len s <= len d.
Proof.
  unfold read_slice, slice, mbind, res_bind. repeat (case_bool_decide; [done|]). case_bool_decide; [|done]. intros [= <- _].
  unfold len. rewrite length_take, length_drop. lia.
Qed.
(** What a length-delimited field holds is no longer than the input. *)
Lemma string_stays {M} wire (set : bytes -> M -> res M) wireType m d i :
  0 <= i <= len d -> len d < 2 ^ 63 -> (forall s m, len s < 2 ^ 63 -> no_panic (set s m)) ->
  stays d i (field_case wire read_bytes set wireType m d i) /\ stays d i (field_case wire read_string set wireType m d i).
Proof.
  intros Hi Hd Hs. destruct (read_bytes_stays d i Hi Hd) as [H1 H2].
  assert (Hgo : forall read, stays d i (read d i) -> (forall s j, read d i = Ok (s, j) -> len s <= len d) -> stays d i (field_case wire read set wireType m d i)).
  { intros read Hr Hl. unfold field_case. case_bool_decide; [done|]. unfold mbind, res_bind, stays in *.
    destruct (read d i) as [[v j]|e|]; [|done|done]. specialize (Hl v j eq_refl). pose proof (Hs v m ltac:(lia)) as Hn. by destruct (set v m). }
  split; apply Hgo; try done; unfold read_bytes, read_string, mbind, res_bind; intros s j Hr.
  - destruct (read_varint int64 d i) as [[n k]|e|]; [|done|done]. by apply read_slice_len in Hr.
  - destruct (read_varint uint64 d i) as [[n k]|e|]; [|done|done]. by apply read_slice_len in Hr.
Qed.

Ltac stays_case := lazymatch goal with
  | |- stays _ _ (field_case _ (read_varint _) _ _ _ _ _) => apply field_stays; [lia|]
  | |- stays _ _ (field_case ?w read_bytes ?set ?wt ?m ?d ?i) => refine (proj1 (string_stays w set wt m d i _ _ _)); [assumption|assumption|]
  | |- stays _ _ (field_case ?w read_string ?set ?wt ?m ?d ?i) => refine (proj2 (string_stays w set wt m d i _ _ _)); [assumption|assumption|]
  end.

(** One goal per known field. *)
Ltac each_case n Hf :=
  destruct n as [|n|n]; [discriminate Hf| |discriminate Hf];
  repeat (destruct n as [n|n|]; try discriminate Hf); injection Hf as <-.

Lemma DeferredInfo_cases_stay : cases_stay DeferredInfo_cases.
Proof.
  intros n f Hf wt m d i Hi Hd. each_case n Hf; stays_case; intros; try exact I. by destruct (int_Unmarshal s).
Qed.

Lemma Log_cases_stay : cases_stay Log_cases.
Proof. intros n f Hf wt m d i Hi Hd. each_case n Hf; stays_case; intros; exact I. Qed.

Lemma Receipt_cases_stay : cases_stay Receipt_cases.
Proof.
  intros n f Hf wt m d i Hi Hd. each_case n Hf; stays_case; intros; try exact I.
  pose proof (unmarshal_no_panic Log_cases s empty_Log Log_cases_stay H) as Hn. fold (Log_Unmarshal s) in Hn.
  unfold mbind, res_bind. by destruct (Log_Unmarshal s).
Qed.

(** C28. Reading bytes that nobody wrote is safe: on every input that fits in a slice
    [Unmarshal] of the messages ends and returns a message or an error; no index leaves
    the input, whatever lengths and nested groups the bytes claim. *)
Theorem Unmarshal_never_panics dAtA :
  len dAtA < 2 ^ 63 ->
  DeferredInfo_Unmarshal dAtA <> Panic /\ Log_Unmarshal dAtA <> Panic /\ Receipt_Unmarshal dAtA <> Panic.
Proof.
  intros Hd. split; [|split]; intros Hp.
  - pose proof (unmarshal_no_panic _ dAtA empty_DeferredInfo DeferredInfo_cases_stay Hd) as H. fold (DeferredInfo_Unmarshal dAtA) in H. by rewrite Hp in H.
  - pose proof (unmarshal_no_panic _ dAtA empty_Log Log_cases_stay Hd) as H. fold (Log_Unmarshal dAtA) in H. by rewrite Hp in H.
  - pose proof (unmarshal_no_panic _ dAtA empty_Receipt Receipt_cases_stay Hd) as H. fold (Receipt_Unmarshal dAtA) in H. by rewrite Hp in H.
Qed.

(** A receipt with a log, and a deferred info with a negative surplus. *)
Definition ex_receipt : Receipt :=
  mkReceipt 2 0 [48; 120] [49] 21000 1000000000 (2 ^ 40) 300 1 [65] [66] [] [mkLog [48] [[1; 2]; []] [255] 3 true; empty_Log] [0; 128] false.
Lemma Unmarshal_never_panics_witness :
  len [106; 127; 8; 1] < 2 ^ 63 /\ Receipt_Unmarshal [106; 127; 8; 1] <> Panic /\ Receipt_Unmarshal [106; 127; 8; 1] = Err ErrUnexpectedEOF.
Proof.
  assert (H : len [106; 127; 8; 1] < 2 ^ 63) by reflexivity. split; [exact H|]. split; [|vm_compute; reflexivity].
  exact (proj2 (proj2 (Unmarshal_never_panics _ H))).
Defined.
Lemma ex_receipt_ok : Receipt_ok ex_receipt.
Proof.
  assert (Hlogs : Forall Log_ok (rc_Logs ex_receipt)).
  { apply Forall_cons; split; [unfold Log_ok; simpl; lia|]. apply Forall_cons; split; [unfold Log_ok; simpl; lia|apply Forall_nil; exact I]. }
  assert (Hsize : Receipt_Size ex_receipt < 2 ^ 63) by (vm_compute; reflexivity). unfold Receipt_ok.
  split; [simpl; lia|]. split; [simpl; lia|]. split; [simpl; lia|]. split; [simpl; lia|]. split; [simpl; lia|]. split; [simpl; lia|].
  split; [simpl; lia|]. split; [exact Hlogs|exact Hsize].
Qed.
Lemma messages_roundtrip_witness :
  exists dAtA, Receipt_Marshal ex_receipt = Some dAtA /\ len dAtA = Receipt_Size ex_receipt /\ Receipt_Unmarshal dAtA = Ok ex_receipt.
Proof. exact (proj2 messages_roundtrip ex_receipt ex_receipt_ok). Defined.
End pb.
