(* ===== verification/EVMBlock.v ===== *)
(** What [x/evm/keeper] does at the borders of a block ([abci.go] with [deferred.go],
    [ante.go], [fee.go], [receipt.go], [storage_cleanup.go], [tx.go], [block_hash.go],
    [log.go]): the deferred information of transactions in the transient store, the
    dynamic base fee, pruning of zero storage slots, migration of legacy receipts and
    the settlement of tips and of the surplus.

    The replay and block-test configurations are off, the context is not a tracing one,
    and metrics, logs and trace baking are left out.  Parameters of the model stand for
    go-ethereum's blooms and empty transaction root, and for the decoding of a message
    into an Ethereum transaction. *)
From stdpp Require Import base gmap sets list strings.
From Stdlib Require Import ZArith Lia.
From S2P Require Import Prelude Coins CoinsSpec Decimal Vesting Bank KVStore PrefixStore StateDB EVMKeeper Proto EVMTypes.
Local Open Scope Z_scope.

Definition ReceiptKeyPrefix : bytes := [11].
Definition BlockBloomPrefix : bytes := [13].
Definition TxHashesPrefix : bytes := [14].
Definition AnteSurplusPrefix : bytes := [24].
Definition DeferredInfoPrefix : bytes := [25].
Definition NextBaseFeePerGasPrefix : bytes := [28].
Definition EvmOnlyBlockBloomPrefix : bytes := [29].
Definition ZeroStorageCleanupCheckpointKey : bytes := [30].
Definition NonceBumpPrefix : bytes := [31].
Definition BlockHashPrefix : bytes := [32].
Definition BlockHashKey (height : Z) : bytes := BlockHashPrefix ++ PutUint64 (height mod 2 ^ 64).

(** ** Texts of hashes *)
Definition hex_digit (n : Z) : Z := if bool_decide (n < 10) then 48 + n else 87 + n.
Definition hex (b : bytes) : bytes := b ≫= (fun x => [hex_digit (x / 16); hex_digit (x mod 16)]).
Definition hash_Hex (h : Hash) : bytes := [48; 120] ++ hex h.
(** The format [%020d:%s]. *)
Definition NewTransientReceiptKey (txIndex : Z) (txHash : Hash) : bytes :=
  ReceiptKeyPrefix ++ pad_zeros 20 (digits txIndex) ++ [58] ++ hash_Hex txHash.

(** ** [Dec] as JSON text: a quoted literal; what is stored has no escapes. *)
Definition dec_MarshalJSON (d : Z) : bytes := [34] ++ dec_String d ++ [34].
Definition dec_UnmarshalJSON (bz : bytes) : option Z :=
  match bz with
  | 34 :: rest =>
      match reverse rest with
      | 34 :: text => if existsb (fun b => bool_decide (b = 34 \/ b = 92 \/ b < 32)) text then None else NewDecFromStr (reverse text)
      | _ => None
      end
  | _ => None
  end.

(** ** [Params]; a decimal that was never set is nil. *)
Record Params := mkParams {
  PriorityNormalizer : option Z;
  BaseFeePerGas : option Z;
  MinimumFeePerGas : option Z;
  DeliverTxHookWasmGasLimit : Z;
  MaxDynamicBaseFeeUpwardAdjustment : option Z;
  MaxDynamicBaseFeeDownwardAdjustment : option Z;
  TargetGasUsedPerBlock : Z;
  MaximumFeePerGas : option Z;
  SeiSstoreSetGasEip2200 : Z
}.

Definition DefaultParams : Params :=
  mkParams (NewDec 1) (NewDec 0) (NewDec 1000000000) 300000 (NewDecWithPrec 189 4) (NewDecWithPrec 39 4) 250000
    (NewDec 1000000000000) 20000.

Definition validateBaseFeeAdjustment (adjustment : Z) : bool :=
  negb (bool_decide (adjustment < 0)) && negb (bool_decide (OneDec < adjustment)).

(** [Validate]; a nil decimal panics when its turn comes. *)
Definition and_then (c : bool) (rest : option bool) : option bool := if c then rest else Some false.
Definition Params_Validate (p : Params) : option bool :=
  pn ← PriorityNormalizer p; and_then (bool_decide (0 < pn)) (
  base ← BaseFeePerGas p; and_then (negb (bool_decide (base < 0))) (
  min ← MinimumFeePerGas p; and_then (negb (bool_decide (min < 0))) (
  max ← MaximumFeePerGas p; and_then (negb (bool_decide (max < 0))) (
  and_then (bool_decide (DeliverTxHookWasmGasLimit p <> 0)) (
  and_then (negb (bool_decide (min < base))) (
  up ← MaxDynamicBaseFeeUpwardAdjustment p; and_then (validateBaseFeeAdjustment up) (
  down ← MaxDynamicBaseFeeDownwardAdjustment p; and_then (validateBaseFeeAdjustment down) (
  Some (bool_decide (SeiSstoreSetGasEip2200 p <> 0)))))))))).

(** The result of a transaction, as far as it is read. *)
Record ExecTxResult := mkTxResult { tx_Code : Z; tx_Log : bytes }.

Section Block.
Context {P T : Type} `{!KVStore P, !KVStore T} (env : bank_env).
(** Messages, and what go-ethereum and the codec make of them. *)
Context {Msg : Type} (tx_hash : Msg -> option Hash) (EmptyTxsHash : Hash).
Context (BytesToBloom : bytes -> option bytes) (CreateBloom : pb.Receipt -> bytes) (ORBytes : bytes -> bytes -> bytes).
Abbreviation Ctx := (sdkContext (P * Bank.bank) evm_event).

Definition BloomByteLength : nat := 256.
Definition ShellEVMTxType : Z := 2 ^ 32 - 1.
Definition LegacyReceiptMigrationInterval : Z := 10.
Definition LegacyReceiptMigrationBatchSize : nat := 100.
Definition DefaultTxHashesToRemove : nat := 100.
Definition ZeroStorageCleanupBatchSize : nat := 100.
Definition MaxBlockHashHistory : Z := 256.

(** The context of the block and the transient store of the module. *)
Definition kst : Type := Ctx * T.
Definition KM (A : Type) : Type := kst -> option (kst * A).
#[local] Instance KM_ret : MRet KM := fun _ a s => Some (s, a).
#[local] Instance KM_bind : MBind KM := fun A B f m s => match m s with None => None | Some (s, a) => f a s end.
Definition k_panic {A} (o : option A) : KM A := fun s => match o with None => None | Some a => Some (s, a) end.
Definition k_ctx {A} (f : Ctx -> A) : KM A := fun s => Some (s, f s.1).
Definition k_transient {A} (f : T -> A) : KM A := fun s => Some (s, f s.2).
Definition set_ctx (f : Ctx -> Ctx) : KM () := fun s => Some ((f s.1, s.2), tt).
Definition set_transient (f : T -> T) : KM () := fun s => Some ((s.1, f s.2), tt).
(** A bank operation; its error is returned and what it wrote before stays. *)
Definition k_bank (m : bank_env -> BM ()) : KM (option bank_error) := fun s =>
  match on_bank env s.1 m with None => None | Some (c, e) => Some ((c, s.2), e) end.
Definition k_read {A} (m : bank_env -> BM A) : KM A := fun s =>
  match bank_read s.1 (m (bank_env_at env s.1)) with None => None | Some a => Some (s, a) end.

(** ** [ante.go] *)
Definition AddAnteSurplus (txHash : Hash) (surplus : Z) : KM () :=
  set_transient (fun t => kv_Set t (pf_key AnteSurplusPrefix txHash) (int_Marshal (Some surplus))).

(** The error of [Unmarshal] is ignored: a value out of range is added all the same, and
    a text that does not parse leaves a nil [Int], which cannot be added, or an
    unspecified one. *)
Fixpoint add_surpluses (acc : Z) (l : list (bytes * bytes)) : option Z :=
  match l with
  | [] => Some acc
  | (_, v) :: l => surplus ← int_set v; acc ← int_add acc surplus; add_surpluses acc l
  end.
Definition GetAnteSurplusSum (t : T) : option Z :=
  l ← pf_Iterator AnteSurplusPrefix t None None; add_surpluses 0 l.

(** ** [deferred.go] *)
Definition AppendToEvmTxDeferredInfo (bloom : bytes) (txHash : Hash) (surplus : Z) : KM () :=
  txIndex ← k_ctx cx_TxIndex;
  bz ← k_panic (pb.DeferredInfo_Marshal (pb.mkDeferredInfo (uint32 txIndex) txHash bloom (Some surplus) []));
  set_transient (fun t => kv_Set t (pf_key DeferredInfoPrefix (PutUint64 (uint64 txIndex))) bz).

Definition SetNonceBumped : KM () :=
  txIndex ← k_ctx cx_TxIndex;
  set_transient (fun t => kv_Set t (pf_key NonceBumpPrefix (PutUint64 (uint64 txIndex))) [1]).

Definition GetNonceBumped (t : T) (txIndex : Z) : bool := pf_Has NonceBumpPrefix t (PutUint64 txIndex).

Definition GetEVMTxDeferredInfo (c : Ctx) (t : T) : option pb.DeferredInfo :=
  match pf_Get DeferredInfoPrefix t (PutUint64 (uint64 (cx_TxIndex c))) with
  | None => None
  | Some bz => match pb.DeferredInfo_Unmarshal bz with Ok info => Some info | _ => None end
  end.

(** From the message at [txIdx] on; [None] is a panic. *)
Fixpoint deferred_infos (t : T) (txIdx : nat) (msgs : list (option Msg)) (txResults : list ExecTxResult) : option (list pb.DeferredInfo) :=
  match msgs with
  | [] => Some []
  | msg :: msgs =>
      txRes ← txResults !! txIdx;
      res ← match pf_Get DeferredInfoPrefix t (PutUint64 (Z.of_nat txIdx)) with
        | None =>
            match msg with
            | None => Some []
            | Some msg =>
                hash ← tx_hash msg;
                Some [pb.mkDeferredInfo (uint32 (Z.of_nat txIdx)) hash [] None (tx_Log txRes)]
            end
        | Some val => match pb.DeferredInfo_Unmarshal val with Ok info => Some [info] | _ => None end
        end;
      rest ← deferred_infos t (S txIdx) msgs txResults;
      Some (res ++ rest)
  end.
Definition GetAllEVMTxDeferredInfo (msgs : list (option Msg)) (txResults : list ExecTxResult) (t : T) : option (list pb.DeferredInfo) :=
  deferred_infos t 0 msgs txResults.

(** ** [receipt.go] *)
Definition SetTransientReceipt (txHash : Hash) (receipt : pb.Receipt) : KM () :=
  bz ← k_panic (pb.Receipt_Marshal receipt);
  set_transient (fun t => kv_Set t (NewTransientReceiptKey (pb.rc_TransactionIndex receipt) txHash) bz).

Definition GetTransientReceipt (t : T) (txHash : Hash) (txIndex : Z) : option pb.Receipt :=
  match kv_Get t (NewTransientReceiptKey txIndex txHash) with
  | None => None
  | Some bz => match pb.Receipt_Unmarshal bz with Ok r => Some r | _ => None end
  end.

Definition DeleteTransientReceipt (txHash : Hash) (txIndex : Z) : KM () :=
  set_transient (fun t => kv_Delete t (NewTransientReceiptKey txIndex txHash)).

(** The batch: [inr] is the error of a receipt that does not parse. *)
Fixpoint legacy_batch (n : nat) (l : list (bytes * bytes)) : option (list (bytes * pb.Receipt) + proto_error) :=
  match n, l with
  | S n, (key, value) :: l =>
      match pb.Receipt_Unmarshal value with
      | Ok receipt =>
          rest ← legacy_batch n l;
          Some (match rest with inl rest => inl ((key, receipt) :: rest) | inr e => inr e end)
      | Err e => Some (inr e)
      | Panic => None
      end
  | _, _ => Some (inl [])
  end.

Fixpoint for_each {A} (f : A -> KM ()) (l : list A) : KM () :=
  match l with [] => mret tt | x :: l => _ ← f x; for_each f l end.

Definition MigrateLegacyReceiptsBatch (batchSize : nat) : KM (nat + proto_error) :=
  l ← k_ctx (fun c => pf_Iterator ReceiptKeyPrefix (evm_store c) None None);
  l ← k_panic l;
  batch ← k_panic (legacy_batch batchSize l);
  match batch with
  | inr e => mret (inr e)
  | inl batch =>
      _ ← for_each (fun kr => SetTransientReceipt (BytesToHash kr.1) kr.2) batch;
      _ ← for_each (fun kr => set_ctx (fun c => prefix_Delete c ReceiptKeyPrefix kr.1)) batch;
      mret (inl (length batch))
  end.

(** ** [tx.go] *)
Definition RemoveFirstNTxHashes (n : nat) (c : Ctx) : option Ctx :=
  l ← pf_Iterator TxHashesPrefix (evm_store c) None None;
  Some (fold_left (fun c key => prefix_Delete c TxHashesPrefix key) (take n l.*1) c).

(** ** [storage_cleanup.go] *)
Definition GetZeroStorageCleanupCheckpoint (c : Ctx) : option bytes :=
  match kv_Get (evm_store c) ZeroStorageCleanupCheckpointKey with Some [] => None | bz => bz end.
Definition setZeroStorageCleanupCheckpoint (c : Ctx) (key : option bytes) : Ctx :=
  match key with
  | None | Some [] => set_evm c (kv_Delete (evm_store c) ZeroStorageCleanupCheckpointKey)
  | Some key => set_evm c (kv_Set (evm_store c) ZeroStorageCleanupCheckpointKey key)
  end.
Definition isZeroStorageValue (val : bytes) : bool := forallb (fun b => bool_decide (b = 0)) val.

(** The loop over the keys of the iterator; the result is the context, the counts, the
    last key and whether the iterator is still valid. *)
Fixpoint prune_loop (limit processed deleted : nat) (lastKey : option bytes) (keys : list bytes) (c : Ctx) : Ctx * nat * nat * option bytes * bool :=
  match keys with
  | [] => (c, processed, deleted, lastKey, false)
  | key :: keys =>
      if bool_decide (processed < limit)%nat then
        match pf_Get StateKeyPrefix (evm_store c) key with
        | Some val =>
            if isZeroStorageValue val then prune_loop limit (S processed) (S deleted) (Some key) keys (prefix_Delete c StateKeyPrefix key)
            else prune_loop limit (S processed) deleted (Some key) keys c
        | None => prune_loop limit (S processed) deleted (Some key) keys c
        end
      else (c, processed, deleted, lastKey, true)
  end.

Definition PruneZeroStorageSlots (limit : nat) (c : Ctx) : option (Ctx * (nat * nat)) :=
  if bool_decide (limit = 0)%nat then Some (c, (0, 0)%nat)
  else
    let checkpoint := GetZeroStorageCleanupCheckpoint c in
    l ← pf_Iterator StateKeyPrefix (evm_store c) checkpoint None;
    (* the key of the checkpoint itself, when it is still there, is skipped *)
    let keys := match l.*1 with key :: keys => if bool_decide (Some key = checkpoint) then keys else key :: keys | [] => [] end in
    let '(c, processed, deleted, lastKey, valid) := prune_loop limit 0 0 None keys c in
    Some (if bool_decide (processed = 0)%nat then
            (if bool_decide (checkpoint <> None) && negb valid then setZeroStorageCleanupCheckpoint c None else c, (0, 0)%nat)
          else (setZeroStorageCleanupCheckpoint c (if valid then lastKey else None), (processed, deleted))).

(** ** [fee.go] *)
Definition SetNextBaseFeePerGas (c : Ctx) (baseFeePerGas : Z) : Ctx :=
  set_evm c (kv_Set (evm_store c) NextBaseFeePerGasPrefix (dec_MarshalJSON baseFeePerGas)).
Definition GetNextBaseFeePerGas (params : Params) (c : Ctx) : option Z :=
  match kv_Get (evm_store c) NextBaseFeePerGasPrefix with
  | None => match MinimumFeePerGas params with None => MinimumFeePerGas DefaultParams | min => min end
  | Some bz => dec_UnmarshalJSON bz
  end.

(** The fee after a block, before it is clamped; [maxGas] is the block gas limit. *)
Definition adjusted_fee (params : Params) (prevBaseFee targetGasUsed blockGasLimit blockGasUsed : Z) : option Z :=
  let blockGasUsed := if bool_decide (blockGasLimit < blockGasUsed) then blockGasLimit else blockGasUsed in
  if bool_decide (targetGasUsed < blockGasUsed) then
    numerator ← dec_Sub blockGasUsed targetGasUsed;
    denominator ← dec_Sub blockGasLimit targetGasUsed;
    percentageFull ← dec_Quo numerator denominator;
    up ← MaxDynamicBaseFeeUpwardAdjustment params;
    adjustmentFactor ← dec_Mul up percentageFull;
    factor ← dec_Add OneDec adjustmentFactor;
    dec_Mul prevBaseFee factor
  else
    numerator ← dec_Sub targetGasUsed blockGasUsed;
    percentageEmpty ← dec_Quo numerator targetGasUsed;
    down ← MaxDynamicBaseFeeDownwardAdjustment params;
    adjustmentFactor ← dec_Mul down percentageEmpty;
    factor ← dec_Sub OneDec adjustmentFactor;
    dec_Mul prevBaseFee factor.

(** [maxGas] is [None] when the context has no block parameters; conversions of
    [uint64] to [int64] wrap. *)
Definition AdjustDynamicBaseFeePerGas (params : Params) (maxGas : option Z) (blockGasUsed : Z) (c : Ctx) : option (Ctx * option Z) :=
  match maxGas with
  | None => Some (c, None)
  | Some maxGas =>
      prevBaseFee ← GetNextBaseFeePerGas params c;
      targetGasUsed ← NewDec (int64 (TargetGasUsedPerBlock params));
      if bool_decide (targetGasUsed = 0) then Some (c, Some prevBaseFee)
      else
        minimumFeePerGas ← MinimumFeePerGas params;
        maximumFeePerGas ← MaximumFeePerGas params;
        blockGasLimit ← NewDec maxGas;
        blockGasUsed ← NewDec (int64 blockGasUsed);
        newBaseFee ← adjusted_fee params prevBaseFee targetGasUsed blockGasLimit blockGasUsed;
        let newBaseFee := if bool_decide (newBaseFee < minimumFeePerGas) then minimumFeePerGas else newBaseFee in
        let newBaseFee := if bool_decide (maximumFeePerGas < newBaseFee) then maximumFeePerGas else newBaseFee in
        Some (SetNextBaseFeePerGas c newBaseFee, Some newBaseFee)
  end.

(** ** [block_hash.go] *)
Definition GetBlockHash (c : Ctx) (height : Z) : option Hash :=
  match kv_Get (evm_store c) (BlockHashKey height) with None | Some [] => None | Some bz => Some (BytesToHash bz) end.
Definition SetBlockHash (c : Ctx) (height : Z) (hash : Hash) : Ctx := set_evm c (kv_Set (evm_store c) (BlockHashKey height) hash).
Definition DeleteBlockHash (c : Ctx) (height : Z) : Ctx := set_evm c (kv_Delete (evm_store c) (BlockHashKey height)).

Definition TrackBlockHash (lastBlockHash : bytes) (c : Ctx) : Ctx :=
  let height := cx_BlockHeight c in
  if bool_decide (height <= 0) then c
  else
    let parent := BytesToHash lastBlockHash in
    let c := if bool_decide (parent <> zero_hash) then SetBlockHash c (height - 1) parent else c in
    let prune := height - 1 - MaxBlockHashHistory in
    if bool_decide (0 <= prune) then DeleteBlockHash c prune else c.

(** ** [log.go] *)
Definition BloomsToBytes (blooms : list bytes) : bytes := fold_left ORBytes blooms (replicate BloomByteLength 0).
Definition SetBlockBloom (c : Ctx) (blooms : list bytes) : Ctx := set_evm c (kv_Set (evm_store c) BlockBloomPrefix (BloomsToBytes blooms)).
Definition SetEvmOnlyBlockBloom (c : Ctx) (blooms : list bytes) : Ctx :=
  set_evm c (kv_Set (evm_store c) EvmOnlyBlockBloomPrefix (BloomsToBytes blooms)).

(** ** [abci.go] *)

(** [BeginBlock] also clears the messages and results of the last block. *)
Definition BeginBlock (lastBlockHash : bytes) : KM () := set_ctx (TrackBlockHash lastBlockHash).

(** A transaction that failed before it was executed. *)
Definition failed_info (info : pb.DeferredInfo) : bool :=
  bool_decide (pb.di_Error info <> []) && bool_decide (BytesToHash (pb.di_TxHash info) <> EmptyTxsHash).

Definition settle_info (coinbase : AccAddress) (info : pb.DeferredInfo) (surplus : Z) : KM Z :=
  let txHash := BytesToHash (pb.di_TxHash info) in
  if failed_info info then
    bumped ← k_transient (fun t => GetNonceBumped t (pb.di_TxIndex info));
    if (bumped : bool) then
      height ← k_ctx cx_BlockHeight;
      _ ← SetTransientReceipt txHash (pb.mkReceipt 0 0 [] (hash_Hex txHash) 0 0 (uint64 height) (pb.di_TxIndex info) 0 [] [] (pb.di_Error info) [] [] false);
      mret surplus
    else mret surplus
  else
    let coinbaseAddress := GetCoinbaseAddress (pb.di_TxIndex info) in
    useiBalance ← k_read (fun _ => Bank.GetBalance coinbaseAddress BaseDenom);
    lockedCoins ← k_read (fun env => LockedCoins env coinbaseAddress);
    locked ← k_panic (coins_AmountOf lockedCoins BaseDenom);
    balance ← k_panic (int_sub (Amount useiBalance) locked);
    weiBalance ← k_read (fun _ => GetWeiBalance coinbaseAddress);
    _ ← (if bool_decide (balance <> 0) || bool_decide (weiBalance <> 0)
         then k_bank (fun env => SendCoinsAndWei env coinbaseAddress coinbase balance weiBalance) else mret None);
    delta ← k_panic (pb.di_Surplus info);
    k_panic (int_add surplus delta).

Fixpoint settle_infos (coinbase : AccAddress) (infos : list pb.DeferredInfo) (surplus : Z) : KM Z :=
  match infos with
  | [] => mret surplus
  | info :: infos => surplus ← settle_info coinbase info surplus; settle_infos coinbase infos surplus
  end.

(** The surplus goes to the account of the module. *)
Definition credit_surplus (surplus : Z) : KM () :=
  if bool_decide (0 < surplus) then
    let '(surplusUsei, surplusWei) := StateDB.SplitUseiWeiAmount surplus in
    _ ← (if bool_decide (0 < surplusUsei) then
           coins ← k_panic (new_coins BaseDenom surplusUsei);
           k_bank (fun benv => AddCoins benv (GetModuleAddress env ModuleName) coins true)
         else mret None);
    _ ← (if bool_decide (0 < surplusWei) then k_bank (fun benv => AddWei benv (GetModuleAddress env ModuleName) surplusWei) else mret None);
    mret tt
  else mret tt.

(** The blooms of the block: of all transactions, and of the receipts with EVM logs. *)
Definition evm_only_bloom (t : T) (height : Z) (info : pb.DeferredInfo) : list bytes :=
  if bool_decide (pb.di_TxHash info = []) then []
  else match GetTransientReceipt t (BytesToHash (pb.di_TxHash info)) (pb.di_TxIndex info) with
  | None => []
  | Some r =>
      if bool_decide (pb.rc_TxType r = ShellEVMTxType) || bool_decide (pb.rc_BlockNumber r <> uint64 height) then []
      else if bool_decide (pb.rc_Logs r = []) then [] else [CreateBloom r]
  end.
Fixpoint all_blooms (infos : list pb.DeferredInfo) : option (list bytes) :=
  match infos with [] => Some [] | info :: infos => b ← BytesToBloom (pb.di_TxBloom info); bs ← all_blooms infos; Some (b :: bs) end.

(** The steps before the settlement: clean-ups and the base fee. *)
Definition housekeeping (params : Params) (maxGas : option Z) (blockGasUsed : Z) : KM () :=
  c ← k_ctx (RemoveFirstNTxHashes DefaultTxHashesToRemove);
  c ← k_panic c;
  _ ← set_ctx (fun _ => c);
  _ ← (if bool_decide (Z.rem (cx_BlockHeight c) LegacyReceiptMigrationInterval = 0)
       then _ ← MigrateLegacyReceiptsBatch LegacyReceiptMigrationBatchSize; mret tt else mret tt);
  r ← k_ctx (PruneZeroStorageSlots ZeroStorageCleanupBatchSize);
  r ← k_panic r;
  _ ← set_ctx (fun _ => r.1);
  r ← k_ctx (AdjustDynamicBaseFeePerGas params maxGas blockGasUsed);
  r ← k_panic r;
  set_ctx (fun _ => r.1).

Definition settle_block (msgs : list (option Msg)) (txResults : list ExecTxResult) : KM (list pb.DeferredInfo) :=
  let coinbase := GetModuleAddress env FeeCollectorName in
  infos ← k_transient (GetAllEVMTxDeferredInfo msgs txResults);
  infos ← k_panic infos;
  ante ← k_transient GetAnteSurplusSum;
  ante ← k_panic ante;
  surplus ← settle_infos coinbase infos ante;
  _ ← credit_surplus surplus;
  mret infos.

Definition EndBlock (params : Params) (maxGas : option Z) (msgs : list (option Msg)) (txResults : list ExecTxResult) (blockGasUsed : Z) : KM () :=
  _ ← housekeeping params maxGas (uint64 blockGasUsed);
  infos ← settle_block msgs txResults;
  blooms ← k_panic (all_blooms infos);
  height ← k_ctx cx_BlockHeight;
  evmOnlyBlooms ← k_transient (fun t => infos ≫= evm_only_bloom t height);
  _ ← set_ctx (fun c => SetBlockBloom c blooms);
  set_ctx (fun c => SetEvmOnlyBlockBloom c evmOnlyBlooms).
End Block.
