(* ===== verification/EVMBlockSpec.v ===== *)
(** The dynamic base fee: the JSON text it is stored as, its adjustment at the end of a
    block and the bounds of the adjustment. *)
From stdpp Require Import base gmap sets list strings.
From Stdlib Require Import ZArith Lia.
From S2P Require Import Prelude Coins CoinsSpec Decimal DecimalSpec Vesting Bank KVStore PrefixStore StateDB StateDBEquiv EVMKeeper Proto ProtoSpec EVMTypes EVMBlock.
Local Open Scope Z_scope.
#[local] Opaque precisionReuse.
Abbreviation One := precisionReuse.

(** ** The base fee *)
Lemma dec_JSON_roundtrip d : Z.abs d < 2 ^ 315 -> dec_UnmarshalJSON (dec_MarshalJSON d) = Some d.
Proof.
  intros Hd. unfold dec_UnmarshalJSON, dec_MarshalJSON. cbn [app]. rewrite reverse_app. cbn [reverse app].
  change (reverse [34]) with [34]. cbn [app].
  assert (Hplain : existsb (fun b => bool_decide (b = 34 \/ b = 92 \/ b < 32)) (reverse (dec_String d)) = false).
  { destruct (dec_String_parts d) as (p & q & -> & Hp & Hq & _). 
    assert (Hdig : forall s, all_digits s -> Forall (fun b => 48 <= b <= 57) s).
    { intros s Hs. apply Forall_forall. intros b Hb. unfold all_digits in Hs. rewrite forallb_forall in Hs.
      specialize (Hs b ltac:(by apply list_elem_of_In)). unfold is_digit in Hs. by apply bool_decide_eq_true in Hs. }
    assert (Hall : Forall (fun b => 45 <= b <= 57) (if bool_decide (d < 0) then 45 :: p ++ 46 :: q else p ++ 46 :: q)).
    { assert (Hb : Forall (fun b => 45 <= b <= 57) (p ++ 46 :: q)).
      { apply Forall_app. split; [eapply Forall_impl; [by apply Hdig|]; simpl; lia|]. constructor; [lia|].
        eapply Forall_impl; [by apply Hdig|]. simpl. lia. }
      case_bool_decide; [constructor; [lia|done]|done]. }
    apply Forall_reverse in Hall. induction Hall as [|b l Hb _ IH]; simpl; [done|]. by rewrite bool_decide_eq_false_2, IH by lia. }
  rewrite Hplain, reverse_involutive. by apply parse_dec_String.
Qed.

Lemma One_bounds : 0 < One < 2 ^ 60.
Proof. by vm_compute. Qed.

(** The share of a part in a whole is between zero and one. *)
Lemma Quo_ratio n d : 0 <= n <= d -> 0 < d -> exists r, dec_Quo n d = Some r /\ 0 <= r <= One.
Proof.
  intros Hn Hd. pose proof One_bounds as HP. unfold dec_Quo, big_Quo. rewrite bool_decide_eq_false_2 by lia. cbn [mbind option_bind].
  assert (Hq : 0 <= Z.quot (n * One * One) d <= One * One).
  { rewrite Z.quot_div_nonneg by nia. split; [apply Z.div_pos; nia|]. apply Z.div_le_upper_bound; nia. }
  assert (Hr : 0 <= chopPrecisionAndRound (Z.quot (n * One * One) d) <= One).
  { split; [apply chop_round_ge; lia|apply chop_round_le; lia]. }
  eexists. split; [|exact Hr]. apply assert_Some. split; [done|]. lia.
Qed.

Lemma Mul_ratio a r : 0 <= a < 2 ^ 315 -> 0 <= r <= One -> exists m, dec_Mul a r = Some m /\ 0 <= m <= a.
Proof.
  intros Ha Hr. pose proof One_bounds. assert (Hm : 0 <= chopPrecisionAndRound (a * r) <= a).
  { split; [apply chop_round_ge; nia|apply chop_round_le; nia]. }
  eexists. split; [|exact Hm]. apply assert_Some. split; [done|]. lia.
Qed.

Lemma Mul_ge a f : 0 <= a < 2 ^ 200 -> One <= f <= 2 * One -> exists m, dec_Mul a f = Some m /\ a <= m.
Proof.
  intros Ha Hf. pose proof One_bounds. assert (Hm : a <= chopPrecisionAndRound (a * f) <= 2 * a).
  { split; [apply chop_round_ge; nia|apply chop_round_le; nia]. }
  eexists. split; [|apply Hm]. apply assert_Some. split; [done|]. lia.
Qed.

(** The fee before it is clamped: up by at most the upward adjustment when the block used
    more gas than the target, else down by at most the downward adjustment. *)
Lemma adjusted_fee_spec params prev target limit used up down :
  MaxDynamicBaseFeeUpwardAdjustment params = Some up -> MaxDynamicBaseFeeDownwardAdjustment params = Some down ->
  0 <= up <= One -> 0 <= down <= One -> 0 <= prev < 2 ^ 200 ->
  0 < target < 2 ^ 63 -> 0 <= limit < 2 ^ 63 -> 0 <= used < 2 ^ 63 ->
  exists raw, adjusted_fee params prev (target * One) (limit * One) (used * One) = Some raw /\
  (target < Z.min used limit -> prev <= raw <= chopPrecisionAndRound (prev * (One + up))) /\
  (Z.min used limit <= target -> chopPrecisionAndRound (prev * (One - down)) <= raw <= prev).
Proof.
  intros Hup Hdown Hu Hd Hprev Ht Hl Hus. pose proof One_bounds as HP. unfold adjusted_fee. cbv zeta.
  assert (Hused : (if bool_decide (limit * One < used * One) then limit * One else used * One) = Z.min used limit * One).
  { rewrite (bool_decide_ext _ (limit < used)) by (symmetry; apply Z.mul_lt_mono_pos_r; lia). case_bool_decide; f_equal; lia. }
  rewrite Hused. clear Hused. set (u := Z.min used limit). assert (Hub : 0 <= u < 2 ^ 63) by (unfold u; lia).
  assert (Hsub : forall a b, 0 <= a < 2 ^ 63 -> 0 <= b < 2 ^ 63 -> dec_Sub (a * One) (b * One) = Some ((a - b) * One)).
  { intros a b Ha Hb. unfold dec_Sub. apply assert_Some. split; [lia|]. nia. }
  case_bool_decide as Hgt.
  - assert (Htu : target < u) by (apply (Z.mul_lt_mono_pos_r One); [lia|done]). rewrite (Hsub u target), (Hsub limit target) by lia. cbn [mbind option_bind].
    destruct (Quo_ratio ((u - target) * One) ((limit - target) * One)) as (r & -> & Hr); [split; [apply Z.mul_nonneg_nonneg; lia|apply Z.mul_le_mono_nonneg_r; unfold u; lia]|apply Z.mul_pos_pos; unfold u in *; lia|].
    cbn [mbind option_bind]. rewrite Hup. cbn [mbind option_bind]. destruct (Mul_ratio up r) as (adj & -> & Hadj); [lia|done|]. cbn [mbind option_bind].
    assert (Hadd : dec_Add OneDec adj = Some (One + adj)) by (unfold dec_Add, OneDec; apply assert_Some; lia).
    rewrite Hadd. cbn [mbind option_bind]. destruct (Mul_ge prev (One + adj)) as (raw & Hraw & Hge); [done|lia|].
    exists raw. split; [done|]. split; [intros _|lia]. split; [done|]. apply assert_Some in Hraw as [-> _]. apply chop_round_mono. nia.
  - assert (Htu : u <= target) by (apply (Z.mul_le_mono_pos_r _ _ One); lia). rewrite (Hsub target u) by lia. cbn [mbind option_bind].
    destruct (Quo_ratio ((target - u) * One) (target * One)) as (r & -> & Hr); [split; [apply Z.mul_nonneg_nonneg; lia|apply Z.mul_le_mono_nonneg_r; lia]|apply Z.mul_pos_pos; lia|].
    cbn [mbind option_bind]. rewrite Hdown. cbn [mbind option_bind]. destruct (Mul_ratio down r) as (adj & -> & Hadj); [lia|done|]. cbn [mbind option_bind].
    assert (Hsub1 : dec_Sub OneDec adj = Some (One - adj)) by (unfold dec_Sub, OneDec; apply assert_Some; lia).
    rewrite Hsub1. cbn [mbind option_bind]. destruct (Mul_ratio prev (One - adj)) as (raw & Hraw & Hle); [lia|lia|].
    exists raw. split; [done|]. split; [lia|]. intros _. split; [|lia]. apply assert_Some in Hraw as [-> _]. apply chop_round_mono. nia.
Qed.

(** Without a limit, which is written as -1, the block counts as emptier than empty. *)
Lemma adjusted_fee_unlimited params prev t used down :
  MaxDynamicBaseFeeDownwardAdjustment params = Some down -> 0 <= down <= One -> 0 <= prev < 2 ^ 200 -> 0 < t < 2 ^ 63 -> 0 <= used < 2 ^ 63 ->
  exists raw, adjusted_fee params prev (t * One) (-1 * One) (used * One) = Some raw /\ raw <= chopPrecisionAndRound (prev * (One - down)).
Proof.
  intros Hdown Hd Hp Ht Hg. pose proof One_bounds as HP.
  unfold adjusted_fee. cbv zeta. rewrite (bool_decide_eq_true_2 (-1 * One < used * One)), (bool_decide_eq_false_2 (t * One < -1 * One)) by nia.
  assert (Hsub : dec_Sub (t * One) (-1 * One) = Some ((t + 1) * One)) by (unfold dec_Sub; apply assert_Some; split; [lia|nia]).
  rewrite Hsub. cbn [mbind option_bind].
  assert (Hquo : exists r, dec_Quo ((t + 1) * One) (t * One) = Some r /\ One <= r <= 2 * One).
  { unfold dec_Quo, big_Quo. rewrite bool_decide_eq_false_2 by nia. cbn [mbind option_bind].
    assert (Hq : One * One <= Z.quot ((t + 1) * One * One * One) (t * One) <= 2 * One * One).
    { rewrite Z.quot_div_nonneg by nia. split; [apply Z.div_le_lower_bound; nia|apply Z.div_le_upper_bound; nia]. }
    assert (Hr : One <= chopPrecisionAndRound (Z.quot ((t + 1) * One * One * One) (t * One)) <= 2 * One).
    { split; [apply chop_round_ge; lia|apply chop_round_le; lia]. }
    eexists. split; [|exact Hr]. apply assert_Some. split; [done|lia]. }
  destruct Hquo as (r & -> & Hr). cbn [mbind option_bind]. rewrite Hdown. cbn [mbind option_bind].
  assert (Hadj : down <= chopPrecisionAndRound (down * r) <= 2 * down) by (split; [apply chop_round_ge; nia|apply chop_round_le; nia]).
  assert (Hmul : dec_Mul down r = Some (chopPrecisionAndRound (down * r))) by (apply assert_Some; split; [done|lia]).
  rewrite Hmul. cbn [mbind option_bind]. set (adj := chopPrecisionAndRound (down * r)) in *.
  assert (Hs1 : dec_Sub OneDec adj = Some (One - adj)) by (unfold dec_Sub, OneDec; apply assert_Some; lia).
  rewrite Hs1. cbn [mbind option_bind].
  assert (Hlow : - prev <= chopPrecisionAndRound (prev * (One - adj)) <= chopPrecisionAndRound (prev * (One - down))).
  { split; [apply chop_round_ge; nia|apply chop_round_mono; nia]. }
  assert (Hhigh : chopPrecisionAndRound (prev * (One - down)) <= prev) by (apply chop_round_le; nia).
  assert (Hraw : dec_Mul prev (One - adj) = Some (chopPrecisionAndRound (prev * (One - adj)))) by (apply assert_Some; split; [done|lia]).
  eexists. split; [exact Hraw|]. apply Hlow.
Qed.

Lemma Validate_bounds p : Params_Validate p = Some true ->
  exists min max up down, MinimumFeePerGas p = Some min /\ MaximumFeePerGas p = Some max /\ MaxDynamicBaseFeeUpwardAdjustment p = Some up /\
    MaxDynamicBaseFeeDownwardAdjustment p = Some down /\ 0 <= min /\ 0 <= max /\ 0 <= up <= One /\ 0 <= down <= One.
Proof.
  unfold Params_Validate, and_then. destruct (PriorityNormalizer p) as [pn|]; [|done]. simpl. case_bool_decide; [|done].
  destruct (BaseFeePerGas p) as [base|]; [|done]. simpl. case_bool_decide; [done|]. simpl.
  destruct (MinimumFeePerGas p) as [min|]; [|done]. simpl. case_bool_decide; [done|]. simpl.
  destruct (MaximumFeePerGas p) as [max|]; [|done]. simpl. case_bool_decide; [done|]. simpl.
  case_bool_decide; [|done]. case_bool_decide; [done|]. simpl.
  destruct (MaxDynamicBaseFeeUpwardAdjustment p) as [up|]; [|done]. simpl. destruct (validateBaseFeeAdjustment up) eqn:Hup; [|done].
  destruct (MaxDynamicBaseFeeDownwardAdjustment p) as [down|]; [|done]. simpl. destruct (validateBaseFeeAdjustment down) eqn:Hdown; [|done].
  intros _. exists min, max, up, down. unfold validateBaseFeeAdjustment, OneDec in *.
  apply andb_true_iff in Hup as [?%negb_true_iff%bool_decide_eq_false ?%negb_true_iff%bool_decide_eq_false].
  apply andb_true_iff in Hdown as [?%negb_true_iff%bool_decide_eq_false ?%negb_true_iff%bool_decide_eq_false].
  repeat split; lia.
Qed.

Section Fee.
Context {P : Type} `{!KVStore P, !KVStoreLaws P}.
Abbreviation Ctx := (sdkContext (P * Bank.bank) evm_event).
Implicit Types c : Ctx.

Lemma NextBaseFee_set params c fee : Z.abs fee < 2 ^ 315 -> GetNextBaseFeePerGas params (SetNextBaseFeePerGas c fee) = Some fee.
Proof.
  intros Hf. unfold GetNextBaseFeePerGas, SetNextBaseFeePerGas. rewrite evm_store_set, kv_Get_view, kv_Set_view by done.
  rewrite lookup_insert_eq. by apply dec_JSON_roundtrip.
Qed.

(** C34. With parameters that [Validate] accepts, a minimum fee that is not above the maximum,
    a positive gas target, a gas limit of the block that is set and not negative, and fees
    below 2^200, the adjustment of the base fee never panics.  The new fee is stored for the
    next block and lies between the minimum and the maximum; before it is clamped it is not
    below the old fee and at most the upward adjustment above it when the gas used, up to
    the limit, is above the target, and otherwise not above the old fee and at most the
    downward adjustment below it. *)
Theorem base_fee_adjustment params c prev min max gasUsed maxGas :
  Params_Validate params = Some true -> MinimumFeePerGas params = Some min -> MaximumFeePerGas params = Some max -> min <= max < 2 ^ 200 ->
  GetNextBaseFeePerGas params c = Some prev -> 0 <= prev < 2 ^ 200 ->
  0 < TargetGasUsedPerBlock params < 2 ^ 63 -> 0 <= gasUsed < 2 ^ 63 -> 0 <= maxGas < 2 ^ 63 ->
  exists c' fee raw up down, AdjustDynamicBaseFeePerGas params (Some maxGas) gasUsed c = Some (c', Some fee) /\
    GetNextBaseFeePerGas params c' = Some fee /\ min <= fee <= max /\ fee = Z.min max (Z.max min raw) /\
    MaxDynamicBaseFeeUpwardAdjustment params = Some up /\ MaxDynamicBaseFeeDownwardAdjustment params = Some down /\
    (TargetGasUsedPerBlock params < Z.min gasUsed maxGas -> prev <= raw <= chopPrecisionAndRound (prev * (One + up))) /\
    (Z.min gasUsed maxGas <= TargetGasUsedPerBlock params -> chopPrecisionAndRound (prev * (One - down)) <= raw <= prev).
Proof.
  intros Hval Hmin Hmax Hmm Hprev Hp Ht Hg Hl. pose proof One_bounds.
  destruct (Validate_bounds params Hval) as (min' & max' & up & down & Hmin' & Hmax' & Hup & Hdown & Hmin0 & _ & Hu & Hd).
  assert (min' = min) as -> by congruence. unfold AdjustDynamicBaseFeePerGas. rewrite Hprev, Hmin, Hmax. cbn [mbind option_bind].
  rewrite !int64_small by lia. rewrite !NewDec_whole. cbn [mbind option_bind]. rewrite bool_decide_eq_false_2 by nia.
  destruct (adjusted_fee_spec params prev (TargetGasUsedPerBlock params) maxGas gasUsed up down) as (raw & Hraw & H1 & H2); try done.
  rewrite Hraw. cbn [mbind option_bind].
  set (fee := Z.min max (Z.max min raw)).
  assert (Hfee : (if bool_decide (max < (if bool_decide (raw < min) then min else raw)) then max else (if bool_decide (raw < min) then min else raw)) = fee).
  { unfold fee. repeat case_bool_decide; lia. }
  cbv zeta. rewrite Hfee. exists (SetNextBaseFeePerGas c fee), fee, raw, up, down.
  split; [done|]. split; [apply NextBaseFee_set; unfold fee; lia|]. split; [unfold fee; lia|]. done.
Qed.

(** A block without a gas limit, which the consensus parameters write as -1, counts as
    emptier than empty: whatever gas it used, the fee falls by at least the whole downward
    adjustment, down to the minimum. *)
Theorem unlimited_gas_lowers_fee params c prev min max down gasUsed :
  Params_Validate params = Some true -> MinimumFeePerGas params = Some min -> MaximumFeePerGas params = Some max -> min <= max < 2 ^ 200 ->
  MaxDynamicBaseFeeDownwardAdjustment params = Some down -> GetNextBaseFeePerGas params c = Some prev -> 0 <= prev < 2 ^ 200 ->
  0 < TargetGasUsedPerBlock params < 2 ^ 63 -> 0 <= gasUsed < 2 ^ 63 ->
  exists c' fee, AdjustDynamicBaseFeePerGas params (Some (-1)) gasUsed c = Some (c', Some fee) /\
    fee <= Z.max min (chopPrecisionAndRound (prev * (One - down))).
Proof.
  intros Hval Hmin Hmax Hmm Hdown Hprev Hp Ht Hg. pose proof One_bounds as HP.
  destruct (Validate_bounds params Hval) as (_ & _ & _ & down' & _ & _ & _ & Hdown' & _ & _ & _ & Hd).
  assert (down' = down) as -> by congruence. set (t := TargetGasUsedPerBlock params) in *.
  unfold AdjustDynamicBaseFeePerGas. rewrite Hprev, Hmin, Hmax. cbn [mbind option_bind]. fold t.
  rewrite !int64_small by lia. rewrite !NewDec_whole. cbn [mbind option_bind]. rewrite (bool_decide_eq_false_2 (t * One = 0)) by nia.
  destruct (adjusted_fee_unlimited params prev t gasUsed down) as (raw & -> & Hraw); [done..|]. cbn [mbind option_bind].
  eexists _, _. split; [done|].
  repeat case_bool_decide; lia.
Qed.

(** What the adjustment finds: no block parameters, or valid parameters, a previous fee in
    range or none, and gas and limits in range, -1 for no limit. *)
Definition fee_ok (params : Params) (maxGas : option Z) (gasUsed : Z) c : Prop :=
  match maxGas with
  | None => True
  | Some limit =>
      Params_Validate params = Some true /\ (forall min, MinimumFeePerGas params = Some min -> min < 2 ^ 200) /\
      (exists prev, kv_view (evm_store c) !! NextBaseFeePerGasPrefix = dec_MarshalJSON <$> prev /\ 0 <= default 0 prev < 2 ^ 200) /\
      0 <= TargetGasUsedPerBlock params < 2 ^ 63 /\ 0 <= gasUsed < 2 ^ 63 /\ -1 <= limit < 2 ^ 63
  end.
Lemma fee_ok_returns params maxGas gasUsed c : fee_ok params maxGas gasUsed c -> is_Some (AdjustDynamicBaseFeePerGas params maxGas gasUsed c).
Proof.
  destruct maxGas as [limit|]; [|intros _; by eexists]. intros (Hval & Hmin' & (prev & Hprev & Hp) & Ht & Hg & Hl). pose proof One_bounds as HP.
  destruct (Validate_bounds params Hval) as (min & max & up & down & Hmin & Hmax & Hup & Hdown & Hmin0 & _ & Hu & Hd). specialize (Hmin' min Hmin).
  assert (Hget : exists fee, GetNextBaseFeePerGas params c = Some fee /\ 0 <= fee < 2 ^ 200).
  { unfold GetNextBaseFeePerGas. rewrite kv_Get_view, Hprev by done. destruct prev as [z|]; simpl in *; [|rewrite Hmin; by exists min].
    exists z. split; [apply dec_JSON_roundtrip; lia|done]. }
  destruct Hget as (fee & Hget & Hfee). unfold AdjustDynamicBaseFeePerGas. rewrite Hget, Hmin, Hmax. cbn [mbind option_bind].
  rewrite !int64_small by lia. rewrite !NewDec_whole. cbn [mbind option_bind]. case_bool_decide as H0; [by eexists|].
  assert (Ht0 : 0 < TargetGasUsedPerBlock params) by (destruct (decide (TargetGasUsedPerBlock params = 0)) as [E|]; [rewrite E in H0; lia|lia]).
  destruct (decide (limit = -1)) as [->|Hlim].
  - destruct (adjusted_fee_unlimited params fee (TargetGasUsedPerBlock params) gasUsed down) as (raw & -> & _); [done || lia..|]. by eexists.
  - destruct (adjusted_fee_spec params fee (TargetGasUsedPerBlock params) limit gasUsed up down) as (raw & -> & _); [done || lia..|]. by eexists.
Qed.
End Fee.
