(* ===== verification/EVMPrune.v ===== *)
(** Pruning of zero storage slots at the end of a block: it is invisible to the EVM, and
    its checkpoint makes it sweep the whole storage. *)
From stdpp Require Import base gmap sets list strings sorting.
From Stdlib Require Import ZArith Lia.
From S2P Require Import Prelude Coins CoinsSpec Decimal Vesting Bank KVStore MergeIter PrefixStore StateDB StateDBEquiv StateDBRevert EVMKeeper EVMKeeperSpec Proto EVMTypes EVMBlock.
Local Open Scope Z_scope.

Section Prune.
Context {P : Type} `{!KVStore P, !KVStoreLaws P}.
Abbreviation Ctx := (sdkContext (P * Bank.bank) evm_event).
Implicit Types c : Ctx.

Abbreviation view c := (kv_view (evm_store c)).
(** The storage slots: address and key together to value. *)
Definition slots c : gmap bytes bytes := prefix_view StateKeyPrefix (evm_store c).
Definition keys_ok c : Prop := forall k, is_Some (view c !! k) -> bytes_ok k.

Lemma slots_lookup c k : slots c !! k = view c !! (3 :: k).
Proof. apply lookup_prefix_view. Qed.

(** What happens to a value that the loop visits. *)
Definition pruned (v : option bytes) : option bytes := match v with Some v => if isZeroStorageValue v then None else Some v | None => None end.

Lemma pruned_idem v : pruned (pruned v) = pruned v.
Proof. destruct v as [v|]; [|done]. simpl. destruct (isZeroStorageValue v) eqn:Hv; [done|]. simpl. by rewrite Hv. Qed.

(** Only the store of the module changes. *)
Definition same_but_store c c' : Prop := c' = set_evm c (evm_store c').

Lemma prune_loop_spec limit keys processed deleted lastKey c :
  (processed <= limit)%nat ->
  let m := ((limit - processed) `min` length keys)%nat in
  exists c' n last', prune_loop limit processed deleted lastKey keys c = (c', (processed + m)%nat, n, last', bool_decide (limit - processed < length keys)%nat) /\
    same_but_store c c' /\ last' = match last (take m keys) with Some k => Some k | None => lastKey end /\
    (forall k, view c' !! (3 :: k) = if decide (k ∈ take m keys) then pruned (view c !! (3 :: k)) else view c !! (3 :: k)) /\
    (forall j, (forall k, j <> 3 :: k) -> view c' !! j = view c !! j).
Proof.
  revert processed deleted lastKey c. induction keys as [|key keys IH]; intros processed deleted lastKey c Hle; cbv zeta.
  { exists c, deleted, lastKey. cbn [prune_loop length]. rewrite Nat.min_0_r, Nat.add_0_r, bool_decide_eq_false_2 by lia.
    split; [done|]. split; [by destruct c as [[] ? ? ? ? ?]|]. split; [done|]. split; [|done].
    intros k. by rewrite decide_False by (by intros ?%elem_of_nil). }
  cbn [prune_loop length]. destruct (decide (processed < limit)%nat) as [Hlt|Hge].
  2: { rewrite bool_decide_eq_false_2 by done. exists c, deleted, lastKey. replace (limit - processed)%nat with 0%nat by lia. cbn [Nat.min].
    rewrite Nat.add_0_r, bool_decide_eq_true_2 by lia. split; [done|]. split; [by destruct c as [[] ? ? ? ? ?]|]. split; [done|]. split; [|done].
    intros k. by rewrite decide_False by (by intros ?%elem_of_nil). }
  rewrite bool_decide_eq_true_2 by done.
  set (c1 := if match pf_Get StateKeyPrefix (evm_store c) key with Some v => isZeroStorageValue v | None => false end
             then prefix_Delete c StateKeyPrefix key else c).
  assert (H1 : forall k, view c1 !! (3 :: k) = if decide (k = key) then pruned (view c !! (3 :: k)) else view c !! (3 :: k)).
  { intros k. unfold c1. unfold pf_Get, pf_key. change (StateKeyPrefix ++ key) with (3 :: key). rewrite kv_Get_view by done.
    destruct (view c !! (3 :: key)) as [v|] eqn:Hv.
    - destruct (isZeroStorageValue v) eqn:Hz.
      + unfold prefix_Delete, pf_Delete, pf_key. change (StateKeyPrefix ++ key) with (3 :: key). rewrite evm_store_set, kv_Delete_view by done.
        case_decide as Hk; [subst; rewrite lookup_delete_eq, Hv; simpl; by rewrite Hz|]. by rewrite lookup_delete_ne by congruence.
      + case_decide; [subst; rewrite Hv; simpl; by rewrite Hz|done].
    - case_decide; [subst; by rewrite Hv|done]. }
  assert (H2 : forall j, (forall k, j <> 3 :: k) -> view c1 !! j = view c !! j).
  { intros j Hj. unfold c1. destruct (match pf_Get _ _ _ with Some v => _ | None => _ end); [|done].
    unfold prefix_Delete, pf_Delete, pf_key. change (StateKeyPrefix ++ key) with (3 :: key). rewrite evm_store_set, kv_Delete_view by done.
    by rewrite lookup_delete_ne by (symmetry; apply Hj). }
  assert (H3 : same_but_store c c1) by (unfold c1, same_but_store; destruct (match pf_Get _ _ _ with Some v => _ | None => _ end); [done|by destruct c as [[] ? ? ? ? ?]]).
  set (del1 := if match pf_Get StateKeyPrefix (evm_store c) key with Some v => isZeroStorageValue v | None => false end then S deleted else deleted).
  destruct (IH (S processed) del1 (Some key) c1 ltac:(lia)) as (c' & n & last' & Hrun & Hs & Hlast & Hk & Hj).
  exists c', n, last'. split; [|split; [|split; [|split]]].
  - replace (processed + (limit - processed) `min` S (length keys))%nat with (S processed + (limit - S processed) `min` length keys)%nat by lia.
    rewrite (bool_decide_ext (limit - processed < S (length keys))%nat (limit - S processed < length keys)%nat) by lia.
    rewrite <- Hrun. unfold c1, del1. destruct (pf_Get StateKeyPrefix (evm_store c) key) as [v|]; [|done]. by destruct (isZeroStorageValue v).
  - unfold same_but_store in *. rewrite Hs, H3. done.
  - replace ((limit - processed) `min` S (length keys))%nat with (S ((limit - S processed) `min` length keys)) by lia.
    cbn [take]. rewrite last_cons, Hlast. by destruct (last _).
  - intros k. replace ((limit - processed) `min` S (length keys))%nat with (S ((limit - S processed) `min` length keys)) by lia.
    cbn [take]. rewrite Hk, H1. destruct (decide (k ∈ take _ keys)) as [Hin|Hin].
    + rewrite (decide_True (P := k ∈ key :: _)) by by right. destruct (decide (k = key)); [apply pruned_idem|done].
    + destruct (decide (k = key)) as [->|Hne]; [by rewrite decide_True by left|].
      rewrite decide_False; [done|]. rewrite elem_of_cons. naive_solver.
  - intros j Hj'. by rewrite Hj, H2.
Qed.

(** ** One call *)
Definition slots_ok c : Prop := keys_ok c /\ slots c !! [] = None.

(** The keys that are still to be visited in this sweep. *)
Definition todo c : list bytes :=
  match (entries_of true (slots c) (GetZeroStorageCleanupCheckpoint c) None).*1 with
  | key :: keys => if bool_decide (Some key = GetZeroStorageCleanupCheckpoint c) then keys else key :: keys
  | [] => []
  end.

Lemma checkpoint_set c key :
  GetZeroStorageCleanupCheckpoint (setZeroStorageCleanupCheckpoint c key) = match key with Some [] => None | _ => key end.
Proof.
  unfold GetZeroStorageCleanupCheckpoint, setZeroStorageCleanupCheckpoint.
  destruct key as [[|b key]|]; rewrite evm_store_set, kv_Get_view, ?kv_Delete_view, ?kv_Set_view, ?lookup_delete_eq, ?lookup_insert_eq by done; done.
Qed.

Lemma set_checkpoint_view c key j : j <> ZeroStorageCleanupCheckpointKey -> view (setZeroStorageCleanupCheckpoint c key) !! j = view c !! j.
Proof.
  intros Hj. unfold setZeroStorageCleanupCheckpoint. destruct key as [[|b key]|]; rewrite evm_store_set, ?kv_Delete_view, ?kv_Set_view by done;
    by rewrite ?lookup_delete_ne, ?lookup_insert_ne by done.
Qed.

Lemma set_checkpoint_keys c key : keys_ok c -> keys_ok (setZeroStorageCleanupCheckpoint c key).
Proof.
  intros Hok j Hj. destruct (decide (j = ZeroStorageCleanupCheckpointKey)) as [->|Hne]; [repeat constructor; lia|].
  rewrite set_checkpoint_view in Hj by done. by apply Hok.
Qed.

Lemma todo_elem c k : k ∈ todo c -> is_Some (slots c !! k).
Proof.
  unfold todo. intros Hk. assert (Hin : k ∈ (entries_of true (slots c) (GetZeroStorageCleanupCheckpoint c) None).*1).
  { destruct ((entries_of true (slots c) _ None).*1) as [|k0 ks]; [done|]. case_bool_decide; [by right|done]. }
  apply list_elem_of_fmap in Hin as ([k' v] & -> & [Hv _]%entries_of_elem). by exists v.
Qed.

(** The end of a call: what becomes of the checkpoint. *)
Definition finish (limit d : nat) (keys : list bytes) (c c1 : Ctx) (lastKey : option bytes) : Ctx * (nat * nat) :=
  let processed := (limit `min` length keys)%nat in
  let valid := bool_decide (limit < length keys)%nat in
  if bool_decide (processed = 0)%nat then
    (if bool_decide (GetZeroStorageCleanupCheckpoint c <> None) && negb valid then setZeroStorageCleanupCheckpoint c1 None else c1, (0, 0)%nat)
  else (setZeroStorageCleanupCheckpoint c1 (if valid then lastKey else None), (processed, d)).

Lemma finish_spec limit d keys c c1 :
  (0 < limit)%nat -> (forall k, k ∈ keys -> k <> []) -> keys_ok c1 -> GetZeroStorageCleanupCheckpoint c1 = GetZeroStorageCleanupCheckpoint c ->
  exists c' n, finish limit d keys c c1 (last (take limit keys)) = (c', n) /\ same_but_store c1 c' /\ keys_ok c' /\
    (forall j, j <> ZeroStorageCleanupCheckpointKey -> view c' !! j = view c1 !! j) /\
    GetZeroStorageCleanupCheckpoint c' = if bool_decide (length keys <= limit)%nat then None else last (take limit keys).
Proof.
  intros Hl Hne Hok Hcp. unfold finish. destruct keys as [|k0 ks].
  - cbn [length]. rewrite Nat.min_0_r, bool_decide_eq_true_2 by done. rewrite (bool_decide_eq_false_2 (limit < 0)%nat), (bool_decide_eq_true_2 (0 <= limit)%nat) by lia.
    rewrite andb_true_r. case_bool_decide as Hn.
    + eexists _, _. split; [done|]. split; [done|]. split; [by apply set_checkpoint_keys|]. split; [intros; by apply set_checkpoint_view|]. by rewrite checkpoint_set.
    + exists c1, (0, 0)%nat. split; [done|]. split; [by destruct c1 as [[] ? ? ? ? ?]|]. split; [done|]. split; [done|]. rewrite Hcp. by destruct (GetZeroStorageCleanupCheckpoint c); [destruct Hn|].
  - assert (Hlast : exists k, last (take limit (k0 :: ks)) = Some k /\ k <> []).
    { destruct limit as [|n]; [lia|]. cbn [take]. destruct (last (k0 :: take n ks)) as [k|] eqn:Hk; [|by apply last_None in Hk].
      exists k. split; [done|]. apply Hne. apply last_Some_elem_of in Hk. rewrite elem_of_cons in *. destruct Hk as [->|Hk]; [by left|]. right.
      rewrite <- (take_drop n ks). apply elem_of_app. by left. }
    destruct Hlast as (k & -> & Hk). rewrite bool_decide_eq_false_2 by (simpl; lia).
    eexists _, _. split; [done|]. split; [unfold same_but_store, setZeroStorageCleanupCheckpoint; by repeat case_match|].
    split; [by apply set_checkpoint_keys|]. split; [intros; by apply set_checkpoint_view|]. rewrite checkpoint_set.
    rewrite (bool_decide_ext (length (k0 :: ks) <= limit)%nat (~ (limit < length (k0 :: ks))%nat)) by lia. rewrite bool_decide_not.
    case_bool_decide; [|done]. simpl. by destruct k.
Qed.

Lemma Prune_spec limit c :
  (0 < limit)%nat -> slots_ok c ->
  exists c' n, PruneZeroStorageSlots limit c = Some (c', n) /\ same_but_store c c' /\ slots_ok c' /\
    (forall k, slots c' !! k = if decide (k ∈ take limit (todo c)) then pruned (slots c !! k) else slots c !! k) /\
    (forall j, (forall k, j <> 3 :: k) -> j <> ZeroStorageCleanupCheckpointKey -> view c' !! j = view c !! j) /\
    GetZeroStorageCleanupCheckpoint c' = if bool_decide (length (todo c) <= limit)%nat then None else last (take limit (todo c)).
Proof.
  intros Hl [Hok Hnil]. unfold PruneZeroStorageSlots. rewrite bool_decide_eq_false_2 by lia.
  pose proof (pf_iterate_view StateKeyPrefix (evm_store c) (GetZeroStorageCleanupCheckpoint c) None true) as Hit. simpl in Hit.
  rewrite Hit; [|repeat constructor; lia|done|done]. cbn [mbind option_bind]. cbv zeta.
  change (prune_loop limit 0 0 None _ c) with (prune_loop limit 0 0 None (todo c) c).
  destruct (prune_loop_spec limit (todo c) 0 0 None c) as (c1 & d & last' & Hrun & Hs & Hlast & Hk & Hj); [lia|]. rewrite Nat.sub_0_r in *.
  rewrite Hrun. clear Hrun. assert (Htake : take (limit `min` length (todo c)) (todo c) = take limit (todo c)).
  { destruct (decide (limit <= length (todo c))%nat); [by rewrite Nat.min_l by lia|]. rewrite Nat.min_r by lia. by rewrite !take_ge by lia. }
  rewrite Htake in *. assert (last' = last (take limit (todo c))) as -> by (rewrite Hlast; by destruct (last _)).
  assert (Hok1 : keys_ok c1).
  { intros j Hsome. apply Hok. destruct j as [|b k]; [by rewrite <- Hj|]. destruct (decide (b = 3)) as [->|Hb]; [|rewrite <- Hj; [done|congruence]].
    rewrite Hk in Hsome. case_decide; [|done]. destruct (view c !! (3 :: k)); [done|by destruct Hsome]. }
  assert (Hcp : GetZeroStorageCleanupCheckpoint c1 = GetZeroStorageCleanupCheckpoint c).
  { unfold GetZeroStorageCleanupCheckpoint. by rewrite !kv_Get_view, Hj by done. }
  destruct (finish_spec limit d (todo c) c c1 Hl) as (c' & n & Hfin & Hs' & Hok' & Hv & Hcp'); [|done|done|].
  { intros k Hin ->. apply todo_elem in Hin as [v Hv]. congruence. }
  assert (Hslots : forall k, slots c' !! k = if decide (k ∈ take limit (todo c)) then pruned (slots c !! k) else slots c !! k).
  { intros k. by rewrite !slots_lookup, Hv, Hk. }
  exists c', n. split; [unfold finish in Hfin; f_equal; exact Hfin|]. split; [unfold same_but_store in *; by rewrite Hs', Hs|].
  split; [split; [done|]; rewrite Hslots, Hnil; by destruct (decide _)|]. split; [done|]. split; [|done]. intros j Hj1 Hj2. by rewrite Hv, Hj.
Qed.

Lemma zeros_word n v : isZeroStorageValue v = true -> last_bytes n v = replicate n 0.
Proof.
  intros Hv. assert (Hr : v = replicate (length v) 0).
  { unfold isZeroStorageValue in Hv. induction v as [|b v IH]; [done|]. simpl in Hv. apply andb_true_iff in Hv as [Hb Hv].
    apply bool_decide_eq_true in Hb as ->. simpl. f_equal. by apply IH. }
  unfold last_bytes. case_bool_decide.
  - rewrite Hr, drop_replicate, length_replicate. f_equal. lia.
  - rewrite Hr at 2. rewrite <- replicate_add. f_equal. lia.
Qed.

(** C32. Pruning is invisible: it never panics, every storage slot of every account reads
    as before, nothing but storage slots and the checkpoint changes in the module's store,
    and the bank and the events are untouched. *)
Theorem prune_invisible limit c :
  (0 < limit)%nat -> slots_ok c ->
  exists c' n, PruneZeroStorageSlots limit c = Some (c', n) /\ slots_ok c' /\
    (forall addr hash, GetState c' addr hash = GetState c addr hash) /\
    (forall j, (forall k, j <> StateKeyPrefix ++ k) -> j <> ZeroStorageCleanupCheckpointKey -> kv_view (evm_store c') !! j = kv_view (evm_store c) !! j) /\
    bank_store c' = bank_store c /\ cx_events c' = cx_events c.
Proof.
  intros Hl Hok. destruct (Prune_spec limit c Hl Hok) as (c' & n & Hrun & Hs & Hok' & Hslots & Hother & _). exists c', n.
  split; [done|]. split; [done|]. split; [|split; [intros j Hj; by apply Hother|unfold same_but_store in Hs; by rewrite Hs]].
  intros addr hash. unfold GetState, pf_Get, pf_key, StateKey. rewrite <- !app_assoc, !kv_Get_view by done. cbn [app StateKeyPrefix].
  rewrite <- !slots_lookup, Hslots. destruct (decide _); [|done]. destruct (slots c !! (addr ++ hash)) as [v|]; [|done]. simpl.
  destruct (isZeroStorageValue v) eqn:Hz; [|done]. symmetry. by apply zeros_word.
Qed.

(** ** Sweeps *)
Fixpoint prune_times (n limit : nat) c : option Ctx :=
  match n with O => Some c | S n => match PruneZeroStorageSlots limit c with Some (c, _) => prune_times n limit c | None => None end end.

Definition zero_free c : Prop := forall k v, slots c !! k = Some v -> isZeroStorageValue v = false.
(** What was visited in this sweep holds no zeros. *)
Definition swept c : Prop := forall k v, slots c !! k = Some v -> k ∉ todo c -> isZeroStorageValue v = false.

Definition after (cp : option bytes) (k : bytes) : Prop := match cp with None => True | Some cp => cp <b k end.

Lemma sorted_keys c : StronglySorted bytes_lt (entries_of true (slots c) (GetZeroStorageCleanupCheckpoint c) None).*1.
Proof. pose proof (entries_of_sorted true (slots c) (GetZeroStorageCleanupCheckpoint c) None) as H. by apply it_sorted_ascending. Qed.

Lemma checkpoint_nonempty c : GetZeroStorageCleanupCheckpoint c <> Some [].
Proof. unfold GetZeroStorageCleanupCheckpoint. by destruct (kv_Get _ _) as [[|]|]. Qed.

Lemma todo_spec c : StronglySorted bytes_lt (todo c) /\
  forall k, k ∈ todo c <-> is_Some (slots c !! k) /\ after (GetZeroStorageCleanupCheckpoint c) k.
Proof.
  pose proof (sorted_keys c) as Hs. unfold todo. set (cp := GetZeroStorageCleanupCheckpoint c) in *.
  assert (Hin : forall k, k ∈ (entries_of true (slots c) cp None).*1 <-> is_Some (slots c !! k) /\ default [] cp <=b k).
  { intros k. rewrite list_elem_of_fmap. split.
    - intros ([k' v] & -> & [Hv Hd]%entries_of_elem). unfold in_domain in Hd. rewrite andb_true_r in Hd. apply bool_decide_eq_true in Hd. by split; [exists v|].
    - intros [[v Hv] Hle]. exists (k, v). split; [done|]. apply entries_of_elem. split; [done|]. unfold in_domain. by rewrite bool_decide_eq_true_2. }
  set (l := (entries_of true (slots c) cp None).*1) in *. clearbody l.
  assert (Hcase : forall k, (default [] cp <=b k <-> Some k = cp \/ after cp k)).
  { intros k. unfold after. destruct cp as [x|]; simpl; [|split; [by right|intros; apply bytes_le_nil]].
    rewrite bytes_le_lteq. split; intros [H|H]; [by right|left; congruence|right; congruence|by left]. }
  destruct l as [|key keys].
  { split; [constructor|]. intros k. split; [by intros ?%elem_of_nil|]. intros [Hk Ha]. apply Hin. split; [done|]. apply Hcase. by right. }
  apply StronglySorted_inv in Hs as [Hs1 Hs2]. rewrite Forall_forall in Hs2. case_bool_decide as Hcp.
  - split; [done|]. intros k. split.
    + intros Hk. assert (Hk' : k ∈ key :: keys) by by right. apply Hin in Hk' as [Hsome _]. split; [done|]. rewrite <- Hcp. simpl. by apply Hs2.
    + intros [Hk Ha]. assert (Hk' : k ∈ key :: keys) by (apply Hin; split; [done|]; apply Hcase; by right).
      apply elem_of_cons in Hk' as [->|Hk']; [|done]. rewrite <- Hcp in Ha. simpl in Ha. by apply bytes_lt_irrefl in Ha.
  - split; [by constructor; [|apply Forall_forall]|]. intros k. rewrite Hin, Hcase. split; [|by intros [? ?]; split; [|right]].
    intros [Hk [Hkc|Ha]]; [|done]. exfalso. subst cp.
    (* the checkpoint would be the first key *)
    assert (Hk' : k ∈ key :: keys) by (apply Hin; split; [done|]; apply Hcase; by left).
    apply elem_of_cons in Hk' as [->|Hk']; [done|]. specialize (Hs2 k Hk').
    assert (Hkey : key ∈ key :: keys) by left. apply Hin in Hkey as [_ Hle%Hcase]. rewrite <- Hkc in Hle.
    destruct Hle as [Hle|Hle]; [congruence|]. simpl in Hle. by apply (bytes_lt_irrefl k), (bytes_lt_trans _ key).
Qed.

(** What follows the last of the first [n] elements of a sorted list is the rest. *)
Lemma sorted_rest (l : list bytes) n x :
  StronglySorted bytes_lt l -> last (take n l) = Some x -> forall k, k ∈ drop n l <-> k ∈ l /\ x <b k.
Proof.
  intros Hs [l' Hl]%last_Some k. rewrite <- (take_drop n l), Hl in Hs. apply StronglySorted_app in Hs as (Hlr & Hs & _).
  apply StronglySorted_app in Hs as (Hlx & _ & _). rewrite <- (take_drop n l) at 2. rewrite Hl, !elem_of_app, list_elem_of_singleton. split.
  - intros Hk. split; [by right|]. apply Hlr; [apply elem_of_app; right; by left|done].
  - intros [[[Hk|Hk]|Hk] Hx]; [|subst; by apply bytes_lt_irrefl in Hx|done].
    exfalso. apply (bytes_lt_irrefl x), (bytes_lt_trans _ k); [done|]. apply Hlx; [done|by left].
Qed.

Lemma sorted_NoDup (l : list bytes) : StronglySorted bytes_lt l -> NoDup l.
Proof. intros Hs. apply (sorted_nodup true). by apply it_sorted_ascending. Qed.

(** A call moves the sweep on by [limit] keys, or ends it. *)
Lemma Prune_sweeps limit c :
  (0 < limit)%nat -> slots_ok c -> swept c ->
  exists c' n, PruneZeroStorageSlots limit c = Some (c', n) /\ slots_ok c' /\ (zero_free c -> zero_free c') /\
    if bool_decide (length (todo c) <= limit)%nat then zero_free c' else swept c' /\ length (todo c') = (length (todo c) - limit)%nat.
Proof.
  intros Hl Hok Hsw. destruct (Prune_spec limit c Hl Hok) as (c' & n & Hrun & _ & Hok' & Hslots & _ & Hcp). exists c', n.
  split; [done|]. split; [done|]. assert (Hpr : forall k v, k ∈ take limit (todo c) -> slots c' !! k = Some v -> isZeroStorageValue v = false).
  { intros k v Hk Hv. rewrite Hslots, decide_True in Hv by done. destruct (slots c !! k) as [w|]; [|done]. simpl in Hv.
    destruct (isZeroStorageValue w) eqn:Hw; [done|]. by simplify_eq. }
  assert (Hnot : forall k, k ∉ take limit (todo c) -> slots c' !! k = slots c !! k) by (intros k Hk; by rewrite Hslots, decide_False).
  split.
  { intros Hz k v Hv. destruct (decide (k ∈ take limit (todo c))); [by eapply Hpr|]. rewrite Hnot in Hv by done. by eapply Hz. }
  destruct (todo_spec c) as [Hsort Hin]. case_bool_decide as Hle.
  - intros k v Hv. rewrite take_ge in Hnot, Hpr by done. destruct (decide (k ∈ todo c)); [by eapply Hpr|]. rewrite Hnot in Hv by done. by eapply Hsw.
  - assert (exists x, last (take limit (todo c)) = Some x) as [x Hx].
    { destruct (last (take limit (todo c))) as [x|] eqn:Hx; [by exists x|]. apply last_None in Hx. apply (f_equal length) in Hx. rewrite length_take in Hx. simpl in Hx. lia. }
    pose proof (sorted_rest (todo c) limit x Hsort Hx) as Hrest. rewrite Hx in Hcp. destruct (todo_spec c') as [Hsort' Hin'].
    assert (Hx' : x ∈ todo c) by (apply last_Some_elem_of in Hx; rewrite <- (take_drop limit (todo c)); apply elem_of_app; by left).
    assert (Hsplit : forall k, k ∈ drop limit (todo c) -> k ∉ take limit (todo c)).
    { intros k Hk Ht. pose proof (sorted_NoDup _ Hsort) as Hnd. rewrite <- (take_drop limit (todo c)) in Hnd.
      apply NoDup_app in Hnd as (_ & Hnd & _). by apply (Hnd k). }
    assert (Hafter : forall k, x <b k -> after (GetZeroStorageCleanupCheckpoint c) k).
    { intros k Hk. apply Hin in Hx' as [_ Ha]. unfold after in *. destruct (GetZeroStorageCleanupCheckpoint c); [|done]. by apply (bytes_lt_trans _ x). }
    assert (Htodo : todo c' = drop limit (todo c)).
    { apply (it_sorted_ext true); [by apply it_sorted_ascending|apply it_sorted_ascending|].
      - rewrite <- (take_drop limit (todo c)) in Hsort. by apply StronglySorted_app_1_r in Hsort.
      - intros k. rewrite Hin', Hcp, Hrest. unfold after at 1. split.
        + intros [Hk Hxk]. split; [|done]. apply Hin. split; [|by apply Hafter]. destruct (decide (k ∈ take limit (todo c))) as [Hk'|Hk'].
          * rewrite Hslots, decide_True in Hk by done. destruct (slots c !! k); [done|by destruct Hk].
          * by rewrite <- Hnot.
        + intros [Hk Hxk]. split; [|done]. rewrite Hnot; [by apply Hin|]. apply Hsplit. by apply Hrest. }
    rewrite Htodo, length_drop. split; [|done]. intros k v Hv Hk. rewrite Htodo in Hk. destruct (decide (k ∈ take limit (todo c))) as [Ht|Ht]; [by eapply Hpr|].
    rewrite Hnot in Hv by done. eapply Hsw; [exact Hv|]. rewrite <- (take_drop limit (todo c)), elem_of_app. tauto.
Qed.

Lemma prune_times_zero_free n limit c :
  (0 < limit)%nat -> slots_ok c -> zero_free c -> exists c', prune_times n limit c = Some c' /\ zero_free c'.
Proof.
  intros Hl. revert c. induction n as [|n IH]; intros c Hok Hz; [by exists c|]. cbn [prune_times].
  destruct (Prune_sweeps limit c Hl Hok) as (c' & r & -> & Hok' & Hz' & _); [intros k v Hv _; by eapply Hz|]. apply IH; auto.
Qed.

Lemma prune_times_sweep n limit c :
  (0 < limit)%nat -> slots_ok c -> swept c -> (length (todo c) <= n * limit)%nat -> exists c', prune_times n limit c = Some c' /\ zero_free c'.
Proof.
  intros Hl. revert c. induction n as [|n IH]; intros c Hok Hsw Hlen.
  - exists c. split; [done|]. intros k v Hv. eapply Hsw; [exact Hv|]. destruct (todo c); [by intros ?%elem_of_nil|simpl in Hlen; lia].
  - cbn [prune_times]. destruct (Prune_sweeps limit c Hl Hok Hsw) as (c' & r & -> & Hok' & _ & Hc). case_bool_decide.
    + by apply prune_times_zero_free.
    + destruct Hc as [Hsw' Hlen']. apply IH; [done|done|]. lia.
Qed.

(** The checkpoint makes the pruning complete: from the start of a sweep, a number of
    calls that covers the storage leaves no slot that holds zeros, however few slots one
    call may visit. *)
Theorem prune_sweeps_storage n limit c :
  (0 < limit)%nat -> slots_ok c -> GetZeroStorageCleanupCheckpoint c = None -> (size (slots c) <= n * limit)%nat ->
  exists c', prune_times n limit c = Some c' /\ zero_free c'.
Proof.
  intros Hl Hok Hcp Hsize. destruct (todo_spec c) as [Hsort Hin]. rewrite Hcp in Hin. apply prune_times_sweep; [done|done| |].
  - intros k v Hv Hk. exfalso. apply Hk, Hin. split; [by exists v|done].
  - etrans; [|exact Hsize]. rewrite <- size_dom. rewrite <- (size_list_to_set (C := gset bytes)) by by apply sorted_NoDup.
    apply subseteq_size. intros k. rewrite elem_of_list_to_set, Hin, elem_of_dom. by intros [? _].
Qed.
End Prune.
