(* ===== verification/EVMSettle.v ===== *)
(** The settlement of a block: at its end the tips of its transactions have reached the
    fee collector and the surplus they left behind is back in an account, so that the
    ledger of the bank adds up again. *)
From stdpp Require Import base gmap sets list strings sorting.
From Stdlib Require Import ZArith Lia.
From S2P Require Import Prelude Coins CoinsSpec Decimal Vesting Bank BankSpec BankInv BankSupply BankOps BankErrors KVStore MergeIter PrefixStore StateDB StateDBRevert EVMKeeper EVMKeeperSpec Proto EVMTypes EVMBlock EVMPrune.
Local Open Scope Z_scope.

Section Settle.
Context {P T : Type} `{!KVStore P, !KVStoreLaws P, !KVStore T, !KVStoreLaws T} (env : bank_env).
Context (EmptyTxsHash : Hash).
Hypothesis Hbase : be_baseDenom env = BaseDenom.
#[local] Existing Instances KM_ret KM_bind.
Abbreviation Ctx := (sdkContext (P * Bank.bank) evm_event).
Abbreviation U := OneUseiInWei.
Implicit Types (c : Ctx) (st : kst (P := P) (T := T)).

Definition bank_of st : Bank.bank := bank_store st.1.

Lemma KM_bind_inv {A B} (m : KM (P := P) (T := T) A) (f : A -> KM B) st r :
  (m ≫= f) st = Some r -> exists st1 a, m st = Some (st1, a) /\ f a st1 = Some r.
Proof. unfold mbind, KM_bind. destruct (m st) as [[st1 a]|]; [|done]. eauto. Qed.

Lemma k_panic_inv {A} (o : option A) st st' a : k_panic o st = Some (st', a) -> st' = st /\ o = Some a.
Proof. unfold k_panic. destruct o; [|done]. by intros [= <- <-]. Qed.

Lemma k_read_inv {A} (m : bank_env -> BM A) st st' a :
  k_read env m st = Some (st', a) -> st' = st /\ exists b, m (bank_env_at env st.1) (bank_of st) = Some (b, inl a).
Proof.
  unfold k_read, bank_read, bank_of. destruct (m _ _) as [[b [a'|e]]|]; [|done|done]. intros [= <- <-]. eauto.
Qed.

(** ** What the settlement may change: the accounts of [touched], and in the total of usei
    the amount [z] in wei. *)
Record settles (touched : AccAddress -> Prop) (z : Z) st st' : Prop := {
  s_wf : bank_wf (bank_of st');
  s_total : forall d, total env (bank_of st') d = total env (bank_of st) d + if bool_decide (BaseDenom = d) then z else 0;
  s_deferred : forall d, deferred_total (bank_of st') d = deferred_total (bank_of st) d;
  s_supply : forall d, supply (bank_of st') d = supply (bank_of st) d;
  s_accounts : b_accounts (bank_of st') = b_accounts (bank_of st);
  s_evm : evm_store st'.1 = evm_store st.1;
  s_value : forall x d, ~ touched x -> value env (bank_of st') x d = value env (bank_of st) x d
}.

Lemma settles_refl touched st st' : bank_wf (bank_of st) -> st'.1 = st.1 -> settles touched 0 st st'.
Proof. intros Hwf Heq. unfold bank_of in *. split; unfold bank_of; rewrite Heq; try done. intros d. case_bool_decide; lia. Qed.

Lemma settles_trans t1 t2 z1 z2 st st1 st2 :
  settles t1 z1 st st1 -> settles t2 z2 st1 st2 -> settles (fun x => t1 x \/ t2 x) (z1 + z2) st st2.
Proof.
  intros [W1 T1 D1 S1 A1 E1 V1] [W2 T2 D2 S2 A2 E2 V2]. split; [done| | | |congruence|congruence|].
  - intros d. rewrite T2, T1. case_bool_decide; lia.
  - intros d. by rewrite D2.
  - intros d. by rewrite S2.
  - intros x d Hx. rewrite V2, V1; tauto.
Qed.

(** The change of the ledger by a bank operation: accounts and the module's store stay. *)
Definition moved ch st st' : Prop :=
  changes env ch (bank_of st) (bank_of st') /\ b_accounts (bank_of st') = b_accounts (bank_of st) /\ evm_store st'.1 = evm_store st.1.

Lemma moved_same ch ch' st st' : same_change ch ch' -> moved ch st st' -> moved ch' st st'.
Proof. intros Hs [Hc Hr]. split; [by eapply changes_same|done]. Qed.
Lemma moved_trans ch ch' st st1 st' : moved ch st st1 -> moved ch' st1 st' -> moved (both ch ch') st st'.
Proof. intros (C1 & A1 & E1) (C2 & A2 & E2). split; [by eapply changes_trans|]. split; congruence. Qed.
Lemma moved_refl ch st : bank_wf (bank_of st) -> same_change no_change ch -> moved ch st st.
Proof. intros Hwf Hs. split; [|done]. eapply changes_same; [exact Hs|by apply changes_refl]. Qed.
Lemma events_wf b evs : bank_wf b -> bank_wf (set_events b evs).
Proof. intros []. by split. Qed.

(** A bank operation that cannot fail makes its change. *)
Lemma k_bank_changes m ch st st' e :
  bank_wf (bank_of st) -> (forall env', be_baseDenom env' = be_baseDenom env -> effect env' (m env') ch) ->
  (forall env', keeps_accounts (m env')) -> no_error (m (bank_env_at env st.1)) (set_events (bank_of st) []) ->
  k_bank env m st = Some (st', e) -> moved ch st st'.
Proof.
  intros Hwf Hm Hacc Hne. unfold k_bank. destruct (on_bank env st.1 m) as [[c' e']|] eqn:Hrun; [|done]. intros [= <- <-]. unfold moved, bank_of. simpl.
  assert (e' = None /\ b_accounts (bank_store c') = b_accounts (bank_store st.1)) as [-> Ha].
  { unfold on_bank in Hrun. unfold no_error, bank_of in Hne. destruct (m _ _) as [[b r]|] eqn:Hr; [|done]. injection Hrun as <- <-.
    specialize (Hacc _ _ _ _ Hr). destruct r; [|done]. by split. }
  destruct (on_bank_changes env st.1 c' m ch Hwf Hm Hrun) as [Hch Hev]. by split.
Qed.

Lemma moved_settles ch touched z st st' :
  moved ch st st' -> (forall d, ch_total ch d = if bool_decide (BaseDenom = d) then z else 0) -> (forall d, ch_deferred ch d = 0) -> (forall d, ch_supply ch d = 0) ->
  (forall x d, ~ touched x -> ch_value ch x d = 0) -> settles touched z st st'.
Proof.
  intros ((Hwf & V & T' & D & S) & Ha & He) HT HD HS HV. split; [done| | | |done|done|].
  - intros d. by rewrite T', HT.
  - intros d. rewrite D, HD. lia.
  - intros d. rewrite S, HS. lia.
  - intros x d Hx. rewrite V, HV by done. lia.
Qed.

(** ** One transaction *)
Abbreviation coinbase_of info := (GetCoinbaseAddress (pb.di_TxIndex info)).
Definition no_vesting (b : Bank.bank) (x : AccAddress) : Prop := match b_accounts b !! x with Some (VestingAcc _) => False | _ => True end.
Definition info_surplus (info : pb.DeferredInfo) : Z := if failed_info EmptyTxsHash info then 0 else default 0 (pb.di_Surplus info).

Lemma LockedCoins_run env' x b b' locked : LockedCoins env' x b = Some (b', inl locked) -> b' = b /\ (no_vesting b x -> locked = []).
Proof.
  unfold LockedCoins, no_vesting, mbind, BM_bind, GetAccount, reads. destruct (b_accounts b !! x) as [[n|va|n nm p]|]; simpl; try by intros [= <- <-].
  unfold or_panic. destruct (va_LockedCoins _ _); [|done]. by intros [= <- <-].
Qed.

(** All that an account may spend goes to [y]. *)
Lemma pay_out_run x y locked st st' e :
  bank_wf (bank_of st) -> CanAddressReceive st.1 y = true -> LockedCoins (bank_env_at env st.1) x (bank_of st) = Some (bank_of st, inl locked) ->
  let bal := val (b_balances (bank_of st)) (x, BaseDenom) - amount locked BaseDenom in
  let wei := val (b_wei (bank_of st)) x in
  (if bool_decide (bal <> 0) || bool_decide (wei <> 0) then k_bank env (fun env => SendCoinsAndWei env x y bal wei) else mret None) st = Some (st', e) ->
  settles (fun z => z = y \/ z = x) 0 st st' /\ (amount locked BaseDenom = 0 -> x <> y -> value env (bank_of st') x BaseDenom = 0).
Proof.
  intros Hwf Hy Hlock bal wei Hrun. pose proof (wf_wei_val (bank_of st) x Hwf) as Hw. pose proof (wf_val (bank_of st) x BaseDenom Hwf) as Hb.
  assert (Hval : value env (bank_of st) x BaseDenom = val (b_balances (bank_of st)) (x, BaseDenom) * U + wei).
  { unfold value. by rewrite Hbase, bool_decide_eq_true_2. }
  destruct (bool_decide (bal <> 0) || bool_decide (wei <> 0)) eqn:Hc.
  - apply (k_bank_changes _ (transfer x y BaseDenom (Z.max 0 bal * U + wei))) in Hrun as Hch; [|done| | |].
    + split.
      * eapply moved_settles; [exact Hch| | | |]; intros; unfold transfer, both, credit, credit_value; simpl;
          repeat case_bool_decide; simpl; try lia; naive_solver.
      * intros H0 Hxy. destruct Hch as [(_ & V & _) _]. rewrite V, Hval. unfold transfer, both, credit, credit_value. simpl.
        rewrite !(bool_decide_eq_true_2 _ eq_refl), (bool_decide_eq_false_2 (y = x)) by congruence. simpl.
        unfold bal. rewrite H0, Z.sub_0_r, Z.max_r by lia. lia.
    + intros env' He. rewrite <- Hbase, <- He. apply effect_SendCoinsAndWei. lia.
    + intros env'. apply accts_SendCoinsAndWei.
    + change wei with (val (b_wei (set_events (bank_of st) [])) x). apply (no_error_send_all _ _ _ locked).
      * by apply events_wf.
      * intros b'. unfold can_receive, bank_env_at. simpl. by rewrite Hy.
      * by apply (LockedCoins_accounts _ _ (bank_of st)).
      * simpl. by rewrite Hbase.
  - injection Hrun as <- <-. split; [by apply settles_refl|]. intros H0 _. rewrite Hval.
    apply orb_false_iff in Hc as [?%bool_decide_eq_false%dec_stable ?%bool_decide_eq_false%dec_stable]. lia.
Qed.

Lemma settle_info_run y info s st st' s' :
  bank_wf (bank_of st) -> CanAddressReceive st.1 y = true -> settle_info env EmptyTxsHash y info s st = Some (st', s') ->
  settles (fun x => x = y \/ failed_info EmptyTxsHash info = false /\ x = coinbase_of info) 0 st st' /\ s' = s + info_surplus info /\
  (failed_info EmptyTxsHash info = false -> no_vesting (bank_of st) (coinbase_of info) -> coinbase_of info <> y ->
   value env (bank_of st') (coinbase_of info) BaseDenom = 0).
Proof.
  intros Hwf Hy. unfold settle_info, info_surplus. destruct (failed_info EmptyTxsHash info).
  - intros (st1 & bumped & [= <- <-] & H1)%KM_bind_inv. rewrite Z.add_0_r. destruct (GetNonceBumped _ _).
    + apply KM_bind_inv in H1 as (st1 & h & [= <- <-] & H1). apply KM_bind_inv in H1 as (st1 & [] & H2 & [= <- <-]).
      unfold SetTransientReceipt in H2. apply KM_bind_inv in H2 as (st2 & bz & [-> _]%k_panic_inv & [= <-]).
      split; [by apply settles_refl|done].
    + injection H1 as <- <-. split; [by apply settles_refl|done].
  - intros (st1 & usei & [-> (b & H1)]%k_read_inv & H2)%KM_bind_inv. apply GetBalance_run in H1 as [= _ ->].
    apply KM_bind_inv in H2 as (st1 & locked & [-> (b1 & Hl)]%k_read_inv & H3).
    destruct (LockedCoins_run _ _ _ _ _ Hl) as [-> Hnone].
    apply KM_bind_inv in H3 as (st1 & amt & [-> Ha]%k_panic_inv & H4). unfold coins_AmountOf in Ha.
    replace (ValidateDenom BaseDenom) with true in Ha by (symmetry; by vm_compute). injection Ha as <-.
    apply KM_bind_inv in H4 as (st1 & bal & [-> Hbal]%k_panic_inv & H5). rewrite int_sub_spec in Hbal. destruct (int_fits _); [|done].
    injection Hbal as <-. apply KM_bind_inv in H5 as (st1 & wei & [-> (b2 & [= <- <-])]%k_read_inv & H6). cbn [Amount] in H6.
    apply KM_bind_inv in H6 as (st1 & e & Hpay & H7). apply (pay_out_run _ _ locked) in Hpay as [Hs Hz]; [|done|done|done].
    apply KM_bind_inv in H7 as (st2 & delta & [-> Hd]%k_panic_inv & H8). apply k_panic_inv in H8 as [-> Hadd].
    rewrite int_add_spec in Hadd. destruct (int_fits _); [|done]. injection Hadd as <-. rewrite Hd. split; [|split; [done|]].
    + destruct Hs. split; try done. intros x d Hx. apply s_value0. tauto.
    + intros _ Hv Hne. apply Hz; [|done]. by rewrite Hnone.
Qed.

(** ** All transactions *)
Definition surplus_sum (infos : list pb.DeferredInfo) : Z := list_sum info_surplus infos.
Definition settled (infos : list pb.DeferredInfo) (x : AccAddress) : Prop :=
  exists info, info ∈ infos /\ failed_info EmptyTxsHash info = false /\ x = coinbase_of info.

Lemma can_receive_same c c' y : evm_store c' = evm_store c -> CanAddressReceive c' y = CanAddressReceive c y.
Proof. intros He. unfold CanAddressReceive, GetSeiAddress. by rewrite He. Qed.

Lemma settle_infos_run y infos s st st' s' :
  bank_wf (bank_of st) -> CanAddressReceive st.1 y = true -> settle_infos env EmptyTxsHash y infos s st = Some (st', s') ->
  settles (fun x => x = y \/ settled infos x) 0 st st' /\ s' = s + surplus_sum infos /\
  (forall x, settled infos x -> no_vesting (bank_of st) x -> x <> y -> value env (bank_of st') x BaseDenom = 0).
Proof.
  revert s st. induction infos as [|info infos IH]; intros s st Hwf Hy Hrun.
  { injection Hrun as <- <-. split; [by apply settles_refl|]. split; [simpl; unfold surplus_sum; simpl; lia|].
    intros x (info & Hin & _). by apply elem_of_nil in Hin. }
  apply KM_bind_inv in Hrun as (st1 & s1 & H1 & H2). apply settle_info_run in H1 as (S1 & -> & Z1); [|done|done].
  apply IH in H2 as (S2 & -> & Z2); [|apply S1|by rewrite (can_receive_same _ _ _ (s_evm _ _ _ _ S1))].
  assert (Hin : forall x, settled (info :: infos) x <-> failed_info EmptyTxsHash info = false /\ x = coinbase_of info \/ settled infos x).
  { intros x. unfold settled. setoid_rewrite elem_of_cons. naive_solver. }
  split; [|split; [unfold surplus_sum; simpl; lia|]].
  - pose proof (settles_trans _ _ _ _ _ _ _ S1 S2) as [W T' D S A E V]. split; try done. intros x d Hx. apply V. rewrite Hin in Hx. tauto.
  - intros x Hx Hv Hne. destruct (decide (failed_info EmptyTxsHash info = false /\ x = coinbase_of info)) as [[Hf ->]|Hd].
    + destruct (Exists_dec (fun i => failed_info EmptyTxsHash i = false /\ coinbase_of info = coinbase_of i) infos) as [He|He].
      * apply Z2; [|by unfold no_vesting; rewrite (s_accounts _ _ _ _ S1)|done]. apply Exists_exists in He as (i & ? & ?). by exists i.
      * rewrite (s_value _ _ _ _ S2); [by apply Z1|]. intros [?|(i & Hi & Hr)]; [done|]. apply He, Exists_exists. by exists i.
    + apply Hin in Hx as [?|Hx]; [done|]. apply Z2; [done| |done]. by unfold no_vesting; rewrite (s_accounts _ _ _ _ S1).
Qed.

(** ** The surplus *)
Lemma credit_usei_run x cs u st st' e :
  bank_wf (bank_of st) -> CanAddressReceive st.1 x = true -> new_coins BaseDenom u = Some cs -> coins_ok cs -> 0 <= u ->
  (forall d, amount cs d = if bool_decide (BaseDenom = d) then u else 0) ->
  (if bool_decide (0 < u) then coins ← k_panic (new_coins BaseDenom u); k_bank env (fun benv => AddCoins benv x coins true) else mret None) st = Some (st', e) ->
  moved (credit_coins x cs 1) st st'.
Proof.
  intros Hwf Hx Hcs Hok Hu Hd. destruct (bool_decide_reflect (0 < u)) as [Hp|Hp]; intros Hrun.
  - rewrite Hcs in Hrun. apply KM_bind_inv in Hrun as (st1 & cs' & [= <- <-] & H1).
    eapply k_bank_changes; [done| | | |exact H1].
    + intros env' _. apply effect_AddCoins.
    + intros env'. apply accts_AddCoins.
    + apply no_error_AddCoins; [by apply events_wf| |done]. unfold can_receive. simpl. by rewrite Hx.
  - injection Hrun as <- _. apply moved_refl; [done|]. assert (u = 0) as -> by lia.
    unfold credit_coins, no_change. split; [|split; [|done]]; intros; simpl; rewrite ?Hd; repeat case_bool_decide; lia.
Qed.

Lemma credit_wei_run x w st st' e :
  bank_wf (bank_of st) -> CanAddressReceive st.1 x = true -> 0 <= w ->
  (if bool_decide (0 < w) then k_bank env (fun benv => AddWei benv x w) else mret None) st = Some (st', e) -> moved (credit x BaseDenom w) st st'.
Proof.
  intros Hwf Hx Hw. destruct (bool_decide_reflect (0 < w)) as [Hp|Hp]; intros Hrun.
  - eapply k_bank_changes; [done| | | |exact Hrun].
    + intros env' He. rewrite <- Hbase, <- He. by apply effect_AddWei.
    + intros env'. apply accts_AddWei.
    + apply no_error_AddWei. unfold can_receive. simpl. by rewrite Hx.
  - injection Hrun as <- _. apply moved_refl; [done|]. assert (w = 0) as -> by lia.
    split; [|split; [|done]]; intros; simpl; unfold credit_value; case_match; done.
Qed.

Lemma credit_surplus_run S st st' u :
  let m := GetModuleAddress env ModuleName in
  bank_wf (bank_of st) -> CanAddressReceive st.1 m = true -> credit_surplus env S st = Some (st', u) ->
  settles (fun x => x = m) (Z.max 0 S) st st' /\ value env (bank_of st') m BaseDenom = value env (bank_of st) m BaseDenom + Z.max 0 S.
Proof.
  intros m Hwf Hm Hrun. assert (Hch : moved (credit m BaseDenom (Z.max 0 S)) st st').
  { unfold credit_surplus in Hrun. destruct (bool_decide_reflect (0 < S)) as [Hpos|Hpos].
    2: { injection Hrun as <-. rewrite Z.max_l by lia. apply moved_refl; [done|].
         split; [|split; [|done]]; intros; simpl; unfold credit_value; case_match; done. }
    rewrite Z.max_r by lia. unfold StateDB.SplitUseiWeiAmount in Hrun. destruct (split_amount S ltac:(lia)) as (Hsplit & Hu & Hw).
    destruct (new_coins_spec _ Hu) as (cs & Hcs & Hok & Hd).
    apply KM_bind_inv in Hrun as (st1 & e1 & H1 & Hrun). apply KM_bind_inv in Hrun as (st2 & e2 & H2 & [= <- _]).
    apply (credit_usei_run m cs _ st st1 e1 Hwf Hm Hcs Hok Hu Hd) in H1.
    apply (credit_wei_run m _ st1 st2 e2) in H2; [|apply H1|by rewrite (can_receive_same _ _ _ (proj2 (proj2 H1)))|done].
    rewrite <- (Z.mul_1_l S). eapply moved_same; [exact (usei_wei_change m cs _ _ S 1 Hd Hsplit)|].
    rewrite Z.mul_1_l. exact (moved_trans _ _ _ _ _ H1 H2). }
  split.
  - eapply moved_settles; [exact Hch|done|done|done|]. intros x d Hx. simpl. unfold credit_value. rewrite bool_decide_eq_false_2 by naive_solver. done.
  - destruct Hch as [(_ & V & _) _]. rewrite V. simpl. unfold credit_value. by rewrite !bool_decide_eq_true_2.
Qed.

(** ** The settlement of a block *)
Context {Msg : Type} (tx_hash : Msg -> option Hash).
Abbreviation fee_collector := (GetModuleAddress env FeeCollectorName).
Abbreviation module := (GetModuleAddress env ModuleName).

(** The outcome: tips are paid out, the module has the surplus [S], no other account has
    changed. *)
Record block_settled (infos : list pb.DeferredInfo) (S : Z) (b b' : Bank.bank) : Prop := {
  bs_wf : bank_wf b';
  bs_total : forall d, total env b' d = total env b d + if bool_decide (BaseDenom = d) then Z.max 0 S else 0;
  bs_deferred : forall d, deferred_total b' d = deferred_total b d;
  bs_supply : forall d, supply b' d = supply b d;
  bs_paid : forall x, settled infos x -> no_vesting b x -> x <> fee_collector -> x <> module -> value env b' x BaseDenom = 0;
  bs_module : module <> fee_collector -> ~ settled infos module -> value env b' module BaseDenom = value env b module BaseDenom + Z.max 0 S;
  bs_others : forall x d, x <> fee_collector -> x <> module -> ~ settled infos x -> value env b' x d = value env b x d
}.

Lemma settle_block_run msgs txResults infos ante st st' r :
  bank_wf (bank_of st) -> CanAddressReceive st.1 fee_collector = true -> CanAddressReceive st.1 module = true ->
  GetAllEVMTxDeferredInfo tx_hash msgs txResults st.2 = Some infos -> GetAnteSurplusSum st.2 = Some ante ->
  settle_block env tx_hash EmptyTxsHash msgs txResults st = Some (st', r) ->
  block_settled infos (ante + surplus_sum infos) (bank_of st) (bank_of st').
Proof.
  intros Hwf Hf Hm Hi Ha Hrun. unfold settle_block in Hrun. apply KM_bind_inv in Hrun as (st1 & oi & [= <- <-] & Hrun).
  apply KM_bind_inv in Hrun as (st1 & i & [-> Hi']%k_panic_inv & Hrun). rewrite Hi in Hi'. injection Hi' as <-.
  apply KM_bind_inv in Hrun as (st1 & oa & [= <- <-] & Hrun). apply KM_bind_inv in Hrun as (st1 & a & [-> Ha']%k_panic_inv & Hrun).
  rewrite Ha in Ha'. injection Ha' as <-. apply KM_bind_inv in Hrun as (st1 & S & H1 & Hrun). apply KM_bind_inv in Hrun as (st2 & u & H2 & [= <- _]).
  apply settle_infos_run in H1 as (S1 & -> & Z1); [|done|done].
  apply credit_surplus_run in H2 as [S2 V2]; [|apply S1|by rewrite (can_receive_same _ _ _ (s_evm _ _ _ _ S1))].
  destruct (settles_trans _ _ _ _ _ _ _ S1 S2) as [W T' D S A E V]. rewrite Z.add_0_l in T'. split; [done|done|done|done| | |].
  - intros x Hx Hv Hne Hnm. rewrite (s_value _ _ _ _ S2) by done. by apply Z1.
  - intros Hne Hns. rewrite V2, (s_value _ _ _ _ S1) by tauto. done.
  - intros x d H1 H2 H3. apply V. tauto.
Qed.

(** ** The clean-ups before it *)

(** They leave the bank, the associations of addresses and, in the transient store, all
    but receipts. *)
Definition same_ctx c c' : Prop :=
  bank_store c' = bank_store c /\ forall k, kv_view (evm_store c') !! (1 :: k) = kv_view (evm_store c) !! (1 :: k).
Definition undisturbed st st' : Prop :=
  same_ctx st.1 st'.1 /\ forall x k, x <> 11 -> kv_view st'.2 !! (x :: k) = kv_view st.2 !! (x :: k).

Lemma same_ctx_trans c c1 c2 : same_ctx c c1 -> same_ctx c1 c2 -> same_ctx c c2.
Proof. intros [B1 V1] [B2 V2]. split; [congruence|]. intros k. by rewrite V2. Qed.
Lemma undisturbed_trans st st1 st2 : undisturbed st st1 -> undisturbed st1 st2 -> undisturbed st st2.
Proof. intros [C1 V1] [C2 V2]. split; [by eapply same_ctx_trans|]. intros x k Hx. by rewrite V2, V1. Qed.

Lemma same_ctx_delete c x key : x <> 1 -> same_ctx c (prefix_Delete c [x] key).
Proof.
  intros Hx. split; [done|]. intros k. unfold prefix_Delete, pf_Delete, pf_key. rewrite evm_store_set, kv_Delete_view by done.
  apply lookup_delete_ne. simpl. congruence.
Qed.

Lemma same_ctx_set c x key v : x <> 1 -> same_ctx c (set_evm c (kv_Set (evm_store c) (x :: key) v)).
Proof.
  intros Hx. split; [done|]. intros k. rewrite evm_store_set, kv_Set_view by done. apply lookup_insert_ne. congruence.
Qed.

Lemma RemoveFirst_same n c c' : RemoveFirstNTxHashes n c = Some c' -> same_ctx c c'.
Proof.
  unfold RemoveFirstNTxHashes. destruct (pf_Iterator _ _ _ _) as [l|]; [|done]. simpl. intros [= <-].
  generalize (take n l.*1). intros keys. revert c. induction keys as [|k keys IH]; intros c; [done|]. simpl.
  eapply same_ctx_trans; [|apply IH]. by apply same_ctx_delete.
Qed.

Lemma for_each_undisturbed {A} (f : A -> KM ()) l st st' u :
  (forall a st st' u, f a st = Some (st', u) -> undisturbed st st') -> for_each f l st = Some (st', u) -> undisturbed st st'.
Proof.
  intros Hf. revert st. induction l as [|a l IH]; intros st; [by intros [= <- _]|].
  intros (st1 & u1 & H1 & H2)%KM_bind_inv. eapply undisturbed_trans; [by eapply Hf|by apply IH].
Qed.

Lemma Migrate_undisturbed n st st' r : MigrateLegacyReceiptsBatch n st = Some (st', r) -> undisturbed st st'.
Proof.
  intros (st1 & ol & [= <- <-] & H)%KM_bind_inv. apply KM_bind_inv in H as (st1 & l & [-> _]%k_panic_inv & H).
  apply KM_bind_inv in H as (st1 & [batch|e] & [-> _]%k_panic_inv & H); [|by injection H as <- _].
  apply KM_bind_inv in H as (st1 & u1 & H1 & H). apply KM_bind_inv in H as (st2 & u2 & H2 & [= <- _]).
  eapply undisturbed_trans; eapply for_each_undisturbed; [|exact H1| |exact H2].
  - intros [k r'] s s' u Hs. unfold SetTransientReceipt in Hs. apply KM_bind_inv in Hs as (s1 & bz & [-> _]%k_panic_inv & [= <-]).
    split; [done|]. intros x j Hx. simpl. rewrite kv_Set_view by done. apply lookup_insert_ne. unfold NewTransientReceiptKey. simpl. congruence.
  - intros [k r'] s s' u [= <-]. split; [|done]. by apply same_ctx_delete.
Qed.

Lemma Prune_same n c c' r : PruneZeroStorageSlots n c = Some (c', r) -> same_ctx c c'.
Proof.
  unfold PruneZeroStorageSlots. case_bool_decide; [by intros [= <- _]|]. destruct (pf_Iterator _ _ _ _) as [l|]; [|done].
  cbn [mbind option_bind]. cbv zeta. set (keys := match l.*1 with [] => _ | _ => _ end).
  destruct (prune_loop_spec n keys 0 0 None c) as (c1 & d & last' & Hrun & Hs & _ & _ & Hj); [lia|]. rewrite Hrun.
  assert (H1 : same_ctx c c1) by (split; [unfold same_but_store in Hs; by rewrite Hs|intros k; by apply Hj]).
  assert (H2 : forall k, same_ctx c1 (setZeroStorageCleanupCheckpoint c1 k)).
  { intros k. split; [unfold setZeroStorageCleanupCheckpoint; by repeat case_match|]. intros j. by apply set_checkpoint_view. }
  assert (H3 : forall k, same_ctx c (setZeroStorageCleanupCheckpoint c1 k)) by (intros k; eapply same_ctx_trans; [exact H1|apply H2]).
  destruct (bool_decide (_ = 0)%nat); [destruct (_ && _)|]; intros [= <- _]; [apply (H3 None)|done|].
  destruct (bool_decide _); [apply H3|apply (H3 None)].
Qed.

Lemma Adjust_same params maxGas used c c' r : AdjustDynamicBaseFeePerGas params maxGas used c = Some (c', r) -> same_ctx c c'.
Proof.
  unfold AdjustDynamicBaseFeePerGas. destruct maxGas as [maxGas|]; [|by intros [= <- _]].
  destruct (GetNextBaseFeePerGas _ _) as [prev|]; [|done]. cbn [mbind option_bind]. destruct (NewDec (int64 (TargetGasUsedPerBlock params))) as [target|]; [|done]. cbn [mbind option_bind].
  case_bool_decide; [by intros [= <- _]|]. destruct (MinimumFeePerGas params) as [lo|]; [|done]. destruct (MaximumFeePerGas params) as [hi|]; [|done]. cbn [mbind option_bind].
  destruct (NewDec maxGas) as [limit|]; [|done]. cbn [mbind option_bind]. destruct (NewDec (int64 used)) as [u|]; [|done]. cbn [mbind option_bind]. destruct (adjusted_fee _ _ _ _ _) as [fee|]; [|done]. cbn [mbind option_bind].
  intros [= <- _]. by apply same_ctx_set.
Qed.

Lemma housekeeping_undisturbed params maxGas used st st' u : housekeeping params maxGas used st = Some (st', u) -> undisturbed st st'.
Proof.
  intros (st1 & oc & [= <- <-] & H)%KM_bind_inv. apply KM_bind_inv in H as (st1 & c & [-> H1%RemoveFirst_same]%k_panic_inv & H).
  apply KM_bind_inv in H as (st1 & [] & [= <-] & H). apply KM_bind_inv in H as (st2 & [] & H2 & H).
  assert (U2 : undisturbed (c, st.2) st2).
  { destruct (bool_decide _); [|by injection H2 as <-]. apply KM_bind_inv in H2 as (st3 & r & H2 & [= <-]). by eapply Migrate_undisturbed. }
  apply KM_bind_inv in H as (st3 & r & [= <- <-] & H). apply KM_bind_inv in H as (st3 & [c3 n] & [-> H3%Prune_same]%k_panic_inv & H).
  apply KM_bind_inv in H as (st3 & [] & [= <-] & H). apply KM_bind_inv in H as (st3 & r & [= <- <-] & H).
  apply KM_bind_inv in H as (st3 & [c4 fee] & [-> H4%Adjust_same]%k_panic_inv & [= <- _]). simpl in *.
  apply (undisturbed_trans _ (c, st.2)); [by split|]. eapply undisturbed_trans; [exact U2|]. split; [|done]. by eapply same_ctx_trans.
Qed.

(** What transactions left in the transient store is still there afterwards. *)
Lemma infos_same (t t' : T) i msgs txResults :
  (forall k, kv_view t' !! (25 :: k) = kv_view t !! (25 :: k)) -> deferred_infos tx_hash t' i msgs txResults = deferred_infos tx_hash t i msgs txResults.
Proof.
  intros Hv. revert i. induction msgs as [|msg msgs IH]; intros i; [done|]. cbn [deferred_infos].
  unfold pf_Get, pf_key. rewrite !kv_Get_view by done. cbn [DeferredInfoPrefix app]. by rewrite Hv, IH.
Qed.

Lemma ante_same (t t' : T) : (forall k, kv_view t' !! (24 :: k) = kv_view t !! (24 :: k)) -> GetAnteSurplusSum t' = GetAnteSurplusSum t.
Proof.
  intros Hv. unfold GetAnteSurplusSum, pf_Iterator. enough (kv_Iterator t' (pf_start AnteSurplusPrefix None) (pf_end AnteSurplusPrefix None) =
    kv_Iterator t (pf_start AnteSurplusPrefix None) (pf_end AnteSurplusPrefix None)) as -> by done.
  apply (entries_ext true); [by apply it_sorted_ascending, kv_Iterator_sorted|by apply it_sorted_ascending, kv_Iterator_sorted|].
  intros k v. rewrite !kv_Iterator_elem by done.
  assert (Hk : in_domain (pf_start AnteSurplusPrefix None) (pf_end AnteSurplusPrefix None) k = true -> kv_view t' !! k = kv_view t !! k).
  { intros Hd. apply (range_first 24 []) in Hd as [k' ->]; [apply Hv|done]. }
  split; intros [H1 H2]; (split; [|done]); [by rewrite <- Hk|by rewrite Hk].
Qed.

Lemma undisturbed_reads st st1 msgs txResults :
  undisturbed st st1 -> (forall x, CanAddressReceive st1.1 x = CanAddressReceive st.1 x) /\
    GetAllEVMTxDeferredInfo tx_hash msgs txResults st1.2 = GetAllEVMTxDeferredInfo tx_hash msgs txResults st.2 /\
    GetAnteSurplusSum st1.2 = GetAnteSurplusSum st.2.
Proof.
  intros [[_ V] T1]. split; [|split; [apply infos_same|apply ante_same]; intros k; by apply T1].
  intros x. unfold CanAddressReceive, GetSeiAddress, EVMAddressToSeiAddressKey, EVMAddressToSeiAddressKeyPrefix. rewrite !kv_Get_view by done. simpl. by rewrite V.
Qed.

Context (BytesToBloom : bytes -> option bytes) (CreateBloom : pb.Receipt -> bytes) (ORBytes : bytes -> bytes -> bytes).

(** C11. [EndBlock] settles the block.  Let the transactions of the block have recorded
    the surplus [S] in their deferred information and in the ante handler.  When
    [EndBlock] returns, the coinbase account of every transaction that was executed is
    empty, the account of the module has received the surplus and nothing else, no
    account but these and the fee collector has changed, and supply and deferred balances
    are the same.  So the total of the accounts has grown by exactly the surplus: if the
    supply covered accounts, deferred balances and the surplus before, it is backed by
    accounts and deferred balances alone afterwards.  The clean-ups that run first do not
    disturb any of this. *)
Theorem EndBlock_settles params maxGas msgs txResults gas infos ante st st' :
  let S := ante + surplus_sum infos in
  bank_wf (bank_of st) -> CanAddressReceive st.1 fee_collector = true -> CanAddressReceive st.1 module = true ->
  GetAllEVMTxDeferredInfo tx_hash msgs txResults st.2 = Some infos -> GetAnteSurplusSum st.2 = Some ante ->
  EndBlock env tx_hash EmptyTxsHash BytesToBloom CreateBloom ORBytes params maxGas msgs txResults gas st = Some (st', tt) ->
  block_settled infos S (bank_of st) (bank_of st') /\
  (0 <= S -> (forall d, total env (bank_of st) d + deferred_total (bank_of st) d + (if bool_decide (BaseDenom = d) then S else 0) = supply (bank_of st) d * U) ->
   backed env (bank_of st')).
Proof.
  intros S Hwf Hf Hm Hi Ha Hrun. assert (Hset : block_settled infos S (bank_of st) (bank_of st')).
  { apply KM_bind_inv in Hrun as (st1 & [] & Hst1%housekeeping_undisturbed & Hrun).
    destruct (undisturbed_reads st st1 msgs txResults Hst1) as (Hc & Hi1 & Ha1). destruct Hst1 as [[B1 _] _].
    apply KM_bind_inv in Hrun as (st2 & infos' & H2 & Hrun). apply KM_bind_inv in Hrun as (st3 & bl & [-> _]%k_panic_inv & Hrun).
    apply KM_bind_inv in Hrun as (st3 & h & [= <- <-] & Hrun). apply KM_bind_inv in Hrun as (st3 & bl' & [= <- <-] & Hrun).
    apply KM_bind_inv in Hrun as (st3 & [] & [= <-] & [= <-]). unfold bank_of in *. simpl. rewrite <- B1 in *.
    eapply settle_block_run; [done|by rewrite Hc|by rewrite Hc|by rewrite Hi1|by rewrite Ha1|exact H2]. }
  split; [done|]. intros HS Hb d. destruct Hset as [_ T' D S' _ _ _]. rewrite T', D, S', <- Hb. case_bool_decide; lia.
Qed.
End Settle.
