(* ===== verification/EVMEndBlock.v ===== *)
(** [EndBlock] runs to its end: nothing that a block's transactions leave behind in good
    order makes it panic, which would halt the chain. *)
From stdpp Require Import base gmap sets list strings sorting.
From Stdlib Require Import ZArith Lia.
From S2P Require Import Prelude Coins CoinsSpec Decimal Vesting Bank BankSpec BankInv BankSupply BankOps BankErrors KVStore MergeIter PrefixStore StateDB StateDBRevert EVMKeeper EVMKeeperSpec Proto ProtoSpec EVMTypes EVMBlock EVMBlockSpec EVMPrune EVMSettle.
Local Open Scope Z_scope.

Section Returns.
Context {P T : Type} `{!KVStore P, !KVStoreLaws P, !KVStore T, !KVStoreLaws T} (env : bank_env).
Context (EmptyTxsHash : Hash).
Hypothesis Hbase : be_baseDenom env = BaseDenom.
#[local] Existing Instances KM_ret KM_bind.
Abbreviation Ctx := (sdkContext (P * Bank.bank) evm_event).
Abbreviation U := OneUseiInWei.
Implicit Types (c : Ctx) (st : kst (P := P) (T := T)).

(** ** Steps that return *)
Lemma bind_returns {A B} (m : KM (P := P) (T := T) A) (f : A -> KM B) st :
  is_Some (m st) -> (forall st1 a, m st = Some (st1, a) -> is_Some (f a st1)) -> is_Some ((m ≫= f) st).
Proof. unfold mbind, KM_bind. intros [[st1 a] Hm] Hf. rewrite Hm. by apply Hf. Qed.

Lemma panic_returns {A} (o : option A) st : is_Some o -> is_Some (k_panic o st).
Proof. intros [a ->]. by eexists. Qed.

Lemma bank_returns m st : no_crash (m (bank_env_at env st.1)) (set_events (bank_of st) []) -> is_Some (k_bank env m st).
Proof. unfold no_crash, k_bank, on_bank, bank_of. destruct (m _ _) as [[b r]|]; [|done]. intros _. by eexists. Qed.

(** ** The settlement *)

(** The information of a transaction as the keeper writes it. *)
Definition info_ok (info : pb.DeferredInfo) : Prop :=
  0 <= pb.di_TxIndex info < 2 ^ 32 /\ len (pb.di_Error info) < 2 ^ 60 /\
  (failed_info EmptyTxsHash info = false -> is_Some (pb.di_Surplus info)).

Definition surplus_size (infos : list pb.DeferredInfo) : Z := list_sum (fun i => Z.abs (info_surplus EmptyTxsHash i)) infos.

Lemma base_valid : ValidateDenom BaseDenom = true.
Proof. by vm_compute. Qed.

Lemma no_vesting_locked env' x b : no_vesting b x -> LockedCoins env' x b = Some (b, inl []).
Proof.
  unfold no_vesting, LockedCoins, mbind, BM_bind, GetAccount, reads. by destruct (b_accounts b !! x) as [[n|va|n nm p]|].
Qed.

Lemma sov_bound v : 0 <= v < 2 ^ 64 -> sov v <= 10.
Proof.
  intros Hv. unfold sov. apply Z.lt_succ_r, Z.div_lt_upper_bound; [lia|]. unfold BitLen. case_bool_decide; [lia|].
  assert (Hl : 0 <= Z.lor v 1) by (apply Z.lor_nonneg; lia). rewrite Z.abs_eq by done. rewrite Z.log2_lor by lia.
  assert (Z.log2 v < 64); [|simpl; lia]. destruct (decide (v = 0)) as [->|]; [done|]. apply Z.log2_lt_pow2; lia.
Qed.

Lemma size_varint_bound v : 0 <= v < 2 ^ 64 -> size_varint v <= 11.
Proof. intros Hv. pose proof (sov_bound v Hv). unfold size_varint. case_bool_decide; lia. Qed.
Lemma size_bytes_small s : len s < 2 ^ 60 -> size_bytes s <= len s + 11.
Proof.
  intros Hs. pose proof (len_nonneg s) as H0. assert (H1 : sov (len s) <= 10) by (apply sov_bound; lia).
  unfold size_bytes. destruct (bool_decide (0 < len s)); lia.
Qed.

Lemma hex_len h : len (hash_Hex (BytesToHash h)) = 66.
Proof.
  assert (Hl : length (BytesToHash h) = 32%nat).
  { unfold BytesToHash, last_bytes. case_bool_decide; [rewrite length_drop; lia|]. rewrite length_app, length_replicate. lia. }
  assert (Hh : forall b, length (hex b) = (2 * length b)%nat) by (intros b; induction b as [|x b IH]; [done|]; change (hex (x :: b)) with (hex_digit (x / 16) :: hex_digit (x mod 16) :: hex b); cbn [length]; lia).
  unfold len, hash_Hex. rewrite length_app, Hh, Hl. done.
Qed.

Lemma failed_receipt_ok txHash height index err :
  0 <= index < 2 ^ 32 -> len err < 2 ^ 60 ->
  is_Some (pb.Receipt_Marshal (pb.mkReceipt 0 0 [] (hash_Hex (BytesToHash txHash)) 0 0 (uint64 height) index 0 [] [] err [] [] false)).
Proof.
  intros Hi He. set (m := pb.mkReceipt _ _ _ _ _ _ _ _ _ _ _ _ _ _ _).
  assert (Hh : 0 <= uint64 height < 2 ^ 64) by (unfold uint64; apply Z.mod_pos_bound; lia).
  assert (Hok : pb.Receipt_ok m).
  { unfold pb.Receipt_ok, m. cbn -[Z.pow pb.Receipt_Size hash_Hex uint64]. repeat (split; [lia||done|]).
    unfold pb.Receipt_Size. cbn -[Z.pow size_varint size_bytes hash_Hex uint64].
    pose proof (size_varint_bound _ Hh). pose proof (size_varint_bound index ltac:(lia)). pose proof (size_bytes_small err He).
    pose proof (size_bytes_small (hash_Hex (BytesToHash txHash))) as Hx. rewrite hex_len in Hx.
    change (size_varint 0) with 0. change (size_bytes []) with 0. lia. }
  destruct (pb.Receipt_writes m Hok) as [Hw Hlen]. exists (pb.enc_Receipt m). by apply marshal_spec.
Qed.

Lemma settle_info_returns y info s st :
  bank_wf (bank_of st) -> total env (bank_of st) BaseDenom < 2 ^ 250 -> info_ok info ->
  (failed_info EmptyTxsHash info = false -> no_vesting (bank_of st) (GetCoinbaseAddress (pb.di_TxIndex info))) ->
  Z.abs s + Z.abs (info_surplus EmptyTxsHash info) < 2 ^ 256 -> is_Some (settle_info env EmptyTxsHash y info s st).
Proof.
  intros Hwf Ht (Hi & He & Hs) Hv Hsum. unfold settle_info, info_surplus in *. destruct (failed_info EmptyTxsHash info).
  - apply bind_returns; [by eexists|]. intros st1 bumped [= <- <-]. destruct (GetNonceBumped _ _); [|by eexists].
    apply bind_returns; [by eexists|]. intros st1 h [= <- <-]. apply bind_returns; [|by eexists].
    apply bind_returns; [|by eexists]. apply panic_returns. by apply failed_receipt_ok.
  - destruct (Hs eq_refl) as [z Hz]. rewrite Hz in *. simpl in Hsum. set (x := GetCoinbaseAddress _) in *. specialize (Hv eq_refl).
    assert (Hl : forall env', LockedCoins env' x (bank_of st) = Some (bank_of st, inl [])) by (intros; by apply no_vesting_locked).
    pose proof (wf_val (bank_of st) x BaseDenom Hwf) as Hb.
    assert (Hr1 : k_read env (fun _ => Bank.GetBalance x BaseDenom) st = Some (st, mkCoin BaseDenom (val (b_balances (bank_of st)) (x, BaseDenom)))).
    { unfold k_read, bank_read. fold (bank_of st). by rewrite (GetBalance_eq _ _ _ base_valid). }
    assert (Hr2 : k_read env (fun env => LockedCoins env x) st = Some (st, [])).
    { unfold k_read, bank_read. fold (bank_of st). by rewrite Hl. }
    apply bind_returns; [by rewrite Hr1|]. rewrite Hr1. intros st1 usei [= <- <-]. apply bind_returns; [by rewrite Hr2|]. rewrite Hr2. intros st1 locked [= <- <-].
    replace (coins_AmountOf [] BaseDenom) with (Some 0) by (by vm_compute). apply bind_returns; [by eexists|]. intros st1 l [= <- <-]. cbn [Amount].
    rewrite int_sub_spec, Z.sub_0_r, int_fits_nonneg by lia. apply bind_returns; [by eexists|]. intros st1 bal [= <- <-].
    apply bind_returns; [by eexists|]. intros st1 wei [= <- <-]. apply bind_returns.
    { destruct (_ || _); [|by eexists]. apply bank_returns. rewrite <- Hbase. apply (crash_send_all (bank_env_at env st.1) ltac:(simpl; rewrite Hbase; exact base_valid) x y (set_events (bank_of st) [])).
      - by apply events_wf.
      - by apply (LockedCoins_accounts _ _ (bank_of st)).
      - rewrite <- Hbase in Ht. exact Ht. }
    intros st1 e _. apply bind_returns; [by eexists|]. intros st2 delta [= <- <-]. apply panic_returns. rewrite int_add_spec.
    unfold int_fits. rewrite bool_decide_eq_true_2 by lia. by eexists.
Qed.

Lemma settle_infos_returns y infos s st :
  bank_wf (bank_of st) -> CanAddressReceive st.1 y = true -> total env (bank_of st) BaseDenom < 2 ^ 250 -> Forall info_ok infos ->
  (forall x, settled EmptyTxsHash infos x -> no_vesting (bank_of st) x) -> Z.abs s + surplus_size infos < 2 ^ 256 ->
  is_Some (settle_infos env EmptyTxsHash y infos s st).
Proof.
  intros Hwf Hy Ht Hok. revert s st Hwf Hy Ht. induction Hok as [|info infos Hi Hok IH]; intros s st Hwf Hy Ht Hv Hs; [by eexists|].
  unfold surplus_size in Hs. simpl in Hs. fold (surplus_size infos) in Hs.
  assert (Hnn : 0 <= surplus_size infos) by (unfold surplus_size; clear; induction infos; simpl; lia).
  cbn [settle_infos]. apply bind_returns.
  - apply settle_info_returns; [done|done|done| |lia]. intros Hf. apply Hv. exists info. split; [left|done].
  - intros st1 s1 H1. apply (settle_info_run env EmptyTxsHash Hbase) in H1 as (S1 & -> & _); [|done|done]. apply IH.
    + apply S1.
    + by rewrite (can_receive_same _ _ _ (s_evm _ _ _ _ _ S1)).
    + rewrite (s_total _ _ _ _ _ S1). case_bool_decide; lia.
    + intros x (i & Hin & Hx). unfold no_vesting. rewrite (s_accounts _ _ _ _ _ S1). apply Hv. exists i. split; [by right|done].
    + lia.
Qed.

Lemma credit_surplus_returns S st :
  bank_wf (bank_of st) -> CanAddressReceive st.1 (GetModuleAddress env ModuleName) = true -> total env (bank_of st) BaseDenom + Z.max 0 S < 2 ^ 250 ->
  0 <= total env (bank_of st) BaseDenom -> is_Some (credit_surplus env S st).
Proof.
  intros Hwf Hm Ht H0. set (m := GetModuleAddress env ModuleName) in *. unfold credit_surplus. fold m. destruct (bool_decide_reflect (0 < S)) as [Hpos|Hpos]; [|by eexists].
  unfold StateDB.SplitUseiWeiAmount. destruct (split_amount S ltac:(lia)) as (Hsplit & Hu & Hw).
  pose proof (Z.mod_pos_bound S UseiToSweiMultiplier ltac:(done)) as Hmod. change UseiToSweiMultiplier with U in *.
  set (us := Z.quot S U) in *. set (w := S mod U) in *. destruct (new_coins_spec us Hu) as (cs & Hcs & Hok & Hd).
  assert (Hden : forall c', ValidateDenom (be_baseDenom (bank_env_at env c')) = true) by (intros c'; simpl; rewrite Hbase; exact base_valid).
  pose proof (wf_val (bank_of st) m BaseDenom Hwf) as Hv.
  assert (Hle : val (b_balances (bank_of st)) (m, BaseDenom) * U <= total env (bank_of st) BaseDenom).
  { rewrite <- Hbase. by apply balance_le_total. }
  apply bind_returns.
  - destruct (bool_decide_reflect (0 < us)) as [Hus|Hus]; [|by eexists]. rewrite Hcs. apply bind_returns; [by eexists|]. intros st1 cs' [= <- <-].
    apply bank_returns. assert (cs = [mkCoin BaseDenom us]) as ->.
    { unfold new_coins in Hcs. rewrite NewCoin_some in Hcs by (done || exact base_valid). cbn [mbind option_bind] in Hcs.
      rewrite NewCoins_ok in Hcs by (apply coin_ok; [exact base_valid|done]). by injection Hcs as <-. }
    rewrite <- Hbase at 1. apply (crash_AddCoins (bank_env_at env st.1)); [done|done|by apply events_wf|]. simpl. rewrite Hbase.
    unfold OneUseiInWei in *. lia.
  - intros st1 e1 H1. apply (credit_usei_run env m cs us) in H1 as (H1 & _); [|done..].
    destruct H1 as (W1 & _ & T1 & _). apply bind_returns; [|by eexists]. destruct (bool_decide_reflect (0 < w)); [|by eexists]. apply bank_returns.
    apply crash_AddWei; [done|by apply events_wf|lia|].
    change (total (bank_env_at env st1.1) (set_events (bank_of st1) []) (be_baseDenom (bank_env_at env st1.1))) with (total env (bank_of st1) (be_baseDenom env)).
    rewrite Hbase, T1. unfold credit_coins. cbn [ch_total]. rewrite Hd, bool_decide_eq_true_2 by done. lia.
Qed.

(** ** The clean-ups *)
Lemma delete_ok x k c : x <> 3 -> slots_ok c -> slots_ok (prefix_Delete c [x] k) /\
  forall y j, y <> x -> kv_view (evm_store (prefix_Delete c [x] k)) !! (y :: j) = kv_view (evm_store c) !! (y :: j).
Proof.
  intros Hx [Hk Hn].
  assert (H1 : forall j, kv_view (evm_store (prefix_Delete c [x] k)) !! j = if bool_decide (j = x :: k) then None else kv_view (evm_store c) !! j).
  { intros j. unfold prefix_Delete, pf_Delete, pf_key. rewrite evm_store_set, kv_Delete_view by done. simpl.
    case_bool_decide as Hj; [subst; apply lookup_delete_eq|]. by apply lookup_delete_ne. }
  split; [split|].
  - intros j Hj. apply Hk. rewrite H1 in Hj. case_bool_decide; [by destruct Hj|done].
  - rewrite slots_lookup, H1, bool_decide_false by congruence. by rewrite <- slots_lookup.
  - intros y j Hy. rewrite H1, bool_decide_false by congruence. done.
Qed.

Lemma RemoveFirst_returns n c :
  slots_ok c -> exists c', RemoveFirstNTxHashes n c = Some c' /\ slots_ok c' /\
    forall x k, x <> 14 -> kv_view (evm_store c') !! (x :: k) = kv_view (evm_store c) !! (x :: k).
Proof.
  intros Hok. unfold RemoveFirstNTxHashes. pose proof (pf_iterate_view TxHashesPrefix (evm_store c) None None true) as Hit. simpl in Hit.
  rewrite Hit; [|repeat constructor; lia|done|apply Hok]. cbn [mbind option_bind]. clear Hit. eexists. split; [done|].
  generalize (take n (map_entries (prefix_view TxHashesPrefix (evm_store c)) None None).*1). intros keys.
  revert c Hok. induction keys as [|k keys IH]; intros c Hok; [by split|]. cbn [fold_left].
  destruct (delete_ok 14 k c ltac:(done) Hok) as [Hok1 H1]. destruct (IH _ Hok1) as [Hok' Hv]. split; [done|]. intros x j Hx. by rewrite Hv, H1.
Qed.

(** Legacy receipts: what [Marshal] wrote, or values that do not parse. *)
Definition legacy_ok (c : Ctx) : Prop := forall k v, kv_view (evm_store c) !! (ReceiptKeyPrefix ++ k) = Some v ->
  (exists receipt, pb.Receipt_ok receipt /\ pb.Receipt_Marshal receipt = Some v) \/ (exists e, pb.Receipt_Unmarshal v = Err e).

Lemma Receipt_marshals receipt : pb.Receipt_ok receipt -> pb.Receipt_Marshal receipt = Some (pb.enc_Receipt receipt).
Proof. intros Hok. destruct (pb.Receipt_writes receipt Hok) as [Hw Hlen]. by apply marshal_spec. Qed.

Lemma legacy_batch_returns n l :
  (forall k v, (k, v) ∈ l -> (exists receipt, pb.Receipt_ok receipt /\ pb.Receipt_Marshal receipt = Some v) \/ (exists e, pb.Receipt_Unmarshal v = Err e)) ->
  exists r, legacy_batch n l = Some r /\ forall batch, r = inl batch -> Forall (fun kr => pb.Receipt_ok kr.2) batch.
Proof.
  revert n. induction l as [|[k v] l IH]; intros [|n] Hl; try (eexists; split; [done|]; intros batch [= <-]; constructor).
  cbn [legacy_batch]. destruct (Hl k v ltac:(left)) as [(receipt & Hok & Hm)|(e & ->)]; [|by eexists].
  rewrite Receipt_marshals in Hm by done. injection Hm as <-. rewrite pb.Receipt_reads by done.
  destruct (IH n) as ([batch|e] & -> & Hb); [intros; apply (Hl k0); by right| |]; (eexists; split; [done|]); [|done].
  intros b [= <-]. constructor; [exact Hok|]. by apply Hb.
Qed.

Lemma set_receipts_return (batch : list (bytes * pb.Receipt)) st : Forall (fun kr => pb.Receipt_ok kr.2) batch ->
  exists t, for_each (fun kr => SetTransientReceipt (BytesToHash kr.1) kr.2) batch st = Some ((st.1, t), tt).
Proof.
  intros Hb. revert st. induction Hb as [|[k receipt] batch Hr Hb IH]; intros st; [exists st.2; by destruct st|].
  cbn [for_each]. unfold mbind, KM_bind, SetTransientReceipt, k_panic. simpl in Hr. cbn [fst snd]. unfold mbind. rewrite Receipt_marshals by done. exact (IH (st.1, _)).
Qed.

Lemma delete_receipts_return (batch : list (bytes * pb.Receipt)) c (t : T) : slots_ok c -> exists c',
  for_each (fun kr => set_ctx (fun c => prefix_Delete c ReceiptKeyPrefix kr.1)) batch (c, t) = Some ((c', t), tt) /\ slots_ok c' /\
    forall x k, x <> 11 -> kv_view (evm_store c') !! (x :: k) = kv_view (evm_store c) !! (x :: k).
Proof.
  revert c. induction batch as [|[k receipt] batch IH]; intros c Hok; [by exists c|].
  destruct (delete_ok 11 k c ltac:(done) Hok) as [Hok1 H1]. destruct (IH _ Hok1) as (c' & Hrun & Hok' & Hv).
  exists c'. split; [exact Hrun|]. split; [done|]. intros x j Hx. by rewrite Hv, H1.
Qed.

Lemma Migrate_returns n st : slots_ok st.1 -> legacy_ok st.1 -> exists st' r, MigrateLegacyReceiptsBatch n st = Some (st', r) /\ slots_ok st'.1 /\
  forall x k, x <> 11 -> kv_view (evm_store st'.1) !! (x :: k) = kv_view (evm_store st.1) !! (x :: k).
Proof.
  intros Hok Hleg. unfold MigrateLegacyReceiptsBatch, mbind, KM_bind, k_ctx.
  pose proof (pf_iterate_view ReceiptKeyPrefix (evm_store st.1) None None true) as Hit. simpl in Hit.
  rewrite Hit; [|repeat constructor; lia|done|apply Hok]. clear Hit. cbn [k_panic].
  destruct (legacy_batch_returns n (map_entries (prefix_view ReceiptKeyPrefix (evm_store st.1)) None None)) as ([batch|e] & -> & Hb).
  { intros k v [Hv _]%map_entries_elem. apply (Hleg k). by rewrite <- lookup_prefix_view. }
  - destruct (set_receipts_return batch st (Hb batch eq_refl)) as [t Ht]. destruct (delete_receipts_return batch st.1 t Hok) as (c & Hc & Hok' & Hv).
    cbn [k_panic]. rewrite Ht, Hc. by exists (c, t), (inl (length batch)).
  - by exists st, (inr e).
Qed.

Lemma Adjust_returns params maxGas used c c' :
  kv_view (evm_store c') !! NextBaseFeePerGasPrefix = kv_view (evm_store c) !! NextBaseFeePerGasPrefix ->
  is_Some (AdjustDynamicBaseFeePerGas params maxGas used c) -> is_Some (AdjustDynamicBaseFeePerGas params maxGas used c').
Proof.
  intros Hv. assert (Hg : GetNextBaseFeePerGas params c' = GetNextBaseFeePerGas params c).
  { unfold GetNextBaseFeePerGas. by rewrite !kv_Get_view, Hv by done. }
  unfold AdjustDynamicBaseFeePerGas. destruct maxGas as [maxGas|]; [|intros; by eexists]. rewrite Hg.
  destruct (GetNextBaseFeePerGas params c) as [prev|]; [|by intros [? ?]]. cbn [mbind option_bind].
  destruct (NewDec (int64 (TargetGasUsedPerBlock params))) as [target|]; [|by intros [? ?]]. cbn [mbind option_bind].
  destruct (bool_decide (target = 0)); [intros; by eexists|]. destruct (MinimumFeePerGas params) as [lo|]; [|by intros [? ?]].
  destruct (MaximumFeePerGas params) as [hi|]; [|by intros [? ?]]. cbn [mbind option_bind].
  destruct (NewDec maxGas) as [limit|]; [|by intros [? ?]]. cbn [mbind option_bind]. destruct (NewDec (int64 used)) as [u|]; [|by intros [? ?]].
  cbn [mbind option_bind]. destruct (adjusted_fee _ _ _ _ _) as [fee|]; [|by intros [? ?]]. intros; by eexists.
Qed.

Lemma housekeeping_returns params maxGas used st :
  slots_ok st.1 -> legacy_ok st.1 -> is_Some (AdjustDynamicBaseFeePerGas params maxGas used st.1) ->
  is_Some (housekeeping params maxGas used st).
Proof.
  intros Hok Hleg Hfee. destruct (RemoveFirst_returns DefaultTxHashesToRemove st.1 Hok) as (c & Hc & Hokc & Hv).
  unfold housekeeping. apply bind_returns; [by eexists|]. intros st1 oc [= <- <-]. rewrite Hc. apply bind_returns; [by eexists|]. intros st1 c1 [= <- <-].
  apply bind_returns; [by eexists|]. intros st1 [] [= <-]. set (st1 := (c, st.2)).
  assert (Hm : exists st2, (if bool_decide (Z.rem (cx_BlockHeight c) LegacyReceiptMigrationInterval = 0)
       then _ ← MigrateLegacyReceiptsBatch LegacyReceiptMigrationBatchSize; mret tt else mret tt) st1 = Some (st2, tt) /\ slots_ok st2.1 /\
    kv_view (evm_store st2.1) !! NextBaseFeePerGasPrefix = kv_view (evm_store c) !! NextBaseFeePerGasPrefix).
  { destruct (bool_decide _); [|by exists st1]. destruct (Migrate_returns LegacyReceiptMigrationBatchSize st1) as (st2 & r & Hrun & Hok2 & Hv2); [done| |].
    - intros k v Hk. apply (Hleg k). unfold st1 in Hk. simpl in *. by rewrite <- Hv.
    - exists st2. unfold mbind, KM_bind. rewrite Hrun. split; [done|]. split; [done|]. by apply Hv2. }
  destruct Hm as (st2 & Hm & Hok2 & Hv2). apply bind_returns; [by rewrite Hm|]. rewrite Hm. intros st3 [] [= <-].
  destruct (Prune_spec ZeroStorageCleanupBatchSize st2.1) as (c2 & n & Hp & _ & _ & _ & Hv3 & _); [by vm_compute; lia|done|].
  apply bind_returns; [by eexists|]. intros st3 r [= <- <-]. simpl. rewrite Hp. apply bind_returns; [by eexists|]. intros st3 r [= <- <-].
  apply bind_returns; [by eexists|]. intros st3 [] [= <-]. apply bind_returns; [by eexists|]. intros st3 r [= <- <-].
  apply bind_returns; [|by eexists]. apply panic_returns. simpl. eapply Adjust_returns; [|exact Hfee]. transitivity (kv_view (evm_store c) !! NextBaseFeePerGasPrefix).
  - rewrite <- Hv2. unfold NextBaseFeePerGasPrefix. by rewrite Hv3.
  - by apply Hv.
Qed.

(** ** The whole block end *)
Context {Msg : Type} (tx_hash : Msg -> option Hash).

Lemma settle_block_returns msgs txResults infos ante st :
  bank_wf (bank_of st) -> CanAddressReceive st.1 (GetModuleAddress env FeeCollectorName) = true ->
  CanAddressReceive st.1 (GetModuleAddress env ModuleName) = true ->
  GetAllEVMTxDeferredInfo tx_hash msgs txResults st.2 = Some infos -> GetAnteSurplusSum st.2 = Some ante -> Forall info_ok infos ->
  (forall x, settled EmptyTxsHash infos x -> no_vesting (bank_of st) x) ->
  total env (bank_of st) BaseDenom < 2 ^ 249 -> Z.abs ante + surplus_size infos < 2 ^ 249 ->
  exists st', settle_block env tx_hash EmptyTxsHash msgs txResults st = Some (st', infos).
Proof.
  intros Hwf Hf Hm Hi Ha Hok Hv Ht HS. enough (is_Some (settle_block env tx_hash EmptyTxsHash msgs txResults st)) as [[st' r] Hr].
  { exists st'. rewrite Hr. do 2 f_equal. unfold settle_block in Hr. apply KM_bind_inv in Hr as (st1 & oi & [= <- <-] & Hr). rewrite Hi in Hr.
    apply KM_bind_inv in Hr as (st1 & i & [= <- <-] & Hr). apply KM_bind_inv in Hr as (st1 & oa & _ & Hr). apply KM_bind_inv in Hr as (st2 & a & _ & Hr).
    apply KM_bind_inv in Hr as (st3 & S & _ & Hr). apply KM_bind_inv in Hr as (st4 & u & _ & Hr). by injection Hr. }
  unfold settle_block. apply bind_returns; [by eexists|]. intros st1 oi [= <- <-]. rewrite Hi. apply bind_returns; [by eexists|]. intros st1 i [= <- <-].
  apply bind_returns; [by eexists|]. intros st1 oa [= <- <-]. rewrite Ha. apply bind_returns; [by eexists|]. intros st1 a [= <- <-].
  apply bind_returns; [apply settle_infos_returns; (done || lia)|]. intros st1 S H1.
  apply (settle_infos_run env EmptyTxsHash Hbase) in H1 as (S1 & -> & _); [|done|done]. apply bind_returns; [|by eexists].
  assert (Hsz : surplus_sum EmptyTxsHash infos <= surplus_size infos) by (unfold surplus_sum, surplus_size; clear; induction infos; simpl; lia).
  pose proof (wf_val (bank_of st1) [] (be_baseDenom env) (s_wf _ _ _ _ _ S1)). pose proof (balance_le_total env (bank_of st1) [] (s_wf _ _ _ _ _ S1)) as H0.
  rewrite Hbase in *. assert (H1 := s_total _ _ _ _ _ S1 BaseDenom). rewrite bool_decide_eq_true_2 in H1 by done.
  apply credit_surplus_returns; [apply S1|by rewrite (can_receive_same _ _ _ (s_evm _ _ _ _ _ S1))|lia|unfold OneUseiInWei in H0; lia].
Qed.

Context (BytesToBloom : bytes -> option bytes) (CreateBloom : pb.Receipt -> bytes) (ORBytes : bytes -> bytes -> bytes).

Lemma EndBlock_infos_returns params maxGas msgs txResults gas infos ante st :
  slots_ok st.1 -> legacy_ok st.1 ->
  is_Some (AdjustDynamicBaseFeePerGas params maxGas (uint64 gas) st.1) ->
  bank_wf (bank_of st) -> CanAddressReceive st.1 (GetModuleAddress env FeeCollectorName) = true ->
  CanAddressReceive st.1 (GetModuleAddress env ModuleName) = true ->
  GetAllEVMTxDeferredInfo tx_hash msgs txResults st.2 = Some infos -> GetAnteSurplusSum st.2 = Some ante -> Forall info_ok infos ->
  (forall info, info ∈ infos -> is_Some (BytesToBloom (pb.di_TxBloom info))) ->
  (forall x, settled EmptyTxsHash infos x -> no_vesting (bank_of st) x) ->
  total env (bank_of st) BaseDenom < 2 ^ 249 -> Z.abs ante + surplus_size infos < 2 ^ 249 ->
  is_Some (EndBlock env tx_hash EmptyTxsHash BytesToBloom CreateBloom ORBytes params maxGas msgs txResults gas st).
Proof.
  intros Hs Hleg Hfee Hwf Hf Hm Hi Ha Hok Hbl Hv Ht HS. unfold EndBlock. apply bind_returns; [by apply housekeeping_returns|].
  intros st1 [] Hst1%housekeeping_undisturbed. destruct (undisturbed_reads tx_hash st st1 msgs txResults Hst1) as (Hc & Hi1 & Ha1). destruct Hst1 as [[B1 _] _].
  destruct (settle_block_returns msgs txResults infos ante st1) as [st2 H2]; unfold bank_of in *; rewrite ?B1, ?Hc, ?Hi1, ?Ha1; try done.
  apply bind_returns; [by rewrite H2|]. rewrite H2. intros st3 i [= <- <-]. apply bind_returns; [|intros; by eexists].
  apply panic_returns. clear -Hbl. induction infos as [|info infos IH]; [by eexists|]. simpl. destruct (Hbl info ltac:(left)) as [b ->].
  destruct IH as [bs Hbs]; [intros i Hin; apply Hbl; by right|]. simpl. rewrite Hbs. by eexists.
Qed.

(** ** What transactions leave behind *)

(** A transaction that was executed has written its information, one that failed before has
    its log, and one that is not of the EVM nothing. *)
Inductive tx_left := Executed (hash bloom : bytes) (surplus : Z) | Failed (hash log : bytes) | NotEVM.
Definition left_info (i : nat) (r : tx_left) : option pb.DeferredInfo :=
  match r with
  | Executed hash bloom surplus => Some (pb.mkDeferredInfo (uint32 (Z.of_nat i)) hash bloom (Some surplus) [])
  | Failed hash log => Some (pb.mkDeferredInfo (uint32 (Z.of_nat i)) hash [] None log)
  | NotEVM => None
  end.
Definition left_size (r : tx_left) : Z := match r with Executed _ _ surplus => Z.abs surplus | _ => 0 end.
(** The record of the [i]-th transaction, in the terms of what is stored. *)
Definition leaves (t : T) (i : nat) (msg : option Msg) (res : ExecTxResult) (r : tx_left) : Prop :=
  let stored := kv_view t !! (DeferredInfoPrefix ++ PutUint64 (Z.of_nat i)) in
  match r with
  | Executed hash bloom surplus =>
      len hash < 2 ^ 60 /\ (length bloom <= BloomByteLength)%nat /\
      exists bz, pb.DeferredInfo_Marshal (pb.mkDeferredInfo (uint32 (Z.of_nat i)) hash bloom (Some surplus) []) = Some bz /\ stored = Some bz
  | Failed hash log =>
      stored = None /\ (exists m, msg = Some m /\ tx_hash m = Some hash) /\ BytesToHash hash <> EmptyTxsHash /\ tx_Log res = log /\ log <> [] /\ len log < 2 ^ 60
  | NotEVM => stored = None /\ msg = None
  end.
Definition infos_from (i : nat) (rs : list tx_left) : list pb.DeferredInfo := mjoin (imap (fun j r => option_list (left_info (i + j) r)) rs).

Lemma infos_from_cons i r rs : infos_from i (r :: rs) = option_list (left_info i r) ++ infos_from (S i) rs.
Proof.
  unfold infos_from. rewrite imap_cons. simpl. rewrite Nat.add_0_r. do 2 f_equal. apply imap_ext. intros j x _. simpl. do 2 f_equal. lia.
Qed.
Lemma infos_from_elem i rs info : info ∈ infos_from i rs -> exists j r, rs !! j = Some r /\ left_info (i + j) r = Some info.
Proof.
  unfold infos_from. rewrite list_elem_of_join. intros (x & Hx & (j & Hj)%list_elem_of_lookup_1). rewrite list_lookup_imap in Hj.
  destruct (rs !! j) as [r|] eqn:Hr; [|done]. injection Hj as <-. exists j, r. split; [done|]. destruct (left_info (i + j) r); simpl in Hx; [|by apply elem_of_nil in Hx].
  apply list_elem_of_singleton in Hx. by subst.
Qed.
Lemma infos_from_size i rs : surplus_size (infos_from i rs) <= list_sum left_size rs.
Proof.
  revert i. induction rs as [|r rs IH]; intros i; [done|]. rewrite infos_from_cons. unfold surplus_size in *. rewrite list_sum_app. simpl. specialize (IH (S i)).
  enough (list_sum (fun i => Z.abs (info_surplus EmptyTxsHash i)) (option_list (left_info i r)) <= left_size r) by lia.
  destruct r as [hash bloom surplus|hash log|]; simpl; [|unfold info_surplus; destruct (failed_info _ _); simpl; lia|lia].
  unfold info_surplus, failed_info. simpl. lia.
Qed.

(** The information of an executed transaction can be read. *)
Lemma executed_reads i hash bloom surplus bz : len hash < 2 ^ 60 -> (length bloom <= BloomByteLength)%nat -> Z.abs surplus < 2 ^ 249 ->
  let info := pb.mkDeferredInfo (uint32 (Z.of_nat i)) hash bloom (Some surplus) [] in
  pb.DeferredInfo_Marshal info = Some bz -> pb.DeferredInfo_Unmarshal bz = Ok info.
Proof.
  intros Hh Hb Hs info Hm. assert (Hi : 0 <= uint32 (Z.of_nat i) < 2 ^ 32) by (apply Z.mod_pos_bound; lia).
  assert (Hfit : int_fits surplus = true) by (unfold int_fits; apply bool_decide_eq_true; lia).
  assert (Hok : pb.DeferredInfo_ok info).
  { unfold pb.DeferredInfo_ok, info. cbn -[Z.pow pb.DeferredInfo_Size uint32]. split; [done|]. split; [done|].
    unfold pb.DeferredInfo_Size. cbn -[Z.pow size_varint size_bytes uint32 int_Marshal].
    destruct (int_Unmarshal_Marshal surplus Hfit) as [_ Hl]. pose proof (len_nonneg (int_Marshal (Some surplus))) as Hl0.
    pose proof (size_varint_bound (uint32 (Z.of_nat i)) ltac:(lia)). pose proof (size_bytes_small hash Hh). assert (Hbl : len bloom <= 256) by (unfold len, BloomByteLength in *; lia).
    pose proof (size_bytes_small bloom ltac:(lia)). pose proof (sov_bound (len (int_Marshal (Some surplus))) ltac:(lia)). change (size_bytes []) with 0. lia. }
  destruct (pb.DeferredInfo_writes info Hok) as [Hw Hlen]. assert (bz = pb.enc_DeferredInfo info) as ->.
  { assert (Hm' : pb.DeferredInfo_Marshal info = Some (pb.enc_DeferredInfo info)) by by apply marshal_spec. congruence. }
  rewrite pb.DeferredInfo_reads by done. done.
Qed.

Lemma deferred_infos_left t msgs txResults : forall i rs, length rs = length msgs -> list_sum left_size rs < 2 ^ 249 ->
  (forall j r, rs !! j = Some r -> exists msg res, msgs !! j = Some msg /\ txResults !! (i + j)%nat = Some res /\ leaves t (i + j) msg res r) ->
  deferred_infos tx_hash t i msgs txResults = Some (infos_from i rs).
Proof.
  induction msgs as [|msg msgs IH]; intros i [|r rs] Hlen Hsum Hr; try done. cbn [deferred_infos]. rewrite infos_from_cons. simpl in Hsum.
  assert (Hnn : 0 <= list_sum left_size rs) by (apply list_sum_nonneg; intros x _; destruct x; simpl; lia).
  assert (Hr0 : 0 <= left_size r) by (destruct r; simpl; lia).
  destruct (Hr 0%nat r eq_refl) as (msg' & res & [= <-] & Hres & Hl). rewrite Nat.add_0_r in Hres, Hl. rewrite Hres. cbn [mbind option_bind].
  rewrite (IH (S i) rs); [|by injection Hlen|lia|].
  - unfold pf_Get, pf_key. rewrite kv_Get_view by done. destruct r as [hash bloom surplus|hash log|]; cbn [leaves] in Hl.
    + destruct Hl as (Hh & Hb & bz & Hm & ->). simpl in Hsum. rewrite (executed_reads i hash bloom surplus bz) by (done || lia). done.
    + destruct Hl as (-> & (m & -> & Hm) & _ & <- & _). rewrite Hm. done.
    + destruct Hl as (-> & ->). done.
  - intros j r' Hj. destruct (Hr (S j) r' Hj) as (m & res' & Hm & Hres' & Hl'). exists m, res'. replace (S i + j)%nat with (i + S j)%nat by lia. done.
Qed.

(** The surplus that the checks before the execution recorded. *)
Definition ante_size (antes : gmap bytes Z) : Z := list_sum (fun kz => Z.abs kz.2) (map_to_list antes).
Lemma int_set_Marshal z : int_fits z = true -> int_set (int_Marshal (Some z)) = Some z.
Proof.
  intros Hz. destruct (int_Unmarshal_Marshal z Hz) as [Hu _]. unfold int_Unmarshal in Hu. destruct (int_set _) as [y|]; [|done]. simpl in Hu.
  case_bool_decide; [done|]. congruence.
Qed.
Lemma add_surpluses_some (l : list (bytes * Z)) acc : Z.abs acc + list_sum (fun kz => Z.abs kz.2) l < 2 ^ 249 ->
  exists sum, add_surpluses acc ((fun kz => (kz.1, int_Marshal (Some kz.2))) <$> l) = Some sum /\ Z.abs sum <= Z.abs acc + list_sum (fun kz => Z.abs kz.2) l.
Proof.
  revert acc. induction l as [|[k z] l IH]; intros acc Hb; [exists acc; split; [done|simpl; lia]|]. rewrite fmap_cons. cbn [add_surpluses fst snd list_sum foldr] in *. fold (list_sum (fun kz : bytes * Z => Z.abs kz.2) l) in *.
  assert (Hnn : 0 <= list_sum (fun kz : bytes * Z => Z.abs kz.2) l) by (apply list_sum_nonneg; intros; lia).
  rewrite int_set_Marshal by (unfold int_fits; apply bool_decide_eq_true; lia). cbn [mbind option_bind]. rewrite int_add_spec.
  unfold int_fits. rewrite bool_decide_eq_true_2 by lia. cbn [mbind option_bind]. destruct (IH (acc + z)) as (sum & -> & Hsum); [lia|]. exists sum. split; [done|lia].
Qed.
Lemma GetAnteSurplusSum_some (t : T) antes : (forall k, is_Some (kv_view t !! k) -> bytes_ok k) ->
  (forall k, kv_view t !! (AnteSurplusPrefix ++ k) = (fun z => int_Marshal (Some z)) <$> antes !! k) -> ante_size antes < 2 ^ 249 ->
  exists sum, GetAnteSurplusSum t = Some sum /\ Z.abs sum <= ante_size antes.
Proof.
  intros Hk Hv Hb. unfold GetAnteSurplusSum. pose proof (pf_iterate_view AnteSurplusPrefix t None None true) as Hit. simpl in Hit.
  rewrite Hit; [|repeat constructor; lia|done|done]. cbn [mbind option_bind].
  assert (Hview : prefix_view AnteSurplusPrefix t = (fun z => int_Marshal (Some z)) <$> antes) by (apply map_eq; intros k; by rewrite lookup_prefix_view, lookup_fmap, Hv).
  assert (Hperm : map_entries (prefix_view AnteSurplusPrefix t) None None ≡ₚ (fun kz => (kz.1, int_Marshal (Some kz.2))) <$> map_to_list antes).
  { unfold map_entries. rewrite merge_sort_Permutation, Hview, map_to_list_fmap. rewrite filter_all; [done|]. intros [k v] _. unfold in_domain. simpl. apply andb_true_iff. split; [|done]. apply bool_decide_eq_true. by destruct k. }
  destruct (Permutation_map_inv _ _ Hperm) as (l & -> & Hl). assert (Heq : ante_size antes = list_sum (fun kz => Z.abs kz.2) l) by (unfold ante_size; by rewrite Hl).
  destruct (add_surpluses_some l 0) as (sum & Hsum & Hle); [lia|]. exists sum. split; [exact Hsum|lia].
Qed.

(** ** The theorem *)
(** A block in order: what the store, the transient store and the bank hold when it ends. *)
Record block_in_order (params : Params) (maxGas : option Z) (msgs : list (option Msg)) (txResults : list ExecTxResult) (gas : Z)
    (rs : list tx_left) (antes : gmap bytes Z) st : Prop := {
  bi_slots : slots_ok st.1;
  bi_legacy : legacy_ok st.1;
  bi_fee : fee_ok params maxGas gas st.1;
  bi_gas : 0 <= gas < 2 ^ 63;
  bi_keys : forall k, is_Some (kv_view st.2 !! k) -> bytes_ok k;
  bi_count : length rs = length msgs;
  bi_left : forall i r, rs !! i = Some r -> exists msg res, msgs !! i = Some msg /\ txResults !! i = Some res /\ leaves st.2 i msg res r;
  bi_antes : forall k, kv_view st.2 !! (AnteSurplusPrefix ++ k) = (fun z => int_Marshal (Some z)) <$> antes !! k;
  bi_bank : bank_wf (bank_of st);
  bi_receive : CanAddressReceive st.1 (GetModuleAddress env FeeCollectorName) = true /\ CanAddressReceive st.1 (GetModuleAddress env ModuleName) = true;
  bi_coinbase : forall i hash bloom surplus, rs !! i = Some (Executed hash bloom surplus) -> no_vesting (bank_of st) (GetCoinbaseAddress (uint32 (Z.of_nat i)));
  bi_total : total env (bank_of st) BaseDenom < 2 ^ 249;
  bi_surplus : ante_size antes + list_sum left_size rs < 2 ^ 249
}.

(** C26. [EndBlock] returns on every block in order.  The store may hold legacy receipts, as
    [Marshal] wrote them or unreadable ones; the fee parameters are valid, with a stored
    fee below 2^200, or the context has no block parameters; each executed transaction has
    left its information with a bloom of at most 256 bytes, each transaction that failed
    before has a log, and others left nothing; the surplus recorded by the ante handler is
    as it was marshalled; no coinbase account is a vesting account, the two module accounts
    can receive, and the total and the surpluses are below 2^249.  Then no step panics:
    neither the clean-ups and the migration of receipts, nor the fee adjustment, nor any
    bank operation of the settlement, nor the receipts of failed transactions, nor the
    blooms; [BytesToBloom] takes up to 256 bytes. *)
Theorem EndBlock_returns params maxGas msgs txResults gas rs antes st :
  (forall b, (length b <= BloomByteLength)%nat -> is_Some (BytesToBloom b)) ->
  block_in_order params maxGas msgs txResults gas rs antes st ->
  is_Some (EndBlock env tx_hash EmptyTxsHash BytesToBloom CreateBloom ORBytes params maxGas msgs txResults gas st).
Proof.
  intros Hbloom [Hs Hleg Hfee Hgas Hk Hcount Hleft Hante Hwf [Hf Hm] Hcb Ht Hsum].
  assert (Hnn : 0 <= list_sum left_size rs) by (apply list_sum_nonneg; intros x _; destruct x; simpl; lia).
  assert (Hnn' : 0 <= ante_size antes) by (apply list_sum_nonneg; intros; lia).
  assert (Hinfo : forall i r info, rs !! i = Some r -> left_info i r = Some info -> info_ok info /\ (length (pb.di_TxBloom info) <= BloomByteLength)%nat).
  { intros i r info Hr Hi. destruct (Hleft i r Hr) as (msg & res & _ & _ & Hl). assert (Hix : 0 <= uint32 (Z.of_nat i) < 2 ^ 32) by (apply Z.mod_pos_bound; lia).
    destruct r as [hash bloom surplus|hash log|]; [| |done]; injection Hi as <-; cbn [leaves] in Hl; unfold info_ok; cbn [pb.di_TxIndex pb.di_Error pb.di_Surplus pb.di_TxBloom].
    - split; [|apply Hl]. split_and!; [lia|lia|done|done].
    - destruct Hl as (_ & _ & Hh & _ & Hlog & Hsmall). split; [|simpl; lia]. split_and!; [lia|lia|done|].
      unfold failed_info. simpl. by rewrite !bool_decide_true. }
  destruct (GetAnteSurplusSum_some st.2 antes Hk Hante) as (ante & Hga & Hle); [lia|].
  apply (EndBlock_infos_returns params maxGas msgs txResults gas (infos_from 0 rs) ante st); try done.
  - apply fee_ok_returns. unfold uint64. rewrite Z.mod_small by lia. done.
  - by apply deferred_infos_left; [|lia|].
  - apply Forall_forall. intros info (i & r & Hr & Hi)%infos_from_elem. by apply (Hinfo i r).
  - intros info (i & r & Hr & Hi)%infos_from_elem. apply Hbloom. by apply (Hinfo i r).
  - intros x (info & (i & r & Hr & Hi)%infos_from_elem & Hfail & ->). destruct r as [hash bloom surplus|hash log|]; [| |done]; injection Hi as <-; [by eapply Hcb|].
    destruct (Hleft i _ Hr) as (msg & res & _ & _ & _ & _ & Hh & _ & Hlog & _). unfold failed_info in Hfail. simpl in Hfail. by rewrite !bool_decide_true in Hfail.
  - pose proof (infos_from_size 0 rs). lia.
Qed.
End Returns.
