(* ===== verification/AVL.v ===== *)
(** The in-memory Merkle tree of the state commitment,
    [sei-db/state_db/sc/memiavl]: nodes ([node.go], [mem_node.go]), the tree ([tree.go]),
    its iterator ([iterator.go]) and the paths of its proofs ([proof.go]).

    Nodes are shared between a tree and the copies taken of it, and are changed in place
    when no copy can see them, so they live in an explicit heap: a pointer is a location,
    and an operation that dereferences nil panics ([None]).  [sha256], a library function,
    is a parameter.  Nodes that are read from a snapshot file, locks and the counters of
    allocated memory are left out. *)
From stdpp Require Import base gmap sets list.
From Stdlib Require Import ZArith Lia.
From S2P Require Import Prelude.
Local Open Scope Z_scope.

Abbreviation loc := positive.

Record MemNode := mkNode {
  nd_height : Z;
  nd_version : Z;
  nd_size : Z;
  nd_key : bytes;
  nd_value : option bytes;
  nd_left : option loc;
  nd_right : option loc;
  nd_hash : option bytes
}.

Record heap := mkHeap { h_nodes : gmap loc MemNode; h_next : loc }.
Definition empty_heap : heap := mkHeap ∅ 1.

(** ** Computations on the heap *)
Definition HM (A : Type) : Type := heap -> option (heap * A).
#[export] Instance HM_ret : MRet HM := fun _ a h => Some (h, a).
#[export] Instance HM_bind : MBind HM := fun _ _ f m h => match m h with Some (h, a) => f a h | None => None end.
Definition panic {A} : HM A := fun _ => None.
Definition load (l : loc) : HM MemNode := fun h => (fun n => (h, n)) <$> (h_nodes h !! l).
Definition store (l : loc) (n : MemNode) : HM () := fun h => Some (mkHeap (<[l := n]> (h_nodes h)) (h_next h), tt).
Definition alloc (n : MemNode) : HM loc := fun h => Some (mkHeap (<[h_next h := n]> (h_nodes h)) (Pos.succ (h_next h)), h_next h).
Definition deref (o : option loc) : HM loc := fun h => (fun l => (h, l)) <$> o.
Definition modify (l : loc) (f : MemNode -> MemNode) : HM () := n ← load l; store l (f n).

(** ** [mem_node.go] *)
Definition newBranchNode (height size version : Z) (key : bytes) (left right : option loc) : MemNode :=
  mkNode height version size key None left right None.
Definition newLeafNode (key value : bytes) (version : Z) : MemNode := mkNode 0 version 1 key (Some value) None None None.
Definition IsLeaf (n : MemNode) : bool := bool_decide (nd_height n = 0).

Definition set_left (c : option loc) (n : MemNode) : MemNode :=
  mkNode (nd_height n) (nd_version n) (nd_size n) (nd_key n) (nd_value n) c (nd_right n) (nd_hash n).
Definition set_right (c : option loc) (n : MemNode) : MemNode :=
  mkNode (nd_height n) (nd_version n) (nd_size n) (nd_key n) (nd_value n) (nd_left n) c (nd_hash n).
Definition set_value (v : bytes) (n : MemNode) : MemNode :=
  mkNode (nd_height n) (nd_version n) (nd_size n) (nd_key n) (Some v) (nd_left n) (nd_right n) (nd_hash n).
Definition set_key (k : bytes) (n : MemNode) : MemNode :=
  mkNode (nd_height n) (nd_version n) (nd_size n) k (nd_value n) (nd_left n) (nd_right n) (nd_hash n).
Definition set_hash (hash : option bytes) (n : MemNode) : MemNode :=
  mkNode (nd_height n) (nd_version n) (nd_size n) (nd_key n) (nd_value n) (nd_left n) (nd_right n) hash.
Definition set_height_size (height size : Z) (n : MemNode) : MemNode :=
  mkNode height (nd_version n) size (nd_key n) (nd_value n) (nd_left n) (nd_right n) (nd_hash n).
(** The version is set and the hash forgotten. *)
Definition touch (version : Z) (n : MemNode) : MemNode :=
  mkNode (nd_height n) version (nd_size n) (nd_key n) (nd_value n) (nd_left n) (nd_right n) None.

Definition Mutate (l : loc) (version cowVersion : Z) : HM loc :=
  n ← load l;
  if bool_decide (nd_version n <= cowVersion) then alloc (touch version n)
  else _ ← store l (touch version n); mret l.

Definition uint8 (z : Z) : Z := z mod 256.
Definition int64 (z : Z) : Z := (z + 2 ^ 63) mod 2 ^ 64 - 2 ^ 63.

Definition updateHeightSize (l : loc) : HM () :=
  n ← load l;
  left ← deref (nd_left n); right ← deref (nd_right n);
  ln ← load left; rn ← load right;
  store l (set_height_size (uint8 (Z.max (nd_height ln) (nd_height rn) + 1)) (int64 (nd_size ln + nd_size rn)) n).

Definition calcBalance (l : loc) : HM Z :=
  n ← load l;
  left ← deref (nd_left n); right ← deref (nd_right n);
  ln ← load left; rn ← load right;
  mret (nd_height ln - nd_height rn).

Definition rotateRight (l : loc) (version cowVersion : Z) : HM loc :=
  n ← load l;
  left ← deref (nd_left n);
  newSelf ← Mutate left version cowVersion;
  ln ← load left;
  _ ← modify l (set_left (nd_right ln));
  _ ← modify newSelf (set_right (Some l));
  _ ← updateHeightSize l;
  _ ← updateHeightSize newSelf;
  mret newSelf.

Definition rotateLeft (l : loc) (version cowVersion : Z) : HM loc :=
  n ← load l;
  right ← deref (nd_right n);
  newSelf ← Mutate right version cowVersion;
  rn ← load right;
  _ ← modify l (set_right (nd_left rn));
  _ ← modify newSelf (set_left (Some l));
  _ ← updateHeightSize l;
  _ ← updateHeightSize newSelf;
  mret newSelf.

Definition reBalance (l : loc) (version cowVersion : Z) : HM loc :=
  balance ← calcBalance l;
  n ← load l;
  if bool_decide (1 < balance) then
    left ← deref (nd_left n);
    leftBalance ← calcBalance left;
    if bool_decide (0 <= leftBalance) then rotateRight l version cowVersion
    else
      left ← Mutate left version cowVersion;
      left ← rotateLeft left version cowVersion;
      _ ← modify l (set_left (Some left));
      rotateRight l version cowVersion
  else if bool_decide (balance < -1) then
    right ← deref (nd_right n);
    rightBalance ← calcBalance right;
    if bool_decide (rightBalance <= 0) then rotateLeft l version cowVersion
    else
      right ← Mutate right version cowVersion;
      right ← rotateRight right version cowVersion;
      _ ← modify l (set_right (Some right));
      rotateLeft l version cowVersion
  else mret l.

(** A height is a [uint8], so the recursions below are at most 256 calls deep. *)
Definition max_depth : nat := 257.

(** A value, and the number of keys before the key. *)
Fixpoint node_Get (fuel : nat) (l : loc) (key : bytes) : HM (option bytes * Z) :=
  match fuel with
  | O => panic
  | S fuel =>
      n ← load l;
      if IsLeaf n then
        mret match bytes_compare (nd_key n) key with Lt => (None, 1) | Gt => (None, 0) | Eq => (nd_value n, 0) end
      else if bool_decide (key <b nd_key n) then left ← deref (nd_left n); node_Get fuel left key
      else
        right ← deref (nd_right n);
        '(value, index) ← node_Get fuel right key;
        rn ← load right;
        let size := nd_size n - nd_size rn in
        if bool_decide (size < 0) || bool_decide (2 ^ 32 - 1 < size) then panic
        else mret (value, (index + size) mod 2 ^ 32)
  end.

Fixpoint node_GetByIndex (fuel : nat) (l : loc) (index : Z) : HM (option bytes * option bytes) :=
  match fuel with
  | O => panic
  | S fuel =>
      n ← load l;
      if IsLeaf n then mret (if bool_decide (index = 0) then (Some (nd_key n), nd_value n) else (None, None))
      else
        left ← deref (nd_left n);
        ln ← load left;
        let leftSize := nd_size ln in
        if bool_decide (leftSize < 0) || bool_decide (2 ^ 32 - 1 < leftSize) then panic
        else if bool_decide (index < leftSize) then node_GetByIndex fuel left index
        else right ← deref (nd_right n); node_GetByIndex fuel right (index - leftSize)
  end.

(** ** [node.go] *)
Fixpoint setRecursive (fuel : nat) (node : option loc) (key value : bytes) (version cowVersion : Z) : HM (loc * bool) :=
  match fuel with
  | O => panic
  | S fuel =>
      match node with
      | None => l ← alloc (newLeafNode key value version); mret (l, true)
      | Some l =>
          n ← load l;
          let nodeKey := nd_key n in
          if IsLeaf n then
            match bytes_compare key nodeKey with
            | Lt =>
                leaf ← alloc (newLeafNode key value version);
                branch ← alloc (newBranchNode 1 2 version nodeKey (Some leaf) (Some l));
                mret (branch, false)
            | Gt =>
                leaf ← alloc (newLeafNode key value version);
                branch ← alloc (newBranchNode 1 2 version key (Some l) (Some leaf));
                mret (branch, false)
            | Eq =>
                newNode ← Mutate l version cowVersion;
                _ ← modify newNode (set_value value);
                mret (newNode, true)
            end
          else
            '(newNode, updated) ←
              (if bool_decide (key <b nodeKey) then
                 '(newChild, updated) ← setRecursive fuel (nd_left n) key value version cowVersion;
                 newNode ← Mutate l version cowVersion;
                 _ ← modify newNode (set_left (Some newChild));
                 mret (newNode, updated)
               else
                 '(newChild, updated) ← setRecursive fuel (nd_right n) key value version cowVersion;
                 newNode ← Mutate l version cowVersion;
                 _ ← modify newNode (set_right (Some newChild));
                 mret (newNode, updated));
            if (updated : bool) then mret (newNode, updated)
            else
              _ ← updateHeightSize newNode;
              newNode ← reBalance newNode version cowVersion;
              mret (newNode, updated)
      end
  end.

(** The value removed, the new subtree and the new smallest key. *)
Fixpoint removeRecursive (fuel : nat) (node : option loc) (key : bytes) (version cowVersion : Z) :
    HM (option bytes * option loc * option bytes) :=
  match fuel with
  | O => panic
  | S fuel =>
      match node with
      | None => mret (None, None, None)
      | Some l =>
          n ← load l;
          if IsLeaf n then
            mret (if bool_decide (nd_key n = key) then (nd_value n, None, None) else (None, Some l, None))
          else if bool_decide (key <b nd_key n) then
            '(value, newLeft, newKey) ← removeRecursive fuel (nd_left n) key version cowVersion;
            match value with
            | None => mret (None, Some l, None)
            | Some _ =>
                match newLeft with
                | None => mret (value, nd_right n, Some (nd_key n))
                | Some _ =>
                    newNode ← Mutate l version cowVersion;
                    _ ← modify newNode (set_left newLeft);
                    _ ← updateHeightSize newNode;
                    newNode ← reBalance newNode version cowVersion;
                    mret (value, Some newNode, newKey)
                end
            end
          else
            '(value, newRight, newKey) ← removeRecursive fuel (nd_right n) key version cowVersion;
            match value with
            | None => mret (None, Some l, None)
            | Some _ =>
                match newRight with
                | None => mret (value, nd_left n, None)
                | Some _ =>
                    newNode ← Mutate l version cowVersion;
                    _ ← modify newNode (set_right newRight);
                    _ ← (match newKey with Some k => modify newNode (set_key k) | None => mret tt end);
                    _ ← updateHeightSize newNode;
                    newNode ← reBalance newNode version cowVersion;
                    mret (value, Some newNode, None)
                end
            end
      end
  end.

(** [binary.PutVarint] of the standard library. *)
Definition PutVarint (x : Z) : bytes :=
  let ux := Z.shiftl x 1 mod 2 ^ 64 in
  PutUvarint (if bool_decide (x < 0) then 2 ^ 64 - 1 - ux else ux).

Definition EncodeBytes (bz : bytes) : bytes := PutUvarint (Z.of_nat (length bz)) ++ bz.

Section Hashes.
Context (sha256 : bytes -> bytes).

(** [Hash], which keeps the hash in the node, with [HashNode] and [writeHashBytes]. *)
Fixpoint node_Hash (fuel : nat) (l : loc) : HM bytes :=
  match fuel with
  | O => panic
  | S fuel =>
      n ← load l;
      match nd_hash n with
      | Some hash => mret hash
      | None =>
          let head := PutVarint (nd_height n) ++ PutVarint (nd_size n) ++ PutVarint (nd_version n) in
          bz ← (if IsLeaf n then mret (head ++ EncodeBytes (nd_key n) ++ EncodeBytes (sha256 (default [] (nd_value n))))
                else
                  left ← deref (nd_left n); lh ← node_Hash fuel left;
                  right ← deref (nd_right n); rh ← node_Hash fuel right;
                  mret (head ++ EncodeBytes lh ++ EncodeBytes rh));
          let hash := sha256 bz in
          _ ← modify l (set_hash (Some hash));
          mret hash
      end
  end.

(** ** [tree.go] *)
Record Tree := mkTree { t_version : Z; t_root : option loc; t_initialVersion : Z; t_cowVersion : Z }.
Definition MaxUint32 : Z := 2 ^ 32 - 1.

Definition NewEmptyTree (version initialVersion : Z) : option Tree :=
  if bool_decide (MaxUint32 <= version) then None else Some (mkTree version None initialVersion 0).
Definition New : option Tree := NewEmptyTree 0 0.
Definition NewWithInitialVersion (initialVersion : Z) : option Tree := NewEmptyTree 0 initialVersion.

Definition IsEmpty (t : Tree) : bool := bool_decide (t_root t = None).
Definition set_root (t : Tree) (root : option loc) : Tree := mkTree (t_version t) root (t_initialVersion t) (t_cowVersion t).

(** The receiver and the copy. *)
Definition Copy (t : Tree) : Tree * Tree :=
  let t := match t_root t with Some _ => mkTree (t_version t) (t_root t) (t_initialVersion t) (t_version t) | None => t end in
  (t, t).

Definition nextVersionU32 (v initialVersion : Z) : Z :=
  if bool_decide (v = 0) && bool_decide (1 < initialVersion) then initialVersion else (v + 1) mod 2 ^ 32.
Definition write_version (t : Tree) : Z := (t_version t + 1) mod 2 ^ 32.

(** A nil value is stored as the empty one. *)
Definition Set_ (t : Tree) (key : bytes) (value : option bytes) : HM Tree :=
  '(root, _) ← setRecursive max_depth (t_root t) key (default [] value) (write_version t) (t_cowVersion t);
  mret (set_root t (Some root)).

Definition Remove (t : Tree) (key : bytes) : HM Tree :=
  '(_, root, _) ← removeRecursive max_depth (t_root t) key (write_version t) (t_cowVersion t);
  mret (set_root t root).

(** A pair of a change set: a key with a value, or to be deleted. *)
Record KVPair := mkPair { kv_delete : bool; kv_key : bytes; kv_value : option bytes }.
Fixpoint ApplyChangeSet (t : Tree) (pairs : list KVPair) : HM Tree :=
  match pairs with
  | [] => mret t
  | p :: pairs =>
      t ← (if kv_delete p then Remove t (kv_key p) else Set_ t (kv_key p) (kv_value p));
      ApplyChangeSet t pairs
  end.

Definition emptyHash : bytes := sha256 [].
Definition RootHash (t : Tree) : HM bytes :=
  match t_root t with None => mret emptyHash | Some l => node_Hash max_depth l end.

(** [inr] is the error of a version that overflows. *)
Definition SaveVersion (t : Tree) (updateHash : bool) : HM (Tree * (option bytes * Z) + ()) :=
  if bool_decide (MaxUint32 <= t_version t) then mret (inr tt)
  else
    hash ← (if updateHash then hash ← RootHash t; mret (Some hash) else mret None);
    let version := nextVersionU32 (t_version t) (t_initialVersion t) in
    mret (inl (mkTree version (t_root t) (t_initialVersion t) (t_cowVersion t), (hash, version))).

Definition GetWithIndex (t : Tree) (key : bytes) : HM (Z * option bytes) :=
  match t_root t with
  | None => mret (0, None)
  | Some l => '(value, index) ← node_Get max_depth l key; mret (index, value)
  end.
Definition GetByIndex (t : Tree) (index : Z) : HM (option bytes * option bytes) :=
  match t_root t with
  | None => mret (None, None)
  | Some l => if bool_decide (index < 0) || bool_decide (MaxUint32 < index) then mret (None, None) else node_GetByIndex max_depth l index
  end.
Definition Get (t : Tree) (key : bytes) : HM (option bytes) := '(_, value) ← GetWithIndex t key; mret value.
Definition Has (t : Tree) (key : bytes) : HM bool := value ← Get t key; mret (bool_decide (value <> None)).

(** ** [iterator.go]; the stack has its top first *)
Record Iterator := mkIter {
  it_start : option bytes;
  it_end : option bytes;
  it_ascending : bool;
  it_key : option bytes;
  it_value : option bytes;
  it_valid : bool;
  it_stack : list loc
}.

Definition before_end (end_ : option bytes) (key : bytes) : bool :=
  match end_ with None => true | Some e => bool_decide (key <b e) end.

Definition with_stack (it : Iterator) (stack : list loc) : Iterator :=
  mkIter (it_start it) (it_end it) (it_ascending it) (it_key it) (it_value it) (it_valid it) stack.

Fixpoint iter_loop (fuel : nat) (it : Iterator) : HM Iterator :=
  match fuel with
  | O => panic
  | S fuel =>
      match it_stack it with
      | [] => mret (mkIter (it_start it) (it_end it) (it_ascending it) (it_key it) (it_value it) false [])
      | l :: stack =>
          n ← load l;
          let key := nd_key n in
          let startCmp := bytes_compare (default [] (it_start it)) key in
          let afterStart := bool_decide (it_start it = None) || bool_decide (startCmp = Lt) in
          let beforeEnd := before_end (it_end it) key in
          if IsLeaf n then
            if (afterStart || bool_decide (startCmp = Eq)) && beforeEnd
            then mret (mkIter (it_start it) (it_end it) (it_ascending it) (Some key) (nd_value n) (it_valid it) stack)
            else iter_loop fuel (with_stack it stack)
          else
            left ← (if afterStart then l ← deref (nd_left n); mret [l] else mret []);
            right ← (if beforeEnd then l ← deref (nd_right n); mret [l] else mret []);
            iter_loop fuel (with_stack it ((if it_ascending it then left ++ right else right ++ left) ++ stack))
      end
  end.

(** The loop pops a node in each round; a tree with [n] leaves has less than [2 * n]. *)
Definition iter_fuel (h : heap) (stack : list loc) : nat :=
  S (foldr (fun l acc => match h_nodes h !! l with Some n => Z.to_nat (2 * nd_size n) | None => 0 end + acc)%nat 0%nat stack).
Definition iter_Next (it : Iterator) : HM Iterator := fun h => iter_loop (iter_fuel h (it_stack it)) it h.

Definition NewIterator (t : Tree) (start end_ : option bytes) (ascending : bool) : HM Iterator :=
  iter_Next (mkIter start end_ ascending None None true (match t_root t with Some l => [l] | None => [] end)).

(** The loop of a caller that reads the iterator to its end. *)
Fixpoint iter_drain (fuel : nat) (it : Iterator) : HM (list (bytes * bytes)) :=
  match fuel with
  | O => panic
  | S fuel =>
      if it_valid it then
        it' ← iter_Next it;
        l ← iter_drain fuel it';
        mret ((default [] (it_key it), default [] (it_value it)) :: l)
      else mret []
  end.

(** ** [proof.go] *)
Record ProofInnerNode := mkInner { pn_Height : Z; pn_Size : Z; pn_Version : Z; pn_Left : option bytes; pn_Right : option bytes }.

(** The proofs of ICS 23; the operations are those this code uses. *)
Inductive HashOp := HashOp_SHA256.
Inductive LengthOp := LengthOp_VAR_PROTO.
Record LeafOp := mkLeafOp { lo_Hash : HashOp; lo_PrehashValue : HashOp; lo_Length : LengthOp; lo_Prefix : bytes }.
Record InnerOp := mkInnerOp { io_Hash : HashOp; io_Prefix : bytes; io_Suffix : bytes }.
Record ExistenceProof := mkExist { ep_Key : bytes; ep_Value : option bytes; ep_Leaf : LeafOp; ep_Path : list InnerOp }.
Record NonExistenceProof := mkNonExist { ne_Key : bytes; ne_Left : option ExistenceProof; ne_Right : option ExistenceProof }.
Inductive CommitmentProof := ProofExist (p : ExistenceProof) | ProofNonexist (p : NonExistenceProof).

(** The path, from the root down, the leaf it ends in, and whether that has the key. *)
Fixpoint pathToLeaf (fuel : nat) (l : loc) (key : bytes) : HM (list ProofInnerNode * loc * bool) :=
  match fuel with
  | O => panic
  | S fuel =>
      n ← load l;
      if bool_decide (nd_height n = 0) then mret ([], l, bool_decide (nd_key n = key))
      else if bool_decide (127 < nd_height n) then panic
      else if bool_decide (key <b nd_key n) then
        right ← deref (nd_right n); rh ← node_Hash max_depth right;
        left ← deref (nd_left n);
        '(path, leaf, found) ← pathToLeaf fuel left key;
        mret (mkInner (nd_height n) (nd_size n) (nd_version n) None (Some rh) :: path, leaf, found)
      else
        left ← deref (nd_left n); lh ← node_Hash max_depth left;
        right ← deref (nd_right n);
        '(path, leaf, found) ← pathToLeaf fuel right key;
        mret (mkInner (nd_height n) (nd_size n) (nd_version n) (Some lh) None :: path, leaf, found)
  end.

Definition convertLeafOp (version : Z) : LeafOp :=
  mkLeafOp HashOp_SHA256 HashOp_SHA256 LengthOp_VAR_PROTO (PutVarint 0 ++ PutVarint 1 ++ PutVarint version).

Definition lengthByte : Z := 32.
Definition convertInnerOp (p : ProofInnerNode) : InnerOp :=
  let prefix := PutVarint (pn_Height p) ++ PutVarint (pn_Size p) ++ PutVarint (pn_Version p) in
  if bool_decide (0 < length (default [] (pn_Left p)))%nat then
    mkInnerOp HashOp_SHA256 (prefix ++ [lengthByte] ++ default [] (pn_Left p) ++ [lengthByte]) []
  else mkInnerOp HashOp_SHA256 (prefix ++ [lengthByte]) ([lengthByte] ++ default [] (pn_Right p)).
Definition convertInnerOps (path : list ProofInnerNode) : list InnerOp := convertInnerOp <$> reverse path.

(** [inr] is the error of a key that does not exist. *)
Definition createExistenceProof (t : Tree) (key : bytes) : HM (ExistenceProof + ()) :=
  l ← deref (t_root t);
  '(path, leaf, found) ← pathToLeaf max_depth l key;
  n ← load leaf;
  mret (if (found : bool) then inl (mkExist (nd_key n) (nd_value n) (convertLeafOp (nd_version n)) (convertInnerOps path)) else inr tt).

Definition getMembershipProof (t : Tree) (key : bytes) : HM (CommitmentProof + ()) :=
  exist ← createExistenceProof t key;
  mret (match exist with inl p => inl (ProofExist p) | inr e => inr e end).

(** The proofs of the neighbours of a key that is not there. *)
Definition neighbour (t : Tree) (key : option bytes) (wanted : bool) : HM (option ExistenceProof + ()) :=
  if wanted then p ← createExistenceProof t (default [] key); mret (match p with inl p => inl (Some p) | inr e => inr e end)
  else mret (inl None).

Definition getNonMembershipProof (t : Tree) (key : bytes) : HM (CommitmentProof + ()) :=
  '(idx, val) ← GetWithIndex t key;
  if bool_decide (val <> None) then mret (inr tt)
  else
    left ← (if bool_decide (1 <= idx) then '(leftkey, _) ← GetByIndex t (idx - 1); neighbour t leftkey true else mret (inl None));
    match (left : option ExistenceProof + ()) with
    | inr e => mret (inr e)
    | inl l =>
        '(rightkey, _) ← GetByIndex t idx;
        right ← neighbour t rightkey (bool_decide (rightkey <> None));
        mret (match (right : option ExistenceProof + ()) with inl r => inl (ProofNonexist (mkNonExist key l r)) | inr e => inr e end)
    end.

Definition GetProof (t : Tree) (key : bytes) : HM CommitmentProof :=
  exists_ ← Has t key;
  proof ← (if (exists_ : bool) then getMembershipProof t key else getNonMembershipProof t key);
  match (proof : CommitmentProof + ()) with inl p => mret p | inr _ => panic end.
End Hashes.
