(* ===== verification/AVLPure.v ===== *)
(** Balanced search trees as values: what the operations of [AVL] compute once sharing
    and mutation are forgotten.  Insertion and removal keep the leaves sorted, every
    branch labelled with the first key on its right, and the tree balanced, so that its
    height is logarithmic. *)
From stdpp Require Import base gmap sets list sorting.
From Stdlib Require Import ZArith Lia.
From S2P Require Import Prelude.
Local Open Scope Z_scope.

(** Leaves and branches with their keys and versions. *)
Inductive tree :=
| Lf (k v : bytes) (ver : Z)
| Br (k : bytes) (ver : Z) (l r : tree).

Fixpoint ht (t : tree) : Z := match t with Lf _ _ _ => 0 | Br _ _ l r => Z.max (ht l) (ht r) + 1 end.
Fixpoint sz (t : tree) : Z := match t with Lf _ _ _ => 1 | Br _ _ l r => sz l + sz r end.
Definition vers (t : tree) : Z := match t with Lf _ _ ver => ver | Br _ ver _ _ => ver end.
Definition label (t : tree) : bytes := match t with Lf k _ _ => k | Br k _ _ _ => k end.
Fixpoint leaves (t : tree) : list (bytes * bytes) := match t with Lf k v _ => [(k, v)] | Br _ _ l r => leaves l ++ leaves r end.
Abbreviation keys t := ((leaves t).*1).
Fixpoint first_key (t : tree) : bytes := match t with Lf k _ _ => k | Br _ _ l _ => first_key l end.

Fixpoint labelled (t : tree) : Prop := match t with Lf _ _ _ => True | Br k _ l r => k = first_key r /\ labelled l /\ labelled r end.
Fixpoint balanced (t : tree) : Prop :=
  match t with Lf _ _ _ => True | Br _ _ l r => -1 <= ht l - ht r <= 1 /\ balanced l /\ balanced r end.
Definition ordered (t : tree) : Prop := StronglySorted bytes_lt (keys t).
Fixpoint newest (n : Z) (t : tree) : Prop :=
  match t with Lf _ _ ver => ver <= n | Br _ ver l r => ver <= n /\ newest n l /\ newest n r end.

(** ** Rotations *)
Definition with_version (ver : Z) (t : tree) : tree := match t with Lf k v _ => Lf k v ver | Br k _ l r => Br k ver l r end.
Definition rotR (ver : Z) (t : tree) : tree :=
  match t with Br k v (Br lk _ ll lr) r => Br lk ver ll (Br k v lr r) | _ => t end.
Definition rotL (ver : Z) (t : tree) : tree :=
  match t with Br k v l (Br rk _ rl rr) => Br rk ver (Br k v l rl) rr | _ => t end.
Definition balance (t : tree) : Z := match t with Lf _ _ _ => 0 | Br _ _ l r => ht l - ht r end.
Definition rebal (ver : Z) (t : tree) : tree :=
  match t with
  | Lf _ _ _ => t
  | Br k v l r =>
      if bool_decide (1 < ht l - ht r) then
        if bool_decide (0 <= balance l) then rotR ver t else rotR ver (Br k v (rotL ver (with_version ver l)) r)
      else if bool_decide (ht l - ht r < -1) then
        if bool_decide (balance r <= 0) then rotL ver t else rotL ver (Br k v l (rotR ver (with_version ver r)))
      else t
  end.
#[global] Arguments rebal : simpl never.

(** ** Insertion and removal *)
Fixpoint p_set (key value : bytes) (ver : Z) (t : tree) : tree * bool :=
  match t with
  | Lf k v ver0 =>
      match bytes_compare key k with
      | Lt => (Br k ver (Lf key value ver) t, false)
      | Gt => (Br key ver t (Lf key value ver), false)
      | Eq => (Lf k value ver, true)
      end
  | Br k _ l r =>
      if bool_decide (key <b k)
      then let '(l, updated) := p_set key value ver l in (if updated then Br k ver l r else rebal ver (Br k ver l r), updated)
      else let '(r, updated) := p_set key value ver r in (if updated then Br k ver l r else rebal ver (Br k ver l r), updated)
  end.

Fixpoint p_remove (key : bytes) (ver : Z) (t : tree) : option (bytes * option tree * option bytes) :=
  match t with
  | Lf k v _ => if bool_decide (k = key) then Some (v, None, None) else None
  | Br k _ l r =>
      if bool_decide (key <b k) then
        match p_remove key ver l with
        | None => None
        | Some (v, None, _) => Some (v, Some r, Some k)
        | Some (v, Some l, newKey) => Some (v, Some (rebal ver (Br k ver l r)), newKey)
        end
      else
        match p_remove key ver r with
        | None => None
        | Some (v, None, _) => Some (v, Some l, None)
        | Some (v, Some r, newKey) => Some (v, Some (rebal ver (Br (default k newKey) ver l r)), None)
        end
  end.

(** ** Sorted lists *)
Fixpoint ins (key value : bytes) (l : list (bytes * bytes)) : list (bytes * bytes) :=
  match l with
  | [] => [(key, value)]
  | (k, v) :: l => match bytes_compare key k with Lt => (key, value) :: (k, v) :: l | Eq => (k, value) :: l | Gt => (k, v) :: ins key value l end
  end.
Definition del (key : bytes) (l : list (bytes * bytes)) : list (bytes * bytes) := filter (fun kv => kv.1 <> key) l.

Lemma ins_left key value (l1 l2 : list (bytes * bytes)) :
  l1 <> [] -> (forall k, k ∈ l2.*1 -> key <b k) -> ins key value (l1 ++ l2) = ins key value l1 ++ l2.
Proof.
  intros Hne Hk. induction l1 as [|[k v] l1 IH]; [done|]. simpl. destruct (bytes_compare key k); [done|done|]. simpl. f_equal.
  destruct l1 as [|kv l1]; [|by apply IH]. destruct l2 as [|[k2 v2] l2]; [done|]. simpl.
  assert (Hlt : key <b k2) by (apply Hk; left). unfold bytes_lt in Hlt. by rewrite Hlt.
Qed.

Lemma ins_right key value (l1 l2 : list (bytes * bytes)) :
  (forall k, k ∈ l1.*1 -> k <b key) -> ins key value (l1 ++ l2) = l1 ++ ins key value l2.
Proof.
  induction l1 as [|[k v] l1 IH]; intros Hk; [done|]. simpl. assert (Hlt : k <b key) by (apply Hk; left).
  unfold bytes_lt in Hlt. rewrite bytes_compare_antisym, Hlt. simpl. f_equal. apply IH. intros k' Hk'. apply Hk. by right.
Qed.

Lemma del_app key l1 l2 : del key (l1 ++ l2) = del key l1 ++ del key l2.
Proof. apply filter_app. Qed.
Lemma del_none key l : key ∉ l.*1 -> del key l = l.
Proof.
  induction l as [|[k v] l IH]; intros Hk; [done|]. unfold del in *. rewrite fmap_cons, not_elem_of_cons in Hk. rewrite filter_cons_True by (simpl; naive_solver).
  f_equal. apply IH, Hk.
Qed.

Lemma bytes_lt_le_trans a b c : a <b b -> b <=b c -> a <b c.
Proof. intros Hab [Hbc| <-]%bytes_le_lteq; [by eapply bytes_lt_trans|done]. Qed.

(** ** Facts about trees *)
Lemma ht_nonneg t : 0 <= ht t.
Proof. induction t; simpl; lia. Qed.
Lemma ht_Br k ver l r : 1 <= ht (Br k ver l r).
Proof. simpl. pose proof (ht_nonneg l). lia. Qed.
Lemma sz_leaves t : sz t = Z.of_nat (length (leaves t)).
Proof. induction t; simpl; [done|]. rewrite length_app. lia. Qed.
Lemma sz_pos t : 1 <= sz t.
Proof. induction t; simpl; lia. Qed.
Lemma leaves_first t : exists v l, leaves t = (first_key t, v) :: l.
Proof. induction t as [k v ver|k ver l [v [l' Hl]] r _]; simpl; [eauto|]. rewrite Hl. simpl. eauto. Qed.
Lemma first_key_in t : first_key t ∈ keys t.
Proof. destruct (leaves_first t) as (v & l & ->). left. Qed.
Lemma first_key_leaves t t' : leaves t = leaves t' -> first_key t = first_key t'.
Proof. intros Heq. destruct (leaves_first t) as (v & l & H1), (leaves_first t') as (v' & l' & H2). congruence. Qed.

Lemma ordered_Br k ver l r : ordered (Br k ver l r) <-> ordered l /\ ordered r /\ forall x y, x ∈ keys l -> y ∈ keys r -> x <b y.
Proof. unfold ordered. simpl. rewrite fmap_app, StronglySorted_app. naive_solver. Qed.
Lemma first_key_least t x : ordered t -> x ∈ keys t -> first_key t <=b x.
Proof.
  intros Ho Hx. unfold ordered in Ho. destruct (leaves_first t) as (v & l & Hl). rewrite Hl in *. simpl in *.
  apply StronglySorted_inv in Ho as [_ Ho]. rewrite Forall_forall in Ho. apply elem_of_cons in Hx as [->|Hx]; apply bytes_le_lteq; [by right|left; by apply Ho].
Qed.

(** The label of a branch splits its keys. *)
Lemma label_splits k ver l r :
  ordered (Br k ver l r) -> labelled (Br k ver l r) -> (forall x, x ∈ keys l -> x <b k) /\ forall x, x ∈ keys r -> k <=b x.
Proof.
  intros (Hl & Hr & Hlr)%ordered_Br (-> & _ & _). split; intros x Hx; [apply Hlr; [done|apply first_key_in]|by apply first_key_least].
Qed.

(** ** Rebalancing *)
Definition same_leaves (t t' : tree) : Prop := leaves t' = leaves t.

Lemma rebal_spec ver k v l r :
  balanced l -> balanced r -> -2 <= ht l - ht r <= 2 ->
  let t := Br k v l r in let t' := rebal ver t in
  leaves t' = leaves t /\ sz t' = sz t /\ balanced t' /\ (labelled t -> labelled t') /\
  Z.max (ht l) (ht r) <= ht t' <= Z.max (ht l) (ht r) + 1 /\ (-1 <= ht l - ht r <= 1 -> ht t' = ht t).
Proof.
  intros Hl Hr Hb. cbv zeta. unfold rebal. case_bool_decide as H1; [|case_bool_decide as H2].
  - destruct l as [lk lv lver|lk lver ll lr]; [simpl in *; pose proof (ht_nonneg r); lia|]. simpl in Hl. destruct Hl as (Hlb & Hll & Hlr).
    cbn [balance]. case_bool_decide as H3.
    + cbn [rotR]. simpl in *. rewrite <- !app_assoc. repeat split; try done; try lia; intros; (lia || naive_solver).
    + destruct lr as [k2 v2 ver2|k2 ver2 a b]; [simpl in *; pose proof (ht_nonneg ll); lia|].
      cbn [with_version rotL rotR]. simpl in *. rewrite <- !app_assoc. destruct Hlr as (Hab & Ha & Hb2).
      repeat split; try done; try lia; intros; (lia || naive_solver).
  - destruct r as [rk rv rver|rk rver rl rr]; [simpl in *; pose proof (ht_nonneg l); lia|]. simpl in Hr. destruct Hr as (Hrb & Hrl & Hrr).
    cbn [balance]. case_bool_decide as H3.
    + cbn [rotL]. simpl in *. rewrite <- !app_assoc. repeat split; try done; try lia; intros; (lia || naive_solver).
    + destruct rl as [k2 v2 ver2|k2 ver2 a b]; [simpl in *; pose proof (ht_nonneg rr); lia|].
      cbn [with_version rotL rotR]. simpl in *. rewrite <- !app_assoc. destruct Hrl as (Hab & Ha & Hb2).
      repeat split; try done; try lia; intros; (lia || naive_solver).
  - simpl. repeat split; try done; try lia; naive_solver.
Qed.

Lemma ins_first key value t t' : leaves t' = ins key value (leaves t) -> first_key t <=b key -> first_key t' = first_key t.
Proof.
  intros Hl Hle. destruct (leaves_first t) as (v & l & H1), (leaves_first t') as (v' & l' & H2). rewrite H1, H2 in Hl. simpl in Hl.
  unfold bytes_le in Hle. rewrite bytes_compare_antisym in Hle. destruct (bytes_compare key (first_key t)); simpl in Hle; by simplify_eq.
Qed.

Lemma ins_keys key value l x : x ∈ (ins key value l).*1 <-> x = key \/ x ∈ l.*1.
Proof.
  induction l as [|[k v] l IH]; simpl; [set_solver|]. destruct (bytes_compare key k) eqn:Hc; simpl; rewrite ?elem_of_cons.
  - apply bytes_compare_eq in Hc as ->. naive_solver.
  - naive_solver.
  - rewrite IH. naive_solver.
Qed.

Lemma ins_sorted key value l : StronglySorted bytes_lt l.*1 -> StronglySorted bytes_lt (ins key value l).*1.
Proof.
  induction l as [|[k v] l IH]; simpl; [by repeat constructor|]. intros [Hs Hk]%StronglySorted_inv. rewrite Forall_forall in Hk.
  destruct (bytes_compare key k) eqn:Hc; simpl.
  - constructor; [done|by apply Forall_forall].
  - constructor; [constructor; [done|by apply Forall_forall]|]. apply Forall_forall. intros x [->|Hx]%elem_of_cons; [done|].
    by eapply bytes_lt_trans; [|apply Hk].
  - constructor; [by apply IH|]. apply Forall_forall. intros x [->|Hx]%ins_keys; [|by apply Hk].
    unfold bytes_lt. by rewrite bytes_compare_antisym, Hc.
Qed.

Lemma p_set_spec key value ver t :
  ordered t -> labelled t -> balanced t ->
  let '(t', updated) := p_set key value ver t in
  leaves t' = ins key value (leaves t) /\ labelled t' /\ balanced t' /\ ht t <= ht t' <= ht t + 1 /\
  (updated = true -> ht t' = ht t /\ sz t' = sz t).
Proof.
  induction t as [k v ver0|k ver0 l IHl r IHr]; intros Ho Hk Hb.
  { simpl. destruct (bytes_compare key k) eqn:Hc; simpl; rewrite ?Hc; repeat split; try done; lia. }
  pose proof (label_splits _ _ _ _ Ho Hk) as [Hlk Hrk]. apply ordered_Br in Ho as (Hol & Hor & _).
  destruct Hk as (Hkr & Hkl & Hkr'). destruct Hb as (Hb & Hbl & Hbr). cbn [p_set]. case_bool_decide as Hlt.
  - specialize (IHl Hol Hkl Hbl). destruct (p_set key value ver l) as [l' updated]. destruct IHl as (H1 & H2 & H3 & H4 & H5).
    assert (Hins : leaves l' ++ leaves r = ins key value (leaves l ++ leaves r)).
    { rewrite H1, ins_left; [done| |].
      - destruct (leaves_first l) as (? & ? & ->). done.
      - intros x Hx. specialize (Hrk x Hx). apply bytes_le_lteq in Hrk as [?| <-]; [by eapply bytes_lt_trans|done]. }
    destruct updated.
    + destruct (H5 eq_refl) as [H6 H7]. simpl. repeat split; try done; lia.
    + destruct (rebal_spec ver k ver l' r H3 Hbr) as (R1 & R2 & R3 & R4 & R5 & R6); [lia|]. rewrite R1. simpl.
      split_and!; try done; [apply R4; repeat split; done|..]; destruct (decide (ht l' = ht l)); try lia; simpl in *; lia.
  - specialize (IHr Hor Hkr' Hbr). destruct (p_set key value ver r) as [r' updated]. destruct IHr as (H1 & H2 & H3 & H4 & H5).
    assert (Hkey : k <=b key) by by apply bytes_not_lt.
    assert (Hins : leaves l ++ leaves r' = ins key value (leaves l ++ leaves r)).
    { rewrite H1, ins_right; [done|]. intros x Hx. specialize (Hlk x Hx). by eapply bytes_lt_le_trans. }
    assert (Hfirst : k = first_key r') by (rewrite (ins_first key value r r'); [done|done|by rewrite <- Hkr]).
    destruct updated.
    + destruct (H5 eq_refl) as [H6 H7]. simpl. repeat split; try done; lia.
    + destruct (rebal_spec ver k ver l r' Hbl H3) as (R1 & R2 & R3 & R4 & R5 & R6); [lia|]. rewrite R1. simpl.
      split_and!; try done; [apply R4; repeat split; done|..]; destruct (decide (ht r' = ht r)); try lia; simpl in *; lia.
Qed.

Lemma sorted_filter (P : bytes * bytes -> Prop) `{forall kv, Decision (P kv)} (l : list (bytes * bytes)) :
  StronglySorted bytes_lt l.*1 -> StronglySorted bytes_lt (filter P l).*1.
Proof.
  induction l as [|[k v] l IH]; intros Hs; [constructor|]. apply StronglySorted_inv in Hs as [Hs Hk].
  rewrite filter_cons. case_decide; [|by apply IH]. simpl. constructor; [by apply IH|]. rewrite Forall_forall in *.
  intros x (y & -> & Hy)%list_elem_of_fmap. apply list_elem_of_filter in Hy as [_ Hy]. apply Hk, list_elem_of_fmap. eauto.
Qed.

Lemma del_sorted key l : StronglySorted bytes_lt l.*1 -> StronglySorted bytes_lt (del key l).*1.
Proof. apply sorted_filter. Qed.

(** What removal promises of its result. *)
Definition removed (key : bytes) (t : tree) (r : option (bytes * option tree * option bytes)) : Prop :=
  match r with
  | None => key ∉ keys t
  | Some (v, None, _) => leaves t = [(key, v)] /\ ht t = 0
  | Some (v, Some t', newKey) =>
      (key, v) ∈ leaves t /\ leaves t' = del key (leaves t) /\ labelled t' /\ balanced t' /\ ht t - 1 <= ht t' <= ht t /\
      first_key t' = default (first_key t) newKey
  end.

Lemma p_remove_spec key ver t : ordered t -> labelled t -> balanced t -> removed key t (p_remove key ver t).
Proof.
  induction t as [k v ver0|k ver0 l IHl r IHr]; intros Ho Hk Hb.
  { simpl. case_bool_decide; subst; simpl; [done|]. set_solver. }
  pose proof (label_splits _ _ _ _ Ho Hk) as [Hlk Hrk]. apply ordered_Br in Ho as (Hol & Hor & Hlr).
  destruct Hk as (Hkr & Hkl & Hkr'), Hb as (Hb & Hbl & Hbr). cbn [p_remove]. case_bool_decide as Hlt.
  - assert (Hr : key ∉ keys r). { intros Hx%Hrk. eapply bytes_lt_irrefl, bytes_lt_le_trans; eauto. }
    specialize (IHl Hol Hkl Hbl). destruct (p_remove key ver l) as [[[v [l'|]] newKey]|]; cbn [removed leaves first_key] in IHl |- *.
    + destruct IHl as (H1 & H2 & H3 & H4 & H5 & H6).
      destruct (rebal_spec ver k ver l' r H4 Hbr) as (R1 & R2 & R3 & R4 & R5 & R6); [lia|].
      rewrite R1, del_app, (del_none key (leaves r)) by done. cbn [leaves]. rewrite H2.
      split_and!; [set_solver|done|apply R4; by repeat split|done| | |]; [..|by rewrite <- H6; apply first_key_leaves in R1; rewrite R1];
        destruct (decide (ht l' = ht l)); try lia; simpl in *; lia.
    + destruct IHl as (H1 & H2). rewrite H1, del_app, (del_none key (leaves r)) by done. unfold del. rewrite filter_cons_False by (simpl; naive_solver).
      pose proof (ht_nonneg l); pose proof (ht_nonneg r). simpl. split_and!; try done; try lia; set_solver.
    + rewrite fmap_app. set_solver.
  - assert (Hkey : k <=b key) by by apply bytes_not_lt.
    assert (Hl : key ∉ keys l). { intros Hx%Hlk. eapply bytes_lt_irrefl, bytes_lt_le_trans; eauto. }
    specialize (IHr Hor Hkr' Hbr). destruct (p_remove key ver r) as [[[v [r'|]] newKey]|]; cbn [removed leaves first_key] in IHr |- *.
    + destruct IHr as (H1 & H2 & H3 & H4 & H5 & H6).
      destruct (rebal_spec ver (default k newKey) ver l r' Hbl H4) as (R1 & R2 & R3 & R4 & R5 & R6); [lia|].
      rewrite R1, del_app, (del_none key (leaves l)) by done. cbn [leaves]. rewrite H2. rewrite <- Hkr in H6.
      split_and!; [set_solver|done|apply R4; by repeat split|done| | |]; [..|by apply first_key_leaves in R1];
        destruct (decide (ht r' = ht r)); try lia; simpl in *; lia.
    + destruct IHr as (H1 & H2). rewrite H1, del_app, (del_none key (leaves l)) by done. unfold del. rewrite filter_cons_False by (simpl; naive_solver).
      rewrite filter_nil, app_nil_r. pose proof (ht_nonneg l); pose proof (ht_nonneg r). simpl. split_and!; try done; try lia; set_solver.
    + rewrite fmap_app. set_solver.
Qed.

(** *** Versions *)
Lemma rebal_newest n ver t : ver <= n -> newest n t -> newest n (rebal ver t).
Proof.
  intros Hv. destruct t as [k v ver0|k ver0 l r]; [done|]. intros (H1 & H2 & H3). unfold rebal. repeat case_bool_decide; simpl.
  - destruct l; simpl in *; naive_solver.
  - destruct l as [|? ? ? []]; simpl in *; naive_solver.
  - destruct r; simpl in *; naive_solver.
  - destruct r as [|? ? [] ?]; simpl in *; naive_solver.
  - done.
Qed.

Lemma p_set_newest n key value ver t : ver <= n -> newest n t -> newest n (p_set key value ver t).1.
Proof.
  intros Hv. induction t as [k v ver0|k ver0 l IHl r IHr]; cbn [p_set]; [by destruct bytes_compare|]. intros (H1 & H2 & H3). case_bool_decide.
  - specialize (IHl H2). destruct (p_set key value ver l) as [l' []]; [done|]. by apply rebal_newest.
  - specialize (IHr H3). destruct (p_set key value ver r) as [r' []]; [done|]. by apply rebal_newest.
Qed.

Lemma p_remove_newest n key ver t v t' nk : ver <= n -> newest n t -> p_remove key ver t = Some (v, Some t', nk) -> newest n t'.
Proof.
  intros Hv. revert v t' nk. induction t as [k v0 ver0|k ver0 l IHl r IHr]; intros v t' nk; cbn [p_remove]; [by case_bool_decide|].
  intros (H1 & H2 & H3). case_bool_decide.
  - destruct (p_remove key ver l) as [[[w [l'|]] nk']|]; intros [=]; subst; [|done]. apply rebal_newest; [done|]. split_and!; eauto.
  - destruct (p_remove key ver r) as [[[w [r'|]] nk']|]; intros [=]; subst; [|done]. apply rebal_newest; [done|]. split_and!; eauto.
Qed.

(** *** The height is logarithmic *)
Fixpoint fib2 (n : nat) : Z * Z := match n with O => (1, 2) | S n => let '(a, b) := fib2 n in (b, a + b) end.

Lemma fib2_pos n : 1 <= (fib2 n).1 <= (fib2 n).2.
Proof. induction n as [|n IH]; simpl; [lia|]. destruct (fib2 n); simpl in *. lia. Qed.
Lemma fib2_mono n m : (n <= m)%nat -> (fib2 n).1 <= (fib2 m).1.
Proof.
  induction 1 as [|m _ IH]; [lia|]. etrans; [exact IH|]. simpl. pose proof (fib2_pos m). destruct (fib2 m); simpl in *. lia.
Qed.

(** A balanced tree of height [n] has at least as many leaves as the [n]-th number of Fibonacci. *)
Lemma balanced_size t : balanced t -> (fib2 (Z.to_nat (ht t))).1 <= sz t.
Proof.
  assert (Hgen : forall n, balanced t -> ht t = Z.of_nat n -> (fib2 n).1 <= sz t); [|intros Hb; apply Hgen; [done|]; pose proof (ht_nonneg t); lia].
  induction t as [k v ver|k ver l IHl r IHr]; intros n.
  { intros _ Hn. destruct n; simpl in *; lia. }
  intros (Hb & Hl & Hr) Hn. simpl in Hn. destruct n as [|n]; [pose proof (ht_nonneg l); lia|].
  pose proof (ht_nonneg l). pose proof (ht_nonneg r). simpl.
  assert (Hmin : forall t', balanced t' -> (forall m, balanced t' -> ht t' = Z.of_nat m -> (fib2 m).1 <= sz t') -> Z.of_nat n - 1 <= ht t' -> 
     (n = 0%nat \/ exists m, n = S m /\ (fib2 m).1 <= sz t')).
  { intros t' Ht' IH Hh. destruct n as [|m]; [by left|right]. exists m. split; [done|]. pose proof (ht_nonneg t').
    specialize (IH (Z.to_nat (ht t')) Ht' ltac:(lia)). etrans; [apply fib2_mono|exact IH]. lia. }
  assert (Hgoal : forall t1 t2, balanced t1 -> balanced t2 -> (forall m, balanced t1 -> ht t1 = Z.of_nat m -> (fib2 m).1 <= sz t1) ->
     (forall m, balanced t2 -> ht t2 = Z.of_nat m -> (fib2 m).1 <= sz t2) -> ht t1 = Z.of_nat n -> Z.of_nat n - 1 <= ht t2 ->
     (let '(a, b) := fib2 n in (b, a + b)).1 <= sz t1 + sz t2).
  { intros t1 t2 H1 H2 I1 I2 E1 E2. specialize (I1 n H1 E1). destruct (Hmin t2 H2 I2 E2) as [->|(m & -> & Hm)].
    - simpl. pose proof (sz_pos t1). pose proof (sz_pos t2). lia.
    - simpl in *. destruct (fib2 m); simpl in *. lia. }
  destruct (decide (ht l = Z.of_nat n)).
  - apply Hgoal; try done. lia.
  - rewrite (Z.add_comm (sz l)). apply Hgoal; try done; lia.
Qed.

(** A tree with less than [2 ^ 63] leaves fits a height of seven bits; one with less than
    [2 ^ 32] leaves is at most 45 high. *)
Lemma height_bound t : balanced t -> (sz t < 2 ^ 63 -> ht t <= 90) /\ (sz t < 2 ^ 32 -> ht t <= 45).
Proof.
  intros Hb. pose proof (balanced_size t Hb) as Hs. split; intros Hlt.
  - destruct (decide (ht t <= 90)); [done|]. exfalso. pose proof (fib2_mono 91 (Z.to_nat (ht t)) ltac:(lia)) as Hm.
    assert (H91 : 2 ^ 63 <= (fib2 91).1) by (vm_compute; discriminate). lia.
  - destruct (decide (ht t <= 45)); [done|]. exfalso. pose proof (fib2_mono 46 (Z.to_nat (ht t)) ltac:(lia)) as Hm.
    assert (H46 : 2 ^ 32 <= (fib2 46).1) by (vm_compute; discriminate). lia.
Qed.
