(* ===== verification/AVLHeap.v ===== *)
(** The operations of [AVL] on the heap compute the operations of [AVLPure] on values.

    [rep h t l A] says that the nodes of the heap from [l] on are the tree [t], that the
    hashes they keep are those of [t], and that [A] is the set of their locations, all
    different.  [evolves cow h A h' A'] is what a write may do: it changes in place only
    nodes of [A] that are newer than [cow] and everything else it touches is new, so that
    every other tree on the heap is what it was. *)
From stdpp Require Import base gmap sets list.
From Stdlib Require Import ZArith Lia.
From S2P Require Import Prelude AVL AVLPure.
Local Open Scope Z_scope.

(** ** Total correctness of computations on the heap *)
Definition wp {A} (m : HM A) (h : heap) (Q : heap -> A -> Prop) : Prop :=
  match m h with Some (h', a) => Q h' a | None => False end.

Lemma wp_bind {A B} (m : HM A) (f : A -> HM B) h Q : wp m h (fun h' a => wp (f a) h' Q) -> wp (mbind f m) h Q.
Proof. unfold wp, mbind, HM_bind. by destruct (m h) as [[h' a]|]. Qed.
Lemma wp_ret {A} (a : A) h (Q : heap -> A -> Prop) : Q h a -> wp (mret a) h Q.
Proof. done. Qed.
Lemma wp_mono {A} (m : HM A) h (P Q : heap -> A -> Prop) : (forall h' a, P h' a -> Q h' a) -> wp m h P -> wp m h Q.
Proof. unfold wp. destruct (m h) as [[h' a]|]; auto. Qed.
Lemma wp_then {A B} (m : HM A) (f : A -> HM B) h P Q : wp m h P -> (forall h' a, P h' a -> wp (f a) h' Q) -> wp (mbind f m) h Q.
Proof. intros Hm Hf. by apply wp_bind, (wp_mono _ _ P). Qed.
Lemma wp_run {A} (m : HM A) h Q : wp m h Q -> exists h' a, m h = Some (h', a) /\ Q h' a.
Proof. unfold wp. destruct (m h) as [[h' a]|]; [eauto|done]. Qed.

Lemma wp_load {B} l n (f : MemNode -> HM B) h Q : h_nodes h !! l = Some n -> wp (f n) h Q -> wp (n ← load l; f n) h Q.
Proof. intros Hl Hf. apply wp_bind. unfold wp, load. by rewrite Hl. Qed.
Lemma wp_deref {B} l (f : loc -> HM B) h Q : wp (f l) h Q -> wp (l ← deref (Some l); f l) h Q.
Proof. intros Hf. by apply wp_bind. Qed.

Definition put (l : loc) (n : MemNode) (h : heap) : heap := mkHeap (<[l := n]> (h_nodes h)) (h_next h).
Definition push (n : MemNode) (h : heap) : heap := mkHeap (<[h_next h := n]> (h_nodes h)) (Pos.succ (h_next h)).
Lemma wp_store {B} l n (f : () -> HM B) h Q : wp (f tt) (put l n h) Q -> wp (x ← store l n; f x) h Q.
Proof. intros Hf. by apply wp_bind. Qed.
Lemma wp_alloc {B} n (f : loc -> HM B) h Q : wp (f (h_next h)) (push n h) Q -> wp (l ← alloc n; f l) h Q.
Proof. intros Hf. by apply wp_bind. Qed.
Lemma wp_modify {B} l n g (f : () -> HM B) h Q : h_nodes h !! l = Some n -> wp (f tt) (put l (g n) h) Q -> wp (x ← modify l g; f x) h Q.
Proof. intros Hl Hf. apply wp_bind. unfold modify, wp, mbind, HM_bind, load. rewrite Hl. done. Qed.

(** ** Which nodes a write may change *)
Definition bounded (h : heap) : Prop := forall l n, h_nodes h !! l = Some n -> (l < h_next h)%positive.
Definition mine (h : heap) (cow : Z) (l : loc) : Prop := exists n, h_nodes h !! l = Some n /\ cow < nd_version n.

Record evolves (cow : Z) (h : heap) (A : gset loc) (h' : heap) (A' : gset loc) : Prop := {
  ev_next : (h_next h <= h_next h')%positive;
  ev_same : forall l, (l < h_next h)%positive -> (l ∈ A -> ~ mine h cow l) -> h_nodes h' !! l = h_nodes h !! l;
  ev_new : forall l, l ∈ A' -> l ∈ A \/ (h_next h <= l)%positive;
  ev_bounded : bounded h'
}.

Lemma evolves_refl cow h A : bounded h -> evolves cow h A h A.
Proof. split; auto. lia. Qed.

Lemma evolves_trans cow h1 A1 h2 A2 h3 A3 : evolves cow h1 A1 h2 A2 -> evolves cow h2 A2 h3 A3 -> evolves cow h1 A1 h3 A3.
Proof.
  intros [N1 S1 F1 B1] [N2 S2 F2 B2]. split; [lia| | |done].
  - intros l Hl Hm. rewrite S2; [by apply S1|lia|]. intros Hl2 (n & Hn & Hc). destruct (F1 _ Hl2) as [Ha|]; [|lia].
    apply (Hm Ha). exists n. rewrite S1 in Hn by done. done.
  - intros l [Hl|Hl]%F2; [by apply F1|]. right. lia.
Qed.

Lemma evolves_frame cow h A h' A' B : evolves cow h A h' A' -> evolves cow h (A ∪ B) h' (A' ∪ B).
Proof.
  intros [N S F W]. split; [done| | |done].
  - intros l Hl Hm. apply S; set_solver.
  - intros l [Hl|Hl]%elem_of_union; [destruct (F l Hl)|]; set_solver.
Qed.

Lemma evolves_weaken cow h A B h' A' B' : evolves cow h A h' A' -> A ⊆ B -> (forall l, l ∈ B' -> l ∈ A' \/ l ∈ B) -> evolves cow h B h' B'.
Proof.
  intros [N S F W] HA HB. split; [done| | |done].
  - intros l Hl Hm. apply S; set_solver.
  - intros l [Hl|Hl]%HB; [destruct (F l Hl)|]; set_solver.
Qed.

Lemma evolves_within cow h A h' B : evolves cow h A h' A -> A ⊆ B -> evolves cow h B h' B.
Proof. intros He Hs. eapply evolves_weaken; [done|done|]. by right. Qed.

Lemma bounded_put h l n : bounded h -> (l < h_next h)%positive -> bounded (put l n h).
Proof. intros Hb Hl l' n'. unfold put. simpl. rewrite lookup_insert_Some. intros [[<- _]|[_ H]]; [done|by eapply Hb]. Qed.
Lemma bounded_push h n : bounded h -> bounded (push n h).
Proof. intros Hb l' n'. unfold push. simpl. rewrite lookup_insert_Some. intros [[<- _]|[_ H%Hb]]; lia. Qed.

Lemma evolves_put cow h A l n : bounded h -> mine h cow l -> l ∈ A -> evolves cow h A (put l n h) A.
Proof.
  intros Hb Hm Hl. destruct Hm as (n0 & Hn0 & Hc). split; simpl; [done| |by left|by apply bounded_put; [|eapply Hb]].
  intros l' Hl' Hm'. rewrite lookup_insert_ne; [done|]. intros <-. apply (Hm' Hl). by exists n0.
Qed.
Lemma evolves_push cow h A n : bounded h -> evolves cow h A (push n h) ({[h_next h]} ∪ A).
Proof.
  intros Hb. split; simpl; [lia| | |by apply bounded_push].
  - intros l Hl _. rewrite lookup_insert_ne; [done|lia].
  - intros l [->%elem_of_singleton|Hl]%elem_of_union; [right; lia|by left].
Qed.

Section Representation.
Context (sha256 : bytes -> bytes).

(** The hash of a tree, from its content alone. *)
Fixpoint tree_hash (t : tree) : bytes :=
  let head := PutVarint (ht t) ++ PutVarint (sz t) ++ PutVarint (vers t) in
  sha256 (match t with
          | Lf k v _ => head ++ EncodeBytes k ++ EncodeBytes (sha256 v)
          | Br _ _ l r => head ++ EncodeBytes (tree_hash l) ++ EncodeBytes (tree_hash r)
          end).

Definition hash_ok (hash : option bytes) (t : tree) : Prop := hash = None \/ hash = Some (tree_hash t).

(** ** Trees in the heap *)
Inductive rep (h : heap) : tree -> loc -> gset loc -> Prop :=
| rep_leaf l k v ver hash :
    h_nodes h !! l = Some (mkNode 0 ver 1 k (Some v) None None hash) -> hash_ok hash (Lf k v ver) -> rep h (Lf k v ver) l {[l]}
| rep_branch l k ver t1 t2 l1 l2 A1 A2 hash :
    h_nodes h !! l = Some (mkNode (ht (Br k ver t1 t2)) ver (sz (Br k ver t1 t2)) k None (Some l1) (Some l2) hash) ->
    hash_ok hash (Br k ver t1 t2) -> rep h t1 l1 A1 -> rep h t2 l2 A2 -> A1 ## A2 -> l ∉ A1 ∪ A2 ->
    rep h (Br k ver t1 t2) l ({[l]} ∪ A1 ∪ A2).

Lemma rep_in h t l A : rep h t l A -> l ∈ A.
Proof. destruct 1; set_solver. Qed.

Lemma rep_dom h t l A x : rep h t l A -> x ∈ A -> is_Some (h_nodes h !! x).
Proof. induction 1; set_solver. Qed.
Lemma rep_bounded h t l A x : bounded h -> rep h t l A -> x ∈ A -> (x < h_next h)%positive.
Proof. intros Hb Hr Hx. destruct (rep_dom _ _ _ _ _ Hr Hx) as [n Hn]. by eapply Hb. Qed.

(** The head of a tree in the heap. *)
Lemma rep_node h t l A : rep h t l A -> exists n, h_nodes h !! l = Some n /\ nd_height n = ht t /\ nd_size n = sz t /\ nd_version n = vers t /\ nd_key n = label t.
Proof. destruct 1; eauto 10. Qed.

Lemma rep_agree h h' t l A : rep h t l A -> (forall x, x ∈ A -> h_nodes h' !! x = h_nodes h !! x) -> rep h' t l A.
Proof.
  induction 1 as [l k v ver hash Hl Hh|l k ver t1 t2 l1 l2 A1 A2 hash Hl Hh H1 IH1 H2 IH2 Hd Hn]; intros Heq.
  - eapply rep_leaf; [rewrite Heq; [done|set_solver]|done].
  - eapply rep_branch; [rewrite Heq; [done|set_solver]|done|apply IH1; set_solver|apply IH2; set_solver|done|done].
Qed.

Lemma rep_functional h t l A t' A' : rep h t l A -> rep h t' l A' -> t = t' /\ A = A'.
Proof.
  intros H. revert t' A'. induction H as [l k v ver hash Hl Hh|l k ver t1 t2 l1 l2 A1 A2 hash Hl Hh H1 IH1 H2 IH2 Hd Hn]; intros t' A' Hr.
  - inversion Hr; subst; [split; congruence|congruence].
  - inversion Hr as [|? ? ? t1' t2' l1' l2' A1' A2' ? Hl' ? H1' H2']; subst; [congruence|].
    assert (l1' = l1 /\ l2' = l2 /\ k = k0 /\ ver = ver0) as (-> & -> & -> & ->) by (rewrite Hl in Hl'; by injection Hl').
    destruct (IH1 _ _ H1') as [-> ->], (IH2 _ _ H2') as [-> ->]. done.
Qed.

Lemma rep_put h l n t x A : rep h t x A -> l ∉ A -> rep (put l n h) t x A.
Proof. intros Hr Hl. apply (rep_agree h); [done|]. intros y Hy. simpl. rewrite lookup_insert_ne; set_solver. Qed.
Lemma rep_push h n t x A : bounded h -> rep h t x A -> rep (push n h) t x A.
Proof. intros Hb Hr. apply (rep_agree h); [done|]. intros y Hy%(rep_bounded _ _ _ _ _ Hb Hr). simpl. rewrite lookup_insert_ne; [done|lia]. Qed.

(** A tree none of whose nodes can be changed in place is what it was. *)
Lemma rep_evolves cow h A h' A' t x B :
  bounded h -> evolves cow h A h' A' -> rep h t x B -> (forall l, l ∈ B -> l ∈ A -> ~ mine h cow l) -> rep h' t x B.
Proof.
  intros Hb He Hr Hp. apply (rep_agree h); [done|]. intros y Hy. apply (ev_same _ _ _ _ _ He); [by eapply rep_bounded|eauto].
Qed.
Lemma rep_disjoint cow h A h' A' t x B : bounded h -> evolves cow h A h' A' -> rep h t x B -> B ## A -> rep h' t x B /\ B ## A'.
Proof.
  intros Hb He Hr Hd. split; [eapply rep_evolves; [done|done|done|set_solver]|].
  intros y Hy Hy'. destruct (ev_new _ _ _ _ _ He y Hy') as [?|?]; [set_solver|]. pose proof (rep_bounded _ _ _ _ _ Hb Hr Hy). lia.
Qed.
Lemma kept_disjoint cow h A h' A' l n :
  bounded h -> evolves cow h A h' A' -> h_nodes h !! l = Some n -> l ∉ A -> h_nodes h' !! l = Some n /\ l ∉ A'.
Proof.
  intros Hb He Hl Hn. pose proof (Hb _ _ Hl). split; [rewrite (ev_same _ _ _ _ _ He); done|].
  intros Hy. destruct (ev_new _ _ _ _ _ He _ Hy); [done|lia].
Qed.

(** ** A branch whose height and size may be out of date *)
Record opened (h : heap) (l : loc) (k : bytes) (ver : Z) (l1 : loc) (t1 : tree) (A1 : gset loc) (l2 : loc) (t2 : tree) (A2 : gset loc) : Prop := {
  op_node : exists height size, h_nodes h !! l = Some (mkNode height ver size k None (Some l1) (Some l2) None);
  op_left : rep h t1 l1 A1;
  op_right : rep h t2 l2 A2;
  op_apart : A1 ## A2;
  op_head : l ∉ A1 ∪ A2
}.

(** Heights fit eight bits and sizes 64. *)
Definition fits (t : tree) : Prop := ht t < 256 /\ sz t < 2 ^ 63.

Lemma fits_Br k ver l r : fits (Br k ver l r) -> fits l /\ fits r.
Proof. intros [H1 H2]. simpl in *. pose proof (sz_pos l). pose proof (sz_pos r). unfold fits. lia. Qed.

Lemma opened_mine h l k ver l1 t1 A1 l2 t2 A2 cow : opened h l k ver l1 t1 A1 l2 t2 A2 -> cow < ver -> mine h cow l.
Proof. intros [(height & size & Hn) _ _ _ _] Hc. by eexists; split. Qed.

Lemma wp_updateHeightSize {B} h cow l k ver l1 t1 A1 l2 t2 A2 (f : () -> HM B) Q :
  bounded h -> opened h l k ver l1 t1 A1 l2 t2 A2 -> fits (Br k ver t1 t2) -> cow < ver ->
  (forall h', rep h' (Br k ver t1 t2) l ({[l]} ∪ A1 ∪ A2) -> opened h' l k ver l1 t1 A1 l2 t2 A2 ->
     evolves cow h ({[l]} ∪ A1 ∪ A2) h' ({[l]} ∪ A1 ∪ A2) -> (forall x, x <> l -> h_nodes h' !! x = h_nodes h !! x) -> wp (f tt) h' Q) ->
  wp (x ← updateHeightSize l; f x) h Q.
Proof.
  intros Hb Ho Hf Hc HQ. pose proof (opened_mine _ _ _ _ _ _ _ _ _ _ cow Ho Hc) as Hm. destruct Ho as [(height & size & Hn) H1 H2 Hd Hl].
  destruct (rep_node _ _ _ _ H1) as (n1 & Hn1 & Eh1 & Es1 & _), (rep_node _ _ _ _ H2) as (n2 & Hn2 & Eh2 & Es2 & _).
  apply wp_bind. unfold updateHeightSize. apply (wp_load _ _ _ _ _ Hn). simpl. apply wp_deref, wp_deref.
  apply (wp_load _ _ _ _ _ Hn1), (wp_load _ _ _ _ _ Hn2). rewrite Eh1, Eh2, Es1, Es2.
  assert (Eh : uint8 (Z.max (ht t1) (ht t2) + 1) = Z.max (ht t1) (ht t2) + 1).
  { apply Z.mod_small. destruct Hf as [Hf _]. simpl in Hf. pose proof (ht_nonneg t1). lia. }
  assert (Es : int64 (sz t1 + sz t2) = sz t1 + sz t2).
  { destruct Hf as [_ Hf]. simpl in Hf. pose proof (sz_pos t1). pose proof (sz_pos t2). unfold int64. rewrite Z.mod_small; lia. }
  rewrite Eh, Es. unfold set_height_size. simpl. change (wp (f tt) (put l (mkNode (ht (Br k ver t1 t2)) ver (sz (Br k ver t1 t2)) k None (Some l1) (Some l2) None) h) Q).
  assert (R1 : rep (put l (mkNode (ht (Br k ver t1 t2)) ver (sz (Br k ver t1 t2)) k None (Some l1) (Some l2) None) h) t1 l1 A1) by (apply rep_put; set_solver).
  assert (R2 : rep (put l (mkNode (ht (Br k ver t1 t2)) ver (sz (Br k ver t1 t2)) k None (Some l1) (Some l2) None) h) t2 l2 A2) by (apply rep_put; set_solver).
  apply HQ.
  - eapply rep_branch; [apply lookup_insert_eq|by left|done..].
  - split; try done. do 2 eexists. apply lookup_insert_eq.
  - apply evolves_put; [done|done|set_solver].
  - intros x Hx. simpl. by rewrite lookup_insert_ne.
Qed.

Lemma opened_put h l n x k ver l1 t1 A1 l2 t2 A2 :
  opened h x k ver l1 t1 A1 l2 t2 A2 -> l ∉ {[x]} ∪ A1 ∪ A2 -> opened (put l n h) x k ver l1 t1 A1 l2 t2 A2.
Proof.
  intros [(height & size & Hx) H1 H2 Hd Hh] Hl. split; [|by apply rep_put; set_solver..|done|done].
  exists height, size. simpl. rewrite lookup_insert_ne; set_solver.
Qed.

(** A node that can be written, with its old location still there. *)
Lemma wp_Mutate {B} h cow l n ver (f : loc -> HM B) Q :
  bounded h -> h_nodes h !! l = Some n ->
  (forall h' l', h_nodes h' !! l' = Some (touch ver n) ->
     (exists n', h_nodes h' !! l = Some n' /\ nd_left n' = nd_left n /\ nd_right n' = nd_right n) ->
     evolves cow h {[l]} h' {[l']} -> wp (f l') h' Q) ->
  wp (l' ← Mutate l ver cow; f l') h Q.
Proof.
  intros Hb Hl HQ. apply wp_bind. unfold Mutate. apply (wp_load _ _ _ _ _ Hl). case_bool_decide as Hc.
  - change (wp (f (h_next h)) (push (touch ver n) h) Q). pose proof (Hb _ _ Hl). apply HQ.
    + simpl. apply lookup_insert_eq.
    + exists n. simpl. rewrite lookup_insert_ne; [done|lia].
    + eapply evolves_weaken; [by apply (evolves_push cow h ∅)|set_solver..].
  - apply wp_store. change (wp (f l) (put l (touch ver n) h) Q). apply HQ.
    + apply lookup_insert_eq.
    + eexists. split; [apply lookup_insert_eq|done].
    + apply evolves_put; [done| |set_solver]. exists n. split; [done|lia].
Qed.

(** ** Rotations *)
Lemma wp_rotateRight h cow ver l k v l1 lk lv ll lr A1 l2 r A2 :
  bounded h -> opened h l k v l1 (Br lk lv ll lr) A1 l2 r A2 -> cow < v -> cow < ver -> fits (Br lk ver ll (Br k v lr r)) ->
  wp (rotateRight l ver cow) h (fun h' l' => exists A', rep h' (Br lk ver ll (Br k v lr r)) l' A' /\ evolves cow h ({[l]} ∪ A1 ∪ A2) h' A').
Proof.
  intros Hb Ho Hcv Hc Hf. pose proof (opened_mine _ _ _ _ _ _ _ _ _ _ cow Ho Hcv) as Hm. destruct Ho as [(height & size & Hn) H1 H2 Hd Hl].
  inversion H1 as [|? ? ? ? ? lll lrl All Alr hash Hn1 _ Rll Rlr Hd1 Hl1]; subst. unfold rotateRight.
  apply (wp_load _ _ _ _ _ Hn). simpl. apply wp_deref. apply (wp_Mutate _ _ _ _ _ _ _ Hb Hn1). intros h1 l1' Hn1' (n' & Hn' & _ & Er) He. simpl in Er.
  destruct (kept_disjoint _ _ _ _ _ _ _ Hb He Hn) as [Hn_1 Hne]; [set_solver|].
  destruct (rep_disjoint _ _ _ _ _ _ _ _ Hb He Rll) as [Rll1 Dll]; [set_solver|].
  destruct (rep_disjoint _ _ _ _ _ _ _ _ Hb He Rlr) as [Rlr1 Dlr]; [set_solver|].
  destruct (rep_disjoint _ _ _ _ _ _ _ _ Hb He H2) as [R2 D2]; [set_solver|]. pose proof (ev_bounded _ _ _ _ _ He) as Hb1.
  apply (wp_load _ _ _ _ _ Hn'). rewrite Er. apply (wp_modify _ _ _ _ _ _ Hn_1).
  set (h2 := put l _ h1). assert (He2 : evolves cow h1 {[l]} h2 {[l]}).
  { apply evolves_put; [done| |set_solver]. by eexists; split. }
  assert (Hn2 : h_nodes h2 !! l1' = Some (touch ver (mkNode (ht (Br lk lv ll lr)) lv (sz (Br lk lv ll lr)) lk None (Some lll) (Some lrl) hash))).
  { simpl. rewrite lookup_insert_ne; [done|set_solver]. }
  apply (wp_modify _ _ _ _ _ _ Hn2). set (h3 := put l1' _ h2). pose proof (ev_bounded _ _ _ _ _ He2) as Hb2.
  assert (He3 : evolves cow h2 {[l1']} h3 {[l1']}). { apply evolves_put; [done| |set_solver]. by eexists; split. }
  pose proof (ev_bounded _ _ _ _ _ He3) as Hb3.
  assert (Ho3 : opened h3 l k v lrl lr Alr l2 r A2).
  { split; [|apply rep_put; [apply rep_put|]; set_solver..|set_solver|set_solver]. exists height, size. simpl.
    rewrite lookup_insert_ne by set_solver. by rewrite lookup_insert_eq. }
  apply (wp_updateHeightSize _ cow _ _ _ _ _ _ _ _ _ _ _ Hb3 Ho3); [apply (fits_Br _ _ _ _ Hf)|done|]. intros h4 Rl4 _ He4 Hs4.
  assert (Ho4 : opened h4 l1' lk ver lll ll All l (Br k v lr r) ({[l]} ∪ Alr ∪ A2)).
  { split; [|apply (rep_agree h1); [done|]; intros x Hx; rewrite Hs4 by set_solver; simpl; rewrite !lookup_insert_ne; set_solver|done|set_solver|set_solver].
    do 2 eexists. rewrite Hs4 by set_solver. simpl. rewrite lookup_insert_eq. done. }
  pose proof (ev_bounded _ _ _ _ _ He4) as Hb4.
  apply (wp_updateHeightSize _ cow _ _ _ _ _ _ _ _ _ _ _ Hb4 Ho4); [done|done|]. intros h5 Rl5 _ He5 _. apply wp_ret. eexists. split; [exact Rl5|].
  apply (evolves_trans _ _ _ h1 ({[l1']} ∪ All ∪ ({[l]} ∪ Alr ∪ A2))); [apply (evolves_weaken _ _ _ _ _ _ _ He); set_solver|].
  eapply evolves_trans; [apply (evolves_within _ _ _ _ _ He2); set_solver|].
  eapply evolves_trans; [apply (evolves_within _ _ _ _ _ He3); set_solver|].
  eapply evolves_trans; [apply (evolves_within _ _ _ _ _ He4); set_solver|]. exact He5.
Qed.

Lemma wp_rotateLeft h cow ver l k v l1 r A1 l2 rk rv rl rr A2 :
  bounded h -> opened h l k v l1 r A1 l2 (Br rk rv rl rr) A2 -> cow < v -> cow < ver -> fits (Br rk ver (Br k v r rl) rr) ->
  wp (rotateLeft l ver cow) h (fun h' l' => exists A', rep h' (Br rk ver (Br k v r rl) rr) l' A' /\ evolves cow h ({[l]} ∪ A1 ∪ A2) h' A').
Proof.
  intros Hb Ho Hcv Hc Hf. pose proof (opened_mine _ _ _ _ _ _ _ _ _ _ cow Ho Hcv) as Hm. destruct Ho as [(height & size & Hn) H1 H2 Hd Hl].
  inversion H2 as [|? ? ? ? ? rll rrl Arl Arr hash Hn2 _ Rrl Rrr Hd2 Hl2]; subst. unfold rotateLeft.
  apply (wp_load _ _ _ _ _ Hn). simpl. apply wp_deref. apply (wp_Mutate _ _ _ _ _ _ _ Hb Hn2). intros h1 l2' Hn2' (n' & Hn' & Er & _) He. simpl in Er.
  destruct (kept_disjoint _ _ _ _ _ _ _ Hb He Hn) as [Hn_1 Hne]; [set_solver|].
  destruct (rep_disjoint _ _ _ _ _ _ _ _ Hb He Rrl) as [Rrl1 Drl]; [set_solver|].
  destruct (rep_disjoint _ _ _ _ _ _ _ _ Hb He Rrr) as [Rrr1 Drr]; [set_solver|].
  destruct (rep_disjoint _ _ _ _ _ _ _ _ Hb He H1) as [R1 D1]; [set_solver|]. pose proof (ev_bounded _ _ _ _ _ He) as Hb1.
  apply (wp_load _ _ _ _ _ Hn'). rewrite Er. apply (wp_modify _ _ _ _ _ _ Hn_1).
  set (h2 := put l _ h1). assert (He2 : evolves cow h1 {[l]} h2 {[l]}).
  { apply evolves_put; [done| |set_solver]. by eexists; split. }
  assert (Hm2 : h_nodes h2 !! l2' = Some (touch ver (mkNode (ht (Br rk rv rl rr)) rv (sz (Br rk rv rl rr)) rk None (Some rll) (Some rrl) hash))).
  { simpl. rewrite lookup_insert_ne; [done|set_solver]. }
  apply (wp_modify _ _ _ _ _ _ Hm2). set (h3 := put l2' _ h2). pose proof (ev_bounded _ _ _ _ _ He2) as Hb2.
  assert (He3 : evolves cow h2 {[l2']} h3 {[l2']}). { apply evolves_put; [done| |set_solver]. by eexists; split. }
  pose proof (ev_bounded _ _ _ _ _ He3) as Hb3.
  assert (Ho3 : opened h3 l k v l1 r A1 rll rl Arl).
  { split; [|apply rep_put; [apply rep_put|]; set_solver..|set_solver|set_solver]. exists height, size. simpl.
    rewrite lookup_insert_ne by set_solver. by rewrite lookup_insert_eq. }
  apply (wp_updateHeightSize _ cow _ _ _ _ _ _ _ _ _ _ _ Hb3 Ho3); [apply (fits_Br _ _ _ _ Hf)|done|]. intros h4 Rl4 _ He4 Hs4.
  assert (Ho4 : opened h4 l2' rk ver l (Br k v r rl) ({[l]} ∪ A1 ∪ Arl) rrl rr Arr).
  { split; [|done|apply (rep_agree h1); [done|]; intros x Hx; rewrite Hs4 by set_solver; simpl; rewrite !lookup_insert_ne; set_solver|set_solver|set_solver].
    do 2 eexists. rewrite Hs4 by set_solver. simpl. rewrite lookup_insert_eq. done. }
  pose proof (ev_bounded _ _ _ _ _ He4) as Hb4.
  apply (wp_updateHeightSize _ cow _ _ _ _ _ _ _ _ _ _ _ Hb4 Ho4); [done|done|]. intros h5 Rl5 _ He5 _. apply wp_ret. eexists. split; [exact Rl5|].
  apply (evolves_trans _ _ _ h1 ({[l2']} ∪ ({[l]} ∪ A1 ∪ Arl) ∪ Arr)); [apply (evolves_weaken _ _ _ _ _ _ _ He); set_solver|].
  eapply evolves_trans; [apply (evolves_within _ _ _ _ _ He2); set_solver|].
  eapply evolves_trans; [apply (evolves_within _ _ _ _ _ He3); set_solver|].
  eapply evolves_trans; [apply (evolves_within _ _ _ _ _ He4); set_solver|]. exact He5.
Qed.

(** ** Rebalancing *)
Lemma wp_calcBalance {B} h l k v l1 t1 A1 l2 t2 A2 n (f : Z -> HM B) Q :
  h_nodes h !! l = Some n -> nd_left n = Some l1 -> nd_right n = Some l2 -> rep h t1 l1 A1 -> rep h t2 l2 A2 ->
  wp (f (balance (Br k v t1 t2))) h Q -> wp (b ← calcBalance l; f b) h Q.
Proof.
  intros Hn E1 E2 H1 H2 HQ. destruct (rep_node _ _ _ _ H1) as (n1 & Hn1 & Eh1 & _), (rep_node _ _ _ _ H2) as (n2 & Hn2 & Eh2 & _).
  apply wp_bind. unfold calcBalance. apply (wp_load _ _ _ _ _ Hn). rewrite E1, E2. apply wp_deref, wp_deref.
  apply (wp_load _ _ _ _ _ Hn1), (wp_load _ _ _ _ _ Hn2). rewrite Eh1, Eh2. by apply wp_ret.
Qed.

Lemma wp_Mutate_Br {B} h cow l A k v t1 t2 ver (f : loc -> HM B) Q :
  bounded h -> rep h (Br k v t1 t2) l A ->
  (forall h' l' l1 A1 l2 A2, A = {[l]} ∪ A1 ∪ A2 -> opened h' l' k ver l1 t1 A1 l2 t2 A2 ->
     evolves cow h A h' ({[l']} ∪ A1 ∪ A2) -> wp (f l') h' Q) ->
  wp (l' ← Mutate l ver cow; f l') h Q.
Proof.
  intros Hb Hr HQ. inversion Hr as [|? ? ? ? ? l1 l2 A1 A2 hash Hn _ R1 R2 Hd Hl]; subst.
  apply (wp_Mutate _ _ _ _ _ _ _ Hb Hn). intros h' l' Hn' _ He.
  destruct (rep_disjoint _ _ _ _ _ _ _ _ Hb He R1) as [R1' D1]; [set_solver|].
  destruct (rep_disjoint _ _ _ _ _ _ _ _ Hb He R2) as [R2' D2]; [set_solver|].
  apply (HQ h' l' l1 A1 l2 A2); [done| |].
  - split; [by do 2 eexists|done|done|done|set_solver].
  - apply (evolves_frame _ _ _ _ _ (A1 ∪ A2)) in He. apply (evolves_weaken _ _ _ _ _ _ _ He); set_solver.
Qed.

(** After a rotation of a child, the branch above it is opened again. *)
Lemma reopen_left h cow h' l k v l1 t1 A1 l2 t2 A2 l1' t1' A1' n :
  bounded h -> opened h l k v l1 t1 A1 l2 t2 A2 -> cow < v -> evolves cow h A1 h' A1' -> rep h' t1' l1' A1' -> h_nodes h' !! l = Some n ->
  opened (put l (set_left (Some l1') n) h') l k v l1' t1' A1' l2 t2 A2 /\
  evolves cow h ({[l]} ∪ A1 ∪ A2) (put l (set_left (Some l1') n) h') ({[l]} ∪ A1' ∪ A2).
Proof.
  intros Hb Ho Hc He Hr Hn. destruct Ho as [(height & size & Hl) R1 R2 Hd Hh].
  destruct (kept_disjoint _ _ _ _ _ _ _ Hb He Hl) as [Hl' Hne]; [set_solver|]. rewrite Hn in Hl'. injection Hl' as ->.
  destruct (rep_disjoint _ _ _ _ _ _ _ _ Hb He R2) as [R2' D2]; [set_solver|]. split.
  - split; [|by apply rep_put; set_solver..|set_solver|set_solver]. do 2 eexists. apply lookup_insert_eq.
  - apply (evolves_frame _ _ _ _ _ ({[l]} ∪ A2)) in He.
    eapply evolves_trans; [apply (evolves_weaken _ _ _ _ _ _ ({[l]} ∪ A1' ∪ A2) He); set_solver|].
    apply evolves_put; [apply He| |set_solver]. by eexists; split.
Qed.

Lemma reopen_right h cow h' l k v l1 t1 A1 l2 t2 A2 l2' t2' A2' n :
  bounded h -> opened h l k v l1 t1 A1 l2 t2 A2 -> cow < v -> evolves cow h A2 h' A2' -> rep h' t2' l2' A2' -> h_nodes h' !! l = Some n ->
  opened (put l (set_right (Some l2') n) h') l k v l1 t1 A1 l2' t2' A2' /\
  evolves cow h ({[l]} ∪ A1 ∪ A2) (put l (set_right (Some l2') n) h') ({[l]} ∪ A1 ∪ A2').
Proof.
  intros Hb Ho Hc He Hr Hn. destruct Ho as [(height & size & Hl) R1 R2 Hd Hh].
  destruct (kept_disjoint _ _ _ _ _ _ _ Hb He Hl) as [Hl' Hne]; [set_solver|]. rewrite Hn in Hl'. injection Hl' as ->.
  destruct (rep_disjoint _ _ _ _ _ _ _ _ Hb He R1) as [R1' D1]; [set_solver|]. split.
  - split; [|by apply rep_put; set_solver..|set_solver|set_solver]. do 2 eexists. apply lookup_insert_eq.
  - apply (evolves_frame _ _ _ _ _ ({[l]} ∪ A1)) in He.
    eapply evolves_trans; [apply (evolves_weaken _ _ _ _ _ _ ({[l]} ∪ A1 ∪ A2') He); set_solver|].
    apply evolves_put; [apply He| |set_solver]. by eexists; split.
Qed.

(** What a write leaves: a tree at a location. *)
Definition leaves_tree (cow : Z) (h : heap) (A : gset loc) (t : tree) (h' : heap) (l' : loc) : Prop :=
  exists A', rep h' t l' A' /\ evolves cow h A h' A'.

Lemma leaves_tree_trans cow h A h1 A1 t h' l' : evolves cow h A h1 A1 -> leaves_tree cow h1 A1 t h' l' -> leaves_tree cow h A t h' l'.
Proof. intros He (A' & Hr & He'). exists A'. split; [done|by eapply evolves_trans]. Qed.

Lemma wp_reBalance h cow ver l k v l1 tl A1 l2 tr A2 :
  bounded h -> rep h (Br k v tl tr) l ({[l]} ∪ A1 ∪ A2) -> opened h l k v l1 tl A1 l2 tr A2 -> cow < v -> cow < ver ->
  ht (Br k v tl tr) < 250 -> sz (Br k v tl tr) < 2 ^ 63 ->
  wp (reBalance l ver cow) h (leaves_tree cow h ({[l]} ∪ A1 ∪ A2) (rebal ver (Br k v tl tr))).
Proof.
  intros Hb Hr Ho Hcv Hc Hh Hs. pose proof (sz_pos tl). pose proof (sz_pos tr). pose proof Ho as [(height & size & Hn) R1 R2 Hd Hl]. unfold reBalance.
  apply (wp_calcBalance _ _ k v _ _ _ _ _ _ _ _ _ Hn eq_refl eq_refl R1 R2). apply (wp_load _ _ _ _ _ Hn). simpl nd_left. simpl nd_right. unfold rebal. cbn [balance].
  case_bool_decide as Hb1; [|case_bool_decide as Hb2].
  - apply wp_deref. destruct tl as [|lk lv ll lr]; [simpl in Hb1; pose proof (ht_nonneg tr); lia|].
    inversion R1 as [|? ? ? ? ? lll lrl All Alr hash Hn1 _ Rll Rlr _ _]; subst.
    apply (wp_calcBalance _ _ lk lv _ _ _ _ _ _ _ _ _ Hn1 eq_refl eq_refl Rll Rlr). case_bool_decide as Hb3.
    + apply (wp_rotateRight _ _ _ _ _ _ _ _ _ _ _ _ _ _ _ Hb Ho); [done|done|]. unfold fits. simpl in *. lia.
    + destruct lr as [|k2 v2 a b]; [simpl in Hb3; pose proof (ht_nonneg ll); lia|].
      apply (wp_Mutate_Br _ _ _ _ _ _ _ _ _ _ _ Hb R1). intros h1 l1' x1 B1 x2 B2 EA Ho1 He1.
      eapply wp_then; [apply (wp_rotateLeft _ cow ver _ _ _ _ _ _ _ _ _ _ _ _ (ev_bounded _ _ _ _ _ He1) Ho1); [done|done|]|].
      { unfold fits. simpl in *. lia. }
      intros h2 l1'' (A1'' & R1'' & He2). pose proof (evolves_trans _ _ _ _ _ _ _ He1 He2) as He12.
      destruct (kept_disjoint _ _ _ _ _ _ _ Hb He12 Hn) as [Hn2 _]; [set_solver|]. apply (wp_modify _ _ _ _ _ _ Hn2).
      destruct (reopen_left _ cow _ _ _ _ _ _ _ _ _ _ _ _ _ _ Hb Ho Hcv He12 R1'' Hn2) as [Ho3 He3].
      eapply wp_mono; [|apply (wp_rotateRight _ cow ver _ _ _ _ _ _ _ _ _ _ _ _ (ev_bounded _ _ _ _ _ He3) Ho3); [done|done|]].
      { intros h' l' Hl'. eapply leaves_tree_trans; [exact He3|exact Hl']. }
      unfold fits. simpl in *. lia.
  - apply wp_deref. destruct tr as [|rk rv rl rr]; [simpl in Hb2; pose proof (ht_nonneg tl); lia|].
    inversion R2 as [|? ? ? ? ? rll rrl Arl Arr hash Hn2 _ Rrl Rrr _ _]; subst.
    apply (wp_calcBalance _ _ rk rv _ _ _ _ _ _ _ _ _ Hn2 eq_refl eq_refl Rrl Rrr). case_bool_decide as Hb3.
    + apply (wp_rotateLeft _ _ _ _ _ _ _ _ _ _ _ _ _ _ _ Hb Ho); [done|done|]. unfold fits. simpl in *. lia.
    + destruct rl as [|k2 v2 a b]; [simpl in Hb3; pose proof (ht_nonneg rr); lia|].
      apply (wp_Mutate_Br _ _ _ _ _ _ _ _ _ _ _ Hb R2). intros h1 l2' x1 B1 x2 B2 EA Ho1 He1.
      eapply wp_then; [apply (wp_rotateRight _ cow ver _ _ _ _ _ _ _ _ _ _ _ _ (ev_bounded _ _ _ _ _ He1) Ho1); [done|done|]|].
      { unfold fits. simpl in *. lia. }
      intros h2 l2'' (A2'' & R2'' & He2). pose proof (evolves_trans _ _ _ _ _ _ _ He1 He2) as He12.
      destruct (kept_disjoint _ _ _ _ _ _ _ Hb He12 Hn) as [Hn3 _]; [set_solver|]. apply (wp_modify _ _ _ _ _ _ Hn3).
      destruct (reopen_right _ cow _ _ _ _ _ _ _ _ _ _ _ _ _ _ Hb Ho Hcv He12 R2'' Hn3) as [Ho3 He3].
      eapply wp_mono; [|apply (wp_rotateLeft _ cow ver _ _ _ _ _ _ _ _ _ _ _ _ (ev_bounded _ _ _ _ _ He3) Ho3); [done|done|]].
      { intros h' l' Hl'. eapply leaves_tree_trans; [exact He3|exact Hl']. }
      unfold fits. simpl in *. lia.
  - apply wp_ret. eexists. split; [exact Hr|by apply evolves_refl].
Qed.

(** ** Insertion *)

(** A branch gets a new left, or right, child: the node to write is taken after the child was. *)
Lemma wp_replace_left {B} h cow ver l k v t1 l1 A1 t2 l2 A2 hash h1 t1' l1' A1' (f : loc -> HM B) Q :
  bounded h -> h_nodes h !! l = Some (mkNode (ht (Br k v t1 t2)) v (sz (Br k v t1 t2)) k None (Some l1) (Some l2) hash) ->
  rep h t2 l2 A2 -> A1 ## A2 -> l ∉ A1 ∪ A2 -> cow < ver -> evolves cow h A1 h1 A1' -> rep h1 t1' l1' A1' ->
  (forall h2 l', h_nodes h2 !! l' = Some (mkNode (ht (Br k v t1 t2)) ver (sz (Br k v t1 t2)) k None (Some l1') (Some l2) None) ->
     opened h2 l' k ver l1' t1' A1' l2 t2 A2 -> evolves cow h ({[l]} ∪ A1 ∪ A2) h2 ({[l']} ∪ A1' ∪ A2) -> wp (f l') h2 Q) ->
  wp (l' ← Mutate l ver cow; x ← modify l' (set_left (Some l1')); f l') h1 Q.
Proof.
  intros Hb Hn R2 Hd Hl Hc He R1' HQ. pose proof (ev_bounded _ _ _ _ _ He) as Hb1.
  destruct (kept_disjoint _ _ _ _ _ _ _ Hb He Hn) as [Hn1 Hl1]; [set_solver|].
  destruct (rep_disjoint _ _ _ _ _ _ _ _ Hb He R2) as [R21 D2]; [set_solver|].
  apply (wp_Mutate _ _ _ _ _ _ _ Hb1 Hn1). intros h2 l' Hl' _ He2. pose proof (ev_bounded _ _ _ _ _ He2) as Hb2.
  assert (Hl2 : l ∉ A2) by set_solver.
  destruct (rep_disjoint _ _ _ _ _ _ _ _ Hb1 He2 R1') as [R12 D12]; [set_solver|].
  destruct (rep_disjoint _ _ _ _ _ _ _ _ Hb1 He2 R21) as [R22 D22]; [set_solver|].
  apply (wp_modify _ _ _ _ _ _ Hl'). apply HQ.
  - simpl. apply lookup_insert_eq.
  - split; [|apply rep_put; set_solver..|set_solver|set_solver]. do 2 eexists. simpl. apply lookup_insert_eq.
  - apply (evolves_frame _ _ _ _ _ ({[l]} ∪ A2)) in He. apply (evolves_frame _ _ _ _ _ (A1' ∪ A2)) in He2.
    eapply evolves_trans; [apply (evolves_weaken _ _ _ _ _ _ ({[l]} ∪ A1' ∪ A2) He); set_solver|].
    eapply evolves_trans; [apply (evolves_weaken _ _ _ _ _ _ ({[l']} ∪ A1' ∪ A2) He2); set_solver|].
    apply evolves_put; [done| |set_solver]. by eexists; split.
Qed.

Lemma wp_replace_right {B} h cow ver l k v t1 l1 A1 t2 l2 A2 hash h1 t2' l2' A2' (f : loc -> HM B) Q :
  bounded h -> h_nodes h !! l = Some (mkNode (ht (Br k v t1 t2)) v (sz (Br k v t1 t2)) k None (Some l1) (Some l2) hash) ->
  rep h t1 l1 A1 -> A1 ## A2 -> l ∉ A1 ∪ A2 -> cow < ver -> evolves cow h A2 h1 A2' -> rep h1 t2' l2' A2' ->
  (forall h2 l', h_nodes h2 !! l' = Some (mkNode (ht (Br k v t1 t2)) ver (sz (Br k v t1 t2)) k None (Some l1) (Some l2') None) ->
     opened h2 l' k ver l1 t1 A1 l2' t2' A2' -> evolves cow h ({[l]} ∪ A1 ∪ A2) h2 ({[l']} ∪ A1 ∪ A2') -> wp (f l') h2 Q) ->
  wp (l' ← Mutate l ver cow; x ← modify l' (set_right (Some l2')); f l') h1 Q.
Proof.
  intros Hb Hn R1 Hd Hl Hc He R2' HQ. pose proof (ev_bounded _ _ _ _ _ He) as Hb1.
  destruct (kept_disjoint _ _ _ _ _ _ _ Hb He Hn) as [Hn1 Hl1]; [set_solver|].
  destruct (rep_disjoint _ _ _ _ _ _ _ _ Hb He R1) as [R11 D1]; [set_solver|].
  apply (wp_Mutate _ _ _ _ _ _ _ Hb1 Hn1). intros h2 l' Hl' _ He2. pose proof (ev_bounded _ _ _ _ _ He2) as Hb2.
  assert (Hl2 : l ∉ A1) by set_solver.
  destruct (rep_disjoint _ _ _ _ _ _ _ _ Hb1 He2 R2') as [R22 D22]; [set_solver|].
  destruct (rep_disjoint _ _ _ _ _ _ _ _ Hb1 He2 R11) as [R12 D12]; [set_solver|].
  apply (wp_modify _ _ _ _ _ _ Hl'). apply HQ.
  - simpl. apply lookup_insert_eq.
  - split; [|apply rep_put; set_solver..|set_solver|set_solver]. do 2 eexists. simpl. apply lookup_insert_eq.
  - apply (evolves_frame _ _ _ _ _ ({[l]} ∪ A1)) in He. apply (evolves_frame _ _ _ _ _ (A1 ∪ A2')) in He2.
    eapply evolves_trans; [apply (evolves_weaken _ _ _ _ _ _ ({[l]} ∪ A1 ∪ A2') He); set_solver|].
    eapply evolves_trans; [apply (evolves_weaken _ _ _ _ _ _ ({[l']} ∪ A1 ∪ A2') He2); set_solver|].
    apply evolves_put; [done| |set_solver]. by eexists; split.
Qed.

(** The height and the size are written again and the branch is balanced. *)
Lemma wp_rebuild {B} h cow ver l k l1 t1 A1 l2 t2 A2 (f : loc -> HM B) Q :
  bounded h -> opened h l k ver l1 t1 A1 l2 t2 A2 -> cow < ver -> ht (Br k ver t1 t2) < 250 -> sz (Br k ver t1 t2) < 2 ^ 63 ->
  (forall h' l', leaves_tree cow h ({[l]} ∪ A1 ∪ A2) (rebal ver (Br k ver t1 t2)) h' l' -> wp (f l') h' Q) ->
  wp (x ← updateHeightSize l; l' ← reBalance l ver cow; f l') h Q.
Proof.
  intros Hb Ho Hc Hh Hs HQ. apply (wp_updateHeightSize _ cow _ _ _ _ _ _ _ _ _ _ _ Hb Ho); [split; lia|done|]. intros h' Hr Ho' He _.
  eapply wp_then; [apply (wp_reBalance _ cow ver _ _ _ _ _ _ _ _ _ (ev_bounded _ _ _ _ _ He) Hr Ho'); done|].
  intros h2 l2' Hl. apply HQ. by eapply leaves_tree_trans.
Qed.

(** A branch that gets a new left, or right, child that is not higher is still a tree. *)
Lemma opened_rep h l k ver l1 t1 A1 l2 t2 A2 :
  opened h l k ver l1 t1 A1 l2 t2 A2 ->
  h_nodes h !! l = Some (mkNode (ht (Br k ver t1 t2)) ver (sz (Br k ver t1 t2)) k None (Some l1) (Some l2) None) -> rep h (Br k ver t1 t2) l ({[l]} ∪ A1 ∪ A2).
Proof. intros [_ R1 R2 Hd Hh] Hn. eapply rep_branch; [done|by left|done..]. Qed.
End Representation.
