(* ===== verification/AVLOps.v ===== *)
(** What the operations of [AVL] on nodes do to a tree in the heap: insertion and removal
    compute [p_set] and [p_remove], lookups read the leaves, hashing computes the hash of
    the tree's content and leaves every tree on the heap what it was. *)
From stdpp Require Import base gmap sets list sorting.
From Stdlib Require Import ZArith Lia.
From S2P Require Import Prelude AVL AVLPure AVLHeap.
Local Open Scope Z_scope.

Section Operations.
Context (sha256 : bytes -> bytes).
Local Abbreviation rep := (rep sha256).
Local Abbreviation leaves_tree := (leaves_tree sha256).

(** Sorted, labelled and balanced. *)
Record search_tree (t : tree) : Prop := { st_ordered : ordered t; st_labelled : labelled t; st_balanced : balanced t }.

Lemma search_tree_Br k ver l r : search_tree (Br k ver l r) -> search_tree l /\ search_tree r /\ -1 <= ht l - ht r <= 1.
Proof. intros [(Hl & Hr & _)%ordered_Br (_ & Kl & Kr) (Hb & Bl & Br)]. done. Qed.

Lemma height_bound_63 t : search_tree t -> sz t < 2 ^ 63 -> ht t <= 90.
Proof. intros [_ _ Hb]. by apply height_bound. Qed.

Lemma IsLeaf_Br k ver t1 t2 v' size k' val l1 l2 hash : IsLeaf (mkNode (ht (Br k ver t1 t2)) v' size k' val l1 l2 hash) = false.
Proof. unfold IsLeaf. cbn [nd_height]. pose proof (ht_Br k ver t1 t2). rewrite bool_decide_eq_false. lia. Qed.

(** ** Insertion *)
Lemma p_set_facts key value ver t :
  search_tree t -> ht (p_set key value ver t).1 <= ht t + 1 /\ sz (p_set key value ver t).1 <= sz t + 1 /\
  ((p_set key value ver t).2 = true -> ht (p_set key value ver t).1 = ht t /\ sz (p_set key value ver t).1 = sz t) /\ search_tree (p_set key value ver t).1 /\
  leaves (p_set key value ver t).1 = ins key value (leaves t).
Proof.
  intros [Ho Hl Hb]. pose proof (p_set_spec key value ver t Ho Hl Hb) as Hp. destruct (p_set key value ver t) as [t' upd]. simpl.
  destruct Hp as (H1 & H2 & H3 & H4 & H5). split_and!; [lia| |done| |done].
  - rewrite !sz_leaves, H1. assert (Hlen : forall l, (length (ins key value l) <= S (length l))%nat); [|specialize (Hlen (leaves t)); lia].
    intros l. induction l as [|[k v] l IH]; simpl; [lia|]. destruct bytes_compare; simpl; lia.
  - split; [|done|done]. unfold ordered. rewrite H1. by apply ins_sorted.
Qed.

(** A new leaf, and a branch over it and an old one. *)
Lemma rep_newLeaf h key value ver : rep (push (newLeafNode key value ver) h) (Lf key value ver) (h_next h) {[h_next h]}.
Proof. eapply rep_leaf; [apply lookup_insert_eq|by left]. Qed.

Lemma leaves_tree_graft cow h key value ver t l A k tl tr ll lr Al Ar :
  bounded h -> rep h t l A -> ht t = 0 -> sz t = 1 ->
  (tl, ll, Al, tr, lr, Ar) = (Lf key value ver, h_next h, {[h_next h]}, t, l, A) \/ (tl, ll, Al, tr, lr, Ar) = (t, l, A, Lf key value ver, h_next h, {[h_next h]}) ->
  leaves_tree cow h A (Br k ver tl tr)
    (push (newBranchNode 1 2 ver k (Some ll) (Some lr)) (push (newLeafNode key value ver) h)) (h_next (push (newLeafNode key value ver) h)).
Proof.
  intros Hb Hr Hh Hs Hor. set (h1 := push (newLeafNode key value ver) h). pose proof (bounded_push h (newLeafNode key value ver) Hb) as Hb1.
  pose proof (rep_push sha256 _ (newBranchNode 1 2 ver k (Some ll) (Some lr)) _ _ _ Hb1 (rep_newLeaf h key value ver)) as Rn.
  pose proof (rep_push sha256 _ (newLeafNode key value ver) _ _ _ Hb Hr) as Ro.
  apply (rep_push sha256 _ (newBranchNode 1 2 ver k (Some ll) (Some lr)) _ _ _ Hb1) in Ro. fold h1 in Rn, Ro, Hb1.
  assert (Hd : h_next h ∉ A) by (intros Hx%(rep_bounded sha256 _ _ _ _ _ Hb Hr); lia).
  assert (Hd' : h_next h1 ∉ A ∪ {[h_next h]}) by (intros [Hx%(rep_bounded sha256 _ _ _ _ _ Hb Hr)|Hx%elem_of_singleton]%elem_of_union; simpl in *; lia).
  exists ({[h_next h1]} ∪ Al ∪ Ar). split.
  - assert (Hn : ht (Br k ver tl tr) = 1 /\ sz (Br k ver tl tr) = 2) by (destruct Hor; simplify_eq; simpl; lia). destruct Hn as [E1 E2].
    eapply rep_branch; [rewrite E1, E2; apply lookup_insert_eq|by left|..]; destruct Hor; simplify_eq; try done; set_solver.
  - eapply evolves_trans; [by apply evolves_push|]. eapply evolves_weaken; [by apply evolves_push|reflexivity|]. destruct Hor; simplify_eq; set_solver.
Qed.

Theorem wp_setRecursive key value ver cow t : forall fuel h l A,
  bounded h -> rep h t l A -> search_tree t -> sz t + 1 < 2 ^ 63 -> ht t < Z.of_nat fuel -> cow < ver ->
  wp (setRecursive fuel (Some l) key value ver cow) h
    (fun h' '(l', updated) => updated = (p_set key value ver t).2 /\ leaves_tree cow h A (p_set key value ver t).1 h' l').
Proof.
  induction t as [k v ver0|k ver0 t1 IH1 t2 IH2]; intros fuel h l A Hb Hr Hst Hs Hfuel Hc.
  - destruct fuel as [|fuel]; [simpl in *; lia|]. inversion Hr as [? ? ? ? hash Hn Hh|]; subst. cbn [setRecursive p_set].
    apply (wp_load _ _ _ _ _ Hn). cbn [nd_key]. change (IsLeaf _) with true. cbv iota. destruct (bytes_compare key k) eqn:Hk.
    + apply (wp_Mutate _ cow _ _ _ _ _ Hb Hn). intros h' l' Hn' _ He. apply (wp_modify _ _ _ _ _ _ Hn'), wp_ret. split; [done|].
      eexists. split; [eapply rep_leaf; [apply lookup_insert_eq|by left]|].
      eapply evolves_trans; [exact He|]. apply evolves_put; [apply He| |set_solver]. by eexists; split.
    + apply wp_alloc, wp_alloc, wp_ret. split; [done|]. eapply leaves_tree_graft; [done|done|done|done|by left].
    + apply wp_alloc, wp_alloc, wp_ret. split; [done|]. eapply leaves_tree_graft; [done|done|done|done|by right].
  - pose proof (height_bound_63 _ Hst ltac:(lia)) as Hht. apply search_tree_Br in Hst as (Hst1 & Hst2 & Hbal). pose proof (sz_pos t1). pose proof (sz_pos t2).
    destruct fuel as [|fuel]; [pose proof (ht_Br k ver0 t1 t2); lia|].
    inversion Hr as [|? ? ? ? ? l1 l2 A1 A2 hash Hn Hh R1 R2 Hd Hl]; subst. cbn [setRecursive p_set].
    apply (wp_load _ _ _ _ _ Hn). cbn [nd_key nd_left nd_right]. rewrite IsLeaf_Br. simpl in Hs, Hfuel, Hht. apply wp_bind. case_bool_decide as Hlt.
    + eapply wp_then; [apply (IH1 fuel h l1 A1); try done; lia|]. intros h1 [l1' upd] [-> (A1' & R1' & He)].
      pose proof (p_set_facts key value ver t1 Hst1) as (F1 & F2 & F3 & _). destruct (p_set key value ver t1) as [t1' upd]. cbn [fst snd] in *.
      apply (wp_replace_left _ _ _ _ _ _ _ _ _ _ _ _ _ _ _ _ _ _ _ _ Hb Hn R2 Hd Hl Hc He R1'). intros h2 l' Hn' Ho He'. apply wp_ret.
      destruct upd.
      * apply wp_ret. split; [done|]. eexists. split; [|exact He']. eapply opened_rep; [done|]. destruct F3 as [Eh Es]; [done|]. simpl in Hn' |- *. by rewrite Eh, Es.
      * apply (wp_rebuild _ _ _ _ _ _ _ _ _ _ _ _ _ _ (ev_bounded _ _ _ _ _ He') Ho Hc); [simpl; lia|simpl; lia|].
        intros h3 l3 Hl3. apply wp_ret. split; [done|]. by eapply leaves_tree_trans.
    + eapply wp_then; [apply (IH2 fuel h l2 A2); try done; lia|]. intros h1 [l2' upd] [-> (A2' & R2' & He)].
      pose proof (p_set_facts key value ver t2 Hst2) as (F1 & F2 & F3 & _). destruct (p_set key value ver t2) as [t2' upd]. cbn [fst snd] in *.
      apply (wp_replace_right _ _ _ _ _ _ _ _ _ _ _ _ _ _ _ _ _ _ _ _ Hb Hn R1 Hd Hl Hc He R2'). intros h2 l' Hn' Ho He'. apply wp_ret.
      destruct upd.
      * apply wp_ret. split; [done|]. eexists. split; [|exact He']. eapply opened_rep; [done|]. destruct F3 as [Eh Es]; [done|]. simpl in Hn' |- *. by rewrite Eh, Es.
      * apply (wp_rebuild _ _ _ _ _ _ _ _ _ _ _ _ _ _ (ev_bounded _ _ _ _ _ He') Ho Hc); [simpl; lia|simpl; lia|].
        intros h3 l3 Hl3. apply wp_ret. split; [done|]. by eapply leaves_tree_trans.
Qed.

(** ** Removal *)
Lemma p_remove_facts key ver t v t' nk : search_tree t -> p_remove key ver t = Some (v, Some t', nk) -> ht t - 1 <= ht t' <= ht t /\ sz t' <= sz t /\ search_tree t'.
Proof.
  intros [Ho Hl Hb] Hp. pose proof (p_remove_spec key ver t Ho Hl Hb) as Hr. rewrite Hp in Hr. destruct Hr as (_ & H2 & H3 & H4 & H5 & _).
  split; [done|]. split.
  - rewrite !sz_leaves, H2. unfold del. pose proof (length_filter (fun kv : bytes * bytes => kv.1 <> key) (leaves t)). lia.
  - split; [|done|done]. unfold ordered. rewrite H2. by apply del_sorted.
Qed.

Definition removal (cow : Z) (h : heap) (l : loc) (A : gset loc) (p : option (bytes * option tree * option bytes))
    (h' : heap) (r : option bytes * option loc * option bytes) : Prop :=
  match p with
  | None => r = (None, Some l, None) /\ h' = h
  | Some (v, None, nk) => r = (Some v, None, nk) /\ h' = h
  | Some (v, Some t', nk) => exists l', r = (Some v, Some l', nk) /\ leaves_tree cow h A t' h' l'
  end.

(** The key of a branch follows the first key on its right. *)
Lemma wp_relabel {B} cow ver h l k l1 t1 A1 l2 t2 A2 nk (f : () -> HM B) Q :
  bounded h -> opened sha256 h l k ver l1 t1 A1 l2 t2 A2 -> cow < ver ->
  (forall h', opened sha256 h' l (default k nk) ver l1 t1 A1 l2 t2 A2 -> evolves cow h ({[l]} ∪ A1 ∪ A2) h' ({[l]} ∪ A1 ∪ A2) -> wp (f tt) h' Q) ->
  wp (x ← (match nk with Some k => modify l (set_key k) | None => mret tt end); f x) h Q.
Proof.
  intros Hb Ho Hc HQ. destruct nk as [k'|]; [|apply wp_bind, wp_ret, HQ; [done|by apply evolves_refl]].
  pose proof (opened_mine sha256 _ _ _ _ _ _ _ _ _ _ cow Ho Hc) as Hm. destruct Ho as [(height & size & Hn) R1 R2 Hd Hl].
  apply (wp_modify _ _ _ _ _ _ Hn), HQ.
  - split; [|apply rep_put; set_solver..|done|done]. do 2 eexists. apply lookup_insert_eq.
  - apply evolves_put; [done|done|set_solver].
Qed.

Theorem wp_removeRecursive key ver cow t : forall fuel h l A,
  bounded h -> rep h t l A -> search_tree t -> sz t < 2 ^ 63 -> ht t < Z.of_nat fuel -> cow < ver ->
  wp (removeRecursive fuel (Some l) key ver cow) h (removal cow h l A (p_remove key ver t)).
Proof.
  induction t as [k v ver0|k ver0 t1 IH1 t2 IH2]; intros fuel h l A Hb Hr Hst Hs Hfuel Hc.
  - destruct fuel as [|fuel]; [simpl in *; lia|]. inversion Hr as [? ? ? ? hash Hn Hh|]; subst. cbn [removeRecursive p_remove].
    apply (wp_load _ _ _ _ _ Hn). cbn [nd_key nd_value]. change (IsLeaf _) with true. cbv iota. apply wp_ret. by case_bool_decide.
  - pose proof (height_bound_63 _ Hst Hs) as Hht. apply search_tree_Br in Hst as (Hst1 & Hst2 & Hbal). pose proof (sz_pos t1). pose proof (sz_pos t2).
    destruct fuel as [|fuel]; [pose proof (ht_Br k ver0 t1 t2); lia|].
    inversion Hr as [|? ? ? ? ? l1 l2 A1 A2 hash Hn Hh R1 R2 Hd Hl]; subst. cbn [removeRecursive p_remove].
    apply (wp_load _ _ _ _ _ Hn). cbn [nd_key nd_left nd_right]. rewrite IsLeaf_Br. simpl in Hs, Hfuel, Hht. case_bool_decide as Hlt.
    + eapply wp_then; [apply (IH1 fuel h l1 A1); try done; lia|]. intros h1 r1 Hr1. pose proof (p_remove_facts key ver t1) as Hf.
      destruct (p_remove key ver t1) as [[[v [t1'|]] nk]|]; cbn [removal] in Hr1 |- *.
      * destruct Hr1 as (l1' & -> & A1' & R1' & He). destruct (Hf _ _ _ Hst1 eq_refl) as (F1 & F2 & _).
        apply (wp_replace_left _ _ _ _ _ _ _ _ _ _ _ _ _ _ _ _ _ _ _ _ Hb Hn R2 Hd Hl Hc He R1'). intros h2 l' Hn' Ho He'.
        apply (wp_rebuild _ _ _ _ _ _ _ _ _ _ _ _ _ _ (ev_bounded _ _ _ _ _ He') Ho Hc); [simpl; lia|simpl; lia|].
        intros h3 l3 Hl3. apply wp_ret. exists l3. split; [done|]. by eapply leaves_tree_trans.
      * destruct Hr1 as [-> ->]. apply wp_ret. exists l2. split; [done|]. exists A2. split; [done|].
        apply (evolves_weaken _ _ _ _ _ _ _ (evolves_refl cow h A2 Hb)); set_solver.
      * destruct Hr1 as [-> ->]. by apply wp_ret.
    + eapply wp_then; [apply (IH2 fuel h l2 A2); try done; lia|]. intros h1 r1 Hr1. pose proof (p_remove_facts key ver t2) as Hf.
      destruct (p_remove key ver t2) as [[[v [t2'|]] nk]|]; cbn [removal] in Hr1 |- *.
      * destruct Hr1 as (l2' & -> & A2' & R2' & He). destruct (Hf _ _ _ Hst2 eq_refl) as (F1 & F2 & _).
        apply (wp_replace_right _ _ _ _ _ _ _ _ _ _ _ _ _ _ _ _ _ _ _ _ Hb Hn R1 Hd Hl Hc He R2'). intros h2 l' Hn' Ho He'.
        apply (wp_relabel cow ver h2 l' k l1 t1 A1 l2' t2' A2' nk); [apply He'|done|done|]. intros h3 Ho3 He3.
        apply (wp_rebuild _ _ _ _ _ _ _ _ _ _ _ _ _ _ (ev_bounded _ _ _ _ _ He3) Ho3 Hc); [simpl; lia|simpl; lia|].
        intros h4 l4 Hl4. apply wp_ret. exists l4. split; [done|]. eapply leaves_tree_trans; [|exact Hl4]. by eapply evolves_trans.
      * destruct Hr1 as [-> ->]. apply wp_ret. exists l1. split; [done|]. exists A1. split; [done|].
        apply (evolves_weaken _ _ _ _ _ _ _ (evolves_refl cow h A1 Hb)); set_solver.
      * destruct Hr1 as [-> ->]. by apply wp_ret.
Qed.

(** ** Lookups *)
Fixpoint assoc (key : bytes) (l : list (bytes * bytes)) : option bytes :=
  match l with [] => None | (k, v) :: l => if bool_decide (k = key) then Some v else assoc key l end.
(** The number of keys before a key. *)
Definition rank (key : bytes) (l : list (bytes * bytes)) : Z := Z.of_nat (length (filter (fun kv => kv.1 <b key) l)).

Lemma assoc_app key l1 l2 : assoc key (l1 ++ l2) = match assoc key l1 with Some v => Some v | None => assoc key l2 end.
Proof. induction l1 as [|[k v] l1 IH]; simpl; [done|]. by case_bool_decide. Qed.
Lemma assoc_None key l : key ∉ l.*1 -> assoc key l = None.
Proof. induction l as [|[k v] l IH]; simpl; [done|]. intros [Hk Hl]%not_elem_of_cons. rewrite bool_decide_false by done. by apply IH. Qed.
Lemma rank_app key l1 l2 : rank key (l1 ++ l2) = rank key l1 + rank key l2.
Proof. unfold rank. rewrite filter_app, length_app. lia. Qed.
Lemma rank_bounds key l : 0 <= rank key l <= Z.of_nat (length l).
Proof. unfold rank. pose proof (length_filter (fun kv : bytes * bytes => kv.1 <b key) l). lia. Qed.
Lemma rank_all key l : (forall x, x ∈ l.*1 -> x <b key) -> rank key l = Z.of_nat (length l).
Proof.
  unfold rank. induction l as [|[k v] l IH]; intros H; [done|]. rewrite filter_cons_True by (apply H; left). simpl.
  rewrite !Nat2Z.inj_succ, IH; [done|]. intros x Hx. apply H. by right.
Qed.
Lemma rank_none key l : (forall x, x ∈ l.*1 -> key <=b x) -> rank key l = 0.
Proof.
  unfold rank. induction l as [|[k v] l IH]; intros H; [done|]. rewrite filter_cons_False; [apply IH; intros x Hx; apply H; by right|].
  simpl. apply bytes_not_lt, H. left.
Qed.

(** Below a branch, one side has the key and the other is all before, or all after it. *)
Lemma branch_lookup key k ver t1 t2 :
  search_tree (Br k ver t1 t2) ->
  (key <b k -> assoc key (leaves t2) = None /\ rank key (leaves t2) = 0) /\
  (~ key <b k -> assoc key (leaves t1) = None /\ rank key (leaves t1) = sz t1).
Proof.
  intros [Ho Hl _]. destruct (label_splits _ _ _ _ Ho Hl) as [H1 H2]. split; intros Hk.
  - assert (H : forall x, x ∈ keys t2 -> key <b x) by (intros x Hx%H2; by eapply bytes_lt_le_trans).
    split; [apply assoc_None; intros Hx%H; by eapply bytes_lt_irrefl|]. apply rank_none. intros x Hx%H. apply bytes_le_lteq. by left.
  - apply bytes_not_lt in Hk. assert (H : forall x, x ∈ keys t1 -> x <b key) by (intros x Hx%H1; by eapply bytes_lt_le_trans).
    split; [apply assoc_None; intros Hx%H; by eapply bytes_lt_irrefl|]. by rewrite sz_leaves, rank_all.
Qed.

Theorem wp_node_Get key t : forall fuel h l A,
  rep h t l A -> search_tree t -> sz t < 2 ^ 32 -> ht t < Z.of_nat fuel ->
  wp (node_Get fuel l key) h (fun h' r => h' = h /\ r = (assoc key (leaves t), rank key (leaves t))).
Proof.
  induction t as [k v ver|k ver t1 IH1 t2 IH2]; intros fuel h l A Hr Hst Hs Hfuel.
  - destruct fuel as [|fuel]; [simpl in *; lia|]. inversion Hr as [? ? ? ? hash Hn Hh|]; subst. cbn [node_Get].
    apply (wp_load _ _ _ _ _ Hn). change (IsLeaf _) with true. cbn [nd_key nd_value]. cbv iota. apply wp_ret. split; [done|].
    unfold rank. simpl. rewrite filter_cons, filter_nil. simpl. destruct (bytes_compare k key) eqn:Hk.
    + apply bytes_compare_eq in Hk as ->. rewrite bool_decide_true by done. rewrite decide_False; [done|apply bytes_lt_irrefl].
    + rewrite decide_True by done. rewrite bool_decide_false; [done|]. intros ->. by apply (bytes_lt_irrefl key).
    + rewrite decide_False by (unfold bytes_lt; by rewrite Hk). rewrite bool_decide_false; [done|]. intros ->. by rewrite bytes_compare_refl in Hk.
  - destruct (branch_lookup key _ _ _ _ Hst) as [B1 B2]. apply search_tree_Br in Hst as (Hst1 & Hst2 & _).
    pose proof (sz_pos t1). pose proof (sz_pos t2). destruct fuel as [|fuel]; [pose proof (ht_Br k ver t1 t2); lia|].
    inversion Hr as [|? ? ? ? ? l1 l2 A1 A2 hash Hn Hh R1 R2 Hd Hl]; subst. cbn [node_Get].
    apply (wp_load _ _ _ _ _ Hn). rewrite IsLeaf_Br. cbn [nd_key nd_left nd_right nd_size]. simpl in Hs, Hfuel. cbn [leaves]. rewrite assoc_app, rank_app.
    case_bool_decide as Hlt.
    + destruct (B1 Hlt) as [-> ->]. apply wp_deref. eapply wp_mono; [|apply (IH1 fuel h l1 A1); [done|done|lia|lia]].
      intros h' r [-> ->]. rewrite Z.add_0_r. by destruct (assoc key (leaves t1)).
    + destruct (B2 Hlt) as [-> ->]. apply wp_deref. eapply wp_then; [apply (IH2 fuel h l2 A2); [done|done|lia|lia]|].
      intros h' r [-> ->]. destruct (rep_node _ _ _ _ _ R2) as (n2 & Hn2 & _ & Es & _). apply (wp_load _ _ _ _ _ Hn2). rewrite Es. simpl.
      rewrite !bool_decide_false by lia. apply wp_ret. split; [done|]. f_equal. pose proof (rank_bounds key (leaves t2)). rewrite <- sz_leaves in *. rewrite Z.mod_small; lia.
Qed.

Theorem wp_node_GetByIndex t : forall fuel h l A index,
  rep h t l A -> sz t < 2 ^ 32 -> ht t < Z.of_nat fuel -> 0 <= index ->
  wp (node_GetByIndex fuel l index) h (fun h' r => h' = h /\
    r = match leaves t !! Z.to_nat index with Some (k, v) => (Some k, Some v) | None => (None, None) end).
Proof.
  induction t as [k v ver|k ver t1 IH1 t2 IH2]; intros fuel h l A index Hr Hs Hfuel Hi.
  - destruct fuel as [|fuel]; [simpl in *; lia|]. inversion Hr as [? ? ? ? hash Hn Hh|]; subst. cbn [node_GetByIndex].
    apply (wp_load _ _ _ _ _ Hn). change (IsLeaf _) with true. cbn [nd_key nd_value leaves]. cbv iota. apply wp_ret. split; [done|].
    case_bool_decide as H0; [by rewrite H0|]. destruct (Z.to_nat index) eqn:Hz; [lia|done].
  - pose proof (sz_pos t1). pose proof (sz_pos t2). destruct fuel as [|fuel]; [pose proof (ht_Br k ver t1 t2); lia|].
    inversion Hr as [|? ? ? ? ? l1 l2 A1 A2 hash Hn Hh R1 R2 Hd Hl]; subst. cbn [node_GetByIndex].
    apply (wp_load _ _ _ _ _ Hn). rewrite IsLeaf_Br. cbn [nd_left nd_right]. simpl in Hs, Hfuel. cbn [leaves]. apply wp_deref.
    destruct (rep_node _ _ _ _ _ R1) as (n1 & Hn1 & _ & Es & _). apply (wp_load _ _ _ _ _ Hn1). rewrite Es. cbv zeta. rewrite !(bool_decide_false (_ < 0)), !(bool_decide_false (2 ^ 32 - 1 < _)) by lia.
    cbn [orb]. rewrite sz_leaves. case_bool_decide as Hlt.
    + rewrite lookup_app_l by lia. by apply (IH1 fuel h l1 A1); [|lia|lia|].
    + rewrite lookup_app_r by lia. apply wp_deref. replace (Z.to_nat index - length (leaves t1))%nat with (Z.to_nat (index - Z.of_nat (length (leaves t1)))) by lia.
      apply (IH2 fuel h l2 A2); [done|lia|lia|lia].
Qed.

(** ** Hashing *)
Record rehashed (h h' : heap) : Prop := {
  rh_next : h_next h' = h_next h;
  rh_same : forall l, set_hash None <$> h_nodes h' !! l = set_hash None <$> h_nodes h !! l;
  rh_rep : forall t l A, rep h t l A -> rep h' t l A
}.

Lemma rehashed_refl h : rehashed h h.
Proof. done. Qed.
Lemma rehashed_trans h1 h2 h3 : rehashed h1 h2 -> rehashed h2 h3 -> rehashed h1 h3.
Proof. intros [N1 S1 R1] [N2 S2 R2]. split; [congruence|intros l; by rewrite S2|auto]. Qed.

Lemma rehashed_put h t l A n : rep h t l A -> h_nodes h !! l = Some n -> rehashed h (put l (set_hash (Some (tree_hash sha256 t)) n) h).
Proof.
  intros Hr Hn. split; [done| |].
  - intros x. simpl. destruct (decide (x = l)) as [->|]; [rewrite lookup_insert_eq, Hn; done|by rewrite lookup_insert_ne].
  - intros t2 l2 A2 H2. induction H2 as [x k v ver hash Hx Hh|x k ver t1 t2 l1 l2 A1 A2 hash Hx Hh H1 IH1 H2 IH2 Hd Hl].
    + destruct (decide (x = l)) as [->|Hne]; [|eapply rep_leaf; [simpl; by rewrite lookup_insert_ne|done]].
      destruct (rep_functional _ _ _ _ _ _ _ Hr (rep_leaf _ _ _ _ _ _ _ Hx Hh)) as [-> _]. rewrite Hn in Hx. injection Hx as ->.
      eapply rep_leaf; [apply lookup_insert_eq|by right].
    + destruct (decide (x = l)) as [->|Hne]; [|eapply rep_branch; [simpl; by rewrite lookup_insert_ne|done..]].
      destruct (rep_functional _ _ _ _ _ _ _ Hr (rep_branch _ _ _ _ _ _ _ _ _ _ _ _ Hx Hh H1 H2 Hd Hl)) as [-> _]. rewrite Hn in Hx. injection Hx as ->.
      eapply rep_branch; [apply lookup_insert_eq|by right|done..].
Qed.

Theorem wp_node_Hash t : forall fuel h l A,
  rep h t l A -> ht t < Z.of_nat fuel -> wp (node_Hash sha256 fuel l) h (fun h' hash => hash = tree_hash sha256 t /\ rehashed h h').
Proof.
  induction t as [k v ver|k ver t1 IH1 t2 IH2]; intros fuel h l A Hr Hfuel.
  - destruct fuel as [|fuel]; [simpl in *; lia|]. inversion Hr as [? ? ? ? hash Hn Hh|]; subst. cbn [node_Hash].
    apply (wp_load _ _ _ _ _ Hn). cbn [nd_hash nd_height nd_size nd_version nd_key nd_value]. destruct Hh as [->| ->]; [|by apply wp_ret].
    change (IsLeaf _) with true. cbv iota. apply wp_bind, wp_ret. apply (wp_modify _ _ _ _ _ _ Hn), wp_ret.
    split; [done|]. exact (rehashed_put _ _ _ _ _ Hr Hn).
  - destruct fuel as [|fuel]; [pose proof (ht_Br k ver t1 t2); lia|].
    inversion Hr as [|? ? ? ? ? l1 l2 A1 A2 hash Hn Hh R1 R2 Hd Hl]; subst. cbn [node_Hash]. apply (wp_load _ _ _ _ _ Hn).
    destruct Hh as [->| ->]; [|by apply wp_ret]. cbn [nd_hash nd_left nd_right]. rewrite IsLeaf_Br. apply wp_bind, wp_deref.
    eapply wp_then; [apply (IH1 fuel h l1 A1); [done|simpl in Hfuel; lia]|]. intros h1 x [-> H1]. apply wp_deref.
    eapply wp_then; [apply (IH2 fuel h1 l2 A2); [by apply H1|simpl in Hfuel; lia]|]. intros h2 x [-> H2]. apply wp_ret.
    pose proof (rehashed_trans _ _ _ H1 H2) as H12. pose proof (rh_rep _ _ H12 _ _ _ Hr) as Hr2.
    inversion Hr2 as [|? ? ? ? ? l1' l2' A1' A2' hash' Hn2 _ _ _ _ _]; subst. apply (wp_modify _ _ _ _ _ _ Hn2), wp_ret. cbn [nd_height nd_size nd_version].
    assert (E : sha256 ((PutVarint (ht (Br k ver t1 t2)) ++ PutVarint (sz (Br k ver t1 t2)) ++ PutVarint ver) ++ EncodeBytes (tree_hash sha256 t1) ++ EncodeBytes (tree_hash sha256 t2)) = tree_hash sha256 (Br k ver t1 t2)) by done.
    rewrite E. split; [done|]. eapply rehashed_trans; [exact H12|]. by eapply rehashed_put.
Qed.
End Operations.
