(* ===== verification/AVLTree.v ===== *)
(** Trees and their copies.  A tree and the copies taken of it share nodes; here each of
    them is shown to behave as a value of its own, as long as a copy is taken when nothing
    is written since the last saved version, which is when the code takes them. *)
From stdpp Require Import base gmap sets list sorting.
From Stdlib Require Import Lia ZArith.
From S2P Require Import Prelude KVStore MergeIter AVL AVLPure AVLHeap AVLOps.
Local Open Scope Z_scope.

#[export] Instance newest_dec n t : Decision (newest n t).
Proof. induction t; simpl; apply _. Defined.

(** ** Trees as values *)
Record ATree := mkATree { a_version : Z; a_init : Z; a_root : option tree }.
Definition contents (a : ATree) : list (bytes * bytes) := match a_root a with Some t => leaves t | None => [] end.
Definition view (a : ATree) : gmap bytes bytes := list_to_map (contents a).
Definition size (a : ATree) : Z := Z.of_nat (length (contents a)).
Definition clean (a : ATree) : Prop := match a_root a with Some t => newest (a_version a) t | None => True end.
#[export] Instance clean_dec a : Decision (clean a).
Proof. unfold clean. destruct (a_root a); apply _. Defined.

(** A tree of less than [2 ^ 32] keys whose version is not the last one. *)
Definition room (a : ATree) : Prop := size a + 1 < 2 ^ 32 /\ 0 <= a_version a < MaxUint32.
#[export] Instance room_dec a : Decision (room a).
Proof. unfold room. apply _. Defined.

Definition a_set (a : ATree) (key value : bytes) : ATree :=
  mkATree (a_version a) (a_init a)
    (Some (match a_root a with Some t => (p_set key value (a_version a + 1) t).1 | None => Lf key value (a_version a + 1) end)).
Definition a_remove (a : ATree) (key : bytes) : ATree :=
  mkATree (a_version a) (a_init a)
    (match a_root a with
     | Some t => match p_remove key (a_version a + 1) t with Some (_, t', _) => t' | None => Some t end
     | None => None
     end).
Definition a_pair (a : ATree) (p : KVPair) : ATree :=
  if kv_delete p then a_remove a (kv_key p) else a_set a (kv_key p) (default [] (kv_value p)).
Fixpoint a_apply (a : ATree) (pairs : list KVPair) : option ATree :=
  match pairs with
  | [] => Some a
  | p :: pairs => if bool_decide (room a) then a_apply (a_pair a p) pairs else None
  end.
Definition a_save (a : ATree) : ATree := mkATree (nextVersionU32 (a_version a) (a_init a)) (a_init a) (a_root a).

Definition a_ok (a : ATree) : Prop := match a_root a with Some t => search_tree t /\ newest (a_version a + 1) t | None => True end.

Lemma contents_sorted a : a_ok a -> StronglySorted bytes_lt (contents a).*1.
Proof. unfold a_ok, contents. destruct (a_root a); [|constructor]. by intros [[Ho _ _] _]. Qed.

Lemma assoc_view key l : assoc key l = (list_to_map l : gmap bytes bytes) !! key.
Proof.
  induction l as [|[k v] l IH]; simpl; [done|]. case_bool_decide as Hk; [subst; by rewrite lookup_insert_eq|]. by rewrite lookup_insert_ne.
Qed.

Lemma sorted_fst_nodup (l : list (bytes * bytes)) : StronglySorted bytes_lt l.*1 -> NoDup l.*1.
Proof. intros Hl. by apply (sorted_nodup true), it_sorted_ascending. Qed.

(** The pairs of a range are the entries of the map there. *)
Lemma contents_range a start end_ : a_ok a -> filter (fun kv => in_domain start end_ kv.1 = true) (contents a) = map_entries (view a) start end_.
Proof.
  intros Ho. pose proof (contents_sorted a Ho) as Hs. apply (entries_ext true); [by apply it_sorted_ascending, sorted_filter|apply (entries_of_sorted true)|].
  intros k v. rewrite list_elem_of_filter, map_entries_elem. unfold view. rewrite elem_of_list_to_map by by apply sorted_fst_nodup. simpl. tauto.
Qed.
Lemma contents_entries a : a_ok a -> contents a = map_entries (view a) None None.
Proof.
  intros Ho. rewrite <- contents_range by done. symmetry. apply filter_all. intros [k v] _.
  unfold in_domain. simpl. by rewrite bool_decide_true by by destruct k.
Qed.

Lemma ins_map key value l : StronglySorted bytes_lt l.*1 -> (list_to_map (ins key value l) : gmap bytes bytes) = <[key := value]> (list_to_map l).
Proof.
  induction l as [|[k v] l IH]; intros Hs; [done|]. cbn [ins]. destruct (bytes_compare key k) eqn:Hc.
  - apply bytes_compare_eq in Hc as ->. simpl. by rewrite insert_insert_eq.
  - done.
  - simpl. rewrite IH by by apply StronglySorted_inv in Hs as [? _]. apply insert_insert_ne. intros ->. by rewrite bytes_compare_refl in Hc.
Qed.
Lemma del_map key l : (list_to_map (del key l) : gmap bytes bytes) = delete key (list_to_map l).
Proof.
  unfold del. induction l as [|[k v] l IH]; [simpl; by rewrite delete_empty|]. rewrite filter_cons. simpl. case_decide as Hk; simpl.
  - rewrite IH, delete_insert_ne; [done|naive_solver].
  - rewrite IH. destruct (decide (k = key)) as [->|]; [by rewrite delete_insert_eq|done].
Qed.

(** Writes are those of a map. *)
Lemma a_set_spec a key value : a_ok a -> a_ok (a_set a key value) /\ view (a_set a key value) = <[key := value]> (view a).
Proof.
  intros Ho. pose proof (contents_sorted a Ho) as Hs. unfold a_ok, view, contents, a_set in *. simpl. destruct (a_root a) as [t|].
  - destruct Ho as [Hst Hn]. destruct (p_set_facts key value (a_version a + 1) t Hst) as (_ & _ & _ & Hst' & Hl).
    split; [split; [done|by apply p_set_newest]|]. rewrite Hl. by apply ins_map.
  - split; [|done]. split; [|simpl; lia]. split; [by repeat constructor|done|done].
Qed.

Lemma a_remove_spec a key : a_ok a -> a_ok (a_remove a key) /\ view (a_remove a key) = delete key (view a).
Proof.
  intros Ho. unfold a_ok, view, contents, a_remove in *. simpl. destruct (a_root a) as [t|]; [|simpl; by rewrite delete_empty].
  destruct Ho as [Hst Hn]. pose proof Hst as [H1 H2 H3]. pose proof (p_remove_spec key (a_version a + 1) t H1 H2 H3) as Hr.
  pose proof (p_remove_facts key (a_version a + 1) t) as Hf. pose proof (p_remove_newest (a_version a + 1) key (a_version a + 1) t) as Hw.
  destruct (p_remove key (a_version a + 1) t) as [[[v [t'|]] nk]|]; cbn [removed] in Hr.
  - destruct (Hf _ _ _ Hst eq_refl) as (_ & _ & Hst'). destruct Hr as (_ & -> & _). split; [split; [done|by eapply Hw]|]. apply del_map.
  - destruct Hr as [-> _]. split; [done|]. simpl. rewrite delete_insert_eq. by rewrite delete_empty.
  - split; [done|]. rewrite delete_id; [done|]. rewrite <- assoc_view. by apply assoc_None.
Qed.

Definition map_pair (m : gmap bytes bytes) (p : KVPair) : gmap bytes bytes :=
  if kv_delete p then delete (kv_key p) m else <[kv_key p := default [] (kv_value p)]> m.

Lemma a_pair_spec a p : a_ok a -> a_ok (a_pair a p) /\ view (a_pair a p) = map_pair (view a) p.
Proof. unfold a_pair, map_pair. destruct (kv_delete p); [apply a_remove_spec|apply a_set_spec]. Qed.

Lemma a_apply_spec pairs : forall a a', a_ok a -> a_apply a pairs = Some a' ->
  a_ok a' /\ a_version a' = a_version a /\ a_init a' = a_init a /\ view a' = foldl map_pair (view a) pairs.
Proof.
  induction pairs as [|p pairs IH]; intros a a' Ho; simpl; [by intros [= <-]|]. case_bool_decide; [|done]. intros Ha.
  destruct (a_pair_spec a p Ho) as [Ho' Hv]. destruct (IH _ _ Ho' Ha) as (H1 & H2 & H3 & H4). rewrite <- Hv.
  split_and!; [done|rewrite H2|rewrite H3|done]; unfold a_pair; by destruct (kv_delete p).
Qed.

Section Trees.
Context (sha256 : bytes -> bytes).
Local Abbreviation rep := (rep sha256).

Definition a_hash (a : ATree) : bytes := match a_root a with Some t => tree_hash sha256 t | None => emptyHash sha256 end.

(** ** Trees in the heap *)
Record denotes (h : heap) (T : Tree) (a : ATree) (A : gset loc) : Prop := {
  de_version : t_version T = a_version a;
  de_init : t_initialVersion T = a_init a;
  de_cow : t_cowVersion T <= t_version T;
  de_ok : a_ok a;
  de_root : match t_root T, a_root a with Some l, Some t => rep h t l A | None, None => A = ∅ | _, _ => False end
}.

Lemma denotes_rep h T a A : denotes h T a A -> A = ∅ \/ exists t l, rep h t l A.
Proof. intros [_ _ _ _ Hr]. destruct (t_root T), (a_root a); try done; eauto. Qed.

Lemma denotes_evolves cow h A h' A' T a B :
  bounded h -> evolves cow h A h' A' -> denotes h T a B -> (forall l, l ∈ B -> l ∈ A -> ~ mine h cow l) -> denotes h' T a B.
Proof.
  intros Hb He [H1 H2 H3 H4 Hr] Hp. split; try done. destruct (t_root T), (a_root a); try done. by eapply rep_evolves.
Qed.
Lemma denotes_bounded h T a A x : bounded h -> denotes h T a A -> x ∈ A -> (x < h_next h)%positive.
Proof. intros Hb Hd Hx. destruct (denotes_rep _ _ _ _ Hd) as [->|(t & l & Hr)]; [set_solver|by eapply rep_bounded]. Qed.
Lemma denotes_rehashed h h' T a A : rehashed sha256 h h' -> denotes h T a A -> denotes h' T a A.
Proof. intros Hh [H1 H2 H3 H4 Hr]. split; try done. destruct (t_root T), (a_root a); try done. by apply Hh. Qed.

(** A depth that is enough for every tree of less than [2 ^ 63] keys. *)
Lemma depth_enough a t : a_ok a -> a_root a = Some t -> size a < 2 ^ 63 -> ht t < Z.of_nat max_depth /\ sz t < 2 ^ 63.
Proof.
  unfold a_ok, size, contents. intros Ho Ht. rewrite Ht in *. rewrite <- sz_leaves. intros Hs. split; [|done].
  pose proof (height_bound_63 t (proj1 Ho) Hs). change (Z.of_nat max_depth) with 257. lia.
Qed.
Lemma size_root a t : a_root a = Some t -> size a = sz t.
Proof. intros Ht. unfold size, contents. by rewrite Ht, sz_leaves. Qed.

(** What a write to a tree does. *)
Definition written (h : heap) (T : Tree) (A : gset loc) (a' : ATree) (h' : heap) (T' : Tree) : Prop :=
  exists A', denotes h' T' a' A' /\ evolves (t_cowVersion T) h A h' A' /\ t_cowVersion T' = t_cowVersion T.

Lemma written_trans h T A a1 h1 T1 a2 h2 T2 A1 :
  denotes h1 T1 a1 A1 -> evolves (t_cowVersion T) h A h1 A1 -> t_cowVersion T1 = t_cowVersion T -> written h1 T1 A1 a2 h2 T2 -> written h T A a2 h2 T2.
Proof. intros Hd He Hc (A2 & Hd2 & He2 & Hc2). exists A2. rewrite Hc in *. split_and!; [done|by eapply evolves_trans|done]. Qed.

Lemma write_version_room a T : room a -> t_version T = a_version a -> write_version T = a_version a + 1.
Proof. unfold room, write_version, MaxUint32. intros [_ Hv] ->. rewrite Z.mod_small; lia. Qed.

Lemma wp_Set h T a A key value :
  bounded h -> denotes h T a A -> room a -> wp (Set_ T key value) h (written h T A (a_set a key (default [] value))).
Proof.
  intros Hb Hd Hroom. pose proof (a_set_spec a key (default [] value) (de_ok _ _ _ _ Hd)) as [Ho _]. destruct Hd as [Ev Ei Hc Hok Hr].
  unfold Set_. rewrite (write_version_room a) by done. set (v := default [] value) in *.
  unfold a_set in Ho |- *. destruct (t_root T) as [l|], (a_root a) as [t|] eqn:Ea; try done.
  - destruct Hroom as [Hs _]. rewrite (size_root _ _ Ea) in Hs. destruct (depth_enough a t Hok Ea) as [Hh _]; [rewrite (size_root _ _ Ea); lia|].
    assert (Hst : search_tree t) by (unfold a_ok in Hok; rewrite Ea in Hok; apply Hok).
    eapply wp_then; [apply (wp_setRecursive sha256 key v _ _ t max_depth h l A); try done; lia|].
    intros h' [l' upd] [_ (A' & Hr' & He)]. apply wp_ret. exists A'. split_and!; [by split|done|done].
  - subst A. apply wp_bind. cbn [setRecursive max_depth]. apply wp_alloc, wp_ret, wp_ret. exists {[h_next h]}. split_and!; [|eapply evolves_weaken; [by apply (evolves_push _ h ∅)|set_solver..]|done].
    split; try done. apply rep_newLeaf.
Qed.

Lemma wp_Remove h T a A key : bounded h -> denotes h T a A -> room a -> wp (Remove T key) h (written h T A (a_remove a key)).
Proof.
  intros Hb Hd Hroom. pose proof (a_remove_spec a key (de_ok _ _ _ _ Hd)) as [Ho _]. destruct Hd as [Ev Ei Hc Hok Hr].
  unfold Remove. rewrite (write_version_room a) by done. unfold a_remove in Ho |- *. destruct (t_root T) as [l|], (a_root a) as [t|] eqn:Ea; try done.
  - destruct Hroom as [Hs _]. rewrite (size_root _ _ Ea) in Hs. destruct (depth_enough a t Hok Ea) as [Hh _]; [rewrite (size_root _ _ Ea); lia|].
    assert (Hst : search_tree t) by (unfold a_ok in Hok; rewrite Ea in Hok; apply Hok).
    eapply wp_then; [apply (wp_removeRecursive sha256 key _ _ t max_depth h l A); try done; lia|].
    intros h' r Hrm. destruct (p_remove key (a_version a + 1) t) as [[[v [t'|]] nk]|]; cbn [removal] in Hrm.
    + destruct Hrm as (l' & -> & A' & Hr' & He). apply wp_ret. exists A'. split_and!; [by split|done|done].
    + destruct Hrm as [-> ->]. apply wp_ret. exists ∅. split_and!; [by split| |done]. eapply evolves_weaken; [by apply (evolves_refl _ h A)|done|set_solver].
    + destruct Hrm as [-> ->]. apply wp_ret. exists A. split_and!; [by split|by apply evolves_refl|done].
  - subst A. apply wp_bind, wp_ret, wp_ret. exists ∅. split_and!; [by split|by apply evolves_refl|done].
Qed.

Lemma wp_ApplyChangeSet pairs : forall h T a A a',
  bounded h -> denotes h T a A -> a_apply a pairs = Some a' -> wp (ApplyChangeSet T pairs) h (written h T A a').
Proof.
  induction pairs as [|p pairs IH]; intros h T a A a' Hb Hd; cbn [a_apply ApplyChangeSet].
  - intros [= <-]. apply wp_ret. exists A. split_and!; [done|by apply evolves_refl|done].
  - case_bool_decide as Hroom; [|done]. intros Ha. assert (Hp : wp (if kv_delete p then Remove T (kv_key p) else Set_ T (kv_key p) (kv_value p)) h (written h T A (a_pair a p))).
    { unfold a_pair. destruct (kv_delete p); [by apply wp_Remove|by apply wp_Set]. }
    eapply wp_then; [exact Hp|]. intros h1 T1 (A1 & Hd1 & He1 & Hc1).
    eapply wp_mono; [|eapply IH; [apply He1|exact Hd1|exact Ha]]. intros h2 T2 Hw. by eapply written_trans.
Qed.

Lemma wp_RootHash h T a A :
  denotes h T a A -> size a < 2 ^ 63 -> wp (RootHash sha256 T) h (fun h' hash => hash = a_hash a /\ rehashed sha256 h h').
Proof.
  intros [Ev Ei Hc Hok Hr] Hs. unfold RootHash, a_hash. destruct (t_root T) as [l|], (a_root a) as [t|] eqn:Ea; try done.
  destruct (depth_enough a t Hok Ea Hs) as [Hh _]. by eapply wp_node_Hash.
Qed.

Lemma wp_GetWithIndex h T a A key :
  denotes h T a A -> size a < 2 ^ 32 -> wp (GetWithIndex T key) h (fun h' r => h' = h /\ r = (rank key (contents a), view a !! key)).
Proof.
  intros [Ev Ei Hc Hok Hr] Hs. unfold GetWithIndex, view. rewrite <- assoc_view. unfold contents. destruct (t_root T) as [l|], (a_root a) as [t|] eqn:Ea; try done.
  pose proof (size_root _ _ Ea) as Es. destruct (depth_enough a t Hok Ea) as [Hh _]; [lia|].
  assert (Hst : search_tree t) by (unfold a_ok in Hok; rewrite Ea in Hok; apply Hok).
  eapply wp_then; [eapply wp_node_Get; [done|done|lia|done]|]. by intros h' r [-> ->].
Qed.

Lemma wp_GetByIndex h T a A index :
  denotes h T a A -> size a < 2 ^ 32 ->
  wp (GetByIndex T index) h (fun h' r => h' = h /\
    r = match (if bool_decide (0 <= index) then contents a !! Z.to_nat index else None) with Some (k, v) => (Some k, Some v) | None => (None, None) end).
Proof.
  intros [Ev Ei Hc Hok Hr] Hs. unfold GetByIndex. unfold contents. destruct (t_root T) as [l|], (a_root a) as [t|] eqn:Ea; try done.
  2: { apply wp_ret. split; [done|]. by case_bool_decide. }
  pose proof (size_root _ _ Ea) as Es. destruct (depth_enough a t Hok Ea) as [Hh _]; [lia|].
  destruct (bool_decide_reflect (index < 0)); [rewrite (bool_decide_false (0 <= index)) by lia; by apply wp_ret|]. rewrite (bool_decide_true (0 <= index)) by lia. cbn [orb].
  case_bool_decide as Hm.
  - apply wp_ret. split; [done|]. rewrite lookup_ge_None_2; [done|]. rewrite sz_leaves in Es. unfold MaxUint32 in Hm. lia.
  - eapply wp_node_GetByIndex; [done|lia|done|lia].
Qed.

(** A pair adds at most one key. *)
Lemma a_pair_size a p : a_ok a -> size (a_pair a p) <= size a + 1.
Proof.
  intros Ho. unfold a_pair. destruct (kv_delete p).
  - unfold a_remove, size, contents, a_ok in *. simpl. destruct (a_root a) as [t|]; [|simpl; lia]. pose proof (p_remove_facts (kv_key p) (a_version a + 1) t) as Hf.
    destruct (p_remove (kv_key p) (a_version a + 1) t) as [[[v [t'|]] nk]|]; [|simpl; lia|lia]. destruct (Hf _ _ _ (proj1 Ho) eq_refl) as (_ & Hs & _). rewrite !sz_leaves in Hs. lia.
  - unfold a_set, size, contents, a_ok in *. simpl. destruct (a_root a) as [t|]; [|simpl; lia].
    destruct (p_set_facts (kv_key p) (default [] (kv_value p)) (a_version a + 1) t (proj1 Ho)) as (_ & Hs & _). rewrite !sz_leaves in Hs. lia.
Qed.
Lemma a_apply_room pairs : forall a, a_ok a -> 0 <= a_version a < MaxUint32 -> size a + Z.of_nat (length pairs) < 2 ^ 32 -> is_Some (a_apply a pairs).
Proof.
  induction pairs as [|p pairs IH]; intros a Ho Hv Hs; cbn [a_apply]; [by eexists|]. simpl in Hs. rewrite bool_decide_true by (split; [lia|done]).
  pose proof (a_pair_size a p Ho). apply IH; [by apply a_pair_spec| |lia]. unfold a_pair. by destruct (kv_delete p).
Qed.

(** C17. Writes to a tree: they do not panic, they are those of a map, the tree stays a balanced
    search tree in the heap, and only nodes newer than the copy-on-write version change. *)
Theorem ApplyChangeSet_writes h T a A pairs :
  bounded h -> denotes h T a A -> 0 <= a_version a < MaxUint32 -> size a + Z.of_nat (length pairs) < 2 ^ 32 ->
  exists h' T' a' A', ApplyChangeSet T pairs h = Some (h', T') /\ denotes h' T' a' A' /\ view a' = foldl map_pair (view a) pairs /\
    (forall l t, t_root T' = Some l -> a_root a' = Some t -> exists n, h_nodes h' !! l = Some n /\ nd_height n = ht t /\ nd_size n = Z.of_nat (length (leaves t)) /\ (size a' < 2 ^ 32 -> nd_height n <= 45)) /\
    (forall l, (l < h_next h)%positive -> (l ∈ A -> ~ mine h (t_cowVersion T) l) -> h_nodes h' !! l = h_nodes h !! l).
Proof.
  intros Hb Hd Hv Hs. destruct (a_apply_room pairs a (de_ok _ _ _ _ Hd) Hv Hs) as [a' Ha].
  destruct (wp_run _ _ _ (wp_ApplyChangeSet pairs h T a A a' Hb Hd Ha)) as (h' & T' & Hrun & A' & Hd' & He & Hc). exists h', T', a', A'.
  destruct (a_apply_spec pairs a a' (de_ok _ _ _ _ Hd) Ha) as (Hok & _ & _ & Hview). split_and!; [done|done|done| |].
  - intros l t Hl Ht. destruct Hd' as [_ _ _ _ Hr]. rewrite Hl, Ht in Hr. destruct (rep_node _ _ _ _ _ Hr) as (n & Hn & Eh & Es & _). exists n. rewrite Es, <- sz_leaves.
    split_and!; [done|done|done|]. rewrite Eh, (size_root _ _ Ht). unfold a_ok in Hok. rewrite Ht in Hok. apply height_bound, Hok.
  - apply He.
Qed.
End Trees.

(** The iterator of a tree ([iterator.go]): it visits the pairs of a range in order, either
    way, skips the subtrees outside of it, and ends. *)
Section Iterators.
Context (sha256 : bytes -> bytes) (start end_ : option bytes) (asc : bool).
Local Abbreviation rep := (rep sha256).

(** What a subtree, and a stack of them, has in the range. *)
Definition in_range (l : list (bytes * bytes)) : list (bytes * bytes) := filter (fun kv => in_domain start end_ kv.1 = true) l.
Definition pick (t : tree) : list (bytes * bytes) := if asc then in_range (leaves t) else reverse (in_range (leaves t)).
Definition out (ts : list tree) : list (bytes * bytes) := concat (pick <$> ts).
Definition weight (ts : list tree) : Z := foldr (fun t acc => 2 * sz t - 1 + acc) 0 ts.
Definition stacked (h : heap) (l : loc) (t : tree) : Prop := search_tree t /\ exists A, rep h t l A.

Lemma in_range_none l : (forall k, k ∈ l.*1 -> in_domain start end_ k = false) -> in_range l = [].
Proof.
  unfold in_range. induction l as [|[k v] l IH]; intros H; [done|]. rewrite filter_cons_False; [apply IH; intros k' Hk'; apply H; by right|].
  simpl. rewrite (H k); [done|left].
Qed.

Definition after_start (key : bytes) : bool := bool_decide (start = None) || bool_decide (bytes_compare (default [] start) key = Lt).

Lemma leaf_test key : (after_start key || bool_decide (bytes_compare (default [] start) key = Eq)) && before_end end_ key = in_domain start end_ key.
Proof.
  unfold after_start, in_domain, before_end. f_equal. destruct start as [s|]; simpl.
  - apply Bool.eq_iff_eq_true. rewrite orb_true_iff, !bool_decide_eq_true. unfold bytes_le. destruct (bytes_compare s key); naive_solver.
  - symmetry. apply bool_decide_eq_true. by destruct key.
Qed.

(** A side of a branch that is not visited has nothing in the range. *)
Lemma skip_left k ver t1 t2 : search_tree (Br k ver t1 t2) -> after_start k = false -> in_range (leaves t1) = [].
Proof.
  intros [Ho Hl _] Ha. apply in_range_none. intros x Hx. destruct (label_splits _ _ _ _ Ho Hl) as [H1 _]. specialize (H1 x Hx).
  unfold after_start in Ha. apply orb_false_iff in Ha as [Hs Ha]. apply bool_decide_eq_false in Ha. unfold in_domain.
  rewrite bool_decide_false; [done|]. intros Hle. apply Ha. by eapply bytes_le_lt_trans.
Qed.
Lemma skip_right k ver t1 t2 : search_tree (Br k ver t1 t2) -> before_end end_ k = false -> in_range (leaves t2) = [].
Proof.
  intros [Ho Hl _] Ha. apply in_range_none. intros x Hx. destruct (label_splits _ _ _ _ Ho Hl) as [_ H2]. specialize (H2 x Hx).
  unfold in_domain. unfold before_end in Ha. destruct end_ as [e|]; [|done]. apply bool_decide_eq_false in Ha.
  rewrite (bool_decide_false (x <b e)); [by rewrite andb_false_r|]. intros Hlt. apply Ha. by eapply bytes_le_lt_trans.
Qed.

Lemma in_range_app l1 l2 : in_range (l1 ++ l2) = in_range l1 ++ in_range l2.
Proof. apply filter_app. Qed.

Lemma pick_leaf k v ver : pick (Lf k v ver) = if in_domain start end_ k then [(k, v)] else [].
Proof.
  unfold pick, in_range. cbn [leaves]. rewrite filter_cons, filter_nil. cbn [fst].
  destruct (in_domain start end_ k); [rewrite decide_True by done|rewrite decide_False by done]; by destruct asc.
Qed.

(** The iterator keeps its bounds. *)
Definition ours (it : Iterator) : Prop := it_start it = start /\ it_end it = end_ /\ it_ascending it = asc.

Definition advanced (h : heap) (it : Iterator) (l : list (bytes * bytes)) (h' : heap) (it' : Iterator) : Prop :=
  h' = h /\ ours it' /\
  match l with
  | [] => it_valid it' = false
  | (k, v) :: rest => it_key it' = Some k /\ it_value it' = Some v /\ it_valid it' = it_valid it /\ exists ts', Forall2 (stacked h) (it_stack it') ts' /\ out ts' = rest
  end.

Lemma wp_iter_loop h : forall fuel it ts,
  ours it -> Forall2 (stacked h) (it_stack it) ts -> weight ts < Z.of_nat fuel -> wp (iter_loop fuel it) h (advanced h it (out ts)).
Proof.
  induction fuel as [|fuel IH]; intros it ts Hours Hst Hf.
  { exfalso. assert (0 <= weight ts); [|lia]. clear. induction ts as [|t ts IH]; simpl; [lia|]. pose proof (sz_pos t). lia. }
  cbn [iter_loop]. destruct Hours as (Es & Ee & Ea). destruct Hst as [|l t stack ts [Hs [A Hr]] Hst]; [by apply wp_ret|]. simpl in Hf. unfold out. rewrite fmap_cons. cbn [concat].
  assert (Hpop : forall ts', Forall2 (stacked h) stack ts -> weight (ts' ++ ts) = weight ts' + weight ts).
  { intros ts' _. induction ts' as [|t' ts' IH']; simpl; [lia|]. rewrite IH'. lia. }
  inversion Hr as [? k v ver hash Hn Hh|? k ver t1 t2 l1 l2 A1 A2 hash Hn Hh R1 R2 Hd Hl]; subst t.
  - subst. apply (wp_load _ _ _ _ _ Hn). change (IsLeaf _) with true. cbn [nd_key nd_value]. cbv zeta iota. rewrite Es, Ee. fold (after_start k). rewrite leaf_test.
    rewrite pick_leaf. destruct (in_domain start end_ k).
    + apply wp_ret. split_and!; [done|done|]. cbn. split_and!; [done|done|done|]. by exists ts.
    + eapply wp_mono; [|apply (IH (with_stack it stack) ts); [done|done|simpl in Hf; lia]]. intros h' it' Had. exact Had.
  - apply (wp_load _ _ _ _ _ Hn). rewrite IsLeaf_Br. cbn [nd_key nd_left nd_right]. cbv zeta. rewrite Es, Ee, Ea. fold (after_start k). simpl in Hf.
    apply search_tree_Br in Hs as Hs'. destruct Hs' as (Hs1 & Hs2 & _). pose proof (sz_pos t1). pose proof (sz_pos t2).
    assert (S1 : stacked h l1 t1) by by split; [|exists A1]. assert (S2 : stacked h l2 t2) by by split; [|exists A2].
    set (tl := if after_start k then [t1] else []). set (tr := if before_end end_ k then [t2] else []).
    assert (Hpick : pick (Br k ver t1 t2) ++ concat (pick <$> ts) = out ((if asc then tl ++ tr else tr ++ tl) ++ ts)).
    { unfold out. rewrite fmap_app, concat_app. f_equal. unfold pick at 1. cbn [leaves]. rewrite in_range_app.
      assert (El : concat (pick <$> tl) = pick t1). { unfold tl. destruct (after_start k) eqn:Hk; simpl; [by rewrite app_nil_r|]. unfold pick. rewrite (skip_left _ _ _ _ Hs Hk). by destruct asc. }
      assert (Er : concat (pick <$> tr) = pick t2). { unfold tr. destruct (before_end end_ k) eqn:Hk; simpl; [by rewrite app_nil_r|]. unfold pick. rewrite (skip_right _ _ _ _ Hs Hk). by destruct asc. }
      transitivity (if asc then pick t1 ++ pick t2 else pick t2 ++ pick t1); [unfold pick; destruct asc; by rewrite ?reverse_app|].
      destruct asc; by rewrite fmap_app, concat_app, El, Er. }
    rewrite Hpick. apply (wp_then _ _ _ (fun h' x => h' = h /\ Forall2 (stacked h) x tl)).
    { unfold tl. destruct (after_start k); [apply wp_deref|]; apply wp_ret; (split; [done|]); by repeat apply Forall2_cons_2. }
    intros h' xl [-> Hxl]. apply (wp_then _ _ _ (fun h' x => h' = h /\ Forall2 (stacked h) x tr)).
    { unfold tr. destruct (before_end end_ k); [apply wp_deref|]; apply wp_ret; (split; [done|]); by repeat apply Forall2_cons_2. }
    intros h' xr [-> Hxr]. eapply wp_mono; [|apply (IH _ ((if asc then tl ++ tr else tr ++ tl) ++ ts)); [done| |]]; [by intros h' it' Had| |].
    + cbn [it_stack with_stack]. apply Forall2_app; [|done]. destruct asc; by apply Forall2_app.
    + rewrite Hpop by done. unfold tl, tr. destruct asc, (after_start k), (before_end end_ k); simpl; lia.
Qed.

Lemma iter_fuel_enough h stack ts : Forall2 (stacked h) stack ts -> weight ts < Z.of_nat (iter_fuel h stack).
Proof.
  unfold iter_fuel. induction 1 as [|l t stack ts [_ [A Hr]] Hst IH]; simpl; [lia|]. destruct (rep_node _ _ _ _ _ Hr) as (n & Hn & _ & Es & _).
  rewrite Hn, Es. pose proof (sz_pos t). lia.
Qed.

Lemma wp_iter_Next h it ts : ours it -> Forall2 (stacked h) (it_stack it) ts -> wp (iter_Next it) h (advanced h it (out ts)).
Proof. intros Ho Hst. unfold iter_Next. exact (wp_iter_loop h _ it ts Ho Hst (iter_fuel_enough h _ _ Hst)). Qed.

Lemma wp_iter_drain h : forall fuel it0 it l, it_valid it0 = true -> advanced h it0 l h it -> (length l < fuel)%nat ->
  wp (iter_drain fuel it) h (fun h' r => h' = h /\ r = l).
Proof.
  induction fuel as [|fuel IH]; intros it0 it l H0 Had Hf; [lia|]. cbn [iter_drain]. destruct l as [|[k v] l].
  - destruct Had as (_ & _ & ->). by apply wp_ret.
  - destruct Had as (_ & Ho & Hk & Hv & Hval & ts & Hst & <-). rewrite Hval, H0. eapply wp_then; [by apply wp_iter_Next|].
    intros h' it' Had. pose proof (proj1 Had) as ->. eapply wp_then; [apply (IH it it' (out ts)); [congruence|done|simpl in Hf; lia]|].
    intros h' r [-> ->]. apply wp_ret. by rewrite Hk, Hv.
Qed.

(** An iterator read to its end gives the pairs of the range, in order. *)
Lemma wp_iterate h T a A fuel :
  denotes sha256 h T a A -> size a < Z.of_nat fuel ->
  wp (it ← NewIterator T start end_ asc; iter_drain fuel it) h (fun h' l => h' = h /\ l = entries_of asc (view a) start end_).
Proof.
  intros Hd Hf. assert (Hst : exists ts, Forall2 (stacked h) (match t_root T with Some l => [l] | None => [] end) ts /\ out ts = if asc then in_range (contents a) else reverse (in_range (contents a))).
  { destruct Hd as [_ _ _ Hok Hr]. unfold a_ok, contents in *. destruct (t_root T) as [l|], (a_root a) as [t|]; try done.
    - exists [t]. split; [|unfold out; simpl; by rewrite app_nil_r]. constructor; [|done]. split; [apply Hok|by exists A].
    - exists []. split; [done|]. by destruct asc. }
  destruct Hst as (ts & Hst & Hout). eapply wp_then; [apply wp_iter_Next; [done|exact Hst]|]. intros h' it Had. pose proof (proj1 Had) as ->.
  pose proof (contents_range a start end_ (de_ok _ _ _ _ _ Hd)) as Hrange. fold (in_range (contents a)) in Hrange.
  rewrite Hrange in Hout. eapply wp_mono; [|eapply wp_iter_drain; [|exact Had|]]; [|done|].
  - intros h' l [-> ->]. split; [done|exact Hout].
  - rewrite Hout. unfold size in Hf. rewrite <- Hrange. destruct asc; rewrite ?length_reverse; unfold in_range; pose proof (length_filter (fun kv : bytes * bytes => in_domain start end_ kv.1 = true) (contents a)); lia.
Qed.
End Iterators.

(** Trees that share a heap: each is in it, and none may write in place to a node of
    another.  Writes, saved versions, hashes and copies keep it so. *)
(** A tree, its value and the locations of its nodes. *)
Abbreviation cell := (Tree * ATree * gset loc)%type.

(** A tree that can save a version. *)
Definition savable (a : ATree) : Prop := size a < 2 ^ 32 /\ 0 <= a_version a < MaxUint32.
#[export] Instance savable_dec a : Decision (savable a).
Proof. unfold savable. apply _. Defined.

Section Worlds.
Context (sha256 : bytes -> bytes).
Local Abbreviation rep := (rep sha256).

Record world (h : heap) (cells : list cell) : Prop := {
  w_bounded : bounded h;
  w_denotes : forall i T a A, cells !! i = Some (T, a, A) -> denotes sha256 h T a A;
  w_apart : forall i j Ti ai Ai Tj aj Aj l, i <> j -> cells !! i = Some (Ti, ai, Ai) -> cells !! j = Some (Tj, aj, Aj) ->
    l ∈ Ai -> l ∈ Aj -> ~ mine h (t_cowVersion Ti) l
}.
Lemma world_write h cells i T a A h' T' a' A' :
  world h cells -> cells !! i = Some (T, a, A) -> evolves (t_cowVersion T) h A h' A' -> denotes sha256 h' T' a' A' -> t_cowVersion T' = t_cowVersion T ->
  world h' (<[i := (T', a', A')]> cells).
Proof.
  intros [Hb Hd Hp] Hi He Hd' Hc.
  assert (Hprot : forall j Tj aj Aj l, i <> j -> cells !! j = Some (Tj, aj, Aj) -> l ∈ Aj -> l ∈ A -> ~ mine h (t_cowVersion T) l).
  { intros j Tj aj Aj l Hne Hj H1 H2. by eapply (Hp i j). }
  assert (Hold : forall j Tj aj Aj l, i <> j -> cells !! j = Some (Tj, aj, Aj) -> l ∈ Aj -> l ∈ A' -> l ∈ A /\ h_nodes h' !! l = h_nodes h !! l).
  { intros j Tj aj Aj l Hne Hj H1 H2. pose proof (denotes_bounded _ _ _ _ _ _ Hb (Hd _ _ _ _ Hj) H1).
    destruct (ev_new _ _ _ _ _ He _ H2) as [Ha|]; [|lia]. split; [done|]. apply (ev_same _ _ _ _ _ He); [done|eauto]. }
  split; [apply He| |].
  - intros j Tj aj Aj [(<- & [= <- <- <-] & _)|[Hne Hj]]%list_lookup_insert_Some; [done|]. eapply denotes_evolves; [done|done|by eapply Hd|eauto].
  - intros j k Tj aj Aj Tk ak Ak l Hjk [(<- & [= <- <- <-] & _)|[Hj1 Hj]]%list_lookup_insert_Some [(<- & [= <- <- <-] & _)|[Hk1 Hk]]%list_lookup_insert_Some Hl1 Hl2; [done| | |].
    + destruct (Hold _ _ _ _ _ Hjk Hk Hl2 Hl1) as [Hl Heq]. intros (n & Hn & Hv). rewrite Hc in Hv. eapply Hprot; [exact Hjk|done|exact Hl2|done|]. exists n. by rewrite <- Heq.
    + destruct (Hold _ _ _ _ _ Hj1 Hj Hl1 Hl2) as [Hl Heq]. intros (n & Hn & Hv). eapply (Hp j i); [done|done|done|exact Hl1|exact Hl|]. exists n. by rewrite <- Heq.
    + intros (n & Hn & Hv). rewrite (ev_same _ _ _ _ _ He) in Hn; [|by eapply denotes_bounded; [| |exact Hl1]; eauto|eauto].
      eapply (Hp j k); eauto. by exists n.
Qed.

Lemma world_rehash h cells h' : world h cells -> rehashed sha256 h h' -> world h' cells.
Proof.
  intros [Hb Hd Hp] Hr. assert (Hsame : forall l n, h_nodes h' !! l = Some n -> exists n0, h_nodes h !! l = Some n0 /\ nd_version n0 = nd_version n).
  { intros l n Hn. pose proof (rh_same _ _ _ Hr l) as Hs. rewrite Hn in Hs. destruct (h_nodes h !! l) as [n0|]; [|done]. exists n0. split; [done|].
    assert (E : set_hash None n = set_hash None n0) by (simpl in Hs; congruence). by apply (f_equal nd_version) in E. }
  split.
  - intros l n Hn. destruct (Hsame _ _ Hn) as (n0 & H0 & _). rewrite (rh_next _ _ _ Hr). by eapply Hb.
  - intros i T a A Hi. eapply denotes_rehashed; [done|by eapply Hd].
  - intros i j Ti ai Ai Tj aj Aj l Hne Hi Hj H1 H2 (n & Hn & Hv). destruct (Hsame _ _ Hn) as (n0 & H0 & E). eapply (Hp i j); eauto. exists n0. split; [done|lia].
Qed.

Lemma rep_newest h t l A n x : rep h t l A -> newest n t -> x ∈ A -> ~ mine h n x.
Proof.
  induction 1 as [l k v ver hash Hn Hh|l k ver t1 t2 l1 l2 A1 A2 hash Hn Hh H1 IH1 H2 IH2 Hd Hl]; simpl.
  - intros Hv ->%elem_of_singleton (m & Hm & Hc). rewrite Hn in Hm. injection Hm as <-. simpl in Hc. lia.
  - intros (Hv & N1 & N2) Hx (m & Hm & Hc). apply elem_of_union in Hx as [[->%elem_of_singleton|Hx]%elem_of_union|Hx].
    + rewrite Hn in Hm. injection Hm as <-. simpl in Hc. lia.
    + eapply IH1; [done|done|by exists m].
    + eapply IH2; [done|done|by exists m].
Qed.

Lemma nextVersion_grows v init : 0 <= v < MaxUint32 -> v < nextVersionU32 v init.
Proof. unfold nextVersionU32, MaxUint32. intros Hv. destruct (bool_decide_reflect (v = 0)), (bool_decide_reflect (1 < init)); simpl; try (rewrite Z.mod_small; lia). lia. Qed.

Lemma newest_mono n m t : n <= m -> newest n t -> newest m t.
Proof. intros Hnm. induction t; simpl; [lia|]. intros (? & ? & ?). split_and!; [lia|auto|auto]. Qed.

Lemma denotes_saved h T a A :
  denotes sha256 h T a A -> 0 <= a_version a < MaxUint32 ->
  denotes sha256 h (mkTree (nextVersionU32 (t_version T) (t_initialVersion T)) (t_root T) (t_initialVersion T) (t_cowVersion T)) (a_save a) A.
Proof.
  intros [Ev Ei Hc Hok Hr] Hv. pose proof (nextVersion_grows (a_version a) (a_init a) Hv). split; simpl; [by rewrite Ev, Ei|done|rewrite Ev, Ei; lia| |done].
  unfold a_ok, a_save in *. simpl. destruct (a_root a); [|done]. destruct Hok as [Hst Hn]. split; [done|]. eapply newest_mono; [|done]. lia.
Qed.

Lemma world_same h cells i T a A T' a' :
  world h cells -> cells !! i = Some (T, a, A) -> denotes sha256 h T' a' A -> t_cowVersion T' = t_cowVersion T -> world h (<[i := (T', a', A)]> cells).
Proof. intros Hw Hi Hd Hc. eapply world_write; [done|done|apply evolves_refl, Hw|done|done]. Qed.

(** A copy of a tree whose nodes are all of saved versions shares them, and neither the
    tree nor the copy writes to them. *)
Lemma world_copy h cells i T a A :
  world h cells -> cells !! i = Some (T, a, A) -> clean a -> world h (<[i := ((Copy T).1, a, A)]> cells ++ [((Copy T).2, a, A)]).
Proof.
  intros Hw Hi Hcl. pose proof (w_denotes _ _ Hw _ _ _ _ Hi) as Hd.
  assert (Hd' : denotes sha256 h (Copy T).1 a A). { destruct Hd as [Ev Ei Hc Hok Hr]. unfold Copy. destruct (t_root T) as [l|] eqn:Et; simpl; split; simpl; rewrite ?Et; try done. }
  assert (Hm : forall x, x ∈ A -> ~ mine h (t_cowVersion (Copy T).1) x).
  { intros x Hx. destruct Hd as [Ev Ei Hc Hok Hr]. unfold clean in Hcl. unfold Copy. destruct (t_root T) as [l|] eqn:Et, (a_root a) as [t|]; try done; [|set_solver].
    simpl. rewrite Ev. by eapply rep_newest. }
  assert (Hl : forall j T' a' A', (<[i := ((Copy T).1, a, A)]> cells ++ [((Copy T).2, a, A)]) !! j = Some (T', a', A') ->
    (T' = (Copy T).1 /\ a' = a /\ A' = A) \/ (i <> j /\ cells !! j = Some (T', a', A'))).
  { intros j T' a' A' [Hj|[_ Hj]]%lookup_app_Some.
    - apply list_lookup_insert_Some in Hj as [(_ & [= <- <- <-] & _)|Hj]; auto.
    - apply list_lookup_singleton_Some in Hj as [_ [= <- <- <-]]. by left. }
  split; [apply Hw| |].
  - intros j T' a' A' [(-> & -> & ->)|[_ Hj]]%Hl; [done|by eapply w_denotes].
  - intros j k Tj aj Aj Tk ak Ak x Hjk [(-> & -> & ->)|[Hj1 Hj]]%Hl Hk Hx1 Hx2; [by apply Hm|]. apply Hl in Hk as [(-> & -> & ->)|[Hk1 Hk]].
    + eapply (w_apart _ _ Hw j i); eauto.
    + eapply (w_apart _ _ Hw j k); eauto.
Qed.

Lemma wp_SaveVersion h T a A updateHash :
  denotes sha256 h T a A -> savable a ->
  wp (SaveVersion sha256 T updateHash) h (fun h' r => rehashed sha256 h h' /\ exists T',
    r = inl (T', (if updateHash then Some (a_hash sha256 a) else None, nextVersionU32 (a_version a) (a_init a))) /\
    denotes sha256 h' T' (a_save a) A /\ t_cowVersion T' = t_cowVersion T).
Proof.
  intros Hd [Hs Hv]. unfold SaveVersion. rewrite (de_version _ _ _ _ _ Hd), (de_init _ _ _ _ _ Hd), bool_decide_false by lia.
  apply (wp_then _ _ _ (fun h' hash => hash = (if updateHash then Some (a_hash sha256 a) else None) /\ rehashed sha256 h h')).
  { destruct updateHash; [|by apply wp_ret]. eapply wp_then; [apply (wp_RootHash sha256 h T a A Hd); lia|]. intros h' hash [-> Hr]. by apply wp_ret. }
  intros h' hash [-> Hr]. apply wp_ret. split; [done|]. eexists. split; [done|]. split; [|done].
  pose proof (denotes_saved h' T a A (denotes_rehashed _ _ _ _ _ _ Hr Hd) Hv) as Hd'. by rewrite (de_version _ _ _ _ _ Hd), (de_init _ _ _ _ _ Hd) in Hd'.
Qed.

End Worlds.
