(* ===== verification/AVLProof.v ===== *)
(** The proofs a tree gives ([proof.go], [GetProof] of [tree.go]): what a proof of existence
    computes to is the root hash, and a proof of absence has the proofs of the two
    neighbours of the key.  The verifier is the library [ics23]; what it computes from a
    leaf and from an inner step is documented, and stated here as a class. *)
From stdpp Require Import base gmap sets list sorting.
From Stdlib Require Import ZArith Lia.
From S2P Require Import Prelude KVStore MergeIter AVL AVLPure AVLHeap AVLOps AVLTree.
Local Open Scope Z_scope.

(** [ExistenceProof.Calculate] of [ics23]: the leaf operation hashes the prefix, the key and
    the hashed value with their lengths; an inner operation hashes the child between
    prefix and suffix.  Empty keys and values are refused ([None]). *)
Class ICS23 (sha256 : bytes -> bytes) := {
  ics_Calculate : ExistenceProof -> option bytes;
  ics_Calculate_leaf : forall key value prefix, key <> [] -> value <> [] ->
    ics_Calculate (mkExist key (Some value) (mkLeafOp HashOp_SHA256 HashOp_SHA256 LengthOp_VAR_PROTO prefix) []) =
    Some (sha256 (prefix ++ EncodeBytes key ++ EncodeBytes (sha256 value)));
  ics_Calculate_empty : forall key value leaf, key = [] \/ value = [] -> ics_Calculate (mkExist key (Some value) leaf []) = None;
  ics_Calculate_step : forall key value leaf path prefix suffix,
    ics_Calculate (mkExist key value leaf (path ++ [mkInnerOp HashOp_SHA256 prefix suffix])) =
    (fun child => sha256 (prefix ++ child ++ suffix)) <$> ics_Calculate (mkExist key value leaf path)
}.

Section Proofs.
Context (sha256 : bytes -> bytes) `{!Sha256 sha256} `{!ICS23 sha256}.
Local Abbreviation rep := (rep sha256).
Local Abbreviation tree_hash := (tree_hash sha256).

Lemma tree_hash_length t : length (tree_hash t) = 32%nat.
Proof. destruct t; cbn [AVLHeap.tree_hash]; apply sha256_length. Qed.
Lemma EncodeBytes_hash t : EncodeBytes (tree_hash t) = lengthByte :: tree_hash t.
Proof. unfold EncodeBytes. by rewrite tree_hash_length. Qed.

(** The steps of a path, on a hash. *)
Definition step_hash (p : ProofInnerNode) (child : bytes) : bytes :=
  let op := convertInnerOp p in sha256 (io_Prefix op ++ child ++ io_Suffix op).

Lemma step_left k ver t1 t2 :
  step_hash (mkInner (ht (Br k ver t1 t2)) (sz (Br k ver t1 t2)) ver None (Some (tree_hash t2))) (tree_hash t1) = tree_hash (Br k ver t1 t2).
Proof.
  unfold step_hash, convertInnerOp. cbn [pn_Left pn_Right pn_Height pn_Size pn_Version default from_option length]. rewrite bool_decide_false by lia.
  cbn [io_Prefix io_Suffix]. cbn [AVLHeap.tree_hash vers]. rewrite !EncodeBytes_hash, <- !app_assoc. done.
Qed.
Lemma step_right k ver t1 t2 :
  step_hash (mkInner (ht (Br k ver t1 t2)) (sz (Br k ver t1 t2)) ver (Some (tree_hash t1)) None) (tree_hash t2) = tree_hash (Br k ver t1 t2).
Proof.
  unfold step_hash, convertInnerOp. cbn [pn_Left pn_Right pn_Height pn_Size pn_Version default from_option id]. rewrite tree_hash_length, bool_decide_true by lia.
  cbn [io_Prefix io_Suffix]. cbn [AVLHeap.tree_hash vers]. rewrite !EncodeBytes_hash, <- !app_assoc, app_nil_r. done.
Qed.

(** The leaf where the search for a key ends. *)
Fixpoint end_leaf (key : bytes) (t : tree) : bytes * bytes * Z :=
  match t with Lf k v ver => (k, v, ver) | Br k _ l r => if bool_decide (key <b k) then end_leaf key l else end_leaf key r end.

Lemma end_leaf_assoc key t : search_tree t -> forall v, assoc key (leaves t) = Some v -> exists ver, end_leaf key t = (key, v, ver).
Proof.
  induction t as [k v0 ver|k ver t1 IH1 t2 IH2]; intros Hst v; simpl.
  - case_bool_decide; [|done]. intros [= ->]. subst. eauto.
  - destruct (branch_lookup key _ _ _ _ Hst) as [B1 B2]. apply search_tree_Br in Hst as (H1 & H2 & _). rewrite assoc_app. case_bool_decide as Hk.
    + destruct (B1 Hk) as [-> _]. destruct (assoc key (leaves t1)) eqn:E; [|done]. intros [= ->]. by apply IH1.
    + destruct (B2 Hk) as [-> _]. by apply IH2.
Qed.

Theorem wp_pathToLeaf key t : forall fuel h l A,
  rep h t l A -> search_tree t -> sz t < 2 ^ 63 -> ht t < Z.of_nat fuel ->
  wp (pathToLeaf sha256 fuel l key) h (fun h' '(path, leaf, found) =>
    let '(k, v, ver) := end_leaf key t in
    rehashed sha256 h h' /\ found = bool_decide (k = key) /\ foldr step_hash (tree_hash (Lf k v ver)) path = tree_hash t /\
    exists hash, h_nodes h' !! leaf = Some (mkNode 0 ver 1 k (Some v) None None hash)).
Proof.
  induction t as [k v ver|k ver t1 IH1 t2 IH2]; intros fuel h l A Hr Hst Hs Hf.
  - destruct fuel as [|fuel]; [simpl in *; lia|]. inversion Hr as [? ? ? ? hash Hn Hh|]; subst. cbn [pathToLeaf end_leaf].
    apply (wp_load _ _ _ _ _ Hn). cbn [nd_height nd_key]. rewrite bool_decide_true by done. apply wp_ret. split_and!; [apply rehashed_refl|done|done|by exists hash].
  - pose proof (height_bound_63 _ Hst Hs) as Hht. apply search_tree_Br in Hst as (Hst1 & Hst2 & _). pose proof (sz_pos t1). pose proof (sz_pos t2).
    pose proof (ht_Br k ver t1 t2). pose proof (ht_nonneg t1). pose proof (ht_nonneg t2). destruct fuel as [|fuel]; [lia|].
    inversion Hr as [|? ? ? ? ? l1 l2 A1 A2 hash Hn Hh R1 R2 Hd Hl]; subst. cbn [pathToLeaf end_leaf]. apply (wp_load _ _ _ _ _ Hn).
    cbn [nd_height nd_key nd_left nd_right nd_size nd_version]. rewrite (bool_decide_false (_ = 0)), (bool_decide_false (127 < _)) by lia. simpl in Hs, Hf, Hht.
    assert (Hd1 : ht t1 < Z.of_nat max_depth /\ ht t2 < Z.of_nat max_depth) by (change (Z.of_nat max_depth) with 257; lia). destruct Hd1 as [Hd1 Hd2].
    case_bool_decide as Hk; apply wp_deref.
    + eapply wp_then; [by eapply (wp_node_Hash _ t2)|]. intros h1 x [-> Hr1]. apply wp_deref.
      eapply wp_then; [apply (IH1 fuel h1 l1 A1); [by apply Hr1|done|lia|lia]|]. intros h2 [[path leaf] found]. destruct (end_leaf key t1) as [[k' v'] ver'].
      intros (Hr2 & Hfound & Hpath & Hleaf). apply wp_ret. split_and!; [by eapply rehashed_trans|done| |done]. cbn [foldr]. rewrite Hpath. apply step_left.
    + eapply wp_then; [by eapply (wp_node_Hash _ t1)|]. intros h1 x [-> Hr1]. apply wp_deref.
      eapply wp_then; [apply (IH2 fuel h1 l2 A2); [by apply Hr1|done|lia|lia]|]. intros h2 [[path leaf] found]. destruct (end_leaf key t2) as [[k' v'] ver'].
      intros (Hr2 & Hfound & Hpath & Hleaf). apply wp_ret. split_and!; [by eapply rehashed_trans|done| |done]. cbn [foldr]. rewrite Hpath. apply step_right.
Qed.

(** The verifier takes no empty key and no empty value. *)
Definition provable (k v : bytes) : bool := negb (bool_decide (k = []) || bool_decide (v = [])).

Lemma Calculate_path k v ver path :
  ics_Calculate (mkExist k (Some v) (convertLeafOp ver) (convertInnerOps path)) =
  if provable k v then Some (foldr step_hash (tree_hash (Lf k v ver)) path) else None.
Proof.
  unfold convertInnerOps, provable. induction path as [|p path IH].
  - unfold convertLeafOp. rewrite reverse_nil. cbn [fmap list_fmap]. repeat case_bool_decide; cbn [orb negb];
      [apply ics_Calculate_empty; tauto..|]. rewrite ics_Calculate_leaf by done. done.
  - rewrite reverse_cons, fmap_app. cbn [fmap list_fmap foldr]. destruct (convertInnerOp p) as [[] prefix suffix] eqn:Ep.
    rewrite ics_Calculate_step, IH. destruct (negb _); [|done]. simpl. f_equal. unfold step_hash at 2. by rewrite Ep.
Qed.

(** ** Proofs of a tree *)
(** The proof names the entry, and computes to the root hash exactly when neither the key
    nor the value is empty. *)
Definition proves (a : ATree) (p : ExistenceProof) (k v : bytes) : Prop :=
  ep_Key p = k /\ ep_Value p = Some v /\ ics_Calculate p = if provable k v then Some (a_hash sha256 a) else None.
(** A proof of an entry, or none where there is no entry. *)
Definition proves_entry (a : ATree) (p : option ExistenceProof) (e : option (bytes * bytes)) : Prop :=
  match p, e with Some p, Some (k, v) => proves a p k v | None, None => True | _, _ => False end.

Lemma wp_createExistenceProof h T a A key v :
  denotes sha256 h T a A -> size a < 2 ^ 63 -> view a !! key = Some v ->
  wp (createExistenceProof sha256 T key) h (fun h' r => rehashed sha256 h h' /\ exists p, r = inl p /\ proves a p key v).
Proof.
  intros [Ev Ei Hc Hok Hr] Hs Hv. unfold createExistenceProof. unfold view in Hv. rewrite <- assoc_view in Hv. unfold contents, proves, a_hash in *.
  destruct (t_root T) as [l|], (a_root a) as [t|] eqn:Ea; try done. destruct (depth_enough a t Hok Ea Hs) as [Hh Hsz].
  assert (Hst : search_tree t) by (unfold a_ok in Hok; rewrite Ea in Hok; apply Hok). apply wp_deref.
  eapply wp_then; [by apply (wp_pathToLeaf key t max_depth h l A)|]. intros h' [[path leaf] found].
  destruct (end_leaf_assoc key t Hst v Hv) as [ver ->]. intros (Hrh & -> & Hpath & hash & Hn). apply (wp_load _ _ _ _ _ Hn), wp_ret.
  split; [done|]. rewrite bool_decide_true by done. eexists. split; [done|]. cbn [ep_Key ep_Value nd_key nd_value nd_version]. split_and!; [done|done|].
  rewrite Calculate_path. by rewrite Hpath.
Qed.

(** The entries around a key, by rank. *)
Lemma split_at key (l : list (bytes * bytes)) :
  StronglySorted bytes_lt l.*1 -> l = filter (fun kv => kv.1 <b key) l ++ filter (fun kv => key <=b kv.1) l.
Proof.
  induction l as [|[k v] l IH]; intros Hs; [done|]. apply StronglySorted_inv in Hs as [Hs Hk]. destruct (decide (k <b key)) as [Hlt|Hge].
  - rewrite filter_cons_True by done. rewrite filter_cons_False by (simpl; intros Hle; eapply bytes_lt_irrefl, bytes_lt_le_trans; eauto). simpl. f_equal. by apply IH.
  - rewrite filter_cons_False by done. apply bytes_not_lt in Hge. rewrite filter_cons_True by done. assert (Hall : forall x, x ∈ l -> key <=b x.1).
    { intros x Hx. rewrite Forall_forall in Hk. apply bytes_le_lteq. left. eapply bytes_le_lt_trans; [done|]. apply Hk. by apply list_elem_of_fmap_2. }
    rewrite (filter_all (fun kv => key <=b kv.1)) by done.
    assert (Hn : filter (fun kv : bytes * bytes => kv.1 <b key) l = []); [|by rewrite Hn].
    clear -Hall. induction l as [|x l IH]; [done|]. rewrite filter_cons_False; [apply IH; intros y Hy; apply Hall; by right|]. apply bytes_not_lt, Hall. left.
Qed.

Lemma neighbours a key :
  a_ok a ->
  (rank key (contents a) = 0 -> last (map_entries (view a) None (Some key)) = None) /\
  (1 <= rank key (contents a) -> contents a !! Z.to_nat (rank key (contents a) - 1) = last (map_entries (view a) None (Some key)) /\
     is_Some (last (map_entries (view a) None (Some key)))) /\
  contents a !! Z.to_nat (rank key (contents a)) = head (map_entries (view a) (Some key) None).
Proof.
  intros Ho. pose proof (split_at key _ (contents_sorted a Ho)) as Hsp.
  assert (E1 : map_entries (view a) None (Some key) = filter (fun kv => kv.1 <b key) (contents a)).
  { rewrite <- contents_range by done. apply list_filter_iff. intros [k v]. unfold in_domain. simpl. rewrite (bool_decide_true ([] <=b k)) by by destruct k. apply bool_decide_eq_true. }
  assert (E2 : map_entries (view a) (Some key) None = filter (fun kv => key <=b kv.1) (contents a)).
  { rewrite <- contents_range by done. apply list_filter_iff. intros [k v]. unfold in_domain. simpl. rewrite andb_true_r. apply bool_decide_eq_true. }
  rewrite E1, E2. unfold rank. set (l1 := filter (fun kv => kv.1 <b key) (contents a)) in *. set (l2 := filter (fun kv => key <=b kv.1) (contents a)) in *. rewrite Hsp. split_and!.
  - intros H0. assert (l1 = []) as -> by (apply nil_length_inv; lia). done.
  - intros H1. assert (Hne : l1 <> []) by (intros Hn; rewrite Hn in H1; simpl in H1; lia). rewrite lookup_app_l by lia. rewrite last_lookup. split; [f_equal; lia|].
    apply lookup_lt_is_Some. destruct l1; [done|simpl; lia].
  - rewrite Nat2Z.id, lookup_app_r by lia. rewrite Nat.sub_diag. by destruct l2.
Qed.

Lemma contents_lookup a i k v : a_ok a -> contents a !! i = Some (k, v) -> view a !! k = Some v.
Proof. intros Ho Hi. unfold view. apply elem_of_list_to_map; [by apply sorted_fst_nodup, contents_sorted|]. by eapply list_elem_of_lookup_2. Qed.

(** What a commitment proof says of a key. *)
Definition proves_key (a : ATree) (key : bytes) (proof : CommitmentProof) : Prop :=
  match view a !! key, proof with
  | Some v, ProofExist p => proves a p key v
  | None, ProofNonexist p =>
      ne_Key p = key /\ proves_entry a (ne_Left p) (last (map_entries (view a) None (Some key))) /\
      proves_entry a (ne_Right p) (head (map_entries (view a) (Some key) None))
  | _, _ => False
  end.

Lemma wp_neighbour h T a A e :
  denotes sha256 h T a A -> size a < 2 ^ 63 -> (forall k v, e = Some (k, v) -> view a !! k = Some v) ->
  wp (neighbour sha256 T (fst <$> e) (bool_decide (fst <$> e <> None))) h (fun h' r => rehashed sha256 h h' /\ exists p, r = inl p /\ proves_entry a p e).
Proof.
  intros Hd Hs He. unfold neighbour. destruct e as [[k v]|].
  - rewrite bool_decide_true by done. eapply wp_then; [by eapply wp_createExistenceProof; eauto|]. intros h' r (Hr & p & -> & Hp). apply wp_ret. split; [done|]. by exists (Some p).
  - rewrite bool_decide_false by (simpl; naive_solver). apply wp_ret. split; [apply rehashed_refl|]. by exists None.
Qed.

Lemma wp_getNonMembershipProof h T a A key :
  denotes sha256 h T a A -> size a < 2 ^ 32 -> view a !! key = None ->
  wp (getNonMembershipProof sha256 T key) h (fun h' r => rehashed sha256 h h' /\ exists p, r = inl p /\ proves_key a key p).
Proof.
  intros Hd Hs Hk. pose proof (de_ok _ _ _ _ _ Hd) as Hok. destruct (neighbours a key Hok) as (N0 & N1 & N2).
  pose proof (rank_bounds key (contents a)) as Hrank. unfold getNonMembershipProof.
  eapply wp_then; [by apply (wp_GetWithIndex sha256 h T a A)|]. intros h' r [-> ->]. rewrite Hk. rewrite bool_decide_false by naive_solver.
  apply (wp_then _ _ _ (fun h' r => rehashed sha256 h h' /\ exists p, r = inl p /\ proves_entry a p (last (map_entries (view a) None (Some key))))).
  - case_bool_decide as Hi.
    + destruct (N1 Hi) as [E [[k v] Hlast]]. eapply wp_then; [by apply (wp_GetByIndex sha256 h T a A)|]. intros h' r [-> ->].
      rewrite bool_decide_true by lia. rewrite E, Hlast. eapply wp_mono; [|eapply (wp_neighbour h T a A (Some (k, v))); [done|lia|]].
      * intros h' r Hr. exact Hr.
      * intros k' v' [= <- <-]. rewrite Hlast in E. by eapply contents_lookup.
    + apply wp_ret. split; [apply rehashed_refl|]. exists None. rewrite N0 by lia. done.
  - intros h1 r (Hr1 & pl & -> & Hpl). pose proof (denotes_rehashed _ _ _ _ _ _ Hr1 Hd) as Hd1.
    eapply wp_then; [by apply (wp_GetByIndex sha256 h1 T a A)|]. intros h' r [-> ->]. rewrite bool_decide_true by lia. rewrite N2.
    set (e := head (map_entries (view a) (Some key) None)) in *.
    assert (Ee : match e with Some (k, v) => (Some k, Some v) | None => (None, None) end = (fst <$> e, snd <$> e)) by (destruct e as [[k v]|]; done).
    rewrite Ee. eapply wp_then; [apply (wp_neighbour h1 T a A e); [done|lia|]|].
    { intros k v He. rewrite He in N2. by eapply contents_lookup. }
    intros h2 r (Hr2 & pr & -> & Hpr). apply wp_ret. split; [by eapply rehashed_trans|]. eexists. split; [done|]. unfold proves_key. rewrite Hk. done.
Qed.

Lemma wp_GetProof h T a A key :
  denotes sha256 h T a A -> size a < 2 ^ 32 -> wp (GetProof sha256 T key) h (fun h' proof => rehashed sha256 h h' /\ proves_key a key proof).
Proof.
  intros Hd Hs. unfold GetProof, Has, Get. apply wp_bind. do 2 apply wp_bind.
  eapply wp_mono; [|by apply (wp_GetWithIndex sha256 h T a A)]. intros h' r [-> ->]. apply wp_ret, wp_ret.
  destruct (view a !! key) as [v|] eqn:Hv.
  - rewrite bool_decide_true by done. apply wp_bind. unfold getMembershipProof. eapply wp_then; [eapply wp_createExistenceProof; [done|lia|done]|].
    intros h' r (Hr & p & -> & Hp). apply wp_ret, wp_ret. split; [done|]. unfold proves_key. by rewrite Hv.
  - rewrite bool_decide_false by naive_solver. eapply wp_then; [by apply (wp_getNonMembershipProof h T a A)|]. intros h' r (Hr & p & -> & Hp). by apply wp_ret.
Qed.

(** C14. On a tree of fewer than 2^32 entries [GetProof] of any key does not panic and leaves
    the tree as it is.  For a key that is there it gives a proof that names its value; for
    one that is not, proofs that name the last entry before it and the first one after it,
    where there are such.  A proof of an entry computes to the root hash when its key and its
    value are not empty, and is refused by the verifier when one of them is. *)
Theorem GetProof_verifies h T a A key :
  denotes sha256 h T a A -> size a < 2 ^ 32 ->
  exists h' proof, GetProof sha256 T key h = Some (h', proof) /\ proves_key a key proof /\ denotes sha256 h' T a A.
Proof.
  intros Hd Hs. destruct (wp_run _ _ _ (wp_GetProof h T a A key Hd Hs)) as (h' & proof & Hrun & Hr & Hp). exists h', proof.
  split_and!; [done|done|by eapply denotes_rehashed].
Qed.
End Proofs.
