(* ===== verification/AVLCopies.v ===== *)
(** Trees and copies side by side.  The trees that live on one heap share nodes; the
    theorem is that they answer as if each had a tree of its own, for every sequence of
    writes, saved versions, copies, lookups, iterations, hashes and proofs in which a copy
    is taken of a tree with nothing written since its last saved version. *)
From stdpp Require Import base gmap sets list sorting.
From Stdlib Require Import ZArith Lia.
From S2P Require Import Prelude KVStore MergeIter AVL AVLPure AVLHeap AVLOps AVLTree AVLProof.
Local Open Scope Z_scope.

(** An operation on the [i]-th tree. *)
Inductive tree_op :=
| OApply (i : nat) (pairs : list KVPair)
| OSave (i : nat) (updateHash : bool)
| OCopy (i : nat)
| ORootHash (i : nat)
| OGet (i : nat) (key : bytes)
| OGetByIndex (i : nat) (index : Z)
| OIterate (i : nat) (start end_ : option bytes) (asc : bool)
| OProof (i : nat) (key : bytes).

Inductive tree_answer :=
| ADone
| ASaved (hash : option bytes) (version : Z)
| AOverflow
| AHash (hash : bytes)
| AGot (index : Z) (value : option bytes)
| AEntry (key value : option bytes)
| AEntries (l : list (bytes * bytes))
| AProof (proof : CommitmentProof).

Section Copies.
Context (sha256 : bytes -> bytes) `{!Sha256 sha256} `{!ICS23 sha256}.
Local Abbreviation world := (world sha256).

(** ** The code *)
Definition on_tree {A} (Ts : list Tree) (i : nat) (f : Tree -> HM A) : HM A := fun h => match Ts !! i with Some T => f T h | None => None end.

(** A reader of an iterator: as many rounds as the tree has keys. *)
Definition iterate (T : Tree) (start end_ : option bytes) (asc : bool) : HM (list (bytes * bytes)) :=
  size ← (match t_root T with Some l => n ← load l; mret (nd_size n) | None => mret 0 end);
  it ← NewIterator T start end_ asc; iter_drain (S (Z.to_nat size)) it.

Definition tree_step (Ts : list Tree) (o : tree_op) : HM (list Tree * tree_answer) :=
  match o with
  | OApply i pairs => on_tree Ts i (fun T => T' ← ApplyChangeSet T pairs; mret (<[i := T']> Ts, ADone))
  | OSave i updateHash => on_tree Ts i (fun T =>
      r ← SaveVersion sha256 T updateHash;
      mret (match (r : Tree * (option bytes * Z) + ()) with
            | inl (T', (hash, version)) => (<[i := T']> Ts, ASaved hash version)
            | inr _ => (Ts, AOverflow)
            end))
  | OCopy i => on_tree Ts i (fun T => let '(T, T') := Copy T in mret (<[i := T]> Ts ++ [T'], ADone))
  | ORootHash i => on_tree Ts i (fun T => hash ← RootHash sha256 T; mret (Ts, AHash hash))
  | OGet i key => on_tree Ts i (fun T => '(index, value) ← GetWithIndex T key; mret (Ts, AGot index value))
  | OGetByIndex i index => on_tree Ts i (fun T => '(key, value) ← GetByIndex T index; mret (Ts, AEntry key value))
  | OIterate i start end_ asc => on_tree Ts i (fun T => l ← iterate T start end_ asc; mret (Ts, AEntries l))
  | OProof i key => on_tree Ts i (fun T => proof ← GetProof sha256 T key; mret (Ts, AProof proof))
  end.

Fixpoint tree_run (Ts : list Tree) (ops : list tree_op) : HM (list Tree * list tree_answer) :=
  match ops with
  | [] => mret (Ts, [])
  | o :: ops => '(Ts, x) ← tree_step Ts o; '(Ts, xs) ← tree_run Ts ops; mret (Ts, x :: xs)
  end.

(** ** The specification: trees as values *)
Definition index_of (o : tree_op) : nat :=
  match o with OApply i _ | OSave i _ | OCopy i | ORootHash i | OGet i _ | OGetByIndex i _ | OIterate i _ _ _ | OProof i _ => i end.

(** The trees after an operation; [None] where it is not covered: a tree that is full or
    at its last version, a copy of a tree with writes that are not saved. *)
Definition spec_step (a : ATree) (o : tree_op) : option (ATree * list ATree) :=
  if bool_decide (size a < 2 ^ 32 /\ 0 <= a_version a) then
    match o with
    | OApply _ pairs => (fun a' => (a', [])) <$> a_apply a pairs
    | OSave _ _ => Some (if bool_decide (a_version a < MaxUint32) then a_save a else a, [])
    | OCopy _ => if bool_decide (clean a) then Some (a, [a]) else None
    | _ => Some (a, [])
    end
  else None.

Definition spec_answer (a : ATree) (o : tree_op) (x : tree_answer) : Prop :=
  match o with
  | OApply _ _ | OCopy _ => x = ADone
  | OSave _ updateHash =>
      x = if bool_decide (a_version a < MaxUint32)
          then ASaved (if updateHash then Some (a_hash sha256 a) else None) (nextVersionU32 (a_version a) (a_init a))
          else AOverflow
  | ORootHash _ => x = AHash (a_hash sha256 a)
  | OGet _ key => x = AGot (Z.of_nat (length (map_entries (view a) None (Some key)))) (view a !! key)
  | OGetByIndex _ index =>
      x = match (if bool_decide (0 <= index) then map_entries (view a) None None !! Z.to_nat index else None) with
          | Some (k, v) => AEntry (Some k) (Some v)
          | None => AEntry None None
          end
  | OIterate _ start end_ asc => x = AEntries (entries_of asc (view a) start end_)
  | OProof _ key => exists proof, x = AProof proof /\ proves_key sha256 a key proof
  end.

Inductive spec_run : list ATree -> list tree_op -> list tree_answer -> list ATree -> Prop :=
| spec_nil l : spec_run l [] [] l
| spec_cons l o i a a' new x ops xs l' :
    i = index_of o -> l !! i = Some a -> spec_step a o = Some (a', new) -> spec_answer a o x -> spec_run (<[i := a']> l ++ new) ops xs l' ->
    spec_run l (o :: ops) (x :: xs) l'.

Fixpoint covered (l : list ATree) (ops : list tree_op) : option (list ATree) :=
  match ops with
  | [] => Some l
  | o :: ops => a ← l !! index_of o; '(a', new) ← spec_step a o; covered (<[index_of o := a']> l ++ new) ops
  end.

Definition holds_trees (h : heap) (Ts : list Tree) (l : list ATree) : Prop :=
  exists cells : list cell, world h cells /\ Ts = (fun c => c.1.1) <$> cells /\ l = (fun c => c.1.2) <$> cells.

Lemma wp_iterate_all h T a A start end_ asc :
  denotes sha256 h T a A -> wp (iterate T start end_ asc) h (fun h' l => h' = h /\ l = entries_of asc (view a) start end_).
Proof.
  intros Hd. unfold iterate. apply (wp_then _ _ _ (fun h' n => h' = h /\ n = size a)).
  - destruct Hd as [_ _ _ _ Hr]. unfold size, contents. destruct (t_root T) as [l|], (a_root a) as [t|]; try done.
    destruct (rep_node _ _ _ _ _ Hr) as (n & Hn & _ & Es & _). apply (wp_load _ _ _ _ _ Hn), wp_ret. by rewrite Es, sz_leaves.
  - intros h' n [-> ->]. apply (wp_iterate sha256 _ _ _ _ _ _ A); [done|]. unfold size. lia.
Qed.

Abbreviation trees cells := ((fun c : cell => c.1.1) <$> cells).
Abbreviation values cells := ((fun c : cell => c.1.2) <$> cells).

(** An answer, and the trees after it. *)
Definition answered (cells : list cell) (i : nat) (a : ATree) (o : tree_op) (a' : ATree) (new : list ATree) (h' : heap) (r : list Tree * tree_answer) : Prop :=
  spec_answer a o r.2 /\ holds_trees h' r.1 (<[i := a']> (values cells) ++ new).

Lemma values_same cells i T a A : cells !! i = Some (T, a, A) -> <[i := a]> (values cells) ++ [] = values cells.
Proof. intros Hi. rewrite app_nil_r. apply list_insert_id. by rewrite list_lookup_fmap, Hi. Qed.

(** Operations that only read, and hash. *)
Lemma wp_reader {B} h cells i T a A o (m : HM B) (f : B -> tree_answer) (P : B -> Prop) :
  world h cells -> cells !! i = Some (T, a, A) -> (forall b, P b -> spec_answer a o (f b)) ->
  wp m h (fun h' b => rehashed sha256 h h' /\ P b) ->
  wp (b ← m; mret (trees cells, f b)) h (answered cells i a o a []).
Proof.
  intros Hw Hi HP Hm. eapply wp_then; [exact Hm|]. intros h' b [Hr Hb]. apply wp_ret. split; [by apply HP|].
  exists cells. split_and!; [by eapply world_rehash|done|by eapply values_same].
Qed.

Lemma wp_OApply h cells i T a A pairs a' :
  world h cells -> cells !! i = Some (T, a, A) -> a_apply a pairs = Some a' ->
  wp (T' ← ApplyChangeSet T pairs; mret (<[i := T']> (trees cells), ADone)) h (answered cells i a (OApply i pairs) a' []).
Proof.
  intros Hw Hi Ha. eapply wp_then; [apply (wp_ApplyChangeSet sha256 pairs h T a A a'); [apply Hw|by eapply w_denotes|done]|].
  intros h' T' (A' & Hd & He & Hc). apply wp_ret. split; [done|]. exists (<[i := (T', a', A')]> cells). split_and!; [by eapply world_write|..]; by rewrite ?app_nil_r, list_fmap_insert.
Qed.

Lemma wp_OSave h cells i T a A updateHash :
  world h cells -> cells !! i = Some (T, a, A) -> size a < 2 ^ 32 -> 0 <= a_version a ->
  wp (r ← SaveVersion sha256 T updateHash;
      mret (match (r : Tree * (option bytes * Z) + ()) with
            | inl (T', (hash, version)) => (<[i := T']> (trees cells), ASaved hash version)
            | inr _ => (trees cells, AOverflow)
            end)) h (answered cells i a (OSave i updateHash) (if bool_decide (a_version a < MaxUint32) then a_save a else a) []).
Proof.
  intros Hw Hi Hs Hv. pose proof (w_denotes _ _ _ Hw _ _ _ _ Hi) as Hd. unfold answered, spec_answer.
  destruct (bool_decide_reflect (a_version a < MaxUint32)) as [Hlt|Hge].
  - eapply wp_then; [apply (wp_SaveVersion sha256 h T a A updateHash Hd); by repeat split|]. intros h' r (Hr & T' & -> & Hd' & Hc). apply wp_ret. split; [done|].
    eexists. split; [eapply (world_same sha256 h' cells i T a A); [by eapply world_rehash|done|exact Hd'|done]|]. by rewrite app_nil_r, !list_fmap_insert.
  - unfold SaveVersion. rewrite (de_version _ _ _ _ _ Hd), bool_decide_true by lia. apply wp_bind, wp_ret, wp_ret. split; [done|].
    exists cells. split_and!; [done|done|by eapply values_same].
Qed.

Lemma wp_tree_step h cells o T a A a' new :
  world h cells -> cells !! index_of o = Some (T, a, A) -> spec_step a o = Some (a', new) ->
  wp (tree_step (trees cells) o) h (answered cells (index_of o) a o a' new).
Proof.
  intros Hw Hi Hstep. unfold spec_step in Hstep. case_bool_decide as Hs; [|done]. destruct Hs as [Hs Hv]. pose proof (w_denotes _ _ _ Hw _ _ _ _ Hi) as Hd.
  assert (Hon : forall B (f : Tree -> HM B) Q, wp (f T) h Q -> wp (on_tree (trees cells) (index_of o) f) h Q).
  { intros B f Q HQ. unfold wp, on_tree in *. by rewrite list_lookup_fmap, Hi. }
  destruct o as [i pairs|i upd|i|i|i key|i index|i start end_ asc|i key]; simpl in Hi; apply Hon; simpl in Hstep.
  - destruct (a_apply a pairs) as [a1|] eqn:Ha; [|done]. injection Hstep as <- <-. by eapply wp_OApply.
  - injection Hstep as <- <-. by eapply wp_OSave.
  - case_bool_decide as Hcl; [|done]. injection Hstep as <- <-. pose proof (world_copy _ _ _ _ _ _ _ Hw Hi Hcl) as Hw'. destruct (Copy T) as [T1 T2].
    apply wp_ret. split; [done|]. eexists. split; [exact Hw'|]. simpl. by rewrite !fmap_app, !list_fmap_insert.
  - injection Hstep as <- <-. eapply (wp_reader _ _ _ _ _ _ (ORootHash i) _ _ (fun hash => hash = a_hash sha256 a)); [done|done|by intros ? ->|].
    eapply wp_mono; [|apply (wp_RootHash sha256 h T a A Hd); lia]. by intros h' hash [-> Hr].
  - injection Hstep as <- <-. eapply wp_then; [by apply (wp_GetWithIndex sha256 h T a A)|]. intros h' r [-> ->]. apply wp_ret. split.
    + simpl. f_equal. unfold rank. f_equal. rewrite <- contents_range by apply Hd. f_equal. apply list_filter_iff. intros [k v]. unfold in_domain. simpl.
      rewrite (bool_decide_true ([] <=b k)) by by destruct k. simpl. by rewrite bool_decide_eq_true.
    + exists cells. split_and!; [done|done|by eapply values_same].
  - injection Hstep as <- <-. eapply wp_then; [by apply (wp_GetByIndex sha256 h T a A)|]. intros h' r [-> ->]. rewrite (contents_entries a) by apply Hd.
    set (e := if bool_decide (0 <= index) then _ else _). destruct e as [[k v]|] eqn:He; apply wp_ret; (split; [simpl; fold e; by rewrite He|]); exists cells; split_and!; (done || by eapply values_same).
  - injection Hstep as <- <-. eapply (wp_reader _ _ _ _ _ _ (OIterate i start end_ asc) _ _ (fun l => l = entries_of asc (view a) start end_)); [done|done|by intros ? ->|].
    eapply wp_mono; [|by apply (wp_iterate_all h T a A)]. intros h' l [-> ->]. split; [apply rehashed_refl|done].
  - injection Hstep as <- <-. eapply (wp_reader _ _ _ _ _ _ (OProof i key) _ _ (proves_key sha256 a key)); [done|done|by intros p Hp; exists p|]. by apply (wp_GetProof sha256 h T a A).
Qed.

(** C7. Trees and their copies on one heap are independent in every run that is [covered]:
    copies are taken only of trees with nothing written since their last saved version,
    trees have fewer than 2^32 entries, and a tree at the last version is not written.
    Such a run does not panic and gives, operation by operation, the answers of separate
    trees. *)
Theorem copies_independent ops h Ts l l' :
  holds_trees h Ts l -> covered l ops = Some l' ->
  exists h' Ts' xs, tree_run Ts ops h = Some (h', (Ts', xs)) /\ spec_run l ops xs l' /\ holds_trees h' Ts' l'.
Proof.
  revert h Ts l. induction ops as [|o ops IH]; intros h Ts l Hh Hc.
  - simpl in Hc. injection Hc as <-. exists h, Ts, []. split_and!; [done|constructor|done].
  - destruct Hh as (cells & Hw & -> & ->). cbn [covered] in Hc. rewrite list_lookup_fmap in Hc.
    destruct (cells !! index_of o) as [[[T a] A]|] eqn:Hi; [|done]. simpl in Hc. destruct (spec_step a o) as [[a' new]|] eqn:Hs; [|done]. simpl in Hc.
    destruct (wp_run _ _ _ (wp_tree_step _ _ _ _ _ _ _ _ Hw Hi Hs)) as (h1 & [Ts1 x] & Hrun & Hx & Hh1).
    destruct (IH _ _ _ Hh1 Hc) as (h2 & Ts2 & xs & Hrun2 & Hsp & Hh2). exists h2, Ts2, (x :: xs). split_and!; [|by econstructor; rewrite ?list_lookup_fmap, ?Hi|done].
    cbn [tree_run]. unfold mbind, HM_bind. rewrite Hrun. simpl in Hrun2. rewrite Hrun2. done.
Qed.

(** A new tree is empty. *)
Lemma New_holds : exists T, New = Some T /\ holds_trees empty_heap [T] [mkATree 0 0 None].
Proof.
  eexists. split; [done|]. exists [(mkTree 0 None 0 0, mkATree 0 0 None, ∅)]. split; [|done]. split.
  - intros l n Hn. done.
  - intros [|i] T a A; [|done]. simpl. intros [= <- <- <-]. by split.
  - intros [|i] [|j]; try done.
Qed.
End Copies.
