(* ===== verification/MultiTree.v ===== *)
(** The trees of a chain and their change log: [MultiTree] ([multitree.go]), the writing side
    of [DB] ([db.go]) and the replay of the log, in [sei-db/state_db/sc/memiavl].

    A [MultiTree] has a tree per store name, kept in the order of the names.  [DB] collects
    what a block changes, saves a version and appends an entry to the log; [Catchup] replays
    entries on a tree that was loaded from a snapshot.  The trees write in goroutines of
    their own during a replay; each has its own nodes, and here they write in turn.  Files,
    locks, cancellation and the snapshots written in the background are left out. *)
From stdpp Require Import base gmap sets list.
From Stdlib Require Import ZArith Lia.
From S2P Require Import Prelude AVL.
Local Open Scope Z_scope.

(** ** Data; what only moves trees is written for any type of them *)
Record Named (T : Type) := mkNamed { nt_Name : bytes; nt_Tree : T }.
Arguments mkNamed {T} _ _.
Arguments nt_Name {T} _.
Arguments nt_Tree {T} _.
Abbreviation NamedTree := (Named Tree).
Record StoreInfo := mkStoreInfo { si_Name : bytes; si_Version : Z; si_Hash : bytes }.
Record CommitInfo := mkCommitInfo { ci_Version : Z; ci_StoreInfos : list StoreInfo }.
Record Multi (T : Type) := mkMulti {
  mt_initialVersion : Z;
  mt_trees : list (Named T);
  mt_treesByName : gmap bytes nat;
  mt_lastCommitInfo : CommitInfo
}.
Arguments mkMulti {T} _ _ _ _.
Arguments mt_initialVersion {T} _.
Arguments mt_trees {T} _.
Arguments mt_treesByName {T} _.
Arguments mt_lastCommitInfo {T} _.
Abbreviation MultiTree := (Multi Tree).
Record TreeNameUpgrade := mkUpgrade { up_Name : bytes; up_RenameFrom : bytes; up_Delete : bool }.
Record NamedChangeSet := mkChangeSet { cs_Name : bytes; cs_Pairs : list KVPair }.
Record ChangelogEntry := mkEntry { ce_Version : Z; ce_Changesets : list NamedChangeSet; ce_Upgrades : list TreeNameUpgrade }.

Inductive MTError :=
| EUnknownTree (name : bytes)
| EVersionOverflow
| ENotEmpty
| ETreeNotEmpty (name : bytes)
| ENameConflict (name : bytes)
| EReadOnly
| ELogRead
| ELogWrite.

Section Names.
Context {T : Type}.

Definition with_trees (t : Multi T) (trees : list (Named T)) : Multi T :=
  mkMulti (mt_initialVersion t) trees (mt_treesByName t) (mt_lastCommitInfo t).
Definition with_index (t : Multi T) (trees : list (Named T)) (index : gmap bytes nat) : Multi T :=
  mkMulti (mt_initialVersion t) trees index (mt_lastCommitInfo t).
Definition with_info (t : Multi T) (info : CommitInfo) : Multi T :=
  mkMulti (mt_initialVersion t) (mt_trees t) (mt_treesByName t) info.
Definition mt_Version (t : Multi T) : Z := ci_Version (mt_lastCommitInfo t).

(** [utils.NextVersion]. *)
Definition NextVersion (v initialVersion : Z) : Z :=
  if bool_decide (v = 0) && bool_decide (1 < initialVersion) then initialVersion else v + 1.

(** ** Upgrades; [new] makes the tree that is added *)
Definition find_tree (trees : list (Named T)) (name : bytes) : option nat := fst <$> list_find (fun e => nt_Name e = name) trees.
(** The last tree takes the place of the deleted one. *)
Definition swap_delete (trees : list (Named T)) (i : nat) : list (Named T) :=
  match last trees with Some e => take (length trees - 1) (<[i := e]> trees) | None => trees end.

Definition upgrade_one (new : Z -> option T) (t : Multi T) (trees : list (Named T)) (u : TreeNameUpgrade) : list (Named T) + MTError :=
  if up_Delete u then
    match find_tree trees (up_Name u) with Some i => inl (swap_delete trees i) | None => inr (EUnknownTree (up_Name u)) end
  else if bool_decide (up_RenameFrom u <> []) then
    match find_tree trees (up_RenameFrom u) with
    | Some i => inl (alter (fun e => mkNamed (up_Name u) (nt_Tree e)) i trees)
    | None => inr (EUnknownTree (up_RenameFrom u))
    end
  else
    let v := NextVersion (mt_Version t) (mt_initialVersion t) in
    if bool_decide (v < 0) || bool_decide (MaxUint32 < v) then inr EVersionOverflow
    else match new v with
         | Some tree => inl (trees ++ [mkNamed (up_Name u) tree])
         | None => inr EVersionOverflow (* not for a tree that starts at version 0 *)
         end.

Fixpoint upgrade_loop (new : Z -> option T) (t : Multi T) (trees : list (Named T)) (upgrades : list TreeNameUpgrade) : list (Named T) * option MTError :=
  match upgrades with
  | [] => (trees, None)
  | u :: upgrades => match upgrade_one new t trees u with inl trees => upgrade_loop new t trees upgrades | inr e => (trees, Some e) end
  end.

(** [sort.SliceStable] by name. *)
Fixpoint insert_named (e : Named T) (l : list (Named T)) : list (Named T) :=
  match l with [] => [e] | x :: l => if bool_decide (nt_Name x <b nt_Name e) then x :: insert_named e l else e :: x :: l end.
Definition sort_named (l : list (Named T)) : list (Named T) := foldr insert_named [] l.

Fixpoint build_index (i : nat) (trees : list (Named T)) (index : gmap bytes nat) : gmap bytes nat * option MTError :=
  match trees with
  | [] => (index, None)
  | e :: trees =>
      match index !! nt_Name e with
      | Some _ => (index, Some (ENameConflict (nt_Name e)))
      | None => build_index (S i) trees (<[nt_Name e := i]> index)
      end
  end.

Definition apply_upgrades (new : Z -> option T) (t : Multi T) (upgrades : list TreeNameUpgrade) : Multi T * option MTError :=
  match upgrades with
  | [] => (t, None)
  | _ =>
      match upgrade_loop new t (mt_trees t) upgrades with
      | (trees, Some e) => (with_index t trees ∅, Some e)
      | (trees, None) => let trees := sort_named trees in let '(index, e) := build_index 0 trees ∅ in (with_index t trees index, e)
      end
  end.
End Names.

Definition ApplyUpgrades : MultiTree -> list TreeNameUpgrade -> MultiTree * option MTError := apply_upgrades NewWithInitialVersion.

(** ** [MultiTree] *)
Definition NewEmptyMultiTree (initialVersion : Z) : MultiTree := mkMulti initialVersion [] ∅ (mkCommitInfo 0 []).

(** [inr] where the index is out of range. *)
Definition TreeByName (t : MultiTree) (name : bytes) : option Tree + () :=
  match mt_treesByName t !! name with
  | None => inl None
  | Some i => match mt_trees t !! i with Some e => inl (Some (nt_Tree e)) | None => inr tt end
  end.

Definition setInitialVersion (t : MultiTree) (initialVersion : Z) : option MultiTree :=
  if bool_decide (initialVersion < 0) || bool_decide (MaxUint32 < initialVersion) then None
  else Some (mkMulti initialVersion
    ((fun e => mkNamed (nt_Name e) (mkTree (t_version (nt_Tree e)) (t_root (nt_Tree e)) initialVersion (t_cowVersion (nt_Tree e)))) <$> mt_trees t)
    (mt_treesByName t) (mt_lastCommitInfo t)).

(** The first [None] is a panic. *)
Definition SetInitialVersion (t : MultiTree) (initialVersion : Z) : option (MultiTree + MTError) :=
  if bool_decide (MaxUint32 <= initialVersion) then Some (inr EVersionOverflow)
  else if bool_decide (mt_Version t <> 0) then Some (inr ENotEmpty)
  else match list_find (fun e => IsEmpty (nt_Tree e) = false) (mt_trees t) with
       | Some (_, e) => Some (inr (ETreeNotEmpty (nt_Name e)))
       | None => inl <$> setInitialVersion t initialVersion
       end.

(** The receiver, whose trees now copy on write, and the copy. *)
Definition index_names (trees : list NamedTree) : gmap bytes nat :=
  foldl (fun m '(i, e) => <[nt_Name e := i]> m) ∅ (imap (fun i e => (i, e)) trees).
Definition mt_Copy (t : MultiTree) : MultiTree * MultiTree :=
  let trees f := (fun e => mkNamed (nt_Name e) (f (Copy (nt_Tree e)))) <$> mt_trees t in
  (with_trees t (trees fst), mkMulti (mt_initialVersion t) (trees snd) (index_names (mt_trees t)) (mt_lastCommitInfo t)).

(** *** Change sets and versions *)
Definition mt_ApplyChangeSet (t : MultiTree) (name : bytes) (pairs : list KVPair) : HM (MultiTree * option MTError) :=
  match mt_treesByName t !! name with
  | None => mret (t, Some (EUnknownTree name))
  | Some i =>
      match mt_trees t !! i with
      | None => panic
      | Some e => tree ← ApplyChangeSet (nt_Tree e) pairs; mret (with_trees t (<[i := mkNamed (nt_Name e) tree]> (mt_trees t)), None)
      end
  end.

Fixpoint mt_ApplyChangeSets (t : MultiTree) (changeSets : list NamedChangeSet) : HM (MultiTree * option MTError) :=
  match changeSets with
  | [] => mret (t, None)
  | cs :: changeSets =>
      '(t, e) ← mt_ApplyChangeSet t (cs_Name cs) (cs_Pairs cs);
      match (e : option MTError) with Some e => mret (t, Some e) | None => mt_ApplyChangeSets t changeSets end
  end.

Section Commits.
Context (sha256 : bytes -> bytes).

Fixpoint store_infos (trees : list NamedTree) : HM (list StoreInfo) :=
  match trees with
  | [] => mret []
  | e :: trees =>
      hash ← RootHash sha256 (nt_Tree e);
      infos ← store_infos trees;
      mret (mkStoreInfo (nt_Name e) (t_version (nt_Tree e)) hash :: infos)
  end.
Definition buildCommitInfo (t : MultiTree) (version : Z) : HM CommitInfo :=
  infos ← store_infos (mt_trees t); mret (mkCommitInfo version infos).
Definition WorkingCommitInfo (t : MultiTree) : HM CommitInfo :=
  buildCommitInfo t (NextVersion (mt_Version t) (mt_initialVersion t)).
Definition UpdateCommitInfo (t : MultiTree) : HM MultiTree :=
  info ← buildCommitInfo t (mt_Version t); mret (with_info t info).

(** The trees up to the first that cannot save a version. *)
Fixpoint save_trees (trees : list NamedTree) (updateHash : bool) : HM (list NamedTree * option MTError) :=
  match trees with
  | [] => mret ([], None)
  | e :: trees =>
      r ← SaveVersion sha256 (nt_Tree e) updateHash;
      match (r : Tree * (option bytes * Z) + ()) with
      | inr _ => mret (e :: trees, Some EVersionOverflow)
      | inl (tree, _) => '(trees, err) ← save_trees trees updateHash; mret (mkNamed (nt_Name e) tree :: trees, err)
      end
  end.
Definition mt_SaveVersion (t : MultiTree) (updateCommitInfo : bool) : HM (MultiTree * (Z + MTError)) :=
  let t := with_info t (mkCommitInfo (NextVersion (mt_Version t) (mt_initialVersion t)) (ci_StoreInfos (mt_lastCommitInfo t))) in
  '(trees, err) ← save_trees (mt_trees t) updateCommitInfo;
  let t := with_trees t trees in
  match (err : option MTError) with
  | Some e => mret (t, inr e)
  | None =>
      t ← (if updateCommitInfo then UpdateCommitInfo t else mret (with_info t (mkCommitInfo (mt_Version t) [])));
      mret (t, inl (mt_Version t))
  end.

(** ** The replay of the log *)

(** The log as it can be read: its first and last index, and its entries. *)
Record ChangelogWAL := mkWAL { wal_FirstOffset : Z; wal_LastOffset : Z; wal_Read : Z -> option ChangelogEntry }.

(** [ApplyChangeSetAsync]: the changes, and a version, whose error is dropped. *)
Definition apply_async (tree : Tree) (pairs : list KVPair) : HM Tree :=
  tree ← ApplyChangeSet tree pairs;
  r ← SaveVersion sha256 tree false;
  mret (match (r : Tree * (option bytes * Z) + ()) with inl (tree, _) => tree | inr _ => tree end).

Fixpoint replay_sets (t : MultiTree) (changeSets : list NamedChangeSet) : HM (MultiTree * option MTError) :=
  match changeSets with
  | [] => mret (t, None)
  | cs :: changeSets =>
      match mt_treesByName t !! cs_Name cs with
      | None => mret (t, Some (EUnknownTree (cs_Name cs)))
      | Some i =>
          match mt_trees t !! i with
          | None => panic
          | Some e => tree ← apply_async (nt_Tree e) (cs_Pairs cs); replay_sets (with_trees t (<[i := mkNamed (nt_Name e) tree]> (mt_trees t))) changeSets
          end
      end
  end.
Fixpoint replay_rest (trees : list NamedTree) (updated : list bytes) : HM (list NamedTree) :=
  match trees with
  | [] => mret []
  | e :: trees =>
      tree ← (if bool_decide (nt_Name e ∈ updated) then mret (nt_Tree e) else apply_async (nt_Tree e) []);
      trees ← replay_rest trees updated;
      mret (mkNamed (nt_Name e) tree :: trees)
  end.

(** An entry; whether it was replayed. *)
Definition replay_entry (currentVersion endVersion : Z) (t : MultiTree) (entry : ChangelogEntry) : HM (MultiTree * (bool + MTError)) :=
  if bool_decide (ce_Version entry <= currentVersion) then mret (t, inl false)
  else if bool_decide (endVersion <> 0) && bool_decide (endVersion < ce_Version entry) then mret (t, inl false)
  else
    match ApplyUpgrades t (ce_Upgrades entry) with
    | (t, Some e) => mret (t, inr e)
    | (t, None) =>
        '(t, e) ← replay_sets t (ce_Changesets entry);
        match (e : option MTError) with
        | Some e => mret (t, inr e)
        | None =>
            trees ← replay_rest (mt_trees t) (cs_Name <$> ce_Changesets entry);
            mret (with_info (with_trees t trees) (mkCommitInfo (ce_Version entry) []), inl true)
        end
    end.

(** [Replay] from an index on, for a number of entries; the entries replayed. *)
Fixpoint Replay (log : ChangelogWAL) (index : Z) (count : nat) (currentVersion endVersion : Z) (t : MultiTree) (replayCount : Z) :
    HM (MultiTree * Z * option MTError) :=
  match count with
  | O => mret (t, replayCount, None)
  | S count =>
      match wal_Read log index with
      | None => mret (t, replayCount, Some ELogRead)
      | Some entry =>
          '(t, r) ← replay_entry currentVersion endVersion t entry;
          match (r : bool + MTError) with
          | inr e => mret (t, replayCount, Some e)
          | inl replayed => Replay log (index + 1) count currentVersion endVersion t (if (replayed : bool) then replayCount + 1 else replayCount)
          end
      end
  end.

Definition Catchup (t : MultiTree) (log : ChangelogWAL) (delta endVersion : Z) : HM (MultiTree * option MTError) :=
  let firstIndex := wal_FirstOffset log in
  let lastIndex := wal_LastOffset log in
  if bool_decide (lastIndex = 0) || bool_decide (lastIndex < firstIndex) then mret (t, None)
  else
    let currentVersion := mt_Version t in
    let startIndexSigned := int64 (currentVersion + 1 - delta) in
    let startIndex := if bool_decide (startIndexSigned <= 0) || bool_decide (startIndexSigned < firstIndex) then firstIndex else startIndexSigned in
    if bool_decide (lastIndex < startIndex) then mret (t, None)
    else
      '(t, replayCount, err) ← Replay log startIndex (Z.to_nat (lastIndex - startIndex + 1)) currentVersion endVersion t 0;
      match (err : option MTError) with
      | Some e => mret (t, Some e)
      | None => t ← (if bool_decide (0 < replayCount) then UpdateCommitInfo t else mret t); mret (t, None)
      end.

(** ** The writing side of [DB] *)
Record DB := mkDB {
  db_MultiTree : MultiTree;
  db_readOnly : bool;
  db_pendingLogEntry : ChangelogEntry;
  db_log : list ChangelogEntry
}.
Definition no_entry : ChangelogEntry := mkEntry 0 [] [].
Definition with_tree (db : DB) (t : MultiTree) : DB := mkDB t (db_readOnly db) (db_pendingLogEntry db) (db_log db).
Definition with_pending (db : DB) (entry : ChangelogEntry) : DB := mkDB (db_MultiTree db) (db_readOnly db) entry (db_log db).

Definition extend (pairs : list KVPair) (cs : NamedChangeSet) : NamedChangeSet := mkChangeSet (cs_Name cs) (cs_Pairs cs ++ pairs).

(** The pending change sets are pointers: one that comes from the argument at hand is
    extended there too.  Each has its position in the argument, if any. *)
Fixpoint merge_loop (todo : list nat) (pending : list (NamedChangeSet * option nat)) (idx : gmap bytes nat) (changeSets : list NamedChangeSet) :
    list (NamedChangeSet * option nat) * list NamedChangeSet :=
  match todo with
  | [] => (pending, changeSets)
  | j :: todo =>
      match changeSets !! j with
      | None => (pending, changeSets)
      | Some cs =>
          match idx !! cs_Name cs with
          | Some i =>
              let origin := match pending !! i with Some (_, origin) => origin | None => None end in
              merge_loop todo (alter (fun p => (extend (cs_Pairs cs) p.1, p.2)) i pending) idx
                (match origin with Some j0 => alter (extend (cs_Pairs cs)) j0 changeSets | None => changeSets end)
          | None => merge_loop todo (pending ++ [(cs, Some j)]) (<[cs_Name cs := length pending]> idx) changeSets
          end
      end
  end.

(** The pending change sets, and the argument as it is left. *)
Definition mergePendingChangesets (pending changeSets : list NamedChangeSet) : list NamedChangeSet * list NamedChangeSet :=
  match pending with
  | [] => (changeSets, changeSets)
  | _ =>
      let idx := foldl (fun m '(i, cs) => <[cs_Name cs := i]> m) (∅ : gmap bytes nat) (imap (fun i cs => (i, cs)) pending) in
      let '(pending, changeSets) := merge_loop (seq 0 (length changeSets)) ((fun cs => (cs, None)) <$> pending) idx changeSets in
      (pending.*1, changeSets)
  end.

Definition db_ApplyUpgrades (db : DB) (upgrades : list TreeNameUpgrade) : DB * option MTError :=
  if db_readOnly db then (db, Some EReadOnly)
  else
    let entry := db_pendingLogEntry db in
    let db := with_pending db (mkEntry (ce_Version entry) (ce_Changesets entry) (ce_Upgrades entry ++ upgrades)) in
    let '(t, e) := ApplyUpgrades (db_MultiTree db) upgrades in
    (with_tree db t, e).

Definition db_ApplyChangeSets (db : DB) (changeSets : list NamedChangeSet) : HM (DB * option MTError) :=
  match changeSets with
  | [] => mret (db, None)
  | _ =>
      if db_readOnly db then mret (db, Some EReadOnly)
      else
        let entry := db_pendingLogEntry db in
        let '(pending, changeSets) := mergePendingChangesets (ce_Changesets entry) changeSets in
        let db := with_pending db (mkEntry (ce_Version entry) pending (ce_Upgrades entry)) in
        '(t, e) ← mt_ApplyChangeSets (db_MultiTree db) changeSets;
        mret (with_tree db t, e)
  end.

Definition db_ApplyChangeSet (db : DB) (name : bytes) (pairs : list KVPair) : HM (DB * option MTError) :=
  match pairs with
  | [] => mret (db, None)
  | _ =>
      if db_readOnly db then mret (db, Some EReadOnly)
      else
        let entry := db_pendingLogEntry db in
        let '(pending, _) := mergePendingChangesets (ce_Changesets entry) [mkChangeSet name pairs] in
        let db := with_pending db (mkEntry (ce_Version entry) pending (ce_Upgrades entry)) in
        '(t, e) ← mt_ApplyChangeSet (db_MultiTree db) name pairs;
        mret (with_tree db t, e)
  end.

(** [writable] is whether the log takes the entry. *)
Definition db_Commit (db : DB) (writable : bool) : HM (DB * (Z + MTError)) :=
  if db_readOnly db then mret (db, inr EReadOnly)
  else
    '(t, r) ← mt_SaveVersion (db_MultiTree db) true;
    let db := with_tree db t in
    match (r : Z + MTError) with
    | inr e => mret (db, inr e)
    | inl v =>
        if writable then
          let entry := mkEntry v (ce_Changesets (db_pendingLogEntry db)) (ce_Upgrades (db_pendingLogEntry db)) in
          mret (mkDB (db_MultiTree db) (db_readOnly db) no_entry (db_log db ++ [entry]), inl v)
        else mret (db, inr ELogWrite)
    end.
End Commits.
