(* ===== verification/MultiTreeSpec.v ===== *)
(** The trees of a chain as values.  The code of [MultiTree] that only moves trees is the
    same for trees in the heap and for values, so that the two stay related; writes and saved
    versions are those of [AVLTree], tree by tree. *)
From stdpp Require Import base gmap sets list sorting.
From Stdlib Require Import ZArith Lia.
From S2P Require Import Prelude KVStore MergeIter AVL AVLPure AVLHeap AVLOps AVLTree MultiTree.
Local Open Scope Z_scope.

(** ** Moving trees *)
Definition nmap {A B} (f : A -> B) (e : Named A) : Named B := mkNamed (nt_Name e) (f (nt_Tree e)).
Definition mmap {A B} (f : A -> B) (m : Multi A) : Multi B :=
  mkMulti (mt_initialVersion m) (nmap f <$> mt_trees m) (mt_treesByName m) (mt_lastCommitInfo m).

Section Maps.
Context {A B : Type} (f : A -> B).

Lemma find_tree_map trees name : find_tree (nmap f <$> trees) name = find_tree trees name.
Proof.
  unfold find_tree. rewrite list_find_fmap, <- option_fmap_compose.
  change (list_find ((fun e : Named B => nt_Name e = name) ∘ nmap f) trees) with (list_find (fun e : Named A => nt_Name e = name) trees).
  by destruct (list_find _ trees) as [[]|].
Qed.
Lemma swap_delete_map trees i : swap_delete (nmap f <$> trees) i = nmap f <$> swap_delete trees i.
Proof.
  unfold swap_delete. rewrite fmap_last. destruct (last trees) as [e|]; simpl; [|done]. by rewrite length_fmap, fmap_take, list_fmap_insert.
Qed.
Lemma insert_named_map e l : insert_named (nmap f e) (nmap f <$> l) = nmap f <$> insert_named e l.
Proof.
  induction l as [|x l IH]; [done|]. rewrite fmap_cons. cbn [insert_named]. change (nt_Name (nmap f x)) with (nt_Name x).
  change (nt_Name (nmap f e)) with (nt_Name e). case_bool_decide; [by rewrite fmap_cons, IH|done].
Qed.
Lemma sort_named_map l : sort_named (nmap f <$> l) = nmap f <$> sort_named l.
Proof. unfold sort_named. induction l as [|x l IH]; [done|]. rewrite fmap_cons. cbn [foldr]. by rewrite IH, insert_named_map. Qed.
Lemma build_index_map l : forall i m, build_index i (nmap f <$> l) m = build_index i l m.
Proof. induction l as [|x l IH]; intros i m; [done|]. rewrite fmap_cons. cbn [build_index]. change (nt_Name (nmap f x)) with (nt_Name x). destruct (m !! nt_Name x); [done|apply IH]. Qed.

Context (newA : Z -> option A) (newB : Z -> option B) (new_map : forall v, newB v = f <$> newA v).
Lemma upgrade_one_map m trees u :
  upgrade_one newB (mmap f m) (nmap f <$> trees) u = match upgrade_one newA m trees u with inl l => inl (nmap f <$> l) | inr e => inr e end.
Proof.
  unfold upgrade_one. rewrite !find_tree_map, new_map. destruct (up_Delete u); [|case_bool_decide].
  - destruct (find_tree trees (up_Name u)); [by rewrite swap_delete_map|done].
  - destruct (find_tree trees (up_RenameFrom u)); [|done]. f_equal. symmetry. apply list_fmap_alter. by apply Forall_true.
  - change (mt_Version (mmap f m)) with (mt_Version m). change (mt_initialVersion (mmap f m)) with (mt_initialVersion m).
    destruct (_ || _); [done|]. destruct (newA _); simpl; [by rewrite fmap_app|done].
Qed.
Lemma upgrade_loop_map m ups : forall trees,
  upgrade_loop newB (mmap f m) (nmap f <$> trees) ups = let '(l, e) := upgrade_loop newA m trees ups in (nmap f <$> l, e).
Proof.
  induction ups as [|u ups IH]; intros trees; simpl; [done|]. rewrite upgrade_one_map. destruct (upgrade_one newA m trees u); [apply IH|done].
Qed.
Lemma apply_upgrades_map m ups : apply_upgrades newB (mmap f m) ups = let '(m', e) := apply_upgrades newA m ups in (mmap f m', e).
Proof.
  unfold apply_upgrades. destruct ups as [|u ups]; [done|]. change (mt_trees (mmap f m)) with (nmap f <$> mt_trees m). rewrite upgrade_loop_map.
  destruct (upgrade_loop newA m (mt_trees m) (u :: ups)) as [l [e|]]; [done|]. rewrite sort_named_map, build_index_map. by destruct (build_index 0 (sort_named l) ∅).
Qed.
End Maps.

(** Sorting permutes; upgrades keep trees, drop some and add new ones. *)
Lemma insert_named_perm {T} (e : Named T) l : insert_named e l ≡ₚ e :: l.
Proof. induction l as [|x l IH]; simpl; [done|]. case_bool_decide; [|done]. rewrite IH. apply Permutation_swap. Qed.
Lemma sort_named_perm {T} (l : list (Named T)) : sort_named l ≡ₚ l.
Proof. unfold sort_named. induction l as [|x l IH]; simpl; [done|]. by rewrite insert_named_perm, IH. Qed.

Lemma swap_delete_sub {T} (trees : list (Named T)) i : swap_delete trees i ⊆+ trees.
Proof.
  unfold swap_delete. destruct (last trees) as [e|] eqn:Hl; [|done]. apply last_Some in Hl as [l ->]. rewrite length_app. simpl.
  replace (length l + 1 - 1)%nat with (length l) by lia. destruct (decide (i < length l)%nat) as [Hi|Hi].
  - rewrite insert_app_l by done. rewrite take_app_length' by by rewrite length_insert.
    rewrite (insert_take_drop l i e Hi), <- Permutation_middle, (Permutation_app_comm l [e]). simpl. apply submseteq_skip.
    rewrite <- delete_take_drop. apply sublist_submseteq, sublist_delete.
  - apply sublist_submseteq. etrans; [apply sublist_take|]. rewrite insert_app_r_alt by lia. destruct (i - length l)%nat; [done|]. simpl. done.
Qed.

Section Chains.
Context (sha256 : bytes -> bytes).
Local Abbreviation world := (world sha256).
Local Abbreviation denotes := (denotes sha256).

Definition tree_of (c : cell) : Tree := c.1.1.
Definition value_of (c : cell) : ATree := c.1.2.
Definition cells (m : Multi cell) : list cell := nt_Tree <$> mt_trees m.

(** A [MultiTree] in the heap, its value, and what else the heap holds. *)
Definition mholds (h : heap) (rest : list cell) (t : MultiTree) (am : Multi ATree) : Prop :=
  exists m : Multi cell, t = mmap tree_of m /\ am = mmap value_of m /\ world h (cells m ++ rest).

(** ** Worlds *)
Lemma world_perm h l l' : l' ≡ₚ l -> world h l -> world h l'.
Proof.
  intros Hp [Hb Hd Ha]. apply Permutation_inj in Hp as (_ & f & Hinj & Hf). split; [done| |].
  - intros i T a A Hi. rewrite Hf in Hi. by eapply Hd.
  - intros i j Ti ai Ai Tj aj Aj x Hij Hi Hj. rewrite Hf in Hi, Hj. apply (Ha (f i) (f j) Ti ai Ai Tj aj Aj x); [|done|done]. intros E. by apply Hij, Hinj.
Qed.
Lemma world_app_l h l k : world h (l ++ k) -> world h l.
Proof.
  intros [Hb Hd Ha]. split; [done| |].
  - intros i T a A Hi. eapply (Hd i). by apply lookup_app_l_Some.
  - intros i j Ti ai Ai Tj aj Aj x Hij Hi Hj. eapply (Ha i j); [done|by apply lookup_app_l_Some..].
Qed.
Lemma world_sub h l l' : l' ⊆+ l -> world h l -> world h l'.
Proof. intros [k Hk]%submseteq_Permutation Hw. eapply world_app_l, world_perm; [symmetry; exact Hk|done]. Qed.

(** A new tree has no nodes. *)
Lemma world_new h l T a : world h l -> denotes h T a ∅ -> world h ((T, a, ∅) :: l).
Proof.
  intros [Hb Hd Ha] H0. split; [done| |].
  - intros [|i] T' a' A'; simpl; [by intros [= <- <- <-]|apply Hd].
  - intros [|i] [|j] Ti ai Ai Tj aj Aj x Hij; simpl; try done; try (intros [= <- <- <-]; set_solver).
    + intros Hi [= <- <- <-]. set_solver.
    + apply Ha. congruence.
Qed.

(** ** Upgrades *)
Definition a_new (v : Z) : option ATree := Some (mkATree 0 v None).
Definition c_new (v : Z) : option cell := Some (mkTree 0 None v 0, mkATree 0 v None, ∅).

Lemma rename_trees {T} (name : bytes) i : forall trees : list (Named T), nt_Tree <$> alter (fun e => mkNamed name (nt_Tree e)) i trees = nt_Tree <$> trees.
Proof. induction i as [|i IH]; intros [|e trees]; simpl; [done..|]. f_equal. apply IH. Qed.

Lemma upgrade_one_world h rest m u trees trees' :
  world h ((nt_Tree <$> trees) ++ rest) -> upgrade_one c_new m trees u = inl trees' -> world h ((nt_Tree <$> trees') ++ rest).
Proof.
  unfold upgrade_one. intros Hw. destruct (up_Delete u); [|case_bool_decide].
  - destruct (find_tree trees (up_Name u)); [|done]. intros [= <-]. eapply world_sub; [|exact Hw]. apply submseteq_skips_r, fmap_submseteq, swap_delete_sub.
  - destruct (find_tree trees (up_RenameFrom u)); [|done]. intros [= <-]. by rewrite rename_trees.
  - destruct (_ || _); [done|]. intros [= <-]. rewrite fmap_app. cbn [fmap list_fmap nt_Tree]. rewrite <- app_assoc.
    eapply world_perm; [symmetry; apply Permutation_middle|]. by apply world_new; [|split].
Qed.
Lemma upgrade_loop_world h rest m ups : forall trees trees',
  world h ((nt_Tree <$> trees) ++ rest) -> upgrade_loop c_new m trees ups = (trees', None) -> world h ((nt_Tree <$> trees') ++ rest).
Proof.
  induction ups as [|u ups IH]; intros trees trees' Hw; simpl; [by intros [= <-]|]. destruct (upgrade_one c_new m trees u) as [l|e] eqn:Hu; [|done].
  apply IH. by eapply upgrade_one_world.
Qed.

Lemma mholds_upgrades h rest t am ups am' :
  mholds h rest t am -> apply_upgrades a_new am ups = (am', None) -> exists t', ApplyUpgrades t ups = (t', None) /\ mholds h rest t' am'.
Proof.
  intros (m & -> & -> & Hw). unfold ApplyUpgrades. rewrite (apply_upgrades_map value_of c_new) by done.
  rewrite (apply_upgrades_map tree_of c_new) by done. destruct (apply_upgrades c_new m ups) as [m' e] eqn:Hm. intros [= <- ->].
  exists (mmap tree_of m'). split; [done|]. exists m'. split_and!; [done|done|]. unfold apply_upgrades in Hm. destruct ups as [|u ups]; [by simplify_eq|].
  destruct (upgrade_loop c_new m (mt_trees m) (u :: ups)) as [l [e|]] eqn:Hl; [done|]. destruct (build_index 0 (sort_named l) ∅) as [index e]. injection Hm as <- ->.
  unfold cells. cbn [mt_trees with_index]. eapply world_perm; [apply Permutation_app_tail, fmap_Permutation, sort_named_perm|]. by eapply upgrade_loop_world.
Qed.

(** ** One tree of many *)
Lemma mholds_bounded h rest t am : mholds h rest t am -> bounded h.
Proof. intros (m & _ & _ & Hw). apply Hw. Qed.
Lemma mholds_rehash h rest t am h' : mholds h rest t am -> rehashed sha256 h h' -> mholds h' rest t am.
Proof. intros (m & Ht & Ha & Hw) Hr. exists m. split_and!; [done|done|by eapply world_rehash]. Qed.

Definition put_tree {T} (m : Multi T) (i : nat) (e : Named T) : Multi T := with_trees m (<[i := e]> (mt_trees m)).

Lemma mholds_at h rest t am i e :
  mholds h rest t am -> mt_trees am !! i = Some e ->
  exists T A, mt_trees t !! i = Some (mkNamed (nt_Name e) T) /\ denotes h T (nt_Tree e) A /\
    forall h' T' a' A', evolves (t_cowVersion T) h A h' A' -> denotes h' T' a' A' -> t_cowVersion T' = t_cowVersion T ->
      mholds h' rest (put_tree t i (mkNamed (nt_Name e) T')) (put_tree am i (mkNamed (nt_Name e) a')).
Proof.
  intros (m & -> & -> & Hw) Hi. change (mt_trees (mmap value_of m)) with (nmap value_of <$> mt_trees m) in Hi.
  apply list_lookup_fmap_Some in Hi as ([name [[T a] A]] & -> & Hm). change (mt_trees (mmap tree_of m)) with (nmap tree_of <$> mt_trees m).
  exists T, A. assert (Hc : (cells m ++ rest) !! i = Some (T, a, A)).
  { apply lookup_app_l_Some. unfold cells. by rewrite list_lookup_fmap, Hm. }
  split_and!; [by rewrite list_lookup_fmap, Hm|by eapply w_denotes|]. intros h' T' a' A' He Hd Ht. exists (put_tree m i (mkNamed name (T', a', A'))).
  split_and!; [unfold put_tree, mmap, with_trees; simpl; by rewrite list_fmap_insert..|]. unfold cells, put_tree. simpl. rewrite list_fmap_insert. simpl.
  rewrite <- insert_app_l by (rewrite length_fmap; by eapply lookup_lt_Some). by eapply world_write.
Qed.

(** ** Values *)
Definition am_apply (am : Multi ATree) (cs : NamedChangeSet) : option (Multi ATree) :=
  i ← mt_treesByName am !! cs_Name cs; e ← mt_trees am !! i; a ← a_apply (nt_Tree e) (cs_Pairs cs);
  Some (put_tree am i (mkNamed (nt_Name e) a)).
Fixpoint am_applies (am : Multi ATree) (css : list NamedChangeSet) : option (Multi ATree) :=
  match css with [] => Some am | cs :: css => am ← am_apply am cs; am_applies am css end.

Definition am_infos (trees : list (Named ATree)) : list StoreInfo :=
  (fun e => mkStoreInfo (nt_Name e) (a_version (nt_Tree e)) (a_hash sha256 (nt_Tree e))) <$> trees.
Definition am_savable (trees : list (Named ATree)) : Prop := Forall (fun e => savable (nt_Tree e)) trees.
Definition am_next (am : Multi ATree) : Z := NextVersion (mt_Version am) (mt_initialVersion am).
Definition am_save (am : Multi ATree) : Multi ATree :=
  with_info (with_trees am (nmap a_save <$> mt_trees am)) (mkCommitInfo (am_next am) (am_infos (nmap a_save <$> mt_trees am))).

(** ** Writes *)
Lemma wp_mt_ApplyChangeSet h rest t am cs am' :
  mholds h rest t am -> am_apply am cs = Some am' ->
  wp (mt_ApplyChangeSet t (cs_Name cs) (cs_Pairs cs)) h (fun h' '(t', e) => e = None /\ mholds h' rest t' am').
Proof.
  intros Hm Ha. unfold am_apply in Ha. destruct (mt_treesByName am !! cs_Name cs) as [i|] eqn:Hi; [|done]. simpl in Ha.
  destruct (mt_trees am !! i) as [e|] eqn:He; [|done]. simpl in Ha. destruct (a_apply (nt_Tree e) (cs_Pairs cs)) as [a|] eqn:Hp; [|done]. injection Ha as <-.
  destruct (mholds_at _ _ _ _ _ _ Hm He) as (T & A & HT & Hd & Hput). unfold mt_ApplyChangeSet.
  assert (Et : mt_treesByName t = mt_treesByName am) by (destruct Hm as (m & -> & -> & _); done). rewrite Et, Hi, HT.
  eapply wp_then; [apply (wp_ApplyChangeSet sha256 _ _ _ _ A _ (mholds_bounded _ _ _ _ Hm) Hd Hp)|]. intros h' T' (A' & Hd' & Hev & Hc). apply wp_ret. split; [done|]. by eapply Hput.
Qed.

Lemma wp_mt_ApplyChangeSets css : forall h rest t am am',
  mholds h rest t am -> am_applies am css = Some am' ->
  wp (mt_ApplyChangeSets t css) h (fun h' '(t', e) => e = None /\ mholds h' rest t' am').
Proof.
  induction css as [|cs css IH]; intros h rest t am am' Hm; cbn [am_applies mt_ApplyChangeSets].
  - intros [= <-]. by apply wp_ret.
  - destruct (am_apply am cs) as [am1|] eqn:Ha; [|done]. simpl. intros Has. eapply wp_then; [by eapply wp_mt_ApplyChangeSet|].
    intros h1 [t1 e] [-> Hm1]. by eapply IH.
Qed.

(** ** Loops over the trees: those before are done, those after to do *)
Definition focused (h : heap) (rest : list cell) (pre post : list (Named cell)) : Prop := world h ((nt_Tree <$> (pre ++ post)) ++ rest).

Lemma focused_head h rest pre name T a A post :
  focused h rest pre (mkNamed name (T, a, A) :: post) ->
  denotes h T a A /\ forall h' T' a' A', evolves (t_cowVersion T) h A h' A' -> denotes h' T' a' A' -> t_cowVersion T' = t_cowVersion T ->
    focused h' rest (pre ++ [mkNamed name (T', a', A')]) post.
Proof.
  unfold focused. intros Hw. rewrite fmap_app, fmap_cons in Hw. cbn [nt_Tree] in Hw.
  assert (Hi : (((nt_Tree <$> pre) ++ (T, a, A) :: (nt_Tree <$> post)) ++ rest) !! length pre = Some (T, a, A)).
  { rewrite <- app_assoc. rewrite lookup_app_r by (rewrite length_fmap; lia). by rewrite length_fmap, Nat.sub_diag. }
  split; [by eapply w_denotes|]. intros h' T' a' A' He Hd Hc. pose proof (world_write sha256 _ _ _ _ _ _ _ _ _ _ Hw Hi He Hd Hc) as Hw'.
  rewrite <- app_assoc, insert_app_r_alt in Hw' by (rewrite length_fmap; lia). rewrite length_fmap, Nat.sub_diag in Hw'. cbn [app] in Hw'. simpl in Hw'.
  rewrite <- app_assoc, fmap_app, <- app_assoc. exact Hw'.
Qed.
Lemma focused_rehash h rest pre post h' : focused h rest pre post -> rehashed sha256 h h' -> focused h' rest pre post.
Proof. intros Hf Hr. by eapply world_rehash. Qed.
Lemma focused_save h rest pre name T a A post h' T' a' :
  focused h rest pre (mkNamed name (T, a, A) :: post) -> rehashed sha256 h h' -> denotes h' T' a' A -> t_cowVersion T' = t_cowVersion T ->
  focused h' rest (pre ++ [mkNamed name (T', a', A)]) post.
Proof.
  intros Hf Hr Hd Hc. pose proof (focused_rehash _ _ _ _ _ Hf Hr) as Hf'. eapply (focused_head _ _ _ _ _ _ _ _ Hf'); [|done|done]. apply evolves_refl, Hf'.
Qed.

Abbreviation trees_of l := (nmap tree_of <$> l).
Abbreviation values_of l := (nmap value_of <$> l).

(** What a loop leaves of the trees after. *)
Definition loop_post (rest : list cell) (pre : list (Named cell)) (values : list (Named ATree)) (h' : heap) (l : list NamedTree) : Prop :=
  exists post', l = trees_of post' /\ values_of post' = values /\ focused h' rest (pre ++ post') [].

Lemma loop_post_cons rest pre c values h' l : loop_post rest (pre ++ [c]) values h' l -> loop_post rest pre (nmap value_of c :: values) h' (nmap tree_of c :: l).
Proof. intros (post' & -> & <- & Hf). exists (c :: post'). split_and!; [done|done|]. by rewrite <- app_assoc in Hf. Qed.

Lemma wp_save_trees updateHash rest post : forall pre h,
  focused h rest pre post -> am_savable (values_of post) ->
  wp (save_trees sha256 (trees_of post) updateHash) h (fun h' '(l, err) => err = None /\ loop_post rest pre (nmap a_save <$> values_of post) h' l).
Proof.
  induction post as [|[name [[T a] A]] post IH]; intros pre h Hf Hs.
  - apply wp_ret. split; [done|]. exists []. by rewrite app_nil_r.
  - rewrite !fmap_cons in *. cbn [save_trees nt_Tree nmap]. apply Forall_cons in Hs as [Hs1 Hs].
    pose proof (proj1 (focused_head _ _ _ _ _ _ _ _ Hf)) as Hd. eapply wp_then; [by apply (wp_SaveVersion sha256 h T a A)|].
    intros h1 r (Hr & T' & -> & Hd' & Hc). pose proof (focused_save _ _ _ _ _ _ _ _ _ _ _ Hf Hr Hd' Hc) as Hf'.
    eapply wp_then; [by apply (IH _ h1 Hf' Hs)|]. intros h2 [l err] [-> Hl]. apply wp_ret. split; [done|]. by apply (loop_post_cons _ _ (mkNamed name (T', a_save a, A))).
Qed.

Definition am_small (trees : list (Named ATree)) : Prop := Forall (fun e => size (nt_Tree e) < 2 ^ 32) trees.
Lemma savable_small trees : am_savable trees -> am_small (nmap a_save <$> trees).
Proof. intros Hs. apply Forall_fmap. eapply Forall_impl; [exact Hs|]. by intros e [H _]. Qed.

Lemma wp_store_infos rest post : forall pre h,
  focused h rest pre post -> am_small (values_of post) ->
  wp (store_infos sha256 (trees_of post)) h (fun h' infos => rehashed sha256 h h' /\ infos = am_infos (values_of post)).
Proof.
  induction post as [|[name [[T a] A]] post IH]; intros pre h Hf Hs.
  - apply wp_ret. split; [apply rehashed_refl|done].
  - rewrite !fmap_cons in *. cbn [store_infos nt_Tree nt_Name nmap]. apply Forall_cons in Hs as [Hs1 Hs]. cbn in Hs1.
    pose proof (proj1 (focused_head _ _ _ _ _ _ _ _ Hf)) as Hd. eapply wp_then; [apply (wp_RootHash sha256 h T a A Hd); lia|].
    intros h1 hash [-> Hr]. eapply wp_then; [eapply (IH (pre ++ [mkNamed name (T, a, A)]) h1); [|done]|].
    { unfold focused. rewrite <- app_assoc. by eapply focused_rehash. }
    intros h2 infos [Hr2 ->]. apply wp_ret. split; [by eapply rehashed_trans|]. cbn. by rewrite (de_version _ _ _ _ _ Hd).
Qed.

(** ** Versions *)
Lemma wp_UpdateCommitInfo h rest t am :
  mholds h rest t am -> am_small (mt_trees am) ->
  wp (UpdateCommitInfo sha256 t) h (fun h' t' => mholds h' rest t' (with_info am (mkCommitInfo (mt_Version am) (am_infos (mt_trees am))))).
Proof.
  intros Hm Hs. destruct Hm as (m & -> & -> & Hw). unfold UpdateCommitInfo, buildCommitInfo. apply wp_bind.
  eapply wp_then; [apply (wp_store_infos rest (mt_trees m) [] h Hw Hs)|]. intros h' infos [Hr ->]. apply wp_ret, wp_ret.
  exists (with_info m (mkCommitInfo (mt_Version m) (am_infos (values_of (mt_trees m))))). split_and!; [done|done|]. by eapply world_rehash.
Qed.

Lemma wp_mt_SaveVersion h rest t am :
  mholds h rest t am -> am_savable (mt_trees am) ->
  wp (mt_SaveVersion sha256 t true) h (fun h' '(t', r) => r = inl (am_next am) /\ mholds h' rest t' (am_save am)).
Proof.
  intros Hm Hs. destruct Hm as (m & -> & -> & Hw). unfold mt_SaveVersion.
  eapply wp_then; [apply (wp_save_trees true rest (mt_trees m) [] h Hw Hs)|]. intros h1 [l err] [-> (post' & -> & Hv & Hf)]. unfold focused in Hf. rewrite app_nil_l, app_nil_r in Hf.
  set (m1 := with_trees (with_info m (mkCommitInfo (NextVersion (mt_Version m) (mt_initialVersion m)) (ci_StoreInfos (mt_lastCommitInfo m)))) post').
  eapply wp_then; [apply (wp_UpdateCommitInfo h1 rest (mmap tree_of m1) (mmap value_of m1))|].
  - exists m1. split_and!; [done|done|exact Hf].
  - change (mt_trees (mmap value_of m1)) with (values_of post'). rewrite Hv. by apply savable_small.
  - intros h2 t2 Hm2. apply wp_ret. destruct Hm2 as (m2 & -> & Ha & Hw2). split; [destruct m2; injection Ha as _ _ _ <-; done|].
    exists m2. split_and!; [done| |done]. rewrite <- Ha. unfold am_save, with_info, with_trees. cbn. rewrite Hv. done.
Qed.
End Chains.
