(* ===== verification/MultiTreeReplay.v ===== *)
(** The replay of the change log.  The entries that a running node appends, replayed on the
    trees of an earlier version, give the trees, the versions and the hashes that the node
    had: a node that restarts from a snapshot is where it stopped. *)
From stdpp Require Import base gmap sets list sorting.
From Stdlib Require Import ZArith Lia.
From S2P Require Import Prelude KVStore MergeIter AVL AVLPure AVLHeap AVLOps AVLTree MultiTree MultiTreeSpec.
Local Open Scope Z_scope.

(** ** The changes of a tree, by name *)
Definition pairs_of (name : bytes) (css : list NamedChangeSet) : list KVPair := concat (cs_Pairs <$> filter (fun cs => cs_Name cs = name) css).

Lemma pairs_of_cons name cs css : pairs_of name (cs :: css) = (if decide (cs_Name cs = name) then cs_Pairs cs else []) ++ pairs_of name css.
Proof. unfold pairs_of. rewrite filter_cons. by case_decide. Qed.
Lemma pairs_of_app name css1 css2 : pairs_of name (css1 ++ css2) = pairs_of name css1 ++ pairs_of name css2.
Proof. unfold pairs_of. by rewrite filter_app, fmap_app, concat_app. Qed.
Lemma pairs_of_other name css : name ∉ cs_Name <$> css -> pairs_of name css = [].
Proof.
  induction css as [|cs css IH]; [done|]. rewrite fmap_cons, not_elem_of_cons. intros [Hn Hcss]. rewrite pairs_of_cons, decide_False by congruence. by apply IH.
Qed.
Lemma a_apply_app p1 p2 : forall a, a_apply a (p1 ++ p2) = (a' ← a_apply a p1; a_apply a' p2).
Proof. induction p1 as [|p p1 IH]; intros a; simpl; [done|]. case_bool_decide; [apply IH|done]. Qed.

(** ** The merge of change sets: what each tree gets is kept, in order, and there is one
    change set for each name *)
Abbreviation names css := (cs_Name <$> css).

(** The index of the change sets that are pending. *)
Definition indexed (pending : list NamedChangeSet) (idx : gmap bytes nat) : Prop :=
  forall name i, idx !! name = Some i <-> names pending !! i = Some name.

Lemma indexed_nodup pending idx : indexed pending idx -> NoDup (names pending).
Proof. intros Hi. apply NoDup_alt. intros i j name H1 H2. apply Hi in H1, H2. congruence. Qed.

Lemma extend_pairs i pairs name : forall pending cs, pending !! i = Some cs -> NoDup (names pending) ->
  pairs_of name (alter (extend pairs) i pending) = pairs_of name pending ++ (if decide (cs_Name cs = name) then pairs else []).
Proof.
  induction i as [|i IH]; intros [|c pending] cs; simpl; try done.
  - intros [= ->] Hnd. apply NoDup_cons in Hnd as [Hn _]. unfold alter. simpl. rewrite !pairs_of_cons. cbn [extend cs_Name cs_Pairs]. case_decide as Hc; [|by rewrite app_nil_r].
    rewrite (pairs_of_other name) by by rewrite <- Hc. by rewrite !app_nil_r.
  - intros Hi Hnd. apply NoDup_cons in Hnd as [_ Hnd]. rewrite !pairs_of_cons, <- app_assoc. f_equal. by apply IH.
Qed.
Lemma extend_names (i : nat) pairs (pending : list NamedChangeSet) : names (alter (extend pairs) i pending) = names pending.
Proof. revert pending. induction i as [|i IH]; intros [|c pending]; simpl; [done..|]. f_equal. apply IH. Qed.

(** What merging promises of the pending change sets. *)
Definition merged (pending css pending' : list NamedChangeSet) : Prop :=
  NoDup (names pending') /\ (forall name, name ∈ names pending' <-> name ∈ names pending \/ name ∈ names css) /\
  forall name, pairs_of name pending' = pairs_of name pending ++ pairs_of name css.

Lemma merged_step pending cs css pending1 pending' :
  merged pending [cs] pending1 -> merged pending1 css pending' -> merged pending (cs :: css) pending'.
Proof.
  intros (_ & N1 & P1) (Hnd & N2 & P2). split_and!; [done| |].
  - intros name. rewrite N2, N1. set_solver.
  - intros name. rewrite P2, P1, <- app_assoc. f_equal. rewrite !pairs_of_cons. by rewrite app_nil_r.
Qed.

Lemma indexed_extend (pending : list NamedChangeSet) idx i pairs : indexed pending idx -> indexed (alter (extend pairs) i pending) idx.
Proof. unfold indexed. by rewrite extend_names. Qed.
Lemma indexed_snoc pending idx cs : indexed pending idx -> idx !! cs_Name cs = None -> indexed (pending ++ [cs]) (<[cs_Name cs := length pending]> idx).
Proof.
  intros Hi Hn name i. rewrite fmap_app. simpl. rewrite lookup_app, lookup_insert_Some. specialize (Hi name i) as Hni.
  destruct (names pending !! i) as [n|] eqn:Hp.
  - assert (i < length pending)%nat by (apply lookup_lt_Some in Hp; by rewrite length_fmap in Hp). rewrite Hni. split; [intros [[_ ?]|[_ ?]]; [lia|done]|].
    intros [= ->]. right. split; [|done]. intros E. rewrite E in Hn. assert (idx !! name = Some i) by by apply Hni. congruence.
  - apply lookup_ge_None in Hp. rewrite length_fmap in *. rewrite Hni. split.
    + intros [[<- <-]|[_ [=]]]. by rewrite Nat.sub_diag.
    + intros [-> Hj]%list_lookup_singleton_Some || intros Hj. destruct (i - length pending)%nat eqn:E; [|done]. injection Hj as ->. left. split; [done|lia].
Qed.

Lemma alter_fst (i : nat) pairs (l : list (NamedChangeSet * option nat)) :
  (alter (fun p => (extend pairs p.1, p.2)) i l).*1 = alter (extend pairs) i l.*1.
Proof. apply list_fmap_alter. by apply Forall_true. Qed.

Lemma merge_loop_spec todo : forall done_ pend idx,
  NoDup (names todo) -> indexed pend.*1 idx ->
  (forall i cs j, pend !! i = Some (cs, Some j) -> cs_Name cs ∈ names done_) -> (forall name, name ∈ names done_ -> name ∉ names todo) ->
  exists l, merge_loop (seq (length done_) (length todo)) pend idx (done_ ++ todo) = (l, done_ ++ todo) /\ merged pend.*1 todo l.*1.
Proof.
  induction todo as [|cs todo IH]; intros done_ pend idx Hnd Hidx Horig Hdone.
  { simpl. eexists. split; [done|]. split_and!; [by eapply indexed_nodup| |by intros; rewrite app_nil_r]. intros name. set_solver. }
  rewrite fmap_cons in Hnd. apply NoDup_cons in Hnd as [Hcs Hnd]. cbn [length seq merge_loop].
  assert (Hhere : (done_ ++ cs :: todo) !! length done_ = Some cs) by by rewrite lookup_app_r, Nat.sub_diag. rewrite Hhere.
  assert (Hcur : done_ ++ cs :: todo = (done_ ++ [cs]) ++ todo) by by rewrite <- app_assoc.
  assert (Hlen : S (length done_) = length (done_ ++ [cs])) by (rewrite length_app; simpl; lia).
  assert (Hdone' : forall name, name ∈ names (done_ ++ [cs]) -> name ∉ names todo).
  { intros name. rewrite fmap_app. simpl. intros [Hn| ->%list_elem_of_singleton]%elem_of_app; [|done]. intros Ht. apply (Hdone name Hn). by right. }
  destruct (idx !! cs_Name cs) as [i|] eqn:Hi.
  - pose proof (proj1 (Hidx _ _) Hi) as Hname. rewrite <- list_fmap_compose, list_lookup_fmap in Hname. destruct (pend !! i) as [[c o]|] eqn:Hp; [|done]. injection Hname as Hname.
    assert (o = None) as ->. { destruct o as [j|]; [|done]. exfalso. apply (Hdone (cs_Name cs)); [rewrite <- Hname; by eapply Horig|left]. }
    rewrite Hcur, Hlen. destruct (IH (done_ ++ [cs]) (alter (fun p => (extend (cs_Pairs cs) p.1, p.2)) i pend) idx) as (l & Hl & Hm); [done| | |done|].
    + rewrite alter_fst. by apply indexed_extend.
    + intros k c' j Hk. rewrite fmap_app. apply elem_of_app. left. rewrite list_lookup_alter in Hk. case_decide as Hki; [|by eapply Horig]. subst. rewrite Hp in Hk. done.
    + exists l. split; [done|]. eapply merged_step; [|exact Hm]. rewrite alter_fst. assert (Hp1 : pend.*1 !! i = Some c) by by rewrite list_lookup_fmap, Hp.
      split_and!; [rewrite extend_names; by eapply indexed_nodup| |].
      * intros name. rewrite extend_names. assert (cs_Name c ∈ names pend.*1) by (apply list_elem_of_fmap_2; by eapply list_elem_of_lookup_2).
        simpl. rewrite list_elem_of_singleton, <- Hname. split; [by left|]. by intros [?| ->].
      * intros name. rewrite (extend_pairs _ _ _ _ _ Hp1) by by eapply indexed_nodup. rewrite pairs_of_cons, Hname, app_nil_r. done.
  - rewrite Hcur, Hlen. destruct (IH (done_ ++ [cs]) (pend ++ [(cs, Some (length done_))]) (<[cs_Name cs := length pend]> idx)) as (l & Hl & Hm); [done| | |done|].
    + rewrite fmap_app. simpl. rewrite <- (length_fmap fst pend). by apply indexed_snoc.
    + intros k c' j [Hk|[_ Hk]]%lookup_app_Some; rewrite fmap_app; apply elem_of_app; [left; by eapply Horig|right].
      apply list_lookup_singleton_Some in Hk as [_ [= <- _]]. left.
    + exists l. split; [done|]. eapply merged_step; [|exact Hm]. rewrite fmap_app. simpl. split_and!.
      * eapply indexed_nodup, indexed_snoc; [done|done].
      * intros name. by rewrite fmap_app, elem_of_app.
      * intros name. by rewrite pairs_of_app.
Qed.

Lemma first_index pending :
  NoDup (names pending) -> indexed pending (foldl (fun m '(i, cs) => <[cs_Name cs := i]> m) (∅ : gmap bytes nat) (imap (fun i cs => (i, cs)) pending)).
Proof.
  induction pending as [|cs pending IH] using rev_ind; intros Hnd.
  - intros name i. simpl. rewrite lookup_empty. done.
  - rewrite fmap_app in Hnd. apply NoDup_app in Hnd as (Hnd & Hcs & _). rewrite imap_app, foldl_app. simpl. rewrite Nat.add_0_r. apply indexed_snoc; [by apply IH|].
    destruct (foldl _ _ _ !! cs_Name cs) as [i|] eqn:Hi; [|done]. exfalso. apply (IH Hnd) in Hi. apply (Hcs (cs_Name cs)); [by eapply list_elem_of_lookup_2|left].
Qed.

Lemma mergePendingChangesets_spec pending css :
  NoDup (names pending) -> NoDup (names css) -> exists pending', mergePendingChangesets pending css = (pending', css) /\ merged pending css pending'.
Proof.
  intros Hp Hc. unfold mergePendingChangesets. destruct pending as [|c pending].
  - exists css. split; [done|]. split_and!; [done|set_solver|done].
  - set (idx := foldl _ _ _). destruct (merge_loop_spec css [] ((fun cs => (cs, None)) <$> c :: pending) idx) as (l & Hl & Hm); [done| | |set_solver|].
    + rewrite <- list_fmap_compose. unfold compose. simpl. rewrite list_fmap_id. by apply first_index.
    + intros i cs j Hi. apply list_lookup_fmap_Some in Hi as (x & [=] & _).
    + exists l.*1. cbn [app length] in Hl. rewrite Hl. split; [done|]. rewrite <- list_fmap_compose in Hm. unfold compose in Hm. simpl in Hm. by rewrite list_fmap_id in Hm.
Qed.

(** ** Trees by name *)
Definition tree_names {T} (m : Multi T) : list bytes := nt_Name <$> mt_trees m.
Definition index_ok {T} (m : Multi T) : Prop := forall name i, mt_treesByName m !! name = Some i <-> tree_names m !! i = Some name.

Lemma build_index_spec {T} (trees : list (Named T)) : forall i m m',
  build_index i trees m = (m', None) -> (forall name j, m !! name = Some j -> (j < i)%nat) ->
  forall name j, m' !! name = Some j <-> m !! name = Some j \/ ((i <= j)%nat /\ (nt_Name <$> trees) !! (j - i)%nat = Some name).
Proof.
  induction trees as [|e trees IH]; intros i m m'; simpl.
  - intros [= <-] _ name j. split; [by left|]. by intros [?|[_ ?]].
  - destruct (m !! nt_Name e) eqn:He; [done|]. intros Hb Hlt name j. rewrite (IH _ _ _ Hb).
    + rewrite lookup_insert_Some. destruct (decide (j = i)) as [->|Hji].
      * rewrite Nat.sub_diag. simpl. split; [intros [[[<- _]|[_ H]]|[? _]]; [right; split; [lia|done]|by left|lia]|].
        intros [H|[_ [= <-]]]; [|by left; left]. apply Hlt in H. lia.
      * split.
        -- intros [[[_ ?]|[_ H]]|[Hj H]]; [congruence|by left|]. right. split; [lia|]. destruct (j - i)%nat eqn:E; [lia|]. simpl. by replace (j - S i)%nat with n in H by lia.
        -- intros [H|[Hj H]]; [left; right; split; [congruence|done]|]. right. split; [lia|]. destruct (j - i)%nat eqn:E; [lia|]. simpl in H. by replace (j - S i)%nat with n by lia.
    + intros n k. rewrite lookup_insert_Some. intros [[_ <-]|[_ H%Hlt]]; lia.
Qed.

Lemma upgrades_index_ok {T} new (m m' : Multi T) ups : index_ok m -> apply_upgrades new m ups = (m', None) -> index_ok m'.
Proof.
  unfold apply_upgrades. intros Hok. destruct ups as [|u ups]; [by intros [= <-]|]. destruct (upgrade_loop new m (mt_trees m) (u :: ups)) as [l [e|]]; [done|].
  destruct (build_index 0 (sort_named l) ∅) as [index e] eqn:Hb. intros [= <- ->]. intros name i. unfold tree_names. cbn [mt_treesByName mt_trees with_index].
  rewrite (build_index_spec _ _ _ _ Hb); [|by intros ? ? ?]. rewrite lookup_empty, Nat.sub_0_r. split; [intros [?|[_ ?]]; done|]. intros H. right. split; [lia|done].
Qed.

(** ** Change sets applied one after the other, tree by tree *)
Definition applied_tree (css : list NamedChangeSet) (e e' : Named ATree) : Prop :=
  nt_Name e' = nt_Name e /\ a_apply (nt_Tree e) (pairs_of (nt_Name e) css) = Some (nt_Tree e').
Record applied (am : Multi ATree) (css : list NamedChangeSet) (am' : Multi ATree) : Prop := {
  ap_rest : am' = with_trees am (mt_trees am');
  ap_trees : Forall2 (applied_tree css) (mt_trees am) (mt_trees am');
  ap_known : forall name, name ∈ names css -> name ∈ tree_names am
}.

Lemma applied_names am css am' : applied am css am' -> tree_names am' = tree_names am.
Proof. intros [_ Ht _]. unfold tree_names. induction Ht as [|e e' l l' [Hn _] _ IH]; [done|]. rewrite !fmap_cons, IH. by f_equal. Qed.
Lemma applied_index am css am' : applied am css am' -> index_ok am -> index_ok am'.
Proof. intros Ha Hi name i. rewrite (applied_names _ _ _ Ha), (ap_rest _ _ _ Ha). apply Hi. Qed.

Lemma applied_trans am css1 am1 css2 am2 : applied am css1 am1 -> applied am1 css2 am2 -> applied am (css1 ++ css2) am2.
Proof.
  intros H1 H2. pose proof (applied_names _ _ _ H1) as Hn. destruct H1 as [R1 T1 K1], H2 as [R2 T2 K2]. split.
  - rewrite R2 at 1. by rewrite R1.
  - clear -T1 T2. revert T2. generalize (mt_trees am2). induction T1 as [|e e1 l l1 [N1 A1] _ IH]; intros l2 H2; inversion H2 as [|? e2 ? l2' [N2 A2] HT]; subst; constructor; [|by apply IH].
    split; [congruence|]. rewrite pairs_of_app, a_apply_app, A1. simpl. by rewrite <- N1.
  - intros name. rewrite fmap_app, elem_of_app, <- Hn. intros [H|H]; [rewrite Hn; by apply K1|by apply K2].
Qed.

Lemma index_lookup (am : Multi ATree) name i e : index_ok am -> mt_treesByName am !! name = Some i -> mt_trees am !! i = Some e -> nt_Name e = name.
Proof. intros Hok Hi He. apply Hok in Hi. unfold tree_names in Hi. rewrite list_lookup_fmap, He in Hi. by injection Hi. Qed.
Lemma index_unique (am : Multi ATree) i j e e' : index_ok am -> mt_trees am !! i = Some e -> mt_trees am !! j = Some e' -> nt_Name e = nt_Name e' -> i = j.
Proof.
  intros Hok Hi Hj Hn. assert (Hi' : tree_names am !! i = Some (nt_Name e)) by (unfold tree_names; by rewrite list_lookup_fmap, Hi).
  assert (Hj' : tree_names am !! j = Some (nt_Name e)) by (unfold tree_names; by rewrite list_lookup_fmap, Hj, Hn). apply Hok in Hi', Hj'. congruence.
Qed.

Lemma am_apply_spec am cs am' : index_ok am -> am_apply am cs = Some am' -> applied am [cs] am'.
Proof.
  intros Hok Ha. unfold am_apply in Ha. destruct (mt_treesByName am !! cs_Name cs) as [i|] eqn:Hi; [|done]. simpl in Ha.
  destruct (mt_trees am !! i) as [e|] eqn:He; [|done]. simpl in Ha. destruct (a_apply (nt_Tree e) (cs_Pairs cs)) as [a|] eqn:Hp; [|done]. injection Ha as <-.
  pose proof (index_lookup _ _ _ _ Hok Hi He) as Hname. split; [done| |].
  - unfold put_tree. cbn [mt_trees with_trees]. apply Forall2_same_length_lookup_2; [by rewrite length_insert|].
    intros j x y Hx [(<- & <- & _)|[Hne Hy]]%list_lookup_insert_Some.
    + rewrite He in Hx. injection Hx as <-. split; [done|]. rewrite pairs_of_cons, decide_True by done. by rewrite app_nil_r.
    + rewrite Hx in Hy. injection Hy as <-. split; [done|]. rewrite pairs_of_cons, decide_False; [done|]. intros E. apply Hne.
      eapply index_unique; [done|done|done|congruence].
  - intros name ->%list_elem_of_singleton. apply Hok in Hi. by eapply list_elem_of_lookup_2.
Qed.

Lemma am_applies_spec css : forall am am', index_ok am -> am_applies am css = Some am' -> applied am css am'.
Proof.
  induction css as [|cs css IH]; intros am am' Hok; cbn [am_applies].
  - intros [= <-]. split; [by destruct am| |set_solver]. apply Forall_Forall2_diag. by apply Forall_true.
  - destruct (am_apply am cs) as [am1|] eqn:Ha; [|done]. simpl. intros Has. pose proof (am_apply_spec _ _ _ Hok Ha) as H1.
    apply (applied_trans am [cs] am1); [done|]. apply IH; [by eapply applied_index|done].
Qed.

(** ** The replay of an entry, as values *)
Fixpoint am_replay_sets (am : Multi ATree) (css : list NamedChangeSet) : option (Multi ATree) :=
  match css with
  | [] => Some am
  | cs :: css =>
      i ← mt_treesByName am !! cs_Name cs; e ← mt_trees am !! i; a ← a_apply (nt_Tree e) (cs_Pairs cs);
      if bool_decide (savable a) then am_replay_sets (put_tree am i (mkNamed (nt_Name e) (a_save a))) css else None
  end.
Fixpoint am_replay_rest (trees : list (Named ATree)) (updated : list bytes) : option (list (Named ATree)) :=
  match trees with
  | [] => Some []
  | e :: trees =>
      if bool_decide (nt_Name e ∈ updated) then cons e <$> am_replay_rest trees updated
      else if bool_decide (savable (nt_Tree e)) then cons (nmap a_save e) <$> am_replay_rest trees updated else None
  end.
Definition am_replay (am : Multi ATree) (entry : ChangelogEntry) : option (Multi ATree) :=
  match apply_upgrades a_new am (ce_Upgrades entry) with
  | (am, Some _) => None
  | (am, None) =>
      am ← am_replay_sets am (ce_Changesets entry);
      trees ← am_replay_rest (mt_trees am) (names (ce_Changesets entry));
      Some (with_info (with_trees am trees) (mkCommitInfo (ce_Version entry) []))
  end.

(** A tree when some have been replayed. *)
Definition mixed (ns : list bytes) (e e' : Named ATree) : Named ATree := if bool_decide (nt_Name e ∈ ns) then nmap a_save e' else e.

Lemma pairs_of_one css cs : NoDup (names css) -> cs ∈ css -> pairs_of (cs_Name cs) css = cs_Pairs cs.
Proof.
  induction css as [|c css IH]; [by intros ? ?%not_elem_of_nil|]. rewrite fmap_cons. intros [Hn Hnd]%NoDup_cons [->|Hcs]%elem_of_cons; rewrite pairs_of_cons.
  - rewrite decide_True by done. by rewrite pairs_of_other, app_nil_r.
  - rewrite decide_False; [by apply IH|]. intros E. apply Hn. rewrite E. by apply list_elem_of_fmap_2.
Qed.

Lemma replay_sets_spec am css am' : index_ok am -> NoDup (names css) -> applied am css am' -> am_savable (mt_trees am') ->
  forall todo done_, css = done_ ++ todo ->
  am_replay_sets (with_trees am (zip_with (mixed (names done_)) (mt_trees am) (mt_trees am'))) todo =
  Some (with_trees am (zip_with (mixed (names css)) (mt_trees am) (mt_trees am'))).
Proof.
  intros Hok Hnd Hap Hsav. induction todo as [|cs todo IH]; intros done_ Hcss; [by rewrite app_nil_r in Hcss; subst|].
  assert (Hin : cs ∈ css) by (rewrite Hcss; apply elem_of_app; right; left). cbn [am_replay_sets mt_treesByName mt_trees with_trees].
  assert (Hname : cs_Name cs ∈ tree_names am) by (apply (ap_known _ _ _ Hap); by apply list_elem_of_fmap_2).
  apply list_elem_of_lookup in Hname as [i Hi]. pose proof (proj2 (Hok _ _) Hi) as Hidx. rewrite Hidx. simpl.
  unfold tree_names in Hi. rewrite list_lookup_fmap in Hi. destruct (mt_trees am !! i) as [e|] eqn:He; [|done]. injection Hi as Hi.
  destruct (Forall2_lookup_l _ _ _ _ _ (ap_trees _ _ _ Hap) He) as (e' & He' & Hn' & Ha'). rewrite Hi, (pairs_of_one css cs Hnd Hin) in Ha'.
  assert (Hnot : cs_Name cs ∉ names done_). { rewrite Hcss, fmap_app, fmap_cons in Hnd. apply NoDup_app in Hnd as (_ & Hd & _). intros Hx. apply (Hd _ Hx). left. }
  assert (Hm : mixed (names done_) e e' = e) by (unfold mixed; by rewrite Hi, bool_decide_false).
  rewrite lookup_zip_with, He, He'. cbn [mbind option_bind]. rewrite Hm, Ha'. cbn [mbind option_bind].
  assert (Hs : savable (nt_Tree e')) by (unfold am_savable in Hsav; rewrite Forall_lookup in Hsav; by eapply Hsav). rewrite bool_decide_true by done.
  rewrite <- (IH (done_ ++ [cs])) by by rewrite <- app_assoc. f_equal. unfold put_tree, with_trees. simpl. f_equal.
  apply list_eq. intros j. rewrite lookup_zip_with. destruct (decide (i = j)) as [<-|Hne].
  - rewrite list_lookup_insert_eq by (apply lookup_lt_Some in He, He'; rewrite length_zip_with; lia). rewrite He, He'. simpl. unfold mixed. rewrite fmap_app, bool_decide_true by (rewrite Hi; apply elem_of_app; right; left).
    unfold nmap. by rewrite Hn'.
  - rewrite list_lookup_insert_ne, lookup_zip_with by done. destruct (mt_trees am !! j) as [x|] eqn:Hx; [|done]. destruct (mt_trees am' !! j) as [x'|]; [|done]. simpl. f_equal.
    unfold mixed. rewrite fmap_app. assert (nt_Name x <> cs_Name cs) by (intros E; apply Hne; eapply index_unique; [done|done|done|congruence]).
    assert (Heq : nt_Name x ∈ names done_ <-> nt_Name x ∈ names done_ ++ names [cs]) by (rewrite elem_of_app; set_solver).
    by rewrite (bool_decide_ext _ _ Heq).
Qed.

Lemma replay_rest_spec css l l' : Forall2 (applied_tree css) l l' -> am_savable l' ->
  am_replay_rest (zip_with (mixed (names css)) l l') (names css) = Some (nmap a_save <$> l').
Proof.
  induction 1 as [|e e' l l' [Hn Ha] _ IH]; intros Hs; [done|]. apply Forall_cons in Hs as [Hs1 Hs]. cbn [zip_with am_replay_rest]. rewrite IH by done. unfold mixed.
  destruct (bool_decide_reflect (nt_Name e ∈ names css)) as [Hin|Hin].
  - rewrite bool_decide_true; [done|]. unfold nmap. simpl. by rewrite Hn.
  - rewrite pairs_of_other in Ha by done. injection Ha as Ha. rewrite !bool_decide_false by done. rewrite Ha, bool_decide_true by done. simpl. f_equal. f_equal. unfold nmap. by rewrite Hn, Ha.
Qed.

Lemma apply_upgrades_info {T} new (m : Multi T) info ups :
  ci_Version info = mt_Version m -> apply_upgrades new (with_info m info) ups = let '(m', e) := apply_upgrades new m ups in (with_info m' info, e).
Proof.
  intros Hv. unfold apply_upgrades. destruct ups as [|u ups]; [done|].
  assert (Ev : mt_Version (with_info m info) = mt_Version m) by exact Hv.
  assert (Hloop : forall us trees, upgrade_loop new (with_info m info) trees us = upgrade_loop new m trees us).
  { induction us as [|x us IH]; intros trees; simpl; [done|]. assert (E : upgrade_one new (with_info m info) trees x = upgrade_one new m trees x) by (unfold upgrade_one; by rewrite Ev).
    rewrite E. destruct (upgrade_one new m trees x); [apply IH|done]. }
  rewrite Hloop. cbn [mt_trees with_info]. destruct (upgrade_loop new m (mt_trees m) (u :: ups)) as [l [e|]]; [done|]. by destruct (build_index 0 (sort_named l) ∅).
Qed.
Lemma apply_upgrades_rest {T} new (m m' : Multi T) ups e :
  apply_upgrades new m ups = (m', e) -> mt_lastCommitInfo m' = mt_lastCommitInfo m /\ mt_initialVersion m' = mt_initialVersion m.
Proof.
  unfold apply_upgrades. destruct ups as [|u ups]; [by intros [= <- _]|]. destruct (upgrade_loop new m (mt_trees m) (u :: ups)) as [l [x|]]; [by intros [= <- _]|].
  destruct (build_index 0 (sort_named l) ∅). by intros [= <- _].
Qed.

Section Blocks.
Context (sha256 : bytes -> bytes).
Local Abbreviation am_save := (am_save sha256).

(** A block of a running node: its upgrades, and its change sets in the order they come. *)
Definition am_block (am : Multi ATree) (ups : list TreeNameUpgrade) (css : list NamedChangeSet) : option (Multi ATree) :=
  match apply_upgrades a_new am ups with
  | (_, Some _) => None
  | (am, None) => am ← am_applies am css; if bool_decide (am_savable (mt_trees am)) then Some (am_save am) else None
  end.

(** The infos of a replay are written at its end. *)
Definition forget {T} (m : Multi T) : Multi T := with_info m (mkCommitInfo (mt_Version m) []).

Lemma am_block_facts am ups css am' :
  index_ok am -> am_block am ups css = Some am' ->
  index_ok am' /\ mt_initialVersion am' = mt_initialVersion am /\ mt_Version am' = am_next am /\ am_small (mt_trees am') /\
  mt_lastCommitInfo am' = mkCommitInfo (mt_Version am') (am_infos sha256 (mt_trees am')).
Proof.
  unfold am_block. intros Hok Hb. destruct (apply_upgrades a_new am ups) as [am1 [e|]] eqn:Hu; [done|].
  destruct (am_applies am1 css) as [am2|] eqn:Ha; [|done]. simpl in Hb. case_bool_decide as Hs; [|done]. injection Hb as <-.
  pose proof (upgrades_index_ok _ _ _ _ Hok Hu) as Hok1. pose proof (am_applies_spec _ _ _ Hok1 Ha) as Hap. pose proof (applied_index _ _ _ Hap Hok1) as Hok2.
  destruct (apply_upgrades_rest _ _ _ _ _ Hu) as [Hi Hv]. pose proof (ap_rest _ _ _ Hap) as Hr. split_and!.
  - intros name i. unfold tree_names, MultiTreeSpec.am_save. simpl. rewrite <- list_fmap_compose. apply Hok2.
  - rewrite Hr. simpl. congruence.
  - rewrite Hr. unfold am_next, mt_Version. simpl. unfold am_next, mt_Version. simpl. congruence.
  - by apply savable_small.
  - done.
Qed.

(** An entry of the log replayed is the block that wrote it. *)
Lemma replay_block am info ups css css' am' :
  index_ok am -> am_block am ups css = Some am' -> merged [] css css' -> ci_Version info = mt_Version am ->
  am_replay (with_info am info) (mkEntry (mt_Version am') css' ups) = Some (forget am').
Proof.
  unfold am_block. intros Hok Hb (Hnd & Hn & Hp) Hinfo. destruct (apply_upgrades a_new am ups) as [am1 [e|]] eqn:Hu; [done|].
  destruct (am_applies am1 css) as [am2|] eqn:Ha; [|done]. simpl in Hb. case_bool_decide as Hs; [|done]. injection Hb as <-.
  pose proof (upgrades_index_ok _ _ _ _ Hok Hu) as Hok1. pose proof (am_applies_spec _ _ _ Hok1 Ha) as [Hr Ht Hk].
  unfold am_replay. cbn [ce_Upgrades ce_Changesets ce_Version]. rewrite apply_upgrades_info, Hu by done.
  assert (Hap : applied (with_info am1 info) css' (with_info am2 info)).
  { split; [rewrite Hr at 1; done| |].
    - eapply Forall2_impl; [exact Ht|]. intros e e' [H1 H2]. split; [done|]. by rewrite Hp.
    - intros name Hname. apply Hk. apply Hn in Hname as [Hx|Hx]; [by apply not_elem_of_nil in Hx|done]. }
  pose proof (replay_sets_spec (with_info am1 info) css' (with_info am2 info) Hok1 Hnd Hap Hs css' [] eq_refl) as Hsets. cbn [mt_trees with_info] in Hsets.
  assert (E : with_trees (with_info am1 info) (zip_with (mixed (names [])) (mt_trees am1) (mt_trees am2)) = with_info am1 info).
  { unfold with_trees, with_info. simpl. f_equal. clear -Ht. induction Ht as [|e e' l l' _ _ IH]; simpl; [done|]. by rewrite IH. }
  rewrite E in Hsets. rewrite Hsets. cbn [mbind option_bind mt_trees with_trees]. rewrite replay_rest_spec; [|exact (ap_trees _ _ _ Hap)|done].
  simpl. f_equal. rewrite Hr. done.
Qed.
End Blocks.
