(* ===== verification/MultiTreeRecover.v ===== *)
(** A node that restarts.  [db_run] is a running node: blocks of upgrades and change sets,
    each committed and appended to the log.  [Catchup] on the trees of the version where the
    log starts brings back the node's trees, its versions and its hashes. *)
From stdpp Require Import base gmap sets list sorting.
From Stdlib Require Import ZArith Lia.
From S2P Require Import Prelude KVStore MergeIter AVL AVLPure AVLHeap AVLOps AVLTree MultiTree MultiTreeSpec MultiTreeReplay.
Local Open Scope Z_scope.

Section Recovery.
Context (sha256 : bytes -> bytes).
Local Abbreviation mholds := (mholds sha256).
Local Abbreviation denotes := (denotes sha256).
Local Abbreviation focused := (focused sha256).

(** ** The replay of an entry, in the heap *)
Lemma wp_apply_async h T a A pairs a' :
  bounded h -> denotes h T a A -> a_apply a pairs = Some a' -> savable a' ->
  wp (apply_async sha256 T pairs) h (fun h' T' => exists h1 T1 A', denotes h1 T1 a' A' /\ evolves (t_cowVersion T) h A h1 A' /\ t_cowVersion T1 = t_cowVersion T /\
    rehashed sha256 h1 h' /\ denotes h' T' (a_save a') A' /\ t_cowVersion T' = t_cowVersion T).
Proof.
  intros Hb Hd Ha Hs. unfold apply_async. eapply wp_then; [by eapply wp_ApplyChangeSet|]. intros h1 T1 (A' & Hd1 & He & Hc).
  eapply wp_then; [by apply (wp_SaveVersion sha256 h1 T1 a' A')|]. intros h2 r (Hr & T2 & -> & Hd2 & Hc2). apply wp_ret.
  exists h1, T1, A'. split_and!; try done. congruence.
Qed.

Lemma mholds_async h rest t am i e pairs a' :
  mholds h rest t am -> mt_trees am !! i = Some e -> a_apply (nt_Tree e) pairs = Some a' -> savable a' ->
  exists T, mt_trees t !! i = Some (mkNamed (nt_Name e) T) /\
    wp (apply_async sha256 T pairs) h (fun h' T' => mholds h' rest (put_tree t i (mkNamed (nt_Name e) T')) (put_tree am i (mkNamed (nt_Name e) (a_save a')))).
Proof.
  intros Hm Hi Ha Hs. destruct (mholds_at _ _ _ _ _ _ _ Hm Hi) as (T & A & HT & Hd & Hput). exists T. split; [done|].
  eapply wp_mono; [|eapply wp_apply_async; [by eapply mholds_bounded|done|done|done]]. intros h' T' (h1 & T1 & A' & Hd1 & He & Hc1 & Hr & Hd' & Hc').
  pose proof (Hput h1 T1 a' A' He Hd1 Hc1) as Hm1. assert (Hi1 : mt_trees (put_tree am i (mkNamed (nt_Name e) a')) !! i = Some (mkNamed (nt_Name e) a')).
  { unfold put_tree. simpl. apply list_lookup_insert_eq. by eapply lookup_lt_Some. }
  pose proof (mholds_rehash _ _ _ _ _ _ Hm1 Hr) as Hm2. destruct (mholds_at _ _ _ _ _ _ _ Hm2 Hi1) as (T2 & A2 & HT2 & Hd2 & Hput2).
  assert (Hlt : (i < length (mt_trees t))%nat) by by eapply lookup_lt_Some.
  assert (T2 = T1) as ->. { unfold put_tree in HT2. simpl in HT2. rewrite list_lookup_insert_eq in HT2 by done. by injection HT2. }
  assert (A2 = A') as ->.
  { pose proof (denotes_rehashed _ _ _ _ _ _ Hr Hd1) as Hd1'. destruct Hd1' as [_ _ _ _ R1], Hd2 as [_ _ _ _ R2]. cbn [nt_Tree] in R2. destruct (t_root T1), (a_root a'); try done; [|congruence].
    by apply (rep_functional _ _ _ _ _ _ _ R2 R1). }
  pose proof (Hput2 h' T' (a_save a') A' (evolves_refl _ _ _ (mholds_bounded _ _ _ _ _ Hm2)) Hd') as Hfin. rewrite Hc1 in Hfin. specialize (Hfin Hc').
  unfold put_tree in Hfin. cbn [mt_trees with_trees nt_Name] in Hfin. by rewrite !list_insert_insert_eq in Hfin.
Qed.

Lemma index_same h rest t am : mholds h rest t am -> mt_treesByName t = mt_treesByName am /\ mt_Version t = mt_Version am /\ mt_initialVersion t = mt_initialVersion am.
Proof. by intros (m & -> & -> & _). Qed.

Lemma wp_replay_sets css : forall h rest t am am',
  mholds h rest t am -> am_replay_sets am css = Some am' -> wp (replay_sets sha256 t css) h (fun h' '(t', e) => e = None /\ mholds h' rest t' am').
Proof.
  induction css as [|cs css IH]; intros h rest t am am' Hm; cbn [am_replay_sets replay_sets].
  - intros [= <-]. by apply wp_ret.
  - rewrite (proj1 (index_same _ _ _ _ Hm)). destruct (mt_treesByName am !! cs_Name cs) as [i|]; [|done]. cbn [mbind option_bind].
    destruct (mt_trees am !! i) as [e|] eqn:He; [|done]. cbn [mbind option_bind]. destruct (a_apply (nt_Tree e) (cs_Pairs cs)) as [a|] eqn:Ha; [|done]. cbn [mbind option_bind].
    case_bool_decide as Hs; [|done]. intros Hrest. destruct (mholds_async _ _ _ _ _ _ _ _ Hm He Ha Hs) as (T & -> & Hw). eapply wp_then; [exact Hw|].
    intros h' T' Hm'. exact (IH h' rest _ _ am' Hm' Hrest).
Qed.

Lemma wp_replay_rest updated rest post : forall pre h values,
  focused h rest pre post -> am_replay_rest (nmap value_of <$> post) updated = Some values ->
  wp (replay_rest sha256 (nmap tree_of <$> post) updated) h (loop_post sha256 rest pre values).
Proof.
  induction post as [|[name [[T a] A]] post IH]; intros pre h values Hf.
  - intros [= <-]. apply wp_ret. exists []. by rewrite app_nil_r.
  - rewrite !fmap_cons. cbn [am_replay_rest replay_rest nt_Name nt_Tree nmap]. destruct (focused_head _ _ _ _ _ _ _ _ _ Hf) as [Hd Hput].
    destruct (bool_decide_reflect (name ∈ updated)) as [Hin|Hin].
    + destruct (am_replay_rest (nmap value_of <$> post) updated) as [vs|] eqn:Hr; [|done]. intros [= <-]. apply wp_bind, wp_ret.
      eapply wp_then; [apply (IH (pre ++ [mkNamed name (T, a, A)]) h vs); [|done]|].
      { apply (Hput h T a A); [apply evolves_refl, Hf|done|done]. }
      intros h' l Hl. apply wp_ret. by apply (loop_post_cons sha256 _ _ (mkNamed name (T, a, A))).
    + case_bool_decide as Hs; [|done]. destruct (am_replay_rest (nmap value_of <$> post) updated) as [vs|] eqn:Hr; [|done]. intros [= <-].
      eapply wp_then; [eapply (wp_apply_async h T a A [] a); [apply Hf|done|done|done]|]. intros h' T' (h1 & T1 & A' & Hd1 & He & Hc1 & Hrh & Hd' & Hc').
      pose proof (Hput h1 T1 a A' He Hd1 Hc1) as Hf1.
      assert (Hf2 : focused h' rest (pre ++ [mkNamed name (T', a_save a, A')]) post).
      { eapply (focused_save _ h1 rest pre name T1 a A'); [|done|done|congruence]. unfold MultiTreeSpec.focused in Hf1 |- *. by rewrite <- app_assoc in Hf1. }
      eapply wp_then; [apply (IH _ h' vs Hf2 eq_refl)|]. intros h2 l Hl. apply wp_ret. by apply (loop_post_cons sha256 _ _ (mkNamed name (T', a_save a, A'))).
Qed.

Lemma wp_replay_entry h rest t am entry am' current endVersion :
  mholds h rest t am -> am_replay am entry = Some am' -> current < ce_Version entry -> endVersion = 0 \/ ce_Version entry <= endVersion ->
  wp (replay_entry sha256 current endVersion t entry) h (fun h' '(t', r) => r = inl true /\ mholds h' rest t' am').
Proof.
  intros Hm Hr Hcur Hend. unfold replay_entry. rewrite bool_decide_false by lia.
  assert (Hskip : bool_decide (endVersion <> 0) && bool_decide (endVersion < ce_Version entry) = false).
  { apply andb_false_iff. destruct Hend as [->|Hle]; [left; apply bool_decide_eq_false; lia|right; apply bool_decide_eq_false; lia]. }
  rewrite Hskip. unfold am_replay in Hr. destruct (apply_upgrades a_new am (ce_Upgrades entry)) as [am1 [e|]] eqn:Hu; [done|].
  destruct (mholds_upgrades _ _ _ _ _ _ _ Hm Hu) as (t1 & -> & Hm1). destruct (am_replay_sets am1 (ce_Changesets entry)) as [am2|] eqn:Hsets; [|done]. cbn [mbind option_bind] in Hr.
  destruct (am_replay_rest (mt_trees am2) (cs_Name <$> ce_Changesets entry)) as [trees|] eqn:Hrest; [|done]. injection Hr as <-.
  eapply wp_then; [by eapply wp_replay_sets|]. intros h2 [t2 e] [-> (m & -> & -> & Hw)].
  eapply wp_then; [apply (wp_replay_rest _ rest (mt_trees m) [] h2 trees Hw Hrest)|]. intros h3 l (post' & -> & Hv & Hf). unfold MultiTreeSpec.focused in Hf. rewrite app_nil_l, app_nil_r in Hf.
  apply wp_ret. split; [done|]. exists (with_info (with_trees m post') (mkCommitInfo (ce_Version entry) [])). split_and!; [done| |exact Hf].
  unfold mmap, with_info, with_trees. simpl. by rewrite Hv.
Qed.

(** ** The entries of a run *)
Inductive chain : Multi ATree -> list ChangelogEntry -> Multi ATree -> Prop :=
| chain_nil am : chain am [] am
| chain_cons am e css am1 es am2 :
    index_ok am -> am_block sha256 am (ce_Upgrades e) css = Some am1 -> merged [] css (ce_Changesets e) -> ce_Version e = mt_Version am1 ->
    chain am1 es am2 -> chain am (e :: es) am2.

Lemma chain_snoc am es am1 e css am2 :
  chain am es am1 -> index_ok am1 -> am_block sha256 am1 (ce_Upgrades e) css = Some am2 -> merged [] css (ce_Changesets e) -> ce_Version e = mt_Version am2 ->
  chain am (es ++ [e]) am2.
Proof. induction 1; intros Hok Hb Hm Hv; simpl; econstructor; eauto. constructor. Qed.

Lemma next_grows v init : 0 <= v -> v < NextVersion v init /\ (1 <= v -> NextVersion v init = v + 1).
Proof. unfold NextVersion. destruct (bool_decide_reflect (v = 0)), (bool_decide_reflect (1 < init)); simpl; lia. Qed.

(** The versions of a run follow each other. *)
Lemma chain_versions am es am' :
  chain am es am' -> 0 <= mt_Version am ->
  (forall k e, es !! k = Some e -> ce_Version e = am_next am + Z.of_nat k) /\ mt_Version am' = (if decide (es = []) then mt_Version am else am_next am + Z.of_nat (length es) - 1).
Proof.
  induction 1 as [am|am e css am1 es am2 Hok Hb Hm Hv Hch IH]; intros H0; [by rewrite decide_True|].
  destruct (am_block_facts _ _ _ _ _ Hok Hb) as (_ & Hi & Hver & _). destruct (next_grows (mt_Version am) (mt_initialVersion am) H0) as [Hg _].
  unfold am_next in *. destruct IH as [IH1 IH2]; [lia|]. destruct (next_grows (mt_Version am1) (mt_initialVersion am1)) as [_ Hg1]; [lia|]. specialize (Hg1 ltac:(lia)). split.
  - intros [|k] x; simpl; [intros [= <-]; lia|]. intros Hx. rewrite (IH1 _ _ Hx), Hg1. lia.
  - rewrite decide_False by done. rewrite IH2. simpl. case_decide; [subst; simpl; lia|lia].
Qed.

Lemma chain_index am es am' : index_ok am -> chain am es am' -> index_ok am'.
Proof. intros Hok. induction 1 as [|am e css am1 es am2 _ Hb Hm Hv Hch IH]; [done|]. apply IH. by apply (am_block_facts _ _ _ _ _ Hok Hb). Qed.

(** After a block, the commit info is that of its trees. *)
Lemma chain_info am es am' :
  index_ok am -> chain am es am' -> es <> [] -> am_small (mt_trees am') /\ mt_lastCommitInfo am' = mkCommitInfo (mt_Version am') (am_infos sha256 (mt_trees am')).
Proof.
  intros Hok. induction 1 as [|am e css am1 es am2 _ Hb Hmg Hver Hch IH]; intros Hes; [done|]. pose proof (am_block_facts _ _ _ _ _ Hok Hb) as (Hok1 & _ & _ & Hsm & Hinfo).
  destruct es; [inversion Hch; by subst|by apply IH].
Qed.

(** ** The log *)
Record is_log (log : ChangelogWAL) (first : Z) (entries : list ChangelogEntry) : Prop := {
  log_first : 1 <= first;
  log_offsets : entries <> [] -> wal_FirstOffset log = first /\ wal_LastOffset log = first + Z.of_nat (length entries) - 1;
  log_empty : entries = [] -> wal_LastOffset log = 0;
  log_read : forall k e, entries !! k = Some e -> wal_Read log (first + Z.of_nat k) = Some e
}.

Definition wal_of (first : Z) (entries : list ChangelogEntry) : ChangelogWAL :=
  mkWAL first (match entries with [] => 0 | _ => first + Z.of_nat (length entries) - 1 end) (fun i => if bool_decide (first <= i) then entries !! Z.to_nat (i - first) else None).
Lemma wal_of_is_log first entries : 1 <= first -> is_log (wal_of first entries) first entries.
Proof.
  intros Hf. split; [done| |by intros ->|].
  - intros Hne. split; [done|]. by destruct entries.
  - intros k e Hk. simpl. rewrite bool_decide_true by lia. by replace (Z.to_nat (first + Z.of_nat k - first)) with k by lia.
Qed.

(** Entries past the target are read and dropped. *)
Lemma wp_Replay_past log current endVersion es2 : forall index h rest t am n,
  (forall k e, es2 !! k = Some e -> wal_Read log (index + Z.of_nat k) = Some e /\ endVersion <> 0 /\ endVersion < ce_Version e) -> mholds h rest t am ->
  wp (Replay sha256 log index (length es2) current endVersion t n) h (fun h' '(t', n', e) => e = None /\ n' = n /\ mholds h' rest t' am).
Proof.
  induction es2 as [|e es2 IH]; intros index h rest t am n Hread Hm; cbn [Replay length]; [by apply wp_ret|].
  destruct (Hread 0%nat e eq_refl) as (Hr & Hz & Hlt). rewrite Z.add_0_r in Hr. rewrite Hr. unfold replay_entry.
  assert (Hgo : wp (Replay sha256 log (index + 1) (length es2) current endVersion t n) h (fun h' '(t', n', e) => e = None /\ n' = n /\ mholds h' rest t' am)).
  { apply IH; [|done]. intros k x Hx. specialize (Hread (S k) x Hx). by replace (index + 1 + Z.of_nat k) with (index + Z.of_nat (S k)) by lia. }
  destruct (bool_decide (ce_Version e <= current)); [by apply wp_bind, wp_ret|]. rewrite !bool_decide_true by done. by apply wp_bind, wp_ret.
Qed.

Lemma wp_Replay log current endVersion es2 am es1 am1 :
  chain am es1 am1 -> forall index h rest t n info,
  (forall k e, (es1 ++ es2) !! k = Some e -> wal_Read log (index + Z.of_nat k) = Some e) ->
  (forall e, e ∈ es1 -> current < ce_Version e /\ (endVersion = 0 \/ ce_Version e <= endVersion)) ->
  (forall e, e ∈ es2 -> endVersion <> 0 /\ endVersion < ce_Version e) -> mholds h rest t (with_info am info) -> ci_Version info = mt_Version am ->
  wp (Replay sha256 log index (length (es1 ++ es2)) current endVersion t n) h
    (fun h' '(t', n', e) => e = None /\ n' = n + Z.of_nat (length es1) /\ mholds h' rest t' (if decide (es1 = []) then with_info am info else forget am1)).
Proof.
  induction 1 as [am|am e css am1 es am2 Hok Hb Hmg Hv Hch IH]; intros index h rest t n info Hread H1 H2 Hm Hi.
  - cbn [app length]. rewrite Z.add_0_r. apply wp_Replay_past; [|done]. intros k e He. split; [by apply Hread|]. apply H2. by eapply list_elem_of_lookup_2.
  - cbn [app length Replay]. pose proof (Hread 0%nat e eq_refl) as Hr. rewrite Z.add_0_r in Hr. rewrite Hr. destruct (H1 e) as [Hc Hend]; [left|].
    assert (Hrep : am_replay (with_info am info) e = Some (forget am1)). { destruct e as [v sets ups]. cbn in Hv. rewrite Hv. by eapply replay_block. }
    eapply wp_then; [by eapply wp_replay_entry|]. intros h1 [t1 r] [-> Hm1].
    eapply wp_mono; [|apply (IH (index + 1) h1 rest t1 (n + 1) (mkCommitInfo (mt_Version am1) [])); [|intros x Hx; apply H1; by right|done|done|done]].
    + intros h2 [[t2 n2] x] (-> & -> & Hm2). split_and!; [done|lia|]. rewrite decide_False by done. case_decide as Hes; [|done]. subst. by inversion Hch; subst.
    + intros k x Hx. specialize (Hread (S k) x Hx). by replace (index + 1 + Z.of_nat k) with (index + Z.of_nat (S k)) by lia.
Qed.

(** [Catchup] brings trees of a version to the target, or to the end of the log. *)
Lemma wp_Catchup log first old es1 es2 delta endVersion h rest t am am1 am2 :
  is_log log first (old ++ es1 ++ es2) -> chain am es1 am1 -> chain am1 es2 am2 -> index_ok am ->
  0 <= mt_Version am < 2 ^ 62 -> -2 ^ 62 < delta < 2 ^ 62 -> delta = am_next am - (first + Z.of_nat (length old)) -> (old <> [] -> 1 <= mt_Version am) ->
  (endVersion = 0 /\ es2 = []) \/ (endVersion = mt_Version am1 /\ endVersion <> 0) ->
  mholds h rest t am ->
  wp (Catchup sha256 t log delta endVersion) h (fun h' '(t', e) => e = None /\ mholds h' rest t' am1).
Proof.
  intros [Lf Lo Le Lr] Hc1 Hc2 Hok Hv Hdel Hdelta Hold Hend Hm. unfold Catchup. destruct (chain_versions _ _ _ Hc1 ltac:(lia)) as [V1 V1'].
  pose proof (index_same _ _ _ _ Hm) as (_ & Ev & _). rewrite Ev. destruct (next_grows (mt_Version am) (mt_initialVersion am)) as [Hg Hg1]; [lia|]. fold (am_next am) in Hg, Hg1.
  destruct (decide (old ++ es1 ++ es2 = [])) as [Hnil|Hnil].
  { rewrite (Le Hnil), bool_decide_true by done. apply wp_ret. split; [done|]. apply app_eq_nil in Hnil as [_ [-> _]%app_eq_nil]. by inversion Hc1; subst. }
  destruct (Lo Hnil) as [-> ->]. rewrite !length_app, !Nat2Z.inj_add in *. assert (0 < length old + (length es1 + length es2))%nat.
  { rewrite <- !length_app. destruct (old ++ es1 ++ es2); [done|simpl; lia]. }
  rewrite (bool_decide_false (first + _ - 1 = 0)), (bool_decide_false (first + _ - 1 < first)) by lia. cbn [orb].
  assert (E64 : int64 (mt_Version am + 1 - delta) = mt_Version am + 1 - delta) by (unfold int64; rewrite Z.mod_small; lia). rewrite E64. cbv zeta.
  set (start := if (_ : bool) then first else _). assert (Es : start = first + Z.of_nat (length old)).
  { unfold start. destruct (bool_decide_reflect (mt_Version am + 1 - delta <= 0)), (bool_decide_reflect (mt_Version am + 1 - delta < first)); cbn [orb]; destruct old; simpl in *; try lia; specialize (Hold ltac:(done)); lia. }
  rewrite Es. case_bool_decide as Hlast.
  { apply wp_ret. split; [done|]. destruct es1; [by inversion Hc1; subst|simpl in *; lia]. }
  replace (Z.to_nat _) with (length (es1 ++ es2)) by (rewrite length_app; lia).
  eapply wp_then; [eapply (wp_Replay log (mt_Version am) endVersion es2 am es1 am1 Hc1 _ h rest t 0 (mt_lastCommitInfo am))|].
  - intros k e Hk. rewrite <- Z.add_assoc, <- Nat2Z.inj_add. apply Lr. rewrite lookup_app_r by lia. by replace (length old + k - length old)%nat with k by lia.
  - intros e (k & Hk)%list_elem_of_lookup. rewrite (V1 _ _ Hk). split; [lia|]. destruct Hend as [[-> _]|[-> _]]; [by left|right]. rewrite V1'.
    case_decide; [by subst|]. apply lookup_lt_Some in Hk. lia.
  - intros e (k & Hk)%list_elem_of_lookup. destruct Hend as [[_ ->]|[-> Hz]]; [done|]. split; [done|].
    assert (H1 : 0 <= mt_Version am1) by (rewrite V1'; case_decide; lia). destruct (chain_versions _ _ _ Hc2 H1) as [V2 _]. rewrite (V2 _ _ Hk).
    destruct (next_grows (mt_Version am1) (mt_initialVersion am1) H1) as [Hg2 _]. unfold am_next. lia.
  - by destruct am.
  - done.
  - intros h' [[t' n'] e] (-> & -> & Hm'). case_decide as Hes.
    + subst. rewrite bool_decide_false by (simpl; lia). apply wp_bind, wp_ret, wp_ret. split; [done|]. inversion Hc1; subst. by destruct am1.
    + rewrite bool_decide_true by (destruct es1; [done|simpl; lia]).
      destruct (chain_info _ _ _ Hok Hc1 Hes) as [Hsm Hinfo]. eapply wp_then; [by apply (wp_UpdateCommitInfo sha256 h' rest t' (forget am1))|]. intros h2 t2 Hm2. apply wp_ret. split; [done|].
      assert (E : with_info (forget am1) (mkCommitInfo (mt_Version (forget am1)) (am_infos sha256 (mt_trees (forget am1)))) = am1); [|by rewrite E in Hm2].
      unfold with_info, forget, mt_Version in *. simpl. rewrite <- Hinfo. by destruct am1.
Qed.

(** ** A running node *)
Record block := mkBlock { b_upgrades : list TreeNameUpgrade; b_calls : list (list NamedChangeSet) }.

(** The change sets of a block, call by call, up to an error. *)
Fixpoint db_calls (db : DB) (calls : list (list NamedChangeSet)) : HM (DB * option MTError) :=
  match calls with
  | [] => mret (db, None)
  | css :: calls =>
      '(db, e) ← db_ApplyChangeSets db css;
      match (e : option MTError) with Some e => mret (db, Some e) | None => db_calls db calls end
  end.
Definition db_block (db : DB) (b : block) : HM (DB * (Z + MTError)) :=
  match db_ApplyUpgrades db (b_upgrades b) with
  | (db, Some e) => mret (db, inr e)
  | (db, None) => '(db, e) ← db_calls db (b_calls b); match (e : option MTError) with Some e => mret (db, inr e) | None => db_Commit sha256 db true end
  end.
Fixpoint db_run (db : DB) (blocks : list block) : HM (DB * option MTError) :=
  match blocks with
  | [] => mret (db, None)
  | b :: blocks => '(db, r) ← db_block db b; match (r : Z + MTError) with inr e => mret (db, Some e) | inl _ => db_run db blocks end
  end.

(** Each call has one change set for each name. *)
Definition block_ok (b : block) : Prop := Forall (fun css => NoDup (names css)) (b_calls b).
Fixpoint am_run (am : Multi ATree) (blocks : list block) : option (Multi ATree) :=
  match blocks with
  | [] => Some am
  | b :: blocks => am ← am_block sha256 am (b_upgrades b) (concat (b_calls b)); am_run am blocks
  end.

Record db_holds (h : heap) (rest : list cell) (db : DB) (am : Multi ATree) : Prop := {
  dh_tree : mholds h rest (db_MultiTree db) am;
  dh_writable : db_readOnly db = false
}.

Lemma am_applies_app css1 css2 : forall am, am_applies am (css1 ++ css2) = (am' ← am_applies am css1; am_applies am' css2).
Proof. induction css1 as [|cs css1 IH]; intros am; [done|]. cbn [app am_applies]. destruct (am_apply am cs); [apply IH|done]. Qed.

Lemma merged_trans p css1 p1 css2 p2 : merged p css1 p1 -> merged p1 css2 p2 -> merged p (css1 ++ css2) p2.
Proof.
  intros (_ & N1 & P1) (Hnd & N2 & P2). split_and!; [done| |].
  - intros name. rewrite N2, N1, fmap_app, elem_of_app. tauto.
  - intros name. by rewrite P2, P1, pairs_of_app, app_assoc.
Qed.
Lemma merged_refl p : NoDup (names p) -> merged p [] p.
Proof. intros Hp. split_and!; [done|set_solver|]. intros name. by rewrite app_nil_r. Qed.

Lemma wp_db_ApplyChangeSets h rest db am css am' :
  db_holds h rest db am -> NoDup (names (ce_Changesets (db_pendingLogEntry db))) -> NoDup (names css) -> am_applies am css = Some am' ->
  wp (db_ApplyChangeSets db css) h (fun h' '(db', e) => e = None /\ db_holds h' rest db' am' /\ db_log db' = db_log db /\
    ce_Upgrades (db_pendingLogEntry db') = ce_Upgrades (db_pendingLogEntry db) /\
    merged (ce_Changesets (db_pendingLogEntry db)) css (ce_Changesets (db_pendingLogEntry db'))).
Proof.
  intros [Hm Hw] Hp Hc Ha. unfold db_ApplyChangeSets. destruct css as [|cs css].
  - injection Ha as <-. apply wp_ret. split_and!; try done. by apply merged_refl.
  - rewrite Hw. destruct (mergePendingChangesets_spec _ _ Hp Hc) as (p' & -> & Hmg). eapply wp_then; [by eapply wp_mt_ApplyChangeSets|].
    intros h' [t' e] [-> Hm']. apply wp_ret. by split_and!.
Qed.

Lemma wp_db_calls calls : forall h rest db am am',
  db_holds h rest db am -> NoDup (names (ce_Changesets (db_pendingLogEntry db))) -> Forall (fun css => NoDup (names css)) calls ->
  am_applies am (concat calls) = Some am' ->
  wp (db_calls db calls) h (fun h' '(db', e) => e = None /\ db_holds h' rest db' am' /\ db_log db' = db_log db /\
    ce_Upgrades (db_pendingLogEntry db') = ce_Upgrades (db_pendingLogEntry db) /\
    merged (ce_Changesets (db_pendingLogEntry db)) (concat calls) (ce_Changesets (db_pendingLogEntry db'))).
Proof.
  induction calls as [|css calls IH]; intros h rest db am am' Hd Hp Hc Ha; cbn [db_calls concat].
  - injection Ha as <-. apply wp_ret. split_and!; try done. by apply merged_refl.
  - apply Forall_cons in Hc as [Hc1 Hc]. cbn [concat] in Ha. rewrite am_applies_app in Ha. destruct (am_applies am css) as [am1|] eqn:Ha1; [|done]. cbn [mbind option_bind] in Ha.
    eapply wp_then; [by eapply wp_db_ApplyChangeSets|]. intros h1 [db1 e] (-> & Hd1 & Hl1 & Hu1 & Hm1). eapply wp_mono; [|eapply IH; [exact Hd1|apply Hm1|done|exact Ha]].
    intros h2 [db2 e] (-> & Hd2 & Hl2 & Hu2 & Hm2). split_and!; [done|done|congruence|congruence|by eapply merged_trans].
Qed.

Lemma wp_db_block h rest db am b am' :
  db_holds h rest db am -> db_pendingLogEntry db = no_entry -> block_ok b -> am_block sha256 am (b_upgrades b) (concat (b_calls b)) = Some am' ->
  wp (db_block db b) h (fun h' '(db', r) => r = inl (mt_Version am') /\ db_holds h' rest db' am' /\ db_pendingLogEntry db' = no_entry /\
    exists e, db_log db' = db_log db ++ [e] /\ ce_Upgrades e = b_upgrades b /\ merged [] (concat (b_calls b)) (ce_Changesets e) /\ ce_Version e = mt_Version am').
Proof.
  intros [Hm Hw] Hp Hbk Hb. unfold am_block in Hb. destruct (apply_upgrades a_new am (b_upgrades b)) as [am1 [e|]] eqn:Hu; [done|].
  destruct (am_applies am1 (concat (b_calls b))) as [am2|] eqn:Ha; [|done]. cbn [mbind option_bind] in Hb. case_bool_decide as Hs; [|done]. injection Hb as <-.
  unfold db_block, db_ApplyUpgrades. rewrite Hw, Hp. cbn [ce_Version ce_Changesets ce_Upgrades no_entry app]. destruct (mholds_upgrades _ _ _ _ _ _ _ Hm Hu) as (t1 & Ht1 & Hm1).
  change (db_MultiTree (with_pending db _)) with (db_MultiTree db). rewrite Ht1.
  eapply wp_then; [eapply (wp_db_calls (b_calls b) h rest _ am1 am2); [by split|constructor|done|done]|].
  intros h2 [db2 e] (-> & [Hm2 Hw2] & Hl2 & Hu2 & Hmg). cbn in Hl2, Hu2, Hmg. unfold db_Commit. rewrite Hw2.
  eapply wp_then; [by eapply wp_mt_SaveVersion|]. intros h3 [t3 r] [-> Hm3]. apply wp_ret. split_and!; [done|by split|done|].
  eexists. cbn [db_log]. rewrite <- Hl2. split_and!; [done|exact Hu2|exact Hmg|done].
Qed.

Lemma wp_db_run blocks : forall h rest db am am',
  db_holds h rest db am -> db_pendingLogEntry db = no_entry -> Forall block_ok blocks -> index_ok am -> am_run am blocks = Some am' ->
  wp (db_run db blocks) h (fun h' '(db', e) => e = None /\ db_holds h' rest db' am' /\ db_pendingLogEntry db' = no_entry /\
    exists es, db_log db' = db_log db ++ es /\ chain am es am').
Proof.
  induction blocks as [|b blocks IH]; intros h rest db am am' Hd Hp Hbk Hok; cbn [am_run db_run].
  - intros [= <-]. apply wp_ret. split_and!; [done|done|done|]. exists []. rewrite app_nil_r. split; [done|constructor].
  - apply Forall_cons in Hbk as [Hb1 Hbk]. destruct (am_block sha256 am (b_upgrades b) (concat (b_calls b))) as [am1|] eqn:Hb; [|done]. cbn [mbind option_bind]. intros Hr.
    eapply wp_then; [by eapply wp_db_block|]. intros h1 [db1 r] (-> & Hd1 & Hp1 & e & Hl1 & Hu1 & Hm1 & Hv1).
    eapply wp_mono; [|eapply (IH h1 rest db1 am1); [done|done|done|by apply (am_block_facts _ _ _ _ _ Hok Hb)|done]].
    intros h2 [db2 x] (-> & Hd2 & Hp2 & es & Hl2 & Hc2). split_and!; [done|done|done|]. exists (e :: es). rewrite Hl2, Hl1, <- app_assoc. split; [done|].
    econstructor; [done|rewrite Hu1; exact Hb|exact Hm1|exact Hv1|exact Hc2].
Qed.

(** ** Copies of the trees *)
Definition copy_cell (f : Tree * Tree -> Tree) (c : cell) : cell := (f (Copy c.1.1), c.1.2, c.2).

Lemma copies_world h rest post : forall pre copies,
  world sha256 h ((nt_Tree <$> (pre ++ post)) ++ copies ++ rest) -> Forall (fun e : Named cell => clean (value_of (nt_Tree e))) post ->
  world sha256 h ((nt_Tree <$> (pre ++ (nmap (copy_cell fst) <$> post))) ++ (copies ++ (nt_Tree <$> (nmap (copy_cell snd) <$> post))) ++ rest).
Proof.
  induction post as [|[name [[T a] A]] post IH]; intros pre copies Hw Hc; [by rewrite !app_nil_r in *|]. apply Forall_cons in Hc as [Hc1 Hc].
  assert (Hi : ((nt_Tree <$> (pre ++ mkNamed name (T, a, A) :: post)) ++ copies ++ rest) !! length pre = Some (T, a, A)).
  { rewrite fmap_app, <- app_assoc. rewrite lookup_app_r by (rewrite length_fmap; lia). by rewrite length_fmap, Nat.sub_diag. }
  pose proof (world_copy sha256 _ _ _ _ _ _ Hw Hi Hc1) as Hw'. rewrite fmap_app, <- app_assoc, insert_app_r_alt in Hw' by (rewrite length_fmap; lia).
  rewrite length_fmap, Nat.sub_diag in Hw'. cbn [fmap list_fmap nt_Tree app] in Hw'.
  specialize (IH (pre ++ [mkNamed name ((Copy T).1, a, A)]) (copies ++ [((Copy T).2, a, A)])). rewrite <- !app_assoc in IH. cbn [app] in IH. rewrite fmap_cons, <- !app_assoc. cbn [fmap list_fmap].
  apply IH; [|done]. eapply world_perm; [|exact Hw']. rewrite !fmap_app, <- !app_assoc. cbn [fmap list_fmap nt_Tree insert list_insert app].
  rewrite <- !app_assoc. apply Permutation_app_head, Permutation_skip, Permutation_app_head, Permutation_app_head. apply (Permutation_app_comm [_]).
Qed.

Lemma index_names_ok (t : MultiTree) : index_ok t -> index_names (mt_trees t) = mt_treesByName t.
Proof.
  intros Hok. assert (Hgen : forall l : list NamedTree, NoDup (nt_Name <$> l) -> forall name i, index_names l !! name = Some i <-> (nt_Name <$> l) !! i = Some name).
  { unfold index_names. induction l as [|e l IH] using rev_ind; intros Hnd name i; [simpl; by rewrite lookup_empty|].
    rewrite fmap_app in Hnd. apply NoDup_app in Hnd as (Hnd & He & _). rewrite imap_app, foldl_app, fmap_app. simpl. rewrite Nat.add_0_r, lookup_insert_Some, lookup_app.
    rewrite (IH Hnd). destruct ((nt_Name <$> l) !! i) as [n|] eqn:Hn.
    - pose proof (lookup_lt_Some _ _ _ Hn) as Hlt. rewrite length_fmap in Hlt. split; [intros [[_ ?]|[_ ?]]; [lia|done]|]. intros [= ->]. right. split; [|done].
      intros E. apply (He name); [by eapply list_elem_of_lookup_2|]. rewrite <- E. left.
    - apply lookup_ge_None in Hn. rewrite length_fmap in *. split; [intros [[<- <-]|[_ [=]]]; by rewrite Nat.sub_diag|].
      intros Hj. destruct (i - length l)%nat eqn:E; [|done]. injection Hj as ->. left. split; [done|lia]. }
  apply map_eq. intros name. apply option_eq. intros i. rewrite Hgen; [symmetry; apply Hok|].
  apply NoDup_alt. intros j k x Hj Hk. apply Hok in Hj, Hk. congruence.
Qed.

Lemma mholds_copy h rest t am :
  mholds h rest t am -> index_ok am -> Forall (fun e => clean (nt_Tree e)) (mt_trees am) ->
  exists copies, mholds h (copies ++ rest) (mt_Copy t).1 am /\
    forall h' t' am', mholds h' (copies ++ rest) t' am' -> exists rest', mholds h' rest' (mt_Copy t).2 am.
Proof.
  intros (m & -> & -> & Hw) Hok Hc. change (mt_trees (mmap value_of m)) with (nmap value_of <$> mt_trees m) in Hc. apply (proj1 (Forall_fmap (nmap value_of) _ _)) in Hc.
  pose proof (copies_world h rest (mt_trees m) [] [] Hw Hc) as Hw'. cbn [app] in Hw'.
  set (m2 := mkMulti (mt_initialVersion m) (nmap (copy_cell snd) <$> mt_trees m) (mt_treesByName m) (mt_lastCommitInfo m)).
  assert (Hok' : index_ok (mmap tree_of m)).
  { intros name i. assert (E : tree_names (mmap tree_of m) = tree_names (mmap value_of m)) by (unfold tree_names, mmap; simpl; by rewrite <- !list_fmap_compose).
    rewrite E. exact (Hok name i). }
  exists (cells m2). split.
  - exists (with_trees m (nmap (copy_cell fst) <$> mt_trees m)). split_and!; [..|exact Hw']; unfold mmap, with_trees; simpl; f_equal; by rewrite <- !list_fmap_compose.
  - intros h' t' am' (m' & _ & _ & Hm'). exists (cells m' ++ rest), m2. split_and!.
    + unfold mt_Copy. cbn [snd]. rewrite index_names_ok by done. unfold mmap. simpl. f_equal. by rewrite <- !list_fmap_compose.
    + unfold mmap. simpl. f_equal. by rewrite <- !list_fmap_compose.
    + eapply world_perm; [|exact Hm']. rewrite !app_assoc. apply Permutation_app_tail, Permutation_app_comm.
Qed.

(** ** Properties *)

(** C5. A node that restarts.  For blocks in which every call of [ApplyChangeSets] has at most
    one change set for each store, and which the reference trees [am_run] accept: the run
    returns without an error, and the entries it appended to the log, replayed by [Catchup]
    up to the version of any of the blocks on the trees the run started from, give the
    trees, the commit info and the hashes of that version.  Entries of the log from before
    the start are skipped.  Versions start below 2^62. *)
Theorem restart_recovers h rest db am bs1 am1 bs2 am2 :
  db_holds h rest db am -> db_pendingLogEntry db = no_entry -> index_ok am -> Forall block_ok (bs1 ++ bs2) ->
  am_run am bs1 = Some am1 -> am_run am1 bs2 = Some am2 -> 0 <= mt_Version am < 2 ^ 62 ->
  exists h1 db1 h2 db2 es1 es2,
    db_run db bs1 h = Some (h1, (db1, None)) /\ db_run db1 bs2 h1 = Some (h2, (db2, None)) /\ db_log db2 = db_log db ++ es1 ++ es2 /\
    forall log first old delta endVersion g rest' t,
      is_log log first (old ++ es1 ++ es2) -> delta = am_next am - (first + Z.of_nat (length old)) -> -2 ^ 62 < delta < 2 ^ 62 ->
      (old <> [] -> 1 <= mt_Version am) -> (endVersion = 0 /\ es2 = []) \/ (endVersion = mt_Version (db_MultiTree db1) /\ endVersion <> 0) ->
      mholds g rest' t am ->
      exists g' t', Catchup sha256 t log delta endVersion g = Some (g', (t', None)) /\
        mholds g' rest' t' am1 /\ mholds h1 rest (db_MultiTree db1) am1 /\ mt_lastCommitInfo t' = mt_lastCommitInfo (db_MultiTree db1).
Proof.
  intros Hd Hp Hok [Hb1 Hb2]%Forall_app Hr1 Hr2 Hv. destruct (wp_run _ _ _ (wp_db_run bs1 h rest db am am1 Hd Hp Hb1 Hok Hr1)) as (h1 & [db1 e1] & Hrun1 & -> & Hd1 & Hp1 & es1 & Hl1 & Hc1).
  pose proof (chain_index _ _ _ Hok Hc1) as Hok1. destruct (wp_run _ _ _ (wp_db_run bs2 h1 rest db1 am1 am2 Hd1 Hp1 Hb2 Hok1 Hr2)) as (h2 & [db2 e2] & Hrun2 & -> & Hd2 & Hp2 & es2 & Hl2 & Hc2).
  exists h1, db1, h2, db2, es1, es2. split_and!; [done|done|by rewrite Hl2, Hl1, app_assoc|]. intros log first old delta endVersion g rest' t Hlog Hdelta Hdb Hold Hend Hm.
  pose proof (dh_tree _ _ _ _ Hd1) as Hm1. rewrite (proj1 (proj2 (index_same _ _ _ _ Hm1))) in Hend.
  destruct (wp_run _ _ _ (wp_Catchup log first old es1 es2 delta endVersion g rest' t am am1 am2 Hlog Hc1 Hc2 Hok Hv Hdb Hdelta Hold Hend Hm)) as (g' & [t' e] & Hcat & -> & Hm').
  exists g', t'. split_and!; [done|done|done|]. destruct Hm' as (m' & -> & Ha' & _), Hm1 as (m1 & -> & Ha1 & _). rewrite Ha1 in Ha'. by injection Ha'.
Qed.

(** C18. A copy taken between blocks is a snapshot: whatever blocks the node runs after it
    without an error, at most one change set for each store in each call, the copy holds the
    trees it was taken of. *)
Theorem copy_is_snapshot h rest db am blocks am' :
  db_holds h rest db am -> db_pendingLogEntry db = no_entry -> index_ok am -> Forall (fun e => clean (nt_Tree e)) (mt_trees am) ->
  Forall block_ok blocks -> am_run am blocks = Some am' ->
  exists h' db' rest', db_run (with_tree db (mt_Copy (db_MultiTree db)).1) blocks h = Some (h', (db', None)) /\
    mholds h' rest' (mt_Copy (db_MultiTree db)).2 am.
Proof.
  intros [Hm Hw] Hp Hok Hc Hb Hr. destruct (mholds_copy _ _ _ _ Hm Hok Hc) as (copies & Hm1 & Hback).
  assert (Hd : db_holds h (copies ++ rest) (with_tree db (mt_Copy (db_MultiTree db)).1) am) by by split.
  destruct (wp_run _ _ _ (wp_db_run blocks h (copies ++ rest) _ am am' Hd Hp Hb Hok Hr))
    as (h' & [db' e] & Hrun & -> & [Hm' _] & _). destruct (Hback _ _ _ Hm') as (rest' & Hres). by exists h', db', rest'.
Qed.
End Recovery.
