(* ===== verification/AVLExamples.v ===== *)
(** Concrete trees: instances of what the trees take from libraries, a run of a tree with a
    copy on which the theorems hold, and the run in which a copy that is taken too early is
    written through. *)
From stdpp Require Import base gmap sets list sorting.
From Stdlib Require Import Lia ZArith.
From S2P Require Import Prelude KVStore MergeIter AVL AVLPure AVLHeap AVLOps AVLTree AVLProof AVLCopies MultiTree MultiTreeSpec MultiTreeReplay MultiTreeRecover.
Local Open Scope Z_scope.

(** ** Instances *)
(** [ics23] as its specification has it. *)
Definition fold_Calculate (sha256 : bytes -> bytes) (p : ExistenceProof) : option bytes :=
  match ep_Value p with
  | Some value =>
      if bool_decide (ep_Key p = []) || bool_decide (value = []) then None
      else Some (foldl (fun child op => sha256 (io_Prefix op ++ child ++ io_Suffix op))
                   (sha256 (lo_Prefix (ep_Leaf p) ++ EncodeBytes (ep_Key p) ++ EncodeBytes (sha256 value))) (ep_Path p))
  | None => None
  end.
#[export] Instance fold_ICS23 sha256 : ICS23 sha256.
Proof.
  refine {| ics_Calculate := fold_Calculate sha256 |}.
  - intros key value prefix Hk Hv. unfold fold_Calculate. cbn [ep_Value ep_Key ep_Leaf ep_Path lo_Prefix foldl]. by rewrite !bool_decide_false.
  - intros key value leaf [-> | ->]; unfold fold_Calculate; cbn [ep_Value ep_Key]; [done|]. by rewrite orb_true_r.
  - intros key value leaf path prefix suffix. unfold fold_Calculate. cbn [ep_Value ep_Key ep_Leaf ep_Path]. destruct value as [value|]; [|done].
    destruct (_ || _); [done|]. by rewrite foldl_app.
Defined.

(** ** A tree and its copy *)
Definition put_pair (k v : bytes) : KVPair := mkPair false k (Some v).
Definition del_pair (k : bytes) : KVPair := mkPair true k None.
Definition demo_tree : Tree := mkTree 0 None 0 0.
Definition demo_value : ATree := mkATree 0 0 None.
Definition demo_ops : list tree_op :=
  [OApply 0 [put_pair [5] [50]; put_pair [3] [30]; put_pair [8] [80]; put_pair [1] [10]; put_pair [9] [90]; put_pair [7] [70]];
   OSave 0 true; OCopy 0;
   OApply 0 [put_pair [5] [51]; del_pair [3]; del_pair [1]; put_pair [6] [60]]; OSave 0 false;
   OGet 1 [5]; OGet 0 [5]; OIterate 1 None (Some [8]) true; OIterate 0 (Some [6]) None false; ORootHash 1; ORootHash 0;
   OProof 1 [3]; OProof 0 [3]; OGetByIndex 0 1].

Lemma demo_holds : holds_trees toy_sha256 empty_heap [demo_tree] [demo_value].
Proof. destruct (New_holds toy_sha256) as (T & [= <-] & H). exact H. Qed.

Lemma copies_independent_witness :
  exists l' h' Ts' xs, covered [demo_value] demo_ops = Some l' /\ tree_run toy_sha256 [demo_tree] demo_ops empty_heap = Some (h', (Ts', xs)) /\
    spec_run toy_sha256 [demo_value] demo_ops xs l'.
Proof.
  assert (Hc : match covered [demo_value] demo_ops with Some _ => true | None => false end = true) by (vm_compute; reflexivity).
  destruct (covered [demo_value] demo_ops) as [l'|] eqn:E; [|discriminate].
  destruct (copies_independent toy_sha256 demo_ops empty_heap [demo_tree] [demo_value] l' demo_holds E) as (h' & Ts' & xs & Hrun & Hspec & _).
  exists l', h', Ts', xs. split; [first [exact E|exact eq_refl]|]. split; [exact Hrun|exact Hspec].
Defined.

(** ** A tree of six keys *)
Definition demo_pairs : list KVPair := [put_pair [5] [50]; put_pair [3] [30]; put_pair [8] [80]; put_pair [1] [10]; put_pair [9] [90]; put_pair [7] [70]].
Definition demo_six : ATree := default demo_value (a_apply demo_value demo_pairs).

Lemma demo_empty : denotes toy_sha256 empty_heap demo_tree demo_value ∅.
Proof. by split. Qed.
Lemma demo_bounded : bounded empty_heap.
Proof. by intros l n Hn. Qed.
Lemma demo_filled : exists h T A, ApplyChangeSet demo_tree demo_pairs empty_heap = Some (h, T) /\ denotes toy_sha256 h T demo_six A.
Proof.
  assert (Ha : a_apply demo_value demo_pairs = Some demo_six) by (vm_compute; reflexivity).
  destruct (wp_run _ _ _ (wp_ApplyChangeSet toy_sha256 demo_pairs _ _ _ _ _ demo_bounded demo_empty Ha)) as (h & T & Hrun & A & Hd & _). exists h, T, A. exact (conj Hrun Hd).
Qed.

Lemma ApplyChangeSet_writes_witness :
  exists h' T' a', ApplyChangeSet demo_tree demo_pairs empty_heap = Some (h', T') /\ view a' = foldl map_pair (view demo_value) demo_pairs.
Proof.
  destruct (ApplyChangeSet_writes toy_sha256 empty_heap demo_tree demo_value ∅ demo_pairs demo_bounded demo_empty) as (h' & T' & a' & A' & Hrun & _ & Hview & _).
  - vm_compute. split; [discriminate|reflexivity].
  - vm_compute. reflexivity.
  - exists h', T', a'. split; [exact Hrun|exact Hview].
Defined.

Lemma GetProof_verifies_witness :
  exists h T h1 p1 h2 p2, ApplyChangeSet demo_tree demo_pairs empty_heap = Some (h, T) /\ GetProof toy_sha256 T [3] h = Some (h1, p1) /\ proves_key toy_sha256 demo_six [3] p1 /\
    GetProof toy_sha256 T [4] h1 = Some (h2, p2) /\ proves_key toy_sha256 demo_six [4] p2.
Proof.
  destruct demo_filled as (h & T & A & Hrun & Hd). assert (Hs : size demo_six < 2 ^ 32) by (vm_compute; reflexivity).
  destruct (GetProof_verifies toy_sha256 h T demo_six A [3] Hd Hs) as (h1 & p1 & H1 & P1 & Hd1).
  destruct (GetProof_verifies toy_sha256 h1 T demo_six A [4] Hd1 Hs) as (h2 & p2 & H2 & P2 & _).
  exists h, T, h1, p1, h2, p2. exact (conj Hrun (conj H1 (conj P1 (conj H2 P2)))).
Defined.

(** ** A copy taken too early *)

(** [Copy] of a tree with a write that no version was saved for: the copy shares the node of
    the write, and the next write of the tree to the key changes the copy. *)
Example early_copy_overwritten sha256 v1 v2 :
  exists h Ts, tree_run sha256 [demo_tree] [OApply 0 [put_pair [1] v1]; OCopy 0; OApply 0 [put_pair [1] v2]; OGet 1 [1]] empty_heap =
    Some (h, (Ts, [ADone; ADone; ADone; AGot 0 (Some v2)])).
Proof. do 2 eexists. vm_compute. reflexivity. Qed.

(** Concrete chains: a run that is replayed and copied, and two uses of the code that its
    comments take to be safe and are not. *)
(** ** A chain of three blocks *)
Definition store_a : bytes := [97].
Definition store_b : bytes := [98].
Definition store_c : bytes := [99].
Definition add_store (name : bytes) : TreeNameUpgrade := mkUpgrade name [] false.
Definition block1 : block :=
  mkBlock [add_store store_b; add_store store_a]
    [[mkChangeSet store_a [put_pair [1] [10]; put_pair [2] [20]; put_pair [3] [30]]]; [mkChangeSet store_a [del_pair [2]]; mkChangeSet store_b [put_pair [7] [70]]]].
Definition block2 : block := mkBlock [] [[mkChangeSet store_a [put_pair [4] [40]; put_pair [1] [11]]]].
Definition block3 : block := mkBlock [mkUpgrade store_c store_b false] [[mkChangeSet store_c [del_pair [7]; put_pair [8] [80]]]].

Definition chain_value : Multi ATree := mkMulti 0 [] ∅ (mkCommitInfo 0 []).
Definition chain_start : DB := mkDB (NewEmptyMultiTree 0) false no_entry [].
Definition value_after (blocks : list block) : Multi ATree := default chain_value (am_run toy_sha256 chain_value blocks).

Lemma chain_mholds : mholds toy_sha256 empty_heap [] (NewEmptyMultiTree 0) chain_value.
Proof. exists (mkMulti 0 [] ∅ (mkCommitInfo 0 [])). split; [done|]. split; [done|]. split; [apply demo_bounded|by intros i|by intros i j]. Qed.
Lemma chain_holds : db_holds toy_sha256 empty_heap [] chain_start chain_value.
Proof. split; [apply chain_mholds|done]. Qed.
Lemma chain_index_ok : index_ok chain_value.
Proof. by intros name i. Qed.
Lemma chain_blocks_ok : Forall block_ok ([block1; block2] ++ [block3]).
Proof. repeat constructor; try (cbn; intros []%not_elem_of_nil); cbn; set_solver. Qed.

Lemma restart_recovers_witness :
  exists h1 db1 h2 db2 g' t',
    db_run toy_sha256 chain_start [block1; block2] empty_heap = Some (h1, (db1, None)) /\ db_run toy_sha256 db1 [block3] h1 = Some (h2, (db2, None)) /\
    Catchup toy_sha256 (NewEmptyMultiTree 0) (wal_of 1 (db_log db2)) 0 (mt_Version (db_MultiTree db1)) empty_heap = Some (g', (t', None)) /\
    mt_lastCommitInfo t' = mt_lastCommitInfo (db_MultiTree db1).
Proof.
  assert (H1 : am_run toy_sha256 chain_value [block1; block2] = Some (value_after [block1; block2])) by (vm_compute; reflexivity).
  assert (H2 : am_run toy_sha256 (value_after [block1; block2]) [block3] = Some (value_after [block1; block2; block3])) by (vm_compute; reflexivity).
  destruct (restart_recovers toy_sha256 empty_heap [] chain_start chain_value [block1; block2] (value_after [block1; block2]) [block3] (value_after [block1; block2; block3])
    chain_holds eq_refl chain_index_ok chain_blocks_ok H1 H2 ltac:(vm_compute; split; [discriminate|reflexivity])) as (h1 & db1 & h2 & db2 & es1 & es2 & Hrun1 & Hrun2 & Hlog & Hrep).
  assert (Hv : match db_run toy_sha256 chain_start [block1; block2] empty_heap with Some (_, (db, _)) => bool_decide (mt_Version (db_MultiTree db) = 2) | None => false end = true)
    by (vm_compute; reflexivity).
  rewrite Hrun1 in Hv. apply bool_decide_eq_true in Hv.
  destruct (Hrep (wal_of 1 (db_log db2)) 1 [] 0 (mt_Version (db_MultiTree db1)) empty_heap [] (NewEmptyMultiTree 0)) as (g' & t' & Hcat & _ & _ & Hinfo).
  - rewrite Hlog. apply wal_of_is_log. lia.
  - vm_compute. reflexivity.
  - lia.
  - by intros [].
  - right. split; [exact eq_refl|]. rewrite Hv. discriminate.
  - exact chain_mholds.
  - exists h1, db1, h2, db2, g', t'. exact (conj Hrun1 (conj Hrun2 (conj Hcat Hinfo))).
Defined.

Lemma chain_block1 :
  exists h db, db_run toy_sha256 chain_start [block1] empty_heap = Some (h, (db, None)) /\ db_holds toy_sha256 h [] db (value_after [block1]) /\
    db_pendingLogEntry db = no_entry /\ index_ok (value_after [block1]).
Proof.
  assert (H1 : am_run toy_sha256 chain_value [block1] = Some (value_after [block1])) by (vm_compute; reflexivity).
  assert (Hb : Forall block_ok [block1]) by (pose proof chain_blocks_ok as Hb; apply Forall_app in Hb as [[? _]%Forall_cons _]; by constructor).
  destruct (wp_run _ _ _ (wp_db_run toy_sha256 [block1] _ _ _ _ _ chain_holds eq_refl Hb chain_index_ok H1)) as (h & [db e] & Hrun & -> & Hd & Hp & es & _ & Hc).
  exists h, db. split; [exact Hrun|]. split; [exact Hd|]. split; [exact Hp|]. exact (chain_index toy_sha256 _ _ _ chain_index_ok Hc).
Qed.

Lemma copy_is_snapshot_witness :
  exists h db h' db' rest', db_run toy_sha256 chain_start [block1] empty_heap = Some (h, (db, None)) /\
    db_run toy_sha256 (with_tree db (mt_Copy (db_MultiTree db)).1) [block2; block3] h = Some (h', (db', None)) /\
    mholds toy_sha256 h' rest' (mt_Copy (db_MultiTree db)).2 (value_after [block1]).
Proof.
  destruct chain_block1 as (h & db & Hrun & Hd & Hp & Hok).
  assert (H2 : am_run toy_sha256 (value_after [block1]) [block2; block3] = Some (value_after [block1; block2; block3])) by (vm_compute; reflexivity).
  assert (Hc : bool_decide (Forall (fun e => clean (nt_Tree e)) (mt_trees (value_after [block1]))) = true) by (vm_compute; reflexivity). apply bool_decide_eq_true in Hc.
  assert (Hb : Forall block_ok [block2; block3]) by (pose proof chain_blocks_ok as Hb; apply Forall_app in Hb as [[_ ?]%Forall_cons ?]; by apply (Forall_app_2 _ [block2])).
  destruct (copy_is_snapshot toy_sha256 h [] db (value_after [block1]) [block2; block3] (value_after [block1; block2; block3]) Hd Hp Hok Hc Hb H2) as (h' & db' & rest' & Hrun' & Hm).
  exists h, db, h', db', rest'. exact (conj Hrun (conj Hrun' Hm)).
Defined.

(** ** Two assumptions of the comments *)

Lemma build_index_conflict {T} (trees : list (Named T)) : forall i m m' e,
  build_index i trees m = (m', Some e) -> exists name l1 l2, e = ENameConflict name /\ nt_Name <$> trees = l1 ++ name :: l2 /\ (name ∈ l1 \/ is_Some (m !! name)).
Proof.
  induction trees as [|x trees IH]; intros i m m' e; simpl; [done|]. destruct (m !! nt_Name x) eqn:Hx.
  - intros [= <- <-]. exists (nt_Name x), [], (nt_Name <$> trees). split_and!; [done|done|]. right. by rewrite Hx.
  - intros (name & l1 & l2 & -> & Hl & Hd)%IH. exists name, (nt_Name x :: l1), l2. split_and!; [done|simpl; by f_equal|]. destruct Hd as [Hd|[j Hd]]; [left; by right|].
    apply lookup_insert_Some in Hd as [[-> _]|[_ Hd]]; [left; left|right; by exists j].
Qed.

Lemma repeated_name (l1 l2 l : list bytes) n name : l1 ++ n :: l2 ≡ₚ name :: l -> n ∈ l1 -> NoDup l -> n = name.
Proof.
  intros Hp (l3 & l4 & ->)%list_elem_of_split Hnd. destruct (decide (n = name)) as [->|Hne]; [done|]. exfalso.
  assert (Hin : n ∈ l3 ++ l4 ++ n :: l2) by (rewrite !elem_of_app; right; right; left). rewrite <- app_assoc in Hp. simpl in Hp. rewrite <- Permutation_middle in Hp.
  assert (Hl : n ∈ l). { assert (n ∈ name :: l) by (rewrite <- Hp; left). set_solver. }
  apply list_elem_of_split in Hl as (k1 & k2 & ->). rewrite <- Permutation_middle in Hnd.
  assert (Hk : name :: k1 ++ n :: k2 ≡ₚ n :: name :: k1 ++ k2) by (rewrite <- Permutation_middle; apply Permutation_swap). rewrite Hk in Hp. apply Permutation_cons_inv in Hp.
  apply NoDup_cons in Hnd as [Hnk _]. apply Hnk. assert (n ∈ name :: k1 ++ k2) by (by rewrite <- Hp). set_solver.
Qed.

(** [OpenDB] adds the initial stores and says that [ApplyUpgrades] skips the trees that exist.
    It does not: adding a name that is there is an error. *)
Theorem ApplyUpgrades_not_idempotent (t : MultiTree) name :
  NoDup (tree_names t) -> name ∈ tree_names t -> 0 <= NextVersion (mt_Version t) (mt_initialVersion t) <= MaxUint32 ->
  (ApplyUpgrades t [add_store name]).2 = Some (ENameConflict name).
Proof.
  intros Hnd Hin Hv. unfold ApplyUpgrades, apply_upgrades. cbn [upgrade_loop upgrade_one add_store up_Delete up_RenameFrom up_Name].
  rewrite (bool_decide_false ([] <> [])) by naive_solver. rewrite !bool_decide_false by lia. cbn [orb]. change (NewWithInitialVersion _) with (Some (mkTree 0 None (NextVersion (mt_Version t) (mt_initialVersion t)) 0)). cbv iota.
  set (l := mt_trees t ++ _). assert (Hp : nt_Name <$> sort_named l ≡ₚ name :: tree_names t).
  { rewrite sort_named_perm. unfold l. rewrite fmap_app. simpl. symmetry. apply Permutation_cons_append. }
  destruct (build_index 0 (sort_named l) ∅) as [index [e|]] eqn:Hb; cbn [snd].
  - destruct (build_index_conflict _ _ _ _ _ Hb) as (n & l1 & l2 & -> & Hl & Hd). destruct Hd as [Hd|[j Hd]]; [|by rewrite lookup_empty in Hd].
    rewrite Hl in Hp. by rewrite (repeated_name _ _ _ _ _ Hp Hd Hnd).
  - exfalso. pose proof (build_index_spec _ _ _ _ Hb ltac:(by intros ? ? ?)) as Hs.
    assert (Hnd' : NoDup (nt_Name <$> sort_named l)). { apply NoDup_alt. intros j k x Hj Hk. assert (index !! x = Some j) by (apply Hs; right; by rewrite Nat.sub_0_r; split; [lia|]).
      assert (index !! x = Some k) by (apply Hs; right; by rewrite Nat.sub_0_r; split; [lia|]). congruence. }
    rewrite Hp in Hnd'. by apply NoDup_cons in Hnd' as [? _].
Qed.

Lemma ApplyUpgrades_not_idempotent_witness :
  exists h db, db_run toy_sha256 chain_start [block1] empty_heap = Some (h, (db, None)) /\ (ApplyUpgrades (db_MultiTree db) [add_store store_a]).2 = Some (ENameConflict store_a).
Proof.
  destruct chain_block1 as (h & db & Hrun & _). exists h, db. split; [exact Hrun|].
  assert (Hn : match db_run toy_sha256 chain_start [block1] empty_heap with
               | Some (_, (db, _)) => bool_decide (tree_names (db_MultiTree db) = [store_a; store_b]) && bool_decide (mt_Version (db_MultiTree db) = 1) && bool_decide (mt_initialVersion (db_MultiTree db) = 0)
               | None => false
               end = true) by (vm_compute; reflexivity).
  rewrite Hrun in Hn. apply andb_true_iff in Hn as [[Hn Hv]%andb_true_iff Hi]. apply bool_decide_eq_true in Hn, Hv, Hi.
  apply (ApplyUpgrades_not_idempotent (db_MultiTree db) store_a); rewrite ?Hn, ?Hv, ?Hi.
  - apply (bool_decide_unpack (NoDup [store_a; store_b])). vm_compute. exact I.
  - left.
  - vm_compute. split; discriminate.
Defined.

Definition block_twice : block := mkBlock [add_store store_a] [[mkChangeSet store_a [put_pair [1] [10]]; mkChangeSet store_a [put_pair [2] [20]]]].

Definition diverges (infos1 infos2 : list StoreInfo) : bool :=
  match infos1, infos2 with
  | [i1], [i2] => bool_decide (si_Version i1 = 1) && bool_decide (si_Version i2 = 2) && bool_decide (si_Hash i1 <> si_Hash i2)
  | _, _ => false
  end.

(** [mergePendingChangesets] is to leave one change set for each store, which the replay
    needs.  The first change sets of a block are taken as they are: with two for one store the
    node saves one version of the tree, the replay two, and the hashes differ. *)
Example duplicate_change_sets_diverge :
  exists h db g t,
    db_run toy_sha256 chain_start [block_twice] empty_heap = Some (h, (db, None)) /\
    Catchup toy_sha256 (NewEmptyMultiTree 0) (wal_of 1 (db_log db)) 0 0 empty_heap = Some (g, (t, None)) /\
    diverges (ci_StoreInfos (mt_lastCommitInfo (db_MultiTree db))) (ci_StoreInfos (mt_lastCommitInfo t)) = true.
Proof.
  assert (H : match db_run toy_sha256 chain_start [block_twice] empty_heap with
              | Some (h, (db, None)) =>
                  match Catchup toy_sha256 (NewEmptyMultiTree 0) (wal_of 1 (db_log db)) 0 0 empty_heap with
                  | Some (g, (t, None)) => diverges (ci_StoreInfos (mt_lastCommitInfo (db_MultiTree db))) (ci_StoreInfos (mt_lastCommitInfo t))
                  | _ => false
                  end
              | _ => false
              end = true) by (vm_compute; reflexivity).
  destruct (db_run toy_sha256 chain_start [block_twice] empty_heap) as [[h [db [e|]]]|]; [discriminate| |discriminate].
  destruct (Catchup toy_sha256 (NewEmptyMultiTree 0) (wal_of 1 (db_log db)) 0 0 empty_heap) as [[g [t [e|]]]|] eqn:Hc; [discriminate| |discriminate].
  exists h, db, g, t. exact (conj eq_refl (conj Hc H)).
Qed.
