(* ===== verification/Valset.v ===== *)
(** Validator sets of the consensus engine ([sei-tendermint/types/validator.go],
    [sei-tendermint/types/validator_set.go]): changes of the set, and the weighted round
    robin that picks proposers.

    A validator of a set is a value of a list; methods that change validators through their
    pointers return the new list.  [None] is a panic.  The proposer of a set points to a
    validator: the fields that no method changes are kept.  Integers are [int64], with the
    wrap-around written out; sets have fewer than [2 ^ 31] validators, so that the [int32]
    of an index is the index. *)
From stdpp Require Import base gmap sets list sorting.
From Stdlib Require Import ZArith Lia.
From S2P Require Import Prelude Proto.
Local Open Scope Z_scope.

Definition MaxInt64 : Z := 2 ^ 63 - 1.
Definition MinInt64 : Z := - 2 ^ 63.
Definition MaxTotalVotingPower : Z := MaxInt64 / 8.
Definition PriorityWindowSizeFactor : Z := 2.

(** ** Arithmetic with overflow checks *)
Definition safeAdd (a b : Z) : Z * bool :=
  if bool_decide (0 < b) && bool_decide (MaxInt64 - b < a) then (-1, true)
  else if bool_decide (b < 0) && bool_decide (a < MinInt64 - b) then (-1, true)
  else (int64 (a + b), false).
Definition safeSub (a b : Z) : Z * bool :=
  if bool_decide (0 < b) && bool_decide (a < MinInt64 + b) then (-1, true)
  else if bool_decide (b < 0) && bool_decide (MaxInt64 + b < a) then (-1, true)
  else (int64 (a - b), false).
Definition safeAddClip (a b : Z) : Z :=
  let '(c, overflow) := safeAdd a b in
  if overflow then (if bool_decide (b < 0) then MinInt64 else MaxInt64) else c.
Definition safeSubClip (a b : Z) : Z :=
  let '(c, overflow) := safeSub a b in
  if overflow then (if bool_decide (0 < b) then MinInt64 else MaxInt64) else c.
Definition safeMul (a b : Z) : Z * bool :=
  if bool_decide (a = 0) || bool_decide (b = 0) then (0, false)
  else
    let absOfB := if bool_decide (b < 0) then int64 (- b) else b in
    let absOfA := if bool_decide (a < 0) then int64 (- a) else a in
    if bool_decide (MaxInt64 `quot` absOfB < absOfA) then (0, true) else (int64 (a * b), false).

(** ** Validators *)
Record Validator := mkValidator { v_Address : bytes; v_PubKey : bytes; v_VotingPower : Z; v_ProposerPriority : Z }.
#[export] Instance Validator_eq_dec : EqDecision Validator.
Proof. solve_decision. Defined.

Definition with_priority (p : Z) (v : Validator) : Validator := mkValidator (v_Address v) (v_PubKey v) (v_VotingPower v) p.

Definition AddressSize : nat := 20.
Inductive ValidatorError := ErrNegativeVotingPower | ErrBadAddressSize.
Definition v_ValidateBasic (v : Validator) : option ValidatorError :=
  if bool_decide (v_VotingPower v < 0) then Some ErrNegativeVotingPower
  else if bool_decide (length (v_Address v) <> AddressSize) then Some ErrBadAddressSize
  else None.

(** [CompareProposerPriority]: whether the receiver is returned; validators that are
    identical are a panic. *)
Definition higher_priority (v other : Validator) : option bool :=
  if bool_decide (v_ProposerPriority other < v_ProposerPriority v) then Some true
  else if bool_decide (v_ProposerPriority v < v_ProposerPriority other) then Some false
  else
    match bytes_compare (v_Address v) (v_Address other) with
    | Lt => Some true
    | Gt => Some false
    | Eq => None
    end.
(** On pointers into the set, as positions with the validator there; the receiver may be nil. *)
Definition CompareProposerPriority (v : option (nat * Validator)) (other : nat * Validator) : option (nat * Validator) :=
  match v with
  | None => Some other
  | Some v => b ← higher_priority v.2 other.2; Some (if (b : bool) then v else other)
  end.

(** ** Sets *)
Record ProposerRef := mkProposer { p_Address : bytes; p_PubKey : bytes; p_VotingPower : Z }.
Definition proposer_of (v : Validator) : ProposerRef := mkProposer (v_Address v) (v_PubKey v) (v_VotingPower v).
Record ValidatorSet := mkVals { Validators : list Validator; Proposer : option ProposerRef; totalVotingPower : Z }.
Definition with_validators (l : list Validator) (vals : ValidatorSet) : ValidatorSet := mkVals l (Proposer vals) (totalVotingPower vals).
Definition with_total (n : Z) (vals : ValidatorSet) : ValidatorSet := mkVals (Validators vals) (Proposer vals) n.

Definition IsNilOrEmpty (vals : ValidatorSet) : bool := bool_decide (Validators vals = []).
Definition vals_Size (vals : ValidatorSet) : Z := Z.of_nat (length (Validators vals)).
Definition HasAddress (vals : ValidatorSet) (address : bytes) : bool :=
  existsb (fun v => bool_decide (v_Address v = address)) (Validators vals).
Definition GetByAddress (vals : ValidatorSet) (address : bytes) : option (nat * Validator) :=
  list_find (fun v => v_Address v = address) (Validators vals).
Definition GetByIndex (vals : ValidatorSet) (index : Z) : option (bytes * Validator) :=
  if bool_decide (index < 0) || bool_decide (Z.of_nat (length (Validators vals)) <= index) then None
  else (fun v => (v_Address v, v)) <$> Validators vals !! Z.to_nat index.

Fixpoint sum_powers (l : list Validator) (sum : Z) : option Z :=
  match l with
  | [] => Some sum
  | v :: l =>
      let sum := safeAddClip sum (v_VotingPower v) in
      if bool_decide (MaxTotalVotingPower < sum) then None else sum_powers l sum
  end.
Definition updateTotalVotingPower (vals : ValidatorSet) : option ValidatorSet :=
  sum ← sum_powers (Validators vals) 0; Some (with_total sum vals).
(** The total is computed when the field is zero. *)
Definition TotalVotingPower (vals : ValidatorSet) : option (ValidatorSet * Z) :=
  vals ← (if bool_decide (totalVotingPower vals = 0) then updateTotalVotingPower vals else Some vals);
  Some (vals, totalVotingPower vals).

(** ** Proposer priorities *)
Definition max_min (l : list Validator) : Z * Z :=
  foldl (fun '(max, min) v =>
    (if bool_decide (max < v_ProposerPriority v) then v_ProposerPriority v else max,
     if bool_decide (v_ProposerPriority v < min) then v_ProposerPriority v else min)) (MinInt64, MaxInt64) l.
Definition computeMaxMinPriorityDiff (vals : ValidatorSet) : option Z :=
  if IsNilOrEmpty vals then None
  else
    let '(max, min) := max_min (Validators vals) in
    let diff := int64 (max - min) in
    Some (if bool_decide (diff < 0) then int64 (-1 * diff) else diff).

Definition map_priority (f : Validator -> Z) (vals : ValidatorSet) : ValidatorSet :=
  with_validators ((fun v => with_priority (f v) v) <$> Validators vals) vals.

Definition RescalePriorities (vals : ValidatorSet) (diffMax : Z) : option ValidatorSet :=
  if IsNilOrEmpty vals then None
  else if bool_decide (diffMax <= 0) then Some vals
  else
    diff ← computeMaxMinPriorityDiff vals;
    let ratio := int64 (int64 (diff + diffMax) - 1) `quot` diffMax in
    if bool_decide (diffMax < diff) then
      if bool_decide (ratio = 0) then None
      else Some (map_priority (fun v => int64 (v_ProposerPriority v `quot` ratio)) vals)
    else Some vals.

(** [big.Int.Div] rounds down for a positive divisor. *)
Definition computeAvgProposerPriority (vals : ValidatorSet) : option Z :=
  let n := Z.of_nat (length (Validators vals)) in
  if bool_decide (n = 0) then None
  else
    let avg := foldl Z.add 0 (v_ProposerPriority <$> Validators vals) / n in
    if bool_decide (MinInt64 <= avg <= MaxInt64) then Some avg else None.
Definition shiftByAvgProposerPriority (vals : ValidatorSet) : option ValidatorSet :=
  if IsNilOrEmpty vals then None
  else
    avg ← computeAvgProposerPriority vals;
    Some (map_priority (fun v => safeSubClip (v_ProposerPriority v) avg) vals).

Fixpoint most_loop (i : nat) (l : list Validator) (res : option (nat * Validator)) : option (option (nat * Validator)) :=
  match l with
  | [] => Some res
  | v :: l => res ← CompareProposerPriority res (i, v); most_loop (S i) l (Some res)
  end.
Definition getValWithMostPriority (vals : ValidatorSet) : option (option (nat * Validator)) := most_loop 0 (Validators vals) None.

(** One increment, and the validator that is to propose. *)
Definition incrementProposerPriority (vals : ValidatorSet) : option (ValidatorSet * Validator) :=
  let vals := map_priority (fun v => safeAddClip (v_ProposerPriority v) (v_VotingPower v)) vals in
  most ← getValWithMostPriority vals;
  '(i, mostest) ← most;
  '(vals, total) ← TotalVotingPower vals;
  let mostest := with_priority (safeSubClip (v_ProposerPriority mostest) total) mostest in
  Some (with_validators (<[i := mostest]> (Validators vals)) vals, mostest).

(** The proposers of a number of increments, the last one first. *)
Fixpoint increments (times : nat) (vals : ValidatorSet) (proposers : list Validator) : option (ValidatorSet * list Validator) :=
  match times with
  | O => Some (vals, proposers)
  | S times => '(vals, proposer) ← incrementProposerPriority vals; increments times vals (proposer :: proposers)
  end.

Definition increment_times (vals : ValidatorSet) (times : Z) : option (ValidatorSet * list Validator) :=
  if IsNilOrEmpty vals then None
  else if bool_decide (times <= 0) then None
  else
    '(vals, total) ← TotalVotingPower vals;
    let diffMax := int64 (PriorityWindowSizeFactor * total) in
    vals ← RescalePriorities vals diffMax;
    vals ← shiftByAvgProposerPriority vals;
    increments (Z.to_nat times) vals [].
Definition IncrementProposerPriority (vals : ValidatorSet) (times : Z) : option ValidatorSet :=
  '(vals, proposers) ← increment_times vals times;
  Some (mkVals (Validators vals) (proposer_of <$> head proposers) (totalVotingPower vals)).
Definition CopyIncrementProposerPriority (vals : ValidatorSet) (times : Z) : option ValidatorSet := IncrementProposerPriority vals times.

Fixpoint proposer_loop (l : list Validator) (i : nat) (proposer : option (nat * Validator)) : option (option (nat * Validator)) :=
  match l with
  | [] => Some proposer
  | v :: l =>
      if match proposer with None => true | Some p => bool_decide (v_Address v <> v_Address p.2) end then
        proposer ← CompareProposerPriority proposer (i, v); proposer_loop l (S i) (Some proposer)
      else proposer_loop l (S i) proposer
  end.
Definition findProposer (vals : ValidatorSet) : option (option Validator) :=
  match proposer_loop (Validators vals) 0 None with Some proposer => Some (snd <$> proposer) | None => None end.
Fixpoint previous_loop (l : list Validator) (previous : option Validator) : option (option Validator) :=
  match l with
  | [] => Some previous
  | v :: l =>
      match previous with
      | None => previous_loop l (Some v)
      | Some p => b ← higher_priority p v; previous_loop l (Some (if (b : bool) then v else p))
      end
  end.
Definition findPreviousProposer (vals : ValidatorSet) : option (option Validator) := previous_loop (Validators vals) None.
(** The set has its proposer afterwards. *)
Definition GetProposer (vals : ValidatorSet) : option (ValidatorSet * option ProposerRef) :=
  if bool_decide (Validators vals = []) then Some (vals, None)
  else
    match Proposer vals with
    | Some p => Some (vals, Some p)
    | None =>
        found ← findProposer vals;
        p ← found;
        Some (mkVals (Validators vals) (Some (proposer_of p)) (totalVotingPower vals), Some (proposer_of p))
    end.

(** ** Changes of the set *)
Inductive ValsetError :=
| EDuplicate (address : bytes) | ENegativePower | EPowerTooHigh | EZeroPower | EEmptySet
| EUnknownRemoval (address : bytes) | ErrTotalVotingPowerOverflow.

Definition ByAddress (a b : Validator) : Prop := v_Address a <=b v_Address b.
#[export] Instance ByAddress_dec : RelDecision ByAddress.
Proof. intros a b. unfold ByAddress. apply _. Defined.
(** The higher power first; the address decides between equal powers. *)
Definition ByVotingPower (a b : Validator) : Prop :=
  v_VotingPower b < v_VotingPower a \/ (v_VotingPower a = v_VotingPower b /\ v_Address a <=b v_Address b).
#[export] Instance ByVotingPower_dec : RelDecision ByVotingPower.
Proof. intros a b. unfold ByVotingPower. apply _. Defined.

Fixpoint split_changes (changes : list Validator) (prevAddr : bytes) (updates removals : list Validator) :
    list Validator * list Validator + ValsetError :=
  match changes with
  | [] => inl (updates, removals)
  | c :: changes =>
      if bool_decide (v_Address c = prevAddr) then inr (EDuplicate (v_Address c))
      else if bool_decide (v_VotingPower c < 0) then inr ENegativePower
      else if bool_decide (MaxTotalVotingPower < v_VotingPower c) then inr EPowerTooHigh
      else if bool_decide (v_VotingPower c = 0) then split_changes changes (v_Address c) updates (removals ++ [c])
      else split_changes changes (v_Address c) (updates ++ [c]) removals
  end.
Definition processChanges (origChanges : list Validator) : list Validator * list Validator + ValsetError :=
  split_changes (merge_sort ByAddress origChanges) [] [] [].

Definition delta (vals : ValidatorSet) (update : Validator) : Z :=
  match GetByAddress vals (v_Address update) with
  | Some (_, v) => int64 (v_VotingPower update - v_VotingPower v)
  | None => v_VotingPower update
  end.
Definition ByDelta (vals : ValidatorSet) (a b : Validator) : Prop := delta vals a <= delta vals b.
#[export] Instance ByDelta_dec vals : RelDecision (ByDelta vals).
Proof. intros a b. unfold ByDelta. apply _. Defined.
Fixpoint add_deltas (vals : ValidatorSet) (updates : list Validator) (tvp : Z) : Z + ValsetError :=
  match updates with
  | [] => inl tvp
  | u :: updates =>
      let tvp := int64 (tvp + delta vals u) in
      if bool_decide (MaxTotalVotingPower < tvp) then inr ErrTotalVotingPowerOverflow else add_deltas vals updates tvp
  end.
Definition verifyUpdates (updates : list Validator) (vals : ValidatorSet) (removedPower : Z) : option (ValidatorSet * (Z + ValsetError)) :=
  let sorted := merge_sort (ByDelta vals) updates in
  '(vals, total) ← TotalVotingPower vals;
  Some (vals, match add_deltas vals sorted (int64 (total - removedPower)) with
              | inl tvp => inl (int64 (tvp + removedPower))
              | inr e => inr e
              end).

Definition numNewValidators (updates : list Validator) (vals : ValidatorSet) : nat :=
  length (filter (fun u => HasAddress vals (v_Address u) = false) updates).

Definition new_priority (vals : ValidatorSet) (updatedTotalVotingPower : Z) (u : Validator) : Validator :=
  match GetByAddress vals (v_Address u) with
  | None => with_priority (int64 (- int64 (updatedTotalVotingPower + Z.shiftr updatedTotalVotingPower 3))) u
  | Some (_, v) => with_priority (v_ProposerPriority v) u
  end.
Definition computeNewPriorities (updates : list Validator) (vals : ValidatorSet) (updatedTotalVotingPower : Z) : list Validator :=
  new_priority vals updatedTotalVotingPower <$> updates.

Fixpoint merge_updates (existing : list Validator) : list Validator -> list Validator :=
  fix go (updates : list Validator) : list Validator :=
    match existing, updates with
    | [], _ => updates
    | _, [] => existing
    | e :: existing', u :: updates' =>
        if bool_decide (v_Address e <b v_Address u) then e :: merge_updates existing' updates
        else if bool_decide (v_Address e = v_Address u) then u :: merge_updates existing' updates'
        else u :: go updates'
    end.
Definition applyUpdates (vals : ValidatorSet) (updates : list Validator) : ValidatorSet :=
  with_validators (merge_updates (merge_sort ByAddress (Validators vals)) updates) vals.

Fixpoint sum_removed (deletes : list Validator) (vals : ValidatorSet) (removed : Z) : Z + ValsetError :=
  match deletes with
  | [] => inl removed
  | d :: deletes =>
      match GetByAddress vals (v_Address d) with
      | None => inr (EUnknownRemoval (v_Address d))
      | Some (_, v) => sum_removed deletes vals (int64 (removed + v_VotingPower v))
      end
  end.
Definition verifyRemovals (deletes : list Validator) (vals : ValidatorSet) : option (Z + ValsetError) :=
  match sum_removed deletes vals 0 with
  | inr e => Some (inr e)
  | inl removed => if bool_decide (length (Validators vals) < length deletes)%nat then None else Some (inl removed)
  end.

(** The list made is written from its start; [room] is what is left of it. *)
Fixpoint remove_loop (existing deletes : list Validator) (room : nat) : option (list Validator) :=
  match deletes, existing with
  | [], _ => if bool_decide (length existing <= room)%nat then Some existing else None
  | _ :: _, [] => None
  | d :: deletes', e :: existing =>
      if bool_decide (v_Address e = v_Address d) then remove_loop existing deletes' room
      else match room with O => None | S room => cons e <$> remove_loop existing deletes room end
  end.
Definition applyRemovals (vals : ValidatorSet) (deletes : list Validator) : option ValidatorSet :=
  if bool_decide (length (Validators vals) < length deletes)%nat then None
  else
    l ← remove_loop (Validators vals) deletes (length (Validators vals) - length deletes);
    Some (with_validators l vals).

(** Once the changes are verified. *)
Definition apply_changes (vals : ValidatorSet) (updates deletes : list Validator) (tvp : Z) : option ValidatorSet :=
  let updates := computeNewPriorities updates vals tvp in
  let vals := applyUpdates vals updates in
  vals ← applyRemovals vals deletes;
  vals ← updateTotalVotingPower vals;
  '(vals, total) ← TotalVotingPower vals;
  vals ← RescalePriorities vals (int64 (PriorityWindowSizeFactor * total));
  vals ← shiftByAvgProposerPriority vals;
  Some (with_validators (merge_sort ByVotingPower (Validators vals)) vals).

Definition updateWithChangeSet (vals : ValidatorSet) (changes : list Validator) (allowDeletes : bool) : option (ValidatorSet * option ValsetError) :=
  if bool_decide (changes = []) then Some (vals, None)
  else
    match processChanges changes with
    | inr e => Some (vals, Some e)
    | inl (updates, deletes) =>
        if negb allowDeletes && bool_decide (deletes <> []) then Some (vals, Some EZeroPower)
        else if bool_decide (numNewValidators updates vals = 0%nat) && bool_decide (length (Validators vals) = length deletes) then
          Some (vals, Some EEmptySet)
        else
          removed ← verifyRemovals deletes vals;
          match (removed : Z + ValsetError) with
          | inr e => Some (vals, Some e)
          | inl removedVotingPower =>
              '(vals, tvp) ← verifyUpdates updates vals removedVotingPower;
              match (tvp : Z + ValsetError) with
              | inr e => Some (vals, Some e)
              | inl tvp => vals ← apply_changes vals updates deletes tvp; Some (vals, None)
              end
          end
    end.
Definition UpdateWithChangeSet (vals : ValidatorSet) (changes : list Validator) : option (ValidatorSet * option ValsetError) :=
  updateWithChangeSet vals changes true.

(** An error is a panic here. *)
Definition NewValidatorSet (valz : list Validator) : option ValidatorSet :=
  '(vals, err) ← updateWithChangeSet (mkVals [] None 0) valz false;
  match (err : option ValsetError) with
  | Some _ => None
  | None => if bool_decide (valz <> []) then IncrementProposerPriority vals 1 else Some vals
  end.

Inductive ValsetInvalid := ErrValidatorSetEmpty | EInvalidValidator (e : ValidatorError) | EInvalidProposer | ErrProposerNotInVals.
Fixpoint validate_all (l : list Validator) : option ValidatorError :=
  match l with [] => None | v :: l => match v_ValidateBasic v with Some e => Some e | None => validate_all l end end.
Definition vals_ValidateBasic (vals : ValidatorSet) : option ValsetInvalid :=
  if IsNilOrEmpty vals then Some ErrValidatorSetEmpty
  else
    match validate_all (Validators vals), Proposer vals with
    | Some e, _ => Some (EInvalidValidator e)
    | None, None => Some EInvalidProposer
    | None, Some p =>
        if bool_decide (p_VotingPower p < 0) || bool_decide (length (p_Address p) <> AddressSize) then Some EInvalidProposer
        else if HasAddress vals (p_Address p) then None else Some ErrProposerNotInVals
    end.

(** [inr] is the error; the list is sorted in place. *)
Definition ValidatorSetFromExistingValidators (valz : list Validator) : option (ValidatorSet + ValsetInvalid) :=
  if bool_decide (valz = []) then Some (inr ErrValidatorSetEmpty)
  else
    match validate_all valz with
    | Some e => Some (inr (EInvalidValidator e))
    | None =>
        proposer ← findPreviousProposer (mkVals valz None 0);
        vals ← updateTotalVotingPower (mkVals valz (proposer_of <$> proposer) 0);
        Some (inl (with_validators (merge_sort ByVotingPower (Validators vals)) vals))
    end.
