(* ===== verification/ValsetPrio.v ===== *)
(** Proposer priorities: the arithmetic of rescaling, centering and increments is exact on
    sets whose priorities are in a window, and how far they move. *)
From stdpp Require Import base gmap sets list sorting.
From Stdlib Require Import ZArith Lia.
From S2P Require Import Prelude Proto ProtoSpec Valset.
Local Open Scope Z_scope.

Abbreviation pri := v_ProposerPriority.
Abbreviation pow := v_VotingPower.
Abbreviation M := MaxTotalVotingPower.
Definition power (l : list Validator) : Z := list_sum pow l.
Definition prio_sum (l : list Validator) : Z := list_sum pri l.
Abbreviation zlen l := (Z.of_nat (length l)).

(** The list with other priorities. *)
Definition reprio (l l' : list Validator) : Prop := proposer_of <$> l = proposer_of <$> l'.
Record powers_ok (l : list Validator) : Prop := {
  po_nonempty : l <> [];
  po_nodup : NoDup (v_Address <$> l);
  po_positive : forall v, v ∈ l -> 1 <= pow v;
  po_total : power l <= M
}.
Definition cache_ok (vals : ValidatorSet) : Prop := totalVotingPower vals = 0 \/ totalVotingPower vals = power (Validators vals).
Definition within (lo hi : Z) (l : list Validator) : Prop := forall v, v ∈ l -> lo <= pri v <= hi.
Definition spread (D : Z) (l : list Validator) : Prop := forall v w, v ∈ l -> w ∈ l -> pri v - pri w <= D.
Definition centered (l : list Validator) : Prop := 0 <= prio_sum l < zlen l.

(** ** Exact arithmetic *)
Lemma M_value : MaxInt64 = 8 * M + 7.
Proof. reflexivity. Qed.
Lemma safeAddClip_exact a b : MinInt64 <= a + b <= MaxInt64 -> safeAddClip a b = a + b.
Proof.
  intros H. unfold safeAddClip, safeAdd. unfold MinInt64, MaxInt64 in *.
  destruct (bool_decide_reflect (0 < b)); cbn [andb]; [rewrite (bool_decide_false (_ < a)) by lia; rewrite (bool_decide_false (b < 0)) by lia; apply int64_small; lia|].
  destruct (bool_decide_reflect (b < 0)); cbn [andb]; [rewrite (bool_decide_false (a < _)) by lia|]; apply int64_small; lia.
Qed.
Lemma safeSubClip_exact a b : MinInt64 <= a - b <= MaxInt64 -> safeSubClip a b = a - b.
Proof.
  intros H. unfold safeSubClip, safeSub. unfold MinInt64, MaxInt64 in *.
  destruct (bool_decide_reflect (0 < b)); cbn [andb]; [rewrite (bool_decide_false (a < _)) by lia; rewrite (bool_decide_false (b < 0)) by lia; apply int64_small; lia|].
  destruct (bool_decide_reflect (b < 0)); cbn [andb]; [rewrite (bool_decide_false (_ < a)) by lia|]; apply int64_small; lia.
Qed.

(** ** Sets with other priorities *)
Lemma reprio_length l l' : reprio l l' -> length l = length l'.
Proof. intros H. by rewrite <- (length_fmap proposer_of l), H, length_fmap. Qed.
Lemma reprio_address l l' : reprio l l' -> v_Address <$> l = v_Address <$> l'.
Proof. intros H. change v_Address with (p_Address ∘ proposer_of). by rewrite !list_fmap_compose, H. Qed.
Lemma reprio_power l l' : reprio l l' -> power l = power l'.
Proof.
  intros H. unfold power. change pow with (fun v => p_VotingPower (proposer_of v)). rewrite <- !(list_sum_fmap proposer_of p_VotingPower). by rewrite H.
Qed.
Lemma reprio_elem l l' v : reprio l l' -> v ∈ l' -> exists w, w ∈ l /\ proposer_of w = proposer_of v.
Proof. intros H Hv. apply (list_elem_of_fmap_2 proposer_of) in Hv. rewrite <- H in Hv. apply list_elem_of_fmap in Hv as (w & -> & Hw). by exists w. Qed.
Lemma reprio_lookup l l' i v : reprio l l' -> l !! i = Some v -> exists v', l' !! i = Some v' /\ proposer_of v' = proposer_of v.
Proof.
  intros H Hv. assert (Hf : (proposer_of <$> l') !! i = Some (proposer_of v)) by (by rewrite <- H, list_lookup_fmap, Hv).
  rewrite list_lookup_fmap in Hf. destruct (l' !! i) as [v'|]; [|done]. simpl in Hf. exists v'. split; [done|congruence].
Qed.
Lemma reprio_powers_ok l l' : reprio l l' -> powers_ok l -> powers_ok l'.
Proof.
  intros H [Hn Hd Hp Ht]. split.
  - intros ->. apply Hn. by apply length_zero_iff_nil, (reprio_length _ _ H).
  - by rewrite <- (reprio_address _ _ H).
  - intros v Hv. destruct (reprio_elem _ _ _ H Hv) as (w & Hw & Heq). unfold proposer_of in Heq. injection Heq as _ _ <-. by apply Hp.
  - by rewrite <- (reprio_power _ _ H).
Qed.
Lemma reprio_refl l : reprio l l.
Proof. done. Qed.
Lemma reprio_trans l1 l2 l3 : reprio l1 l2 -> reprio l2 l3 -> reprio l1 l3.
Proof. unfold reprio. congruence. Qed.
Lemma reprio_map f l : reprio l ((fun v => with_priority (f v) v) <$> l).
Proof. unfold reprio. rewrite <- list_fmap_compose. by apply list_fmap_ext. Qed.
Lemma reprio_insert l i v p : l !! i = Some v -> reprio l (<[i := with_priority p v]> l).
Proof. intros Hi. unfold reprio. rewrite list_fmap_insert. symmetry. apply list_insert_id. by rewrite list_lookup_fmap, Hi. Qed.

Lemma power_bound l v : powers_ok l -> v ∈ l -> 1 <= pow v <= power l.
Proof.
  intros Hp Hv. split; [by apply Hp|]. apply list_sum_elem; [|done]. intros y Hy. pose proof (po_positive _ Hp y Hy). lia.
Qed.
Lemma power_size l : powers_ok l -> 1 <= zlen l <= power l.
Proof.
  intros Hp. split; [destruct l; [by destruct (po_nonempty _ Hp)|simpl; lia]|]. pose proof (list_sum_lower pow 1 l (po_positive _ Hp)). unfold power. lia.
Qed.

(** ** The total power *)
Lemma sum_powers_exact l : forall acc, (forall v, v ∈ l -> 0 <= pow v) -> 0 <= acc -> acc + power l <= M -> sum_powers l acc = Some (acc + power l).
Proof.
  unfold power. induction l as [|v l IH]; intros acc Hp Ha Ht; simpl; [f_equal; simpl; lia|]. simpl in Ht.
  pose proof (Hp v ltac:(left)). assert (0 <= list_sum pow l) by (apply list_sum_nonneg; intros y ?; apply Hp; by right).
  rewrite safeAddClip_exact by (rewrite M_value; unfold MinInt64; lia). rewrite bool_decide_false by lia.
  rewrite IH; [f_equal; lia|intros y ?; apply Hp; by right|lia|lia].
Qed.
Lemma updateTotal_sum vals : (forall v, v ∈ Validators vals -> 0 <= pow v) -> power (Validators vals) <= M ->
  updateTotalVotingPower vals = Some (with_total (power (Validators vals)) vals).
Proof. intros Hp Ht. unfold updateTotalVotingPower. by rewrite sum_powers_exact by (done || lia). Qed.
Lemma TotalVotingPower_sum vals : (forall v, v ∈ Validators vals -> 0 <= pow v) -> power (Validators vals) <= M -> cache_ok vals ->
  TotalVotingPower vals = Some (with_total (power (Validators vals)) vals, power (Validators vals)).
Proof.
  intros Hp Ht Hc. unfold TotalVotingPower. destruct (bool_decide_reflect (totalVotingPower vals = 0)) as [H0|H0].
  - by rewrite (updateTotal_sum _ Hp Ht).
  - destruct Hc as [Hc|Hc]; [done|]. cbn [mbind option_bind]. rewrite Hc. f_equal. f_equal. unfold with_total. rewrite <- Hc. by destruct vals.
Qed.
Lemma powers_nonneg l v : powers_ok l -> v ∈ l -> 0 <= pow v.
Proof. intros Hp Hv. pose proof (po_positive _ Hp v Hv). lia. Qed.
Lemma TotalVotingPower_exact vals : powers_ok (Validators vals) -> cache_ok vals ->
  TotalVotingPower vals = Some (with_total (power (Validators vals)) vals, power (Validators vals)).
Proof. intros Hp. apply TotalVotingPower_sum; [intros v; by apply powers_nonneg|apply Hp]. Qed.

(** ** The window of the priorities *)
Lemma max_min_loop l : forall mx mn,
  let r := foldl (fun '(max, min) v => (if bool_decide (max < pri v) then pri v else max, if bool_decide (pri v < min) then pri v else min)) (mx, mn) l in
  (forall v, v ∈ l -> pri v <= r.1 /\ r.2 <= pri v) /\ mx <= r.1 /\ r.2 <= mn /\
  (r.1 = mx \/ exists v, v ∈ l /\ pri v = r.1) /\ (r.2 = mn \/ exists v, v ∈ l /\ pri v = r.2).
Proof.
  induction l as [|v l IH]; intros mx mn; [simpl; split_and!; try lia; by intros ? ?%elem_of_nil|]. cbn [foldl].
  set (mx' := if bool_decide (mx < pri v) then pri v else mx). set (mn' := if bool_decide (pri v < mn) then pri v else mn).
  specialize (IH mx' mn'). cbv zeta in IH |- *. destruct IH as (Hall & Hx & Hn & Hax & Han).
  assert (Hm : mx <= mx' /\ pri v <= mx' /\ (mx' = mx \/ mx' = pri v)) by (unfold mx'; destruct (bool_decide_reflect (mx < pri v)); lia).
  assert (Hm' : mn' <= mn /\ mn' <= pri v /\ (mn' = mn \/ mn' = pri v)) by (unfold mn'; destruct (bool_decide_reflect (pri v < mn)); lia).
  split_and!; [|lia|lia| |].
  - intros w [->|Hw]%elem_of_cons; [lia|by apply Hall].
  - destruct Hax as [->|(w & Hw & <-)]; [|right; exists w; split; [by right|done]]. destruct Hm as (_ & _ & [->| ->]); [by left|right; exists v; split; [left|done]].
  - destruct Han as [->|(w & Hw & <-)]; [|right; exists w; split; [by right|done]]. destruct Hm' as (_ & _ & [->| ->]); [by left|right; exists v; split; [left|done]].
Qed.
Lemma max_min_spec l mx mn : l <> [] -> within MinInt64 MaxInt64 l -> max_min l = (mx, mn) ->
  (exists v, v ∈ l /\ pri v = mx) /\ (exists w, w ∈ l /\ pri w = mn) /\ forall u, u ∈ l -> mn <= pri u <= mx.
Proof.
  intros Hne Hw Heq. destruct (max_min_loop l MinInt64 MaxInt64) as (Hall & Hx & Hn & Hax & Han). fold (max_min l) in *. rewrite Heq in *. cbn [fst snd] in *.
  destruct l as [|v0 l]; [done|]. pose proof (Hall v0 ltac:(left)). pose proof (Hw v0 ltac:(left)).
  split_and!; [|
    |intros u Hu; destruct (Hall u Hu); lia].
  - destruct Hax as [->|Hax]; [exists v0; split; [left|lia]|done].
  - destruct Han as [->|Han]; [exists v0; split; [left|lia]|done].
Qed.

Lemma rem_sign a r : 0 < r -> (0 <= a /\ 0 <= a `rem` r < r) \/ (a <= 0 /\ - r < a `rem` r <= 0).
Proof.
  intros Hr. destruct (Z_le_gt_dec 0 a); [left; split; [done|by apply Z.rem_bound_pos]|right].
  pose proof (Z.rem_bound_pos_neg a r ltac:(lia) ltac:(lia)). lia.
Qed.
Lemma quot_spread a b r D : 0 < r -> 0 < D -> a - b <= r * D -> a `quot` r - b `quot` r <= D.
Proof.
  intros Hr HD Hab. pose proof (Z.quot_rem a r ltac:(lia)) as Ha. pose proof (Z.quot_rem b r ltac:(lia)) as Hb.
  pose proof (rem_sign a r Hr) as Hra. pose proof (rem_sign b r Hr) as Hrb.
  set (x := a `quot` r) in *. set (y := b `quot` r) in *. destruct (Z_le_gt_dec (x - y) D); [done|]. exfalso.
  assert (r * (x - y) >= r * D + r) by nia. destruct Hra, Hrb; nia.
Qed.
Lemma quot_toward_zero a r lo hi : 0 < r -> lo <= 0 <= hi -> lo <= a <= hi -> lo <= a `quot` r <= hi.
Proof.
  intros Hr Hz Ha. pose proof (Z.quot_rem a r ltac:(lia)). pose proof (rem_sign a r Hr) as Hra. set (x := a `quot` r) in *. destruct Hra as [[? ?]|[? ?]].
  - assert (0 <= x) by nia. assert (x <= r * x) by nia. lia.
  - assert (x <= 0) by nia. assert (r * x <= x) by nia. lia.
Qed.

Lemma with_validators_same vals : with_validators (Validators vals) vals = vals.
Proof. by destruct vals. Qed.

Lemma Rescale_spec vals D0 diffMax lo hi :
  Validators vals <> [] -> within lo hi (Validators vals) -> MinInt64 <= lo <= 0 -> 0 <= hi <= MaxInt64 ->
  spread D0 (Validators vals) -> 0 < diffMax -> D0 + diffMax <= MaxInt64 ->
  exists l', RescalePriorities vals diffMax = Some (with_validators l' vals) /\ reprio (Validators vals) l' /\ within lo hi l' /\ spread diffMax l'.
Proof.
  intros Hne Hw Hlo Hhi Hs Hd Hsum. unfold RescalePriorities, computeMaxMinPriorityDiff, IsNilOrEmpty.
  rewrite (bool_decide_false (_ = [])), (bool_decide_false (diffMax <= 0)) by (done || lia).
  destruct (max_min (Validators vals)) as [mx mn] eqn:Hm.
  assert (Hw' : within MinInt64 MaxInt64 (Validators vals)) by (intros v Hv; pose proof (Hw v Hv); lia).
  destruct (max_min_spec _ _ _ Hne Hw' Hm) as ((v & Hv & Hvx) & (w & Hww & Hwn) & Hall).
  assert (Hdiff : 0 <= mx - mn <= D0) by (pose proof (Hs v w Hv Hww); pose proof (Hall v Hv); lia).
  rewrite (int64_small (mx - mn)), (bool_decide_false (mx - mn < 0)) by (unfold MaxInt64 in *; lia). cbn [mbind option_bind].
  rewrite (int64_small (mx - mn + diffMax)), int64_small by (unfold MaxInt64 in *; lia). rewrite Z.quot_div_nonneg by lia.
  set (ratio := (mx - mn + diffMax - 1) / diffMax). assert (Hr : mx - mn <= ratio * diffMax) by (unfold ratio; pose proof (Z.div_mod (mx - mn + diffMax - 1) diffMax ltac:(lia)); pose proof (Z.mod_pos_bound (mx - mn + diffMax - 1) diffMax ltac:(lia)); lia).
  destruct (bool_decide_reflect (diffMax < mx - mn)) as [Hbig|Hsmall].
  - assert (0 < ratio) by nia. rewrite (bool_decide_false (ratio = 0)) by lia.
    set (f := fun v => int64 (pri v `quot` ratio)).
    assert (Hf : forall u, u ∈ Validators vals -> f u = pri u `quot` ratio /\ lo <= f u <= hi).
    { intros u Hu. pose proof (quot_toward_zero (pri u) ratio lo hi ltac:(lia) ltac:(lia) (Hw u Hu)). unfold f. rewrite int64_small by (unfold MinInt64, MaxInt64 in *; lia). done. }
    exists ((fun v => with_priority (f v) v) <$> Validators vals). split_and!; [done|apply reprio_map| |].
    + intros u (u0 & -> & Hu)%list_elem_of_fmap. by apply Hf.
    + intros u x (u0 & -> & Hu)%list_elem_of_fmap (x0 & -> & Hx)%list_elem_of_fmap. simpl. destruct (Hf u0 Hu) as [-> _], (Hf x0 Hx) as [-> _].
      apply quot_spread; [lia|lia|]. pose proof (Hall u0 Hu). pose proof (Hall x0 Hx). lia.
  - exists (Validators vals). rewrite with_validators_same. split_and!; [done|apply reprio_refl|done|].
    intros u x Hu Hx. pose proof (Hall u Hu). pose proof (Hall x Hx). lia.
Qed.

Lemma shift_spec vals D lo hi :
  Validators vals <> [] -> within lo hi (Validators vals) -> MinInt64 <= lo -> hi <= MaxInt64 -> hi - lo <= MaxInt64 -> spread D (Validators vals) ->
  exists l', shiftByAvgProposerPriority vals = Some (with_validators l' vals) /\ reprio (Validators vals) l' /\ spread D l' /\ centered l'.
Proof.
  intros Hne Hw Hlo Hhi Hrange Hs. unfold shiftByAvgProposerPriority, computeAvgProposerPriority, IsNilOrEmpty. rewrite (bool_decide_false (_ = [])) by done.
  set (l := Validators vals) in *. assert (Hn : 0 < zlen l) by (destruct l; [done|simpl; lia]). rewrite (bool_decide_false (zlen l = 0)) by lia.
  rewrite list_sum_foldl, Z.add_0_l. fold (prio_sum l). set (avg := prio_sum l / zlen l).
  assert (Havg : avg * zlen l <= prio_sum l < avg * zlen l + zlen l).
  { unfold avg. pose proof (Z.div_mod (prio_sum l) (zlen l) ltac:(lia)). pose proof (Z.mod_pos_bound (prio_sum l) (zlen l) ltac:(lia)). lia. }
  assert (Hb : lo <= avg <= hi).
  { pose proof (list_sum_lower pri lo l (fun v Hv => proj1 (Hw v Hv))). pose proof (list_sum_upper pri hi l (fun v Hv => proj2 (Hw v Hv))). fold (prio_sum l) in *. nia. }
  rewrite bool_decide_true by lia. cbn [mbind option_bind]. set (f := fun v => safeSubClip (pri v) avg).
  assert (Hf : forall u, u ∈ l -> f u = pri u - avg) by (intros u Hu; pose proof (Hw u Hu); apply safeSubClip_exact; unfold MinInt64, MaxInt64 in *; lia).
  exists ((fun v => with_priority (f v) v) <$> l). split_and!; [done|apply reprio_map| |].
  - intros u x (u0 & -> & Hu)%list_elem_of_fmap (x0 & -> & Hx)%list_elem_of_fmap. simpl. rewrite (Hf u0), (Hf x0) by done. pose proof (Hs u0 x0 Hu Hx). lia.
  - unfold centered. rewrite length_fmap. unfold prio_sum. rewrite list_sum_fmap. simpl. rewrite (list_sum_ext _ (fun v => pri v + - avg)) by (intros u Hu; rewrite Hf by done; lia).
    rewrite list_sum_add, list_sum_const. fold (prio_sum l). nia.
Qed.

Lemma centered_within D l : spread D l -> centered l -> within (- D) D l.
Proof.
  intros Hs [Hc1 Hc2] v Hv. split.
  - destruct (Z_le_gt_dec (- D) (pri v)); [done|]. exfalso. assert (prio_sum l <= zlen l * -1) by (apply list_sum_upper; intros w Hw; pose proof (Hs w v Hw Hv); lia).
    assert (0 < zlen l) by (destruct l; [by apply elem_of_nil in Hv|simpl; lia]). lia.
  - destruct (Z_le_gt_dec (pri v) D); [done|]. exfalso. assert (zlen l * 1 <= prio_sum l) by (apply list_sum_lower; intros w Hw; pose proof (Hs v w Hv Hw); lia). lia.
Qed.

(** ** The validator with the highest priority *)
Lemma higher_priority_some v w : v_Address v <> v_Address w ->
  exists b, higher_priority v w = Some b /\ if (b : bool) then pri w <= pri v else pri v <= pri w.
Proof.
  intros Hne. unfold higher_priority. destruct (bool_decide_reflect (pri w < pri v)); [exists true; split; [done|lia]|].
  destruct (bool_decide_reflect (pri v < pri w)); [exists false; split; [done|lia]|].
  destruct (bytes_compare (v_Address v) (v_Address w)) eqn:Hc; [by apply bytes_compare_eq in Hc|exists true; split; [done|lia]|exists false; split; [done|lia]].
Qed.
Lemma most_loop_some l : forall i j u, NoDup (v_Address u :: (v_Address <$> l)) ->
  exists j' u', most_loop i l (Some (j, u)) = Some (Some (j', u')) /\ ((j', u') = (j, u) \/ exists k, j' = (i + k)%nat /\ l !! k = Some u') /\
    pri u <= pri u' /\ forall w, w ∈ l -> pri w <= pri u'.
Proof.
  induction l as [|v l IH]; intros i j u Hnd; simpl; [exists j, u; split_and!; [done|by left|lia|by intros ? ?%elem_of_nil]|].
  assert (Huv : v_Address u <> v_Address v) by (apply NoDup_cons in Hnd as [Hnd _]; intros Heq; apply Hnd; rewrite Heq; left).
  destruct (higher_priority_some u v Huv) as (b & Hb & Hle). unfold CompareProposerPriority. cbn [snd]. rewrite Hb. cbn [mbind option_bind]. destruct b.
  - destruct (IH (S i) j u) as (j' & u' & -> & Hor & Hu & Hall).
    { apply NoDup_cons in Hnd as [Hn Hnd]. apply NoDup_cons in Hnd as [_ Hnd]. apply NoDup_cons. split; [|done]. intros ?. apply Hn. csimpl. by right. }
    exists j', u'. split_and!; [done| |done|]; [destruct Hor as [?|(k & -> & Hk)]; [by left|right; exists (S k); split; [lia|done]]|].
    intros w [->|Hw]%elem_of_cons; [lia|by apply Hall].
  - destruct (IH (S i) i v) as (j' & u' & -> & Hor & Hu & Hall).
    { by apply NoDup_cons in Hnd as [_ Hnd]. }
    exists j', u'. split_and!; [done| |lia|]; [right; destruct Hor as [[= -> ->]|(k & -> & Hk)]; [exists 0%nat; split; [lia|done]|exists (S k); split; [lia|done]]|].
    intros w [->|Hw]%elem_of_cons; [lia|by apply Hall].
Qed.
Lemma most_spec vals : powers_ok (Validators vals) ->
  exists i v, getValWithMostPriority vals = Some (Some (i, v)) /\ Validators vals !! i = Some v /\ forall w, w ∈ Validators vals -> pri w <= pri v.
Proof.
  intros [Hne Hnd _ _]. unfold getValWithMostPriority. destruct (Validators vals) as [|v l]; [done|]. simpl.
  destruct (most_loop_some l 1 0 v Hnd) as (j & u & -> & Hor & Hu & Hall). exists j, u.
  split_and!; [done| |intros w [->|Hw]%elem_of_cons; [done|by apply Hall]]. destruct Hor as [[= -> ->]|(k & -> & Hk)]; done.
Qed.

(** ** One increment *)
Definition raised (l : list Validator) : list Validator := (fun v => with_priority (pri v + pow v) v) <$> l.
(** The validator chosen at a position, and the list after it. *)
Definition chosen (l : list Validator) (i : nat) (v : Validator) : Prop := l !! i = Some v /\ forall w, w ∈ l -> pri w + pow w <= pri v + pow v.
Definition lowered (P : Z) (v : Validator) : Validator := with_priority (pri v + pow v - P) v.
Definition after (l : list Validator) (i : nat) (v : Validator) : list Validator := <[i := lowered (power l) v]> (raised l).

Lemma raised_reprio l : reprio l (raised l).
Proof. apply reprio_map. Qed.
Lemma raised_sum l : prio_sum (raised l) = prio_sum l + power l.
Proof. unfold prio_sum, raised. rewrite list_sum_fmap. simpl. by rewrite list_sum_add. Qed.
Lemma raised_lookup l i v : l !! i = Some v -> raised l !! i = Some (with_priority (pri v + pow v) v).
Proof. intros H. unfold raised. by rewrite list_lookup_fmap, H. Qed.
Lemma after_reprio l i v : l !! i = Some v -> reprio l (after l i v).
Proof.
  intros H. eapply reprio_trans; [apply raised_reprio|]. unfold after, lowered.
  change (with_priority (pri v + pow v - power l) v) with (with_priority (pri v + pow v - power l) (with_priority (pri v + pow v) v)).
  by apply reprio_insert, raised_lookup.
Qed.
Lemma after_sum l i v : l !! i = Some v -> prio_sum (after l i v) = prio_sum l.
Proof. intros H. unfold after, prio_sum. rewrite (list_sum_insert pri _ _ _ _ (raised_lookup _ _ _ H)). fold (prio_sum (raised l)). rewrite raised_sum. simpl. unfold prio_sum. lia. Qed.
Lemma chosen_positive l i v : powers_ok l -> 0 <= prio_sum l -> chosen l i v -> 0 < pri v + pow v.
Proof.
  intros Hp Hs [Hi Hmax]. destruct (Z_le_gt_dec (pri v + pow v) 0); [|lia]. exfalso.
  assert (prio_sum (raised l) <= zlen (raised l) * 0) by (apply list_sum_upper; intros w (w0 & -> & Hw)%list_elem_of_fmap; simpl; pose proof (Hmax w0 Hw); lia).
  rewrite raised_sum in *. pose proof (power_size l Hp). lia.
Qed.

Lemma increment_spec vals : powers_ok (Validators vals) -> cache_ok vals -> 0 <= prio_sum (Validators vals) ->
  within MinInt64 (MaxInt64 - power (Validators vals)) (Validators vals) ->
  exists i v, chosen (Validators vals) i v /\
    incrementProposerPriority vals = Some (mkVals (after (Validators vals) i v) (Proposer vals) (power (Validators vals)), lowered (power (Validators vals)) v).
Proof.
  intros Hp Hc Hs Hw. unfold incrementProposerPriority. set (l := Validators vals) in *.
  assert (Hmap : map_priority (fun v => safeAddClip (pri v) (pow v)) vals = with_validators (raised l) vals).
  { unfold map_priority. f_equal. apply list_fmap_ext. intros k x Hk. f_equal. apply list_elem_of_lookup_2 in Hk. pose proof (Hw x Hk). pose proof (power_bound l x Hp Hk).
    apply safeAddClip_exact. lia. }
  rewrite Hmap. pose proof (reprio_powers_ok _ _ (raised_reprio l) Hp) as Hp'.
  destruct (most_spec (with_validators (raised l) vals) Hp') as (i & u & -> & Hi & Hmax). cbn [mbind option_bind Validators with_validators] in *.
  assert (Hex : exists v, l !! i = Some v /\ u = with_priority (pri v + pow v) v).
  { unfold raised in Hi. rewrite list_lookup_fmap in Hi. destruct (l !! i) as [v|]; [|done]. injection Hi as <-. by exists v. }
  destruct Hex as (v & Hv & ->). exists i, v.
  assert (Hch : chosen l i v) by (split; [done|]; intros w Hw'; apply (Hmax (with_priority (pri w + pow w) w)); unfold raised; apply (list_elem_of_fmap_2 (fun v => with_priority (pri v + pow v) v) l w Hw')).
  split; [done|]. rewrite TotalVotingPower_exact; [|exact Hp'|destruct Hc as [Hc|Hc]; [by left|right; simpl; rewrite Hc; apply reprio_power, raised_reprio]].
  cbn [mbind option_bind Validators with_validators with_total fst snd].
  rewrite <- (reprio_power _ _ (raised_reprio l)). pose proof (chosen_positive l i v Hp Hs Hch). pose proof (power_bound l v Hp (list_elem_of_lookup_2 _ _ _ Hv)).
  pose proof (Hw v (list_elem_of_lookup_2 _ _ _ Hv)). pose proof (po_total _ Hp). rewrite safeSubClip_exact; [done|]. simpl. unfold MinInt64, MaxInt64 in *. pose proof M_value. unfold MaxInt64 in *. lia.
Qed.
