(* ===== verification/ValsetFair.v ===== *)
(** How far the priorities move under increments: the sums of the highest ones are bounded
    by a harmonic sequence, so that no increment is clipped and every validator proposes in
    proportion to its power. *)
From stdpp Require Import base gmap sets list sorting.
From Stdlib Require Import ZArith Lia.
From S2P Require Import Prelude Proto ProtoSpec Valset ValsetPrio.
Local Open Scope Z_scope.

Definition pri_at (l : list Validator) (i : nat) : Z := from_option pri 0 (l !! i).
Definition pow_at (l : list Validator) (i : nat) : Z := from_option pow 0 (l !! i).
(** Sets of positions. *)
Definition positions (n : nat) (s : list nat) : Prop := NoDup s /\ forall i, i ∈ s -> (i < n)%nat.

Lemma positions_sum (f : Validator -> Z) l : list_sum (fun i => from_option f 0 (l !! i)) (seq 0 (length l)) = list_sum f l.
Proof.
  induction l as [|v l IH] using rev_ind; [done|]. rewrite length_app, Nat.add_1_r, seq_S, !list_sum_app. simpl.
  rewrite lookup_app_r, Nat.sub_diag by lia. simpl. rewrite <- IH. f_equal. apply list_sum_ext. intros i Hi%elem_of_seq. rewrite lookup_app_l by lia. done.
Qed.
Lemma positions_rest n s : positions n s -> exists t, s ++ t ≡ₚ seq 0 n /\ (length s + length t = n)%nat.
Proof.
  intros [Hnd Hlt]. exists (filter (fun i => i ∉ s) (seq 0 n)).
  assert (Hp : s ++ filter (fun i => i ∉ s) (seq 0 n) ≡ₚ seq 0 n).
  { apply NoDup_Permutation; [|apply NoDup_seq|].
    - apply NoDup_app. split_and!; [done| |apply NoDup_filter, NoDup_seq]. intros i Hi Hf. by apply list_elem_of_filter in Hf as [? _].
    - intros i. rewrite elem_of_app, list_elem_of_filter, elem_of_seq. split; [intros [Hi|[_ ?]]; [pose proof (Hlt i Hi)|]; lia|]. intros Hi. destruct (decide (i ∈ s)); [by left|right]. split; [done|lia]. }
  split; [done|]. rewrite <- length_app, Hp. apply length_seq.
Qed.
Lemma positions_power l s : powers_ok l -> positions (length l) s -> list_sum (pow_at l) s <= power l.
Proof.
  intros Hp Hs. destruct (positions_rest _ _ Hs) as (t & Hst & _). unfold power. rewrite <- (positions_sum pow l), <- Hst, list_sum_app. fold (pow_at l).
  assert (0 <= list_sum (pow_at l) t); [|change (fun i => from_option pow 0 (l !! i)) with (pow_at l); lia].
  apply list_sum_nonneg. intros i _. unfold pow_at. destruct (l !! i) as [v|] eqn:Hi; simpl; [|lia]. pose proof (po_positive _ Hp v (list_elem_of_lookup_2 _ _ _ Hi)). lia.
Qed.

(** ** The bounds on the sums *)
Definition scale : Z := 1000000.
Fixpoint harm (offset : Z) (m k : nat) : Z := match m with O => offset | S m => harm offset m (S k) + (scale / Z.of_nat (S k) + 1) end.
Definition beta (n k : nat) : Z := harm (310000 + 600000 / Z.of_nat n) (n - k) k.
Definition tops (l : list Validator) : Prop := forall s, positions (length l) s -> s <> [] ->
  scale * list_sum (pri_at l) s <= zlen s * (power l * beta (length l) (length s) + scale).

Lemma beta_step n k : (k < n)%nat -> beta n k = beta n (S k) + (scale / Z.of_nat (S k) + 1).
Proof. intros H. unfold beta. replace (n - k)%nat with (S (n - S k)) by lia. done. Qed.
Lemma beta_pos n k : 0 < beta n k.
Proof.
  unfold beta. assert (Ho : 0 < 310000 + 600000 / Z.of_nat n) by (assert (0 <= 600000 / Z.of_nat n) by (apply Z_div_nonneg_nonneg; lia); lia). generalize (n - k)%nat as m. intros m. revert k. induction m as [|m IH]; intros k; [exact Ho|]. cbn [harm]. pose proof (IH (S k)).
  assert (0 <= scale / Z.of_nat (S k)) by (apply Z.div_pos; [done|lia]). lia.
Qed.

(** The sizes of sets for which the sequence covers the window at the start, and stays
    within [15 / 4] of the total power. *)
Definition max_validators : nat := 45.
Definition covers (n k : nat) : bool := bool_decide (2 * scale * (Z.of_nat n - Z.of_nat k) <= Z.of_nat n * beta n k).
Definition beta_check (n : nat) : bool := bool_decide (beta n 1 <= 3740000) && forallb (covers n) (seq 1 n).
Lemma beta_checks n : n ∈ seq 1 max_validators -> beta_check n = true.
Proof. rewrite list_elem_of_In. revert n. apply forallb_forall. vm_compute. reflexivity. Qed.
Lemma beta_covers n k : (1 <= k <= n)%nat -> (n <= max_validators)%nat -> 2 * scale * (Z.of_nat n - Z.of_nat k) <= Z.of_nat n * beta n k.
Proof.
  intros Hk Hn. pose proof (beta_checks n ltac:(apply elem_of_seq; lia)) as H. apply andb_true_iff in H as [_ H]. rewrite forallb_forall in H. specialize (H k ltac:(apply in_seq; lia)).
  by apply bool_decide_eq_true in H.
Qed.
Lemma beta_one n : (1 <= n)%nat -> (n <= max_validators)%nat -> beta n 1 <= 3740000.
Proof.
  intros Hk Hn. pose proof (beta_checks n ltac:(apply elem_of_seq; lia)) as H. apply andb_true_iff in H as [H _]. by apply bool_decide_eq_true in H.
Qed.

Lemma tops_init l : powers_ok l -> (length l <= max_validators)%nat -> spread (2 * power l) l -> centered l -> tops l.
Proof.
  intros Hp Hmax Hs [_ Hc] s Hpos Hne. destruct (positions_rest _ _ Hpos) as (t & Hst & Hlen).
  assert (Hk : (1 <= length s)%nat) by (destruct s; [done|simpl; lia]).
  pose proof (beta_covers (length l) (length s) ltac:(lia) Hmax) as Hcov. pose proof (power_size l Hp) as HP.
  set (X := list_sum (pri_at l) s). set (Y := list_sum (pri_at l) t).
  assert (HXY : X + Y = prio_sum l) by (unfold X, Y; rewrite <- list_sum_app, Hst; apply positions_sum).
  assert (Hall : forall i j, i ∈ s -> j ∈ t -> pri_at l i <= pri_at l j + 2 * power l).
  { intros i j Hi Hj. assert (Hi' : (i < length l)%nat) by (by apply Hpos). assert (Hj' : j ∈ seq 0 (length l)) by (rewrite <- Hst, elem_of_app; by right).
    apply elem_of_seq in Hj'. unfold pri_at. destruct (lookup_lt_is_Some_2 l i Hi') as [v Hv], (lookup_lt_is_Some_2 l j ltac:(lia)) as [w Hw]. rewrite Hv, Hw. simpl.
    pose proof (Hs v w (list_elem_of_lookup_2 _ _ _ Hv) (list_elem_of_lookup_2 _ _ _ Hw)). lia. }
  assert (Hsum : list_sum (fun _ : nat => X) t <= list_sum (fun j => zlen s * pri_at l j + zlen s * (2 * power l)) t).
  { apply list_sum_le. intros j Hj. unfold X. rewrite <- Z.mul_add_distr_l. apply list_sum_upper. intros i Hi. by apply Hall. }
  rewrite list_sum_const, list_sum_add, list_sum_const, list_sum_scale in Hsum. fold Y in Hsum.
  set (B := beta (length l) (length s)) in *. set (P := power l) in *. assert (Hn : zlen l = zlen s + zlen t) by lia.
  assert (Hnx : zlen l * X <= zlen s * (zlen l - 1) + zlen s * (2 * P) * zlen t) by nia.
  assert (Hcov' : 2 * scale * zlen t <= zlen l * B) by nia. assert (zlen s * P * (2 * scale * zlen t) <= zlen s * P * (zlen l * B)) by (apply Z.mul_le_mono_nonneg_l; nia).
  assert (zlen l * (scale * X) <= zlen l * (zlen s * (P * B + scale))); [|nia]. assert (0 < scale) by done. nia.
Qed.

Lemma after_pri_at l i v j : l !! i = Some v -> (j < length l)%nat -> pri_at (after l i v) j = pri_at l j + pow_at l j - if bool_decide (j = i) then power l else 0.
Proof.
  intros Hi Hj. unfold pri_at, pow_at, after. destruct (lookup_lt_is_Some_2 l j Hj) as [w Hw]. rewrite Hw. simpl. destruct (bool_decide_reflect (j = i)) as [->|Hne].
  - rewrite list_lookup_insert_eq by (unfold raised; rewrite length_fmap; lia). simpl. rewrite Hi in Hw. injection Hw as ->. lia.
  - rewrite list_lookup_insert_ne, (raised_lookup _ _ _ Hw) by done. simpl. lia.
Qed.
Lemma chosen_pri_at l i v j : chosen l i v -> (j < length l)%nat -> pri_at l j + pow_at l j <= pri_at l i + pow_at l i.
Proof.
  intros [Hi Hmax] Hj. destruct (lookup_lt_is_Some_2 l j Hj) as [w Hw]. unfold pri_at, pow_at. rewrite Hi, Hw. simpl. apply Hmax. by eapply list_elem_of_lookup_2.
Qed.

Lemma tops_step l i v : powers_ok l -> chosen l i v -> tops l -> tops (after l i v).
Proof.
  intros Hp Hch Ht s Hpos Hne. pose proof (proj1 Hch) as Hi. pose proof (after_reprio l i v Hi) as Hr. rewrite <- (reprio_length _ _ Hr) in *. rewrite <- (reprio_power _ _ Hr).
  assert (Hlt : (i < length l)%nat) by (by eapply lookup_lt_Some). destruct (decide (i ∈ s)) as [Hin|Hnin].
  - rewrite (list_sum_ext _ (fun j => (pri_at l j + pow_at l j) + - (if bool_decide (j = i) then power l else 0))) by (intros j Hj; rewrite after_pri_at by (done || by apply Hpos); lia).
    rewrite !list_sum_add. rewrite (list_sum_ext (fun j => - (if bool_decide (j = i) then power l else 0)) (fun j => if bool_decide (j = i) then - power l else 0)) by (intros j _; by case_bool_decide).
    rewrite (list_sum_update (fun j => if bool_decide (j = i) then - power l else 0) (fun _ => 0) i) by (apply Hpos || (intros y Hy; cbv beta; by rewrite bool_decide_false)). rewrite list_sum_const, !bool_decide_true by done.
    pose proof (positions_power l s Hp Hpos). pose proof (Ht s Hpos Hne). assert (0 < scale) by done. nia.
  - rewrite (list_sum_ext _ (fun j => pri_at l j + pow_at l j)) by (intros j Hj; rewrite after_pri_at, bool_decide_false by (done || by apply Hpos || by intros ->); lia).
    assert (Hpos' : positions (length l) (i :: s)) by (destruct Hpos as [Hnd Hl]; split; [by constructor|intros j [->|Hj]%elem_of_cons; [done|by apply Hl]]).
    assert (Hk : (length s < length l)%nat) by (destruct (positions_rest _ _ Hpos') as (t & _ & Hlen); simpl in Hlen; lia).
    pose proof (Ht (i :: s) Hpos' ltac:(done)) as Hb. pose proof (positions_power l (i :: s) Hp Hpos') as Hw. cbn [list_sum foldr length] in Hb, Hw. fold (list_sum (pri_at l) s) (list_sum (pow_at l) s) in Hb, Hw.
    assert (Hup : list_sum (fun j => pri_at l j + pow_at l j) s <= zlen s * (pri_at l i + pow_at l i)) by (apply list_sum_upper; intros j Hj; apply (chosen_pri_at l i v j Hch); by apply Hpos).
    rewrite list_sum_add in Hup |- *. rewrite (beta_step _ _ Hk). set (B := beta (length l) (S (length s))) in *. set (q := scale / Z.of_nat (S (length s))).
    assert (Hq : scale <= (zlen s + 1) * (q + 1)) by (unfold q; pose proof (Z.mul_succ_div_gt scale (Z.of_nat (S (length s))) ltac:(lia)); lia).
    assert (Hs0 : 0 < zlen s) by (destruct s; [done|simpl; lia]). set (X := list_sum (pri_at l) s) in *. set (W := list_sum (pow_at l) s) in *. set (P := power l) in *. set (k := zlen s) in *.
    replace (Z.of_nat (S (length s))) with (k + 1) in Hb by (unfold k; lia). assert (HP : 0 < P) by (pose proof (power_size l Hp); unfold P; lia).
    assert (Hk1 : (k + 1) * (X + W) <= k * (pri_at l i + X + (pow_at l i + W))) by nia.
    assert (Hk2 : scale * ((k + 1) * (X + W)) <= k * ((k + 1) * (P * B + scale)) + k * (scale * P)) by (assert (0 < scale) by done; nia).
    assert (Hk3 : k * P * scale <= k * P * ((k + 1) * (q + 1))) by (apply Z.mul_le_mono_nonneg_l; nia).
    assert ((k + 1) * (scale * (X + W)) <= (k + 1) * (k * (P * (B + (q + 1)) + scale))); [|nia]. nia.
Qed.

Lemma tops_upper l v : powers_ok l -> (length l <= max_validators)%nat -> tops l -> v ∈ l -> scale * pri v <= power l * 3740000 + scale.
Proof.
  intros Hp Hmax Ht (i & Hi)%list_elem_of_lookup_1. assert (Hlt : (i < length l)%nat) by (by eapply lookup_lt_Some).
  pose proof (Ht [i] ltac:(split; [apply NoDup_singleton|intros j ->%list_elem_of_singleton; done]) ltac:(done)) as H. cbn [list_sum foldr length] in H. unfold pri_at in H. rewrite Hi in H. cbn [from_option] in H.
  pose proof (beta_one (length l) ltac:(lia) Hmax). pose proof (power_size l Hp). change (Z.of_nat 1) with 1 in H. nia.
Qed.

(** ** Normalized priorities *)
(** The window in which all priorities stay, in quarters of the highest total power. *)
Definition good (l : list Validator) : Prop := forall v, v ∈ l -> - 9 * M <= 4 * pri v <= 15 * M.
(** What rescaling and centering give. *)
Record normal (l : list Validator) : Prop := { no_spread : spread (2 * power l) l; no_centered : centered l }.

Lemma normal_within l : normal l -> within (- (2 * power l)) (2 * power l) l.
Proof. intros [Hs Hc]. by apply centered_within. Qed.
Lemma normal_good l : powers_ok l -> normal l -> good l.
Proof. intros Hp Hn v Hv. pose proof (normal_within l Hn v Hv). pose proof (po_total _ Hp). pose proof (power_size l Hp). lia. Qed.

Lemma normalize_spec vals : powers_ok (Validators vals) -> good (Validators vals) ->
  exists l', (vals ← RescalePriorities vals (int64 (PriorityWindowSizeFactor * power (Validators vals))); shiftByAvgProposerPriority vals) = Some (with_validators l' vals) /\
    reprio (Validators vals) l' /\ normal l'.
Proof.
  intros Hp Hg. pose proof (power_size _ Hp) as HP. pose proof (po_total _ Hp) as HM. unfold PriorityWindowSizeFactor. rewrite int64_small by (pose proof M_value; unfold MaxInt64 in *; lia).
  set (P := power (Validators vals)) in *. assert (HMv : M = 1152921504606846975) by reflexivity.
  assert (Hs : spread (6 * M) (Validators vals)) by (intros v w Hv Hw; pose proof (Hg v Hv); pose proof (Hg w Hw); lia).
  assert (Hw : within (- (3 * M)) (4 * M) (Validators vals)) by (intros v Hv; pose proof (Hg v Hv); lia).
  destruct (Rescale_spec vals (6 * M) (2 * P) (- (3 * M)) (4 * M)) as (l1 & -> & Hr1 & Hw1 & Hs1); [apply Hp|done|unfold MinInt64; lia|unfold MaxInt64; lia|done|lia|unfold MaxInt64; lia|].
  cbn [mbind option_bind]. destruct (shift_spec (with_validators l1 vals) (2 * P) (- (3 * M)) (4 * M)) as (l2 & -> & Hr2 & Hs2 & Hc2);
    [apply (reprio_powers_ok _ _ Hr1 Hp)|done|unfold MinInt64; lia|unfold MaxInt64; lia|unfold MaxInt64; lia|done|]. cbn [Validators with_validators] in *.
  pose proof (reprio_trans _ _ _ Hr1 Hr2) as Hr. exists l2. split_and!; [done|done|]. split; [|done]. by rewrite <- (reprio_power _ _ Hr).
Qed.

(** ** Turns *)
(** How often an address is among the proposers. *)
Definition turns (address : bytes) (ps : list Validator) : Z := Z.of_nat (length (filter (fun v => v_Address v = address) ps)).

Record turning (l : list Validator) : Prop := {
  tu_powers : powers_ok l;
  tu_low : forall v, v ∈ l -> - (2 * power l) <= pri v;
  tu_centered : centered l;
  tu_size : (length l <= max_validators)%nat;
  tu_tops : tops l
}.

Lemma turning_high l v : turning l -> v ∈ l -> 100 * pri v <= 374 * power l + 100.
Proof. intros Ht Hv. pose proof (tops_upper l v (tu_powers _ Ht) (tu_size _ Ht) (tu_tops _ Ht) Hv). unfold scale in *. lia. Qed.
Lemma turning_good l : turning l -> good l.
Proof.
  intros Ht v Hv. pose proof (turning_high l v Ht Hv). pose proof (tu_low _ Ht v Hv). pose proof (po_total _ (tu_powers _ Ht)). pose proof (power_size _ (tu_powers _ Ht)).
  assert (HMv : M = 1152921504606846975) by reflexivity. lia.
Qed.
Lemma after_elem l i v w : l !! i = Some v -> w ∈ after l i v -> w = lowered (power l) v \/ exists w0, w0 ∈ l /\ w = with_priority (pri w0 + pow w0) w0.
Proof.
  intros Hi (j & Hj)%list_elem_of_lookup_1. unfold after in Hj. apply list_lookup_insert_Some in Hj as [(_ & <- & _)|[_ Hj]]; [by left|right].
  unfold raised in Hj. rewrite list_lookup_fmap in Hj. destruct (l !! j) as [w0|] eqn:Hw0; [|done]. injection Hj as <-. exists w0. split; [by eapply list_elem_of_lookup_2|done].
Qed.
Lemma after_low l i v : powers_ok l -> 0 <= prio_sum l -> chosen l i v -> (forall w, w ∈ l -> - (2 * power l) <= pri w) -> forall w, w ∈ after l i v -> - (2 * power l) <= pri w.
Proof.
  intros Hp Hs Hch Hlow w Hw. pose proof (power_size l Hp). destruct (after_elem _ _ _ _ (proj1 Hch) Hw) as [->|(w0 & Hw0 & ->)]; simpl.
  - pose proof (chosen_positive l i v Hp Hs Hch). lia.
  - pose proof (Hlow w0 Hw0). pose proof (po_positive _ Hp w0 Hw0). lia.
Qed.
Lemma turning_step l i v : turning l -> chosen l i v -> turning (after l i v).
Proof.
  intros Ht Hch. pose proof (after_reprio l i v (proj1 Hch)) as Hr. split.
  - by eapply reprio_powers_ok, Ht.
  - rewrite <- (reprio_power _ _ Hr). apply after_low; [apply Ht|apply Ht|done|apply Ht].
  - unfold centered. rewrite after_sum by apply Hch. rewrite <- (reprio_length _ _ Hr). apply Ht.
  - rewrite <- (reprio_length _ _ Hr). apply Ht.
  - apply tops_step; [apply Ht|done|apply Ht].
Qed.

Lemma turns_app a ps ps' : turns a (ps ++ ps') = turns a ps + turns a ps'.
Proof. unfold turns. rewrite filter_app, length_app. lia. Qed.
Lemma turns_one l i j v w : powers_ok l -> l !! i = Some v -> l !! j = Some w -> turns (v_Address w) [lowered (power l) v] = if bool_decide (j = i) then 1 else 0.
Proof.
  intros Hp Hi Hj. unfold turns. rewrite filter_cons, filter_nil. destruct (bool_decide_reflect (j = i)) as [->|Hne].
  - rewrite Hi in Hj. injection Hj as <-. by rewrite decide_True.
  - rewrite decide_False; [done|]. intros Heq. apply Hne. eapply (NoDup_lookup _ j i); [apply (po_nodup _ Hp)| |]; rewrite list_lookup_fmap; [by rewrite Hj|rewrite Hi; simpl; f_equal; exact Heq].
Qed.

Lemma increments_spec t : forall vals acc, turning (Validators vals) -> cache_ok vals ->
  exists vals' ps, increments t vals acc = Some (vals', ps ++ acc) /\ length ps = t /\ turning (Validators vals') /\ reprio (Validators vals) (Validators vals') /\
    cache_ok vals' /\ (forall p, p ∈ ps -> proposer_of p ∈ proposer_of <$> Validators vals) /\
    forall i v, Validators vals !! i = Some v -> exists v', Validators vals' !! i = Some v' /\
      pri v' = pri v + Z.of_nat t * pow v - power (Validators vals) * turns (v_Address v) ps.
Proof.
  induction t as [|t IH]; intros vals acc Ht Hc; cbn [increments].
  - exists vals, []. split_and!; [done|done|done|done|done|by intros ? ?%elem_of_nil|]. intros i v Hv. exists v. split; [done|]. change (turns _ []) with 0. lia.
  - pose proof (tu_powers _ Ht) as Hp. set (l := Validators vals) in *. assert (HMv : M = 1152921504606846975) by reflexivity. pose proof (po_total _ Hp). pose proof (power_size _ Hp).
    destruct (increment_spec vals Hp Hc (proj1 (tu_centered _ Ht))) as (i & v & Hch & ->).
    { intros w Hw. pose proof (turning_high l w Ht Hw). pose proof (tu_low _ Ht w Hw). fold l. unfold MinInt64, MaxInt64. lia. }
    fold l in Hch |- *. cbn [mbind option_bind]. set (vals1 := mkVals (after l i v) (Proposer vals) (power l)). pose proof (after_reprio l i v (proj1 Hch)) as Hr.
    destruct (IH vals1 (lowered (power l) v :: acc)) as (vals' & ps & -> & Hlen & Ht' & Hr' & Hc' & Hin & Hpri); [by apply turning_step|right; simpl; by apply reprio_power|].
    cbn [Validators vals1] in *. exists vals', (ps ++ [lowered (power l) v]). rewrite <- app_assoc. split_and!; [done|rewrite length_app; simpl; lia|done|by eapply reprio_trans|done| |].
    + intros p [Hp'|Hp']%elem_of_app; [rewrite Hr; by apply Hin|]. apply list_elem_of_singleton in Hp' as ->. change (proposer_of (lowered (power l) v)) with (proposer_of v).
      apply list_elem_of_fmap_2. by eapply list_elem_of_lookup_2, Hch.
    + intros j w Hj. destruct (reprio_lookup _ _ _ _ Hr Hj) as (w1 & Hw1 & Heq). destruct (Hpri j w1 Hw1) as (w' & Hw' & Hp'). exists w'. split; [done|]. rewrite Hp'.
      assert (Hat : pri w1 = pri w + pow w - if bool_decide (j = i) then power l else 0).
      { pose proof (after_pri_at l i v j (proj1 Hch) (lookup_lt_Some _ _ _ Hj)) as Ha. unfold pri_at, pow_at in Ha. rewrite Hw1, Hj in Ha. exact Ha. }
      injection Heq as -> _ ->. rewrite turns_app, (turns_one l i j v w Hp (proj1 Hch) Hj), <- (reprio_power _ _ Hr), Hat. case_bool_decide; lia.
Qed.

(** ** A set and its turns *)
Record valset_ok (vals : ValidatorSet) : Prop := { vs_powers : powers_ok (Validators vals); vs_cache : cache_ok vals; vs_good : good (Validators vals) }.

(** The increments from a normalized set. *)
Lemma increment_times_start vals times : valset_ok vals -> 0 < times ->
  exists l, reprio (Validators vals) l /\ normal l /\
    increment_times vals times = increments (Z.to_nat times) (mkVals l (Proposer vals) (power l)) [].
Proof.
  intros [Hp Hc Hg] Ht. unfold increment_times, IsNilOrEmpty. rewrite (bool_decide_false (_ = [])), (bool_decide_false (times <= 0)) by (apply Hp || lia).
  rewrite TotalVotingPower_exact by done. cbn [mbind option_bind]. set (vals0 := with_total (power (Validators vals)) vals).
  destruct (normalize_spec vals0 Hp Hg) as (l & Hrun & Hr & Hn). cbn [Validators with_total vals0] in Hrun, Hr. exists l. split_and!; [done|done|].
  change (power (Validators vals0)) with (power (Validators vals)) in Hrun. destruct (RescalePriorities vals0 _) as [vals1|]; [|done]. cbn [mbind option_bind] in Hrun |- *.
  rewrite Hrun. cbn [mbind option_bind]. unfold with_validators, vals0. simpl. by rewrite (reprio_power _ _ Hr).
Qed.

Lemma normal_turning l : powers_ok l -> (length l <= max_validators)%nat -> normal l -> turning l.
Proof.
  intros Hp Hm Hn. split; [done| |apply Hn|done|apply tops_init; (done || apply Hn)]. intros v Hv. pose proof (normal_within l Hn v Hv). lia.
Qed.

(** A single increment needs no bound on the number of validators. *)
Lemma increments_once vals : powers_ok (Validators vals) -> cache_ok vals -> normal (Validators vals) ->
  exists vals' p, increments 1 vals [] = Some (vals', [p]) /\ reprio (Validators vals) (Validators vals') /\ totalVotingPower vals' = power (Validators vals) /\
    good (Validators vals') /\ centered (Validators vals') /\ proposer_of p ∈ proposer_of <$> Validators vals.
Proof.
  intros Hp Hc Hn. pose proof (power_size _ Hp). pose proof (po_total _ Hp). assert (HMv : M = 1152921504606846975) by reflexivity. pose proof (normal_within _ Hn) as Hw.
  destruct (increment_spec vals Hp Hc (proj1 (no_centered _ Hn))) as (i & v & Hch & Hrun).
  { intros w Hww. pose proof (Hw w Hww). unfold MinInt64, MaxInt64. lia. }
  cbn [increments]. rewrite Hrun. cbn [mbind option_bind]. eexists _, _. split; [done|]. cbn [Validators totalVotingPower]. pose proof (after_reprio _ _ _ (proj1 Hch)) as Hr. split_and!; [done|done| | |].
  - intros w Hww. assert (Hlow : - (2 * power (Validators vals)) <= pri w).
    { eapply after_low; [done|apply Hn|done| |done]. intros u Hu. pose proof (Hw u Hu). lia. }
    destruct (after_elem _ _ _ _ (proj1 Hch) Hww) as [->|(w0 & Hw0 & ->)]; simpl in *.
    + pose proof (Hw v (list_elem_of_lookup_2 _ _ _ (proj1 Hch))). pose proof (power_bound _ v Hp (list_elem_of_lookup_2 _ _ _ (proj1 Hch))). lia.
    + pose proof (Hw w0 Hw0). pose proof (power_bound _ w0 Hp Hw0). lia.
  - unfold centered. rewrite after_sum by apply Hch. rewrite <- (reprio_length _ _ Hr). apply Hn.
  - change (proposer_of (lowered (power (Validators vals)) v)) with (proposer_of v). apply list_elem_of_fmap_2. eapply list_elem_of_lookup_2, Hch.
Qed.

(** The numbers of increments that are covered. *)
Definition times_ok (l : list Validator) (times : Z) : Prop := times = 1 \/ (0 < times /\ (length l <= max_validators)%nat).

Lemma IncrementProposerPriority_spec vals times : valset_ok vals -> times_ok (Validators vals) times ->
  exists vals' p, IncrementProposerPriority vals times = Some vals' /\ reprio (Validators vals) (Validators vals') /\ valset_ok vals' /\ centered (Validators vals') /\
    Proposer vals' = Some p /\ p ∈ proposer_of <$> Validators vals /\ (totalVotingPower vals' = 0 \/ totalVotingPower vals' = power (Validators vals)).
Proof.
  intros Hok Ht. assert (Hpos : 0 < times) by (destruct Ht; lia). unfold IncrementProposerPriority.
  destruct (increment_times_start vals times Hok Hpos) as (l & Hr & Hn & ->). pose proof (reprio_powers_ok _ _ Hr (vs_powers _ Hok)) as Hp. rewrite Hr. set (vals0 := mkVals l (Proposer vals) (power l)).
  destruct Ht as [->|[_ Hmax]].
  - destruct (increments_once vals0 Hp ltac:(by right) Hn) as (vals' & p & Hrun & Hr' & Htot & Hg & Hc & Hin). change (Z.to_nat 1) with 1%nat. rewrite Hrun. cbn [mbind option_bind head].
    eexists _, _. split; [done|]. cbn [Validators Proposer totalVotingPower vals0] in *. pose proof (reprio_trans _ _ _ Hr Hr') as Hrr. split_and!; [done| |done|done|done|].
    + split; [by eapply reprio_powers_ok, Hok|right; simpl; rewrite Htot; by apply reprio_power|done].
    + right. by rewrite Htot, (reprio_power _ _ Hr).
  - destruct (increments_spec (Z.to_nat times) vals0 []) as (vals' & ps & Hrun & Hlen & Ht' & Hr' & Hc & Hin & _); [apply normal_turning; [done|simpl; by rewrite <- (reprio_length _ _ Hr)|done]|by right|].
    rewrite Hrun, app_nil_r. cbn [mbind option_bind]. destruct ps as [|p ps]; [simpl in Hlen; lia|]. cbn [head]. pose proof (reprio_trans _ _ _ Hr Hr') as Hrr. eexists _, _. split; [done|]. cbn [Validators Proposer totalVotingPower].
    split_and!; [done| |apply Ht'|done|apply Hin; left|].
    + split; [apply Ht'|done|by apply turning_good].
    + destruct Hc as [Hc|Hc]; [by left|right]. rewrite Hc. symmetry. by apply reprio_power.
Qed.

(** C12. Every validator proposes in proportion to its power: among any number of turns its own
    differ from its share by six at most. *)
Theorem proposers_proportional vals times : valset_ok vals -> (length (Validators vals) <= max_validators)%nat -> 0 < times ->
  exists vals' ps, increment_times vals times = Some (vals', ps) /\ Z.of_nat (length ps) = times /\
    (forall p, p ∈ ps -> proposer_of p ∈ proposer_of <$> Validators vals) /\
    forall v, v ∈ Validators vals -> Z.abs (power (Validators vals) * turns (v_Address v) ps - times * pow v) <= 6 * power (Validators vals).
Proof.
  intros Hok Hmax Ht. destruct (increment_times_start vals times Hok Ht) as (l & Hr & Hn & ->). pose proof (reprio_powers_ok _ _ Hr (vs_powers _ Hok)) as Hp.
  assert (Htu : turning l) by (apply normal_turning; [done|by rewrite <- (reprio_length _ _ Hr)|done]).
  destruct (increments_spec (Z.to_nat times) (mkVals l (Proposer vals) (power l)) [] Htu ltac:(by right)) as (vals' & ps & -> & Hlen & Ht' & Hr' & _ & Hin & Hpri).
  cbn [Validators] in *. exists vals', ps. rewrite app_nil_r. split_and!; [done|lia|by rewrite Hr|]. intros v (i & Hv)%list_elem_of_lookup_1.
  destruct (reprio_lookup _ _ _ _ Hr Hv) as (w & Hw & Heq). destruct (Hpri i w Hw) as (w' & Hw' & Hp'). injection Heq as Ha _ Hpw. rewrite Ha, Hpw in Hp'. rewrite (reprio_power _ _ Hr).
  pose proof (normal_within l Hn w (list_elem_of_lookup_2 _ _ _ Hw)). pose proof (turning_high _ w' Ht' (list_elem_of_lookup_2 _ _ _ Hw')). pose proof (tu_low _ Ht' w' (list_elem_of_lookup_2 _ _ _ Hw')).
  rewrite <- (reprio_power _ _ Hr') in *. pose proof (power_size _ Hp). rewrite Z2Nat.id in Hp' by lia. lia.
Qed.
