(* ===== verification/ValsetUpdate.v ===== *)
(** Changes of a validator set: which change sets are accepted, and the set they give. *)
From stdpp Require Import base gmap sets list sorting fin_maps.
From Stdlib Require Import Lia ZArith.
From S2P Require Import Prelude Proto ProtoSpec Valset ValsetPrio ValsetFair.
Local Open Scope Z_scope.

Abbreviation addrs l := (v_Address <$> l).
(** Strictly increasing addresses. *)
Definition by_addr (l : list Validator) : Prop := StronglySorted bytes_lt (addrs l).

(** ** Sorting *)
#[export] Instance ByAddress_total : Total ByAddress.
Proof. intros a b. unfold ByAddress. apply bytes_le_total. Qed.
#[export] Instance ByAddress_trans : Transitive ByAddress.
Proof. intros a b c. unfold ByAddress. apply bytes_le_trans. Qed.
#[export] Instance ByVotingPower_total : Total ByVotingPower.
Proof. intros a b. unfold ByVotingPower. destruct (Z.lt_trichotomy (pow a) (pow b)) as [?|[?|?]]; [by right; left| |by left; left]. destruct (bytes_le_total (v_Address a) (v_Address b)); [left|right]; by right. Qed.
#[export] Instance ByVotingPower_trans : Transitive ByVotingPower.
Proof. intros a b c. unfold ByVotingPower. intros [?|[? ?]] [?|[? ?]]; try (left; lia). right. split; [lia|]. by etrans. Qed.
#[export] Instance ByDelta_total vals : Total (ByDelta vals).
Proof. intros a b. unfold ByDelta. lia. Qed.
#[export] Instance ByDelta_trans vals : Transitive (ByDelta vals).
Proof. intros a b c. unfold ByDelta. lia. Qed.

Lemma sorted_addrs l : StronglySorted ByAddress l -> StronglySorted bytes_le (addrs l).
Proof.
  induction 1 as [|v l Hl IH Hv]; [constructor|]. csimpl. constructor; [done|]. rewrite Forall_forall in Hv. apply Forall_forall. intros a (w & -> & Hw)%list_elem_of_fmap. by apply Hv.
Qed.
Lemma strictly_sorted (l : list bytes) : StronglySorted bytes_le l -> NoDup l -> StronglySorted bytes_lt l.
Proof.
  induction 1 as [|a l Hl IH Ha]; intros Hnd; [constructor|]. apply NoDup_cons in Hnd as [Hn Hnd]. constructor; [by apply IH|]. rewrite Forall_forall in Ha |- *.
  intros b Hb. destruct (proj1 (bytes_le_lteq _ _) (Ha b Hb)) as [?| ->]; done.
Qed.
Lemma by_addr_nodup l : by_addr l -> NoDup (addrs l).
Proof.
  unfold by_addr. generalize (addrs l). intros as_. induction 1 as [|a l' Hl IH Ha]; constructor; [|done]. intros Hin. rewrite Forall_forall in Ha. by apply (bytes_lt_irrefl a), Ha.
Qed.
Lemma sort_by_addr l : NoDup (addrs l) -> by_addr (merge_sort ByAddress l).
Proof.
  intros Hnd. apply strictly_sorted; [apply sorted_addrs, StronglySorted_merge_sort; apply _|]. by rewrite merge_sort_Permutation.
Qed.
Lemma by_addr_filter (Q : Validator -> Prop) `{forall v, Decision (Q v)} l : by_addr l -> by_addr (filter Q l).
Proof.
  unfold by_addr. induction l as [|v l IH]; intros Hs; [done|]. csimpl in Hs. apply StronglySorted_inv in Hs as [Hs Hv]. rewrite filter_cons. case_decide; [|by apply IH].
  csimpl. constructor; [by apply IH|]. rewrite Forall_forall in Hv |- *. intros a (w & -> & [_ Hw]%list_elem_of_filter)%list_elem_of_fmap. apply Hv. by apply list_elem_of_fmap_2.
Qed.
Lemma by_addr_cons v l : by_addr (v :: l) <-> by_addr l /\ forall w, w ∈ l -> v_Address v <b v_Address w.
Proof.
  unfold by_addr. csimpl. split.
  - intros [Hs Hv]%StronglySorted_inv. split; [done|]. rewrite Forall_forall in Hv. intros w Hw. by apply Hv, list_elem_of_fmap_2.
  - intros [Hs Hv]. constructor; [done|]. apply Forall_forall. intros a (w & -> & Hw)%list_elem_of_fmap. by apply Hv.
Qed.

(** ** Reading the changes *)
Definition in_range (c : Validator) : Prop := 0 <= pow c <= M.
Definition is_update (c : Validator) : Prop := pow c <> 0.
Definition is_removal (c : Validator) : Prop := pow c = 0.
#[export] Instance is_update_dec c : Decision (is_update c).
Proof. unfold is_update. apply _. Defined.
#[export] Instance is_removal_dec c : Decision (is_removal c).
Proof. unfold is_removal. apply _. Defined.

#[global] Typeclasses Opaque is_update is_removal.

Lemma split_changes_ok l : forall prev us rs, NoDup (prev :: addrs l) -> Forall in_range l ->
  split_changes l prev us rs = inl (us ++ filter is_update l, rs ++ filter is_removal l).
Proof.
  induction l as [|c l IH]; intros prev us rs Hnd Hr; cbn [split_changes]; [by rewrite !filter_nil, !app_nil_r|].
  apply Forall_cons in Hr as [[Hc1 Hc2] Hr]. csimpl in Hnd. apply NoDup_cons in Hnd as [Hp Hnd].
  rewrite (bool_decide_false (v_Address c = prev)) by (intros <-; apply Hp; left). rewrite (bool_decide_false (pow c < 0)), (bool_decide_false (M < pow c)) by lia.
  rewrite !filter_cons. destruct (decide (pow c = 0)) as [H0|H0].
  - rewrite (bool_decide_true (pow c = 0)), IH by done. rewrite (decide_False (P := is_update c)), (decide_True (P := is_removal c)) by (unfold is_update, is_removal; lia). by rewrite <- app_assoc.
  - rewrite (bool_decide_false (pow c = 0)), IH by done. rewrite (decide_True (P := is_update c)), (decide_False (P := is_removal c)) by (unfold is_update, is_removal; lia). by rewrite <- app_assoc.
Qed.
Lemma split_changes_err l : forall prev us rs, StronglySorted bytes_le (prev :: addrs l) -> ~ (NoDup (prev :: addrs l) /\ Forall in_range l) ->
  exists e, split_changes l prev us rs = inr e.
Proof.
  induction l as [|c l IH]; intros prev us rs Hs Hn; cbn [split_changes].
  - destruct Hn. split; [apply NoDup_singleton|constructor].
  - csimpl in Hs. apply StronglySorted_inv in Hs as [Hs Hp]. destruct (bool_decide_reflect (v_Address c = prev)) as [He|He]; [by eexists|].
    destruct (bool_decide_reflect (pow c < 0)); [by eexists|]. destruct (bool_decide_reflect (M < pow c)); [by eexists|].
    assert (Hn' : ~ (NoDup (v_Address c :: addrs l) /\ Forall in_range l)).
    { intros [Hnd Hr]. apply Hn. split; [|constructor; [unfold in_range; lia|done]]. csimpl. constructor; [|done]. intros [?|Hin]%elem_of_cons; [by subst|].
      apply Forall_cons in Hp as [Hpc _]. assert (v_Address c <=b prev) by (apply StronglySorted_inv in Hs as [_ Hs]; rewrite Forall_forall in Hs; by apply Hs).
      apply He. apply (anti_symm bytes_le); done. }
    destruct (bool_decide_reflect (pow c = 0)); by apply IH.
Qed.
Lemma nil_le a : [] <=b a.
Proof. by destruct a. Qed.

(** The change sets that [processChanges] accepts. *)
Definition changes_ok (changes : list Validator) : Prop := NoDup ([] :: addrs changes) /\ Forall in_range changes.
#[export] Instance in_range_dec c : Decision (in_range c).
Proof. unfold in_range. apply _. Defined.
#[export] Instance changes_ok_dec changes : Decision (changes_ok changes).
Proof. unfold changes_ok. apply _. Defined.
Definition updates_of (changes : list Validator) : list Validator := filter is_update (merge_sort ByAddress changes).
Definition removals_of (changes : list Validator) : list Validator := filter is_removal (merge_sort ByAddress changes).
Lemma processChanges_ok changes : changes_ok changes -> processChanges changes = inl (updates_of changes, removals_of changes).
Proof. intros [Hnd Hr]. unfold processChanges. rewrite split_changes_ok; [done| |]; by rewrite merge_sort_Permutation. Qed.
Lemma processChanges_err changes : ~ changes_ok changes -> exists e, processChanges changes = inr e.
Proof.
  intros Hn. apply split_changes_err.
  - constructor; [apply sorted_addrs, StronglySorted_merge_sort; apply _|]. apply Forall_forall. intros a _. apply nil_le.
  - by rewrite !merge_sort_Permutation.
Qed.

(** ** Merging and removing *)
Abbreviation outside ds := (fun v => v_Address v ∉ addrs ds).
Lemma filter_outside_cons d ds (l : list Validator) : (forall v, v ∈ l -> v_Address v <> v_Address d) -> filter (outside (d :: ds)) l = filter (outside ds) l.
Proof. intros H. apply filter_ext_on. intros v Hv. csimpl. rewrite not_elem_of_cons. naive_solver. Qed.
Lemma by_addr_ne v (l : list Validator) w : by_addr (v :: l) -> w ∈ l -> v_Address w <> v_Address v.
Proof. intros [_ H]%by_addr_cons Hw Heq. specialize (H w Hw). rewrite Heq in H. by apply bytes_lt_irrefl in H. Qed.

Lemma merge_updates_spec : forall es us, by_addr es -> by_addr us ->
  by_addr (merge_updates es us) /\ merge_updates es us ≡ₚ us ++ filter (outside us) es.
Proof.
  induction es as [|e es IHe]; [intros us _ Hu; destruct us; simpl; by rewrite ?app_nil_r|].
  induction us as [|u us IHu]; intros He Hu.
  - split; [done|]. change (e :: es ≡ₚ filter (outside []) (e :: es)). rewrite filter_all; [done|]. intros v _. apply not_elem_of_nil.
  - cbn [merge_updates]. pose proof (proj1 (by_addr_cons _ _) He) as [Hes Hlt]. pose proof (proj1 (by_addr_cons _ _) Hu) as [Hus Hlu].
    destruct (bool_decide_reflect (v_Address e <b v_Address u)) as [Heu|Heu].
    + destruct (IHe (u :: us) Hes Hu) as [Hb Hp]. split.
      * apply by_addr_cons. split; [done|]. intros w. rewrite Hp, elem_of_app, list_elem_of_filter. intros [[->|Hw]%elem_of_cons|[_ Hw]]; [done|by etrans; [|apply Hlu]|by apply Hlt].
      * rewrite Hp. rewrite filter_cons_True; [by rewrite Permutation_middle|]. csimpl. intros [Heq|(w & Heq & Hw)%list_elem_of_fmap]%elem_of_cons; [rewrite Heq in Heu; by apply bytes_lt_irrefl in Heu|].
        specialize (Hlu w Hw). rewrite <- Heq in Hlu. by apply (bytes_lt_irrefl (v_Address e)); etrans.
    + destruct (bool_decide_reflect (v_Address e = v_Address u)) as [Heq|Hne].
      * destruct (IHe us Hes Hus) as [Hb Hp]. split.
        -- apply by_addr_cons. split; [done|]. intros w. rewrite Hp, elem_of_app, list_elem_of_filter. intros [Hw|[_ Hw]]; [by apply Hlu|rewrite <- Heq; by apply Hlt].
        -- rewrite Hp. rewrite filter_cons_False by (csimpl; rewrite Heq; intros H; apply H; left).
           rewrite filter_outside_cons; [done|]. intros v Hv. rewrite <- Heq. by eapply by_addr_ne.
      * assert (Hue : v_Address u <b v_Address e) by (destruct (bytes_trichotomy (v_Address e) (v_Address u)) as [?|[?|?]]; done).
        destruct (IHu He Hus) as [Hb Hp]. cbn [merge_updates] in Hb, Hp. split.
        -- apply by_addr_cons. split; [exact Hb|]. intros w. rewrite Hp, elem_of_app, list_elem_of_filter. intros [Hw|[_ [->|Hw]%elem_of_cons]]; [by apply Hlu|done|by etrans; [|apply Hlt]].
        -- rewrite Hp. rewrite filter_outside_cons; [done|]. intros v [->|Hv]%elem_of_cons; [done|]. intros Heq. specialize (Hlt v Hv). rewrite Heq in Hlt. by apply (bytes_lt_irrefl (v_Address u)); etrans.
Qed.

Lemma subset_length ds es : by_addr ds -> (forall d, d ∈ ds -> v_Address d ∈ addrs es) -> (length ds <= length es)%nat.
Proof.
  intros Hd Hin. rewrite <- (length_fmap v_Address ds), <- (length_fmap v_Address es). apply submseteq_length, NoDup_submseteq; [by apply by_addr_nodup|].
  intros a (d & -> & Hd')%list_elem_of_fmap. by apply Hin.
Qed.
Lemma remove_loop_spec : forall es ds, by_addr es -> by_addr ds -> (forall d, d ∈ ds -> v_Address d ∈ addrs es) ->
  remove_loop es ds (length es - length ds) = Some (filter (outside ds) es).
Proof.
  induction es as [|e es IH]; intros ds He Hd Hin.
  - destruct ds as [|d ds]; [done|]. by specialize (Hin d ltac:(left)); apply elem_of_nil in Hin.
  - destruct ds as [|d ds].
    + cbn [remove_loop]. rewrite bool_decide_true by (simpl; lia). f_equal. symmetry. apply filter_all. intros v _. apply not_elem_of_nil.
    + cbn [remove_loop]. pose proof (proj1 (by_addr_cons _ _) He) as [Hes Hlt]. pose proof (proj1 (by_addr_cons _ _) Hd) as [Hds Hld].
      destruct (bool_decide_reflect (v_Address e = v_Address d)) as [Heq|Hne].
      * cbn [length]. rewrite Nat.sub_succ, IH; [|done|done|].
        -- rewrite filter_cons_False by (csimpl; rewrite Heq; intros H; apply H; left). f_equal. symmetry. apply filter_outside_cons. intros v Hv. rewrite <- Heq. by eapply by_addr_ne.
        -- intros d' Hd'. specialize (Hin d' ltac:(by right)). csimpl in Hin. apply elem_of_cons in Hin as [Hin|Hin]; [|done]. rewrite Heq in Hin. by eapply by_addr_ne in Hin.
      * assert (Hsub : forall d', d' ∈ d :: ds -> v_Address d' ∈ addrs es).
        { assert (Hde : v_Address d ∈ addrs es) by (specialize (Hin d ltac:(left)); csimpl in Hin; apply elem_of_cons in Hin as [Hin|Hin]; done).
          assert (Hed : v_Address e <b v_Address d) by (apply list_elem_of_fmap in Hde as (w & -> & Hw); by apply Hlt).
          intros d' Hd'. pose proof (Hin d' Hd') as Hin'. csimpl in Hin'. apply elem_of_cons in Hin' as [Heq|Hin']; [|done]. apply elem_of_cons in Hd' as [->|Hd']; [done|].
          specialize (Hld d' Hd'). rewrite Heq in Hld. destruct (bytes_lt_irrefl (v_Address e)). by etrans. }
        pose proof (subset_length (d :: ds) es Hd Hsub) as Hlen. cbn [length] in *. replace (S (length es) - S (length ds))%nat with (S (length es - S (length ds))) by lia.
        change (S (length ds)) with (length (d :: ds)). rewrite IH by done. rewrite filter_cons_True; [done|]. intros (d' & Heq & Hd')%list_elem_of_fmap.
        specialize (Hsub d' Hd'). rewrite <- Heq in Hsub. apply list_elem_of_fmap in Hsub as (w & Hw & Hw'). by eapply by_addr_ne; [exact He|exact Hw'|].
Qed.

(** ** Powers before and after *)
Record members_ok (l : list Validator) : Prop := { mo_nodup : NoDup (addrs l); mo_positive : forall v, v ∈ l -> 1 <= pow v; mo_total : power l <= M }.
Definition old (vals : ValidatorSet) (address : bytes) : Z := match GetByAddress vals address with Some (_, v) => pow v | None => 0 end.

Lemma powers_members l : powers_ok l <-> l <> [] /\ members_ok l.
Proof. split; [intros [? ? ? ?]; done|intros [? [? ? ?]]; done]. Qed.
Lemma members_bound l v : members_ok l -> v ∈ l -> 1 <= pow v <= M.
Proof.
  intros Hm Hv. split; [by apply Hm|]. etrans; [|apply Hm]. apply list_sum_elem; [|done]. intros y Hy. pose proof (mo_positive _ Hm y Hy). lia.
Qed.
Lemma get_some vals a i v : GetByAddress vals a = Some (i, v) -> Validators vals !! i = Some v /\ v_Address v = a.
Proof. unfold GetByAddress. intros (? & ? & _)%list_find_Some. done. Qed.
Lemma get_none vals a : GetByAddress vals a = None <-> a ∉ addrs (Validators vals).
Proof.
  unfold GetByAddress. rewrite list_find_None, Forall_forall, list_elem_of_fmap. split; [intros H (v & -> & Hv); by apply (H v Hv)|intros H v Hv <-; apply H; by exists v].
Qed.
Lemma old_bound vals a : members_ok (Validators vals) -> 0 <= old vals a <= M.
Proof.
  intros Hm. unfold old. destruct (GetByAddress vals a) as [[i v]|] eqn:Hg; [|pose proof M_value; unfold MaxInt64 in *; lia].
  apply get_some in Hg as [Hi _]. pose proof (members_bound _ v Hm (list_elem_of_lookup_2 _ _ _ Hi)). lia.
Qed.

Lemma sum_filter_cons (f : Validator -> Z) a as_ l : a ∉ as_ ->
  list_sum f (filter (fun v => v_Address v ∈ a :: as_) l) = list_sum f (filter (fun v => v_Address v = a) l) + list_sum f (filter (fun v => v_Address v ∈ as_) l).
Proof.
  intros Hn. induction l as [|v l IH]; [done|]. rewrite !filter_cons. destruct (decide (v_Address v ∈ a :: as_)) as [Hin|Hin]; rewrite elem_of_cons in Hin.
  - destruct (decide (v_Address v = a)) as [->|Hne]; [rewrite decide_False by done; simpl; lia|]. rewrite decide_True by naive_solver. simpl. lia.
  - rewrite !decide_False by naive_solver. done.
Qed.
Lemma filter_one l v : NoDup (addrs l) -> v ∈ l -> filter (fun w => v_Address w = v_Address v) l = [v].
Proof.
  intros Hnd Hv. apply list_elem_of_split in Hv as (l1 & l2 & ->). rewrite fmap_app in Hnd. csimpl in Hnd. apply NoDup_app in Hnd as (_ & H1 & [H2 _]%NoDup_cons).
  rewrite filter_app, filter_cons_True by done. rewrite !filter_none; [done| |].
  - intros w Hw Heq. apply H2. rewrite <- Heq. by apply list_elem_of_fmap_2.
  - intros w Hw Heq. apply (H1 (v_Address w)); [by apply list_elem_of_fmap_2|]. rewrite Heq. left.
Qed.
Lemma old_filter vals a : NoDup (addrs (Validators vals)) -> old vals a = list_sum pow (filter (fun v => v_Address v = a) (Validators vals)).
Proof.
  intros Hnd. unfold old. destruct (GetByAddress vals a) as [[i v]|] eqn:Hg.
  - apply get_some in Hg as [Hi <-]. rewrite filter_one by (done || by eapply list_elem_of_lookup_2). simpl. lia.
  - apply get_none in Hg. induction (Validators vals) as [|v l IH]; [done|]. csimpl in Hg. apply not_elem_of_cons in Hg as [Hne Hg]. csimpl in Hnd. apply NoDup_cons in Hnd as [_ Hnd].
    rewrite filter_cons_False by done. by apply IH.
Qed.
Lemma old_sum vals as_ : NoDup (addrs (Validators vals)) -> NoDup as_ -> list_sum (old vals) as_ = list_sum pow (filter (fun v => v_Address v ∈ as_) (Validators vals)).
Proof.
  intros Hnd. induction 1 as [|a as_ Ha Has IH].
  - induction (Validators vals) as [|v l IH]; [done|]. rewrite filter_cons_False by apply not_elem_of_nil. apply IH. csimpl in Hnd. by apply NoDup_cons in Hnd as [_ ?].
  - rewrite sum_filter_cons by done. simpl. rewrite IH, old_filter by done. done.
Qed.
Lemma filter_split_sum (f : Validator -> Z) (Q : Validator -> Prop) `{forall v, Decision (Q v)} l :
  list_sum f l = list_sum f (filter Q l) + list_sum f (filter (fun v => ~ Q v) l).
Proof. induction l as [|v l IH]; [done|]. rewrite !filter_cons. destruct (decide (Q v)); [rewrite decide_False by tauto|rewrite decide_True by done]; simpl; lia. Qed.

(** The set after the changes, in some order. *)
Definition next_list (l changes : list Validator) : list Validator := filter is_update changes ++ filter (outside changes) l.
Definition deltas (vals : ValidatorSet) (us : list Validator) : Z := list_sum (fun u => pow u - old vals (v_Address u)) us.

Lemma delta_exact vals u : members_ok (Validators vals) -> 0 <= pow u <= M -> delta vals u = pow u - old vals (v_Address u).
Proof.
  intros Hm Hu. pose proof (old_bound vals (v_Address u) Hm) as Ho. unfold delta. unfold old in *. destruct (GetByAddress vals (v_Address u)) as [[i v]|]; [|lia].
  apply int64_small. pose proof M_value. unfold MaxInt64 in *. lia.
Qed.
Lemma changes_perm changes : changes ≡ₚ updates_of changes ++ removals_of changes.
Proof.
  unfold updates_of, removals_of. rewrite !merge_sort_Permutation. induction changes as [|c l IH]; [done|]. rewrite !filter_cons.
  destruct (decide (pow c = 0)).
  - rewrite (decide_False (P := is_update c)), (decide_True (P := is_removal c)) by (unfold is_update, is_removal; lia). rewrite <- Permutation_middle. by f_equiv.
  - rewrite (decide_True (P := is_update c)), (decide_False (P := is_removal c)) by (unfold is_update, is_removal; lia). simpl. by f_equiv.
Qed.
Lemma next_power vals changes : members_ok (Validators vals) -> NoDup (addrs changes) ->
  power (next_list (Validators vals) changes) = power (Validators vals) - list_sum (fun d => old vals (v_Address d)) (removals_of changes) + deltas vals (updates_of changes).
Proof.
  intros Hm Hnd. unfold next_list, power, deltas. rewrite list_sum_app.
  assert (Hu : list_sum pow (filter is_update changes) = list_sum pow (updates_of changes)) by (unfold updates_of; by rewrite merge_sort_Permutation).
  rewrite Hu, (filter_split_sum pow (fun v => v_Address v ∈ addrs changes) (Validators vals)), <- old_sum by (done || apply Hm). rewrite list_sum_fmap.
  rewrite (list_sum_perm _ _ _ (changes_perm changes)), list_sum_app.
  rewrite (list_sum_ext (fun u => pow u - old vals (v_Address u)) (fun u => pow u + -1 * old vals (v_Address u))) by (intros; lia). rewrite list_sum_add, list_sum_scale. lia.
Qed.

(** ** The checks *)
Lemma deltas_cons vals u us : deltas vals (u :: us) = (pow u - old vals (v_Address u)) + deltas vals us.
Proof. done. Qed.
Lemma deltas_perm vals us us' : us ≡ₚ us' -> deltas vals us = deltas vals us'.
Proof. intros H. apply (list_sum_perm (fun u => pow u - old vals (v_Address u)) _ _ H). Qed.

Lemma add_deltas_spec vals us : members_ok (Validators vals) -> Forall (fun u => 1 <= pow u <= M) us -> StronglySorted (ByDelta vals) us ->
  forall tvp, list_sum (fun u => old vals (v_Address u)) us <= tvp <= M ->
  add_deltas vals us tvp = if bool_decide (tvp + deltas vals us <= M) then inl (tvp + deltas vals us) else inr ErrTotalVotingPowerOverflow.
Proof.
  intros Hm Hr Hs. induction Hs as [|u us Hs IH Hu]; intros tvp Ht; cbn [add_deltas].
  - change (deltas vals []) with 0. rewrite bool_decide_true, Z.add_0_r by lia. done.
  - apply Forall_cons in Hr as [Hru Hr]. simpl in Ht. rewrite deltas_cons. pose proof (old_bound vals (v_Address u) Hm) as Ho. pose proof M_value.
    assert (Hos : 0 <= list_sum (fun u => old vals (v_Address u)) us) by (apply list_sum_nonneg; intros w _; by apply old_bound).
    rewrite delta_exact, int64_small by (done || unfold MaxInt64 in *; lia). destruct (bool_decide_reflect (M < tvp + (pow u - old vals (v_Address u)))) as [Hov|Hov].
    + rewrite bool_decide_false; [done|]. assert (0 <= deltas vals us); [|lia]. apply list_sum_nonneg. intros w Hw. rewrite Forall_forall in Hu, Hr.
      specialize (Hu w Hw). specialize (Hr w Hw). unfold ByDelta in Hu. rewrite !delta_exact in Hu by (done || lia). lia.
    + rewrite IH by (done || lia). rewrite Z.add_assoc. done.
Qed.

Lemma sum_removed_ok vals ds : members_ok (Validators vals) -> (forall d, d ∈ ds -> v_Address d ∈ addrs (Validators vals)) ->
  forall acc, 0 <= acc -> acc + list_sum (fun d => old vals (v_Address d)) ds <= M ->
  sum_removed ds vals acc = inl (acc + list_sum (fun d => old vals (v_Address d)) ds).
Proof.
  intros Hm. induction ds as [|d ds IH]; intros Hin acc Ha Ht; cbn [sum_removed]; [by rewrite Z.add_0_r|]. simpl in Ht.
  pose proof (old_bound vals (v_Address d) Hm) as Ho. pose proof M_value. assert (0 <= list_sum (fun d => old vals (v_Address d)) ds) by (apply list_sum_nonneg; intros w _; by apply old_bound).
  simpl. unfold old at 1 in Ht. unfold old at 1 in Ho. unfold old at 1. destruct (GetByAddress vals (v_Address d)) as [[i v]|] eqn:Hg.
  - rewrite int64_small, IH by ((intros ? ?; apply Hin; by right) || (unfold MaxInt64 in *; lia)). f_equal. lia.
  - apply get_none in Hg. destruct Hg. apply Hin. left.
Qed.
Lemma sum_removed_err vals ds : forall acc, (exists d, d ∈ ds /\ v_Address d ∉ addrs (Validators vals)) -> exists e, sum_removed ds vals acc = inr e.
Proof.
  induction ds as [|d ds IH]; intros acc (d' & Hd & Hn); [by apply elem_of_nil in Hd|]. cbn [sum_removed]. destruct (GetByAddress vals (v_Address d)) as [[i v]|] eqn:Hg; [|by eexists].
  apply IH. apply elem_of_cons in Hd as [->|Hd]; [|by exists d']. apply get_none in Hn. congruence.
Qed.

(** ** Applying the changes *)
Lemma updates_elem changes u : u ∈ updates_of changes <-> u ∈ changes /\ pow u <> 0.
Proof. unfold updates_of. rewrite list_elem_of_filter, merge_sort_Permutation. unfold is_update. tauto. Qed.
Lemma removals_elem changes d : d ∈ removals_of changes <-> d ∈ changes /\ pow d = 0.
Proof. unfold removals_of. rewrite list_elem_of_filter, merge_sort_Permutation. unfold is_removal. tauto. Qed.
Lemma updates_sorted changes : NoDup (addrs changes) -> by_addr (updates_of changes).
Proof. intros H. by apply by_addr_filter, sort_by_addr. Qed.
Lemma removals_sorted changes : NoDup (addrs changes) -> by_addr (removals_of changes).
Proof. intros H. by apply by_addr_filter, sort_by_addr. Qed.
Lemma changes_addrs changes a : a ∈ addrs changes <-> a ∈ addrs (updates_of changes) \/ a ∈ addrs (removals_of changes).
Proof. pose proof (fmap_Permutation v_Address _ _ (changes_perm changes)) as H. by rewrite H, fmap_app, elem_of_app at 1. Qed.
(** An address is updated or removed, not both. *)
Lemma changes_apart changes u d : NoDup (addrs changes) -> u ∈ updates_of changes -> d ∈ removals_of changes -> v_Address u <> v_Address d.
Proof.
  intros Hnd [Hu Hpu]%updates_elem [Hd Hpd]%removals_elem Heq. apply list_elem_of_lookup_1 in Hu as [i Hi], Hd as [j Hj].
  assert (i = j) as -> by (eapply (NoDup_lookup _ i j); [exact Hnd| |]; rewrite list_lookup_fmap; [by rewrite Hi|rewrite Hj; simpl; by f_equal]). congruence.
Qed.

Lemma new_priority_ref vals tvp u : proposer_of (new_priority vals tvp u) = proposer_of u.
Proof. unfold new_priority. by destruct (GetByAddress vals (v_Address u)) as [[i v]|]. Qed.
Lemma new_addrs vals tvp us : addrs (computeNewPriorities us vals tvp) = addrs us.
Proof. unfold computeNewPriorities. rewrite <- list_fmap_compose. apply list_fmap_ext. intros i u _. simpl. pose proof (new_priority_ref vals tvp u) as H. by injection H. Qed.

Definition changed (vals : ValidatorSet) (changes : list Validator) (tvp : Z) : list Validator :=
  computeNewPriorities (updates_of changes) vals tvp ++ filter (outside changes) (Validators vals).
Lemma changed_refs vals changes tvp : proposer_of <$> changed vals changes tvp ≡ₚ proposer_of <$> next_list (Validators vals) changes.
Proof.
  unfold changed, next_list, computeNewPriorities. rewrite !fmap_app, <- list_fmap_compose. f_equiv. unfold updates_of. rewrite merge_sort_Permutation.
  apply Permutation_refl', list_fmap_ext. intros i u _. apply new_priority_ref.
Qed.

Lemma updated_perm vals changes tvp : NoDup (addrs (Validators vals)) -> NoDup (addrs changes) -> 
  let vals1 := applyUpdates vals (computeNewPriorities (updates_of changes) vals tvp) in
  by_addr (Validators vals1) /\ filter (outside (removals_of changes)) (Validators vals1) ≡ₚ changed vals changes tvp.
Proof.
  intros Hnd Hc. cbv zeta. unfold applyUpdates. cbn [Validators with_validators]. set (us := computeNewPriorities (updates_of changes) vals tvp).
  assert (Hus : by_addr us) by (unfold by_addr, us; rewrite new_addrs; by apply updates_sorted).
  destruct (merge_updates_spec (merge_sort ByAddress (Validators vals)) us (sort_by_addr _ Hnd) Hus) as [Hb Hp]. split; [done|]. rewrite Hp, filter_app, merge_sort_Permutation.
  unfold changed. fold us. f_equiv.
  - rewrite filter_all; [done|]. intros u Hu. intros (d & Heq & Hd)%list_elem_of_fmap. apply (list_elem_of_fmap_2 v_Address) in Hu. unfold us in Hu. rewrite new_addrs in Hu.
    apply list_elem_of_fmap in Hu as (u0 & Heq0 & Hu0). by eapply changes_apart; [exact Hc|exact Hu0|exact Hd|congruence].
  - rewrite list_filter_filter. apply Permutation_refl', filter_ext_on. intros v _. unfold us. rewrite new_addrs, (changes_addrs changes). tauto.
Qed.

(** ** Accepted change sets *)
Record acceptable (l changes : list Validator) : Prop := {
  ac_changes : changes_ok changes;
  ac_present : forall c, c ∈ changes -> pow c = 0 -> v_Address c ∈ addrs l;
  ac_nonempty : next_list l changes <> [];
  ac_total : power (next_list l changes) <= M
}.
Lemma changes_nodup changes : changes_ok changes -> NoDup (addrs changes).
Proof. by intros [[_ ?]%NoDup_cons _]. Qed.
Lemma changes_range changes : changes_ok changes -> forall c, c ∈ changes -> 0 <= pow c <= M.
Proof. intros [_ H] c Hc. rewrite Forall_forall in H. by apply H. Qed.
Lemma updates_range changes : changes_ok changes -> Forall (fun u => 1 <= pow u <= M) (updates_of changes).
Proof. intros Hc. apply Forall_forall. intros u [Hu Hp]%updates_elem. pose proof (changes_range _ Hc u Hu). lia. Qed.

Lemma power_refs l l' : proposer_of <$> l ≡ₚ proposer_of <$> l' -> power l = power l'.
Proof. intros H. unfold power. change pow with (fun v => p_VotingPower (proposer_of v)). rewrite <- !(list_sum_fmap proposer_of p_VotingPower). by rewrite H. Qed.
Lemma refs_elem l l' v : proposer_of <$> l ≡ₚ proposer_of <$> l' -> v ∈ l -> exists w, w ∈ l' /\ proposer_of w = proposer_of v.
Proof. intros H Hv. apply (list_elem_of_fmap_2 proposer_of) in Hv. rewrite H in Hv. apply list_elem_of_fmap in Hv as (w & Heq & Hw). by exists w. Qed.

(** The powers that are removed, and the total before they are. *)
Definition removed (vals : ValidatorSet) (changes : list Validator) : Z := list_sum (fun d => old vals (v_Address d)) (removals_of changes).
Definition total_before (vals : ValidatorSet) (changes : list Validator) : Z := power (Validators vals) + deltas vals (updates_of changes).

Lemma removed_bound vals changes : members_ok (Validators vals) -> NoDup (addrs changes) ->
  0 <= removed vals changes /\ removed vals changes + list_sum (fun u => old vals (v_Address u)) (updates_of changes) <= power (Validators vals).
Proof.
  intros Hm Hnd. split; [apply list_sum_nonneg; intros d _; by apply old_bound|]. unfold removed. rewrite Z.add_comm, <- list_sum_app, <- (list_sum_perm _ _ _ (changes_perm changes)).
  rewrite <- (list_sum_fmap v_Address (old vals)), old_sum by (done || apply Hm). unfold power. rewrite (filter_split_sum pow (fun v => v_Address v ∈ addrs changes) (Validators vals)).
  assert (0 <= list_sum pow (filter (fun v => v_Address v ∉ addrs changes) (Validators vals))); [|lia]. apply list_sum_nonneg. intros v [_ Hv]%list_elem_of_filter. pose proof (mo_positive _ Hm v Hv). lia.
Qed.
Lemma total_before_bound vals changes : members_ok (Validators vals) -> acceptable (Validators vals) changes -> 0 <= total_before vals changes <= 2 * M.
Proof.
  intros Hm [Hc Hpr Hne Ht]. pose proof (changes_nodup _ Hc) as Hnd. pose proof (removed_bound vals changes Hm Hnd) as [Hr0 Hr]. rewrite (next_power vals changes Hm Hnd) in Ht. fold (removed vals changes) in Ht.
  assert (0 <= list_sum (fun u => old vals (v_Address u)) (updates_of changes)) by (apply list_sum_nonneg; intros u _; by apply old_bound). pose proof (mo_total _ Hm). unfold total_before.
  assert (- list_sum (fun u => old vals (v_Address u)) (updates_of changes) <= deltas vals (updates_of changes)); [|lia].
  unfold deltas. rewrite (list_sum_ext (fun u => pow u - old vals (v_Address u)) (fun u => pow u + -1 * old vals (v_Address u))) by (intros; lia). rewrite list_sum_add, list_sum_scale.
  assert (0 <= list_sum pow (updates_of changes)); [|lia]. apply list_sum_nonneg. intros u [Hu _]%updates_elem. pose proof (changes_range _ Hc u Hu). lia.
Qed.

Lemma changed_good vals changes tvp : good (Validators vals) -> 0 <= tvp <= 2 * M -> good (changed vals changes tvp).
Proof.
  intros Hg Ht v [Hv|Hv]%elem_of_app; [|apply list_elem_of_filter in Hv as [_ Hv]; by apply Hg]. unfold computeNewPriorities in Hv. apply list_elem_of_fmap in Hv as (u & -> & _).
  unfold new_priority. destruct (GetByAddress vals (v_Address u)) as [[i w]|] eqn:Hget.
  - apply get_some in Hget as [Hi _]. apply (Hg w). by eapply list_elem_of_lookup_2.
  - cbn [pri with_priority]. rewrite Z.shiftr_div_pow2 by lia. change (2 ^ 3) with 8. assert (HM : M = 1152921504606846975) by reflexivity.
    assert (0 <= tvp / 8 /\ 8 * (tvp / 8) <= tvp) by (split; [apply Z.div_pos; lia|apply Z.mul_div_le; lia]). rewrite (int64_small (tvp + tvp / 8)), int64_small by lia. lia.
Qed.
Lemma changed_powers vals changes tvp : members_ok (Validators vals) -> acceptable (Validators vals) changes ->
  forall l, l ≡ₚ changed vals changes tvp -> NoDup (addrs l) -> powers_ok l.
Proof.
  intros Hm [Hc Hpr Hne Ht] l Hl Hnd. pose proof (changed_refs vals changes tvp) as Hr. rewrite <- Hl in Hr. split; [|done| |].
  - intros ->. apply Hne. symmetry in Hr. simpl in Hr. apply Permutation_nil_r in Hr. by destruct (next_list (Validators vals) changes).
  - intros v Hv. destruct (refs_elem _ _ v Hr Hv) as (w & Hw & Heq). injection Heq as _ _ <-. unfold next_list in Hw. apply elem_of_app in Hw as [Hw|Hw]; apply list_elem_of_filter in Hw as [Hq Hw].
    + pose proof (changes_range _ Hc w Hw). unfold is_update in Hq. lia.
    + by apply Hm.
  - by rewrite (power_refs _ _ Hr).
Qed.

Lemma apply_changes_spec vals changes : members_ok (Validators vals) -> good (Validators vals) -> acceptable (Validators vals) changes ->
  exists vals', apply_changes vals (updates_of changes) (removals_of changes) (total_before vals changes) = Some vals' /\
    proposer_of <$> Validators vals' ≡ₚ proposer_of <$> next_list (Validators vals) changes /\ valset_ok vals' /\ normal (Validators vals') /\
    StronglySorted ByVotingPower (Validators vals') /\ totalVotingPower vals' = power (Validators vals') /\ Proposer vals' = Proposer vals.
Proof.
  intros Hm Hg Hac. pose proof (ac_changes _ _ Hac) as Hc. pose proof (changes_nodup _ Hc) as Hnd. unfold apply_changes. set (tvp := total_before vals changes).
  destruct (updated_perm vals changes tvp (mo_nodup _ Hm) Hnd) as [Hb Hp]. set (vals1 := applyUpdates vals (computeNewPriorities (updates_of changes) vals tvp)) in *.
  assert (Hin : forall d, d ∈ removals_of changes -> v_Address d ∈ addrs (Validators vals1)).
  { intros d Hd. pose proof Hd as [Hdc Hd0]%removals_elem. pose proof (ac_present _ _ Hac d Hdc Hd0) as Hl. unfold vals1, applyUpdates. cbn [Validators with_validators].
    rewrite (proj2 (merge_updates_spec _ _ (sort_by_addr _ (mo_nodup _ Hm)) ltac:(unfold by_addr; rewrite new_addrs; by apply updates_sorted))).
    rewrite fmap_app, elem_of_app. right. apply list_elem_of_fmap in Hl as (w & Heq & Hw). apply list_elem_of_fmap. exists w. split; [done|]. apply list_elem_of_filter. rewrite merge_sort_Permutation. split; [|done].
    rewrite new_addrs. intros (u & Hequ & Hu)%list_elem_of_fmap. by eapply changes_apart; [exact Hnd|exact Hu|exact Hd|congruence]. }
  pose proof (removals_sorted _ Hnd) as Hrs. unfold applyRemovals. rewrite bool_decide_false by (pose proof (subset_length _ _ Hrs Hin); lia).
  rewrite remove_loop_spec by done. cbn [mbind option_bind]. set (l2 := filter (outside (removals_of changes)) (Validators vals1)) in *.
  assert (Hp2 : powers_ok l2) by (eapply changed_powers; [done|done|exact Hp|]; by apply by_addr_nodup, by_addr_filter).
  assert (Hg2 : good l2) by (intros v Hv; rewrite Hp in Hv; revert v Hv; apply changed_good; [done|by apply total_before_bound]).
  rewrite updateTotal_sum by (intros; by eapply powers_nonneg || apply Hp2). cbn [mbind option_bind].
  rewrite TotalVotingPower_exact by (exact Hp2 || by right). cbn [mbind option_bind]. set (vals2 := with_total _ (with_total _ _)).
  destruct (normalize_spec vals2 Hp2 Hg2) as (l3 & Hrun & Hr3 & Hn3). cbn [Validators with_total with_validators vals2] in Hrun, Hr3 |- *.
  destruct (RescalePriorities vals2 _) as [vals3|]; cbn [mbind option_bind] in Hrun |- *; [|done]. rewrite Hrun. cbn [mbind option_bind].
  eexists. split; [done|]. cbn [Validators with_validators with_total totalVotingPower Proposer vals2]. set (l4 := merge_sort ByVotingPower l3). assert (H43 : l4 ≡ₚ l3) by apply merge_sort_Permutation.
  pose proof (reprio_powers_ok _ _ Hr3 Hp2) as Hp3. assert (Hpow : power l4 = power l3) by (unfold power; by rewrite H43).
  assert (Hn4 : normal l4).
  { destruct Hn3 as [Hs Hce]. split; [rewrite Hpow; intros v w; rewrite !H43; apply Hs|]. unfold centered, prio_sum in *. by rewrite H43. }
  assert (Hp4 : powers_ok l4).
  { destruct Hp3 as [H1 H2 H3 H4]. split; [intros H0; apply H1; rewrite H0 in H43; by apply Permutation_nil_l in H43|by rewrite H43|intros v; rewrite H43; apply H3|by rewrite Hpow]. }
  split_and!; [|split; [done| |by apply normal_good]|done|apply StronglySorted_merge_sort; apply _| |done].
  - rewrite H43. unfold reprio in Hr3. rewrite <- Hr3, Hp. apply changed_refs.
  - right. cbn [totalVotingPower Validators with_validators with_total vals2]. by rewrite Hpow, (reprio_power _ _ Hr3).
  - by rewrite Hpow, (reprio_power _ _ Hr3).
Qed.

Lemma empty_check vals changes : members_ok (Validators vals) -> changes_ok changes -> (forall c, c ∈ changes -> pow c = 0 -> v_Address c ∈ addrs (Validators vals)) ->
  (numNewValidators (updates_of changes) vals = 0%nat /\ length (Validators vals) = length (removals_of changes)) <-> next_list (Validators vals) changes = [].
Proof.
  intros Hm Hc Hpr. pose proof (changes_nodup _ Hc) as Hnd. set (l := Validators vals) in *. set (us := updates_of changes). set (ds := removals_of changes).
  assert (Hds : NoDup (addrs ds)) by (by apply by_addr_nodup, removals_sorted).
  assert (Hsub : addrs ds ⊆+ addrs l) by (apply NoDup_submseteq; [done|]; intros a (d & -> & [Hd H0]%removals_elem)%list_elem_of_fmap; by apply Hpr).
  assert (Hups : filter is_update changes = [] <-> us = []).
  { unfold us, updates_of. split; intros H; [by apply Permutation_nil_r; rewrite <- H, merge_sort_Permutation|by apply Permutation_nil_r; rewrite <- H, merge_sort_Permutation]. }
  unfold next_list. split.
  - intros [Hnew Hlen]. assert (Hperm : addrs ds ≡ₚ addrs l) by (apply submseteq_length_Permutation; [done|]; rewrite !length_fmap; lia).
    assert (us = []) as Hus.
    { destruct us as [|u us'] eqn:Hus; [done|]. exfalso. assert (Hu : u ∈ updates_of changes) by (fold us; rewrite Hus; left).
      assert (Ha : v_Address u ∈ addrs l).
      { destruct (HasAddress vals (v_Address u)) eqn:Hh.
        - unfold HasAddress in Hh. apply existsb_exists in Hh as (v & Hv & Heq). apply bool_decide_eq_true in Heq. rewrite <- Heq. by apply list_elem_of_fmap_2, list_elem_of_In.
        - unfold numNewValidators in Hnew. rewrite filter_cons_True in Hnew by done. done. }
      rewrite <- Hperm in Ha. apply list_elem_of_fmap in Ha as (d & Heq & Hd). exact (changes_apart changes u d Hnd Hu Hd Heq). }
    rewrite (proj2 Hups Hus). simpl. apply (filter_none (outside changes)). intros v Hv Hout. apply Hout. apply changes_addrs. right. fold ds. rewrite Hperm. by apply list_elem_of_fmap_2.
  - intros [Hu Hl]%app_eq_nil. apply Hups in Hu. rewrite Hu. split; [done|]. apply Nat.le_antisymm; [|rewrite <- (length_fmap v_Address ds), <- (length_fmap v_Address l); by apply submseteq_length].
    rewrite <- (length_fmap v_Address ds), <- (length_fmap v_Address l). apply submseteq_length, NoDup_submseteq; [apply Hm|]. intros a (v & -> & Hv)%list_elem_of_fmap.
    destruct (decide (v_Address v ∈ addrs changes)) as [Hin|Hout]; [|assert (Hx : v ∈ filter (outside changes) l) by (by apply list_elem_of_filter); rewrite Hl in Hx; by apply elem_of_nil in Hx].
    apply changes_addrs in Hin as [Hin|Hin]; [|done]. fold us in Hin. rewrite Hu in Hin. by apply elem_of_nil in Hin.
Qed.

(** A set that may still be empty. *)
Record base_ok (vals : ValidatorSet) : Prop := { bo_members : members_ok (Validators vals); bo_cache : cache_ok vals; bo_good : good (Validators vals) }.
Lemma valset_base vals : valset_ok vals -> base_ok vals.
Proof. intros [Hp Hc Hg]. split; [by apply powers_members in Hp as [_ ?]|done|done]. Qed.

Definition updated (vals : ValidatorSet) (changes : list Validator) (vals' : ValidatorSet) : Prop :=
  proposer_of <$> Validators vals' ≡ₚ proposer_of <$> next_list (Validators vals) changes /\ valset_ok vals' /\ normal (Validators vals') /\
  StronglySorted ByVotingPower (Validators vals') /\ totalVotingPower vals' = power (Validators vals') /\ Proposer vals' = Proposer vals.
Definition unchanged (vals vals' : ValidatorSet) : Prop := Validators vals' = Validators vals /\ Proposer vals' = Proposer vals /\ base_ok vals'.
Definition deletes_ok (allowDeletes : bool) (changes : list Validator) : Prop := allowDeletes = true \/ removals_of changes = [].

Lemma verifyRemovals_ok vals changes : members_ok (Validators vals) -> NoDup (addrs changes) -> (forall d, d ∈ removals_of changes -> v_Address d ∈ addrs (Validators vals)) ->
  verifyRemovals (removals_of changes) vals = Some (inl (removed vals changes)).
Proof.
  intros Hm Hnd Hin. unfold verifyRemovals. pose proof (removed_bound vals changes Hm Hnd) as [Hr0 Hr]. pose proof (mo_total _ Hm).
  assert (0 <= list_sum (fun u => old vals (v_Address u)) (updates_of changes)) by (apply list_sum_nonneg; intros u _; by apply old_bound).
  rewrite sum_removed_ok by (done || unfold removed in *; lia). rewrite bool_decide_false; [done|]. pose proof (subset_length _ _ (removals_sorted _ Hnd) Hin). lia.
Qed.
Lemma verifyUpdates_spec vals changes : base_ok vals -> changes_ok changes ->
  exists vals', unchanged vals vals' /\ verifyUpdates (updates_of changes) vals (removed vals changes) =
    Some (vals', if bool_decide (power (next_list (Validators vals) changes) <= M) then inl (total_before vals changes) else inr ErrTotalVotingPowerOverflow).
Proof.
  intros [Hm Hca Hg] Hc. pose proof (changes_nodup _ Hc) as Hnd. unfold verifyUpdates. rewrite TotalVotingPower_sum; [|intros v Hv; pose proof (mo_positive _ Hm v Hv); lia|apply Hm|done].
  cbn [mbind option_bind]. set (vals' := with_total _ vals). exists vals'. split; [split_and!; [done|done|split; [done|by right|done]]|]. 
  pose proof (removed_bound vals changes Hm Hnd) as [Hr0 Hr]. pose proof (mo_total _ Hm) as Ht. pose proof (mo_positive _ Hm). pose proof M_value.
  assert (Ho : 0 <= list_sum (fun u => old vals (v_Address u)) (updates_of changes)) by (apply list_sum_nonneg; intros u _; by apply old_bound).
  rewrite int64_small by (unfold MaxInt64 in *; lia). set (us := merge_sort (ByDelta vals) (updates_of changes)). assert (Hus : us ≡ₚ updates_of changes) by apply merge_sort_Permutation.
  assert (Hadd : forall z, add_deltas vals' us z = add_deltas vals us z) by (intros z; revert z; generalize us; intros k; induction k as [|u k IH]; intros z; [done|]; cbn [add_deltas]; change (delta vals' u) with (delta vals u); by rewrite IH).
  rewrite Hadd, add_deltas_spec; [|done|rewrite Hus; by apply updates_range|apply StronglySorted_merge_sort; apply _|rewrite (list_sum_perm _ _ _ Hus); unfold removed in *; lia].
  rewrite (deltas_perm vals _ _ Hus), (next_power vals changes Hm Hnd). fold (removed vals changes). case_bool_decide; [|done]. do 3 f_equal. unfold total_before. rewrite int64_small; [lia|].
  assert (0 <= power (next_list (Validators vals) changes)).
  { apply list_sum_nonneg. intros v [Hv|Hv]%elem_of_app; apply list_elem_of_filter in Hv as [_ Hv]; [pose proof (changes_range _ Hc v Hv); lia|pose proof (mo_positive _ Hm v Hv); lia]. }
  rewrite (next_power vals changes Hm Hnd) in *. fold (removed vals changes) in *. unfold MaxInt64 in *. lia.
Qed.

Lemma updateWithChangeSet_ok vals changes allowDeletes : base_ok vals -> changes <> [] -> acceptable (Validators vals) changes -> deletes_ok allowDeletes changes ->
  exists vals', updateWithChangeSet vals changes allowDeletes = Some (vals', None) /\ updated vals changes vals'.
Proof.
  intros Hb Hne Hac Hd. pose proof (bo_members _ Hb) as Hm. pose proof (ac_changes _ _ Hac) as Hc. pose proof (changes_nodup _ Hc) as Hnd.
  unfold updateWithChangeSet. rewrite bool_decide_false by done. rewrite processChanges_ok by done.
  assert (Hdel : negb allowDeletes && bool_decide (removals_of changes <> []) = false) by (destruct Hd as [->| ->]; [done|by rewrite bool_decide_false, andb_false_r by (by intros H)]). rewrite Hdel.
  assert (Hemp : bool_decide (numNewValidators (updates_of changes) vals = 0%nat) && bool_decide (length (Validators vals) = length (removals_of changes)) = false).
  { apply not_true_iff_false. intros [H1%bool_decide_eq_true H2%bool_decide_eq_true]%andb_true_iff. by apply (ac_nonempty _ _ Hac), (empty_check vals changes Hm Hc (ac_present _ _ Hac)). }
  rewrite Hemp, verifyRemovals_ok; [|done|done|intros d [Hdc H0]%removals_elem; by apply (ac_present _ _ Hac)]. cbn [mbind option_bind].
  destruct (verifyUpdates_spec vals changes Hb Hc) as (vals1 & (Hv1 & Hp1 & Hb1) & ->). rewrite bool_decide_true by apply Hac. cbn [mbind option_bind].
  rewrite <- Hv1 in Hac. destruct (apply_changes_spec vals1 changes (bo_members _ Hb1) (bo_good _ Hb1) Hac) as (vals' & Hrun & Hrefs & Hok & Hn & Hs & Ht & Hpr).
  assert (Htb : total_before vals1 changes = total_before vals changes).
  { unfold total_before, deltas. rewrite Hv1. f_equal. apply list_sum_ext. intros u _. unfold old, GetByAddress. by rewrite Hv1. }
  rewrite Htb in Hrun. rewrite Hrun. cbn [mbind option_bind]. exists vals'. split; [done|]. rewrite Hv1 in Hrefs. rewrite Hp1 in Hpr. by split_and!.
Qed.
Lemma updateWithChangeSet_err vals changes allowDeletes : base_ok vals -> changes <> [] -> ~ (acceptable (Validators vals) changes /\ deletes_ok allowDeletes changes) ->
  exists vals' e, updateWithChangeSet vals changes allowDeletes = Some (vals', Some e) /\ unchanged vals vals'.
Proof.
  intros Hb Hne Hn. pose proof (bo_members _ Hb) as Hm. assert (Hun : unchanged vals vals) by done. unfold updateWithChangeSet. rewrite bool_decide_false by done.
  destruct (decide (changes_ok changes)) as [Hc|Hc]; [|destruct (processChanges_err _ Hc) as [e ->]; by exists vals, e]. rewrite processChanges_ok by done.
  destruct (negb allowDeletes && bool_decide (removals_of changes <> [])) eqn:Hdel; [by eexists _, _|].
  assert (Hd : deletes_ok allowDeletes changes).
  { destruct allowDeletes; [by left|right]. simpl in Hdel. apply bool_decide_eq_false in Hdel. destruct (removals_of changes); [done|]. destruct Hdel. done. }
  destruct (bool_decide (numNewValidators (updates_of changes) vals = 0%nat) && bool_decide (length (Validators vals) = length (removals_of changes))) eqn:Hemp; [by eexists _, _|].
  destruct (decide (Forall (fun d => v_Address d ∈ addrs (Validators vals)) (removals_of changes))) as [Hin|Hin].
  - rewrite Forall_forall in Hin. rewrite (verifyRemovals_ok vals changes Hm (changes_nodup _ Hc) Hin). cbn [mbind option_bind].
    destruct (verifyUpdates_spec vals changes Hb Hc) as (vals1 & Hun1 & ->). rewrite bool_decide_false; [cbn [mbind option_bind]; by eexists _, _|]. intros Ht. apply Hn. split; [|done].
    assert (Hpr : forall c, c ∈ changes -> pow c = 0 -> v_Address c ∈ addrs (Validators vals)) by (intros c Hcc H0; apply Hin, removals_elem; done).
    split; [done|done| |done]. intros He. apply (empty_check vals changes Hm Hc Hpr) in He as [H1 H2]. rewrite !bool_decide_true in Hemp by done. done.
  - assert (Hex : exists d, d ∈ removals_of changes /\ v_Address d ∉ addrs (Validators vals)) by (apply not_Forall_Exists in Hin; [|apply _]; by apply Exists_exists in Hin).
    unfold verifyRemovals. destruct (sum_removed_err vals _ 0 Hex) as [e ->]. cbn [mbind option_bind]. by eexists _, _.
Qed.

(** C13. Change sets: the ones that are accepted, exactly, and their effect.  The new set has the
    changed powers, is sorted by power, and has priorities that are centered and within
    twice the total power; a set that is refused is left as it was. *)
Theorem UpdateWithChangeSet_exact vals changes : valset_ok vals -> changes <> [] ->
  (acceptable (Validators vals) changes -> exists vals', UpdateWithChangeSet vals changes = Some (vals', None) /\ updated vals changes vals') /\
  (~ acceptable (Validators vals) changes -> exists vals' e, UpdateWithChangeSet vals changes = Some (vals', Some e) /\ unchanged vals vals').
Proof.
  intros Hok%valset_base Hne. split; intros Hac; unfold UpdateWithChangeSet.
  - apply updateWithChangeSet_ok; try done. by left.
  - apply updateWithChangeSet_err; try done. by intros [? _].
Qed.

(** A validator set over its life: the powers are a map that change sets update, and no
    operation panics or clips a priority. *)
(** ** The powers as a map *)
Definition powers_map (l : list Validator) : gmap bytes Z := list_to_map ((fun v => (v_Address v, pow v)) <$> l).
Definition total (m : gmap bytes Z) : Z := list_sum snd (map_to_list m).
Definition next_powers (m : gmap bytes Z) (changes : list Validator) : gmap bytes Z :=
  powers_map (filter is_update changes) ∪ filter (fun kv => kv.1 ∉ addrs changes) m.
(** The change sets a map of powers accepts. *)
Definition ref_ok (m : gmap bytes Z) (changes : list Validator) : Prop :=
  changes_ok changes /\ Forall (fun c => pow c = 0 -> is_Some (m !! v_Address c)) changes /\
  next_powers m changes <> ∅ /\ total (next_powers m changes) <= M.
#[export] Instance ref_ok_dec m changes : Decision (ref_ok m changes).
Proof. unfold ref_ok. apply _. Defined.

Section Map.
Implicit Types l : list Validator.
Lemma pairs_keys l : ((fun v => (v_Address v, pow v)) <$> l).*1 = addrs l.
Proof. rewrite <- list_fmap_compose. done. Qed.
Lemma powers_map_lookup l v : NoDup (addrs l) -> v ∈ l -> powers_map l !! v_Address v = Some (pow v).
Proof. intros Hnd Hv. apply elem_of_list_to_map; [by rewrite pairs_keys|]. apply list_elem_of_fmap. by exists v. Qed.
Lemma powers_map_some l a z : powers_map l !! a = Some z -> exists v, v ∈ l /\ v_Address v = a /\ pow v = z.
Proof. intros (v & [= -> ->] & Hv)%elem_of_list_to_map_2%list_elem_of_fmap. by exists v. Qed.
Lemma powers_map_none l a : powers_map l !! a = None <-> a ∉ addrs l.
Proof. unfold powers_map. by rewrite <- not_elem_of_list_to_map, pairs_keys. Qed.
Lemma powers_map_perm l l' : NoDup (addrs l) -> proposer_of <$> l ≡ₚ proposer_of <$> l' -> powers_map l = powers_map l'.
Proof.
  intros Hnd Hp. unfold powers_map. apply list_to_map_proper; [by rewrite pairs_keys|].
  change (fun v => (v_Address v, pow v)) with ((fun r => (p_Address r, p_VotingPower r)) ∘ proposer_of). rewrite !list_fmap_compose. by rewrite Hp.
Qed.
Lemma powers_map_total l : NoDup (addrs l) -> total (powers_map l) = power l.
Proof. intros Hnd. unfold total, powers_map. rewrite map_to_list_to_map by (by rewrite pairs_keys). by rewrite list_sum_fmap. Qed.
Lemma powers_map_size l : NoDup (addrs l) -> size (powers_map l) = length l.
Proof. intros Hnd. unfold powers_map. rewrite <- length_map_to_list, map_to_list_to_map by (by rewrite pairs_keys). apply length_fmap. Qed.
Lemma powers_map_empty l : powers_map l = ∅ <-> l = [].
Proof.
  split; [|by intros ->]. intros H. destruct l as [|v l]; [done|]. exfalso. assert (Hn : powers_map (v :: l) !! v_Address v = None) by (rewrite H; apply lookup_empty).
  apply powers_map_none in Hn. apply Hn. left.
Qed.

Lemma next_list_nodup l changes : NoDup (addrs l) -> NoDup (addrs changes) -> NoDup (addrs (next_list l changes)).
Proof.
  intros Hl Hc. unfold next_list. rewrite fmap_app. apply NoDup_app. split_and!.
  - eapply sublist_NoDup; [exact Hc|]. apply fmap_sublist, sublist_filter.
  - intros a (u & -> & [_ Hu]%list_elem_of_filter)%list_elem_of_fmap (v & Heq & [Hv _]%list_elem_of_filter)%list_elem_of_fmap. apply Hv. rewrite <- Heq. by apply list_elem_of_fmap_2.
  - eapply sublist_NoDup; [exact Hl|]. apply fmap_sublist, sublist_filter.
Qed.
Lemma next_powers_list l changes : NoDup (addrs l) -> NoDup (addrs changes) -> powers_map (next_list l changes) = next_powers (powers_map l) changes.
Proof.
  intros Hl Hc. unfold next_powers, next_list. unfold powers_map at 1. rewrite fmap_app, list_to_map_app. f_equal. apply map_eq. intros a. fold (powers_map (filter (outside changes) l)).
  destruct (powers_map (filter (outside changes) l) !! a) as [z|] eqn:Ha; symmetry.
  - apply powers_map_some in Ha as (v & [Hout Hv]%list_elem_of_filter & <- & <-). apply map_lookup_filter_Some. split; [by apply powers_map_lookup|done].
  - apply powers_map_none in Ha. apply map_lookup_filter_None. destruct (powers_map l !! a) as [z|] eqn:Hz; [right|by left].
    intros z' [= <-] Hout. apply powers_map_some in Hz as (v & Hv & <- & _). apply Ha. apply list_elem_of_fmap_2, list_elem_of_filter. done.
Qed.
Lemma acceptable_ref l changes : NoDup (addrs l) -> acceptable l changes <-> ref_ok (powers_map l) changes.
Proof.
  intros Hl. unfold ref_ok. split.
  - intros [Hc Hpr Hne Ht]. pose proof (changes_nodup _ Hc) as Hnd. rewrite <- next_powers_list, powers_map_empty, powers_map_total by (done || by apply next_list_nodup). split_and!; [done| |done|done].
    apply Forall_forall. intros c Hcc H0. apply not_eq_None_Some. rewrite powers_map_none. intros Hn. by apply Hn, Hpr.
  - intros (Hc & Hpr & Hne & Ht). pose proof (changes_nodup _ Hc) as Hnd. rewrite <- next_powers_list in Hne, Ht by done. rewrite powers_map_empty in Hne. rewrite powers_map_total in Ht by (by apply next_list_nodup).
    split; [done| |done|done]. intros c Hcc H0. rewrite Forall_forall in Hpr. specialize (Hpr c Hcc H0). apply not_eq_None_Some in Hpr. rewrite powers_map_none in Hpr. by apply dec_stable in Hpr.
Qed.
End Map.

(** ** Runs *)
Inductive valset_op := OUpdate (changes : list Validator) | OIncrement (times : Z).
(** A change set that is refused leaves the set for the next operation. *)
Definition valset_step (vals : ValidatorSet) (op : valset_op) : option ValidatorSet :=
  match op with
  | OUpdate changes => fst <$> UpdateWithChangeSet vals changes
  | OIncrement times => IncrementProposerPriority vals times
  end.
Fixpoint valset_run (vals : ValidatorSet) (ops : list valset_op) : option ValidatorSet :=
  match ops with [] => Some vals | op :: ops => vals ← valset_step vals op; valset_run vals ops end.

Definition ref_step (m : gmap bytes Z) (op : valset_op) : gmap bytes Z :=
  match op with OUpdate changes => if decide (ref_ok m changes) then next_powers m changes else m | OIncrement _ => m end.
Definition ref_run (m : gmap bytes Z) (ops : list valset_op) : gmap bytes Z := foldl ref_step m ops.
(** The powers at the last increment, [turn] where there is none. *)
Fixpoint last_turn (turn m : gmap bytes Z) (ops : list valset_op) : gmap bytes Z :=
  match ops with
  | [] => turn
  | op :: ops => last_turn (match op with OUpdate _ => turn | OIncrement _ => m end) (ref_step m op) ops
  end.
Definition has_proposer (turn : gmap bytes Z) (vals : ValidatorSet) : Prop :=
  exists p, Proposer vals = Some p /\ turn !! p_Address p = Some (p_VotingPower p).
Fixpoint ops_ok (m : gmap bytes Z) (ops : list valset_op) : Prop :=
  match ops with
  | [] => True
  | op :: ops =>
      match op with OUpdate _ => True | OIncrement times => times = 1 \/ (0 < times /\ (size m <= max_validators)%nat) end /\ ops_ok (ref_step m op) ops
  end.

Lemma next_powers_nil m : next_powers m [] = m.
Proof.
  unfold next_powers. rewrite filter_nil. unfold powers_map. simpl. rewrite (left_id_L ∅ (∪)). apply map_filter_id. intros a z _. apply not_elem_of_nil.
Qed.
Lemma proposer_power l p : NoDup (addrs l) -> p ∈ proposer_of <$> l -> powers_map l !! p_Address p = Some (p_VotingPower p).
Proof. intros Hnd (v & -> & Hv)%list_elem_of_fmap. by apply (powers_map_lookup l v). Qed.
Lemma step_spec vals op turn : valset_ok vals -> ops_ok (powers_map (Validators vals)) [op] -> has_proposer turn vals ->
  exists vals', valset_step vals op = Some vals' /\ valset_ok vals' /\ powers_map (Validators vals') = ref_step (powers_map (Validators vals)) op /\
    has_proposer (last_turn turn (powers_map (Validators vals)) [op]) vals'.
Proof.
  intros Hok [Hop _] Hhp. pose proof (po_nodup _ (vs_powers _ Hok)) as Hnd. destruct op as [changes|times]; cbn [valset_step ref_step last_turn].
  - destruct (decide (changes = [])) as [->|Hne]; [exists vals; rewrite next_powers_nil; by case_decide|].
    destruct (decide (ref_ok (powers_map (Validators vals)) changes)) as [Hr|Hr]; rewrite <- acceptable_ref in Hr by done; unfold UpdateWithChangeSet.
    + destruct (updateWithChangeSet_ok vals changes true (valset_base _ Hok) Hne Hr ltac:(by left)) as (vals' & -> & Hrefs & Hok' & _ & _ & _ & Hpr). exists vals'. split_and!; [done|done| |unfold has_proposer; by rewrite Hpr].
      rewrite (powers_map_perm _ _ (po_nodup _ (vs_powers _ Hok')) Hrefs). apply next_powers_list; [done|]. apply changes_nodup, Hr.
    + destruct (updateWithChangeSet_err vals changes true (valset_base _ Hok) Hne ltac:(by intros [? _])) as (vals' & e & -> & Hv & Hpr & Hb). exists vals'. rewrite Hv. split_and!; [done| |done|unfold has_proposer; by rewrite Hpr].
      split; [rewrite Hv; apply Hok|apply Hb|apply Hb].
  - destruct (IncrementProposerPriority_spec vals times Hok) as (vals' & p & -> & Hr & Hok' & _ & Hpr & Hin & _).
    { destruct Hop as [->|[? Hs]]; [by left|right; split; [done|]]. by rewrite <- powers_map_size. }
    exists vals'. split_and!; [done|done| |exists p; split; [done|by apply proposer_power]]. symmetry. apply powers_map_perm; [done|]. by rewrite Hr.
Qed.
Lemma run_spec ops : forall vals turn, valset_ok vals -> ops_ok (powers_map (Validators vals)) ops -> has_proposer turn vals ->
  exists vals', valset_run vals ops = Some vals' /\ valset_ok vals' /\ powers_map (Validators vals') = ref_run (powers_map (Validators vals)) ops /\
    has_proposer (last_turn turn (powers_map (Validators vals)) ops) vals'.
Proof.
  induction ops as [|op ops IH]; intros vals turn Hok Hops Hhp; [by exists vals|]. cbn [ops_ok] in Hops. destruct Hops as [Hop Hops].
  destruct (step_spec vals op turn Hok ltac:(by split) Hhp) as (vals1 & Hs & Hok1 & Hm1 & Hhp1). cbn [valset_run]. rewrite Hs. cbn [mbind option_bind]. rewrite <- Hm1 in Hops.
  destruct (IH vals1 _ Hok1 Hops Hhp1) as (vals' & -> & Hok' & Hm' & Hhp'). exists vals'. rewrite Hm1 in Hhp'. split_and!; [done|done| |exact Hhp']. by rewrite Hm', Hm1.
Qed.

Lemma no_removals changes : Forall (fun c => pow c <> 0) changes <-> removals_of changes = [].
Proof.
  rewrite Forall_forall. split.
  - intros H. destruct (removals_of changes) as [|d ds] eqn:Hd; [done|]. assert (Hx : d ∈ removals_of changes) by (rewrite Hd; left). apply removals_elem in Hx as [Hx H0]. by destruct (H d Hx).
  - intros H c Hc H0. assert (Hx : c ∈ removals_of changes) by (by apply removals_elem). rewrite H in Hx. by apply elem_of_nil in Hx.
Qed.
Lemma NewValidatorSet_spec valz : valz <> [] -> ref_ok ∅ valz -> Forall (fun v => pow v <> 0) valz ->
  exists vals, NewValidatorSet valz = Some vals /\ valset_ok vals /\ powers_map (Validators vals) = next_powers ∅ valz /\ has_proposer (next_powers ∅ valz) vals.
Proof.
  intros Hne Hr Hz. unfold NewValidatorSet. set (vals0 := mkVals [] None 0).
  assert (Hb : base_ok vals0) by (split; [split; [constructor|by intros ? ?%elem_of_nil|done]|by left|by intros ? ?%elem_of_nil]).
  assert (Hac : acceptable (Validators vals0) valz) by (apply acceptable_ref; [constructor|exact Hr]).
  destruct (updateWithChangeSet_ok vals0 valz false Hb Hne Hac ltac:(right; by apply no_removals)) as (vals1 & -> & Hrefs & Hok1 & _). cbn [mbind option_bind]. rewrite bool_decide_true by done.
  destruct (IncrementProposerPriority_spec vals1 1 Hok1 ltac:(by left)) as (vals & p & -> & Hrp & Hok & _ & Hpr & Hin & _). exists vals.
  assert (Hm : powers_map (Validators vals) = next_powers ∅ valz); [|split_and!; [done|done|done|exists p; split; [done|]]].
  2: { rewrite <- Hm. apply proposer_power; [apply Hok|]. by rewrite <- Hrp. }
  rewrite <- (powers_map_perm (Validators vals1) (Validators vals)); [|apply Hok1|by rewrite Hrp]. rewrite (powers_map_perm _ _ (po_nodup _ (vs_powers _ Hok1)) Hrefs).
  rewrite next_powers_list; [done|constructor|]. apply changes_nodup, Hac.
Qed.

(** The questions a set answers from its validators. *)
Lemma answers_spec vals : valset_ok vals ->
  (forall a, HasAddress vals a = bool_decide (is_Some (powers_map (Validators vals) !! a))) /\
  (forall a, (fun r => pow r.2) <$> GetByAddress vals a = powers_map (Validators vals) !! a) /\
  TotalVotingPower vals = Some (with_total (power (Validators vals)) vals, total (powers_map (Validators vals))).
Proof.
  intros Hok. pose proof (po_nodup _ (vs_powers _ Hok)) as Hnd. split_and!.
  - intros a. apply eq_true_iff_eq. unfold HasAddress. rewrite existsb_exists, bool_decide_eq_true, <- not_eq_None_Some, powers_map_none. split.
    + intros (v & Hv & <-%bool_decide_eq_true) Hn. apply Hn, list_elem_of_fmap_2. by apply list_elem_of_In.
    + intros Ha%dec_stable. apply list_elem_of_fmap in Ha as (v & -> & Hv). exists v. split; [by apply list_elem_of_In|by apply bool_decide_eq_true].
  - intros a. destruct (GetByAddress vals a) as [[i v]|] eqn:Hg; simpl.
    + apply get_some in Hg as [Hi <-]. symmetry. apply powers_map_lookup; [done|]. by eapply list_elem_of_lookup_2.
    + symmetry. by apply powers_map_none, get_none.
  - rewrite powers_map_total by done. apply TotalVotingPower_exact; apply Hok.
Qed.

(** C24. The life of a validator set: from any initial validators that a set accepts and along
    any change sets and increments, by any positive number of steps for sets of at most 45
    validators and by single steps for larger ones, nothing panics and the set refines the
    map of powers that the accepted changes update: it has the addresses, the powers and
    the total of the map, and stays well formed (the window of the priorities included).
    Its proposer is a validator of the set at the last increment, with the power it had. *)
Theorem valset_refines valz ops : valz <> [] -> ref_ok ∅ valz -> Forall (fun v => pow v <> 0) valz -> ops_ok (next_powers ∅ valz) ops ->
  exists vals vals', NewValidatorSet valz = Some vals /\ valset_run vals ops = Some vals' /\ valset_ok vals' /\
    let m := ref_run (next_powers ∅ valz) ops in
    powers_map (Validators vals') = m /\
    (forall a, HasAddress vals' a = bool_decide (is_Some (m !! a))) /\
    (forall a, (fun r => pow r.2) <$> GetByAddress vals' a = m !! a) /\
    TotalVotingPower vals' = Some (with_total (total m) vals', total m) /\
    exists p, GetProposer vals' = Some (vals', Some p) /\
      last_turn (next_powers ∅ valz) (next_powers ∅ valz) ops !! p_Address p = Some (p_VotingPower p).
Proof.
  intros Hne Hr Hz Hops. destruct (NewValidatorSet_spec valz Hne Hr Hz) as (vals & Hnew & Hok & Hm & Hhp). rewrite <- Hm in Hops.
  destruct (run_spec ops vals _ Hok Hops Hhp) as (vals' & Hrun & Hok' & Hm' & p & Hp & Hlast). exists vals, vals'. rewrite Hm in Hm', Hlast.
  destruct (answers_spec vals' Hok') as (Hhas & Hget & Htot). pose proof (powers_map_total _ (po_nodup _ (vs_powers _ Hok'))) as Hpt.
  rewrite Hm' in *. cbn zeta. split_and!; [done|done|done|done|done|done|by rewrite Htot, Hpt|]. exists p. split; [|done].
  unfold GetProposer. rewrite bool_decide_false by apply Hok'. by rewrite Hp.
Qed.
