(* ===== verification/Merkle.v ===== *)
(** Merkle trees and proofs of [sei-tendermint/crypto/merkle]: [hash.go], [tree.go] and
    [proof.go].

    The nodes that the construction of proofs links to each other are cells of a heap, a list
    in which a pointer is an index; a new node is put at its end.  Recursion that is not
    structural takes the number of items, or of hashes, as fuel. *)
From stdpp Require Import base list.
From Stdlib Require Import ZArith Lia.
From S2P Require Import Prelude Proto.
Local Open Scope Z_scope.

(** [bits.Len] *)
Definition bits_Len (x : Z) : Z := if bool_decide (x = 0) then 0 else Z.log2 x + 1.
(** The largest power of 2 less than [length]; panics below 1. *)
Definition getSplitPoint (length : Z) : option Z :=
  if bool_decide (length < 1) then None
  else
    let k := int64 (Z.shiftl 1 (bits_Len length - 1)) in
    Some (if bool_decide (k = length) then Z.shiftr k 1 else k).

Definition count {A} (l : list A) : Z := Z.of_nat (length l).
(** [l[:k]] and [l[k:]] *)
Definition cut {A} (k : Z) (l : list A) : option (list A * list A) :=
  if bool_decide (0 <= k <= count l) then Some (take (Z.to_nat k) l, drop (Z.to_nat k) l) else None.
(** [l[i] = x] *)
Definition assign {A} (i : nat) (x : A) (l : list A) : option (list A) := if bool_decide (i < length l)%nat then Some (<[i := x]> l) else None.

Record MerkleProof := mkProof { pr_Total : Z; pr_Index : Z; pr_LeafHash : bytes; pr_Aunts : list bytes }.
Inductive ProofInvalid := ENegativeTotal | ENegativeIndex | ELeafHashSize | ETooManyAunts | EAuntSize (i : nat).
Inductive ProofError :=
| ProofTotalNegative | ProofIndexNegative | InvalidLeafHash | InvalidIndexAndTotal | AuntsLeft | AuntsMissing | InvalidRootHash.
Definition MaxAunts : nat := 100.

Fixpoint check_aunts (i : nat) (aunts : list bytes) : option ProofInvalid :=
  match aunts with
  | [] => None
  | a :: aunts => if bool_decide (length a <> 32%nat) then Some (EAuntSize i) else check_aunts (S i) aunts
  end.
(** [None] is no error. *)
Definition proof_ValidateBasic (sp : MerkleProof) : option ProofInvalid :=
  if bool_decide (pr_Total sp < 0) then Some ENegativeTotal
  else if bool_decide (pr_Index sp < 0) then Some ENegativeIndex
  else if bool_decide (length (pr_LeafHash sp) <> 32%nat) then Some ELeafHashSize
  else if bool_decide (MaxAunts < length (pr_Aunts sp))%nat then Some ETooManyAunts
  else check_aunts 0 (pr_Aunts sp).

(** A node on the way to the root, with its sibling on one side. *)
Record ProofNode := mkNode { n_Hash : bytes; n_Parent : option nat; n_Left : option nat; n_Right : option nat }.
Definition new_node (hash : bytes) : ProofNode := mkNode hash None None None.

Section Trees.
Context (sha256 : bytes -> bytes).

Definition emptyHash : bytes := sha256 [].
Definition leafHash (leaf : bytes) : bytes := sha256 ([0] ++ leaf).
Definition innerHash (left right : bytes) : bytes := sha256 ([1] ++ left ++ right).

Fixpoint hashFromByteSlices (fuel : nat) (items : list bytes) : option bytes :=
  match fuel with
  | O => None
  | S fuel =>
      match items with
      | [] => Some emptyHash
      | [item] => Some (leafHash item)
      | _ =>
          k ← getSplitPoint (int64 (count items));
          '(lefts, rights) ← cut k items;
          left ← hashFromByteSlices fuel lefts;
          right ← hashFromByteSlices fuel rights;
          Some (innerHash left right)
      end
  end.
Definition HashFromByteSlices (items : list bytes) : option bytes := hashFromByteSlices (S (length items)) items.

(** One level: pairs of neighbours are replaced by their hashes, in the same array.  [rp] is
    the read and [wp] the write position. *)
Fixpoint pair_loop (fuel : nat) (items : list bytes) (size rp wp : nat) : option (list bytes * nat) :=
  match fuel with
  | O => None
  | S fuel =>
      if bool_decide (rp < size)%nat then
        if bool_decide (rp + 1 < size)%nat then
          a ← items !! rp; b ← items !! (rp + 1)%nat;
          items ← assign wp (innerHash a b) items;
          pair_loop fuel items size (rp + 2) (wp + 1)
        else
          a ← items !! rp;
          items ← assign wp a items;
          pair_loop fuel items size (rp + 1) (wp + 1)
      else Some (items, wp)
  end.
Fixpoint level_loop (fuel : nat) (items : list bytes) (size : nat) : option bytes :=
  match fuel with
  | O => None
  | S fuel =>
      match size with
      | O => Some emptyHash
      | S O => items !! O
      | _ => '(items, wp) ← pair_loop (S size) items size 0 0; level_loop fuel items wp
      end
  end.
Definition HashFromByteSlicesIterative (input : list bytes) : option bytes :=
  let items := leafHash <$> input in level_loop (S (length items)) items (length items).

(** The leaves' nodes and the root's, in the heap. *)
Fixpoint trailsFromByteSlices (fuel : nat) (items : list bytes) (h : list ProofNode) : option (list ProofNode * (list nat * nat)) :=
  match fuel with
  | O => None
  | S fuel =>
      match items with
      | [] => Some (h ++ [new_node emptyHash], ([], length h))
      | [item] => Some (h ++ [new_node (leafHash item)], ([length h], length h))
      | _ =>
          k ← getSplitPoint (int64 (count items));
          '(ls, rs) ← cut k items;
          '(h, (lefts, leftRoot)) ← trailsFromByteSlices fuel ls h;
          '(h, (rights, rightRoot)) ← trailsFromByteSlices fuel rs h;
          l ← h !! leftRoot; r ← h !! rightRoot;
          let root := length h in
          let h := h ++ [new_node (innerHash (n_Hash l) (n_Hash r))] in
          l ← h !! leftRoot;
          let h := <[leftRoot := mkNode (n_Hash l) (Some root) (n_Left l) (Some rightRoot)]> h in
          r ← h !! rightRoot;
          let h := <[rightRoot := mkNode (n_Hash r) (Some root) (Some leftRoot) (n_Right r)]> h in
          Some (h, (lefts ++ rights, root))
      end
  end.

Fixpoint flatten_loop (fuel : nat) (h : list ProofNode) (spn : option nat) (innerHashes : list bytes) : option (list bytes) :=
  match spn with
  | None => Some innerHashes
  | Some p =>
      match fuel with
      | O => None
      | S fuel =>
          n ← h !! p;
          innerHashes ← match n_Left n, n_Right n with
                        | Some q, _ => s ← h !! q; Some (innerHashes ++ [n_Hash s])
                        | None, Some q => s ← h !! q; Some (innerHashes ++ [n_Hash s])
                        | None, None => Some innerHashes
                        end;
          flatten_loop fuel h (n_Parent n) innerHashes
      end
  end.
Definition FlattenAunts (h : list ProofNode) (spn : nat) : option (list bytes) := flatten_loop (length h) h (Some spn) [].

Fixpoint make_proofs (h : list ProofNode) (total : Z) (i : nat) (trails : list nat) : option (list MerkleProof) :=
  match trails with
  | [] => Some []
  | trail :: trails =>
      n ← h !! trail;
      aunts ← FlattenAunts h trail;
      proofs ← make_proofs h total (S i) trails;
      Some (mkProof total (Z.of_nat i) (n_Hash n) aunts :: proofs)
  end.
Definition ProofsFromByteSlices (items : list bytes) : option (bytes * list MerkleProof) :=
  '(h, (trails, rootSPN)) ← trailsFromByteSlices (S (length items)) items [];
  root ← h !! rootSPN;
  proofs ← make_proofs h (int64 (count items)) 0 trails;
  Some (n_Hash root, proofs).

Fixpoint computeHashFromAunts (fuel : nat) (index total : Z) (leafHash : bytes) (innerHashes : list bytes) : option (bytes + ProofError) :=
  if bool_decide (total <= index \/ index < 0 \/ total <= 0) then Some (inr InvalidIndexAndTotal)
  else if bool_decide (total = 1) then Some (if bool_decide (innerHashes <> []) then inr AuntsLeft else inl leafHash)
  else
    match last innerHashes with
    | None => Some (inr AuntsMissing)
    | Some aunt =>
        match fuel with
        | O => None
        | S fuel =>
            let innerHashes := take (length innerHashes - 1) innerHashes in
            numLeft ← getSplitPoint total;
            if bool_decide (index < numLeft) then
              r ← computeHashFromAunts fuel index numLeft leafHash innerHashes;
              Some match r with inr e => inr e | inl leftHash => inl (innerHash leftHash aunt) end
            else
              r ← computeHashFromAunts fuel (index - numLeft) (total - numLeft) leafHash innerHashes;
              Some match r with inr e => inr e | inl rightHash => inl (innerHash aunt rightHash) end
        end
    end.
Definition ComputeRootHash (sp : MerkleProof) : option (bytes + ProofError) :=
  computeHashFromAunts (length (pr_Aunts sp)) (pr_Index sp) (pr_Total sp) (pr_LeafHash sp) (pr_Aunts sp).
(** [Some None] is no error. *)
Definition proof_Verify (sp : MerkleProof) (rootHash leaf : bytes) : option (option ProofError) :=
  if bool_decide (pr_Total sp < 0) then Some (Some ProofTotalNegative)
  else if bool_decide (pr_Index sp < 0) then Some (Some ProofIndexNegative)
  else if bool_decide (pr_LeafHash sp <> leafHash leaf) then Some (Some InvalidLeafHash)
  else
    r ← ComputeRootHash sp;
    Some match r with
         | inr e => Some e
         | inl computedHash => if bool_decide (computedHash <> rootHash) then Some InvalidRootHash else None
         end.
End Trees.
