(* ===== verification/MerkleSpec.v ===== *)
(** Merkle trees: the recursive and the iterative hash agree, the proofs made for items are
    accepted, and a proof that is accepted, or an equal root, shows the items, unless two
    different inputs of the hash function with the same hash are at hand. *)
From stdpp Require Import base list.
From Stdlib Require Import ZArith Lia.
From S2P Require Import Prelude Proto ProtoSpec Merkle.
Local Open Scope Z_scope.

(** ** Split points *)
Definition is_split (n k : nat) : Prop := exists e, k = (2 ^ e)%nat /\ (k < n <= 2 * k)%nat.

Lemma is_split_unique n k k' : is_split n k -> is_split n k' -> k = k'.
Proof.
  intros (e & -> & H) (e' & -> & H'). f_equal. rewrite <- !Nat.pow_succ_r' in *.
  assert (e < S e')%nat by (apply (Nat.pow_lt_mono_r_iff 2); lia). assert (e' < S e)%nat by (apply (Nat.pow_lt_mono_r_iff 2); lia). lia.
Qed.
Lemma is_split_bounds n k : is_split n k -> (0 < k < n)%nat.
Proof. intros (e & -> & H). pose proof (Nat.pow_nonzero 2 e). lia. Qed.
Lemma is_split_half n k : is_split n k -> (2 < n)%nat -> exists k', k = (2 * k')%nat /\ is_split ((n + 1) / 2) k'.
Proof.
  intros (e & -> & H) Hn. destruct e as [|e]; [simpl in H; lia|]. exists (2 ^ e)%nat. rewrite Nat.pow_succ_r' in *. split; [done|]. exists e. split; [done|].
  split; [apply Nat.div_le_lower_bound; lia|]. pose proof (Nat.div_mod_eq (n + 1) 2). lia.
Qed.

Lemma getSplitPoint_spec n : (2 <= n)%nat -> Z.of_nat n < 2 ^ 63 -> exists k, getSplitPoint (int64 (Z.of_nat n)) = Some (Z.of_nat k) /\ is_split n k.
Proof.
  intros Hn Hb. rewrite int64_small by lia. unfold getSplitPoint, bits_Len. rewrite bool_decide_eq_false_2 by lia. rewrite (bool_decide_eq_false_2 (Z.of_nat n = 0)) by lia.
  rewrite Z.add_simpl_r, Z.shiftl_1_l. pose proof (Z.log2_spec (Z.of_nat n) ltac:(lia)) as [Hlo Hhi]. pose proof (Z.log2_nonneg (Z.of_nat n)) as H0.
  set (e := Z.log2 (Z.of_nat n)) in *. rewrite Z.pow_succ_r in Hhi by done. rewrite int64_small by lia.
  assert (Hpow : forall x, 0 <= x -> 2 ^ x = Z.of_nat (2 ^ Z.to_nat x)) by (intros x Hx; rewrite Nat2Z.inj_pow, Z2Nat.id by done; done).
  case_bool_decide as He.
  - assert (0 < e) by (destruct (decide (e = 0)) as [E|]; [rewrite E in He; lia|lia]).
    rewrite Z.shiftr_div_pow2 by lia. replace (2 ^ e) with (2 ^ (e - 1) * 2 ^ 1) by (rewrite <- Z.pow_add_r by lia; f_equal; lia). rewrite Z.div_mul by lia.
    exists (2 ^ Z.to_nat (e - 1))%nat. rewrite <- Hpow by lia. split; [done|]. exists (Z.to_nat (e - 1)). split; [done|].
    replace (2 ^ e) with (2 * 2 ^ (e - 1)) in He by (rewrite <- Z.pow_succ_r by lia; f_equal; lia). rewrite Hpow in He by lia. pose proof (Nat.pow_nonzero 2 (Z.to_nat (e - 1))). lia.
  - exists (2 ^ Z.to_nat e)%nat. rewrite <- Hpow by lia. split; [done|]. exists (Z.to_nat e). split; [done|]. rewrite (Hpow e) in * by lia. lia.
Qed.

Lemma cut_split {A} (l : list A) k : is_split (length l) k -> cut (Z.of_nat k) l = Some (take k l, drop k l).
Proof. intros H%is_split_bounds. unfold cut, count. rewrite bool_decide_eq_true_2 by lia. by rewrite Nat2Z.id. Qed.

(** ** Roots *)
Section Roots.
Context (sha256 : bytes -> bytes).
Local Abbreviation innerHash := (innerHash sha256).
Local Abbreviation leafHash := (leafHash sha256).

(** The root over the hashes of the leaves. *)
Inductive tops : list bytes -> bytes -> Prop :=
| tops_one x : tops [x] x
| tops_two l k a b : is_split (length l) k -> tops (take k l) a -> tops (drop k l) b -> tops l (innerHash a b).

Lemma tops_inv l r : tops l r -> l = [r] \/ exists k a b, is_split (length l) k /\ tops (take k l) a /\ tops (drop k l) b /\ r = innerHash a b.
Proof. intros [x|l' k a b Hk Ha Hb]; [by left|right]. by exists k, a, b. Qed.
Lemma tops_fun l r r' : tops l r -> tops l r' -> r = r'.
Proof.
  intros H. revert r'. induction H as [x|l k a b Hk Ha IHa Hb IHb]; intros r' H'; inversion H' as [y|l' k' a' b' Hk' Ha' Hb']; subst; [done| | |].
  - apply is_split_bounds in Hk'. simpl in Hk'. lia.
  - apply is_split_bounds in Hk. simpl in Hk. lia.
  - pose proof (is_split_unique _ _ _ Hk Hk') as <-. f_equal; auto.
Qed.

Lemma split_ind (Q : list bytes -> Prop) :
  Q [] -> (forall x, Q [x]) ->
  (forall l k, getSplitPoint (int64 (count l)) = Some (Z.of_nat k) -> cut (Z.of_nat k) l = Some (take k l, drop k l) -> is_split (length l) k -> Q (take k l) -> Q (drop k l) -> Q l) ->
  forall l, count l < 2 ^ 63 -> Q l.
Proof.
  intros H0 H1 H2 l. remember (length l) as n eqn:Hn. revert l Hn. induction (lt_wf n) as [n _ IH]. intros l -> Hb.
  destruct (decide (2 <= length l)%nat) as [Hl|Hl]; [|destruct l as [|x [|y l]]; simpl in Hl; [done|apply H1|lia]].
  unfold count in Hb. destruct (getSplitPoint_spec (length l) Hl Hb) as (k & Hk & Hs). pose proof (is_split_bounds _ _ Hs).
  apply (H2 l k Hk (cut_split l k Hs) Hs); [eapply (IH k)|eapply (IH (length l - k)%nat)]; try lia; unfold count; rewrite ?length_take, ?length_drop; lia.
Qed.

Lemma hash_tops fuel items : (length items < fuel)%nat -> items <> [] -> count items < 2 ^ 63 ->
  exists r, hashFromByteSlices sha256 fuel items = Some r /\ tops (leafHash <$> items) r.
Proof.
  intros Hf Hne Hb. revert fuel Hf Hne. pattern items. revert items Hb. apply split_ind; [done|..].
  - intros x [|fuel] Hf _; [simpl in Hf; lia|]. eexists. split; [done|]. constructor.
  - intros l k Hk Hc Hs IHl IHr [|fuel] Hf _; [lia|]. pose proof (is_split_bounds _ _ Hs) as Hlt.
    destruct (IHl fuel) as (a & Ha & Ta); [rewrite length_take; lia|intros E%(f_equal length); rewrite length_take in E; simpl in E; lia|].
    destruct (IHr fuel) as (b & Hb & Tb); [rewrite length_drop; lia|intros E%(f_equal length); rewrite length_drop in E; simpl in E; lia|].
    exists (innerHash a b). split; [|eapply tops_two; [by rewrite length_fmap| |]; by rewrite <- ?fmap_take, <- ?fmap_drop].
    destruct l as [|x [|y l]]; [simpl in Hlt; lia..|]. cbn [hashFromByteSlices]. rewrite Hk. cbn [mbind option_bind]. rewrite Hc. cbn [mbind option_bind]. rewrite Ha. cbn [mbind option_bind]. by rewrite Hb.
Qed.

(** ** The iterative computation *)
Fixpoint pairs (l : list bytes) : list bytes := match l with a :: b :: l => innerHash a b :: pairs l | _ => l end.
Lemma pairs_even k l l' : length l = (2 * k)%nat -> pairs (l ++ l') = pairs l ++ pairs l'.
Proof.
  revert l. induction k as [|k IH]; intros l Hl; [by destruct l|]. destruct l as [|a [|b l]]; simpl in Hl; [lia..|]. simpl. f_equal. apply IH. lia.
Qed.
Lemma length_pairs l : length (pairs l) = ((length l + 1) / 2)%nat.
Proof.
  remember (length l) as n eqn:Hn. revert l Hn. induction (lt_wf n) as [n _ IH]. intros l ->.
  destruct l as [|a [|b l]]; [done..|]. cbn [pairs length]. rewrite (IH (length l)) by (simpl; lia).
  replace (S (S (length l)) + 1)%nat with ((length l + 1) + 1 * 2)%nat by lia. rewrite Nat.div_add by lia. lia.
Qed.
Lemma tops_pairs l r : tops l r -> tops (pairs l) r.
Proof.
  induction 1 as [x|l k a b Hk Ha IHa Hb IHb]; [constructor|]. pose proof (is_split_bounds _ _ Hk) as Hlt. destruct (decide (length l = 2%nat)) as [E|].
  - destruct l as [|x [|y [|]]]; simplify_eq/=. assert (k = 1%nat) as -> by lia. simpl in *.
    rewrite (tops_fun _ _ _ Ha (tops_one x)), (tops_fun _ _ _ Hb (tops_one y)). constructor.
  - destruct (is_split_half _ _ Hk ltac:(lia)) as (k' & -> & Hk').
    assert (Hp : pairs l = pairs (take (2 * k') l) ++ pairs (drop (2 * k') l)) by (rewrite <- (pairs_even k') by (rewrite length_take; lia); by rewrite take_drop).
    assert (Hl : length (pairs (take (2 * k') l)) = k') by (rewrite length_pairs, length_take, Nat.min_l by lia; rewrite Nat.add_comm, Nat.mul_comm, Nat.div_add by lia; done).
    apply (tops_two _ k'); [by rewrite length_pairs|..]; rewrite Hp; [rewrite take_app_length'|rewrite drop_app_length']; done.
Qed.

Lemma assign_ok {A} i (x : A) l : (i < length l)%nat -> assign i x l = Some (<[i := x]> l).
Proof. intros H. unfold assign. by rewrite bool_decide_eq_true_2. Qed.
Lemma write_next {A} (l : list A) wp x : (wp < length l)%nat -> take (wp + 1) (<[wp := x]> l) = take wp l ++ [x].
Proof.
  intros H. rewrite Nat.add_1_r, (take_S_r _ _ x) by (by apply list_lookup_insert_eq). by rewrite take_insert_ge by done.
Qed.
Lemma pair_loop_spec fuel items size rp wp : (size - rp < fuel)%nat -> (wp <= rp)%nat -> (rp <= size)%nat -> (size <= length items)%nat ->
  exists items' wp', pair_loop sha256 fuel items size rp wp = Some (items', wp') /\ length items' = length items /\
    wp' = (wp + length (pairs (drop rp (take size items))))%nat /\ take wp' items' = take wp items ++ pairs (drop rp (take size items)).
Proof.
  revert items rp wp. induction fuel as [|fuel IH]; intros items rp wp Hf Hw Hr Hs; [lia|]. cbn [pair_loop].
  assert (Hrest : forall x r w, (w < r)%nat -> drop r (take size (<[w := x]> items)) = drop r (take size items)).
  { intros x r w Hwr. destruct (decide (w < size)%nat); [by rewrite take_insert_lt, drop_insert_lt by lia|by rewrite take_insert_ge by lia]. }
  destruct (decide (rp < size)%nat) as [Hlt|Hge].
  2: { rewrite bool_decide_eq_false_2 by done. exists items, wp. rewrite drop_ge by (rewrite length_take; lia). simpl. rewrite app_nil_r, Nat.add_0_r. done. }
  rewrite bool_decide_eq_true_2 by done.
  destruct (lookup_lt_is_Some_2 items rp ltac:(lia)) as [a Ha].
  assert (Ha' : take size items !! rp = Some a) by (by rewrite lookup_take_lt by lia).
  rewrite (drop_S _ _ _ Ha'). rewrite Ha. cbn [mbind option_bind].
  destruct (decide (rp + 1 < size)%nat) as [Hlt'|Hge'].
  - rewrite (bool_decide_eq_true_2 (rp + 1 < size)%nat) by done. destruct (lookup_lt_is_Some_2 items (rp + 1) ltac:(lia)) as [b Hb].
    assert (Hb' : take size items !! S rp = Some b) by (rewrite lookup_take_lt by lia; by rewrite <- Nat.add_1_r).
    rewrite Hb. cbn [mbind option_bind]. rewrite assign_ok by lia. cbn [mbind option_bind]. rewrite (drop_S _ _ _ Hb').
    destruct (IH (<[wp := innerHash a b]> items) (rp + 2)%nat (wp + 1)%nat) as (items' & wp' & -> & Hl & -> & Ht); [lia..|by rewrite length_insert|].
    rewrite length_insert in Hl. rewrite Hrest in * by lia. replace (S (S rp)) with (rp + 2)%nat by lia. eexists _, _. split; [done|].
    rewrite Ht, write_next by lia. cbn [pairs length]. split_and!; [done|lia|]. by rewrite <- app_assoc.
  - rewrite (bool_decide_eq_false_2 (rp + 1 < size)%nat) by done. rewrite assign_ok by lia. cbn [mbind option_bind]. rewrite (drop_ge _ (S rp)) by (rewrite length_take; lia).
    destruct (IH (<[wp := a]> items) (rp + 1)%nat (wp + 1)%nat) as (items' & wp' & -> & Hl & -> & Ht); [lia..|by rewrite length_insert|].
    rewrite length_insert in Hl. rewrite Hrest in * by lia. rewrite (drop_ge _ (rp + 1)) in * by (rewrite length_take; lia). eexists _, _. split; [done|].
    rewrite Ht, write_next by lia. cbn [pairs length]. split_and!; [done|lia|]. by rewrite app_nil_r.
Qed.

Lemma level_loop_spec fuel items size r : (size <= fuel)%nat -> (size <= length items)%nat -> tops (take size items) r -> level_loop sha256 (S fuel) items size = Some r.
Proof.
  revert items size. induction fuel as [|fuel IH]; intros items size Hf Hl Ht.
  { replace size with 0%nat in * by lia. inversion Ht as [|? k ? ? Hk]. apply is_split_bounds in Hk. simpl in Hk. lia. }
  destruct size as [|[|size]].
  - inversion Ht as [|? k ? ? Hk]. apply is_split_bounds in Hk. simpl in Hk. lia.
  - destruct items as [|x items]; [simpl in Hl; lia|]. simpl in *. by rewrite (tops_fun _ _ _ Ht (tops_one x)).
  - destruct (pair_loop_spec (S (S (S size))) items (S (S size)) 0 0) as (items' & wp' & Hp & Hl' & -> & Ht'); [lia..|].
    change (level_loop sha256 (S (S fuel)) items (S (S size))) with ('(items, wp) ← pair_loop sha256 (S (S (S size))) items (S (S size)) 0 0; level_loop sha256 (S fuel) items wp).
    rewrite Hp. cbn [mbind option_bind]. rewrite drop_0 in *. cbn [Nat.add take app] in *.
    assert (Hlen : length (pairs (take (S (S size)) items)) = ((S (S size) + 1) / 2)%nat) by (rewrite length_pairs, length_take, Nat.min_l; lia).
    pose proof (Nat.div_mod_eq (S (S size) + 1) 2). pose proof (Nat.mod_upper_bound (S (S size) + 1) 2).
    apply IH; [lia|lia|]. rewrite Ht'. by apply tops_pairs.
Qed.
End Roots.

(** ** The proofs made for items *)
Definition sibling (h : list ProofNode) (n : ProofNode) : option bytes :=
  match n_Left n, n_Right n with Some q, _ => n_Hash <$> h !! q | None, Some q => n_Hash <$> h !! q | None, None => None end.
(** The way up from a node, with the hashes of the siblings. *)
Inductive path (h : list ProofNode) : nat -> nat -> list bytes -> Prop :=
| path_here p : path h p p []
| path_up p n q a root aunts : h !! p = Some n -> n_Parent n = Some q -> sibling h n = Some a -> path h q root aunts -> path h p root (a :: aunts).
(** Nodes that have a parent do not change any more, and no hash does. *)
Definition grows (h h' : list ProofNode) : Prop :=
  forall p n, h !! p = Some n -> exists n', h' !! p = Some n' /\ n_Hash n' = n_Hash n /\ (is_Some (n_Parent n) -> n' = n).

Lemma sibling_grows h h' n a : grows h h' -> sibling h n = Some a -> sibling h' n = Some a.
Proof.
  intros Hg. assert (Hq : forall q, n_Hash <$> h !! q = Some a -> n_Hash <$> h' !! q = Some a).
  { intros q (s & Hs & ->)%fmap_Some. destruct (Hg _ _ Hs) as (s' & -> & He & _). simpl. by rewrite He. }
  unfold sibling. destruct (n_Left n), (n_Right n); auto.
Qed.
Lemma path_grows h h' p root aunts : grows h h' -> path h p root aunts -> path h' p root aunts.
Proof.
  intros Hg. induction 1 as [p|p n q a root aunts Hp Hq Ha _ IH]; [constructor|].
  destruct (Hg _ _ Hp) as (n' & Hp' & _ & K). rewrite (K (mk_is_Some _ _ Hq)) in Hp'. econstructor; eauto using sibling_grows.
Qed.
Lemma path_snoc h p root aunts n q a : path h p root aunts -> h !! root = Some n -> n_Parent n = Some q -> sibling h n = Some a -> path h p q (aunts ++ [a]).
Proof. induction 1; intros; [|simpl]; econstructor; eauto using path_here. Qed.
Lemma prefix_grows h h' : h `prefix_of` h' -> grows h h'.
Proof. intros [l ->] p n Hp. exists n. split; [by apply lookup_app_l_Some|done]. Qed.
Lemma grows_trans h1 h2 h3 : grows h1 h2 -> grows h2 h3 -> grows h1 h3.
Proof.
  intros H12 H23 p n Hp. destruct (H12 _ _ Hp) as (n2 & Hp2 & E2 & K2). destruct (H23 _ _ Hp2) as (n3 & Hp3 & E3 & K3). exists n3. split_and!; [done|congruence|].
  intros Hs. assert (n2 = n) as -> by auto. auto.
Qed.
Lemma grows_link h p n n' : h !! p = Some n -> n_Parent n = None -> n_Hash n' = n_Hash n -> grows h (<[p := n']> h).
Proof.
  intros Hp Hn He q m Hq. destruct (decide (q = p)) as [->|Hne].
  - rewrite Hp in Hq. injection Hq as <-. exists n'. rewrite list_lookup_insert_eq by (by eapply lookup_lt_Some). split_and!; [done|done|]. intros [? E]. congruence.
  - exists m. by rewrite list_lookup_insert_ne by done.
Qed.

Lemma flatten_path h p root aunts fuel acc n : path h p root aunts -> h !! root = Some n -> n_Parent n = None -> n_Left n = None -> n_Right n = None ->
  (length aunts < fuel)%nat -> flatten_loop fuel h (Some p) acc = Some (acc ++ aunts).
Proof.
  intros Hpath Hr Hn Hl Hri. revert fuel acc. induction Hpath as [p|p m q a root aunts Hp Hq Ha Hup IH]; intros fuel acc Hf; (destruct fuel as [|fuel]; [simpl in Hf; lia|]); cbn [flatten_loop].
  - rewrite Hr. cbn [mbind option_bind]. rewrite Hl, Hri, Hn. rewrite app_nil_r. by destruct fuel.
  - rewrite Hp. cbn [mbind option_bind]. simpl in Hf. rewrite Hq. unfold sibling in Ha. rewrite (cons_middle a), app_assoc.
    destruct (n_Left m) as [s|], (n_Right m) as [s'|]; apply fmap_Some in Ha as (sn & Hs & ->) || done; rewrite Hs; cbn [mbind option_bind]; apply IH; auto; lia.
Qed.

Section Proofs.
Context (sha256 : bytes -> bytes) {SH : Sha256 sha256}.
Local Abbreviation innerHash := (innerHash sha256).
Local Abbreviation leafHash := (leafHash sha256).
Local Abbreviation tops := (tops sha256).
Definition computes (i n : nat) (lh : bytes) (aunts : list bytes) (rh : bytes) : Prop :=
  forall fuel, (length aunts <= fuel)%nat -> computeHashFromAunts sha256 fuel (Z.of_nat i) (Z.of_nat n) lh aunts = Some (inl rh).

Lemma computes_one lh : computes 0 1 lh [] lh.
Proof. by intros [|fuel] _. Qed.
Lemma computes_step fuel i n lh aunts b k : (2 <= n)%nat -> (i < n)%nat -> getSplitPoint (Z.of_nat n) = Some (Z.of_nat k) ->
  computeHashFromAunts sha256 (S fuel) (Z.of_nat i) (Z.of_nat n) lh (aunts ++ [b]) =
  (if decide (i < k)%nat then
    r ← computeHashFromAunts sha256 fuel (Z.of_nat i) (Z.of_nat k) lh aunts; Some match r with inr e => inr e | inl l => inl (innerHash l b) end
  else r ← computeHashFromAunts sha256 fuel (Z.of_nat i - Z.of_nat k) (Z.of_nat n - Z.of_nat k) lh aunts; Some match r with inr e => inr e | inl r => inl (innerHash b r) end).
Proof.
  intros Hn Hi Hk. cbn [computeHashFromAunts]. rewrite bool_decide_eq_false_2 by lia. rewrite bool_decide_eq_false_2 by lia. rewrite last_snoc.
  replace (length (aunts ++ [b]) - 1)%nat with (length aunts) by (rewrite length_app; simpl; lia). rewrite take_app_length. rewrite Hk. cbn [mbind option_bind].
  destruct (decide (i < k)%nat); [rewrite bool_decide_eq_true_2 by lia|rewrite bool_decide_eq_false_2 by lia]; done.
Qed.
Lemma computes_left i n lh aunts a b k : is_split n k -> getSplitPoint (Z.of_nat n) = Some (Z.of_nat k) -> (i < k)%nat ->
  computes i k lh aunts a -> computes i n lh (aunts ++ [b]) (innerHash a b).
Proof.
  intros Hs%is_split_bounds Hk Hi Hc [|fuel] Hf; rewrite length_app in Hf; simpl in Hf; [lia|].
  rewrite (computes_step _ _ _ _ _ _ k) by (done || lia). rewrite decide_True by done. by rewrite Hc by lia.
Qed.
Lemma computes_right i n lh aunts a b k : is_split n k -> getSplitPoint (Z.of_nat n) = Some (Z.of_nat k) -> (k <= i < n)%nat ->
  computes (i - k) (n - k) lh aunts b -> computes i n lh (aunts ++ [a]) (innerHash a b).
Proof.
  intros Hs%is_split_bounds Hk Hi Hc [|fuel] Hf; rewrite length_app in Hf; simpl in Hf; [lia|].
  rewrite (computes_step _ _ _ _ _ _ k) by (done || lia). rewrite decide_False by lia. rewrite <- !Nat2Z.inj_sub by lia. by rewrite Hc by lia.
Qed.

Lemma tops_length items r : tops (leafHash <$> items) r -> length r = 32%nat.
Proof.
  intros H. inversion H as [x E|]; subst; [|apply (sha256_length (sha256 := sha256))]. destruct items as [|y [|]]; simplify_eq/=. apply (sha256_length (sha256 := sha256)).
Qed.

(** The nodes made for a list of items: the root, and for every item the leaf and its way up. *)
Definition trail_ok (h : list ProofNode) (items : list bytes) (trails : list nat) (root : nat) (rh : bytes) : Prop :=
  length trails = length items /\ forall i item, items !! i = Some item ->
    exists p n aunts, trails !! i = Some p /\ h !! p = Some n /\ n_Hash n = leafHash item /\ path h p root aunts /\
      (length aunts <= Nat.log2_up (length items))%nat /\ Forall (fun a => length a = 32%nat) aunts /\ computes i (length items) (leafHash item) aunts rh.
Definition trails_ok (h h' : list ProofNode) (items : list bytes) (trails : list nat) (root : nat) : Prop :=
  exists rh, take (length h) h' = h /\ (length h + length items <= length h')%nat /\ (length h <= root)%nat /\
    h' !! root = Some (new_node rh) /\ tops (leafHash <$> items) rh /\ trail_ok h' items trails root rh.

Lemma trail_ok_grows h h' items trails root rh : grows h h' -> trail_ok h items trails root rh -> trail_ok h' items trails root rh.
Proof.
  intros Hg [Hl Ht]. split; [done|]. intros i item Hi. destruct (Ht _ _ Hi) as (p & n & aunts & Hp & Hn & He & Hpath & Hd & Hw & Hc).
  destruct (Hg _ _ Hn) as (n' & Hn' & He' & _). exists p, n', aunts. split_and!; [done|done|congruence|by eapply path_grows|done|done|done].
Qed.

(** Two lists of trails under a new root. *)
Lemma trail_ok_join h l k lefts rights lr rr a b root ln rn :
  is_split (length l) k -> getSplitPoint (Z.of_nat (length l)) = Some (Z.of_nat k) -> length a = 32%nat -> length b = 32%nat ->
  trail_ok h (take k l) lefts lr a -> trail_ok h (drop k l) rights rr b ->
  h !! lr = Some ln -> n_Parent ln = Some root -> sibling h ln = Some b ->
  h !! rr = Some rn -> n_Parent rn = Some root -> sibling h rn = Some a ->
  trail_ok h l (lefts ++ rights) root (innerHash a b).
Proof.
  intros Hs Hk Wa Wb [Hll Hl] [Hlr Hr] Hln Hpl Hsl Hrn Hpr Hsr. pose proof (is_split_bounds _ _ Hs) as Hlt.
  rewrite length_take, Nat.min_l in * by lia. rewrite length_drop in *.
  assert (Hlog : (S (Nat.log2_up k) <= Nat.log2_up (length l) /\ S (Nat.log2_up (length l - k)) <= Nat.log2_up (length l))%nat).
  { destruct Hs as (e & -> & He). assert (e < Nat.log2_up (length l))%nat by (apply Nat.log2_up_lt_pow2; lia). rewrite Nat.log2_up_pow2 by lia.
    assert (Nat.log2_up (length l - 2 ^ e) <= e)%nat by (apply Nat.log2_up_le_pow2; lia). lia. }
  split; [rewrite length_app; lia|]. intros i item Hi. pose proof (lookup_lt_Some _ _ _ Hi) as Hil. destruct (decide (i < k)%nat) as [Hik|Hik].
  - destruct (Hl i item) as (p & n & aunts & Hp & Hn & He & Hpath & Hd & Hw & Hc); [by rewrite lookup_take_lt by done|].
    exists p, n, (aunts ++ [b]). split_and!; [by apply lookup_app_l_Some|done|done|by eapply path_snoc|rewrite length_app; simpl; lia|by apply Forall_app; auto|by eapply computes_left].
  - destruct (Hr (i - k)%nat item) as (p & n & aunts & Hp & Hn & He & Hpath & Hd & Hw & Hc); [rewrite lookup_drop; rewrite <- Hi; f_equal; lia|].
    exists p, n, (aunts ++ [a]). split_and!; [|done|done|by eapply path_snoc|rewrite length_app; simpl; lia|by apply Forall_app; auto|eapply computes_right; done || lia].
    rewrite lookup_app_r by lia. by rewrite Hll.
Qed.

(** The heap after two roots got a parent. *)
Definition link (h : list ProofNode) (lr rr : nat) (a b : bytes) : list ProofNode :=
  <[rr := mkNode b (Some (length h)) (Some lr) None]> (<[lr := mkNode a (Some (length h)) None (Some rr)]> (h ++ [new_node (innerHash a b)])).
Lemma link_spec h lr rr a b : (lr < rr)%nat -> h !! lr = Some (new_node a) -> h !! rr = Some (new_node b) ->
  length (link h lr rr a b) = S (length h) /\ grows h (link h lr rr a b) /\
  link h lr rr a b !! lr = Some (mkNode a (Some (length h)) None (Some rr)) /\ link h lr rr a b !! rr = Some (mkNode b (Some (length h)) (Some lr) None) /\
  link h lr rr a b !! length h = Some (new_node (innerHash a b)) /\ forall n, (n <= lr)%nat -> take n (link h lr rr a b) = take n h.
Proof.
  intros Hlt Ha Hb. pose proof (lookup_lt_Some _ _ _ Ha). pose proof (lookup_lt_Some _ _ _ Hb). unfold link. set (h3 := h ++ _).
  assert (Ha3 : h3 !! lr = Some (new_node a)) by (by apply lookup_app_l_Some).
  set (h4 := <[lr := _]> h3). assert (Hb4 : h4 !! rr = Some (new_node b)) by (unfold h4; rewrite list_lookup_insert_ne by lia; by apply lookup_app_l_Some).
  assert (Hl3 : length h3 = S (length h)) by (unfold h3; rewrite length_app; simpl; lia). assert (Hl4 : length h4 = S (length h)) by (unfold h4; by rewrite length_insert).
  split_and!.
  - by rewrite length_insert.
  - eapply grows_trans; [apply prefix_grows; by eexists|]. apply (grows_trans _ h4); [by apply (grows_link h3 lr (new_node a))|by apply (grows_link h4 rr (new_node b))].
  - rewrite list_lookup_insert_ne by lia. apply list_lookup_insert_eq. lia.
  - apply list_lookup_insert_eq. lia.
  - rewrite list_lookup_insert_ne by lia. unfold h4. rewrite list_lookup_insert_ne by lia. unfold h3. by rewrite list_lookup_middle.
  - intros n Hn. rewrite take_insert_ge by lia. unfold h4. rewrite take_insert_ge by lia. unfold h3. by rewrite take_app_le by lia.
Qed.
Lemma trails_step fuel l k h h1 lefts lr h2 rights rr a b : (2 <= length l)%nat -> (lr < rr)%nat ->
  getSplitPoint (int64 (count l)) = Some (Z.of_nat k) -> cut (Z.of_nat k) l = Some (take k l, drop k l) ->
  trailsFromByteSlices sha256 fuel (take k l) h = Some (h1, (lefts, lr)) -> trailsFromByteSlices sha256 fuel (drop k l) h1 = Some (h2, (rights, rr)) ->
  h2 !! lr = Some (new_node a) -> h2 !! rr = Some (new_node b) ->
  trailsFromByteSlices sha256 (S fuel) l h = Some (link h2 lr rr a b, (lefts ++ rights, length h2)).
Proof.
  intros Hl Hlt Hk Hc E1 E2 Ha Hb. destruct l as [|x [|y l]]; [simpl in Hl; lia..|]. cbn [trailsFromByteSlices]. rewrite Hk. cbn [mbind option_bind]. rewrite Hc. cbn [mbind option_bind].
  rewrite E1. cbn [mbind option_bind]. rewrite E2. cbn [mbind option_bind]. rewrite Ha. cbn [mbind option_bind]. rewrite Hb. cbn [mbind option_bind n_Hash new_node].
  rewrite (lookup_app_l_Some _ _ _ _ Ha). cbn [mbind option_bind n_Hash n_Left new_node]. rewrite list_lookup_insert_ne by lia. by rewrite (lookup_app_l_Some _ _ _ _ Hb).
Qed.

Lemma trails_spec items : count items < 2 ^ 63 -> forall fuel h, (length items < fuel)%nat -> items <> [] ->
  exists h' trails root, trailsFromByteSlices sha256 fuel items h = Some (h', (trails, root)) /\ trails_ok h h' items trails root.
Proof.
  intros Hb. assert (H63 := Hb). revert H63. pattern items. revert items Hb. apply split_ind; [done|..].
  - intros x _ [|fuel] h Hf _; [simpl in Hf; lia|]. eexists _, _, _. split; [done|]. exists (leafHash x). split_and!; [by rewrite take_app_length|rewrite length_app; simpl; lia|done|by rewrite list_lookup_middle|constructor|].
    split; [done|]. intros [|i] item Hi; [|done]. injection Hi as <-. exists (length h), (new_node (leafHash x)), []. split_and!; [done|by rewrite list_lookup_middle|done|constructor|simpl; lia|constructor|apply computes_one].
  - intros l k Hk Hc Hs IHl IHr H63 [|fuel] h Hf _; [lia|]. pose proof (is_split_bounds _ _ Hs) as Hlt. unfold count in *.
    assert (Hlen : length (take k l) = k /\ length (drop k l) = (length l - k)%nat) by (rewrite length_take, length_drop; lia). destruct Hlen as [Hlk Hld].
    destruct (IHl ltac:(lia) fuel h) as (h1 & lefts & lr & E1 & a & Hp1 & Hn1 & Hlr & Ha & Ta & Oa); [lia|intros E; rewrite E in Hlk; simpl in Hlk; lia|].
    destruct (IHr ltac:(lia) fuel h1) as (h2 & rights & rr & E2 & b & Hp2 & Hn2 & Hrr & Hb & Tb & Ob); [lia|intros E; rewrite E in Hld; simpl in Hld; lia|].
    pose proof (lookup_lt_Some _ _ _ Ha) as Hlr1. assert (Ha2 : h2 !! lr = Some (new_node a)) by (rewrite <- Ha, <- Hp2; by rewrite lookup_take_lt).
    destruct (link_spec h2 lr rr a b ltac:(lia) Ha2 Hb) as (L5 & G & Hlr5 & Hrr5 & Hroot & Htake).
    eexists _, _, _. split; [apply (trails_step fuel l k h h1 lefts lr h2 rights rr a b); done || lia|]. exists (innerHash a b). split_and!; [|lia|lia|done| |].
    + rewrite Htake by lia. rewrite <- Hp1 at 2. rewrite <- Hp2. by rewrite take_take, Nat.min_l by lia.
    + eapply tops_two; [by rewrite length_fmap| |]; by rewrite <- ?fmap_take, <- ?fmap_drop.
    + rewrite int64_small in Hk by lia.
      eapply (trail_ok_join _ _ _ _ _ lr rr); [done|done|by eapply tops_length|by eapply tops_length|eapply trail_ok_grows, Oa|eapply trail_ok_grows, Ob|done|done| |done|done|].
      * eapply grows_trans, G. rewrite <- Hp2. apply prefix_grows, prefix_take.
      * exact G.
      * unfold sibling. cbn [n_Left n_Right]. by rewrite Hrr5.
      * unfold sibling. cbn [n_Left n_Right]. by rewrite Hlr5.
Qed.

Lemma check_aunts_ok i aunts : Forall (fun a => length a = 32%nat) aunts -> check_aunts i aunts = None.
Proof. intros H. revert i. induction H as [|a aunts Ha _ IH]; intros i; [done|]. cbn [check_aunts]. rewrite bool_decide_eq_false_2 by (intros N; by apply N). apply IH. Qed.

Lemma make_proofs_ok h items trails root rh total i : trail_ok h items trails root rh -> h !! root = Some (new_node rh) -> (length items <= length h)%nat ->
  exists proofs, make_proofs h total i trails = Some proofs /\ length proofs = length items /\
    forall j item, items !! j = Some item -> exists aunts, proofs !! j = Some (mkProof total (Z.of_nat (i + j)) (leafHash item) aunts) /\
      (length aunts <= Nat.log2_up (length items))%nat /\ Forall (fun a => length a = 32%nat) aunts /\ computes j (length items) (leafHash item) aunts rh.
Proof.
  intros [Hl Ht] Hr Hh.
  assert (Hall : forall ts js, ts = drop js trails -> exists proofs, make_proofs h total (i + js) ts = Some proofs /\ length proofs = length ts /\
    forall j item, items !! (js + j)%nat = Some item -> exists aunts, proofs !! j = Some (mkProof total (Z.of_nat (i + (js + j))) (leafHash item) aunts) /\
      (length aunts <= Nat.log2_up (length items))%nat /\ Forall (fun a => length a = 32%nat) aunts /\ computes (js + j) (length items) (leafHash item) aunts rh).
  { induction ts as [|t ts IH]; intros js Hjs.
    - exists []. split_and!; [done..|]. intros j item Hj%lookup_lt_Some. apply (f_equal length) in Hjs. rewrite length_drop in Hjs. simpl in Hjs. lia.
    - assert (Ht0 : trails !! js = Some t) by (rewrite <- (Nat.add_0_r js), <- lookup_drop, <- Hjs; done).
      destruct (lookup_lt_is_Some_2 items js) as [item0 Hi0]; [rewrite <- Hl; by eapply lookup_lt_Some|].
      destruct (Ht _ _ Hi0) as (p & n & aunts & Hp & Hn & He & Hpath & Hd & Hw & Hc). rewrite Ht0 in Hp. injection Hp as <-.
      destruct (IH (S js)) as (proofs & Hps & Hlp & Hall); [by rewrite (drop_S _ _ _ Ht0) in Hjs; injection Hjs|].
      assert (Hf : FlattenAunts h t = Some aunts).
      { unfold FlattenAunts. rewrite (flatten_path h t root aunts _ [] (new_node rh)); try done.
        pose proof (lookup_lt_Some _ _ _ Hi0). pose proof (Nat.log2_up_lt_lin (length items)). lia. }
      cbn [make_proofs]. rewrite Hn. cbn [mbind option_bind]. rewrite Hf. cbn [mbind option_bind]. rewrite <- Nat.add_succ_r, Hps. cbn [mbind option_bind].
      eexists. split; [done|]. split; [simpl; by rewrite Hlp|]. intros [|j] item Hj.
      + rewrite Nat.add_0_r in Hj |- *. assert (item = item0) as -> by congruence. exists aunts. rewrite He. done.
      + replace (js + S j)%nat with (S js + j)%nat in Hj |- * by lia. by apply Hall. }
  destruct (Hall trails 0%nat eq_refl) as (proofs & Hp & Hlp & Hj). rewrite Nat.add_0_r in Hp. exists proofs. split; [done|]. split; [congruence|]. exact Hj.
Qed.

Lemma ProofsFromByteSlices_nil : ProofsFromByteSlices sha256 [] = Some (emptyHash sha256, []).
Proof. done. Qed.
Lemma ProofsFromByteSlices_spec items : count items < 2 ^ 63 ->
  exists root proofs, ProofsFromByteSlices sha256 items = Some (root, proofs) /\ HashFromByteSlices sha256 items = Some root /\ length proofs = length items /\
    forall i item, items !! i = Some item -> exists p, proofs !! i = Some p /\ pr_Total p = count items /\ pr_Index p = Z.of_nat i /\
      proof_ValidateBasic p = None /\ proof_Verify sha256 p root item = Some None.
Proof.
  intros Hb. destruct (decide (items = [])) as [->|Hne]; [eexists _, []; by repeat split|].
  destruct (trails_spec items Hb (S (length items)) [] ltac:(lia) Hne) as (h & trails & root & E & rh & _ & Hn & _ & Hroot & Ht & Hok).
  destruct (make_proofs_ok h items trails root rh (int64 (count items)) 0 Hok Hroot) as (proofs & Hp & Hl & Hall); [simpl in Hn; lia|].
  destruct (hash_tops sha256 (S (length items)) items ltac:(lia) Hne Hb) as (r & Hr & Ht'). rewrite (tops_fun _ _ _ _ Ht' Ht) in Hr.
  exists rh, proofs. unfold ProofsFromByteSlices. rewrite E. cbn [mbind option_bind]. rewrite Hroot. cbn [mbind option_bind]. rewrite Hp. split_and!; [done..|].
  intros i item Hi. destruct (Hall i item Hi) as (aunts & Hpi & Hd & Hw & Hc). eexists. split; [exact Hpi|]. cbn [pr_Total pr_Index]. unfold count in *. rewrite int64_small by lia.
  split_and!; [done|done|..].
  - unfold proof_ValidateBasic. cbn [pr_Total pr_Index pr_LeafHash pr_Aunts]. rewrite bool_decide_eq_false_2 by lia. rewrite bool_decide_eq_false_2 by lia.
    rewrite bool_decide_eq_false_2 by (intros N; apply N, (sha256_length (sha256 := sha256))). rewrite bool_decide_eq_false_2; [by apply check_aunts_ok|].
    pose proof (lookup_lt_Some _ _ _ Hi). assert (Nat.log2_up (length items) <= 63)%nat; [|unfold MaxAunts; lia].
    apply Nat.log2_up_le_pow2; [lia|]. apply Nat2Z.inj_le. rewrite Nat2Z.inj_pow. change (Z.of_nat 2 ^ Z.of_nat 63) with (2 ^ 63). lia.
  - unfold proof_Verify, ComputeRootHash. cbn [pr_Total pr_Index pr_LeafHash pr_Aunts]. rewrite bool_decide_eq_false_2 by lia. rewrite bool_decide_eq_false_2 by lia.
    rewrite bool_decide_eq_false_2 by (intros N; by apply N). rewrite Hc by done. cbn [mbind option_bind]. by rewrite bool_decide_eq_false_2 by (intros N; by apply N).
Qed.
End Proofs.

(** ** What a root and an accepted proof show *)
Section Soundness.
Context (sha256 : bytes -> bytes) {SH : Sha256 sha256}.
Local Abbreviation innerHash := (innerHash sha256).
Local Abbreviation leafHash := (leafHash sha256).
Local Abbreviation tops := (tops sha256).
Local Abbreviation compute := (computeHashFromAunts sha256).
(** Two inputs with one hash. *)
Definition collision : Prop := exists x y, x <> y /\ sha256 x = sha256 y.

Lemma sha256_or x y : sha256 x = sha256 y -> x = y \/ collision.
Proof. intros H. destruct (decide (x = y)); [by left|right; by exists x, y]. Qed.
Lemma leaf_or x y : leafHash x = leafHash y -> x = y \/ collision.
Proof. intros [[= ->]|]%sha256_or; auto. Qed.
Lemma leaf_inner x a b : leafHash x = innerHash a b -> collision.
Proof. by intros [|]%sha256_or. Qed.
Lemma empty_leaf x : emptyHash sha256 = leafHash x -> collision.
Proof. by intros [|]%sha256_or. Qed.
Lemma empty_inner a b : emptyHash sha256 = innerHash a b -> collision.
Proof. by intros [|]%sha256_or. Qed.
Lemma inner_or a b a' b' : length a = length a' \/ length b = length b' -> innerHash a b = innerHash a' b' -> (a = a' /\ b = b') \/ collision.
Proof.
  intros Hl [[= E]|]%sha256_or; [|by right]. left. destruct Hl; [by apply app_inj_1|by apply app_inj_2].
Qed.
Lemma compute_length fuel i total leaf aunts r : compute fuel i total (leafHash leaf) aunts = Some (inl r) -> length r = 32%nat.
Proof.
  destruct fuel as [|fuel]; cbn [computeHashFromAunts]; (case_bool_decide; [done|]); (case_bool_decide; [case_bool_decide; intros [= <-]; apply (sha256_length (sha256 := sha256))|]); (destruct (last aunts) as [aunt|]; [|done]); [done|].
  destruct (getSplitPoint total) as [k|]; [|done]. cbn [mbind option_bind].
  case_bool_decide; intros (r0 & _ & [= E])%bind_Some; destruct r0; simplify_eq; apply (sha256_length (sha256 := sha256)).
Qed.
Lemma compute_cases fuel i total leaf aunts r : compute fuel i total (leafHash leaf) aunts = Some (inl r) ->
  (i = 0 /\ total = 1 /\ r = leafHash leaf) \/
  (2 <= total /\ 0 <= i < total /\ exists fuel' k aunts' r' aunt, getSplitPoint total = Some k /\ length r' = 32%nat /\
    ((i < k /\ compute fuel' i k (leafHash leaf) aunts' = Some (inl r') /\ r = innerHash r' aunt) \/
     (k <= i /\ compute fuel' (i - k) (total - k) (leafHash leaf) aunts' = Some (inl r') /\ r = innerHash aunt r'))).
Proof.
  intros H. destruct fuel as [|fuel]; cbn [computeHashFromAunts] in H; (case_bool_decide; [done|]); (case_bool_decide; [case_bool_decide; [done|left; injection H as <-; split_and!; [lia|done|done]]|]); (destruct (last aunts) as [aunt|]; [|done]); [done|].
  right. split; [lia|]. split; [lia|]. destruct (getSplitPoint total) as [k|]; [|done]. cbn [mbind option_bind] in H. set (aunts' := take _ aunts) in H.
  case_bool_decide; apply bind_Some in H as ([r'|] & Hr & [= <-]); exists fuel, k, aunts', r', aunt; (split; [done|split; [by eapply compute_length|]]); [left|right]; split_and!; done || lia.
Qed.

(** The leaf of an accepted proof is a leaf of the tree, and if the proof has the right number
    of items it is the one with the index of the proof. *)
Lemma compute_sound l rh fuel i total leaf aunts : tops l rh -> Forall (fun x => exists y, x = leafHash y) l -> count l < 2 ^ 63 ->
  compute fuel i total (leafHash leaf) aunts = Some (inl rh) ->
  (exists j, l !! j = Some (leafHash leaf) /\ (total = count l -> i = Z.of_nat j)) \/ collision.
Proof.
  intros Ht Hl Hb. revert fuel i total aunts. induction Ht as [x|l k a b Hk Ha IHa Hb' IHb]; intros fuel i total aunts Hc.
  - apply Forall_singleton in Hl as [y ->]. apply compute_cases in Hc as [(-> & -> & E)|(_ & _ & fuel' & k & aunts' & r' & aunt & _ & _ & [(_ & _ & E)|(_ & _ & E)])]; [|right; by eapply leaf_inner..].
    left. exists 0%nat. by rewrite E.
  - pose proof (is_split_bounds _ _ Hk) as Hlt. unfold count in *. rewrite length_take, length_drop, Nat.min_l in * by lia.
    assert (Hw : length a = 32%nat /\ length b = 32%nat).
    { rewrite <- (take_drop k l), Forall_app in Hl. destruct Hl as [Hl1 Hl2].
      assert (Hm : forall l r, Forall (fun x => exists y, x = leafHash y) l -> tops l r -> length r = 32%nat).
      { intros l' r Hl' Hr. inversion Hr; subst; [apply Forall_singleton in Hl' as [y ->]|]; apply (sha256_length (sha256 := sha256)). }
      split; [by apply (Hm _ _ Hl1)|by apply (Hm _ _ Hl2)]. }
    destruct Hw as [Wa Wb]. apply compute_cases in Hc as [(-> & -> & E)|(Htot & Hi & fuel' & k' & aunts' & r' & aunt & Hs & Wr & Hc)]; [right; by eapply leaf_inner|].
    assert (Hsame : total = Z.of_nat (length l) -> k' = Z.of_nat k).
    { intros ->. destruct (getSplitPoint_spec (length l) ltac:(lia) ltac:(lia)) as (k2 & E2 & Hk2). rewrite int64_small in E2 by lia. rewrite (is_split_unique _ _ _ Hk Hk2). congruence. }
    rewrite <- (take_drop k l), Forall_app in Hl. destruct Hl as [Hl1 Hl2]. destruct Hc as [(Hik & Hc & E)|(Hik & Hc & E)].
    + apply inner_or in E as [[-> ->]|]; [|by right|left; congruence]. destruct (IHa Hl1 ltac:(lia) _ _ _ _ Hc) as [(j & Hj & Hij)|]; [|by right].
      left. exists j. pose proof (lookup_lt_Some _ _ _ Hj) as Hjl. rewrite length_take in Hjl. rewrite lookup_take_lt in Hj by lia. auto.
    + apply inner_or in E as [[-> ->]|]; [|by right|right; congruence]. destruct (IHb Hl2 ltac:(lia) _ _ _ _ Hc) as [(j & Hj & Hij)|]; [|by right].
      left. exists (k + j)%nat. rewrite lookup_drop in Hj. split; [done|]. intros Htl. specialize (Hsame Htl). lia.
Qed.

Lemma roots_or l r l' : tops l r -> tops l' r -> Forall (fun x => exists y, x = leafHash y) l -> Forall (fun x => exists y, x = leafHash y) l' -> l = l' \/ collision.
Proof.
  assert (Hm : forall l r, Forall (fun x => exists y, x = leafHash y) l -> tops l r -> length r = 32%nat).
  { intros m r' Hm Hr. inversion Hr; subst; [apply Forall_singleton in Hm as [y ->]|]; apply (sha256_length (sha256 := sha256)). }
  intros Ht. revert l'. induction Ht as [x|l k a b Hk Ha IHa Hb IHb]; intros l' Ht' Hl Hl'.
  - apply Forall_singleton in Hl as [y ->]. apply tops_inv in Ht' as [->|(k & a & b & _ & _ & _ & E)]; [by left|]. right. by eapply leaf_inner.
  - apply tops_inv in Ht' as [->|(k' & a' & b' & Hk' & Ha' & Hb' & E)].
    + apply Forall_singleton in Hl' as [y E]. right. by eapply leaf_inner, eq_sym.
    + rewrite <- (take_drop k l), Forall_app in Hl. rewrite <- (take_drop k' l'), Forall_app in Hl'. destruct Hl as [Hl1 Hl2], Hl' as [Hl1' Hl2'].
      apply inner_or in E as [[-> ->]|]; [|by right|left; by rewrite (Hm _ _ Hl1 Ha), (Hm _ _ Hl1' Ha')].
      destruct (IHa _ Ha' Hl1 Hl1') as [E1|]; [|by right]. destruct (IHb _ Hb' Hl2 Hl2') as [E2|]; [|by right].
      left. by rewrite <- (take_drop k l), E1, E2, take_drop.
Qed.
Lemma fmap_leaf_or (items items' : list bytes) : leafHash <$> items = leafHash <$> items' -> items = items' \/ collision.
Proof.
  revert items'. induction items as [|x items IH]; intros [|y items'] E; try done; [by left|]. injection E as E1 E2.
  apply leaf_or in E1 as [->|]; [|by right]. destruct (IH _ E2) as [->|]; auto.
Qed.
Lemma leaves_hashed (items : list bytes) : Forall (fun x => exists y, x = leafHash y) (leafHash <$> items).
Proof. apply Forall_fmap, Forall_true. intros x. by exists x. Qed.
Lemma root_tops items r : count items < 2 ^ 63 -> HashFromByteSlices sha256 items = Some r -> (items = [] /\ r = emptyHash sha256) \/ (items <> [] /\ tops (leafHash <$> items) r).
Proof.
  intros Hb Hr. destruct (decide (items = [])) as [->|Hne]; [left; by injection Hr|]. right. split; [done|].
  destruct (hash_tops sha256 (S (length items)) items ltac:(lia) Hne Hb) as (r' & Hr' & Ht). unfold HashFromByteSlices in Hr. congruence.
Qed.
Lemma tops_empty items : tops (leafHash <$> items) (emptyHash sha256) -> collision.
Proof.
  intros [E|(k & a & b & _ & _ & _ & E)]%tops_inv; [|by eapply empty_inner]. destruct items as [|y [|]]; simplify_eq/=. by eapply empty_leaf, eq_sym.
Qed.
Lemma root_or items items' r : count items < 2 ^ 63 -> count items' < 2 ^ 63 -> HashFromByteSlices sha256 items = Some r -> HashFromByteSlices sha256 items' = Some r ->
  items = items' \/ collision.
Proof.
  intros Hb Hb' [[-> ->]|[Hne Ht]]%root_tops [[-> E]|[Hne' Ht']]%root_tops; try done; [by left|right; by eapply tops_empty|right; rewrite E in Ht; by eapply tops_empty|].
  destruct (roots_or _ _ _ Ht Ht') as [E|]; [apply leaves_hashed..|by apply fmap_leaf_or|by right].
Qed.

Lemma Verify_accepts p root leaf : proof_Verify sha256 p root leaf = Some None ->
  pr_LeafHash p = leafHash leaf /\ compute (length (pr_Aunts p)) (pr_Index p) (pr_Total p) (leafHash leaf) (pr_Aunts p) = Some (inl root).
Proof.
  unfold proof_Verify, ComputeRootHash. case_bool_decide; [done|]. case_bool_decide; [done|]. case_bool_decide as Hlh; [done|].
  assert (pr_LeafHash p = leafHash leaf) as E by (destruct (decide (pr_LeafHash p = leafHash leaf)); [done|tauto]). rewrite E.
  intros ([r|e] & -> & Hr)%bind_Some; [|done]. split; [done|]. case_bool_decide as Hroot; [done|]. destruct (decide (r = root)) as [->|]; [done|tauto].
Qed.
Lemma Verify_sound items root p leaf : count items < 2 ^ 63 -> HashFromByteSlices sha256 items = Some root -> proof_Verify sha256 p root leaf = Some None ->
  (exists j, items !! j = Some leaf /\ (pr_Total p = count items -> pr_Index p = Z.of_nat j)) \/ collision.
Proof.
  intros Hb Hr [_ Hc]%Verify_accepts. apply root_tops in Hr as [[-> ->]|[_ Ht]]; [| |done].
  - right. apply compute_cases in Hc as [(_ & _ & E)|(_ & _ & fuel' & k & aunts' & r' & aunt & _ & _ & [(_ & _ & E)|(_ & _ & E)])]; eauto using empty_leaf, empty_inner.
  - apply (compute_sound _ _ _ _ _ _ _ Ht) in Hc as [(j & Hj & Hij)|]; [|by right|apply leaves_hashed|unfold count in *; by rewrite length_fmap].
    apply list_lookup_fmap_Some in Hj as (item & E & Hi). apply leaf_or in E as [->|]; [|by right]. left. exists j. unfold count in *. rewrite length_fmap in Hij. auto.
Qed.
Lemma compute_total fuel i total lh aunts : total < 2 ^ 63 -> (length aunts <= fuel)%nat -> is_Some (compute fuel i total lh aunts).
Proof.
  revert i total aunts. induction fuel as [|fuel IH]; intros i total aunts Hb Hf; cbn [computeHashFromAunts]; (case_bool_decide; [by eexists|]); (case_bool_decide; [by eexists|]).
  - destruct aunts; [by eexists|simpl in Hf; lia].
  - destruct (last aunts) as [aunt|] eqn:El; [|by eexists].
    destruct (getSplitPoint_spec (Z.to_nat total) ltac:(lia) ltac:(lia)) as (k & Hk & Hs%is_split_bounds). rewrite Z2Nat.id, int64_small in Hk by lia. rewrite Hk. cbn [mbind option_bind].
    assert (aunts <> []) by (by intros ->). assert (Hl : (length (take (length aunts - 1) aunts) <= fuel)%nat) by (rewrite length_take; destruct aunts; simpl in *; [done|lia]).
    case_bool_decide; [destruct (IH i (Z.of_nat k) _ ltac:(lia) Hl) as [r ->]|destruct (IH (i - Z.of_nat k) (total - Z.of_nat k) _ ltac:(lia) Hl) as [r ->]]; by eexists.
Qed.
Lemma Verify_total p root leaf : pr_Total p < 2 ^ 63 -> is_Some (proof_Verify sha256 p root leaf).
Proof.
  intros Hb. unfold proof_Verify, ComputeRootHash. repeat (case_bool_decide; [by eexists|]). destruct (compute_total (length (pr_Aunts p)) (pr_Index p) (pr_Total p) (pr_LeafHash p) (pr_Aunts p) Hb) as [r ->]; [done|]. by eexists.
Qed.
End Soundness.

Section Merkle.
Context (sha256 : bytes -> bytes) {SH : Sha256 sha256}.

(** The recursive and the iterative computation of the root give the same hash for any items,
    and a root is the root of one list of items only, unless two inputs of the hash function
    collide. *)
Lemma merkle_roots items : count items < 2 ^ 63 -> exists root, HashFromByteSlices sha256 items = Some root /\ HashFromByteSlicesIterative sha256 items = Some root /\
  forall items', count items' < 2 ^ 63 -> HashFromByteSlices sha256 items' = Some root -> items = items' \/ collision sha256.
Proof.
  intros Hb. destruct (decide (items = [])) as [->|Hne].
  - exists (emptyHash sha256). split_and!; [done..|]. intros items' Hb' Hr'. by eapply (root_or sha256).
  - destruct (hash_tops sha256 (S (length items)) items ltac:(lia) Hne Hb) as (r & Hr & Ht). exists r. split_and!; [done| |].
    + unfold HashFromByteSlicesIterative. apply level_loop_spec; [done..|]. by rewrite firstn_all.
    + intros items' Hb' Hr'. by eapply (root_or sha256).
Qed.

(** C22. Merkle trees of fewer than 2^63 items.  The recursive and the iterative computation give
    the same root, and a root is the root of one list of items only.  Every item has a proof
    that is well formed and accepted for the root, with its index and the number of items;
    verification never panics, and whatever it accepts for this root is an item, the one with
    the index of the proof if the proof has the number of items.  What is said of one list
    and of accepted items holds unless two inputs of the hash function collide. *)
Theorem merkle_proofs items : count items < 2 ^ 63 -> exists root proofs, ProofsFromByteSlices sha256 items = Some (root, proofs) /\
  HashFromByteSlices sha256 items = Some root /\ HashFromByteSlicesIterative sha256 items = Some root /\
  (forall items', count items' < 2 ^ 63 -> HashFromByteSlices sha256 items' = Some root -> items = items' \/ collision sha256) /\
  length proofs = length items /\
  (forall i item, items !! i = Some item -> exists p, proofs !! i = Some p /\ pr_Total p = count items /\ pr_Index p = Z.of_nat i /\
    proof_ValidateBasic p = None /\ proof_Verify sha256 p root item = Some None) /\
  (forall p leaf, pr_Total p < 2 ^ 63 -> exists err, proof_Verify sha256 p root leaf = Some err /\
    (err = None -> (exists j, items !! j = Some leaf /\ (pr_Total p = count items -> pr_Index p = Z.of_nat j)) \/ collision sha256)).
Proof.
  intros Hb. destruct (ProofsFromByteSlices_spec sha256 items Hb) as (root & proofs & Hp & Hr & Hl & Hall). exists root, proofs.
  destruct (merkle_roots items Hb) as (root' & Hr' & Hit & Huniq). rewrite Hr in Hr'. injection Hr' as <-. split_and!; [done..|].
  intros p leaf Ht. destruct (Verify_total sha256 p root leaf Ht) as [err He]. exists err. split; [done|]. intros ->. by eapply (Verify_sound sha256).
Qed.
End Merkle.
