(* ===== verification/BitArray.v ===== *)
(** Bit arrays ([sei-tendermint/libs/bits/bit_array.go]): which votes and parts a node has.

    A bit array is a pointer, nil is [None]; words are [uint64] and an index out of the range
    of the words panics.  The locks are left out. *)
From stdpp Require Import base gmap sets list.
From Stdlib Require Import ZArith Lia.
From S2P Require Import Prelude.
Local Open Scope Z_scope.

Record BitArray := mkBitArray { Bits : Z; Elems : list Z }.
#[export] Instance BitArray_eq_dec : EqDecision BitArray.
Proof. solve_decision. Defined.

Definition numElems (bits : Z) : Z := Z.quot (bits + 63) 64.
Definition reset (bits : Z) : BitArray := mkBitArray bits (if bool_decide (bits = 0) then [] else replicate (Z.to_nat (numElems bits)) 0).
Definition NewBitArray (bits : Z) : option BitArray := if bool_decide (bits <= 0) then None else Some (reset bits).
Definition ba_Size (bA : option BitArray) : Z := match bA with Some bA => Bits bA | None => 0 end.

Definition word_bit (i : Z) : Z := Z.shiftl 1 (i mod 64).
Definition getIndex (bA : BitArray) (i : Z) : option bool :=
  if bool_decide (i < 0) || bool_decide (Bits bA <= i) then Some false
  else e ← Elems bA !! Z.to_nat (i / 64); Some (bool_decide (0 < Z.land e (word_bit i))).
Definition GetIndex (bA : option BitArray) (i : Z) : option bool := match bA with Some bA => getIndex bA i | None => Some false end.

Definition setIndex (bA : BitArray) (i : Z) (v : bool) : option (BitArray * bool) :=
  if bool_decide (i < 0) || bool_decide (Bits bA <= i) then Some (bA, false)
  else
    e ← Elems bA !! Z.to_nat (i / 64);
    let e := if v then Z.lor e (word_bit i) else Z.land e (Z.lxor (word_bit i) (2 ^ 64 - 1)) in
    Some (mkBitArray (Bits bA) (<[Z.to_nat (i / 64) := e]> (Elems bA)), true).
Definition SetIndex (bA : option BitArray) (i : Z) (v : bool) : option (option BitArray * bool) :=
  match bA with
  | Some bA => '(bA, ok) ← setIndex bA i v; Some (Some bA, ok)
  | None => Some (None, false)
  end.

Definition ba_copy (bA : BitArray) : BitArray := bA.
Definition ba_Copy (bA : option BitArray) : option BitArray := ba_copy <$> bA.
Definition copyBits (bA : BitArray) (bits : Z) : BitArray :=
  let n := Z.to_nat (numElems bits) in
  mkBitArray bits (take n (Elems bA) ++ replicate (n - length (Elems bA)) 0).

(** [for i := range n { c[i] = f(c[i], o[i]) }] *)
Fixpoint each_word (f : Z -> Z -> Z) (n : nat) (c o : list Z) : option (list Z) :=
  match n with
  | O => Some c
  | S n => match c, o with e :: c, e' :: o => c ← each_word f n c o; Some (f e e' :: c) | _, _ => None end
  end.
Definition smaller (bA o : BitArray) : nat := (length (Elems bA) `min` length (Elems o))%nat.
Definition Or (bA o : option BitArray) : option (option BitArray) :=
  match bA, o with
  | None, None => Some None
  | None, Some o => Some (ba_Copy (Some o))
  | Some bA, None => Some (ba_Copy (Some bA))
  | Some bA, Some o =>
      let c := copyBits bA (Bits bA `max` Bits o) in
      elems ← each_word Z.lor (smaller bA o) (Elems c) (Elems o);
      Some (Some (mkBitArray (Bits c) elems))
  end.
Definition ba_and (bA o : BitArray) : option BitArray :=
  let c := copyBits bA (Bits bA `min` Bits o) in
  elems ← each_word Z.land (length (Elems c)) (Elems c) (Elems o);
  Some (mkBitArray (Bits c) elems).
Definition And (bA o : option BitArray) : option (option BitArray) :=
  match bA, o with Some bA, Some o => Some <$> ba_and bA o | _, _ => Some None end.
Definition ba_not (bA : BitArray) : BitArray := mkBitArray (Bits bA) ((fun e => Z.lxor e (2 ^ 64 - 1)) <$> Elems (ba_copy bA)).
Definition Not (bA : option BitArray) : option BitArray := ba_not <$> bA.
Definition Sub (bA o : option BitArray) : option (option BitArray) :=
  match bA, o with
  | Some bA, Some o =>
      let c := copyBits bA (Bits bA) in
      elems ← each_word Z.ldiff (smaller bA o) (Elems c) (Elems o);
      Some (Some (mkBitArray (Bits c) elems))
  | _, _ => Some None
  end.
(** [copy(bA.Elems, o.Elems)] *)
Definition Update (bA o : option BitArray) : option BitArray :=
  match bA, o with
  | Some bA, Some o => Some (mkBitArray (Bits bA) (take (length (Elems bA)) (Elems o) ++ drop (length (Elems o)) (Elems bA)))
  | bA, _ => bA
  end.

(** The indices of the bits of one word, from [curBit] on. *)
Definition word_indices (n : Z) (elem curBit : Z) : list Z :=
  (fun j => curBit + j) <$> filter (fun j => 0 < Z.land elem (Z.shiftl 1 j)) (seqZ 0 n).
Fixpoint full_indices (elems : list Z) (curBit : Z) : list Z :=
  match elems with [] => [] | elem :: elems => (if bool_decide (elem = 0) then [] else word_indices 64 elem curBit) ++ full_indices elems (curBit + 64) end.
Definition getTrueIndices (bA : BitArray) : option (list Z) :=
  if bool_decide (Bits bA = 0) then Some []
  else
    let numElems := length (Elems bA) in
    lastElem ← (if bool_decide (numElems = 0%nat) then None else Elems bA !! (numElems - 1)%nat);
    let curBit := 64 * (Z.of_nat numElems - 1) in
    Some (full_indices (take (numElems - 1) (Elems bA)) 0 ++ word_indices (Bits bA - curBit) lastElem curBit).
(** [intn] is the random number below the number of candidates. *)
Definition PickRandom (intn : nat -> nat) (bA : option BitArray) : option (Z * bool) :=
  match bA with
  | None => Some (0, false)
  | Some bA =>
      trueIndices ← getTrueIndices bA;
      if bool_decide (trueIndices = []) then Some (0, false) else i ← trueIndices !! intn (length trueIndices); Some (i, true)
  end.

(** Texts: 120 is x, 95 is _, 34 the quote. *)
Definition null_text : bytes := [110; 117; 108; 108].
Fixpoint bit_text (bA : BitArray) (i : Z) (n : nat) : option bytes :=
  match n with O => Some [] | S n => b ← getIndex bA i; s ← bit_text bA (i + 1) n; Some ((if (b : bool) then 120 else 95) :: s) end.
Definition MarshalJSON (bA : option BitArray) : option bytes :=
  match bA with
  | None => Some null_text
  | Some bA => s ← bit_text bA 0 (Z.to_nat (Bits bA)); Some (34 :: s ++ [34])
  end.
Fixpoint set_text (bits : bytes) (i : Z) (bA : BitArray) : option BitArray :=
  match bits with
  | [] => Some bA
  | c :: bits => bA ← (if bool_decide (c = 120) then fst <$> setIndex bA i true else Some bA); set_text bits (i + 1) bA
  end.
(** The result is the array and the error. *)
Definition json_bits (b : bytes) : option bytes :=
  match b with
  | 34 :: s =>
      match last s with
      | Some 34 => let bits := take (length s - 1) s in if forallb (fun c => bool_decide (c = 95 \/ c = 120)) bits then Some bits else None
      | _ => None
      end
  | _ => None
  end.
Definition UnmarshalJSON (bA : BitArray) (bz : bytes) : option (BitArray * bool) :=
  if bool_decide (bz = null_text) then Some (reset 0, true)
  else
    match json_bits bz with
    | None => Some (bA, false)
    | Some bits => bA ← set_text bits 0 (reset (Z.of_nat (length bits))); Some (bA, true)
    end.

Definition ToProto (bA : option BitArray) : option BitArray :=
  match bA with
  | Some bA => if bool_decide (length (Elems bA) = 0%nat) && bool_decide (Bits bA = 0) then None else Some (ba_copy bA)
  | None => None
  end.
Inductive BitArrayError := ENegativeBits | ETooManyBits | ENumberOfElems.
Definition FromProto (bA : BitArray) (protoBitArray : option BitArray) : BitArray * option BitArrayError :=
  match protoBitArray with
  | None => (bA, None)
  | Some p =>
      if bool_decide (Bits p < 0) then (bA, Some ENegativeBits)
      else if bool_decide (2 ^ 31 - 1 < Bits p) then (bA, Some ETooManyBits)
      else if bool_decide (Z.of_nat (length (Elems p)) <> numElems (Bits p)) then (bA, Some ENumberOfElems)
      else (mkBitArray (Bits p) (Elems p), None)
  end.
