(* ===== verification/BitArraySpec.v ===== *)
(** Bit arrays as functions from indices to booleans: what every operation does to them, and
    the two operations that do less or more than their comments say. *)
From stdpp Require Import base gmap sets list.
From Stdlib Require Import ZArith Lia.
From S2P Require Import Prelude BitArray.
Local Open Scope Z_scope.

(** The array has the words its bits need; it is clean if the bits after the last are zero. *)
Definition word (e : Z) : Prop := 0 <= e < 2 ^ 64.
Record ba_ok (a : BitArray) : Prop := { ba_bits : 0 <= Bits a; ba_len : Z.of_nat (length (Elems a)) = numElems (Bits a); ba_words : Forall word (Elems a) }.
Definition raw (l : list Z) (i : Z) : bool := match l !! Z.to_nat (i / 64) with Some e => Z.testbit e (i mod 64) | None => false end.
Definition bit (a : BitArray) (i : Z) : bool := bool_decide (0 <= i < Bits a) && raw (Elems a) i.
Definition clean (a : BitArray) : Prop := forall i, Bits a <= i -> raw (Elems a) i = false.

Lemma numElems_spec bits : 0 <= bits -> bits <= 64 * numElems bits < bits + 64.
Proof. intros Hb. unfold numElems. rewrite Z.quot_div_nonneg by lia. pose proof (Z.div_mod (bits + 63) 64). pose proof (Z.mod_pos_bound (bits + 63) 64). lia. Qed.
Lemma numElems_mono a b : 0 <= a <= b -> numElems a <= numElems b.
Proof. intros H. unfold numElems. rewrite !Z.quot_div_nonneg by lia. apply Z.div_le_mono; lia. Qed.
Lemma word_index a i : ba_ok a -> 0 <= i < Bits a -> (Z.to_nat (i / 64) < length (Elems a))%nat.
Proof.
  intros Ha Hi. pose proof (numElems_spec _ (ba_bits _ Ha)). pose proof (ba_len _ Ha). pose proof (Z.div_pos i 64).
  assert (i / 64 < numElems (Bits a)) by (apply Z.div_lt_upper_bound; lia). lia.
Qed.
Lemma land_bit e k : 0 <= k -> bool_decide (0 < Z.land e (Z.shiftl 1 k)) = Z.testbit e k.
Proof.
  intros Hk. rewrite Z.shiftl_1_l. assert (Hl : Z.land e (2 ^ k) = if Z.testbit e k then 2 ^ k else 0).
  { apply Z.bits_inj'. intros n Hn. rewrite Z.land_spec, Z.pow2_bits_eqb by done. destruct (Z.eqb_spec k n) as [->|Hne].
    - destruct (Z.testbit e n); [by rewrite Z.pow2_bits_true|by rewrite Z.bits_0].
    - rewrite andb_false_r. destruct (Z.testbit e k); [by rewrite Z.pow2_bits_false|by rewrite Z.bits_0]. }
  rewrite Hl. destruct (Z.testbit e k); [|done]. apply bool_decide_eq_true_2. apply Z.pow_pos_nonneg; lia.
Qed.
Lemma getIndex_spec a i : ba_ok a -> getIndex a i = Some (bit a i).
Proof.
  intros Ha. unfold getIndex, bit, raw. destruct (decide (0 <= i < Bits a)) as [Hi|Hi].
  - rewrite !(bool_decide_false (_ < 0)), (bool_decide_false (Bits a <= i)), (bool_decide_true (0 <= i < _)) by lia. simpl.
    destruct (lookup_lt_is_Some_2 _ _ (word_index a i Ha Hi)) as [e ->]. simpl. unfold word_bit. rewrite land_bit; [done|]. apply Z.mod_pos_bound. lia.
  - rewrite (bool_decide_false (0 <= i < _)) by done. destruct (decide (i < 0)); [by rewrite (bool_decide_true (i < 0))|]. by rewrite (bool_decide_true (Bits a <= i)), orb_true_r by lia.
Qed.

(** ** Words *)
Lemma word_bits e : 0 <= e -> (forall k, 64 <= k -> Z.testbit e k = false) -> word e.
Proof.
  intros H0 H. split; [done|]. destruct (Z.eq_dec e 0) as [->|Hz]; [done|]. apply Z.log2_lt_pow2; [lia|]. apply Z.nle_gt. intros Hl.
  specialize (H (Z.log2 e) Hl). rewrite Z.bit_log2 in H; [done|lia].
Qed.
Lemma word_high e k : word e -> 64 <= k -> Z.testbit e k = false.
Proof.
  intros [H0 H1] Hk. destruct (Z.eq_dec e 0) as [->|Hz]; [apply Z.bits_0|]. apply Z.bits_above_log2; [done|]. eapply Z.lt_le_trans; [|exact Hk]. apply Z.log2_lt_pow2; lia.
Qed.
Lemma word_op (f : Z -> Z -> Z) (g : bool -> bool -> bool) e e' : (forall x y k, Z.testbit (f x y) k = g (Z.testbit x k) (Z.testbit y k)) -> g false false = false ->
  (forall x y, 0 <= x -> 0 <= y -> 0 <= f x y) -> word e -> word e' -> word (f e e').
Proof. intros Hf Hg Hn He He'. apply word_bits; [apply Hn; [apply He|apply He']|]. intros k Hk. rewrite Hf. by rewrite !word_high. Qed.
Lemma ones64_bit k : 0 <= k -> Z.testbit (2 ^ 64 - 1) k = bool_decide (k < 64).
Proof.
  intros Hk. change (2 ^ 64 - 1) with (Z.ones 64). destruct (decide (k < 64)); [rewrite Z.ones_spec_low by lia; by rewrite bool_decide_true|rewrite Z.ones_spec_high by lia; by rewrite bool_decide_false].
Qed.
Lemma mod64 i : 0 <= i mod 64 < 64.
Proof. apply Z.mod_pos_bound. lia. Qed.

(** Word by word on the first [n] words. *)
Lemma each_word_spec f n c o : (n <= length c)%nat -> (n <= length o)%nat ->
  exists r, each_word f n c o = Some r /\ length r = length c /\
    forall i, r !! i = if decide (i < n)%nat then e ← c !! i; e' ← o !! i; Some (f e e') else c !! i.
Proof.
  revert c o. induction n as [|n IH]; intros c o Hc Ho; [exists c; done|]. destruct c as [|e c], o as [|e' o]; simpl in Hc, Ho; try lia.
  destruct (IH c o ltac:(lia) ltac:(lia)) as (r & Hr & Hl & Hi). cbn [each_word]. rewrite Hr. exists (f e e' :: r). split; [done|]. split; [simpl; lia|].
  intros [|i]; [by rewrite decide_True by lia|]. cbn [lookup list_lookup]. rewrite Hi. destruct (decide (i < n)%nat), (decide (S i < S n)%nat); try lia; done.
Qed.
Lemma raw_lookup l i : raw l i = match l !! Z.to_nat (i / 64) with Some e => Z.testbit e (i mod 64) | None => false end.
Proof. done. Qed.
Lemma copyBits_ok a bits : ba_ok a -> 0 <= bits -> ba_ok (copyBits a bits) /\ forall i, 0 <= i < bits -> raw (Elems (copyBits a bits)) i = raw (Elems a) i.
Proof.
  intros Ha Hb. pose proof (numElems_spec _ Hb) as Hn. unfold copyBits. split.
  - split; simpl; [done| |].
    + rewrite length_app, length_take, length_replicate. lia.
    + apply Forall_app. split; [apply Forall_take, Ha|apply Forall_replicate; done].
  - intros i Hi. unfold raw. simpl. pose proof (Z.div_pos i 64). assert (i / 64 < numElems bits) by (apply Z.div_lt_upper_bound; lia).
    destruct (decide (Z.to_nat (i / 64) < length (Elems a))%nat) as [Hl|Hl].
    + rewrite lookup_app_l by (rewrite length_take; lia). by rewrite lookup_take_lt by lia.
    + rewrite lookup_app_r by (rewrite length_take; lia). rewrite (lookup_ge_None_2 (Elems a)) by lia. rewrite length_take.
      rewrite lookup_replicate_2 by lia. apply Z.bits_0.
Qed.

(** ** Operations on two arrays *)
Section Words.
Context (f : Z -> Z -> Z) (g : bool -> bool -> bool).
Hypothesis (f_bits : forall x y k, Z.testbit (f x y) k = g (Z.testbit x k) (Z.testbit y k)) (g_zero : g false false = false).
Hypothesis (f_nonneg : forall x y, 0 <= x -> 0 <= y -> 0 <= f x y).

Lemma words_spec a o bits n : ba_ok a -> ba_ok o -> 0 <= bits -> (n <= length (Elems (copyBits a bits)))%nat -> (n <= length (Elems o))%nat ->
  exists r, each_word f n (Elems (copyBits a bits)) (Elems o) = Some r /\ ba_ok (mkBitArray bits r) /\
    forall i, 0 <= i < bits -> raw r i = if decide (Z.to_nat (i / 64) < n)%nat then g (raw (Elems a) i) (raw (Elems o) i) else raw (Elems a) i.
Proof.
  intros Ha Ho Hb Hn Hn'. destruct (copyBits_ok a bits Ha Hb) as [Hc Hraw]. destruct (each_word_spec f n _ _ Hn Hn') as (r & Hr & Hl & Hlk). exists r. split_and!; [done| |].
  - split; simpl; [done|rewrite Hl; apply Hc|]. apply Forall_lookup. intros i e He. rewrite Hlk in He. pose proof (ba_words _ Hc) as Hwc. pose proof (ba_words _ Ho) as Hwo. rewrite Forall_lookup in Hwc, Hwo.
    destruct (decide (i < n)%nat); [|by eapply Hwc]. destruct (Elems (copyBits a bits) !! i) as [x|] eqn:Hx; [|done]. destruct (Elems o !! i) as [y|] eqn:Hy; [|done].
    injection He as <-. apply (word_op f g); eauto.
  - intros i Hi. rewrite <- !(Hraw i Hi). rewrite !raw_lookup, Hlk. destruct (decide (Z.to_nat (i / 64) < n)%nat) as [Hlt|]; [|done].
    destruct (lookup_lt_is_Some_2 (Elems (copyBits a bits)) (Z.to_nat (i / 64)) ltac:(lia)) as [x ->]. destruct (lookup_lt_is_Some_2 (Elems o) (Z.to_nat (i / 64)) ltac:(lia)) as [y ->]. apply f_bits.
Qed.
End Words.
Lemma raw_beyond l i : (length l <= Z.to_nat (i / 64))%nat -> raw l i = false.
Proof. intros H. unfold raw. by rewrite lookup_ge_None_2. Qed.
Lemma bit_in a i : 0 <= i < Bits a -> bit a i = raw (Elems a) i.
Proof. intros Hi. unfold bit. by rewrite bool_decide_true. Qed.
Lemma bit_clean a i : clean a -> 0 <= i -> bit a i = raw (Elems a) i.
Proof. intros Hc Hi. unfold bit. destruct (decide (i < Bits a)); [by rewrite bool_decide_true|]. rewrite bool_decide_false, Hc by lia. done. Qed.
Lemma copyBits_length a bits : 0 <= bits -> ba_ok a -> Z.of_nat (length (Elems (copyBits a bits))) = numElems bits.
Proof. intros Hb Ha. apply (ba_len _ (proj1 (copyBits_ok a bits Ha Hb))). Qed.

Lemma And_spec a o : ba_ok a -> ba_ok o -> exists c, And (Some a) (Some o) = Some (Some c) /\ ba_ok c /\ Bits c = Bits a `min` Bits o /\
  forall i, 0 <= i < Bits c -> bit c i = bit a i && bit o i.
Proof.
  intros Ha Ho. pose proof (ba_bits _ Ha). pose proof (ba_bits _ Ho). pose proof (copyBits_length a (Bits a `min` Bits o) ltac:(lia) Ha) as Hl. pose proof (ba_len _ Ho) as Hlo.
  pose proof (numElems_mono (Bits a `min` Bits o) (Bits o) ltac:(lia)).
  destruct (words_spec Z.land andb Z.land_spec eq_refl (fun x y Hx Hy => proj2 (Z.land_nonneg x y) (or_introl Hx)) a o (Bits a `min` Bits o) (length (Elems (copyBits a (Bits a `min` Bits o)))) Ha Ho) as (r & Hr & Hok & Hraw); [lia|lia|lia|].
  unfold And, ba_and. cbv zeta. rewrite Hr. eexists. split; [done|]. split; [exact Hok|]. split; [done|]. intros i Hi. simpl in Hi. rewrite (bit_in (mkBitArray _ _)), !bit_in by (simpl; lia). simpl. rewrite Hraw by lia.
  rewrite decide_True; [done|]. pose proof (word_index _ i Hok Hi) as Hwi. simpl in Hwi. pose proof (ba_len _ Hok) as Hlr. simpl in Hlr. lia.
Qed.
Lemma Sub_spec a o : ba_ok a -> ba_ok o -> clean o -> exists c, Sub (Some a) (Some o) = Some (Some c) /\ ba_ok c /\ Bits c = Bits a /\
  forall i, 0 <= i < Bits c -> bit c i = bit a i && negb (bit o i).
Proof.
  intros Ha Ho Hco. pose proof (ba_bits _ Ha). pose proof (copyBits_length a (Bits a) ltac:(lia) Ha) as Hl. pose proof (ba_len _ Ha) as Hla.
  destruct (words_spec Z.ldiff (fun x y => x && negb y) Z.ldiff_spec eq_refl (fun x y Hx Hy => proj2 (Z.ldiff_nonneg x y) (or_introl Hx)) a o (Bits a) (smaller a o) Ha Ho) as (r & Hr & Hok & Hraw); [lia|unfold smaller; lia|unfold smaller; lia|].
  unfold Sub. cbv zeta. rewrite Hr. eexists. split; [done|]. split; [exact Hok|]. split; [done|]. intros i Hi. simpl in Hi. rewrite (bit_in (mkBitArray _ _)), (bit_in a), (bit_clean o) by (done || simpl; lia). simpl. rewrite Hraw by lia.
  destruct (decide _) as [|Hge]; [done|]. pose proof (word_index _ i Ha Hi). rewrite (raw_beyond (Elems o)) by (unfold smaller in Hge; lia). by rewrite andb_true_r.
Qed.
Lemma Or_spec a o : ba_ok a -> ba_ok o -> clean a -> clean o -> (length (Elems o) <= length (Elems a))%nat ->
  exists c, Or (Some a) (Some o) = Some (Some c) /\ ba_ok c /\ Bits c = Bits a `max` Bits o /\ forall i, 0 <= i < Bits c -> bit c i = bit a i || bit o i.
Proof.
  intros Ha Ho Hca Hco Hlen. pose proof (ba_bits _ Ha). pose proof (ba_len _ Ha) as Hla. pose proof (copyBits_length a (Bits a `max` Bits o) ltac:(lia) Ha) as Hl. pose proof (numElems_mono (Bits a) (Bits a `max` Bits o) ltac:(lia)).
  destruct (words_spec Z.lor orb Z.lor_spec eq_refl (fun x y Hx Hy => proj2 (Z.lor_nonneg x y) (conj Hx Hy)) a o (Bits a `max` Bits o) (smaller a o) Ha Ho) as (r & Hr & Hok & Hraw); [lia|unfold smaller; lia|unfold smaller; lia|].
  unfold Or. cbv zeta. rewrite Hr. eexists. split; [done|]. split; [exact Hok|]. split; [done|]. intros i Hi. simpl in Hi. rewrite (bit_in (mkBitArray _ _)), (bit_clean a), (bit_clean o) by (done || simpl; lia). simpl. rewrite Hraw by lia.
  destruct (decide _) as [|Hge]; [done|]. rewrite (raw_beyond (Elems o)) by (unfold smaller in Hge; lia). by rewrite orb_false_r.
Qed.
Lemma Not_spec a : ba_ok a -> exists c, Not (Some a) = Some c /\ ba_ok c /\ Bits c = Bits a /\ forall i, 0 <= i < Bits c -> bit c i = negb (bit a i).
Proof.
  intros Ha. exists (ba_not a). split_and!; [done| |done|].
  - split; simpl; [apply Ha|rewrite length_fmap; apply Ha|]. apply Forall_fmap. eapply Forall_impl; [apply Ha|]. intros e He. apply word_bits; [apply Z.lxor_nonneg; destruct He; lia|].
    intros k Hk. rewrite Z.lxor_spec, ones64_bit, word_high by (done || lia). by rewrite bool_decide_false by lia.
  - intros i Hi. simpl in Hi. rewrite !bit_in by (simpl; lia). unfold raw, ba_not, ba_copy. cbn [Elems]. rewrite list_lookup_fmap. destruct (lookup_lt_is_Some_2 _ _ (word_index a i Ha Hi)) as [e ->].
    cbn [fmap option_fmap option_map]. pose proof (mod64 i). rewrite Z.lxor_spec, ones64_bit, bool_decide_true by lia. by rewrite xorb_true_r.
Qed.

(** ** Changing a bit *)
Lemma setIndex_spec a i v : ba_ok a -> exists c, setIndex a i v = Some (c, bool_decide (0 <= i < Bits a)) /\ ba_ok c /\ Bits c = Bits a /\ (clean a -> clean c) /\
  forall j, bit c j = if decide (j = i /\ 0 <= i < Bits a) then v else bit a j.
Proof.
  intros Ha. unfold setIndex. destruct (decide (0 <= i < Bits a)) as [Hi|Hi].
  2: { exists a. rewrite (bool_decide_false (0 <= i < _)) by done. split; [|split_and!; [done|done|done|]].
       - destruct (decide (i < 0)); [by rewrite (bool_decide_true (i < 0))|]. by rewrite (bool_decide_true (Bits a <= i)), orb_true_r by lia.
       - intros j. by rewrite decide_False by naive_solver. }
  rewrite (bool_decide_false (i < 0)), (bool_decide_false (Bits a <= i)), (bool_decide_true (0 <= i < _)) by lia. cbn [orb]. pose proof (word_index a i Ha Hi) as Hw. destruct (lookup_lt_is_Some_2 _ _ Hw) as [e He]. rewrite He. cbn [mbind option_bind].
  set (e' := if v then _ else _). pose proof (mod64 i) as Hm. assert (Hwe : word e) by (pose proof (ba_words _ Ha) as H; rewrite Forall_lookup in H; by eapply H).
  assert (Hbit : forall k, 0 <= k < 64 -> Z.testbit e' k = if decide (k = i mod 64) then v else Z.testbit e k).
  { intros k Hk. unfold e', word_bit. rewrite Z.shiftl_1_l. destruct v; [rewrite Z.lor_spec|rewrite Z.land_spec, Z.lxor_spec, ones64_bit, bool_decide_true by lia]; rewrite Z.pow2_bits_eqb by lia;
      destruct (Z.eqb_spec (i mod 64) k), (decide (k = i mod 64)); try lia; destruct (Z.testbit e k); done. }
  assert (Hwe' : word e').
  { unfold e'. destruct v; apply word_bits.
    - apply Z.lor_nonneg. split; [apply Hwe|]. unfold word_bit. rewrite Z.shiftl_1_l. apply Z.pow_nonneg. lia.
    - intros k Hk. unfold word_bit. rewrite Z.lor_spec, word_high, Z.shiftl_1_l, Z.pow2_bits_false by (done || lia). done.
    - apply Z.land_nonneg. left. apply Hwe.
    - intros k Hk. by rewrite Z.land_spec, word_high. }
  assert (Hraw : forall j, 0 <= j -> raw (<[Z.to_nat (i / 64) := e']> (Elems a)) j = if decide (j = i) then v else raw (Elems a) j).
  { intros j Hj. unfold raw. pose proof (Z.div_pos j 64). pose proof (Z.div_pos i 64). destruct (decide (j / 64 = i / 64)) as [Hd|Hd].
    - rewrite Hd, list_lookup_insert_eq, He by done. rewrite Hbit by apply mod64. pose proof (Z.div_mod j 64). pose proof (Z.div_mod i 64). destruct (decide (j mod 64 = i mod 64)), (decide (j = i)); try done; [lia|congruence].
    - rewrite list_lookup_insert_ne by lia. destruct (decide (j = i)); [congruence|done]. }
  eexists. split; [done|]. split_and!; [|done| |].
  - split; simpl; [apply Ha|rewrite length_insert; apply Ha|]. apply Forall_insert; [apply Ha|done].
  - intros Hc j Hj. simpl in *. rewrite Hraw by lia. rewrite decide_False by lia. by apply Hc.
  - intros j. unfold bit. simpl. destruct (decide (0 <= j < Bits a)) as [Hj|Hj].
    + rewrite bool_decide_true, Hraw by (done || lia). destruct (decide (j = i)) as [->|]; [by rewrite decide_True|by rewrite decide_False by naive_solver].
    + rewrite bool_decide_false by done. by rewrite decide_False by (intros [-> ?]; done).
Qed.

(** ** The indices of the bits that are set *)
Lemma filter_fmap_shift (P : Z -> bool) cur n : (fun j => cur + j) <$> filter (fun j => P (cur + j) = true) (seqZ 0 n) = filter (fun i => P i = true) (seqZ cur n).
Proof.
  replace (seqZ cur n) with (Z.add cur <$> seqZ 0 n) by (rewrite fmap_add_seqZ; f_equal; lia). induction (seqZ 0 n) as [|j l IH]; [done|]. rewrite fmap_cons, !filter_cons. destruct (decide (P (cur + j) = true)).
  - by rewrite fmap_cons, IH.
  - exact IH.
Qed.
Lemma word_indices_spec n e cur : word_indices n e cur = filter (fun i => Z.testbit e (i - cur) = true) (seqZ cur n).
Proof.
  unfold word_indices. rewrite <- (filter_fmap_shift (fun i => Z.testbit e (i - cur))). f_equal. apply filter_ext_on. intros j [Hj _]%elem_of_seqZ.
  replace (cur + j - cur) with j by lia. rewrite <- (land_bit e j) by lia. by rewrite bool_decide_eq_true.
Qed.
Lemma raw_cons e l i : 0 <= i -> raw (e :: l) i = if decide (i < 64) then Z.testbit e i else raw l (i - 64).
Proof.
  intros Hi. unfold raw. destruct (decide (i < 64)).
  - rewrite Z.div_small, Z.mod_small by lia. done.
  - assert (i / 64 = (i - 64) / 64 + 1) as -> by (rewrite <- Z.div_add by lia; f_equal; lia).
    assert (i mod 64 = (i - 64) mod 64) as -> by (replace i with (i - 64 + 1 * 64) at 1 by lia; by rewrite Z.mod_add by lia).
    pose proof (Z.div_pos (i - 64) 64). rewrite Z2Nat.inj_add by lia. by rewrite Nat.add_1_r.
Qed.
Lemma full_indices_spec l cur : full_indices l cur = filter (fun i => raw l (i - cur) = true) (seqZ cur (64 * Z.of_nat (length l))).
Proof.
  revert cur. induction l as [|e l IH]; intros cur; [done|]. cbn [full_indices]. replace (64 * Z.of_nat (length (e :: l))) with (64 + 64 * Z.of_nat (length l)) by (simpl; lia).
  rewrite seqZ_app, filter_app, IH by lia. f_equal.
  - transitivity (word_indices 64 e cur).
    + case_bool_decide as H0; [|done]. subst e. rewrite word_indices_spec. symmetry. apply filter_none. intros x _. by rewrite Z.bits_0.
    + rewrite word_indices_spec. apply filter_ext_on. intros i Hi%elem_of_seqZ. rewrite raw_cons, decide_True by lia. done.
  - apply filter_ext_on. intros i Hi%elem_of_seqZ. rewrite raw_cons, decide_False by lia. by replace (i - cur - 64) with (i - (cur + 64)) by lia.
Qed.
Lemma getTrueIndices_spec a : ba_ok a -> getTrueIndices a = Some (filter (fun i => bit a i = true) (seqZ 0 (Bits a))).
Proof.
  intros Ha. unfold getTrueIndices. pose proof (ba_bits _ Ha) as Hb. case_bool_decide as H0; [by rewrite H0|]. cbv zeta. pose proof (numElems_spec _ Hb) as Hn. rewrite <- (ba_len _ Ha) in Hn.
  rewrite bool_decide_false by lia. set (n := length (Elems a)) in *. destruct (lookup_lt_is_Some_2 (Elems a) (n - 1)) as [e He]; [unfold n; lia|]. rewrite He. cbn [mbind option_bind]. f_equal.
  rewrite full_indices_spec, word_indices_spec. set (k := 64 * (Z.of_nat n - 1)). replace (64 * Z.of_nat (length (take (n - 1) (Elems a)))) with k by (rewrite length_take; lia).
  replace (seqZ 0 (Bits a)) with (seqZ 0 k ++ seqZ k (Bits a - k)) by (replace (Bits a) with (k + (Bits a - k)) at 2 by lia; rewrite seqZ_app by lia; done). rewrite filter_app. f_equal; apply filter_ext_on; intros i Hi%elem_of_seqZ; rewrite bit_in by lia.
  - rewrite Z.sub_0_r. unfold raw. pose proof (Z.div_pos i 64). assert (i / 64 < Z.of_nat n - 1) by (apply Z.div_lt_upper_bound; lia). by rewrite lookup_take_lt by lia.
  - unfold raw. replace (i / 64) with (Z.of_nat n - 1) by (apply Z.div_unique with (i - k); lia). replace (i mod 64) with (i - k) by (apply Z.mod_unique with (Z.of_nat n - 1); lia).
    replace (Z.to_nat (Z.of_nat n - 1)) with (n - 1)%nat by lia. by rewrite He.
Qed.

(** ** Texts and messages *)
Definition text_of (a : BitArray) (l : list Z) : bytes := (fun j => if bit a j then 120 else 95) <$> l.
Lemma bit_text_spec a n i : ba_ok a -> bit_text a i n = Some (text_of a (seqZ i (Z.of_nat n))).
Proof.
  intros Ha. revert i. induction n as [|n IH]; intros i; [done|]. cbn [bit_text]. rewrite getIndex_spec by done. cbn [mbind option_bind]. rewrite IH. cbn [mbind option_bind].
  rewrite (seqZ_cons i (Z.of_nat (S n))) by lia. unfold text_of. rewrite fmap_cons. replace (Z.succ i) with (i + 1) by lia. by replace (Z.pred (Z.of_nat (S n))) with (Z.of_nat n) by lia.
Qed.
Lemma set_text_spec s : forall i c, ba_ok c -> 0 <= i -> i + Z.of_nat (length s) <= Bits c ->
  exists d, set_text s i c = Some d /\ ba_ok d /\ Bits d = Bits c /\ forall j, bit d j = bit c j || bool_decide (i <= j) && bool_decide (s !! Z.to_nat (j - i) = Some 120).
Proof.
  induction s as [|x s IH]; intros i c Hc Hi Hl; [exists c; split_and!; try done; intros j; by rewrite andb_false_r, orb_false_r|]. cbn [length] in Hl. cbn [set_text].
  assert (Hset : exists c', (if bool_decide (x = 120) then fst <$> setIndex c i true else Some c) = Some c' /\ ba_ok c' /\ Bits c' = Bits c /\ forall j, bit c' j = bit c j || bool_decide (j = i /\ x = 120)).
  { destruct (decide (x = 120)) as [Hx|Hx]; [rewrite (bool_decide_true (x = 120)) by done|rewrite (bool_decide_false (x = 120)) by done].
    - destruct (setIndex_spec c i true Hc) as (c' & -> & Hok & Hb & _ & Hbit). exists c'. split_and!; [done|done|done|]. intros j. rewrite Hbit. destruct (decide (j = i)) as [->|].
      + rewrite decide_True by lia. by rewrite bool_decide_true, orb_true_r.
      + rewrite decide_False by naive_solver. by rewrite bool_decide_false, orb_false_r by naive_solver.
    - exists c. split_and!; try done. intros j. by rewrite bool_decide_false, orb_false_r by naive_solver. }
  destruct Hset as (c' & -> & Hok' & Hb' & Hbit'). cbn [mbind option_bind]. destruct (IH (i + 1) c' Hok' ltac:(lia) ltac:(lia)) as (d & -> & Hok & Hb & Hbit). exists d. split_and!; [done|done|by rewrite Hb|].
  intros j. rewrite Hbit, Hbit'. rewrite <- orb_assoc. f_equal. destruct (decide (j = i)) as [->|Hj].
  - rewrite (bool_decide_false (i + 1 <= i)), (bool_decide_true (i <= i)), Z.sub_diag by lia. simpl. rewrite orb_false_r. apply bool_decide_ext. naive_solver.
  - rewrite (bool_decide_false (j = i /\ _)) by naive_solver. simpl. destruct (decide (i <= j)).
    + rewrite (bool_decide_true (i <= j)), (bool_decide_true (i + 1 <= j)) by lia. replace (Z.to_nat (j - i)) with (S (Z.to_nat (j - (i + 1)))) by lia. apply bool_decide_ext. done.
    + by rewrite (bool_decide_false (i <= j)), (bool_decide_false (i + 1 <= j)) by lia.
Qed.
Lemma json_bits_quoted s : Forall (fun c => c = 95 \/ c = 120) s -> json_bits (34 :: s ++ [34]) = Some s.
Proof.
  intros Hs. unfold json_bits. rewrite last_snoc. rewrite length_app. cbn [length]. rewrite Nat.add_sub, take_app_length. destruct (forallb _ s) eqn:Hf; [done|]. exfalso. apply not_true_iff_false in Hf. apply Hf.
  apply forallb_forall. intros c Hc%list_elem_of_In. rewrite Forall_forall in Hs. by apply bool_decide_eq_true_2, Hs.
Qed.
Lemma reset_ok bits : 0 <= bits -> ba_ok (reset bits) /\ forall i, bit (reset bits) i = false.
Proof.
  intros Hb. pose proof (numElems_spec bits Hb). assert (He : Elems (reset bits) = replicate (Z.to_nat (numElems bits)) 0) by (unfold reset; simpl; case_bool_decide as H0; [by rewrite H0|done]). split.
  - split; [done| |].
    + rewrite He, length_replicate. simpl. lia.
    + rewrite He. apply Forall_replicate. done.
  - intros i. unfold bit, raw. rewrite He. destruct (replicate _ 0 !! _) as [e|] eqn:Hl; [|apply andb_false_r]. apply lookup_replicate in Hl as [-> _]. by rewrite Z.bits_0, andb_false_r.
Qed.
Lemma json_roundtrip a x : ba_ok a -> exists s c, MarshalJSON (Some a) = Some s /\ UnmarshalJSON x s = Some (c, true) /\ ba_ok c /\ Bits c = Bits a /\ forall i, bit c i = bit a i.
Proof.
  intros Ha. pose proof (ba_bits _ Ha). unfold MarshalJSON. rewrite bit_text_spec by done. cbn [mbind option_bind]. rewrite Z2Nat.id by done. set (s := text_of a (seqZ 0 (Bits a))). eexists.
  assert (Hlen : length s = Z.to_nat (Bits a)) by (unfold s, text_of; by rewrite length_fmap, length_seqZ). destruct (reset_ok (Bits a)) as [Hr Hr0]; [done|].
  destruct (set_text_spec s 0 (reset (Bits a)) Hr ltac:(lia)) as (c & Hc & Hok & Hb & Hbit); [simpl; lia|]. exists c. split; [done|]. split.
  - unfold UnmarshalJSON. rewrite bool_decide_false by done. rewrite json_bits_quoted; [|apply Forall_fmap, Forall_forall; intros j _; simpl; destruct (bit a j); [by right|by left]].
    rewrite Hlen, Z2Nat.id, Hc by done. done.
  - split; [done|]. split; [done|]. intros i. rewrite Hbit, Hr0, Z.sub_0_r. simpl. unfold s, text_of. destruct (decide (0 <= i < Bits a)) as [Hi|Hi].
    + rewrite list_lookup_fmap, (bool_decide_true (0 <= i)), lookup_seqZ_lt by lia. simpl. rewrite Z2Nat.id by lia. rewrite Z.add_0_l. destruct (bit a i); [by apply bool_decide_eq_true_2|by apply bool_decide_eq_false_2].
    + unfold bit. rewrite (bool_decide_false (0 <= i < _)) by done. destruct (decide (0 <= i)); [|by rewrite (bool_decide_false (0 <= i))]. rewrite list_lookup_fmap, lookup_seqZ_ge by lia. simpl. apply andb_false_r.
Qed.
Lemma proto_roundtrip a x : ba_ok a -> 0 < Bits a < 2 ^ 31 -> FromProto x (ToProto (Some a)) = (a, None).
Proof.
  intros Ha Hb. unfold ToProto. rewrite (bool_decide_false (Bits a = 0)), andb_false_r by lia. unfold FromProto, ba_copy. rewrite !bool_decide_false by (lia || (intros Hn; apply Hn, Ha)). by destruct a.
Qed.

(** C33. Bit arrays act bit by bit: intersection, complement, difference and union of two arrays,
    a change of one bit and the list of the bits that are set are the ones of the sets of
    indices; the words after the last bit do not matter where the operations do not read
    them, and neither index nor length is ever out of range. *)
Theorem bit_array_pointwise a o i v : ba_ok a -> ba_ok o ->
  GetIndex (Some a) i = Some (bit a i) /\
  (exists c, And (Some a) (Some o) = Some (Some c) /\ ba_ok c /\ Bits c = Bits a `min` Bits o /\ forall i, 0 <= i < Bits c -> bit c i = bit a i && bit o i) /\
  (exists c, Not (Some a) = Some c /\ ba_ok c /\ Bits c = Bits a /\ forall i, 0 <= i < Bits c -> bit c i = negb (bit a i)) /\
  (clean o -> exists c, Sub (Some a) (Some o) = Some (Some c) /\ ba_ok c /\ Bits c = Bits a /\ forall i, 0 <= i < Bits c -> bit c i = bit a i && negb (bit o i)) /\
  (clean a -> clean o -> (length (Elems o) <= length (Elems a))%nat ->
    exists c, Or (Some a) (Some o) = Some (Some c) /\ ba_ok c /\ Bits c = Bits a `max` Bits o /\ forall i, 0 <= i < Bits c -> bit c i = bit a i || bit o i) /\
  (exists c, SetIndex (Some a) i v = Some (Some c, bool_decide (0 <= i < Bits a)) /\ ba_ok c /\ Bits c = Bits a /\ forall j, bit c j = if decide (j = i /\ 0 <= i < Bits a) then v else bit a j) /\
  getTrueIndices a = Some (filter (fun i => bit a i = true) (seqZ 0 (Bits a))).
Proof.
  intros Ha Ho. split_and!; [by apply getIndex_spec|by apply And_spec|by apply Not_spec|intros; by apply Sub_spec|intros; by apply Or_spec| |by apply getTrueIndices_spec].
  destruct (setIndex_spec a i v Ha) as (c & Hs & Hok & Hb & _ & Hbit). exists c. unfold SetIndex. rewrite Hs. done.
Qed.

(** The comments say that the shorter of the arrays is padded with zeroes.  [Or] leaves out
    the words of the argument that the receiver does not have, and the words that [Not]
    leaves behind the last bit are neither zero nor ignored by [Or] and [Sub]. *)
Theorem bit_array_padding :
  (exists a o c, ba_ok a /\ ba_ok o /\ Or (Some a) (Some o) = Some (Some c) /\ bit o 100 = true /\ bit c 100 = false) /\
  (exists a o c d, Not (NewBitArray 3) = Some a /\ NewBitArray 10 = Some o /\ Or (Some a) (Some o) = Some (Some c) /\ bit a 5 = false /\ bit o 5 = false /\ bit c 5 = true /\
    Sub (Not (Some o)) (Some a) = Some (Some d) /\ bit (ba_not o) 5 = true /\ bit d 5 = false).
Proof.
  split.
  - exists (reset 64), (mkBitArray 128 [0; 2 ^ 36]), (mkBitArray 128 [0; 0]). split_and!; try done; split; try done; repeat constructor; done.
  - exists (ba_not (reset 3)), (reset 10). eexists _, _. split_and!; try reflexivity.
Qed.
