(* ===== verification/SignBytes.v ===== *)
(** What a validator signs ([sei-tendermint/types/canonical.go], [vote.go], [block.go],
    [part_set.go] and the generated [proto/tendermint/types/canonical.pb.go]): identifiers
    of blocks, votes, the canonical form of a vote and its bytes.

    A [time.Time] is the number of nanoseconds since its zero value; its wire format is code
    of the gogo package and a parameter.  The protobuf forms of [BlockID] and
    [PartSetHeader] have the fields of the Go types and are not told apart from them. *)
From stdpp Require Import base gmap sets list.
From Stdlib Require Import ZArith Lia.
From S2P Require Import Prelude Coins CoinsSpec Decimal DecimalSpec Proto ProtoSpec Valset.
Local Open Scope Z_scope.

(** [StdTimeMarshalTo], with an error for a time that has no timestamp, and
    [StdTimeUnmarshal]. *)
Class StdTime := { StdTimeMarshal : Z -> option bytes; StdTimeUnmarshal : bytes -> option Z }.
(** A timestamp is read as it was written, and is a message with two varints. *)
Class StdTimeLaws `{StdTime} : Prop := {
  std_time_roundtrip : forall t b, StdTimeMarshal t = Some b -> StdTimeUnmarshal b = Some t;
  std_time_size : forall t b, StdTimeMarshal t = Some b -> len b <= 17
}.

(** ** Identifiers of blocks *)
Definition HashSize : nat := 32.
Definition MaxBlockPartsCount : Z := 104857600 / 1048576 + 1.

Record PartSetHeader := mkPartSetHeader { psh_Total : Z; psh_Hash : bytes }.
Record BlockID := mkBlockID { bid_Hash : bytes; bid_PartSetHeader : PartSetHeader }.
#[export] Instance PartSetHeader_eq_dec : EqDecision PartSetHeader.
Proof. solve_decision. Defined.
#[export] Instance BlockID_eq_dec : EqDecision BlockID.
Proof. solve_decision. Defined.
Definition empty_PartSetHeader : PartSetHeader := mkPartSetHeader 0 [].
Definition empty_BlockID : BlockID := mkBlockID [] empty_PartSetHeader.

Definition psh_IsZero (psh : PartSetHeader) : bool := bool_decide (psh_Total psh = 0) && bool_decide (length (psh_Hash psh) = 0%nat).
Definition psh_Equals (psh other : PartSetHeader) : bool :=
  bool_decide (psh_Total psh = psh_Total other) && bool_decide (psh_Hash psh = psh_Hash other).

(** The validations answer the error, if any. *)
Inductive BlockIDError := EWrongHashSize | EWrongPartsHashSize | ETooManyParts.
Definition ValidateHash (h : bytes) : option unit :=
  if bool_decide (0 < length h)%nat && bool_decide (length h <> HashSize) then Some tt else None.
Definition psh_ValidateBasic (psh : PartSetHeader) : option BlockIDError :=
  match ValidateHash (psh_Hash psh) with
  | Some _ => Some EWrongPartsHashSize
  | None => if bool_decide (MaxBlockPartsCount < psh_Total psh) then Some ETooManyParts else None
  end.

Definition bid_Equals (blockID other : BlockID) : bool :=
  bool_decide (bid_Hash blockID = bid_Hash other) && psh_Equals (bid_PartSetHeader blockID) (bid_PartSetHeader other).
Definition bid_ValidateBasic (blockID : BlockID) : option BlockIDError :=
  match ValidateHash (bid_Hash blockID) with Some _ => Some EWrongHashSize | None => psh_ValidateBasic (bid_PartSetHeader blockID) end.
Definition bid_IsNil (blockID : BlockID) : bool := bool_decide (length (bid_Hash blockID) = 0%nat) && psh_IsZero (bid_PartSetHeader blockID).
Definition bid_IsComplete (blockID : BlockID) : bool :=
  bool_decide (length (bid_Hash blockID) = HashSize) && bool_decide (0 < psh_Total (bid_PartSetHeader blockID))
  && bool_decide (length (psh_Hash (bid_PartSetHeader blockID)) = HashSize).

Definition PartSetHeader_fields (m : PartSetHeader) (w : buf) : option buf := w ← field_bytes 18 (psh_Hash m) w; field_varint 8 (psh_Total m) w.
Definition PartSetHeader_Size (m : PartSetHeader) : Z := size_varint (psh_Total m) + size_bytes (psh_Hash m).
Definition PartSetHeader_Marshal (m : PartSetHeader) : option bytes := marshal (PartSetHeader_Size m) (PartSetHeader_fields m).

Definition Key (blockID : BlockID) : option bytes :=
  bz ← PartSetHeader_Marshal (bid_PartSetHeader blockID);
  Some (bid_Hash blockID ++ bz).

(** ** Votes *)
Definition PrevoteType : Z := 1.
Definition PrecommitType : Z := 2.
Record Vote := mkVote {
  vt_Type : Z;
  vt_Height : Z;
  vt_Round : Z;
  vt_BlockID : BlockID;
  vt_Timestamp : Z;
  vt_ValidatorAddress : bytes;
  vt_ValidatorIndex : Z;
  vt_Signature : option bytes
}.
#[export] Instance Vote_eq_dec : EqDecision Vote.
Proof. solve_decision. Defined.

Inductive VoteInvalid := EInvalidType | ENegativeHeight | ENegativeRound | EWrongBlockID (e : BlockIDError) | EIncompleteBlockID | EAddressSize | ENegativeIndex.
Definition IsVoteTypeValid (t : Z) : bool := bool_decide (t = PrevoteType) || bool_decide (t = PrecommitType).
Definition vote_ValidateBasic (vote : Vote) : option VoteInvalid :=
  if negb (IsVoteTypeValid (vt_Type vote)) then Some EInvalidType
  else if bool_decide (vt_Height vote < 0) then Some ENegativeHeight
  else if bool_decide (vt_Round vote < 0) then Some ENegativeRound
  else
    match bid_ValidateBasic (vt_BlockID vote) with
    | Some e => Some (EWrongBlockID e)
    | None =>
        if negb (bid_IsNil (vt_BlockID vote)) && negb (bid_IsComplete (vt_BlockID vote)) then Some EIncompleteBlockID
        else if bool_decide (length (vt_ValidatorAddress vote) <> AddressSize) then Some EAddressSize
        else if bool_decide (vt_ValidatorIndex vote < 0) then Some ENegativeIndex
        else None
    end.

(** ** The canonical form *)
Record CanonicalVote := mkCanonicalVote {
  cv_Type : Z;
  cv_Height : Z;
  cv_Round : Z;
  cv_BlockID : option BlockID;
  cv_Timestamp : Z;
  cv_ChainID : bytes
}.
Definition CanonicalizeBlockID (bid : BlockID) : option (option BlockID) :=
  match bid_ValidateBasic bid with
  | Some _ => None
  | None => Some (if bid_IsNil bid then None else Some bid)
  end.
Definition CanonicalizeVote (chainID : bytes) (vote : Vote) : option CanonicalVote :=
  bid ← CanonicalizeBlockID (vt_BlockID vote);
  Some (mkCanonicalVote (vt_Type vote) (vt_Height vote) (vt_Round vote) bid (vt_Timestamp vote) chainID).

Definition CanonicalPartSetHeader_fields (m : PartSetHeader) (w : buf) : option buf :=
  w ← field_bytes 18 (psh_Hash m) w; field_varint 8 (psh_Total m) w.
Definition CanonicalPartSetHeader_Size (m : PartSetHeader) : Z := size_varint (psh_Total m) + size_bytes (psh_Hash m).
Definition CanonicalBlockID_fields (m : BlockID) (w : buf) : option buf :=
  w ← put_message (to_sized_buffer (CanonicalPartSetHeader_fields (bid_PartSetHeader m))) 18 w;
  field_bytes 10 (bid_Hash m) w.
Definition CanonicalBlockID_Size (m : BlockID) : Z :=
  let l := CanonicalPartSetHeader_Size (bid_PartSetHeader m) in size_bytes (bid_Hash m) + (1 + l + sov l).

Section Time.
Context `{StdTime}.
Definition SizeOfStdTime (t : Z) : Z := match StdTimeMarshal t with Some b => len b | None => 0 end.

Definition CanonicalVote_fields (m : CanonicalVote) (w : buf) : option buf :=
  w ← field_bytes 50 (cv_ChainID m) w;
  t ← StdTimeMarshal (cv_Timestamp m);
  w ← field_always 42 t w;
  w ← match cv_BlockID m with Some b => put_message (to_sized_buffer (CanonicalBlockID_fields b)) 34 w | None => Some w end;
  w ← field_fixed64 25 (cv_Round m) w;
  w ← field_fixed64 17 (cv_Height m) w;
  field_varint 8 (uint64 (cv_Type m)) w.
Definition CanonicalVote_Size (m : CanonicalVote) : Z :=
  size_varint (uint64 (cv_Type m)) + size_fixed64 (cv_Height m) + size_fixed64 (cv_Round m)
  + match cv_BlockID m with Some b => let l := CanonicalBlockID_Size b in 1 + l + sov l | None => 0 end
  + (let l := SizeOfStdTime (cv_Timestamp m) in 1 + l + sov l) + size_bytes (cv_ChainID m).

Definition MarshalDelimited (m : CanonicalVote) : option bytes :=
  let size := CanonicalVote_Size m in
  bz ← marshal size (CanonicalVote_fields m);
  Some (PutUvarint size ++ bz).
Definition VoteSignBytes (chainID : bytes) (vote : Vote) : option bytes := CanonicalizeVote chainID vote ≫= MarshalDelimited.

(** ** Reading the canonical form *)
Definition CanonicalPartSetHeader_cases : cases (M := PartSetHeader) := fun n =>
  match n with
  | 1 => Some (field_case 0 (read_varint uint32) (fun v m => Ok (mkPartSetHeader v (psh_Hash m))))
  | 2 => Some (field_case 2 read_bytes (fun s m => Ok (mkPartSetHeader (psh_Total m) s)))
  | _ => None
  end.
Definition CanonicalPartSetHeader_Unmarshal (m : PartSetHeader) (dAtA : bytes) : res PartSetHeader := unmarshal CanonicalPartSetHeader_cases dAtA m.
Definition CanonicalBlockID_cases : cases (M := BlockID) := fun n =>
  match n with
  | 1 => Some (field_case 2 read_bytes (fun s m => Ok (mkBlockID s (bid_PartSetHeader m))))
  | 2 => Some (field_case 2 read_bytes (fun s m => p ← CanonicalPartSetHeader_Unmarshal (bid_PartSetHeader m) s; Ok (mkBlockID (bid_Hash m) p)))
  | _ => None
  end.
Definition CanonicalBlockID_Unmarshal (m : BlockID) (dAtA : bytes) : res BlockID := unmarshal CanonicalBlockID_cases dAtA m.

Section Setters.
Variable m : CanonicalVote.
Definition set_Type v := mkCanonicalVote v (cv_Height m) (cv_Round m) (cv_BlockID m) (cv_Timestamp m) (cv_ChainID m).
Definition set_Height v := mkCanonicalVote (cv_Type m) v (cv_Round m) (cv_BlockID m) (cv_Timestamp m) (cv_ChainID m).
Definition set_Round v := mkCanonicalVote (cv_Type m) (cv_Height m) v (cv_BlockID m) (cv_Timestamp m) (cv_ChainID m).
Definition set_BlockID v := mkCanonicalVote (cv_Type m) (cv_Height m) (cv_Round m) v (cv_Timestamp m) (cv_ChainID m).
Definition set_Timestamp v := mkCanonicalVote (cv_Type m) (cv_Height m) (cv_Round m) (cv_BlockID m) v (cv_ChainID m).
Definition set_ChainID v := mkCanonicalVote (cv_Type m) (cv_Height m) (cv_Round m) (cv_BlockID m) (cv_Timestamp m) v.
End Setters.
Definition CanonicalVote_cases : cases (M := CanonicalVote) := fun n =>
  match n with
  | 1 => Some (field_case 0 (read_varint int32) (fun v m => Ok (set_Type m v)))
  | 2 => Some (field_case 1 read_fixed64 (fun v m => Ok (set_Height m v)))
  | 3 => Some (field_case 1 read_fixed64 (fun v m => Ok (set_Round m v)))
  | 4 => Some (field_case 2 read_bytes (fun s m => b ← CanonicalBlockID_Unmarshal (default empty_BlockID (cv_BlockID m)) s; Ok (set_BlockID m (Some b))))
  | 5 => Some (field_case 2 read_bytes (fun s m => match StdTimeUnmarshal s with Some t => Ok (set_Timestamp m t) | None => Err ErrTimestamp end))
  | 6 => Some (field_case 2 read_string (fun s m => Ok (set_ChainID m s)))
  | _ => None
  end.
Definition empty_CanonicalVote : CanonicalVote := mkCanonicalVote 0 0 0 None 0 [].
Definition CanonicalVote_Unmarshal (dAtA : bytes) : res CanonicalVote := unmarshal CanonicalVote_cases dAtA empty_CanonicalVote.
End Time.
