(* ===== verification/SignBytesSpec.v ===== *)
(** The bytes that are signed determine the vote: the canonical form is written without an
    error, and read back as it was. *)
From stdpp Require Import base gmap sets list.
From Stdlib Require Import ZArith Lia.
From S2P Require Import Prelude Coins CoinsSpec Decimal DecimalSpec Proto ProtoSpec Valset SignBytes.
Local Open Scope Z_scope.

(** ** What is written *)
Definition enc_PartSetHeader (m : PartSetHeader) : bytes := enc_varint 8 (psh_Total m) ++ enc_bytes 18 (psh_Hash m).
Definition enc_BlockID (m : BlockID) : bytes := enc_bytes 10 (bid_Hash m) ++ enc_always 18 (enc_PartSetHeader (bid_PartSetHeader m)).

(** Identifiers that pass the basic validation; the total is a [uint32]. *)
Definition bid_ok (b : BlockID) : Prop := bid_ValidateBasic b = None /\ 0 <= psh_Total (bid_PartSetHeader b).
Lemma ValidateHash_None h : ValidateHash h = None <-> length h = 0%nat \/ length h = 32%nat.
Proof. unfold ValidateHash, HashSize. repeat case_bool_decide; naive_solver lia. Qed.
Lemma bid_ok_sizes b : bid_ok b -> len (bid_Hash b) <= 32 /\ len (psh_Hash (bid_PartSetHeader b)) <= 32 /\ 0 <= psh_Total (bid_PartSetHeader b) <= 101.
Proof.
  intros [Hv H0]. unfold bid_ValidateBasic, psh_ValidateBasic in Hv. destruct (ValidateHash (bid_Hash b)) eqn:H1; [done|].
  destruct (ValidateHash (psh_Hash _)) eqn:H2; [done|]. case_bool_decide as H3; [done|]. apply ValidateHash_None in H1, H2. change MaxBlockPartsCount with 101 in H3. unfold len. lia.
Qed.

Lemma PartSetHeader_writes m : len (psh_Hash m) <= 32 -> 0 <= psh_Total m <= 101 ->
  writes (PartSetHeader_fields m) (enc_PartSetHeader m) /\ len (enc_PartSetHeader m) = PartSetHeader_Size m /\ 0 <= PartSetHeader_Size m <= 36.
Proof.
  intros Hh Ht. unfold PartSetHeader_Size, enc_PartSetHeader. pose proof (len_nonneg (psh_Hash m)). split_and!.
  - unfold PartSetHeader_fields. apply writes_bind; [apply writes_field_bytes|apply writes_field_varint]; lia.
  - rewrite len_app, len_enc_varint, len_enc_bytes by lia. done.
  - pose proof (size_varint_nonneg (psh_Total m)). pose proof (size_bytes_bound (psh_Hash m)). lia.
  - unfold size_varint, size_bytes. rewrite !sov_small by lia. repeat case_bool_decide; lia.
Qed.
Lemma BlockID_writes b : bid_ok b ->
  writes (CanonicalBlockID_fields b) (enc_BlockID b) /\ len (enc_BlockID b) = CanonicalBlockID_Size b /\ 0 <= CanonicalBlockID_Size b <= 72.
Proof.
  intros (H1 & H2 & H3)%bid_ok_sizes. destruct (PartSetHeader_writes (bid_PartSetHeader b) H2 H3) as (Hw & Hl & Hs). unfold CanonicalBlockID_Size, enc_BlockID. pose proof (len_nonneg (bid_Hash b)).
  change (CanonicalPartSetHeader_Size (bid_PartSetHeader b)) with (PartSetHeader_Size (bid_PartSetHeader b)). cbv zeta. split_and!.
  - unfold CanonicalBlockID_fields. apply writes_bind; [apply writes_message; [lia|exact Hw]|apply writes_field_bytes; lia].
  - rewrite len_app, len_enc_bytes, len_enc_always by lia. by rewrite Hl.
  - pose proof (size_bytes_bound (bid_Hash b)). pose proof (sov_pos (PartSetHeader_Size (bid_PartSetHeader b))). lia.
  - unfold size_bytes. rewrite !sov_small by lia. case_bool_decide; lia.
Qed.

Lemma IsNil_true b : bid_IsNil b = true <-> b = empty_BlockID.
Proof.
  unfold bid_IsNil, psh_IsZero. rewrite !andb_true_iff, !bool_decide_eq_true. destruct b as [hash [total hash']]. unfold empty_BlockID, empty_PartSetHeader. simpl.
  rewrite !length_zero_iff_nil. naive_solver.
Qed.

(** ** Keys *)
Lemma Key_spec b : bid_ok b -> Key b = Some (bid_Hash b ++ enc_PartSetHeader (bid_PartSetHeader b)).
Proof.
  intros (_ & H2 & H3)%bid_ok_sizes. destruct (PartSetHeader_writes _ H2 H3) as (Hw & Hl & _). unfold Key, PartSetHeader_Marshal.
  by rewrite (marshal_spec _ _ _ Hw) by done.
Qed.
(** Identifiers of votes are nil or complete; their keys tell them apart. *)
Definition whole (b : BlockID) : Prop := bid_ok b /\ (bid_IsNil b || bid_IsComplete b = true).
Lemma complete_sizes b : bid_IsComplete b = true <-> length (bid_Hash b) = 32%nat /\ 0 < psh_Total (bid_PartSetHeader b) /\ length (psh_Hash (bid_PartSetHeader b)) = 32%nat.
Proof. unfold bid_IsComplete. rewrite !andb_true_iff, !bool_decide_eq_true. unfold HashSize. naive_solver. Qed.
Lemma enc_complete m : 0 < psh_Total m <= 101 -> length (psh_Hash m) = 32%nat -> enc_PartSetHeader m = [8; psh_Total m; 18; 32] ++ psh_Hash m.
Proof.
  intros Ht Hh. unfold enc_PartSetHeader, enc_varint, enc_bytes, enc_always. rewrite !bool_decide_true by (lia || by intros Hn; rewrite Hn in Hh).
  replace (len (psh_Hash m)) with 32 by (unfold len; lia). unfold varint. cbn [groups]. rewrite !bool_decide_false by lia. done.
Qed.
Lemma Key_inj a b : whole a -> whole b -> Key a = Key b -> a = b.
Proof.
  intros [Ha Ha'] [Hb Hb']. rewrite !Key_spec by done. intros [= He]. apply orb_true_iff in Ha', Hb'. destruct (bid_ok_sizes _ Ha) as (_ & _ & Hta), (bid_ok_sizes _ Hb) as (_ & _ & Htb).
  rewrite !IsNil_true, !complete_sizes in *. destruct a as [ha [ta ha']], b as [hb [tb hb']]. cbn [bid_Hash bid_PartSetHeader psh_Total psh_Hash] in *.
  destruct Ha' as [[= -> -> ->]|(Hl1 & Ht1 & Hl1')], Hb' as [[= -> -> ->]|(Hl2 & Ht2 & Hl2')]; [done| | |].
  - apply (f_equal length) in He. rewrite !length_app in He. simpl in He. lia.
  - apply (f_equal length) in He. rewrite !length_app in He. simpl in He. lia.
  - rewrite !enc_complete in He by (simpl; lia). cbn [psh_Total psh_Hash] in He. apply app_inj_1 in He as [-> [= -> ->]]; [done|lia].
Qed.

(** ** What is read *)
Ltac the_case := cbv beta iota delta [CanonicalPartSetHeader_cases CanonicalBlockID_cases CanonicalVote_cases]; apply f_equal; reflexivity.
Lemma PartSetHeader_reads m : len (psh_Hash m) <= 32 -> 0 <= psh_Total m <= 101 -> CanonicalPartSetHeader_Unmarshal empty_PartSetHeader (enc_PartSetHeader m) = Ok m.
Proof.
  intros Hh Ht. destruct (PartSetHeader_writes m Hh Ht) as (_ & Hl & Hs). apply unmarshal_enc. intros d Hd Hat. unfold enc_PartSetHeader in Hat. destruct m as [total hash]. cbn [psh_Total psh_Hash] in *.
  eapply (decodes_varint _ _ _ _ 1); [exact Hat|lia|done|done|the_case|lia|intros; apply uint32_small; lia|reflexivity|by intros ->|]. clear Hat. intros Hat. rewrite <- (app_nil_r (enc_bytes 18 hash)) in Hat.
  eapply (decodes_bytes _ _ _ _ 2); [exact Hat|lia|done|done|lia|the_case|by left|reflexivity|by intros ->|]. apply decodes_end.
Qed.
Lemma BlockID_reads b : bid_ok b -> CanonicalBlockID_Unmarshal empty_BlockID (enc_BlockID b) = Ok b.
Proof.
  intros Hok. destruct (BlockID_writes b Hok) as (_ & Hl & Hs). destruct (bid_ok_sizes b Hok) as (_ & H2 & H3). apply unmarshal_enc. intros d Hd Hat. unfold enc_BlockID in Hat. destruct b as [hash psh]. cbn [bid_Hash bid_PartSetHeader] in *.
  eapply (decodes_bytes _ _ _ _ 1); [exact Hat|lia|done|done|lia|the_case|by left|reflexivity|by intros ->|]. clear Hat. intros Hat. rewrite <- (app_nil_r (enc_always 18 _)) in Hat.
  eapply (decodes_always _ _ _ _ 2); [exact Hat|lia|done|done|lia|the_case|by left| |apply decodes_end].
  cbn [bid_PartSetHeader empty_BlockID]. by rewrite PartSetHeader_reads.
Qed.

Section Time.
Context `{ST : StdTime} `{STL : !StdTimeLaws}.
(** Canonical votes whose fields are in the ranges of their types and that have a time. *)
Record cv_ok (m : CanonicalVote) (t : bytes) : Prop := {
  cv_type : 0 <= cv_Type m < 2 ^ 31;
  cv_height : - 2 ^ 63 <= cv_Height m < 2 ^ 63;
  cv_round : - 2 ^ 63 <= cv_Round m < 2 ^ 63;
  cv_block : forall b, cv_BlockID m = Some b -> bid_ok b;
  cv_time : StdTimeMarshal (cv_Timestamp m) = Some t;
  cv_chain : len (cv_ChainID m) < 2 ^ 62
}.
Definition enc_block (b : option BlockID) : bytes := match b with Some b => enc_always 34 (enc_BlockID b) | None => [] end.
Definition enc_CanonicalVote (m : CanonicalVote) (t : bytes) : bytes :=
  enc_varint 8 (cv_Type m) ++ enc_fixed64 17 (cv_Height m) ++ enc_fixed64 25 (cv_Round m) ++ enc_block (cv_BlockID m) ++ enc_always 42 t ++ enc_bytes 50 (cv_ChainID m).

Lemma CanonicalVote_writes m t : cv_ok m t ->
  writes (CanonicalVote_fields m) (enc_CanonicalVote m t) /\ len (enc_CanonicalVote m t) = CanonicalVote_Size m /\ 0 <= CanonicalVote_Size m < 2 ^ 63 - 8.
Proof.
  intros [Hty Hh Hr Hb Ht Hc]. pose proof (std_time_size _ _ Ht) as Hts. pose proof (len_nonneg t). pose proof (len_nonneg (cv_ChainID m)).
  assert (Hu : uint64 (cv_Type m) = cv_Type m) by (apply uint64_small; lia).
  assert (Hbl : len (enc_block (cv_BlockID m)) = (match cv_BlockID m with Some b => let l := CanonicalBlockID_Size b in 1 + l + sov l | None => 0 end) /\ 0 <= len (enc_block (cv_BlockID m)) <= 74).
  { destruct (cv_BlockID m) as [b|]; [|done]. destruct (BlockID_writes b (Hb b eq_refl)) as (_ & Hl & Hs). cbn [enc_block]. rewrite len_enc_always by lia. rewrite Hl, sov_small by lia. lia. }
  destruct Hbl as [Hbl Hbs]. cbv zeta in Hbl. split_and!.
  - unfold enc_CanonicalVote. rewrite !app_assoc. unfold CanonicalVote_fields. rewrite Hu. apply writes_bind; [apply writes_field_bytes; lia|].
    rewrite Ht. rewrite <- !app_assoc. change (writes (fun w => w ← field_always 42 t w; w ← match cv_BlockID m with Some b => put_message (to_sized_buffer (CanonicalBlockID_fields b)) 34 w | None => Some w end; w ← field_fixed64 25 (cv_Round m) w; w ← field_fixed64 17 (cv_Height m) w; field_varint 8 (cv_Type m) w) (enc_varint 8 (cv_Type m) ++ enc_fixed64 17 (cv_Height m) ++ enc_fixed64 25 (cv_Round m) ++ enc_block (cv_BlockID m) ++ enc_always 42 t)).
    rewrite !app_assoc. repeat apply writes_bind; [apply writes_field_always; lia| |apply writes_field_fixed64|apply writes_field_fixed64|apply writes_field_varint; lia].
    destruct (cv_BlockID m) as [b|]; [|apply writes_nil]. destruct (BlockID_writes b (Hb b eq_refl)) as (Hw & Hl & Hs). apply writes_message; [lia|done].
  - unfold enc_CanonicalVote, CanonicalVote_Size, SizeOfStdTime. rewrite Ht, Hu. cbv zeta. rewrite !len_app, len_enc_varint, !len_enc_fixed64, len_enc_always, len_enc_bytes, Hbl by lia. cbv zeta. lia.
  - unfold CanonicalVote_Size, SizeOfStdTime. rewrite Ht, Hu. cbv zeta. rewrite <- Hbl. pose proof (size_varint_nonneg (cv_Type m)). pose proof (size_bytes_bound (cv_ChainID m)). pose proof (sov_pos (len t)).
    unfold size_fixed64. repeat case_bool_decide; lia.
  - unfold CanonicalVote_Size, SizeOfStdTime. rewrite Ht, Hu. cbv zeta. rewrite <- Hbl. rewrite (sov_small (len t)) by lia. unfold size_varint, size_fixed64, size_bytes.
    pose proof (sov_le (cv_Type m)). pose proof (sov_le (len (cv_ChainID m))). repeat case_bool_decide; lia.
Qed.
Lemma CanonicalVote_reads m t : cv_ok m t -> CanonicalVote_Unmarshal (enc_CanonicalVote m t) = Ok m.
Proof.
  intros Hok. destruct (CanonicalVote_writes m t Hok) as (_ & Hl & Hs). destruct Hok as [Hty Hh Hr Hb Ht Hc]. apply unmarshal_enc. intros d Hd Hat. unfold enc_CanonicalVote in Hat.
  assert (Hd63 : len d < 2 ^ 63 - 8) by lia. clear Hd Hl Hs. destruct m as [ty h r b ts chain]. cbn [cv_Type cv_Height cv_Round cv_BlockID cv_Timestamp cv_ChainID] in *.
  eapply (decodes_varint _ _ _ _ 1); [exact Hat|lia|done|done|the_case|lia|intros; unfold int32; rewrite Z.mod_small; lia|reflexivity|by intros ->|]. clear Hat. intros Hat.
  eapply (decodes_fixed64 _ _ _ _ 2); [exact Hat|lia|done|done|lia|the_case|lia|reflexivity|by intros ->|]. clear Hat. intros Hat.
  eapply (decodes_fixed64 _ _ _ _ 3); [exact Hat|lia|done|done|lia|the_case|lia|reflexivity|by intros ->|]. clear Hat. intros Hat.
  set (m := mkCanonicalVote ty h r b 0 []).
  assert (Hlast : forall i, at_ d i (enc_always 42 t ++ enc_bytes 50 chain) -> decodes CanonicalVote_cases d i m (Ok (mkCanonicalVote ty h r b ts chain))).
  { clear Hat. intros i Hat. eapply (decodes_always _ _ _ _ 5); [exact Hat|lia|done|done|lia|the_case|by left| |].
    { cbv beta. rewrite (std_time_roundtrip _ _ Ht). reflexivity. }
    clear Hat. intros Hat. rewrite <- (app_nil_r (enc_bytes 50 chain)) in Hat.
    eapply (decodes_bytes _ _ _ _ 6); [exact Hat|lia|done|done|lia|the_case|by right|reflexivity|by intros ->|apply decodes_end]. }
  destruct b as [b|]; [|by apply Hlast]. cbn [enc_block] in Hat.
  eapply (decodes_always _ _ _ _ 4); [exact Hat|lia|done|done|lia|the_case|by left| |by apply Hlast].
  cbv beta. cbn [cv_BlockID set_Type set_Height set_Round empty_CanonicalVote default from_option]. rewrite BlockID_reads by (by apply Hb). reflexivity.
Qed.

(** The bytes of a canonical vote, and that they determine it. *)
Lemma MarshalDelimited_spec m t : cv_ok m t -> MarshalDelimited m = Some (varint (len (enc_CanonicalVote m t)) ++ enc_CanonicalVote m t).
Proof.
  intros Hok. destruct (CanonicalVote_writes m t Hok) as (Hw & Hl & _). unfold MarshalDelimited. cbv zeta. rewrite (marshal_spec _ _ (enc_CanonicalVote m t)) by done.
  cbn [mbind option_bind]. by rewrite PutUvarint_varint, Hl.
Qed.
Lemma delimited_inj a b : len a < 2 ^ 64 -> len b < 2 ^ 64 -> varint (len a) ++ a = varint (len b) ++ b -> a = b.
Proof.
  intros Ha Hb He. set (d := varint (len a) ++ a). pose proof (len_nonneg a). pose proof (len_nonneg b).
  assert (H1 : read_varint uint64 d 0 = Ok (len a, 0 + len (varint (len a)))) by (eapply read_varint_spec; [apply (at_start d)|lia|intros; apply uint64_small; lia]).
  assert (H2 : read_varint uint64 d 0 = Ok (len b, 0 + len (varint (len b)))) by (unfold d; rewrite He; eapply read_varint_spec; [apply at_start|lia|intros; apply uint64_small; lia]).
  rewrite H1 in H2. injection H2 as Hl _. rewrite Hl in He. by apply app_inv_head in He.
Qed.
Lemma MarshalDelimited_inj m1 t1 m2 t2 : cv_ok m1 t1 -> cv_ok m2 t2 -> MarshalDelimited m1 = MarshalDelimited m2 -> m1 = m2.
Proof.
  intros H1 H2. rewrite (MarshalDelimited_spec _ _ H1), (MarshalDelimited_spec _ _ H2). intros [= He]. destruct (CanonicalVote_writes _ _ H1) as (_ & Hl1 & ?), (CanonicalVote_writes _ _ H2) as (_ & Hl2 & ?).
  apply delimited_inj in He; [|lia|lia]. pose proof (CanonicalVote_reads _ _ H1) as Hr. rewrite He, (CanonicalVote_reads _ _ H2) in Hr. by injection Hr.
Qed.

(** ** Votes *)
Record signable (chainID : bytes) (v : Vote) : Prop := {
  sg_type : 0 <= vt_Type v < 2 ^ 31;
  sg_height : - 2 ^ 63 <= vt_Height v < 2 ^ 63;
  sg_round : - 2 ^ 31 <= vt_Round v < 2 ^ 31;
  sg_block : bid_ok (vt_BlockID v);
  sg_time : is_Some (StdTimeMarshal (vt_Timestamp v));
  sg_chain : len chainID < 2 ^ 62
}.
Lemma CanonicalizeVote_spec chainID v : signable chainID v -> exists m t, CanonicalizeVote chainID v = Some m /\ cv_ok m t /\
  m = mkCanonicalVote (vt_Type v) (vt_Height v) (vt_Round v) (if bid_IsNil (vt_BlockID v) then None else Some (vt_BlockID v)) (vt_Timestamp v) chainID.
Proof.
  intros [Hty Hh Hr [Hb Hb0] [t Ht] Hc]. unfold CanonicalizeVote, CanonicalizeBlockID. rewrite Hb. cbn [mbind option_bind]. eexists _, t. split; [done|]. split; [|done].
  split; simpl; try lia; [|done]. intros b. destruct (bid_IsNil _); [done|]. by intros [= <-].
Qed.
Lemma VoteSignBytes_total chainID v : signable chainID v -> is_Some (VoteSignBytes chainID v).
Proof.
  intros Hs. destruct (CanonicalizeVote_spec chainID v Hs) as (m & t & Hm & Hok & _). unfold VoteSignBytes. rewrite Hm. cbn [mbind option_bind]. rewrite (MarshalDelimited_spec _ _ Hok). done.
Qed.

Lemma signable_inj chainID v chainID' v' : signable chainID v -> signable chainID' v' -> VoteSignBytes chainID v = VoteSignBytes chainID' v' ->
  chainID = chainID' /\ vt_Type v = vt_Type v' /\ vt_Height v = vt_Height v' /\ vt_Round v = vt_Round v' /\ vt_BlockID v = vt_BlockID v' /\ vt_Timestamp v = vt_Timestamp v'.
Proof.
  intros Hs Hs'. destruct (CanonicalizeVote_spec _ _ Hs) as (m & t & Hm & Hok & Heq), (CanonicalizeVote_spec _ _ Hs') as (m' & t' & Hm' & Hok' & Heq').
  unfold VoteSignBytes. rewrite Hm, Hm'. cbn [mbind option_bind]. intros He%(MarshalDelimited_inj _ _ _ _ Hok Hok'). subst m m'. injection He as -> -> -> Hb -> ->. split_and!; try done.
  destruct (bid_IsNil (vt_BlockID v)) eqn:H1, (bid_IsNil (vt_BlockID v')) eqn:H2; try done; [|by injection Hb]. apply IsNil_true in H1, H2. congruence.
Qed.

(** C15. The bytes that are signed determine the chain, the type, the height, the round, the block
    and the time of the vote: no signature is valid for two different votes. *)
Theorem VoteSignBytes_injective chainID v chainID' v' : signable chainID v -> signable chainID' v' ->
  is_Some (VoteSignBytes chainID v) /\ (VoteSignBytes chainID v = VoteSignBytes chainID' v' ->
    chainID = chainID' /\ vt_Type v = vt_Type v' /\ vt_Height v = vt_Height v' /\ vt_Round v = vt_Round v' /\ vt_BlockID v = vt_BlockID v' /\ vt_Timestamp v = vt_Timestamp v').
Proof. intros Hs Hs'. split; [by apply VoteSignBytes_total|by apply signable_inj]. Qed.
End Time.
