(* ===== verification/PartSet.v ===== *)
(** Part sets of [sei-tendermint/types/part_set.go]: a block travels in parts, each with a
    Merkle proof for the root in the header of the set.

    A part set is a pointer, nil is [None]; so are the parts that are missing.  The locks,
    texts and JSON are left out.  A [bytes.Reader] is the bytes it has left. *)
From stdpp Require Import base gmap list.
From Stdlib Require Import ZArith Lia.
From S2P Require Import Prelude Proto Valset BitArray SignBytes Merkle.
Local Open Scope Z_scope.

Record Part := mkPart { pt_Index : Z; pt_Bytes : bytes; pt_Proof : MerkleProof }.
Record PartSet := mkPartSet {
  ps_total : Z; ps_hash : bytes; ps_parts : list (option Part); ps_partsBitArray : option BitArray; ps_count : Z; ps_byteSize : Z }.
Inductive PartInvalid := EPartTooBig (size : Z) | EWrongProof (e : ProofInvalid) | EProofIndex (index proof_index : Z).
Inductive PartSetError := ErrPartSetUnexpectedIndex | ErrPartSetInvalidProof.
Definition BlockPartSizeBytes : Z := 1048576.

Definition part_ValidateBasic (part : Part) : option PartInvalid :=
  if bool_decide (BlockPartSizeBytes < len (pt_Bytes part)) then Some (EPartTooBig (len (pt_Bytes part)))
  else
    match proof_ValidateBasic (pt_Proof part) with
    | Some e => Some (EWrongProof e)
    | None => if bool_decide (pt_Index part <> pr_Index (pt_Proof part)) then Some (EProofIndex (pt_Index part) (pr_Index (pt_Proof part))) else None
    end.

(** [data[low:high]] *)
Definition slice (data : bytes) (low high : Z) : option bytes :=
  if bool_decide (0 <= low <= high) && bool_decide (high <= len data) then Some (take (Z.to_nat (high - low)) (drop (Z.to_nat low) data)) else None.

Section PartSets.
Context (sha256 : bytes -> bytes).

(** The bytes of the parts from [i] on, with the bits that are set for them. *)
Fixpoint split_parts (data : bytes) (partSize : Z) (i : Z) (todo : nat) (bits : option BitArray) : option (list bytes * option BitArray) :=
  match todo with
  | O => Some ([], bits)
  | S todo =>
      b ← slice data (uint32 (i * partSize)) (len data `min` uint32 (uint32 (i + 1) * partSize));
      '(bits, _) ← SetIndex bits i true;
      '(rest, bits) ← split_parts data partSize (i + 1) todo bits;
      Some (b :: rest, bits)
  end.
Fixpoint attach_proofs (i : Z) (partsBytes : list bytes) (proofs : list MerkleProof) : option (list (option Part)) :=
  match partsBytes, proofs with
  | [], _ => Some []
  | b :: partsBytes, proof :: proofs => parts ← attach_proofs (i + 1) partsBytes proofs; Some (Some (mkPart i b proof) :: parts)
  | _ :: _, [] => None
  end.
Definition NewPartSetFromData (data : bytes) (partSize : Z) : option PartSet :=
  if bool_decide (partSize = 0) then None
  else
    let total := uint32 (uint32 (uint32 (len data) + partSize) - 1) / partSize in
    '(partsBytes, bits) ← split_parts data partSize 0 (Z.to_nat total) (NewBitArray total);
    '(root, proofs) ← ProofsFromByteSlices sha256 partsBytes;
    parts ← attach_proofs 0 partsBytes proofs;
    Some (mkPartSet total root parts bits total (len data)).

Definition NewPartSetFromHeader (header : PartSetHeader) : PartSet :=
  if bool_decide (MaxBlockPartsCount < psh_Total header) then mkPartSet 1 (psh_Hash header) [None] (NewBitArray 1) 0 0
  else mkPartSet (psh_Total header) (psh_Hash header) (replicate (Z.to_nat (psh_Total header)) None) (NewBitArray (psh_Total header)) 0 0.

Definition ps_Header (ps : option PartSet) : PartSetHeader := match ps with Some ps => mkPartSetHeader (ps_total ps) (ps_hash ps) | None => mkPartSetHeader 0 [] end.
Definition HasHeader (ps : option PartSet) (header : PartSetHeader) : bool := match ps with Some _ => psh_Equals (ps_Header ps) header | None => false end.
Definition ps_BitArray (ps : PartSet) : option BitArray := ba_Copy (ps_partsBitArray ps).
Definition ps_Hash (ps : option PartSet) : option bytes := match ps with Some ps => Some (ps_hash ps) | None => HashFromByteSlices sha256 [] end.
Definition HashesTo (ps : option PartSet) (hash : bytes) : bool := match ps with Some ps => bool_decide (ps_hash ps = hash) | None => false end.
Definition ps_Count (ps : option PartSet) : Z := match ps with Some ps => ps_count ps | None => 0 end.
Definition ByteSize (ps : option PartSet) : Z := match ps with Some ps => ps_byteSize ps | None => 0 end.
Definition ps_Total (ps : option PartSet) : Z := match ps with Some ps => ps_total ps | None => 0 end.

(** The set, whether the part was added, and the error. *)
Definition AddPart (ps : option PartSet) (part : Part) : option (option PartSet * bool * option PartSetError) :=
  match ps with
  | None => Some (None, false, None)
  | Some ps =>
      if bool_decide (ps_total ps <= pt_Index part) then Some (Some ps, false, Some ErrPartSetUnexpectedIndex)
      else
        existing ← ps_parts ps !! Z.to_nat (pt_Index part);
        match existing with
        | Some _ => Some (Some ps, false, None)
        | None =>
            hash ← ps_Hash (Some ps);
            err ← proof_Verify sha256 (pt_Proof part) hash (pt_Bytes part);
            match err with
            | Some _ => Some (Some ps, false, Some ErrPartSetInvalidProof)
            | None =>
                '(bits, _) ← SetIndex (ps_partsBitArray ps) (pt_Index part) true;
                Some (Some (mkPartSet (ps_total ps) (ps_hash ps) (<[Z.to_nat (pt_Index part) := Some part]> (ps_parts ps)) bits
                        (uint32 (ps_count ps + 1)) (int64 (ps_byteSize ps + len (pt_Bytes part)))), true, None)
            end
        end
  end.
Definition GetPart (ps : PartSet) (index : Z) : option (option Part) := if bool_decide (index < 0) then None else ps_parts ps !! Z.to_nat index.
Definition IsComplete (ps : option PartSet) : bool := match ps with Some ps => bool_decide (ps_count ps = ps_total ps) | None => false end.

(** ** Reading *)
Record PartSetReader := mkReader { rd_i : nat; rd_parts : list (option Part); rd_reader : bytes }.
Definition NewPartSetReader (parts : list (option Part)) : option PartSetReader :=
  first ← parts !! 0%nat; part ← first; Some (mkReader 0 parts (pt_Bytes part)).
Definition GetReader (ps : option PartSet) : option PartSetReader :=
  match ps with Some s => if IsComplete ps then NewPartSetReader (ps_parts s) else None | None => None end.

(** A read into [n] bytes: the bytes read and whether the end was met. *)
Fixpoint psr_Read (fuel : nat) (psr : PartSetReader) (n : nat) : option (PartSetReader * (bytes * bool)) :=
  match fuel with
  | O => None
  | S fuel =>
      let readerLen := length (rd_reader psr) in
      if bool_decide (n <= readerLen)%nat then
        match rd_reader psr with
        | [] => Some (psr, ([], true))
        | b => Some (mkReader (rd_i psr) (rd_parts psr) (drop n b), (take n b, false))
        end
      else if bool_decide (0 < readerLen)%nat then
        '(psr, (b1, eof)) ← psr_Read fuel psr readerLen;
        if eof : bool then Some (psr, (b1, eof))
        else '(psr, (b2, eof)) ← psr_Read fuel psr (n - readerLen); Some (psr, (b1 ++ b2, eof))
      else
        let i := S (rd_i psr) in
        if bool_decide (length (rd_parts psr) <= i)%nat then Some (mkReader i (rd_parts psr) (rd_reader psr), ([], true))
        else
          next ← rd_parts psr !! i; part ← next;
          psr_Read fuel (mkReader i (rd_parts psr) (pt_Bytes part)) n
  end.
Definition Read (psr : PartSetReader) (n : nat) : option (PartSetReader * (bytes * bool)) := psr_Read (2 * length (rd_parts psr) + 2) psr n.
(** Reads into buffers of the given lengths until the end is met, as [io.ReadAll] does with
    buffers that are never empty. *)
Fixpoint read_chunks (psr : PartSetReader) (sizes : list nat) : option (bytes * bool) :=
  match sizes with
  | [] => Some ([], false)
  | n :: sizes =>
      '(psr, (b, eof)) ← Read psr n;
      if eof : bool then Some (b, true) else '(rest, eof) ← read_chunks psr sizes; Some (b ++ rest, eof)
  end.
End PartSets.
