(* ===== verification/PartSetSpec.v ===== *)
(** Part sets: the parts of a block, added in any order, give the block back, and what is
    added by anyone is the block, as far as proofs have the number of parts; the code does not
    check that they have. *)
From stdpp Require Import base gmap list.
From Stdlib Require Import ZArith Lia.
From S2P Require Import Prelude Proto ProtoSpec Valset BitArray BitArraySpec SignBytes Merkle MerkleSpec PartSet.
Local Open Scope Z_scope.

(** ** The parts of data *)
Definition chunk (data : bytes) (p i : nat) : bytes := take p (drop (i * p) data).
Definition chunks (data : bytes) (p n : nat) : list bytes := chunk data p <$> seq 0 n.
(** The number of parts, and that no 32-bit computation wraps. *)
Definition parts_of (data : bytes) (p n : nat) : Prop :=
  (0 < p)%nat /\ (0 < n)%nat /\ ((n - 1) * p < length data <= n * p)%nat /\ Z.of_nat (length data) + Z.of_nat p <= 2 ^ 32.

Lemma concat_chunks data p n i : (length data <= (i + n) * p)%nat -> concat (chunk data p <$> seq i n) = drop (i * p) data.
Proof.
  revert i. induction n as [|n IH]; intros i Hl; simpl; [by rewrite drop_ge by (rewrite Nat.add_0_r in Hl; lia)|].
  rewrite IH by lia. unfold chunk. rewrite <- (take_drop p (drop (i * p) data)) at 2. rewrite drop_drop. do 3 f_equal. lia.
Qed.
Lemma slice_chunk data p n i : parts_of data p n -> (i < n)%nat ->
  slice data (uint32 (Z.of_nat i * Z.of_nat p)) (len data `min` uint32 (uint32 (Z.of_nat i + 1) * Z.of_nat p)) = Some (chunk data p i).
Proof.
  intros (Hp & Hn & Hd & Hb) Hi. unfold len, slice, uint32. assert ((i * p <= (n - 1) * p)%nat) by (apply Nat.mul_le_mono_r; lia).
  assert (Hm : Z.of_nat ((i + 1) * p) < 2 ^ 32) by (assert ((i + 1) * p <= (n - 1) * p + p)%nat by nia; lia).
  rewrite (Z.mod_small (Z.of_nat i + 1)) by nia. rewrite <- Nat2Z.inj_mul, (Z.mod_small (Z.of_nat (i * p))) by lia.
  replace ((Z.of_nat i + 1) * Z.of_nat p) with (Z.of_nat ((i + 1) * p)) by lia. rewrite Z.mod_small by lia.
  rewrite bool_decide_eq_true_2 by lia. unfold len. rewrite bool_decide_eq_true_2 by lia. simpl. f_equal. unfold chunk. rewrite Nat2Z.id.
  destruct (decide ((i + 1) * p <= length data)%nat).
  - f_equal. lia.
  - rewrite !take_ge; [done|rewrite length_drop; lia..].
Qed.
Lemma chunks_lookup data p n i : (i < n)%nat -> chunks data p n !! i = Some (chunk data p i).
Proof. intros Hi. unfold chunks. rewrite list_lookup_fmap, lookup_seq_lt by done. done. Qed.
Lemma length_chunks data p n : length (chunks data p n) = n.
Proof. unfold chunks. by rewrite length_fmap, length_seq. Qed.

(** ** Bits *)
(** The bits of a set of [n] parts of which those in [P] are there. *)
Definition bits_ok (bits : option BitArray) (n : nat) (P : nat -> bool) : Prop :=
  exists ba, bits = Some ba /\ ba_ok ba /\ Bits ba = Z.of_nat n /\ forall i, (i < n)%nat -> bit ba (Z.of_nat i) = P i.
Lemma NewBitArray_bits n : (0 < n)%nat -> bits_ok (NewBitArray (Z.of_nat n)) n (fun _ => false).
Proof.
  intros Hn. unfold NewBitArray. rewrite bool_decide_eq_false_2 by lia. exists (reset (Z.of_nat n)). destruct (reset_ok (Z.of_nat n)) as [Hr Hb]; [lia|]. split_and!; auto.
Qed.
Lemma SetIndex_bits bits n P i : bits_ok bits n P -> (i < n)%nat ->
  exists bits' ok, SetIndex bits (Z.of_nat i) true = Some (bits', ok) /\ bits_ok bits' n (fun j => bool_decide (j = i) || P j).
Proof.
  intros (ba & -> & Hba & Hn & Hb) Hi. destruct (setIndex_spec ba (Z.of_nat i) true Hba) as (c & Hc & Hok & Hcb & _ & Hbit).
  unfold SetIndex. rewrite Hc. eexists _, _. split; [done|]. exists c. split_and!; [done|done|congruence|]. intros j Hj. rewrite Hbit.
  destruct (decide (j = i)) as [->|Hne]; [rewrite decide_True by lia; by rewrite bool_decide_eq_true_2|]. rewrite decide_False by lia. rewrite bool_decide_eq_false_2 by done. auto.
Qed.

Lemma bits_ok_ext bits n P Q : (forall i, (i < n)%nat -> P i = Q i) -> bits_ok bits n P -> bits_ok bits n Q.
Proof. intros H (ba & -> & Hba & Hn & Hb). exists ba. split_and!; [done..|]. intros i Hi. rewrite <- H by done. auto. Qed.

Lemma split_parts_spec data p n todo i bits P : parts_of data p n -> (i + todo = n)%nat -> bits_ok bits n P ->
  exists bits', split_parts data (Z.of_nat p) (Z.of_nat i) todo bits = Some (chunk data p <$> seq i todo, bits') /\
    bits_ok bits' n (fun j => bool_decide (i <= j)%nat || P j).
Proof.
  intros Hd. revert i bits P. induction todo as [|todo IH]; intros i bits P Hi Hb.
  - exists bits. split; [done|]. eapply bits_ok_ext, Hb. intros j Hj. simpl. by rewrite bool_decide_eq_false_2 by lia.
  - cbn [split_parts]. rewrite (slice_chunk data p n i Hd) by lia. cbn [mbind option_bind]. destruct (SetIndex_bits bits n P i Hb ltac:(lia)) as (b2 & ok & -> & Hb2). cbn [mbind option_bind].
    replace (Z.of_nat i + 1) with (Z.of_nat (S i)) by lia. destruct (IH (S i) b2 _ ltac:(lia) Hb2) as (b3 & -> & Hb3). exists b3. split; [done|].
    eapply bits_ok_ext, Hb3. intros j Hj. simpl. rewrite orb_assoc. f_equal. destruct (decide (j = i)) as [->|]; [by rewrite (bool_decide_eq_true_2 (i = i)), orb_true_r, (bool_decide_eq_true_2 (i <= i)%nat) by done|].
    rewrite (bool_decide_eq_false_2 (j = i)), orb_false_r by done. apply bool_decide_ext. lia.
Qed.

(** ** Part sets *)
Definition there (parts : list (option Part)) (i : nat) : bool := match parts !! i with Some (Some _) => true | _ => false end.
Definition present (parts : list (option Part)) : list Part := omap id parts.
Definition size_of (parts : list Part) : Z := list_sum (fun p => len (pt_Bytes p)) parts.

Lemma present_insert parts i part : parts !! i = Some None -> present (<[i := Some part]> parts) ≡ₚ part :: present parts.
Proof.
  intros H. rewrite insert_take_drop by (by eapply lookup_lt_Some). rewrite <- (take_drop_middle _ _ _ H) at 3. unfold present. rewrite !omap_app. simpl. by rewrite Permutation_middle.
Qed.
Lemma present_le parts : (length (present parts) <= length parts)%nat.
Proof. unfold present. induction parts as [|[p|] parts IH]; [done|csimpl; cbn [id]; csimpl; lia..]. Qed.
Lemma present_lt parts i : parts !! i = Some None -> (length (present parts) < length parts)%nat.
Proof.
  intros H. pose proof (present_le (take i parts)) as H1. pose proof (present_le (drop (S i) parts)) as H2. unfold present in *.
  rewrite <- (take_drop_middle _ _ _ H), omap_app, !length_app. change (omap id (None :: drop (S i) parts)) with (omap id (drop (S i) parts)). cbn [length]. lia.
Qed.
Lemma present_all parts : length (present parts) = length parts -> parts = Some <$> present parts.
Proof.
  unfold present. induction parts as [|[p|] parts IH]; intros H; [done| |].
  - change (omap id (Some p :: parts)) with (p :: omap id parts) in *. cbn [length] in H. rewrite fmap_cons, <- IH by lia. done.
  - change (omap id (None :: parts)) with (omap id parts) in *. pose proof (present_le parts) as Hle. unfold present in Hle. cbn [length] in H. lia.
Qed.
Lemma present_full parts : (forall i, (i < length parts)%nat -> there parts i = true) -> length (present parts) = length parts.
Proof.
  unfold present. induction parts as [|[p|] parts IH]; intros H; [done| |by specialize (H 0%nat ltac:(simpl; lia))].
  change (omap id (Some p :: parts)) with (p :: omap id parts). cbn [length]. f_equal. apply IH. intros i Hi. apply (H (S i)). simpl. lia.
Qed.
Lemma there_insert parts i part j : (i < length parts)%nat -> there (<[i := Some part]> parts) j = bool_decide (j = i) || there parts j.
Proof.
  intros Hi. unfold there. destruct (decide (j = i)) as [->|Hne]; [by rewrite list_lookup_insert_eq, bool_decide_eq_true_2|]. by rewrite list_lookup_insert_ne, bool_decide_eq_false_2.
Qed.

Section Sets.
Context (sha256 : bytes -> bytes) {SH : Sha256 sha256} (n : nat) (hash : bytes).
Hypothesis Hn : (0 < n)%nat /\ Z.of_nat n <= MaxBlockPartsCount.
Implicit Types (ps : PartSet) (part : Part).

(** A part as it comes from the wire: the index is an unsigned and the total a signed integer,
    and the part has passed [ValidateBasic]. *)
Definition wire_part part : Prop := 0 <= pt_Index part /\ pr_Total (pt_Proof part) < 2 ^ 63 /\ part_ValidateBasic part = None.
Definition verified part : Prop := proof_Verify sha256 (pt_Proof part) hash (pt_Bytes part) = Some None.
Record ps_ok (given : list Part) ps : Prop := {
  ok_total : ps_total ps = Z.of_nat n;
  ok_hash : ps_hash ps = hash;
  ok_length : length (ps_parts ps) = n;
  ok_bits : bits_ok (ps_partsBitArray ps) n (there (ps_parts ps));
  ok_count : ps_count ps = Z.of_nat (length (present (ps_parts ps)));
  ok_size : ps_byteSize ps = size_of (present (ps_parts ps));
  ok_stored : forall i part, ps_parts ps !! i = Some (Some part) -> part ∈ given /\ pt_Index part = Z.of_nat i /\ verified part }.

Lemma NewPartSetFromHeader_ok : ps_ok [] (NewPartSetFromHeader (mkPartSetHeader (Z.of_nat n) hash)).
Proof.
  unfold NewPartSetFromHeader. cbn [psh_Total psh_Hash]. rewrite bool_decide_eq_false_2 by lia.
  assert (Hp : present (replicate n None) = []) by (clear; induction n; done).
  split; cbn [ps_total ps_hash ps_parts ps_partsBitArray ps_count ps_byteSize]; rewrite ?Nat2Z.id; [done|done|apply length_replicate| |by rewrite Hp|by rewrite Hp|].
  - eapply bits_ok_ext, NewBitArray_bits; [|lia]. intros i Hi. unfold there. by rewrite lookup_replicate_2.
  - intros i part Hi. apply lookup_replicate in Hi as [? _]. done.
Qed.

Lemma wire_size part : wire_part part -> 0 <= len (pt_Bytes part) <= BlockPartSizeBytes.
Proof. intros (_ & _ & H). unfold part_ValidateBasic in H. case_bool_decide; [done|]. unfold len in *. lia. Qed.
Lemma size_bound parts : Forall wire_part parts -> 0 <= size_of parts <= Z.of_nat (length parts) * BlockPartSizeBytes.
Proof.
  intros H. rewrite Forall_forall in H. split; [apply list_sum_nonneg|apply list_sum_upper]; intros p Hp; apply wire_size; auto.
Qed.
Lemma stored_wire given ps : ps_ok given ps -> Forall wire_part given -> Forall wire_part (present (ps_parts ps)).
Proof.
  intros Hok Hg. rewrite Forall_forall in Hg |- *. intros part Hp. unfold present in Hp. apply list_elem_of_omap in Hp as ([q|] & Hq & Hid); [|done]. injection Hid as ->.
  apply list_elem_of_lookup in Hq as [i Hi]. apply Hg. by apply (ok_stored _ _ Hok i).
Qed.
Lemma ps_ok_given given ps part : ps_ok given ps -> ps_ok (part :: given) ps.
Proof. intros [? ? ? ? ? ? H]. split; try done. intros i q Hi. destruct (H _ _ Hi) as (? & ? & ?). split_and!; [by right|done|done]. Qed.

Lemma AddPart_spec given ps part : ps_ok given ps -> Forall wire_part given -> wire_part part ->
  exists ps' added err, AddPart sha256 (Some ps) part = Some (Some ps', added, err) /\ ps_ok (part :: given) ps' /\
    (forall i q, ps_parts ps !! i = Some (Some q) -> ps_parts ps' !! i = Some (Some q)) /\
    (pt_Index part < Z.of_nat n -> verified part -> there (ps_parts ps') (Z.to_nat (pt_Index part)) = true).
Proof.
  intros Hok Hg Hw. pose proof Hok as [Ht Hh Hl Hb Hc Hs Hst]. pose proof Hw as (Hi & Htot & Hv). unfold AddPart. rewrite Ht.
  case_bool_decide as Hlt; [eexists _, _, _; split; [done|]; split; [by apply ps_ok_given|]; split; [done|]; intros; lia|].
  destruct (lookup_lt_is_Some_2 (ps_parts ps) (Z.to_nat (pt_Index part))) as [[q|] Hq]; [lia|..]; rewrite Hq; cbn [mbind option_bind].
  - eexists _, _, _. split; [done|]. split; [by apply ps_ok_given|]. split; [done|]. intros _ _. unfold there. by rewrite Hq.
  - cbn [ps_Hash mbind option_bind]. rewrite Hh. destruct (Verify_total sha256 (pt_Proof part) hash (pt_Bytes part) Htot) as [err He]. rewrite He. cbn [mbind option_bind].
    destruct err as [e|]; [eexists _, _, _; split; [done|]; split; [by apply ps_ok_given|]; split; [done|]; unfold verified; congruence|].
    destruct (SetIndex_bits _ n _ (Z.to_nat (pt_Index part)) Hb ltac:(lia)) as (bits & ok & Hset & Hbits). rewrite Z2Nat.id in Hset by done. rewrite Hset. cbn [mbind option_bind].
    pose proof (present_lt _ _ Hq) as Hpl. pose proof (present_insert _ _ part Hq) as Hperm.
    assert (Hsz : 0 <= size_of (present (ps_parts ps)) + len (pt_Bytes part) < 2 ^ 63).
    { pose proof (size_bound _ (stored_wire _ _ Hok Hg)) as Hsb. pose proof (wire_size _ Hw). unfold MaxBlockPartsCount, BlockPartSizeBytes in *. change (104857600 / 1048576 + 1) with 101 in Hn. lia. }
    eexists _, _, _. split; [done|]. split; [|split].
    + split; cbn [ps_total ps_hash ps_parts ps_partsBitArray ps_count ps_byteSize]; [done|done|by rewrite length_insert| | | |].
      * eapply bits_ok_ext, Hbits. intros j Hj. by rewrite there_insert by lia.
      * rewrite Hperm, Hc. unfold uint32. unfold MaxBlockPartsCount in Hn. change (104857600 / 1048576 + 1) with 101 in Hn. rewrite Z.mod_small by lia. simpl. lia.
      * rewrite Hs, int64_small by lia. unfold size_of. rewrite Hperm. simpl. lia.
      * intros j q Hj. destruct (decide (j = Z.to_nat (pt_Index part))) as [->|Hne].
        -- rewrite list_lookup_insert_eq in Hj by lia. injection Hj as <-. split_and!; [by left|lia|done].
        -- rewrite list_lookup_insert_ne in Hj by done. destruct (Hst _ _ Hj) as (? & ? & ?). split_and!; [by right|done|done].
    + intros j q Hj. cbn [ps_parts]. rewrite list_lookup_insert_ne; [done|]. intros <-. congruence.
    + intros _ _. cbn [ps_parts]. rewrite there_insert by lia. by rewrite bool_decide_eq_true_2.
Qed.

(** Parts added one after the other. *)
Fixpoint add_parts (ps : option PartSet) (parts : list Part) : option (option PartSet) :=
  match parts with [] => Some ps | part :: parts => '(ps, _, _) ← AddPart sha256 ps part; add_parts ps parts end.
Lemma add_parts_spec given ps parts : ps_ok given ps -> Forall wire_part given -> Forall wire_part parts ->
  exists ps', add_parts (Some ps) parts = Some (Some ps') /\ ps_ok (reverse parts ++ given) ps' /\
    (forall i q, ps_parts ps !! i = Some (Some q) -> ps_parts ps' !! i = Some (Some q)) /\
    forall part, part ∈ parts -> pt_Index part < Z.of_nat n -> verified part -> there (ps_parts ps') (Z.to_nat (pt_Index part)) = true.
Proof.
  intros Hok Hg Hp. revert given ps Hok Hg. induction Hp as [|part parts Hw Hp IH]; intros given ps Hok Hg.
  - exists ps. split_and!; [done|done|done|]. intros part Hin. by apply elem_of_nil in Hin.
  - cbn [add_parts]. destruct (AddPart_spec given ps part Hok Hg Hw) as (ps1 & added & err & -> & Hok1 & Hm1 & Hin1). cbn [mbind option_bind].
    destruct (IH (part :: given) ps1 Hok1 ltac:(by constructor)) as (ps2 & -> & Hok2 & Hm2 & Hin2). exists ps2. rewrite reverse_cons, <- app_assoc. split_and!; [done|done|auto|].
    intros q [->|Hq]%elem_of_cons Hi Hv; [|auto]. specialize (Hin1 Hi Hv). unfold there in *. destruct (ps_parts ps1 !! _) as [[q1|]|] eqn:E1; [|done..]. by rewrite (Hm2 _ _ E1).
Qed.
End Sets.

(** ** Reading *)
Definition rest_of (psr : PartSetReader) (ps : list Part) : bytes := rd_reader psr ++ concat (pt_Bytes <$> drop (S (rd_i psr)) ps).
Lemma psr_Read_spec ps fuel psr m : rd_parts psr = Some <$> ps -> (0 < m)%nat -> (2 * (length ps - rd_i psr) + (match rd_reader psr with [] => 1 | _ => 2 end) <= fuel)%nat ->
  exists psr', psr_Read fuel psr m = Some (psr', (take m (rest_of psr ps), bool_decide (length (rest_of psr ps) < m)%nat)) /\
    rd_parts psr' = Some <$> ps /\ rest_of psr' ps = drop m (rest_of psr ps) /\ (rd_i psr <= rd_i psr')%nat.
Proof.
  revert psr m. induction fuel as [|fuel IH]; intros [i parts b] m Hp Hm Hf; cbn [rd_reader rd_parts rd_i] in *; [destruct b; lia|]. unfold rest_of. cbn [psr_Read rd_reader rd_parts rd_i].
  destruct (decide (m <= length b)%nat) as [Hle|Hgt].
  - rewrite bool_decide_eq_true_2 by done. destruct b as [|x b]; [simpl in Hle; lia|]. eexists. split; [rewrite take_app_le by done; by rewrite (bool_decide_eq_false_2 (length _ < m)%nat) by (rewrite length_app; lia)|].
    cbn [rd_parts rd_reader rd_i]. by rewrite drop_app_le by done.
  - rewrite bool_decide_eq_false_2 by done. destruct b as [|x b].
    + rewrite (bool_decide_eq_false_2 (0 < _)%nat) by (simpl; lia). rewrite Hp, length_fmap. destruct (decide (length ps <= S i)%nat) as [Hend|Hnext].
      * rewrite bool_decide_eq_true_2 by done. eexists. split; [rewrite drop_ge by done; simpl; by rewrite take_nil, bool_decide_eq_true_2|].
        cbn [rd_parts rd_reader rd_i]. rewrite (drop_ge ps (S i)), (drop_ge ps (S (S i))) by lia. cbn [fmap list_fmap concat app]. rewrite drop_nil. split_and!; [done|done|lia].
      * rewrite bool_decide_eq_false_2 by done. destruct (lookup_lt_is_Some_2 ps (S i) ltac:(lia)) as [part Hpart]. rewrite list_lookup_fmap, Hpart. cbn [fmap option_fmap option_map mbind option_bind].
        destruct (IH (mkReader (S i) (Some <$> ps) (pt_Bytes part)) m) as (psr' & -> & H1 & H2 & H3); [done|done|cbn [rd_i rd_reader]; destruct (pt_Bytes part); lia|].
        unfold rest_of in *. cbn [rd_reader rd_i] in *. exists psr'. rewrite (drop_S _ _ _ Hpart), fmap_cons. simpl. split_and!; [done|done|done|lia].
    + rewrite (bool_decide_eq_true_2 (0 < _)%nat) by (simpl; lia). set (c := x :: b) in *.
      assert (E1 : psr_Read fuel (mkReader i parts c) (length c) = Some (mkReader i parts [], (c, false))).
      { destruct fuel as [|fuel]; [lia|]. cbn [psr_Read rd_reader rd_i rd_parts]. rewrite bool_decide_eq_true_2 by done. 
        change (Some (mkReader i parts (drop (length c) c), (take (length c) c, false)) = Some (mkReader i parts [], (c, false))). by rewrite take_ge, drop_ge by done. }
      rewrite E1. cbn [mbind option_bind]. destruct (IH (mkReader i parts []) (m - length c)%nat) as (psr' & -> & H1 & H2 & H3); [done|lia|cbn [rd_i rd_reader]; lia|].
      unfold rest_of in *. cbn [rd_reader rd_i app mbind option_bind] in *. exists psr'. rewrite take_app_ge, drop_app_ge by lia. split_and!; [|done|done|done].
      do 3 f_equal. apply bool_decide_ext. rewrite length_app. lia.
Qed.

Definition total_size (sizes : list nat) : nat := foldr Nat.add 0%nat sizes.
Lemma read_chunks_spec ps psr sizes : rd_parts psr = Some <$> ps -> Forall (fun m => (0 < m)%nat) sizes ->
  read_chunks psr sizes = Some (take (total_size sizes) (rest_of psr ps), bool_decide (length (rest_of psr ps) < total_size sizes)%nat).
Proof.
  intros Hp Hs. revert psr Hp. induction Hs as [|m sizes Hm Hs IH]; intros psr Hp; [done|]. cbn [read_chunks total_size foldr]. unfold Read.
  destruct (psr_Read_spec ps (2 * length (rd_parts psr) + 2) psr m Hp Hm) as (psr' & -> & Hp' & Hr & _); [rewrite Hp, length_fmap; destruct (rd_reader psr); lia|]. cbn [mbind option_bind].
  case_bool_decide as Heof.
  - rewrite (bool_decide_eq_true_2 (_ < m + _)%nat) by lia. by rewrite !take_ge by lia.
  - rewrite (IH psr' Hp'). cbn [mbind option_bind]. fold (total_size sizes). rewrite Hr, <- take_take_drop. do 3 f_equal. apply bool_decide_ext. rewrite length_drop. lia.
Qed.
(** What any sequence of reads gets from a set. *)
Definition reads (ps : option PartSet) (data : bytes) : Prop :=
  exists psr, GetReader ps = Some psr /\ forall sizes, Forall (fun m => (0 < m)%nat) sizes ->
    read_chunks psr sizes = Some (take (total_size sizes) data, bool_decide (length data < total_size sizes)%nat).
Lemma complete_reads s ps data : ps_parts s = Some <$> ps -> ps <> [] -> IsComplete (Some s) = true -> concat (pt_Bytes <$> ps) = data -> reads (Some s) data.
Proof.
  intros Hp Hne Hc <-. destruct ps as [|part ps]; [done|]. unfold reads, GetReader. rewrite Hc. unfold NewPartSetReader. rewrite Hp. eexists. split; [done|].
  intros sizes Hs. by rewrite (read_chunks_spec (part :: ps)).
Qed.

(** ** The set of the parts of data *)
Lemma attach_proofs_spec i bs proofs : length proofs = length bs ->
  exists parts, attach_proofs i bs proofs = Some (Some <$> parts) /\ length parts = length bs /\
    forall j b proof, bs !! j = Some b -> proofs !! j = Some proof -> parts !! j = Some (mkPart (i + Z.of_nat j) b proof).
Proof.
  revert i proofs. induction bs as [|b bs IH]; intros i [|proof proofs] Hl; try done; [by exists []|]. injection Hl as Hl.
  destruct (IH (i + 1) proofs Hl) as (parts & Ha & Hlp & Hj). exists (mkPart i b proof :: parts). cbn [attach_proofs]. rewrite Ha. split_and!; [done|simpl; lia|].
  intros [|j] b' proof' Hb Hp; simpl in *; [injection Hb as ->; injection Hp as ->; do 2 f_equal; lia|]. rewrite (Hj _ _ _ Hb Hp). do 2 f_equal. lia.
Qed.
Lemma total_parts data p n : parts_of data p n -> uint32 (uint32 (uint32 (len data) + Z.of_nat p) - 1) / Z.of_nat p = Z.of_nat n.
Proof.
  intros (Hp & Hn & Hd & Hb). unfold uint32, len. rewrite (Z.mod_small (Z.of_nat (length data))) by lia. rewrite Zminus_mod_idemp_l, Z.mod_small by lia.
  symmetry. apply Z.div_unique with (r := Z.of_nat (length data) + Z.of_nat p - 1 - Z.of_nat n * Z.of_nat p); [left|]; nia.
Qed.

Section Data.
Context (sha256 : bytes -> bytes) {SH : Sha256 sha256} (data : bytes) (p n : nat).
Hypothesis Hparts : parts_of data p n.
Hypothesis Hsize : Z.of_nat p <= BlockPartSizeBytes /\ Z.of_nat n <= MaxBlockPartsCount.

(** The parts of the data, with their proofs. *)
Definition genuine (root : bytes) (parts : list Part) : Prop :=
  length parts = n /\ forall i part, parts !! i = Some part -> pt_Index part = Z.of_nat i /\ pt_Bytes part = chunk data p i /\
    pr_Total (pt_Proof part) = Z.of_nat n /\ wire_part part /\ verified sha256 root part.

Lemma NewPartSetFromData_spec : exists root parts bits, HashFromByteSlices sha256 (chunks data p n) = Some root /\ genuine root parts /\ bits_ok bits n (fun _ => true) /\
  NewPartSetFromData sha256 data (Z.of_nat p) = Some (mkPartSet (Z.of_nat n) root (Some <$> parts) bits (Z.of_nat n) (len data)).
Proof.
  pose proof Hparts as (Hp & Hn & Hd & Hb).
  assert (Hc : count (chunks data p n) = Z.of_nat n) by (unfold count; by rewrite length_chunks). unfold MaxBlockPartsCount in Hsize. change (104857600 / 1048576 + 1) with 101 in Hsize.
  destruct (ProofsFromByteSlices_spec sha256 (chunks data p n)) as (root & proofs & Hpf & Hr & Hl & Hall); [lia|]. rewrite length_chunks in Hl.
  destruct (attach_proofs_spec 0 (chunks data p n) proofs) as (parts & Ha & Hlp & Hj); [by rewrite length_chunks|]. rewrite length_chunks in Hlp.
  destruct (split_parts_spec data p n n 0 (NewBitArray (Z.of_nat n)) (fun _ => false) Hparts eq_refl (NewBitArray_bits n Hn)) as (bits & Hs & Hbits).
  exists root, parts, bits. split_and!; [done| | |].
  - split; [done|]. intros i part Hi. pose proof (lookup_lt_Some _ _ _ Hi) as Hin. rewrite Hlp in Hin. pose proof (chunks_lookup data p n i Hin) as Hci.
    destruct (Hall i _ Hci) as (proof & Hpi & Ht & Hix & Hv & Hver). rewrite (Hj _ _ _ Hci Hpi) in Hi. injection Hi as <-. cbn [pt_Index pt_Bytes pt_Proof]. rewrite Z.add_0_l.
    split_and!; [done|done|congruence| |done]. split; [cbn; lia|]. split; [cbn; lia|]. unfold part_ValidateBasic. cbn [pt_Index pt_Bytes pt_Proof].
    rewrite bool_decide_eq_false_2 by (unfold len, chunk; rewrite length_take; lia). rewrite Hv. by rewrite bool_decide_eq_false_2 by (rewrite Hix; intros N; by apply N).
  - eapply bits_ok_ext, Hbits. intros i Hi. cbn beta. by rewrite bool_decide_eq_true_2 by lia.
  - unfold NewPartSetFromData. rewrite bool_decide_eq_false_2 by lia. rewrite (total_parts data p n Hparts), Nat2Z.id. change (Z.of_nat 0) with 0 in Hs. rewrite Hs. cbn [mbind option_bind].
    fold (chunks data p n). rewrite Hpf. cbn [mbind option_bind]. by rewrite Ha.
Qed.

(** The parts that are all there and have the bytes of the data. *)
Lemma complete_data root given s : ps_ok sha256 n root given s -> IsComplete (Some s) = true ->
  exists parts, ps_parts s = Some <$> parts /\ length parts = n /\ (forall i part, parts !! i = Some part -> part ∈ given /\ pt_Index part = Z.of_nat i /\ verified sha256 root part) /\
    ((forall i part, parts !! i = Some part -> pt_Bytes part = chunk data p i) -> reads (Some s) data /\ ByteSize (Some s) = len data).
Proof.
  intros Hok Hc. pose proof Hc as Hc'. unfold IsComplete in Hc'. apply bool_decide_eq_true in Hc'. rewrite (ok_count _ _ _ _ _ Hok), (ok_total _ _ _ _ _ Hok) in Hc'.
  pose proof (present_all (ps_parts s)) as Hall. rewrite (ok_length _ _ _ _ _ Hok) in Hall. specialize (Hall ltac:(lia)). pose proof Hparts as (Hp & Hn & Hd & Hb).
  assert (Hl : length (present (ps_parts s)) = n) by lia.
  exists (present (ps_parts s)). split_and!; [done|done| |].
  - intros i part Hi. apply (ok_stored _ _ _ _ _ Hok i). rewrite Hall, list_lookup_fmap, Hi. done.
  - intros Hbytes. assert (Hcc : pt_Bytes <$> present (ps_parts s) = chunks data p n).
    { apply list_eq_same_length with (n := n); [by rewrite length_chunks|by rewrite length_fmap|]. intros i x y Hi Hx Hy. rewrite chunks_lookup in Hy by done.
      apply list_lookup_fmap_Some in Hx as (part & -> & Hx). rewrite (Hbytes _ _ Hx). congruence. }
    assert (Hcat : concat (pt_Bytes <$> present (ps_parts s)) = data) by (rewrite Hcc; unfold chunks; rewrite concat_chunks by lia; done).
    split; [eapply complete_reads; [done| |done|done]; intros E; rewrite E in Hl; simpl in Hl; lia|]. cbn [ByteSize]. rewrite (ok_size _ _ _ _ _ Hok). rewrite <- Hcat.
    unfold size_of, len. generalize (present (ps_parts s)). clear. intros l. induction l as [|q l IH]; [done|]. csimpl. rewrite length_app, IH. lia.
Qed.
End Data.

Section Transfer.
Context (sha256 : bytes -> bytes) {SH : Sha256 sha256}.
Local Abbreviation fromHeader ps := (Some (NewPartSetFromHeader (ps_Header (Some ps)))).

(** A block that is cut into parts can be read from them; and if its parts, and nothing else,
    are added to an empty set with the same header, in any order and any number of times, the
    set is complete as soon as each of them was added, and reads as the block. *)
Lemma part_set_roundtrip data p n : parts_of data p n -> Z.of_nat p <= BlockPartSizeBytes /\ Z.of_nat n <= MaxBlockPartsCount ->
  exists ps parts, NewPartSetFromData sha256 data (Z.of_nat p) = Some ps /\ ps_parts ps = Some <$> parts /\ length parts = n /\
    IsComplete (Some ps) = true /\ reads (Some ps) data /\ ByteSize (Some ps) = len data /\
    forall sent, (forall part, part ∈ sent -> part ∈ parts) -> exists ps', add_parts sha256 (fromHeader ps) sent = Some (Some ps') /\
      ((forall part, part ∈ parts -> part ∈ sent) -> IsComplete (Some ps') = true /\ reads (Some ps') data /\ ByteSize (Some ps') = len data).
Proof.
  intros Hp Hs. destruct (NewPartSetFromData_spec sha256 data p n Hp Hs) as (root & parts & bits & _ & [Hl Hg] & Hbits & ->). pose proof Hp as (Hp0 & Hn & Hd & _).
  eexists _, parts. split_and!; [done|done|done|by apply bool_decide_eq_true_2| |done|].
  - apply (complete_reads _ parts); [done|intros ->; simpl in Hl; lia|by apply bool_decide_eq_true_2|]. rewrite <- (drop_0 data). change 0%nat with (0 * p)%nat. rewrite <- (concat_chunks data p n 0) by lia.
    f_equal. fold (chunks data p n). apply list_eq_same_length with (n := n); [by rewrite length_chunks|by rewrite length_fmap|]. intros i x y Hi Hx Hy. rewrite chunks_lookup in Hy by done.
    apply list_lookup_fmap_Some in Hx as (part & -> & Hx). destruct (Hg _ _ Hx) as (_ & -> & _). congruence.
  - intros sent Hsent. unfold ps_Header. cbn [ps_total ps_hash].
    destruct (add_parts_spec sha256 n root (conj Hn (proj2 Hs)) [] _ sent (NewPartSetFromHeader_ok sha256 n root (conj Hn (proj2 Hs)))) as (ps' & -> & Hok & _ & Hthere); [constructor| |].
    { apply Forall_forall. intros part [i Hi]%Hsent%list_elem_of_lookup. by apply (Hg i). }
    eexists. split; [done|]. intros Hcover.
    assert (Hc : IsComplete (Some ps') = true).
    { apply bool_decide_eq_true_2. rewrite (ok_count _ _ _ _ _ Hok), (ok_total _ _ _ _ _ Hok). f_equal. rewrite <- (ok_length _ _ _ _ _ Hok). apply present_full. intros i Hi. rewrite (ok_length _ _ _ _ _ Hok), <- Hl in Hi.
      destruct (lookup_lt_is_Some_2 _ _ Hi) as [part Hpart]. destruct (Hg _ _ Hpart) as (Hix & _ & _ & _ & Hv).
      rewrite <- (Nat2Z.id i), <- Hix. apply Hthere; [by apply Hcover, (list_elem_of_lookup_2 _ i)|lia|done]. }
    split; [done|]. destruct (complete_data sha256 data p n Hp root _ ps' Hok Hc) as (parts' & _ & _ & Hin & Hdata). apply Hdata.
    intros i part Hi. destruct (Hin _ _ Hi) as (Hgiven & Hix & _). rewrite app_nil_r, elem_of_reverse in Hgiven. apply Hsent, list_elem_of_lookup in Hgiven as [j Hj].
    destruct (Hg _ _ Hj) as (Hjx & -> & _). f_equal. lia.
Qed.

Lemma Forall_lookup_or {A} (Q : nat -> A -> Prop) (R : Prop) (l : list A) : (forall i x, l !! i = Some x -> Q i x \/ R) -> (forall i x, l !! i = Some x -> Q i x) \/ R.
Proof.
  revert Q. induction l as [|x l IH]; intros Q H; [by left|]. destruct (H 0%nat x eq_refl) as [H0|]; [|by right].
  destruct (IH (fun i => Q (S i))) as [H1|]; [intros i y; apply (H (S i))|left|by right]. intros [|i] y Hi; [by injection Hi as <-|by apply H1].
Qed.

(** Whatever parts are added, by whomever, to an empty set with the header of a block, nothing
    panics, and the bits and the count are those of the parts that are there; and if the
    proofs of the parts have the number of parts, a set that is complete is the block, unless
    two inputs of the hash function collide. *)
Lemma part_set_sound data p n sent : parts_of data p n -> Z.of_nat p <= BlockPartSizeBytes /\ Z.of_nat n <= MaxBlockPartsCount -> Forall wire_part sent ->
  exists ps ps', NewPartSetFromData sha256 data (Z.of_nat p) = Some ps /\ add_parts sha256 (fromHeader ps) sent = Some (Some ps') /\ ps_Header (Some ps') = ps_Header (Some ps) /\
    bits_ok (ps_BitArray ps') n (there (ps_parts ps')) /\ ps_Count (Some ps') = Z.of_nat (length (present (ps_parts ps'))) /\
    (Forall (fun part => pr_Total (pt_Proof part) = Z.of_nat n) sent -> IsComplete (Some ps') = true ->
      (reads (Some ps') data /\ ByteSize (Some ps') = len data) \/ collision sha256).
Proof.
  intros Hp Hs Hw. destruct (NewPartSetFromData_spec sha256 data p n Hp Hs) as (root & parts & bits & Hroot & [Hl Hg] & Hbits & ->). pose proof Hp as (Hp0 & Hn & Hd & _).
  destruct (add_parts_spec sha256 n root (conj Hn (proj2 Hs)) [] _ sent (NewPartSetFromHeader_ok sha256 n root (conj Hn (proj2 Hs)))) as (ps' & Ha & Hok & _ & _); [constructor|done|].
  eexists _, ps'. split_and!; [done|exact Ha| | | |].
  - unfold ps_Header. cbn [ps_total ps_hash]. by rewrite (ok_total _ _ _ _ _ Hok), (ok_hash _ _ _ _ _ Hok).
  - destruct (ok_bits _ _ _ _ _ Hok) as (ba & Hba & H). unfold ps_BitArray. rewrite Hba. by exists ba.
  - apply (ok_count _ _ _ _ _ Hok).
  - intros Htot Hc. destruct (complete_data sha256 data p n Hp root _ ps' Hok Hc) as (parts' & _ & Hl' & Hin & Hdata).
    destruct (Forall_lookup_or (fun i part => pt_Bytes part = chunk data p i) (collision sha256) parts') as [Hall|]; [|left; by apply Hdata|by right].
    intros i part Hi. destruct (Hin _ _ Hi) as (Hgiven & Hix & Hv). rewrite app_nil_r, elem_of_reverse in Hgiven. rewrite Forall_forall in Htot, Hw.
    assert (Hcnt : count (chunks data p n) = Z.of_nat n) by (unfold count; by rewrite length_chunks). unfold MaxBlockPartsCount in Hs. change (104857600 / 1048576 + 1) with 101 in Hs.
    destruct (Verify_sound sha256 (chunks data p n) root _ _ ltac:(lia) Hroot Hv) as [(j & Hj & Hjx)|]; [|by right]. left.
    rewrite Hcnt in Hjx. specialize (Hjx (Htot _ Hgiven)). destruct (Hw _ Hgiven) as (_ & _ & Hvb). unfold part_ValidateBasic in Hvb. case_bool_decide; [done|].
    destruct (proof_ValidateBasic _); [done|]. case_bool_decide as Hpx; [done|]. assert (j = i) as ->.
    { destruct (decide (pt_Index part = pr_Index (pt_Proof part))); [lia|tauto]. }
    pose proof (lookup_lt_Some _ _ _ Hi). rewrite chunks_lookup in Hj by lia. congruence.
Qed.

(** The last of three parts, presented as the second of two. *)
Definition forged (data : bytes) (p : nat) : Part :=
  mkPart 1 (chunk data p 2) (mkProof 2 1 (leafHash sha256 (chunk data p 2)) [innerHash sha256 (leafHash sha256 (chunk data p 0)) (leafHash sha256 (chunk data p 1))]).
Lemma forged_verified data p root : HashFromByteSlices sha256 (chunks data p 3) = Some root -> verified sha256 root (forged data p).
Proof.
  change (chunks data p 3) with [chunk data p 0; chunk data p 1; chunk data p 2]. unfold forged. generalize (chunk data p 0) (chunk data p 1) (chunk data p 2). intros a b c Hr.
  assert (E : HashFromByteSlices sha256 [a; b; c] = Some (innerHash sha256 (innerHash sha256 (leafHash sha256 a) (leafHash sha256 b)) (leafHash sha256 c))) by reflexivity.
  rewrite E in Hr. assert (root = innerHash sha256 (innerHash sha256 (leafHash sha256 a) (leafHash sha256 b)) (leafHash sha256 c)) as -> by congruence.
  unfold verified, proof_Verify. cbn [pt_Proof pt_Bytes pr_Total pr_Index pr_LeafHash]. rewrite bool_decide_eq_false_2 by lia. rewrite bool_decide_eq_false_2 by lia.
  rewrite bool_decide_eq_false_2 by (intros N; by apply N). unfold ComputeRootHash. cbn [pr_Total pr_Index pr_LeafHash pr_Aunts length].
  assert (Hc := computes_right sha256 1 2 (leafHash sha256 c) [] (innerHash sha256 (leafHash sha256 a) (leafHash sha256 b)) (leafHash sha256 c) 1 ltac:(by exists 0%nat; simpl; lia) eq_refl ltac:(lia) (computes_one sha256 _) 1%nat ltac:(done)).
  change (Z.of_nat 1) with 1 in Hc. change (Z.of_nat 2) with 2 in Hc. cbn [app] in Hc. rewrite Hc. cbn [mbind option_bind]. by rewrite bool_decide_eq_false_2 by (intros N; by apply N).
Qed.
Lemma forged_wire data p : Z.of_nat p <= BlockPartSizeBytes -> wire_part (forged data p).
Proof.
  intros Hp. unfold wire_part, forged, part_ValidateBasic, proof_ValidateBasic. cbn [pt_Index pt_Proof pt_Bytes pr_Total pr_Index pr_LeafHash pr_Aunts check_aunts length].
  split; [lia|]. split; [lia|]. rewrite bool_decide_eq_false_2 by (unfold len, chunk; rewrite length_take; lia). rewrite bool_decide_eq_false_2 by lia. rewrite bool_decide_eq_false_2 by lia.
  rewrite bool_decide_eq_false_2 by (intros N; apply N, (sha256_length (sha256 := sha256))). rewrite bool_decide_eq_false_2 by (unfold MaxAunts; lia).
  rewrite bool_decide_eq_false_2 by (intros N; apply N, (sha256_length (sha256 := sha256))). done.
Qed.

(** The number of parts in the proof of a part is not compared with the one of the set: of a
    block of three parts, the last can be presented as the second of two.  It passes all
    checks, takes the place of the second part, which is then ignored, and the set becomes
    complete with other bytes than the block's. *)
Lemma wrong_total_accepted data p : parts_of data p 3 -> Z.of_nat p <= BlockPartSizeBytes ->
  exists ps parts bad ps', NewPartSetFromData sha256 data (Z.of_nat p) = Some ps /\ ps_parts ps = Some <$> parts /\ wire_part bad /\
    add_parts sha256 (fromHeader ps) (bad :: parts) = Some (Some ps') /\ IsComplete (Some ps') = true /\
    reads (Some ps') (chunk data p 0 ++ chunk data p 2 ++ chunk data p 2).
Proof.
  intros Hp Hsz. assert (Hs : Z.of_nat p <= BlockPartSizeBytes /\ Z.of_nat 3 <= MaxBlockPartsCount) by done. pose proof Hp as (Hp0 & _ & Hd & _).
  destruct (NewPartSetFromData_spec sha256 data p 3 Hp Hs) as (root & parts & bits & Hroot & [Hl Hg] & Hbits & ->). set (bad := forged data p).
  assert (Hv : verified sha256 root bad) by (by apply forged_verified).
  assert (Hw : wire_part bad) by (by apply forged_wire). assert (Ib : pt_Index bad = 1) by done. assert (Bb : pt_Bytes bad = chunk data p 2) by done. clearbody bad.
  destruct parts as [|g0 [|g1 [|g2 [|]]]]; try done. destruct (Hg 0%nat g0 eq_refl) as (I0 & B0 & _ & W0 & V0). destruct (Hg 1%nat g1 eq_refl) as (I1 & _ & _ & W1 & _).
  destruct (Hg 2%nat g2 eq_refl) as (I2 & B2 & _ & W2 & V2).
  assert (H3 : (0 < 3)%nat /\ Z.of_nat 3 <= MaxBlockPartsCount) by (split; [lia|done]).
  destruct (AddPart_spec sha256 3 root H3 [] _ bad (NewPartSetFromHeader_ok sha256 3 root H3)) as (ps1 & added & err & E1 & Hok1 & _ & Hin1); [constructor|done|].
  destruct (add_parts_spec sha256 3 root H3 [bad] ps1 [g0; g1; g2] Hok1) as (ps' & E & Hok & Hstay & Hin); [exact (Forall_cons_2 _ _ _ Hw (Forall_nil_2 _))|exact (Forall_cons_2 _ _ _ W0 (Forall_cons_2 _ _ _ W1 (Forall_cons_2 _ _ _ W2 (Forall_nil_2 _))))|].
  specialize (Hin1 ltac:(lia) Hv). assert (S1 : ps_parts ps1 !! 1%nat = Some (Some bad)).
  { unfold there in Hin1. rewrite Ib in Hin1. change (Z.to_nat 1) with 1%nat in Hin1. destruct (ps_parts ps1 !! 1%nat) as [[q|]|] eqn:Eq; [|done..].
    destruct (ok_stored _ _ _ _ _ Hok1 _ _ Eq) as (Hq & _). apply list_elem_of_singleton in Hq as ->. done. }
  assert (T0 := Hin g0 ltac:(left) ltac:(lia) V0). assert (T2 := Hin g2 ltac:(right; right; left) ltac:(lia) V2). rewrite I0 in T0. rewrite I2 in T2. apply Hstay in S1.
  change (Z.to_nat (Z.of_nat 0)) with 0%nat in T0. change (Z.to_nat (Z.of_nat 2)) with 2%nat in T2. unfold there in T0, T2.
  destruct (ps_parts ps' !! 0%nat) as [[q0|]|] eqn:S0; [|discriminate..]. destruct (ps_parts ps' !! 2%nat) as [[q2|]|] eqn:S2; [|discriminate..].
  destruct (ok_stored _ _ _ _ _ Hok _ _ S0) as (G0 & J0 & _). destruct (ok_stored _ _ _ _ _ Hok _ _ S2) as (G2 & J2 & _).
  assert (Hpick : forall q, q ∈ reverse [g0; g1; g2] ++ [bad] -> q = g0 \/ q = g1 \/ q = g2 \/ q = bad) by (intros q Hq; rewrite elem_of_app, elem_of_reverse, !elem_of_cons, elem_of_nil in Hq; tauto).
  assert (q0 = g0) as -> by (destruct (Hpick _ G0) as [->|[->|[->| ->]]]; [done|lia..]). assert (q2 = g2) as -> by (destruct (Hpick _ G2) as [->|[->|[->| ->]]]; [lia..|done|lia]).
  assert (Hparts : ps_parts ps' = Some <$> [g0; bad; g2]).
  { pose proof (ok_length _ _ _ _ _ Hok) as Hlen. clear - Hlen S0 S1 S2.
    destruct (ps_parts ps') as [|a [|b [|c [|]]]]; try discriminate. simpl in S0, S1, S2. by simplify_eq. }
  assert (Hc : IsComplete (Some ps') = true).
  { apply bool_decide_eq_true_2. rewrite (ok_count _ _ _ _ _ Hok), (ok_total _ _ _ _ _ Hok), Hparts. reflexivity. }
  eexists _, [g0; g1; g2], bad, ps'. split; [reflexivity|]. split; [reflexivity|]. split; [exact Hw|]. split; [|split; [exact Hc|]].
  - unfold ps_Header. cbn [ps_total ps_hash add_parts]. rewrite E1. cbn [mbind option_bind]. exact E.
  - eapply complete_reads; [exact Hparts|discriminate|exact Hc|]. cbn [fmap list_fmap concat]. rewrite B0, Bb, B2, app_nil_r. done.
Qed.

(** C21. A block cut into parts and gossiped.  The set made of the block is complete and reads as
    the block.  Whatever parts that pass [ValidateBasic] are then added to an empty set with its
    header, nothing panics, the header stays, and the bits and the count are those of the parts that
    are there.  Parts of the block alone, in any order and any number of times, make the set
    complete as soon as each of them was added, and it reads as the block.  With any other
    parts among them, whose proofs have the number of parts of the block, a set that is
    complete reads as the block, unless two inputs of the hash function collide.  The proofs
    need this number: of any block of three parts the last can be presented as the second of
    two, it passes all checks, and the set becomes complete with other bytes. *)
Theorem part_sets data p n : parts_of data p n -> Z.of_nat p <= BlockPartSizeBytes /\ Z.of_nat n <= MaxBlockPartsCount ->
  exists ps parts, NewPartSetFromData sha256 data (Z.of_nat p) = Some ps /\ ps_parts ps = Some <$> parts /\ length parts = n /\
    IsComplete (Some ps) = true /\ reads (Some ps) data /\ ByteSize (Some ps) = len data /\
    (forall sent, (forall part, part ∈ sent -> part ∈ parts) -> exists ps', add_parts sha256 (fromHeader ps) sent = Some (Some ps') /\
      ((forall part, part ∈ parts -> part ∈ sent) -> IsComplete (Some ps') = true /\ reads (Some ps') data /\ ByteSize (Some ps') = len data)) /\
    (forall sent, Forall wire_part sent -> exists ps', add_parts sha256 (fromHeader ps) sent = Some (Some ps') /\ ps_Header (Some ps') = ps_Header (Some ps) /\
      bits_ok (ps_BitArray ps') n (there (ps_parts ps')) /\ ps_Count (Some ps') = Z.of_nat (length (present (ps_parts ps'))) /\
      (Forall (fun part => pr_Total (pt_Proof part) = Z.of_nat n) sent -> IsComplete (Some ps') = true ->
        (reads (Some ps') data /\ ByteSize (Some ps') = len data) \/ collision sha256)) /\
    (n = 3%nat -> exists bad ps', wire_part bad /\ add_parts sha256 (fromHeader ps) (bad :: parts) = Some (Some ps') /\ IsComplete (Some ps') = true /\
      reads (Some ps') (chunk data p 0 ++ chunk data p 2 ++ chunk data p 2)).
Proof.
  intros Hp Hs. destruct (part_set_roundtrip data p n Hp Hs) as (ps & parts & Hnew & Hparts & Hl & Hc & Hr & Hb & Hround).
  exists ps, parts. split_and!; [done..| |].
  - intros sent Hw. destruct (part_set_sound data p n sent Hp Hs Hw) as (ps1 & ps' & Hnew1 & H). rewrite Hnew in Hnew1. injection Hnew1 as <-. by exists ps'.
  - intros ->. destruct (wrong_total_accepted data p Hp (proj1 Hs)) as (ps1 & parts1 & bad & ps' & Hnew1 & Hparts1 & H). rewrite Hnew in Hnew1. injection Hnew1 as <-.
    rewrite Hparts in Hparts1. apply (inj (fmap Some)) in Hparts1 as <-. by exists bad, ps'.
Qed.
End Transfer.
