(* ===== verification/Commit.v ===== *)
(** Commits and their verification ([sei-tendermint/types/block.go], [validation.go] and
    [crypto/ed25519]).

    Keys and signatures are their bytes.  SHA-256, the verification of one signature and of
    a batch are code outside the repository and parameters.  Pointers to a validator set and
    to a commit are not nil.  [None] is a panic; the validator set is returned with the
    total power that may have been computed. *)
From stdpp Require Import base gmap sets list.
From Stdlib Require Import ZArith Lia.
From S2P Require Import Prelude Proto Valset SignBytes.
Local Open Scope Z_scope.

(** ** Signatures *)
Class Crypto := {
  sha256 : bytes -> bytes;
  VerifyWithOptions : bytes -> bytes -> bytes -> bool;
  inner_Verify : list (bytes * bytes * bytes) -> bool * list bool
}.
(** The batch verifier returns whether all signatures are valid, with the validity of each if
    they are not; an empty batch is refused. *)
Class CryptoLaws `{Crypto} : Prop := {
  batch_results : forall l, inner_Verify l =
    (bool_decide (l <> []) && forallb (fun '(key, msg, sig) => VerifyWithOptions key msg sig) l, (fun '(key, msg, sig) => VerifyWithOptions key msg sig) <$> l)
}.

Section Signatures.
Context `{Crypto}.
Definition Address (key : bytes) : bytes := take 20 (sha256 key).
(** The error is [false]. *)
Definition key_Verify (key msg sig : bytes) : bool := VerifyWithOptions key msg sig.
(** The index of the first invalid signature is the error. *)
Definition batch_Verify (entries : list (bytes * bytes * bytes)) : option (option nat) :=
  let '(ok, res) := inner_Verify entries in
  if ok then Some None else match list_find (fun ok => ok = false) res with Some (idx, _) => Some (Some idx) | None => None end.
End Signatures.

(** ** Commits *)
Definition BlockIDFlagAbsent : Z := 1.
Definition BlockIDFlagCommit : Z := 2.
Definition BlockIDFlagNil : Z := 3.
Record CommitSig := mkCommitSig {
  cs_BlockIDFlag : Z;
  cs_ValidatorAddress : bytes;
  cs_Timestamp : Z;
  cs_Signature : option bytes
}.
#[export] Instance CommitSig_eq_dec : EqDecision CommitSig.
Proof. solve_decision. Defined.
Definition NewCommitSigAbsent : CommitSig := mkCommitSig BlockIDFlagAbsent [] 0 None.

Definition cs_BlockID (cs : CommitSig) (commitBlockID : BlockID) : option BlockID :=
  if bool_decide (cs_BlockIDFlag cs = BlockIDFlagAbsent) then Some empty_BlockID
  else if bool_decide (cs_BlockIDFlag cs = BlockIDFlagCommit) then Some commitBlockID
  else if bool_decide (cs_BlockIDFlag cs = BlockIDFlagNil) then Some empty_BlockID
  else None.

Inductive CommitSigInvalid := EUnknownFlag | EAddressPresent | ETimePresent | ESignaturePresent | EWrongAddressSize | ESignatureMissing.
Definition cs_ValidateBasic (cs : CommitSig) : option CommitSigInvalid :=
  if bool_decide (cs_BlockIDFlag cs ∉ [BlockIDFlagAbsent; BlockIDFlagCommit; BlockIDFlagNil]) then Some EUnknownFlag
  else if bool_decide (cs_BlockIDFlag cs = BlockIDFlagAbsent) then
    if bool_decide (length (cs_ValidatorAddress cs) <> 0%nat) then Some EAddressPresent
    else if bool_decide (cs_Timestamp cs <> 0) then Some ETimePresent
    else if bool_decide (cs_Signature cs <> None) then Some ESignaturePresent
    else None
  else if bool_decide (length (cs_ValidatorAddress cs) <> AddressSize) then Some EWrongAddressSize
  else if bool_decide (cs_Signature cs = None) then Some ESignatureMissing
  else None.

Record Commit := mkCommit { cm_Height : Z; cm_Round : Z; cm_BlockID : BlockID; cm_Signatures : list CommitSig }.
#[export] Instance Commit_eq_dec : EqDecision Commit.
Proof. solve_decision. Defined.
Definition GetVote (commit : Commit) (valIdx : Z) : option (option Vote) :=
  if bool_decide (Z.of_nat (length (cm_Signatures commit)) <= valIdx) then Some None
  else if bool_decide (valIdx < 0) then None
  else
    commitSig ← cm_Signatures commit !! Z.to_nat valIdx;
    blockID ← cs_BlockID commitSig (cm_BlockID commit);
    Some (Some (mkVote PrecommitType (cm_Height commit) (cm_Round commit) blockID (cs_Timestamp commitSig) (cs_ValidatorAddress commitSig) valIdx (cs_Signature commitSig))).

Definition MaxVotesCount : nat := Z.to_nat 10000.
Inductive CommitInvalid := ECommitNegativeHeight | ECommitNegativeRound | ECommitNilBlock | ENoSignatures | ETooManySignatures | EWrongCommitSig (i : nat) (e : CommitSigInvalid).
Fixpoint validate_sigs (i : nat) (l : list CommitSig) : option CommitInvalid :=
  match l with [] => None | cs :: l => match cs_ValidateBasic cs with Some e => Some (EWrongCommitSig i e) | None => validate_sigs (S i) l end end.
Definition commit_ValidateBasic (commit : Commit) : option CommitInvalid :=
  if bool_decide (cm_Height commit < 0) then Some ECommitNegativeHeight
  else if bool_decide (cm_Round commit < 0) then Some ECommitNegativeRound
  else if bool_decide (1 <= cm_Height commit) then
    if bid_IsNil (cm_BlockID commit) then Some ECommitNilBlock
    else if bool_decide (length (cm_Signatures commit) = 0%nat) then Some ENoSignatures
    else if bool_decide (MaxVotesCount < length (cm_Signatures commit))%nat then Some ETooManySignatures
    else validate_sigs 0 (cm_Signatures commit)
  else None.

Inductive VerifyError :=
| ErrInvalidCommitSignatures (expected actual : Z) | ErrInvalidCommitHeight (expected actual : Z) | errBadBlockID
| EZeroDenominator | EPowerOverflow | EInsufficientSignatures
| EWrongSigAddress (idx : nat) | EDoubleVote (firstIndex secondIndex : nat) | EMissingSignature (idx : nat)
| ErrNotEnoughVotingPowerSigned (got needed : Z) | errBadSig (idx : nat).

(** ** Verification *)
Section Verification.
Context `{StdTime} `{Crypto}.
Definition commit_VoteSignBytes (commit : Commit) (chainID : bytes) (valIdx : Z) : option (option bytes) :=
  v ← GetVote commit valIdx;
  match v with Some v => Some <$> VoteSignBytes chainID v | None => Some None end.

Definition verifyBasicValsAndCommit (vals : ValidatorSet) (commit : Commit) (height : Z) (blockID : BlockID) : option VerifyError :=
  if bool_decide (vals_Size vals <> Z.of_nat (length (cm_Signatures commit))) then
    Some (ErrInvalidCommitSignatures (vals_Size vals) (Z.of_nat (length (cm_Signatures commit))))
  else if bool_decide (height <> cm_Height commit) then Some (ErrInvalidCommitHeight height (cm_Height commit))
  else if negb (bid_Equals blockID (cm_BlockID commit)) then Some errBadBlockID
  else None.

Section Loops.
Context (chainID : bytes) (vals : ValidatorSet) (commit : Commit) (votingPowerNeeded : Z).
Context (ignoreSig countSig : CommitSig -> bool) (countAllSignatures lookUpByIndex : bool).

(** The validator of a signature; [inl None] skips the signature. *)
Definition sig_validator (idx : nat) (commitSig : CommitSig) (seenVals : gmap nat nat) : option (option (Validator * gmap nat nat) + VerifyError) :=
  if lookUpByIndex then
    val ← Validators vals !! idx;
    if bool_decide (v_Address val <> cs_ValidatorAddress commitSig) then Some (inr (EWrongSigAddress idx)) else Some (inl (Some (val, seenVals)))
  else
    match GetByAddress vals (cs_ValidatorAddress commitSig) with
    | None => Some (inl None)
    | Some (valIdx, val) =>
        match seenVals !! valIdx with
        | Some firstIndex => Some (inr (EDoubleVote firstIndex idx))
        | None => Some (inl (Some (val, <[valIdx := idx]> seenVals)))
        end
    end.

Fixpoint batch_loop (sigs : list CommitSig) (idx : nat) (tallied : Z) (seenVals : gmap nat nat) (batch : list (nat * (bytes * bytes * bytes))) :
    option ((Z * list (nat * (bytes * bytes * bytes))) + VerifyError) :=
  match sigs with
  | [] => Some (inl (tallied, batch))
  | commitSig :: sigs =>
      if ignoreSig commitSig then batch_loop sigs (S idx) tallied seenVals batch
      else
        r ← sig_validator idx commitSig seenVals;
        match r with
        | inr e => Some (inr e)
        | inl None => batch_loop sigs (S idx) tallied seenVals batch
        | inl (Some (val, seenVals)) =>
            bz ← commit_VoteSignBytes commit chainID (int32 (Z.of_nat idx));
            voteSignBytes ← bz;
            match cs_Signature commitSig with
            | None => Some (inr (EMissingSignature idx))
            | Some sig =>
                let batch := batch ++ [(idx, (v_PubKey val, voteSignBytes, sig))] in
                let tallied := if countSig commitSig then int64 (tallied + v_VotingPower val) else tallied in
                if negb countAllSignatures && bool_decide (votingPowerNeeded < tallied) then Some (inl (tallied, batch))
                else batch_loop sigs (S idx) tallied seenVals batch
            end
        end
  end.
Definition batchVerifyThreshold : nat := 2.
Definition shouldBatchVerify : bool := bool_decide (batchVerifyThreshold <= length (cm_Signatures commit))%nat.
Definition verifyCommitBatch : option (option VerifyError) :=
  if bool_decide (length (cm_Signatures commit) < batchVerifyThreshold)%nat then Some (Some EInsufficientSignatures)
  else
    r ← batch_loop (cm_Signatures commit) 0 0 ∅ [];
    match r with
    | inr e => Some (Some e)
    | inl (tallied, batch) =>
        if bool_decide (tallied <= votingPowerNeeded) then Some (Some (ErrNotEnoughVotingPowerSigned tallied votingPowerNeeded))
        else
          err ← batch_Verify batch.*2;
          match err with
          | None => Some None
          | Some k => idx ← fst <$> batch !! k; Some (Some (errBadSig idx))
          end
    end.

Fixpoint single_loop (sigs : list CommitSig) (idx : nat) (tallied : Z) (seenVals : gmap nat nat) : option (option VerifyError) :=
  match sigs with
  | [] => Some (if bool_decide (tallied <= votingPowerNeeded) then Some (ErrNotEnoughVotingPowerSigned tallied votingPowerNeeded) else None)
  | commitSig :: sigs =>
      if ignoreSig commitSig then single_loop sigs (S idx) tallied seenVals
      else
        r ← sig_validator idx commitSig seenVals;
        match r with
        | inr e => Some (Some e)
        | inl None => single_loop sigs (S idx) tallied seenVals
        | inl (Some (val, seenVals)) =>
            bz ← commit_VoteSignBytes commit chainID (int32 (Z.of_nat idx));
            voteSignBytes ← bz;
            match cs_Signature commitSig with
            | None => Some (Some (EMissingSignature idx))
            | Some sig =>
                if negb (key_Verify (v_PubKey val) voteSignBytes sig) then Some (Some (errBadSig idx))
                else
                  let tallied := if countSig commitSig then int64 (tallied + v_VotingPower val) else tallied in
                  if negb countAllSignatures && bool_decide (votingPowerNeeded < tallied) then Some None
                  else single_loop sigs (S idx) tallied seenVals
            end
        end
  end.
Definition verifyCommitSingle : option (option VerifyError) := single_loop (cm_Signatures commit) 0 0 ∅.
End Loops.

Definition is_flag (flag : Z) (c : CommitSig) : bool := bool_decide (cs_BlockIDFlag c = flag).
Definition VerifyCommit (chainID : bytes) (vals : ValidatorSet) (blockID : BlockID) (height : Z) (commit : Commit) : option (ValidatorSet * option VerifyError) :=
  match verifyBasicValsAndCommit vals commit height blockID with
  | Some e => Some (vals, Some e)
  | None =>
      '(vals, total) ← TotalVotingPower vals;
      let votingPowerNeeded := Z.quot (int64 (total * 2)) 3 in
      let verify := if shouldBatchVerify commit then verifyCommitBatch else verifyCommitSingle in
      err ← verify chainID vals commit votingPowerNeeded (is_flag BlockIDFlagAbsent) (is_flag BlockIDFlagCommit) true true;
      Some (vals, err)
  end.

Definition verifyCommitLightInternal (chainID : bytes) (vals : ValidatorSet) (blockID : BlockID) (height : Z) (commit : Commit) (countAllSignatures : bool) :
    option (ValidatorSet * option VerifyError) :=
  match verifyBasicValsAndCommit vals commit height blockID with
  | Some e => Some (vals, Some e)
  | None =>
      '(vals, total) ← TotalVotingPower vals;
      let votingPowerNeeded := Z.quot (int64 (total * 2)) 3 in
      let verify := if shouldBatchVerify commit then verifyCommitBatch else verifyCommitSingle in
      err ← verify chainID vals commit votingPowerNeeded (fun c => negb (is_flag BlockIDFlagCommit c)) (fun _ => true) countAllSignatures true;
      Some (vals, err)
  end.
Definition VerifyCommitLight chainID vals blockID height commit := verifyCommitLightInternal chainID vals blockID height commit false.
Definition VerifyCommitLightAllSignatures chainID vals blockID height commit := verifyCommitLightInternal chainID vals blockID height commit true.

(** A fraction of two [uint64]. *)
Record Fraction := mkFraction { Numerator : Z; Denominator : Z }.
Definition verifyCommitLightTrustingInternal (chainID : bytes) (vals : ValidatorSet) (commit : Commit) (trustLevel : Fraction) (countAllSignatures : bool) :
    option (ValidatorSet * option VerifyError) :=
  if bool_decide (Denominator trustLevel = 0) then Some (vals, Some EZeroDenominator)
  else
    '(vals, total) ← TotalVotingPower vals;
    let '(product, overflow) := safeMul total (int64 (Numerator trustLevel)) in
    if overflow then Some (vals, Some EPowerOverflow)
    else
      let votingPowerNeeded := int64 (Z.quot product (int64 (Denominator trustLevel))) in
      let verify := if shouldBatchVerify commit then verifyCommitBatch else verifyCommitSingle in
      err ← verify chainID vals commit votingPowerNeeded (fun c => negb (is_flag BlockIDFlagCommit c)) (fun _ => true) countAllSignatures false;
      Some (vals, err).
Definition VerifyCommitLightTrusting chainID vals commit trustLevel := verifyCommitLightTrustingInternal chainID vals commit trustLevel false.
Definition VerifyCommitLightTrustingAllSignatures chainID vals commit trustLevel := verifyCommitLightTrustingInternal chainID vals commit trustLevel true.
End Verification.
