(* ===== verification/CommitSpec.v ===== *)
(** What an accepted commit proves: who signed it, with what power, and that two commits for
    different blocks expose more than a third of the power. *)
From stdpp Require Import base gmap sets list.
From Stdlib Require Import ZArith Lia.
From S2P Require Import Prelude Proto ProtoSpec Valset ValsetPrio SignBytes SignBytesSpec Commit.
Local Open Scope Z_scope.

(** ** Power of a set of validators, given by their indices *)
Fixpoint power_of (l : list Validator) (P : nat -> bool) : Z :=
  match l with [] => 0 | v :: l => (if P 0%nat then pow v else 0) + power_of l (fun i => P (S i)) end.
Definition nonneg (l : list Validator) : Prop := forall v, v ∈ l -> 0 <= pow v.
Lemma nonneg_cons v l : nonneg (v :: l) -> 0 <= pow v /\ nonneg l.
Proof. intros H. split; [apply H; left|]. intros w Hw. apply H. by right. Qed.
Lemma power_of_ext l P Q : (forall i, (i < length l)%nat -> P i = Q i) -> power_of l P = power_of l Q.
Proof. revert P Q. induction l as [|v l IH]; intros P Q H; [done|]. simpl. rewrite (H 0%nat) by (simpl; lia). f_equal. apply IH. intros i Hi. apply H. simpl. lia. Qed.
Lemma power_of_le l P Q : nonneg l -> (forall i, P i = true -> Q i = true) -> power_of l P <= power_of l Q.
Proof.
  revert P Q. induction l as [|v l IH]; intros P Q Hn H; [done|]. apply nonneg_cons in Hn as [Hv Hl]. simpl. pose proof (IH (fun i => P (S i)) (fun i => Q (S i)) Hl (fun i => H (S i))) as Hle.
  pose proof (H 0%nat) as H0. destruct (P 0%nat), (Q 0%nat); lia || by specialize (H0 eq_refl).
Qed.
Lemma power_of_all l : power_of l (fun _ => true) = power l.
Proof. induction l as [|v l IH]; [done|]. simpl. rewrite IH. done. Qed.
Lemma power_of_none l : power_of l (fun _ => false) = 0.
Proof. induction l as [|v l IH]; [done|]. simpl. by rewrite IH. Qed.
Lemma power_of_bound l P : nonneg l -> 0 <= power_of l P <= power l.
Proof. intros Hn. rewrite <- (power_of_all l), <- (power_of_none l). split; by apply power_of_le. Qed.
Lemma power_of_overlap l P Q : nonneg l -> power_of l P + power_of l Q <= power l + power_of l (fun i => P i && Q i).
Proof.
  revert P Q. induction l as [|v l IH]; intros P Q Hn; [done|]. apply nonneg_cons in Hn as [Hv Hl]. simpl. specialize (IH (fun i => P (S i)) (fun i => Q (S i)) Hl). unfold power in *. simpl.
  destruct (P 0%nat), (Q 0%nat); simpl; lia.
Qed.
Lemma power_of_witness l P : power_of l P <> 0 -> exists j, (j < length l)%nat /\ P j = true.
Proof.
  revert P. induction l as [|v l IH]; intros P Hne; [done|]. destruct (P 0%nat) eqn:H0; [exists 0%nat; split; [simpl; lia|done]|]. simpl in Hne. rewrite H0 in Hne.
  destruct (IH (fun i => P (S i)) Hne) as (j & Hj & HP). exists (S j). split; [simpl; lia|done].
Qed.
Definition add_index (j : nat) (P : nat -> bool) : nat -> bool := fun i => bool_decide (i = j) || P i.
Lemma power_of_add l P j v : l !! j = Some v -> P j = false -> power_of l (add_index j P) = power_of l P + pow v.
Proof.
  revert P j. induction l as [|w l IH]; intros P j Hj HP; [done|]. destruct j as [|j]; simpl in Hj.
  - injection Hj as ->. cbn [power_of]. rewrite HP. replace (add_index 0 P 0%nat) with true by done.
    rewrite (power_of_ext l (fun i => add_index 0 P (S i)) (fun i => P (S i))); [lia|]. intros i _. unfold add_index. by rewrite bool_decide_false.
  - cbn [power_of]. unfold add_index at 1. rewrite (bool_decide_false (0 = S j)%nat) by done. cbn [orb]. rewrite <- Z.add_assoc. f_equal. rewrite <- (IH (fun i => P (S i)) j Hj HP). apply power_of_ext.
    intros i _. unfold add_index. f_equal. apply bool_decide_ext. lia.
Qed.

(** ** The loops *)
Section Loops.
Context `{ST : StdTime} `{CR : Crypto}.
Context (chainID : bytes) (vals : ValidatorSet) (commit : Commit) (needed : Z) (ignoreSig countSig : CommitSig -> bool) (countAll byIndex : bool).
Context (Hp : powers_ok (Validators vals)).
Local Abbreviation single := (single_loop chainID vals commit needed ignoreSig countSig countAll byIndex).
Local Abbreviation batch := (batch_loop chainID vals commit needed ignoreSig countSig countAll byIndex).
Local Abbreviation sigs := (cm_Signatures commit).
Local Abbreviation l := (Validators vals).

(** Signature [idx] of the commit is a valid one of validator [j]. *)
Definition valid_sig (j idx : nat) : Prop := exists v cs bz sig, l !! j = Some v /\ sigs !! idx = Some cs /\ v_Address v = cs_ValidatorAddress cs /\
  commit_VoteSignBytes commit chainID (int32 (Z.of_nat idx)) = Some (Some bz) /\ cs_Signature cs = Some sig /\ key_Verify (v_PubKey v) bz sig = true.

Lemma powers_nonneg' : nonneg l.
Proof. intros v Hv. pose proof (po_positive _ Hp v Hv). lia. Qed.
Lemma sig_validator_some idx cs seen v seen' : sig_validator vals byIndex idx cs seen = Some (inl (Some (v, seen'))) ->
  exists j, l !! j = Some v /\ v_Address v = cs_ValidatorAddress cs /\ if byIndex then j = idx /\ seen' = seen else seen !! j = None /\ seen' = <[j := idx]> seen.
Proof.
  unfold sig_validator. destruct byIndex.
  - destruct (l !! idx) as [w|] eqn:Hw; [|done]. simpl. destruct (decide (v_Address w = cs_ValidatorAddress cs)) as [Ha|Ha]; [rewrite bool_decide_false by auto|by rewrite bool_decide_true]. intros [= -> ->]. by exists idx.
  - destruct (GetByAddress vals _) as [[j w]|] eqn:Hg; [|done]. apply list_find_Some in Hg as (Hj & Ha & _). destruct (seen !! j) eqn:Hs; [done|]. intros [= -> <-]. by exists j.
Qed.

(** The tally is the power of the validators that were counted. *)
Record tally (idx : nat) (t : Z) (seen : gmap nat nat) (P : nat -> bool) : Prop := {
  ta_sum : t = power_of l P;
  ta_valid : forall j, P j = true -> exists k cs, (k < idx)%nat /\ valid_sig j k /\ sigs !! k = Some cs /\ ignoreSig cs = false /\ countSig cs = true /\ (byIndex = true -> k = j);
  ta_seen : forall j, P j = true -> if byIndex then (j < idx)%nat else is_Some (seen !! j)
}.
Lemma tally_skip idx t seen seen' P : tally idx t seen P -> (forall j, is_Some (seen !! j) -> is_Some (seen' !! j)) -> tally (S idx) t seen' P.
Proof.
  intros [Hs Hv Hse] Hseen. split; [done| |].
  - intros j Hj. destruct (Hv j Hj) as (k & cs & Hk & Hrest). exists k, cs. split; [lia|done].
  - intros j Hj. specialize (Hse j Hj). destruct byIndex; [lia|auto].
Qed.
Lemma tally_add idx cs t seen v seen' P bz sig : tally idx t seen P -> sigs !! idx = Some cs -> ignoreSig cs = false -> sig_validator vals byIndex idx cs seen = Some (inl (Some (v, seen'))) ->
  commit_VoteSignBytes commit chainID (int32 (Z.of_nat idx)) = Some (Some bz) -> cs_Signature cs = Some sig -> key_Verify (v_PubKey v) bz sig = true ->
  exists P', tally (S idx) (if countSig cs then int64 (t + pow v) else t) seen' P'.
Proof.
  intros Ht Hcs Hig Hval Hbz Hsig Hver. destruct (sig_validator_some _ _ _ _ _ Hval) as (j & Hj & Haddr & Hcase). destruct Ht as [Hsum Hv Hse].
  assert (Hmono : forall k, is_Some (seen !! k) -> is_Some (seen' !! k)) by (intros k Hk; destruct byIndex; [by destruct Hcase as [_ ->]|destruct Hcase as [_ ->]; apply lookup_insert_is_Some; destruct (decide (j = k)); auto]).
  destruct (countSig cs) eqn:Hcount; [|exists P; by apply (tally_skip _ _ seen)]. assert (HPj : P j = false).
  { destruct (P j) eqn:HP; [|done]. specialize (Hse j HP). destruct byIndex; [destruct Hcase as [-> _]; lia|destruct Hcase as [Hn _]; rewrite Hn in Hse; by destruct Hse]. }
  exists (add_index j P). pose proof (power_of_add l P j v Hj HPj) as Hadd. split.
  - pose proof (power_of_bound l (add_index j P) powers_nonneg'). pose proof (po_total _ Hp). pose proof M_value. unfold MaxInt64 in *. rewrite Hsum, <- Hadd. apply int64_small. lia.
  - intros i. unfold add_index. intros [Hi%bool_decide_eq_true|Hi]%orb_true_iff; [subst i|destruct (Hv i Hi) as (k & cs' & Hk & Hrest); exists k, cs'; split; [lia|done]].
    exists idx, cs. split; [lia|]. split; [exists v, cs, bz, sig; done|]. split_and!; try done. intros Hb. rewrite Hb in Hcase. by destruct Hcase.
  - intros i. unfold add_index. intros [Hi%bool_decide_eq_true|Hi]%orb_true_iff; [subst i|]; destruct byIndex.
    + destruct Hcase. lia.
    + destruct Hcase as [_ ->]. by rewrite lookup_insert_eq.
    + specialize (Hse i Hi). simpl in Hse. lia.
    + by apply Hmono, Hse.
Qed.

(** Acceptance by [verifyCommitSingle]: enough power signed. *)
Definition enough (P : nat -> bool) : Prop := needed < power_of l P /\
  forall j, P j = true -> exists k cs, valid_sig j k /\ sigs !! k = Some cs /\ ignoreSig cs = false /\ countSig cs = true /\ (byIndex = true -> k = j).
Lemma tally_enough idx t seen P : tally idx t seen P -> needed < t -> enough P.
Proof. intros [-> Hv _] Ht. split; [done|]. intros j Hj. destruct (Hv j Hj) as (k & cs & _ & H). by exists k, cs. Qed.
Lemma single_sound rest : forall idx t seen P, drop idx sigs = rest -> tally idx t seen P -> single rest idx t seen = Some None -> exists P', enough P'.
Proof.
  induction rest as [|cs rest IH]; intros idx t seen P Hd Ht; cbn [single_loop].
  - case_bool_decide as Hn; [done|]. intros _. exists P. eapply tally_enough; [exact Ht|lia].
  - assert (Hcs : sigs !! idx = Some cs) by (rewrite <- (Nat.add_0_r idx), <- lookup_drop, Hd; done). assert (Hd' : drop (S idx) sigs = rest) by (by rewrite <- Nat.add_1_r, <- drop_drop, Hd).
    destruct (ignoreSig cs) eqn:Hig; [apply (IH _ _ _ P Hd'); by apply (tally_skip _ _ seen)|].
    destruct (sig_validator vals byIndex idx cs seen) as [[[[v seen']|]|e]|] eqn:Hval; cbn [mbind option_bind]; [|apply (IH _ _ _ P Hd'); by apply (tally_skip _ _ seen)|done|done].
    destruct (commit_VoteSignBytes _ _ _) as [[bz|]|] eqn:Hbz; cbn [mbind option_bind]; [|done|done]. destruct (cs_Signature cs) as [sig|] eqn:Hsig; [|done].
    destruct (key_Verify _ _ _) eqn:Hver; cbn [negb]; [|done]. destruct (tally_add idx cs t seen v seen' P bz sig Ht Hcs Hig Hval Hbz Hsig Hver) as [P' Ht'].
    destruct (negb countAll && _) eqn:Hearly; [|by apply (IH _ _ _ P')]. intros _. exists P'. apply andb_true_iff in Hearly as [_ Hn%bool_decide_eq_true]. by eapply tally_enough.
Qed.

(** Without an early exit and by index the loop checks every signature it does not ignore. *)
Definition counts (i : nat) : bool := match sigs !! i with Some cs => negb (ignoreSig cs) && countSig cs | None => false end.
Definition before (idx i : nat) : bool := bool_decide (i < idx)%nat && counts i.
Lemma before_step idx v cs : l !! idx = Some v -> sigs !! idx = Some cs ->
  power_of l (before (S idx)) = power_of l (before idx) + if negb (ignoreSig cs) && countSig cs then pow v else 0.
Proof.
  intros Hv Hcs. assert (Hc : counts idx = negb (ignoreSig cs) && countSig cs) by (unfold counts; by rewrite Hcs). destruct (negb (ignoreSig cs) && countSig cs).
  - rewrite <- (power_of_add l (before idx) idx v Hv) by (unfold before; by rewrite bool_decide_false by lia). apply power_of_ext. intros i _. unfold before, add_index.
    destruct (decide (i = idx)) as [->|Hne]; [rewrite (bool_decide_true (idx = idx)), (bool_decide_true (idx < S idx)%nat), Hc by (done || lia); done|]. rewrite (bool_decide_false (i = idx)) by done. cbn [orb]. f_equal. apply bool_decide_ext. lia.
  - rewrite Z.add_0_r. apply power_of_ext. intros i _. unfold before. destruct (decide (i = idx)) as [->|Hne]; [by rewrite Hc, !andb_false_r|]. f_equal. apply bool_decide_ext. lia.
Qed.
Lemma valid_sig_at idx v cs : l !! idx = Some v -> sigs !! idx = Some cs -> valid_sig idx idx <->
  v_Address v = cs_ValidatorAddress cs /\ exists bz sig, commit_VoteSignBytes commit chainID (int32 (Z.of_nat idx)) = Some (Some bz) /\ cs_Signature cs = Some sig /\ key_Verify (v_PubKey v) bz sig = true.
Proof. intros Hv Hcs. split; [intros (? & ? & bz & sig & ? & ? & ? & ? & ? & ?); simplify_eq; split; [done|by exists bz, sig]|intros (? & bz & sig & ? & ? & ?); by exists v, cs, bz, sig]. Qed.
Ltac refute := split; [done|]; intros [[H _] _]; destruct (H eq_refl) as (? & ? & ? & ? & ? & ?); congruence.
Definition all_from (idx : nat) : Prop := forall k cs, (idx <= k)%nat -> sigs !! k = Some cs -> ignoreSig cs = false -> valid_sig k k.
Lemma all_from_step idx cs : sigs !! idx = Some cs -> all_from idx <-> (ignoreSig cs = false -> valid_sig idx idx) /\ all_from (S idx).
Proof.
  intros Hcs. split; [intros H; split; [by apply H|intros k c Hk; apply H; lia]|]. intros [H1 H2] k c Hk Hc.
  destruct (decide (k = idx)) as [->|]; [by rewrite Hcs in Hc; injection Hc as <-|apply (H2 k c); [lia|done]].
Qed.
Lemma single_exact rest : countAll = true -> byIndex = true -> length sigs = length l -> forall idx seen, drop idx sigs = rest -> 
  single rest idx (power_of l (before idx)) seen = Some None <-> all_from idx /\ needed < power_of l counts.
Proof.
  intros Hall Hby Hlen. induction rest as [|cs rest IH]; intros idx seen Hd; cbn [single_loop].
  - assert (Hge : (length sigs <= idx)%nat) by (apply (f_equal length) in Hd; rewrite length_drop in Hd; simpl in Hd; lia).
    rewrite (power_of_ext l (before idx) counts) by (intros i Hi; unfold before; by rewrite bool_decide_true by lia). case_bool_decide as Hn; split; [done|intros [_ ?]; lia|intros _; split; [|lia]|done].
    intros k cs Hk Hcs. apply lookup_lt_Some in Hcs. lia.
  - assert (Hcs : sigs !! idx = Some cs) by (rewrite <- (Nat.add_0_r idx), <- lookup_drop, Hd; done). assert (Hd' : drop (S idx) sigs = rest) by (by rewrite <- Nat.add_1_r, <- drop_drop, Hd).
    destruct (lookup_lt_is_Some_2 l idx) as [v Hv]; [apply lookup_lt_Some in Hcs; lia|]. pose proof (before_step idx v cs Hv Hcs) as Hstep.
    rewrite (all_from_step idx cs Hcs). destruct (ignoreSig cs) eqn:Hig; [cbn [negb andb] in Hstep; rewrite Z.add_0_r in Hstep; rewrite <- Hstep, IH by done; intuition congruence|]. cbn [negb andb] in Hstep.
    rewrite (valid_sig_at idx v cs Hv Hcs). unfold sig_validator. rewrite Hby, Hv. cbn [mbind option_bind].
    destruct (decide (v_Address v = cs_ValidatorAddress cs)) as [Ha|Ha]; [rewrite bool_decide_false by auto|rewrite bool_decide_true by done; refute].
    destruct (commit_VoteSignBytes _ _ _) as [[bz|]|]; cbn [mbind option_bind]; [|refute|refute]. destruct (cs_Signature cs) as [sig|]; [|refute].
    destruct (key_Verify _ _ _) eqn:Hver; cbn [negb]; [|refute]. rewrite Hall. cbv zeta. cbn [negb andb]. rewrite Hall, Hby in IH.
    replace (if countSig cs then _ else _) with (power_of l (before (S idx))); [rewrite (IH _ _ Hd'); intuition eauto|]. rewrite Hstep. destruct (countSig cs); [|lia].
    symmetry. apply int64_small. rewrite <- Hstep. pose proof (power_of_bound l (before (S idx)) powers_nonneg'). pose proof (po_total _ Hp). pose proof M_value. unfold MaxInt64 in *. lia.
Qed.

(** ** Batches *)
Definition entry_ok (e : bytes * bytes * bytes) : bool := let '(key, msg, sig) := e in key_Verify key msg sig.
Lemma batch_acc rest : forall idx t seen acc, batch rest idx t seen acc = match batch rest idx t seen [] with Some (inl (t', b)) => Some (inl (t', acc ++ b)) | r => r end.
Proof.
  induction rest as [|cs rest IH]; intros idx t seen acc; cbn [batch_loop]; [by rewrite app_nil_r|]. destruct (ignoreSig cs); [apply IH|].
  destruct (sig_validator vals byIndex idx cs seen) as [[[[v seen']|]|e]|]; cbn [mbind option_bind]; [|apply IH|done|done].
  destruct (commit_VoteSignBytes _ _ _) as [[bz|]|]; cbn [mbind option_bind]; [|done|done]. destruct (cs_Signature cs) as [sig|]; [|done]. cbv zeta.
  destruct (negb countAll && _); [done|]. rewrite (IH _ _ _ (acc ++ _)), (IH _ _ _ ([] ++ _)). destruct (batch rest _ _ _ []) as [[[t' b]|e]|]; [|done|done]. by rewrite <- app_assoc.
Qed.
Lemma single_batch rest : forall idx t seen, single rest idx t seen = Some None <-> exists t' b, batch rest idx t seen [] = Some (inl (t', b)) /\ needed < t' /\ forallb entry_ok b.*2 = true.
Proof.
  induction rest as [|cs rest IH]; intros idx t seen; cbn [single_loop batch_loop].
  - case_bool_decide as Hn; split; [done|intros (t' & b & [= -> <-] & Ht & _); lia|intros _; exists t, []; split_and!; [done|lia|done]|done].
  - destruct (ignoreSig cs); [apply IH|]. destruct (sig_validator vals byIndex idx cs seen) as [[[[v seen']|]|e]|]; cbn [mbind option_bind]; [|apply IH|by split; [|intros (? & ? & ? & _)]|by split; [|intros (? & ? & ? & _)]].
    destruct (commit_VoteSignBytes _ _ _) as [[bz|]|]; cbn [mbind option_bind]; [|by split; [|intros (? & ? & ? & _)]|by split; [|intros (? & ? & ? & _)]]. destruct (cs_Signature cs) as [sig|]; [|by split; [|intros (? & ? & ? & _)]]. cbv zeta.
    set (t1 := if countSig cs then _ else _). destruct (negb countAll && bool_decide (needed < t1)) eqn:Hearly.
    + apply andb_true_iff in Hearly as [_ Hn%bool_decide_eq_true]. destruct (key_Verify _ _ _) eqn:Hver; cbn [negb].
      * split; [intros _|done]. eexists _, _. split; [done|]. split; [done|]. simpl. by rewrite Hver.
      * split; [done|]. intros (t' & b & [= <- <-] & _ & Hb). simpl in Hb. by rewrite Hver in Hb.
    + rewrite batch_acc. destruct (key_Verify _ _ _) eqn:Hver; cbn [negb].
      * rewrite IH. split; intros (t' & b & Hb & Hn & Hok).
        -- rewrite Hb. eexists _, _. split; [done|]. split; [done|]. simpl. by rewrite Hver.
        -- destruct (batch rest _ _ _ []) as [[[t2 b2]|e]|]; [|done|done]. injection Hb as -> <-. simpl in Hok. rewrite Hver in Hok. by exists t', b2.
      * split; [done|]. intros (t' & b & Hb & _ & Hok). destruct (batch rest _ _ _ []) as [[[t2 b2]|e]|]; [|done|done]. injection Hb as _ <-. simpl in Hok. by rewrite Hver in Hok.
Qed.
Lemma tallied_nonempty rest : forall idx t seen t', batch rest idx t seen [] = Some (inl (t', [])) -> t' = t.
Proof.
  induction rest as [|cs rest IH]; intros idx t seen t'; cbn [batch_loop]; [by intros [= ->]|]. destruct (ignoreSig cs); [apply IH|].
  destruct (sig_validator vals byIndex idx cs seen) as [[[[v seen']|]|e]|]; cbn [mbind option_bind]; [|apply IH|done|done].
  destruct (commit_VoteSignBytes _ _ _) as [[bz|]|]; cbn [mbind option_bind]; [|done|done]. destruct (cs_Signature cs) as [sig|]; [|done]. cbv zeta. destruct (negb countAll && _); [done|].
  rewrite batch_acc. by destruct (batch rest _ _ _ []) as [[[t2 b2]|e]|].
Qed.
Lemma batch_Verify_none `{!CryptoLaws} es : batch_Verify es = Some None <-> es <> [] /\ forallb entry_ok es = true.
Proof.
  unfold batch_Verify. rewrite batch_results. change (fun '(key, msg, sig) => VerifyWithOptions key msg sig) with entry_ok. destruct (decide (es = [])) as [->|Hne]; [by split; [|intros [? _]]|].
  rewrite (bool_decide_true (es <> [])) by done. cbn [andb]. destruct (forallb entry_ok es); [done|]. split; [|by intros [_ ?]]. by destruct (list_find _ _) as [[]|].
Qed.
Lemma verifyCommitBatch_iff `{!CryptoLaws} : (2 <= length sigs)%nat -> 0 <= needed ->
  verifyCommitBatch chainID vals commit needed ignoreSig countSig countAll byIndex = Some None <-> verifyCommitSingle chainID vals commit needed ignoreSig countSig countAll byIndex = Some None.
Proof.
  intros H2 Hn. unfold verifyCommitBatch, verifyCommitSingle, batchVerifyThreshold. rewrite single_batch, bool_decide_false by lia. destruct (batch sigs 0 0 ∅ []) as [[[t b]|e]|] eqn:Hb; cbn [mbind option_bind].
  - case_bool_decide as Ht; [split; [done|]; intros (t' & b' & [= -> _] & ? & _); lia|]. assert (Hbne : b.*2 <> []) by (destruct b; [apply tallied_nonempty in Hb; lia|done]).
    pose proof (batch_Verify_none b.*2) as Hbv. destruct (batch_Verify b.*2) as [[k|]|]; cbn [mbind option_bind].
    + split; [by destruct (b !! k)|]. intros (t' & b' & [= <- <-] & _ & Hok). by apply proj2 in Hbv; specialize (Hbv (conj Hbne Hok)).
    + split; [intros _|done]. exists t, b. split_and!; [done|lia|]. by apply Hbv.
    + split; [done|]. intros (t' & b' & [= <- <-] & _ & Hok). by apply proj2 in Hbv; specialize (Hbv (conj Hbne Hok)).
  - split; [done|by intros (? & ? & ? & _)].
  - split; [done|by intros (? & ? & ? & _)].
Qed.
End Loops.

(** ** What is accepted *)
Lemma bid_Equals_eq a b : bid_Equals a b = bool_decide (a = b).
Proof.
  unfold bid_Equals, psh_Equals. destruct a as [ha [ta pa]], b as [hb [tb pb]]. cbn [bid_Hash bid_PartSetHeader psh_Total psh_Hash].
  apply eq_iff_eq_true. rewrite !andb_true_iff, !bool_decide_eq_true. split; [by intros (-> & -> & ->)|by intros [= -> -> ->]].
Qed.
Lemma two_thirds p t : 0 <= p <= M -> Z.quot (int64 (p * 2)) 3 < t <-> 2 * p < 3 * t.
Proof.
  intros Hp. pose proof M_value. unfold MaxInt64 in *. rewrite int64_small by lia. rewrite Z.quot_div_nonneg by lia. pose proof (Z.div_mod (p * 2) 3). pose proof (Z.mod_pos_bound (p * 2) 3). lia.
Qed.

Section Accepted.
Context `{ST : StdTime} `{CR : Crypto} `{CRL : !CryptoLaws}.
Implicit Types (vals : ValidatorSet) (commit : Commit).

(** Validator [i] signed for the block. *)
Definition for_block commit (i : nat) : bool := match cm_Signatures commit !! i with Some cs => is_flag BlockIDFlagCommit cs | None => false end.
Lemma total_range vals : powers_ok (Validators vals) -> 0 <= power (Validators vals) <= M.
Proof. intros Hp. pose proof (power_size _ Hp). pose proof (po_total _ Hp). lia. Qed.
Lemma verify_iff chainID vals commit needed ign cnt all by_ : 0 <= needed ->
  (if shouldBatchVerify commit then verifyCommitBatch else verifyCommitSingle) chainID vals commit needed ign cnt all by_ = Some None <-> verifyCommitSingle chainID vals commit needed ign cnt all by_ = Some None.
Proof. intros Hn. unfold shouldBatchVerify, batchVerifyThreshold. case_bool_decide; [by apply verifyCommitBatch_iff|done]. Qed.
Lemma basic_none vals commit height blockID : verifyBasicValsAndCommit vals commit height blockID = None <->
  length (cm_Signatures commit) = length (Validators vals) /\ cm_Height commit = height /\ cm_BlockID commit = blockID.
Proof.
  unfold verifyBasicValsAndCommit, vals_Size. rewrite bid_Equals_eq. destruct (decide (length (cm_Signatures commit) = length (Validators vals))) as [Hl|Hl].
  2: { rewrite bool_decide_true by lia. split; [done|by intros [? _]]. }
  rewrite (bool_decide_false (Z.of_nat _ <> _)) by lia. destruct (decide (height = cm_Height commit)) as [Hh|Hh].
  2: { rewrite bool_decide_true by done. split; [done|]. intros (_ & ? & _). by destruct Hh. }
  rewrite (bool_decide_false (height <> _)) by auto. case_bool_decide as Hb; cbn [negb]; split; try done. intros (_ & _ & ?). by destruct Hb.
Qed.

Lemma VerifyCommit_iff chainID vals blockID height commit : powers_ok (Validators vals) -> cache_ok vals ->
  (exists vals', VerifyCommit chainID vals blockID height commit = Some (vals', None)) <->
  cm_Height commit = height /\ cm_BlockID commit = blockID /\ length (cm_Signatures commit) = length (Validators vals) /\
  (forall i cs, cm_Signatures commit !! i = Some cs -> cs_BlockIDFlag cs <> BlockIDFlagAbsent -> valid_sig chainID vals commit i i) /\
  2 * power (Validators vals) < 3 * power_of (Validators vals) (for_block commit).
Proof.
  intros Hp Hc. pose proof (total_range vals Hp) as Hr. unfold VerifyCommit. pose proof (basic_none vals commit height blockID) as Hb. destruct (verifyBasicValsAndCommit _ _ _ _) as [e|].
  { split; [by intros [? ?]|]. intros (? & ? & ? & _). destruct Hb as [_ Hb]. by discriminate Hb. }
  destruct Hb as [Hb _]. destruct (Hb eq_refl) as (Hlen & Hh & Hid). rewrite TotalVotingPower_exact by done. cbn [mbind option_bind]. set (needed := Z.quot _ 3). set (vals1 := with_total _ vals).
  assert (Hthird : forall t, needed < t <-> 2 * power (Validators vals) < 3 * t) by (intros t; by apply two_thirds).
  assert (Hn0 : 0 <= needed) by (pose proof M_value; unfold MaxInt64, needed in *; rewrite int64_small by lia; apply Z.quot_pos; lia).
  pose proof (verify_iff chainID vals1 commit needed (is_flag BlockIDFlagAbsent) (is_flag BlockIDFlagCommit) true true Hn0) as Hv.
  pose proof (single_exact chainID vals1 commit needed (is_flag BlockIDFlagAbsent) (is_flag BlockIDFlagCommit) true true Hp (cm_Signatures commit) eq_refl eq_refl Hlen 0%nat ∅ (drop_0 _)) as He.
  change (Validators vals1) with (Validators vals) in He. rewrite (power_of_ext _ (before _ _ _ 0) (fun _ => false)), power_of_none in He by done. unfold verifyCommitSingle in Hv at 2. rewrite He in Hv.
  rewrite (power_of_ext _ (counts _ _ _) (for_block commit)), Hthird in Hv.
  2: { intros i _. unfold counts, for_block. destruct (_ !! i) as [cs|]; [|done]. unfold is_flag. destruct (decide (cs_BlockIDFlag cs = BlockIDFlagCommit)) as [->|]; [done|]. by rewrite (bool_decide_false (_ = BlockIDFlagCommit)), andb_false_r. }
  assert (Hall : all_from chainID vals1 commit (is_flag BlockIDFlagAbsent) 0 <-> forall i cs, cm_Signatures commit !! i = Some cs -> cs_BlockIDFlag cs <> BlockIDFlagAbsent -> valid_sig chainID vals commit i i).
  { unfold all_from, is_flag. split; intros H i cs; [intros Hcs Hf; apply (H i cs); [lia|done|by apply bool_decide_eq_false_2]|intros _ Hcs Hf%bool_decide_eq_false; by apply (H i cs)]. }
  rewrite Hall in Hv. destruct ((if shouldBatchVerify commit then _ else _) _ _ _ _ _ _ _ _) as [[e|]|]; cbn [mbind option_bind].
  - split; [by intros [? ?]|]. intros (_ & _ & _ & H1 & H2). destruct Hv as [_ Hv]. by discriminate (Hv (conj H1 H2)).
  - split; [intros _|by eexists]. destruct Hv as [Hv _]. destruct (Hv eq_refl). done.
  - split; [by intros [? ?]|]. intros (_ & _ & _ & H1 & H2). destruct Hv as [_ Hv]. by discriminate (Hv (conj H1 H2)).
Qed.
(** C16. The commits that are accepted for a block are exactly those with a signature slot for
    every validator in which all signatures given are valid and those for the block have more
    than two thirds of the power.  No commit is accepted by the batch verification and
    refused by the other, or the other way round. *)
Theorem VerifyCommit_exact chainID vals blockID height commit : powers_ok (Validators vals) -> cache_ok vals ->
  (exists vals', VerifyCommit chainID vals blockID height commit = Some (vals', None)) <->
  cm_Height commit = height /\ cm_BlockID commit = blockID /\ length (cm_Signatures commit) = length (Validators vals) /\
  (forall i cs, cm_Signatures commit !! i = Some cs -> cs_BlockIDFlag cs <> BlockIDFlagAbsent -> valid_sig chainID vals commit i i) /\
  2 * power (Validators vals) < 3 * power_of (Validators vals) (for_block commit).
Proof. apply VerifyCommit_iff. Qed.

(** ** Light verification *)
Lemma empty_tally chainID vals commit ign cnt by_ : tally chainID vals commit ign cnt by_ 0 0 ∅ (fun _ => false).
Proof. split; [by rewrite power_of_none|done|done]. Qed.
(** Signers of the block: validator [j] has a valid signature for the block in the commit. *)
Definition signer chainID vals commit (j : nat) : Prop := exists k, valid_sig chainID vals commit j k /\ for_block commit k = true.
Lemma signers chainID vals commit needed all by_ : powers_ok (Validators vals) -> 0 <= needed ->
  (if shouldBatchVerify commit then verifyCommitBatch else verifyCommitSingle) chainID vals commit needed (fun c => negb (is_flag BlockIDFlagCommit c)) (fun _ => true) all by_ = Some None ->
  exists P, needed < power_of (Validators vals) P /\ forall j, P j = true -> signer chainID vals commit j /\ (by_ = true -> valid_sig chainID vals commit j j /\ for_block commit j = true).
Proof.
  intros Hp Hn. rewrite verify_iff by done. unfold verifyCommitSingle. intros Hs.
  destruct (single_sound chainID vals commit needed _ _ all by_ Hp (cm_Signatures commit) 0%nat 0 ∅ _ (drop_0 _) (empty_tally chainID vals commit _ _ by_) Hs) as (P & Hpow & HP). exists P. split; [done|].
  intros j Hj. destruct (HP j Hj) as (k & cs & Hval & Hcs & Hig & _ & Hby). assert (Hfb : for_block commit k = true) by (unfold for_block; rewrite Hcs; by apply negb_false_iff).
  split; [by exists k|]. intros Hb. by rewrite (Hby Hb) in Hval, Hfb.
Qed.
Lemma Light_sound chainID vals blockID height commit all vals' : powers_ok (Validators vals) -> cache_ok vals -> verifyCommitLightInternal chainID vals blockID height commit all = Some (vals', None) ->
  cm_Height commit = height /\ cm_BlockID commit = blockID /\
  exists P, 2 * power (Validators vals) < 3 * power_of (Validators vals) P /\ forall j, P j = true -> valid_sig chainID vals commit j j /\ for_block commit j = true.
Proof.
  intros Hp Hc. pose proof (total_range vals Hp) as Hr. unfold verifyCommitLightInternal. pose proof (basic_none vals commit height blockID) as Hb. destruct (verifyBasicValsAndCommit _ _ _ _) as [e|]; [done|].
  destruct Hb as [Hb _]. destruct (Hb eq_refl) as (Hlen & Hh & Hid). rewrite TotalVotingPower_exact by done. cbn [mbind option_bind]. set (vals1 := with_total _ vals).
  destruct ((if shouldBatchVerify commit then _ else _) _ _ _ _ _ _ _ _) as [err|] eqn:Hv; cbn [mbind option_bind]; [|done]. intros [= _ ->]. split_and!; [done|done|].
  apply signers in Hv as (P & Hpow & HP); [|done|pose proof M_value; unfold MaxInt64 in *; rewrite int64_small by lia; apply Z.quot_pos; lia]. exists P. split; [by apply two_thirds|]. intros j Hj. by apply HP.
Qed.

(** A fraction that is a trust level of a set: both parts are [int64] and the product with
    the total power is one. *)
Definition level_ok vals (f : Fraction) : Prop := 0 < Numerator f /\ 0 < Denominator f < 2 ^ 63 /\ power (Validators vals) * Numerator f < 2 ^ 63.
Lemma safeMul_exact a b : 0 < a -> 0 < b -> a * b < 2 ^ 63 -> safeMul a b = (a * b, false).
Proof.
  intros Ha Hb Hab. unfold safeMul. rewrite (bool_decide_false (a = 0)), (bool_decide_false (b = 0)), (bool_decide_false (b < 0)), (bool_decide_false (a < 0)) by lia. cbn [orb]. rewrite (int64_small (a * b)) by lia. rewrite bool_decide_false; [done|]. apply Z.le_ngt. rewrite Z.quot_div_nonneg by (unfold MaxInt64; lia).
  apply Z.div_le_lower_bound; unfold MaxInt64; lia.
Qed.
(** C8. The verifications of the light client are sound, with and without the early exit and for
    batches and single signatures: an accepted commit has valid signatures for the block of
    validators with more than two thirds of the power, or, for a set that is trusted to a
    fraction and need not be the one of the commit, of validators with more than that
    fraction; every validator counts once. *)
Theorem VerifyCommitLight_sound chainID vals blockID height commit trustLevel vals' : powers_ok (Validators vals) -> cache_ok vals -> level_ok vals trustLevel ->
  (VerifyCommitLight chainID vals blockID height commit = Some (vals', None) \/ VerifyCommitLightAllSignatures chainID vals blockID height commit = Some (vals', None) ->
    cm_Height commit = height /\ cm_BlockID commit = blockID /\
    exists P, 2 * power (Validators vals) < 3 * power_of (Validators vals) P /\ forall j, P j = true -> valid_sig chainID vals commit j j /\ for_block commit j = true) /\
  (VerifyCommitLightTrusting chainID vals commit trustLevel = Some (vals', None) \/ VerifyCommitLightTrustingAllSignatures chainID vals commit trustLevel = Some (vals', None) ->
    exists P, Numerator trustLevel * power (Validators vals) < Denominator trustLevel * power_of (Validators vals) P /\ forall j, P j = true -> signer chainID vals commit j).
Proof.
  intros Hp Hc (Hnum & Hden & Hprod). split; [intros [H|H]; by eapply Light_sound|]. pose proof (power_size _ Hp) as Hsz. pose proof (po_total _ Hp). pose proof M_value. unfold MaxInt64 in *.
  assert (Hgo : forall all, verifyCommitLightTrustingInternal chainID vals commit trustLevel all = Some (vals', None) ->
    exists P, Numerator trustLevel * power (Validators vals) < Denominator trustLevel * power_of (Validators vals) P /\ forall j, P j = true -> signer chainID vals commit j); [|intros [H'|H']; by eapply Hgo].
  intros all. unfold verifyCommitLightTrustingInternal. rewrite bool_decide_false, TotalVotingPower_exact by (done || lia). cbn [mbind option_bind]. rewrite int64_small by nia. rewrite safeMul_exact by lia.
  rewrite (int64_small (Denominator _)) by lia. set (p := power (Validators vals)) in *. set (needed := int64 _).
  assert (Hneeded : needed = (p * Numerator trustLevel) / Denominator trustLevel).
  { unfold needed. rewrite Z.quot_div_nonneg by nia. apply int64_small. pose proof (Z.div_pos (p * Numerator trustLevel) (Denominator trustLevel)). pose proof (Z.div_le_upper_bound (p * Numerator trustLevel) (Denominator trustLevel) (2 ^ 63 - 1)). nia. }
  destruct ((if shouldBatchVerify commit then _ else _) _ _ _ _ _ _ _ _) as [err|] eqn:Hv; cbn [mbind option_bind]; [|done]. intros [= _ ->].
  apply signers in Hv as (P & Hpow & HP); [|done|rewrite Hneeded; apply Z.div_pos; nia]. exists P. split; [|intros j Hj; by apply HP].
  change (Validators (with_total p vals)) with (Validators vals) in Hpow. rewrite Hneeded in Hpow. pose proof (Z.div_mod (p * Numerator trustLevel) (Denominator trustLevel)). pose proof (Z.mod_pos_bound (p * Numerator trustLevel) (Denominator trustLevel)). nia.
Qed.

(** ** Two commits *)
Context `{STL : !StdTimeLaws}.
(** The fields of a commit are in the ranges of their types. *)
Record commit_typed (chainID : bytes) commit : Prop := {
  ct_height : - 2 ^ 63 <= cm_Height commit < 2 ^ 63;
  ct_round : - 2 ^ 31 <= cm_Round commit < 2 ^ 31;
  ct_total : 0 <= psh_Total (bid_PartSetHeader (cm_BlockID commit));
  ct_length : Z.of_nat (length (cm_Signatures commit)) < 2 ^ 31;
  ct_chain : len chainID < 2 ^ 62
}.
Definition accepts chainID vals blockID height commit : Prop := exists vals',
  VerifyCommit chainID vals blockID height commit = Some (vals', None) \/ VerifyCommitLight chainID vals blockID height commit = Some (vals', None).
Lemma accepts_signers chainID vals blockID height commit : powers_ok (Validators vals) -> cache_ok vals -> accepts chainID vals blockID height commit ->
  cm_Height commit = height /\ cm_BlockID commit = blockID /\
  exists P, 2 * power (Validators vals) < 3 * power_of (Validators vals) P /\ forall j, P j = true -> valid_sig chainID vals commit j j /\ for_block commit j = true.
Proof.
  intros Hp Hc (vals' & [H|H]); [|by eapply Light_sound]. destruct (VerifyCommit_iff chainID vals blockID height commit Hp Hc) as [He _].
  destruct (He ltac:(by exists vals')) as (Hh & Hid & _ & Hall & Hpow). split_and!; [done|done|]. exists (for_block commit). split; [done|]. intros j Hj. split; [|done].
  unfold for_block in Hj. destruct (cm_Signatures commit !! j) as [cs|] eqn:Hcs; [|done]. apply (Hall j cs Hcs). apply bool_decide_eq_true in Hj. by rewrite Hj.
Qed.
Lemma bytes_time chainID v bz : VoteSignBytes chainID v = Some bz -> bid_ValidateBasic (vt_BlockID v) = None /\ is_Some (StdTimeMarshal (vt_Timestamp v)).
Proof.
  unfold VoteSignBytes, CanonicalizeVote, CanonicalizeBlockID. destruct (bid_ValidateBasic _); [done|]. cbn [mbind option_bind]. unfold MarshalDelimited, marshal, to_sized_buffer. cbv zeta. intros Hb. split; [done|].
  destruct (StdTimeMarshal (vt_Timestamp v)) as [t|] eqn:Ht; [done|]. unfold CanonicalVote_fields in Hb. cbn [cv_Timestamp] in Hb. rewrite Ht in Hb. by destruct (field_bytes _ _ _).
Qed.
Lemma signed_vote chainID vals commit j : commit_typed chainID commit -> valid_sig chainID vals commit j j -> for_block commit j = true ->
  exists v vote bz sig, Validators vals !! j = Some v /\ GetVote commit (Z.of_nat j) = Some (Some vote) /\ vt_Height vote = cm_Height commit /\ vt_BlockID vote = cm_BlockID commit /\
    signable chainID vote /\ VoteSignBytes chainID vote = Some bz /\ key_Verify (v_PubKey v) bz sig = true.
Proof.
  intros [Hh Hr Ht Hl Hc] (v & cs & bz & sig & Hv & Hcs & _ & Hbz & _ & Hver) Hfb. unfold for_block in Hfb. rewrite Hcs in Hfb. apply bool_decide_eq_true in Hfb. pose proof (lookup_lt_Some _ _ _ Hcs).
  assert (Hi : int32 (Z.of_nat j) = Z.of_nat j) by (unfold int32; rewrite Z.mod_small; lia). rewrite Hi in Hbz. unfold commit_VoteSignBytes in Hbz. destruct (GetVote commit (Z.of_nat j)) as [[vote|]|] eqn:Hg; [|done|done]. cbn [mbind option_bind] in Hbz.
  destruct (VoteSignBytes chainID vote) as [bz'|] eqn:Hb; [|done]. injection Hbz as ->. exists v, vote, bz, sig. destruct (bytes_time _ _ _ Hb) as [Hbid Htime].
  unfold GetVote in Hg. rewrite !bool_decide_false, Nat2Z.id, Hcs in Hg by lia. cbn [mbind option_bind] in Hg. unfold cs_BlockID in Hg. rewrite Hfb in Hg. cbn in Hg. injection Hg as <-. split_and!; try done.
Qed.

(** C6. Accountability: two commits of one height for different blocks, accepted with the same
    validators, show that validators with more than a third of the power signed precommits
    for both blocks, each by two valid signatures under the key of the validator on
    different bytes. *)
Theorem commits_accountable chainID vals height commit blockID commit' blockID' : powers_ok (Validators vals) -> cache_ok vals -> commit_typed chainID commit -> commit_typed chainID commit' ->
  accepts chainID vals blockID height commit -> accepts chainID vals blockID' height commit' -> blockID <> blockID' ->
  exists P, power (Validators vals) < 3 * power_of (Validators vals) P /\ forall j, P j = true -> exists v vote vote' bz bz' sig sig',
    Validators vals !! j = Some v /\ GetVote commit (Z.of_nat j) = Some (Some vote) /\ GetVote commit' (Z.of_nat j) = Some (Some vote') /\
    vt_Height vote = height /\ vt_Height vote' = height /\ vt_BlockID vote = blockID /\ vt_BlockID vote' = blockID' /\
    VoteSignBytes chainID vote = Some bz /\ VoteSignBytes chainID vote' = Some bz' /\ bz <> bz' /\ key_Verify (v_PubKey v) bz sig = true /\ key_Verify (v_PubKey v) bz' sig' = true.
Proof.
  intros Hp Hc Ht Ht' Ha Ha' Hne. destruct (accepts_signers _ _ _ _ _ Hp Hc Ha) as (Hh & Hid & P & Hpow & HP), (accepts_signers _ _ _ _ _ Hp Hc Ha') as (Hh' & Hid' & P' & Hpow' & HP').
  exists (fun j => P j && P' j). pose proof (power_of_overlap (Validators vals) P P' (powers_nonneg' vals Hp)). split; [lia|]. intros j [Hj Hj']%andb_true_iff.
  destruct (HP j Hj) as [H1 H2], (HP' j Hj') as [H1' H2']. destruct (signed_vote _ _ _ _ Ht H1 H2) as (v & vote & bz & sig & Hv & Hg & Hvh & Hvb & Hs & Hb & Hver).
  destruct (signed_vote _ _ _ _ Ht' H1' H2') as (v' & vote' & bz' & sig' & Hv' & Hg' & Hvh' & Hvb' & Hs' & Hb' & Hver'). rewrite Hv in Hv'. injection Hv' as <-. exists v, vote, vote', bz, bz', sig, sig'. split_and!; try congruence.
  intros ->. rewrite <- Hb' in Hb. apply (signable_inj _ _ _ _ Hs Hs') in Hb as (_ & _ & _ & _ & Hbb & _). congruence.
Qed.
End Accepted.
