(* ===== verification/VoteSet.v ===== *)
(** Vote sets ([sei-tendermint/types/vote_set.go], [Vote.Verify] of [vote.go] and [ToVoteSet]
    of [block.go]): the votes of one height, round and type, with conflicting votes tracked by
    block, and the commit that is made of them.

    A vote set is not nil.  A [blockVotes] behind its pointer is written back to the map. *)
From stdpp Require Import base gmap sets list.
From Stdlib Require Import ZArith Lia.
From S2P Require Import Prelude Proto Valset BitArray SignBytes Commit.
Local Open Scope Z_scope.

Record blockVotes := mkBlockVotes { bv_peerMaj23 : bool; bv_bitArray : option BitArray; bv_votes : list (option Vote); bv_sum : Z }.
Record VoteSet := mkVoteSet {
  vs_chainID : bytes;
  vs_height : Z;
  vs_round : Z;
  vs_signedMsgType : Z;
  vs_valSet : ValidatorSet;
  vs_votesBitArray : option BitArray;
  vs_votes : list (option Vote);
  vs_sum : Z;
  vs_maj23 : option BlockID;
  vs_votesByBlock : gmap bytes blockVotes;
  vs_peerMaj23s : gmap bytes BlockID
}.

Section Fields.
Variable vs : VoteSet.
Definition with_valSet v := mkVoteSet (vs_chainID vs) (vs_height vs) (vs_round vs) (vs_signedMsgType vs) v (vs_votesBitArray vs) (vs_votes vs) (vs_sum vs) (vs_maj23 vs) (vs_votesByBlock vs) (vs_peerMaj23s vs).
Definition with_votes bits votes sum := mkVoteSet (vs_chainID vs) (vs_height vs) (vs_round vs) (vs_signedMsgType vs) (vs_valSet vs) bits votes sum (vs_maj23 vs) (vs_votesByBlock vs) (vs_peerMaj23s vs).
Definition with_maj23 m votes := mkVoteSet (vs_chainID vs) (vs_height vs) (vs_round vs) (vs_signedMsgType vs) (vs_valSet vs) (vs_votesBitArray vs) votes (vs_sum vs) m (vs_votesByBlock vs) (vs_peerMaj23s vs).
Definition with_blocks m := mkVoteSet (vs_chainID vs) (vs_height vs) (vs_round vs) (vs_signedMsgType vs) (vs_valSet vs) (vs_votesBitArray vs) (vs_votes vs) (vs_sum vs) (vs_maj23 vs) m (vs_peerMaj23s vs).
Definition with_peers m := mkVoteSet (vs_chainID vs) (vs_height vs) (vs_round vs) (vs_signedMsgType vs) (vs_valSet vs) (vs_votesBitArray vs) (vs_votes vs) (vs_sum vs) (vs_maj23 vs) (vs_votesByBlock vs) m.
End Fields.

Definition NewVoteSet (chainID : bytes) (height round signedMsgType : Z) (valSet : ValidatorSet) : option VoteSet :=
  if bool_decide (height = 0) then None
  else Some (mkVoteSet chainID height round signedMsgType valSet (NewBitArray (vals_Size valSet)) (replicate (Z.to_nat (vals_Size valSet)) None) 0 None ∅ ∅).

Inductive VoteError :=
| ErrVoteUnexpectedStep | ErrVoteInvalidValidatorIndex | ErrVoteInvalidValidatorAddress | ErrVoteInvalidSignature | ErrVoteNonDeterministicSignature
| ErrVoteConflictingVotes (voteA voteB : Vote).

(** ** Votes for one block *)
Definition newBlockVotes (peerMaj23 : bool) (numValidators : Z) : blockVotes :=
  mkBlockVotes peerMaj23 (NewBitArray numValidators) (replicate (Z.to_nat numValidators) None) 0.
Definition bv_addVerifiedVote (bv : blockVotes) (vote : Vote) (votingPower : Z) : option blockVotes :=
  let valIndex := vt_ValidatorIndex vote in
  existing ← bv_votes bv !! Z.to_nat valIndex;
  match existing with
  | Some _ => Some bv
  | None =>
      '(bits, _) ← SetIndex (bv_bitArray bv) valIndex true;
      Some (mkBlockVotes (bv_peerMaj23 bv) bits (<[Z.to_nat valIndex := Some vote]> (bv_votes bv)) (int64 (bv_sum bv + votingPower)))
  end.
Definition bv_getByIndex (bv : option blockVotes) (index : Z) : option (option Vote) :=
  match bv with Some bv => bv_votes bv !! Z.to_nat index | None => Some None end.

Section Votes.
Context `{StdTime} `{Crypto}.
(** ** Adding a vote *)
Definition vote_Verify (vote : Vote) (chainID pubKey : bytes) : option (option VoteError) :=
  if bool_decide (Address pubKey <> vt_ValidatorAddress vote) then Some (Some ErrVoteInvalidValidatorAddress)
  else
    match vt_Signature vote with
    | None => Some (Some ErrVoteInvalidSignature)
    | Some sig => bz ← VoteSignBytes chainID vote; Some (if key_Verify pubKey bz sig then None else Some ErrVoteInvalidSignature)
    end.

(** The index is not negative here. *)
Definition getVote (vs : VoteSet) (valIndex : Z) (blockKey : bytes) : option (option Vote) :=
  existing ← vs_votes vs !! Z.to_nat valIndex;
  found ← match existing with Some v => k ← Key (vt_BlockID v); Some (bool_decide (k = blockKey)) | None => Some false end;
  if (found : bool) then Some existing else bv_getByIndex (vs_votesByBlock vs !! blockKey) valIndex.

Definition put_vote (vs : VoteSet) (vote : Vote) (sum : Z) : option VoteSet :=
  let valIndex := vt_ValidatorIndex vote in
  '(bits, _) ← SetIndex (vs_votesBitArray vs) valIndex true;
  Some (with_votes vs bits (<[Z.to_nat valIndex := Some vote]> (vs_votes vs)) sum).
(** [for i, vote := range votesByBlock.votes { if vote != nil { voteSet.votes[i] = vote } }] *)
Fixpoint copy_votes (from to : list (option Vote)) : option (list (option Vote)) :=
  match from, to with
  | [], _ => Some to
  | None :: from, [] => copy_votes from []
  | Some _ :: _, [] => None
  | None :: from, v :: to => to ← copy_votes from to; Some (v :: to)
  | Some w :: from, _ :: to => to ← copy_votes from to; Some (Some w :: to)
  end.

(** The vote enters the canonical votes, if there is none of the validator or it is one for the
    majority. *)
Definition place_vote (vs : VoteSet) (vote : Vote) (blockKey : bytes) (votingPower : Z) (existing : option Vote) : option VoteSet :=
  match existing with
  | Some existing =>
      if bid_Equals (vt_BlockID existing) (vt_BlockID vote) then None
      else
        match vs_maj23 vs with
        | Some maj23 => k ← Key maj23; if bool_decide (k = blockKey) then put_vote vs vote (vs_sum vs) else Some vs
        | None => Some vs
        end
  | None => put_vote vs vote (int64 (vs_sum vs + votingPower))
  end.
(** The vote enters the votes of its block, which may reach the quorum. *)
Definition store_vote (vs : VoteSet) (vote : Vote) (blockKey : bytes) (votingPower : Z) (bv : blockVotes) : option VoteSet :=
  let origSum := bv_sum bv in
  '(valSet, total) ← TotalVotingPower (vs_valSet vs);
  let quorum := int64 (Z.quot (int64 (total * 2)) 3 + 1) in
  bv ← bv_addVerifiedVote bv vote votingPower;
  let vs := with_blocks (with_valSet vs valSet) (<[blockKey := bv]> (vs_votesByBlock vs)) in
  if bool_decide (origSum < quorum) && bool_decide (quorum <= bv_sum bv) then
    match vs_maj23 vs with
    | None => votes ← copy_votes (bv_votes bv) (vs_votes vs); Some (with_maj23 vs (Some (vt_BlockID vote)) votes)
    | Some _ => Some vs
    end
  else Some vs.
Definition addVerifiedVote (vs : VoteSet) (vote : Vote) (blockKey : bytes) (votingPower : Z) : option (VoteSet * (bool * option Vote)) :=
  conflicting ← vs_votes vs !! Z.to_nat (vt_ValidatorIndex vote);
  vs ← place_vote vs vote blockKey votingPower conflicting;
  let tracked := vs_votesByBlock vs !! blockKey in
  let refused := match tracked with
    | Some bv => bool_decide (conflicting <> None) && negb (bv_peerMaj23 bv)
    | None => bool_decide (conflicting <> None)
    end in
  if refused then Some (vs, (false, conflicting))
  else
    vs ← store_vote vs vote blockKey votingPower (default (newBlockVotes false (vals_Size (vs_valSet vs))) tracked);
    Some (vs, (true, conflicting)).

Definition addVote (vs : VoteSet) (vote : Vote) : option (VoteSet * (bool * option VoteError)) :=
  let valIndex := vt_ValidatorIndex vote in
  let valAddr := vt_ValidatorAddress vote in
  blockKey ← Key (vt_BlockID vote);
  if bool_decide (valIndex < 0) then Some (vs, (false, Some ErrVoteInvalidValidatorIndex))
  else if bool_decide (length valAddr = 0%nat) then Some (vs, (false, Some ErrVoteInvalidValidatorAddress))
  else if bool_decide (vt_Height vote <> vs_height vs) || bool_decide (vt_Round vote <> vs_round vs) || bool_decide (vt_Type vote <> vs_signedMsgType vs) then
    Some (vs, (false, Some ErrVoteUnexpectedStep))
  else
    match GetByIndex (vs_valSet vs) valIndex with
    | None => Some (vs, (false, Some ErrVoteInvalidValidatorIndex))
    | Some (lookupAddr, val) =>
        if bool_decide (valAddr <> lookupAddr) then Some (vs, (false, Some ErrVoteInvalidValidatorAddress))
        else
          existing ← getVote vs valIndex blockKey;
          match existing with
          | Some existing =>
              if bool_decide (vt_Signature existing = vt_Signature vote) then Some (vs, (false, None)) else Some (vs, (false, Some ErrVoteNonDeterministicSignature))
          | None =>
              err ← vote_Verify vote (vs_chainID vs) (v_PubKey val);
              match err with
              | Some err => Some (vs, (false, Some err))
              | None =>
                  '(vs, (added, conflicting)) ← addVerifiedVote vs vote blockKey (v_VotingPower val);
                  match conflicting with
                  | Some conflicting => Some (vs, (added, Some (ErrVoteConflictingVotes conflicting vote)))
                  | None => if (added : bool) then Some (vs, (added, None)) else None
                  end
              end
          end
    end.
Definition AddVote := addVote.

(** The error is [false]. *)
Definition SetPeerMaj23 (vs : VoteSet) (peerID : bytes) (blockID : BlockID) : option (VoteSet * bool) :=
  blockKey ← Key blockID;
  match vs_peerMaj23s vs !! peerID with
  | Some existing => Some (vs, bid_Equals existing blockID)
  | None =>
      let vs := with_peers vs (<[peerID := blockID]> (vs_peerMaj23s vs)) in
      let bv := match vs_votesByBlock vs !! blockKey with
        | Some bv => mkBlockVotes true (bv_bitArray bv) (bv_votes bv) (bv_sum bv)
        | None => newBlockVotes true (vals_Size (vs_valSet vs))
        end in
      Some (with_blocks vs (<[blockKey := bv]> (vs_votesByBlock vs)), true)
  end.

(** ** Reading *)
Definition vs_BitArray (vs : VoteSet) : option BitArray := ba_Copy (vs_votesBitArray vs).
Definition BitArrayByBlockID (vs : VoteSet) (blockID : BlockID) : option (option BitArray) :=
  k ← Key blockID;
  Some (match vs_votesByBlock vs !! k with Some bv => ba_Copy (bv_bitArray bv) | None => None end).
Definition vs_GetByIndex (vs : VoteSet) (valIndex : Z) : option (option Vote) :=
  if bool_decide (Z.of_nat (length (vs_votes vs)) <= valIndex) then Some None
  else if bool_decide (valIndex < 0) then None else vs_votes vs !! Z.to_nat valIndex.
Definition vs_GetByAddress (vs : VoteSet) (address : bytes) : option (option Vote) :=
  match GetByAddress (vs_valSet vs) address with Some (valIndex, _) => vs_votes vs !! valIndex | None => Some None end.
Definition vs_List (vs : VoteSet) : list Vote := omap id (vs_votes vs).
Definition HasTwoThirdsMajority (vs : VoteSet) : bool := bool_decide (vs_maj23 vs <> None).
Definition vs_IsCommit (vs : VoteSet) : bool := bool_decide (vs_signedMsgType vs = PrecommitType) && bool_decide (vs_maj23 vs <> None).
Definition HasTwoThirdsAny (vs : VoteSet) : option (VoteSet * bool) :=
  '(valSet, total) ← TotalVotingPower (vs_valSet vs);
  Some (with_valSet vs valSet, bool_decide (Z.quot (int64 (total * 2)) 3 < vs_sum vs)).
Definition HasAll (vs : VoteSet) : option (VoteSet * bool) :=
  '(valSet, total) ← TotalVotingPower (vs_valSet vs);
  Some (with_valSet vs valSet, bool_decide (vs_sum vs = total)).
Definition TwoThirdsMajority (vs : VoteSet) : BlockID * bool := match vs_maj23 vs with Some b => (b, true) | None => (empty_BlockID, false) end.

(** ** Commits *)
Definition vote_CommitSig (vote : option Vote) : option CommitSig :=
  match vote with
  | None => Some NewCommitSigAbsent
  | Some vote =>
      blockIDFlag ← (if bid_IsComplete (vt_BlockID vote) then Some BlockIDFlagCommit else if bid_IsNil (vt_BlockID vote) then Some BlockIDFlagNil else None);
      Some (mkCommitSig blockIDFlag (vt_ValidatorAddress vote) (vt_Timestamp vote) (vt_Signature vote))
  end.
Fixpoint commit_sigs (maj23 : BlockID) (votes : list (option Vote)) : option (list CommitSig) :=
  match votes with
  | [] => Some []
  | v :: votes =>
      sig ← vote_CommitSig v;
      let sig := match v with
        | Some v => if bool_decide (cs_BlockIDFlag sig = BlockIDFlagCommit) && negb (bid_Equals (vt_BlockID v) maj23) then NewCommitSigAbsent else sig
        | None => sig
        end in
      sigs ← commit_sigs maj23 votes;
      Some (sig :: sigs)
  end.
Definition MakeCommit (vs : VoteSet) : option Commit :=
  if bool_decide (vs_signedMsgType vs <> PrecommitType) then None
  else
    maj23 ← vs_maj23 vs;
    sigs ← commit_sigs maj23 (vs_votes vs);
    Some (mkCommit (vs_height vs) (vs_round vs) maj23 sigs).

Fixpoint add_sigs (commit : Commit) (sigs : list CommitSig) (idx : nat) (voteSet : VoteSet) : option VoteSet :=
  match sigs with
  | [] => Some voteSet
  | cs :: sigs =>
      if bool_decide (cs_BlockIDFlag cs = BlockIDFlagAbsent) then add_sigs commit sigs (S idx) voteSet
      else
        v ← GetVote commit (int32 (Z.of_nat idx));
        vote ← v;
        if bool_decide (vote_ValidateBasic vote <> None) then None
        else
          '(voteSet, (added, err)) ← AddVote voteSet vote;
          if negb added || bool_decide (err <> None) then None else add_sigs commit sigs (S idx) voteSet
  end.
Definition ToVoteSet (commit : Commit) (chainID : bytes) (vals : ValidatorSet) : option VoteSet :=
  voteSet ← NewVoteSet chainID (cm_Height commit) (cm_Round commit) PrecommitType vals;
  add_sigs commit (cm_Signatures commit) 0 voteSet.
End Votes.
