(* ===== verification/VoteSetSpec.v ===== *)
(** Vote sets: the invariant of the votes, sums, bit arrays and the majority, and that every
    operation keeps it and does not panic. *)
From stdpp Require Import base gmap sets list.
From Stdlib Require Import ZArith Lia.
From S2P Require Import Prelude Proto ProtoSpec Valset ValsetPrio BitArray BitArraySpec SignBytes SignBytesSpec Commit CommitSpec VoteSet.
Local Open Scope Z_scope.

Definition has (votes : list (option Vote)) (i : nat) : bool := match votes !! i with Some (Some _) => true | _ => false end.
Lemma has_true votes i : has votes i = true <-> exists v, votes !! i = Some (Some v).
Proof. unfold has. destruct (votes !! i) as [[v|]|]; naive_solver. Qed.
Lemma has_insert votes i v j : (i < length votes)%nat -> has (<[i := Some v]> votes) j = add_index i (has votes) j.
Proof.
  intros Hi. unfold has, add_index. destruct (decide (j = i)) as [->|Hne]; [by rewrite list_lookup_insert_eq, bool_decide_true by done|]. by rewrite list_lookup_insert_ne, bool_decide_false by done.
Qed.
Lemma has_replicate n i : has (replicate n None) i = false.
Proof. unfold has. destruct (replicate n None !! i) as [o|] eqn:Ho; [|done]. by apply lookup_replicate in Ho as [-> _]. Qed.

Lemma copy_votes_spec from : forall to, length from = length to -> exists r, copy_votes from to = Some r /\ length r = length to /\ forall i, r !! i = if has from i then from !! i else to !! i.
Proof.
  induction from as [|w from IH]; intros [|v to] Hl; try done; [by exists []|]. destruct (IH to) as (r & Hr & Hlr & Hlk); [by injection Hl|].
  destruct w as [w|]; cbn [copy_votes]; rewrite Hr; cbn [mbind option_bind]; eexists; (split; [done|]); (split; [simpl; lia|]); intros [|i]; cbn [lookup list_lookup]; try done; apply Hlk.
Qed.

Section VoteSets.
Context `{ST : StdTime} `{STL : !StdTimeLaws} `{CR : Crypto}.
(** The fixed part of a set, and the votes it was given. *)
Context (chainID : bytes) (height round ty : Z) (l : list Validator) (given : Vote -> Prop).
Context (Hp : powers_ok l).
Local Abbreviation n := (Z.of_nat (length l)).

(** A verified vote of validator [i]. *)
Record good (i : nat) (v : Vote) : Prop := {
  go_given : given v;
  go_index : vt_ValidatorIndex v = Z.of_nat i;
  go_whole : whole (vt_BlockID v);
  go_step : vt_Height v = height /\ vt_Round v = round /\ vt_Type v = ty;
  go_signed : exists val, l !! i = Some val /\ vt_ValidatorAddress v = v_Address val /\ vote_Verify v chainID (v_PubKey val) = Some None
}.
(** Votes, the bit array and the sum agree. *)
Record tracks (votes : list (option Vote)) (bits : option BitArray) (sum : Z) : Prop := {
  tr_length : length votes = length l;
  tr_bits : exists ba, bits = Some ba /\ ba_ok ba /\ Bits ba = n /\ forall i, bit ba (Z.of_nat i) = has votes i;
  tr_sum : sum = power_of l (has votes);
  tr_good : forall i v, votes !! i = Some (Some v) -> good i v
}.
Definition stored (blocks : gmap bytes blockVotes) (maj23 : option BlockID) (i : nat) (v : Vote) : Prop :=
  exists key bv, Key (vt_BlockID v) = Some key /\ blocks !! key = Some bv /\ (has (bv_votes bv) i = true \/ maj23 = Some (vt_BlockID v)).
Record block_ok (votes : list (option Vote)) (key : bytes) (bv : blockVotes) : Prop := {
  bo_tracks : tracks (bv_votes bv) (bv_bitArray bv) (bv_sum bv);
  bo_votes : forall i v, bv_votes bv !! i = Some (Some v) -> Key (vt_BlockID v) = Some key /\ has votes i = true
}.
Definition majority_ok (votes : list (option Vote)) (blocks : gmap bytes blockVotes) (maj23 : option BlockID) : Prop :=
  match maj23 with
  | None => forall key bv, blocks !! key = Some bv -> 3 * bv_sum bv <= 2 * power l
  | Some b => whole b /\ exists key bv, Key b = Some key /\ blocks !! key = Some bv /\ 2 * power l < 3 * bv_sum bv /\
      forall i, has (bv_votes bv) i = true -> exists v, votes !! i = Some (Some v) /\ vt_BlockID v = b
  end.
Record vs_ok (vs : VoteSet) : Prop := {
  vo_static : vs_chainID vs = chainID /\ vs_height vs = height /\ vs_round vs = round /\ vs_signedMsgType vs = ty /\ Validators (vs_valSet vs) = l;
  vo_cache : cache_ok (vs_valSet vs);
  vo_votes : tracks (vs_votes vs) (vs_votesBitArray vs) (vs_sum vs);
  vo_blocks : forall key bv, vs_votesByBlock vs !! key = Some bv -> block_ok (vs_votes vs) key bv;
  vo_stored : forall i v, vs_votes vs !! i = Some (Some v) -> stored (vs_votesByBlock vs) (vs_maj23 vs) i v;
  vo_majority : majority_ok (vs_votes vs) (vs_votesByBlock vs) (vs_maj23 vs)
}.

Lemma good_lookup i v : good i v -> (i < length l)%nat.
Proof. intros [_ _ _ _ (val & Hv & _)]. by eapply lookup_lt_Some. Qed.
Lemma sums_small P : 0 <= power_of l P < 2 ^ 61.
Proof.
  pose proof (power_of_bound l P) as Hb. pose proof (po_total _ Hp). pose proof M_value. unfold MaxInt64 in *. assert (Hn : nonneg l) by (intros v Hv; pose proof (po_positive _ Hp v Hv); lia). specialize (Hb Hn). lia.
Qed.
(** A vote is put at its place, where there was none or another. *)
Lemma tracks_put votes bits sum i v val : tracks votes bits sum -> good i v -> l !! i = Some val ->
  exists bits', SetIndex bits (vt_ValidatorIndex v) true = Some (bits', true) /\
    tracks (<[i := Some v]> votes) bits' (if has votes i then sum else int64 (sum + pow val)).
Proof.
  intros [Hl (ba & -> & Hba & Hb & Hbit) Hs Hg] Hv Hval. pose proof (good_lookup _ _ Hv) as Hi. rewrite (go_index _ _ Hv).
  destruct (setIndex_spec ba (Z.of_nat i) true Hba) as (c & Hset & Hc & Hcb & _ & Hcbit). unfold SetIndex. rewrite Hset. cbn [mbind option_bind]. rewrite bool_decide_true by lia. eexists. split; [done|].
  split; [by rewrite length_insert| | |].
  - exists c. split_and!; [done|done|by rewrite Hcb|]. intros j. rewrite Hcbit, has_insert by lia. unfold add_index. destruct (decide (j = i)) as [->|Hne].
    + rewrite decide_True by lia. by rewrite bool_decide_true.
    + rewrite decide_False by lia. rewrite bool_decide_false by done. apply Hbit.
  - rewrite (power_of_ext l (has (<[i := Some v]> votes)) (add_index i (has votes))) by (intros; apply has_insert; lia). destruct (has votes i) eqn:Hhas.
    + rewrite Hs. apply power_of_ext. intros j _. unfold add_index. destruct (decide (j = i)) as [->|]; [by rewrite Hhas, orb_true_r|by rewrite bool_decide_false].
    + rewrite (power_of_add l (has votes) i val Hval Hhas), <- Hs. apply int64_small. pose proof (sums_small (add_index i (has votes))) as Hsm. rewrite (power_of_add l (has votes) i val Hval Hhas), <- Hs in Hsm. lia.
  - intros j w. destruct (decide (j = i)) as [->|Hne]; [rewrite list_lookup_insert_eq by lia; by intros [= <-]|rewrite list_lookup_insert_ne by done; apply Hg].
Qed.
Lemma tracks_empty : tracks (replicate (Z.to_nat n) None) (NewBitArray n) 0.
Proof.
  pose proof (power_size _ Hp) as Hsz. destruct (reset_ok n) as [Hr Hr0]; [lia|]. split.
  - rewrite length_replicate. lia.
  - exists (reset n). unfold NewBitArray. rewrite bool_decide_false by lia. split_and!; [done|done|done|]. intros i. by rewrite Hr0, has_replicate.
  - rewrite (power_of_ext l _ (fun _ => false)) by (intros; apply has_replicate). by rewrite power_of_none.
  - intros i v Hv. apply lookup_replicate in Hv as [[=] _].
Qed.
Lemma tracks_copy from to bits bits' sum sum' : tracks from bits sum -> tracks to bits' sum' -> (forall i, has from i = true -> has to i = true) ->
  exists r, copy_votes from to = Some r /\ tracks r bits' sum' /\ (forall i, has r i = has to i) /\ forall i, r !! i = if has from i then from !! i else to !! i.
Proof.
  intros Hf [Hl (ba & Hba & Hok & Hb & Hbit) Hs Hg] Hsub. destruct (copy_votes_spec from to) as (r & Hr & Hlr & Hlk); [by rewrite (tr_length _ _ _ Hf), Hl|].
  assert (Hhas : forall i, has r i = has to i).
  { intros i. unfold has at 1. rewrite Hlk. destruct (has from i) eqn:Hfi; [|done]. rewrite (Hsub i Hfi). apply has_true in Hfi as [v ->]. done. }
  exists r. split; [done|]. split; [|done]. split; [lia| | |].
  - exists ba. split_and!; [done|done|done|]. intros i. by rewrite Hhas.
  - rewrite Hs. apply power_of_ext. intros i _. by rewrite Hhas.
  - intros i v. rewrite Hlk. destruct (has from i); [apply Hf|apply Hg].
Qed.

(** ** Placing a vote among the votes *)
(** All of the invariant but that vote [v] of validator [i] is stored with its block. *)
Record almost (i : nat) (v : Vote) (vs : VoteSet) : Prop := {
  al_static : vs_chainID vs = chainID /\ vs_height vs = height /\ vs_round vs = round /\ vs_signedMsgType vs = ty /\ Validators (vs_valSet vs) = l;
  al_cache : cache_ok (vs_valSet vs);
  al_votes : tracks (vs_votes vs) (vs_votesBitArray vs) (vs_sum vs);
  al_blocks : forall key bv, vs_votesByBlock vs !! key = Some bv -> block_ok (vs_votes vs) key bv;
  al_stored : forall j w, vs_votes vs !! j = Some (Some w) -> stored (vs_votesByBlock vs) (vs_maj23 vs) j w \/ (j = i /\ w = v);
  al_majority : majority_ok (vs_votes vs) (vs_votesByBlock vs) (vs_maj23 vs)
}.
Lemma vs_ok_almost i v vs : vs_ok vs -> almost i v vs.
Proof. intros [? ? ? ? ? ?]. split; try done. intros j w Hw. left. auto. Qed.
Definition same_rest (vs vs' : VoteSet) : Prop :=
  vs_chainID vs' = vs_chainID vs /\ vs_height vs' = vs_height vs /\ vs_round vs' = vs_round vs /\ vs_signedMsgType vs' = vs_signedMsgType vs /\ vs_valSet vs' = vs_valSet vs /\
  vs_maj23 vs' = vs_maj23 vs /\ vs_votesByBlock vs' = vs_votesByBlock vs.

Lemma put_almost vs i v val sum : vs_ok vs -> good i v -> l !! i = Some val -> sum = (if has (vs_votes vs) i then vs_sum vs else int64 (vs_sum vs + pow val)) ->
  (has (vs_votes vs) i = true -> vs_maj23 vs = Some (vt_BlockID v)) ->
  exists vs', put_vote vs v sum = Some vs' /\ same_rest vs vs' /\ almost i v vs' /\ vs_votes vs' = <[i := Some v]> (vs_votes vs).
Proof.
  intros [Hst Hca Hvo Hbl Hsto Hmaj] Hg Hval -> Hrep. destruct (tracks_put _ _ _ i v val Hvo Hg Hval) as (bits' & Hset & Htr). unfold put_vote. rewrite Hset. cbn [mbind option_bind]. rewrite (go_index _ _ Hg), Nat2Z.id.
  eexists. split; [done|]. split; [done|]. split; [|done]. pose proof (good_lookup _ _ Hg) as Hi. rewrite <- (tr_length _ _ _ Hvo) in Hi.
  assert (Hmono : forall j, has (vs_votes vs) j = true -> has (<[i := Some v]> (vs_votes vs)) j = true) by (intros j Hj; rewrite has_insert by done; unfold add_index; by rewrite Hj, orb_true_r). split; simpl; try done.
  - intros key bv Hb. destruct (Hbl key bv Hb) as [Ht Hv]. split; [done|]. intros j w Hw. destruct (Hv j w Hw). auto.
  - intros j w. destruct (decide (j = i)) as [->|Hne]; [rewrite list_lookup_insert_eq by done; intros [= <-]; by right|rewrite list_lookup_insert_ne by done; intros Hw; left; auto].
  - unfold majority_ok in *. destruct (vs_maj23 vs) as [b|]; [|done]. destruct Hmaj as (Hw & key & bv & Hk & Hb & Hq & Hin). split; [done|]. exists key, bv. split_and!; try done. intros j Hj. destruct (Hin j Hj) as (w & Hw1 & Hw2).
    destruct (decide (j = i)) as [->|Hne]; [|exists w; by rewrite list_lookup_insert_ne]. exists v. rewrite list_lookup_insert_eq by done. split; [done|].
    assert (Hhas : has (vs_votes vs) i = true) by (apply has_true; by exists w). specialize (Hrep Hhas). by injection Hrep.
Qed.

(** ** Storing a vote with its block *)
Lemma block_new key votes : block_ok votes key (newBlockVotes false n) /\ block_ok votes key (newBlockVotes true n).
Proof. split; (split; [apply tracks_empty|]); simpl; intros i v Hv; by apply lookup_replicate in Hv as [[=] _]. Qed.
Lemma block_add votes key bv i v val : block_ok votes key bv -> good i v -> l !! i = Some val -> Key (vt_BlockID v) = Some key -> has votes i = true -> has (bv_votes bv) i = false ->
  exists bv', bv_addVerifiedVote bv v (pow val) = Some bv' /\ block_ok votes key bv' /\ bv_peerMaj23 bv' = bv_peerMaj23 bv /\ bv_votes bv' = <[i := Some v]> (bv_votes bv).
Proof.
  intros [Ht Hv] Hg Hval Hk Hhas Hn. destruct (tracks_put _ _ _ i v val Ht Hg Hval) as (bits' & Hset & Htr). unfold bv_addVerifiedVote. rewrite (go_index _ _ Hg) in *. rewrite Nat2Z.id.
  pose proof (good_lookup _ _ Hg) as Hi. rewrite <- (tr_length _ _ _ Ht) in Hi. destruct (lookup_lt_is_Some_2 _ _ Hi) as [o Ho]. rewrite Ho. cbn [mbind option_bind].
  assert (o = None) as -> by (destruct o as [w|]; [|done]; unfold has in Hn; by rewrite Ho in Hn). rewrite Hset. cbn [mbind option_bind]. rewrite Hn in Htr. eexists. split; [done|]. split; [|done]. split; [done|]. simpl.
  intros j w. destruct (decide (j = i)) as [->|Hne]; [rewrite list_lookup_insert_eq by done; by intros [= <-]|rewrite list_lookup_insert_ne by done; apply Hv].
Qed.
Lemma quorum_spec vs : vs_ok vs \/ (exists i v, almost i v vs) -> exists valSet, TotalVotingPower (vs_valSet vs) = Some (valSet, power l) /\ Validators valSet = l /\ cache_ok valSet /\
  forall t, int64 (Z.quot (int64 (power l * 2)) 3 + 1) <= t <-> 2 * power l < 3 * t.
Proof.
  intros Hok. assert (Hs : Validators (vs_valSet vs) = l /\ cache_ok (vs_valSet vs)) by (destruct Hok as [[[]]|(i & v & [[]])]; split; naive_solver). destruct Hs as [Hl Hc].
  exists (with_total (power l) (vs_valSet vs)). rewrite TotalVotingPower_exact by (by rewrite ?Hl). rewrite Hl. split_and!; [done|done|right; simpl; by rewrite Hl|]. intros t.
  pose proof (power_size _ Hp). pose proof (po_total _ Hp). pose proof M_value. unfold MaxInt64 in *. rewrite <- (two_thirds (power l) t) by lia. rewrite (int64_small (_ + 1)); [lia|].
  rewrite int64_small by lia. pose proof (Z.quot_pos (power l * 2) 3). pose proof (Z.quot_le_upper_bound (power l * 2) 3 (2 ^ 62)). lia.
Qed.

Lemma stored_mono blocks blocks' maj23 maj23' i v : stored blocks maj23 i v -> (forall b, maj23 = Some b -> maj23' = Some b) ->
  (forall key bv, blocks !! key = Some bv -> exists bv', blocks' !! key = Some bv' /\ (has (bv_votes bv) i = true -> has (bv_votes bv') i = true)) -> stored blocks' maj23' i v.
Proof.
  intros (key & bv & Hk & Hb & Hor) Hm Hbl. destruct (Hbl key bv Hb) as (bv' & Hb' & Hh). exists key, bv'. split_and!; [done|done|]. destruct Hor as [?|?]; [left|right]; auto.
Qed.
Lemma power_pos : 0 < power l.
Proof. pose proof (power_size _ Hp). lia. Qed.
(** What holds after the vote is stored, but for the quorum. *)
Lemma store_almost vs i v val key bv bv' : almost i v vs -> good i v -> l !! i = Some val -> Key (vt_BlockID v) = Some key -> has (vs_votes vs) i = true ->
  bv = default (newBlockVotes false n) (vs_votesByBlock vs !! key) -> block_ok (vs_votes vs) key bv' -> bv_votes bv' = <[i := Some v]> (bv_votes bv) -> block_ok (vs_votes vs) key bv ->
  (forall key' bv'', <[key := bv']> (vs_votesByBlock vs) !! key' = Some bv'' -> block_ok (vs_votes vs) key' bv'') /\
  (forall maj23, (forall b, vs_maj23 vs = Some b -> maj23 = Some b) -> forall j w, vs_votes vs !! j = Some (Some w) -> stored (<[key := bv']> (vs_votesByBlock vs)) maj23 j w) /\
  has (bv_votes bv') i = true /\ (forall j, has (bv_votes bv) j = true -> has (bv_votes bv') j = true).
Proof.
  intros Hal Hg Hval Hk Hhas Hbv Hb' Hv' Hb. pose proof (good_lookup _ _ Hg) as Hi. rewrite <- (tr_length _ _ _ (bo_tracks _ _ _ Hb)) in Hi.
  assert (Hhas' : forall j, has (bv_votes bv') j = add_index i (has (bv_votes bv)) j) by (intros j; rewrite Hv'; by apply has_insert).
  assert (Hi' : has (bv_votes bv') i = true) by (rewrite Hhas'; unfold add_index; by rewrite bool_decide_true).
  assert (Hmono : forall j, has (bv_votes bv) j = true -> has (bv_votes bv') j = true) by (intros j Hj; rewrite Hhas'; unfold add_index; by rewrite Hj, orb_true_r). split_and!; [| |done|done].
  - intros key' bv''. destruct (decide (key' = key)) as [->|Hne]; [rewrite lookup_insert_eq; by intros [= <-]|rewrite lookup_insert_ne by done; apply Hal].
  - intros maj23 Hm j w Hw. destruct (al_stored _ _ _ Hal j w Hw) as [Hst|[-> ->]].
    + eapply stored_mono; [exact Hst|done|]. intros key' bv''. destruct (decide (key' = key)) as [->|Hne]; [|intros Hl; exists bv''; by rewrite lookup_insert_ne].
      intros Hl. exists bv'. rewrite lookup_insert_eq. split; [done|]. rewrite Hl in Hbv. simpl in Hbv. rewrite <- Hbv. apply Hmono.
    + exists key, bv'. rewrite lookup_insert_eq. split_and!; [done|done|by left].
Qed.

(** A larger set of votes has a larger sum. *)
Lemma tracks_le votes bits sum votes' bits' sum' : tracks votes bits sum -> tracks votes' bits' sum' -> (forall j, has votes j = true -> has votes' j = true) -> sum <= sum'.
Proof.
  intros [_ _ -> _] [_ _ -> _] Hm. apply power_of_le; [|done]. intros w Hw. pose proof (po_positive _ Hp w Hw). lia.
Qed.
(** The majority when no quorum is crossed. *)
Lemma majority_keep vs i v val key bv bv' : almost i v vs -> good i v -> l !! i = Some val -> Key (vt_BlockID v) = Some key -> has (vs_votes vs) i = true ->
  (vs_maj23 vs = Some (vt_BlockID v) -> vs_votes vs !! i = Some (Some v)) ->
  bv = default (newBlockVotes false n) (vs_votesByBlock vs !! key) -> block_ok (vs_votes vs) key bv -> block_ok (vs_votes vs) key bv' -> bv_votes bv' = <[i := Some v]> (bv_votes bv) ->
  (vs_maj23 vs = None -> 3 * bv_sum bv' <= 2 * power l) -> majority_ok (vs_votes vs) (<[key := bv']> (vs_votesByBlock vs)) (vs_maj23 vs).
Proof.
  intros Hal Hg Hval Hk Hhas Hmv Hbv Hb Hb' Hv' Hnone. pose proof (al_majority _ _ _ Hal) as Hmaj. destruct (store_almost vs i v val key bv bv' Hal Hg Hval Hk Hhas Hbv Hb' Hv' Hb) as (_ & _ & _ & Hmono).
  unfold majority_ok in *. destruct (vs_maj23 vs) as [b|].
  - destruct Hmaj as (Hw & key0 & bv0 & Hk0 & Hb0 & Hq & Hin). split; [done|]. exists key0. destruct (decide (key0 = key)) as [->|Hne]; [|exists bv0; by rewrite lookup_insert_ne]. exists bv'. rewrite lookup_insert_eq.
    rewrite Hb0 in Hbv. simpl in Hbv. subst bv. split_and!; [done|done| |].
    + pose proof (tracks_le _ _ _ _ _ _ (bo_tracks _ _ _ Hb) (bo_tracks _ _ _ Hb') Hmono). lia.
    + assert (Hbid : b = vt_BlockID v) by (apply Key_inj; [done|apply Hg|by rewrite Hk0, Hk]). intros j. rewrite Hv', has_insert by (rewrite (tr_length _ _ _ (bo_tracks _ _ _ Hb)); by eapply good_lookup). unfold add_index.
      intros [->%bool_decide_eq_true|Hj]%orb_true_iff; [|by apply Hin]. exists v. split; [apply Hmv; by rewrite Hbid|done].
  - intros key' bv''. destruct (decide (key' = key)) as [->|Hne]; [rewrite lookup_insert_eq; intros [= <-]; by apply Hnone|rewrite lookup_insert_ne by done; apply Hmaj].
Qed.
Lemma store_vote_spec vs i v val key bv : almost i v vs -> good i v -> l !! i = Some val -> Key (vt_BlockID v) = Some key -> has (vs_votes vs) i = true ->
  (vs_maj23 vs = Some (vt_BlockID v) -> vs_votes vs !! i = Some (Some v)) -> bv = default (newBlockVotes false n) (vs_votesByBlock vs !! key) -> has (bv_votes bv) i = false ->
  exists vs', store_vote vs v key (pow val) bv = Some vs' /\ vs_ok vs' /\ (forall j, has (vs_votes vs') j = has (vs_votes vs) j) /\ (forall b, vs_maj23 vs = Some b -> vs_maj23 vs' = Some b).
Proof.
  intros Hal Hg Hval Hk Hhas Hmv Hbv Hn. assert (Hb : block_ok (vs_votes vs) key bv).
  { subst bv. destruct (vs_votesByBlock vs !! key) as [bv|] eqn:Hl; [by eapply al_blocks|apply block_new]. }
  destruct (block_add _ key bv i v val Hb Hg Hval Hk Hhas Hn) as (bv' & Hadd & Hb' & _ & Hv'). destruct (quorum_spec vs ltac:(right; by exists i, v)) as (valSet & Htot & Hl & Hca & Hq).
  destruct (store_almost vs i v val key bv bv' Hal Hg Hval Hk Hhas Hbv Hb' Hv' Hb) as (Hblocks & Hstored & Hi' & Hmono). destruct (al_static _ _ _ Hal) as (Hs1 & Hs2 & Hs3 & Hs4 & _).
  unfold store_vote. rewrite Htot. cbn [mbind option_bind]. rewrite Hadd. cbn [mbind option_bind]. set (quorum := int64 _) in *. cbn [vs_maj23 with_blocks with_valSet vs_votes].
  destruct (bool_decide (bv_sum bv < quorum) && bool_decide (quorum <= bv_sum bv')) eqn:Hcross; [destruct (vs_maj23 vs) as [b|] eqn:Hm|].
  - eexists. split; [done|]. split; [|split; [done|intros ? ?; simpl; congruence]]. split; simpl; rewrite ?Hm; try done; [apply Hal|by apply Hstored|]. rewrite <- Hm. eapply majority_keep; try done; by rewrite Hm.
  - apply andb_true_iff in Hcross as [_ Hge%bool_decide_eq_true%Hq].
    destruct (tracks_copy _ _ _ _ _ _ (bo_tracks _ _ _ Hb') (al_votes _ _ _ Hal)) as (r & Hr & Htr & Hrhas & Hrlk). { intros j (w & Hw)%has_true. by apply (bo_votes _ _ _ Hb' j w). }
    rewrite Hr. cbn [mbind option_bind]. eexists. split; [done|]. split; [|split; [done|by intros ? [=]]]. split; simpl; try done.
    + intros key' bv'' Hl''. destruct (Hblocks key' bv'' Hl'') as [H1 H2]. split; [done|]. intros j w Hw. rewrite Hrhas. by apply H2.
    + intros j w. rewrite Hrlk. destruct (has (bv_votes bv') j) eqn:Hj; [intros Hw|by apply Hstored]. exists key, bv'. rewrite lookup_insert_eq. split_and!; [by apply (bo_votes _ _ _ Hb' j w)|done|by left].
    + split; [apply Hg|]. exists key, bv'. rewrite lookup_insert_eq. split_and!; [done|done|done|]. intros j Hj. pose proof Hj as (w & Hw)%has_true. exists w. rewrite Hrlk, Hj. split; [done|].
      destruct (bo_votes _ _ _ Hb' j w Hw) as [Hkw _]. apply Key_inj; [|apply Hg|by rewrite Hkw, Hk]. by eapply go_whole, tr_good, Hw; apply Hb'.
  - eexists. split; [done|]. split; [|done]. split; simpl; try done; [apply Hal|by apply Hstored|]. eapply majority_keep; try done. intros Hm. apply andb_false_iff in Hcross.
    assert (Hlow : bv_sum bv < quorum).
    { apply Z.nle_gt. intros Hle%Hq. pose proof (al_majority _ _ _ Hal) as Hmaj. unfold majority_ok in Hmaj. rewrite Hm in Hmaj. subst bv. destruct (vs_votesByBlock vs !! key) as [bv|] eqn:Hlk; [specialize (Hmaj _ _ Hlk); simpl in Hle; lia|]. simpl in Hle. pose proof power_pos. lia. }
    destruct Hcross as [Hc%bool_decide_eq_false|Hc%bool_decide_eq_false]; [lia|]. rewrite Hq in Hc. lia.
Qed.

(** ** Adding a vote *)
Lemma whole_Key b : whole b -> exists key, Key b = Some key.
Proof. intros [Hb _]. rewrite Key_spec by done. by eexists. Qed.
(** What is known of the block of a vote that was not found. *)
Definition unknown (vs : VoteSet) (i : nat) (v : Vote) (key : bytes) : Prop :=
  (forall w, vs_votes vs !! i = Some (Some w) -> vt_BlockID w <> vt_BlockID v) /\ has (bv_votes (default (newBlockVotes false n) (vs_votesByBlock vs !! key))) i = false.
Lemma getVote_spec vs i v key : vs_ok vs -> (i < length l)%nat -> Key (vt_BlockID v) = Some key ->
  (exists w, getVote vs (Z.of_nat i) key = Some (Some w) /\ has (vs_votes vs) i = true) \/ (getVote vs (Z.of_nat i) key = Some None /\ unknown vs i v key).
Proof.
  intros Hok Hi Hk. pose proof (vo_votes _ Hok) as Htr. destruct (lookup_lt_is_Some_2 (vs_votes vs) i) as [o Ho]; [rewrite (tr_length _ _ _ Htr); lia|]. unfold getVote. rewrite Nat2Z.id, Ho. cbn [mbind option_bind].
  assert (Hblock : has (bv_votes (default (newBlockVotes false n) (vs_votesByBlock vs !! key))) i = true /\ (exists w, bv_getByIndex (vs_votesByBlock vs !! key) (Z.of_nat i) = Some (Some w)) \/
    has (bv_votes (default (newBlockVotes false n) (vs_votesByBlock vs !! key))) i = false /\ bv_getByIndex (vs_votesByBlock vs !! key) (Z.of_nat i) = Some None).
  { unfold bv_getByIndex. destruct (vs_votesByBlock vs !! key) as [bv|] eqn:Hb; [|right; split; [apply has_replicate|done]]. simpl. rewrite Nat2Z.id. unfold has.
    destruct (lookup_lt_is_Some_2 (bv_votes bv) i) as [[w|] Hw]; [rewrite (tr_length _ _ _ (bo_tracks _ _ _ (vo_blocks _ Hok _ _ Hb))); lia| |]; rewrite Hw; [left; split; [done|by eexists]|by right]. }
  assert (Hseen : has (bv_votes (default (newBlockVotes false n) (vs_votesByBlock vs !! key))) i = true -> has (vs_votes vs) i = true).
  { destruct (vs_votesByBlock vs !! key) as [bv|] eqn:Hb; [|simpl; by rewrite has_replicate]. simpl. intros (w & Hw)%has_true. by apply (bo_votes _ _ _ (vo_blocks _ Hok _ _ Hb) i w). }
  assert (Hrest : (forall w, o = Some w -> vt_BlockID w <> vt_BlockID v) -> (exists w, bv_getByIndex (vs_votesByBlock vs !! key) (Z.of_nat i) = Some (Some w) /\ has (vs_votes vs) i = true) \/
    (bv_getByIndex (vs_votesByBlock vs !! key) (Z.of_nat i) = Some None /\ unknown vs i v key)).
  { intros Hne. destruct Hblock as [[Hh [w Hw]]|[Hh Hw]]; [left; exists w; auto|right]. split; [done|]. split; [|done]. intros w Hw'. apply Hne. rewrite Ho in Hw'. by injection Hw'. }
  destruct o as [w|]; cbn [mbind option_bind]; [|by apply Hrest]. pose proof (tr_good _ _ _ Htr i w Ho) as Hgw. destruct (whole_Key _ (go_whole _ _ Hgw)) as [kw Hkw]. rewrite Hkw. cbn [mbind option_bind].
  case_bool_decide as Heq; [left; exists w; split; [done|]; apply has_true; by exists w|]. apply Hrest. intros w' [= <-] Hb. apply Heq. rewrite Hb in Hkw. congruence.
Qed.

Lemma place_spec vs i v val key o : vs_ok vs -> good i v -> l !! i = Some val -> Key (vt_BlockID v) = Some key -> vs_votes vs !! i = Some o -> unknown vs i v key ->
  exists vs', place_vote vs v key (pow val) o = Some vs' /\ same_rest vs vs' /\ almost i v vs' /\ (forall j, has (vs_votes vs') j = add_index i (has (vs_votes vs)) j) /\
    (vs_maj23 vs' = Some (vt_BlockID v) -> vs_votes vs' !! i = Some (Some v)) /\ (o <> None -> vs_ok vs').
Proof.
  intros Hok Hg Hval Hk Ho [Hne _]. pose proof (good_lookup _ _ Hg) as Hi. rewrite <- (tr_length _ _ _ (vo_votes _ Hok)) in Hi.
  assert (Hput : forall vs', almost i v vs' -> same_rest vs vs' -> vs_votes vs' = <[i := Some v]> (vs_votes vs) -> (forall j, has (vs_votes vs') j = add_index i (has (vs_votes vs)) j) /\ (vs_maj23 vs' = Some (vt_BlockID v) -> vs_votes vs' !! i = Some (Some v))).
  { intros vs' _ _ Hv. rewrite Hv. split; [intros j; by apply has_insert|]. intros _. by apply list_lookup_insert_eq. }
  unfold place_vote. destruct o as [w|].
  - assert (Hh : has (vs_votes vs) i = true) by (apply has_true; by exists w). assert (Hid : forall j, has (vs_votes vs) j = add_index i (has (vs_votes vs)) j).
    { intros j. unfold add_index. destruct (decide (j = i)) as [->|]; [by rewrite Hh, orb_true_r|by rewrite bool_decide_false]. }
    rewrite bid_Equals_eq, bool_decide_false by (by apply Hne). destruct (vs_maj23 vs) as [b|] eqn:Hm.
    2: { exists vs. split_and!; try done; [by apply vs_ok_almost|by rewrite Hm]. }
    assert (Hwb : whole b) by (pose proof (vo_majority _ Hok) as Hmaj; unfold majority_ok in Hmaj; rewrite Hm in Hmaj; apply Hmaj). destruct (whole_Key b Hwb) as [kb Hkb]. rewrite Hkb. cbn [mbind option_bind].
    case_bool_decide as Hkk.
    + subst kb. assert (b = vt_BlockID v) as -> by (apply Key_inj; [done|apply Hg|congruence]). destruct (put_almost vs i v val (vs_sum vs) Hok Hg Hval) as (vs' & Hp' & Hsame & Hal & Hv); [by rewrite Hh|done|].
      exists vs'. destruct (Hput vs' Hal Hsame Hv) as [H1 H2]. split_and!; try done. intros _. destruct Hal as [A1 A2 A3 A4 A5 A6]. split; try done. intros j w' Hw'. destruct (A5 j w' Hw') as [?|[-> ->]]; [done|].
      unfold majority_ok in A6. destruct Hsame as (_ & _ & _ & _ & _ & Hsm & _). rewrite Hsm, Hm in A6. destruct A6 as (_ & key' & bv & Hk' & Hb' & _). exists key', bv. split_and!; [done|done|right; by rewrite Hsm].
    + exists vs. split_and!; try done; [by apply vs_ok_almost|]. rewrite Hm. intros [= ->]. congruence.
  - assert (Hh : has (vs_votes vs) i = false) by (unfold has; by rewrite Ho). destruct (put_almost vs i v val (int64 (vs_sum vs + pow val)) Hok Hg Hval) as (vs' & Hp' & Hsame & Hal & Hv); [by rewrite Hh|by rewrite Hh|].
    exists vs'. destruct (Hput vs' Hal Hsame Hv) as [H1 H2]. by split_and!.
Qed.

Lemma addVerifiedVote_spec vs i v val key : vs_ok vs -> good i v -> l !! i = Some val -> Key (vt_BlockID v) = Some key -> unknown vs i v key ->
  exists vs' added o, addVerifiedVote vs v key (pow val) = Some (vs', (added, o)) /\ vs_votes vs !! i = Some o /\ (o = None -> added = true) /\ vs_ok vs' /\
    (forall j, has (vs_votes vs') j = add_index i (has (vs_votes vs)) j) /\ (forall b, vs_maj23 vs = Some b -> vs_maj23 vs' = Some b).
Proof.
  intros Hok Hg Hval Hk Hun. pose proof (good_lookup _ _ Hg) as Hi. rewrite <- (tr_length _ _ _ (vo_votes _ Hok)) in Hi. destruct (lookup_lt_is_Some_2 _ _ Hi) as [o Ho]. unfold addVerifiedVote. rewrite (go_index _ _ Hg), Nat2Z.id, Ho. cbn [mbind option_bind].
  destruct (place_spec vs i v val key o Hok Hg Hval Hk Ho Hun) as (vs1 & Hpl & Hsame & Hal & Hhas & Hmv & Hok1). rewrite Hpl. cbn [mbind option_bind]. destruct Hsame as (_ & _ & _ & _ & Hval1 & Hm1 & Hb1).
  destruct (match vs_votesByBlock vs1 !! key with Some bv => _ | None => _ end) eqn:Hrefused.
  - assert (Hone : o <> None) by (destruct (vs_votesByBlock vs1 !! key); [apply andb_true_iff in Hrefused as [Hr _]|]; by apply bool_decide_eq_true in Hr || by apply bool_decide_eq_true in Hrefused).
    exists vs1, false, o. split_and!; try done; [auto|by rewrite Hm1].
  - assert (Hsz : vals_Size (vs_valSet vs1) = n) by (unfold vals_Size; by destruct (al_static _ _ _ Hal) as (_ & _ & _ & _ & ->)). rewrite Hsz.
    destruct (store_vote_spec vs1 i v val key (default (newBlockVotes false n) (vs_votesByBlock vs1 !! key)) Hal Hg Hval Hk) as (vs2 & Hst & Hok2 & Hhas2 & Hm2); [rewrite Hhas; unfold add_index; by rewrite bool_decide_true|done|done|rewrite Hb1; apply Hun|].
    rewrite Hst. cbn [mbind option_bind]. exists vs2, true, o. split_and!; try done; [intros j; by rewrite Hhas2|]. intros b Hb. apply Hm2. by rewrite Hm1.
Qed.

Lemma good_iff vs v : vs_ok vs -> given v -> whole (vt_BlockID v) -> signable chainID v -> (exists i, good i v) <->
  0 <= vt_ValidatorIndex v /\ (vt_Height v = vs_height vs /\ vt_Round v = vs_round vs /\ vt_Type v = vs_signedMsgType vs) /\
  exists val, l !! Z.to_nat (vt_ValidatorIndex v) = Some val /\ vt_ValidatorAddress v = v_Address val /\ vote_Verify v chainID (v_PubKey val) = Some None.
Proof.
  intros Hok Hgi Hw Hs. destruct (vo_static _ Hok) as (_ & -> & -> & -> & _). split.
  - intros [i [_ Hi _ Hst Hv]]. rewrite Hi, Nat2Z.id. split_and!; [lia|apply Hst|apply Hst|apply Hst|done].
  - intros (H0 & Hst & Hv). exists (Z.to_nat (vt_ValidatorIndex v)). split; try done. lia.
Qed.
Lemma vote_Verify_total v key : signable chainID v -> exists r, vote_Verify v chainID key = Some r.
Proof. intros Hs. unfold vote_Verify. destruct (VoteSignBytes_total _ _ Hs) as [bz ->]. repeat case_match; by eexists. Qed.

(** The result of adding a vote. *)
Definition added_ok (vs : VoteSet) (v : Vote) (vs' : VoteSet) (added : bool) (err : option VoteError) : Prop :=
  vs_ok vs' /\ (forall j, has (vs_votes vs) j = true -> has (vs_votes vs') j = true) /\ (forall b, vs_maj23 vs = Some b -> vs_maj23 vs' = Some b) /\
  (forall i, good i v -> has (vs_votes vs') i = true /\ (has (vs_votes vs) i = false -> added = true /\ err = None /\ forall j, has (vs_votes vs') j = add_index i (has (vs_votes vs)) j)) /\
  ((forall i, ~ good i v) -> vs' = vs /\ added = false).
Lemma addVote_spec vs v : (forall val, val ∈ l -> v_Address val <> []) -> vs_ok vs -> given v -> whole (vt_BlockID v) -> signable chainID v ->
  exists vs' added err, addVote vs v = Some (vs', (added, err)) /\ added_ok vs v vs' added err.
Proof.
  intros Hne Hok Hgi Hw Hs. destruct (whole_Key _ Hw) as [key Hk]. pose proof (good_iff vs v Hok Hgi Hw Hs) as Hgood. unfold addVote. rewrite Hk. cbn [mbind option_bind].
  assert (Hrefuse : forall e, ~ (exists i, good i v) -> exists vs' added err, Some (vs, (false, e)) = Some (vs', (added, err)) /\ added_ok vs v vs' added err).
  { intros e Hno. exists vs, false, e. unfold added_ok. split_and!; try done. intros i Hg. destruct Hno. by exists i. }
  case_bool_decide as Hneg; [apply Hrefuse; rewrite Hgood; lia|]. case_bool_decide as Hempty.
  { apply Hrefuse. rewrite Hgood. intros (_ & _ & val & Hval & Ha & _). apply (Hne val); [by eapply list_elem_of_lookup_2|]. rewrite <- Ha. by apply length_zero_iff_nil. }
  destruct (decide (vt_Height v = vs_height vs /\ vt_Round v = vs_round vs /\ vt_Type v = vs_signedMsgType vs)) as [Hst|Hst].
  2: { assert (Hor : bool_decide (vt_Height v <> vs_height vs) || bool_decide (vt_Round v <> vs_round vs) || bool_decide (vt_Type v <> vs_signedMsgType vs) = true).
       { apply not_false_iff_true. rewrite !orb_false_iff, !bool_decide_eq_false. intros [[H1 H2] H3]. apply Hst. split_and!; by apply dec_stable. }
       rewrite Hor. apply Hrefuse. rewrite Hgood. naive_solver. }
  rewrite !(bool_decide_false (_ <> _)) by (rewrite ?(proj1 Hst), ?(proj1 (proj2 Hst)), ?(proj2 (proj2 Hst)); auto). cbn [orb]. unfold GetByIndex. destruct (vo_static _ Hok) as (Hch & _ & _ & _ & Hl). rewrite Hl.
  destruct (decide (n <= vt_ValidatorIndex v)) as [Hout|Hin].
  { rewrite (bool_decide_true (n <= _)), orb_true_r by done. apply Hrefuse. rewrite Hgood. intros (_ & _ & val & Hval & _). apply lookup_lt_Some in Hval. lia. }
  rewrite (bool_decide_false (_ < 0)), (bool_decide_false (n <= _)) by lia. cbn [orb]. destruct (lookup_lt_is_Some_2 l (Z.to_nat (vt_ValidatorIndex v))) as [val Hval]; [lia|]. rewrite Hval. cbn [fmap option_fmap option_map].
  destruct (decide (vt_ValidatorAddress v = v_Address val)) as [Ha|Ha]; [rewrite (bool_decide_false (_ <> _)) by auto|rewrite bool_decide_true by done; apply Hrefuse; rewrite Hgood; naive_solver].
  set (i := Z.to_nat (vt_ValidatorIndex v)) in *. replace (vt_ValidatorIndex v) with (Z.of_nat i) by lia. assert (Huniq : forall j, good j v -> j = i) by (intros j Hj; pose proof (go_index _ _ Hj); lia).
  destruct (getVote_spec vs i v key Hok ltac:(lia) Hk) as [(w & -> & Hhas)|[-> Hun]]; cbn [mbind option_bind].
  { unfold added_ok. case_bool_decide; eexists vs, false, _; split_and!; try done; intros j Hj; rewrite (Huniq j Hj); split; try done; by rewrite Hhas. }
  rewrite Hch. destruct (vote_Verify_total v (v_PubKey val) Hs) as [[e|] Hver]; rewrite Hver; cbn [mbind option_bind]; [apply Hrefuse; rewrite Hgood; intros (_ & _ & val' & Hval' & _ & Hver'); simplify_eq|].
  assert (Hg : good i v) by (destruct Hgood as [_ [j Hj]]; [split_and!; [lia|apply Hst|apply Hst|apply Hst|by exists val]|by rewrite <- (Huniq j Hj)]).
  destruct (addVerifiedVote_spec vs i v val key Hok Hg Hval Hk Hun) as (vs' & added & o & -> & Ho & Hadded & Hok' & Hhas & Hm). cbn [mbind option_bind].
  assert (Hmono : forall j, has (vs_votes vs) j = true -> has (vs_votes vs') j = true) by (intros j Hj; rewrite Hhas; unfold add_index; by rewrite Hj, orb_true_r).
  assert (Hi : has (vs_votes vs') i = true) by (rewrite Hhas; unfold add_index; by rewrite bool_decide_true). destruct o as [w|].
  - unfold added_ok. eexists vs', added, _. split_and!; try done; [|intros Hno; by destruct (Hno i)]. intros j Hj. rewrite (Huniq j Hj). split; [done|]. unfold has. by rewrite Ho.
  - rewrite (Hadded eq_refl). unfold added_ok. eexists vs', true, _. split_and!; try done; [|intros Hno; by destruct (Hno i)]. intros j Hj. by rewrite (Huniq j Hj).
Qed.

(** ** The claims of peers, and new sets *)
Lemma SetPeerMaj23_spec vs peer b : vs_ok vs -> whole b -> exists vs' ok, SetPeerMaj23 vs peer b = Some (vs', ok) /\ vs_ok vs' /\ vs_votes vs' = vs_votes vs /\ vs_maj23 vs' = vs_maj23 vs.
Proof.
  intros Hok Hw. destruct (whole_Key b Hw) as [key Hk]. unfold SetPeerMaj23. rewrite Hk. cbn [mbind option_bind]. destruct (vs_peerMaj23s vs !! peer); [by eexists _, _|]. cbn [vs_votesByBlock with_peers vs_valSet].
  assert (Hsz : vals_Size (vs_valSet vs) = n) by (unfold vals_Size; by destruct (vo_static _ Hok) as (_ & _ & _ & _ & ->)). rewrite Hsz. set (bv' := match vs_votesByBlock vs !! key with Some _ => _ | None => _ end). eexists _, _. split; [done|]. split; [|done].
  assert (Hb' : block_ok (vs_votes vs) key bv').
  { unfold bv'. destruct (vs_votesByBlock vs !! key) as [bv|] eqn:Hb; [|apply block_new]. by destruct (vo_blocks _ Hok _ _ Hb). }
  assert (Hkeep : forall bv, vs_votesByBlock vs !! key = Some bv -> bv_votes bv' = bv_votes bv /\ bv_sum bv' = bv_sum bv) by (intros bv Hb; unfold bv'; by rewrite Hb).
  assert (Hnew : vs_votesByBlock vs !! key = None -> bv_sum bv' = 0) by (intros Hb; unfold bv'; by rewrite Hb). clearbody bv'. destruct Hok as [A1 A2 A3 A4 A5 A6]. split; simpl; try done.
  - intros key' bv''. destruct (decide (key' = key)) as [->|Hne]; [rewrite lookup_insert_eq; by intros [= <-]|rewrite lookup_insert_ne by done; apply A4].
  - intros i v Hv. eapply stored_mono; [by apply A5|done|]. intros key' bv''. destruct (decide (key' = key)) as [->|Hne]; [|intros Hb; exists bv''; by rewrite lookup_insert_ne].
    intros Hb. exists bv'. rewrite lookup_insert_eq. split; [done|]. by destruct (Hkeep _ Hb) as [-> _].
  - unfold majority_ok in *. destruct (vs_maj23 vs) as [m|].
    + destruct A6 as (Hm & key0 & bv0 & Hk0 & Hb0 & Hq & Hin). split; [done|]. exists key0. destruct (decide (key0 = key)) as [->|Hne]; [|exists bv0; by rewrite lookup_insert_ne]. exists bv'. rewrite lookup_insert_eq.
      destruct (Hkeep _ Hb0) as [-> ->]. done.
    + intros key' bv''. destruct (decide (key' = key)) as [->|Hne]; [|rewrite lookup_insert_ne by done; apply A6]. rewrite lookup_insert_eq. intros [= <-].
      destruct (vs_votesByBlock vs !! key) as [bv|] eqn:Hb; [destruct (Hkeep _ eq_refl) as [_ ->]; by eapply A6|rewrite Hnew by done; pose proof power_pos; lia].
Qed.
Lemma NewVoteSet_spec vals : height <> 0 -> Validators vals = l -> cache_ok vals -> exists vs, NewVoteSet chainID height round ty vals = Some vs /\ vs_ok vs /\ (forall i, has (vs_votes vs) i = false) /\ vs_maj23 vs = None.
Proof.
  intros Hh Hl Hc. unfold NewVoteSet, vals_Size. rewrite Hl. rewrite bool_decide_false by done. eexists. split; [done|]. split; [|split; [intros i; apply has_replicate|done]]. split; simpl; try done; [apply tracks_empty|].
  intros i v Hv. by apply lookup_replicate in Hv as [[=] _].
Qed.
End VoteSets.
