(* ===== verification/VoteSetRuns.v ===== *)
(** Vote sets over any sequence of votes and claims of peers: the majority they find, and the
    commits made of them. *)
From stdpp Require Import base gmap sets list.
From Stdlib Require Import Lia ZArith.
From S2P Require Import Prelude Proto ProtoSpec Valset ValsetPrio BitArray BitArraySpec SignBytes SignBytesSpec Commit CommitSpec VoteSet VoteSetSpec.
Local Open Scope Z_scope.

Inductive vs_op := OVote (vote : Vote) | OPeer (peerID : bytes) (blockID : BlockID).

Section Runs.
Context `{ST : StdTime} `{STL : !StdTimeLaws} `{CR : Crypto}.
Definition vs_step (vs : VoteSet) (op : vs_op) : option VoteSet :=
  match op with OVote vote => fst <$> AddVote vs vote | OPeer peerID blockID => fst <$> SetPeerMaj23 vs peerID blockID end.
Fixpoint vs_run (vs : VoteSet) (ops : list vs_op) : option VoteSet := match ops with [] => Some vs | op :: ops => vs ← vs_step vs op; vs_run vs ops end.
Definition collect (chainID : bytes) (height round ty : Z) (vals : ValidatorSet) (ops : list vs_op) : option VoteSet :=
  vs ← NewVoteSet chainID height round ty vals; vs_run vs ops.

Context (chainID : bytes) (height round ty : Z) (vals : ValidatorSet).
Local Abbreviation l := (Validators vals).
(** Validators with addresses, at a height. *)
Record setting : Prop := {
  se_powers : powers_ok l;
  se_cache : cache_ok vals;
  se_addresses : forall val, val ∈ l -> length (v_Address val) = AddressSize;
  se_height : 0 < height < 2 ^ 63;
  se_round : 0 <= round < 2 ^ 31;
  se_length : Z.of_nat (length l) < 2 ^ 31;
  se_chain : len chainID < 2 ^ 62
}.
(** Votes that pass the basic validation, with fields in the ranges of their types. *)
Definition op_ok (op : vs_op) : Prop := match op with OVote vote => whole (vt_BlockID vote) /\ signable chainID vote | OPeer _ b => whole b end.
Local Abbreviation is_good given := (good chainID height round ty l given).
Definition voted (ops : list vs_op) (j : nat) (b : BlockID) : Prop := exists v, is_good (fun v => OVote v ∈ ops) j v /\ vt_BlockID v = b.
Local Abbreviation ok given := (vs_ok chainID height round ty l given).

Lemma run_ok given todo : setting -> (forall op, op ∈ todo -> op_ok op) -> (forall v, OVote v ∈ todo -> given v) -> forall vs, ok given vs ->
  exists vs', vs_run vs todo = Some vs' /\ ok given vs' /\ (forall j, has (vs_votes vs) j = true -> has (vs_votes vs') j = true) /\ (forall b, vs_maj23 vs = Some b -> vs_maj23 vs' = Some b) /\
    forall v i, OVote v ∈ todo -> is_good given i v -> has (vs_votes vs') i = true.
Proof.
  intros Hse. induction todo as [|op todo IH]; intros Hops Hgiv vs Hok; [exists vs; split_and!; try done; by intros ? ? ?%elem_of_nil|]. cbn [vs_run].
  assert (Hstep : exists vs1, vs_step vs op = Some vs1 /\ ok given vs1 /\ (forall j, has (vs_votes vs) j = true -> has (vs_votes vs1) j = true) /\ (forall b, vs_maj23 vs = Some b -> vs_maj23 vs1 = Some b) /\
    forall v i, OVote v = op -> is_good given i v -> has (vs_votes vs1) i = true).
  { pose proof (Hops op ltac:(left)) as Hop. destruct op as [v|peer b]; cbn [vs_step op_ok] in *.
    - destruct Hop as [Hw Hs]. destruct (addVote_spec chainID height round ty l given (se_powers Hse) vs v) as (vs1 & added & err & Hadd & Hok1 & Hmono & Hm & Hg & _); try done; [|apply Hgiv; left|].
      { intros val Hval Hn. pose proof (se_addresses Hse val Hval) as Ha. by rewrite Hn in Ha. }
      exists vs1. unfold AddVote. rewrite Hadd. split_and!; try done. intros w i [= ->] Hgi. by apply Hg.
    - destruct (SetPeerMaj23_spec chainID height round ty l given (se_powers Hse) vs peer b Hok Hop) as (vs1 & r & Hset & Hok1 & Hv & Hm). exists vs1. rewrite Hset, Hv, Hm. by split_and!. }
  destruct Hstep as (vs1 & -> & Hok1 & Hmono1 & Hm1 & Hg1). cbn [mbind option_bind].
  destruct (IH (fun op H => Hops op ltac:(by right)) (fun v H => Hgiv v ltac:(by right)) vs1 Hok1) as (vs' & -> & Hok' & Hmono & Hm & Hg). exists vs'. split_and!; try done; [auto|auto|].
  intros v i [Heq|Hin]%elem_of_cons Hgi; [apply Hmono; by eapply Hg1|by eapply Hg].
Qed.
(** The votes behind a majority. *)
Lemma majority_votes given vs b : setting -> ok given vs -> vs_maj23 vs = Some b -> exists P, 2 * power l < 3 * power_of l P /\ forall j, P j = true -> exists v, is_good given j v /\ vt_BlockID v = b /\ exists v', vs_votes vs !! j = Some (Some v') /\ vt_BlockID v' = b.
Proof.
  intros Hse Hok Hm. pose proof (vo_majority _ _ _ _ _ _ _ Hok) as Hmaj. unfold majority_ok in Hmaj. rewrite Hm in Hmaj. destruct Hmaj as (Hw & key & bv & Hk & Hb & Hq & Hin).
  destruct (vo_blocks _ _ _ _ _ _ _ Hok _ _ Hb) as [Htr Hv]. rewrite (tr_sum _ _ _ _ _ _ _ _ _ Htr) in Hq. exists (has (bv_votes bv)). split; [done|]. intros j Hj. pose proof Hj as (v & Hlk)%has_true. exists v.
  pose proof (tr_good _ _ _ _ _ _ _ _ _ Htr j v Hlk) as Hg. split_and!; [done| |by apply Hin]. destruct (Hv j v Hlk) as [Hkv _]. apply Key_inj; [apply Hg|done|congruence].
Qed.
(** Validators with more than two thirds of the power whose vote in the set is for one block,
    and who have no other. *)
Lemma majority_found given vs b P : setting -> ok given vs -> 2 * power l < 3 * power_of l P ->
  (forall j, P j = true -> has (vs_votes vs) j = true /\ forall v, is_good given j v -> vt_BlockID v = b) -> vs_maj23 vs = Some b.
Proof.
  intros Hse Hok Hpow HP. assert (Hn : nonneg l) by (intros v Hv; pose proof (po_positive _ (se_powers Hse) v Hv); lia). destruct (vs_maj23 vs) as [b'|] eqn:Hm.
  - destruct (majority_votes given vs b' Hse Hok Hm) as (P' & Hpow' & HP'). pose proof (power_of_overlap l P P' Hn) as Hov.
    destruct (power_of_witness l (fun j => P j && P' j)) as (j & _ & [Hj Hj']%andb_true_iff); [pose proof (power_pos l (se_powers Hse)); lia|]. destruct (HP' j Hj') as (v & Hg & Hb & _). destruct (HP j Hj) as [_ Hu]. by rewrite <- (Hu v Hg), Hb.
  - exfalso. pose proof (vo_majority _ _ _ _ _ _ _ Hok) as Hmaj. unfold majority_ok in Hmaj. rewrite Hm in Hmaj.
    assert (Hsto : forall j, P j = true -> exists key bv, Key b = Some key /\ vs_votesByBlock vs !! key = Some bv /\ has (bv_votes bv) j = true).
    { intros j Hj. destruct (HP j Hj) as [(v & Hv)%has_true Hu]. destruct (vo_stored _ _ _ _ _ _ _ Hok j v Hv) as (key & bv & Hk & Hb & Hor). rewrite Hm in Hor. destruct Hor as [Hh|]; [|done].
      exists key, bv. rewrite <- (Hu v); [done|]. by eapply tr_good, Hv; apply Hok. }
    destruct (power_of_witness l P) as (j0 & _ & Hj0); [pose proof (power_pos l (se_powers Hse)); lia|]. destruct (Hsto j0 Hj0) as (key & bv & Hk & Hb & _). specialize (Hmaj key bv Hb).
    destruct (vo_blocks _ _ _ _ _ _ _ Hok _ _ Hb) as [Htr _]. rewrite (tr_sum _ _ _ _ _ _ _ _ _ Htr) in Hmaj. assert (Hle : power_of l P <= power_of l (has (bv_votes bv))); [|lia]. apply power_of_le; [done|].
    intros j Hj. destruct (Hsto j Hj) as (key' & bv' & Hk' & Hb' & Hh). rewrite Hk in Hk'. injection Hk' as <-. rewrite Hb in Hb'. by injection Hb' as <-.
Qed.

(** A vote for a block with a hash of the wrong size, or with a part set header that is not
    valid, that is otherwise the signed vote of validator [j]. *)
Record malformed (j : nat) (v : Vote) : Prop := {
  ml_index : vt_ValidatorIndex v = Z.of_nat j;
  ml_step : vt_Height v = height /\ vt_Round v = round /\ vt_Type v = ty;
  ml_signer : exists val, l !! j = Some val /\ vt_ValidatorAddress v = v_Address val /\ Address (v_PubKey val) = v_Address val;
  ml_signed : is_Some (vt_Signature v);
  ml_block : bid_ValidateBasic (vt_BlockID v) <> None
}.
Lemma malformed_panics given vs j v : setting -> ok given vs -> has (vs_votes vs) j = false -> malformed j v -> AddVote vs v = None.
Proof.
  intros Hse Hok Hno [Hi (Hh & Hr & Ht) (val & Hj & Ha & Hpk) (sig & Hsig) Hbid]. unfold AddVote, addVote. rewrite Hi.
  destruct (Key (vt_BlockID v)) as [key|] eqn:Hk; [|done]. cbn [mbind option_bind]. destruct (vo_static _ _ _ _ _ _ _ Hok) as (Hch & -> & -> & -> & Hl).
  pose proof (lookup_lt_Some _ _ _ Hj) as Hlt. pose proof (se_addresses Hse val (list_elem_of_lookup_2 _ _ _ Hj)) as Hal.
  rewrite (bool_decide_false (Z.of_nat j < 0)) by lia. rewrite (bool_decide_false (length _ = 0%nat)) by (rewrite Ha, Hal; discriminate).
  rewrite !(bool_decide_false (_ <> _)) by auto. cbn [orb]. unfold GetByIndex. rewrite Hl, (bool_decide_false (Z.of_nat j < 0)), (bool_decide_false (_ <= _)) by lia.
  cbn [orb]. rewrite Nat2Z.id, Hj. cbn [fmap option_fmap option_map]. rewrite (bool_decide_false (_ <> _)) by auto.
  destruct (getVote_spec chainID height round ty l given vs j v key Hok Hlt Hk) as [(w & _ & Hhas)|[-> _]]; [by rewrite Hhas in Hno|].
  cbn [mbind option_bind]. unfold vote_Verify. rewrite (bool_decide_false (_ <> _)), Hsig by (rewrite Ha, Hpk; auto).
  unfold VoteSignBytes, CanonicalizeVote, CanonicalizeBlockID. by destruct (bid_ValidateBasic (vt_BlockID v)).
Qed.

(** C4. Whatever the order of votes that pass the basic validation (for nil or for a complete
    block, with a time that can be encoded) and of claims of peers for such blocks: votes of
    another step, with a wrong index, address or signature, duplicates and conflicting ones
    included, collecting them does not panic.  The sum and the bits are those of the
    validators with a valid vote.  A majority is backed by valid votes for the block of
    validators with more than two thirds of the power; and if validators with more than two
    thirds of the power voted for one block and nothing else, that block is the majority.  A
    majority that was found stays.  A vote that does not pass the basic validation because of
    its block, of a validator with no vote so far, is the limit of this: it does panic. *)
Theorem vote_set_majority ops : setting -> (forall op, op ∈ ops -> op_ok op) -> exists vs, collect chainID height round ty vals ops = Some vs /\
  (exists ba, vs_BitArray vs = Some ba /\ Bits ba = Z.of_nat (length l) /\ vs_sum vs = power_of l (fun j => bit ba (Z.of_nat j)) /\ forall j, bit ba (Z.of_nat j) = true <-> exists b, voted ops j b) /\
  (forall b, TwoThirdsMajority vs = (b, true) -> exists P, 2 * power l < 3 * power_of l P /\ forall j, P j = true -> voted ops j b) /\
  (forall b P, 2 * power l < 3 * power_of l P -> (forall j, P j = true -> voted ops j b /\ forall b', voted ops j b' -> b' = b) -> TwoThirdsMajority vs = (b, true)) /\
  (forall ops1 ops2 vs1 b, ops = ops1 ++ ops2 -> collect chainID height round ty vals ops1 = Some vs1 -> TwoThirdsMajority vs1 = (b, true) -> TwoThirdsMajority vs = (b, true)) /\
  (forall j v, malformed j v -> (forall b, ~ voted ops j b) -> AddVote vs v = None).
Proof.
  intros Hse Hops. set (given := fun v => OVote v ∈ ops). destruct (NewVoteSet_spec chainID height round ty l given (se_powers Hse) vals) as (vs0 & Hnew & Hok0 & Hno & Hm0); [pose proof (se_height Hse); lia|done|apply Hse|].
  destruct (run_ok given ops Hse Hops (fun v H => H) vs0 Hok0) as (vs & Hrun & Hok & _ & _ & Hall). exists vs. unfold collect. rewrite Hnew. cbn [mbind option_bind]. split; [done|].
  assert (Hvoted : forall j, has (vs_votes vs) j = true <-> exists b, voted ops j b).
  { intros j. split; [intros (v & Hv)%has_true; exists (vt_BlockID v), v; split; [|done]; by eapply tr_good, Hv; apply Hok|]. intros (b & v & Hg & _). eapply Hall; [apply Hg|done]. }
  split_and!.
  - destruct (tr_bits _ _ _ _ _ _ _ _ _ (vo_votes _ _ _ _ _ _ _ Hok)) as (ba & Hba & _ & Hbits & Hbit). exists ba. unfold vs_BitArray, ba_Copy. rewrite Hba. split; [done|]. split; [done|]. split; [|intros j; by rewrite Hbit].
    rewrite (tr_sum _ _ _ _ _ _ _ _ _ (vo_votes _ _ _ _ _ _ _ Hok)). apply power_of_ext. intros j _. by rewrite Hbit.
  - intros b Htm. unfold TwoThirdsMajority in Htm. destruct (vs_maj23 vs) as [b'|] eqn:Hm; [|done]. injection Htm as ->. destruct (majority_votes given vs b Hse Hok Hm) as (P & Hpow & HP). exists P. split; [done|]. intros j Hj.
    destruct (HP j Hj) as (v & Hg & Hb & _). by exists v.
  - intros b P Hpow HP. unfold TwoThirdsMajority. rewrite (majority_found given vs b P); try done. intros j Hj. destruct (HP j Hj) as [Hv Hu]. split; [apply Hvoted; by exists b|]. intros v Hg. apply Hu. by exists v.
  - intros ops1 ops2 vs1 b -> Hrun1 Htm.
    destruct (run_ok given ops1 Hse (fun op H => Hops op ltac:(apply elem_of_app; by left)) (fun v H => ltac:(apply elem_of_app; by left)) vs0 Hok0) as (vs1' & Hrun1' & Hok1 & _). rewrite Hrun1 in Hrun1'. injection Hrun1' as <-.
    destruct (run_ok given ops2 Hse (fun op H => Hops op ltac:(apply elem_of_app; by right)) (fun v H => ltac:(apply elem_of_app; by right)) vs1 Hok1) as (vs2 & Hrun2 & _ & _ & Hm2 & _).
    assert (Happ : forall ops1 ops2 vs, vs_run vs (ops1 ++ ops2) = vs ← vs_run vs ops1; vs_run vs ops2).
    { clear. induction ops1 as [|op ops1 IH]; intros ops2 vs; [done|]. cbn [app vs_run]. destruct (vs_step vs op); [apply IH|done]. }
    rewrite Happ, Hrun1 in Hrun. cbn [mbind option_bind] in Hrun. rewrite Hrun2 in Hrun. injection Hrun as ->. unfold TwoThirdsMajority in *. destruct (vs_maj23 vs1) as [b1|]; [|done]. injection Htm as ->. by rewrite (Hm2 b eq_refl).
  - intros j v Hm Hn. apply (malformed_panics given vs j v Hse Hok); [|done]. apply not_true_iff_false. intros [b Hb]%Hvoted. by apply (Hn b).
Qed.
End Runs.

(** Commits made of a vote set: they are accepted by the verification, and the vote set made
    of such a commit gives it back. *)
(** The signature that a vote becomes. *)
Definition sig_of (b : BlockID) (o : option Vote) : CommitSig :=
  match o with
  | None => NewCommitSigAbsent
  | Some v =>
      if bid_IsComplete (vt_BlockID v) then
        if bool_decide (vt_BlockID v = b) then mkCommitSig BlockIDFlagCommit (vt_ValidatorAddress v) (vt_Timestamp v) (vt_Signature v) else NewCommitSigAbsent
      else mkCommitSig BlockIDFlagNil (vt_ValidatorAddress v) (vt_Timestamp v) (vt_Signature v)
  end.
Lemma commit_sigs_spec b votes : (forall i v, votes !! i = Some (Some v) -> whole (vt_BlockID v)) -> commit_sigs b votes = Some (sig_of b <$> votes).
Proof.
  induction votes as [|o votes IH]; intros Hw; [done|]. cbn [commit_sigs]. rewrite IH by (intros i v Hv; by apply (Hw (S i))). rewrite fmap_cons. destruct o as [v|]; [|done]. destruct (Hw 0%nat v eq_refl) as [_ Hor]. unfold vote_CommitSig, sig_of.
  destruct (bid_IsComplete (vt_BlockID v)); cbn [mbind option_bind].
  - rewrite bool_decide_true by done. cbn [andb]. rewrite bid_Equals_eq. by case_bool_decide.
  - rewrite orb_false_r in Hor. rewrite Hor. cbn [mbind option_bind]. by rewrite bool_decide_false.
Qed.

Section Commits.
Context `{ST : StdTime} `{STL : !StdTimeLaws} `{CR : Crypto}.
Context (chainID : bytes) (height round : Z) (vals : ValidatorSet).
Local Abbreviation l := (Validators vals).
Local Abbreviation is_good given := (good chainID height round PrecommitType l given).
Local Abbreviation ok given := (vs_ok chainID height round PrecommitType l given).
Context (Hse : setting chainID height round vals).

(** A vote is back what it was when it is read from the commit. *)
Definition made (vs : VoteSet) (b : BlockID) : Commit := mkCommit height round b (sig_of b <$> vs_votes vs).
Lemma MakeCommit_spec given vs b : ok given vs -> vs_maj23 vs = Some b -> MakeCommit vs = Some (made vs b).
Proof.
  intros Hok Hm. destruct (vo_static _ _ _ _ _ _ _ Hok) as (_ & Hh & Hr & Ht & _). unfold MakeCommit. rewrite Ht, bool_decide_false, Hm by auto. cbn [mbind option_bind]. rewrite commit_sigs_spec.
  - unfold made. by rewrite Hh, Hr.
  - intros i v Hv. by eapply go_whole, tr_good, Hv; apply Hok.
Qed.
Definition present (vs : VoteSet) (b : BlockID) (i : nat) (v : Vote) : Prop := vs_votes vs !! i = Some (Some v) /\ (bid_IsComplete (vt_BlockID v) = true -> vt_BlockID v = b).
Lemma sig_present vs b i cs : (sig_of b <$> vs_votes vs) !! i = Some cs ->
  (cs_BlockIDFlag cs = BlockIDFlagAbsent /\ forall v, ~ present vs b i v) \/
  (cs_BlockIDFlag cs <> BlockIDFlagAbsent /\ exists v, present vs b i v /\ cs_ValidatorAddress cs = vt_ValidatorAddress v /\ cs_Timestamp cs = vt_Timestamp v /\ cs_Signature cs = vt_Signature v /\
    (whole (vt_BlockID v) -> cs_BlockID cs b = Some (vt_BlockID v)) /\ (is_flag BlockIDFlagCommit cs = true <-> bid_IsComplete (vt_BlockID v) = true)).
Proof.
  rewrite list_lookup_fmap. unfold present. destruct (vs_votes vs !! i) as [[v|]|]; [| |done]; intros [= <-]; [|left; split; [done|]; by intros v [[=] _]]. unfold sig_of. destruct (bid_IsComplete (vt_BlockID v)) eqn:Hc.
  - case_bool_decide as Hb; [right|left]; (split; [done|]); [|intros w [[= <-] Hw]; by apply Hb, Hw]. exists v. split_and!; try done. intros _. simpl. unfold cs_BlockID. simpl. by rewrite Hb.
  - right. split; [done|]. exists v. split_and!; [done|congruence|done|done|done| |rewrite Hc; done]. intros [_ Hor]. rewrite Hc, orb_false_r in Hor. apply IsNil_true in Hor. by rewrite Hor.
Qed.
Lemma GetVote_made given vs b i cs v : ok given vs -> (sig_of b <$> vs_votes vs) !! i = Some cs -> cs_BlockIDFlag cs <> BlockIDFlagAbsent -> present vs b i v ->
  GetVote (made vs b) (int32 (Z.of_nat i)) = Some (Some v).
Proof.
  intros Hok Hcs Hfl [Hv Hc]. pose proof (tr_good _ _ _ _ _ _ _ _ _ (vo_votes _ _ _ _ _ _ _ Hok) i v Hv) as Hg. pose proof (good_lookup _ _ _ _ _ _ _ _ Hg) as Hi. pose proof (se_length _ _ _ _ Hse).
  assert (Hint : int32 (Z.of_nat i) = Z.of_nat i) by (unfold int32; rewrite Z.mod_small; lia). rewrite Hint. pose proof (lookup_lt_Some _ _ _ Hcs) as Hil. unfold GetVote, made. cbn [cm_Signatures cm_BlockID cm_Height cm_Round].
  rewrite !bool_decide_false, Nat2Z.id, Hcs by lia. cbn [mbind option_bind]. destruct (sig_present _ _ _ _ Hcs) as [[Ha _]|(_ & w & [Hw _] & Haddr & Ht & Hs & Hb & _)]; [done|]. rewrite Hv in Hw. injection Hw as <-.
  rewrite (Hb (go_whole _ _ _ _ _ _ _ _ Hg)). cbn [mbind option_bind]. rewrite Haddr, Ht, Hs. destruct (go_step _ _ _ _ _ _ _ _ Hg) as (H1 & H2 & H3). rewrite <- H1, <- H2, <- H3, <- (go_index _ _ _ _ _ _ _ _ Hg). by destruct v.
Qed.
Lemma made_valid given vs b i v : ok given vs -> present vs b i v -> valid_sig chainID vals (made vs b) i i.
Proof.
  intros Hok Hpr. pose proof Hpr as [Hv Hc]. pose proof (tr_good _ _ _ _ _ _ _ _ _ (vo_votes _ _ _ _ _ _ _ Hok) i v Hv) as Hg.
  assert (Hcs : exists cs, (sig_of b <$> vs_votes vs) !! i = Some cs) by (rewrite list_lookup_fmap, Hv; by eexists). destruct Hcs as [cs Hcs].
  destruct (sig_present _ _ _ _ Hcs) as [[_ Hno]|(Hfl & w & [Hw _] & Haddr & Ht & Hs & _)]; [by destruct (Hno v)|]. rewrite Hv in Hw. injection Hw as <-.
  destruct (go_signed _ _ _ _ _ _ _ _ Hg) as (val & Hval & Ha & Hver). unfold vote_Verify in Hver. case_bool_decide; [done|]. destruct (vt_Signature v) as [sig|] eqn:Hsig; [|done]. destruct (VoteSignBytes chainID v) as [bz|] eqn:Hbz; [|done]. cbn [mbind option_bind] in Hver.
  exists val, cs, bz, sig. split_and!; try done; [by rewrite Haddr, Ha| |by destruct (key_Verify _ _ _)]. unfold commit_VoteSignBytes. rewrite (GetVote_made given vs b i cs v) by done. cbn [mbind option_bind]. by rewrite Hbz.
Qed.
(** The signatures for the block have the power of the majority. *)
Lemma made_power given vs b : ok given vs -> vs_maj23 vs = Some b -> bid_IsComplete b = true -> 2 * power l < 3 * power_of l (for_block (made vs b)).
Proof.
  intros Hok Hm Hc. destruct (majority_votes chainID height round PrecommitType vals given vs b Hse Hok Hm) as (P & Hpow & HP). assert (Hle : power_of l P <= power_of l (for_block (made vs b))); [|lia].
  apply power_of_le; [intros v Hv; pose proof (po_positive _ (se_powers _ _ _ _ Hse) v Hv); lia|]. intros j Hj. destruct (HP j Hj) as (_ & _ & _ & v & Hv & Hb). unfold for_block, made. cbn [cm_Signatures]. rewrite list_lookup_fmap, Hv. simpl.
  rewrite Hb, Hc. by rewrite bool_decide_true.
Qed.

(** ** The way back *)
Section Back.
Context (given : Vote -> Prop) (vs : VoteSet) (b : BlockID) (Hok : ok given vs).
Definition kept (v : Vote) : Prop := exists i, present vs b i v.
Lemma kept_good i v : present vs b i v -> is_good kept i v /\ signable chainID v.
Proof.
  intros Hpr. destruct (tr_good _ _ _ _ _ _ _ _ _ (vo_votes _ _ _ _ _ _ _ Hok) i v (proj1 Hpr)) as [H1 H2 H3 H4 H5]. split; [split; try done; by exists i|]. destruct H5 as (val & _ & _ & Hver). destruct H4 as (Hh & Hr & Ht).
  assert (Htime : is_Some (StdTimeMarshal (vt_Timestamp v))).
  { unfold vote_Verify in Hver. case_bool_decide; [done|]. destruct (vt_Signature v); [|done]. destruct (VoteSignBytes chainID v) as [bz|] eqn:Hbz; [|done]. by apply bytes_time in Hbz as [_ ?]. }
  pose proof (se_height _ _ _ _ Hse). pose proof (se_round _ _ _ _ Hse). split; [rewrite Ht; done|lia|lia|apply H3|done|apply Hse].
Qed.
Lemma kept_unique i v : is_good kept i v -> present vs b i v.
Proof.
  intros [(j & Hpr) Hi _ _ _]. pose proof (tr_good _ _ _ _ _ _ _ _ _ (vo_votes _ _ _ _ _ _ _ Hok) j v (proj1 Hpr)) as Hg. pose proof (go_index _ _ _ _ _ _ _ _ Hg) as Hj. assert (i = j) as -> by lia. done.
Qed.
Lemma kept_valid i v : present vs b i v -> vote_ValidateBasic v = None.
Proof.
  intros Hpr. destruct (kept_good i v Hpr) as [[_ Hi [[Hv _] Hor] (Hh & Hr & Ht) (val & Hval & Ha & _)] _]. unfold vote_ValidateBasic, IsVoteTypeValid. rewrite Ht. rewrite (bool_decide_true (PrecommitType = PrecommitType)), orb_true_r by done. cbn [negb].
  pose proof (se_height _ _ _ _ Hse). pose proof (se_round _ _ _ _ Hse). rewrite !(bool_decide_false (_ < 0)) by lia. rewrite Hv. rewrite <- negb_orb, Hor. cbn [negb]. rewrite Ha, (se_addresses _ _ _ _ Hse val) by (by eapply list_elem_of_lookup_2).
  by rewrite bool_decide_false by auto.
Qed.
Lemma add_sigs_ok rest : forall idx cur, drop idx (sig_of b <$> vs_votes vs) = rest -> ok kept cur -> (forall j, has (vs_votes cur) j = true <-> (j < idx)%nat /\ exists v, present vs b j v) ->
  exists cur', add_sigs (made vs b) rest idx cur = Some cur' /\ ok kept cur' /\ forall j, has (vs_votes cur') j = true <-> exists v, present vs b j v.
Proof.
  induction rest as [|cs rest IH]; intros idx cur Hd Hcur Hhas; cbn [add_sigs].
  - exists cur. split_and!; try done. intros j. rewrite Hhas. split; [by intros [_ ?]|]. intros [v Hv]. split; [|by exists v]. apply (f_equal length) in Hd. rewrite length_drop, length_fmap in Hd. simpl in Hd.
    destruct Hv as [Hv _]. apply lookup_lt_Some in Hv. lia.
  - assert (Hcs : (sig_of b <$> vs_votes vs) !! idx = Some cs) by (rewrite <- (Nat.add_0_r idx), <- lookup_drop, Hd; done). assert (Hd' : drop (S idx) (sig_of b <$> vs_votes vs) = rest) by (by rewrite <- Nat.add_1_r, <- drop_drop, Hd).
    destruct (sig_present vs b idx cs Hcs) as [[Hab Hno]|(Hfl & v & Hpr & _)].
    + rewrite bool_decide_true by done. apply IH; try done. intros j. rewrite Hhas. split; [intros [? ?]; split; [lia|done]|]. intros [Hj [w Hw]]. split; [|by exists w]. assert (j <> idx); [intros ->; by destruct (Hno w)|lia].
    + rewrite bool_decide_false by done. rewrite (GetVote_made given vs b idx cs v) by done. cbn [mbind option_bind]. rewrite (kept_valid idx v Hpr). rewrite (bool_decide_false (None <> None)) by auto. destruct (kept_good idx v Hpr) as [Hg Hs].
      assert (Hfresh : has (vs_votes cur) idx = false) by (apply not_true_iff_false; rewrite Hhas; lia).
      destruct (addVote_spec chainID height round PrecommitType l kept (se_powers _ _ _ _ Hse) cur v) as (cur1 & added & err & Hadd & Hok1 & _ & _ & Hgood & _); try done; [|by exists idx|apply Hg|].
      { intros val Hval Hn. pose proof (se_addresses _ _ _ _ Hse val Hval) as Ha. by rewrite Hn in Ha. }
      unfold AddVote. rewrite Hadd. cbn [mbind option_bind]. destruct (Hgood idx Hg) as [_ Hfr]. destruct (Hfr Hfresh) as (-> & -> & Hhas1). cbn [negb orb]. rewrite (bool_decide_false (None <> None)) by auto. apply IH; try done.
      intros j. rewrite Hhas1. unfold add_index. rewrite orb_true_iff, bool_decide_eq_true, Hhas. split; [intros [->|[? ?]]; split; try lia; [by exists v|done]|]. intros [Hj Hex]. destruct (decide (j = idx)); [by left|right; split; [lia|done]].
Qed.
End Back.
End Commits.

Section Theorems.
Context `{ST : StdTime} `{STL : !StdTimeLaws} `{CR : Crypto} `{CRL : !CryptoLaws}.
(** C23. A commit that is made of the precommits of any vote set with a majority for a block is
    accepted by the verification for that block, and the vote set made of the commit, which
    does not panic, has the same majority and makes the same commit. *)
Theorem commit_roundtrip chainID height round vals ops vs b : setting chainID height round vals -> (forall op, op ∈ ops -> op_ok chainID op) ->
  collect chainID height round PrecommitType vals ops = Some vs -> TwoThirdsMajority vs = (b, true) -> bid_IsComplete b = true ->
  exists commit vals' vs', MakeCommit vs = Some commit /\ VerifyCommit chainID vals b height commit = Some (vals', None) /\
    ToVoteSet commit chainID vals = Some vs' /\ TwoThirdsMajority vs' = (b, true) /\ MakeCommit vs' = Some commit.
Proof.
  intros Hse Hops Hrun Htm Hc. set (given := fun v => OVote v ∈ ops). assert (Hh0 : height <> 0) by (pose proof (se_height _ _ _ _ Hse); lia).
  destruct (NewVoteSet_spec chainID height round PrecommitType (Validators vals) given (se_powers _ _ _ _ Hse) vals) as (vs0 & Hnew & Hok0 & _); [done|done|apply Hse|]. unfold collect in Hrun. rewrite Hnew in Hrun. cbn [mbind option_bind] in Hrun.
  destruct (run_ok chainID height round PrecommitType vals given ops Hse Hops (fun v H => H) vs0 Hok0) as (vs1 & Hrun1 & Hok & _). rewrite Hrun in Hrun1. injection Hrun1 as <-.
  unfold TwoThirdsMajority in Htm. destruct (vs_maj23 vs) as [b'|] eqn:Hm; [|done]. injection Htm as ->. pose proof (MakeCommit_spec chainID height round vals given vs b Hok Hm) as Hmake.
  destruct (VerifyCommit_iff chainID vals b height (made height round vs b) (se_powers _ _ _ _ Hse) (se_cache _ _ _ _ Hse)) as [_ Hacc]. destruct Hacc as [vals' Hver].
  { split_and!; [done|done| | |by apply (made_power chainID height round vals Hse given)].
    - unfold made. cbn [cm_Signatures]. rewrite length_fmap. apply (tr_length _ _ _ _ _ _ _ _ _ (vo_votes _ _ _ _ _ _ _ Hok)).
    - intros i cs Hcs Hfl. destruct (sig_present vs b i cs Hcs) as [[? _]|(_ & v & Hpr & _)]; [done|]. by apply (made_valid chainID height round vals Hse given vs b i v). }
  destruct (NewVoteSet_spec chainID height round PrecommitType (Validators vals) (kept vs b) (se_powers _ _ _ _ Hse) vals) as (new & Hnew' & Hokn & Hnon & _); [done|done|apply Hse|].
  destruct (add_sigs_ok chainID height round vals Hse given vs b Hok (sig_of b <$> vs_votes vs) 0 new (drop_0 _) Hokn) as (vs' & Hadd & Hok' & Hhas'); [intros j; rewrite Hnon; split; [done|lia]|].
  assert (Hm' : vs_maj23 vs' = Some b).
  { apply (majority_found chainID height round PrecommitType vals (kept vs b) vs' b (for_block (made height round vs b)) Hse Hok'); [by apply (made_power chainID height round vals Hse given)|].
    intros j Hj. unfold for_block in Hj. destruct (cm_Signatures (made height round vs b) !! j) as [cs|] eqn:Hcs; [|done]. cbn [made cm_Signatures] in Hcs.
    destruct (sig_present vs b j cs Hcs) as [[Ha _]|(_ & v & Hpr & _ & _ & _ & _ & Hfl)]; [unfold is_flag in Hj; by rewrite Ha in Hj|]. split; [apply Hhas'; by exists v|].
    intros w Hw. destruct (kept_unique chainID height round vals given vs b Hok j w Hw) as [Hw1 Hw2]. destruct Hpr as [Hv1 _]. rewrite Hv1 in Hw1. injection Hw1 as <-. apply Hw2, Hfl, Hj. }
  exists (made height round vs b), vals', vs'. split_and!; [done|done| |unfold TwoThirdsMajority; by rewrite Hm'|].
  - unfold ToVoteSet. cbn [cm_Height cm_Round made]. rewrite Hnew'. cbn [mbind option_bind]. exact Hadd.
  - rewrite (MakeCommit_spec chainID height round vals (kept vs b) vs' b Hok' Hm'). unfold made. do 2 f_equal. apply list_eq. intros i. rewrite !list_lookup_fmap.
    pose proof (vo_votes _ _ _ _ _ _ _ Hok) as Htr. pose proof (vo_votes _ _ _ _ _ _ _ Hok') as Htr'. destruct (vs_votes vs' !! i) as [[w|]|] eqn:Hw.
    + assert (Hg : good chainID height round PrecommitType (Validators vals) (kept vs b) i w) by (by eapply tr_good, Hw). by destruct (kept_unique chainID height round vals given vs b Hok i w Hg) as [-> _].
    + pose proof (lookup_lt_Some _ _ _ Hw) as Hi. rewrite (tr_length _ _ _ _ _ _ _ _ _ Htr'), <- (tr_length _ _ _ _ _ _ _ _ _ Htr) in Hi. destruct (lookup_lt_is_Some_2 _ _ Hi) as [[v|] Hv]; rewrite Hv; [|done]. simpl.
      destruct (bid_IsComplete (vt_BlockID v)) eqn:Hcv; [case_bool_decide as Hb; [|done]|]; exfalso; assert (Hh : has (vs_votes vs') i = true) by (apply Hhas'; exists v; split; [done|congruence]); unfold has in Hh; by rewrite Hw in Hh.
    + apply lookup_ge_None in Hw. rewrite (tr_length _ _ _ _ _ _ _ _ _ Htr'), <- (tr_length _ _ _ _ _ _ _ _ _ Htr) in Hw. by rewrite lookup_ge_None_2.
Qed.
End Theorems.
