(* ===== verification/ConsensusExamples.v ===== *)
(** Concrete validator sets and votes at which the theorems on consensus are applied. *)
From stdpp Require Import base gmap sets list sorting fin_maps.
From Stdlib Require Import ZArith Lia.
From S2P Require Import Prelude Proto ProtoSpec Valset ValsetPrio ValsetFair ValsetUpdate Merkle MerkleSpec BitArray BitArraySpec SignBytes SignBytesSpec PartSet PartSetSpec Commit CommitSpec VoteSet VoteSetSpec VoteSetRuns.
Local Open Scope Z_scope.

(** Three validators; the second joins with a priority of its own. *)
Definition val (k : nat) (power priority : Z) : Validator :=
  mkValidator (repeat (Z.of_nat k) AddressSize) (repeat (Z.of_nat (100 + k)) 32) power priority.
Definition trio : ValidatorSet := mkVals [val 1 10 3; val 2 5 (-4); val 3 1 2] None 0.
Lemma trio_ok : valset_ok trio.
Proof.
  split.
  - split; [done|by apply (bool_decide_unpack _)|by apply Forall_forall, (bool_decide_unpack _)|done].
  - by left.
  - intros v Hv. revert v Hv. refine (proj1 (Forall_forall (fun v => - 9 * M <= 4 * pri v <= 15 * M) (Validators trio)) _). by apply (bool_decide_unpack _).
Defined.

Lemma proposers_proportional_witness : exists vals' ps, increment_times trio 20 = Some (vals', ps) /\ Z.of_nat (length ps) = 20 /\
  (forall p, p ∈ ps -> proposer_of p ∈ proposer_of <$> Validators trio) /\
  forall v, v ∈ Validators trio -> Z.abs (power (Validators trio) * turns (v_Address v) ps - 20 * pow v) <= 6 * power (Validators trio).
Proof. apply (proposers_proportional trio 20); [exact trio_ok|by apply Nat.leb_le|done]. Defined.

(** A removal, an update and a new validator are accepted; a removal of a stranger is not. *)
Definition trio_changes : list Validator := [val 1 0 0; val 2 7 0; val 4 3 0].
Lemma trio_acceptable : acceptable (Validators trio) trio_changes.
Proof.
  split; [split; by apply (bool_decide_unpack _)| |by apply (bool_decide_unpack _)|done].
  refine (proj1 (Forall_forall (fun c => pow c = 0 -> v_Address c ∈ addrs (Validators trio)) _) _). by apply (bool_decide_unpack _).
Defined.
Lemma trio_refuses : ~ acceptable (Validators trio) [val 5 0 0].
Proof. intros [_ H _ _]. specialize (H (val 5 0 0) ltac:(left) eq_refl). revert H. by apply (bool_decide_unpack _). Defined.
Lemma UpdateWithChangeSet_exact_witness :
  (exists vals', UpdateWithChangeSet trio trio_changes = Some (vals', None) /\ updated trio trio_changes vals') /\
  (exists vals' e, UpdateWithChangeSet trio [val 5 0 0] = Some (vals', Some e) /\ unchanged trio vals').
Proof.
  split; [apply (UpdateWithChangeSet_exact trio trio_changes trio_ok ltac:(done)), trio_acceptable|apply (UpdateWithChangeSet_exact trio [val 5 0 0] trio_ok ltac:(done)), trio_refuses].
Defined.

Definition trio_ops : list valset_op := [OIncrement 3; OUpdate trio_changes; OUpdate [val 5 0 0]; OIncrement 1].
Lemma valset_refines_witness : exists vals vals', NewValidatorSet (Validators trio) = Some vals /\ valset_run vals trio_ops = Some vals' /\
  powers_map (Validators vals') = ref_run (next_powers ∅ (Validators trio)) trio_ops /\ exists p, GetProposer vals' = Some (vals', Some p).
Proof.
  destruct (valset_refines (Validators trio) trio_ops) as (vals & vals' & Hnew & Hrun & _ & Hm & _ & _ & _ & p & Hp & _);
    [done|apply (bool_decide_unpack _); vm_compute; exact I|by apply (bool_decide_unpack _)| |].
  - unfold trio_ops. cbn [ops_ok]. repeat (apply conj); try exact I; [right; split; [reflexivity|]|left; reflexivity].
    apply Nat.leb_le. vm_compute. reflexivity.
  - exists vals, vals'. split; [exact Hnew|]. split; [exact Hrun|]. split; [exact Hm|]. by exists p.
Defined.

(** ** Votes *)
(** Times of eight bytes, a hash that shifts bytes, and signatures that are the key and the
    message. *)
#[export] Instance ex_time : StdTime := {|
  StdTimeMarshal := fun t => if bool_decide (- 2 ^ 63 <= t < 2 ^ 63) then Some (le_bytes 8 (uint64 t)) else None;
  StdTimeUnmarshal := fun b => if bool_decide (length b = 8%nat) then Some (int64 (from_le b)) else None
|}.
Lemma ex_time_laws : StdTimeLaws.
Proof.
  split; intros t b; cbn [StdTimeMarshal StdTimeUnmarshal ex_time]; case_bool_decide as Ht; try done; intros Hb; assert (b = le_bytes 8 (uint64 t)) as -> by congruence.
  - rewrite bool_decide_true by apply length_le_bytes. f_equal. rewrite from_le_bytes by (apply (Z.mod_pos_bound t (2 ^ 64)); done).
    unfold int64, uint64. rewrite Z.add_mod_idemp_l by done. fold (int64 t). by apply int64_small.
  - unfold len. rewrite length_le_bytes. lia.
Qed.
#[export] Instance ex_crypto : Crypto := {|
  sha256 := fun key => (fun x => x - 100) <$> key;
  VerifyWithOptions := fun key msg sig => bool_decide (sig = key ++ msg);
  inner_Verify := fun l => (bool_decide (l <> []) && forallb (fun '(key, msg, sig) => bool_decide (sig = key ++ msg)) l, (fun '(key, msg, sig) => bool_decide (sig = key ++ msg)) <$> l)
|}.
Lemma ex_crypto_laws : CryptoLaws.
Proof. split. done. Qed.

Definition ex_chain : bytes := [115; 101; 105].
Definition ex_block (k : Z) : BlockID := mkBlockID (repeat k 32) (mkPartSetHeader 1 (repeat (k + 1) 32)).
(** The precommit of validator [k + 1], at index [k]. *)
Definition ex_unsigned (k : nat) (b : BlockID) (t : Z) : Vote := mkVote PrecommitType 5 0 b t (repeat (Z.of_nat (S k)) 20) (Z.of_nat k) None.
Definition ex_vote (k : nat) (b : BlockID) (t : Z) : Vote :=
  let v := ex_unsigned k b t in
  mkVote PrecommitType 5 0 b t (vt_ValidatorAddress v) (vt_ValidatorIndex v) ((fun bz => repeat (Z.of_nat (101 + k)) 32 ++ bz) <$> VoteSignBytes ex_chain v).
Definition ex_sig (k : nat) (b : BlockID) (t : Z) : CommitSig := default NewCommitSigAbsent (vote_CommitSig (Some (ex_vote k b t))).
(** The first two of the trio have 15 of 16. *)
Definition ex_commit (k : Z) : Commit := mkCommit 5 0 (ex_block k) [ex_sig 0 (ex_block k) 7; ex_sig 1 (ex_block k) 8; NewCommitSigAbsent].
Lemma ex_accepts k : k ∈ [10; 20] -> VerifyCommit ex_chain trio (ex_block k) 5 (ex_commit k) = Some (with_total 16 trio, None) /\ VerifyCommitLight ex_chain trio (ex_block k) 5 (ex_commit k) = Some (with_total 16 trio, None) /\
  VerifyCommitLightTrusting ex_chain trio (ex_commit k) (mkFraction 1 3) = Some (with_total 16 trio, None).
Proof. rewrite !elem_of_cons, elem_of_nil. intros [->|[->|[]]]; split_and!; vm_compute; reflexivity. Qed.

Lemma signable_ex k b t : bid_ok b -> 0 <= t < 2 ^ 63 -> signable ex_chain (ex_unsigned k b t).
Proof.
  intros Hb Ht. split; try done. cbn [vt_Timestamp ex_unsigned StdTimeMarshal ex_time]. rewrite bool_decide_true by lia. by eexists.
Qed.
Lemma VoteSignBytes_injective_witness : is_Some (VoteSignBytes ex_chain (ex_unsigned 0 (ex_block 10) 7)) /\
  (VoteSignBytes ex_chain (ex_unsigned 0 (ex_block 10) 7) = VoteSignBytes ex_chain (ex_unsigned 1 (ex_block 20) 7) ->
    ex_chain = ex_chain /\ PrecommitType = PrecommitType /\ 5 = 5 /\ 0 = 0 /\ ex_block 10 = ex_block 20 /\ 7 = 7).
Proof.
  pose proof ex_time_laws as Hlaws. apply (VoteSignBytes_injective ex_chain (ex_unsigned 0 (ex_block 10) 7) ex_chain (ex_unsigned 1 (ex_block 20) 7)); apply signable_ex; done.
Defined.

Lemma trio_powers : powers_ok (Validators trio).
Proof. apply trio_ok. Qed.
Lemma trio_cache : cache_ok trio.
Proof. by left. Qed.
Lemma VerifyCommit_exact_witness : cm_Height (ex_commit 10) = 5 /\ cm_BlockID (ex_commit 10) = ex_block 10 /\ length (cm_Signatures (ex_commit 10)) = length (Validators trio) /\
  (forall i cs, cm_Signatures (ex_commit 10) !! i = Some cs -> cs_BlockIDFlag cs <> BlockIDFlagAbsent -> valid_sig ex_chain trio (ex_commit 10) i i) /\
  2 * power (Validators trio) < 3 * power_of (Validators trio) (for_block (ex_commit 10)).
Proof.
  pose proof ex_crypto_laws as Hlaws. apply (proj1 (VerifyCommit_exact ex_chain trio (ex_block 10) 5 (ex_commit 10) trio_powers trio_cache)). exists (with_total 16 trio). exact (proj1 (ex_accepts 10 ltac:(left))).
Defined.

Lemma VerifyCommitLight_sound_witness :
  (cm_Height (ex_commit 10) = 5 /\ cm_BlockID (ex_commit 10) = ex_block 10 /\
    exists P, 2 * power (Validators trio) < 3 * power_of (Validators trio) P /\ forall j, P j = true -> valid_sig ex_chain trio (ex_commit 10) j j /\ for_block (ex_commit 10) j = true) /\
  (exists P, 1 * power (Validators trio) < 3 * power_of (Validators trio) P /\ forall j, P j = true -> signer ex_chain trio (ex_commit 10) j).
Proof.
  pose proof ex_crypto_laws as Hlaws.
  destruct (VerifyCommitLight_sound ex_chain trio (ex_block 10) 5 (ex_commit 10) (mkFraction 1 3) (with_total 16 trio) trio_powers trio_cache) as [H1 H2]; [done|].
  split; [apply H1; left; exact (proj1 (proj2 (ex_accepts 10 ltac:(left))))|apply H2; left; exact (proj2 (proj2 (ex_accepts 10 ltac:(left))))].
Defined.

Lemma ex_typed k : k ∈ [10; 20] -> commit_typed ex_chain (ex_commit k).
Proof. rewrite !elem_of_cons, elem_of_nil. intros [->|[->|[]]]; by split. Qed.
Lemma commits_accountable_witness : exists P, power (Validators trio) < 3 * power_of (Validators trio) P /\ forall j, P j = true -> exists v vote vote' bz bz' sig sig',
  Validators trio !! j = Some v /\ GetVote (ex_commit 10) (Z.of_nat j) = Some (Some vote) /\ GetVote (ex_commit 20) (Z.of_nat j) = Some (Some vote') /\
  vt_Height vote = 5 /\ vt_Height vote' = 5 /\ vt_BlockID vote = ex_block 10 /\ vt_BlockID vote' = ex_block 20 /\
  VoteSignBytes ex_chain vote = Some bz /\ VoteSignBytes ex_chain vote' = Some bz' /\ bz <> bz' /\ key_Verify (v_PubKey v) bz sig = true /\ key_Verify (v_PubKey v) bz' sig' = true.
Proof.
  pose proof ex_crypto_laws as Hlaws. pose proof ex_time_laws as Hlaws'.
  apply (commits_accountable ex_chain trio 5 (ex_commit 10) (ex_block 10) (ex_commit 20) (ex_block 20) trio_powers trio_cache (ex_typed 10 ltac:(left)) (ex_typed 20 ltac:(right; left))).
  - exists (with_total 16 trio). left. exact (proj1 (ex_accepts 10 ltac:(left))).
  - exists (with_total 16 trio). right. exact (proj1 (proj2 (ex_accepts 20 ltac:(right; left)))).
  - apply (bool_decide_unpack _). vm_compute. exact I.
Defined.

(** ** Vote sets *)
Lemma trio_setting : setting ex_chain 5 0 trio.
Proof. split; try done; [exact trio_powers|exact trio_cache|]. apply Forall_forall. by apply (bool_decide_unpack _). Qed.
(** A conflicting vote, a claim of a peer, a vote with a wrong signature and the votes for the
    block, out of order. *)
Definition ex_ops : list vs_op :=
  [OVote (ex_vote 0 (ex_block 20) 6); OPeer [1] (ex_block 10); OVote (ex_unsigned 2 (ex_block 10) 7); OVote (ex_vote 1 (ex_block 10) 8); OVote (ex_vote 0 (ex_block 10) 7)].
Lemma ex_ops_ok op : op ∈ ex_ops -> op_ok ex_chain op.
Proof.
  assert (Hb : forall k, k ∈ [10; 20] -> whole (ex_block k)) by (intros k; rewrite !elem_of_cons, elem_of_nil; intros [->|[->|[]]]; by repeat split).
  assert (Hs : forall k b t, bid_ok b -> 0 <= t < 2 ^ 63 -> signable ex_chain (ex_vote k b t)) by (intros k b t H1 H2; by destruct (signable_ex k b t H1 H2)).
  assert (Hall : Forall (op_ok ex_chain) ex_ops); [|by rewrite Forall_forall in Hall; apply Hall].
  pose proof (Hb 10 ltac:(left)) as H10. pose proof (Hb 20 ltac:(right; left)) as H20. unfold ex_ops. repeat apply Forall_cons_2; cbn [op_ok]; try done; (split; [done|]); (apply Hs || apply signable_ex); try lia; (apply H10 || apply H20).
Qed.
Lemma vote_set_majority_witness : exists vs, collect ex_chain 5 0 PrecommitType trio ex_ops = Some vs /\
  (exists ba, vs_BitArray vs = Some ba /\ Bits ba = 3 /\ vs_sum vs = power_of (Validators trio) (fun j => bit ba (Z.of_nat j)) /\ forall j, bit ba (Z.of_nat j) = true <-> exists b, voted ex_chain 5 0 PrecommitType trio ex_ops j b) /\
  (forall b, TwoThirdsMajority vs = (b, true) -> exists P, 2 * power (Validators trio) < 3 * power_of (Validators trio) P /\ forall j, P j = true -> voted ex_chain 5 0 PrecommitType trio ex_ops j b).
Proof.
  pose proof ex_time_laws as Hlaws'. destruct (vote_set_majority ex_chain 5 0 PrecommitType trio ex_ops trio_setting ex_ops_ok) as (vs & H1 & H2 & H3 & _). exists vs. exact (conj H1 (conj H2 H3)).
Defined.
Lemma ex_collected : exists vs, collect ex_chain 5 0 PrecommitType trio ex_ops = Some vs /\ TwoThirdsMajority vs = (ex_block 10, true).
Proof.
  assert (Ht : match collect ex_chain 5 0 PrecommitType trio ex_ops with Some vs => bool_decide (TwoThirdsMajority vs = (ex_block 10, true)) | None => false end = true) by (vm_compute; reflexivity).
  destruct (collect ex_chain 5 0 PrecommitType trio ex_ops) as [vs|]; [|discriminate]. exists vs. split; [reflexivity|]. by apply bool_decide_eq_true in Ht.
Qed.
Lemma commit_roundtrip_witness : exists vs commit vals' vs', collect ex_chain 5 0 PrecommitType trio ex_ops = Some vs /\ MakeCommit vs = Some commit /\ VerifyCommit ex_chain trio (ex_block 10) 5 commit = Some (vals', None) /\
  ToVoteSet commit ex_chain trio = Some vs' /\ TwoThirdsMajority vs' = (ex_block 10, true) /\ MakeCommit vs' = Some commit.
Proof.
  pose proof ex_crypto_laws as Hlaws. pose proof ex_time_laws as Hlaws'. destruct ex_collected as (vs & Hc & Hm). exists vs.
  destruct (commit_roundtrip ex_chain 5 0 trio ex_ops vs (ex_block 10) trio_setting ex_ops_ok Hc Hm eq_refl) as (commit & vals' & vs' & H). exists commit, vals', vs'. exact (conj Hc H).
Defined.

(** ** Bit arrays *)
Definition ex_bits (l : list Z) : BitArray := mkBitArray 100 l.
Lemma ex_bits_ok a b : 0 <= a < 2 ^ 64 -> 0 <= b < 2 ^ 64 -> ba_ok (ex_bits [a; b]).
Proof. intros Ha Hb. split; [done|done|]. apply Forall_cons_2; [done|apply Forall_cons_2; [done|constructor]]. Qed.
Lemma bit_array_pointwise_witness : (exists c, And (Some (ex_bits [5; 6])) (Some (ex_bits [4; 3])) = Some (Some c) /\ ba_ok c /\ Bits c = 100 /\ forall i, 0 <= i < Bits c -> bit c i = bit (ex_bits [5; 6]) i && bit (ex_bits [4; 3]) i) /\
  getTrueIndices (ex_bits [5; 6]) = Some (filter (fun i => bit (ex_bits [5; 6]) i = true) (seqZ 0 100)).
Proof.
  destruct (bit_array_pointwise (ex_bits [5; 6]) (ex_bits [4; 3]) 7 true) as (_ & H1 & _ & _ & _ & _ & H2); [by apply ex_bits_ok|by apply ex_bits_ok|]. exact (conj H1 H2).
Defined.

(** ** Merkle trees and parts *)
Definition ex_items : list bytes := [[1]; [2; 2]; []; [4]; [5]].
Lemma merkle_proofs_witness : exists root proofs, ProofsFromByteSlices toy_sha256 ex_items = Some (root, proofs) /\
  HashFromByteSlicesIterative toy_sha256 ex_items = Some root /\ exists p, proofs !! 3%nat = Some p /\ proof_Verify toy_sha256 p root [4] = Some None.
Proof.
  destruct (merkle_proofs toy_sha256 ex_items) as (root & proofs & Hp & _ & Hit & _ & _ & Hall & _); [reflexivity|].
  destruct (Hall 3%nat [4] eq_refl) as (p & Hi & _ & _ & _ & Hv). exists root, proofs. split; [exact Hp|]. split; [exact Hit|]. exists p. exact (conj Hi Hv).
Defined.

Definition ex_data : bytes := [1; 2; 3; 4; 5; 6; 7; 8].
Lemma part_sets_witness : exists ps parts, NewPartSetFromData toy_sha256 ex_data 3 = Some ps /\ ps_parts ps = Some <$> parts /\ reads (Some ps) ex_data /\
  exists bad ps', wire_part bad /\ add_parts toy_sha256 (Some (NewPartSetFromHeader (ps_Header (Some ps)))) (bad :: parts) = Some (Some ps') /\ reads (Some ps') [1; 2; 3; 7; 8; 7; 8].
Proof.
  destruct (part_sets toy_sha256 ex_data 3 3) as (ps & parts & Hnew & Hparts & _ & _ & Hr & _ & _ & _ & Hbad).
  - unfold parts_of, ex_data. simpl. lia.
  - split; discriminate.
  - destruct (Hbad eq_refl) as (bad & ps' & Hw & Ha & _ & Hr'). exists ps, parts. split; [exact Hnew|]. split; [exact Hparts|]. split; [exact Hr|].
    exists bad, ps'. exact (conj Hw (conj Ha Hr')).
Defined.
