(* ===== verification/Examples.v ===== *)
(** Concrete states on which the theorems about the bank, the prefix store, the state
    database and the EVM keeper apply: each witness evaluates the definitions on them. *)
From stdpp Require Import base gmap sets list strings sorting fin_maps relations.
From Stdlib Require Import Lia ZArith.
From S2P Require Import Prelude KVStore MergeIter Coins CoinsSpec Decimal DecimalSpec Vesting Bank BankSpec BankInv BankSupply BankOps StateDB StateDBEquiv StateDBRevert StateDBSpec PrefixStore EVMKeeper EVMKeeperSpec Proto EVMTypes EVMBlock EVMBlockSpec EVMPrune EVMSettle EVMEndBlock.
Local Open Scope Z_scope.

(** ** The bank *)
Definition addr1 : AccAddress := replicate 20 1.
Definition addr2 : AccAddress := replicate 20 2.
Definition minter_addr : AccAddress := replicate 20 9.
Definition ex_env : bank_env :=
  mkEnv 5 0 "usei" (fun m => if bool_decide (m = "mint"%string) then Some (minter_addr, [Minter; Burner]) else None) ∅ []
    (fun _ => None) (fun a => a).
Definition no_bank : Bank.bank := mkBank ∅ ∅ ∅ ∅ ∅ 0 [].
Definition after (o : bank_op) (b : Bank.bank) : Bank.bank := match run_op ex_env o b with Some (b', _) => b' | None => b end.

Definition mint_op : bank_op := OpMint "mint" [mkCoin "usei" 10].
Definition send_op : bank_op := OpSendModuleToAccount "mint" addr1 [mkCoin "usei" 4].
Definition ex_minted : Bank.bank := after mint_op no_bank.
Definition ex_sent : Bank.bank := after send_op ex_minted.

Lemma no_bank_wf : bank_wf no_bank.
Proof. split; intros k z; simpl; by rewrite lookup_empty. Qed.
Lemma no_bank_backed : backed ex_env no_bank.
Proof. intros d. unfold total, deferred_total, supply, val. simpl. rewrite !lookup_empty. by case_bool_decide. Qed.

Lemma mint_runs : run_op ex_env mint_op no_bank = Some (ex_minted, inl tt).
Proof. vm_compute. reflexivity. Qed.
Lemma send_runs : run_op ex_env send_op ex_minted = Some (ex_sent, inl tt).
Proof. vm_compute. reflexivity. Qed.

Lemma ex_steps : rtc (bank_step "usei") no_bank ex_sent.
Proof.
  eapply rtc_l; [exact (step_op _ ex_env mint_op _ _ _ eq_refl I mint_runs)|].
  eapply rtc_l; [exact (step_op _ ex_env send_op _ _ _ eq_refl I send_runs)|]. apply rtc_refl.
Qed.

Lemma minted_wf : bank_wf ex_minted /\ backed ex_env ex_minted.
Proof. apply (step_invariant ex_env no_bank); [exact (step_op _ ex_env mint_op _ _ _ eq_refl I mint_runs)|exact no_bank_wf|exact no_bank_backed]. Qed.

Lemma bank_ops_ledger_witness : value ex_env ex_sent addr1 "usei" = 4 * OneUseiInWei.
Proof.
  destruct (bank_ops_ledger ex_env send_op ex_minted ex_sent tt (proj1 minted_wf) I send_runs) as (_ & H & _).
  etransitivity; [exact (H addr1 "usei"%string)|]. by vm_compute.
Defined.

Lemma supply_invariant_witness : bank_wf ex_sent /\ backed ex_env ex_sent.
Proof.
  destruct (supply_invariant ex_env no_bank ex_sent no_bank_wf no_bank_backed ex_steps) as (H1 & H2 & _). by split.
Defined.

Lemma SubUnlockedCoins_exact_witness : exists b', SubUnlockedCoins ex_env minter_addr [mkCoin "usei" 11] true ex_minted = Some (b', inr ErrInsufficientFunds).
Proof.
  destruct (SubUnlockedCoins_exact ex_env ex_minted minter_addr [] [mkCoin "usei" 11]) as (b' & H & _).
  - exact (proj1 minted_wf).
  - vm_compute. reflexivity.
  - by apply coins_Validate_spec.
  - by apply coins_Validate_spec.
  - by repeat constructor.
  - intros c Hc. apply list_elem_of_singleton in Hc as ->. by vm_compute.
  - exists b'. etransitivity; [exact H|]. vm_compute. reflexivity.
Defined.

Lemma SubWei_exact_witness : exists b', SubWei ex_env minter_addr 3 ex_minted = Some (b', inl tt) /\
  changes ex_env (credit minter_addr "usei" (-3)) ex_minted b'.
Proof. apply (SubWei_exact ex_env ex_minted minter_addr 3 (proj1 minted_wf)); [done|lia|by vm_compute]. Defined.

Lemma TotalSupply_exact_witness : TotalSupply ex_env ex_minted = Some false.
Proof. apply (TotalSupply_exact ex_env ex_minted); [exact (proj1 minted_wf)|done|by vm_compute|exact (proj2 minted_wf)]. Defined.

(** 100 usei of [addr2], locked until time 10; the block's time is 5. *)
Definition ex_locked_bank : Bank.bank :=
  mkBank {[(addr2, "usei"%string) := 100]} ∅ {["usei"%string := 100]} ∅
    {[addr2 := VestingAcc (DelayedVestingAccount (mkBVA [mkCoin "usei" 100] [] [] 10))]} 0 [].

Lemma ex_locked_wf : bank_wf ex_locked_bank.
Proof.
  split; simpl.
  - intros k z [<- <-]%lookup_singleton_Some. by split.
  - intros k z. by rewrite lookup_empty.
  - intros k z [<- <-]%lookup_singleton_Some. by split.
  - intros k z. by rewrite lookup_empty.
Qed.

Lemma SubWei_spends_locked_witness : exists b', SubWei ex_env addr2 1 ex_locked_bank = Some (b', inl tt) /\
  SubUnlockedCoins ex_env addr2 [mkCoin "usei" 1] true b' = None.
Proof.
  apply (SubWei_spends_locked ex_env ex_locked_bank addr2 [mkCoin "usei" 100] 1 1 ex_locked_wf);
    first [done|by vm_compute|by apply coins_Validate_spec|split; by vm_compute].
Defined.

(** ** The prefix store *)
Lemma PrefixEndBytes_exact_witness : in_domain (Some [3; 255]) (PrefixEndBytes [3; 255]) [3; 255; 7] = true.
Proof. etransitivity; [apply (PrefixEndBytes_exact [3; 255] [3; 255; 7]); by repeat constructor|]. by vm_compute. Defined.

Definition ex_parent : gmap bytes bytes := {[ [1; 2] := [5] ]}.
Lemma prefix_store_view_witness : pf_Get [1] ex_parent [2] = Some [5] /\ pf_Iterator [1] ex_parent None None = Some [([2], [5])].
Proof.
  destruct (prefix_store_view [1] ex_parent) as (H1 & _ & _ & _ & H5); [by repeat constructor|done| |].
  - intros k [v Hv]. change (ex_parent !! k = Some v) in Hv. unfold ex_parent in Hv. apply lookup_singleton_Some in Hv as [<- _]. by repeat constructor.
  - split; [etransitivity; [exact (H1 [2])|]|etransitivity; [exact (H5 None None true)|]]; by vm_compute.
Defined.

(** Concrete states for the theorems about the state database and the EVM keeper: the
    keeper over a finite map and the bank of [Examples]. *)
(** A stand-in for the hash: 32 bytes. *)
Definition ex_keccak (code : bytes) : bytes := replicate 31 0 ++ [Z.of_nat (length code) mod 256].
Definition ex_ctx : sdkContext (gmap bytes bytes * Bank.bank) evm_event := mkCtx (∅, ex_sent) [] false "sei" 1 0.
#[local] Instance ex_keeper : EVMKeeper (gmap bytes bytes * Bank.bank) evm_event bank_error := evm_keeper ex_keccak ex_env.
#[local] Instance ex_keeper_laws : EVMKeeperLaws (gmap bytes bytes * Bank.bank) evm_event bank_error := evm_keeper_laws ex_keccak ex_env.

Definition evm1 : Address := addr1.
Definition evm2 : Address := addr2.
Definition slot1 : Hash := replicate 32 1.
Definition word5 : Hash := replicate 31 0 ++ [5].

(** A write, a snapshot, two more writes and a transfer, and a revert. *)
Definition ex_ops : list db_op :=
  [DSetState evm1 slot1 word5; DSnapshot; DSetState evm1 slot1 slot1; DSetNonce evm1 7; DTransfer evm1 evm2 3; DRevert 1;
   DGetState evm1 slot1; DGetNonce evm1; DGetBalance evm1].

Lemma revert_restores_copy_witness :
  exists s0, NewDBImpl ex_ctx false false = Some s0 /\
    snd <$> run_db s0 ex_ops = snd <$> ref_run (no_memo s0, [no_memo (init_db ex_ctx false false)]) ex_ops.
Proof. destruct (revert_restores_copy ex_ctx false false ex_ops) as (s0 & H & H1 & _). by exists s0. Defined.

Definition ex_db : DBImpl (gmap bytes bytes * Bank.bank) evm_event bank_error := default (init_db ex_ctx false false) (NewDBImpl ex_ctx false false).

Lemma Prepare_warms_witness : exists s', Prepare evm1 evm2 None [] [(evm2, [slot1])] ex_db = Some (s', tt) /\ in_slot (al_of s') evm2 slot1.
Proof.
  destruct (Prepare_warms evm1 evm2 None [] [(evm2, [slot1])] ex_db) as (s' & H & _ & _ & _ & _ & _ & Hacc); [apply NewTemporaryState_ok|].
  exists s'. split; [exact H|]. apply (Hacc (evm2, [slot1])); apply list_elem_of_singleton; reflexivity.
Defined.

Definition ex_final : DBImpl (gmap bytes bytes * Bank.bank) evm_event bank_error :=
  match Finalize [] [] ex_db with Some (s, _) => s | None => ex_db end.
Lemma Finalize_flushes_witness : Finalize [] [] ex_db = Some (ex_final, inl 0) /\
  Forall (fun c => cx_store c = cx_store (db_ctx ex_final)) (db_snapshottedCtxs ex_final).
Proof.
  assert (Hrun : Finalize [] [] ex_db = Some (ex_final, inl 0)) by (vm_compute; reflexivity).
  split; [exact Hrun|]. destruct (Finalize_flushes [] [] ex_db ex_final (inl 0) Hrun) as (_ & _ & H & _). exact H.
Defined.

Lemma keeper_reads_writes_witness :
  EVMKeeper.GetState (EVMKeeper.SetState ex_ctx evm1 slot1 word5) evm1 slot1 = word5 /\
  GetEVMAddress (SetAddressMapping ex_ctx addr2 evm1) addr2 = Some evm1.
Proof.
  destruct (keeper_reads_writes ex_keccak ex_env ex_ctx evm1 slot1 word5 3 [96] addr2) as ([H1 _] & _ & _ & (_ & H4 & _)); [done|done|lia|done|done|].
  split; [exact (H1 evm1 slot1 eq_refl)|exact (H4 addr2)].
Defined.

(** A debit of one usei and 5 wei, and a credit of 2 wei to another account. *)
Definition ex_balances : list balance_step := [BSub evm1 (OneUseiInWei + 5); BAdd evm2 2].
Definition ex_after : DBImpl (gmap bytes bytes * Bank.bank) evm_event bank_error :=
  match run_balances ex_keccak ex_env ex_balances ex_db with Some (s, _) => s | None => ex_db end.

Lemma sent_wf : bank_wf ex_sent.
Proof. apply (run_op_changes ex_env send_op ex_minted ex_sent tt (proj1 minted_wf) I send_runs). Qed.

Lemma balances_conserve_witness :
  held_with_surplus ex_env ex_after "usei" = held_with_surplus ex_env ex_db "usei" /\ surplus ex_after = OneUseiInWei + 3.
Proof.
  assert (Hrun : run_balances ex_keccak ex_env ex_balances ex_db = Some (ex_after, tt)) by (vm_compute; reflexivity).
  assert (Herr : db_err ex_after = None) by (vm_compute; reflexivity).
  destruct (balances_conserve ex_keccak ex_env eq_refl ex_balances ex_db ex_after sent_wf) as (_ & H & _).
  - by repeat constructor.
  - exact Hrun.
  - exact Herr.
  - split; [exact (H "usei"%string)|]. vm_compute. reflexivity.
Defined.

(** A block of three transactions for the theorems about the end of a block: one that is
    executed and pays a tip, one that fails before execution, and one that is not of the
    EVM. *)
(** ** Parameters of the model *)
Definition ex_tx_hash (msg : Z) : option Hash := Some (replicate 32 msg).
Definition ex_EmptyTxsHash : Hash := replicate 32 0.
Definition ex_BytesToBloom (b : bytes) : option bytes := if bool_decide (length b <= 256)%nat then Some (last_bytes 256 b) else None.
Definition ex_CreateBloom (_ : pb.Receipt) : bytes := replicate 256 1.
Definition ex_ORBytes : bytes -> bytes -> bytes := zip_with Z.lor.

(** ** The transactions *)
Definition ex_tip : list balance_step := [BSub evm1 (OneUseiInWei + 5); BAdd (db_coinbaseEvmAddress ex_db) 2].
Definition ex_tipped : DBImpl (gmap bytes bytes * Bank.bank) evm_event bank_error :=
  match run_balances ex_keccak ex_env ex_tip ex_db with Some (s, _) => s | None => ex_db end.

(** What they leave in the transient store: 3 wei of the surplus from the ante handler,
    the rest from the execution; the second transaction has bumped its nonce. *)
Definition at_tx (i : Z) : sdkContext (gmap bytes bytes * Bank.bank) evm_event := mkCtx (∅, db_bank ex_tipped) [] false "sei" 10 i.
Definition run_transient (m : KM (P := gmap bytes bytes) (T := gmap bytes bytes) ()) (i : Z) (t : gmap bytes bytes) : gmap bytes bytes :=
  match m (at_tx i, t) with Some (st, _) => st.2 | None => t end.
Definition ex_transient : gmap bytes bytes :=
  run_transient SetNonceBumped 1
    (run_transient (AppendToEvmTxDeferredInfo [] slot1 OneUseiInWei) 0 (run_transient (AddAnteSurplus slot1 3) 0 ∅)).

(** A slot that holds zeros, one that does not, a transaction hash and a legacy receipt. *)
Definition ex_evm : gmap bytes bytes :=
  <[StateKeyPrefix ++ evm1 ++ slot1 := word5]> (<[StateKeyPrefix ++ evm2 ++ slot1 := replicate 32 0]> (<[TxHashesPrefix ++ [1] := slot1]>
    (<[ReceiptKeyPrefix ++ slot1 := pb.enc_Receipt pb.ex_receipt]> ∅))).
Definition ex_end : kst (P := gmap bytes bytes) (T := gmap bytes bytes) :=
  (mkCtx (ex_evm, db_bank ex_tipped) [] false "sei" 10 2, ex_transient).
Definition ex_msgs : list (option Z) := [Some 1; Some 2; None].
Definition ex_results : list ExecTxResult := [mkTxResult 0 []; mkTxResult 5 [120]; mkTxResult 0 []].
Definition ex_infos : list pb.DeferredInfo :=
  [pb.mkDeferredInfo 0 slot1 [] (Some OneUseiInWei) []; pb.mkDeferredInfo 1 (replicate 32 2) [] None [120]].

Definition ex_run :=
  EndBlock ex_env ex_tx_hash ex_EmptyTxsHash ex_BytesToBloom ex_CreateBloom ex_ORBytes DefaultParams (Some 10000000) ex_msgs ex_results 400000 ex_end.

Lemma tipped_held :
  bank_wf (bank_of ex_end) /\ (forall d, total ex_env (bank_of ex_end) d + deferred_total (bank_of ex_end) d
    + (if bool_decide (BaseDenom = d) then OneUseiInWei + 3 else 0) = supply (bank_of ex_end) d * OneUseiInWei).
Proof.
  assert (Hrun : run_balances ex_keccak ex_env ex_tip ex_db = Some (ex_tipped, tt)) by (vm_compute; reflexivity).
  assert (Herr : db_err ex_tipped = None) by (vm_compute; reflexivity).
  destruct (balances_held ex_keccak ex_env eq_refl ex_tip ex_db ex_tipped sent_wf) as (Hwf & Hh & Hs).
  - by repeat constructor.
  - exact Hrun.
  - exact Herr.
  - split; [exact Hwf|]. intros d. specialize (Hh d). destruct (Hs d) as [Hd Hsup]. change (bank_of ex_end) with (db_bank ex_tipped).
    assert (Hb : backed ex_env ex_sent).
    { apply (step_invariant ex_env ex_minted); [exact (step_op _ ex_env send_op _ _ _ eq_refl I send_runs)|exact (proj1 minted_wf)|exact (proj2 minted_wf)]. }
    specialize (Hb d). rewrite Hsup, Hd. change (db_bank ex_db) with ex_sent in *. rewrite <- Hb.
    unfold held_with_surplus in Hh. change (db_bank ex_db) with ex_sent in Hh.
    replace (surplus ex_tipped) with (OneUseiInWei + 3) in Hh by (vm_compute; reflexivity).
    replace (surplus ex_db) with 0 in Hh by (vm_compute; reflexivity). destruct (bool_decide (BaseDenom = d)); lia.
Qed.

Lemma ex_infos_read : GetAllEVMTxDeferredInfo ex_tx_hash ex_msgs ex_results ex_end.2 = Some ex_infos /\ GetAnteSurplusSum ex_end.2 = Some 3.
Proof. split; vm_compute; reflexivity. Qed.
Lemma ex_can_receive : CanAddressReceive ex_end.1 (GetModuleAddress ex_env FeeCollectorName) = true /\ CanAddressReceive ex_end.1 (GetModuleAddress ex_env ModuleName) = true.
Proof. split; vm_compute; reflexivity. Qed.

(** The run of [EndBlock] on this block backs the supply again. *)
Lemma EndBlock_settles_witness : match ex_run with Some (st', _) => backed ex_env (bank_of st') | None => False end.
Proof.
  assert (Hok : match ex_run with Some _ => true | None => false end = true) by (vm_compute; reflexivity).
  destruct ex_run as [[st' []]|] eqn:Hrun; [|discriminate]. clear Hok.
  refine (proj2 (EndBlock_settles ex_env ex_EmptyTxsHash eq_refl ex_tx_hash ex_BytesToBloom ex_CreateBloom ex_ORBytes DefaultParams (Some 10000000)
    ex_msgs ex_results 400000 ex_infos 3 ex_end st' (proj1 tipped_held) (proj1 ex_can_receive) (proj2 ex_can_receive) (proj1 ex_infos_read) (proj2 ex_infos_read) Hrun) _ _).
  - vm_compute. discriminate.
  - intros d. rewrite <- (proj2 tipped_held d). replace (3 + surplus_sum ex_EmptyTxsHash ex_infos) with (OneUseiInWei + 3) by (vm_compute; reflexivity). reflexivity.
Defined.

Lemma ex_slots_ok : slots_ok ex_end.1.
Proof.
  split; [|vm_compute; reflexivity]. intros k [v Hv]. change (ex_evm !! k = Some v) in Hv. unfold ex_evm in Hv.
  repeat (apply lookup_insert_Some in Hv as [[<- _]|[_ Hv]]; [vm_compute; repeat constructor; (lia || discriminate)|]).
  done.
Qed.

Definition ex_left : list tx_left := [Executed slot1 [] OneUseiInWei; Failed (replicate 32 2) [120]; NotEVM].
Definition ex_antes : gmap bytes Z := {[slot1 := 3]}.
Lemma ex_transient_view : ex_transient =
  <[NonceBumpPrefix ++ PutUint64 1 := [1]]> (<[DeferredInfoPrefix ++ PutUint64 0 := pb.enc_DeferredInfo (pb.mkDeferredInfo 0 slot1 [] (Some OneUseiInWei) [])]>
    (<[AnteSurplusPrefix ++ slot1 := int_Marshal (Some 3)]> ∅)).
Proof. vm_compute. reflexivity. Qed.
Lemma ex_in_order : block_in_order ex_env ex_EmptyTxsHash ex_tx_hash DefaultParams (Some 10000000) ex_msgs ex_results 400000 ex_left ex_antes ex_end.
Proof.
  split.
  - exact ex_slots_ok.
  - intros k v Hv. change (ex_evm !! (ReceiptKeyPrefix ++ k) = Some v) in Hv. unfold ex_evm in Hv. rewrite !(lookup_insert_ne _ (_ ++ _ : bytes)) in Hv by discriminate.
    apply lookup_insert_Some in Hv as [[_ <-]|[_ Hv]]; [|by rewrite lookup_empty in Hv]. left. exists pb.ex_receipt. split; [exact pb.ex_receipt_ok|]. vm_compute. reflexivity.
  - split; [vm_compute; reflexivity|]. split; [intros min Hmin; vm_compute in Hmin; injection Hmin as <-; reflexivity|].
    split; [exists None; split; [vm_compute; reflexivity|split; [discriminate|reflexivity]]|]. repeat (apply conj); (discriminate || reflexivity).
  - split; [discriminate|reflexivity].
  - intros k [v Hv]. change (ex_transient !! k = Some v) in Hv. rewrite ex_transient_view in Hv.
    repeat (apply lookup_insert_Some in Hv as [[<- _]|[_ Hv]]; [vm_compute; repeat constructor; (lia || discriminate)|]). done.
  - reflexivity.
  - intros i r Hr. change (kv_view ex_end.2) with ex_transient. destruct i as [|[|[|i]]]; [..|done]; injection Hr as <-; eexists _, _; (split; [reflexivity|]); (split; [reflexivity|]).
    + split; [reflexivity|]. split; [apply Nat.leb_le; reflexivity|]. eexists. split; vm_compute; reflexivity.
    + split; [vm_compute; reflexivity|]. split; [by exists 2|]. split; [vm_compute; discriminate|]. split; [reflexivity|]. split; [discriminate|reflexivity].
    + split; vm_compute; reflexivity.
  - intros k. change (kv_view ex_end.2) with ex_transient. rewrite ex_transient_view. rewrite !(lookup_insert_ne _ (_ ++ PutUint64 _ : bytes)) by discriminate.
    unfold ex_antes. destruct (decide (k = slot1)) as [->|Hne]; [by rewrite lookup_insert_eq, lookup_singleton_eq|].
    rewrite lookup_insert_ne, lookup_singleton_ne by (congruence || (intros Heq%app_inv_head; congruence)). reflexivity.
  - exact (proj1 tipped_held).
  - exact ex_can_receive.
  - intros i hash bloom surplus Hr. destruct i as [|[|[|i]]]; [|discriminate Hr..]. clear Hr. vm_compute. exact I.
  - vm_compute. reflexivity.
  - vm_compute. reflexivity.
Qed.

Lemma EndBlock_returns_witness : is_Some ex_run.
Proof.
  apply (EndBlock_returns ex_env ex_EmptyTxsHash eq_refl ex_tx_hash ex_BytesToBloom ex_CreateBloom ex_ORBytes DefaultParams (Some 10000000)
    ex_msgs ex_results 400000 ex_left ex_antes ex_end); [|exact ex_in_order].
  intros b Hb. unfold ex_BytesToBloom. rewrite bool_decide_true by exact Hb. by eexists.
Defined.

(** ** Fees and pruning *)
Definition ex_min : Z := 1000000000 * One.
Definition ex_max : Z := 1000000000000 * One.

Ltac evaluate := lazymatch goal with
  | |- _ /\ _ => split; vm_compute; (reflexivity || discriminate)
  | |- _ => vm_compute; reflexivity
  end.

(** A full block at the minimum fee. *)
Lemma base_fee_adjustment_witness : exists c' fee,
  AdjustDynamicBaseFeePerGas DefaultParams (Some 10000000) 10000000 ex_end.1 = Some (c', Some fee) /\ GetNextBaseFeePerGas DefaultParams c' = Some fee /\ ex_min <= fee.
Proof.
  destruct (base_fee_adjustment DefaultParams ex_end.1 ex_min ex_min ex_max 10000000 10000000) as (c' & fee & _ & _ & _ & H1 & H2 & [H3 _] & _);
    [evaluate..|].
  exists c', fee. split; [exact H1|]. split; [exact H2|exact H3].
Defined.

(** A full block without a limit, at twice the minimum fee. *)
Definition ex_fee_ctx := SetNextBaseFeePerGas ex_end.1 (2 * ex_min).
Lemma unlimited_gas_lowers_fee_witness : exists c' fee,
  AdjustDynamicBaseFeePerGas DefaultParams (Some (-1)) 10000000 ex_fee_ctx = Some (c', Some fee) /\ fee < 2 * ex_min.
Proof.
  destruct (unlimited_gas_lowers_fee DefaultParams ex_fee_ctx (2 * ex_min) ex_min ex_max (default 0 (NewDecWithPrec 39 4)) 10000000) as (c' & fee & H1 & H2);
    [evaluate..|].
  exists c', fee. split; [exact H1|]. eapply Z.le_lt_trans; [exact H2|]. vm_compute. reflexivity.
Defined.

Lemma prune_invisible_witness : exists c' n, PruneZeroStorageSlots 1 ex_end.1 = Some (c', n) /\ EVMKeeper.GetState c' evm2 slot1 = EVMKeeper.GetState ex_end.1 evm2 slot1.
Proof.
  destruct (prune_invisible 1 ex_end.1 ltac:(lia) ex_slots_ok) as (c' & n & H1 & _ & H2 & _). exists c', n. split; [exact H1|exact (H2 evm2 slot1)].
Defined.

Lemma prune_sweeps_storage_witness : exists c', prune_times 2 1 ex_end.1 = Some c' /\ zero_free c'.
Proof.
  apply (prune_sweeps_storage 2 1 ex_end.1); [lia|exact ex_slots_ok|vm_compute; reflexivity|].
  replace (size (slots ex_end.1)) with 2%nat by (vm_compute; reflexivity). lia.
Defined.
